(* ===== verification/_CoqProject ===== *)
-Q . S2P
Prelude.v
Monad.v
Totals.v
Rlp.v
Fee.v
Emission.v
U256.v
U256Props.v
U256Wf.v
EvmBase.v
EvmHost.v
EvmInterp.v
EvmLogic.v
EvmExec.v
EvmProps.v
Pool.v
Zrc20.v
Votes.v
Block.v
Safety.v
Liveness.v
Proposer.v
HotStuff.v
Progress.v
Transaction.v
Mempool.v
State.v
Supply.v
Nibbles.v
TrieTree.v
Trie.v
TrieProps.v
StateRoot.v
Commitments.v
Receipts.v
ZvmBase.v
ZvmHost.v
ZvmInterp.v
ZvmWords.v
ZvmLogic.v
ZvmExec.v
ZvmProps.v
ZvmChain.v
Validators.v
StakingTx.v
StakingLedger.v
StakingHandler.v
Slashing.v
Pipeline.v
Executor.v
ExecutorProps.v
ZvmBlock.v
StakingExec.v
