(* ===== verification/Prelude.v ===== *)
(** * Zebvix chain: verification of the execution and consensus core

    The program is the Rust workspace under [src/zbx-chain]: a proof-of-stake
    chain that runs EVM and ZVM contracts. This library models its
    serialisation, fee market, 256-bit arithmetic, both interpreters, block
    headers, HotStuff consensus, transactions, mempool, account state, Merkle
    tries, staking, slashing and block executor, and proves what each part
    promises and how the parts compose.

    ** The program's parts and the files that model them

    All paths are relative to [src/zbx-chain/crates].

    - [Prelude]: outcomes of fallible code ([Ok], [Err], [Panic]), machine
      integers, big-endian bytes, slices with their panics, automation.
    - [Monad]: the state-and-error monad both interpreters are written in, and
      the triples of its Hoare logic.
    - [Totals]: sums over the balances of a finite map.
    - [Rlp] (module [Rlp]): [zbx-rlp/src]. The stream builder, the zero-copy
      decoder and the [Encodable]/[Decodable] traits (as classes). Round trips
      of strings, numbers and lists; the decoder never panics on any input.
    - [Fee] (module [Fee]): [zbx-fee/src] (base fee, effective price, tip
      estimator, legacy oracle). Bounds and monotonicity of the base fee.
    - [U256], [U256Props], [U256Wf]: the word arithmetic of
      [zbx-evm/src/stack.rs], each loop written out, proved equal to the
      arithmetic modulo 2^256 it stands for; [U256Wf] has the closure lemmas.
    - [EvmBase]: [error.rs], [gas.rs], [opcodes.rs], [memory.rs] and the stack
      of [stack.rs]. Memory expansion cost and read-after-write.
    - [EvmHost]: [host.rs] and [zbx-types/src/payid.rs]. The trait [Host] is a
      class, what the interpreter relies on is the class [HostLaws], and
      [MockHost] is the instance that discharges it.
    - [EvmInterp]: [interpreter.rs], every instruction of [step] with [do_call]
      and [do_create] and the precompile dispatch of [precompiles.rs].
    - [EvmLogic], [EvmExec]: a Hoare logic for handlers (invariant, gas, host
      discipline) and the triple of every handler.
    - [EvmProps]: termination, machine invariants, static frames, rollback of
      failed calls and creates, snapshot balance, jump destinations, panics;
      its module [Concrete] runs the interpreter on small programs.
    - [Zrc20]: [zbx-contracts/src/zrc20_token.rs], the native token engine. Its
      books balance, freezes and time locks hold under every call.
    - [Pool]: [pair.rs], [security.rs], [fee.rs] and [error.rs] of
      [zbx-pool/src], the constant-product pair. Swaps are exact and never
      lower the product of the reserves; liquidity is priced fairly.
    - [Votes]: [zbx-consensus/src/vote.rs] and [error.rs]. Certificates come
      from a real quorum; equivocation evidence.
    - [Block]: [zbx-types/src/block.rs]. The header encoding is injective, a
      tip hash determines the chain, the base-fee rule of validators.
    - [Safety]: [safety_rules.rs], with a state file whose writes may fail. An
      honest validator does not double-vote, restarts from a current file
      included; what a stale or lost file and an epoch change do to that.
    - [Liveness]: [liveness.rs] and [pacemaker.rs]. Back-off, timeout
      certificates, monotone rounds.
    - [Proposer]: [proposer.rs]. Leader election and committee sampling.
    - [HotStuff]: [hotstuff.rs], [block_store.rs], [round_manager.rs]. The
      three-phase driver over [Votes], [Safety], [Liveness] and [Block]:
      commits are certified, conflicting commits expose more than a third of
      the validators, equivocation is detected.
    - [Progress]: a round of the driver on a whole network: a quorum of live
      nodes that start clean and whose messages arrive commits the block.
    - [Transaction]: [zbx-types/src/transaction.rs] and the signature recovery
      of [zbx-crypto/src/secp256k1.rs]. What a signature covers.
    - [Mempool]: [zbx-mempool/src]. Admission, replacement, promotion,
      confirmation and selection; the pool's invariant, how far its limits can
      be exceeded, and reservations.
    - [State]: [zbx-types/src/account.rs], [zbx-state/src/state_db.rs] and the
      [StateView] and [StateDiff] of [zbx-execution/src]. Both overlays refine
      one abstract map of accounts, but for the database's reads of a
      tombstoned account; write guards; snapshots.
    - [Supply]: the sum of all balances under the writes and deletions of
      [State], shared by the theorems about money.
    - [Nibbles], [TrieTree], [Trie], [TrieProps]: [zbx-trie/src]. [Nibbles] has
      the packed paths, [Trie] the code, [TrieTree] the pure trees it
      represents, [TrieProps] the refinement of a finite map with non-empty
      values, what a root commits to, proofs and persistence.
    - [StateRoot]: [zbx-state/src/mpt.rs] and [trie_adapter.rs]. State roots
      are independent of iteration order and bind the world state.
    - [Commitments]: [zbx-crypto/src/mpt.rs], the second Merkle Patricia trie,
      proved equal to the one of [zbx-trie].
    - [Receipts]: [zbx-types/src/receipt.rs], [zbx-crypto/src/merkle.rs],
      [bloom.rs] and [verifier.rs] of [zbx-execution/src], and
      [zbx-primitives/src/bloom.rs]. Merkle proofs, receipts root, bloom
      filter; a block hash binds the body.
    - [ZvmBase]: [stack.rs], [memory.rs], [gas.rs], [opcodes.rs], [context.rs]
      and [error.rs] of [zbx-zvm/src], the second virtual machine.
    - [ZvmHost]: the trait of [zbx-zvm/src/host.rs] as a class, and
      [ProductionZvmHost] of [zbx-state/src/host_zvm.rs] over [StateView].
    - [ZvmInterp]: [interpreter.rs] and [executor.rs] of [zbx-zvm/src], every
      instruction with [do_call] and [do_create], and the PayID precompile of
      [precompiles.rs].
    - [ZvmWords]: the word arithmetic of the two virtual machines agrees, and
      where it does not.
    - [ZvmLogic], [ZvmExec]: what the interpreter relies on of its host
      ([ZvmHostLaws]), the machine invariant, and the triple of every handler.
    - [ZvmProps]: termination within the gas limit, machine invariants, which
      operands can abort the process, for every host that keeps the laws.
    - [ZvmChain]: the production host keeps them; static frames change nothing
      and no execution creates money. Its module [Samples] runs bytecode.
    - [Emission]: the halving schedule of [zbx-types/src/lib.rs].
    - [Validators]: [validator.rs], [rewards.rs], [error.rs] and the constants
      of [lib.rs] in [zbx-staking/src], key parsing and proof of possession of
      [zbx-crypto/src/bls.rs]. Elections, reward distribution, claims.
    - [StakingTx]: [zbx-types/src/staking_tx.rs], the codec of staking calls.
    - [StakingLedger]: the delegation and unbonding columns of
      [zbx-storage/src/db.rs], the write-set [zbx-staking/src/delta.rs] and its
      flush in [node/src/block_producer.rs]. The write-set refines the database.
    - [StakingHandler]: [zbx-staking/src/tx_handler.rs]. The escrow's books
      balance and the delegations add up after every call.
    - [Slashing]: [slashing_v2.rs]. Evidence records, amounts and appeals.
    - [Pipeline]: [persistence.rs] and [pipeline.rs], with the slashing columns
      of [db.rs] and [dispatch_file_appeal_tx]. Burns happen at most once,
      whichever disk writes fail.
    - [Executor], [ExecutorProps]: [zbx-execution/src/executor.rs] and the
      header patch of [node/src/block_producer.rs]. The effect of a transaction, conservation
      of money, termination, agreement of producer and verifier.
    - [ZvmBlock]: blocks with ZVM transactions, without the staking dispatcher:
      if the fee caps reach the base fee, no block creates money beyond its
      reward, and every block's execution ends.
    - [StakingExec]: the staking crate as the executor's dispatcher, with the
      [BalanceAccess] of [StateView]. The escrow stays solvent over a block of
      EVM and staking transactions.

    ** How the parts interact

    The interpreter calls the word arithmetic, the gas tables and the memory,
    and reaches chain state only through [Host]; its theorems are proved for
    every host that satisfies [HostLaws]. CREATE addresses hash the RLP list
    of sender and nonce, which [EvmProps] proves equal to what [Rlp] encodes.
    The consensus driver stores blocks under the header hash of [Block], asks
    [Safety] for its votes, counts the votes of others in the accumulators of
    [Votes] and moves the rounds of [Liveness]. [Block] compares the base fee
    of validators with the one of [Fee].
    The mempool checks transactions with [Transaction]; the executor runs them
    on the [StateView] of [State] with the interpreter of [EvmInterp] or, for
    accounts deployed to it, of [ZvmInterp] on the production host, and
    [ExecutorProps] shows that what the mempool admits passes the executor's
    checks. The executor's outputs are the roots of [StateRoot], [Commitments]
    and [Receipts], which the verifier compares with the header of [Block].
    A transaction to the staking address is decoded by [StakingTx] and handled
    by [StakingHandler] on the validator set of [Validators] and the write-set
    of [StakingLedger], or, for an appeal, by [Pipeline]. [Executor] sees them
    through the class [StakingOps] with the laws [StakingLaws];
    [StakingExec.staking_laws] discharges the laws. [Pipeline] turns the
    evidence of [Votes] into records of [Slashing] and burns stake of
    [Validators].

    ** Conventions

    A [w]-bit integer is a [Z]; plain arithmetic wraps, as the release profile
    leaves overflow checks off. A 32-byte word, a hash, an address and a key
    are lists of bytes. Code that can fail returns [outcome]; a panic, which
    aborts the process, is the value [Panic]. A [&mut self] method returns its
    result with the new state. Hash maps are [gmap]s; where the code iterates
    over one, the order is the parameter [MapIter]. Log output is left out.
    Debug assertions are off, as in the release profile: the write guards of
    [State] clamp and do not panic.

    Statements that need the hash to be collision free say so about the finite
    set of buffers that are hashed ([apart], [collision_free]); these are
    decidable and checked on concrete data in the witnesses.

    keccak-256 and BLS signatures belong to third-party crates: they are the
    classes [Keccak] and [Bls], with [KeccakOk] (32-byte output) and [BlsLaws]
    (aggregates of valid signatures verify, own signatures verify) as what the
    code relies on; [Votes.Toy] has instances that satisfy them. The bodies of
    the precompiled contracts are the class [Precompiles], with [PrecompilesOk]
    (byte output, a 64-bit gas count, no panic); those of the ZVM other than
    PayID are [ZvmPrecompiles] with [ZvmPrecompilesOk]. The [rlp] crate's list
    encoder is [RlpCrate], with [ZbxRlp] as an instance that satisfies its
    laws, secp256k1 recovery is [K256], a trie's key-value store is [TrieDB] and
    [NodeColumn]. For staking, the [rlp] crate's reader is [RlpReader], bincode
    is [Bincode], sha3-256 is [Sha3], the curve checks of BLS keys are
    [BlsPoints], the success of each disk write is [Disk], and the listing
    orders of the hash maps are [VsIter] and [DeltaIter]. The success of each
    write of the voting state is the field [disk] of [Safety.SafetyRules].
    Running out of memory is modelled where the length of an allocation is an
    operand that need not be paid for, the vectors of the ZVM: the class
    [ZvmBase.Heap] is the size up to which the allocator serves one, and a
    longer one is a [Panic]. Other allocations succeed.

    ** Fuel

    [EvmInterp.run] takes fuel, which bounds steps and nesting;
    [EvmProps.run_terminates] shows that some fuel always suffices, so the
    theorems about finished runs speak of every run. [ZvmInterp.run] needs no
    more fuel than the gas limit plus one ([ZvmProps.zvm_terminates]). [U256.u256_exp] runs 256
    iterations, which [exp_correct] shows enough; the scan loops of [Rlp] and
    the jump-destination walk have fuel equal to the input length plus one.

    The descents of [Trie] take the length of the path plus two, its decoder
    the length of the input, the Merkle tree of [Receipts] the number of
    leaves; the theorems about them show these enough. The executor hands its
    fuel to the interpreters; [ExecutorProps.block_terminates] (EVM and staking
    transactions) and [ZvmBlock.zvm_block_terminates] (EVM and ZVM) show that
    some fuel suffices for a block.

    ** What is not modelled

    Precompile bodies (curve, hash and oracle code), [fee_history.rs] (floating
    point), signature and hash algorithms, networking, storage engines, RPC and
    the other contracts, and the DeFi crates beside the pair of [zbx-pool]. In consensus, [hotstuff2.rs], [epoch_manager.rs] and
    [gossip.rs]. In staking, the superseded detector [slashing.rs], the
    floating-point displays [estimate_apy] and [commission_factor], and
    [delegation.rs] and [staking_escrow.rs], which use names that do not exist.
    Of the ZVM, the test host [MockZvmHost] and the tracer. A candidate for
    later: [hotstuff2.rs] and the epoch manager. *)

From stdpp Require Export base numbers list sets gmap.
From Stdlib Require Export ZArith Lia.

#[global] Open Scope Z_scope.

(** ** Results of Rust functions

    A fallible Rust function returns [Ok] or [Err]; an out-of-range slice
    index, an explicit [panic!] or a failed [expect] aborts the process (the
    release profile sets [panic = "abort"]), which is the value [Panic]. *)

Inductive outcome (E A : Type) : Type :=
| Ok (a : A)
| Err (e : E)
| Panic.
Arguments Ok {E A} a.
Arguments Err {E A} e.
Arguments Panic {E A}.

Definition outcome_bind {E A B} (m : outcome E A) (k : A → outcome E B) : outcome E B :=
  match m with
  | Ok a => k a
  | Err e => Err e
  | Panic => Panic
  end.

Declare Scope zbx_scope.
Delimit Scope zbx_scope with zbx.
Notation "'let?' x := m 'in' k" :=
  (outcome_bind m (fun x => k))
    (at level 10, x name, m at level 100, k at level 200) : zbx_scope.
Notation "'let?' ' p := m 'in' k" :=
  (outcome_bind m (fun x => match x with p => k end))
    (at level 10, p pattern, m at level 100, k at level 200) : zbx_scope.
#[global] Open Scope zbx_scope.

(** [Option::ok_or] *)
Definition ok_or {E A} (o : option A) (e : E) : outcome E A :=
  match o with Some a => Ok a | None => Err e end.

Definition is_ok {E A} (m : outcome E A) : Prop := ∃ a, m = Ok a.

(** ** Machine integers

    An unsigned [w]-bit integer is a [Z] in [0, 2^w). Plain [+], [-] and [*]
    wrap (the release profile leaves overflow checks off); the [checked_*] and
    [saturating_*] methods are written out. *)

Definition U64_MAX : Z := 2 ^ 64 - 1.
Definition U128_MAX : Z := 2 ^ 128 - 1.

Definition U128 : Z := 2 ^ 128.

Definition wrap64 (x : Z) : Z := x mod 2 ^ 64.
Definition wrap128 (x : Z) : Z := x mod U128.
Definition wrap8 (x : Z) : Z := x mod 2 ^ 8.

Definition is_u8 (x : Z) : Prop := 0 ≤ x < 2 ^ 8.
Definition is_u64 (x : Z) : Prop := 0 ≤ x < 2 ^ 64.
Definition is_u128 (x : Z) : Prop := 0 ≤ x < U128.

Definition checked_add64 (a b : Z) : option Z :=
  if a + b <=? U64_MAX then Some (a + b) else None.
Definition checked_mul64 (a b : Z) : option Z :=
  if a * b <=? U64_MAX then Some (a * b) else None.
Definition checked_div64 (a b : Z) : option Z :=
  if b =? 0 then None else Some (a / b).
Definition saturating_add64 (a b : Z) : Z := Z.min (a + b) U64_MAX.
Definition saturating_sub (a b : Z) : Z := Z.max 0 (a - b).
Definition saturating_mul64 (a b : Z) : Z := Z.min (a * b) U64_MAX.
Definition saturating_mul128 (a b : Z) : Z := Z.min (a * b) U128_MAX.
Definition saturating_add128 (a b : Z) : Z := Z.min (a + b) U128_MAX.
Definition checked_add128 (a b : Z) : option Z := if a + b <=? U128_MAX then Some (a + b) else None.
Definition checked_sub (a b : Z) : option Z := if b <=? a then Some (a - b) else None.
Definition checked_mul128 (a b : Z) : option Z :=
  if a * b <=? U128_MAX then Some (a * b) else None.

(** [iter().sum::<u128>()] *)
Definition sum128 (l : list Z) : Z := fold_left (fun acc x => wrap128 (acc + x)) l 0.

(** ** Bytes and big-endian numbers *)

Abbreviation bytes := (list Z).
Definition wf_bytes (l : bytes) : Prop := Forall is_u8 l.

(** The number a big-endian byte string denotes. *)
Definition be_val (l : bytes) : Z := fold_left (fun acc b => acc * 256 + b) l 0.

(** [to_be_bytes]: the [n] big-endian bytes of a number. *)
Fixpoint to_be (n : nat) (z : Z) : bytes :=
  match n with
  | O => []
  | S n' => to_be n' (z / 256) ++ [z mod 256]
  end.

(** Rust's [<] on byte arrays and slices: lexicographic. *)
Fixpoint lex_lt (a b : bytes) : bool :=
  match a, b with
  | [], [] => false
  | [], _ :: _ => true
  | _ :: _, [] => false
  | x :: a', y :: b' => if x =? y then lex_lt a' b' else x <? y
  end.

(** [&data[i..j]]: the sub-slice, with the two panics of the index. *)
Definition slice {E} (data : bytes) (i j : Z) : outcome E bytes :=
  if (i <=? j) && (j <=? Z.of_nat (length data))
  then Ok (take (Z.to_nat (j - i)) (drop (Z.to_nat i) data))
  else Panic.

(** Number of leading zero bytes: [iter().take_while(|b| b == 0).count()]. *)
Fixpoint leading_zeros (l : bytes) : nat :=
  match l with
  | [] => O
  | b :: l' => if b =? 0 then S (leading_zeros l') else O
  end.

(** ** Automation *)

Create HintDb zbx.

Ltac simp_bool :=
  repeat match goal with
  | H : (_ && _)%bool = true |- _ => apply andb_true_iff in H as [??]
  | H : (_ || _)%bool = false |- _ => apply orb_false_iff in H as [??]
  | H : negb _ = true |- _ => apply negb_true_iff in H
  | H : negb _ = false |- _ => apply negb_false_iff in H
  | H : (_ <? _) = true |- _ => apply Z.ltb_lt in H
  | H : (_ <? _) = false |- _ => apply Z.ltb_ge in H
  | H : (_ <=? _) = true |- _ => apply Z.leb_le in H
  | H : (_ <=? _) = false |- _ => apply Z.leb_gt in H
  | H : (_ =? _) = true |- _ => apply Z.eqb_eq in H
  | H : (_ =? _) = false |- _ => apply Z.eqb_neq in H
  end.

(** Case analysis on the scrutinee of a conditional of the goal or of a
    hypothesis, with the boolean test turned into the fact it decides. *)
Ltac case_if :=
  match goal with
  | |- context [if ?b then _ else _] =>
      match type of b with bool => destruct b eqn:?; simp_bool end
  | H : context [if ?b then _ else _] |- _ =>
      match type of b with bool => destruct b eqn:?; simp_bool end
  end.

(** Resolves an arithmetic comparison in the goal by [lia]. *)
Ltac dec_bool :=
  repeat match goal with
  | |- context [?a <? ?b] =>
      first [ rewrite (proj2 (Z.ltb_lt a b)) by lia | rewrite (proj2 (Z.ltb_ge a b)) by lia ]
  | |- context [?a <=? ?b] =>
      first [ rewrite (proj2 (Z.leb_le a b)) by lia | rewrite (proj2 (Z.leb_gt a b)) by lia ]
  | |- context [?a =? ?b] =>
      first [ rewrite (proj2 (Z.eqb_eq a b)) by lia | rewrite (proj2 (Z.eqb_neq a b)) by lia ]
  end.

(** ** Lemmas on outcomes *)

Lemma bind_Ok_inv {E A B} (m : outcome E A) (k : A → outcome E B) b :
  outcome_bind m k = Ok b → ∃ a, m = Ok a ∧ k a = Ok b.
Proof. destruct m; simpl; intros; try discriminate; eauto. Qed.

Lemma bind_no_panic {E A B} (m : outcome E A) (k : A → outcome E B) :
  m ≠ Panic → (∀ a, m = Ok a → k a ≠ Panic) → outcome_bind m k ≠ Panic.
Proof. destruct m; simpl; intros; auto; discriminate. Qed.

(** ** Lemmas on big-endian numbers *)

Lemma fold_be_acc (l : bytes) (acc : Z) :
  fold_left (fun a b => a * 256 + b) l acc = acc * 256 ^ Z.of_nat (length l) + be_val l.
Proof.
  unfold be_val. revert acc. induction l as [|b l IH]; intros acc; cbn [fold_left length].
  - simpl. lia.
  - rewrite IH, (IH (0 * 256 + b)), Nat2Z.inj_succ, Z.pow_succ_r by lia. lia.
Qed.

Lemma be_val_nil : be_val [] = 0.
Proof. reflexivity. Qed.

Lemma be_val_cons (b : Z) (l : bytes) :
  be_val (b :: l) = b * 256 ^ Z.of_nat (length l) + be_val l.
Proof. unfold be_val at 1. cbn [fold_left]. rewrite fold_be_acc. f_equal. Qed.

Lemma be_val_app (l1 l2 : bytes) :
  be_val (l1 ++ l2) = be_val l1 * 256 ^ Z.of_nat (length l2) + be_val l2.
Proof. unfold be_val at 1. rewrite fold_left_app. apply fold_be_acc. Qed.

Lemma be_val_snoc (l : bytes) (b : Z) : be_val (l ++ [b]) = be_val l * 256 + b.
Proof. rewrite be_val_app. unfold be_val at 2. simpl. lia. Qed.

Lemma be_val_bound (l : bytes) : wf_bytes l → 0 ≤ be_val l < 256 ^ Z.of_nat (length l).
Proof.
  induction l as [|b l IH]; intros Hl.
  - rewrite be_val_nil. simpl. lia.
  - apply Forall_cons in Hl as [Hb Hl]. specialize (IH Hl). unfold is_u8 in Hb.
    rewrite be_val_cons. cbn [length]. rewrite Nat2Z.inj_succ, Z.pow_succ_r by lia. nia.
Qed.

Lemma length_to_be (n : nat) (z : Z) : length (to_be n z) = n.
Proof.
  revert z. induction n as [|n IH]; intros z; cbn [to_be]; [done|].
  rewrite length_app, IH. simpl. lia.
Qed.

Lemma wf_to_be (n : nat) (z : Z) : wf_bytes (to_be n z).
Proof.
  revert z. induction n as [|n IH]; intros z; cbn [to_be]; [constructor|].
  apply Forall_app. split; [apply IH|].
  repeat constructor; apply Z.mod_pos_bound; lia.
Qed.

Lemma be_val_to_be (n : nat) (z : Z) : be_val (to_be n z) = z mod 256 ^ Z.of_nat n.
Proof.
  revert z. induction n as [|n IH]; intros z; cbn [to_be].
  - rewrite be_val_nil. simpl. rewrite Z.mod_1_r. done.
  - rewrite be_val_snoc, IH, Nat2Z.inj_succ, Z.pow_succ_r by lia.
    rewrite Z.rem_mul_r by lia. lia.
Qed.

Lemma to_be_be_val (l : bytes) : wf_bytes l → to_be (length l) (be_val l) = l.
Proof.
  induction l as [|b l IH] using rev_ind; intros Hl; [done|].
  apply Forall_app in Hl as [Hl Hb]. apply Forall_cons in Hb as [Hb _].
  unfold is_u8 in Hb. rewrite length_app, be_val_snoc. cbn [length].
  rewrite Nat.add_1_r. cbn [to_be].
  rewrite Z.div_add_l, Z.div_small, Z.add_0_r by lia.
  rewrite Z.add_comm, Z.mod_add, Z.mod_small by lia. by rewrite (IH Hl).
Qed.

Lemma be_val_inj (a b : bytes) :
  wf_bytes a → wf_bytes b → length a = length b → be_val a = be_val b → a = b.
Proof.
  intros Ha Hb Hlen Heq. rewrite <- (to_be_be_val a), <- (to_be_be_val b) by done.
  by rewrite Hlen, Heq.
Qed.

Lemma lex_lt_spec (a b : bytes) :
  wf_bytes a → wf_bytes b → length a = length b → lex_lt a b = (be_val a <? be_val b).
Proof.
  revert b. induction a as [|x a IH]; intros [|y b] Ha Hb Hlen; try discriminate.
  - reflexivity.
  - apply Forall_cons in Ha as [Hx Ha]. apply Forall_cons in Hb as [Hy Hb].
    injection Hlen as Hlen. cbn [lex_lt].
    pose proof (be_val_bound a Ha). pose proof (be_val_bound b Hb).
    rewrite !be_val_cons, Hlen in *. rewrite (IH b) by done.
    destruct (x =? y) eqn:E; simp_bool.
    + subst. destruct (be_val a <? be_val b) eqn:F; simp_bool; symmetry;
        [apply Z.ltb_lt | apply Z.ltb_ge]; lia.
    + unfold is_u8 in *. destruct (x <? y) eqn:F; simp_bool; symmetry;
        [apply Z.ltb_lt | apply Z.ltb_ge]; nia.
Qed.

Lemma to_be_add (n m : nat) (z : Z) :
  to_be (n + m) z = to_be n (z / 256 ^ Z.of_nat m) ++ to_be m z.
Proof.
  revert z. induction m as [|m IH]; intros z.
  - simpl. rewrite Z.div_1_r, Nat.add_0_r, app_nil_r. done.
  - rewrite Nat.add_succ_r. cbn [to_be]. rewrite IH, <- app_assoc.
    rewrite Z.div_div, Nat2Z.inj_succ, Z.pow_succ_r by lia. done.
Qed.

Lemma be_val_replicate_0 (n : nat) : be_val (replicate n 0) = 0.
Proof. induction n as [|n IH]; [done|]. cbn [replicate]. rewrite be_val_cons, IH. lia. Qed.

Lemma to_be_0 (n : nat) : to_be n 0 = replicate n 0.
Proof.
  induction n as [|n IH]; [done|]. cbn [to_be].
  rewrite Z.div_0_l, Z.mod_0_l, IH by lia. by rewrite <- replicate_S_end.
Qed.

(** ** Slices *)

Lemma slice_ok {E} (data : bytes) (i j : Z) :
  0 ≤ i ≤ j → j ≤ Z.of_nat (length data) →
  @slice E data i j = Ok (take (Z.to_nat (j - i)) (drop (Z.to_nat i) data)).
Proof. intros. unfold slice. by dec_bool. Qed.

Lemma slice_no_panic {E} (data : bytes) (i j : Z) :
  0 ≤ i ≤ j → j ≤ Z.of_nat (length data) → @slice E data i j ≠ Panic.
Proof. intros. by rewrite slice_ok. Qed.

Lemma length_slice (data : bytes) (i j : Z) :
  0 ≤ i ≤ j → j ≤ Z.of_nat (length data) →
  Z.of_nat (length (take (Z.to_nat (j - i)) (drop (Z.to_nat i) data))) = j - i.
Proof. intros. rewrite length_take, length_drop. lia. Qed.

(** ** Bytes shifted into an accumulator *)

Lemma lor_low_byte (x b : Z) : is_u8 b → Z.lor (256 * x) b = 256 * x + b.
Proof.
  intros Hb. unfold is_u8 in Hb. rewrite Z.add_nocarry_lxor, Z.lxor_lor; [done| |].
  all: apply Z.bits_inj'; intros n Hn; rewrite Z.land_spec, Z.bits_0;
    replace (256 * x) with (Z.shiftl x 8) by (rewrite Z.shiftl_mul_pow2; lia);
    rewrite Z.shiftl_spec by lia;
    destruct (decide (n < 8));
    [by rewrite Z.testbit_neg_r by lia
    |rewrite andb_comm; rewrite <- (Z.mod_small b (2 ^ 8)), Z.mod_pow2_bits_high by lia; done].
Qed.

Lemma shift_in_byte (val b : Z) :
  is_u8 b → Z.lor (wrap64 (Z.shiftl val 8)) b = (val * 256 + b) mod 2 ^ 64.
Proof.
  intros Hb. unfold wrap64. rewrite Z.shiftl_mul_pow2 by lia.
  change (2 ^ 8) with 256. change (2 ^ 64) with (256 * 2 ^ 56).
  rewrite (Z.mul_comm val), Zmult_mod_distr_l, lor_low_byte by done.
  unfold is_u8 in Hb. symmetry.
  rewrite Z.rem_mul_r by lia.
  rewrite (Z.add_comm (256 * val) b), (Z.mul_comm 256 val), Z.mod_add, Z.div_add by lia.
  rewrite Z.mod_small, Z.div_small by lia. rewrite Z.add_0_l. lia.
Qed.

Lemma fold_shift_in (l : bytes) (acc : Z) :
  wf_bytes l →
  fold_left (fun val b => Z.lor (wrap64 (Z.shiftl val 8)) b) l (acc mod 2 ^ 64) =
  (acc * 256 ^ Z.of_nat (length l) + be_val l) mod 2 ^ 64.
Proof.
  revert acc. induction l as [|b l IH]; intros acc Hl.
  - cbn [fold_left length]. rewrite be_val_nil. f_equal. simpl. lia.
  - apply Forall_cons in Hl as [Hb Hl]. cbn [fold_left].
    rewrite shift_in_byte by done.
    replace ((acc mod 2 ^ 64 * 256 + b) mod 2 ^ 64) with ((acc * 256 + b) mod 2 ^ 64)
      by (rewrite <- (Zplus_mod_idemp_l (acc * 256)), <- (Zplus_mod_idemp_l (acc mod 2 ^ 64 * 256)),
          Zmult_mod_idemp_l; done).
    rewrite IH by done. f_equal. rewrite be_val_cons.
    cbn [length]. rewrite Nat2Z.inj_succ, Z.pow_succ_r by lia. lia.
Qed.

Lemma fold_shift_in_0 (l : bytes) :
  wf_bytes l → (length l ≤ 8)%nat →
  fold_left (fun val b => Z.lor (wrap64 (Z.shiftl val 8)) b) l 0 = be_val l.
Proof.
  intros Hl Hlen. rewrite <- (Z.mod_0_l (2 ^ 64)) at 1 by lia.
  rewrite fold_shift_in, Z.mul_0_l, Z.add_0_l by done.
  pose proof (be_val_bound l Hl). apply Z.mod_small. split; [lia|].
  eapply Z.lt_le_trans; [apply H|]. change (2 ^ 64) with (256 ^ 8).
  apply Z.pow_le_mono_r; lia.
Qed.

Lemma fold_shift_in_u64 (l : bytes) :
  wf_bytes l → is_u64 (fold_left (fun val b => Z.lor (wrap64 (Z.shiftl val 8)) b) l 0).
Proof.
  intros Hl. unfold is_u64. pose proof (fold_shift_in l 0 Hl) as H.
  rewrite Z.mod_0_l in H by lia. rewrite H. apply Z.mod_pos_bound. lia.
Qed.

(** ** Stripping leading zero bytes *)

Lemma be_val_strip (l : bytes) : be_val (drop (leading_zeros l) l) = be_val l.
Proof.
  induction l as [|b l IH]; [done|]. cbn [leading_zeros].
  destruct (b =? 0) eqn:E; simp_bool; [|done]. subst. simpl drop.
  rewrite IH, be_val_cons. lia.
Qed.

Lemma strip_head (l : bytes) b r : drop (leading_zeros l) l = b :: r → b ≠ 0.
Proof.
  induction l as [|x l IH]; [done|]. cbn [leading_zeros].
  destruct (x =? 0) eqn:E; simp_bool; [apply IH|]. simpl. congruence.
Qed.

Lemma wf_bytes_drop (n : nat) (l : bytes) : wf_bytes l → wf_bytes (drop n l).
Proof. apply Forall_drop. Qed.

Lemma wf_bytes_take (n : nat) (l : bytes) : wf_bytes l → wf_bytes (take n l).
Proof. apply Forall_take. Qed.

#[export] Hint Resolve wf_bytes_drop wf_bytes_take wf_to_be : zbx.

(** ** Byte updates and bits of a big-endian number *)

Lemma be_val_insert (l : bytes) (k : nat) (v x : Z) :
  l !! k = Some x →
  be_val (<[k := v]> l) = be_val l + (v - x) * 256 ^ (Z.of_nat (length l) - 1 - Z.of_nat k).
Proof.
  intros Hk. apply list_elem_of_split_length in Hk as (l1 & l2 & -> & ->).
  rewrite insert_app_r_alt, Nat.sub_diag by lia. cbn [insert list_insert].
  rewrite !be_val_app, !be_val_cons, length_app. cbn [length].
  replace (Z.of_nat (length l1 + S (length l2)) - 1 - Z.of_nat (length l1))
    with (Z.of_nat (length l2)) by lia. lia.
Qed.

Lemma testbit_byte_high (b n : Z) : is_u8 b → 8 ≤ n → Z.testbit b n = false.
Proof.
  intros Hb Hn. unfold is_u8 in Hb. destruct (decide (b = 0)) as [->|]; [apply Z.testbit_0_l|].
  apply Z.bits_above_log2; [lia|]. apply Z.lt_le_trans with 8; [|lia]. apply Z.log2_lt_pow2; lia.
Qed.

Lemma testbit_be_val (l : bytes) (p : Z) :
  wf_bytes l → 0 ≤ p →
  Z.testbit (be_val l) p =
  (p <? 8 * Z.of_nat (length l)) &&
  Z.testbit (default 0 (l !! Z.to_nat (Z.of_nat (length l) - 1 - p / 8))) (p mod 8).
Proof.
  revert p. induction l as [|b l IH] using rev_ind; intros p Hl Hp.
  - cbn [length]. rewrite be_val_nil, Z.testbit_0_l. by dec_bool.
  - apply Forall_app in Hl as [Hl Hb]. apply Forall_cons in Hb as [Hb _].
    rewrite be_val_snoc, (Z.mul_comm _ 256), <- lor_low_byte, Z.lor_spec by done.
    change (256 * be_val l) with (2 ^ 8 * be_val l). rewrite Z.mul_comm, Z.mul_pow2_bits by lia.
    rewrite length_app. cbn [length]. destruct (decide (p < 8)) as [H8|H8].
    + rewrite Z.testbit_neg_r, orb_false_l by lia. dec_bool.
      rewrite Z.div_small, Z.mod_small by lia.
      replace (Z.to_nat _) with (length l) by lia.
      rewrite lookup_app_r, Nat.sub_diag by lia. done.
    + rewrite (testbit_byte_high b p), orb_false_r, IH by (done || lia).
      replace (p - 8) with (p + (-1) * 8) by lia. rewrite Z.div_add, Z.mod_add by lia.
      replace (p + -1 * 8 <? 8 * Z.of_nat (length l)) with (p <? 8 * Z.of_nat (length l + 1))
        by (destruct (p <? _) eqn:?; symmetry; [apply Z.ltb_lt | apply Z.ltb_ge]; simp_bool; lia).
      destruct (p <? _) eqn:Hlt; simp_bool; [|done]. cbn [andb].
      assert (0 ≤ p / 8) by (apply Z.div_pos; lia).
      assert (p / 8 < Z.of_nat (length l + 1)) by (apply Z.div_lt_upper_bound; lia).
      assert (1 ≤ p / 8) by (apply Z.div_le_lower_bound; lia).
      rewrite lookup_app_l by lia. do 3 f_equal. lia.
Qed.

(** Induction over a counting loop [for i in 0..n]. *)
Lemma fold_left_seq_ind {A} (P : nat → A → Prop) (f : A → nat → A) (a : A) (n : nat) :
  P O a → (∀ i st, (i < n)%nat → P i st → P (S i) (f st i)) → P n (fold_left f (seq 0 n) a).
Proof.
  intros H0 HS. induction n as [|n IH]; [done|].
  rewrite seq_S, fold_left_app. cbn [fold_left Nat.add]. apply HS; [lia|].
  apply IH. intros i st Hi. apply HS. lia.
Qed.

(** An invariant of the body of a loop is one of the loop. *)
Lemma fold_left_inv {A B} (P : A → Prop) (f : A → B → A) (l : list B) (a : A) :
  (∀ x b, P x → P (f x b)) → P a → P (fold_left f l a).
Proof. intros HS. revert a. induction l as [|b l IH]; intros a Ha; [done|]. by apply IH, HS. Qed.

Lemma div_mod_join (x m : Z) : 0 < m → x mod m + m * (x / m) = x.
Proof. intros. pose proof (Z.div_mod x m). lia. Qed.

Lemma u8_of_bits (x : Z) : 0 ≤ x → (∀ n, 8 ≤ n → Z.testbit x n = false) → is_u8 x.
Proof.
  intros Hx Hb. unfold is_u8. replace x with (x mod 2 ^ 8); [apply Z.mod_pos_bound; lia|].
  apply Z.bits_inj'. intros n Hn. destruct (decide (n < 8)).
  - by rewrite Z.mod_pow2_bits_low by lia.
  - by rewrite Z.mod_pow2_bits_high, Hb by lia.
Qed.

Lemma lor_u8 (a b : Z) : is_u8 a → is_u8 b → is_u8 (Z.lor a b).
Proof.
  intros Ha Hb. apply u8_of_bits; [apply Z.lor_nonneg; unfold is_u8 in *; lia|].
  intros. by rewrite Z.lor_spec, !testbit_byte_high.
Qed.

Lemma land_u8 (a b : Z) : is_u8 a → is_u8 b → is_u8 (Z.land a b).
Proof.
  intros Ha Hb. apply u8_of_bits; [apply Z.land_nonneg; unfold is_u8 in *; lia|].
  intros. by rewrite Z.land_spec, !testbit_byte_high.
Qed.

Lemma lxor_u8 (a b : Z) : is_u8 a → is_u8 b → is_u8 (Z.lxor a b).
Proof.
  intros Ha Hb. apply u8_of_bits; [apply Z.lxor_nonneg; unfold is_u8 in *; lia|].
  intros. by rewrite Z.lxor_spec, !testbit_byte_high.
Qed.

Lemma wrap8_u8 (x : Z) : is_u8 (wrap8 x).
Proof. apply Z.mod_pos_bound. lia. Qed.

Lemma shiftr_u8 (x k : Z) : is_u8 x → 0 ≤ k → is_u8 (Z.shiftr x k).
Proof.
  intros Hx Hk. unfold is_u8 in *. rewrite Z.shiftr_div_pow2 by lia.
  assert (0 < 2 ^ k) by (apply Z.pow_pos_nonneg; lia).
  split; [apply Z.div_pos; lia|]. apply Z.div_lt_upper_bound; nia.
Qed.

#[export] Hint Resolve lor_u8 land_u8 lxor_u8 wrap8_u8 shiftr_u8 : zbx.

(** ** Sums *)

Definition sumZ {A} (f : A → Z) (l : list A) : Z := foldr (fun x acc => f x + acc) 0 l.
Definition map_sum {K A} `{Countable K} (f : A → Z) (m : gmap K A) : Z := map_fold (fun _ x acc => f x + acc) 0 m.

Lemma sumZ_cons {A} (f : A → Z) x l : sumZ f (x :: l) = f x + sumZ f l.
Proof. done. Qed.

Lemma sumZ_ext {A} (f g : A → Z) l : (∀ x, x ∈ l → f x = g x) → sumZ f l = sumZ g l.
Proof.
  unfold sumZ. induction l as [|x l IH]; intros H; cbn; [done|]. rewrite H by by left. rewrite IH; [done|].
  intros y Hy. apply H. by right.
Qed.

Lemma sumZ_app {A} (f : A → Z) l1 l2 : sumZ f (l1 ++ l2) = sumZ f l1 + sumZ f l2.
Proof. unfold sumZ. induction l1 as [|x l IH]; cbn; lia. Qed.

Lemma sumZ_perm {A} (f : A → Z) l1 l2 : l1 ≡ₚ l2 → sumZ f l1 = sumZ f l2.
Proof. unfold sumZ. induction 1; cbn; lia. Qed.

Lemma sumZ_nonneg {A} (f : A → Z) l : Forall (fun x => 0 ≤ f x) l → 0 ≤ sumZ f l.
Proof. induction 1; cbn; [done|]. unfold sumZ in *. lia. Qed.

(** A sum of non-negative numbers that fits is computed without wrapping. *)
Lemma sum128_exact l : Forall (fun x => 0 ≤ x) l → sumZ id l < U128 → sum128 l = sumZ id l.
Proof.
  unfold sum128. assert (∀ acc, 0 ≤ acc → Forall (fun x => 0 ≤ x) l → acc + sumZ id l < U128 →
    fold_left (fun acc x => wrap128 (acc + x)) l acc = acc + sumZ id l) as H; [|intros; rewrite H; (done || lia)].
  induction l as [|x l IH]; intros acc Ha Hl Hs; [cbn; lia|].
  apply Forall_cons in Hl as [Hx Hl]. pose proof (sumZ_nonneg id l Hl).
  cbn [fold_left]. change (sumZ id (x :: l)) with (x + sumZ id l) in *.
  unfold wrap128. rewrite Z.mod_small by lia. rewrite IH by (done || lia). lia.
Qed.

Section MapSum.
Context {K A : Type} `{Countable K} (f : A → Z).
Implicit Types m : gmap K A.

Lemma map_sum_list m : map_sum f m = sumZ (fun p => f p.2) (map_to_list m).
Proof. unfold map_sum, sumZ. rewrite map_fold_foldr. apply foldr_ext; [by intros [] ?|done|done]. Qed.

Lemma map_sum_empty : map_sum f (∅ : gmap K A) = 0.
Proof. apply map_fold_empty. Qed.

Lemma map_sum_insert_new m i x : m !! i = None → map_sum f (<[i := x]> m) = f x + map_sum f m.
Proof. intros Hi. unfold map_sum. rewrite map_fold_insert_L by (done || (intros; lia)). done. Qed.

Lemma map_sum_delete m i x : m !! i = Some x → map_sum f (delete i m) = map_sum f m - f x.
Proof.
  intros Hi. rewrite <- (insert_delete_id m i x) at 2 by done. rewrite map_sum_insert_new by apply lookup_delete_eq. lia.
Qed.

Lemma map_sum_insert m i x y : m !! i = Some y → map_sum f (<[i := x]> m) = map_sum f m - f y + f x.
Proof.
  intros Hi. rewrite <- insert_delete_eq, map_sum_insert_new by apply lookup_delete_eq.
  rewrite (map_sum_delete m i y) by done. lia.
Qed.

Lemma map_sum_insert_any m i x : map_sum f (<[i := x]> m) = map_sum f m - from_option f 0 (m !! i) + f x.
Proof.
  destruct (m !! i) as [y|] eqn:E; cbn [from_option]; [by apply map_sum_insert|]. rewrite map_sum_insert_new by done. lia.
Qed.

Lemma map_sum_delete_any m i : map_sum f (delete i m) = map_sum f m - from_option f 0 (m !! i).
Proof. destruct (m !! i) as [y|] eqn:E; cbn [from_option]; [by apply map_sum_delete|]. rewrite delete_id by done. lia. Qed.

Lemma map_sum_nonneg m : map_Forall (fun _ x => 0 ≤ f x) m → 0 ≤ map_sum f m.
Proof.
  intros Hm. rewrite map_sum_list. apply sumZ_nonneg, Forall_forall. intros [i x] Hx.
  by apply (Hm i x), elem_of_map_to_list.
Qed.

Lemma map_sum_lookup_le m i x : map_Forall (fun _ x => 0 ≤ f x) m → m !! i = Some x → f x ≤ map_sum f m.
Proof.
  intros Hm Hi. pose proof (map_sum_nonneg (delete i m) (map_Forall_delete _ _ _ Hm)).
  rewrite (map_sum_delete m i x Hi) in *. lia.
Qed.
End MapSum.

(** ** The lexicographic order *)

Lemma lex_lt_irrefl a : lex_lt a a = false.
Proof. induction a as [|x a IH]; cbn; [done|]. by rewrite Z.eqb_refl. Qed.

Lemma lex_lt_trans a b c : lex_lt a b = true → lex_lt b c = true → lex_lt a c = true.
Proof.
  revert b c. induction a as [|x a IH]; intros [|y b] [|z c]; cbn; try done.
  destruct (Z.eqb_spec x y), (Z.eqb_spec y z); intros ??; simp_bool; subst; dec_bool; eauto.
Qed.

Lemma lex_lt_total a b : lex_lt a b = true ∨ a = b ∨ lex_lt b a = true.
Proof.
  revert b. induction a as [|x a IH]; intros [|y b]; cbn; auto.
  destruct (Z.eqb_spec x y) as [->|]; [rewrite Z.eqb_refl; destruct (IH b) as [?|[->|?]]; auto|].
  rewrite (proj2 (Z.eqb_neq y x)) by done. destruct (Z.ltb_spec x y); [by left|]. right. right. apply Z.ltb_lt. lia.
Qed.
