(* ===== verification/Monad.v ===== *)
(** * The state and error monad of the interpreters

    A method taking [&mut self] and returning a [Result] is a function from
    the state to an outcome and a state, which is kept on error. The file has
    the monad, Hoare triples for it and the rules of its combinators; the
    interpreters of the EVM and of the ZVM instantiate it with their states. *)

From S2P Require Import Prelude.

Module Monad.

Definition SE (E S A : Type) : Type := S → outcome E A * S.

#[export] Instance M_ret E S : MRet (SE E S) := fun A a s => (Ok a, s).
#[export] Instance M_bind E S : MBind (SE E S) := fun A B k m s =>
  match m s with
  | (Ok a, s') => k a s'
  | (Err e, s') => (Err e, s')
  | (Panic, s') => (Panic, s')
  end.

Section Combinators.
Context {X S : Type}.

Definition fail {A} (e : X) : SE X S A := fun s => (Err e, s).
Definition gets {A} (f : S → A) : SE X S A := fun s => (Ok (f s), s).
Definition modify (f : S → S) : SE X S unit := fun s => (Ok tt, f s).
Definition lift {A} (o : outcome X A) : SE X S A := fun s => (o, s).

(** [if cond { return Err(e) }] *)
Definition refuse (cond : bool) (e : X) : SE X S unit := if cond then fail e else mret tt.

(** A method of a field, with its errors wrapped. *)
Definition zoom {X' S' A} (get : S → S') (set : S' → S → S) (wrap : X' → X) (m : SE X' S' A) : SE X S A := fun s =>
  match m (get s) with
  | (Ok a, t) => (Ok a, set t s)
  | (Err e, t) => (Err (wrap e), set t s)
  | (Panic, t) => (Panic, set t s)
  end.

(** ** Triples

    From a state in [P], the computation ends in [Q], or fails in [E], or
    panics, which is possible only if [pn]. *)

Definition triple {A} (pn : Prop) (P : S → Prop) (m : SE X S A) (Q : A → S → Prop) (E : S → Prop) : Prop :=
  ∀ s, P s →
    match m s with
    | (Ok a, s') => Q a s'
    | (Err _, s') => E s'
    | (Panic, _) => pn
    end.

Lemma t_bind {A B} pn P (m : SE X S A) (k : A → SE X S B) Q R E :
  triple pn P m R E → (∀ a, triple pn (R a) (k a) Q E) → triple pn P (m ≫= k) Q E.
Proof.
  intros Hm Hk s Hs. specialize (Hm s Hs). unfold mbind, M_bind.
  destruct (m s) as [[a|e|] s']; [by apply Hk|done|done].
Qed.

Lemma t_assoc {A B C} pn P (m : SE X S A) (f : A → SE X S B) (k : B → SE X S C) Q E :
  triple pn P (m ≫= (fun x => f x ≫= k)) Q E → triple pn P ((m ≫= f) ≫= k) Q E.
Proof.
  intros Ht s Hs. specialize (Ht s Hs). unfold mbind, M_bind in *.
  by destruct (m s) as [[a|e|] s'].
Qed.

Lemma t_ret_bind {A B} pn P (a : A) (k : A → SE X S B) Q E :
  triple pn P (k a) Q E → triple pn P (mret a ≫= k) Q E.
Proof. intros Ht s Hs. apply (Ht s Hs). Qed.

Lemma t_ret {A} pn P (a : A) Q E : (∀ s, P s → Q a s) → triple pn P (mret a) Q E.
Proof. intros Ht s Hs. apply (Ht s Hs). Qed.

Lemma t_pure {A} pn (φ : Prop) P (m : SE X S A) Q E :
  (φ → triple pn P m Q E) → triple pn (fun s => φ ∧ P s) m Q E.
Proof. intros Ht s [Hφ Hs]. by apply Ht. Qed.

Lemma t_fail {A} pn (P E : S → Prop) e Q : (∀ s, P s → E s) → triple (A := A) pn P (fail e) Q E.
Proof. intros Ht s Hs. apply (Ht s Hs). Qed.

Lemma t_fail_bind {A B} pn (P E : S → Prop) e (k : A → SE X S B) Q :
  (∀ s, P s → E s) → triple pn P (fail e ≫= k) Q E.
Proof. intros Ht s Hs. apply (Ht s Hs). Qed.

(** A last action. *)
Lemma t_tail {A} pn P (m : SE X S A) Q E : triple pn P (m ≫= mret) Q E → triple pn P m Q E.
Proof.
  intros Ht s Hs. specialize (Ht s Hs). unfold mbind, M_bind in Ht.
  by destruct (m s) as [[a|e|] s'].
Qed.

Lemma t_conseq {A} pn (P P' : S → Prop) (m : SE X S A) (Q Q' : A → S → Prop) E :
  triple pn P' m Q' E → (∀ s, P s → P' s) → (∀ a s, Q' a s → Q a s) → triple pn P m Q E.
Proof.
  intros Ht HP HQ s Hs. specialize (Ht s (HP s Hs)).
  destruct (m s) as [[a|e|] s']; auto.
Qed.

Lemma t_gets {A B} pn P (f : S → A) (k : A → SE X S B) Q E :
  (∀ s, P s → triple pn P (k (f s)) Q E) → triple pn P (gets f ≫= k) Q E.
Proof. intros Ht s Hs. by apply (Ht s Hs s). Qed.

Lemma t_lift {A B} (pn : Prop) P (o : outcome X A) (k : A → SE X S B) Q (E : S → Prop) :
  (∀ s, P s → E s) → (o = Panic → pn) →
  (∀ a, o = Ok a → triple pn P (k a) Q E) → triple pn P (lift o ≫= k) Q E.
Proof.
  intros HE Hp Ht s Hs. unfold mbind, M_bind, lift. destruct o as [a|e|]; [|by apply HE|by apply Hp].
  by apply (Ht a).
Qed.

Lemma t_modify {B} pn P P' (f : S → S) (k : unit → SE X S B) Q E :
  (∀ s, P s → P' (f s)) → triple pn P' (k tt) Q E → triple pn P (modify f ≫= k) Q E.
Proof. intros HP Ht s Hs. apply (Ht (f s) (HP s Hs)). Qed.

Lemma t_refuse {B} pn P cond e (f : unit → SE X S B) Q (F : S → Prop) :
  (∀ s, P s → F s) → (cond = false → triple pn P (f tt) Q F) → triple pn P (refuse cond e ≫= f) Q F.
Proof. intros HF Ht. destruct cond; [by apply t_fail_bind|by apply t_ret_bind, Ht]. Qed.

(** The strongest state after a write. *)
Lemma t_write {B} pn P (f : S → S) (k : unit → SE X S B) Q F :
  triple pn (fun s => ∃ s0, P s0 ∧ f s0 = s) (k tt) Q F → triple pn P (modify f ≫= k) Q F.
Proof. intros Ht. eapply t_modify; [|exact Ht]. cbn. eauto. Qed.

Lemma t_weaken_pn {A} (pn pn' : Prop) P (m : SE X S A) Q E :
  (pn → pn') → triple pn P m Q E → triple pn' P m Q E.
Proof. intros Hp Ht s Hs. specialize (Ht s Hs). destruct (m s) as [[| |] ?]; auto. Qed.

Lemma M_bind_Ok {A B} (m : SE X S A) (k : A → SE X S B) s b s2 :
  (m ≫= k) s = (Ok b, s2) → ∃ a s1, m s = (Ok a, s1) ∧ k a s1 = (Ok b, s2).
Proof. unfold mbind, M_bind. destruct (m s) as [[a|e|] s1]; try done. eauto. Qed.
End Combinators.
End Monad.
