(* ===== verification/Totals.v ===== *)
(** * Sums over finite maps

    Balances held in a hash map: the sum, and what an update does to it. *)

From S2P Require Import Prelude.

Module Totals.
Section Sum.
Context {K : Type} `{Countable K}.
Implicit Types m : gmap K Z.

Definition total m : Z := map_fold (fun _ x acc => x + acc) 0 m.
Definition at_ m (k : K) : Z := default 0 (m !! k).

Definition nonneg m : Prop := map_Forall (fun _ x => 0 ≤ x) m.

Lemma total_empty : total ∅ = 0.
Proof. apply map_fold_empty. Qed.

Lemma total_delete m k : total (delete k m) = total m - at_ m k.
Proof.
  unfold total, at_. destruct (m !! k) as [x|] eqn:E.
  - rewrite (map_fold_delete_L _ _ k x m) by (done || (intros; lia)). cbn. lia.
  - rewrite delete_id by done. cbn. lia.
Qed.

Lemma total_insert m k x : total (<[k := x]> m) = total m - at_ m k + x.
Proof.
  rewrite <- insert_delete_eq. rewrite <- total_delete. unfold total.
  rewrite map_fold_insert_L by (apply lookup_delete_eq || (intros; lia)). lia.
Qed.

Lemma at_insert m k x j : at_ (<[k := x]> m) j = if bool_decide (j = k) then x else at_ m j.
Proof.
  unfold at_. case_bool_decide as E; [subst; by rewrite lookup_insert_eq|by rewrite lookup_insert_ne by done].
Qed.

Lemma nonneg_insert m k x : nonneg m → 0 ≤ x → nonneg (<[k := x]> m).
Proof. intros. by apply map_Forall_insert_2. Qed.

Lemma nonneg_at m k : nonneg m → 0 ≤ at_ m k.
Proof. intros Hm. unfold at_. destruct (m !! k) as [x|] eqn:E; [by apply (Hm k)|done]. Qed.

Lemma total_nonneg m : nonneg m → 0 ≤ total m.
Proof.
  unfold total, nonneg. induction m as [|k x m Hk IH] using map_ind; [by rewrite map_fold_empty|].
  rewrite map_Forall_insert by done. intros [Hx Hm]. rewrite map_fold_insert_L by (done || (intros; lia)).
  specialize (IH Hm). lia.
Qed.

(** No entry exceeds the sum, and no two entries do together. *)
Lemma at_total m k : nonneg m → at_ m k ≤ total m.
Proof. intros Hm. pose proof (total_nonneg (delete k m) (map_Forall_delete _ _ _ Hm)). rewrite total_delete in *. lia. Qed.

Lemma at2_total m j k : nonneg m → j ≠ k → at_ m j + at_ m k ≤ total m.
Proof.
  intros Hm Hne. pose proof (at_total (delete j m) k (map_Forall_delete _ _ _ Hm)) as Hd. rewrite total_delete in Hd.
  unfold at_ in Hd at 1. rewrite lookup_delete_ne in Hd by done. unfold at_ in *. lia.
Qed.
End Sum.
End Totals.
