(* ===== verification/Rlp.v ===== *)
(** * zbx-rlp: Recursive Length Prefix encoding and decoding

    Models crates/zbx-rlp/src: the stream builder of encode.rs, the zero-copy
    view of decode.rs and the helpers of lib.rs and stream.rs. A stream is a
    record with the output buffer and the stack of open lists; a view is the
    byte string it borrows. Slice lengths are below 2^63 in Rust, so position
    sums do not wrap; the sums the source checks are checked here. *)

From S2P Require Import Prelude.

Module Rlp.

(** ** error.rs *)

Inductive RlpError : Type :=
| UnexpectedEnd (pos : Z)
| InvalidLeadingByte (b : Z)
| NonCanonical
| LengthMismatch (expected got : Z)
| ItemCountMismatch
| Overflow
| ExpectedString
| ExpectedList
| Custom.

Abbreviation res := (outcome RlpError).

(** ** encode.rs *)

Record RlpStream := mkStream {
  buf : bytes;
  list_stack : list nat;   (* innermost open list first *)
}.

Definition stream_new : RlpStream := mkStream [] [].

(** [begin_list]: remember the position and reserve the 9-byte placeholder. *)
Definition begin_list (s : RlpStream) : RlpStream :=
  mkStream (buf s ++ replicate 9 0) (length (buf s) :: list_stack s).

Definition new_list : RlpStream := begin_list stream_new.

Definition minimal_bytes (n : Z) : bytes :=
  let b := to_be 8 n in drop (leading_zeros b) b.

(** The bytes [encode_string] pushes for one byte-string item. *)
Definition string_item (data : bytes) : bytes :=
  let n := Z.of_nat (length data) in
  match data with
  | [] => [0x80]
  | [b] => if b <? 0x80 then [b] else wrap8 (0x80 + wrap8 n) :: data
  | _ =>
      if n <=? 55 then wrap8 (0x80 + wrap8 n) :: data
      else let len_bytes := minimal_bytes n in
           wrap8 (0xb7 + wrap8 (Z.of_nat (length len_bytes))) :: len_bytes ++ data
  end.

Definition encode_string (data : bytes) (s : RlpStream) : RlpStream :=
  mkStream (buf s ++ string_item data) (list_stack s).

Definition append (data : bytes) (s : RlpStream) : RlpStream := encode_string data s.

Definition append_raw (data : bytes) (s : RlpStream) : RlpStream :=
  mkStream (buf s ++ data) (list_stack s).

(** The header [finalize_unbounded_list] builds for a list payload. *)
Definition list_prefix (content_len : Z) : bytes :=
  if content_len <=? 55 then [wrap8 (0xc0 + wrap8 content_len)]
  else let len_bytes := minimal_bytes content_len in
       wrap8 (0xf7 + wrap8 (Z.of_nat (length len_bytes))) :: len_bytes.

(** [finalize_unbounded_list]: close the innermost list, replacing its
    placeholder; [expect] panics when no list is open. *)
Definition finalize_unbounded_list (s : RlpStream) : res RlpStream :=
  match list_stack s with
  | [] => Panic
  | start :: rest =>
      let content_start := (start + 9)%nat in
      let content := drop content_start (buf s) in
      let prefix := list_prefix (Z.of_nat (length (buf s)) - Z.of_nat content_start) in
      if Z.of_nat (length prefix) - 9 =? 0
      then Ok (mkStream (take start (buf s) ++ prefix ++ drop (start + length prefix) (buf s)) rest)
      else Ok (mkStream (take start (buf s) ++ prefix ++ content) rest)
  end.

(** [out]: close every open list; one call per open list. *)
Fixpoint out_loop (opens : list nat) (s : RlpStream) : res RlpStream :=
  match opens with
  | [] => Ok s
  | _ :: rest => let? s' := finalize_unbounded_list s in out_loop rest s'
  end.

Definition out (s : RlpStream) : res bytes :=
  let? s' := out_loop (list_stack s) s in Ok (buf s').

(** [Encodable] for Vec<u8>, u8, u64 and u128. *)
Class Encodable (T : Type) := encode_into : T → RlpStream → RlpStream.

#[export] Instance encodable_bytes : Encodable bytes := append.

Definition encode_u8 (v : Z) (s : RlpStream) : RlpStream := encode_string [v] s.

Definition encode_u64 (v : Z) (s : RlpStream) : RlpStream :=
  if v =? 0 then append_raw [0x80] s else encode_string (minimal_bytes v) s.

Definition encode_u128 (v : Z) (s : RlpStream) : RlpStream :=
  if v =? 0 then append_raw [0x80] s
  else let b := to_be 16 v in encode_string (drop (leading_zeros b) b) s.

(** lib.rs [encode] and stream.rs [encode_list], [encode_u256]. *)
Definition encode {T} `{Encodable T} (value : T) : res bytes := out (encode_into value stream_new).

Definition encode_list {T} `{Encodable T} (items : list T) : res bytes :=
  out (fold_left (fun s item => encode_into item s) items new_list).

Definition encode_u256 (value : bytes) : res bytes :=
  out (append (drop (leading_zeros value) value) stream_new).

Definition encode_h256 (hash : bytes) : res bytes := out (append hash stream_new).

Definition encode_address (addr : bytes) : res bytes := out (append addr stream_new).

(** ** decode.rs *)

Definition rlp_len (data : bytes) : Z := Z.of_nat (length data).

Definition is_data (data : bytes) : bool :=
  match data with b :: _ => b <? 0xc0 | [] => false end.

Definition is_list (data : bytes) : bool :=
  match data with b :: _ => 0xc0 <=? b | [] => false end.

(** [decode_length]: [checked_shl] by 8 never fails on a 64-bit [usize] (it
    only checks the shift amount), it drops the bits shifted out. *)
Definition decode_length (lb : bytes) : res Z :=
  match lb with
  | [] => Err (UnexpectedEnd 0)
  | b0 :: _ =>
      if b0 =? 0 then Err Overflow
      else Ok (fold_left (fun val b => Z.lor (wrap64 (Z.shiftl val 8)) b) lb 0)
  end.

(** [1usize.checked_add(len_bytes).and_then(|x| x.checked_add(len))]. *)
Definition checked_end (len_bytes len : Z) : res Z :=
  ok_or (match checked_add64 1 len_bytes with
         | Some x => checked_add64 x len
         | None => None
         end) Overflow.

(** [item_length]: total length of the item that starts at [pos]. *)
Definition item_length (data : bytes) (pos : Z) : res Z :=
  if rlp_len data <=? pos then Err (UnexpectedEnd pos) else
  match data !! Z.to_nat pos with
  | None => Panic
  | Some b =>
      let long base :=
        let len_bytes := b - base in
        if rlp_len data <? pos + 1 + len_bytes then Err (UnexpectedEnd (pos + 1 + len_bytes))
        else let? lb := slice data (pos + 1) (pos + 1 + len_bytes) in
             let? len := decode_length lb in
             checked_end len_bytes len in
      let? item_len :=
        if b <? 0x80 then Ok 1
        else if b <? 0xb8 then Ok (1 + (b - 0x80))
        else if b <? 0xc0 then long 0xb7
        else if b <? 0xf8 then Ok (1 + (b - 0xc0))
        else long 0xf7 in
      let? end_ := ok_or (checked_add64 pos item_len) Overflow in
      if rlp_len data <? end_ then Err (UnexpectedEnd end_) else Ok item_len
  end.

(** The long-form branch shared by [split_payload] and [list_payload]. *)
Definition long_payload (data : bytes) (len_bytes : Z) : res (bytes * bytes) :=
  if rlp_len data <? 1 + len_bytes then Err (UnexpectedEnd (1 + len_bytes))
  else let? lb := slice data 1 (1 + len_bytes) in
       let? len := decode_length lb in
       let? end_ := checked_end len_bytes len in
       if rlp_len data <? end_ then Err (UnexpectedEnd end_)
       else let? p := slice data (1 + len_bytes) end_ in
            let? r := slice data end_ (rlp_len data) in Ok (p, r).

Definition short_payload (data : bytes) (len : Z) : res (bytes * bytes) :=
  if rlp_len data <? 1 + len then Err (UnexpectedEnd (1 + len))
  else let? p := slice data 1 (1 + len) in
       let? r := slice data (1 + len) (rlp_len data) in Ok (p, r).

Definition split_payload (data : bytes) : res (bytes * bytes) :=
  match data with
  | [] => Err (UnexpectedEnd 0)
  | b :: _ =>
      if b <? 0x80 then
        let? p := slice data 0 1 in let? r := slice data 1 (rlp_len data) in Ok (p, r)
      else if b <? 0xb8 then short_payload data (b - 0x80)
      else if b <? 0xc0 then long_payload data (b - 0xb7)
      else Err ExpectedString
  end.

Definition list_payload (data : bytes) : res (bytes * bytes) :=
  match data with
  | [] => Ok ([], [])
  | b :: _ =>
      if b <? 0xc0 then Err ExpectedList
      else if b <? 0xf8 then short_payload data (b - 0xc0)
      else long_payload data (b - 0xf7)
  end.

Definition as_bytes (data : bytes) : res bytes :=
  let? pr := split_payload data in Ok (fst pr).

(** The scan loops of [item_count] and [at]. Every item is at least one byte
    long, so the payload length bounds the number of iterations. *)
Fixpoint count_loop (fuel : nat) (list_bytes : bytes) (pos count : Z) : res Z :=
  if pos <? rlp_len list_bytes then
    match fuel with
    | O => Panic
    | S f =>
        let? item_len := item_length list_bytes pos in
        count_loop f list_bytes (pos + item_len) (count + 1)
    end
  else Ok count.

Definition item_count (data : bytes) : res Z :=
  match data with
  | [] => Ok 0
  | b :: _ =>
      if b <? 0xc0 then Ok 0
      else let? lp := list_payload data in
           count_loop (length (fst lp)) (fst lp) 0 0
  end.

Fixpoint at_loop (fuel : nat) (list_bytes : bytes) (pos idx n : Z) : res bytes :=
  if pos <? rlp_len list_bytes then
    match fuel with
    | O => Panic
    | S f =>
        let? item_len := item_length list_bytes pos in
        if idx =? n then slice list_bytes pos (pos + item_len)
        else at_loop f list_bytes (pos + item_len) (idx + 1) n
    end
  else Err ItemCountMismatch.

Definition at_ (data : bytes) (n : Z) : res bytes :=
  let? lp := list_payload data in at_loop (length (fst lp)) (fst lp) 0 0 n.

(** [Decodable] for Vec<u8> and u64. *)
Class Decodable (T : Type) := decode_from : bytes → res T.

#[export] Instance decodable_bytes : Decodable bytes := as_bytes.

Definition decode_u64 (data : bytes) : res Z :=
  let? b := as_bytes data in
  if 8 <? rlp_len b then Err Overflow
  else Ok (fold_left (fun val x => Z.lor (wrap64 (Z.shiftl val 8)) x) b 0).

Definition val_at {T} `{Decodable T} (data : bytes) (idx : Z) : res T :=
  let? item := at_ data idx in decode_from item.

Definition decode {T} `{Decodable T} (data : bytes) : res T := decode_from data.

(** ** Length headers *)

Lemma minimal_bytes_spec (n : Z) :
  0 < n < 2 ^ 64 →
  wf_bytes (minimal_bytes n) ∧ be_val (minimal_bytes n) = n ∧
  (1 ≤ length (minimal_bytes n) ≤ 8)%nat ∧
  ∃ b r, minimal_bytes n = b :: r ∧ b ≠ 0.
Proof.
  intros Hn. unfold minimal_bytes. set (l := to_be 8 n).
  assert (Hv : be_val (drop (leading_zeros l) l) = n).
  { rewrite be_val_strip. unfold l. rewrite be_val_to_be. apply Z.mod_small.
    change (256 ^ Z.of_nat 8) with (2 ^ 64). lia. }
  split_and!; eauto with zbx.
  - destruct (drop (leading_zeros l) l); [rewrite be_val_nil in Hv; lia | simpl; lia].
  - rewrite length_drop. unfold l. rewrite length_to_be. lia.
  - destruct (drop (leading_zeros l) l) as [|b r] eqn:E; [rewrite be_val_nil in Hv; lia|].
    eauto using strip_head.
Qed.

Lemma decode_length_spec (lb : bytes) b r :
  wf_bytes lb → lb = b :: r → b ≠ 0 → (length lb ≤ 8)%nat → decode_length lb = Ok (be_val lb).
Proof.
  intros Hwf -> Hb Hlen. unfold decode_length. dec_bool. by rewrite fold_shift_in_0.
Qed.

Lemma decode_minimal (n : Z) :
  0 < n < 2 ^ 64 → decode_length (minimal_bytes n) = Ok n.
Proof.
  intros Hn. destruct (minimal_bytes_spec n Hn) as (Hwf & Hv & Hlen & b & r & E & Hb).
  rewrite (decode_length_spec _ b r) by (done || lia). by rewrite Hv.
Qed.

Lemma checked_end_ok (a b : Z) : 1 + a + b ≤ U64_MAX → 0 ≤ b → checked_end a b = Ok (1 + a + b).
Proof.
  intros H Hb. unfold checked_end, checked_add64, ok_or.
  rewrite (proj2 (Z.leb_le (1 + a) U64_MAX)) by lia.
  by rewrite (proj2 (Z.leb_le _ _)) by lia.
Qed.

Lemma slice_mid {E} (pre mid post : bytes) (i j : Z) :
  i = rlp_len pre → j = i + rlp_len mid → @slice E (pre ++ mid ++ post) i j = Ok mid.
Proof.
  unfold rlp_len. intros -> ->. rewrite slice_ok by (rewrite ?length_app; lia).
  f_equal. rewrite Nat2Z.id, drop_app_length.
  replace (Z.to_nat _) with (length mid) by lia. by rewrite take_app_length.
Qed.

Lemma slice_tail {E} (pre post : bytes) (i j : Z) :
  i = rlp_len pre → j = rlp_len (pre ++ post) → @slice E (pre ++ post) i j = Ok post.
Proof.
  intros -> ->. rewrite <- (app_nil_r post) at 1. apply slice_mid; [done|].
  unfold rlp_len. rewrite !length_app. lia.
Qed.

Lemma short_payload_app (h : Z) (p r : bytes) :
  short_payload (h :: p ++ r) (rlp_len p) = Ok (p, r).
Proof.
  unfold short_payload, rlp_len. cbn [length]. rewrite length_app. dec_bool.
  change (h :: p ++ r) with ([h] ++ p ++ r) at 1.
  rewrite (slice_mid [h]) by (unfold rlp_len; simpl length; lia). cbn [outcome_bind].
  change (h :: p ++ r) with (([h] ++ p) ++ r).
  rewrite slice_tail by (unfold rlp_len; rewrite ?length_app; simpl length; lia). done.
Qed.

Lemma long_payload_app (h : Z) (lb p r : bytes) :
  decode_length lb = Ok (rlp_len p) → (length lb ≤ 8)%nat → rlp_len p < 2 ^ 63 →
  long_payload (h :: lb ++ p ++ r) (rlp_len lb) = Ok (p, r).
Proof.
  intros Hd Hlb Hp. unfold long_payload. set (d := h :: lb ++ p ++ r).
  assert (Hl : rlp_len d = 1 + rlp_len lb + rlp_len p + rlp_len r).
  { unfold d, rlp_len. cbn [length]. rewrite !length_app. lia. }
  assert (0 ≤ rlp_len lb ∧ 0 ≤ rlp_len p ∧ 0 ≤ rlp_len r) as (?&?&?)
    by (unfold rlp_len; lia).
  rewrite Hl. dec_bool. unfold d at 1.
  change (h :: lb ++ p ++ r) with ([h] ++ lb ++ p ++ r).
  rewrite slice_mid by (unfold rlp_len; simpl length; lia). cbn [outcome_bind].
  rewrite Hd. cbn [outcome_bind].
  rewrite checked_end_ok by (unfold U64_MAX, rlp_len in *; lia). cbn [outcome_bind].
  dec_bool. unfold d.
  replace (h :: lb ++ p ++ r) with (([h] ++ lb) ++ p ++ r) at 1 by done.
  rewrite slice_mid by (unfold rlp_len; rewrite ?length_app; simpl length; lia).
  cbn [outcome_bind].
  replace (h :: lb ++ p ++ r) with (([h] ++ lb ++ p) ++ r) by (cbn [app]; by rewrite <- app_assoc).
  rewrite slice_tail by (unfold rlp_len in *; rewrite ?length_app; simpl length; lia). done.
Qed.

(** The two header forms of a string item, as one statement. *)
Lemma string_item_cases (data : bytes) :
  (∃ b, data = [b] ∧ b < 0x80 ∧ string_item data = [b]) ∨
  (string_item data = (0x80 + rlp_len data) :: data ∧ rlp_len data ≤ 55) ∨
  (string_item data = wrap8 (0xb7 + wrap8 (rlp_len (minimal_bytes (rlp_len data))))
                        :: minimal_bytes (rlp_len data) ++ data ∧ 55 < rlp_len data).
Proof.
  unfold string_item, rlp_len, wrap8. destruct data as [|b [|c d]].
  - right; left. split; [done | simpl; lia].
  - destruct (b <? 0x80) eqn:E; simp_bool; [left; eauto|].
    right; left. split; [reflexivity | simpl; lia].
  - destruct (_ <=? 55) eqn:E; simp_bool; right; [left | right; split; [done|lia]].
    split; [|lia]. f_equal. rewrite (Z.mod_small (Z.of_nat _)), Z.mod_small by lia. done.
Qed.

Lemma wrap8_header (base : Z) (lb : bytes) :
  0 ≤ base ≤ 0xf7 → (length lb ≤ 8)%nat → wrap8 (base + wrap8 (rlp_len lb)) = base + rlp_len lb.
Proof.
  intros. unfold wrap8, rlp_len. rewrite (Z.mod_small (Z.of_nat _)), Z.mod_small by lia. done.
Qed.

Lemma split_payload_string_item (data rest : bytes) :
  wf_bytes data → rlp_len data < 2 ^ 63 →
  split_payload (string_item data ++ rest) = Ok (data, rest).
Proof.
  intros Hwf Hlen. destruct (string_item_cases data) as [(b & -> & Hb & ->) | [[-> Hn] | [-> Hn]]].
  - unfold split_payload. cbn [app]. dec_bool.
    rewrite slice_ok by (simpl length; lia). cbn [outcome_bind].
    change (b :: rest) with ([b] ++ rest). rewrite slice_tail by done. done.
  - unfold split_payload. cbn [app].
    assert (0 ≤ rlp_len data) by (unfold rlp_len; lia). dec_bool.
    replace (0x80 + rlp_len data - 0x80) with (rlp_len data) by lia.
    apply short_payload_app.
  - assert (0 < rlp_len data < 2 ^ 64) as Hr by lia.
    destruct (minimal_bytes_spec _ Hr) as (Hw & Hv & Hl & _).
    rewrite wrap8_header by lia. unfold split_payload. cbn [app].
    assert (1 ≤ rlp_len (minimal_bytes (rlp_len data)) ≤ 8) by (unfold rlp_len at 1 3; lia).
    dec_bool.
    match goal with |- context [long_payload _ ?x] =>
      replace x with (rlp_len (minimal_bytes (rlp_len data))) by lia end.
    rewrite <- app_assoc. apply long_payload_app; [|lia|done]. by apply decode_minimal.
Qed.

Lemma length_string_item (data : bytes) : rlp_len data < 2 ^ 63 →
  1 ≤ rlp_len (string_item data) ≤ 9 + rlp_len data.
Proof.
  intros Hlen. assert (0 ≤ rlp_len data) by (unfold rlp_len; lia).
  destruct (string_item_cases data) as [(b & -> & Hb & ->) | [[-> Hn] | [-> Hn]]];
    unfold rlp_len in *; simpl length; [lia..|].
  destruct (minimal_bytes_spec (Z.of_nat (length data)) ltac:(lia)) as (_ & _ & ? & _).
  rewrite length_app. lia.
Qed.

(** [item_length] finds the end of a string item embedded anywhere. *)
Lemma item_length_string_item (pre data post : bytes) :
  wf_bytes data → rlp_len (pre ++ string_item data ++ post) < 2 ^ 63 →
  item_length (pre ++ string_item data ++ post) (rlp_len pre) = Ok (rlp_len (string_item data)).
Proof.
  intros Hwf Htot. unfold item_length.
  assert (Hlen : rlp_len (pre ++ string_item data ++ post) =
                 rlp_len pre + rlp_len (string_item data) + rlp_len post)
    by (unfold rlp_len; rewrite !length_app; lia).
  rewrite Hlen in *.
  assert (0 ≤ rlp_len pre ∧ 0 ≤ rlp_len data ∧ 0 ≤ rlp_len post) as (?&?&?) by (unfold rlp_len; lia).
  assert (Hidx : ∀ h t, string_item data = h :: t →
      (pre ++ string_item data ++ post) !! Z.to_nat (rlp_len pre) = Some h).
  { intros h t ->. unfold rlp_len. rewrite Nat2Z.id, lookup_app_r, Nat.sub_diag by lia. done. }
  assert (Hend : ∀ n, n = rlp_len (string_item data) →
    (let? end_ := ok_or (checked_add64 (rlp_len pre) n) Overflow in
     if rlp_len pre + rlp_len (string_item data) + rlp_len post <? end_
     then Err (UnexpectedEnd end_) else Ok n) = Ok (rlp_len (string_item data)) :> res Z).
  { intros n ->. unfold checked_add64, ok_or, U64_MAX. dec_bool. cbn [outcome_bind]. by dec_bool. }
  destruct (string_item_cases data) as [(b & -> & Hb & E) | [[E Hn] | [E Hn]]].
  - rewrite (Hidx _ _ E). assert (rlp_len (string_item [b]) = 1) as Hs by by rewrite E.
    rewrite Hs in *. dec_bool. cbn [outcome_bind]. by apply Hend.
  - rewrite (Hidx _ _ E).
    assert (rlp_len (string_item data) = 1 + rlp_len data) as Hs
      by (rewrite E; unfold rlp_len; simpl length; lia).
    rewrite Hs in *. dec_bool. cbn [outcome_bind]. apply Hend. lia.
  - assert (rlp_len data < 2 ^ 64) as Hr.
    { enough (rlp_len data ≤ rlp_len (string_item data)) by lia.
      rewrite E. unfold rlp_len. simpl length. rewrite length_app. lia. }
    destruct (minimal_bytes_spec (rlp_len data) ltac:(lia)) as (Hw & Hv & Hl & _).
    set (lb := minimal_bytes (rlp_len data)) in *.
    rewrite wrap8_header in E by lia.
    assert (1 ≤ rlp_len lb ≤ 8) by (unfold rlp_len; lia).
    assert (Hs : rlp_len (string_item data) = 1 + rlp_len lb + rlp_len data)
      by (rewrite E; unfold rlp_len; simpl length; rewrite length_app; lia).
    rewrite (Hidx _ _ E). rewrite Hs in *. dec_bool.
    replace (0xb7 + rlp_len lb - 0xb7) with (rlp_len lb) by lia. dec_bool.
    rewrite E. change ((0xb7 + rlp_len lb) :: lb ++ data) with ([0xb7 + rlp_len lb] ++ lb ++ data).
    rewrite <- !app_assoc, (app_assoc pre).
    rewrite slice_mid by (unfold rlp_len; rewrite ?length_app; simpl length; lia).
    cbn [outcome_bind]. unfold lb at 1. rewrite decode_minimal by lia. cbn [outcome_bind].
    rewrite checked_end_ok by (unfold U64_MAX; lia). cbn [outcome_bind]. by apply Hend.
Qed.

(** ** The stream of a list of items *)

(** The concatenated items between the list header and the end. *)
Definition items_payload (items : list bytes) : bytes := concat (map string_item items).

Lemma fold_append (items : list bytes) (s : RlpStream) :
  fold_left (fun s item => encode_into item s) items s =
  mkStream (buf s ++ items_payload items) (list_stack s).
Proof.
  revert s. induction items as [|x items IH]; intros s; cbn [fold_left].
  - destruct s. unfold items_payload. simpl. by rewrite app_nil_r.
  - rewrite IH. unfold items_payload. cbn. by rewrite <- app_assoc.
Qed.

(** Closing the only open list puts the header in front of the payload. *)
Lemma finalize_single (payload : bytes) :
  finalize_unbounded_list (mkStream (replicate 9 0 ++ payload) [O]) =
  Ok (mkStream (list_prefix (rlp_len payload) ++ payload) []).
Proof.
  unfold finalize_unbounded_list. cbn [list_stack buf].
  assert (Hl : Z.of_nat (length (replicate 9 0 ++ payload)) - Z.of_nat (0 + 9) = rlp_len payload)
    by (rewrite length_app, length_replicate; unfold rlp_len; lia).
  rewrite Hl. change (drop (0 + 9) (replicate 9 0 ++ payload)) with payload.
  case_if; [|done]. f_equal.
  replace (0 + length (list_prefix (rlp_len payload)))%nat with 9%nat by lia. done.
Qed.

Lemma encode_list_spec (items : list bytes) :
  encode_list items = Ok (list_prefix (rlp_len (items_payload items)) ++ items_payload items).
Proof.
  unfold encode_list. rewrite fold_append. unfold new_list, begin_list, stream_new, out.
  cbn [buf list_stack app length out_loop].
  rewrite (finalize_single (items_payload items)). done.
Qed.

Lemma list_payload_list (payload rest : bytes) :
  rlp_len payload < 2 ^ 63 →
  list_payload (list_prefix (rlp_len payload) ++ payload ++ rest) = Ok (payload, rest).
Proof.
  intros Hlen. unfold list_prefix. assert (0 ≤ rlp_len payload) by (unfold rlp_len; lia).
  case_if.
  - unfold wrap8. rewrite (Z.mod_small (rlp_len _)), Z.mod_small by lia.
    unfold list_payload. cbn [app]. dec_bool.
    replace (0xc0 + rlp_len payload - 0xc0) with (rlp_len payload) by lia.
    apply short_payload_app.
  - destruct (minimal_bytes_spec (rlp_len payload) ltac:(lia)) as (Hw & Hv & Hl & _).
    change (Z.of_nat (length (minimal_bytes (rlp_len payload))))
      with (rlp_len (minimal_bytes (rlp_len payload))).
    rewrite wrap8_header by lia. unfold list_payload. cbn [app].
    assert (1 ≤ rlp_len (minimal_bytes (rlp_len payload)) ≤ 8) by (unfold rlp_len at 1 3; lia).
    dec_bool.
    match goal with |- context [long_payload _ ?x] =>
      replace x with (rlp_len (minimal_bytes (rlp_len payload))) by lia end.
    apply long_payload_app; [by apply decode_minimal; lia | lia | done].
Qed.

Lemma items_payload_cons (x : bytes) (items : list bytes) :
  items_payload (x :: items) = string_item x ++ items_payload items.
Proof. done. Qed.

Lemma rlp_len_app (a b : bytes) : rlp_len (a ++ b) = rlp_len a + rlp_len b.
Proof. unfold rlp_len. rewrite length_app. lia. Qed.

Lemma rlp_len_nonneg (a : bytes) : 0 ≤ rlp_len a.
Proof. unfold rlp_len. lia. Qed.

#[local] Hint Resolve rlp_len_nonneg : zbx.

Lemma string_item_nonempty (x : bytes) : 1 ≤ rlp_len (string_item x).
Proof.
  destruct (string_item_cases x) as [(b & -> & Hb & ->) | [[-> Hn] | [-> Hn]]];
    unfold rlp_len; simpl length; lia.
Qed.

Lemma at_loop_items (items : list bytes) (pre : bytes) (fuel : nat) (idx : Z) (k : nat) :
  Forall wf_bytes items → rlp_len (pre ++ items_payload items) < 2 ^ 63 →
  (length items ≤ fuel)%nat →
  at_loop fuel (pre ++ items_payload items) (rlp_len pre) idx (idx + Z.of_nat k) =
  match items !! k with
  | Some x => Ok (string_item x)
  | None => Err ItemCountMismatch
  end.
Proof.
  revert pre fuel idx k. induction items as [|x items IH]; intros pre fuel idx k Hwf Hlen Hfuel.
  - unfold items_payload. cbn [map concat]. rewrite app_nil_r.
    destruct fuel; cbn [at_loop]; by rewrite (proj2 (Z.ltb_ge _ _)) by lia.
  - apply Forall_cons in Hwf as [Hx Hwf]. destruct fuel as [|fuel]; [simpl in Hfuel; lia|].
    rewrite items_payload_cons in *. rewrite !rlp_len_app in Hlen.
    pose proof (string_item_nonempty x). pose proof (rlp_len_nonneg (items_payload items)).
    cbn [at_loop]. rewrite (proj2 (Z.ltb_lt _ _)) by (rewrite !rlp_len_app; lia).
    rewrite item_length_string_item by (done || rewrite !rlp_len_app; lia). cbn [outcome_bind].
    destruct k as [|k].
    + rewrite Z.add_0_r, Z.eqb_refl. by apply slice_mid.
    + rewrite (proj2 (Z.eqb_neq _ _)) by lia.
      rewrite app_assoc, <- rlp_len_app.
      replace (idx + Z.of_nat (S k)) with ((idx + 1) + Z.of_nat k) by lia.
      apply IH; [done | rewrite !rlp_len_app; lia | simpl in Hfuel; lia].
Qed.

Lemma count_loop_items (items : list bytes) (pre : bytes) (fuel : nat) (c : Z) :
  Forall wf_bytes items → rlp_len (pre ++ items_payload items) < 2 ^ 63 →
  (length items ≤ fuel)%nat →
  count_loop fuel (pre ++ items_payload items) (rlp_len pre) c = Ok (c + Z.of_nat (length items)).
Proof.
  revert pre fuel c. induction items as [|x items IH]; intros pre fuel c Hwf Hlen Hfuel.
  - unfold items_payload. cbn [map concat]. rewrite app_nil_r.
    destruct fuel; cbn [count_loop]; rewrite (proj2 (Z.ltb_ge _ _)) by lia; f_equal; simpl; lia.
  - apply Forall_cons in Hwf as [Hx Hwf]. destruct fuel as [|fuel]; [simpl in Hfuel; lia|].
    rewrite items_payload_cons in *. rewrite !rlp_len_app in Hlen.
    pose proof (string_item_nonempty x). pose proof (rlp_len_nonneg (items_payload items)).
    cbn [count_loop]. rewrite (proj2 (Z.ltb_lt _ _)) by (rewrite !rlp_len_app; lia).
    rewrite item_length_string_item by (done || rewrite !rlp_len_app; lia). cbn [outcome_bind].
    rewrite app_assoc, <- rlp_len_app, IH;
      [|done | rewrite !rlp_len_app; lia | simpl in Hfuel; lia].
    f_equal. simpl length. lia.
Qed.

Lemma items_le_payload (items : list bytes) : (length items ≤ length (items_payload items))%nat.
Proof.
  induction items as [|x items IH]; [done|]. rewrite items_payload_cons, length_app.
  pose proof (string_item_nonempty x). unfold rlp_len in *. simpl length. lia.
Qed.

(** ** Lists of mixed items

    An item is delimited when [item_length] finds its end wherever it stands;
    string items and encoded lists are, and the scans of a list walk any
    sequence of delimited items. *)

Definition delimited (x : bytes) : Prop :=
  x ≠ [] ∧ ∀ pre post, rlp_len (pre ++ x ++ post) < 2 ^ 63 →
    item_length (pre ++ x ++ post) (rlp_len pre) = Ok (rlp_len x).

Lemma delimited_string (data : bytes) : wf_bytes data → delimited (string_item data).
Proof.
  intros Hwf. split; [|by intros; apply item_length_string_item].
  intros E. pose proof (string_item_nonempty data) as Hn. rewrite E in Hn. by compute in Hn.
Qed.

Definition list_item (payload : bytes) : bytes := list_prefix (rlp_len payload) ++ payload.

Lemma list_item_cases (payload : bytes) : rlp_len payload < 2 ^ 63 →
  (list_item payload = (0xc0 + rlp_len payload) :: payload ∧ rlp_len payload ≤ 55) ∨
  (∃ lb, list_item payload = (0xf7 + rlp_len lb) :: lb ++ payload ∧ 1 ≤ rlp_len lb ≤ 8 ∧
         decode_length lb = Ok (rlp_len payload)).
Proof.
  intros Hp. pose proof (rlp_len_nonneg payload). unfold list_item, list_prefix. case_if.
  - left. unfold wrap8. rewrite (Z.mod_small (rlp_len _)), Z.mod_small by lia. done.
  - right. exists (minimal_bytes (rlp_len payload)).
    destruct (minimal_bytes_spec (rlp_len payload) ltac:(lia)) as (_ & _ & Hl & _).
    change (Z.of_nat (length (minimal_bytes (rlp_len payload))))
      with (rlp_len (minimal_bytes (rlp_len payload))).
    rewrite wrap8_header by lia. split_and!; [done|unfold rlp_len at 1; lia..|].
    apply decode_minimal. lia.
Qed.

Lemma list_item_len (payload : bytes) : rlp_len payload < 2 ^ 63 →
  1 + rlp_len payload ≤ rlp_len (list_item payload) ≤ 9 + rlp_len payload.
Proof.
  intros Hp. destruct (list_item_cases payload Hp) as [[-> _] | (lb & -> & Hl & _)];
    unfold rlp_len in *; cbn [length]; rewrite ?length_app; lia.
Qed.

Lemma delimited_list (payload : bytes) : rlp_len payload < 2 ^ 63 → delimited (list_item payload).
Proof.
  intros Hp. split.
  { intros E. pose proof (list_item_len payload Hp) as Hl. rewrite E in Hl.
    pose proof (rlp_len_nonneg payload). change (rlp_len []) with 0 in Hl. lia. }
  intros pre post Htot. unfold item_length.
  assert (Hlen : rlp_len (pre ++ list_item payload ++ post) =
                 rlp_len pre + rlp_len (list_item payload) + rlp_len post)
    by (unfold rlp_len; rewrite !length_app; lia).
  rewrite Hlen in *. pose proof (rlp_len_nonneg pre). pose proof (rlp_len_nonneg post).
  pose proof (rlp_len_nonneg payload). pose proof (list_item_len payload Hp).
  assert (Hidx : ∀ h t, list_item payload = h :: t →
      (pre ++ list_item payload ++ post) !! Z.to_nat (rlp_len pre) = Some h).
  { intros h t ->. unfold rlp_len. rewrite Nat2Z.id, lookup_app_r, Nat.sub_diag by lia. done. }
  assert (Hend : ∀ n, n = rlp_len (list_item payload) →
    (let? end_ := ok_or (checked_add64 (rlp_len pre) n) Overflow in
     if rlp_len pre + rlp_len (list_item payload) + rlp_len post <? end_
     then Err (UnexpectedEnd end_) else Ok n) = Ok (rlp_len (list_item payload)) :> res Z).
  { intros n ->. unfold checked_add64, ok_or, U64_MAX. dec_bool. cbn [outcome_bind]. by dec_bool. }
  destruct (list_item_cases payload Hp) as [[E Hn] | (lb & E & Hl & Hd)].
  - rewrite (Hidx _ _ E).
    assert (Hs : rlp_len (list_item payload) = 1 + rlp_len payload)
      by (rewrite E; unfold rlp_len; simpl length; lia).
    rewrite Hs in *. dec_bool. cbn [outcome_bind]. apply Hend. lia.
  - assert (Hs : rlp_len (list_item payload) = 1 + rlp_len lb + rlp_len payload)
      by (rewrite E; unfold rlp_len; simpl length; rewrite length_app; lia).
    rewrite (Hidx _ _ E). rewrite Hs in *. dec_bool.
    replace (0xf7 + rlp_len lb - 0xf7) with (rlp_len lb) by lia. dec_bool.
    rewrite E. change ((0xf7 + rlp_len lb) :: lb ++ payload) with ([0xf7 + rlp_len lb] ++ lb ++ payload).
    rewrite <- !app_assoc, (app_assoc pre).
    rewrite slice_mid by (unfold rlp_len; rewrite ?length_app; simpl length; lia).
    cbn [outcome_bind]. rewrite Hd. cbn [outcome_bind].
    rewrite checked_end_ok by (unfold U64_MAX; lia). cbn [outcome_bind]. apply Hend. lia.
Qed.

Lemma at_loop_delimited (items : list bytes) (pre : bytes) (fuel : nat) (idx : Z) (k : nat) :
  Forall delimited items → rlp_len (pre ++ concat items) < 2 ^ 63 → (length items ≤ fuel)%nat →
  at_loop fuel (pre ++ concat items) (rlp_len pre) idx (idx + Z.of_nat k) =
  match items !! k with Some x => Ok x | None => Err ItemCountMismatch end.
Proof.
  revert pre fuel idx k. induction items as [|x items IH]; intros pre fuel idx k Hd Hlen Hfuel.
  - cbn [concat]. rewrite app_nil_r.
    destruct fuel; cbn [at_loop]; by rewrite (proj2 (Z.ltb_ge _ _)) by lia.
  - apply Forall_cons in Hd as [[Hne Hx] Hd]. destruct fuel as [|fuel]; [simpl in Hfuel; lia|].
    cbn [concat] in *. rewrite !rlp_len_app in Hlen.
    assert (1 ≤ rlp_len x) by (destruct x; [done|unfold rlp_len; simpl length; lia]).
    pose proof (rlp_len_nonneg (concat items)).
    cbn [at_loop]. rewrite (proj2 (Z.ltb_lt _ _)) by (rewrite !rlp_len_app; lia).
    rewrite Hx by (rewrite !rlp_len_app; lia). cbn [outcome_bind].
    destruct k as [|k].
    + rewrite Z.add_0_r, Z.eqb_refl. by apply slice_mid.
    + rewrite (proj2 (Z.eqb_neq _ _)) by lia. rewrite app_assoc, <- rlp_len_app.
      replace (idx + Z.of_nat (S k)) with ((idx + 1) + Z.of_nat k) by lia.
      apply IH; [done | rewrite !rlp_len_app; lia | simpl in Hfuel; lia].
Qed.

Lemma count_loop_delimited (items : list bytes) (pre : bytes) (fuel : nat) (c : Z) :
  Forall delimited items → rlp_len (pre ++ concat items) < 2 ^ 63 → (length items ≤ fuel)%nat →
  count_loop fuel (pre ++ concat items) (rlp_len pre) c = Ok (c + Z.of_nat (length items)).
Proof.
  revert pre fuel c. induction items as [|x items IH]; intros pre fuel c Hd Hlen Hfuel.
  - cbn [concat]. rewrite app_nil_r.
    destruct fuel; cbn [count_loop]; rewrite (proj2 (Z.ltb_ge _ _)) by lia; f_equal; simpl; lia.
  - apply Forall_cons in Hd as [[Hne Hx] Hd]. destruct fuel as [|fuel]; [simpl in Hfuel; lia|].
    cbn [concat] in *. rewrite !rlp_len_app in Hlen.
    assert (1 ≤ rlp_len x) by (destruct x; [done|unfold rlp_len; simpl length; lia]).
    pose proof (rlp_len_nonneg (concat items)).
    cbn [count_loop]. rewrite (proj2 (Z.ltb_lt _ _)) by (rewrite !rlp_len_app; lia).
    rewrite Hx by (rewrite !rlp_len_app; lia). cbn [outcome_bind].
    rewrite app_assoc, <- rlp_len_app, IH;
      [|done | rewrite !rlp_len_app; lia | simpl in Hfuel; lia].
    f_equal. simpl length. lia.
Qed.

Lemma delimited_le (items : list bytes) :
  Forall delimited items → (length items ≤ length (concat items))%nat.
Proof.
  induction 1 as [|x items [Hne _] _ IH]; [done|]. cbn [concat length]. rewrite length_app.
  destruct x; [done|]. simpl length. lia.
Qed.

(** A list of delimited items reports its length and gives back each item. *)
Lemma list_items_decode (items : list bytes) :
  Forall delimited items → rlp_len (concat items) < 2 ^ 63 →
  let enc := list_item (concat items) in
  item_count enc = Ok (Z.of_nat (length items)) ∧
  ∀ k : nat, at_ enc (Z.of_nat k) = match items !! k with Some x => Ok x | None => Err ItemCountMismatch end.
Proof.
  intros Hd Hlen. cbn zeta.
  pose proof (list_payload_list (concat items) [] Hlen) as Hp. rewrite app_nil_r in Hp.
  fold (list_item (concat items)) in Hp. pose proof (delimited_le items Hd) as Hle. split.
  - unfold item_count. destruct (list_item (concat items)) as [|b d] eqn:E.
    { destruct (delimited_list (concat items) Hlen) as [Hne _]. done. }
    case_if; [simpl in Hp; by rewrite (proj2 (Z.ltb_lt _ _)) in Hp by lia|].
    rewrite Hp. cbn [outcome_bind fst]. apply (count_loop_delimited items []); done.
  - intros k. unfold at_. rewrite Hp. cbn [outcome_bind fst].
    pose proof (at_loop_delimited items [] (length (concat items)) 0 k Hd Hlen Hle) as Hat.
    rewrite Z.add_0_l in Hat. done.
Qed.

(** ** Decoder totality *)

Lemma decode_length_cases (lb : bytes) :
  decode_length lb ≠ Panic ∧ ∀ n, wf_bytes lb → decode_length lb = Ok n → 0 ≤ n.
Proof.
  unfold decode_length. destruct lb as [|b l]; [done|]. case_if; [done|].
  split; [done|]. intros n Hwf [= <-].
  pose proof (fold_shift_in_u64 (b :: l) Hwf) as [? ?]. done.
Qed.

Lemma checked_end_cases (a b : Z) :
  checked_end a b ≠ Panic ∧ ∀ n, checked_end a b = Ok n → n = 1 + a + b.
Proof.
  unfold checked_end, checked_add64, ok_or. repeat case_if; split; try done; intros n [=]; lia.
Qed.

(** The contract [item_length] documents: the item lies inside the buffer. *)
Lemma item_length_cases (data : bytes) (pos : Z) :
  wf_bytes data → 0 ≤ pos →
  item_length data pos ≠ Panic ∧
  ∀ n, item_length data pos = Ok n → 1 ≤ n ∧ pos + n ≤ rlp_len data.
Proof.
  intros Hwf Hpos. unfold item_length.
  destruct (rlp_len data <=? pos) eqn:Hp; simp_bool; [done|].
  destruct (data !! Z.to_nat pos) as [b|] eqn:Hb.
  2:{ apply lookup_ge_None in Hb. unfold rlp_len in Hp. lia. }
  assert (0 ≤ b < 2 ^ 8) as Hbr by (eapply (Forall_lookup_1 _ _ _ _ Hwf Hb)).
  cbv zeta.
  match goal with |- context [@outcome_bind ?E ?A ?B ?m ?k] => set (M := m); set (K := k) end.
  assert (HM : M ≠ Panic ∧ ∀ n, M = Ok n → 1 ≤ n).
  { subst M. repeat case_if; (split; [|intros n; try (intros [=]; lia)]); try done.
    all: match goal with |- context [slice ?d ?i ?j] =>
           pose proof (slice_ok (E:=RlpError) d i j) as Hs; rewrite Hs by (unfold rlp_len in *; lia) end;
      cbn [outcome_bind];
      match goal with |- context [decode_length ?l] =>
        pose proof (decode_length_cases l) as [Hd1 Hd2];
        assert (wf_bytes l) as Hwl by eauto with zbx;
        destruct (decode_length l) as [v|e|] eqn:Hd; cbn [outcome_bind]; try done;
        specialize (Hd2 v Hwl eq_refl);
        pose proof (checked_end_cases (b - 0xb7) v) as [? ?];
        pose proof (checked_end_cases (b - 0xf7) v) as [? ?] end; try done.
    all: intros Hn; repeat match goal with H : ∀ n, checked_end _ _ = Ok n → _ |- _ =>
        specialize (H n); try specialize (H Hn) end; lia. }
  destruct HM as [HM1 HM2]. destruct M as [m|e|]; [|done|done]. cbn [outcome_bind].
  specialize (HM2 m eq_refl). subst K. cbn beta. unfold checked_add64, ok_or.
  repeat (case_if; cbn [outcome_bind]); split; try done. intros n [= <-]. lia.
Qed.

Lemma short_payload_cases (data : bytes) (n : Z) :
  0 ≤ n → short_payload data n ≠ Panic ∧
  ∀ p r, short_payload data n = Ok (p, r) → wf_bytes data → wf_bytes p.
Proof.
  intros Hn. unfold short_payload. case_if; [done|].
  rewrite slice_ok by (unfold rlp_len in *; lia). cbn [outcome_bind].
  rewrite slice_ok by (unfold rlp_len in *; lia). cbn [outcome_bind].
  split; [done|]. intros p r [= <- <-]. eauto with zbx.
Qed.

Lemma long_payload_cases (data : bytes) (lb : Z) :
  wf_bytes data → 0 ≤ lb → long_payload data lb ≠ Panic ∧
  ∀ p r, long_payload data lb = Ok (p, r) → wf_bytes p.
Proof.
  intros Hwf Hn. unfold long_payload. case_if; [done|].
  rewrite slice_ok by (unfold rlp_len in *; lia). cbn [outcome_bind].
  match goal with |- context [decode_length ?l] =>
    pose proof (decode_length_cases l) as [Hd1 Hd2]; assert (wf_bytes l) as Hwl by eauto with zbx;
    destruct (decode_length l) as [v|e|] eqn:Hd; cbn [outcome_bind]; try done end.
  specialize (Hd2 v Hwl eq_refl). pose proof (checked_end_cases lb v) as [Hc1 Hc2].
  destruct (checked_end lb v) as [e|e|] eqn:He; cbn [outcome_bind]; try done.
  specialize (Hc2 e eq_refl). case_if; [done|].
  rewrite slice_ok by (unfold rlp_len in *; lia). cbn [outcome_bind].
  rewrite slice_ok by (unfold rlp_len in *; lia). cbn [outcome_bind].
  split; [done|]. intros p r [= <- <-]. eauto with zbx.
Qed.

Lemma list_payload_cases (data : bytes) :
  wf_bytes data → list_payload data ≠ Panic ∧
  ∀ p r, list_payload data = Ok (p, r) → wf_bytes p.
Proof.
  intros Hwf. unfold list_payload. destruct data as [|b d].
  - split; [done|]. intros p r [= <- <-]. constructor.
  - repeat case_if; [done| |].
    + pose proof (short_payload_cases (b :: d) (b - 0xc0) ltac:(lia)) as []. eauto.
    + apply long_payload_cases; [done|lia].
Qed.

Lemma at_loop_no_panic (fuel : nat) (lb : bytes) (pos idx n : Z) :
  wf_bytes lb → 0 ≤ pos → rlp_len lb - pos ≤ Z.of_nat fuel →
  at_loop fuel lb pos idx n ≠ Panic.
Proof.
  revert pos idx. induction fuel as [|f IH]; intros pos idx Hwf Hpos Hf; cbn [at_loop].
  - case_if; [lia | done].
  - case_if; [|done]. destruct (item_length_cases lb pos Hwf Hpos) as [H1 H2].
    apply bind_no_panic; [done|]. intros il Hil. specialize (H2 il Hil) as [? ?].
    case_if; [apply slice_no_panic; unfold rlp_len in *; lia | apply IH; try done; lia].
Qed.

Lemma count_loop_no_panic (fuel : nat) (lb : bytes) (pos c : Z) :
  wf_bytes lb → 0 ≤ pos → rlp_len lb - pos ≤ Z.of_nat fuel → count_loop fuel lb pos c ≠ Panic.
Proof.
  revert pos c. induction fuel as [|f IH]; intros pos c Hwf Hpos Hf; cbn [count_loop].
  - case_if; [lia | done].
  - case_if; [|done]. destruct (item_length_cases lb pos Hwf Hpos) as [H1 H2].
    apply bind_no_panic; [done|]. intros il Hil. specialize (H2 il Hil) as [? ?].
    apply IH; try done; lia.
Qed.

Lemma as_bytes_no_panic (data : bytes) : wf_bytes data → as_bytes data ≠ Panic.
Proof.
  intros Hwf. unfold as_bytes. apply bind_no_panic; [|done]. unfold split_payload.
  destruct data as [|b d]; [done|]. repeat case_if; try done.
  - rewrite slice_ok by (simpl length; lia). cbn [outcome_bind].
    rewrite slice_ok by (unfold rlp_len; simpl length; lia). done.
  - by apply short_payload_cases; lia.
  - by apply long_payload_cases; [|lia].
Qed.

(** ** Theorems *)

(** Round trip of byte strings: encoding any byte string succeeds, and
    decoding the encoding, whatever bytes follow it in the buffer, gives the
    string back. *)
Theorem decode_encode_bytes (data rest : bytes) :
  wf_bytes data → rlp_len data < 2 ^ 63 →
  ∃ enc, encode data = Ok enc ∧ decode (enc ++ rest) = Ok data.
Proof.
  intros Hwf Hlen. exists (string_item data). split; [done|].
  unfold decode, decode_from, decodable_bytes, as_bytes.
  by rewrite split_payload_string_item.
Qed.

Lemma decode_encode_bytes_witness :
  ∃ enc, encode [0xde; 0xad; 0xbe; 0xef] = Ok enc ∧ decode (enc ++ [1; 2]) = Ok [0xde; 0xad; 0xbe; 0xef].
Proof.
  apply (decode_encode_bytes [0xde; 0xad; 0xbe; 0xef] [1; 2]).
  - repeat constructor; unfold is_u8; lia.
  - reflexivity.
Defined.

(** Round trip of u64: the minimal big-endian encoding decodes to the
    same number, for every u64 value, zero included. *)
Theorem decode_encode_u64 (v : Z) (rest : bytes) :
  is_u64 v →
  ∃ enc, out (encode_u64 v stream_new) = Ok enc ∧ decode_u64 (enc ++ rest) = Ok v.
Proof.
  intros Hv. unfold is_u64 in Hv. unfold encode_u64. destruct (v =? 0) eqn:E; simp_bool.
  - subst v. exists (string_item []). split; [done|].
    unfold decode_u64, as_bytes. rewrite split_payload_string_item; [done | constructor | done].
  - destruct (minimal_bytes_spec v ltac:(lia)) as (Hw & Hval & Hl & _).
    exists (string_item (minimal_bytes v)). split; [done|].
    unfold decode_u64, as_bytes. rewrite split_payload_string_item by (done || unfold rlp_len; lia).
    cbn [outcome_bind fst]. rewrite (proj2 (Z.ltb_ge _ _)) by (unfold rlp_len; lia).
    by rewrite fold_shift_in_0, Hval by (done || lia).
Qed.

Lemma decode_encode_u64_witness :
  ∃ enc, out (encode_u64 123456789 stream_new) = Ok enc ∧ decode_u64 (enc ++ []) = Ok 123456789.
Proof. apply (decode_encode_u64 123456789 []). unfold is_u64; lia. Defined.

(** C39: Round trip of lists: the encoding of a list of byte strings reports
    its item count and gives back every item by index; an index past the end
    is [ItemCountMismatch]. *)
Theorem decode_encode_list (items : list bytes) (rest : bytes) :
  Forall wf_bytes items → rlp_len (items_payload items) < 2 ^ 63 →
  ∃ enc, encode_list items = Ok enc ∧
    item_count (enc ++ rest) = Ok (Z.of_nat (length items)) ∧
    ∀ k : nat, val_at (enc ++ rest) (Z.of_nat k) =
      match items !! k with Some x => Ok x | None => Err ItemCountMismatch end.
Proof.
  intros Hwf Hlen. eexists. split; [apply encode_list_spec|].
  rewrite <- app_assoc. pose proof (list_payload_list (items_payload items) rest Hlen) as Hp.
  pose proof (items_le_payload items) as Hle. split.
  - unfold item_count.
    destruct (list_prefix _ ++ _) as [|b d] eqn:Hd;
      [apply app_eq_nil in Hd as [Hd _]; unfold list_prefix in Hd; by case_if|].
    case_if; [simpl in Hp; by rewrite (proj2 (Z.ltb_lt _ _)) in Hp by lia|].
    rewrite Hp. cbn [outcome_bind fst].
    apply (count_loop_items items [] (length (items_payload items)) 0); done.
  - intros k. unfold val_at, at_. rewrite Hp. cbn [outcome_bind fst].
    pose proof (at_loop_items items [] (length (items_payload items)) 0 k Hwf Hlen Hle) as Hat.
    rewrite Z.add_0_l in Hat. change (rlp_len []) with 0 in Hat. rewrite app_nil_l in Hat. rewrite Hat.
    destruct (items !! k) as [x|] eqn:Hk; [|done]. cbn [outcome_bind].
    unfold decode_from, decodable_bytes, as_bytes.
    rewrite <- (app_nil_r (string_item x)), split_payload_string_item; [done| |].
    + by apply (Forall_lookup_1 _ _ _ _ Hwf Hk).
    + apply list_elem_of_split_length in Hk as (l1 & l2 & -> & _).
      unfold items_payload in Hlen. rewrite map_app, concat_app, rlp_len_app in Hlen. cbn in Hlen.
      rewrite rlp_len_app in Hlen.
      assert (rlp_len x ≤ rlp_len (string_item x)).
      { destruct (string_item_cases x) as [(b & -> & Hb & ->) | [[-> Hn] | [-> Hn]]];
          unfold rlp_len; simpl length; rewrite ?length_app; lia. }
      pose proof (rlp_len_nonneg (concat (map string_item l1))).
      pose proof (rlp_len_nonneg (concat (map string_item l2))). lia.
Qed.

Lemma decode_encode_list_witness :
  ∃ enc, encode_list [[1; 2; 3]; []; [200]] = Ok enc ∧
    item_count (enc ++ []) = Ok (Z.of_nat (length [[1; 2; 3]; []; [200]])) ∧
    ∀ k : nat, val_at (enc ++ []) (Z.of_nat k) =
      match [[1; 2; 3]; []; [200]] !! k with Some x => Ok x | None => Err ItemCountMismatch end.
Proof.
  apply (decode_encode_list [[1; 2; 3]; []; [200]] []).
  - repeat constructor; unfold is_u8; lia.
  - reflexivity.
Defined.

(** C40: The decoder never panics: on every byte string, well formed RLP or
    not, each entry point returns a value or an [RlpError]; no slice index is
    out of range and the scan loops end. *)
Theorem decoder_never_panics (data : bytes) (n : Z) :
  wf_bytes data →
  as_bytes data ≠ Panic ∧ decode_u64 data ≠ Panic ∧
  item_count data ≠ Panic ∧ at_ data n ≠ Panic.
Proof.
  intros Hwf. pose proof (as_bytes_no_panic data Hwf) as Ha. split_and!; [done| | |].
  - unfold decode_u64. apply bind_no_panic; [done|]. intros b _. by case_if.
  - unfold item_count. destruct data as [|b d] eqn:Hd; [done|]. rewrite <- Hd in *. case_if; [done|].
    destruct (list_payload_cases data Hwf) as [H1 H2].
    apply bind_no_panic; [done|]. intros [p r] Hp.
    apply count_loop_no_panic; [by eapply H2 | lia | cbn [fst]; unfold rlp_len; lia].
  - unfold at_. destruct (list_payload_cases data Hwf) as [H1 H2].
    apply bind_no_panic; [done|]. intros [p r] Hp.
    apply at_loop_no_panic; [by eapply H2 | lia | cbn [fst]; unfold rlp_len; lia].
Qed.

Lemma decoder_never_panics_witness :
  as_bytes [0xbf; 0xff; 0xff] ≠ Panic ∧ decode_u64 [0xbf; 0xff; 0xff] ≠ Panic ∧
  item_count [0xbf; 0xff; 0xff] ≠ Panic ∧ at_ [0xbf; 0xff; 0xff] 7 ≠ Panic.
Proof. apply (decoder_never_panics [0xbf; 0xff; 0xff] 7). repeat constructor; unfold is_u8; lia. Defined.

(** The decoder accepts non-canonical encodings: the one-byte string 0x05
    also decodes from its two-byte form 0x81 0x05 and from a long form with a
    one-byte length, so decoding is not injective on encodings. *)
Theorem decode_accepts_noncanonical :
  decode [0x05] = Ok [5] ∧ decode [0x81; 0x05] = Ok [5] ∧ decode [0xb8; 0x01; 0x05] = Ok [5] ∧
  encode [5] = Ok [0x05].
Proof. split_and!; vm_compute; reflexivity. Qed.

End Rlp.
