(* ===== verification/Fee.v ===== *)
(** * zbx-fee: the EIP-1559 fee market

    Models crates/zbx-fee/src: the base-fee step and effective price of
    base_fee.rs, the tip estimator of priority_fee.rs and the legacy oracle of
    gas_price.rs. The u128 intermediates of the base-fee step are kept at their
    width; a zero gas target divides by zero, which aborts. fee_history.rs
    stores f64 ratios and is not modelled. *)

From stdpp Require Import sorting.
From S2P Require Import Prelude.

Module Fee.

Definition BASE_FEE_CHANGE_DENOMINATOR : Z := 8.
Definition ELASTICITY_MULTIPLIER : Z := 2.
Definition MIN_BASE_FEE : Z := 7.

Inductive FeeError : Type :=
| BaseFeeOverflow
| GasLimitExceeded (used limit : Z)
| FeeHistoryRangeTooLarge (req max : Z)
| InsufficientTip (min got : Z)
| MaxFeeBelowBaseFee (max_fee base_fee : Z).

Abbreviation res := (outcome FeeError).

(** ** base_fee.rs *)

(** u128 division; a zero divisor panics. *)
Definition div_u128 (a b : Z) : res Z := if b =? 0 then Panic else Ok (a / b).

(** [(parent_base_fee as u128).saturating_mul(gas_delta) / gas_target / 8]. *)
Definition fee_delta_u128 (parent_base_fee gas_delta gas_target : Z) : res Z :=
  let? q := div_u128 (saturating_mul128 parent_base_fee gas_delta) gas_target in
  div_u128 q BASE_FEE_CHANGE_DENOMINATOR.

Definition next_base_fee (parent_base_fee parent_gas_used parent_gas_limit : Z) : res Z :=
  let gas_target := parent_gas_limit / ELASTICITY_MULTIPLIER in
  let? next :=
    if parent_gas_used =? gas_target then Ok parent_base_fee
    else if gas_target <? parent_gas_used then
      let gas_delta := parent_gas_used - gas_target in
      let? d := fee_delta_u128 parent_base_fee gas_delta gas_target in
      let fee_delta := wrap64 (Z.max d 1) in
      ok_or (checked_add64 parent_base_fee fee_delta) BaseFeeOverflow
    else
      let gas_delta := gas_target - parent_gas_used in
      let? d := fee_delta_u128 parent_base_fee gas_delta gas_target in
      let fee_delta := wrap64 d in
      Ok (saturating_sub parent_base_fee fee_delta) in
  Ok (Z.max next MIN_BASE_FEE).

Definition effective_gas_price (base_fee max_fee_per_gas max_priority_fee_per_gas : Z) : res Z :=
  if max_fee_per_gas <? base_fee then Err (MaxFeeBelowBaseFee max_fee_per_gas base_fee)
  else let tip := Z.min max_priority_fee_per_gas (max_fee_per_gas - base_fee) in
       Ok (wrap64 (base_fee + tip)).

Definition miner_tip (base_fee max_fee_per_gas max_priority_fee_per_gas : Z) : Z :=
  Z.min max_priority_fee_per_gas (saturating_sub max_fee_per_gas base_fee).

(** ** priority_fee.rs *)

Record PriorityFeeEstimator := mkEstimator {
  samples : list (list Z);   (* oldest block first *)
  capacity : nat;
}.

Record FeeEstimate := mkEstimate { low : Z; medium : Z; high : Z; urgent : Z }.

Definition estimator_new (history_blocks : nat) : PriorityFeeEstimator :=
  mkEstimator [] (Nat.max history_blocks 1).

Definition record_block (e : PriorityFeeEstimator) (tips : list Z) : PriorityFeeEstimator :=
  let kept := if bool_decide (capacity e ≤ length (samples e))%nat
              then drop 1 (samples e) else samples e in
  mkEstimator (kept ++ [tips]) (capacity e).

Definition percentile (sorted : list Z) (p : nat) : Z :=
  match sorted with
  | [] => 0
  | _ => default 0 (sorted !! ((length sorted - 1) * p / 100)%nat)
  end.

Definition estimate (e : PriorityFeeEstimator) : FeeEstimate :=
  let all := concat (samples e) in
  match all with
  | [] => mkEstimate 1000000000 1500000000 2000000000 3000000000
  | _ =>
      let sorted := merge_sort Z.le all in
      mkEstimate (percentile sorted 25) (percentile sorted 50)
                 (percentile sorted 75) (percentile sorted 95)
  end.

(** ** gas_price.rs *)

Record GasPriceOracle := mkOracle {
  tip_estimator : PriorityFeeEstimator;
  last_base_fee : Z;
}.

Definition oracle_new (history_blocks : nat) : GasPriceOracle :=
  mkOracle (estimator_new history_blocks) 1000000000.

Definition oracle_update (o : GasPriceOracle) (base_fee : Z) (tips : list Z) : GasPriceOracle :=
  mkOracle (record_block (tip_estimator o) tips) base_fee.

Definition gas_price (o : GasPriceOracle) : Z :=
  saturating_add64 (last_base_fee o) (medium (estimate (tip_estimator o))).

Definition fast_gas_price (o : GasPriceOracle) : Z :=
  saturating_add64 (last_base_fee o) (high (estimate (tip_estimator o))).

(** ** The base-fee step *)

Lemma saturating_mul128_u64 (a b : Z) :
  is_u64 a → is_u64 b → saturating_mul128 a b = a * b.
Proof.
  unfold is_u64, saturating_mul128, U128_MAX. intros Ha Hb. apply Z.min_l.
  assert (a * b ≤ (2 ^ 64 - 1) * (2 ^ 64 - 1)) by (apply Z.mul_le_mono_nonneg; lia). lia.
Qed.

Lemma fee_delta_ok (f d t : Z) :
  is_u64 f → is_u64 d → 0 < t → fee_delta_u128 f d t = Ok (f * d / t / 8).
Proof.
  intros Hf Hd Ht. unfold fee_delta_u128, div_u128.
  rewrite saturating_mul128_u64 by done. dec_bool. cbn [outcome_bind]. done.
Qed.

(** The change is at most one eighth while the gas delta is within the target. *)
Lemma fee_delta_eighth (f d t : Z) : 0 ≤ f → 0 ≤ d ≤ t → 0 < t → 0 ≤ f * d / t / 8 ≤ f / 8.
Proof.
  intros Hf Hd Ht. split.
  - repeat apply Z.div_pos; nia.
  - apply Z.div_le_mono; [lia|]. apply Z.div_le_upper_bound; nia.
Qed.

Lemma wrap64_small (x : Z) : is_u64 x → wrap64 x = x.
Proof. intros. by apply Z.mod_small. Qed.

(** The unclamped step in closed form, for blocks within the gas limit. *)
Definition step_up (f used t : Z) : Z := f + Z.max (f * (used - t) / t / 8) 1.
Definition step_down (f used t : Z) : Z := f - f * (t - used) / t / 8.

Lemma next_base_fee_closed (f used limit : Z) :
  is_u64 f → is_u64 limit → 0 ≤ used ≤ 2 * (limit / 2) → 1 ≤ limit / 2 →
  next_base_fee f used limit =
    let t := limit / 2 in
    if used =? t then Ok (Z.max f 7)
    else if t <? used
    then if step_up f used t <=? U64_MAX then Ok (Z.max (step_up f used t) 7) else Err BaseFeeOverflow
    else Ok (Z.max (step_down f used t) 7).
Proof.
  intros Hf Hl Hu Ht. unfold is_u64 in Hl.
  assert (limit / 2 < 2 ^ 63) as Hlt by (apply Z.div_lt_upper_bound; lia).
  unfold next_base_fee, ELASTICITY_MULTIPLIER, MIN_BASE_FEE. cbv zeta.
  set (t := limit / 2) in *. case_if; [done|]. case_if.
  - pose proof (fee_delta_eighth f (used - t) t) as H8. unfold is_u64 in Hf.
    rewrite fee_delta_ok by (unfold is_u64; lia). cbn [outcome_bind].
    assert (f / 8 ≤ f) by (apply Z.div_le_upper_bound; lia).
    rewrite wrap64_small by (unfold is_u64; lia).
    unfold checked_add64, ok_or, step_up. by case_if.
  - pose proof (fee_delta_eighth f (t - used) t) as H8. unfold is_u64 in Hf.
    rewrite fee_delta_ok by (unfold is_u64; lia). cbn [outcome_bind].
    assert (f / 8 ≤ f) by (apply Z.div_le_upper_bound; lia).
    rewrite wrap64_small by (unfold is_u64; lia).
    unfold saturating_sub, step_down. by rewrite (Z.max_r 0) by lia.
Qed.

(** ** Theorems *)

(** One base-fee step, for a block that does not exceed its (even) gas
    limit: the new fee is at least the floor, moves by at most one eighth
    (or one wei), and moves in the direction of the gas usage. The only error
    is the u64 overflow of an increase. *)
Theorem next_base_fee_bounds (f used limit : Z) :
  is_u64 f → is_u64 limit → MIN_BASE_FEE ≤ f →
  0 ≤ used ≤ 2 * (limit / 2) → 1 ≤ limit / 2 →
  match next_base_fee f used limit with
  | Ok n => MIN_BASE_FEE ≤ n ∧ f - f / 8 ≤ n ≤ f + Z.max (f / 8) 1 ∧
            (limit / 2 < used → f < n) ∧ (used < limit / 2 → n ≤ f) ∧ (used = limit / 2 → n = f)
  | Err e => e = BaseFeeOverflow ∧ limit / 2 < used ∧ U64_MAX < f + Z.max (f / 8) 1
  | Panic => False
  end.
Proof.
  intros Hf Hl Hmin Hu Ht. rewrite next_base_fee_closed by done. cbv zeta.
  set (t := limit / 2) in *. unfold MIN_BASE_FEE, is_u64 in *.
  assert (0 ≤ f / 8 ≤ f) by (split; [apply Z.div_pos | apply Z.div_le_upper_bound]; lia).
  unfold step_up, step_down in *. repeat case_if; try (split_and!; lia).
  all: first [ pose proof (fee_delta_eighth f (used - t) t ltac:(lia) ltac:(lia) ltac:(lia))
             | pose proof (fee_delta_eighth f (t - used) t ltac:(lia) ltac:(lia) ltac:(lia)) ];
       split_and!; try done; lia.
Qed.

Lemma next_base_fee_bounds_witness :
  next_base_fee 1000000000 30000000 30000000 = Ok 1125000000 ∧
  match next_base_fee 1000000000 30000000 30000000 with
  | Ok n => MIN_BASE_FEE ≤ n ∧ 1000000000 - 1000000000 / 8 ≤ n ≤ 1000000000 + Z.max (1000000000 / 8) 1 ∧
            (30000000 / 2 < 30000000 → 1000000000 < n) ∧ (30000000 < 30000000 / 2 → n ≤ 1000000000) ∧
            (30000000 = 30000000 / 2 → n = 1000000000)
  | Err e => e = BaseFeeOverflow ∧ 30000000 / 2 < 30000000 ∧ U64_MAX < 1000000000 + Z.max (1000000000 / 8) 1
  | Panic => False
  end.
Proof.
  split; [vm_compute; reflexivity|].
  apply (next_base_fee_bounds 1000000000 30000000 30000000); unfold is_u64, MIN_BASE_FEE;
    first [lia | change (30000000 / 2) with 15000000; lia].
Defined.

(** The step is monotone in the gas used: a fuller parent block never
    gives a lower next base fee. *)
Theorem next_base_fee_monotone (f used1 used2 limit n1 n2 : Z) :
  is_u64 f → is_u64 limit → 1 ≤ limit / 2 →
  0 ≤ used1 ≤ used2 → used2 ≤ 2 * (limit / 2) →
  next_base_fee f used1 limit = Ok n1 → next_base_fee f used2 limit = Ok n2 → n1 ≤ n2.
Proof.
  intros Hf Hl Ht Hu Hu2. rewrite !next_base_fee_closed by (done || lia). cbv zeta.
  set (t := limit / 2) in *. unfold is_u64 in Hf. unfold step_up, step_down.
  assert (Hup : ∀ u, t < u → 0 ≤ f * (u - t) / t / 8) by (intros; repeat apply Z.div_pos; nia).
  assert (Hdn : ∀ u, u < t → 0 ≤ f * (t - u) / t / 8) by (intros; repeat apply Z.div_pos; nia).
  assert (f * (used1 - t) / t / 8 ≤ f * (used2 - t) / t / 8)
    by (do 2 (apply Z.div_le_mono; [lia|]); nia).
  assert (f * (t - used2) / t / 8 ≤ f * (t - used1) / t / 8)
    by (do 2 (apply Z.div_le_mono; [lia|]); nia).
  pose proof (Hup used1). pose proof (Hup used2). pose proof (Hdn used1). pose proof (Hdn used2).
  repeat case_if; intros [= <-] [= <-]; lia.
Qed.

Lemma next_base_fee_monotone_witness : 875000000 ≤ 1125000000.
Proof.
  apply (next_base_fee_monotone 1000000000 0 30000000 30000000);
    first [ vm_compute; reflexivity | unfold is_u64; lia | change (30000000 / 2) with 15000000; lia ].
Defined.

(** A gas limit of 0 or 1 gives a zero gas target, and the step then
    divides by zero and aborts the node on any non-empty parent block. *)
Theorem next_base_fee_zero_target (f used limit : Z) :
  0 ≤ limit < 2 → 0 < used → next_base_fee f used limit = Panic.
Proof.
  intros Hl Hu. unfold next_base_fee, ELASTICITY_MULTIPLIER.
  rewrite (Z.div_small limit 2) by lia. dec_bool.
  unfold fee_delta_u128, div_u128. rewrite Z.eqb_refl. done.
Qed.

Lemma next_base_fee_zero_target_witness : next_base_fee 1000000000 21000 1 = Panic.
Proof. apply next_base_fee_zero_target; lia. Defined.

(** The effective price: it is an error exactly when the fee cap is below
    the base fee; otherwise the price is min(cap, base + priority), it equals
    base + miner tip and lies between the base fee and the cap. *)
Theorem effective_gas_price_spec (base cap prio : Z) :
  is_u64 base → is_u64 cap → is_u64 prio →
  match effective_gas_price base cap prio with
  | Ok p => base ≤ cap ∧ p = Z.min cap (base + prio) ∧ p = base + miner_tip base cap prio ∧ base ≤ p ≤ cap
  | Err e => cap < base ∧ e = MaxFeeBelowBaseFee cap base
  | Panic => False
  end.
Proof.
  unfold effective_gas_price, miner_tip, saturating_sub, is_u64. intros Hb Hc Hp.
  case_if; [done|]. rewrite wrap64_small by (unfold is_u64; lia). split_and!; lia.
Qed.

Lemma effective_gas_price_spec_witness :
  effective_gas_price 100 150 200 = Ok 150 ∧
  match effective_gas_price 100 150 200 with
  | Ok p => 100 ≤ 150 ∧ p = Z.min 150 (100 + 200) ∧ p = 100 + miner_tip 100 150 200 ∧ 100 ≤ p ≤ 150
  | Err e => 150 < 100 ∧ e = MaxFeeBelowBaseFee 150 100
  | Panic => False
  end.
Proof.
  split; [reflexivity|]. apply (effective_gas_price_spec 100 150 200); unfold is_u64; lia.
Defined.

(** ** The tip estimator *)

Lemma sorted_lookup_le (l : list Z) (i j : nat) (x y : Z) :
  StronglySorted Z.le l → (i ≤ j)%nat → l !! i = Some x → l !! j = Some y → x ≤ y.
Proof.
  revert i j. induction l as [|a l IH]; intros i j Hs Hij Hx Hy; [done|].
  inversion Hs as [|? ? Hs' Hall]; subst.
  destruct i as [|i], j as [|j]; simpl in *; simplify_eq; [lia | | lia | by apply (IH i j); auto with lia].
  rewrite Forall_forall in Hall. apply Hall. by eapply list_elem_of_lookup_2.
Qed.

Lemma percentile_elem (l : list Z) (p : nat) :
  l ≠ [] → (p ≤ 100)%nat → l !! ((length l - 1) * p / 100)%nat = Some (percentile l p).
Proof.
  intros Hl Hp. unfold percentile. destruct l as [|a l]; [done|].
  destruct ((a :: l) !! _) eqn:E; [done|]. apply lookup_ge_None in E. simpl length in E.
  assert ((S (length l) - 1) * p / 100 ≤ length l)%nat by (apply Nat.Div0.div_le_upper_bound; nia).
  lia.
Qed.

(** The tip tiers are ordered and, once any tip was recorded, each tier
    is one of the recorded tips. *)
Theorem estimate_ordered (e : PriorityFeeEstimator) :
  let t := estimate e in
  low t ≤ medium t ∧ medium t ≤ high t ∧ high t ≤ urgent t ∧
  (concat (samples e) ≠ [] →
   low t ∈ concat (samples e) ∧ medium t ∈ concat (samples e) ∧
   high t ∈ concat (samples e) ∧ urgent t ∈ concat (samples e)).
Proof.
  cbv zeta. unfold estimate. destruct (concat (samples e)) as [|a l] eqn:E; [simpl; split_and!; try lia; done|].
  rewrite <- E. set (all := concat (samples e)) in *. set (s := merge_sort Z.le all).
  assert (Hp : s ≡ₚ all) by apply merge_sort_Permutation.
  assert (Hs : StronglySorted Z.le s) by (apply StronglySorted_merge_sort; apply _).
  assert (s ≠ []) as Hne by (intros Hs0; rewrite Hs0 in Hp; apply Permutation_nil_l in Hp; congruence).
  assert (Hle : ∀ p q, (p ≤ q ≤ 100)%nat → percentile s p ≤ percentile s q).
  { intros p q Hpq. eapply (sorted_lookup_le s); [done| |apply percentile_elem|apply percentile_elem];
      try done; try lia. apply Nat.Div0.div_le_mono. nia. }
  assert (Hin : ∀ p, (p ≤ 100)%nat → percentile s p ∈ all).
  { intros p Hp'. rewrite <- Hp. eapply list_elem_of_lookup_2. by apply percentile_elem. }
  cbn [low medium high urgent]. split_and!; try (apply Hle; lia). intros _. split_and!; apply Hin; lia.
Qed.

(** The sample window is bounded: recording a block never exceeds the
    capacity, drops only the oldest block, and keeps the newest one last. *)
Theorem record_block_window (e : PriorityFeeEstimator) (tips : list Z) :
  (1 ≤ capacity e)%nat → (length (samples e) ≤ capacity e)%nat →
  (length (samples (record_block e tips)) ≤ capacity (record_block e tips))%nat ∧
  last (samples (record_block e tips)) = Some tips ∧
  (samples (record_block e tips) = samples e ++ [tips] ∨
   samples (record_block e tips) = drop 1 (samples e) ++ [tips]).
Proof.
  intros Hc Hl. unfold record_block. cbn [samples capacity].
  rewrite last_snoc, length_app. cbn [length].
  case_bool_decide; rewrite ?length_drop; split_and!; (done || lia || by auto).
Qed.

Lemma record_block_window_witness :
  samples (record_block (mkEstimator [[1]; [2]] 2) [3]) = [[2]; [3]] ∧
  (length (samples (record_block (mkEstimator [[1%Z]; [2%Z]] 2) [3%Z])) ≤ 2)%nat.
Proof.
  split; [reflexivity|].
  apply (record_block_window (mkEstimator [[1]; [2]] 2) [3]); simpl; lia.
Defined.

End Fee.
