(* ===== verification/Emission.v ===== *)
(** * The emission schedule

    Models the supply constants and [block_reward_at] of
    [crates/zbx-types/src/lib.rs]: the subsidy halves every
    [HALVING_INTERVAL] blocks. *)

From S2P Require Import Prelude.

Module Emission.

Definition TOTAL_SUPPLY : Z := 150000000 * 10 ^ 18.
Definition INITIAL_BLOCK_REWARD : Z := 2 * 10 ^ 18.
Definition HALVING_INTERVAL : Z := 63072000.

Definition block_reward_at (height : Z) : Z :=
  let halvings := height / HALVING_INTERVAL in
  if 64 <=? halvings then 0 else Z.shiftr INITIAL_BLOCK_REWARD halvings.

End Emission.
