(* ===== verification/U256.v ===== *)
(** * U256: 256-bit words as 32 big-endian bytes

    Models the arithmetic half of crates/zbx-evm/src/stack.rs. A word is the
    byte array the source uses, so every routine is the source's byte or limb
    loop; the theorems relate each one to arithmetic on the number the array
    denotes ([be_val]). Downward loops over the array with a carry are
    recursions from the last byte. *)

From Stdlib Require Import Zpow_facts.
From S2P Require Import Prelude.

Module U256.

Abbreviation word := (list Z).

(** The invariant of every word: 32 bytes. *)
Definition wf_word (w : word) : Prop := length w = 32%nat ∧ wf_bytes w.

Definition zero : word := replicate 32 0.
Definition W : Z := 2 ^ 256.

(** [a[i]] for a constant or checked index. *)
Definition byte_at (a : word) (i : nat) : Z := default 0 (a !! i).

(** [1 << k], [a << k], [a >> k] on u8. *)
Definition shl8 (x k : Z) : Z := wrap8 (Z.shiftl x k).
Definition shr8 (x k : Z) : Z := Z.shiftr x k.

(** ** Conversions *)

Definition u256_from_u64 (v : Z) : word := replicate 24 0 ++ to_be 8 v.
Definition u256_to_u64 (v : word) : Z := be_val (drop 24 v).

Definition to_le_limbs (a : word) : list Z :=
  [be_val (take 8 (drop 24 a)); be_val (take 8 (drop 16 a));
   be_val (take 8 (drop 8 a)); be_val (take 8 a)].

Definition from_le_limbs (limbs : list Z) : word :=
  match limbs with
  | [l0; l1; l2; l3] => to_be 8 l3 ++ to_be 8 l2 ++ to_be 8 l1 ++ to_be 8 l0
  | _ => zero
  end.

(** ** Comparisons *)

Definition u256_lt (a b : word) : bool := lex_lt a b.
Definition u256_gt (a b : word) : bool := lex_lt b a.
Definition u256_eq (a b : word) : bool := bool_decide (a = b).
Definition u256_is_zero (a : word) : bool := bool_decide (a = zero).
Definition is_negative (a : word) : bool := negb (Z.land (byte_at a 0) 0x80 =? 0).

Definition u256_slt (a b : word) : bool :=
  let na := is_negative a in
  let nb := is_negative b in
  if negb (Bool.eqb na nb) then na else lex_lt a b.

Definition u256_sgt (a b : word) : bool :=
  let na := is_negative a in
  let nb := is_negative b in
  if negb (Bool.eqb na nb) then nb else lex_lt b a.

(** ** Bitwise operations *)

Definition u256_and (a b : word) : word := zip_with Z.land a b.
Definition u256_or (a b : word) : word := zip_with Z.lor a b.
Definition u256_xor (a b : word) : word := zip_with Z.lxor a b.
Definition u256_not (a : word) : word := map (fun x => 255 - x) a.   (* !x on u8 *)

(** ** Addition, subtraction, multiplication *)

(** One pass of the byte loop: the result bytes and the final carry. *)
Fixpoint add_loop (a b : word) : word * Z :=
  match a, b with
  | x :: a', y :: b' =>
      let '(r, carry) := add_loop a' b' in
      let sum := x + y + carry in
      (wrap8 sum :: r, Z.shiftr sum 8)
  | _, _ => ([], 0)
  end.

Definition u256_add (a b : word) : word := fst (add_loop a b).

Fixpoint sub_loop (a b : word) : word * Z :=
  match a, b with
  | x :: a', y :: b' =>
      let '(r, borrow) := sub_loop a' b' in
      let diff := x - y - borrow in
      (wrap8 diff :: r, if diff <? 0 then 1 else 0)
  | _, _ => ([], 0)
  end.

Definition u256_sub (a b : word) : word := fst (sub_loop a b).

Definition negate (a : word) : word := u256_add (u256_not a) (u256_from_u64 1).

(** Row [i] of the schoolbook product: [acc] is [result[i..4]], and the row
    stops when [i + j] reaches 4. *)
Fixpoint mul_row (ai : Z) (lb acc : list Z) (carry : Z) : list Z :=
  match lb, acc with
  | b :: lb', r :: acc' =>
      let prod := ai * b + r + carry in
      wrap64 prod :: mul_row ai lb' acc' (Z.shiftr prod 64)
  | _, _ => acc
  end.

Fixpoint mul_rows (la lb acc : list Z) : list Z :=
  match la, acc with
  | a :: la', _ :: _ =>
      match mul_row a lb acc 0 with
      | r :: rest => r :: mul_rows la' lb rest
      | [] => []
      end
  | _, _ => acc
  end.

Definition u256_mul (a b : word) : word :=
  from_le_limbs (mul_rows (to_le_limbs a) (to_le_limbs b) (replicate 4 0)).

(** ** Division and modulo: bit-serial long division *)

Fixpoint shl_one_loop (a : word) : word * Z :=
  match a with
  | [] => ([], 0)
  | x :: a' =>
      let '(r, carry) := shl_one_loop a' in
      (Z.lor (shl8 x 1) carry :: r, shr8 x 7)
  end.

Definition u256_shl_one (a : word) : word := fst (shl_one_loop a).

(** [(a[bit_idx / 8] >> (7 - bit_idx % 8)) & 1] *)
Definition bit_of (a : word) (bit_idx : nat) : Z :=
  Z.land (shr8 (byte_at a (bit_idx / 8)) (7 - Z.of_nat (bit_idx mod 8))) 1.

(** [a[bit_idx / 8] |= 1 << (7 - bit_idx % 8)] *)
Definition set_bit (a : word) (bit_idx : nat) : word :=
  <[(bit_idx / 8)%nat := Z.lor (byte_at a (bit_idx / 8)) (shl8 1 (7 - Z.of_nat (bit_idx mod 8)))]> a.

(** [remainder[31] |= bit] *)
Definition or_low (a : word) (bit : Z) : word := <[31%nat := Z.lor (byte_at a 31) bit]> a.

(** Shift the remainder left, bring in a bit, subtract the divisor if it fits. *)
Definition rem_step (b remainder : word) (bit : Z) : word * bool :=
  let r := or_low (u256_shl_one remainder) bit in
  if negb (u256_lt r b) then (u256_sub r b, true) else (r, false).

Definition div_step (a b : word) (st : word * word) (bit_idx : nat) : word * word :=
  let '(quotient, remainder) := st in
  let '(r, fits) := rem_step b remainder (bit_of a bit_idx) in
  (if fits then set_bit quotient bit_idx else quotient, r).

Definition u256_div (a b : word) : word :=
  if u256_is_zero b then zero
  else fst (fold_left (div_step a b) (seq 0 256) (zero, zero)).

Definition mod_step (a b remainder : word) (bit_idx : nat) : word :=
  fst (rem_step b remainder (bit_of a bit_idx)).

Definition u256_mod (a b : word) : word :=
  if u256_is_zero b then zero else fold_left (mod_step a b) (seq 0 256) zero.

Definition min_int : word := 0x80 :: replicate 31 0.

Definition u256_sdiv (a b : word) : word :=
  if u256_is_zero b then zero else
  let neg_a := is_negative a in
  let neg_b := is_negative b in
  if bool_decide (a = min_int) && bool_decide (b = replicate 31 0 ++ [1]) then min_int else
  let abs_a := if neg_a then negate a else a in
  let abs_b := if neg_b then negate b else b in
  let q := u256_div abs_a abs_b in
  if negb (Bool.eqb neg_a neg_b) then negate q else q.

Definition u256_smod (a b : word) : word :=
  if u256_is_zero b then zero else
  let neg_a := is_negative a in
  let neg_b := is_negative b in
  let abs_a := if neg_a then negate a else a in
  let abs_b := if neg_b then negate b else b in
  let r := u256_mod abs_a abs_b in
  if neg_a && negb (u256_is_zero r) then negate r else r.

Definition u256_addmod (a b n : word) : word :=
  if u256_is_zero n then zero else
  let '(sum, carry) := add_loop a b in
  if carry =? 1 then
    let rem0 := fst (rem_step n zero 1) in
    fold_left (mod_step sum n) (seq 0 256) rem0
  else u256_mod sum n.

Definition mulmod_step (a b n acc : word) (bit_idx : nat) : word :=
  let acc := u256_addmod acc acc n in
  if bit_of b bit_idx =? 1 then u256_addmod acc a n else acc.

Definition u256_mulmod (a b n : word) : word :=
  if u256_is_zero n then zero else fold_left (mulmod_step a b n) (seq 0 256) zero.

(** ** Exponentiation: square and multiply *)

(** [e >>= 1], the byte loop from the most significant byte. *)
Fixpoint shr_one_loop (e : word) (carry : Z) : word :=
  match e with
  | [] => []
  | x :: e' => Z.lor (shr8 x 1) carry :: shr_one_loop e' (shl8 x 7)
  end.

(** The [while] loop; [fuel] bounds the iterations (256 halvings empty a word). *)
Fixpoint exp_loop (fuel : nat) (result b e : word) : option word :=
  if u256_is_zero e then Some result else
  match fuel with
  | O => None
  | S f =>
      let result' := if Z.land (byte_at e 31) 1 =? 1 then u256_mul result b else result in
      exp_loop f result' (u256_mul b b) (shr_one_loop e 0)
  end.

Definition u256_exp (base exp : word) : option word :=
  if u256_is_zero exp then Some (u256_from_u64 1)
  else exp_loop 256 (u256_from_u64 1) base exp.

Fixpoint byte_len_loop (a : word) : Z :=
  match a with
  | [] => 0
  | x :: a' => if negb (x =? 0) then Z.of_nat (length a) else byte_len_loop a'
  end.
Definition u256_byte_len (a : word) : Z := byte_len_loop a.

(** ** Byte and shift operations *)

Definition u256_signextend (b x : word) : word :=
  let b_val := u256_to_u64 b in
  if 31 <=? b_val then x else
  let byte_index := (31 - Z.to_nat b_val)%nat in
  let sign_bit := negb (Z.land (byte_at x byte_index) 0x80 =? 0) in
  let out := imap (fun i v => if bool_decide (i < byte_index)%nat
                              then (if sign_bit then 0xff else 0) else v) x in
  if sign_bit then <[byte_index := Z.lor (byte_at out byte_index) 0xff]> out
  else <[byte_index := Z.land (byte_at out byte_index) 0x7f]> out.

Definition u256_byte (i x : word) : word :=
  let idx := u256_to_u64 i in
  if 32 <=? idx then zero else u256_from_u64 (byte_at x (Z.to_nat idx)).

Definition u256_shl (shift val : word) : word :=
  let s := u256_to_u64 shift in
  if 256 <=? s then zero else if s =? 0 then val else
  let byte_shift := Z.to_nat (s / 8) in
  let bit_shift := s mod 8 in
  map (fun i =>
    let src := (i + byte_shift)%nat in
    if bool_decide (src < 32)%nat then
      let o := shl8 (byte_at val src) bit_shift in
      if (0 <? bit_shift) && bool_decide (src + 1 < 32)%nat
      then Z.lor o (shr8 (byte_at val (src + 1)) (8 - bit_shift)) else o
    else 0) (seq 0 32).

Definition u256_shr (shift val : word) : word :=
  let s := u256_to_u64 shift in
  if 256 <=? s then zero else if s =? 0 then val else
  let byte_shift := s / 8 in
  let bit_shift := s mod 8 in
  map (fun i =>
    let src := Z.of_nat i - byte_shift in
    if 0 <=? src then
      let o := shr8 (byte_at val (Z.to_nat src)) bit_shift in
      if (0 <? bit_shift) && (0 <? src)
      then Z.lor o (shl8 (byte_at val (Z.to_nat (src - 1))) (8 - bit_shift)) else o
    else 0) (seq 0 32).

Definition u256_sar (shift val : word) : word :=
  let sign := is_negative val in
  let s := u256_to_u64 shift in
  if 256 <=? s then (if sign then replicate 32 0xff else zero)
  else if s =? 0 then val else
  let out := u256_shr shift val in
  if sign then
    fold_left (fun out bit => <[(bit / 8)%nat := Z.lor (byte_at out (bit / 8))
                                 (shr8 0x80 (Z.of_nat (bit mod 8)))]> out)
              (seq 0 (Z.to_nat s)) out
  else out.

(** ** Words and their values *)

Lemma W_bytes : W = 256 ^ 32.
Proof. reflexivity. Qed.

Lemma wf_word_bound (w : word) : wf_word w → 0 ≤ be_val w < W.
Proof. intros [Hl Hw]. pose proof (be_val_bound w Hw) as H. rewrite Hl in H. done. Qed.

Lemma wf_word_inj (a b : word) : wf_word a → wf_word b → be_val a = be_val b → a = b.
Proof. intros [Ha ?] [Hb ?]. apply be_val_inj; [done..|]. by rewrite Ha, Hb. Qed.

Lemma wf_zero : wf_word zero.
Proof. split; [done|]. apply Forall_replicate. unfold is_u8. lia. Qed.

Lemma val_zero : be_val zero = 0.
Proof. apply be_val_replicate_0. Qed.

Lemma wf_to_word (z : Z) : wf_word (to_be 32 z).
Proof. split; [apply length_to_be | apply wf_to_be]. Qed.

Lemma u256_is_zero_spec (w : word) : wf_word w → u256_is_zero w = (be_val w =? 0).
Proof.
  intros Hw. unfold u256_is_zero. case_bool_decide as H.
  - by rewrite H, val_zero.
  - symmetry. apply Z.eqb_neq. intros H0. apply H.
    apply wf_word_inj; [done | apply wf_zero | by rewrite val_zero].
Qed.

Lemma u256_lt_spec (a b : word) : wf_word a → wf_word b → u256_lt a b = (be_val a <? be_val b).
Proof. intros [Ha ?] [Hb ?]. apply lex_lt_spec; [done..|]. by rewrite Ha, Hb. Qed.

Lemma byte_at_lookup (a : word) (i : nat) :
  wf_word a → (i < 32)%nat → a !! i = Some (byte_at a i) ∧ is_u8 (byte_at a i).
Proof.
  intros [Ha Hw] Hi. unfold byte_at. destruct (a !! i) as [x|] eqn:E.
  - split; [done|]. by apply (Forall_lookup_1 _ _ _ _ Hw E).
  - apply lookup_ge_None in E. lia.
Qed.

Lemma byte_at_u8 (a : word) (i : nat) : wf_word a → is_u8 (byte_at a i).
Proof.
  intros Hw. destruct (decide (i < 32)%nat); [by apply byte_at_lookup|].
  unfold byte_at. rewrite lookup_ge_None_2 by (destruct Hw; lia). unfold is_u8; simpl; lia.
Qed.

(** Bit [p] of the number is bit [p mod 8] of byte [31 - p / 8]. *)
Lemma testbit_word (a : word) (p : Z) :
  wf_word a → 0 ≤ p < 256 →
  Z.testbit (be_val a) p = Z.testbit (byte_at a (Z.to_nat (31 - p / 8))) (p mod 8).
Proof.
  intros [Ha Hw] Hp. rewrite testbit_be_val by (done || lia). rewrite Ha.
  change (8 * Z.of_nat 32) with 256. dec_bool. reflexivity.
Qed.

Lemma testbit_word_high (a : word) (p : Z) : wf_word a → 256 ≤ p → Z.testbit (be_val a) p = false.
Proof.
  intros [Ha Hw] Hp. rewrite testbit_be_val by (done || lia). rewrite Ha. by dec_bool.
Qed.

Lemma wf_insert (a : word) (i : nat) (v : Z) : wf_word a → is_u8 v → wf_word (<[i := v]> a).
Proof. intros [Ha Hw] Hv. split; [by rewrite length_insert|]. by apply Forall_insert. Qed.

#[local] Hint Resolve wf_zero wf_to_word wf_insert : zbx.

(** Two words with the same bits are equal. *)
Lemma testbit_ext_mod (x y : Z) :
  0 ≤ x < W → 0 ≤ y < W → (∀ p, 0 ≤ p < 256 → Z.testbit x p = Z.testbit y p) → x = y.
Proof.
  intros Hx Hy H. apply Z.bits_inj'. intros p Hp. destruct (decide (p < 256)); [by apply H|].
  unfold W in *. rewrite <- (Z.mod_small x (2 ^ 256)), <- (Z.mod_small y (2 ^ 256)) by lia.
  by rewrite !Z.mod_pow2_bits_high by lia.
Qed.

(** ** Ring operations *)

Lemma add_loop_spec (a b : word) :
  length a = length b → wf_bytes a → wf_bytes b →
  length (fst (add_loop a b)) = length a ∧ wf_bytes (fst (add_loop a b)) ∧
  (snd (add_loop a b) = 0 ∨ snd (add_loop a b) = 1) ∧
  be_val (fst (add_loop a b)) + snd (add_loop a b) * 256 ^ Z.of_nat (length a) = be_val a + be_val b.
Proof.
  revert b. induction a as [|x a IH]; intros [|y b] Hlen Ha Hb; try discriminate.
  - cbn. split_and!; auto; constructor.
  - apply Forall_cons in Ha as [Hx Ha]. apply Forall_cons in Hb as [Hy Hb].
    injection Hlen as Hlen. specialize (IH b Hlen Ha Hb). cbn [add_loop].
    destruct (add_loop a b) as [r c]. cbn [fst snd] in *. destruct IH as (Hr & Hw & Hc & Hv).
    unfold is_u8 in Hx, Hy. unfold wrap8. rewrite Z.shiftr_div_pow2 by lia.
    pose proof (div_mod_join (x + y + c) (2 ^ 8) ltac:(lia)) as Hj.
    pose proof (Z.mod_pos_bound (x + y + c) (2 ^ 8) ltac:(lia)) as Hm.
    set (q := (x + y + c) / 2 ^ 8) in *. set (m := (x + y + c) mod 2 ^ 8) in *.
    split_and!; [simpl; lia | by constructor | lia |].
    rewrite !be_val_cons, Hr, <- Hlen. cbn [length]. rewrite Nat2Z.inj_succ, Z.pow_succ_r by lia. nia.
Qed.

Lemma sub_loop_spec (a b : word) :
  length a = length b → wf_bytes a → wf_bytes b →
  length (fst (sub_loop a b)) = length a ∧ wf_bytes (fst (sub_loop a b)) ∧
  (snd (sub_loop a b) = 0 ∨ snd (sub_loop a b) = 1) ∧
  be_val (fst (sub_loop a b)) - snd (sub_loop a b) * 256 ^ Z.of_nat (length a) = be_val a - be_val b.
Proof.
  revert b. induction a as [|x a IH]; intros [|y b] Hlen Ha Hb; try discriminate.
  - cbn. split_and!; auto; constructor.
  - apply Forall_cons in Ha as [Hx Ha]. apply Forall_cons in Hb as [Hy Hb].
    injection Hlen as Hlen. specialize (IH b Hlen Ha Hb). cbn [sub_loop].
    destruct (sub_loop a b) as [r c]. cbn [fst snd] in *. destruct IH as (Hr & Hw & Hc & Hv).
    unfold is_u8 in Hx, Hy. unfold wrap8.
    pose proof (div_mod_join (x - y - c) (2 ^ 8) ltac:(lia)) as Hj.
    pose proof (Z.mod_pos_bound (x - y - c) (2 ^ 8) ltac:(lia)) as Hm.
    set (q := (x - y - c) / 2 ^ 8) in *. set (m := (x - y - c) mod 2 ^ 8) in *.
    assert (q = - (if x - y - c <? 0 then 1 else 0)) as Hq by (case_if; lia).
    set (bo := if x - y - c <? 0 then 1 else 0) in *.
    split_and!; [simpl; lia | by constructor | unfold bo; case_if; lia |].
    rewrite !be_val_cons, Hr, <- Hlen. cbn [length]. rewrite Nat2Z.inj_succ, Z.pow_succ_r by lia. nia.
Qed.

Lemma mod_unique_W (x r k : Z) : 0 ≤ r < W → x = r + k * W → r = x mod W.
Proof. intros. apply Z.mod_unique with k; [left; lia | lia]. Qed.

Lemma add_wf (a b : word) : wf_word a → wf_word b → wf_word (u256_add a b).
Proof.
  intros [Ha Hwa] [Hb Hwb]. destruct (add_loop_spec a b) as (H1 & H2 & _); [congruence|done|done|].
  split; [|done]. unfold u256_add. congruence.
Qed.

Lemma sub_wf (a b : word) : wf_word a → wf_word b → wf_word (u256_sub a b).
Proof.
  intros [Ha Hwa] [Hb Hwb]. destruct (sub_loop_spec a b) as (H1 & H2 & _); [congruence|done|done|].
  split; [|done]. unfold u256_sub. congruence.
Qed.

Lemma add_val (a b : word) :
  wf_word a → wf_word b → be_val (u256_add a b) = (be_val a + be_val b) mod W.
Proof.
  intros Ha Hb. pose proof (wf_word_bound _ (add_wf a b Ha Hb)) as Hbd.
  destruct Ha as [Ha Hwa], Hb as [Hb Hwb].
  destruct (add_loop_spec a b) as (_ & _ & _ & Hv); [congruence|done|done|].
  eapply mod_unique_W; [done|]. rewrite Ha in Hv. change (256 ^ Z.of_nat 32) with W in Hv.
  unfold u256_add. rewrite <- Hv. reflexivity.
Qed.

Lemma sub_val (a b : word) :
  wf_word a → wf_word b → be_val (u256_sub a b) = (be_val a - be_val b) mod W.
Proof.
  intros Ha Hb. pose proof (wf_word_bound _ (sub_wf a b Ha Hb)) as Hbd.
  destruct Ha as [Ha Hwa], Hb as [Hb Hwb].
  destruct (sub_loop_spec a b) as (_ & _ & _ & Hv); [congruence|done|done|].
  apply mod_unique_W with (- snd (sub_loop a b)); [done|].
  rewrite Ha in Hv. change (256 ^ Z.of_nat 32) with W in Hv. unfold u256_sub. lia.
Qed.

(** ** Limb multiplication *)

Definition B64 : Z := 2 ^ 64.

(** The number a little-endian list of 64-bit limbs denotes. *)
Fixpoint limbs_val (l : list Z) : Z :=
  match l with [] => 0 | x :: l' => x + B64 * limbs_val l' end.

Lemma mul_row_spec (ai : Z) (lb acc : list Z) (carry : Z) :
  is_u64 ai → is_u64 carry → Forall is_u64 lb → Forall is_u64 acc → (length acc ≤ length lb)%nat →
  length (mul_row ai lb acc carry) = length acc ∧ Forall is_u64 (mul_row ai lb acc carry) ∧
  ∃ k, limbs_val (mul_row ai lb acc carry) + k * B64 ^ Z.of_nat (length acc) =
       limbs_val acc + ai * limbs_val lb + carry.
Proof.
  revert lb carry. induction acc as [|r acc IH]; intros lb carry Hai Hc Hlb Hacc Hlen.
  - replace (mul_row ai lb [] carry) with (@nil Z) by by destruct lb.
    split_and!; [done | constructor |]. exists (ai * limbs_val lb + carry). simpl. lia.
  - destruct lb as [|b lb]; [simpl in Hlen; lia|]. cbn [mul_row].
    apply Forall_cons in Hlb as [Hb Hlb]. apply Forall_cons in Hacc as [Hr Hacc].
    unfold is_u64 in Hai, Hc, Hb, Hr. set (prod := ai * b + r + carry).
    assert (0 ≤ prod < 2 ^ 64 * 2 ^ 64) as Hp by (unfold prod; nia).
    assert (is_u64 (Z.shiftr prod 64)) as Hs.
    { rewrite Z.shiftr_div_pow2 by lia. unfold is_u64. split; [apply Z.div_pos; lia|].
      apply Z.div_lt_upper_bound; lia. }
    destruct (IH lb (Z.shiftr prod 64)) as (Hl & Hu & k & Hk); [done..|simpl in Hlen; lia|].
    split_and!; [simpl; lia | constructor; [apply Z.mod_pos_bound; lia | done] |].
    exists k. cbn [limbs_val length]. rewrite Nat2Z.inj_succ, Z.pow_succ_r by lia.
    rewrite Z.shiftr_div_pow2 in * by lia. unfold wrap64.
    pose proof (div_mod_join prod (2 ^ 64) ltac:(lia)) as Hj. unfold B64 in *.
    set (q := prod / 2 ^ 64) in *. set (m := prod mod 2 ^ 64) in *.
    set (M := limbs_val (mul_row ai lb acc q)) in *. subst prod. nia.
Qed.

Lemma mul_rows_spec (la lb acc : list Z) :
  Forall is_u64 la → Forall is_u64 lb → Forall is_u64 acc →
  (length acc ≤ length la)%nat → (length acc ≤ length lb)%nat →
  length (mul_rows la lb acc) = length acc ∧ Forall is_u64 (mul_rows la lb acc) ∧
  ∃ k, limbs_val (mul_rows la lb acc) + k * B64 ^ Z.of_nat (length acc) =
       limbs_val acc + limbs_val la * limbs_val lb.
Proof.
  revert acc. induction la as [|a la IH]; intros acc Ha Hb Hacc Hla Hlb.
  - destruct acc; [|simpl in Hla; lia]. cbn. split_and!; auto. exists 0. lia.
  - apply Forall_cons in Ha as [Hai Ha]. cbn [mul_rows]. destruct acc as [|r0 acc].
    { split_and!; auto. exists (limbs_val (a :: la) * limbs_val lb). simpl. lia. }
    destruct (mul_row_spec a lb (r0 :: acc) 0) as (Hl & Hu & k & Hk);
      [done | unfold is_u64; lia | done | done | done |].
    destruct (mul_row a lb (r0 :: acc) 0) as [|r rest]; [simpl in Hl; lia|].
    apply Forall_cons in Hu as [Hr Hu].
    destruct (IH rest) as (Hl' & Hu' & k' & Hk'); [done..|simpl in *; lia|simpl in *; lia|].
    assert (length rest = length acc) as E by (simpl in Hl; lia). rewrite E in *.
    split_and!; [simpl in *; lia | by constructor |].
    exists (k + k'). cbn [limbs_val length] in *. rewrite Nat2Z.inj_succ, Z.pow_succ_r in * by lia.
    set (P := B64 ^ Z.of_nat (length acc)) in *. nia.
Qed.

Lemma limb_u64 (l : bytes) : wf_bytes l → (length l ≤ 8)%nat → is_u64 (be_val l).
Proof.
  intros Hl Hn. pose proof (be_val_bound l Hl). unfold is_u64. split; [lia|].
  apply Z.lt_le_trans with (256 ^ Z.of_nat (length l)); [lia|].
  change (2 ^ 64) with (256 ^ 8). apply Z.pow_le_mono_r; lia.
Qed.

Lemma to_le_limbs_spec (a : word) :
  wf_word a → Forall is_u64 (to_le_limbs a) ∧ limbs_val (to_le_limbs a) = be_val a.
Proof.
  intros [Ha Hw]. split.
  - repeat constructor; apply limb_u64; eauto with zbx; rewrite length_take; lia.
  - assert (Hd : a = take 8 a ++ take 8 (drop 8 a) ++ take 8 (drop 16 a) ++ take 8 (drop 24 a)).
    { rewrite <- (take_drop 8 a) at 1. f_equal. rewrite <- (take_drop 8 (drop 8 a)) at 1. f_equal.
      rewrite drop_drop. rewrite <- (take_drop 8 (drop (8 + 8) a)) at 1. f_equal.
      rewrite drop_drop. symmetry. apply take_ge. rewrite length_drop. simpl. lia. }
    symmetry. rewrite Hd at 1. rewrite !be_val_app.
    rewrite !length_app, !length_take, !length_drop, Ha. unfold to_le_limbs.
    cbn -[Z.pow be_val take drop B64]. change B64 with (256 ^ 8).
    change (256 ^ 24) with (256 ^ 8 * 256 ^ 8 * 256 ^ 8). change (256 ^ 16) with (256 ^ 8 * 256 ^ 8). lia.
Qed.

Lemma from_le_limbs_spec (l : list Z) :
  length l = 4%nat → Forall is_u64 l → wf_word (from_le_limbs l) ∧ be_val (from_le_limbs l) = limbs_val l.
Proof.
  intros Hl Hu. destruct l as [|l0 [|l1 [|l2 [|l3 [|]]]]]; try discriminate.
  rewrite !Forall_cons in Hu. destruct Hu as (H0 & H1 & H2 & H3 & _). unfold is_u64 in *.
  cbn [from_le_limbs]. split.
  - split; [rewrite !length_app, !length_to_be; reflexivity|].
    do 3 (apply Forall_app_2; [apply wf_to_be|]). apply wf_to_be.
  - rewrite !be_val_app, !length_app, !length_to_be, !be_val_to_be.
    change (256 ^ Z.of_nat 8) with (2 ^ 64). rewrite !Z.mod_small by lia.
    cbn -[Z.pow B64]. change B64 with (256 ^ 8).
    change (256 ^ 24) with (256 ^ 8 * 256 ^ 8 * 256 ^ 8). change (256 ^ 16) with (256 ^ 8 * 256 ^ 8). lia.
Qed.

Lemma mul_spec (a b : word) :
  wf_word a → wf_word b →
  wf_word (u256_mul a b) ∧ be_val (u256_mul a b) = (be_val a * be_val b) mod W.
Proof.
  intros Ha Hb. destruct (to_le_limbs_spec a Ha) as [Hua Hva].
  destruct (to_le_limbs_spec b Hb) as [Hub Hvb].
  destruct (mul_rows_spec (to_le_limbs a) (to_le_limbs b) (replicate 4 0)) as (Hl & Hu & k & Hk);
    [done | done | apply Forall_replicate; unfold is_u64; lia | simpl; lia | simpl; lia |].
  destruct (from_le_limbs_spec _ Hl Hu) as [Hwf Hv]. unfold u256_mul. split; [done|].
  rewrite Hv. apply mod_unique_W with k.
  - rewrite <- Hv. by apply wf_word_bound.
  - rewrite Hva, Hvb in Hk. change (limbs_val (replicate 4 0)) with 0 in Hk.
    rewrite length_replicate in Hk. change (B64 ^ Z.of_nat 4) with W in Hk. lia.
Qed.

(** ** Long division *)

Lemma lor_even_bit (x b : Z) : b = 0 ∨ b = 1 → Z.lor (2 * x) b = 2 * x + b.
Proof.
  intros [-> | ->]; [by rewrite Z.lor_0_r, Z.add_0_r|].
  apply Z.bits_inj'. intros n Hn. rewrite Z.lor_spec.
  destruct (decide (n = 0)) as [->|].
  - rewrite Z.testbit_even_0, Z.testbit_odd_0. done.
  - rewrite (Z.bits_above_log2 1), orb_false_r by (simpl; lia).
    replace n with (Z.succ (n - 1)) by lia.
    by rewrite Z.testbit_even_succ, Z.testbit_odd_succ by lia.
Qed.

Lemma shl_one_loop_spec (a : word) :
  wf_bytes a →
  length (fst (shl_one_loop a)) = length a ∧ wf_bytes (fst (shl_one_loop a)) ∧
  (snd (shl_one_loop a) = 0 ∨ snd (shl_one_loop a) = 1) ∧
  be_val (fst (shl_one_loop a)) + snd (shl_one_loop a) * 256 ^ Z.of_nat (length a) = 2 * be_val a.
Proof.
  induction a as [|x a IH]; intros Ha; [cbn; split_and!; auto|].
  apply Forall_cons in Ha as [Hx Ha]. specialize (IH Ha). cbn [shl_one_loop].
  destruct (shl_one_loop a) as [r c]. cbn [fst snd] in *. destruct IH as (Hr & Hw & Hc & Hv).
  unfold is_u8 in Hx. unfold shl8, shr8, wrap8.
  rewrite Z.shiftl_mul_pow2, Z.shiftr_div_pow2 by lia.
  replace ((x * 2 ^ 1) mod 2 ^ 8) with (2 * (x mod 2 ^ 7))
    by (change (2 ^ 8) with (2 * 2 ^ 7); rewrite <- Zmult_mod_distr_l; f_equal; lia).
  rewrite lor_even_bit by done.
  pose proof (div_mod_join x (2 ^ 7) ltac:(lia)) as Hj.
  pose proof (Z.mod_pos_bound x (2 ^ 7) ltac:(lia)) as Hm.
  set (q := x / 2 ^ 7) in *. set (m := x mod 2 ^ 7) in *.
  split_and!; [simpl; lia | constructor; [unfold is_u8; lia | done] | lia |].
  rewrite !be_val_cons, Hr. cbn [length]. rewrite Nat2Z.inj_succ, Z.pow_succ_r by lia. nia.
Qed.

Lemma last_byte (a : word) : wf_word a → byte_at a 31 = be_val a mod 256.
Proof.
  intros [Ha Hw]. destruct (exists_last (l := a)) as (l & b & ->); [by destruct a|].
  rewrite length_app in Ha. simpl in Ha. apply Forall_app in Hw as [_ Hb].
  apply Forall_cons in Hb as [Hb _]. unfold is_u8 in Hb.
  unfold byte_at. rewrite lookup_app_r by lia. replace (31 - length l)%nat with O by lia.
  rewrite be_val_snoc, Z.add_comm, Z.mod_add, Z.mod_small by lia. done.
Qed.

Lemma shift_in_low (r : word) (bit : Z) :
  wf_word r → (bit = 0 ∨ bit = 1) → 2 * be_val r + bit < W →
  wf_word (or_low (u256_shl_one r) bit) ∧ be_val (or_low (u256_shl_one r) bit) = 2 * be_val r + bit.
Proof.
  intros Hr Hbit Hlt. pose proof (wf_word_bound r Hr) as Hb. destruct (Hr) as [Hl Hw].
  destruct (shl_one_loop_spec r Hw) as (Hl' & Hw' & Hc & Hv).
  rewrite Hl in Hv. change (256 ^ Z.of_nat 32) with W in Hv.
  assert (wf_word (u256_shl_one r)) as Hs by (split; unfold u256_shl_one; [congruence | done]).
  pose proof (wf_word_bound _ Hs) as Hsb. unfold u256_shl_one in Hsb.
  assert (be_val (u256_shl_one r) = 2 * be_val r) as Hv2.
  { unfold u256_shl_one. unfold W in *. destruct Hc as [Hc|Hc]; rewrite Hc in Hv; lia. }
  pose proof (last_byte _ Hs) as Hlast. rewrite Hv2 in Hlast.
  assert (byte_at (u256_shl_one r) 31 = 2 * (be_val r mod 128)) as Heven.
  { rewrite Hlast. change 256 with (2 * 128). apply Zmult_mod_distr_l. }
  pose proof (Z.mod_pos_bound (be_val r) 128 ltac:(lia)).
  unfold or_low. rewrite Heven, lor_even_bit by done.
  destruct (byte_at_lookup _ 31 Hs ltac:(lia)) as [Hlk _]. split.
  - apply wf_insert; [done|]. unfold is_u8. lia.
  - rewrite (be_val_insert _ _ _ _ Hlk), Heven, Hv2. destruct Hs as [-> _].
    change (Z.of_nat 32 - 1 - Z.of_nat 31) with 0. lia.
Qed.

Lemma rem_step_spec (b r : word) (bit : Z) :
  wf_word b → wf_word r → (bit = 0 ∨ bit = 1) → be_val r < be_val b → 2 * be_val r + bit < W →
  wf_word (fst (rem_step b r bit)) ∧
  be_val (fst (rem_step b r bit)) = (2 * be_val r + bit) mod be_val b ∧
  (if snd (rem_step b r bit) then 1 else 0) = (2 * be_val r + bit) / be_val b.
Proof.
  intros Hb Hr Hbit Hlt Hw. destruct (shift_in_low r bit Hr Hbit Hw) as [Hs Hv].
  pose proof (wf_word_bound r Hr). pose proof (wf_word_bound b Hb).
  unfold rem_step. rewrite u256_lt_spec, Hv by done.
  destruct (_ <? _) eqn:E; simp_bool; cbn [negb fst snd].
  - split_and!; [done| |]; [rewrite Z.mod_small by lia; lia | rewrite Z.div_small by lia; lia].
  - split_and!; [by apply sub_wf| |].
    + rewrite sub_val, Hv by done. rewrite Z.mod_small by (unfold W in *; lia).
      symmetry. symmetry. apply Z.mod_unique with 1; [left; lia | lia].
    + apply Z.div_unique with (2 * be_val r + bit - be_val b); [left; lia | lia].
Qed.

Lemma bit_of_spec (a : word) (i : nat) :
  wf_word a → (i < 256)%nat → bit_of a i = Z.b2z (Z.testbit (be_val a) (255 - Z.of_nat i)).
Proof.
  intros Ha Hi. rewrite testbit_word by (done || lia).
  assert (E1 : (255 - Z.of_nat i) / 8 = 31 - Z.of_nat (i / 8)).
  { rewrite Nat2Z.inj_div. pose proof (Z.div_mod (Z.of_nat i) 8 ltac:(lia)).
    pose proof (Z.mod_pos_bound (Z.of_nat i) 8 ltac:(lia)). symmetry.
    apply Z.div_unique with (7 - Z.of_nat i mod 8); lia. }
  assert (E2 : (255 - Z.of_nat i) mod 8 = 7 - Z.of_nat (i mod 8)).
  { rewrite Nat2Z.inj_mod. pose proof (Z.div_mod (Z.of_nat i) 8 ltac:(lia)).
    pose proof (Z.mod_pos_bound (Z.of_nat i) 8 ltac:(lia)). symmetry.
    apply Z.mod_unique with (31 - Z.of_nat i / 8); lia. }
  rewrite E1, E2. unfold bit_of, shr8.
  replace (Z.to_nat (31 - (31 - Z.of_nat (i / 8)))) with (i / 8)%nat by lia.
  pose proof (Nat.mod_upper_bound i 8 ltac:(lia)).
  change 1 with (Z.ones 1). rewrite Z.land_ones by lia. change (2 ^ 1) with 2.
  rewrite <- Z.bit0_mod, Z.shiftr_spec by lia. done.
Qed.

Lemma bit_of_01 (a : word) (i : nat) : wf_word a → (i < 256)%nat → bit_of a i = 0 ∨ bit_of a i = 1.
Proof. intros. rewrite bit_of_spec by done. destruct (Z.testbit _ _); auto. Qed.

(** The top [k] bits of the dividend, and the recurrence of the loop. *)
Definition top_bits (a k : Z) : Z := a / 2 ^ (256 - k).

Lemma top_bits_S (a : word) (k : nat) :
  wf_word a → (k < 256)%nat →
  top_bits (be_val a) (Z.of_nat (S k)) = 2 * top_bits (be_val a) (Z.of_nat k) + bit_of a k.
Proof.
  intros Ha Hk. rewrite bit_of_spec by done. unfold top_bits.
  replace (256 - Z.of_nat k) with (Z.succ (255 - Z.of_nat k)) by lia.
  replace (256 - Z.of_nat (S k)) with (255 - Z.of_nat k) by lia.
  rewrite Z.pow_succ_r, (Z.mul_comm 2 (2 ^ _)), <- Z.div_div by lia.
  set (x := be_val a / 2 ^ (255 - Z.of_nat k)).
  replace (Z.testbit (be_val a) (255 - Z.of_nat k)) with (Z.testbit x 0)
    by (unfold x; rewrite <- Z.shiftr_div_pow2, Z.shiftr_spec by lia; f_equal; lia).
  rewrite Z.bit0_mod. pose proof (Z.div_mod x 2 ltac:(lia)). lia.
Qed.

Lemma top_bits_0 (a : word) : wf_word a → top_bits (be_val a) 0 = 0.
Proof. intros Ha. apply Z.div_small. by apply wf_word_bound. Qed.

Lemma top_bits_256 (a : Z) : top_bits a 256 = a.
Proof. apply Z.div_1_r. Qed.

Lemma top_bits_lt (a : word) (k : Z) :
  wf_word a → 0 ≤ k ≤ 256 → 0 ≤ top_bits (be_val a) k < 2 ^ k.
Proof.
  intros Ha Hk. pose proof (wf_word_bound a Ha). unfold top_bits. split.
  - apply Z.div_pos; [lia|]. apply Z.pow_pos_nonneg; lia.
  - apply Z.div_lt_upper_bound; [apply Z.pow_pos_nonneg; lia|].
    rewrite <- Z.pow_add_r by lia. replace (256 - k + k) with 256 by lia. apply H.
Qed.

(** The remainder loop over the bits of [a], started from the remainder of a
    high part [h]: it computes [(h * 2^256 + a) mod b], provided the doubled
    remainder never leaves 256 bits. *)
Lemma mod_fold_spec (a b r0 : word) (h : Z) :
  wf_word a → wf_word b → wf_word r0 → 0 < be_val b → 0 ≤ h → be_val r0 = h mod be_val b →
  (h = 0 ∨ 2 * be_val b ≤ W) →
  wf_word (fold_left (mod_step a b) (seq 0 256) r0) ∧
  be_val (fold_left (mod_step a b) (seq 0 256) r0) = (h * W + be_val a) mod be_val b.
Proof.
  intros Ha Hb Hr0 Hpos Hh Hr Hfit.
  assert (H : wf_word (fold_left (mod_step a b) (seq 0 256) r0) ∧
    be_val (fold_left (mod_step a b) (seq 0 256) r0) =
      (h * 2 ^ Z.of_nat 256 + top_bits (be_val a) (Z.of_nat 256)) mod be_val b).
  2:{ change (Z.of_nat 256) with 256 in H. by rewrite top_bits_256 in H. }
  apply (fold_left_seq_ind (fun k r => wf_word r ∧
    be_val r = (h * 2 ^ Z.of_nat k + top_bits (be_val a) (Z.of_nat k)) mod be_val b)).
  - split; [done|]. change (Z.of_nat 0) with 0. rewrite top_bits_0, Hr by done. f_equal. lia.
  - intros k r Hk [Hwr Hvr]. unfold mod_step.
    pose proof (bit_of_01 a k Ha Hk) as Hbit.
    pose proof (top_bits_lt a (Z.of_nat k) Ha ltac:(lia)) as Htop.
    pose proof (Z.mod_pos_bound (h * 2 ^ Z.of_nat k + top_bits (be_val a) (Z.of_nat k)) _ Hpos) as Hmb.
    rewrite <- Hvr in Hmb.
    assert (2 * be_val r + bit_of a k < W).
    { destruct Hfit as [-> | Hfit]; [|lia]. rewrite Z.mul_0_l, Z.add_0_l in Hvr.
      assert (be_val r ≤ top_bits (be_val a) (Z.of_nat k)) by (rewrite Hvr; apply Z.mod_le; lia).
      assert (2 ^ Z.of_nat k ≤ 2 ^ 255) by (apply Z.pow_le_mono_r; lia). unfold W. lia. }
    destruct (rem_step_spec b r (bit_of a k)) as (Hw' & Hv' & _); [done..|lia|done|].
    split; [done|]. rewrite Hv', Hvr, top_bits_S by done.
    rewrite Nat2Z.inj_succ, Z.pow_succ_r by lia.
    rewrite <- Zplus_mod_idemp_l, Zmult_mod_idemp_r, Zplus_mod_idemp_l. f_equal. lia.
Qed.

Lemma set_bit_spec (q : word) (i : nat) :
  wf_word q → (i < 256)%nat → Z.testbit (be_val q) (255 - Z.of_nat i) = false →
  wf_word (set_bit q i) ∧ be_val (set_bit q i) = be_val q + 2 ^ (255 - Z.of_nat i).
Proof.
  intros Hq Hi Hbit. assert (i / 8 < 32)%nat as H8 by (apply Nat.Div0.div_lt_upper_bound; lia).
  destruct (byte_at_lookup q (i / 8) Hq H8) as [Hlk Hu8].
  pose proof (Nat.mod_upper_bound i 8 ltac:(lia)) as Hm. pose proof (Nat.div_mod_eq i 8) as Hdm.
  set (k := 7 - Z.of_nat (i mod 8)) in *.
  assert (Hb0 : Z.testbit (byte_at q (i / 8)) k = false).
  { pose proof (bit_of_spec q i Hq Hi) as E. rewrite Hbit in E. unfold bit_of, shr8 in E.
    change 1 with (Z.ones 1) in E. rewrite Z.land_ones in E by lia. change (2 ^ 1) with 2 in E.
    rewrite <- Z.bit0_mod, Z.shiftr_spec, Z.add_0_l in E by lia. fold k in E.
    by destruct (Z.testbit (byte_at q (i / 8)) k). }
  assert (Hor : Z.lor (byte_at q (i / 8)) (shl8 1 k) = byte_at q (i / 8) + 2 ^ k).
  { unfold shl8, wrap8. rewrite Z.shiftl_mul_pow2, Z.mul_1_l by lia.
    assert (2 ^ k < 2 ^ 8) by (apply Z.pow_lt_mono_r; lia).
    rewrite Z.mod_small by (split; [apply Z.pow_nonneg; lia | done]).
    rewrite Z.add_nocarry_lxor, Z.lxor_lor; [done| |];
      apply Z.bits_inj'; intros n Hn; rewrite Z.land_spec, Z.bits_0, Z.pow2_bits_eqb by lia;
      (destruct (k =? n) eqn:E; simp_bool; [subst; by rewrite Hb0 | by rewrite andb_false_r]). }
  unfold set_bit. fold k. rewrite Hor. split.
  - apply wf_insert; [done|]. rewrite <- Hor. unfold shl8. auto with zbx.
  - rewrite (be_val_insert _ _ _ _ Hlk). destruct Hq as [-> _].
    replace (Z.of_nat 32 - 1 - Z.of_nat (i / 8)) with (31 - Z.of_nat (i / 8)) by lia.
    change 256 with (2 ^ 8). rewrite <- Z.pow_mul_r by lia.
    replace (byte_at q (i / 8) + 2 ^ k - byte_at q (i / 8)) with (2 ^ k) by lia.
    rewrite <- Z.pow_add_r by lia. do 2 f_equal. lia.
Qed.

(** The loop invariant of [u256_div] after [k] bits. *)
Definition div_inv (a b : word) (k : nat) (st : word * word) : Prop :=
  let N := top_bits (be_val a) (Z.of_nat k) in
  wf_word (fst st) ∧ wf_word (snd st) ∧ be_val (snd st) = N mod be_val b ∧
  be_val (fst st) = N / be_val b * 2 ^ (256 - Z.of_nat k).

Lemma div_step_inv (a b : word) (k : nat) (st : word * word) :
  wf_word a → wf_word b → 0 < be_val b → (k < 256)%nat →
  div_inv a b k st → div_inv a b (S k) (div_step a b st k).
Proof.
  intros Ha Hb Hpos Hk. destruct st as [q r]. unfold div_inv. cbn [fst snd].
  intros (Hq & Hr & Hvr & Hvq). unfold div_step.
  pose proof (bit_of_01 a k Ha Hk) as Hbit.
  pose proof (top_bits_lt a (Z.of_nat k) Ha ltac:(lia)) as Htop.
  rewrite top_bits_S by done. set (N := top_bits (be_val a) (Z.of_nat k)) in *.
  pose proof (Z.mod_pos_bound N _ Hpos) as Hmb. rewrite <- Hvr in Hmb.
  assert (be_val r ≤ N) by (rewrite Hvr; apply Z.mod_le; lia).
  assert (2 ^ Z.of_nat k ≤ 2 ^ 255) by (apply Z.pow_le_mono_r; lia).
  destruct (rem_step_spec b r (bit_of a k)) as (Hw' & Hv' & Hfl); [done..|lia|unfold W; lia|].
  destruct (rem_step b r (bit_of a k)) as [r' fits]. cbn [fst snd] in *.
  pose proof (Z.div_mod N (be_val b) ltac:(lia)) as HN. rewrite <- Hvr in HN.
  assert (HN' : 2 * N + bit_of a k = 2 * be_val r + bit_of a k + 2 * (N / be_val b) * be_val b) by lia.
  rewrite HN', Z.div_add, Z.mod_add, <- Hfl, <- Hv' by lia.
  replace (256 - Z.of_nat (S k)) with (255 - Z.of_nat k) by lia.
  assert (E : 2 ^ (256 - Z.of_nat k) = 2 * 2 ^ (255 - Z.of_nat k))
    by (rewrite <- Z.pow_succ_r by lia; f_equal; lia).
  rewrite E in Hvq. destruct fits; [|split_and!; [done..|lia]].
  destruct (set_bit_spec q k Hq Hk) as [Hs1 Hs2].
  { rewrite Hvq, Z.mul_assoc, Z.mul_pow2_bits, Z.sub_diag, Z.mul_comm by lia. apply Z.testbit_even_0. }
  split_and!; [done..|]. rewrite Hs2, Hvq. lia.
Qed.

Lemma div_mod_spec (a b : word) :
  wf_word a → wf_word b → 0 < be_val b →
  wf_word (u256_div a b) ∧ be_val (u256_div a b) = be_val a / be_val b ∧
  wf_word (u256_mod a b) ∧ be_val (u256_mod a b) = be_val a mod be_val b.
Proof.
  intros Ha Hb Hpos. unfold u256_div, u256_mod. rewrite u256_is_zero_spec by done. dec_bool.
  destruct (mod_fold_spec a b zero 0) as [Hm1 Hm2];
    [done | done | apply wf_zero | done | lia | by rewrite val_zero, Z.mod_0_l by lia | by left |].
  rewrite Z.mul_0_l, Z.add_0_l in Hm2.
  assert (H : div_inv a b 256 (fold_left (div_step a b) (seq 0 256) (zero, zero))).
  { apply (fold_left_seq_ind (div_inv a b)); [|intros; by apply div_step_inv].
    unfold div_inv. cbn [fst snd]. change (Z.of_nat 0) with 0.
    rewrite top_bits_0, Z.div_0_l, Z.mod_0_l, val_zero by (done || lia).
    split_and!; try apply wf_zero; lia. }
  destruct H as (H1 & _ & _ & H2). change (Z.of_nat 256) with 256 in H2.
  rewrite top_bits_256 in H2. change (2 ^ (256 - 256)) with 1 in H2. rewrite Z.mul_1_r in H2. done.
Qed.

Lemma addmod_spec (a b n : word) :
  wf_word a → wf_word b → wf_word n → 0 < be_val n →
  (2 * be_val n ≤ W ∨ be_val a + be_val b < W) →
  wf_word (u256_addmod a b n) ∧ be_val (u256_addmod a b n) = (be_val a + be_val b) mod be_val n.
Proof.
  intros Ha Hb Hn Hpos Hfit. unfold u256_addmod. rewrite u256_is_zero_spec by done. dec_bool.
  destruct Ha as [Hla Hwa], Hb as [Hlb Hwb].
  destruct (add_loop_spec a b) as (Hl & Hw & Hc & Hv); [congruence|done|done|].
  destruct (add_loop a b) as [sum carry]. cbn [fst snd] in *. rewrite Hla in *.
  change (256 ^ Z.of_nat 32) with W in Hv.
  assert (wf_word sum) as Hs by done. pose proof (wf_word_bound sum Hs).
  destruct Hc as [-> | ->]; cbn [Z.eqb Pos.eqb].
  - destruct (div_mod_spec sum n Hs Hn Hpos) as (_ & _ & H1 & H2). split; [done|].
    rewrite H2. f_equal. lia.
  - destruct Hfit as [Hfit | Hfit]; [|lia].
    destruct (rem_step_spec n zero 1) as (Hr1 & Hr2 & _);
      [done | apply wf_zero | by right | by rewrite val_zero | by rewrite val_zero |].
    rewrite val_zero in Hr2. destruct (mod_fold_spec sum n _ 1 Hs Hn Hr1 Hpos) as [H1 H2];
      [lia | rewrite Hr2; f_equal; lia | by right |].
    split; [done|]. rewrite H2. f_equal. lia.
Qed.

Lemma mulmod_spec (a b n : word) :
  wf_word a → wf_word b → wf_word n → 0 < be_val n → 2 * be_val n ≤ W →
  wf_word (u256_mulmod a b n) ∧ be_val (u256_mulmod a b n) = (be_val a * be_val b) mod be_val n.
Proof.
  intros Ha Hb Hn Hpos Hfit. unfold u256_mulmod. rewrite u256_is_zero_spec by done. dec_bool.
  assert (H : wf_word (fold_left (mulmod_step a b n) (seq 0 256) zero) ∧
    be_val (fold_left (mulmod_step a b n) (seq 0 256) zero) =
      (be_val a * top_bits (be_val b) (Z.of_nat 256)) mod be_val n).
  2:{ change (Z.of_nat 256) with 256 in H. by rewrite top_bits_256 in H. }
  apply (fold_left_seq_ind (fun k acc => wf_word acc ∧
    be_val acc = (be_val a * top_bits (be_val b) (Z.of_nat k)) mod be_val n)).
  - split; [apply wf_zero|]. change (Z.of_nat 0) with 0.
    by rewrite top_bits_0, Z.mul_0_r, Z.mod_0_l, val_zero by (done || lia).
  - intros k acc Hk [Hw Hv]. unfold mulmod_step.
    destruct (addmod_spec acc acc n) as [Hw1 Hv1]; [done..|by left|].
    assert (Hv1' : be_val (u256_addmod acc acc n) =
                   (be_val a * (2 * top_bits (be_val b) (Z.of_nat k))) mod be_val n).
    { rewrite Hv1, Hv, <- Zplus_mod. f_equal. lia. }
    rewrite top_bits_S by done.
    destruct (bit_of_01 b k Hb Hk) as [E|E]; rewrite E; cbn [Z.eqb Pos.eqb].
    + split; [done|]. rewrite Hv1'. f_equal. lia.
    + destruct (addmod_spec (u256_addmod acc acc n) a n) as [Hw2 Hv2]; [done..|by left|].
      split; [done|]. rewrite Hv2, Hv1', Zplus_mod_idemp_l. f_equal. lia.
Qed.

(** ** Exponentiation *)

Lemma shr_one_loop_spec (e : word) (c : Z) :
  wf_bytes e → (c = 0 ∨ c = 1) →
  length (shr_one_loop e (c * 128)) = length e ∧ wf_bytes (shr_one_loop e (c * 128)) ∧
  be_val (shr_one_loop e (c * 128)) = (c * 256 ^ Z.of_nat (length e) + be_val e) / 2.
Proof.
  revert c. induction e as [|x e IH]; intros c He Hc.
  - cbn [shr_one_loop length]. rewrite be_val_nil. split_and!; [done | constructor |].
    destruct Hc as [-> | ->]; reflexivity.
  - apply Forall_cons in He as [Hx He]. cbn [shr_one_loop]. unfold shl8, shr8, wrap8, is_u8 in *.
    rewrite Z.shiftl_mul_pow2, Z.shiftr_div_pow2 by lia. change (2 ^ 1) with 2.
    replace ((x * 2 ^ 7) mod 2 ^ 8) with (x mod 2 * 128)
      by (change (2 ^ 8) with (2 * 2 ^ 7); rewrite Zmult_mod_distr_r; lia).
    pose proof (Z.mod_pos_bound x 2 ltac:(lia)). pose proof (div_mod_join x 2 ltac:(lia)) as Hj.
    destruct (IH (x mod 2) He ltac:(lia)) as (Hl & Hw & Hv).
    assert (0 ≤ x / 2 < 128) by lia.
    assert (Hor : Z.lor (x / 2) (c * 128) = x / 2 + c * 128).
    { destruct Hc as [-> | ->]; [by rewrite Z.lor_0_r, Z.add_0_r|].
      rewrite Z.add_nocarry_lxor, Z.lxor_lor; [done| |];
        apply Z.bits_inj'; intros n Hn; rewrite Z.land_spec, Z.bits_0;
        change (1 * 128) with (2 ^ 7); rewrite Z.pow2_bits_eqb by lia;
        (destruct (7 =? n) eqn:E; simp_bool; [|by rewrite andb_false_r]); subst;
        rewrite <- (Z.mod_small (x / 2) (2 ^ 7)), Z.mod_pow2_bits_high by lia; done. }
    rewrite Hor. split_and!; [simpl; lia | constructor; [unfold is_u8; lia | done] |].
    rewrite !be_val_cons, Hl, Hv. cbn [length]. rewrite Nat2Z.inj_succ, Z.pow_succ_r by lia.
    set (P := 256 ^ Z.of_nat (length e)).
    replace (c * (256 * P) + (x * P + be_val e))
      with ((x mod 2 * P + be_val e) + (x / 2 + c * 128) * P * 2) by nia.
    rewrite Z.div_add by lia. lia.
Qed.

Lemma exp_loop_spec (fuel : nat) (result b e : word) :
  wf_word result → wf_word b → wf_word e → be_val e < 2 ^ Z.of_nat fuel →
  ∃ out, exp_loop fuel result b e = Some out ∧ wf_word out ∧
         be_val out = (be_val result * be_val b ^ be_val e) mod W.
Proof.
  revert result b e. induction fuel as [|f IH]; intros r b e Hr Hb He Hlt;
    pose proof (wf_word_bound e He) as Hbe; pose proof (wf_word_bound r Hr) as Hbr.
  - exists r. cbn [exp_loop]. rewrite u256_is_zero_spec by done. simpl in Hlt. dec_bool.
    split_and!; [done..|]. replace (be_val e) with 0 by lia. rewrite Z.pow_0_r, Z.mul_1_r.
    symmetry. by apply Z.mod_small.
  - cbn [exp_loop]. rewrite u256_is_zero_spec by done. case_if.
    + exists r. split_and!; [done..|]. rewrite Heqb0, Z.pow_0_r, Z.mul_1_r. symmetry. by apply Z.mod_small.
    + destruct (mul_spec r b Hr Hb) as [Hm1 Hm2]. destruct (mul_spec b b Hb Hb) as [Hs1 Hs2].
      destruct (shr_one_loop_spec e 0) as (Hl & Hw & Hv); [apply He | by left |].
      rewrite Z.mul_0_l, Z.add_0_l in Hv. change (0 * 128) with 0 in *.
      assert (wf_word (shr_one_loop e 0)) as He' by (split; [destruct He; congruence | done]).
      rewrite Nat2Z.inj_succ, Z.pow_succ_r in Hlt by lia.
      assert (Hbit : Z.land (byte_at e 31) 1 = be_val e mod 2).
      { rewrite last_byte by done. change 1 with (Z.ones 1). rewrite Z.land_ones by lia.
        apply Z.mod_mod_divide. by exists 128. }
      rewrite Hbit. set (r' := if be_val e mod 2 =? 1 then u256_mul r b else r).
      assert (Hr' : wf_word r' ∧ be_val r' mod W = (be_val r * be_val b ^ (be_val e mod 2)) mod W).
      { unfold r'. pose proof (Z.mod_pos_bound (be_val e) 2 ltac:(lia)).
        destruct (be_val e mod 2 =? 1) eqn:E; simp_bool.
        - split; [done|]. rewrite E, Hm2, Z.mod_mod, Z.pow_1_r by (unfold W; lia). done.
        - split; [done|]. replace (be_val e mod 2) with 0 by lia. by rewrite Z.pow_0_r, Z.mul_1_r. }
      destruct Hr' as [Hr1 Hr2].
      destruct (IH r' (u256_mul b b) (shr_one_loop e 0) Hr1 Hs1 He') as (out & Ho & Hwo & Hvo).
      { rewrite Hv. apply Z.div_lt_upper_bound; lia. }
      exists out. split_and!; [done..|]. rewrite Hvo, Hv, Hs2.
      rewrite <- Zmult_mod_idemp_l, Hr2, Zmult_mod_idemp_l.
      rewrite <- Zmult_mod_idemp_r, <- Zpower_mod, Zmult_mod_idemp_r by (unfold W; lia).
      assert (0 ≤ be_val e / 2) by (apply Z.div_pos; lia).
      pose proof (Z.mod_pos_bound (be_val e) 2 ltac:(lia)).
      rewrite <- Z.pow_2_r, <- Z.pow_mul_r, <- Z.mul_assoc, <- Z.pow_add_r by lia.
      do 3 f_equal. pose proof (Z.div_mod (be_val e) 2 ltac:(lia)). lia.
Qed.

Lemma to_u64_val (v : word) : wf_word v → u256_to_u64 v = be_val v mod 2 ^ 64.
Proof.
  intros [Hl Hw]. unfold u256_to_u64. rewrite <- (take_drop 24 v) at 2.
  rewrite be_val_app, length_drop, Hl. change (256 ^ Z.of_nat (32 - 24)) with (2 ^ 64).
  rewrite Z.add_comm, Z.mod_add by lia. symmetry. apply Z.mod_small.
  apply limb_u64; [by apply Forall_drop | rewrite length_drop; lia].
Qed.

Lemma to_u64_range (v : word) : wf_word v → is_u64 (u256_to_u64 v).
Proof. intros. rewrite to_u64_val by done. apply Z.mod_pos_bound. lia. Qed.

Lemma from_u64_spec (v : Z) :
  wf_word (u256_from_u64 v) ∧ be_val (u256_from_u64 v) = v mod 2 ^ 64.
Proof.
  unfold u256_from_u64. split.
  - split; [rewrite length_app, length_to_be; done|].
    apply Forall_app_2; [apply Forall_replicate; unfold is_u8; lia | apply wf_to_be].
  - rewrite be_val_app, be_val_replicate_0, be_val_to_be. simpl. done.
Qed.

(** ** Signed words *)

(** The two's complement reading of a word. *)
Definition sval (w : word) : Z := if be_val w <? 2 ^ 255 then be_val w else be_val w - W.

Lemma is_negative_spec (w : word) : wf_word w → is_negative w = (2 ^ 255 <=? be_val w).
Proof.
  intros Hw. pose proof (wf_word_bound w Hw) as Hb. unfold is_negative.
  assert (E : Z.testbit (be_val w) 255 = (2 ^ 255 <=? be_val w)).
  { apply eq_true_iff_eq.
    rewrite Z.testbit_true by lia. rewrite Z.leb_le. unfold W in Hb.
    assert (0 ≤ be_val w / 2 ^ 255 < 2) by (split; [apply Z.div_pos | apply Z.div_lt_upper_bound]; lia).
    rewrite Z.mod_small by lia. split; intros H1.
    - pose proof (Z.mul_div_le (be_val w) (2 ^ 255)). lia.
    - enough (1 ≤ be_val w / 2 ^ 255) by lia. apply Z.div_le_lower_bound; lia. }
  rewrite testbit_word in E by (done || lia). change (Z.to_nat (31 - 255 / 8)) with O in E.
  change (255 mod 8) with 7 in E. rewrite <- E.
  destruct (Z.testbit (byte_at w 0) 7) eqn:T.
  - apply negb_true_iff, Z.eqb_neq. intros H0.
    assert (Z.testbit (Z.land (byte_at w 0) 0x80) 7 = true) by (by rewrite Z.land_spec, T).
    rewrite H0 in H. done.
  - apply negb_false_iff, Z.eqb_eq. apply Z.bits_inj'. intros n Hn.
    rewrite Z.land_spec, Z.bits_0. change 0x80 with (2 ^ 7). rewrite Z.pow2_bits_eqb by lia.
    destruct (7 =? n) eqn:E7; simp_bool; [subst; by rewrite T | by rewrite andb_false_r].
Qed.

Lemma not_spec (a : word) :
  wf_word a → wf_word (u256_not a) ∧ be_val (u256_not a) = W - 1 - be_val a.
Proof.
  intros [Hl Hw]. assert (H : wf_bytes (u256_not a) ∧ be_val (u256_not a) = 256 ^ Z.of_nat (length a) - 1 - be_val a).
  { clear Hl. unfold u256_not. induction a as [|x a IH]; [by split; [constructor|]|].
    apply Forall_cons in Hw as [Hx Hw]. destruct (IH Hw) as [IH1 IH2]. unfold is_u8 in Hx. cbn [map].
    split; [constructor; [unfold is_u8; lia | done]|].
    rewrite !be_val_cons, length_map, IH2. cbn [length]. rewrite Nat2Z.inj_succ, Z.pow_succ_r by lia. lia. }
  destruct H as [H1 H2]. rewrite Hl in H2. change (256 ^ Z.of_nat 32) with W in H2.
  split; [split; [unfold u256_not; by rewrite length_map | done] | done].
Qed.

Lemma negate_spec (a : word) :
  wf_word a → wf_word (negate a) ∧ be_val (negate a) = (- be_val a) mod W.
Proof.
  intros Ha. destruct (not_spec a Ha) as [Hn Hv]. destruct (from_u64_spec 1) as [H1 H2].
  unfold negate. split; [by apply add_wf|]. rewrite add_val, Hv, H2 by done.
  change (1 mod 2 ^ 64) with 1. replace (W - 1 - be_val a + 1) with (- be_val a + 1 * W) by lia.
  by rewrite Z.mod_add by (unfold W; lia).
Qed.

(** [|a|] as the source computes it, and its value. *)
Lemma abs_spec (a : word) :
  wf_word a →
  let abs := if is_negative a then negate a else a in
  wf_word abs ∧ be_val abs = Z.abs (sval a).
Proof.
  intros Ha. pose proof (wf_word_bound a Ha) as Hb. cbv zeta. unfold sval.
  rewrite is_negative_spec by done. destruct (negate_spec a Ha) as [H1 H2].
  destruct (2 ^ 255 <=? be_val a) eqn:E; simp_bool.
  - rewrite (proj2 (Z.ltb_ge _ _)) by lia. split; [done|]. rewrite H2.
    unfold W in *. replace (- be_val a) with ((2 ^ 256 - be_val a) + (-1) * 2 ^ 256) by lia.
    rewrite Z.mod_add, Z.mod_small by lia. lia.
  - rewrite (proj2 (Z.ltb_lt _ _)) by lia. split; [done|]. lia.
Qed.

Lemma sval_mod (a : word) : wf_word a → sval a mod W = be_val a.
Proof.
  intros Ha. pose proof (wf_word_bound a Ha). unfold sval. case_if; [by apply Z.mod_small|].
  replace (be_val a - W) with (be_val a + (-1) * W) by lia.
  rewrite Z.mod_add by (unfold W; lia). by apply Z.mod_small.
Qed.

Lemma sval_neg (a : word) : wf_word a → is_negative a = (sval a <? 0).
Proof.
  intros Ha. pose proof (wf_word_bound a Ha). rewrite is_negative_spec by done. unfold sval, W in *.
  destruct (be_val a <? 2 ^ 255) eqn:E; simp_bool; dec_bool; done.
Qed.

Lemma sval_zero_iff (a : word) : wf_word a → sval a = 0 ↔ be_val a = 0.
Proof. intros Ha. pose proof (wf_word_bound a Ha). unfold sval, W in *. case_if; lia. Qed.

Lemma sdiv_spec (a b : word) :
  wf_word a → wf_word b → sval b ≠ 0 →
  wf_word (u256_sdiv a b) ∧ be_val (u256_sdiv a b) = Z.quot (sval a) (sval b) mod W.
Proof.
  intros Ha Hb Hnz. pose proof (sval_zero_iff b Hb). pose proof (wf_word_bound b Hb).
  unfold u256_sdiv. rewrite u256_is_zero_spec by done. dec_bool.
  destruct (bool_decide (a = min_int) && _) eqn:E.
  - apply andb_true_iff in E as [->%bool_decide_eq_true ->%bool_decide_eq_true].
    split; [done|]. reflexivity.
  - destruct (abs_spec a Ha) as [Ha1 Ha2]. destruct (abs_spec b Hb) as [Hb1 Hb2].
    destruct (div_mod_spec _ _ Ha1 Hb1) as (Hq1 & Hq2 & _); [lia|].
    rewrite Ha2, Hb2 in Hq2. set (q := u256_div _ _) in *.
    destruct (negate_spec q Hq1) as [Hn1 Hn2].
    rewrite !sval_neg by done. rewrite Z.quot_div by done.
    pose proof (wf_word_bound q Hq1).
    assert (sval a = 0 → be_val q = 0) as H0q by (intros Ez; rewrite Hq2, Ez; apply Z.div_0_l; lia).
    destruct (sval a <? 0) eqn:Ea, (sval b <? 0) eqn:Eb; simp_bool; cbn [Bool.eqb negb].
    all: split; [done|]; rewrite <- Hq2, ?Hn2.
    all: destruct (decide (sval a = 0)) as [Ez|];
      [rewrite (H0q Ez); rewrite ?Z.mul_0_r; reflexivity|].
    + rewrite !Z.sgn_neg by lia. rewrite (Z.mod_small (-1 * -1 * _)) by lia. lia.
    + rewrite Z.sgn_neg, Z.sgn_pos by lia. f_equal; lia.
    + rewrite Z.sgn_pos, Z.sgn_neg by lia. f_equal; lia.
    + rewrite !Z.sgn_pos by lia. rewrite (Z.mod_small (1 * 1 * _)) by lia. lia.
Qed.

Lemma smod_spec (a b : word) :
  wf_word a → wf_word b → sval b ≠ 0 →
  wf_word (u256_smod a b) ∧ be_val (u256_smod a b) = Z.rem (sval a) (sval b) mod W.
Proof.
  intros Ha Hb Hnz. pose proof (sval_zero_iff b Hb). pose proof (wf_word_bound b Hb).
  unfold u256_smod. rewrite u256_is_zero_spec by done. dec_bool.
  destruct (abs_spec a Ha) as [Ha1 Ha2]. destruct (abs_spec b Hb) as [Hb1 Hb2].
  destruct (div_mod_spec _ _ Ha1 Hb1) as (_ & _ & Hq1 & Hq2); [lia|].
  rewrite Ha2, Hb2 in Hq2. set (q := u256_mod _ _) in *.
  destruct (negate_spec q Hq1) as [Hn1 Hn2].
  rewrite sval_neg, u256_is_zero_spec, Z.rem_mod, <- Hq2 by done.
  pose proof (wf_word_bound q Hq1).
  assert (sval a = 0 → be_val q = 0) as H0q by (intros E; rewrite Hq2, E; apply Z.mod_0_l; lia).
  destruct (sval a <? 0) eqn:Ea; simp_bool; cbn [andb].
  - rewrite Z.sgn_neg by lia. destruct (be_val q =? 0) eqn:Eq; simp_bool; cbn [negb].
    + split; [done|]. by rewrite Eq.
    + split; [done|]. rewrite Hn2. f_equal; lia.
  - split; [done|]. destruct (decide (sval a = 0)) as [Ez|]; [by rewrite (H0q Ez), Z.mul_0_r|].
    rewrite Z.sgn_pos, Z.mul_1_l by lia. symmetry. by apply Z.mod_small.
Qed.

(** ** Bitwise operations *)

Lemma zip_word_spec (f : Z → Z → Z) (fb : bool → bool → bool) (a b : word) :
  (∀ x y, is_u8 x → is_u8 y → is_u8 (f x y)) →
  (∀ x y n, 0 ≤ n → Z.testbit (f x y) n = fb (Z.testbit x n) (Z.testbit y n)) →
  wf_word a → wf_word b →
  wf_word (zip_with f a b) ∧
  ∀ p, 0 ≤ p < 256 → Z.testbit (be_val (zip_with f a b)) p = fb (Z.testbit (be_val a) p) (Z.testbit (be_val b) p).
Proof.
  intros Hu Hf Ha Hb.
  assert (Hl : ∀ i, (i < 32)%nat → zip_with f a b !! i = Some (f (byte_at a i) (byte_at b i))).
  { intros i Hi. rewrite lookup_zip_with.
    destruct (byte_at_lookup a i Ha Hi) as [-> _]. destruct (byte_at_lookup b i Hb Hi) as [-> _]. done. }
  assert (Hw : wf_word (zip_with f a b)).
  { destruct (Ha) as [La Wa], (Hb) as [Lb Wb]. split; [rewrite length_zip_with; lia|].
    apply Forall_lookup. intros i x Hx. destruct (decide (i < 32)%nat) as [Hi|Hi].
    - rewrite Hl in Hx by done. injection Hx as <-. apply Hu; by apply byte_at_u8.
    - rewrite lookup_ge_None_2 in Hx by (rewrite length_zip_with; lia). done. }
  split; [done|]. intros p Hp.
  assert (0 ≤ p / 8) by (apply Z.div_pos; lia).
  rewrite !testbit_word by done. unfold byte_at at 1. rewrite Hl by lia. cbn [default id].
  apply Hf. apply Z.mod_pos_bound. lia.
Qed.

Lemma bitwise_val (f : Z → Z → Z) (fb : bool → bool → bool) (a b : word) :
  (∀ x y, is_u8 x → is_u8 y → is_u8 (f x y)) →
  (∀ x y, 0 ≤ x < W → 0 ≤ y < W → 0 ≤ f x y < W) →
  (∀ x y n, 0 ≤ n → Z.testbit (f x y) n = fb (Z.testbit x n) (Z.testbit y n)) →
  wf_word a → wf_word b →
  wf_word (zip_with f a b) ∧ be_val (zip_with f a b) = f (be_val a) (be_val b).
Proof.
  intros Hu HW Hf Ha Hb. destruct (zip_word_spec f fb a b Hu Hf Ha Hb) as [Hw Hbits].
  split; [done|]. apply testbit_ext_mod; [by apply wf_word_bound | apply HW; by apply wf_word_bound |].
  intros p Hp. rewrite Hbits, Hf by lia. done.
Qed.

Lemma bits_bound_W (x : Z) : 0 ≤ x → (∀ n, 256 ≤ n → Z.testbit x n = false) → 0 ≤ x < W.
Proof.
  intros Hx Hb. replace x with (x mod W); [apply Z.mod_pos_bound; unfold W; lia|].
  apply Z.bits_inj'. intros n Hn. unfold W. destruct (decide (n < 256)).
  - by rewrite Z.mod_pow2_bits_low by lia.
  - by rewrite Z.mod_pow2_bits_high, Hb by lia.
Qed.

Lemma testbit_W_high (x n : Z) : 0 ≤ x < W → 256 ≤ n → Z.testbit x n = false.
Proof.
  intros Hx Hn. rewrite <- (Z.mod_small x (2 ^ 256)) by (unfold W in Hx; lia).
  apply Z.mod_pow2_bits_high. lia.
Qed.

Ltac bound_W := apply bits_bound_W;
  [ first [apply Z.land_nonneg | apply Z.lor_nonneg | apply Z.lxor_nonneg]; lia
  | intros; rewrite ?Z.land_spec, ?Z.lor_spec, ?Z.lxor_spec, !testbit_W_high; done ].

Lemma and_or_xor_spec (a b : word) :
  wf_word a → wf_word b →
  (wf_word (u256_and a b) ∧ be_val (u256_and a b) = Z.land (be_val a) (be_val b)) ∧
  (wf_word (u256_or a b) ∧ be_val (u256_or a b) = Z.lor (be_val a) (be_val b)) ∧
  (wf_word (u256_xor a b) ∧ be_val (u256_xor a b) = Z.lxor (be_val a) (be_val b)).
Proof.
  intros Ha Hb. split_and!.
  all: first [ apply (bitwise_val Z.land andb) | apply (bitwise_val Z.lor orb)
             | apply (bitwise_val Z.lxor xorb) ]; eauto using land_u8, lor_u8, lxor_u8.
  all: intros; first [ bound_W | apply Z.land_spec | apply Z.lor_spec | apply Z.lxor_spec ].
Qed.

(** ** Shifts *)

Lemma testbit_shl8 (x k j : Z) :
  0 ≤ k → 0 ≤ j → Z.testbit (shl8 x k) j = (j <? 8) && Z.testbit x (j - k).
Proof.
  intros Hk Hj. unfold shl8, wrap8. destruct (j <? 8) eqn:E; simp_bool.
  - by rewrite Z.mod_pow2_bits_low, Z.shiftl_spec by lia.
  - by rewrite Z.mod_pow2_bits_high by lia.
Qed.

Lemma testbit_shr8 (x k j : Z) : 0 ≤ j → Z.testbit (shr8 x k) j = Z.testbit x (j + k).
Proof. intros. apply Z.shiftr_spec. lia. Qed.

(** A word built byte by byte by a loop [for i in 0..32]. *)
Lemma map_word_spec (g : nat → Z) :
  (∀ i, (i < 32)%nat → is_u8 (g i)) →
  wf_word (map g (seq 0 32)) ∧ ∀ i, (i < 32)%nat → byte_at (map g (seq 0 32)) i = g i.
Proof.
  intros Hg. assert (Hl : ∀ i, (i < 32)%nat → map g (seq 0 32) !! i = Some (g i)).
  { intros i Hi. change (map g (seq 0 32)) with (g <$> seq 0 32).
    rewrite list_lookup_fmap, lookup_seq_lt by done. done. }
  split; [split|].
  - by rewrite length_map, length_seq.
  - apply Forall_lookup. intros i x Hx. destruct (decide (i < 32)%nat) as [Hi|Hi].
    + rewrite Hl in Hx by done. injection Hx as <-. by apply Hg.
    + rewrite lookup_ge_None_2 in Hx by (rewrite length_map, length_seq; lia). done.
  - intros i Hi. unfold byte_at. by rewrite Hl.
Qed.

(** Position arithmetic of the byte loops: bit [p] is bit [p mod 8] of byte
    [31 - p / 8]. *)
Lemma testbit_word_pos (a : word) (i : nat) (j : Z) :
  wf_word a → (i < 32)%nat → 0 ≤ j < 8 →
  Z.testbit (be_val a) (8 * (31 - Z.of_nat i) + j) = Z.testbit (byte_at a i) j.
Proof.
  intros Ha Hi Hj. rewrite testbit_word by (done || lia).
  rewrite (Z.mul_comm 8), Z.div_add_l, Z.div_small by lia.
  rewrite (Z.add_comm (_ * 8)), Z.mod_add, Z.mod_small by lia.
  do 2 f_equal. lia.
Qed.

Lemma shl_spec (shift v : word) :
  wf_word v → u256_to_u64 shift < 256 → 0 ≤ u256_to_u64 shift →
  wf_word (u256_shl shift v) ∧
  be_val (u256_shl shift v) = (be_val v * 2 ^ u256_to_u64 shift) mod W.
Proof.
  intros Hv Hs Hs0. unfold u256_shl. set (s := u256_to_u64 shift) in *. dec_bool. case_if.
  { split; [done|]. rewrite Heqb, Z.mul_1_r. symmetry. apply Z.mod_small. by apply wf_word_bound. }
  pose proof (Z.div_mod s 8 ltac:(lia)) as Hdm. pose proof (Z.mod_pos_bound s 8 ltac:(lia)) as Hk.
  assert (0 ≤ s / 8) by (apply Z.div_pos; lia).
  set (k := s mod 8) in *. set (bs := Z.to_nat (s / 8)) in *.
  match goal with |- context [map ?G _] => set (g := G) end.
  destruct (map_word_spec g) as [Hw Hg].
  { intros i Hi. unfold g. repeat case_bool_decide; repeat case_if; unfold shl8, shr8; auto with zbx;
      try (apply lor_u8; [apply wrap8_u8|apply shiftr_u8; [by apply byte_at_u8|lia]]);
      unfold is_u8; lia. }
  split; [done|]. apply testbit_ext_mod;
    [by apply wf_word_bound | apply Z.mod_pos_bound; unfold W; lia |].
  intros p Hp. unfold W. rewrite Z.mod_pow2_bits_low, Z.mul_pow2_bits by lia.
  pose proof (Z.div_mod p 8 ltac:(lia)) as Hpd. pose proof (Z.mod_pos_bound p 8 ltac:(lia)) as Hj.
  assert (0 ≤ p / 8 < 32) as Hd by (split; [apply Z.div_pos | apply Z.div_lt_upper_bound]; lia).
  rewrite testbit_word by done. set (j := p mod 8) in *. set (i := Z.to_nat (31 - p / 8)) in *.
  rewrite Hg by lia. unfold g.
  assert (Hps : p - s = 8 * (31 - Z.of_nat (i + bs)) + (j - k)) by lia.
  case_bool_decide as Hsrc.
  2:{ rewrite Z.testbit_0_l. symmetry. apply Z.testbit_neg_r. lia. }
  destruct (decide (k ≤ j)) as [Hkj|Hkj].
  - rewrite Hps, testbit_word_pos by (done || lia).
    assert (Hfst : Z.testbit (shl8 (byte_at v (i + bs)) k) j = Z.testbit (byte_at v (i + bs)) (j - k))
      by (rewrite testbit_shl8 by lia; by dec_bool).
    case_if; [|done]. rewrite Z.lor_spec, Hfst, testbit_shr8 by lia.
    rewrite (testbit_byte_high _ (j + (8 - k))), orb_false_r; [done | by apply byte_at_u8 | lia].
  - dec_bool. cbn [andb]. case_bool_decide as Hsrc1.
    + rewrite Z.lor_spec, testbit_shl8, testbit_shr8, (Z.testbit_neg_r _ (j - k)) by lia.
      rewrite andb_false_r, orb_false_l.
      replace (p - s) with (8 * (31 - Z.of_nat (i + bs + 1)) + (j + (8 - k))) by lia.
      rewrite testbit_word_pos by (done || lia). done.
    + rewrite testbit_shl8, !(Z.testbit_neg_r _ (_ - _)), andb_false_r by lia. done.
Qed.

Lemma shr_spec (shift v : word) :
  wf_word v → u256_to_u64 shift < 256 → 0 ≤ u256_to_u64 shift →
  wf_word (u256_shr shift v) ∧
  be_val (u256_shr shift v) = be_val v / 2 ^ u256_to_u64 shift.
Proof.
  intros Hv Hs Hs0. unfold u256_shr. set (s := u256_to_u64 shift) in *. dec_bool. case_if.
  { split; [done|]. by rewrite Heqb, Z.div_1_r. }
  pose proof (Z.div_mod s 8 ltac:(lia)) as Hdm. pose proof (Z.mod_pos_bound s 8 ltac:(lia)) as Hk.
  assert (0 ≤ s / 8) by (apply Z.div_pos; lia).
  set (k := s mod 8) in *. set (bs := s / 8) in *.
  match goal with |- context [map ?G _] => set (g := G) end.
  destruct (map_word_spec g) as [Hw Hg].
  { intros i Hi. unfold g. repeat case_if; unfold shl8, shr8;
      try (apply lor_u8; [apply shiftr_u8; [by apply byte_at_u8|lia] | apply wrap8_u8]);
      try (apply shiftr_u8; [by apply byte_at_u8|lia]); unfold is_u8; lia. }
  split; [done|]. pose proof (wf_word_bound v Hv).
  rewrite <- Z.shiftr_div_pow2 by lia. apply testbit_ext_mod; [by apply wf_word_bound | |].
  { rewrite Z.shiftr_div_pow2 by lia. assert (0 < 2 ^ s) by (apply Z.pow_pos_nonneg; lia).
    split; [apply Z.div_pos; lia | apply Z.div_lt_upper_bound; [lia|nia]]. }
  intros p Hp. rewrite Z.shiftr_spec by lia.
  pose proof (Z.div_mod p 8 ltac:(lia)) as Hpd. pose proof (Z.mod_pos_bound p 8 ltac:(lia)) as Hj.
  assert (0 ≤ p / 8 < 32) as Hd by (split; [apply Z.div_pos | apply Z.div_lt_upper_bound]; lia).
  rewrite testbit_word by done. set (j := p mod 8) in *. set (i := Z.to_nat (31 - p / 8)) in *.
  rewrite Hg by lia. unfold g. set (src := Z.of_nat i - bs).
  assert (Hps : p + s = 8 * (31 - src) + (j + k)) by lia.
  destruct (0 <=? src) eqn:Hsrc; simp_bool.
  2:{ rewrite Z.testbit_0_l. symmetry. apply testbit_W_high; lia. }
  destruct (decide (j + k < 8)) as [Hjk|Hjk].
  - replace (p + s) with (8 * (31 - Z.of_nat (Z.to_nat src)) + (j + k)) by lia.
    rewrite testbit_word_pos by (done || lia).
    case_if; [|by rewrite testbit_shr8 by lia].
    rewrite Z.lor_spec, testbit_shr8, testbit_shl8, (Z.testbit_neg_r _ (j - _)) by lia.
    by rewrite andb_false_r, orb_false_r.
  - rewrite (proj2 (Z.ltb_lt 0 k)) by lia. cbn [andb]. destruct (0 <? src) eqn:Hs1; simp_bool.
    + rewrite Z.lor_spec, testbit_shr8, testbit_shl8 by lia.
      rewrite (testbit_byte_high _ (j + k)), orb_false_l by (lia || by apply byte_at_u8). dec_bool.
      replace (p + s) with (8 * (31 - Z.of_nat (Z.to_nat (src - 1))) + (j - (8 - k))) by lia.
      rewrite testbit_word_pos by (done || lia). done.
    + rewrite testbit_shr8, testbit_byte_high, testbit_W_high; (done || lia || by apply byte_at_u8).
Qed.

End U256.
