(* ===== verification/U256Props.v ===== *)
(** * Correctness of the 256-bit word operations

    The theorems on the routines of U256: each EVM word operation computes the
    arithmetic the Yellow Paper gives it, or the exact inputs on which it does
    not. *)

From S2P Require Import Prelude U256.
Import U256.

Module U256Props.

(** ** Arithmetic right shift *)

Lemma or_bit_testbit (w : word) (i : nat) (p : Z) :
  wf_word w → (i < 256)%nat → 0 ≤ p < 256 →
  let w' := <[(i / 8)%nat := Z.lor (byte_at w (i / 8)) (shr8 0x80 (Z.of_nat (i mod 8)))]> w in
  wf_word w' ∧ Z.testbit (be_val w') p = Z.testbit (be_val w) p || (p =? 255 - Z.of_nat i).
Proof.
  intros Hw Hi Hp w'. assert (i / 8 < 32)%nat as H8 by (apply Nat.Div0.div_lt_upper_bound; lia).
  pose proof (Nat.mod_upper_bound i 8 ltac:(lia)) as Hm. pose proof (Nat.div_mod_eq i 8) as Hdm.
  assert (wf_word w') as Hw'.
  { apply wf_insert; [done|]. apply lor_u8; [by apply byte_at_u8|].
    apply shiftr_u8; [unfold is_u8|]; lia. }
  split; [done|].
  pose proof (Z.div_mod p 8 ltac:(lia)) as Hpd. pose proof (Z.mod_pos_bound p 8 ltac:(lia)) as Hj.
  assert (0 ≤ p / 8 < 32) as Hd by (split; [apply Z.div_pos | apply Z.div_lt_upper_bound]; lia).
  rewrite !testbit_word by done. set (j := p mod 8) in *. set (d := Z.to_nat (31 - p / 8)) in *.
  unfold w', byte_at at 1. destruct (decide (d = (i / 8)%nat)) as [E|E].
  - rewrite E, list_lookup_insert_eq by (destruct Hw; lia). cbn [default id].
    rewrite Z.lor_spec, testbit_shr8 by lia. change 0x80 with (2 ^ 7).
    rewrite Z.pow2_bits_eqb by lia. f_equal. apply eq_true_iff_eq. rewrite !Z.eqb_eq. lia.
  - rewrite list_lookup_insert_ne by done. rewrite (proj2 (Z.eqb_neq p _)) by lia. by rewrite orb_false_r.
Qed.

Lemma sign_fill_spec (w : word) (s : nat) :
  wf_word w → (s ≤ 256)%nat →
  let w' := fold_left (fun out bit => <[(bit / 8)%nat := Z.lor (byte_at out (bit / 8))
                        (shr8 0x80 (Z.of_nat (bit mod 8)))]> out) (seq 0 s) w in
  wf_word w' ∧ ∀ p, 0 ≤ p < 256 →
    Z.testbit (be_val w') p = Z.testbit (be_val w) p || (256 - Z.of_nat s <=? p).
Proof.
  intros Hw Hs. cbv zeta.
  apply (fold_left_seq_ind (fun k w' => wf_word w' ∧ ∀ p, 0 ≤ p < 256 →
    Z.testbit (be_val w') p = Z.testbit (be_val w) p || (256 - Z.of_nat k <=? p))).
  - split; [done|]. intros p Hp. dec_bool. by rewrite orb_false_r.
  - intros i st Hi [Hst Hbits].
    destruct (or_bit_testbit st i 0 Hst ltac:(lia) ltac:(lia)) as [Hw' _]. split; [done|].
    intros p Hp. destruct (or_bit_testbit st i p Hst ltac:(lia) Hp) as [_ ->].
    rewrite Hbits, <- orb_assoc by done. f_equal. apply eq_true_iff_eq.
    rewrite orb_true_iff, !Z.leb_le, Z.eqb_eq. lia.
Qed.

Lemma testbit_sval (v : word) (n : Z) :
  wf_word v → 0 ≤ n →
  Z.testbit (sval v) n = if n <? 256 then Z.testbit (be_val v) n else is_negative v.
Proof.
  intros Hv Hn. pose proof (wf_word_bound v Hv) as Hb. rewrite is_negative_spec by done.
  pose proof (sval_mod v Hv) as Hm. destruct (n <? 256) eqn:E; simp_bool.
  - rewrite <- Hm. unfold W. by rewrite Z.mod_pow2_bits_low by lia.
  - unfold sval. destruct (be_val v <? 2 ^ 255) eqn:Es; simp_bool; dec_bool.
    + by apply testbit_W_high.
    + apply Z.bits_above_log2_neg; [unfold W in *; lia|].
      destruct (decide (Z.pred (- (be_val v - W)) = 0)) as [->|]; [simpl; lia|].
      apply Z.lt_le_trans with 256; [|lia]. apply Z.log2_lt_pow2; unfold W in *; lia.
Qed.

Lemma sar_spec (shift v : word) :
  wf_word v → 0 ≤ u256_to_u64 shift →
  wf_word (u256_sar shift v) ∧
  be_val (u256_sar shift v) = (sval v / 2 ^ Z.min (u256_to_u64 shift) 256) mod W.
Proof.
  intros Hv Hs0. pose proof (wf_word_bound v Hv) as Hb. unfold u256_sar.
  set (s := u256_to_u64 shift) in *. destruct (256 <=? s) eqn:E; simp_bool.
  { rewrite Z.min_r by lia. rewrite is_negative_spec by done. unfold sval.
    destruct (2 ^ 255 <=? be_val v) eqn:Es; simp_bool; dec_bool.
    - split; [split; [done | apply Forall_replicate; unfold is_u8; lia]|].
      replace ((be_val v - W) / 2 ^ 256) with (-1); [reflexivity|].
      apply Z.div_unique with (be_val v); unfold W in *; lia.
    - split; [apply wf_zero|]. rewrite Z.div_small by (unfold W in *; lia). by rewrite val_zero. }
  rewrite Z.min_l by lia. case_if.
  { split; [done|]. rewrite Heqb, Z.div_1_r. by rewrite sval_mod. }
  destruct (shr_spec shift v Hv E Hs0) as [Hr Hrv]. fold s in Hrv.
  assert (Hgoal : ∀ w, wf_word w → (∀ p, 0 ≤ p < 256 → Z.testbit (be_val w) p = Z.testbit (sval v) (p + s)) →
    wf_word w ∧ be_val w = (sval v / 2 ^ s) mod W).
  { intros w Hw Hbits. split; [done|]. apply testbit_ext_mod;
      [by apply wf_word_bound | apply Z.mod_pos_bound; unfold W; lia |].
    intros p Hp. unfold W. rewrite Z.mod_pow2_bits_low, <- Z.shiftr_div_pow2, Z.shiftr_spec by lia. by apply Hbits. }
  destruct (is_negative v) eqn:Hneg; apply Hgoal.
  - by apply (sign_fill_spec _ _ Hr); lia.
  - intros p Hp. destruct (sign_fill_spec _ (Z.to_nat s) Hr ltac:(lia)) as [_ Hf]. rewrite Hf by done.
    rewrite Hrv, <- Z.shiftr_div_pow2, Z.shiftr_spec, testbit_sval, Hneg by (done || lia).
    destruct (p + s <? 256) eqn:Eps; simp_bool; dec_bool; [by rewrite orb_false_r | apply orb_true_r].
  - done.
  - intros p Hp. rewrite Hrv, <- Z.shiftr_div_pow2, Z.shiftr_spec, testbit_sval, Hneg by (done || lia).
    destruct (p + s <? 256) eqn:Eps; simp_bool; [done|]. by apply testbit_W_high.
Qed.

(** ** Theorems *)

(** ADD, SUB and MUL are the ring operations modulo 2^256, and their
    results are well-formed words. *)
Theorem ring_ops_correct (a b : word) :
  wf_word a → wf_word b →
  (wf_word (u256_add a b) ∧ be_val (u256_add a b) = (be_val a + be_val b) mod 2 ^ 256) ∧
  (wf_word (u256_sub a b) ∧ be_val (u256_sub a b) = (be_val a - be_val b) mod 2 ^ 256) ∧
  (wf_word (u256_mul a b) ∧ be_val (u256_mul a b) = (be_val a * be_val b) mod 2 ^ 256).
Proof.
  intros Ha Hb. split_and!; [by apply add_wf | by apply add_val | by apply sub_wf | by apply sub_val | |];
    by apply mul_spec.
Qed.

Lemma ring_ops_correct_witness :
  let a := to_be 32 (2 ^ 256 - 5) in let b := to_be 32 (2 ^ 200 + 17) in
  (wf_word (u256_add a b) ∧ be_val (u256_add a b) = (be_val a + be_val b) mod 2 ^ 256) ∧
  (wf_word (u256_sub a b) ∧ be_val (u256_sub a b) = (be_val a - be_val b) mod 2 ^ 256) ∧
  (wf_word (u256_mul a b) ∧ be_val (u256_mul a b) = (be_val a * be_val b) mod 2 ^ 256).
Proof. apply ring_ops_correct; apply wf_to_word. Defined.

(** DIV and MOD: the 256-step long division computes the quotient and
    the remainder of the unsigned values for every pair of words, and zero
    when the divisor is zero. *)
Theorem div_mod_correct (a b : word) :
  wf_word a → wf_word b →
  be_val (u256_div a b) = (if be_val b =? 0 then 0 else be_val a / be_val b) ∧
  be_val (u256_mod a b) = (if be_val b =? 0 then 0 else be_val a mod be_val b).
Proof.
  intros Ha Hb. pose proof (wf_word_bound b Hb). destruct (be_val b =? 0) eqn:E; simp_bool.
  - unfold u256_div, u256_mod. rewrite u256_is_zero_spec, E, Z.eqb_refl, val_zero by done. done.
  - destruct (div_mod_spec a b Ha Hb) as (_ & H1 & _ & H2); [lia|]. done.
Qed.

Lemma div_mod_correct_witness :
  let a := to_be 32 (2 ^ 256 - 1) in let b := to_be 32 (2 ^ 255 + 3) in
  be_val (u256_div a b) = (if be_val b =? 0 then 0 else be_val a / be_val b) ∧
  be_val (u256_mod a b) = (if be_val b =? 0 then 0 else be_val a mod be_val b).
Proof. apply div_mod_correct; apply wf_to_word. Defined.

(** SDIV and SMOD: truncated signed division and remainder of the two's
    complement values, modulo 2^256 (so -2^255 / -1 is -2^255), and zero when
    the divisor is zero. *)
Theorem sdiv_smod_correct (a b : word) :
  wf_word a → wf_word b →
  be_val (u256_sdiv a b) = (if sval b =? 0 then 0 else Z.quot (sval a) (sval b) mod 2 ^ 256) ∧
  be_val (u256_smod a b) = (if sval b =? 0 then 0 else Z.rem (sval a) (sval b) mod 2 ^ 256).
Proof.
  intros Ha Hb. destruct (sval b =? 0) eqn:E; simp_bool.
  - apply sval_zero_iff in E; [|done]. unfold u256_sdiv, u256_smod.
    rewrite u256_is_zero_spec, E, Z.eqb_refl, val_zero by done. done.
  - by split; [apply sdiv_spec | apply smod_spec].
Qed.

Lemma sdiv_smod_correct_witness :
  let a := min_int in let b := to_be 32 (2 ^ 256 - 1) in
  be_val (u256_sdiv a b) = (if sval b =? 0 then 0 else Z.quot (sval a) (sval b) mod 2 ^ 256) ∧
  be_val (u256_smod a b) = (if sval b =? 0 then 0 else Z.rem (sval a) (sval b) mod 2 ^ 256).
Proof.
  apply sdiv_smod_correct; [|apply wf_to_word].
  split; [reflexivity | repeat constructor; unfold is_u8; lia].
Defined.

(** EXP: square-and-multiply terminates within 256 iterations and
    computes base^exponent modulo 2^256, with x^0 = 1. *)
Theorem exp_correct (base exp : word) :
  wf_word base → wf_word exp →
  ∃ out, u256_exp base exp = Some out ∧ wf_word out ∧
         be_val out = (be_val base ^ be_val exp) mod 2 ^ 256.
Proof.
  intros Hb He. destruct (from_u64_spec 1) as [H1 H2]. change (1 mod 2 ^ 64) with 1 in H2.
  unfold u256_exp. rewrite u256_is_zero_spec by done. case_if.
  - eexists. split_and!; [done..|]. by rewrite Heqb, H2.
  - destruct (exp_loop_spec 256 (u256_from_u64 1) base exp) as (out & Ho & Hw & Hv); [done..| |].
    + by apply wf_word_bound.
    + exists out. split_and!; [done..|]. by rewrite Hv, H2, Z.mul_1_l.
Qed.

Lemma exp_correct_witness :
  ∃ out, u256_exp (to_be 32 3) (to_be 32 300) = Some out ∧ wf_word out ∧
         be_val out = (be_val (to_be 32 3) ^ be_val (to_be 32 300)) mod 2 ^ 256.
Proof. apply exp_correct; apply wf_to_word. Defined.

(** ADDMOD and MULMOD give the residue of the exact sum and product for
    every modulus up to 2^255 (ADDMOD also for a larger modulus when the sum
    does not carry), and zero for modulus zero. *)
Theorem addmod_mulmod_correct (a b n : word) :
  wf_word a → wf_word b → wf_word n →
  ((be_val n ≤ 2 ^ 255 ∨ be_val a + be_val b < 2 ^ 256) →
   be_val (u256_addmod a b n) = (if be_val n =? 0 then 0 else (be_val a + be_val b) mod be_val n)) ∧
  (be_val n ≤ 2 ^ 255 →
   be_val (u256_mulmod a b n) = (if be_val n =? 0 then 0 else (be_val a * be_val b) mod be_val n)).
Proof.
  intros Ha Hb Hn. pose proof (wf_word_bound n Hn). destruct (be_val n =? 0) eqn:E; simp_bool.
  - unfold u256_addmod, u256_mulmod. rewrite u256_is_zero_spec, E, Z.eqb_refl, val_zero by done. done.
  - split; intros Hfit.
    + apply addmod_spec; [done..|lia|]. unfold W. destruct Hfit; [left; lia | by right].
    + apply mulmod_spec; [done..|lia|unfold W; lia].
Qed.

Lemma addmod_mulmod_correct_witness :
  let a := to_be 32 (2 ^ 256 - 1) in let b := to_be 32 (2 ^ 256 - 9) in let n := to_be 32 (2 ^ 255 - 19) in
  ((be_val n ≤ 2 ^ 255 ∨ be_val a + be_val b < 2 ^ 256) →
   be_val (u256_addmod a b n) = (if be_val n =? 0 then 0 else (be_val a + be_val b) mod be_val n)) ∧
  (be_val n ≤ 2 ^ 255 →
   be_val (u256_mulmod a b n) = (if be_val n =? 0 then 0 else (be_val a * be_val b) mod be_val n)).
Proof. apply addmod_mulmod_correct; apply wf_to_word. Defined.

(** ADDMOD and MULMOD are wrong above 2^255: the carry path of the
    long division shifts a remainder of 2^255 or more and loses its top bit.
    For n = 2^256 - 1 and a = b = n - 1 the sum's residue is n - 2, the code
    answers n - 3; the same modulus breaks MULMOD. *)
Theorem addmod_loses_top_bit :
  let n := to_be 32 (2 ^ 256 - 1) in let a := to_be 32 (2 ^ 256 - 2) in
  (be_val a + be_val a) mod be_val n = 2 ^ 256 - 3 ∧
  be_val (u256_addmod a a n) = 2 ^ 256 - 4 ∧
  be_val (u256_mulmod a (to_be 32 2) n) ≠ (be_val a * 2) mod be_val n.
Proof. cbv zeta. split_and!; vm_compute; [reflexivity | reflexivity | discriminate]. Qed.

(** SHL, SHR and SAR, for every shift word below 2^64: logical shifts
    drop the bits that leave the word (zero from 256 on), SAR is the floor
    division of the signed value by 2^shift. *)
Theorem shifts_correct (shift v : word) :
  wf_word shift → wf_word v → be_val shift < 2 ^ 64 →
  be_val (u256_shl shift v) = (if be_val shift <? 256 then be_val v * 2 ^ be_val shift else 0) mod 2 ^ 256 ∧
  be_val (u256_shr shift v) = (if be_val shift <? 256 then be_val v / 2 ^ be_val shift else 0) ∧
  be_val (u256_sar shift v) = (sval v / 2 ^ Z.min (be_val shift) 256) mod 2 ^ 256.
Proof.
  intros Hs Hv Hlt. pose proof (wf_word_bound shift Hs).
  assert (E : u256_to_u64 shift = be_val shift) by (rewrite to_u64_val by done; apply Z.mod_small; lia).
  destruct (sar_spec shift v Hv) as [_ Hsar]; [lia|]. rewrite E in Hsar.
  destruct (be_val shift <? 256) eqn:E256; simp_bool.
  - destruct (shl_spec shift v Hv) as [_ H1]; [lia..|]. destruct (shr_spec shift v Hv) as [_ H2]; [lia..|].
    rewrite E in *. done.
  - unfold u256_shl, u256_shr. rewrite E. dec_bool. by rewrite val_zero.
Qed.

Lemma shifts_correct_witness :
  let s := to_be 32 77 in let v := to_be 32 (2 ^ 256 - 2 ^ 100 + 12345) in
  be_val (u256_shl s v) = (if be_val s <? 256 then be_val v * 2 ^ be_val s else 0) mod 2 ^ 256 ∧
  be_val (u256_shr s v) = (if be_val s <? 256 then be_val v / 2 ^ be_val s else 0) ∧
  be_val (u256_sar s v) = (sval v / 2 ^ Z.min (be_val s) 256) mod 2 ^ 256.
Proof. apply shifts_correct; [apply wf_to_word | apply wf_to_word | reflexivity]. Defined.

(** Shift, BYTE and SIGNEXTEND operands are truncated to their low 64
    bits before the range test: a shift of 2^64 leaves the word unchanged
    where the documented result is zero, and BYTE of index 2^64 reads byte 0. *)
Theorem shift_operand_truncated :
  let big := to_be 32 (2 ^ 64) in let v := to_be 32 (2 ^ 255 + 9) in
  u256_shl big v = v ∧ u256_shr big v = v ∧ be_val (u256_byte big v) = 0x80.
Proof. cbv zeta. split_and!; vm_compute; reflexivity. Qed.

Lemma signed_lt (a b : word) :
  wf_word a → wf_word b →
  (if negb (Bool.eqb (is_negative a) (is_negative b)) then is_negative a else u256_lt a b) =
  (sval a <? sval b).
Proof.
  intros Ha Hb. pose proof (wf_word_bound a Ha). pose proof (wf_word_bound b Hb).
  rewrite u256_lt_spec, !is_negative_spec by done. unfold sval, W in *.
  destruct (Z.leb_spec (2 ^ 255) (be_val a)), (Z.leb_spec (2 ^ 255) (be_val b)),
    (Z.ltb_spec (be_val a) (2 ^ 255)), (Z.ltb_spec (be_val b) (2 ^ 255)); try lia;
    cbn [Bool.eqb negb]; apply eq_true_iff_eq; rewrite ?Z.ltb_lt; lia.
Qed.

(** Comparisons: LT, GT, EQ and ISZERO compare the unsigned values (the
    source's lexicographic order on byte arrays is the numeric order), SLT and
    SGT the two's complement values. *)
Theorem comparisons_correct (a b : word) :
  wf_word a → wf_word b →
  u256_lt a b = (be_val a <? be_val b) ∧ u256_gt a b = (be_val b <? be_val a) ∧
  u256_eq a b = (be_val a =? be_val b) ∧ u256_is_zero a = (be_val a =? 0) ∧
  u256_slt a b = (sval a <? sval b) ∧ u256_sgt a b = (sval b <? sval a).
Proof.
  intros Ha Hb. pose proof (wf_word_bound a Ha). pose proof (wf_word_bound b Hb).
  pose proof (u256_lt_spec a b Ha Hb) as H1. pose proof (u256_lt_spec b a Hb Ha) as H2.
  split_and!; [done | done | | by apply u256_is_zero_spec | |].
  - unfold u256_eq. case_bool_decide as E; symmetry; [apply Z.eqb_eq; by rewrite E|].
    apply Z.eqb_neq. intros E'. apply E. by apply wf_word_inj.
  - unfold u256_slt. rewrite <- (signed_lt a b) by done. by unfold u256_lt.
  - unfold u256_sgt. rewrite <- (signed_lt b a) by done. unfold u256_lt.
    by destruct (is_negative a), (is_negative b).
Qed.

Lemma comparisons_correct_witness :
  let a := to_be 32 (2 ^ 256 - 1) in let b := to_be 32 3 in
  u256_lt a b = (be_val a <? be_val b) ∧ u256_gt a b = (be_val b <? be_val a) ∧
  u256_eq a b = (be_val a =? be_val b) ∧ u256_is_zero a = (be_val a =? 0) ∧
  u256_slt a b = (sval a <? sval b) ∧ u256_sgt a b = (sval b <? sval a).
Proof. apply comparisons_correct; apply wf_to_word. Defined.

(** AND, OR, XOR and NOT act on the numbers bit by bit, and BYTE reads
    byte [i] from the most significant end (zero from index 32 on). *)
Theorem bitwise_correct (a b i : word) :
  wf_word a → wf_word b → wf_word i → be_val i < 2 ^ 64 →
  be_val (u256_and a b) = Z.land (be_val a) (be_val b) ∧
  be_val (u256_or a b) = Z.lor (be_val a) (be_val b) ∧
  be_val (u256_xor a b) = Z.lxor (be_val a) (be_val b) ∧
  be_val (u256_not a) = 2 ^ 256 - 1 - be_val a ∧
  be_val (u256_byte i a) =
    (if be_val i <? 32 then be_val a / 256 ^ (31 - be_val i) mod 256 else 0).
Proof.
  intros Ha Hb Hi Hlt. destruct (and_or_xor_spec a b Ha Hb) as ([_ H1] & [_ H2] & [_ H3]).
  destruct (not_spec a Ha) as [_ H4]. split_and!; [done..|].
  pose proof (wf_word_bound i Hi). unfold u256_byte.
  assert (E : u256_to_u64 i = be_val i) by (rewrite to_u64_val by done; apply Z.mod_small; lia).
  rewrite E. destruct (be_val i <? 32) eqn:E32; simp_bool; dec_bool; [|apply val_zero].
  set (n := be_val i) in *. destruct (from_u64_spec (byte_at a (Z.to_nat n))) as [_ ->].
  destruct (byte_at_lookup a (Z.to_nat n) Ha ltac:(lia)) as [Hlk Hu]. unfold is_u8 in Hu.
  rewrite Z.mod_small by lia. apply list_elem_of_split_length in Hlk as (l1 & l2 & Hsplit & Hlen).
  destruct Ha as [Hla Hwa]. rewrite Hsplit in Hla, Hwa. rewrite length_app in Hla. simpl in Hla.
  apply Forall_app in Hwa as [_ Hwa]. apply Forall_cons in Hwa as [_ Hw2].
  pose proof (be_val_bound l2 Hw2). rewrite Hsplit at 2. rewrite be_val_app, be_val_cons.
  replace (Z.of_nat (length l2)) with (31 - n) in * by lia.
  cbn [length]. replace (Z.of_nat (S (length l2))) with (Z.succ (31 - n)) by lia.
  rewrite Z.pow_succ_r by lia. set (P := 256 ^ (31 - n)) in *.
  replace (be_val l1 * (256 * P) + (byte_at a (Z.to_nat n) * P + be_val l2))
    with (be_val l2 + (be_val l1 * 256 + byte_at a (Z.to_nat n)) * P) by lia.
  assert (P ≠ 0) by (unfold P; apply Z.pow_nonzero; lia).
  rewrite Z.div_add, Z.div_small, Z.add_0_l by lia.
  rewrite Z.add_comm, Z.mod_add, Z.mod_small by lia. done.
Qed.

Lemma bitwise_correct_witness :
  let a := to_be 32 (2 ^ 255 + 0xabcd) in let b := to_be 32 0xff0f in let i := to_be 32 30 in
  be_val (u256_and a b) = Z.land (be_val a) (be_val b) ∧
  be_val (u256_or a b) = Z.lor (be_val a) (be_val b) ∧
  be_val (u256_xor a b) = Z.lxor (be_val a) (be_val b) ∧
  be_val (u256_not a) = 2 ^ 256 - 1 - be_val a ∧
  be_val (u256_byte i a) =
    (if be_val i <? 32 then be_val a / 256 ^ (31 - be_val i) mod 256 else 0).
Proof. apply bitwise_correct; [apply wf_to_word .. | reflexivity]. Defined.

(** ** Sign extension *)

Lemma signextend_bytes (b x : word) (i : nat) :
  wf_word b → wf_word x → be_val b < 31 → (i < 32)%nat →
  let bi := (31 - Z.to_nat (be_val b))%nat in
  let sign := negb (Z.land (byte_at x bi) 0x80 =? 0) in
  wf_word (u256_signextend b x) ∧
  byte_at (u256_signextend b x) i =
    if bool_decide (i < bi)%nat then (if sign then 0xff else 0)
    else if bool_decide (i = bi) then (if sign then Z.lor (byte_at x i) 0xff else Z.land (byte_at x i) 0x7f)
    else byte_at x i.
Proof.
  intros Hb Hx Hk Hi bi sign. pose proof (wf_word_bound b Hb). unfold u256_signextend.
  assert (E : u256_to_u64 b = be_val b) by (rewrite to_u64_val by done; apply Z.mod_small; lia).
  rewrite E. dec_bool. fold bi. fold sign.
  set (fill := imap _ x).
  assert (Hlk : ∀ j, (j < 32)%nat → fill !! j = Some (if bool_decide (j < bi)%nat
                 then (if sign then 0xff else 0) else byte_at x j)).
  { intros j Hj. unfold fill. rewrite list_lookup_imap.
    destruct (byte_at_lookup x j Hx Hj) as [-> _]. cbn. by case_bool_decide. }
  assert (Hwf : wf_word fill).
  { split; [unfold fill; rewrite length_imap; apply Hx|]. apply Forall_lookup. intros j y Hy.
    destruct (decide (j < 32)%nat) as [Hj|Hj].
    - rewrite Hlk in Hy by done. injection Hy as <-.
      case_bool_decide; [destruct sign; unfold is_u8; lia | by apply byte_at_u8].
    - rewrite lookup_ge_None_2 in Hy by (unfold fill; rewrite length_imap; destruct Hx; lia). done. }
  assert (Hfb : byte_at fill bi = byte_at x bi).
  { unfold byte_at at 1. rewrite Hlk by lia. rewrite bool_decide_false by lia. done. }
  assert (Hins : ∀ v, is_u8 v → wf_word (<[bi := v]> fill) ∧
    byte_at (<[bi := v]> fill) i = if bool_decide (i < bi)%nat then (if sign then 0xff else 0)
      else if bool_decide (i = bi) then v else byte_at x i).
  { intros v Hv. split; [by apply wf_insert|]. unfold byte_at at 1.
    case_bool_decide as H1; [rewrite list_lookup_insert_ne, Hlk, bool_decide_true by lia; done|].
    case_bool_decide as H2.
    - subst i. rewrite list_lookup_insert_eq by (destruct Hwf; lia). done.
    - rewrite list_lookup_insert_ne, Hlk, bool_decide_false by lia. done. }
  pose proof (byte_at_u8 x bi Hx) as Hu. rewrite Hfb.
  destruct sign.
  - destruct (Hins (Z.lor (byte_at x bi) 0xff)) as [H1 H2]; [apply lor_u8; [done|unfold is_u8; lia]|].
    split; [done|]. rewrite H2. by repeat case_bool_decide; subst.
  - destruct (Hins (Z.land (byte_at x bi) 0x7f)) as [H1 H2]; [apply land_u8; [done|unfold is_u8; lia]|].
    split; [done|]. rewrite H2. by repeat case_bool_decide; subst.
Qed.

(** SIGNEXTEND from byte [k] < 31: with the sign bit clear the result is
    the low [8k+8] bits of the operand, as specified; with the sign bit set,
    bits [8k .. 8k+7] of the result are all one, whatever the operand's byte
    [k] was, and for 0x80 (k = 0) the code answers -1 instead of -128. *)
Theorem signextend_behaviour (b x : word) (p : Z) :
  wf_word b → wf_word x → be_val b < 31 → 0 ≤ p < 256 →
  let k := be_val b in
  let sign := Z.testbit (be_val x) (8 * k + 7) in
  Z.testbit (be_val (u256_signextend b x)) p =
    (if p <? 8 * k then Z.testbit (be_val x) p
     else if p <? 8 * k + 8 then sign || Z.testbit (be_val x) p
     else sign) ∧
  sval (u256_signextend (to_be 32 0) (to_be 32 0x80)) = -1.
Proof.
  intros Hb Hx Hk Hp. cbv zeta. split; [|vm_compute; reflexivity].
  pose proof (wf_word_bound b Hb).
  pose proof (Z.div_mod p 8 ltac:(lia)) as Hpd. pose proof (Z.mod_pos_bound p 8 ltac:(lia)) as Hj.
  assert (0 ≤ p / 8 < 32) as Hd by (split; [apply Z.div_pos | apply Z.div_lt_upper_bound]; lia).
  destruct (signextend_bytes b x (Z.to_nat (31 - p / 8)) Hb Hx Hk ltac:(lia)) as [Hwf Hbyte].
  rewrite (testbit_word (u256_signextend b x)), Hbyte by done. clear Hbyte.
  set (k := be_val b) in *. set (sign := Z.testbit (be_val x) (8 * k + 7)).
  set (bi := (31 - Z.to_nat k)%nat).
  assert (Hs : negb (Z.land (byte_at x bi) 0x80 =? 0) = sign).
  { assert (sign = Z.testbit (byte_at x bi) 7) as ->.
    { unfold sign. rewrite <- testbit_word_pos by (done || lia). f_equal. lia. }
    destruct (Z.testbit (byte_at x bi) 7) eqn:T.
    - apply negb_true_iff, Z.eqb_neq. intros H0.
      assert (Z.testbit (Z.land (byte_at x bi) 0x80) 7 = true) as T' by (by rewrite Z.land_spec, T).
      by rewrite H0 in T'.
    - apply negb_false_iff, Z.eqb_eq. apply Z.bits_inj'. intros n Hn.
      rewrite Z.land_spec, Z.bits_0. change 0x80 with (2 ^ 7). rewrite Z.pow2_bits_eqb by lia.
      destruct (7 =? n) eqn:E7; simp_bool; [subst; by rewrite T | by rewrite andb_false_r]. }
  rewrite Hs. rewrite (testbit_word x p) by done. set (i := Z.to_nat (31 - p / 8)) in *. set (j := p mod 8) in *.
  assert (Hff : ∀ n, 0 ≤ n < 8 → Z.testbit 0xff n = true)
    by (intros; change 0xff with (Z.ones 8); apply Z.ones_spec_low; lia).
  case_bool_decide as H1.
  - dec_bool. destruct sign; [apply Hff; lia | apply Z.testbit_0_l].
  - case_bool_decide as H2; [|by dec_bool].
    rewrite (proj2 (Z.ltb_ge p (8 * k))), (proj2 (Z.ltb_lt p (8 * k + 8))) by lia.
    destruct sign eqn:Esign; cbn [orb].
    + rewrite Z.lor_spec, Hff by lia. apply orb_true_r.
    + rewrite Z.land_spec. change 0x7f with (Z.ones 7). rewrite Z.testbit_ones_nonneg by lia.
      destruct (j <? 7) eqn:E7; simp_bool; [apply andb_true_r|]. rewrite andb_false_r.
      symmetry. rewrite H2. replace j with 7 by lia. rewrite <- Esign. unfold sign.
      rewrite <- testbit_word_pos by (done || lia). f_equal. lia.
Qed.

Lemma signextend_behaviour_witness :
  let b := to_be 32 1 in let x := to_be 32 0x1234 in
  Z.testbit (be_val (u256_signextend b x)) 4 =
    (if 4 <? 8 * be_val b then Z.testbit (be_val x) 4
     else if 4 <? 8 * be_val b + 8 then Z.testbit (be_val x) (8 * be_val b + 7) || Z.testbit (be_val x) 4
     else Z.testbit (be_val x) (8 * be_val b + 7)) ∧
  sval (u256_signextend (to_be 32 0) (to_be 32 0x80)) = -1.
Proof.
  apply signextend_behaviour; [apply wf_to_word | apply wf_to_word | reflexivity | lia].
Defined.

End U256Props.
