(* ===== verification/U256Wf.v ===== *)
(** * Every word operation returns a word

    The type invariant of [crates/zbx-evm/src/stack.rs]: on 32-byte words
    every operation of the arithmetic half returns 32 bytes, without the range
    conditions the value specifications need. Used by the interpreter's
    invariant. *)

From S2P Require Import Prelude.
From S2P Require Import U256.
From S2P Require Import U256Props.

Module U256Wf.
Import U256 U256Props.

Lemma shl_one_wf r : wf_word r → wf_word (u256_shl_one r).
Proof.
  intros [Hl Hw]. destruct (shl_one_loop_spec r Hw) as (Hl' & Hw' & _).
  split; [unfold u256_shl_one; congruence | done].
Qed.

Lemma rem_step_wf b r bit :
  wf_word b → wf_word r → (bit = 0 ∨ bit = 1) → wf_word (fst (rem_step b r bit)).
Proof.
  intros Hb Hr Hbit. pose proof (shl_one_wf r Hr) as Hs.
  assert (wf_word (or_low (u256_shl_one r) bit)).
  { apply wf_insert; [done|]. apply lor_u8; [by apply byte_at_u8|]. unfold is_u8. lia. }
  unfold rem_step. case_match; [by apply sub_wf | done].
Qed.

Lemma fold_seq_wf (f : word → nat → word) n w :
  wf_word w → (∀ st i, (i < n)%nat → wf_word st → wf_word (f st i)) →
  wf_word (fold_left f (seq 0 n) w).
Proof.
  intros Hw Hf. apply (fold_left_seq_ind (fun _ st => wf_word st)); [done|]. auto.
Qed.

Lemma mod_wf a b : wf_word a → wf_word b → wf_word (u256_mod a b).
Proof.
  intros Ha Hb. unfold u256_mod. case_match; [apply wf_zero|]. apply fold_seq_wf; [apply wf_zero|].
  intros. apply rem_step_wf; [done|done|]. by apply bit_of_01.
Qed.

Lemma set_bit_wf q i : wf_word q → (i < 256)%nat → wf_word (set_bit q i).
Proof.
  intros Hq Hi. apply wf_insert; [done|]. apply lor_u8; [by apply byte_at_u8 | apply wrap8_u8].
Qed.

Lemma div_wf a b : wf_word a → wf_word b → wf_word (u256_div a b).
Proof.
  intros Ha Hb. unfold u256_div. case_match; [apply wf_zero|].
  apply (fold_left_seq_ind (fun _ st => wf_word st.1 ∧ wf_word st.2)); [split; apply wf_zero|].
  intros i [q r] Hi [Hq Hr]. pose proof (rem_step_wf b r (bit_of a i) Hb Hr (bit_of_01 a i Ha Hi)).
  unfold div_step. destruct (rem_step b r (bit_of a i)) as [r' fits]. cbn in *.
  split; [|done]. destruct fits; [by apply set_bit_wf | done].
Qed.

Lemma abs_wf a : wf_word a → wf_word (if is_negative a then negate a else a).
Proof. intros. case_match; [by apply negate_spec | done]. Qed.

Lemma sdiv_wf a b : wf_word a → wf_word b → wf_word (u256_sdiv a b).
Proof.
  intros Ha Hb. unfold u256_sdiv. case_match; [apply wf_zero|].
  case_match; [split; [done|]; repeat constructor; unfold is_u8; lia|].
  assert (wf_word (u256_div (if is_negative a then negate a else a) (if is_negative b then negate b else b)))
    by (apply div_wf; by apply abs_wf).
  destruct (negb _); [by apply negate_spec | done].
Qed.

Lemma smod_wf a b : wf_word a → wf_word b → wf_word (u256_smod a b).
Proof.
  intros Ha Hb. unfold u256_smod. case_match; [apply wf_zero|].
  assert (wf_word (u256_mod (if is_negative a then negate a else a) (if is_negative b then negate b else b)))
    by (apply mod_wf; by apply abs_wf).
  destruct (is_negative a && _); [by apply negate_spec | done].
Qed.

Lemma addmod_wf a b n : wf_word a → wf_word b → wf_word n → wf_word (u256_addmod a b n).
Proof.
  intros Ha Hb Hn. unfold u256_addmod. case_match; [apply wf_zero|].
  pose proof (add_wf a b Ha Hb) as Hs. unfold u256_add in Hs. destruct (add_loop a b) as [sum carry].
  cbn in Hs. case_match; [|by apply mod_wf]. apply fold_seq_wf.
  - apply rem_step_wf; [done|apply wf_zero|by right].
  - intros. apply rem_step_wf; [done|done|]. by apply bit_of_01.
Qed.

Lemma mulmod_wf a b n : wf_word a → wf_word b → wf_word n → wf_word (u256_mulmod a b n).
Proof.
  intros Ha Hb Hn. unfold u256_mulmod. case_match; [apply wf_zero|].
  apply fold_seq_wf; [apply wf_zero|]. intros st i Hi Hst. unfold mulmod_step.
  case_match; repeat apply addmod_wf; done.
Qed.

Lemma exp_wf a b : wf_word a → wf_word b → wf_word (default zero (u256_exp a b)).
Proof.
  intros Ha Hb. unfold u256_exp. destruct (from_u64_spec 1) as [H1 _]. case_match; [done|].
  destruct (exp_loop_spec 256 (u256_from_u64 1) a b) as (out & -> & Hw & _); [done..| |done].
  by apply wf_word_bound.
Qed.

Lemma byte_wf a b : wf_word (u256_byte a b).
Proof. unfold u256_byte. case_match; [apply wf_zero | apply from_u64_spec]. Qed.

Lemma shl_wf a b : wf_word a → wf_word b → wf_word (u256_shl a b).
Proof.
  intros Ha Hb. destruct (to_u64_range a Ha). destruct (decide (u256_to_u64 a < 256)).
  - by apply shl_spec.
  - unfold u256_shl. dec_bool. apply wf_zero.
Qed.

Lemma shr_wf a b : wf_word a → wf_word b → wf_word (u256_shr a b).
Proof.
  intros Ha Hb. destruct (to_u64_range a Ha). destruct (decide (u256_to_u64 a < 256)).
  - by apply shr_spec.
  - unfold u256_shr. dec_bool. apply wf_zero.
Qed.

Lemma sar_wf a b : wf_word a → wf_word b → wf_word (u256_sar a b).
Proof. intros Ha Hb. apply sar_spec; [done|]. apply (to_u64_range a Ha). Qed.

Lemma signextend_wf b x : wf_word b → wf_word x → wf_word (u256_signextend b x).
Proof.
  intros Hb Hx. pose proof (to_u64_range b Hb) as [Hlo Hhi].
  destruct (decide (31 ≤ u256_to_u64 b)) as [Hbig|Hsmall].
  { unfold u256_signextend. by dec_bool. }
  set (v := u256_to_u64 b) in *. pose proof (wf_to_word v) as Hv.
  assert (Hval : be_val (to_be 32 v) = v).
  { rewrite be_val_to_be. apply Z.mod_small. split; [lia|].
    apply Z.lt_le_trans with 31; [lia|]. by vm_compute. }
  assert (E : u256_signextend b x = u256_signextend (to_be 32 v) x).
  { unfold u256_signextend. rewrite (to_u64_val (to_be 32 v)), Hval by done.
    rewrite Z.mod_small by lia. done. }
  rewrite E. apply (signextend_bytes (to_be 32 v) x O); [done|done|lia|lia].
Qed.

Lemma bool_word_wf (b : bool) : wf_word (u256_from_u64 (if b then 1 else 0)).
Proof. apply from_u64_spec. Qed.

Lemma from_u64_wf v : wf_word (u256_from_u64 v).
Proof. apply from_u64_spec. Qed.

Lemma and_wf a b : wf_word a → wf_word b → wf_word (u256_and a b).
Proof. intros. by apply and_or_xor_spec. Qed.
Lemma or_wf a b : wf_word a → wf_word b → wf_word (u256_or a b).
Proof. intros. by apply and_or_xor_spec. Qed.
Lemma xor_wf a b : wf_word a → wf_word b → wf_word (u256_xor a b).
Proof. intros. by apply and_or_xor_spec. Qed.
Lemma not_wf a : wf_word a → wf_word (u256_not a).
Proof. intros. by apply not_spec. Qed.
Lemma mul_wf a b : wf_word a → wf_word b → wf_word (u256_mul a b).
Proof. intros. by apply mul_spec. Qed.

#[export] Hint Resolve add_wf sub_wf mul_wf div_wf sdiv_wf mod_wf smod_wf addmod_wf mulmod_wf exp_wf
  signextend_wf and_wf or_wf xor_wf not_wf byte_wf shl_wf shr_wf sar_wf bool_word_wf from_u64_wf
  wf_zero : zbx.
End U256Wf.
