(* ===== verification/EvmBase.v ===== *)
(** * The EVM's value stack, linear memory, gas schedule and opcode table

    Models [crates/zbx-evm/src/error.rs], [gas.rs], [opcodes.rs], [memory.rs]
    and the [Stack] half of [stack.rs]. The [Vec] of the stack is a list whose
    head is the top of the stack; memory is the [Vec] of bytes itself. A
    [usize] is a 64-bit integer. *)

From S2P Require Import Prelude.
From S2P Require Import U256.
From Stdlib Require String.

Abbreviation address := (list Z).

Module EvmBase.
Import U256.

Inductive EvmError :=
| OutOfGas
| StackUnderflow
| StackOverflow
| InvalidOpcode (b : Z)
| InvalidJump (dest : Z)
| MemoryOutOfBounds (offset size : Z)
| WriteProtection
| Revert (msg : String.string)
| Precompile (msg : String.string)
| CallDepthExceeded
| StaticStateChange
| InsufficientBalance
| NonceOverflow
| InitcodeOversize (len : Z)
| InvalidDeployedCodePrefix
| CreateCollision.

(** ** gas.rs *)

Definition GAS_ZERO : Z := 0.
Definition GAS_BASE : Z := 2.
Definition GAS_VERY_LOW : Z := 3.
Definition GAS_LOW : Z := 5.
Definition GAS_MID : Z := 8.
Definition GAS_HIGH : Z := 10.
Definition GAS_JUMPDEST : Z := 1.
Definition GAS_SLOAD_WARM : Z := 100.
Definition GAS_SLOAD_COLD : Z := 2100.
Definition GAS_SSTORE_SET : Z := 20000.
Definition GAS_SSTORE_RESET : Z := 2900.
Definition GAS_CALL : Z := 100.
Definition GAS_CREATE : Z := 32000.
Definition GAS_SHA3 : Z := 30.
Definition GAS_SHA3_WORD : Z := 6.
Definition GAS_COPY_WORD : Z := 3.
Definition GAS_LOG_BASE : Z := 375.
Definition GAS_LOG_DATA : Z := 8.
Definition GAS_LOG_TOPIC : Z := 375.
Definition GAS_COLD_ACCOUNT_ACCESS : Z := 2500.
Definition GAS_CALL_VALUE_TRANSFER : Z := 9000.
Definition GAS_NEW_ACCOUNT : Z := 25000.
Definition GAS_CALL_STIPEND : Z := 2300.
Definition CALL_DEPTH_LIMIT : nat := 1024.
Definition GAS_INITCODE_WORD : Z := 2.
Definition GAS_CODE_DEPOSIT_PER_BYTE : Z := 200.
Definition GAS_SELFDESTRUCT : Z := 5000.
Definition MAX_INITCODE_SIZE : Z := 49152.
Definition MAX_CONTRACT_CODE_SIZE : Z := 24576.

(** The closure [cost] of [memory_expansion_cost], in u128. *)
Definition mem_cost (n : Z) : Z :=
  saturating_add128 (saturating_mul128 3 n) (saturating_mul128 n n / 512).

Definition memory_expansion_cost (old_words new_words : Z) : Z :=
  let diff := saturating_sub (mem_cost new_words) (mem_cost old_words) in
  if U64_MAX <? diff then U64_MAX else diff.

Definition words_of (size_bytes : Z) : Z := wrap64 (size_bytes + 31) / 32.

Definition copy_cost (size_bytes : Z) : Z := wrap64 (GAS_COPY_WORD * words_of size_bytes).

Definition sha3_cost (size_bytes : Z) : Z :=
  wrap64 (GAS_SHA3 + wrap64 (GAS_SHA3_WORD * words_of size_bytes)).

Definition log_cost (data_size topic_count : Z) : Z :=
  wrap64 (wrap64 (GAS_LOG_BASE + wrap64 (GAS_LOG_DATA * data_size))
          + wrap64 (GAS_LOG_TOPIC * topic_count)).

Definition initcode_cost (size : Z) : Z := wrap64 (2 * words_of size).

Definition forward_gas_eip150 (gas_remaining requested : Z) : Z :=
  let max_forwardable := saturating_sub gas_remaining (gas_remaining / 64) in
  Z.min requested max_forwardable.

(** ** opcodes.rs *)

Inductive Opcode :=
| STOP | ADD | MUL | SUB | DIV | SDIV | MOD | SMOD | ADDMOD | MULMOD | EXP | SIGNEXTEND
| LT | GT | SLT | SGT | EQ | ISZERO | AND | OR | XOR | NOT | BYTE | SHL | SHR | SAR
| SHA3
| ADDRESS | BALANCE | ORIGIN | CALLER | CALLVALUE | CALLDATALOAD | CALLDATASIZE
| CALLDATACOPY | CODESIZE | CODECOPY | GASPRICE | EXTCODESIZE | EXTCODECOPY
| RETURNDATASIZE | RETURNDATACOPY | EXTCODEHASH
| BLOCKHASH | COINBASE | TIMESTAMP | NUMBER | PREVRANDAO | GASLIMIT | CHAINID
| SELFBALANCE | BASEFEE
| POP | MLOAD | MSTORE | MSTORE8 | SLOAD | SSTORE | JUMP | JUMPI | PC | MSIZE | GAS
| JUMPDEST
| PUSH0
| PUSH1 | PUSH2 | PUSH3 | PUSH4 | PUSH5 | PUSH6 | PUSH7 | PUSH8
| PUSH9 | PUSH10 | PUSH11 | PUSH12 | PUSH13 | PUSH14 | PUSH15 | PUSH16
| PUSH17 | PUSH18 | PUSH19 | PUSH20 | PUSH21 | PUSH22 | PUSH23 | PUSH24
| PUSH25 | PUSH26 | PUSH27 | PUSH28 | PUSH29 | PUSH30 | PUSH31 | PUSH32
| DUP1 | DUP2 | DUP3 | DUP4 | DUP5 | DUP6 | DUP7 | DUP8
| DUP9 | DUP10 | DUP11 | DUP12 | DUP13 | DUP14 | DUP15 | DUP16
| SWAP1 | SWAP2 | SWAP3 | SWAP4 | SWAP5 | SWAP6 | SWAP7 | SWAP8
| SWAP9 | SWAP10 | SWAP11 | SWAP12 | SWAP13 | SWAP14 | SWAP15 | SWAP16
| LOG0 | LOG1 | LOG2 | LOG3 | LOG4
| CREATE | CALL | CALLCODE | RETURN | DELEGATECALL | CREATE2 | STATICCALL
| REVERT | INVALID | SELFDESTRUCT.

Definition from_u8 (b : Z) : option Opcode :=
  if (0x60 <=? b) && (b <=? 0x7f) then Some PUSH1 else
  if (0x80 <=? b) && (b <=? 0x8f) then Some DUP1 else
  if (0x90 <=? b) && (b <=? 0x9f) then Some SWAP1 else
  match b with
  | 0x00 => Some STOP       | 0x01 => Some ADD
  | 0x02 => Some MUL        | 0x03 => Some SUB
  | 0x04 => Some DIV        | 0x05 => Some SDIV
  | 0x06 => Some MOD        | 0x07 => Some SMOD
  | 0x08 => Some ADDMOD     | 0x09 => Some MULMOD
  | 0x0a => Some EXP        | 0x0b => Some SIGNEXTEND
  | 0x10 => Some LT         | 0x11 => Some GT
  | 0x12 => Some SLT        | 0x13 => Some SGT
  | 0x14 => Some EQ         | 0x15 => Some ISZERO
  | 0x16 => Some AND        | 0x17 => Some OR
  | 0x18 => Some XOR        | 0x19 => Some NOT
  | 0x1a => Some BYTE       | 0x1b => Some SHL
  | 0x1c => Some SHR        | 0x1d => Some SAR
  | 0x20 => Some SHA3
  | 0x30 => Some ADDRESS    | 0x31 => Some BALANCE
  | 0x32 => Some ORIGIN     | 0x33 => Some CALLER
  | 0x34 => Some CALLVALUE  | 0x35 => Some CALLDATALOAD
  | 0x36 => Some CALLDATASIZE | 0x37 => Some CALLDATACOPY
  | 0x38 => Some CODESIZE   | 0x39 => Some CODECOPY
  | 0x3a => Some GASPRICE   | 0x3b => Some EXTCODESIZE
  | 0x3c => Some EXTCODECOPY | 0x3d => Some RETURNDATASIZE
  | 0x3e => Some RETURNDATACOPY | 0x3f => Some EXTCODEHASH
  | 0x40 => Some BLOCKHASH  | 0x41 => Some COINBASE
  | 0x42 => Some TIMESTAMP  | 0x43 => Some NUMBER
  | 0x44 => Some PREVRANDAO | 0x45 => Some GASLIMIT
  | 0x46 => Some CHAINID    | 0x47 => Some SELFBALANCE
  | 0x48 => Some BASEFEE
  | 0x50 => Some POP        | 0x51 => Some MLOAD
  | 0x52 => Some MSTORE     | 0x53 => Some MSTORE8
  | 0x54 => Some SLOAD      | 0x55 => Some SSTORE
  | 0x56 => Some JUMP       | 0x57 => Some JUMPI
  | 0x58 => Some PC         | 0x59 => Some MSIZE
  | 0x5a => Some GAS        | 0x5b => Some JUMPDEST
  | 0x5f => Some PUSH0
  | 0xa0 => Some LOG0 | 0xa1 => Some LOG1
  | 0xa2 => Some LOG2 | 0xa3 => Some LOG3 | 0xa4 => Some LOG4
  | 0xf0 => Some CREATE     | 0xf1 => Some CALL
  | 0xf2 => Some CALLCODE   | 0xf3 => Some RETURN
  | 0xf4 => Some DELEGATECALL | 0xf5 => Some CREATE2
  | 0xfa => Some STATICCALL
  | 0xfd => Some REVERT     | 0xfe => Some INVALID
  | 0xff => Some SELFDESTRUCT
  | _ => None
  end.

Definition static_gas (op : Opcode) : Z :=
  match op with
  | STOP | RETURN | REVERT => GAS_ZERO
  | SHA3 | LOG0 | LOG1 | LOG2 | LOG3 | LOG4 => GAS_ZERO
  | ADD | SUB | NOT | LT | GT
  | SLT | SGT | EQ | ISZERO
  | AND | OR | XOR | BYTE
  | SHL | SHR | SAR
  | CALLDATALOAD | CALLDATASIZE | CODESIZE
  | RETURNDATASIZE | ADDRESS | CALLER
  | CALLVALUE | GASPRICE | COINBASE
  | TIMESTAMP | NUMBER | PREVRANDAO
  | GASLIMIT | CHAINID | BASEFEE
  | MLOAD | MSTORE | MSTORE8
  | POP | PC | MSIZE | GAS
  | PUSH0 | PUSH1 => GAS_VERY_LOW
  | MUL | DIV | SDIV | MOD
  | SMOD | SIGNEXTEND => GAS_LOW
  | ADDMOD | MULMOD | JUMP => GAS_MID
  | EXP => GAS_ZERO
  | JUMPI | BLOCKHASH => GAS_HIGH
  | JUMPDEST => GAS_JUMPDEST
  | BALANCE | SELFBALANCE => GAS_SLOAD_WARM
  | ORIGIN | EXTCODESIZE | EXTCODEHASH => GAS_SLOAD_WARM
  | SLOAD => GAS_SLOAD_WARM
  | SSTORE => 0
  | EXTCODECOPY => GAS_SLOAD_WARM
  | CODECOPY | CALLDATACOPY | RETURNDATACOPY => GAS_VERY_LOW
  | CREATE | CREATE2 => GAS_CREATE
  | CALL | CALLCODE | DELEGATECALL
  | STATICCALL => GAS_CALL
  | SELFDESTRUCT | INVALID => 0
  | _ => GAS_VERY_LOW
  end.

(** ** Stack (stack.rs) *)

Definition MAX_STACK : nat := 1024.

Abbreviation Stack := (list (list Z)).

Definition stack_push (s : Stack) (val : word) : outcome EvmError Stack :=
  if (MAX_STACK <=? length s)%nat then Err StackOverflow else Ok (val :: s).

Definition stack_pop (s : Stack) : outcome EvmError (word * Stack) :=
  match s with
  | [] => Err StackUnderflow
  | v :: s' => Ok (v, s')
  end.

Definition stack_peek (s : Stack) (depth : nat) : outcome EvmError word :=
  ok_or (s !! depth) StackUnderflow.

(** [self.data.swap(top, top - depth)] *)
Definition stack_swap (s : Stack) (depth : nat) : outcome EvmError Stack :=
  match s !! O, s !! depth with
  | Some t, Some v => Ok (<[O := v]> (<[depth := t]> s))
  | _, _ => Err StackUnderflow
  end.

Definition stack_dup (s : Stack) (depth : nat) : outcome EvmError Stack :=
  let? val := stack_peek s (depth - 1) in stack_push s val.

(** ** Memory (memory.rs) *)

Definition MAX_MEMORY : Z := 32 * 1024 * 1024.

Abbreviation Memory := (list Z).

Definition mem_size (m : Memory) : Z := Z.of_nat (length m).

(** [Vec::resize(n, 0)] *)
Definition resize0 (m : bytes) (n : Z) : bytes :=
  take (Z.to_nat n) m ++ replicate (Z.to_nat n - length m) 0.

Definition mem_ensure (m : Memory) (offset size : Z) : outcome EvmError (Z * Memory) :=
  if size =? 0 then Ok (0, m) else
  let? end_ := ok_or (checked_add64 offset size) (MemoryOutOfBounds offset size) in
  if MAX_MEMORY <? end_ then Err (MemoryOutOfBounds offset size) else
  let old_words := (mem_size m + 31) / 32 in
  let new_words := (end_ + 31) / 32 in
  if old_words <? new_words
  then Ok (memory_expansion_cost old_words new_words, resize0 m (new_words * 32))
  else Ok (0, m).

Definition mem_read (m : Memory) (offset size : Z) : outcome EvmError bytes :=
  if mem_size m <=? offset then Ok (replicate (Z.to_nat size) 0) else
  let end_ := Z.min (wrap64 (offset + size)) (mem_size m) in
  let? out := slice m offset end_ in
  Ok (resize0 out size).

Definition mem_read32 (m : Memory) (offset : Z) : outcome EvmError word :=
  mem_read m offset 32.

Definition mem_write (m : Memory) (offset : Z) (data : bytes) : outcome EvmError Memory :=
  if bool_decide (data = []) then Ok m else
  let end_ := saturating_add64 offset (Z.of_nat (length data)) in
  if MAX_MEMORY <? end_ then Panic else
  let m' := if mem_size m <? end_ then resize0 m end_ else m in
  Ok (take (Z.to_nat offset) m' ++ data ++ drop (Z.to_nat end_) m').

Definition mem_write32 (m : Memory) (offset : Z) (val : word) : outcome EvmError Memory :=
  mem_write m offset val.

(** A memory as the interpreter keeps it: whole 32-byte words, at most 32 MB. *)
Definition wf_mem (m : Memory) : Prop :=
  wf_bytes m ∧ mem_size m mod 32 = 0 ∧ mem_size m ≤ MAX_MEMORY.

Definition wf_stack (s : Stack) : Prop := Forall wf_word s ∧ (length s ≤ MAX_STACK)%nat.

(** ** Stack lemmas *)

Lemma push_wf s v s' : wf_stack s → wf_word v → stack_push s v = Ok s' → wf_stack s'.
Proof.
  intros [Hs Hl] Hv. unfold stack_push. destruct (_ <=? _)%nat eqn:E; [done|].
  intros [= <-]. apply Nat.leb_gt in E. split; [by constructor|]. cbn [length]. lia.
Qed.

Lemma pop_wf s v s' : wf_stack s → stack_pop s = Ok (v, s') → wf_word v ∧ wf_stack s'.
Proof.
  intros [Hs Hl]. destruct s; [done|]. intros [= -> ->].
  apply Forall_cons in Hs as [??]. cbn [length] in Hl. split; [done|]. split; [done|lia].
Qed.

Lemma swap_wf s d s' : wf_stack s → stack_swap s d = Ok s' → wf_stack s'.
Proof.
  intros [Hs Hl]. unfold stack_swap. destruct (s !! O) as [t|] eqn:E0; [|done].
  destruct (s !! d) as [v|] eqn:Ed; [|done]. intros [= <-].
  pose proof (Forall_lookup_1 _ _ _ _ Hs E0). pose proof (Forall_lookup_1 _ _ _ _ Hs Ed).
  split; [by repeat apply Forall_insert | by rewrite !length_insert].
Qed.

Lemma dup_wf s d s' : wf_stack s → stack_dup s d = Ok s' → wf_stack s'.
Proof.
  intros Hs H. apply bind_Ok_inv in H as (v & Hv & H). eapply push_wf; [done| |done].
  unfold stack_peek, ok_or in Hv. destruct (s !! _) eqn:E; [|done]. injection Hv as ->.
  eapply Forall_lookup_1; [apply Hs|done].
Qed.

(** No stack operation panics. *)
Lemma push_np s v : stack_push s v ≠ Panic.
Proof. unfold stack_push. by destruct (_ <=? _)%nat. Qed.
Lemma pop_np s : stack_pop s ≠ Panic.
Proof. by destruct s. Qed.
Lemma swap_np s d : stack_swap s d ≠ Panic.
Proof. unfold stack_swap. by repeat case_match. Qed.
Lemma dup_np s d : stack_dup s d ≠ Panic.
Proof. unfold stack_dup, stack_peek, ok_or. case_match; [apply push_np | done]. Qed.

#[export] Hint Resolve push_wf pop_wf swap_wf dup_wf : zbx.

(** ** Memory lemmas *)

Lemma length_resize0 m n : 0 ≤ n → Z.of_nat (length (resize0 m n)) = n.
Proof. intros. unfold resize0. rewrite length_app, length_take, length_replicate. lia. Qed.

Lemma wf_replicate0 n : wf_bytes (replicate n 0).
Proof. apply Forall_replicate. unfold is_u8. lia. Qed.

Lemma wf_resize0 m n : wf_bytes m → wf_bytes (resize0 m n).
Proof. intros. apply Forall_app. split; [by apply wf_bytes_take | apply wf_replicate0]. Qed.

Lemma resize0_grow m n :
  Z.of_nat (length m) ≤ n → resize0 m n = m ++ replicate (Z.to_nat n - length m) 0.
Proof. intros. unfold resize0. by rewrite take_ge by lia. Qed.

Lemma mem_cost_closed n :
  0 ≤ n ≤ 1048576 → mem_cost n = 3 * n + n * n / 512 ∧ 0 ≤ n * n / 512 ≤ 2147483648.
Proof.
  intros Hn. assert (0 ≤ n * n / 512) by (apply Z.div_pos; nia).
  assert (n * n / 512 ≤ 2147483648) by (apply Z.div_le_upper_bound; nia).
  unfold mem_cost, saturating_add128, saturating_mul128, U128_MAX.
  rewrite (Z.min_l (3 * n)), (Z.min_l (n * n)), Z.min_l by nia. done.
Qed.

(** What a successful [ensure] establishes: the memory holds the range and is
    the old one followed by zeros. *)
Lemma ensure_spec m offset size cost m' :
  wf_mem m → 0 ≤ offset → 0 ≤ size →
  mem_ensure m offset size = Ok (cost, m') →
  wf_mem m' ∧ (0 < size → offset + size ≤ mem_size m') ∧
  (0 < size → offset + size ≤ MAX_MEMORY) ∧
  0 ≤ cost ∧ (∃ k, m' = m ++ replicate k 0) ∧
  cost = mem_cost (mem_size m' / 32) - mem_cost (mem_size m / 32).
Proof.
  intros (Hb & Hmod & Hmax) Ho Hs. unfold mem_ensure.
  assert (Hnop : wf_mem m) by done.
  destruct (size =? 0) eqn:E0; simp_bool.
  { intros [= <- <-]. repeat split; try done; try lia. exists O. by rewrite app_nil_r. }
  unfold checked_add64, U64_MAX. destruct (_ <=? _) eqn:E1; [|done]. simp_bool. cbn [ok_or outcome_bind].
  destruct (_ <? _) eqn:E2; [done|]. simp_bool. unfold MAX_MEMORY in *.
  assert (Hw : (mem_size m + 31) / 32 = mem_size m / 32).
  { pose proof (Z.div_mod (mem_size m) 32). symmetry. apply Z.div_unique with 31; lia. }
  rewrite Hw. pose proof (Z.div_mod (mem_size m) 32). pose proof (Z.div_mod (offset + size + 31) 32).
  pose proof (Z.mod_pos_bound (offset + size + 31) 32).
  assert (0 ≤ mem_size m / 32) by (apply Z.div_pos; unfold mem_size; lia).
  set (ow := mem_size m / 32) in *. set (nw := (offset + size + 31) / 32) in *.
  destruct (_ <? _) eqn:E3; simp_bool; intros [= <- <-].
  - assert (Hsz : mem_size (resize0 m (nw * 32)) = nw * 32) by (apply length_resize0; lia).
    unfold wf_mem, MAX_MEMORY. rewrite !Hsz, Z.mod_mul, Z.div_mul by lia.
    unfold memory_expansion_cost, saturating_sub.
    destruct (mem_cost_closed ow) as [-> Ho']; [lia|].
    destruct (mem_cost_closed nw) as [-> Hn']; [lia|].
    assert (ow * ow / 512 ≤ nw * nw / 512) by (apply Z.div_le_mono; nia).
    unfold U64_MAX. rewrite Z.max_r by lia.
    rewrite (proj2 (Z.ltb_ge _ _)) by lia.
    repeat split; try lia; try by apply wf_resize0.
    rewrite resize0_grow by (unfold mem_size in *; lia). eauto.
  - repeat split; try done; try lia; [exists O; by rewrite app_nil_r | fold ow; lia].
Qed.

Lemma ensure_np m offset size : mem_ensure m offset size ≠ Panic.
Proof.
  unfold mem_ensure. destruct (size =? 0); [done|]. destruct (checked_add64 _ _); [|done].
  cbn. by repeat case_match.
Qed.

Lemma read_spec m offset size :
  wf_mem m → 0 ≤ offset → 0 ≤ size → (0 < size → offset + size ≤ mem_size m) →
  mem_read m offset size = Ok (take (Z.to_nat size) (drop (Z.to_nat offset) m)).
Proof.
  intros (Hb & _ & Hmax) Ho Hs Hin. unfold mem_read, MAX_MEMORY, mem_size in *.
  destruct (_ <=? _) eqn:E; simp_bool.
  { destruct (decide (size = 0)) as [->|]; [done|]. lia. }
  destruct (decide (size = 0)) as [->|].
  - rewrite Z.add_0_r. unfold wrap64. rewrite Z.mod_small, Z.min_l by lia.
    rewrite slice_ok, Z.sub_diag by lia. done.
  - specialize (Hin ltac:(lia)). unfold wrap64. rewrite Z.mod_small, Z.min_l by lia.
    rewrite slice_ok by lia. cbn [outcome_bind]. f_equal.
    replace (offset + size - offset) with size by lia.
    rewrite resize0_grow by (rewrite length_take, length_drop; lia).
    rewrite length_take, length_drop.
    replace (_ - _)%nat with O by lia. by rewrite app_nil_r.
Qed.

Lemma write_spec m offset data :
  wf_mem m → 0 ≤ offset →
  (0 < Z.of_nat (length data) → offset + Z.of_nat (length data) ≤ mem_size m) →
  mem_write m offset data =
  Ok (if bool_decide (data = []) then m else
      take (Z.to_nat offset) m ++ data ++ drop (Z.to_nat offset + length data) m).
Proof.
  intros (Hb & _ & Hmax) Ho Hin. unfold mem_write. destruct (bool_decide _) eqn:E; [done|].
  apply bool_decide_eq_false in E. destruct data as [|d data]; [done|].
  unfold MAX_MEMORY, mem_size in *. specialize (Hin ltac:(cbn [length]; lia)).
  unfold saturating_add64, U64_MAX. rewrite Z.min_l by lia. dec_bool.
  do 4 f_equal. lia.
Qed.

Lemma length_write m offset (data : bytes) :
  0 ≤ offset → offset + Z.of_nat (length data) ≤ mem_size m →
  length (take (Z.to_nat offset) m ++ data ++ drop (Z.to_nat offset + length data) m) = length m.
Proof. intros. rewrite !length_app, length_take, length_drop. unfold mem_size in *. lia. Qed.

Lemma wf_write m offset data m' :
  wf_mem m → 0 ≤ offset → wf_bytes data →
  (0 < Z.of_nat (length data) → offset + Z.of_nat (length data) ≤ mem_size m) →
  mem_write m offset data = Ok m' → wf_mem m'.
Proof.
  intros Hm Ho Hd Hin. rewrite write_spec by done. intros [= <-].
  destruct (bool_decide _) eqn:E; [done|]. apply bool_decide_eq_false in E.
  destruct Hm as (Hb & Hmod & Hmax).
  assert (0 < Z.of_nat (length data)) by (destruct data; [done | cbn [length]; lia]).
  unfold wf_mem, mem_size. rewrite length_write by auto. repeat split; try done.
  apply Forall_app. split; [by apply wf_bytes_take|]. apply Forall_app.
  split; [done | by apply wf_bytes_drop].
Qed.

(** ** Properties *)

(** The range [offset, offset + size) of a memory, out of range bytes being 0. *)
Definition mem_range (m : Memory) (offset size : Z) : bytes :=
  map (fun i => default 0 (m !! (Z.to_nat offset + i)%nat)) (seq 0 (Z.to_nat size)).

Lemma mem_range_take m offset size :
  0 ≤ offset → 0 ≤ size → (0 < size → offset + size ≤ mem_size m) →
  take (Z.to_nat size) (drop (Z.to_nat offset) m) = mem_range m offset size.
Proof.
  intros Ho Hs Hin. unfold mem_range, mem_size in *. apply list_eq. intros i.
  rewrite list_lookup_fmap. destruct (decide (i < Z.to_nat size)%nat).
  - rewrite lookup_take_lt, lookup_drop, lookup_seq_lt by lia. cbn.
    destruct (lookup_lt_is_Some_2 m (Z.to_nat offset + i)) as [x ->]; [lia|]. done.
  - rewrite lookup_take_ge, lookup_seq_ge by lia. done.
Qed.

(** [ensure] followed by [write] followed by [read]: once [ensure] has
    accepted the range of a non-empty write, the write succeeds (the panic of
    [Memory::write] is unreachable), the memory keeps its word alignment and
    its 32 MB bound, reading the range back gives the data, and every byte
    outside the range is what it was (0 where memory was extended). *)
Theorem memory_read_after_write m offset data cost m1 :
  wf_mem m → is_u64 offset → wf_bytes data →
  mem_ensure m offset (Z.of_nat (length data)) = Ok (cost, m1) →
  ∃ m2, mem_write m1 offset data = Ok m2 ∧ wf_mem m2 ∧
    mem_read m2 offset (Z.of_nat (length data)) = Ok data ∧
    mem_size m2 = mem_size m1 ∧ mem_size m ≤ mem_size m1 ∧
    ∀ i, (i < Z.to_nat offset ∨ Z.to_nat offset + length data ≤ i)%nat →
         default 0 (m2 !! i) = default 0 (m !! i).
Proof.
  intros Hm [Ho _] Hd He.
  destruct (ensure_spec _ _ _ _ _ Hm Ho (Nat2Z.is_nonneg _) He) as (Hm1 & Hin & _ & _ & [k ->] & _).
  assert (Hold : ∀ i, default 0 ((m ++ replicate k 0) !! i) = default 0 (m !! i)).
  { intros i. destruct (decide (i < length m)%nat); [by rewrite lookup_app_l|].
    rewrite lookup_app_r, (lookup_ge_None_2 m) by lia.
    destruct (decide (i - length m < k)%nat);
      [by rewrite lookup_replicate_2
      |by rewrite lookup_ge_None_2 by (rewrite length_replicate; lia)]. }
  rewrite write_spec by done. eexists. split; [done|].
  assert (Hwf : wf_mem (if bool_decide (data = []) then m ++ replicate k 0 else
    take (Z.to_nat offset) (m ++ replicate k 0) ++ data ++
    drop (Z.to_nat offset + length data) (m ++ replicate k 0))).
  { eapply (wf_write (m ++ replicate k 0) offset data); try done. by apply write_spec. }
  split; [done|]. destruct data as [|d data].
  - rewrite bool_decide_true in * by done. cbn [length] in *.
    rewrite read_spec by (done || lia). cbn. repeat split; try done.
    unfold mem_size. rewrite length_app. lia.
  - rewrite bool_decide_false in * by done. set (dd := d :: data) in *.
    set (mm := m ++ replicate k 0) in *.
    assert (0 < Z.of_nat (length dd)) by (subst dd; cbn [length]; lia).
    specialize (Hin ltac:(lia)).
    assert (Hlen : (Z.to_nat offset + length dd ≤ length mm)%nat) by (unfold mem_size in Hin; lia).
    rewrite read_spec; [|done|done|lia|unfold mem_size in *; rewrite length_write by done; lia].
    repeat split.
    + f_equal. rewrite drop_app_ge by (rewrite length_take; lia).
      rewrite length_take. replace (_ - _)%nat with O by lia.
      rewrite drop_0, take_app_le, Nat2Z.id by lia. apply firstn_all.
    + unfold mem_size. by rewrite length_write by done.
    + subst mm. unfold mem_size. rewrite length_app. lia.
    + intros i Hi. rewrite <- Hold. fold mm. destruct Hi as [Hi|Hi].
      * rewrite lookup_app_l by (rewrite length_take; lia). by rewrite lookup_take_lt.
      * rewrite lookup_app_r by (rewrite length_take; lia).
        rewrite lookup_app_r by (rewrite length_take; lia).
        rewrite lookup_drop, length_take. do 2 f_equal. lia.
Qed.

Lemma memory_read_after_write_witness :
  ∃ m2, mem_write (replicate 64 0) 33 [7; 8] = Ok m2 ∧ wf_mem m2 ∧
    mem_read m2 33 2 = Ok [7; 8] ∧ mem_size m2 = 64 ∧ 32 ≤ 64 ∧
    ∀ i, (i < 33 ∨ 35 ≤ i)%nat → default 0 (m2 !! i) = default 0 (replicate 32 0 !! i).
Proof.
  apply (memory_read_after_write (replicate 32 0) 33 [7; 8] 3 (replicate 64 0));
    [repeat split; [apply wf_replicate0 | vm_compute; discriminate] | unfold is_u64; lia
    | repeat constructor; unfold is_u8; lia | vm_compute; reflexivity].
Defined.

(** The charges of a sequence of [ensure] calls, added up. *)
Fixpoint ensure_all (m : Memory) (ranges : list (Z * Z)) : outcome EvmError (Z * Memory) :=
  match ranges with
  | [] => Ok (0, m)
  | (offset, size) :: rest =>
      let? '(c, m1) := mem_ensure m offset size in
      let? '(c', m2) := ensure_all m1 rest in
      Ok (c + c', m2)
  end.

(** Memory gas is path independent. However a program grows its memory,
    the charges of the successive [ensure] calls add up to
    [C(after) - C(before)] with [C(w) = 3 w + w^2 / 512] over 32-byte words,
    the figure of the documentation; no saturation or wrap-around is reached
    below the 32 MB bound. *)
Theorem memory_gas_path_independent ranges m total m' :
  wf_mem m → Forall (fun r => is_u64 r.1 ∧ is_u64 r.2) ranges →
  ensure_all m ranges = Ok (total, m') →
  wf_mem m' ∧
  let C w := 3 * w + w * w / 512 in
  total = C (mem_size m' / 32) - C (mem_size m / 32).
Proof.
  revert m total. induction ranges as [|[o s] ranges IH]; intros m total Hm Hr; cbn [ensure_all].
  - intros [= <- <-]. split; [done|lia].
  - apply Forall_cons in Hr as [[Ho Hs] Hr]. intros H.
    apply bind_Ok_inv in H as ([c m1] & H1 & H). apply bind_Ok_inv in H as ([c' m2] & H2 & [= <- <-]).
    unfold is_u64 in *. cbn in Ho, Hs.
    destruct (ensure_spec _ _ _ _ _ Hm (proj1 Ho) (proj1 Hs) H1) as (Hm1 & _ & _ & _ & _ & ->).
    destruct (IH _ _ Hm1 Hr H2) as [Hm2 ->]. split; [done|].
    assert (Hw : ∀ m, wf_mem m → 0 ≤ mem_size m / 32 ≤ 1048576).
    { intros m0 (_ & _ & Hmax). unfold MAX_MEMORY, mem_size in *. split; [apply Z.div_pos; lia|].
      apply Z.div_le_upper_bound; lia. }
    rewrite !(fun x H => proj1 (mem_cost_closed x H)) by auto. lia.
Qed.

Lemma memory_gas_path_independent_witness :
  wf_mem (replicate 160 0) ∧ 15 = (3 * (160 / 32) + (160 / 32) * (160 / 32) / 512) - (3 * 0 + 0 * 0 / 512).
Proof.
  apply (memory_gas_path_independent [(0, 32); (100, 40); (3, 20)] [] 15 (replicate 160 0));
    [repeat split; [constructor | vm_compute; discriminate]
    | repeat constructor; cbn; lia | vm_compute; reflexivity].
Defined.
End EvmBase.
