(* ===== verification/EvmHost.v ===== *)
(** * The EVM's view of chain state: the [Host] trait and [MockHost]

    Models [crates/zbx-evm/src/host.rs] (and the slot helpers of
    [crates/zbx-types/src/payid.rs] it uses). The trait is the class [Host];
    what its documentation promises to the interpreter (journalling, nested
    snapshots, checked nonces) is the class [HostLaws], against which the
    interpreter is verified; [MockHost], the implementation in the
    repository, is an instance of both. [keccak256] lives in a third-party
    crate and is the class [Keccak]. *)

From S2P Require Import Prelude.
From S2P Require Import U256.
From S2P Require Import EvmBase.

Module EvmHost.
Import U256 EvmBase.

(** [zbx_crypto::keccak::keccak256] (sha3 crate): a function to 32 bytes. *)
Class Keccak := keccak256 : bytes → word.
(** SHA3-256 of the [sha3] crate. *)
Class Sha3 := sha3_256 : bytes → bytes.
Class KeccakOk `{Keccak} := keccak_wf : ∀ b, wf_word (keccak256 b).

(** ** The trait *)

Class Host (H : Type) := {
  balance : H → address → word;
  nonce : H → address → Z;
  code : H → address → bytes;
  code_hash : H → address → word;
  storage_load : H → address → word → word;
  storage_store : H → address → word → word → H;
  set_code : H → address → bytes → H;
  inc_nonce : H → address → outcome EvmError Z * H;
  transfer : H → address → address → word → outcome EvmError unit * H;
  is_empty : H → address → bool;
  destruct_account : H → address → address → H;
  mark_created_this_tx : H → address → H;
  was_created_this_tx : H → address → bool;
  snapshot : H → Z * H;
  revert_to : H → Z → H;
  commit : H → Z → H;
  resolve_pay_id_bytes : H → bytes → option address;
  reverse_pay_id : H → address → option bytes
}.

(** What the trait's documentation promises. [hworld] is the chain state that
    reads observe and snapshots capture; [hsnaps] the open snapshots, most
    recent first. *)
Class HostLaws (H : Type) `{Host H} := {
  World : Type;
  hworld : H → World;
  hsnaps : H → list (Z * World);
  hinv : H → Prop;

  balance_wf h a : hinv h → wf_word (balance h a);
  nonce_u64 h a : hinv h → is_u64 (nonce h a);
  code_wf h a : hinv h → wf_bytes (code h a);
  code_hash_wf h a : hinv h → wf_word (code_hash h a);
  storage_load_wf h a k : hinv h → wf_word (storage_load h a k);

  storage_store_inv h a k v : hinv h → wf_word v → hinv (storage_store h a k v);
  set_code_inv h a c : hinv h → wf_bytes c → hinv (set_code h a c);
  inc_nonce_inv h a : hinv h → hinv (inc_nonce h a).2;
  transfer_inv h a b v : hinv h → wf_word v → hinv (transfer h a b v).2;
  destruct_inv h a b : hinv h → hinv (destruct_account h a b);
  mark_inv h a : hinv h → hinv (mark_created_this_tx h a);
  snapshot_inv h : hinv h → hinv (snapshot h).2;
  revert_inv h i : hinv h → hinv (revert_to h i);
  commit_inv h i : hinv h → hinv (commit h i);

  (** Snapshots stack. *)
  snapshot_world h : hworld (snapshot h).2 = hworld h;
  snapshot_snaps h : hsnaps (snapshot h).2 = ((snapshot h).1, hworld h) :: hsnaps h;
  revert_world h i w rest : hsnaps h = (i, w) :: rest → hworld (revert_to h i) = w;
  revert_snaps h i w rest : hsnaps h = (i, w) :: rest → hsnaps (revert_to h i) = rest;
  commit_world h i : hworld (commit h i) = hworld h;
  commit_snaps h i w rest : hsnaps h = (i, w) :: rest → hsnaps (commit h i) = rest;

  (** State changes leave the open snapshots alone. *)
  storage_store_snaps h a k v : hsnaps (storage_store h a k v) = hsnaps h;
  set_code_snaps h a c : hsnaps (set_code h a c) = hsnaps h;
  inc_nonce_snaps h a : hsnaps (inc_nonce h a).2 = hsnaps h;
  transfer_snaps h a b v : hsnaps (transfer h a b v).2 = hsnaps h;
  destruct_snaps h a b : hsnaps (destruct_account h a b) = hsnaps h;
  mark_snaps h a : hsnaps (mark_created_this_tx h a) = hsnaps h;

  (** Reads depend on the chain state only. *)
  reads_world h h' a k : hworld h = hworld h' →
    balance h a = balance h' a ∧ nonce h a = nonce h' a ∧ code h a = code h' a ∧
    storage_load h a k = storage_load h' a k ∧
    was_created_this_tx h a = was_created_this_tx h' a;

  (** Nonces are checked, and no other operation touches them. *)
  inc_nonce_spec h a : hinv h →
    (inc_nonce h a).1 =
    (if nonce h a =? U64_MAX then Err NonceOverflow else Ok (nonce h a + 1));
  inc_nonce_err h a : nonce h a = U64_MAX → hinv h → hworld (inc_nonce h a).2 = hworld h;
  transfer_nonce h a b v c : nonce (transfer h a b v).2 c = nonce h c;
  snapshot_nonce h a : nonce (snapshot h).2 a = nonce h a
}.

(** ** PayID registrar slots (zbx-types/src/payid.rs) *)

Section PayId.
Context `{Keccak}.

Definition PAYID_REGISTRAR_ADDR : address := replicate 19 0 ++ [0xC0].

(** [b"payid/"] and [b"payid_rev/"] *)
Definition payid_forward_slot (name : bytes) : word :=
  keccak256 ([112; 97; 121; 105; 100; 47] ++ name).
Definition payid_reverse_slot (addr : address) : word :=
  keccak256 ([112; 97; 121; 105; 100; 95; 114; 101; 118; 47] ++ addr).

Definition validate_payid_name (name : bytes) : bool :=
  let n := Z.of_nat (length name) in
  if negb ((3 <=? n) && (n <=? 32)) then false else
  forallb (fun c => ((97 <=? c) && (c <=? 122)) || ((48 <=? c) && (c <=? 57))
                    || (c =? 46) || (c =? 95) || (c =? 45)) name.
End PayId.

(** ** MockHost *)

Record MockAccount := mkAccount {
  acc_balance : word;
  acc_nonce : Z;
  acc_code : bytes;
  acc_storage : gmap (list Z) (list Z)
}.

Definition default_account : MockAccount := mkAccount zero 0 [] ∅.

Record MockSnapshot := mkSnapshot {
  snap_id : Z;
  snap_accounts : gmap (list Z) MockAccount;
  snap_created : gset (list Z)
}.

(** [mh_snapshots] is the [Vec] of the source with its last element first. *)
Record MockHost := mkMock {
  mh_accounts : gmap (list Z) MockAccount;
  mh_created : gset (list Z);
  mh_snapshots : list MockSnapshot;
  mh_next_id : Z
}.

Definition mock_new : MockHost := mkMock ∅ ∅ [] 1.

(** [self.accounts.entry(addr).or_default()] *)
Definition entry (h : MockHost) (addr : address) : MockAccount :=
  default default_account (mh_accounts h !! addr).

Definition put (h : MockHost) (addr : address) (a : MockAccount) : MockHost :=
  mkMock (<[addr := a]> (mh_accounts h)) (mh_created h) (mh_snapshots h) (mh_next_id h).

Definition with_balance (a : MockAccount) (b : word) : MockAccount :=
  mkAccount b (acc_nonce a) (acc_code a) (acc_storage a).
Definition with_code (a : MockAccount) (c : bytes) : MockAccount :=
  mkAccount (acc_balance a) (acc_nonce a) c (acc_storage a).
Definition with_nonce (a : MockAccount) (n : Z) : MockAccount :=
  mkAccount (acc_balance a) n (acc_code a) (acc_storage a).
Definition with_storage (a : MockAccount) (s : gmap (list Z) (list Z)) : MockAccount :=
  mkAccount (acc_balance a) (acc_nonce a) (acc_code a) s.

(** The private byte loops of host.rs, the same as those of stack.rs. *)
Definition host_u256_add (a b : word) : word := fst (add_loop a b).
Definition host_u256_sub (a b : word) : word := fst (sub_loop a b).

Definition install_code (h : MockHost) (addr : address) (c : bytes) : MockHost :=
  put h addr (with_code (entry h addr) c).
Definition credit (h : MockHost) (addr : address) (value : word) : MockHost :=
  put h addr (with_balance (entry h addr) (host_u256_add (acc_balance (entry h addr)) value)).
Definition set_nonce (h : MockHost) (addr : address) (n : Z) : MockHost :=
  put h addr (with_nonce (entry h addr) n).

Definition mock_balance (h : MockHost) (addr : address) : word := acc_balance (entry h addr).
Definition mock_nonce (h : MockHost) (addr : address) : Z := acc_nonce (entry h addr).
Definition mock_code (h : MockHost) (addr : address) : bytes := acc_code (entry h addr).
Definition mock_code_hash `{Keccak} (h : MockHost) (addr : address) : word :=
  let c := mock_code h addr in
  if bool_decide (c = []) then zero else keccak256 c.
Definition mock_storage_load (h : MockHost) (addr : address) (key : word) : word :=
  default zero (acc_storage (entry h addr) !! key).
Definition mock_storage_store (h : MockHost) (addr : address) (key value : word) : MockHost :=
  put h addr (with_storage (entry h addr) (<[key := value]> (acc_storage (entry h addr)))).
Definition mock_set_code (h : MockHost) (addr : address) (c : bytes) : MockHost :=
  put h addr (with_code (entry h addr) c).

(** [entry().or_default()] has inserted the account when the addition fails. *)
Definition mock_inc_nonce (h : MockHost) (addr : address) : outcome EvmError Z * MockHost :=
  let e := entry h addr in
  match checked_add64 (acc_nonce e) 1 with
  | None => (Err NonceOverflow, put h addr e)
  | Some n => (Ok n, put h addr (with_nonce e n))
  end.

Definition mock_transfer (h : MockHost) (from to : address) (value : word)
    : outcome EvmError unit * MockHost :=
  if bool_decide (value = zero) then (Ok tt, h) else
  let from_bal := mock_balance h from in
  if lex_lt from_bal value then (Err InsufficientBalance, h) else
  let new_from_bal := host_u256_sub from_bal value in
  let to_bal := mock_balance h to in
  let new_to_bal := host_u256_add to_bal value in
  let h1 := put h from (with_balance (entry h from) new_from_bal) in
  let h2 := put h1 to (with_balance (entry h1 to) new_to_bal) in
  (Ok tt, h2).

Definition mock_is_empty (h : MockHost) (addr : address) : bool :=
  match mh_accounts h !! addr with
  | None => true
  | Some a => (acc_nonce a =? 0) && bool_decide (acc_balance a = zero) && bool_decide (acc_code a = [])
  end.

Definition mock_was_created (h : MockHost) (addr : address) : bool :=
  bool_decide (addr ∈ mh_created h).

Definition mock_destruct (h : MockHost) (addr beneficiary : address) : MockHost :=
  let bal := mock_balance h addr in
  let h1 :=
    if bool_decide (bal = zero) then h
    else if bool_decide (addr = beneficiary) then h
    else (mock_transfer h addr beneficiary bal).2 in
  if mock_was_created h1 addr then
    match mh_accounts h1 !! addr with
    | Some _ => put h1 addr default_account
    | None => h1
    end
  else h1.

Definition mock_mark_created (h : MockHost) (addr : address) : MockHost :=
  mkMock (mh_accounts h) ({[addr]} ∪ mh_created h) (mh_snapshots h) (mh_next_id h).

Definition mock_resolve_pay_id `{Keccak} (h : MockHost) (name : bytes) : option address :=
  if negb (validate_payid_name name) then None else
  let w := mock_storage_load h PAYID_REGISTRAR_ADDR (payid_forward_slot name) in
  if forallb (fun b => b =? 0) w then None else Some (drop 12 w).

Definition mock_reverse_pay_id `{Keccak} (h : MockHost) (addr : address) : option bytes :=
  let w := mock_storage_load h PAYID_REGISTRAR_ADDR (payid_reverse_slot addr) in
  if forallb (fun b => b =? 0) w then None else
  let len := match list_find (fun b => b = 0) w with Some (i, _) => i | None => 32%nat end in
  Some (take len w).

Definition mock_snapshot (h : MockHost) : Z * MockHost :=
  let id := mh_next_id h in
  (id, mkMock (mh_accounts h) (mh_created h)
         (mkSnapshot id (mh_accounts h) (mh_created h) :: mh_snapshots h)
         (wrap64 (mh_next_id h + 1))).

(** [rposition] on the [Vec] is the first match here; [remove] and [truncate]
    keep what lies below it. *)
Definition mock_revert_to (h : MockHost) (id : Z) : MockHost :=
  match list_find (fun s => snap_id s = id) (mh_snapshots h) with
  | Some (pos, s) =>
      mkMock (snap_accounts s) (snap_created s) (drop (S pos) (mh_snapshots h)) (mh_next_id h)
  | None => h
  end.

Definition mock_commit (h : MockHost) (id : Z) : MockHost :=
  match list_find (fun s => snap_id s = id) (mh_snapshots h) with
  | Some (pos, _) =>
      mkMock (mh_accounts h) (mh_created h)
        (take pos (mh_snapshots h) ++ drop (S pos) (mh_snapshots h)) (mh_next_id h)
  | None => h
  end.

#[export] Instance mock_host `{Keccak} : Host MockHost := {|
  balance := mock_balance;
  nonce := mock_nonce;
  code := mock_code;
  code_hash := mock_code_hash;
  storage_load := mock_storage_load;
  storage_store := mock_storage_store;
  set_code := mock_set_code;
  inc_nonce := mock_inc_nonce;
  transfer := mock_transfer;
  is_empty := mock_is_empty;
  destruct_account := mock_destruct;
  mark_created_this_tx := mock_mark_created;
  was_created_this_tx := mock_was_created;
  snapshot := mock_snapshot;
  revert_to := mock_revert_to;
  commit := mock_commit;
  resolve_pay_id_bytes := mock_resolve_pay_id;
  reverse_pay_id := mock_reverse_pay_id
|}.

(** ** MockHost satisfies the laws *)

Definition wf_account (a : MockAccount) : Prop :=
  wf_word (acc_balance a) ∧ is_u64 (acc_nonce a) ∧ wf_bytes (acc_code a) ∧
  map_Forall (fun _ v => wf_word v) (acc_storage a).

Definition wf_accounts (m : gmap (list Z) MockAccount) : Prop := map_Forall (fun _ a => wf_account a) m.

Definition mock_inv (h : MockHost) : Prop :=
  wf_accounts (mh_accounts h) ∧ Forall (fun s => wf_accounts (snap_accounts s)) (mh_snapshots h).

Definition mock_world (h : MockHost) : gmap (list Z) MockAccount * gset (list Z) :=
  (mh_accounts h, mh_created h).
Definition mock_snaps (h : MockHost) : list (Z * (gmap (list Z) MockAccount * gset (list Z))) :=
  map (fun s => (snap_id s, (snap_accounts s, snap_created s))) (mh_snapshots h).

Lemma wf_default_account : wf_account default_account.
Proof.
  split; [apply wf_zero|]. split; [unfold is_u64; simpl; lia|]. split; [constructor|].
  apply map_Forall_empty.
Qed.

Lemma wf_entry h a : mock_inv h → wf_account (entry h a).
Proof.
  intros [Ha _]. unfold entry. destruct (mh_accounts h !! a) eqn:E; [by apply (Ha a)|].
  apply wf_default_account.
Qed.

Lemma put_inv h a acc : mock_inv h → wf_account acc → mock_inv (put h a acc).
Proof. intros [Ha Hs] Hacc. split; [by apply map_Forall_insert_2 | done]. Qed.

Lemma entry_put h a acc b : entry (put h a acc) b = if decide (a = b) then acc else entry h b.
Proof.
  unfold entry, put. simpl. destruct (decide (a = b)) as [->|]; [by rewrite lookup_insert_eq|].
  by rewrite lookup_insert_ne.
Qed.

Lemma with_balance_wf a b : wf_account a → wf_word b → wf_account (with_balance a b).
Proof. intros (?&?&?&?) ?. done. Qed.

#[local] Hint Resolve wf_entry put_inv wf_default_account with_balance_wf : zbx.

Lemma mock_transfer_inv h a b v : mock_inv h → wf_word v → mock_inv (mock_transfer h a b v).2.
Proof.
  intros Hh Hv. unfold mock_transfer. do 2 (case_match; [done|]). cbn [snd].
  assert (∀ x, wf_word (mock_balance h x)) by (intros; by apply wf_entry).
  assert (mock_inv (put h a (with_balance (entry h a) (host_u256_sub (mock_balance h a) v))))
    by (apply put_inv, with_balance_wf; auto with zbx; by apply sub_wf).
  apply put_inv, with_balance_wf; auto with zbx. by apply add_wf.
Qed.

Lemma mock_inc_nonce_inv h a : mock_inv h → mock_inv (mock_inc_nonce h a).2.
Proof.
  intros Hh. unfold mock_inc_nonce, checked_add64, U64_MAX. destruct (wf_entry h a Hh) as (?&[??]&?&?).
  case_if; cbn [snd]; apply put_inv; try done. split; [done|]. split; [|done].
  unfold is_u64. simpl. lia.
Qed.

Lemma mock_destruct_inv h a b : mock_inv h → mock_inv (mock_destruct h a b).
Proof.
  intros Hh. unfold mock_destruct. set (h1 := if bool_decide (_ = zero) then _ else _).
  assert (mock_inv h1).
  { subst h1. repeat case_match; try done. apply mock_transfer_inv; [done|]. by apply wf_entry. }
  repeat case_match; auto with zbx.
Qed.

Lemma list_find_head {A} (P : A → Prop) `{∀ x, Decision (P x)} x l :
  P x → list_find P (x :: l) = Some (O, x).
Proof. intros. cbn. by rewrite decide_True. Qed.

Lemma mock_snaps_cons h i w rest :
  mock_snaps h = (i, w) :: rest →
  ∃ s l, mh_snapshots h = s :: l ∧ snap_id s = i ∧ w = (snap_accounts s, snap_created s) ∧
         rest = map (fun s => (snap_id s, (snap_accounts s, snap_created s))) l.
Proof.
  unfold mock_snaps. destruct (mh_snapshots h) as [|s l]; [done|]. cbn. intros [= <- <- <-].
  by exists s, l.
Qed.

Lemma mock_revert_top h i w rest :
  mock_snaps h = (i, w) :: rest →
  mock_world (mock_revert_to h i) = w ∧ mock_snaps (mock_revert_to h i) = rest.
Proof.
  intros (s & l & Hs & Hi & -> & ->)%mock_snaps_cons. unfold mock_revert_to, mock_snaps.
  by rewrite Hs, list_find_head by done.
Qed.

Lemma mock_commit_top h i w rest :
  mock_snaps h = (i, w) :: rest → mock_snaps (mock_commit h i) = rest.
Proof.
  intros (s & l & Hs & Hi & -> & ->)%mock_snaps_cons. unfold mock_commit, mock_snaps.
  by rewrite Hs, list_find_head by done.
Qed.

Lemma mock_revert_inv h i : mock_inv h → mock_inv (mock_revert_to h i).
Proof.
  intros [Ha Hs]. unfold mock_revert_to. destruct (list_find _ _) as [[pos s]|] eqn:E; [|done].
  apply list_find_Some in E as (E & _ & _). split; simpl; [|by apply Forall_drop].
  by apply (Forall_lookup_1 _ _ _ _ Hs E).
Qed.

Lemma mock_commit_inv h i : mock_inv h → mock_inv (mock_commit h i).
Proof.
  intros [Ha Hs]. unfold mock_commit. destruct (list_find _ _) as [[pos s]|] eqn:E; [|done].
  split; simpl; [done|]. apply Forall_app. split; [by apply Forall_take | by apply Forall_drop].
Qed.

Lemma mock_transfer_snapshots h a b v : mh_snapshots (mock_transfer h a b v).2 = mh_snapshots h.
Proof. unfold mock_transfer. by repeat case_match. Qed.

Lemma mock_transfer_nonce h a b v c : mock_nonce (mock_transfer h a b v).2 c = mock_nonce h c.
Proof.
  unfold mock_transfer, mock_nonce. do 2 (case_match; [done|]). cbn [snd].
  rewrite !entry_put. repeat (case_decide; subst); simpl; try done; congruence.
Qed.

Lemma mock_inc_nonce_snaps h a : mh_snapshots (mock_inc_nonce h a).2 = mh_snapshots h.
Proof. unfold mock_inc_nonce. by case_match. Qed.

Lemma mock_destruct_snapshots h a b : mh_snapshots (mock_destruct h a b) = mh_snapshots h.
Proof. unfold mock_destruct. repeat case_match; simpl; try done; apply mock_transfer_snapshots. Qed.

Lemma mock_inc_nonce_result h a : mock_inv h →
  (mock_inc_nonce h a).1 =
  if mock_nonce h a =? U64_MAX then Err NonceOverflow else Ok (mock_nonce h a + 1).
Proof.
  intros Hh. destruct (wf_entry h a Hh) as (_ & [??] & _). unfold mock_inc_nonce, mock_nonce, checked_add64, U64_MAX.
  do 2 case_if; try done; lia.
Qed.

Lemma mock_inc_nonce_err h a : mock_nonce h a = U64_MAX →
  mock_world (mock_inc_nonce h a).2 = mock_world h.
Proof.
  unfold mock_inc_nonce, mock_nonce, mock_world, checked_add64. intros Hn. rewrite Hn.
  unfold U64_MAX. dec_bool. cbn [snd put mh_accounts mh_created]. f_equal. apply insert_id.
  unfold entry in *. destruct (mh_accounts h !! a); [done|]. by apply (f_equal (Z.eqb 0)) in Hn.
Qed.

Lemma mock_store_inv h a k v : mock_inv h → wf_word v → mock_inv (mock_storage_store h a k v).
Proof.
  intros Hh Hv. apply put_inv; [done|]. destruct (wf_entry h a Hh) as (?&?&?&?).
  split; [done|]. split; [done|]. split; [done|]. by apply map_Forall_insert_2.
Qed.

Lemma mock_set_code_inv h a c : mock_inv h → wf_bytes c → mock_inv (mock_set_code h a c).
Proof. intros Hh Hc. apply put_inv; [done|]. destruct (wf_entry h a Hh) as (?&?&?&?). done. Qed.

Lemma mock_load_wf h a k : mock_inv h → wf_word (mock_storage_load h a k).
Proof.
  intros Hh. unfold mock_storage_load. destruct (acc_storage (entry h a) !! k) eqn:E;
    [|apply wf_zero]. destruct (wf_entry h a Hh) as (_&_&_&Hs). by apply (Hs k).
Qed.

#[export] Instance mock_host_laws `{KeccakOk} : HostLaws MockHost.
Proof.
  refine {| hworld := mock_world; hsnaps := mock_snaps; hinv := mock_inv |};
    cbn [balance nonce code code_hash storage_load storage_store set_code inc_nonce transfer
         destruct_account mark_created_this_tx was_created_this_tx snapshot revert_to commit mock_host].
  all: try (intros; unfold mock_snaps;
    first [ apply (f_equal _ (mock_transfer_snapshots _ _ _ _))
          | apply (f_equal _ (mock_inc_nonce_snaps _ _))
          | apply (f_equal _ (mock_destruct_snapshots _ _ _)) ]).
  all: try (intros; eauto using mock_transfer_inv, mock_inc_nonce_inv, mock_destruct_inv,
    mock_revert_inv, mock_commit_inv, mock_transfer_nonce, mock_inc_nonce_result,
    mock_inc_nonce_err, mock_store_inv, mock_set_code_inv, mock_load_wf, mock_commit_top; done).
  - intros h a Hh. apply (wf_entry h a Hh).
  - intros h a Hh. apply (wf_entry h a Hh).
  - intros h a Hh. apply (wf_entry h a Hh).
  - intros h a Hh. unfold mock_code_hash. case_match; [apply wf_zero | apply keccak_wf].
  - intros h [Ha Hs]. split; [done|]. by constructor.
  - intros h i w rest Hs. by apply mock_revert_top with rest.
  - intros h i w rest Hs. by apply mock_revert_top with w.
  - intros h i. unfold mock_commit. by destruct (list_find _ _) as [[??]|].
  - intros h h' a k Hw. unfold mock_world in Hw. injection Hw as Hacc Hcr.
    unfold mock_balance, mock_nonce, mock_code, mock_storage_load, mock_was_created, entry.
    by rewrite Hacc, Hcr.
Defined.

(** ** Properties *)

(** [MockHost::transfer] between two accounts moves exactly the value: it
    fails without any effect iff the sender cannot cover it, and otherwise
    debits the sender and credits the receiver (modulo 2^256), so their sum is
    preserved whenever the receiver's balance does not overflow; the other
    balances and every nonce, code and storage slot are unchanged. *)
Theorem transfer_moves_value h from to v :
  mock_inv h → wf_word v → from ≠ to →
  let r := mock_transfer h from to v in
  if be_val (mock_balance h from) <? be_val v then r = (Err InsufficientBalance, h)
  else r.1 = Ok tt ∧
    be_val (mock_balance r.2 from) = be_val (mock_balance h from) - be_val v ∧
    be_val (mock_balance r.2 to) = (be_val (mock_balance h to) + be_val v) mod W ∧
    (∀ a, a ≠ from → a ≠ to → mock_balance r.2 a = mock_balance h a) ∧
    (∀ a, mock_nonce r.2 a = mock_nonce h a ∧ mock_code r.2 a = mock_code h a) ∧
    ∀ a k, mock_storage_load r.2 a k = mock_storage_load h a k.
Proof.
  intros Hh Hv Hne. cbv zeta. unfold mock_transfer.
  assert (Hb : ∀ a, wf_word (mock_balance h a)) by (intros; by apply wf_entry).
  pose proof (wf_word_bound _ (Hb from)). pose proof (wf_word_bound _ (Hb to)).
  pose proof (wf_word_bound _ Hv) as Hvb. rewrite lex_lt_spec by (apply Hb || apply Hv || by rewrite (proj1 (Hb _)), (proj1 Hv)).
  destruct (bool_decide (v = zero)) eqn:Hz.
  { apply bool_decide_eq_true in Hz as ->. rewrite val_zero. dec_bool.
    cbn [fst snd]. rewrite Z.sub_0_r, Z.add_0_r, Z.mod_small by lia. done. }
  destruct (_ <? _) eqn:Hlt; [done|]. simp_bool. cbn [fst snd]. split; [done|].
  unfold mock_balance, mock_nonce, mock_code, mock_storage_load.
  repeat split; intros; rewrite !entry_put; repeat case_decide; subst; try done; cbn [acc_balance with_balance].
  - etransitivity; [apply (sub_val _ _ (Hb from) Hv)|]. apply Z.mod_small. unfold mock_balance in *. lia.
  - exact (add_val _ _ (Hb to) Hv).
Qed.

Lemma transfer_moves_value_witness :
  let a := replicate 19 0 ++ [1] in
  let b := replicate 19 0 ++ [2] in
  let h := credit mock_new a (u256_from_u64 100) in
  let r := mock_transfer h a b (u256_from_u64 40) in
  r.1 = Ok tt ∧ be_val (mock_balance r.2 a) = 60 ∧ be_val (mock_balance r.2 b) = 40.
Proof.
  intros a b h r.
  assert (Hh : mock_inv h).
  { apply put_inv; [split; [apply map_Forall_empty | constructor]|].
    apply with_balance_wf; [apply wf_default_account|]. apply add_wf; [apply wf_zero|].
    by apply from_u64_spec. }
  assert (Hv : wf_word (u256_from_u64 40)) by (by apply from_u64_spec).
  pose proof (transfer_moves_value h a b (u256_from_u64 40) Hh Hv ltac:(discriminate)) as T.
  assert (E : (be_val (mock_balance h a) <? be_val (u256_from_u64 40)) = false) by (vm_compute; reflexivity).
  cbv zeta in T. rewrite E in T. destruct T as (T1 & T2 & T3 & _).
  split; [exact T1|]. split; [etransitivity; [exact T2|] | etransitivity; [exact T3|]]; vm_compute; reflexivity.
Defined.

(** A transfer from an account to itself is not neutral: the debit is
    overwritten by the credit computed before it, so the account ends up with
    its balance plus the value. *)
Theorem transfer_to_self_mints h a v :
  mock_inv h → wf_word v → v ≠ zero → be_val v ≤ be_val (mock_balance h a) →
  be_val (mock_balance (mock_transfer h a a v).2 a) =
  (be_val (mock_balance h a) + be_val v) mod W.
Proof.
  intros Hh Hv Hz Hle. assert (Hb : wf_word (mock_balance h a)) by (by apply wf_entry).
  unfold mock_transfer. rewrite bool_decide_false by done.
  rewrite lex_lt_spec by (apply Hb || apply Hv || by rewrite (proj1 Hb), (proj1 Hv)).
  dec_bool. cbn [snd]. unfold mock_balance at 1. rewrite entry_put, decide_True by done.
  exact (add_val _ _ Hb Hv).
Qed.

Lemma transfer_to_self_mints_witness :
  let a := replicate 19 0 ++ [1] in
  let h := credit mock_new a (u256_from_u64 100) in
  be_val (mock_balance (mock_transfer h a a (u256_from_u64 40)).2 a) = (100 + 40) mod W.
Proof.
  intros a h.
  apply (transfer_to_self_mints h a (u256_from_u64 40)); [|by apply from_u64_spec
    |discriminate|vm_compute; discriminate].
  apply put_inv; [split; [apply map_Forall_empty | constructor]|].
  apply with_balance_wf; [apply wf_default_account|]. apply add_wf; [apply wf_zero|].
  by apply from_u64_spec.
Defined.
End EvmHost.
