(* ===== verification/EvmInterp.v ===== *)
(** * The EVM interpreter

    Models [crates/zbx-evm/src/interpreter.rs] (and [is_precompile] with the
    dispatch of [precompiles.rs]; the bodies of the precompiled contracts call
    third-party cryptography and are the class [Precompiles]). A method taking
    [&mut self] is a computation of the monad of [Monad]: the state is kept
    on error, as in the source. The recursion of [do_call] and
    [do_create] into a child interpreter is cut at that point: they return
    [Enter] with the child and what the parent needs to resume, and [run]
    executes the child and calls [resume_call] or [resume_create]. *)

From S2P Require Import Prelude.
From S2P Require Import Monad.
From S2P Require Import U256.
From S2P Require Import EvmBase.
From S2P Require Import EvmHost.

Module EvmInterp.
Import Monad U256 EvmBase EvmHost.

(** ** Data *)

Inductive ExitStatus :=
| Succeeded
| Reverted
| Failed (e : EvmError).

Record EVMContext := mkCtx {
  c_caller : address;
  c_callee : address;
  c_value : word;
  c_calldata : bytes;
  c_gas_limit : Z;
  c_is_static : bool;
  c_block_number : Z;
  c_timestamp : Z;
  c_coinbase : address;
  c_base_fee : Z;
  c_chain_id : Z
}.

Definition CHAIN_ID : Z := 8989.
Definition effective_chain_id (c : EVMContext) : Z :=
  if c_chain_id c =? 0 then CHAIN_ID else c_chain_id c.

Definition MAX_RETURN_DATA : Z := 1024 * 1024.

Record EvmLog := mkLog {
  log_address : address;
  log_topics : list word;
  log_data : bytes
}.

Record CallFrame := mkFrame {
  f_snapshot : Z;
  f_gas_at_entry : Z;
  f_created_address : option address
}.

Inductive CallKind := KCall | KCallCode | KDelegateCall | KStaticCall.

(** ** Precompiled contracts *)

(** The bodies behind [call_precompile] and the three stateful ones, which
    read the host through adapters. *)
Class Precompiles := {
  call_precompile : Z → bytes → Z → outcome EvmError (bytes * Z);
  do_payid : bytes → Z → (bytes → option address) → (address → option bytes) →
             outcome EvmError (bytes * Z);
  do_price_oracle : bytes → Z → (address → word → word) → outcome EvmError (bytes * Z);
  do_zusd_vault : bytes → Z → (address → word → word) → Z → outcome EvmError (bytes * Z)
}.

Definition is_precompile (addr : address) : bool :=
  forallb (fun x => x =? 0) (take 19 addr) && (1 <=? byte_at addr 19) && (byte_at addr 19 <=? 0x0F).

(** ** CREATE and CREATE2 addresses *)

Definition rlp_encode_u64 (n : Z) : bytes :=
  if n =? 0 then [0x80] else
  if n <? 0x80 then [n] else
  let be := to_be 8 n in
  let trimmed := drop (leading_zeros be) be in
  (0x80 + Z.of_nat (length trimmed)) :: trimmed.

Section Addresses.
Context `{Keccak}.

(** The bytes hashed by [create_address]: rlp([sender, nonce]). *)
Definition create_preimage (sender : address) (nonce : Z) : bytes :=
  let payload := [0x94] ++ sender ++ rlp_encode_u64 nonce in
  (0xc0 + Z.of_nat (length payload)) :: payload.

Definition create_address (sender : address) (nonce : Z) : address :=
  drop 12 (keccak256 (create_preimage sender nonce)).

Definition create2_address (sender : address) (salt : word) (initcode : bytes) : address :=
  let init_hash := keccak256 initcode in
  let buf := [0xff] ++ sender ++ salt ++ init_hash in
  drop 12 (keccak256 buf).
End Addresses.

(** ** The JUMPDEST bitmap *)

Fixpoint bitmap_loop (fuel : nat) (cd : bytes) (pc : nat) (bm : bytes) : option bytes :=
  match fuel with
  | O => None
  | S fuel =>
      match cd !! pc with
      | None => Some bm
      | Some op =>
          if op =? 0x5b then
            let bm' := <[(pc / 8)%nat :=
                         Z.lor (default 0 (bm !! (pc / 8)%nat)) (Z.shiftl 1 (Z.of_nat (pc mod 8)))]> bm in
            bitmap_loop fuel cd (pc + 1) bm'
          else if (0x60 <=? op) && (op <=? 0x7f) then
            bitmap_loop fuel cd (pc + (1 + Z.to_nat (op - 0x5f))) bm
          else bitmap_loop fuel cd (pc + 1) bm
      end
  end.

Definition build_jumpdest_bitmap (cd : bytes) : bytes :=
  default [] (bitmap_loop (S (length cd)) cd 0 (replicate ((length cd + 7) / 8) 0)).

(** ** The interpreter state *)

Record Interp (H : Type) := mkInterp {
  i_ctx : EVMContext;
  i_code : bytes;
  i_jumpdests : bytes;
  i_pc : Z;
  i_stack : list (list Z);
  i_memory : list Z;
  i_gas : Z;
  i_return_data : bytes;
  i_host : H;
  i_frames : list CallFrame;
  i_warm : gset (list Z);
  i_warm_storage : gset (list Z * list Z);
  i_logs : list EvmLog
}.
Arguments mkInterp {H}.
Arguments i_ctx {H}. Arguments i_code {H}. Arguments i_jumpdests {H}. Arguments i_pc {H}.
Arguments i_stack {H}. Arguments i_memory {H}. Arguments i_gas {H}. Arguments i_return_data {H}.
Arguments i_host {H}. Arguments i_frames {H}. Arguments i_warm {H}. Arguments i_warm_storage {H}.
Arguments i_logs {H}.

Section Setters.
Context {H : Type}.
Implicit Types s : Interp H.

Definition set_pc (x : Z) s : Interp H :=
  mkInterp (i_ctx s) (i_code s) (i_jumpdests s) x (i_stack s) (i_memory s) (i_gas s)
    (i_return_data s) (i_host s) (i_frames s) (i_warm s) (i_warm_storage s) (i_logs s).
Definition set_stack (x : list (list Z)) s : Interp H :=
  mkInterp (i_ctx s) (i_code s) (i_jumpdests s) (i_pc s) x (i_memory s) (i_gas s)
    (i_return_data s) (i_host s) (i_frames s) (i_warm s) (i_warm_storage s) (i_logs s).
Definition set_memory (x : list Z) s : Interp H :=
  mkInterp (i_ctx s) (i_code s) (i_jumpdests s) (i_pc s) (i_stack s) x (i_gas s)
    (i_return_data s) (i_host s) (i_frames s) (i_warm s) (i_warm_storage s) (i_logs s).
Definition set_gas (x : Z) s : Interp H :=
  mkInterp (i_ctx s) (i_code s) (i_jumpdests s) (i_pc s) (i_stack s) (i_memory s) x
    (i_return_data s) (i_host s) (i_frames s) (i_warm s) (i_warm_storage s) (i_logs s).
Definition set_return_data (x : bytes) s : Interp H :=
  mkInterp (i_ctx s) (i_code s) (i_jumpdests s) (i_pc s) (i_stack s) (i_memory s) (i_gas s)
    x (i_host s) (i_frames s) (i_warm s) (i_warm_storage s) (i_logs s).
Definition set_host (x : H) s : Interp H :=
  mkInterp (i_ctx s) (i_code s) (i_jumpdests s) (i_pc s) (i_stack s) (i_memory s) (i_gas s)
    (i_return_data s) x (i_frames s) (i_warm s) (i_warm_storage s) (i_logs s).
Definition set_frames (x : list CallFrame) s : Interp H :=
  mkInterp (i_ctx s) (i_code s) (i_jumpdests s) (i_pc s) (i_stack s) (i_memory s) (i_gas s)
    (i_return_data s) (i_host s) x (i_warm s) (i_warm_storage s) (i_logs s).
Definition set_warm (x : gset (list Z)) s : Interp H :=
  mkInterp (i_ctx s) (i_code s) (i_jumpdests s) (i_pc s) (i_stack s) (i_memory s) (i_gas s)
    (i_return_data s) (i_host s) (i_frames s) x (i_warm_storage s) (i_logs s).
Definition set_warm_storage (x : gset (list Z * list Z)) s : Interp H :=
  mkInterp (i_ctx s) (i_code s) (i_jumpdests s) (i_pc s) (i_stack s) (i_memory s) (i_gas s)
    (i_return_data s) (i_host s) (i_frames s) (i_warm s) x (i_logs s).
Definition set_logs (x : list EvmLog) s : Interp H :=
  mkInterp (i_ctx s) (i_code s) (i_jumpdests s) (i_pc s) (i_stack s) (i_memory s) (i_gas s)
    (i_return_data s) (i_host s) (i_frames s) (i_warm s) (i_warm_storage s) x.
End Setters.

(** What the parent keeps while a child interpreter runs. *)
Record PendingCall := mkPending {
  p_snap : Z;
  p_forwarded : Z;
  p_billed : Z;
  p_ret_off : Z;
  p_ret_len : Z
}.

Record PendingCreate := mkPendingCreate {
  pc_snap : Z;
  pc_forwarded : Z;
  pc_new_addr : address
}.

(** What a handler tells [step]: go on with the next instruction, go on at the
    [pc] already set, stop, or run a child first. *)
Inductive Ctrl (H : Type) :=
| Next
| Jumped
| Halt (status : ExitStatus)
| EnterCall (sub : Interp H) (p : PendingCall)
| EnterCreate (sub : Interp H) (p : PendingCreate).
Arguments Next {H}. Arguments Jumped {H}. Arguments Halt {H}.
Arguments EnterCall {H}. Arguments EnterCreate {H}.

(** ** The monad *)

Abbreviation M H := (SE EvmError (Interp H)).

Section Primitives.
Context {H : Type} `{Host H}.

Definition consume_gas (amount : Z) : M H unit := fun s =>
  if i_gas s <? amount then (Err OutOfGas, s) else (Ok tt, set_gas (i_gas s - amount) s).

Definition refund_gas (amount : Z) : M H unit :=
  modify (fun s => set_gas (saturating_add64 (i_gas s) amount) s).

Definition push (v : word) : M H unit :=
  st ← gets i_stack; st' ← lift (stack_push st v); modify (set_stack st').
Definition pop : M H word :=
  st ← gets i_stack; r ← lift (stack_pop st); modify (set_stack r.2);; mret r.1.
Definition dup (depth : nat) : M H unit :=
  st ← gets i_stack; st' ← lift (stack_dup st depth); modify (set_stack st').
Definition swap (depth : nat) : M H unit :=
  st ← gets i_stack; st' ← lift (stack_swap st depth); modify (set_stack st').

Definition pop_address : M H address := w ← pop; mret (drop 12 w).
Definition pop_u64_capped : M H Z := w ← pop; mret (u256_to_u64 w).

(** [let g = self.memory.ensure(offset, size)?; self.consume_gas(g)?] *)
Definition expand (offset size : Z) : M H unit :=
  m ← gets i_memory; r ← lift (mem_ensure m offset size);
  modify (set_memory r.2);; consume_gas r.1.

Definition mread (offset size : Z) : M H bytes :=
  m ← gets i_memory; lift (mem_read m offset size).

Definition mwrite (offset : Z) (data : bytes) : M H unit :=
  m ← gets i_memory; m' ← lift (mem_write m offset data); modify (set_memory m').

(** EIP-2929 warm and cold accounts and slots. *)
Definition touch (addr : address) : M H unit :=
  warm ← gets i_warm;
  if bool_decide (addr ∈ warm) then mret tt
  else consume_gas GAS_COLD_ACCOUNT_ACCESS;; modify (set_warm ({[addr]} ∪ warm)).

Definition touch_slot (slot : address * word) : M H unit :=
  warm ← gets i_warm_storage;
  if bool_decide (slot ∈ warm) then mret tt
  else consume_gas (saturating_sub GAS_SLOAD_COLD GAS_SLOAD_WARM);;
       modify (set_warm_storage ({[slot]} ∪ warm)).

Definition binop (f : word → word → word) : M H (Ctrl H) :=
  a ← pop; b ← pop; push (f a b);; mret Next.
Definition ternop (f : word → word → word → word) : M H (Ctrl H) :=
  a ← pop; b ← pop; n ← pop; push (f a b n);; mret Next.
Definition cmpop (f : word → word → bool) : M H (Ctrl H) :=
  a ← pop; b ← pop; push (u256_from_u64 (if f a b then 1 else 0));; mret Next.
Definition unop (f : word → word) : M H (Ctrl H) :=
  a ← pop; push (f a);; mret Next.
Definition push_of (f : Interp H → word) : M H (Ctrl H) :=
  w ← gets f; push w;; mret Next.

(** An address in the low 20 bytes of a word. *)
Definition addr_word (a : address) : word := replicate 12 0 ++ a.

Definition ctx_static : M H bool := gets (fun s => c_is_static (i_ctx s)).
End Primitives.

(** ** Instruction handlers *)

Section Handlers.
Context {H : Type} `{Host H} `{Keccak} `{Precompiles}.

(** 0x01-0x1d: arithmetic, comparison and bitwise instructions. The fuel of
    [u256_exp] (256 iterations) always suffices. *)
Definition exec_arith (byte : Z) : M H (Ctrl H) :=
  if byte =? 0x01 then binop u256_add else
  if byte =? 0x02 then binop u256_mul else
  if byte =? 0x03 then binop u256_sub else
  if byte =? 0x04 then binop u256_div else
  if byte =? 0x05 then binop u256_sdiv else
  if byte =? 0x06 then binop u256_mod else
  if byte =? 0x07 then binop u256_smod else
  if byte =? 0x08 then ternop u256_addmod else
  if byte =? 0x09 then ternop u256_mulmod else
  if byte =? 0x0a then
    base ← pop; exp ← pop;
    consume_gas (10 + 50 * u256_byte_len exp);;
    push (default zero (u256_exp base exp));; mret Next
  else
  if byte =? 0x0b then binop u256_signextend else
  if byte =? 0x10 then cmpop u256_lt else
  if byte =? 0x11 then cmpop u256_gt else
  if byte =? 0x12 then cmpop u256_slt else
  if byte =? 0x13 then cmpop u256_sgt else
  if byte =? 0x14 then cmpop u256_eq else
  if byte =? 0x15 then unop (fun a => u256_from_u64 (if u256_is_zero a then 1 else 0)) else
  if byte =? 0x16 then binop u256_and else
  if byte =? 0x17 then binop u256_or else
  if byte =? 0x18 then binop u256_xor else
  if byte =? 0x19 then unop u256_not else
  if byte =? 0x1a then binop u256_byte else
  if byte =? 0x1b then binop u256_shl else
  if byte =? 0x1c then binop u256_shr else
  if byte =? 0x1d then binop u256_sar else
  fail (InvalidOpcode byte).

(** The shared body of CALLDATACOPY, CODECOPY and EXTCODECOPY after the gas
    charges; [&data[src..src + copy_len]] panics when [src] is out of range. *)
Definition copy_padded (data : bytes) (dest src size : Z) : M H unit :=
  if 0 <? size then
    let avail := saturating_sub (Z.of_nat (length data)) src in
    let copy_len := Z.min avail size in
    chunk ← lift (slice data src (wrap64 (src + copy_len)));
    mwrite dest (chunk ++ replicate (Z.to_nat (size - copy_len)) 0)
  else mret tt.

Definition calldataload (data : bytes) (offset : Z) : outcome EvmError word :=
  let available := saturating_sub (Z.of_nat (length data)) offset in
  let len := Z.min available 32 in
  if 0 <? len then
    let? chunk := slice data offset (wrap64 (offset + len)) in
    Ok (chunk ++ replicate (Z.to_nat (32 - len)) 0)
  else Ok zero.

(** 0x20-0x3f: hashing, the call's environment and other accounts. *)
Definition exec_env (byte : Z) : M H (Ctrl H) :=
  if byte =? 0x20 then
    offset ← pop_u64_capped; size ← pop_u64_capped;
    expand offset size;;
    consume_gas (sha3_cost size);;
    data ← mread offset size;
    push (keccak256 data);; mret Next
  else
  if byte =? 0x30 then push_of (fun s => addr_word (c_callee (i_ctx s))) else
  if byte =? 0x31 then
    addr ← pop_address; touch addr;;
    push_of (fun s => balance (i_host s) addr)
  else
  if byte =? 0x32 then push_of (fun s => addr_word (c_caller (i_ctx s))) else
  if byte =? 0x33 then push_of (fun s => addr_word (c_caller (i_ctx s))) else
  if byte =? 0x34 then push_of (fun s => c_value (i_ctx s)) else
  if byte =? 0x35 then
    offset ← pop_u64_capped;
    data ← gets (fun s => c_calldata (i_ctx s));
    w ← lift (calldataload data offset);
    push w;; mret Next
  else
  if byte =? 0x36 then push_of (fun s => u256_from_u64 (Z.of_nat (length (c_calldata (i_ctx s))))) else
  if byte =? 0x37 then
    dest ← pop_u64_capped; src ← pop_u64_capped; size ← pop_u64_capped;
    expand dest size;; consume_gas (copy_cost size);;
    data ← gets (fun s => c_calldata (i_ctx s));
    copy_padded data dest src size;; mret Next
  else
  if byte =? 0x38 then push_of (fun s => u256_from_u64 (Z.of_nat (length (i_code s)))) else
  if byte =? 0x39 then
    dest ← pop_u64_capped; src ← pop_u64_capped; size ← pop_u64_capped;
    expand dest size;; consume_gas (copy_cost size);;
    data ← gets i_code;
    copy_padded data dest src size;; mret Next
  else
  if byte =? 0x3a then push_of (fun s => u256_from_u64 (c_base_fee (i_ctx s))) else
  if byte =? 0x3b then
    addr ← pop_address; touch addr;;
    push_of (fun s => u256_from_u64 (Z.of_nat (length (code (i_host s) addr))))
  else
  if byte =? 0x3c then
    addr ← pop_address;
    dest ← pop_u64_capped; src ← pop_u64_capped; size ← pop_u64_capped;
    touch addr;;
    expand dest size;; consume_gas (copy_cost size);;
    data ← gets (fun s => code (i_host s) addr);
    copy_padded data dest src size;; mret Next
  else
  if byte =? 0x3d then push_of (fun s => u256_from_u64 (Z.of_nat (length (i_return_data s)))) else
  if byte =? 0x3e then
    dest ← pop_u64_capped; off ← pop_u64_capped; size ← pop_u64_capped;
    end_ ← lift (ok_or (checked_add64 off size) (MemoryOutOfBounds off size));
    rd ← gets i_return_data;
    if Z.of_nat (length rd) <? end_ then fail (MemoryOutOfBounds off size) else
    expand dest size;;
    consume_gas (wrap64 (3 * words_of size));;
    (if 0 <? size then chunk ← lift (slice rd off (wrap64 (off + size))); mwrite dest chunk
     else mret tt);;
    mret Next
  else
  if byte =? 0x3f then
    addr ← pop_address; touch addr;;
    push_of (fun s => if is_empty (i_host s) addr then zero else code_hash (i_host s) addr)
  else fail (InvalidOpcode byte).

(** 0x40-0x48: the block. *)
Definition exec_block (byte : Z) : M H (Ctrl H) :=
  if byte =? 0x40 then _ ← pop; push zero;; mret Next else
  if byte =? 0x41 then push_of (fun s => addr_word (c_coinbase (i_ctx s))) else
  if byte =? 0x42 then push_of (fun s => u256_from_u64 (c_timestamp (i_ctx s))) else
  if byte =? 0x43 then push_of (fun s => u256_from_u64 (c_block_number (i_ctx s))) else
  if byte =? 0x44 then
    push_of (fun s => u256_from_u64 (wrap64 (c_block_number (i_ctx s) * 0x517cc1b727220a95)))
  else
  if byte =? 0x45 then push_of (fun _ => u256_from_u64 30000000) else
  if byte =? 0x46 then push_of (fun s => u256_from_u64 (effective_chain_id (i_ctx s))) else
  if byte =? 0x47 then push_of (fun s => balance (i_host s) (c_callee (i_ctx s))) else
  if byte =? 0x48 then push_of (fun s => u256_from_u64 (c_base_fee (i_ctx s))) else
  fail (InvalidOpcode byte).

Definition is_valid_jumpdest (s : Interp H) (dest : Z) : bool :=
  (dest <? Z.of_nat (length (i_code s))) &&
  negb (Z.land (default 0 (i_jumpdests s !! Z.to_nat (dest / 8))) (Z.shiftl 1 (dest mod 8)) =? 0).

(** [self.pc = dest; return Ok(None)] after the check. *)
Definition jump_to (dest : Z) : M H (Ctrl H) :=
  ok ← gets (fun s => is_valid_jumpdest s dest);
  if negb ok then fail (InvalidJump dest)
  else modify (set_pc dest);; mret Jumped.

Definition sstore : M H (Ctrl H) :=
  st ← ctx_static;
  if st : bool then fail StaticStateChange else
  key ← pop; value ← pop;
  callee ← gets (fun s => c_callee (i_ctx s));
  current ← gets (fun s => storage_load (i_host s) callee key);
  touch_slot (callee, key);;
  (if negb (bool_decide (current = value)) then
     if u256_is_zero current && negb (u256_is_zero value)
     then consume_gas GAS_SSTORE_SET else consume_gas GAS_SSTORE_RESET
   else mret tt);;
  modify (fun s => set_host (storage_store (i_host s) callee key value) s);;
  mret Next.

(** 0x50-0x5f: stack, memory, storage and control flow. *)
Definition exec_flow (byte : Z) : M H (Ctrl H) :=
  if byte =? 0x50 then _ ← pop; mret Next else
  if byte =? 0x51 then
    offset ← pop_u64_capped; expand offset 32;;
    v ← mread offset 32; push v;; mret Next
  else
  if byte =? 0x52 then
    offset ← pop_u64_capped; v ← pop; expand offset 32;;
    mwrite offset v;; mret Next
  else
  if byte =? 0x53 then
    offset ← pop_u64_capped; v ← pop; expand offset 1;;
    mwrite offset [byte_at v 31];; mret Next
  else
  if byte =? 0x54 then
    key ← pop;
    callee ← gets (fun s => c_callee (i_ctx s));
    touch_slot (callee, key);;
    push_of (fun s => storage_load (i_host s) callee key)
  else
  if byte =? 0x55 then sstore else
  if byte =? 0x56 then dest ← pop_u64_capped; jump_to dest else
  if byte =? 0x57 then
    dest ← pop_u64_capped; cond ← pop;
    if negb (u256_is_zero cond) then jump_to dest else mret Next
  else
  if byte =? 0x58 then push_of (fun s => u256_from_u64 (i_pc s)) else
  if byte =? 0x59 then push_of (fun s => u256_from_u64 (mem_size (i_memory s))) else
  if byte =? 0x5a then push_of (fun s => u256_from_u64 (i_gas s)) else
  if byte =? 0x5b then mret Next else
  if byte =? 0x5f then push_of (fun _ => zero) else
  fail (InvalidOpcode byte).

(** The value PUSH[n] reads at [pc]: the bytes that exist, from position
    [32 - n] of the word, zeros elsewhere. *)
Definition push_value (cd : bytes) (pc : Z) (n : Z) : outcome EvmError word :=
  let start := pc + 1 in
  let end_ := Z.min (start + n) (Z.of_nat (length cd)) in
  let available := end_ - start in
  let? chunk := slice cd start end_ in
  Ok (replicate (Z.to_nat (32 - n)) 0 ++ chunk ++ replicate (Z.to_nat (n - available)) 0).

(** 0x60-0x9f: PUSH1-32, DUP1-16, SWAP1-16. *)
Definition exec_push_dup_swap (byte : Z) : M H (Ctrl H) :=
  if byte <? 0x80 then
    let n := byte - 0x5f in
    cd ← gets i_code; pc ← gets i_pc;
    v ← lift (push_value cd pc n);
    push v;; modify (fun s => set_pc (i_pc s + n) s);; mret Next
  else if byte <? 0x90 then dup (Z.to_nat (byte - 0x7f));; mret Next
  else swap (Z.to_nat (byte - 0x8f));; mret Next.

Fixpoint pop_n (n : nat) : M H (list word) :=
  match n with
  | O => mret []
  | S n => w ← pop; rest ← pop_n n; mret (w :: rest)
  end.

(** 0xa0-0xa4 *)
Definition exec_log (byte : Z) : M H (Ctrl H) :=
  st ← ctx_static;
  if st : bool then fail StaticStateChange else
  let topic_count := byte - 0xa0 in
  offset ← pop_u64_capped; size ← pop_u64_capped;
  topics ← pop_n (Z.to_nat topic_count);
  expand offset size;;
  consume_gas (log_cost size topic_count);;
  data ← mread offset size;
  modify (fun s => set_logs (i_logs s ++ [mkLog (c_callee (i_ctx s)) topics data]) s);;
  mret Next.

(** RETURN and REVERT *)
Definition do_return (status : ExitStatus) : M H (Ctrl H) :=
  offset ← pop_u64_capped; size ← pop_u64_capped;
  if MAX_RETURN_DATA <? size then fail (MemoryOutOfBounds offset size) else
  expand offset size;;
  data ← mread offset size;
  modify (set_return_data data);; mret (Halt status).

Definition selfdestruct : M H (Ctrl H) :=
  st ← ctx_static;
  if st : bool then fail StaticStateChange else
  beneficiary ← pop_address;
  consume_gas GAS_SELFDESTRUCT;;
  touch beneficiary;;
  modify (fun s => set_host (destruct_account (i_host s) (c_callee (i_ctx s)) beneficiary) s);;
  mret (Halt Succeeded).

(** ** Construction *)

Definition precompile_addr (i : Z) : address := replicate 19 0 ++ [i].

Definition new_interp (c : EVMContext) (cd : bytes) (h : H) : Interp H :=
  mkInterp c cd (build_jumpdest_bitmap cd) 0 [] [] (c_gas_limit c) [] h []
    ({[c_caller c]} ∪ {[c_callee c]} ∪ {[c_coinbase c]} ∪
     list_to_set (map precompile_addr [1; 2; 3; 4; 5; 6; 7; 8; 9]))
    ∅ [].

(** The child of a CALL or CREATE: [EVMInterpreter::new], then the parent's
    frames with one more, and the parent's warm set. *)
Definition child (parent : Interp H) (c : EVMContext) (cd : bytes) (f : CallFrame) : Interp H :=
  set_warm (i_warm parent) (set_frames (i_frames parent ++ [f]) (new_interp c cd (i_host parent))).

Definition gas_used (s : Interp H) : Z := saturating_sub (c_gas_limit (i_ctx s)) (i_gas s).

(** ** The CALL family *)

Definition is_call_or_callcode (k : CallKind) : bool :=
  match k with KCall | KCallCode => true | _ => false end.
Definition is_kcall (k : CallKind) : bool := match k with KCall => true | _ => false end.

Definition push_zero_with_ret (ret_off ret_len : Z) : M H (Ctrl H) :=
  modify (set_return_data []);;
  expand ret_off ret_len;;
  push (u256_from_u64 0);; mret Next.

(** Dispatch to a precompiled contract by the last byte of the target. *)
Definition run_precompile (s : Interp H) (target : address) (calldata : bytes) (forwarded : Z)
    : outcome EvmError (bytes * Z) :=
  let h := i_host s in
  if byte_at target 19 =? 0x0A then
    do_payid calldata forwarded (resolve_pay_id_bytes h) (reverse_pay_id h)
  else if byte_at target 19 =? 0x0C then
    do_price_oracle calldata forwarded (storage_load h)
  else if byte_at target 19 =? 0x0F then
    do_zusd_vault calldata forwarded (storage_load h) (c_timestamp (i_ctx s))
  else call_precompile (byte_at target 19) calldata forwarded.

(** [memory.write(ret_off, &out[..copy])] when there is something to copy. *)
Definition write_ret (ret_off ret_len : Z) (out : bytes) : M H unit :=
  let copy := Z.min ret_len (Z.of_nat (length out)) in
  if 0 <? copy then mwrite ret_off (take (Z.to_nat copy) out) else mret tt.

Definition call_precompiled (target : address) (calldata : bytes)
    (snap forwarded billed ret_off ret_len : Z) : M H (Ctrl H) :=
  s ← gets (fun s => s);
  match run_precompile s target calldata forwarded with
  | Ok (output, used) =>
      modify (fun s => set_host (commit (i_host s) snap) s);;
      modify (set_return_data output);;
      expand ret_off ret_len;;
      write_ret ret_off ret_len output;;
      refund_gas (Z.min (saturating_sub forwarded used) billed);;
      push (u256_from_u64 1);; mret Next
  | Err _ =>
      modify (fun s => set_host (revert_to (i_host s) snap) s);;
      modify (set_return_data []);;
      expand ret_off ret_len;;
      push (u256_from_u64 0);; mret Next
  | Panic => lift Panic
  end.

(** The child's context: the difference between the four instructions. *)
Definition sub_ctx (kind : CallKind) (c : EVMContext) (target : address) (value : word)
    (calldata : bytes) (forwarded : Z) : EVMContext :=
  match kind with
  | KCall =>
      mkCtx (c_callee c) target value calldata forwarded (c_is_static c)
        (c_block_number c) (c_timestamp c) (c_coinbase c) (c_base_fee c) (c_chain_id c)
  | KCallCode =>
      mkCtx (c_callee c) (c_callee c) value calldata forwarded (c_is_static c)
        (c_block_number c) (c_timestamp c) (c_coinbase c) (c_base_fee c) (c_chain_id c)
  | KDelegateCall =>
      mkCtx (c_caller c) (c_callee c) (c_value c) calldata forwarded (c_is_static c)
        (c_block_number c) (c_timestamp c) (c_coinbase c) (c_base_fee c) (c_chain_id c)
  | KStaticCall =>
      mkCtx (c_callee c) target zero calldata forwarded true
        (c_block_number c) (c_timestamp c) (c_coinbase c) (c_base_fee c) (c_chain_id c)
  end.

(** The part of [do_call] after the snapshot and the value transfer: the
    precompile short-circuit, the empty-code exit, or the child. *)
Definition call_dispatch (kind : CallKind) (target : address) (value : word) (calldata : bytes)
    (snap forwarded billed ret_off ret_len : Z) : M H (Ctrl H) :=
  if is_precompile target then
    call_precompiled target calldata snap forwarded billed ret_off ret_len
  else
    target_code ← gets (fun s => code (i_host s) target);
    if bool_decide (target_code = []) then
      modify (fun s => set_host (commit (i_host s) snap) s);;
      modify (set_return_data []);;
      expand ret_off ret_len;;
      refund_gas billed;;
      push (u256_from_u64 1);; mret Next
    else
      parent ← gets (fun s => s);
      mret (EnterCall
              (child parent (sub_ctx kind (i_ctx parent) target value calldata forwarded)
                 target_code (mkFrame snap forwarded None))
              (mkPending snap forwarded billed ret_off ret_len)).

(** [do_call] from the depth check on. *)
Definition call_enter (kind : CallKind) (gas_req : Z) (target : address) (value : word)
    (calldata : bytes) (actually_transfers : bool) (ret_off ret_len : Z) : M H (Ctrl H) :=
  frames ← gets i_frames;
  if (CALL_DEPTH_LIMIT <=? length frames)%nat then push_zero_with_ret ret_off ret_len else
  gas_remaining ← gets i_gas;
  let billed := forward_gas_eip150 gas_remaining gas_req in
  let stipend := if actually_transfers then GAS_CALL_STIPEND else 0 in
  let forwarded := saturating_add64 billed stipend in
  consume_gas billed;;
  snap ← gets (fun s => (snapshot (i_host s)).1);
  modify (fun s => set_host (snapshot (i_host s)).2 s);;
  s ← gets (fun s => s);
  let callee := c_callee (i_ctx s) in
  if is_kcall kind && actually_transfers then
    if lex_lt (balance (i_host s) callee) value then
      modify (fun s => set_host (revert_to (i_host s) snap) s);;
      refund_gas billed;;
      push_zero_with_ret ret_off ret_len
    else
      modify (fun s => set_host (transfer (i_host s) callee target value).2 s);;
      call_dispatch kind target value calldata snap forwarded billed ret_off ret_len
  else call_dispatch kind target value calldata snap forwarded billed ret_off ret_len.

Definition do_call (kind : CallKind) : M H (Ctrl H) :=
  gas_req ← pop_u64_capped;
  target ← pop_address;
  value ← match kind with
          | KCall | KCallCode => pop
          | KDelegateCall => gets (fun s => c_value (i_ctx s))
          | KStaticCall => mret zero
          end;
  st ← ctx_static;
  if is_call_or_callcode kind && st && negb (u256_is_zero value) then fail StaticStateChange else
  args_off ← pop_u64_capped; args_len ← pop_u64_capped;
  ret_off ← pop_u64_capped; ret_len ← pop_u64_capped;
  expand args_off args_len;;
  calldata ← mread args_off args_len;
  touch target;;
  let actually_transfers := is_call_or_callcode kind && negb (u256_is_zero value) in
  (if actually_transfers then
     consume_gas GAS_CALL_VALUE_TRANSFER;;
     empty ← gets (fun s => is_empty (i_host s) target);
     if is_kcall kind && empty then consume_gas GAS_NEW_ACCOUNT else mret tt
   else mret tt);;
  call_enter kind gas_req target value calldata actually_transfers ret_off ret_len.

Definition is_success (st : ExitStatus) : bool :=
  match st with Succeeded => true | _ => false end.

(** The rest of [do_call] once the child has run. *)
Definition resume_call (p : PendingCall) (status : ExitStatus) (sub : Interp H) : M H unit :=
  modify (set_host (i_host sub));;
  modify (set_warm (i_warm sub));;
  (if is_success status then
     modify (fun s => set_host (commit (i_host s) (p_snap p)) s);;
     modify (fun s => set_logs (i_logs s ++ i_logs sub) s)
   else modify (fun s => set_host (revert_to (i_host s) (p_snap p)) s));;
  refund_gas (Z.min (saturating_sub (p_forwarded p) (gas_used sub)) (p_billed p));;
  modify (set_return_data (i_return_data sub));;
  expand (p_ret_off p) (p_ret_len p);;
  write_ret (p_ret_off p) (p_ret_len p) (i_return_data sub);;
  push (u256_from_u64 (if is_success status then 1 else 0)).

(** ** CREATE and CREATE2 *)

Definition push_zero : M H (Ctrl H) :=
  modify (set_return_data []);; push zero;; mret Next.

(** [do_create] once the address is known and the sender's nonce bumped. *)
Definition create_enter (value : word) (initcode : bytes) (new_addr : address) : M H (Ctrl H) :=
  s ← gets (fun s => s);
  if (0 <? nonce (i_host s) new_addr) || negb (bool_decide (code (i_host s) new_addr = []))
  then push_zero else
  let callee := c_callee (i_ctx s) in
  snap ← gets (fun s => (snapshot (i_host s)).1);
  modify (fun s => set_host (snapshot (i_host s)).2 s);;
  (if negb (u256_is_zero value)
   then modify (fun s => set_host (transfer (i_host s) callee new_addr value).2 s)
   else mret tt);;
  r ← gets (fun s => inc_nonce (i_host s) new_addr);
  modify (set_host r.2);;
  _ ← lift r.1;
  modify (fun s => set_host (mark_created_this_tx (i_host s) new_addr) s);;
  gas_remaining ← gets i_gas;
  let forwarded := forward_gas_eip150 gas_remaining gas_remaining in
  consume_gas forwarded;;
  parent ← gets (fun s => s);
  let c := i_ctx parent in
  mret (EnterCreate
          (child parent
             (mkCtx callee new_addr value [] forwarded false (c_block_number c) (c_timestamp c)
                (c_coinbase c) (c_base_fee c) (c_chain_id c))
             initcode (mkFrame snap forwarded (Some new_addr)))
          (mkPendingCreate snap forwarded new_addr)).

Definition do_create (with_salt : bool) : M H (Ctrl H) :=
  st ← ctx_static;
  if st : bool then fail StaticStateChange else
  value ← pop;
  off ← pop_u64_capped; len ← pop_u64_capped;
  salt_opt ← (if with_salt then w ← pop; mret (Some w) else mret None);
  if MAX_INITCODE_SIZE <? len then fail (InitcodeOversize len) else
  expand off len;;
  let initcode_words := words_of len in
  consume_gas (wrap64 (GAS_INITCODE_WORD * initcode_words));;
  (if with_salt then consume_gas (wrap64 (6 * initcode_words)) else mret tt);;
  initcode ← mread off len;
  frames ← gets i_frames;
  if (CALL_DEPTH_LIMIT <=? length frames)%nat then push_zero else
  s ← gets (fun s => s);
  let callee := c_callee (i_ctx s) in
  if lex_lt (balance (i_host s) callee) value then push_zero else
  let new_addr :=
    match salt_opt with
    | Some salt => create2_address callee salt initcode
    | None => create_address callee (nonce (i_host s) callee)
    end in
  let r := inc_nonce (i_host s) callee in
  modify (set_host r.2);;
  _ ← lift r.1;
  create_enter value initcode new_addr.

(** A deployment that is rolled back: [return_data] is what the caller sees. *)
Definition create_failed (snap : Z) (rd : bytes) : M H unit :=
  modify (fun s => set_host (revert_to (i_host s) snap) s);;
  modify (set_return_data rd);;
  push zero.

(** The rest of [do_create] once the constructor has run. *)
Definition resume_create (p : PendingCreate) (status : ExitStatus) (sub : Interp H) : M H unit :=
  let deployed_code := i_return_data sub in
  modify (set_host (i_host sub));;
  modify (set_warm (i_warm sub));;
  refund_gas (saturating_sub (pc_forwarded p) (gas_used sub));;
  if negb (is_success status) then create_failed (pc_snap p) deployed_code else
  if MAX_CONTRACT_CODE_SIZE <? Z.of_nat (length deployed_code) then create_failed (pc_snap p) [] else
  if bool_decide (head deployed_code = Some 0xEF) then create_failed (pc_snap p) [] else
  let deposit_cost := wrap64 (GAS_CODE_DEPOSIT_PER_BYTE * Z.of_nat (length deployed_code)) in
  gas_remaining ← gets i_gas;
  if gas_remaining <? deposit_cost then create_failed (pc_snap p) [] else
  consume_gas deposit_cost;;
  modify (fun s => set_host (set_code (i_host s) (pc_new_addr p) deployed_code) s);;
  modify (fun s => set_host (commit (i_host s) (pc_snap p)) s);;
  modify (fun s => set_logs (i_logs s ++ i_logs sub) s);;
  modify (set_return_data []);;
  push (addr_word (pc_new_addr p)).

(** ** step and run *)

(** 0xf0-0xff *)
Definition exec_system (byte : Z) : M H (Ctrl H) :=
  if byte =? 0xf0 then do_create false else
  if byte =? 0xf1 then do_call KCall else
  if byte =? 0xf2 then do_call KCallCode else
  if byte =? 0xf3 then do_return Succeeded else
  if byte =? 0xf4 then do_call KDelegateCall else
  if byte =? 0xf5 then do_create true else
  if byte =? 0xfa then do_call KStaticCall else
  if byte =? 0xfd then do_return Reverted else
  if byte =? 0xff then selfdestruct else
  fail (InvalidOpcode byte).

Definition exec (byte : Z) : M H (Ctrl H) :=
  if byte =? 0x00 then mret (Halt Succeeded) else
  if byte <? 0x20 then exec_arith byte else
  if byte <? 0x40 then exec_env byte else
  if byte <? 0x50 then exec_block byte else
  if byte <? 0x60 then exec_flow byte else
  if byte <? 0xa0 then exec_push_dup_swap byte else
  if byte <=? 0xa4 then exec_log byte else
  exec_system byte.

(** [self.pc += 1] when the handler falls through. *)
Definition advance (c : Ctrl H) : M H (Ctrl H) :=
  match c with
  | Next => modify (fun s => set_pc (i_pc s + 1) s);; mret Next
  | _ => mret c
  end.

Definition step : M H (Ctrl H) := fun s =>
  match i_code s !! Z.to_nat (i_pc s) with
  | None => (Ok (Halt Succeeded), s)
  | Some byte =>
      match from_u8 byte with
      | None => (Err (InvalidOpcode byte), s)
      | Some op => (consume_gas (static_gas op);; c ← exec byte; advance c) s
      end
  end.

(** The result of running a frame to its end. [Aborted] is a panic. *)
Inductive RunResult :=
| Finished (status : ExitStatus) (s : Interp H)
| Aborted.

Definition finish_child (r : outcome EvmError unit * Interp H) : outcome EvmError (Ctrl H) * Interp H :=
  match r with
  | (Ok _, s) => (Ok Next, set_pc (i_pc s + 1) s)
  | (Err e, s) => (Err e, s)
  | (Panic, s) => (Panic, s)
  end.

(** [run]; [None] when the fuel (steps and nesting) is exhausted. *)
Fixpoint run (fuel : nat) (s : Interp H) : option RunResult :=
  match fuel with
  | O => None
  | S fuel =>
      let continue (r : outcome EvmError (Ctrl H) * Interp H) :=
        match r with
        | (Ok (Halt status), s') => Some (Finished status s')
        | (Ok _, s') => run fuel s'
        | (Err e, s') => Some (Finished (Failed e) s')
        | (Panic, _) => Some Aborted
        end in
      match step s with
      | (Ok (EnterCall sub p), s') =>
          match run fuel sub with
          | Some (Finished status sub') => continue (finish_child (resume_call p status sub' s'))
          | r => r
          end
      | (Ok (EnterCreate sub p), s') =>
          match run fuel sub with
          | Some (Finished status sub') => continue (finish_child (resume_create p status sub' s'))
          | r => r
          end
      | r => continue r
      end
  end.
End Handlers.
End EvmInterp.
