(* ===== verification/EvmLogic.v ===== *)
(** * A program logic for the interpreter's monad

    The rules of the EVM interpreter's primitives and the frame invariant
    every instruction keeps: well-formed stack, memory and words, a gas counter
    that does not grow, an unchanged code and call context, and a host whose open snapshots
    are those the frame started with. *)

From S2P Require Import Prelude.
From S2P Require Import Monad.
From S2P Require Import U256.
From S2P Require Import U256Props.
From S2P Require Import EvmBase.
From S2P Require Import EvmHost.
From S2P Require Import EvmInterp.

Module EvmLogic.
Import Monad U256 EvmBase EvmHost EvmInterp.

Definition wf_addr (a : address) : Prop := length a = 20%nat ∧ wf_bytes a.

Record wf_ctx (c : EVMContext) : Prop := {
  wc_caller : wf_addr (c_caller c);
  wc_callee : wf_addr (c_callee c);
  wc_coinbase : wf_addr (c_coinbase c);
  wc_value : wf_word (c_value c);
  wc_calldata : wf_bytes (c_calldata c);
  wc_calldata_len : Z.of_nat (length (c_calldata c)) < 2 ^ 63;   (* a Vec's length *)
  wc_gas : is_u64 (c_gas_limit c)
}.

Lemma wf_addr_of_word w : wf_word w → wf_addr (drop 12 w).
Proof. intros [Hl Hb]. split; [rewrite length_drop; lia | by apply wf_bytes_drop]. Qed.

Lemma wf_addr_word a : wf_addr a → wf_word (addr_word a).
Proof.
  intros [Hl Hb]. unfold addr_word. split; [rewrite length_app, length_replicate; lia|].
  apply Forall_app. split; [apply wf_replicate0 | done].
Qed.

Section Logic.
Context {H : Type} `{HL : HostLaws H} `{KO : KeccakOk}.
Implicit Types s : Interp H.

(** The documented behaviour of the precompiled contracts. *)
Definition pre_ok (o : outcome EvmError (bytes * Z)) : Prop :=
  match o with
  | Ok (out, used) => wf_bytes out ∧ is_u64 used
  | Err _ => True
  | Panic => False
  end.

Class PrecompilesOk `{Precompiles} := {
  call_precompile_ok id i g : pre_ok (call_precompile id i g);
  do_payid_ok i g r v : pre_ok (do_payid i g r v);
  do_price_oracle_ok i g r : pre_ok (do_price_oracle i g r);
  do_zusd_vault_ok i g r t : pre_ok (do_zusd_vault i g r t)
}.

(** The part of the state that belongs to the frame itself. *)
Record wf s : Prop := {
  wf_c : wf_ctx (i_ctx s);
  wf_cd : wf_bytes (i_code s);
  wf_jd : i_jumpdests s = build_jumpdest_bitmap (i_code s);
  wf_pc : 0 ≤ i_pc s;
  wf_st : wf_stack (i_stack s);
  wf_me : wf_mem (i_memory s);
  wf_ga : is_u64 (i_gas s);
  wf_rd : wf_bytes (i_return_data s);
  wf_fr : (length (i_frames s) ≤ CALL_DEPTH_LIMIT)%nat
}.

(** What a frame may have done to the host between two instructions. *)
Definition hok s0 (h : H) : Prop :=
  hinv h ∧ hsnaps h = hsnaps (i_host s0) ∧
  (c_is_static (i_ctx s0) = true → hworld h = hworld (i_host s0)).

(** The invariant of a frame started in [s0]: at most [g] gas left, at least
    [ml] bytes of memory, a program counter of at least [pl], a host in [hp]. *)
Definition inv s0 (g ml pl : Z) (hp : H → Prop) s : Prop :=
  wf s ∧ (i_ctx s = i_ctx s0 ∧ i_code s = i_code s0 ∧ i_frames s = i_frames s0) ∧
  i_gas s ≤ g ≤ i_gas s0 ∧ 0 ≤ ml ≤ mem_size (i_memory s) ∧ 0 ≤ pl ≤ i_pc s ∧ hp (i_host s).

Definition einv s0 : Interp H → Prop := inv s0 (i_gas s0) 0 0 (hok s0).

(** ** Rules of the primitives *)

Section Rules.
Context (s0 : Interp H) (pn : Prop) (g ml pl : Z) (hp : H → Prop).
Hypothesis Hhp : ∀ h, hp h → hok s0 h.
Context {B : Type} (Q : B → Interp H → Prop).

Abbreviation I := (inv s0 g ml pl hp).
Abbreviation tri P m := (triple pn P m Q (einv s0)).

Lemma inv_einv s : I s → einv s0 s.
Proof.
  intros (?&?&?&?&?&?). split; [done|]. split; [done|].
  split; [lia|]. split; [lia|]. split; [lia|]. by apply Hhp.
Qed.

#[local] Ltac inv_tac :=
  intros (Hw & Hc & Hg & Hm & Hpc & Hh); destruct Hw; intros;
  unfold inv; split; [constructor; simpl; try done; try lia; try by apply Hc|];
  split; [simpl; done|]; simpl; split; [try lia|]; split; [try lia|]; split; [try lia|try done].

Lemma inv_set_stack s st : I s → wf_stack st → I (set_stack st s).
Proof. inv_tac. Qed.
Lemma inv_set_memory s m ml' :
  I s → wf_mem m → 0 ≤ ml' ≤ mem_size m → inv s0 g ml' pl hp (set_memory m s).
Proof. inv_tac. Qed.
Lemma inv_set_gas s x g' : I s → is_u64 x → x ≤ g' ≤ i_gas s0 → inv s0 g' ml pl hp (set_gas x s).
Proof. inv_tac. Qed.
Lemma inv_set_return_data s x : I s → wf_bytes x → I (set_return_data x s).
Proof. inv_tac. Qed.
Lemma inv_set_host s x (hp' : H → Prop) : I s → hp' x → inv s0 g ml pl hp' (set_host x s).
Proof. inv_tac. Qed.
Lemma inv_set_warm s x : I s → I (set_warm x s).
Proof. inv_tac. Qed.
Lemma inv_set_warm_storage s x : I s → I (set_warm_storage x s).
Proof. inv_tac. Qed.
Lemma inv_set_logs s x : I s → I (set_logs x s).
Proof. inv_tac. Qed.
Lemma inv_set_pc s x pl' : I s → 0 ≤ pl' ≤ x → inv s0 g ml pl' hp (set_pc x s).
Proof. inv_tac. Qed.

#[local] Ltac stack_tac lem_np :=
  intros; apply t_assoc, t_gets; intros s Hs; apply t_assoc, t_lift;
  [apply inv_einv | intros Hx; exfalso; revert Hx; apply lem_np |];
  intros st' Hst.

Lemma t_push v (k : unit → M H B) : wf_word v → tri I (k tt) → tri I (push v ≫= k).
Proof.
  stack_tac push_np. eapply t_modify; [|done]. intros s' Hs'.
  apply inv_set_stack; [done|]. eapply push_wf; [|done|done]. apply Hs.
Qed.

Lemma t_dup d (k : unit → M H B) : tri I (k tt) → tri I (dup d ≫= k).
Proof.
  stack_tac dup_np. eapply t_modify; [|done]. intros s' Hs'.
  apply inv_set_stack; [done|]. eapply dup_wf; [|done]. apply Hs.
Qed.

Lemma t_swap d (k : unit → M H B) : tri I (k tt) → tri I (swap d ≫= k).
Proof.
  stack_tac swap_np. eapply t_modify; [|done]. intros s' Hs'.
  apply inv_set_stack; [done|]. eapply swap_wf; [|done]. apply Hs.
Qed.

Lemma t_pop (k : word → M H B) : (∀ w, wf_word w → tri I (k w)) → tri I (pop ≫= k).
Proof.
  stack_tac pop_np. destruct st' as [w st'].
  apply pop_wf in Hst as [Hw Hst]; [|apply Hs]. apply t_assoc. eapply t_modify.
  { intros s' Hs'. by apply inv_set_stack. }
  apply t_ret_bind. auto.
Qed.

Lemma t_pop_address (k : address → M H B) :
  (∀ a, wf_addr a → tri I (k a)) → tri I (pop_address ≫= k).
Proof. intros. apply t_assoc, t_pop. intros w Hw. apply t_ret_bind. by apply H2, wf_addr_of_word. Qed.

Lemma t_pop_u64 (k : Z → M H B) :
  (∀ x, is_u64 x → tri I (k x)) → tri I (pop_u64_capped ≫= k).
Proof. intros. apply t_assoc, t_pop. intros w Hw. apply t_ret_bind. by apply H2, to_u64_range. Qed.

Lemma t_consume_to a g' (k : unit → M H B) :
  0 ≤ a → g - a ≤ g' ≤ g → tri (inv s0 g' ml pl hp) (k tt) → tri I (consume_gas a ≫= k).
Proof.
  intros Ha Hg' Hk s Hs. pose proof (Hk (set_gas (i_gas s - a) s)) as Hk'.
  unfold mbind, M_bind, consume_gas.
  destruct (i_gas s <? a) eqn:E; simp_bool; [by apply inv_einv|]. apply Hk'.
  pose proof Hs as (Hw & _ & Hg & _). destruct Hw. unfold is_u64 in *.
  apply inv_set_gas; [done|unfold is_u64; lia|lia].
Qed.

Lemma t_refund a g' (k : unit → M H B) :
  0 ≤ a → g + a ≤ g' ≤ i_gas s0 → tri (inv s0 g' ml pl hp) (k tt) → tri I (refund_gas a ≫= k).
Proof.
  intros Ha Hg' Hk. eapply t_modify; [|exact Hk]. intros s Hs.
  pose proof Hs as (Hw & _ & Hg & _). destruct Hw.
  unfold saturating_add64, U64_MAX, is_u64 in *. apply inv_set_gas; [done|unfold is_u64; lia|lia].
Qed.

End Rules.

Section Composite.
Context (s0 : Interp H) (pn : Prop) (g ml pl : Z) (hp : H → Prop).
Hypothesis Hhp : ∀ h, hp h → hok s0 h.
Context {B : Type} (Q : B → Interp H → Prop).

Abbreviation I := (inv s0 g ml pl hp).
Abbreviation tri P m := (triple pn P m Q (einv s0)).

Lemma t_consume a (k : unit → M H B) : 0 ≤ a → tri I (k tt) → tri I (consume_gas a ≫= k).
Proof. intros. apply t_consume_to with g; auto; lia. Qed.

Lemma t_expand o n (k : unit → M H B) :
  is_u64 o → is_u64 n →
  ((0 < n → o + n ≤ MAX_MEMORY) →
   triple pn (inv s0 g (if 0 <? n then Z.max ml (o + n) else ml) pl hp) (k tt) Q (einv s0)) →
  tri I (expand o n ≫= k).
Proof.
  intros [Ho _] [Hn _] Hk. apply t_assoc, t_gets. intros s Hs. apply t_assoc, t_lift;
    [by apply inv_einv | intros Hx; exfalso; revert Hx; apply ensure_np |].
  intros [cost m'] He. pose proof Hs as (Hw & _ & _ & Hm & _).
  apply ensure_spec in He as (Hwf & Hin & Hmax & Hcost & [z Hz] & _); [|apply Hw|done|done].
  apply t_assoc. eapply t_modify.
  { intros s' Hs'. eapply (inv_set_memory _ _ _ _ _ s' m'); [done|done|].
    assert (mem_size (i_memory s) ≤ mem_size m')
      by (subst m'; unfold mem_size; rewrite length_app; lia).
    instantiate (1 := if 0 <? n then Z.max ml (o + n) else ml).
    destruct (0 <? n) eqn:E; simp_bool; [|lia]. specialize (Hin E). lia. }
  cbn [fst]. apply t_consume_to with g; [done|done|lia|auto].
Qed.

Lemma t_mread o n (k : bytes → M H B) :
  is_u64 o → is_u64 n → (0 < n → o + n ≤ ml) →
  (∀ d, wf_bytes d → Z.of_nat (length d) = n → tri I (k d)) →
  tri I (mread o n ≫= k).
Proof.
  intros [Ho _] [Hn _] Hin Hk. apply t_assoc, t_gets. intros s Hs.
  pose proof Hs as (Hw & _ & _ & Hm & _). destruct Hw.
  assert (0 < n → o + n ≤ mem_size (i_memory s)) by (intros; specialize (Hin ltac:(lia)); lia).
  rewrite read_spec by done. apply t_lift; [by apply inv_einv|done|]. intros d [= <-].
  apply Hk; [apply wf_bytes_take, wf_bytes_drop, wf_me0|].
  rewrite length_take, length_drop. unfold mem_size in *. destruct (decide (n = 0)); lia.
Qed.

Lemma t_mwrite o d (k : unit → M H B) :
  is_u64 o → wf_bytes d → (0 < Z.of_nat (length d) → o + Z.of_nat (length d) ≤ ml) →
  tri I (k tt) → tri I (mwrite o d ≫= k).
Proof.
  intros [Ho _] Hd Hin Hk. apply t_assoc, t_gets. intros s Hs.
  pose proof Hs as (Hw & _ & _ & Hm & _). destruct Hw.
  assert (Hin' : 0 < Z.of_nat (length d) → o + Z.of_nat (length d) ≤ mem_size (i_memory s))
    by (intros; specialize (Hin ltac:(lia)); lia).
  pose proof (write_spec _ _ d wf_me0 Ho Hin') as Hws.
  apply t_assoc, t_lift; [by apply inv_einv|by rewrite Hws|]. intros m' Hm'.
  eapply t_modify; [|done]. intros s' Hs'. apply inv_set_memory with ml; [done| |].
  - by eapply (wf_write (i_memory s) o d).
  - rewrite Hws in Hm'. injection Hm' as <-. destruct (bool_decide _) eqn:Hne; [lia|].
    unfold mem_size in *. apply bool_decide_eq_false in Hne.
    rewrite length_write; [lia|done|apply Hin']. destruct d; [done|cbn [length]; lia].
Qed.

Lemma t_touch a (k : unit → M H B) : tri I (k tt) → tri I (touch a ≫= k).
Proof.
  intros Hk. apply t_assoc, t_gets. intros s Hs. case_match; [by apply t_ret_bind|].
  apply t_assoc, t_consume; [done|]. eapply t_modify; [|done]. intros. by apply inv_set_warm.
Qed.

Lemma t_touch_slot a (k : unit → M H B) : tri I (k tt) → tri I (touch_slot a ≫= k).
Proof.
  intros Hk. apply t_assoc, t_gets. intros s Hs. case_match; [by apply t_ret_bind|].
  apply t_assoc, t_consume; [done|]. eapply t_modify; [|done]. intros. by apply inv_set_warm_storage.
Qed.

Lemma t_push_of f (k : Ctrl H → M H B) :
  (∀ s, I s → wf_word (f s)) → tri I (k Next) → tri I (push_of f ≫= k).
Proof.
  intros Hf Hk. apply t_assoc, t_gets. intros s Hs. apply t_assoc, t_push; [done|auto|].
  by apply t_ret_bind.
Qed.

Lemma t_set_return_data d (k : unit → M H B) :
  wf_bytes d → tri I (k tt) → tri I (modify (set_return_data d) ≫= k).
Proof. intros Hd Hk. eapply t_modify; [|done]. intros. by apply inv_set_return_data. Qed.

Lemma t_set_logs f (k : unit → M H B) :
  tri I (k tt) → tri I (modify (fun s => set_logs (f s) s) ≫= k).
Proof. intros Hk. eapply t_modify; [|done]. intros. by apply inv_set_logs. Qed.

Lemma t_set_host f (hp' : H → Prop) (k : unit → M H B) :
  (∀ s, I s → hp' (f s)) → triple pn (inv s0 g ml pl hp') (k tt) Q (einv s0) →
  tri I (modify (fun s => set_host (f s) s) ≫= k).
Proof. intros Hf Hk. eapply t_modify; [|done]. intros. apply inv_set_host with hp; auto. Qed.
End Composite.
End Logic.
End EvmLogic.
