(* ===== verification/EvmExec.v ===== *)
(** * Every instruction keeps the frame invariant

    The triples of the instruction handlers of [interpreter.rs], in the logic
    of [EvmLogic]: each handler, started in a well-formed frame, either fails
    or ends in a well-formed frame with no more gas than before, the same open
    snapshots on the host and, in a static frame, an unchanged chain state.
    A handler that suspends the frame for a child satisfies [susp_call] or
    [susp_create], and [resume_call] and [resume_create] restore the
    invariant. *)

From S2P Require Import Prelude.
From S2P Require Import Monad.
From S2P Require Import U256.
From S2P Require Import U256Wf.
From S2P Require Import EvmBase.
From S2P Require Import EvmHost.
From S2P Require Import EvmInterp.
From S2P Require Import EvmLogic.

Module EvmExec.
Import Monad U256 U256Wf EvmBase EvmHost EvmInterp EvmLogic.

Section Exec.
Context {H : Type} `{HL : HostLaws H} `{KO : KeccakOk} `{PO : PrecompilesOk}.
Implicit Types s : Interp H.

(** The host has not been touched since the frame's instruction started. *)
Definition eqh s0 : H → Prop := fun h => h = i_host s0.

Lemma eqh_hok s0 : hinv (i_host s0) → ∀ h, eqh s0 h → hok s0 h.
Proof. intros Hi h ->. by split. Qed.

Lemma hok_hok s0 : ∀ h, hok s0 h → hok s0 h.
Proof. done. Qed.

(** A child about to run: well formed, with less gas than its parent had, one
    frame deeper, static if the parent is, on a host whose last snapshot is
    the state to return to. *)
Record child_ok s0 (w : World) (snap : Z) (forwarded : Z) (sub : Interp H) : Prop := {
  co_wf : wf sub;
  co_gas : i_gas sub < i_gas s0;
  co_limit : i_gas sub = forwarded ∧ c_gas_limit (i_ctx sub) = forwarded;
  co_hinv : hinv (i_host sub);
  co_snaps : hsnaps (i_host sub) = (snap, w) :: hsnaps (i_host s0);
  co_static : c_is_static (i_ctx s0) = true →
    c_is_static (i_ctx sub) = true ∧ hworld (i_host sub) = hworld (i_host s0)
}.

(** The parent frame while the child runs; [left] is what it may still get
    back on top of its own gas. *)
Definition susp_call s0 (sub : Interp H) (p : PendingCall) s : Prop :=
  child_ok s0 (hworld (i_host s0)) (p_snap p) (p_forwarded p) sub ∧
  inv s0 (i_gas s0 - GAS_CALL - p_billed p) 0 (i_pc s0) (fun _ => True) s ∧
  0 ≤ p_billed p ∧ is_u64 (p_ret_off p) ∧ is_u64 (p_ret_len p).

Definition susp_create s0 (sub : Interp H) (p : PendingCreate) s : Prop :=
  child_ok s0 (hworld (inc_nonce (i_host s0) (c_callee (i_ctx s0))).2) (pc_snap p) (pc_forwarded p) sub ∧
  inv s0 (i_gas s0 - GAS_CREATE - pc_forwarded p) 0 (i_pc s0) (fun _ => True) s ∧
  c_is_static (i_ctx s0) = false ∧ 0 ≤ pc_forwarded p ∧ wf_addr (pc_new_addr p).

Definition good s0 (c : Ctrl H) s : Prop :=
  match c with
  | Next => inv s0 (i_gas s0) 0 (i_pc s0) (hok s0) s
  | Jumped => inv s0 (i_gas s0 - 1) 0 0 (hok s0) s
  | Halt _ => einv s0 s
  | EnterCall sub p => susp_call s0 sub p s
  | EnterCreate sub p => susp_create s0 sub p s
  end.

Lemma inv_good_next s0 g ml hp s :
  (∀ h, hp h → hok s0 h) → inv s0 g ml (i_pc s0) hp s → good s0 Next s.
Proof.
  intros Hhp (?&?&?&?&?&?). split; [done|]. split; [done|].
  split; [lia|]. split; [lia|]. split; [lia|]. by apply Hhp.
Qed.

Lemma inv_hinv s0 g ml pl (hp : H → Prop) s :
  (∀ h, hp h → hok s0 h) → inv s0 g ml pl hp s → hinv (i_host s).
Proof. intros Hhp (_&_&_&_&_&Hh). by apply Hhp. Qed.

Lemma words_of_nonneg n : 0 ≤ words_of n.
Proof. apply Z.div_pos; [apply Z.mod_pos_bound; lia | lia]. Qed.

Lemma wrap64_nonneg n : 0 ≤ wrap64 n.
Proof. apply Z.mod_pos_bound. lia. Qed.

Lemma byte_len_nonneg a : 0 ≤ u256_byte_len a.
Proof. unfold u256_byte_len. induction a as [|x a IH]; simpl; [lia|]. case_match; lia. Qed.

#[local] Hint Resolve words_of_nonneg wrap64_nonneg byte_len_nonneg : zbx.

Lemma u64_small n : 0 ≤ n < 1000 → is_u64 n.
Proof. unfold is_u64. lia. Qed.

(** Discharges the side conditions of the rules. *)
Ltac side_hp := first [assumption | apply hok_hok | apply eqh_hok; assumption].
Ltac side_wf :=
  repeat match goal with
  | H : inv _ _ _ _ _ ?s |- _ => lazymatch goal with
      | Hw : wf s |- _ => fail
      | _ => pose proof (proj1 H); pose proof (wf_c _ (proj1 H));
             assert (hinv (i_host s)) by (eapply inv_hinv; [|exact H]; side_hp)
      end
  end;
  solve [ auto with zbx
        | apply wf_addr_word, wc_callee; assumption
        | apply wf_addr_word, wc_caller; assumption
        | apply wf_addr_word, wc_coinbase; assumption
        | apply wc_value; assumption
        | apply balance_wf; assumption
        | apply storage_load_wf; assumption
        | apply wc_calldata; assumption
        | apply wf_cd; assumption
        | apply code_wf; assumption
        | case_match; [apply wf_zero | apply code_hash_wf; assumption]
        | apply keccak_wf ].
Ltac side_u64 := first [assumption | apply u64_small; lia].
Ltac side_gas :=
  first [ done | apply wrap64_nonneg | lia
        | pose proof byte_len_nonneg; match goal with |- context [u256_byte_len ?w] =>
            pose proof (byte_len_nonneg w); lia end ].

(** Unfold the combinators of the handlers. *)
Ltac t_unfold :=
  unfold binop, ternop, cmpop, unop, push_zero_with_ret, push_zero, ctx_static, do_return.

Ltac t_step :=
  lazymatch goal with
  | |- triple _ _ (mbind _ ?m) _ _ =>
      lazymatch m with
      | mbind _ _ => apply t_assoc
      | mret _ => apply t_ret_bind
      | pop => apply t_pop; [side_hp|]; intros ? ?
      | pop_address => apply t_pop_address; [side_hp|]; intros ? ?
      | pop_u64_capped => apply t_pop_u64; [side_hp|]; intros ? ?
      | push _ => apply t_push; [side_hp | try side_wf |]
      | dup _ => apply t_dup; [side_hp|]
      | swap _ => apply t_swap; [side_hp|]
      | consume_gas _ => apply t_consume; [side_hp | try side_gas |]
      | expand _ _ => apply t_expand; [side_hp | side_u64 | side_u64 | intros ?]
      | mread _ _ => apply t_mread; [side_hp | side_u64 | side_u64 | try (case_if; lia) |]; intros ? ? ?
      | mwrite _ _ => apply t_mwrite; [side_hp | side_u64 | | |]
      | touch _ => apply t_touch; [side_hp|]
      | touch_slot _ => apply t_touch_slot; [side_hp|]
      | push_of _ => apply t_push_of; [side_hp | intros ? ?; try side_wf |]
      | gets _ => apply t_gets; intros ? ?
      | modify (set_return_data _) => apply t_set_return_data; [try done; try constructor|]
      | (if ?b then _ else _) => destruct b eqn:?
      end
  | |- triple _ _ (push_of _) _ _ => apply t_tail
  | |- triple _ _ (if ?b then _ else _) _ _ => destruct b eqn:?
  | |- triple _ _ (fail _) _ _ => apply t_fail; intros ? ?; eapply inv_einv; [|eassumption]; side_hp
  | |- triple _ _ (mret Next) _ _ => apply t_ret; intros ? ?; eapply inv_good_next; [|eassumption]; side_hp
  end.
Ltac t_go := t_unfold; repeat t_step.
(** The bounds of every 64-bit value in the context. *)
Ltac u64_facts :=
  repeat match goal with
  | Hu : is_u64 ?x |- _ => lazymatch goal with
      | _ : 0 <= x < 2 ^ 64 |- _ => fail
      | _ => pose proof (Hu : 0 <= x < 2 ^ 64)
      end
  end.
Ltac t_mem := first [ lia | case_if; lia ].

Lemma slice_length (data : bytes) i j (out : bytes) :
  0 ≤ i → slice (E := EvmError) data i j = Ok out →
  i ≤ j ∧ j ≤ Z.of_nat (length data) ∧ Z.of_nat (length out) = j - i ∧ (wf_bytes data → wf_bytes out).
Proof.
  intros Hi. unfold slice. case_match; [|done]. simp_bool. intros [= <-].
  rewrite length_slice by lia. split_and!; [lia..|]. intros. by apply wf_bytes_take, wf_bytes_drop.
Qed.

Lemma calldataload_spec data o :
  wf_bytes data → Z.of_nat (length data) < 2 ^ 63 → 0 ≤ o →
  ∃ w, calldataload data o = Ok w ∧ wf_word w.
Proof.
  intros Hd Hlen Ho. unfold calldataload, saturating_sub. case_if; [|eexists; split; [done|apply wf_zero]].
  set (len := Z.min _ 32) in *. unfold wrap64. rewrite Z.mod_small by lia.
  rewrite slice_ok by lia. eexists. split; [done|]. split.
  - rewrite length_app, length_replicate.
    pose proof (length_slice data o (o + len) ltac:(lia) ltac:(lia)). lia.
  - apply Forall_app. split; [by apply wf_bytes_take, wf_bytes_drop | apply wf_replicate0].
Qed.

Lemma push_value_spec cd pc n :
  wf_bytes cd → 0 ≤ pc < Z.of_nat (length cd) → 0 ≤ n ≤ 32 →
  ∃ w, push_value cd pc n = Ok w ∧ wf_word w.
Proof.
  intros Hd Hpc Hn. unfold push_value. rewrite slice_ok by lia. eexists. split; [done|].
  pose proof (length_slice cd (pc + 1) (Z.min (pc + 1 + n) (Z.of_nat (length cd))) ltac:(lia) ltac:(lia)).
  split; [rewrite !length_app, !length_replicate; lia|].
  apply Forall_app. split; [apply wf_replicate0|]. apply Forall_app.
  split; [by apply wf_bytes_take, wf_bytes_drop | apply wf_replicate0].
Qed.

Section Copy.
Context (s0 : Interp H) (pn : Prop) (g ml pl : Z) (hp : H → Prop).
Hypothesis Hhp : ∀ h, hp h → hok s0 h.
Context {B : Type} (Q : B → Interp H → Prop).
Abbreviation I := (inv s0 g ml pl hp).
Abbreviation tri P m := (triple pn P m Q (einv s0)).

Lemma t_copy data dest src size (k : unit → M H B) :
  pn → wf_bytes data → is_u64 dest → is_u64 src → is_u64 size →
  (0 < size → dest + size ≤ ml) → tri I (k tt) → tri I (copy_padded data dest src size ≫= k).
Proof.
  intros Hp Hd Hdst [Hs0 Hs1] [Hz0 Hz1] Hin Hk. unfold copy_padded. case_if; [|by apply t_ret_bind].
  apply t_assoc, t_lift; [intros; by eapply inv_einv|done|]. intros chunk Hc.
  apply slice_length in Hc as (Hle & Hle2 & Hlen & Hw); [|done]. specialize (Hin Heqb).
  set (cl := Z.min _ _) in *. unfold saturating_sub in cl.
  assert (Hcl : Z.of_nat (length chunk) = cl).
  { rewrite Hlen. unfold wrap64 in *.
    destruct (decide (src + cl < 2 ^ 64)); [rewrite Z.mod_small; lia|].
    assert ((src + cl) mod 2 ^ 64 = src + cl - 2 ^ 64); [|lia].
    symmetry. apply Z.mod_unique with 1; lia. }
  assert (Htot : Z.of_nat (length (chunk ++ replicate (Z.to_nat (size - cl)) 0)) = size)
    by (rewrite length_app, length_replicate; lia).
  apply t_mwrite; [done|done| |rewrite Htot; auto|done].
  apply Forall_app. split; [by apply Hw | apply wf_replicate0].
Qed.

Lemma t_write_ret o n out (k : unit → M H B) :
  is_u64 o → is_u64 n → wf_bytes out → (0 < n → o + n ≤ ml) →
  tri I (k tt) → tri I (write_ret o n out ≫= k).
Proof.
  intros Ho [Hn _] Hout Hin Hk. unfold write_ret. case_if; [|by apply t_ret_bind].
  apply t_mwrite; [done|done|by apply wf_bytes_take| |done].
  rewrite length_take. lia.
Qed.

Lemma t_pop_n n (k : list word → M H B) :
  (∀ l, Forall wf_word l → tri I (k l)) → tri I (pop_n n ≫= k).
Proof.
  revert k. induction n as [|n IH]; intros k Hk; [apply t_ret_bind; by apply Hk|].
  apply t_assoc, t_pop; [done|]. intros w Hw. apply t_assoc, IH. intros l Hl.
  apply t_ret_bind, Hk. by constructor.
Qed.
End Copy.

Section Groups.
Context (s0 : Interp H) (g : Z) (Hi : hinv (i_host s0)).
Abbreviation pre := (inv s0 g 0 (i_pc s0) (eqh s0)).

Lemma exec_arith_ok b : triple False pre (exec_arith b) (good s0) (einv s0).
Proof. unfold exec_arith. t_go. Qed.

Lemma exec_block_ok b : triple False pre (exec_block b) (good s0) (einv s0).
Proof. unfold exec_block. t_go; apply t_tail; t_go. Qed.

Lemma t_calldataload s x (k : word → M H (Ctrl H)) pn :
  pre s → is_u64 x → (∀ w, wf_word w → triple pn pre (k w) (good s0) (einv s0)) →
  triple pn pre (lift (calldataload (c_calldata (i_ctx s)) x) ≫= k) (good s0) (einv s0).
Proof.
  intros Hs [Hx _] Hk. pose proof (wf_c _ (proj1 Hs)) as Hc.
  destruct (calldataload_spec (c_calldata (i_ctx s)) x) as (w & -> & Hw); [apply Hc..|done|].
  apply t_lift; [|done|]; [intros; eapply inv_einv; [|eassumption]; by apply eqh_hok|].
  intros ? [= <-]. auto.
Qed.

Lemma returndatacopy_ok b :
  b = 0x3e → triple False pre (exec_env b) (good s0) (einv s0).
Proof.
  intros ->. change (exec_env 0x3e) with (
    dest ← pop_u64_capped; off ← pop_u64_capped; size ← pop_u64_capped;
    end_ ← lift (ok_or (checked_add64 off size) (MemoryOutOfBounds off size));
    rd ← gets i_return_data;
    if Z.of_nat (length rd) <? end_ then fail (MemoryOutOfBounds off size) else
    expand dest size;;
    consume_gas (wrap64 (3 * words_of size));;
    (if 0 <? size then chunk ← lift (slice rd off (wrap64 (off + size))); mwrite dest chunk
     else mret tt);;
    mret (M := M H) (@Next H)).
  t_go. apply t_lift; [intros; eapply inv_einv; [|eassumption]; by apply eqh_hok| |].
  { unfold checked_add64. by case_if. }
  intros end_ Hend. unfold checked_add64 in Hend.
  destruct (_ <=? U64_MAX) eqn:Hmax in Hend; [|done]. cbn in Hend. injection Hend as <-.
  unfold U64_MAX in *.
  t_go; simp_bool. u64_facts. match goal with Hs : inv _ _ _ _ _ _ |- _ => pose proof (wf_rd _ (proj1 Hs)) end.
  apply t_lift; [intros; eapply inv_einv; [|eassumption]; by apply eqh_hok| |].
  { unfold wrap64. rewrite Z.mod_small by lia. intros Hx. by rewrite slice_ok in Hx by lia. }
  intros chunk Hc. apply slice_length in Hc as (_ & _ & Hlen & Hw); [|lia].
  unfold wrap64 in Hlen. rewrite Z.mod_small in Hlen by lia.
  apply t_mwrite; [side_hp|side_u64|auto| |t_go]. lia.
Qed.

Lemma exec_env_ok b :
  triple (b = 0x37 ∨ b = 0x39 ∨ b = 0x3c) pre (exec_env b) (good s0) (einv s0).
Proof.
  destruct (decide (b = 0x3e)) as [->|Hne].
  { intros s Hs. pose proof (returndatacopy_ok 0x3e eq_refl s Hs). by destruct (exec_env _ s) as [[| |] ?]. }
  unfold exec_env. t_go; simp_bool; try done.
  all: try (apply t_copy; [side_hp|lia|side_wf|side_u64|side_u64|side_u64|t_mem|]; t_go).
  apply t_calldataload; [done..|]. intros. t_go.
Qed.

Lemma jump_to_ok dest :
  g ≤ i_gas s0 - 1 → is_u64 dest → triple False pre (jump_to dest) (good s0) (einv s0).
Proof.
  intros Hg [Hd _]. unfold jump_to. t_go. eapply t_modify with (P' := good s0 Jumped).
  - intros s' Hs'. pose proof Hs' as (?&?&?&?&?&?).
    assert (inv s0 g 0 0 (eqh s0) (set_pc dest s')) as Hj by (eapply inv_set_pc; [done|lia]).
    destruct Hj as (?&?&?&?&?&?). split; [done|]. split; [done|]. split; [lia|].
    split; [lia|]. split; [lia|]. by apply eqh_hok.
  - by apply t_ret.
Qed.

Lemma sstore_ok : triple False pre sstore (good s0) (einv s0).
Proof.
  unfold sstore. t_go.
  all: match goal with Hs : inv _ _ _ _ _ ?x, E : c_is_static (i_ctx ?x) = false |- _ =>
    destruct Hs as (_ & (Hctx & _) & _); rewrite Hctx in E end.
  all: eapply t_set_host with (hp' := hok s0); [|t_go].
  all: intros s' Hs'; destruct Hs' as (_&_&_&_&_&->).
  all: split; [by apply storage_store_inv|]; split; [apply storage_store_snaps | congruence].
Qed.

Lemma exec_flow_ok b :
  (b = 0x56 ∨ b = 0x57 → g ≤ i_gas s0 - 1) → triple False pre (exec_flow b) (good s0) (einv s0).
Proof.
  intros Hg. unfold exec_flow. t_go; simp_bool; u64_facts;
    try (apply jump_to_ok; [by auto|done]); try (apply sstore_ok).
  all: try (match goal with |- context [mwrite] => idtac end; t_go).
  - split; [lia|done].
  - match goal with Hw : wf_word _ |- _ => apply Hw end.
  - match goal with Hw : wf_word _ |- _ => rewrite (proj1 Hw) end. change (0 <? 32) with true. cbn iota. lia.
  - constructor; [by apply byte_at_u8 | constructor].
  - change (0 <? 1) with true. cbn iota. cbn [length]. lia.
Qed.

Lemma exec_push_dup_swap_ok b :
  0x60 ≤ b ≤ 0x9f → i_pc s0 < Z.of_nat (length (i_code s0)) →
  triple False (fun s => pre s ∧ i_pc s = i_pc s0) (exec_push_dup_swap b) (good s0) (einv s0).
Proof.
  intros Hb Hlen. unfold exec_push_dup_swap.
  destruct (b <? 0x80) eqn:E1; simp_bool.
  - apply t_gets. intros s1 [Hs1 _]. apply t_gets. intros s2 [Hs2 Hpc].
    apply t_conseq with (P' := pre) (Q' := good s0); [|by intros ? []|done].
    pose proof Hs1 as (Hw & (_ & Hcd & _) & _). pose proof (wf_pc _ (proj1 Hs2)).
    destruct (push_value_spec (i_code s1) (i_pc s2) (b - 0x5f)) as (v & -> & Hv);
      [apply Hw | rewrite Hcd, Hpc in *; lia | lia |].
    apply t_lift; [intros; eapply inv_einv; [|eassumption]; by apply eqh_hok|done|].
    intros ? [= <-]. t_step. eapply t_modify with (P' := inv s0 g 0 (i_pc s0) (eqh s0)); [|t_go].
    intros s Hs. pose proof Hs as (_&_&_&_&?&_). eapply inv_set_pc; [done|lia].
  - apply t_conseq with (P' := pre) (Q' := good s0); [|by intros ? []|done]. t_go.
Qed.

Lemma exec_log_ok b :
  0xa0 ≤ b ≤ 0xa4 → triple False pre (exec_log b) (good s0) (einv s0).
Proof.
  intros Hb. unfold exec_log. t_go. apply t_pop_n; [side_hp|]. intros topics Ht. t_go.
  apply t_set_logs. t_go.
Qed.

Lemma do_return_ok status : triple False pre (do_return status) (good s0) (einv s0).
Proof.
  t_go. apply t_ret. intros s Hs. eapply inv_einv; [|exact Hs]. side_hp.
Qed.

Lemma selfdestruct_ok : triple False pre selfdestruct (good s0) (einv s0).
Proof.
  unfold selfdestruct. t_go.
  match goal with Hs : inv _ _ _ _ _ ?x, E : c_is_static (i_ctx ?x) = false |- _ =>
    destruct Hs as (_ & (Hctx & _) & _); rewrite Hctx in E end.
  eapply t_set_host with (hp' := hok s0).
  - intros s' (_&_&_&_&_&->).
    split; [by apply destruct_inv|]. split; [apply destruct_snaps | congruence].
  - apply t_ret. intros. eapply inv_einv; [|eassumption]. side_hp.
Qed.
End Groups.

(** ** Calls *)

(** The host between the snapshot of a call and its commit or rollback. *)
Definition hsnapd s0 (w : World) (snap : Z) (h : H) : Prop :=
  hinv h ∧ hsnaps h = (snap, w) :: hsnaps (i_host s0) ∧
  (c_is_static (i_ctx s0) = true → hworld h = hworld (i_host s0)).

Lemma commit_hok s0 w snap h : hsnapd s0 w snap h → hok s0 (commit h snap).
Proof.
  intros (Hi & Hs & Hw). split; [by apply commit_inv|]. split; [by eapply commit_snaps|].
  rewrite commit_world. done.
Qed.

Lemma revert_hok s0 w snap h :
  (c_is_static (i_ctx s0) = true → w = hworld (i_host s0)) →
  hsnapd s0 w snap h → hok s0 (revert_to h snap) ∧ hworld (revert_to h snap) = w.
Proof.
  intros Hw0 (Hi & Hs & Hw). assert (hworld (revert_to h snap) = w) as Hr by (by eapply revert_world).
  split; [|done]. split; [by apply revert_inv|]. split; [by eapply revert_snaps|]. by rewrite Hr.
Qed.

Lemma snapshot_hsnapd s0 :
  hinv (i_host s0) → hsnapd s0 (hworld (i_host s0)) (snapshot (i_host s0)).1 (snapshot (i_host s0)).2.
Proof.
  intros Hi. split; [by apply snapshot_inv|]. split; [apply snapshot_snaps|].
  by rewrite snapshot_world.
Qed.

Lemma transfer_hsnapd s0 w snap h a b v :
  c_is_static (i_ctx s0) = false → wf_word v →
  hsnapd s0 w snap h → hsnapd s0 w snap (transfer h a b v).2.
Proof.
  intros Hst Hv (Hi & Hs & Hw). split; [by apply transfer_inv|].
  split; [by rewrite transfer_snaps | congruence].
Qed.

Lemma child_wf (parent : Interp H) c cd f :
  wf_ctx c → wf_bytes cd → (length (i_frames parent) < CALL_DEPTH_LIMIT)%nat →
  wf (child parent c cd f).
Proof.
  intros Hc Hcd Hf. constructor; simpl; try done.
  - split; [constructor | unfold MAX_STACK; simpl; lia].
  - split; [constructor|]. split; [done|]. by vm_compute.
  - apply Hc.
  - constructor.
  - rewrite length_app. simpl. lia.
Qed.

Lemma sub_ctx_wf kind c target value calldata fwd :
  wf_ctx c → wf_addr target → wf_word value → wf_bytes calldata →
  Z.of_nat (length calldata) < 2 ^ 63 → is_u64 fwd →
  wf_ctx (sub_ctx kind c target value calldata fwd).
Proof.
  intros Hc Ht Hv Hcd Hl Hf. destruct Hc. destruct kind; constructor; simpl; try done. apply wf_zero.
Qed.

Lemma sub_ctx_static kind c target value calldata fwd :
  c_is_static c = true → c_is_static (sub_ctx kind c target value calldata fwd) = true.
Proof. by destruct kind. Qed.

Lemma sub_ctx_gas kind c target value calldata fwd :
  c_gas_limit (sub_ctx kind c target value calldata fwd) = fwd.
Proof. by destruct kind. Qed.

Lemma run_precompile_ok s target calldata fwd : pre_ok (run_precompile s target calldata fwd).
Proof. unfold run_precompile. repeat case_match; apply PO. Qed.

(** The part of [do_call] after the parent has paid for the forwarded gas. *)
Section CallDispatch.
Context (s0 : Interp H) (g ml snap billed forwarded ret_off ret_len : Z).
Hypothesis Hi : hinv (i_host s0).
Hypothesis Hg : g ≤ i_gas s0 - GAS_CALL.
Hypothesis Hbilled : 0 ≤ billed.
Hypothesis Hfwd : is_u64 forwarded.
Hypothesis Hfwd_lt : forwarded < i_gas s0.
Hypothesis Hro : is_u64 ret_off.
Hypothesis Hrl : is_u64 ret_len.
Abbreviation hs := (hsnapd s0 (hworld (i_host s0)) snap).
Abbreviation mid := (inv s0 (g - billed) ml (i_pc s0) hs).

Lemma t_commit (k : unit → M H (Ctrl H)) :
  triple False (inv s0 (g - billed) ml (i_pc s0) (hok s0)) (k tt) (good s0) (einv s0) →
  triple False mid (modify (fun s => set_host (commit (i_host s) snap) s) ≫= k) (good s0) (einv s0).
Proof.
  intros Hk. eapply t_set_host with (hp' := hok s0); [|done].
  intros s (_&_&_&_&_&Hh). by eapply commit_hok.
Qed.

Lemma t_rollback (k : unit → M H (Ctrl H)) :
  triple False (inv s0 (g - billed) ml (i_pc s0) (hok s0)) (k tt) (good s0) (einv s0) →
  triple False mid (modify (fun s => set_host (revert_to (i_host s) snap) s) ≫= k) (good s0) (einv s0).
Proof.
  intros Hk. eapply t_set_host with (hp' := hok s0); [|done].
  intros s (_&_&_&_&_&Hh). by eapply revert_hok.
Qed.

Lemma call_precompiled_ok target calldata :
  triple False mid (call_precompiled target calldata snap forwarded billed ret_off ret_len)
    (good s0) (einv s0).
Proof.
  unfold call_precompiled. t_step.
  match goal with |- context [run_precompile ?s ?t ?c ?f] =>
    pose proof (run_precompile_ok s t c f) as Hp; destruct (run_precompile s t c f) as [[out used]|e|] end;
    [destruct Hp as [Hout Hused]| |done].
  - apply t_commit. t_go. apply t_write_ret; [side_hp|done|done|done| |].
    { intros. case_if; lia. }
    apply t_refund with g; [unfold saturating_sub; lia|unfold saturating_sub, GAS_CALL in *; lia|]. t_go.
  - apply t_rollback. t_go.
Qed.

Lemma call_dispatch_ok kind target value calldata :
  wf_addr target → wf_word value → wf_bytes calldata → Z.of_nat (length calldata) < 2 ^ 63 →
  (length (i_frames s0) < CALL_DEPTH_LIMIT)%nat →
  triple False mid
    (call_dispatch kind target value calldata snap forwarded billed ret_off ret_len)
    (good s0) (einv s0).
Proof.
  intros Ht Hv Hcd Hcl Hf. unfold call_dispatch.
  destruct (is_precompile target); [apply call_precompiled_ok|]. t_step. t_step.
  - apply t_commit. t_go. apply t_refund with g; [lia|unfold GAS_CALL in *; lia|]. t_go.
  - intros st Hs. simpl. pose proof Hs as (Hw & (Hctx & Hco & Hfr) & Hgas & Hml & Hpc & Hh).
    destruct Hh as (Hhi & Hhs & Hhw).
    match goal with Hs' : inv _ _ _ _ _ ?x |- context [code (i_host ?x) target] =>
      destruct Hs' as (_&_&_&_&_&(Hhi' & _)) end.
    split; [|split; [|done]].
    + constructor; simpl; rewrite ?sub_ctx_gas; try done.
      * apply child_wf; [apply sub_ctx_wf; try done; apply Hw | by apply code_wf | by rewrite Hfr].
      * intros Hst. split; [apply sub_ctx_static; by rewrite Hctx | auto].
    + split; [done|]. split; [done|]. unfold GAS_CALL in *. cbn [p_billed]. split; [lia|].
      split; [lia|]. split; [lia|done].
Qed.
End CallDispatch.

Lemma forward_gas_bounds gas req :
  0 ≤ gas → 0 ≤ req → 0 ≤ forward_gas_eip150 gas req ≤ gas.
Proof.
  intros. unfold forward_gas_eip150, saturating_sub.
  assert (0 ≤ gas / 64) by (apply Z.div_pos; lia). lia.
Qed.

Lemma call_enter_ok s0 g ml kind gas_req target value calldata at_ ret_off ret_len :
  hinv (i_host s0) →
  g + (if at_ : bool then GAS_CALL_STIPEND else 0) ≤ i_gas s0 - GAS_CALL →
  (at_ = true → c_is_static (i_ctx s0) = false) →
  is_u64 gas_req → is_u64 ret_off → is_u64 ret_len →
  wf_addr target → wf_word value → wf_bytes calldata → Z.of_nat (length calldata) < 2 ^ 63 →
  triple False (inv s0 g ml (i_pc s0) (eqh s0))
    (call_enter kind gas_req target value calldata at_ ret_off ret_len) (good s0) (einv s0).
Proof.
  intros Hi Hg Hst Hreq Hro Hrl Ht Hv Hcd Hcl. unfold call_enter.
  apply t_gets. intros s1 Hs1. t_step; [t_go|]. apply Nat.leb_gt in Heqb.
  destruct Hs1 as (_ & (_ & _ & ->) & _) in Heqb.
  apply t_gets. intros s2 Hs2. pose proof Hs2 as (Hw2 & _ & Hgas & _).
  pose proof (wf_ga _ Hw2) as Hga. unfold is_u64 in Hga.
  pose proof (forward_gas_bounds (i_gas s2) gas_req ltac:(lia) ltac:(apply Hreq)) as Hb.
  set (billed := forward_gas_eip150 _ _) in *. cbv zeta.
  set (forwarded := saturating_add64 _ _).
  assert (Hf : is_u64 forwarded ∧ forwarded < i_gas s0).
  { unfold forwarded, saturating_add64, U64_MAX, is_u64, GAS_CALL, GAS_CALL_STIPEND in *.
    destruct at_; lia. }
  apply t_consume_to with (g' := g - billed); [side_hp|lia|lia|].
  apply t_gets. intros s3 Hs3. destruct Hs3 as (_&_&_&_&_&->).
  pose proof (snapshot_hsnapd s0 Hi) as Hsn. set (snap := (snapshot (i_host s0)).1) in *.
  eapply t_set_host with (hp' := hsnapd s0 (hworld (i_host s0)) snap).
  { by intros s (_&_&_&_&_&->). }
  assert (Hg' : g ≤ i_gas s0 - GAS_CALL) by (unfold GAS_CALL_STIPEND in *; destruct at_; lia).
  apply t_gets. intros s4 Hs4. destruct (is_kcall kind && at_) eqn:Hk.
  2:{ apply call_dispatch_ok; try done; try lia; apply Hf. }
  simp_bool. destruct (lex_lt _ _).
  - eapply t_rollback; [done..|]. apply t_refund with g; [lia|lia|]. t_go.
  - eapply t_set_host with (hp' := hsnapd s0 (hworld (i_host s0)) snap).
    { intros s (_&_&_&_&_&Hh). by apply transfer_hsnapd; [apply Hst| |]. }
    apply call_dispatch_ok; try done; try lia; apply Hf.
Qed.

(** [do_call] after the value operand is known. *)
Lemma do_call_ok s0 g kind :
  hinv (i_host s0) → g ≤ i_gas s0 - GAS_CALL →
  triple False (inv s0 g 0 (i_pc s0) (eqh s0)) (do_call kind) (good s0) (einv s0).
Proof.
  intros Hi Hg. unfold do_call, ctx_static. t_step. t_step.
  apply t_bind with (R := fun v s => wf_word v ∧ inv s0 g 0 (i_pc s0) (eqh s0) s).
  { destruct kind.
    1,2: apply t_tail; t_go; apply t_ret; auto.
    - apply t_tail. t_step. apply t_ret. intros. split; [apply wc_value, wf_c; by eapply proj1|done].
    - apply t_ret. intros. split; [apply wf_zero|done]. }
  intros value. apply t_pure. intros Hv. apply t_gets. intros s1 Hs1. destruct Hs1 as (_ & (-> & _) & _).
  t_step; [t_go|]. do 7 t_step. u64_facts. unfold GAS_CALL_VALUE_TRANSFER, MAX_MEMORY in *.
  assert (Z.of_nat (length d) < 2 ^ 63) by lia.
  destruct (is_call_or_callcode kind && negb (u256_is_zero value)) eqn:Hat.
  - assert (c_is_static (i_ctx s0) = false).
    { destruct (c_is_static (i_ctx s0)); [|done]. rewrite andb_true_r in Heqb. congruence. }
    t_step. apply t_consume_to with (g' := g - 9000); [side_hp|lia|lia|].
    repeat t_step; apply call_enter_ok; try done; unfold GAS_CALL_STIPEND; lia.
  - t_step. apply call_enter_ok; try done; lia.
Qed.

(** ** Resuming after the child *)

(** The host after the child has been committed or rolled back: acceptable
    for the parent and, when the child did not succeed, in the world [w]. *)
Definition settled s0 (w : World) (ok : bool) (h : H) : Prop :=
  hok s0 h ∧ (ok = false → hworld h = w).

Lemma settled_hok s0 w ok h : settled s0 w ok h → hok s0 h.
Proof. by intros []. Qed.

Lemma child_done s0 w snap fwd sub sub' :
  child_ok s0 w snap fwd sub → einv sub sub' → hsnapd s0 w snap (i_host sub').
Proof.
  intros Hc (_&_&_&_&_&(Hi & Hs & Hw)). destruct Hc. split; [done|].
  split; [by rewrite Hs|]. intros Hst. destruct (co_static0 Hst) as [? <-]. auto.
Qed.

Lemma t_set_host_const {B} s0 pn g ml pl hp hp' x (k : unit → M H B) Q :
  hp' x → triple pn (inv s0 g ml pl hp') (k tt) Q (einv s0) →
  triple pn (inv s0 g ml pl hp) (modify (set_host x) ≫= k) Q (einv s0).
Proof. intros. eapply t_modify; [|done]. intros. by eapply inv_set_host. Qed.

Lemma t_set_warm {B} s0 pn g ml pl hp x (k : unit → M H B) Q :
  triple pn (inv s0 g ml pl hp) (k tt) Q (einv s0) →
  triple pn (inv s0 g ml pl hp) (modify (set_warm x) ≫= k) Q (einv s0).
Proof. intros. eapply t_modify; [|done]. intros. by apply inv_set_warm. Qed.

Definition resumed s0 (w : World) (ok : bool) (g : Z) (_ : unit) s : Prop :=
  inv s0 g 0 (i_pc s0) (settled s0 w ok) s.

Lemma resume_call_ok s0 sub p s sub' status :
  susp_call s0 sub p s → einv sub sub' →
  triple False (eq s) (resume_call p status sub')
    (resumed s0 (hworld (i_host s0)) (is_success status) (i_gas s0 - GAS_CALL)) (einv s0).
Proof.
  intros (Hc & Hs & Hbilled & Hro & Hrl) He.
  pose proof (child_done _ _ _ _ _ _ Hc He) as Hsn. pose proof (wf_rd _ (proj1 He)) as Hrd.
  eapply t_conseq; [|intros ? <-; exact Hs|done]. unfold resume_call. eapply t_set_host_const; [exact Hsn|]. apply t_set_warm.
  set (ok := is_success status) in *.
  apply t_bind with (R := fun _ => inv s0 (i_gas s0 - GAS_CALL - p_billed p) 0 (i_pc s0)
                                    (settled s0 (hworld (i_host s0)) ok)).
  { destruct ok; apply t_tail; [apply t_assoc|].
    - eapply t_set_host with (hp' := settled s0 (hworld (i_host s0)) true).
      + intros ? (_&_&_&_&_&Hh). split; [by eapply commit_hok|done].
      + apply t_set_logs. by apply t_ret.
    - eapply t_set_host with (hp' := settled s0 (hworld (i_host s0)) false).
      + intros ? (_&_&_&_&_&Hh). by edestruct revert_hok as [??]; [| exact Hh |].
      + by apply t_ret. }
  intros _. set (hp := settled s0 _ ok). assert (Hhp : ∀ h, hp h → hok s0 h) by apply settled_hok.
  unfold GAS_CALL in *. apply t_refund with (i_gas s0 - 100); [unfold saturating_sub; lia|lia|].
  t_go. apply t_write_ret; [done..| |]. { intros. case_if; lia. }
  apply t_tail. t_step. apply t_ret. intros st (?&?&?&?&?&?).
  split; [done|]. split; [done|]. split; [lia|]. split; [lia|]. split; [lia|done].
Qed.

Lemma create_failed_ok s0 g snap rd w ok :
  c_is_static (i_ctx s0) = false → wf_bytes rd → 
  triple False (inv s0 g 0 (i_pc s0) (hsnapd s0 w snap)) (create_failed snap rd)
    (resumed s0 w ok g) (einv s0).
Proof.
  intros Hst Hrd. unfold create_failed.
  eapply t_set_host with (hp' := settled s0 w ok).
  { intros ? (_&_&_&_&_&Hh). by edestruct (revert_hok s0 w snap) as [??]; [congruence|exact Hh|]. }
  assert (Hhp : ∀ h, settled s0 w ok h → hok s0 h) by apply settled_hok.
  t_step. apply t_tail. t_step. by apply t_ret.
Qed.

(** A charge that the preceding test has shown affordable. *)
Lemma t_checked_consume {B} s0 g ml pl hp a (m : M H B) (k : unit → M H B) Q :
  0 ≤ a → triple False (inv s0 g ml pl hp) m Q (einv s0) →
  triple False (inv s0 g ml pl hp) (k tt) Q (einv s0) →
  triple False (inv s0 g ml pl hp)
    (gr ← gets i_gas; if gr <? a then m else consume_gas a ≫= k) Q (einv s0).
Proof.
  intros Ha Hm Hk s Hs. unfold gets, mbind at 1, M_bind at 1. destruct (i_gas s <? a) eqn:E; [by apply Hm|].
  unfold consume_gas, mbind, M_bind. rewrite E. simp_bool. apply Hk.
  pose proof Hs as (Hw & _ & Hg & _). pose proof (wf_ga _ Hw). unfold is_u64 in *.
  eapply inv_set_gas; [done|unfold is_u64; lia|lia].
Qed.

Lemma resume_create_ok s0 sub p s sub' status :
  susp_create s0 sub p s → einv sub sub' →
  triple False (eq s) (resume_create p status sub')
    (resumed s0 (hworld (inc_nonce (i_host s0) (c_callee (i_ctx s0))).2) (is_success status)
       (i_gas s0 - GAS_CREATE)) (einv s0).
Proof.
  intros (Hc & Hs & Hst & Hf & Ha) He.
  pose proof (child_done _ _ _ _ _ _ Hc He) as Hsn. pose proof (wf_rd _ (proj1 He)) as Hrd.
  eapply t_conseq; [|intros ? <-; exact Hs|done]. unfold resume_create.
  eapply t_set_host_const; [exact Hsn|]. apply t_set_warm.
  apply t_refund with (i_gas s0 - GAS_CREATE);
    [unfold saturating_sub; lia|unfold gas_used, saturating_sub, GAS_CREATE in *; lia|].
  repeat (case_match; [apply create_failed_ok; try done; constructor|]).
  apply t_checked_consume; [apply wrap64_nonneg|apply create_failed_ok; try done; constructor|].
  set (w := hworld _) in *.
  eapply t_set_host with (hp' := hsnapd s0 w (pc_snap p)).
  { intros ? (_&_&_&_&_&(Hhi & Hhs & _)). split; [by apply set_code_inv|].
    split; [by rewrite set_code_snaps | congruence]. }
  eapply t_set_host with (hp' := settled s0 w true).
  { intros ? (_&_&_&_&_&Hh). split; [by eapply commit_hok|done]. }
  assert (Hhp : ∀ h, settled s0 w true h → hok s0 h) by apply settled_hok.
  apply t_set_logs. t_step. apply t_tail. t_step; [by apply wf_addr_word|].
  apply t_ret. by destruct status.
Qed.

(** ** Creation *)

Lemma t_forward_all {B} s0 g ml pl hp (k : Z → unit → M H B) Q :
  (∀ gr, let f := forward_gas_eip150 gr gr in
     is_u64 f → f ≤ g → triple False (inv s0 (g - f) ml pl hp) (k gr tt) Q (einv s0)) →
  triple False (inv s0 g ml pl hp)
    (gets i_gas ≫= fun gr => consume_gas (forward_gas_eip150 gr gr) ≫= k gr) Q (einv s0).
Proof.
  intros Hk s Hs. unfold gets, mbind at 1, M_bind at 1. specialize (Hk (i_gas s)). cbv zeta in Hk.
  pose proof Hs as (Hw & _ & Hg & _). pose proof (wf_ga _ Hw) as Hu. unfold is_u64 in Hu.
  pose proof (forward_gas_bounds (i_gas s) (i_gas s) ltac:(lia) ltac:(lia)).
  set (f := forward_gas_eip150 _ _) in *. unfold consume_gas, mbind, M_bind. dec_bool.
  apply Hk; [unfold is_u64; lia|lia|]. eapply inv_set_gas; [done|unfold is_u64; lia|lia].
Qed.

Section Create.
Context (s0 : Interp H) (g ml : Z).
Hypothesis Hi : hinv (i_host s0).
Hypothesis Hg : g ≤ i_gas s0 - GAS_CREATE.
Hypothesis Hst : c_is_static (i_ctx s0) = false.
Hypothesis Hf : (length (i_frames s0) < CALL_DEPTH_LIMIT)%nat.

(** The host once the creator's nonce has been bumped. *)
Definition bumped : H := (inc_nonce (i_host s0) (c_callee (i_ctx s0))).2.

Lemma bumped_hok h : h = bumped → hok s0 h.
Proof.
  intros ->. split; [by apply inc_nonce_inv|]. split; [apply inc_nonce_snaps | congruence].
Qed.

Definition hnew (snap : Z) (new_addr : address) (h : H) : Prop :=
  hsnapd s0 (hworld bumped) snap h ∧ nonce h new_addr = 0.

Lemma create_child value initcode new_addr snap f st :
  wf_word value → wf_bytes initcode → wf_addr new_addr → is_u64 f → f ≤ g →
  inv s0 (g - f) ml (i_pc s0) (hsnapd s0 (hworld bumped) snap) st →
  let c := i_ctx st in
  susp_create s0
    (child st (mkCtx (c_callee c) new_addr value [] f false (c_block_number c) (c_timestamp c)
                 (c_coinbase c) (c_base_fee c) (c_chain_id c))
       initcode (mkFrame snap f (Some new_addr)))
    (mkPendingCreate snap f new_addr) st.
Proof.
  intros Hv Hcd Ha Hfu Hfg Hs. cbv zeta. pose proof Hs as (Hw & (Hctx & Hco & Hfr) & Hgas & Hml & Hpc & Hh).
  destruct Hh as (Hhi & Hhs & Hhw). destruct (wf_c _ Hw). unfold is_u64, GAS_CREATE in *.
  split; [|split; [|done || (split; [done|]; split; [simpl; lia|done])]].
  - constructor; simpl; try done; [| unfold GAS_CREATE in *; lia | congruence].
    apply child_wf; [|done|by rewrite Hfr]. constructor; simpl; try done. constructor.
  - split; [done|]. split; [done|]. cbn [pc_forwarded]. unfold GAS_CREATE. split; [lia|].
    split; [lia|]. split; [lia|done].
Qed.

Lemma create_enter_ok value initcode new_addr :
  wf_word value → wf_bytes initcode → wf_addr new_addr →
  triple False (inv s0 g ml (i_pc s0) (eq bumped)) (create_enter value initcode new_addr)
    (good s0) (einv s0).
Proof.
  intros Hv Hcd Ha. unfold create_enter. pose proof (bumped_hok bumped eq_refl) as Hb.
  assert (Hhp : ∀ h, bumped = h → hok s0 h) by (intros ? <-; done).
  apply t_gets. intros s1 Hs1. destruct (_ || _) eqn:Hcol; [t_go|]. apply orb_false_iff in Hcol as [Hn _].
  destruct Hs1 as (_&(Hctx1&_)&_&_&_&Hh1). rewrite <- Hh1 in Hn. simp_bool. clear Hh1.
  assert (Hn0 : nonce bumped new_addr = 0) by (pose proof (nonce_u64 bumped new_addr (proj1 Hb)) as []; lia).
  apply t_gets. intros s2 (_&_&_&_&_&<-). set (snap := (snapshot bumped).1).
  eapply t_set_host with (hp' := hnew snap new_addr).
  { intros ? (_&_&_&_&_&<-). destruct Hb as (Hbi & Hbs & _). split; [|by rewrite snapshot_nonce].
    split; [by apply snapshot_inv|]. split; [by rewrite snapshot_snaps, Hbs | congruence]. }
  apply t_bind with (R := fun _ => inv s0 g ml (i_pc s0) (hnew snap new_addr)).
  { case_match; [|by apply t_ret]. apply t_tail. eapply t_set_host; [|by apply t_ret].
    intros ? (_&_&_&_&_&[Hh Hn']). split; [by apply transfer_hsnapd|]. by rewrite transfer_nonce. }
  intros _. apply t_gets. intros s3 (_&_&_&_&_&[Hh3 Hn3]).
  assert (Hok : (inc_nonce (i_host s3) new_addr).1 = Ok (0 + 1)).
  { rewrite inc_nonce_spec by apply Hh3. by rewrite Hn3. }
  eapply (t_set_host_const _ _ _ _ _ _ (hsnapd s0 (hworld bumped) snap)).
  { destruct Hh3 as (Hi3 & Hs3 & _). split; [by apply inc_nonce_inv|].
    split; [by rewrite inc_nonce_snaps | congruence]. }
  rewrite Hok. intros st Hst'. unfold lift at 1, mbind at 1, M_bind at 1. revert st Hst'.
  eapply t_set_host with (hp' := hsnapd s0 (hworld bumped) snap).
  { intros ? (_&_&_&_&_&(Hi4 & Hs4 & _)). split; [by apply mark_inv|].
    split; [by rewrite mark_snaps | congruence]. }
  apply t_forward_all. intros gr f Hfu Hfg st Hs. simpl.
  rewrite Hctx1. destruct (proj1 (proj2 Hs)) as [Hctx _]. rewrite <- Hctx.
  by apply create_child.
Qed.
End Create.

Lemma do_create_ok s0 g with_salt :
  hinv (i_host s0) → g ≤ i_gas s0 - GAS_CREATE →
  triple False (inv s0 g 0 (i_pc s0) (eqh s0)) (do_create with_salt) (good s0) (einv s0).
Proof.
  intros Hi Hg. unfold do_create, ctx_static. apply t_gets. intros s1 Hs1.
  destruct Hs1 as (_&(->&_)&_). t_step; [t_go|]. do 3 t_step.
  apply t_bind with (R := fun o s => from_option wf_word True o ∧ inv s0 g 0 (i_pc s0) (eqh s0) s).
  { destruct with_salt; [apply t_tail; t_go; by apply t_ret | by apply t_ret]. }
  intros salt. apply t_pure. intros Hsalt. t_step; [t_go|]. t_step. t_step.
  apply t_bind with (R := fun _ => inv s0 g (if 0 <? x0 then 0 `max` (x + x0) else 0) (i_pc s0) (eqh s0)).
  { destruct with_salt; [apply t_tail; t_go; by apply t_ret | by apply t_ret]. }
  intros _. t_step. apply t_gets. intros s2 (_&(_&_&->)&_). t_step; [t_go|].
  apply Nat.leb_gt in Heqb1.
  apply t_gets. intros s3 (_&(Hctx&_)&_&_&_&Hh3). unfold eqh in Hh3. rewrite Hctx, Hh3. t_step; [t_go|].
  eapply (t_set_host_const _ _ _ _ _ _ (eq (bumped s0))); [done|].
  assert (Hhp : ∀ h, bumped s0 = h → hok s0 h) by (intros ? <-; by apply bumped_hok).
  apply t_lift; [intros; by eapply inv_einv| |].
  { rewrite inc_nonce_spec by done. by case_match. }
  intros _ _. apply create_enter_ok; try done.
  destruct salt as [salt|]; apply wf_addr_of_word, keccak_wf.
Qed.
End Exec.
End EvmExec.
