(* ===== verification/EvmProps.v ===== *)
(** * Properties of the EVM interpreter

    What [EVMInterpreter::step] and [run] of
    [crates/zbx-evm/src/interpreter.rs] guarantee over every host that keeps
    the laws of the [Host] trait: frame invariants, termination, static
    frames, rollback of failed calls, gas, jump destinations and the inlined
    RLP of CREATE addresses. *)

From S2P Require Import Prelude.
From S2P Require Import Monad.
From S2P Require Import U256.
From S2P Require Import Rlp.
From S2P Require Import EvmBase.
From S2P Require Import EvmHost.
From S2P Require Import EvmInterp.
From S2P Require Import EvmLogic.
From S2P Require Import EvmExec.

Module EvmProps.
Import Monad U256 EvmBase EvmHost EvmInterp EvmLogic EvmExec.

Lemma static_gas_nonneg op : 0 ≤ static_gas op.
Proof. by destruct op. Qed.

Lemma static_gas_min b op :
  from_u8 b = Some op →
  (b = 0x56 ∨ b = 0x57 → 1 ≤ static_gas op) ∧
  (b = 0xf1 ∨ b = 0xf2 ∨ b = 0xf4 ∨ b = 0xfa → GAS_CALL ≤ static_gas op) ∧
  (b = 0xf0 ∨ b = 0xf5 → GAS_CREATE ≤ static_gas op).
Proof.
  intros Hop.
  split_and!; intros Hb; repeat destruct Hb as [Hb|Hb]; subst b; injection Hop as <-; vm_compute; discriminate.
Qed.

(** ** Jump destinations *)

(** The length of the instruction with opcode [op]: PUSH[n] carries [n] bytes. *)
Definition instr_len (op : Z) : nat :=
  if (0x60 <=? op) && (op <=? 0x7f) then (1 + Z.to_nat (op - 0x5f))%nat else 1%nat.

(** [reach cd pc d]: an instruction starts at [d] when one starts at [pc]. *)
Inductive reach (cd : bytes) (pc : nat) : nat → Prop :=
| reach_here : reach cd pc pc
| reach_next op d : cd !! pc = Some op → reach cd (pc + instr_len op) d → reach cd pc d.

Lemma reach_le cd pc d : reach cd pc d → (pc ≤ d)%nat.
Proof.
  induction 1 as [|pc op d _ _ IH]; [lia|]. unfold instr_len in IH. case_match; lia.
Qed.

(** Bit [d] of a bitmap, as [is_valid_jumpdest] addresses it. *)
Definition bm_bit (bm : bytes) (d : nat) : bool :=
  Z.testbit (default 0 (bm !! (d / 8)%nat)) (Z.of_nat (d mod 8)).

Lemma land_bit (x k : Z) : 0 ≤ k → negb (Z.land x (Z.shiftl 1 k) =? 0) = Z.testbit x k.
Proof.
  intros Hk. rewrite Z.shiftl_1_l. destruct (Z.testbit x k) eqn:E.
  - apply negb_true_iff, Z.eqb_neq. intros H0. apply (f_equal (fun z => Z.testbit z k)) in H0.
    rewrite Z.land_spec, E, Z.pow2_bits_true, Z.testbit_0_l in H0 by lia. done.
  - apply negb_false_iff, Z.eqb_eq. apply Z.bits_inj'. intros n Hn. rewrite Z.land_spec, Z.testbit_0_l.
    destruct (decide (n = k)) as [->|]; [by rewrite E|].
    by rewrite Z.pow2_bits_false, andb_false_r by lia.
Qed.

Lemma set_bit_bm bm pc d :
  (pc / 8 < length bm)%nat →
  bm_bit (<[(pc / 8)%nat := Z.lor (default 0 (bm !! (pc / 8)%nat))
                              (Z.shiftl 1 (Z.of_nat (pc mod 8)))]> bm) d =
  bm_bit bm d || bool_decide (d = pc).
Proof.
  intros Hl. unfold bm_bit. destruct (decide (pc / 8 = d / 8)%nat) as [E|E].
  - rewrite <- E, list_lookup_insert_eq by done. cbn [from_option id].
    rewrite Z.lor_spec, Z.shiftl_1_l. f_equal.
    pose proof (Nat.div_mod_eq d 8). pose proof (Nat.div_mod_eq pc 8).
    rewrite Z.pow2_bits_eqb by lia. case_bool_decide; [subst; by apply Z.eqb_refl|].
    apply Z.eqb_neq. lia.
  - rewrite list_lookup_insert_ne by done. case_bool_decide; [subst; done|]. by rewrite orb_false_r.
Qed.

Lemma bitmap_loop_spec fuel cd pc bm :
  (length cd - pc < fuel)%nat → length bm = ((length cd + 7) / 8)%nat →
  ∃ bm', bitmap_loop fuel cd pc bm = Some bm' ∧
    ∀ d, (d < length cd)%nat →
      bm_bit bm' d = true ↔ bm_bit bm d = true ∨ (reach cd pc d ∧ cd !! d = Some 0x5b).
Proof.
  revert pc bm. induction fuel as [|fuel IH]; intros pc bm Hf Hl; [lia|]. cbn [bitmap_loop].
  destruct (cd !! pc) as [op|] eqn:Eop.
  2:{ eexists. split; [done|]. intros d Hd. apply lookup_ge_None in Eop. split; [by left|].
      intros [?|[Hr _]]; [done|]. apply reach_le in Hr. lia. }
  pose proof (lookup_lt_Some _ _ _ Eop) as Hpc.
  assert (Hskip : op ≠ 0x5b → ∀ d, reach cd (pc + instr_len op) d ∧ cd !! d = Some 0x5b ↔
                                    reach cd pc d ∧ cd !! d = Some 0x5b).
  { intros Hne d. split; intros [Hr Hj]; (split; [|done]).
    - by eapply reach_next.
    - inversion Hr; subst; [congruence|]. simplify_eq. done. }
  destruct (op =? 0x5b) eqn:E5b; simp_bool.
  - subst op. assert ((pc / 8 < length bm)%nat) as Hlt.
    { rewrite Hl. apply Nat.Div0.div_lt_upper_bound.
      pose proof (Nat.div_mod_eq (length cd + 7) 8). pose proof (Nat.mod_upper_bound (length cd + 7) 8). lia. }
    edestruct (IH (pc + 1)%nat) as (bm' & -> & Hb); [lia|by rewrite length_insert|].
    eexists. split; [done|]. intros d Hd. rewrite Hb, set_bit_bm, orb_true_iff, bool_decide_eq_true by done.
    split.
    + intros [[?| ->]|[Hr Hj]]; [by left|right; split; [constructor|done]|].
      right. split; [|done]. by eapply reach_next.
    + intros [?|[Hr Hj]]; [by left; left|]. inversion Hr; subst; [by left; right|].
      right. simplify_eq. done.
  - destruct ((0x60 <=? op) && (op <=? 0x7f)) eqn:Ep;
      unfold instr_len in Hskip; rewrite Ep in Hskip.
    + edestruct (IH (pc + (1 + Z.to_nat (op - 0x5f)))%nat bm) as (bm' & -> & Hb); [lia|done|].
      eexists. split; [done|]. intros d Hd. rewrite Hb by done. by rewrite (Hskip ltac:(done)).
    + edestruct (IH (pc + 1)%nat bm) as (bm' & -> & Hb); [lia|done|].
      eexists. split; [done|]. intros d Hd. rewrite Hb by done. by rewrite (Hskip ltac:(done)).
Qed.

(** ** The inlined RLP *)

Lemma trim_be_spec n :
  is_u64 n → let t := Rlp.minimal_bytes n in
  be_val t = n ∧ wf_bytes t ∧ (length t ≤ 8)%nat ∧ (∀ b r, t = b :: r → b ≠ 0).
Proof.
  intros [Hn0 Hn]. cbv zeta. unfold Rlp.minimal_bytes. split_and!.
  - rewrite be_val_strip, be_val_to_be. apply Z.mod_small. change (256 ^ Z.of_nat 8) with (2 ^ 64). lia.
  - apply wf_bytes_drop, wf_to_be.
  - rewrite length_drop, length_to_be. lia.
  - apply strip_head.
Qed.

Lemma rlp_u64_item n : is_u64 n → n ≠ 0 → Rlp.string_item (Rlp.minimal_bytes n) = rlp_encode_u64 n.
Proof.
  intros Hn Hn0. destruct (trim_be_spec n Hn) as (Hv & Hw & Hl & Hh).
  unfold rlp_encode_u64. dec_bool. fold (Rlp.minimal_bytes n).
  destruct (Rlp.minimal_bytes n) as [|b [|c r]] eqn:Et.
  - rewrite be_val_nil in Hv. lia.
  - rewrite be_val_cons, be_val_nil in Hv. cbn [length] in *. simpl in Hv.
    assert (b = n) as -> by lia. cbn [Rlp.string_item length]. unfold is_u64 in Hn. case_if; done.
  - specialize (Hh b (c :: r) eq_refl). apply Forall_cons in Hw as [Hb Hw]. unfold is_u8 in Hb.
    pose proof (be_val_bound (c :: r) Hw). rewrite be_val_cons in Hv.
    assert (256 ≤ 256 ^ Z.of_nat (length (c :: r)))
      by (cbn [length]; rewrite Nat2Z.inj_succ, Z.pow_succ_r by lia;
          assert (0 < 256 ^ Z.of_nat (length r)) by (apply Z.pow_pos_nonneg; lia); lia).
    assert (0x80 ≤ n) by nia. unfold Rlp.string_item. dec_bool. f_equal.
    unfold wrap8. rewrite (Z.mod_small (Z.of_nat _)), Z.mod_small by lia. done.
Qed.

(** The three instructions whose slice can be out of range. *)
Definition copies (b : Z) : Prop := b = 0x37 ∨ b = 0x39 ∨ b = 0x3c.

Section Props.
Context {H : Type} `{HL : HostLaws H} `{KO : KeccakOk} `{PO : PrecompilesOk}.
Implicit Types s : Interp H.

Lemma exec_ok s0 b op :
  hinv (i_host s0) → from_u8 b = Some op → i_pc s0 < Z.of_nat (length (i_code s0)) → 0 ≤ b →
  triple (copies b)
    (fun s => inv s0 (i_gas s0 - static_gas op) 0 (i_pc s0) (eqh s0) s ∧ i_pc s = i_pc s0)
    (exec b) (good s0) (einv s0).
Proof.
  intros Hi Hop Hpc Hb0. pose proof (static_gas_nonneg op) as Hsg.
  destruct (static_gas_min b op Hop) as (Hj & Hcall & Hcr).
  set (g := i_gas s0 - static_gas op) in *.
  assert (Hp : ∀ m : M H (Ctrl H), triple False (inv s0 g 0 (i_pc s0) (eqh s0)) m (good s0) (einv s0) →
    triple (copies b) (fun s => inv s0 g 0 (i_pc s0) (eqh s0) s ∧ i_pc s = i_pc s0) m (good s0) (einv s0)).
  { intros m Hm. eapply t_weaken_pn; [|eapply t_conseq; [exact Hm|by intros ? []|done]]. done. }
  unfold exec, GAS_CALL, GAS_CREATE in *.
  repeat (case_if; [first [ apply Hp, exec_arith_ok; done | apply Hp, exec_block_ok; done
    | apply Hp, exec_flow_ok; [done|intros; lia] | apply Hp, exec_log_ok; [done|lia]
    | eapply t_conseq; [by apply exec_env_ok|by intros ? []|done]
    | eapply t_weaken_pn; [|apply exec_push_dup_swap_ok; [done|lia|done]]; done
    | apply Hp, t_ret; intros; eapply inv_einv; [|eassumption]; by apply eqh_hok ] |]).
  unfold exec_system.
  repeat (case_if; [first
    [ apply Hp, do_create_ok; [done | unfold GAS_CREATE; lia]
    | apply Hp, do_call_ok; [done | unfold GAS_CALL; lia]
    | apply Hp, do_return_ok; done | apply Hp, selfdestruct_ok; done ] |]).
  apply Hp, t_fail. intros. eapply inv_einv; [|eassumption]. by apply eqh_hok.
Qed.

(** What one step leaves: [good], with the program counter advanced. *)
Definition stepped s0 (c : Ctrl H) s : Prop :=
  match c with
  | Next => inv s0 (i_gas s0) 0 (i_pc s0 + 1) (hok s0) s
  | _ => good s0 c s
  end.

Lemma inv_start s0 : wf s0 → hinv (i_host s0) → inv s0 (i_gas s0) 0 (i_pc s0) (eqh s0) s0.
Proof.
  intros Hw Hi. pose proof (wf_pc _ Hw). split; [done|]. split; [done|]. split; [lia|].
  split; [unfold mem_size; lia|]. split; [lia|done].
Qed.

Lemma step_ok s0 :
  wf s0 → hinv (i_host s0) →
  match step s0 with
  | (Ok c, s') => stepped s0 c s'
  | (Err _, s') => einv s0 s'
  | (Panic, _) => ∃ b, i_code s0 !! Z.to_nat (i_pc s0) = Some b ∧ copies b
  end.
Proof.
  intros Hw Hi. pose proof (inv_start s0 Hw Hi) as Hs. pose proof (wf_pc _ Hw) as Hpc0. unfold step.
  assert (Heinv : einv s0 s0) by (eapply inv_einv; [|exact Hs]; by apply eqh_hok).
  destruct (i_code s0 !! _) as [b|] eqn:Eb; [|done].
  destruct (from_u8 b) as [op|] eqn:Eop; [|done].
  assert (Hpc : i_pc s0 < Z.of_nat (length (i_code s0))) by (apply lookup_lt_Some in Eb; lia).
  assert (Hb : 0 ≤ b) by (apply (Forall_lookup_1 _ _ _ _ (wf_cd _ Hw) Eb)).
  pose proof (exec_ok s0 b op Hi Eop Hpc Hb) as Hex.
  unfold mbind, M_bind, consume_gas. pose proof (static_gas_nonneg op).
  destruct (i_gas s0 <? static_gas op) eqn:Eg; [done|]. simp_bool.
  pose proof (wf_ga _ Hw) as Hu. unfold is_u64 in Hu.
  specialize (Hex (set_gas (i_gas s0 - static_gas op) s0)).
  destruct (exec b _) as [[c|e|] s'].
  - assert (Hg : good s0 c s').
    { apply Hex. split; [|done]. eapply inv_set_gas; [done|unfold is_u64; lia|lia]. }
    destruct c; try done. cbn. pose proof Hg as (_&_&_&_&?&_). eapply inv_set_pc; [exact Hg|lia].
  - apply Hex. split; [|done]. eapply inv_set_gas; [done|unfold is_u64; lia|lia].
  - exists b. split; [done|]. apply Hex. split; [|done].
    eapply inv_set_gas; [done|unfold is_u64; lia|lia].
Qed.

(** ** Composing steps *)

Lemma hok_trans s0 s1 h : i_ctx s1 = i_ctx s0 → hok s0 (i_host s1) → hok s1 h → hok s0 h.
Proof.
  intros Hc (Hi & Hs & Hw) (Hi' & Hs' & Hw'). split; [done|]. split; [congruence|].
  intros Hst. rewrite Hw', Hw by congruence. done.
Qed.

Lemma inv_trans s0 g ml pl s1 s2 : inv s0 g ml pl (hok s0) s1 → einv s1 s2 → einv s0 s2.
Proof.
  intros (Hw1 & (Hc1&Hd1&Hf1) & Hg1 & _ & _ & Hh1) (Hw2 & (Hc2&Hd2&Hf2) & Hg2 & Hm2 & Hp2 & Hh2).
  split; [done|]. split; [split_and!; congruence|]. split; [lia|]. split; [lia|]. split; [lia|].
  by eapply hok_trans.
Qed.

(** The frame after the child has returned and the parent has been resumed. *)
Lemma resumed_next s0 w ok g s :
  resumed s0 w ok g tt s → g ≤ i_gas s0 - 1 →
  inv s0 (i_gas s0 - 1) 0 (i_pc s0 + 1) (hok s0) (set_pc (i_pc s + 1) s).
Proof.
  intros Hr Hg. pose proof Hr as (?&?&?&?&?&Hh).
  assert (inv s0 g 0 (i_pc s0 + 1) (settled s0 w ok) (set_pc (i_pc s + 1) s)) as Hs
    by (eapply inv_set_pc; [exact Hr|lia]).
  destruct Hs as (?&?&?&?&?&?). split; [done|]. split; [done|]. split; [lia|].
  split; [lia|]. split; [lia|]. by eapply settled_hok.
Qed.

(** What [run] does after [step]: the frame ends, goes on in a later state, or
    is resumed after its child. *)
Definition next_ok s0 (r : outcome EvmError (Ctrl H) * Interp H) : Prop :=
  match r with
  | (Ok (Halt _), s') => einv s0 s'
  | (Ok Next, s') => inv s0 (i_gas s0) 0 (i_pc s0 + 1) (hok s0) s'
  | (Ok Jumped, s') => inv s0 (i_gas s0 - 1) 0 0 (hok s0) s'
  | (Ok _, _) => False
  | (Err _, s') => einv s0 s'
  | (Panic, _) => True
  end.

Lemma finish_call_ok s0 sub p s sub' status :
  susp_call s0 sub p s → einv sub sub' → next_ok s0 (finish_child (resume_call p status sub' s)).
Proof.
  intros Hs He. pose proof (resume_call_ok s0 sub p s sub' status Hs He s eq_refl) as Hr.
  destruct (resume_call p status sub' s) as [[[]|e|] s']; cbn; try done.
  eapply resumed_next in Hr; [|unfold GAS_CALL; lia].
  destruct Hr as (?&?&?&?&?&?). split; [done|]. split; [done|]. split; [lia|done].
Qed.

Lemma finish_create_ok s0 sub p s sub' status :
  susp_create s0 sub p s → einv sub sub' → next_ok s0 (finish_child (resume_create p status sub' s)).
Proof.
  intros Hs He. pose proof (resume_create_ok s0 sub p s sub' status Hs He s eq_refl) as Hr.
  destruct (resume_create p status sub' s) as [[[]|e|] s']; cbn; try done.
  eapply resumed_next in Hr; [|unfold GAS_CREATE; lia].
  destruct Hr as (?&?&?&?&?&?). split; [done|]. split; [done|]. split; [lia|done].
Qed.

(** [run] unfolded once. *)
Definition continue (n : nat) (r : outcome EvmError (Ctrl H) * Interp H) : option RunResult :=
  match r with
  | (Ok (Halt status), s') => Some (Finished status s')
  | (Ok _, s') => run n s'
  | (Err e, s') => Some (Finished (Failed e) s')
  | (Panic, _) => Some Aborted
  end.

Lemma run_S n s :
  run (S n) s =
  match step s with
  | (Ok (EnterCall sub p), s') =>
      match run n sub with
      | Some (Finished status sub') => continue n (finish_child (resume_call p status sub' s'))
      | r => r
      end
  | (Ok (EnterCreate sub p), s') =>
      match run n sub with
      | Some (Finished status sub') => continue n (finish_child (resume_create p status sub' s'))
      | r => r
      end
  | r => continue n r
  end.
Proof. reflexivity. Qed.

(** The invariant of [run]: whatever a frame does, its final state is
    acceptable for its initial one. *)
Lemma run_einv n s0 status s' :
  wf s0 → hinv (i_host s0) → run n s0 = Some (Finished status s') → einv s0 s'.
Proof.
  revert s0 status s'. induction n as [|n IH]; [done|]. intros s0 status s' Hw Hi.
  assert (Hcont : ∀ r, next_ok s0 r → continue n r = Some (Finished status s') → einv s0 s').
  { intros [[c|e|] s1] Hn; cbn; [|by intros [= _ <-]|done].
    destruct c; cbn in Hn; try done; [| |by intros [= _ <-]].
    all: intros Hr; apply IH in Hr; [by eapply inv_trans|apply Hn|apply Hn]. }
  rewrite run_S. pose proof (step_ok s0 Hw Hi) as Hst.
  destruct (step s0) as [[c|e|] s1]; [|by apply Hcont|done].
  destruct c as [| |st|sub p|sub p]; try by apply Hcont.
  - destruct (run n sub) as [[st sub'|]|] eqn:Hsub; [|done|done]. intros Hr.
    eapply Hcont; [|exact Hr]. eapply finish_call_ok; [exact Hst|].
    destruct Hst as [[] _]. by eapply IH.
  - destruct (run n sub) as [[st sub'|]|] eqn:Hsub; [|done|done]. intros Hr.
    eapply Hcont; [|exact Hr]. eapply finish_create_ok; [exact Hst|].
    destruct Hst as [[] _]. by eapply IH.
Qed.

(** ** Termination *)

Lemma continue_mono n m x r :
  (∀ s r, run n s = Some r → run m s = Some r) → continue n x = Some r → continue m x = Some r.
Proof. intros Hr. destruct x as [[c|e|] s1]; cbn; try done. destruct c; cbn; auto. Qed.

Lemma run_mono n m s r : run n s = Some r → (n ≤ m)%nat → run m s = Some r.
Proof.
  revert m s r. induction n as [|n IH]; [done|]. intros [|m] s r Hr Hle; [lia|].
  assert (Hcont : ∀ x r, continue n x = Some r → continue m x = Some r)
    by (intros; apply continue_mono with n; [intros; apply IH; [done|lia] | done]).
  rewrite run_S in Hr. rewrite run_S. destruct (step s) as [[c|e|] s1]; try by apply Hcont.
  destruct c as [| |st|sub p|sub p]; try by apply Hcont.
  all: destruct (run n sub) as [x|] eqn:Hsub; [|done]; erewrite IH by (done || lia);
    destruct x; [by apply Hcont | done].
Qed.

(** Enough fuel for the step, the child if there is one, and the rest. *)
Lemma run_step_terminates s0 :
  wf s0 → hinv (i_host s0) →
  (∀ sub, wf sub → hinv (i_host sub) → i_gas sub < i_gas s0 → ∃ n r, run n sub = Some r) →
  (∀ x, next_ok s0 x → ∃ n r, continue n x = Some r) →
  ∃ n r, run n s0 = Some r.
Proof.
  intros Hw Hi Hsub Hcont. pose proof (step_ok s0 Hw Hi) as Hst.
  destruct (step s0) as [[c|e|] s1] eqn:Hstep.
  2,3: exists 1%nat; eexists; rewrite run_S, Hstep; reflexivity.
  destruct c as [| |st|sub p|sub p].
  1,2,3: destruct (Hcont (step s0)) as (n & r & Hr); [by rewrite Hstep|];
    exists (S n), r; rewrite run_S, Hstep in *; exact Hr.
  all: destruct Hst as (Hco & Hrest); pose proof Hco as Hco'; destruct Hco'.
  all: destruct (Hsub sub) as (n1 & r1 & Hr1); [done..|].
  all: destruct r1 as [st sub'|]; [|exists (S n1), Aborted; by rewrite run_S, Hstep, Hr1].
  all: pose proof (run_einv _ _ _ _ co_wf0 co_hinv0 Hr1) as He.
  - destruct (Hcont _ (finish_call_ok s0 sub p s1 sub' st (conj Hco Hrest) He)) as (n2 & r & Hr).
    exists (S (n1 `max` n2)), r. rewrite run_S, Hstep, (run_mono n1 _ _ _ Hr1) by lia.
    apply continue_mono with n2; [intros; eapply run_mono; [done|lia]|done].
  - destruct (Hcont _ (finish_create_ok s0 sub p s1 sub' st (conj Hco Hrest) He)) as (n2 & r & Hr).
    exists (S (n1 `max` n2)), r. rewrite run_S, Hstep, (run_mono n1 _ _ _ Hr1) by lia.
    apply continue_mono with n2; [intros; eapply run_mono; [done|lia]|done].
Qed.

(** By induction on the gas, then on the distance to the end of the code. *)
Lemma run_terminates_aux (k : nat) :
  ∀ s0, wf s0 → hinv (i_host s0) → (Z.to_nat (i_gas s0) < k)%nat → ∃ n r, run n s0 = Some r.
Proof.
  induction k as [|k IHk]; [lia|]. intros s0. remember (Z.to_nat (Z.of_nat (length (i_code s0)) - i_pc s0)) as d.
  revert s0 Heqd. induction (lt_wf d) as [d _ IHd]. intros s0 -> Hw Hi Hk.
  pose proof (wf_ga _ Hw) as [Hga _]. pose proof (wf_pc _ Hw).
  destruct (decide (i_pc s0 < Z.of_nat (length (i_code s0)))) as [Hin|Hout].
  2:{ exists 1%nat. eexists. rewrite run_S. unfold step.
      rewrite (lookup_ge_None_2 (i_code s0)) by lia. done. }
  apply run_step_terminates; [done|done| |].
  { intros sub Hws Hhs Hlt. apply IHk; [done|done|]. pose proof (wf_ga _ Hws) as []. lia. }
  intros [[c|e|] s1] Hn; [|by exists O; eexists|by exists O; eexists].
  destruct c; cbn in Hn; try done; [| |by exists O; eexists].
  - destruct Hn as (Hw1 & (_ & Hcd & _) & ? & _ & ? & Hh). pose proof (wf_ga _ Hw1) as [].
    eapply (IHd (Z.to_nat (Z.of_nat (length (i_code s1)) - i_pc s1))); [|done|done|apply Hh|lia].
    rewrite Hcd. lia.
  - destruct Hn as (Hw1 & _ & ? & _ & _ & Hh). apply IHk; [done|apply Hh|].
    pose proof (wf_ga _ Hw1) as []. lia.
Qed.

Lemma new_wf c cd (h : H) : wf_ctx c → wf_bytes cd → wf (new_interp c cd h).
Proof.
  intros Hc Hcd. constructor; simpl; try done; try lia; try constructor; try apply Hc.
  - constructor.
  - unfold MAX_STACK. simpl. lia.
  - constructor.
  - split; [done|by vm_compute].
Qed.
End Props.

(** ** Claims *)

Section Claims.
Context {H : Type} `{HL : HostLaws H} `{KO : KeccakOk} `{PO : PrecompilesOk}.
Implicit Types s : Interp H.

Ltac unbind Hre :=
  repeat match type of Hre with mbind _ _ _ = _ => apply M_bind_Ok in Hre as (? & ? & _ & Hre) end.

Lemma push_Ok v s s2 : push v s = (Ok tt, s2) → head (i_stack s2) = Some v.
Proof.
  unfold push, stack_push, gets, lift, modify, mbind, M_bind.
  destruct (_ <=? _)%nat; [done|]. by intros [= <-].
Qed.

(** C11: every execution ends. A frame started by [EVMInterpreter::new] on any
    code, context and gas, calling and creating contracts at will, runs to a
    result with some finite fuel: gas strictly decreases at every jump and in
    every child frame, and the program counter advances otherwise. *)
Theorem run_terminates c cd (h : H) :
  wf_ctx c → wf_bytes cd → hinv h → ∃ n r, run n (new_interp c cd h) = Some r.
Proof.
  intros Hc Hcd Hh. eapply (run_terminates_aux (S (Z.to_nat (c_gas_limit c)))).
  - by apply new_wf.
  - done.
  - simpl. lia.
Qed.

(** C35: the machine invariants at the end of a frame, on every path (return,
    revert, error): at most 1024 stack items, all of 32 bytes; memory of whole
    32-byte words within 32 MB; and gas is neither minted nor lost by the
    counter: what is left and what [gas_used] reports add up to the limit. *)
Theorem run_invariants c cd (h : H) n status s' :
  wf_ctx c → wf_bytes cd → hinv h → run n (new_interp c cd h) = Some (Finished status s') →
  (length (i_stack s') ≤ 1024)%nat ∧ Forall (fun w => length w = 32%nat) (i_stack s') ∧
  mem_size (i_memory s') mod 32 = 0 ∧ mem_size (i_memory s') ≤ MAX_MEMORY ∧
  0 ≤ i_gas s' ≤ c_gas_limit c ∧ gas_used s' + i_gas s' = c_gas_limit c.
Proof.
  intros Hc Hcd Hh Hr. apply run_einv in Hr as (Hw & (Hctx & _) & Hg & _); [|by apply new_wf|done].
  destruct Hw. destruct wf_st0 as [Hs Hl]. destruct wf_me0 as (_ & ? & ?). destruct wf_ga0.
  simpl in *. unfold gas_used, saturating_sub. rewrite Hctx. simpl.
  split_and!; try done; try lia. eapply Forall_impl; [exact Hs|]. by intros ? [].
Qed.

(** C18: a frame entered with [is_static] never changes the chain state,
    whatever it executes and whatever contracts it calls. *)
Theorem static_frame_no_write c cd (h : H) n status s' :
  wf_ctx c → wf_bytes cd → hinv h → c_is_static c = true →
  run n (new_interp c cd h) = Some (Finished status s') → hworld (i_host s') = hworld h.
Proof.
  intros Hc Hcd Hh Hst Hr. apply run_einv in Hr as (_&_&_&_&_&(_&_&Hw)); [|by apply new_wf|done].
  by apply Hw.
Qed.

(** Snapshots are balanced: when a frame ends, on any path, the host has
    exactly the open snapshots it had when the frame started, so the caller's
    [commit] or [revert_to] acts on its own snapshot. *)
Theorem run_snapshots_balanced c cd (h : H) n status s' :
  wf_ctx c → wf_bytes cd → hinv h →
  run n (new_interp c cd h) = Some (Finished status s') → hsnaps (i_host s') = hsnaps h.
Proof.
  intros Hc Hcd Hh Hr. apply run_einv in Hr as (_&_&_&_&_&(_&Hs&_)); [|by apply new_wf|done]. done.
Qed.

(** C21: a CALL-family child that reverts or fails leaves no trace in chain
    state: after the parent resumes, balances, nonces, code and storage are
    those from before the call, including the value transfer; the call cannot
    mint gas (the parent ends with at least the 100 gas base less than it
    had), and pushes 0. *)
Theorem failed_call_rolls_back s0 sub p s1 n status sub' s2 :
  wf s0 → hinv (i_host s0) →
  step s0 = (Ok (EnterCall sub p), s1) → run n sub = Some (Finished status sub') →
  status ≠ Succeeded → resume_call p status sub' s1 = (Ok tt, s2) →
  hworld (i_host s2) = hworld (i_host s0) ∧ i_gas s2 ≤ i_gas s0 - GAS_CALL ∧
  head (i_stack s2) = Some zero.
Proof.
  intros Hw Hi Hst Hr Hne Hre. pose proof (step_ok s0 Hw Hi) as Hs. rewrite Hst in Hs.
  pose proof Hs as ([] & _). apply run_einv in Hr; [|done|done].
  pose proof (resume_call_ok s0 sub p s1 sub' status Hs Hr s1 eq_refl) as Hx. rewrite Hre in Hx.
  destruct Hx as (_ & _ & Hg & _ & _ & [_ Hworld]). assert (is_success status = false) by (by destruct status).
  split; [auto|]. split; [lia|].
  unfold resume_call in Hre. unbind Hre.
  apply push_Ok in Hre as ->. by destruct status.
Qed.

(** A CREATE or CREATE2 whose constructor reverts or fails leaves chain
    state as it was except for the creator's nonce, which stays incremented;
    the creator pays at least the 32000 base and gets 0. *)
Theorem failed_create_rolls_back s0 sub p s1 n status sub' s2 :
  wf s0 → hinv (i_host s0) →
  step s0 = (Ok (EnterCreate sub p), s1) → run n sub = Some (Finished status sub') →
  status ≠ Succeeded → resume_create p status sub' s1 = (Ok tt, s2) →
  hworld (i_host s2) = hworld (inc_nonce (i_host s0) (c_callee (i_ctx s0))).2 ∧
  i_gas s2 ≤ i_gas s0 - GAS_CREATE ∧ head (i_stack s2) = Some zero.
Proof.
  intros Hw Hi Hst Hr Hne Hre. pose proof (step_ok s0 Hw Hi) as Hs. rewrite Hst in Hs.
  pose proof Hs as ([] & _). apply run_einv in Hr; [|done|done].
  pose proof (resume_create_ok s0 sub p s1 sub' status Hs Hr s1 eq_refl) as Hx. rewrite Hre in Hx.
  destruct Hx as (_ & _ & Hg & _ & _ & [_ Hworld]). assert (is_success status = false) as Hf by (by destruct status).
  split; [auto|]. split; [lia|].
  unfold resume_create in Hre. rewrite Hf in Hre. cbn [negb] in Hre.
  unfold create_failed in Hre. unbind Hre.
  by apply push_Ok in Hre as ->.
Qed.

(** What a child frame is given: strictly less gas than its parent had
    (the stipend included), a depth within 1024, and static mode whenever the
    parent is static. *)
Theorem child_frame_bounds s0 sub s1 :
  wf s0 → hinv (i_host s0) →
  (∃ p, step s0 = (Ok (EnterCall sub p), s1)) ∨ (∃ p, step s0 = (Ok (EnterCreate sub p), s1)) →
  0 ≤ i_gas sub < i_gas s0 ∧ (length (i_frames sub) ≤ CALL_DEPTH_LIMIT)%nat ∧
  (c_is_static (i_ctx s0) = true → c_is_static (i_ctx sub) = true) ∧
  c_gas_limit (i_ctx sub) = i_gas sub.
Proof.
  intros Hw Hi Hst. pose proof (step_ok s0 Hw Hi) as Hs.
  assert (∃ w snap fwd, child_ok s0 w snap fwd sub) as (w & snap & fwd & []).
  { destruct Hst as [[p Hst]|[p Hst]]; rewrite Hst in Hs; destruct Hs as [Hc _]; eauto. }
  destruct co_limit0. pose proof (wf_ga _ co_wf0) as [].
  split_and!; try done; [by apply co_wf0 | intros; by apply co_static0 | congruence].
Qed.

(** The only instructions that can abort the process are CALLDATACOPY,
    CODECOPY and EXTCODECOPY. *)
Theorem step_panics_only_in_copies s0 s1 :
  wf s0 → hinv (i_host s0) → step s0 = (Panic, s1) →
  i_code s0 !! Z.to_nat (i_pc s0) ∈ [Some 0x37; Some 0x39; Some 0x3c].
Proof.
  intros Hw Hi Hst. pose proof (step_ok s0 Hw Hi) as Hs. rewrite Hst in Hs.
  destruct Hs as (b & -> & [->|[->| ->]]); set_solver.
Qed.

(** JUMP and JUMPI accept exactly the JUMPDEST bytes that start an
    instruction: the bitmap of [build_jumpdest_bitmap] agrees with the
    definition (decode from 0, skipping the immediate bytes of PUSH), for
    every code, and the accesses of [is_valid_jumpdest] stay in range. *)
Theorem jumpdest_correct s dest :
  i_jumpdests s = build_jumpdest_bitmap (i_code s) → 0 ≤ dest →
  is_valid_jumpdest s dest = true ↔
  reach (i_code s) 0 (Z.to_nat dest) ∧ i_code s !! Z.to_nat dest = Some 0x5b.
Proof.
  intros Hjd Hd. unfold is_valid_jumpdest. rewrite andb_true_iff, Z.ltb_lt.
  rewrite land_bit by (apply Z.mod_pos_bound; lia). rewrite Hjd. unfold build_jumpdest_bitmap.
  destruct (bitmap_loop_spec (S (length (i_code s))) (i_code s) 0
    (replicate ((length (i_code s) + 7) / 8) 0)) as (bm & -> & Hb); [lia|by rewrite length_replicate|].
  cbn [from_option id].
  assert (Hbit : Z.testbit (default 0 (bm !! Z.to_nat (dest / 8))) (dest mod 8) = bm_bit bm (Z.to_nat dest)).
  { unfold bm_bit. rewrite Z2Nat.inj_div, Nat2Z.inj_mod, Z2Nat.id by lia. done. }
  rewrite Hbit. split.
  - intros [Hlt Hx]. apply Hb in Hx as [Hx|Hx]; [|done|lia]. unfold bm_bit in Hx.
    destruct (replicate _ 0 !! _) as [z|] eqn:Ez; [|by rewrite Z.testbit_0_l in Hx].
    apply lookup_replicate in Ez as [-> _]. cbn in Hx. by rewrite Z.testbit_0_l in Hx.
  - intros [Hr Hj]. pose proof (lookup_lt_Some _ _ _ Hj). split; [lia|]. apply Hb; [lia|]. by right.
Qed.
End Claims.

(** The address of a CREATE hashes the canonical RLP list of sender and
    nonce: the encoder inlined in the interpreter produces the bytes the
    zbx-rlp crate produces for [sender, nonce]. *)
Theorem create_preimage_is_rlp sender n :
  wf_addr sender → is_u64 n →
  Rlp.out (Rlp.encode_u64 n (Rlp.append sender Rlp.new_list)) = Ok (create_preimage sender n).
Proof.
  intros [Hl Hw] Hn. unfold Rlp.out.
  assert (Hsi : Rlp.string_item sender = 0x94 :: sender).
  { destruct sender as [|a [|b r]]; try done. unfold Rlp.string_item. rewrite Hl. done. }
  assert (Hbuf : Rlp.encode_u64 n (Rlp.append sender Rlp.new_list) =
    Rlp.mkStream (replicate 9 0 ++ (0x94 :: sender) ++ rlp_encode_u64 n) [O]).
  { unfold Rlp.encode_u64, Rlp.append, Rlp.encode_string, Rlp.append_raw. cbn [Rlp.buf Rlp.list_stack Rlp.new_list].
    rewrite Hsi. case_if; [subst; by rewrite <- app_assoc|].
    rewrite rlp_u64_item, <- app_assoc by done. done. }
  assert (Hlen : (length (rlp_encode_u64 n) ≤ 9)%nat).
  { unfold rlp_encode_u64. repeat case_if; cbn [length]; [lia..|].
    rewrite length_drop, length_to_be. lia. }
  rewrite Hbuf. set (content := (0x94 :: sender) ++ rlp_encode_u64 n).
  assert (Hc : (length content ≤ 30)%nat) by (unfold content; rewrite length_app; cbn [length]; lia).
  cbn [Rlp.list_stack Rlp.out_loop]. unfold Rlp.finalize_unbounded_list. cbn [Rlp.list_stack Rlp.buf].
  rewrite length_app, length_replicate. replace (Z.of_nat (9 + length content) - Z.of_nat (0 + 9))
    with (Z.of_nat (length content)) by lia.
  unfold Rlp.list_prefix. dec_bool. cbn [length]. change (Z.of_nat 1 - 9 =? 0) with false. cbn iota.
  cbn [outcome_bind take app Rlp.buf Nat.add]. rewrite (drop_app_length' (replicate 9 0)) by done.
  unfold create_preimage. f_equal. f_equal. unfold wrap8.
  rewrite (Z.mod_small (Z.of_nat _)), Z.mod_small by lia. done.
Qed.

Lemma create_preimage_is_rlp_witness :
  Rlp.out (Rlp.encode_u64 300 (Rlp.append (replicate 20 7) Rlp.new_list)) =
  Ok (create_preimage (replicate 20 7) 300).
Proof.
  apply create_preimage_is_rlp; [split; [done|]|unfold is_u64; lia].
  apply Forall_replicate. unfold is_u8. lia.
Defined.

(** ** Concrete instances

    A hash function and precompiles to run the interpreter on [MockHost]:
    concrete functions that satisfy the laws assumed above. *)

Module Concrete.
#[local] Instance hash : Keccak := fun b => to_be 32 (be_val b * 31 + 7).
#[local] Instance hash_ok : KeccakOk.
Proof. intros b. apply wf_to_word. Qed.

#[local] Instance precompiles : Precompiles := {|
  call_precompile id i g := if g <? 15 then Err OutOfGas else Ok ([1], 15);
  do_payid _ _ _ _ := Err OutOfGas;
  do_price_oracle _ _ _ := Err OutOfGas;
  do_zusd_vault _ _ _ _ := Err OutOfGas
|}.
#[local] Instance precompiles_ok : PrecompilesOk.
Proof.
  constructor; intros; cbn; try done. case_if; cbn; [done|].
  split; [repeat constructor|]; unfold is_u8, is_u64; lia.
Qed.

Definition adr (i : Z) : address := replicate 19 0 ++ [i].
Definition ctx0 (static : bool) : EVMContext :=
  mkCtx (adr 20) (adr 21) zero [1; 2; 3] 100000 static 1 2 (adr 22) 5 0.

Lemma wf_adr i : is_u8 i → wf_addr (adr i).
Proof.
  intros Hi. split; [done|]. apply Forall_app. split; [apply wf_replicate0 | by constructor].
Qed.

Lemma wf_ctx0 b : wf_ctx (ctx0 b).
Proof.
  constructor; simpl; try (apply wf_adr; unfold is_u8; lia); try apply wf_zero; try (unfold is_u64; lia).
  repeat constructor; unfold is_u8; lia.
Qed.

(** A contract at address 30 that stores to slot 1 and then reverts. *)
Definition reverting : bytes := [0x60; 5; 0x60; 1; 0x55; 0x60; 0; 0x60; 0; 0xfd].
Definition host0 : MockHost := install_code mock_new (adr 30) reverting.

Lemma host0_inv : mock_inv host0.
Proof.
  apply put_inv; [split; [apply map_Forall_empty | constructor]|].
  destruct wf_default_account as (?&?&?&?). split; [done|]. split; [done|]. split; [|done].
  repeat constructor; unfold is_u8; lia.
Qed.

Ltac bytes_tac := repeat constructor; unfold is_u8; lia.

(** The final state of a run, where there is one. *)
Definition final (s : Interp MockHost) (n : nat) : Interp MockHost :=
  match run n s with Some (Finished _ s') => s' | _ => s end.

Definition loop_code : bytes := [0x5b; 0x60; 0; 0x56].
Definition call_code : bytes :=
  [0x60; 0; 0x60; 0; 0x60; 0; 0x60; 0; 0x60; 30; 0x61; 0x7f; 0xff; 0xfa; 0x60; 7; 0x60; 0; 0x52].

Lemma run_terminates_witness : ∃ n r, run n (new_interp (ctx0 false) loop_code host0) = Some r.
Proof. apply run_terminates; [apply wf_ctx0 | bytes_tac | apply host0_inv]. Defined.

Lemma run_invariants_witness :
  let s' := final (new_interp (ctx0 false) call_code host0) 30 in
  (length (i_stack s') ≤ 1024)%nat ∧ Forall (fun w => length w = 32%nat) (i_stack s') ∧
  mem_size (i_memory s') mod 32 = 0 ∧ mem_size (i_memory s') ≤ MAX_MEMORY ∧
  0 ≤ i_gas s' ≤ 100000 ∧ gas_used s' + i_gas s' = 100000.
Proof.
  apply (run_invariants (ctx0 false) call_code host0 30 Succeeded);
    [apply wf_ctx0 | bytes_tac | apply host0_inv | vm_compute; reflexivity].
Defined.

Lemma static_frame_no_write_witness :
  hworld (i_host (final (new_interp (ctx0 true) call_code host0) 30)) = hworld host0.
Proof.
  pose proof (static_frame_no_write (ctx0 true) call_code host0 30 Succeeded
           (final (new_interp (ctx0 true) call_code host0) 30)) as T.
  apply T;
    [apply wf_ctx0 | bytes_tac | apply host0_inv | reflexivity | vm_compute; reflexivity].
Defined.

Lemma run_snapshots_balanced_witness :
  hsnaps (i_host (final (new_interp (ctx0 false) call_code host0) 30)) = hsnaps host0.
Proof.
  pose proof (run_snapshots_balanced (ctx0 false) call_code host0 30 Succeeded
           (final (new_interp (ctx0 false) call_code host0) 30)) as T.
  apply T;
    [apply wf_ctx0 | bytes_tac | apply host0_inv | vm_compute; reflexivity].
Defined.

(** A frame about to CALL address 30, and one about to CREATE. *)
Definition call_state : Interp MockHost :=
  set_stack (map u256_from_u64 [50000; 30; 0; 0; 0; 0; 0]) (new_interp (ctx0 false) [0xf1] host0).
Definition create_state : Interp MockHost :=
  set_memory (resize0 reverting 32)
    (set_stack (map u256_from_u64 [0; 0; 10]) (new_interp (ctx0 false) [0xf0] host0)).

Lemma call_state_wf : wf call_state.
Proof.
  destruct (new_wf (ctx0 false) [0xf1] host0 (wf_ctx0 false) ltac:(bytes_tac)).
  constructor; try done. split; [|unfold MAX_STACK; simpl; lia].
  repeat (constructor; [apply from_u64_spec|]). constructor.
Qed.

Lemma create_state_wf : wf create_state.
Proof.
  destruct (new_wf (ctx0 false) [0xf0] host0 (wf_ctx0 false) ltac:(bytes_tac)).
  constructor; try done.
  - split; [|unfold MAX_STACK; simpl; lia]. repeat (constructor; [apply from_u64_spec|]). constructor.
  - split; [apply wf_resize0; bytes_tac|]. split; [done|by vm_compute].
Qed.

Definition child_of (s : Interp MockHost) : Interp MockHost :=
  match (step s).1 with
  | Ok (EnterCall sub _) => sub
  | Ok (EnterCreate sub _) => sub
  | _ => s
  end.
Definition pending_of (s : Interp MockHost) : PendingCall :=
  match (step s).1 with Ok (EnterCall _ p) => p | _ => mkPending 0 0 0 0 0 end.
Definition pending_create_of (s : Interp MockHost) : PendingCreate :=
  match (step s).1 with Ok (EnterCreate _ p) => p | _ => mkPendingCreate 0 0 [] end.

Lemma failed_call_rolls_back_witness :
  let s2 := (resume_call (pending_of call_state) Reverted (final (child_of call_state) 20)
               (step call_state).2).2 in
  hworld (i_host s2) = hworld host0 ∧ i_gas s2 ≤ 100000 - GAS_CALL ∧
  head (i_stack s2) = Some zero.
Proof.
  pose proof (failed_call_rolls_back call_state (child_of call_state) (pending_of call_state)
           (step call_state).2 20 Reverted (final (child_of call_state) 20)
           (resume_call (pending_of call_state) Reverted (final (child_of call_state) 20)
              (step call_state).2).2) as T.
  apply T;
    [apply call_state_wf | apply host0_inv | vm_compute; reflexivity | vm_compute; reflexivity
    | discriminate | vm_compute; reflexivity].
Defined.

Lemma failed_create_rolls_back_witness :
  let s2 := (resume_create (pending_create_of create_state) Reverted (final (child_of create_state) 20)
               (step create_state).2).2 in
  hworld (i_host s2) = hworld (inc_nonce host0 (adr 21)).2 ∧
  i_gas s2 ≤ 100000 - GAS_CREATE ∧ head (i_stack s2) = Some zero.
Proof.
  pose proof (failed_create_rolls_back create_state (child_of create_state) (pending_create_of create_state)
           (step create_state).2 20 Reverted (final (child_of create_state) 20)
           (resume_create (pending_create_of create_state) Reverted (final (child_of create_state) 20)
              (step create_state).2).2) as T.
  apply T;
    [apply create_state_wf | apply host0_inv | vm_compute; reflexivity | vm_compute; reflexivity
    | discriminate | vm_compute; reflexivity].
Defined.

Lemma child_frame_bounds_witness :
  0 ≤ i_gas (child_of call_state) < 100000 ∧
  (length (i_frames (child_of call_state)) ≤ CALL_DEPTH_LIMIT)%nat ∧
  (false = true → c_is_static (i_ctx (child_of call_state)) = true) ∧
  c_gas_limit (i_ctx (child_of call_state)) = i_gas (child_of call_state).
Proof.
  apply (child_frame_bounds call_state (child_of call_state) (step call_state).2);
    [apply call_state_wf | apply host0_inv | left; exists (pending_of call_state); vm_compute; reflexivity].
Defined.

(** CALLDATACOPY of one byte from offset 4 of a 3-byte calldata. *)
Definition copy_state : Interp MockHost :=
  set_stack (map u256_from_u64 [0; 4; 1]) (new_interp (ctx0 false) [0x37] host0).

Lemma copy_state_wf : wf copy_state.
Proof.
  destruct (new_wf (ctx0 false) [0x37] host0 (wf_ctx0 false) ltac:(bytes_tac)).
  constructor; try done. split; [|unfold MAX_STACK; simpl; lia].
  repeat (constructor; [apply from_u64_spec|]). constructor.
Qed.

Lemma step_panics_only_in_copies_witness :
  i_code copy_state !! Z.to_nat (i_pc copy_state) ∈ [Some 0x37; Some 0x39; Some 0x3c].
Proof.
  apply (step_panics_only_in_copies copy_state (step copy_state).2);
    [apply copy_state_wf | apply host0_inv | vm_compute; reflexivity].
Defined.

Lemma jumpdest_correct_witness :
  is_valid_jumpdest (new_interp (ctx0 false) [0x60; 0x5b; 0x5b] host0) 2 = true ↔
  reach [0x60; 0x5b; 0x5b] 0 2 ∧ Some 0x5b = Some 0x5b.
Proof.
  apply (jumpdest_correct (new_interp (ctx0 false) [0x60; 0x5b; 0x5b] host0) 2); [reflexivity | lia].
Defined.

(** The abort is reachable: a CALLDATACOPY whose source offset lies
    beyond the calldata, which the EVM defines to read zeros, panics (in the
    release profile, the node aborts) after the sender has paid for it. *)
Theorem calldatacopy_out_of_range_aborts :
  run 10 (new_interp (ctx0 false) [0x60; 1; 0x60; 4; 0x60; 0; 0x37] host0) = Some Aborted ∧
  run 10 (new_interp (ctx0 false) [0x60; 1; 0x60; 3; 0x60; 0; 0x37] host0) ≠ Some Aborted.
Proof. split; [vm_compute; reflexivity | vm_compute; discriminate]. Qed.

(** A warm SSTORE that does not change the slot is free: the fourth
    SSTORE of the same value to the same slot leaves the gas counter as it was
    (the comment in the handler says 100 gas are paid as static gas, but
    [static_gas] of SSTORE is 0). *)
Theorem sstore_noop_costs_nothing :
  let s := set_stack (map u256_from_u64 [1; 0])
             (set_warm_storage {[ (adr 21, u256_from_u64 1) ]} (new_interp (ctx0 false) [0x55] host0)) in
  (step s).1 = Ok Next ∧ i_gas (step s).2 = i_gas s.
Proof. split; vm_compute; reflexivity. Qed.
End Concrete.
End EvmProps.
