(* ===== verification/Pool.v ===== *)
(** * The constant-product pool

    Models [crates/zbx-pool/src]: the fee tiers of [fee.rs], the guards of
    [security.rs], the errors of [error.rs], and the pair of [pair.rs] with its
    swaps and its deposits and withdrawals of liquidity. A method is a
    computation of the state and error monad of [Monad]: what a method has
    written before it fails stays written. *)

From S2P Require Import Prelude.
From S2P Require Import Monad.
From S2P Require Import EvmBase.
From S2P Require Import EvmHost.

Module Pool.
Import EvmHost Monad.

(** ** Errors *)

Inductive AmmError :=
| Reentrancy
| PoolPaused (reason : bytes)
| PriceImpactTooHigh (impact_bps max_bps : Z)
| SlippageExceeded (got min : Z)
| DeadlineExpired (now deadline : Z)
| ReserveDrainExceeded (drain_bps max_bps : Z)
| OraclePriceDeviation (deviation_bps max_bps : Z)
| Overflow | DivisionByZero | InvariantOverflow
| PoolAlreadyExists | IdenticalTokens
| InsufficientCreationFee (have need : Z)
| EmptyReserve | InsufficientLiquidityBurned | InsufficientLpBalance | BelowMinLiquidity | ZeroAmount
| ZeroOutput | InvariantViolation
| ZeroAddressTransfer | PairNotFound.

(** ** Fee tiers *)

Inductive FeeTier := Lowest | Standard | High.

Definition bps (t : FeeTier) : Z := match t with Lowest => 5 | Standard => 30 | High => 100 end.
Definition protocol_bps (t : FeeTier) : Z := bps t / 5.
Definition lp_bps (t : FeeTier) : Z := bps t - protocol_bps t.

Definition split_fee (amount_in : Z) (tier : FeeTier) : Z * Z :=
  let total_fee := wrap128 (amount_in * bps tier) / 10000 in
  let protocol := wrap128 (amount_in * protocol_bps tier) / 10000 in
  (saturating_sub total_fee protocol, protocol).

(** ** Guards *)

Definition MIN_LIQUIDITY : Z := 1000.
Definition MAX_PRICE_IMPACT_BPS : Z := 3000.
Definition MAX_ORACLE_DEVIATION_BPS : Z := 1500.
Definition MAX_RESERVE_DRAIN_BPS : Z := 3000.

(** [x as u32] *)
Definition wrap32 (x : Z) : Z := x mod 2 ^ 32.

Abbreviation result := (outcome AmmError).
Definition ok_or {A} (o : option A) (e : AmmError) : result A := match o with Some a => Ok a | None => Err e end.

Record ReentrancyGuard := mkGuard { locked : bool }.
Definition guard_new : ReentrancyGuard := mkGuard false.
Definition acquire (g : ReentrancyGuard) : result ReentrancyGuard :=
  if locked g then Err Reentrancy else Ok (mkGuard true).
Definition release (g : ReentrancyGuard) : ReentrancyGuard := mkGuard false.

Record CircuitBreaker := mkBreaker { paused : bool; reason : option bytes; since_block : Z }.
Definition breaker_new : CircuitBreaker := mkBreaker false None 0.
Definition trip (why : bytes) (block : Z) (c : CircuitBreaker) : CircuitBreaker := mkBreaker true (Some why) block.
Definition clear (c : CircuitBreaker) : CircuitBreaker := mkBreaker false None 0.
Definition check (c : CircuitBreaker) : result unit :=
  if paused c then Err (PoolPaused (default [] (reason c))) else Ok tt.

Definition check_price_impact (amount_in reserve_in : Z) : result unit :=
  if reserve_in =? 0 then Err EmptyReserve else
  let denom := saturating_add128 reserve_in amount_in in
  let impact_bps := saturating_mul128 amount_in 10000 / denom in
  if MAX_PRICE_IMPACT_BPS <? wrap32 impact_bps
  then Err (PriceImpactTooHigh (wrap32 impact_bps) MAX_PRICE_IMPACT_BPS) else Ok tt.

Definition check_slippage (amount_out min_amount_out : Z) : result unit :=
  if amount_out <? min_amount_out then Err (SlippageExceeded amount_out min_amount_out) else Ok tt.

Definition check_deadline (block_timestamp deadline : Z) : result unit :=
  if deadline <? block_timestamp then Err (DeadlineExpired block_timestamp deadline) else Ok tt.

Definition check_reserve_drain (amount_out reserve_out : Z) : result unit :=
  if reserve_out =? 0 then Err EmptyReserve else
  let drain_bps := saturating_mul128 amount_out 10000 / reserve_out in
  if MAX_RESERVE_DRAIN_BPS <? wrap32 drain_bps
  then Err (ReserveDrainExceeded (wrap32 drain_bps) MAX_RESERVE_DRAIN_BPS) else Ok tt.

Definition check_oracle_deviation (pool_spot oracle_price : Z) : result unit :=
  if oracle_price =? 0 then Ok tt else
  if pool_spot =? 0 then Err (OraclePriceDeviation 10000 MAX_ORACLE_DEVIATION_BPS) else
  let diff := if oracle_price <? pool_spot then pool_spot - oracle_price else oracle_price - pool_spot in
  let deviation_bps := saturating_mul128 diff 10000 / oracle_price in
  if MAX_ORACLE_DEVIATION_BPS <? wrap32 deviation_bps
  then Err (OraclePriceDeviation (wrap32 deviation_bps) MAX_ORACLE_DEVIATION_BPS) else Ok tt.

Definition safe_mul_div (a b c : Z) : result Z :=
  if c =? 0 then Err DivisionByZero else
  let? num := ok_or (checked_mul128 a b) Overflow in Ok (num / c).

(** ** Integer square root

    The additions wrap and a zero divisor panics. [SQRT_FUEL] iterations are
    enough for every 128-bit argument ([integer_sqrt_correct]). *)

Fixpoint sqrt_loop (fuel : nat) (n x y : Z) : result Z :=
  if y <? x then
    match fuel with
    | O => Panic
    | S fuel' => if y =? 0 then Panic else sqrt_loop fuel' n y (wrap128 (y + n / y) / 2)
    end
  else Ok x.

Definition SQRT_FUEL : nat := 130.
Definition integer_sqrt (n : Z) : result Z :=
  if n =? 0 then Ok 0 else sqrt_loop SQRT_FUEL n n (wrap128 (n + 1) / 2).

(** ** The pair *)

Record PairId := mkPairId { token_a : address; token_b : address }.

(** Lexicographic order of the address bytes. *)
Fixpoint bytes_lt (a b : bytes) : bool :=
  match a, b with
  | _, [] => false
  | [], _ :: _ => true
  | x :: a', y :: b' => (x <? y) || ((x =? y) && bytes_lt a' b')
  end.

Definition pair_id_new (a b : address) : PairId := if bytes_lt a b then mkPairId a b else mkPairId b a.

Record SwapParams := mkSwap {
  a_to_b : bool;
  amount_in : Z;
  min_amount_out : Z;
  sw_deadline : Z;
  oracle_twap : Z;
  sw_timestamp : Z
}.
Record AddLiquidityParams := mkAdd {
  amount_a : Z;
  amount_b : Z;
  min_lp_out : Z;
  add_deadline : Z;
  add_timestamp : Z
}.
Record RemoveLiquidityParams := mkRemove {
  lp_amount : Z;
  min_a_out : Z;
  min_b_out : Z;
  rm_deadline : Z;
  rm_timestamp : Z
}.
Record SwapResult := mkSwapResult {
  amount_out : Z;
  lp_fee : Z;
  protocol_fee : Z;
  new_reserve_a : Z;
  new_reserve_b : Z
}.
Record AddLiquidityResult := mkAddResult { lp_minted : Z; used_a : Z; used_b : Z }.
Record RemoveLiquidityResult := mkRemoveResult { out_a : Z; out_b : Z }.

Record Pair := mkPair {
  id : PairId;
  reserve_a : Z;
  reserve_b : Z;
  total_lp : Z;
  fee_a : Z;
  fee_b : Z;
  fee_tier : FeeTier;
  reentrancy : ReentrancyGuard;
  circuit : CircuitBreaker
}.

Definition pair_new (i : PairId) (tier : FeeTier) : Pair := mkPair i 0 0 0 0 0 tier guard_new breaker_new.

Definition set_reserves (a b : Z) (p : Pair) : Pair :=
  mkPair (id p) a b (total_lp p) (fee_a p) (fee_b p) (fee_tier p) (reentrancy p) (circuit p).
Definition set_total_lp (l : Z) (p : Pair) : Pair :=
  mkPair (id p) (reserve_a p) (reserve_b p) l (fee_a p) (fee_b p) (fee_tier p) (reentrancy p) (circuit p).
Definition set_fees (a b : Z) (p : Pair) : Pair :=
  mkPair (id p) (reserve_a p) (reserve_b p) (total_lp p) a b (fee_tier p) (reentrancy p) (circuit p).
Definition set_reentrancy (g : ReentrancyGuard) (p : Pair) : Pair :=
  mkPair (id p) (reserve_a p) (reserve_b p) (total_lp p) (fee_a p) (fee_b p) (fee_tier p) g (circuit p).
Definition set_circuit (c : CircuitBreaker) (p : Pair) : Pair :=
  mkPair (id p) (reserve_a p) (reserve_b p) (total_lp p) (fee_a p) (fee_b p) (fee_tier p) (reentrancy p) c.

Abbreviation M := (SE AmmError Pair).

(** [let result = body; self.reentrancy.release(); result] *)
Definition releasing {A} (body : M A) : M A := fun p =>
  match body p with
  | (Panic, p') => (Panic, p')
  | (r, p') => (r, set_reentrancy (release (reentrancy p')) p')
  end.

(** The frame of the three public methods: breaker, lock, body, unlock. *)
Definition guarded {A} (body : M A) : M A :=
  c ← gets circuit; lift (check c);;
  g ← gets reentrancy; g' ← lift (acquire g); modify (set_reentrancy g');;
  releasing body.

(** *** Quotes *)

(** [(r_in, r_out)] *)
Definition sides (dir : bool) (p : Pair) : Z * Z :=
  if dir then (reserve_a p, reserve_b p) else (reserve_b p, reserve_a p).

Definition get_amount_out (p : Pair) (amount : Z) (dir : bool) : Z :=
  let '(r_in, r_out) := sides dir p in
  if (r_in =? 0) || (r_out =? 0) || (amount =? 0) then 0 else
  let fee_mult := 10000 - bps (fee_tier p) in
  match checked_mul128 amount fee_mult with
  | None => 0
  | Some dx_fee =>
      match checked_mul128 dx_fee r_out with
      | None => 0
      | Some numerator =>
          match checked_mul128 r_in 10000 ≫= (fun v => checked_add128 v dx_fee) with
          | None => 0
          | Some denom => numerator / denom
          end
      end
  end.

Definition spot_price_a_in_b (p : Pair) : Z :=
  if reserve_a p =? 0 then 0 else
  match checked_mul128 (reserve_b p) (10 ^ 18) with
  | Some v => v / reserve_a p
  | None =>
      let scaled := saturating_mul128 (reserve_b p / 10 ^ 6) (10 ^ 12) in
      saturating_mul128 (scaled / reserve_a p) (10 ^ 6)
  end.

Definition k (p : Pair) : option Z := checked_mul128 (reserve_a p) (reserve_b p).
Definition k_saturating (p : Pair) : Z := saturating_mul128 (reserve_a p) (reserve_b p).

(** *** Swap *)

Definition swap_inner (sp : SwapParams) : M SwapResult :=
  lift (check_deadline (sw_timestamp sp) (sw_deadline sp));;
  refuse (amount_in sp =? 0) ZeroAmount;;
  p ← gets (fun p => p);
  let '(r_in, r_out) := sides (a_to_b sp) p in
  refuse ((r_in =? 0) || (r_out =? 0)) EmptyReserve;;
  lift (check_oracle_deviation (spot_price_a_in_b p) (oracle_twap sp));;
  lift (check_price_impact (amount_in sp) r_in);;
  let fee_mult := 10000 - bps (fee_tier p) in
  dx_fee ← lift (ok_or (checked_mul128 (amount_in sp) fee_mult) Overflow);
  numerator ← lift (ok_or (checked_mul128 dx_fee r_out) Overflow);
  scaled ← lift (ok_or (checked_mul128 r_in 10000) Overflow);
  denom ← lift (ok_or (checked_add128 scaled dx_fee) Overflow);
  let out := numerator / denom in
  refuse (out =? 0) ZeroOutput;;
  lift (check_reserve_drain out r_out);;
  lift (check_slippage out (min_amount_out sp));;
  let '(lp, protocol) := split_fee (amount_in sp) (fee_tier p) in
  old_k ← lift (ok_or (checked_mul128 (reserve_a p) (reserve_b p)) InvariantOverflow);
  new_in ← lift (ok_or (checked_add128 r_in (amount_in sp)) Overflow);
  new_out ← lift (ok_or (checked_sub r_out out) InsufficientLiquidityBurned);
  modify (fun p => if a_to_b sp then set_fees (wrap128 (fee_a p + protocol)) (fee_b p) p
                   else set_fees (fee_a p) (wrap128 (fee_b p + protocol)) p);;
  let '(new_ra, new_rb) := if a_to_b sp then (new_in, new_out) else (new_out, new_in) in
  new_k ← lift (ok_or (checked_mul128 new_ra new_rb) InvariantOverflow);
  refuse (new_k <? old_k) InvariantViolation;;
  modify (set_reserves new_ra new_rb);;
  mret (mkSwapResult out lp protocol new_ra new_rb).

Definition swap (sp : SwapParams) : M SwapResult := guarded (swap_inner sp).

(** *** Liquidity *)

(** LP tokens minted and amounts used. *)
Definition deposit_terms (p : Pair) (ap : AddLiquidityParams) : result (Z * Z * Z) :=
  if total_lp p =? 0 then
    let? product := ok_or (checked_mul128 (amount_a ap) (amount_b ap)) Overflow in
    let? sqrt := integer_sqrt product in
    if sqrt <=? MIN_LIQUIDITY then Err BelowMinLiquidity
    else Ok (sqrt - MIN_LIQUIDITY, amount_a ap, amount_b ap)
  else
    let? lp_a := safe_mul_div (amount_a ap) (total_lp p) (reserve_a p) in
    let? lp_b := safe_mul_div (amount_b ap) (total_lp p) (reserve_b p) in
    let lp := Z.min lp_a lp_b in
    let? ua := safe_mul_div lp (reserve_a p) (total_lp p) in
    let? ub := safe_mul_div lp (reserve_b p) (total_lp p) in
    Ok (lp, ua, ub).

Definition add_liquidity_inner (ap : AddLiquidityParams) : M AddLiquidityResult :=
  lift (check_deadline (add_timestamp ap) (add_deadline ap));;
  refuse ((amount_a ap =? 0) || (amount_b ap =? 0)) ZeroAmount;;
  p ← gets (fun p => p);
  '(lp, ua, ub) ← lift (deposit_terms p ap);
  refuse (lp <? min_lp_out ap) (SlippageExceeded lp (min_lp_out ap));;
  ra ← lift (ok_or (checked_add128 (reserve_a p) ua) Overflow);
  modify (fun p => set_reserves ra (reserve_b p) p);;
  rb ← lift (ok_or (checked_add128 (reserve_b p) ub) Overflow);
  modify (fun p => set_reserves (reserve_a p) rb p);;
  l ← lift (ok_or (checked_add128 (total_lp p) lp) Overflow);
  modify (set_total_lp l);;
  mret (mkAddResult lp ua ub).

Definition add_liquidity (ap : AddLiquidityParams) : M AddLiquidityResult := guarded (add_liquidity_inner ap).

Definition remove_liquidity_inner (rp : RemoveLiquidityParams) : M RemoveLiquidityResult :=
  lift (check_deadline (rm_timestamp rp) (rm_deadline rp));;
  refuse (lp_amount rp =? 0) ZeroAmount;;
  p ← gets (fun p => p);
  refuse (total_lp p <? lp_amount rp) InsufficientLpBalance;;
  a ← lift (safe_mul_div (lp_amount rp) (reserve_a p) (total_lp p));
  b ← lift (safe_mul_div (lp_amount rp) (reserve_b p) (total_lp p));
  refuse ((a =? 0) || (b =? 0)) InsufficientLiquidityBurned;;
  lift (check_slippage a (min_a_out rp));;
  lift (check_slippage b (min_b_out rp));;
  ra ← lift (ok_or (checked_sub (reserve_a p) a) InsufficientLiquidityBurned);
  modify (fun p => set_reserves ra (reserve_b p) p);;
  rb ← lift (ok_or (checked_sub (reserve_b p) b) InsufficientLiquidityBurned);
  modify (fun p => set_reserves (reserve_a p) rb p);;
  l ← lift (ok_or (checked_sub (total_lp p) (lp_amount rp)) InsufficientLpBalance);
  modify (set_total_lp l);;
  mret (mkRemoveResult a b).

Definition remove_liquidity (rp : RemoveLiquidityParams) : M RemoveLiquidityResult :=
  guarded (remove_liquidity_inner rp).

(** ** Well-formed pairs *)

(** The values are 128-bit, and the pool is either empty or holds both tokens
    against outstanding shares. *)
Record wf (p : Pair) : Prop := {
  wf_a : 0 ≤ reserve_a p ≤ U128_MAX;
  wf_b : 0 ≤ reserve_b p ≤ U128_MAX;
  wf_l : 0 ≤ total_lp p ≤ U128_MAX;
  wf_live : (total_lp p = 0 ∧ reserve_a p = 0 ∧ reserve_b p = 0) ∨ (0 < total_lp p ∧ 0 < reserve_a p ∧ 0 < reserve_b p)
}.

(** Everything but the fee counters and the lock. *)
Definition books (p : Pair) := (id p, reserve_a p, reserve_b p, total_lp p, fee_tier p, circuit p).

(** ** Arithmetic of the swap *)

Lemma checked_mul128_Some a b c : checked_mul128 a b = Some c → c = a * b ∧ a * b ≤ U128_MAX.
Proof. unfold checked_mul128. destruct (Z.leb_spec (a * b) U128_MAX); intros [=]; subst; done. Qed.
Lemma checked_add128_Some a b c : checked_add128 a b = Some c → c = a + b ∧ a + b ≤ U128_MAX.
Proof. unfold checked_add128. destruct (Z.leb_spec (a + b) U128_MAX); intros [=]; subst; done. Qed.
Lemma checked_sub_Some a b c : checked_sub a b = Some c → c = a - b ∧ b ≤ a.
Proof. unfold checked_sub. destruct (Z.leb_spec b a); intros [=]; subst; done. Qed.
Lemma ok_or_Ok {A} (o : option A) e a : ok_or o e = Ok a → o = Some a.
Proof. destruct o; by intros [= ->]. Qed.
Lemma ok_or_panic {A} (o : option A) e : ok_or o e ≠ Panic.
Proof. by destruct o. Qed.

Lemma bps_range t : 5 ≤ bps t ≤ 100.
Proof. destruct t; cbn; lia. Qed.

(** The output of the fee formula. *)
Lemma swap_output ri ro dx fm out :
  0 < ri → 0 < ro → 0 < dx → 0 ≤ fm ≤ 10000 → out = dx * fm * ro / (ri * 10000 + dx * fm) →
  0 ≤ out < ro ∧ ri * ro ≤ (ri + dx) * (ro - out) ∧ out * (ri * 10000 + dx * fm) ≤ dx * fm * ro.
Proof.
  intros Hri Hro Hdx Hfm ->. assert (Ht : 0 ≤ dx * fm ≤ 10000 * dx) by nia. revert Ht. generalize (dx * fm). intros t Ht.
  set (D := ri * 10000 + t). assert (HD : 0 < D) by (unfold D; lia).
  assert (Hm : t * ro / D * D ≤ t * ro) by (rewrite Z.mul_comm; apply Z.mul_div_le; lia).
  assert (Ho : 0 ≤ t * ro / D) by (apply Z.div_pos; nia).
  assert (Hl : t * ro / D < ro) by (apply Z.div_lt_upper_bound; unfold D; nia).
  split_and!; [lia|lia| |done]. generalize dependent (t * ro / D). intros o Hm Ho Hl.
  assert (o * D * (ri + dx) ≤ t * ro * (ri + dx)) by (apply Z.mul_le_mono_nonneg_r; lia).
  assert (t * (ri + dx) * ro ≤ dx * D * ro) by (apply Z.mul_le_mono_nonneg_r; unfold D; nia).
  assert (o * (ri + dx) ≤ dx * ro) by (apply (Zmult_le_reg_r _ _ D); lia). nia.
Qed.

Lemma drain_bound out ro :
  0 ≤ out < ro → out * 10000 ≤ U128_MAX → check_reserve_drain out ro = Ok tt → 10000 * out < 3001 * ro.
Proof.
  intros Ho Hu. unfold check_reserve_drain. destruct (Z.eqb_spec ro 0); [done|].
  unfold saturating_mul128, wrap32, MAX_RESERVE_DRAIN_BPS. rewrite Z.min_l by lia.
  assert (Hq : 0 ≤ out * 10000 / ro < 10000) by (split; [apply Z.div_pos; lia|apply Z.div_lt_upper_bound; lia]).
  rewrite Z.mod_small by lia. destruct (Z.ltb_spec 3000 (out * 10000 / ro)); [done|]. intros _.
  pose proof (Z.mul_succ_div_gt (out * 10000) ro ltac:(lia)). nia.
Qed.

Lemma impact_bound dx ri fm :
  0 < dx → 0 < ri → 9900 ≤ fm → ri * 10000 + dx * fm ≤ U128_MAX → check_price_impact dx ri = Ok tt →
  10000 * dx < 3001 * (ri + dx).
Proof.
  intros Hd Hr Hf Hu. unfold check_price_impact. destruct (Z.eqb_spec ri 0); [lia|].
  unfold saturating_add128, saturating_mul128, wrap32, MAX_PRICE_IMPACT_BPS. rewrite (Z.min_l (ri + dx)) by nia.
  set (m := Z.min (dx * 10000) U128_MAX).
  assert (Hm : m ≤ dx * 10000) by (unfold m; lia).
  assert (Hm0 : 0 ≤ m) by (unfold m, U128_MAX; lia).
  assert (Hq : 0 ≤ m / (ri + dx) < 10000) by (split; [apply Z.div_pos; lia|apply Z.div_lt_upper_bound; lia]).
  rewrite Z.mod_small by lia. destruct (Z.ltb_spec 3000 (m / (ri + dx))); [done|]. intros _.
  pose proof (Z.mul_succ_div_gt m (ri + dx) ltac:(lia)). unfold m in *. clearbody m. nia.
Qed.

(** ** Rules for the guards *)

Lemma t_check {A B} pn (P : Pair → Prop) (o : option A) e (f : A → M B) Q (F : Pair → Prop) :
  (∀ s, P s → F s) → (∀ a, o = Some a → triple pn P (f a) Q F) → triple pn P (lift (ok_or o e) ≫= f) Q F.
Proof. intros HF Ht. apply t_lift; [done|by intros ?%ok_or_panic|]. intros a Ha. by apply Ht, (ok_or_Ok _ e). Qed.

(** ** The square root *)

Lemma sqrt_step n r x :
  0 < r → r * r ≤ n < (r + 1) * (r + 1) → r < x → r ≤ (x + n / x) / 2 ∧ (x + n / x) / 2 - r ≤ (x - r) / 2 ∧ (x + n / x) / 2 < x.
Proof.
  intros Hr Hn Hx.
  assert (Hq : n / x ≤ r) by (apply Z.lt_succ_r, Z.div_lt_upper_bound; nia).
  assert (Hge : 2 * r ≤ x + n / x).
  { assert (2 * r - x ≤ n / x); [|lia]. destruct (decide (2 * r - x ≤ 0)); [pose proof (Z.div_pos n x); nia|].
    apply Z.div_le_lower_bound; nia. }
  split_and!.
  - apply Z.div_le_lower_bound; lia.
  - apply Z.div_le_lower_bound; [lia|].
    pose proof (Z.mul_div_le (x + n / x) 2 ltac:(lia)). lia.
  - apply Z.div_lt_upper_bound; lia.
Qed.
Lemma sqrt_sum n y : 1 ≤ y ≤ n → 0 ≤ y + n / y ≤ n + 1.
Proof.
  intros Hy. assert (1 ≤ n / y) by (apply Z.div_le_lower_bound; lia). pose proof (Z.mul_div_le n y ltac:(lia)). nia.
Qed.

Lemma sqrt_loop_ok fuel n r x :
  0 < r → r * r ≤ n < (r + 1) * (r + 1) → n < U128_MAX → r ≤ x ≤ n → x - r < 2 ^ Z.of_nat fuel →
  sqrt_loop fuel n x (wrap128 (x + n / x) / 2) = Ok r.
Proof.
  intros Hr Hn Hmax. revert x. induction fuel as [|fuel IH]; intros x Hx Hf.
  all: pose proof (sqrt_sum n x ltac:(lia)) as Hs; unfold wrap128; rewrite Z.mod_small by (unfold U128, U128_MAX in *; lia).
  - assert (x = r) as -> by (cbn in Hf; lia). cbn [sqrt_loop].
    assert (r ≤ n / r) by (apply Z.div_le_lower_bound; lia).
    assert (r ≤ (r + n / r) / 2) by (apply Z.div_le_lower_bound; lia). by destruct (Z.ltb_spec ((r + n / r) / 2) r); [lia|].
  - cbn [sqrt_loop]. destruct (decide (x = r)) as [->|Hne].
    + assert (r ≤ n / r) by (apply Z.div_le_lower_bound; lia).
      assert (r ≤ (r + n / r) / 2) by (apply Z.div_le_lower_bound; lia). by destruct (Z.ltb_spec ((r + n / r) / 2) r); [lia|].
    + destruct (sqrt_step n r x Hr Hn ltac:(lia)) as (H1 & H2 & H3). set (y := (x + n / x) / 2) in *.
      destruct (Z.ltb_spec y x); [|lia]. destruct (Z.eqb_spec y 0); [lia|]. apply IH; [lia|].
      rewrite Nat2Z.inj_succ, Z.pow_succ_r in Hf by lia.
      apply Z.le_lt_trans with ((x - r) / 2); [done|]. apply Z.div_lt_upper_bound; lia.
Qed.

(** The loop ends within [SQRT_FUEL] iterations with the exact floor of the
    square root, for every argument but the largest, where the first addition
    wraps to zero and the division by it panics. *)
Lemma integer_sqrt_correct n :
  0 ≤ n ≤ U128_MAX → integer_sqrt n = if n =? U128_MAX then Panic else Ok (Z.sqrt n).
Proof.
  intros Hn. destruct (Z.eqb_spec n U128_MAX) as [->|Hne]; [by vm_compute|].
  unfold integer_sqrt. destruct (Z.eqb_spec n 0) as [->|Hz]; [done|].
  pose proof (Z.sqrt_spec n ltac:(lia)) as Hs. cbv zeta in Hs. assert (0 < Z.sqrt n) by (apply Z.sqrt_pos; lia).
  replace (n + 1) with (n + n / n) by (rewrite Z.div_same; lia). apply sqrt_loop_ok; [done|lia|lia| |].
  - split; [|lia]. nia.
  - apply Z.lt_trans with U128; [unfold U128, U128_MAX in *; lia|]. by vm_compute.
Qed.

(** ** Swaps *)

(** What a swap of [sp] that pays [out] does to the pair. *)
Record swapped (sp : SwapParams) (p p' : Pair) (out : Z) : Prop := {
  sd_quote : out = get_amount_out p (amount_in sp) (a_to_b sp);
  sd_in : (sides (a_to_b sp) p').1 = (sides (a_to_b sp) p).1 + amount_in sp;
  sd_out : (sides (a_to_b sp) p').2 = (sides (a_to_b sp) p).2 - out;
  sd_min : 0 < out ∧ min_amount_out sp ≤ out;
  sd_drain : 10000 * out < 3001 * (sides (a_to_b sp) p).2;
  sd_impact : 10000 * amount_in sp < 3001 * ((sides (a_to_b sp) p).1 + amount_in sp);
  sd_time : sw_timestamp sp ≤ sw_deadline sp;
  sd_k : reserve_a p * reserve_b p ≤ reserve_a p' * reserve_b p' ≤ U128_MAX;
  sd_rest : (id p', total_lp p', fee_tier p', circuit p') = (id p, total_lp p, fee_tier p, circuit p)
}.

Lemma deadline_ok now d : check_deadline now d = Ok tt → now ≤ d.
Proof. unfold check_deadline. by destruct (Z.ltb_spec d now). Qed.
Lemma slippage_ok x m : check_slippage x m = Ok tt → m ≤ x.
Proof. unfold check_slippage. by destruct (Z.ltb_spec x m). Qed.
Lemma deadline_panic now d : check_deadline now d ≠ Panic.
Proof. unfold check_deadline. by case_match. Qed.
Lemma slippage_panic x m : check_slippage x m ≠ Panic.
Proof. unfold check_slippage. by case_match. Qed.
Lemma drain_panic x r : check_reserve_drain x r ≠ Panic.
Proof. unfold check_reserve_drain. by repeat case_match. Qed.
Lemma impact_panic x r : check_price_impact x r ≠ Panic.
Proof. unfold check_price_impact. by repeat case_match. Qed.
Lemma oracle_panic x r : check_oracle_deviation x r ≠ Panic.
Proof. unfold check_oracle_deviation. by repeat case_match. Qed.
Create HintDb pool.
#[local] Hint Resolve deadline_panic slippage_panic drain_panic impact_panic oracle_panic : pool.

(** A guard that reads only, at a state that is known. *)
Ltac t_guard := apply t_lift; [by intros ? <-|match goal with |- ?a = ?b → False => change (a ≠ b) end; by auto with pool|].
Ltac t_some x H := apply t_check; [by intros ? <-|]; intros x H.
Ltac t_pass := apply t_refuse; [by intros ? <-|].

(** The figures of a swap that passes the guards. *)
Lemma swap_figures p sp ri ro dxf num scl den :
  sides (a_to_b sp) p = (ri, ro) → 0 < ri → 0 < ro → 0 < amount_in sp →
  checked_mul128 (amount_in sp) (10000 - bps (fee_tier p)) = Some dxf → checked_mul128 dxf ro = Some num →
  checked_mul128 ri 10000 = Some scl → checked_add128 scl dxf = Some den →
  check_price_impact (amount_in sp) ri = Ok tt → check_reserve_drain (num / den) ro = Ok tt →
  num / den = get_amount_out p (amount_in sp) (a_to_b sp) ∧ 0 ≤ num / den < ro ∧
  ri * ro ≤ (ri + amount_in sp) * (ro - num / den) ∧ 10000 * (num / den) < 3001 * ro ∧
  10000 * amount_in sp < 3001 * (ri + amount_in sp).
Proof.
  intros Es Hri Hro Hx H1 H2 H3 H4 Him Hdr. pose proof (bps_range (fee_tier p)).
  assert (num / den = get_amount_out p (amount_in sp) (a_to_b sp)) as Hq.
  { unfold get_amount_out. rewrite Es. cbv zeta. rewrite H1, H2, H3. cbn [mbind option_bind]. rewrite H4.
    by rewrite !(proj2 (Z.eqb_neq _ _)) by lia. }
  apply checked_mul128_Some in H1 as [-> _], H2 as [-> Hu], H3 as [-> _]. apply checked_add128_Some in H4 as [-> Hd].
  set (fm := 10000 - bps (fee_tier p)) in *. set (out := _ / _) in *.
  destruct (swap_output ri ro (amount_in sp) fm out) as (Ho & Hk & Hm); [done..|unfold fm; lia|done|].
  split_and!; [done|lia|lia|done| |].
  - apply drain_bound; [done| |done]. assert (0 ≤ amount_in sp * fm) by (unfold fm; nia). nia.
  - eapply (impact_bound _ _ fm); [done..|unfold fm; lia|lia|done].
Qed.

Lemma swap_inner_spec sp p :
  wf p → 0 ≤ amount_in sp →
  triple False (eq p) (swap_inner sp) (fun r p' => swapped sp p p' (amount_out r) ∧ reentrancy p' = reentrancy p)
    (fun p' => books p' = books p ∧ reentrancy p' = reentrancy p).
Proof.
  intros [Ha Hb Hl _] Hin. unfold swap_inner.
  t_guard. intros [] Hd%deadline_ok. t_pass. intros Hz%Z.eqb_neq.
  apply t_gets. intros q <-. destruct (sides (a_to_b sp) p) as [ri ro] eqn:Es.
  assert (0 ≤ ri ∧ 0 ≤ ro ∧ reserve_a p * reserve_b p = ri * ro) as (? & ? & Hk).
  { unfold sides in Es. destruct (a_to_b sp); injection Es as <- <-; lia. }
  t_pass. intros [Hri%Z.eqb_neq Hro%Z.eqb_neq]%orb_false_iff.
  t_guard. intros [] _. t_guard. intros [] Himp. t_some dxf Hdxf. t_some num Hnum. t_some scl Hsc. t_some den Hden.
  t_pass. intros Ho%Z.eqb_neq. t_guard. intros [] Hdr. t_guard. intros [] Hsl%slippage_ok.
  destruct (split_fee _ _) as [lp pr].
  t_some k0 Hk0. t_some ni Hni. t_some no Hno.
  destruct (swap_figures p sp ri ro dxf num scl den) as (Hq & Hb1 & Hb2 & Hb3 & Hb4); [done|lia|lia|lia|done..|].
  apply checked_add128_Some in Hni as [-> Hni]. apply checked_sub_Some in Hno as [-> Hno].
  apply checked_mul128_Some in Hk0 as [-> Hk0]. set (out := num / den) in *.
  unfold sides in Es. destruct (a_to_b sp) eqn:Ed; injection Es as <- <-.
  all: apply t_write, t_check; [by intros ? (? & <- & <-)|]; intros nk [-> Hnk]%checked_mul128_Some.
  all: apply t_refuse; [by intros ? (? & <- & <-)|]; intros _; apply t_write, t_ret.
  all: intros ? (? & (? & <- & <-) & <-); split; [|done]; split; rewrite ?Ed; cbn; (done || lia).
Qed.

(** ** The frame *)

(** A call is refused by the breaker or the lock, or runs its body under the
    lock and releases it. *)
Lemma guarded_cases {A} (body : M A) p r p' :
  guarded body p = (r, p') →
  (p' = p ∧ (r = Err Reentrancy ∨ ∃ w, r = Err (PoolPaused w)) ∧ (paused (circuit p) = true ∨ locked (reentrancy p) = true)) ∨
  (paused (circuit p) = false ∧ locked (reentrancy p) = false ∧
   ∃ p1, body (set_reentrancy (mkGuard true) p) = (r, p1) ∧
         p' = match r with Panic => p1 | _ => set_reentrancy (mkGuard false) p1 end).
Proof.
  unfold guarded, gets, lift, modify, releasing, mbind, M_bind, check, acquire, release.
  destruct (paused (circuit p)) eqn:Ep; [intros [= <- <-]; left; split; [done|split; [right; by eexists|by left]]|].
  destruct (locked (reentrancy p)) eqn:Er; [intros [= <- <-]; left; split; [done|split; [by left|by right]]|]. intros H. right. split_and!; [done..|].
  destruct (body _) as [[a|e|] p1]; injection H as <- <-; eauto.
Qed.

(** ** Deposits and withdrawals *)

Lemma safe_mul_div_Ok a b c r : safe_mul_div a b c = Ok r → c ≠ 0 ∧ r = a * b / c ∧ a * b ≤ U128_MAX.
Proof.
  unfold safe_mul_div. destruct (Z.eqb_spec c 0); [done|]. intros (m & Hn & Hr)%bind_Ok_inv.
  apply ok_or_Ok, checked_mul128_Some in Hn as [-> ?]. injection Hr as <-. done.
Qed.
Lemma safe_mul_div_panic a b c : safe_mul_div a b c ≠ Panic.
Proof. unfold safe_mul_div. case_match; [done|]. apply bind_no_panic; [apply ok_or_panic|done]. Qed.

(** What a deposit of [ap] that returns [r] does to the pair. *)
Record added (ap : AddLiquidityParams) (p p' : Pair) (r : AddLiquidityResult) : Prop := {
  ad_a : reserve_a p' = reserve_a p + used_a r;
  ad_b : reserve_b p' = reserve_b p + used_b r;
  ad_l : total_lp p' = total_lp p + lp_minted r;
  ad_fit : reserve_a p' ≤ U128_MAX ∧ reserve_b p' ≤ U128_MAX ∧ total_lp p' ≤ U128_MAX;
  ad_used : 0 ≤ used_a r ≤ amount_a ap ∧ 0 ≤ used_b r ≤ amount_b ap;
  ad_lp : 0 ≤ lp_minted r ∧ min_lp_out ap ≤ lp_minted r;
  ad_first : total_lp p = 0 → r = mkAddResult (Z.sqrt (amount_a ap * amount_b ap) - MIN_LIQUIDITY) (amount_a ap) (amount_b ap) ∧
    0 < lp_minted r ∧ 0 < used_a r ∧ 0 < used_b r;
  ad_next : total_lp p ≠ 0 →
    lp_minted r = Z.min (amount_a ap * total_lp p / reserve_a p) (amount_b ap * total_lp p / reserve_b p) ∧
    used_a r = lp_minted r * reserve_a p / total_lp p ∧ used_b r = lp_minted r * reserve_b p / total_lp p;
  ad_time : add_timestamp ap ≤ add_deadline ap;
  ad_rest : (id p', fee_a p', fee_b p', fee_tier p', circuit p') = (id p, fee_a p, fee_b p, fee_tier p, circuit p)
}.

Lemma used_within amt L r lp : 0 < r → 0 < L → 0 ≤ lp → lp ≤ amt * L / r → 0 ≤ lp * r / L ≤ amt.
Proof.
  intros Hr HL Hlp Hle. split; [apply Z.div_pos; nia|]. pose proof (Z.mul_div_le (amt * L) r Hr).
  apply Z.lt_succ_r, Z.div_lt_upper_bound; nia.
Qed.

Lemma deposit_terms_spec p ap :
  wf p → 0 < amount_a ap → 0 < amount_b ap →
  match deposit_terms p ap with
  | Ok (lp, ua, ub) =>
      0 ≤ lp ∧ 0 ≤ ua ≤ amount_a ap ∧ 0 ≤ ub ≤ amount_b ap ∧
      (total_lp p = 0 → lp = Z.sqrt (amount_a ap * amount_b ap) - MIN_LIQUIDITY ∧ 0 < lp ∧ ua = amount_a ap ∧ ub = amount_b ap ∧
         amount_a ap * amount_b ap ≤ U128_MAX) ∧
      (total_lp p ≠ 0 → lp = Z.min (amount_a ap * total_lp p / reserve_a p) (amount_b ap * total_lp p / reserve_b p) ∧
         ua = lp * reserve_a p / total_lp p ∧ ub = lp * reserve_b p / total_lp p)
  | Err _ => True
  | Panic => total_lp p = 0 ∧ amount_a ap * amount_b ap = U128_MAX
  end.
Proof.
  intros [Ha Hb Hl Hw] Hx Hy. unfold deposit_terms. destruct (Z.eqb_spec (total_lp p) 0) as [Hz|Hz].
  - destruct (checked_mul128 (amount_a ap) (amount_b ap)) as [pr|] eqn:Em; cbn [ok_or outcome_bind]; [|done].
    apply checked_mul128_Some in Em as [-> Hm]. rewrite integer_sqrt_correct by nia.
    destruct (Z.eqb_spec (amount_a ap * amount_b ap) U128_MAX); cbn [outcome_bind]; [done|].
    destruct (Z.leb_spec (Z.sqrt (amount_a ap * amount_b ap)) MIN_LIQUIDITY); [done|]. split_and!; (done || lia).
  - destruct (safe_mul_div (amount_a ap) _ _) as [la|e|] eqn:Ea; cbn [outcome_bind]; [|done|by apply safe_mul_div_panic in Ea].
    destruct (safe_mul_div (amount_b ap) _ _) as [lb|e|] eqn:Eb; cbn [outcome_bind]; [|done|by apply safe_mul_div_panic in Eb].
    destruct (safe_mul_div _ (reserve_a p) _) as [ua|e|] eqn:Eua; cbn [outcome_bind]; [|done|by apply safe_mul_div_panic in Eua].
    destruct (safe_mul_div _ (reserve_b p) _) as [ub|e|] eqn:Eub; cbn [outcome_bind]; [|done|by apply safe_mul_div_panic in Eub].
    apply safe_mul_div_Ok in Ea as (? & -> & _), Eb as (? & -> & _), Eua as (_ & -> & _), Eub as (_ & -> & _).
    set (la := _ / reserve_a p). set (lb := _ / reserve_b p).
    assert (0 ≤ la) by (apply Z.div_pos; nia). assert (0 ≤ lb) by (apply Z.div_pos; nia).
    split; [lia|]. split; [|split; [|split; [done|by intros _]]].
    + apply used_within; [lia..|]. fold la. lia.
    + apply used_within; [lia..|]. fold lb. lia.
Qed.

(** A failed deposit changes nothing, unless a sum overflows after the first
    reserve has been written. *)
Lemma add_inner_cases ap p r p' :
  wf p → 0 ≤ amount_a ap → 0 ≤ amount_b ap → add_liquidity_inner ap p = (r, p') →
  match r with
  | Ok res => added ap p p' res
  | Err e => p' = p ∨ e = Overflow ∧ total_lp p ≠ 0 ∧ ∃ ra rb, p' = set_reserves ra rb p ∧
      reserve_a p ≤ ra ≤ U128_MAX ∧ reserve_b p ≤ rb ≤ U128_MAX
  | Panic => p' = p ∧ total_lp p = 0 ∧ amount_a ap * amount_b ap = U128_MAX
  end.
Proof.
  intros Hwf Hx Hy. unfold add_liquidity_inner, gets, lift, modify, refuse, fail, mbind, M_bind, mret, M_ret.
  destruct (check_deadline _ _) as [[]|e|] eqn:Hd; [|intros [= <- <-]; by left|by apply deadline_panic in Hd].
  apply deadline_ok in Hd. destruct (Z.eqb_spec (amount_a ap) 0); [intros [= <- <-]; by left|].
  destruct (Z.eqb_spec (amount_b ap) 0); [intros [= <- <-]; by left|]. cbn [orb].
  pose proof (deposit_terms_spec p ap Hwf ltac:(lia) ltac:(lia)) as Ht. destruct Hwf as [Wa Wb Wl Ww].
  destruct (deposit_terms p ap) as [[[lp ua] ub]|e|]; [|intros [= <- <-]; by left|by intros [= <- <-]].
  destruct Ht as (H1 & H2 & H3 & H4 & H5). destruct (Z.ltb_spec lp (min_lp_out ap)); [intros [= <- <-]; by left|].
  destruct (checked_add128 (reserve_a p) ua) as [ra|] eqn:Ea; cbn [ok_or]; [|intros [= <- <-]; by left].
  apply checked_add128_Some in Ea as [-> Ea].
  assert (total_lp p = 0 → reserve_b p + ub ≤ U128_MAX ∧ total_lp p + lp ≤ U128_MAX) as H0.
  { intros Hz. destruct (H4 Hz) as (-> & _ & _ & -> & Hp). pose proof (Z.sqrt_le_lin (amount_a ap * amount_b ap)).
    unfold MIN_LIQUIDITY. nia. }
  destruct (checked_add128 (reserve_b p) ub) as [rb|] eqn:Eb; cbn [ok_or].
  2: { intros [= <- <-]. right. unfold checked_add128 in Eb. destruct (Z.leb_spec (reserve_b p + ub) U128_MAX); [done|].
       split_and!; [done|lia|]. exists (reserve_a p + ua), (reserve_b p). split; [done|lia]. }
  apply checked_add128_Some in Eb as [-> Eb].
  destruct (checked_add128 (total_lp p) lp) as [l|] eqn:El; cbn [ok_or].
  2: { intros [= <- <-]. right. unfold checked_add128 in El. destruct (Z.leb_spec (total_lp p + lp) U128_MAX); [done|].
       split_and!; [done|lia|]. exists (reserve_a p + ua), (reserve_b p + ub). split; [done|lia]. }
  apply checked_add128_Some in El as [-> El]. intros [= <- <-]. split; cbn; try (done || lia).
  intros Hz. destruct (H4 Hz) as (? & ? & -> & -> & _). split_and!; [by f_equal|lia..].
Qed.

(** What a withdrawal of [rp] that returns [r] does to the pair. *)
Record removed (rp : RemoveLiquidityParams) (p p' : Pair) (r : RemoveLiquidityResult) : Prop := {
  re_a : reserve_a p' = reserve_a p - out_a r;
  re_b : reserve_b p' = reserve_b p - out_b r;
  re_l : total_lp p' = total_lp p - lp_amount rp;
  re_out_a : out_a r = lp_amount rp * reserve_a p / total_lp p ∧ 0 < out_a r ∧ min_a_out rp ≤ out_a r;
  re_out_b : out_b r = lp_amount rp * reserve_b p / total_lp p ∧ 0 < out_b r ∧ min_b_out rp ≤ out_b r;
  re_lp : 0 < lp_amount rp ≤ total_lp p;
  re_time : rm_timestamp rp ≤ rm_deadline rp;
  re_rest : (id p', fee_a p', fee_b p', fee_tier p', circuit p') = (id p, fee_a p, fee_b p, fee_tier p, circuit p)
}.

Lemma share_le s r L : 0 ≤ s ≤ L → 0 < L → 0 ≤ r → 0 ≤ s * r / L ≤ r.
Proof. intros. split; [apply Z.div_pos; nia|]. apply Z.lt_succ_r, Z.div_lt_upper_bound; nia. Qed.

Lemma share_lt s r L : 0 ≤ s < L → 0 < r → s * r / L < r.
Proof. intros. apply Z.div_lt_upper_bound; nia. Qed.

(** A failed withdrawal changes nothing. *)
Lemma remove_inner_cases rp p r p' :
  wf p → 0 ≤ lp_amount rp → remove_liquidity_inner rp p = (r, p') →
  match r with Ok res => removed rp p p' res | Err _ => p' = p | Panic => False end.
Proof.
  intros [Wa Wb Wl Ww] Hx. unfold remove_liquidity_inner, gets, lift, modify, refuse, fail, mbind, M_bind, mret, M_ret.
  destruct (check_deadline _ _) as [[]|e|] eqn:Hd; [|by intros [= <- <-]|by apply deadline_panic in Hd].
  apply deadline_ok in Hd. destruct (Z.eqb_spec (lp_amount rp) 0); [by intros [= <- <-]|].
  destruct (Z.ltb_spec (total_lp p) (lp_amount rp)); [by intros [= <- <-]|].
  destruct (safe_mul_div _ (reserve_a p) _) as [a|e|] eqn:Ea; [|by intros [= <- <-]|by apply safe_mul_div_panic in Ea].
  destruct (safe_mul_div _ (reserve_b p) _) as [b|e|] eqn:Eb; [|by intros [= <- <-]|by apply safe_mul_div_panic in Eb].
  apply safe_mul_div_Ok in Ea as (? & -> & _), Eb as (_ & -> & _).
  destruct (share_le (lp_amount rp) (reserve_a p) (total_lp p)); [lia..|].
  destruct (share_le (lp_amount rp) (reserve_b p) (total_lp p)); [lia..|].
  set (a := _ * reserve_a p / _) in *. set (b := _ * reserve_b p / _) in *.
  destruct (Z.eqb_spec a 0); [by intros [= <- <-]|]. destruct (Z.eqb_spec b 0); [by intros [= <- <-]|]. cbn [orb].
  destruct (check_slippage a _) as [[]|e|] eqn:E1; [apply slippage_ok in E1|by intros [= <- <-]|by apply slippage_panic in E1].
  destruct (check_slippage b _) as [[]|e|] eqn:E2; [apply slippage_ok in E2|by intros [= <- <-]|by apply slippage_panic in E2].
  unfold checked_sub. rewrite !(proj2 (Z.leb_le _ _)) by lia. cbn [ok_or]. intros [= <- <-].
  split; cbn; (done || lia || split_and!; (done || lia)).
Qed.

(** The product check of [swap_inner] never fires. *)
Lemma swap_inner_no_violation sp p :
  wf p → 0 ≤ amount_in sp → (swap_inner sp p).1 ≠ Err InvariantViolation.
Proof.
  intros [Wa Wb Wl Ww] Hx. unfold swap_inner, gets, lift, modify, refuse, fail, mbind, M_bind, mret, M_ret.
  destruct (check_deadline _ _) as [[]|e|] eqn:Hd; [|by unfold check_deadline in Hd; repeat case_match; simplify_eq|done].
  destruct (Z.eqb_spec (amount_in sp) 0); [done|]. destruct (sides (a_to_b sp) p) as [ri ro] eqn:Es.
  destruct (Z.eqb_spec ri 0); [done|]. destruct (Z.eqb_spec ro 0); [done|]. cbn [orb].
  destruct (check_oracle_deviation _ _) as [[]|e|] eqn:Ho;
    [|by unfold check_oracle_deviation in Ho; repeat case_match; simplify_eq|done].
  destruct (check_price_impact _ _) as [[]|e|] eqn:Hi;
    [|by unfold check_price_impact in Hi; repeat case_match; simplify_eq|done].
  destruct (checked_mul128 (amount_in sp) _) as [dxf|] eqn:H1; cbn [ok_or]; [|done].
  destruct (checked_mul128 dxf ro) as [num|] eqn:H2; cbn [ok_or]; [|done].
  destruct (checked_mul128 ri 10000) as [scl|] eqn:H3; cbn [ok_or]; [|done].
  destruct (checked_add128 scl dxf) as [den|] eqn:H4; cbn [ok_or]; [|done]. destruct (_ =? 0); [done|].
  destruct (check_reserve_drain _ _) as [[]|e|] eqn:Hr;
    [|by unfold check_reserve_drain in Hr; repeat case_match; simplify_eq|done].
  destruct (check_slippage _ _) as [[]|e|] eqn:Hs; [|by unfold check_slippage in Hs; repeat case_match; simplify_eq|done].
  destruct (split_fee _ _) as [lp pr]. destruct (checked_mul128 (reserve_a p) _) as [k0|] eqn:H5; cbn [ok_or]; [|done].
  destruct (checked_add128 ri _) as [ni|] eqn:H6; cbn [ok_or]; [|done].
  destruct (checked_sub ro _) as [no|] eqn:H7; cbn [ok_or]; [|done].
  assert (0 ≤ ri ∧ 0 ≤ ro ∧ reserve_a p * reserve_b p = ri * ro) as (? & ? & Hk).
  { unfold sides in Es. destruct (a_to_b sp); injection Es as <- <-; lia. }
  destruct (swap_figures p sp ri ro dxf num scl den) as (_ & _ & Hb & _); [done|lia|lia|lia|done..|].
  apply checked_mul128_Some in H5 as [-> _]. apply checked_add128_Some in H6 as [-> _]. apply checked_sub_Some in H7 as [-> _].
  destruct (a_to_b sp).
  all: match goal with |- context [checked_mul128 ?x ?y] => destruct (checked_mul128 x y) as [nk|] eqn:H8; cbn [ok_or]; [|done] end.
  all: apply checked_mul128_Some in H8 as [-> _].
  all: match goal with |- context [?x <? ?y] => destruct (Z.ltb_spec x y); [lia|done] end.
Qed.

(** ** Invariant *)

Lemma wf_new i t : wf (pair_new i t).
Proof. split; cbn; (unfold U128_MAX; lia) || by left. Qed.

Lemma wf_same p p' : reserve_a p' = reserve_a p → reserve_b p' = reserve_b p → total_lp p' = total_lp p → wf p → wf p'.
Proof. intros Ha Hb Hl []. split; by rewrite ?Ha, ?Hb, ?Hl. Qed.

Lemma swapped_wf sp p p' out : wf p → 0 ≤ amount_in sp → swapped sp p p' out → wf p'.
Proof.
  intros [Wa Wb Wl Ww] Hx [_ Hi Ho Hm Hd _ _ Hk Hr]. injection Hr as _ Hl _ _.
  assert (0 < reserve_a p' ∧ 0 < reserve_b p' ∧ 0 < total_lp p) as (? & ? & ?).
  { unfold sides in *. destruct (a_to_b sp); cbn in *; lia. }
  split; [nia|nia|lia|right; lia].
Qed.

Lemma added_wf ap p p' r : wf p → added ap p p' r → wf p'.
Proof.
  intros [Wa Wb Wl Ww] [Ha Hb Hl Hf Hu Hm H0 _ _ _]. split; [lia..|]. right.
  destruct Ww as [(Hz & _)|?]; [destruct (H0 Hz) as (_ & ?)|]; lia.
Qed.

Lemma removed_wf rp p p' r : wf p → removed rp p p' r → wf p'.
Proof.
  intros [Wa Wb Wl Ww] [Ha Hb Hl [Ea ?] [Eb ?] Hlp _ _].
  pose proof (share_le (lp_amount rp) (reserve_a p) (total_lp p)). pose proof (share_le (lp_amount rp) (reserve_b p) (total_lp p)).
  split; [lia..|]. destruct (decide (lp_amount rp = total_lp p)) as [E|E].
  - left. rewrite E, Z.mul_comm, Z.div_mul in Ea, Eb by lia. lia.
  - right. pose proof (share_lt (lp_amount rp) (reserve_a p) (total_lp p)).
    pose proof (share_lt (lp_amount rp) (reserve_b p) (total_lp p)). lia.
Qed.

(** ** Public methods *)

Lemma guarded_frame {A} (body : M A) (Q : A → Pair → Prop) (E : AmmError → Pair → Prop) (pn : Prop) p :
  (∀ g, (∀ a p', Q a p' → Q a (set_reentrancy g p')) ∧ (∀ e p', E e p' → E e (set_reentrancy g p'))) →
  E Reentrancy p → (∀ w, E (PoolPaused w) p) →
  match body (set_reentrancy (mkGuard true) p) with
  | (Ok a, p') => Q a p' | (Err e, p') => E e p' | (Panic, _) => pn
  end →
  match guarded body p with
  | (Ok a, p') => Q a p' ∧ locked (reentrancy p') = false
  | (Err e, p') => E e p' ∧ locked (reentrancy p') = locked (reentrancy p)
  | (Panic, _) => pn
  end.
Proof.
  intros Hc He Hw Hb. destruct (guarded body p) as [r p'] eqn:Eg.
  apply guarded_cases in Eg as [(-> & [->|(w & ->)] & _)|(_ & Hl & p1 & Hp1 & ->)]; [by split..|].
  rewrite Hp1 in Hb. destruct r as [a|e|]; [| |done].
  - split; [by apply (Hc (mkGuard false))|done].
  - split; [by apply (Hc (mkGuard false))|by rewrite Hl].
Qed.

Lemma locked_wf g p : wf p → wf (set_reentrancy g p).
Proof. by apply wf_same. Qed.

Lemma swapped_locked sp g g' p p' out :
  swapped sp (set_reentrancy g p) p' out → swapped sp p (set_reentrancy g' p') out.
Proof. intros []. by split. Qed.

Lemma swap_spec sp p :
  wf p → 0 ≤ amount_in sp →
  match swap sp p with
  | (Ok r, p') => (swapped sp p p' (amount_out r) ∧ wf p') ∧ locked (reentrancy p') = false
  | (Err e, p') => (books p' = books p ∧ e ≠ InvariantViolation) ∧ locked (reentrancy p') = locked (reentrancy p)
  | (Panic, _) => False
  end.
Proof.
  intros Hwf Hx. apply (guarded_frame (swap_inner sp) (fun r p' => swapped sp p p' (amount_out r) ∧ wf p')
    (fun e p' => books p' = books p ∧ e ≠ InvariantViolation) False).
  - intros g. split; [intros r p' [Hs Hw]|done]. split; [|by apply locked_wf].
    by apply (swapped_locked sp (reentrancy p)); destruct p.
  - done.
  - done.
  - pose proof (swap_inner_spec sp _ (locked_wf (mkGuard true) p Hwf) Hx _ eq_refl) as Hs.
    pose proof (swap_inner_no_violation sp _ (locked_wf (mkGuard true) p Hwf) Hx) as Hv.
    destruct (swap_inner sp _) as [[r|e|] p']; [|split; [apply Hs|intros ->; by apply Hv]|done].
    destruct Hs as [Hs _]. assert (swapped sp p p' (amount_out r)).
    { apply (swapped_locked sp _ (reentrancy p')) in Hs. by destruct p'. }
    split; [done|by eapply swapped_wf].
Qed.

Lemma added_locked ap g g' p p' r : added ap (set_reentrancy g p) p' r → added ap p (set_reentrancy g' p') r.
Proof. intros []. by split. Qed.
Lemma removed_locked rp g g' p p' r : removed rp (set_reentrancy g p) p' r → removed rp p (set_reentrancy g' p') r.
Proof. intros []. by split. Qed.

(** A failed deposit: nothing has changed, or a sum has overflowed. *)
Definition add_failed (e : AmmError) (p p' : Pair) : Prop :=
  (id p', total_lp p', fee_tier p', circuit p') = (id p, total_lp p, fee_tier p, circuit p) ∧
  (reserve_a p' = reserve_a p ∧ reserve_b p' = reserve_b p ∨
   e = Overflow ∧ total_lp p ≠ 0 ∧ reserve_a p ≤ reserve_a p' ≤ U128_MAX ∧ reserve_b p ≤ reserve_b p' ≤ U128_MAX).

Lemma add_spec ap p :
  wf p → 0 ≤ amount_a ap → 0 ≤ amount_b ap →
  match add_liquidity ap p with
  | (Ok r, p') => added ap p p' r ∧ locked (reentrancy p') = false
  | (Err e, p') => add_failed e p p' ∧ locked (reentrancy p') = locked (reentrancy p)
  | (Panic, _) => total_lp p = 0 ∧ amount_a ap * amount_b ap = U128_MAX
  end.
Proof.
  intros Hwf Hx Hy. apply (guarded_frame (add_liquidity_inner ap) (fun r p' => added ap p p' r) (fun e p' => add_failed e p p')
    (total_lp p = 0 ∧ amount_a ap * amount_b ap = U128_MAX)).
  - intros g. split; [|done]. intros r p' Hs. by apply (added_locked ap (reentrancy p)); destruct p.
  - split; [done|by left].
  - intros w. split; [done|by left].
  - destruct (add_liquidity_inner ap _) as [r p'] eqn:E.
    apply (add_inner_cases ap _ r p' (locked_wf (mkGuard true) p Hwf) Hx Hy) in E. destruct r as [r|e|]; [| |apply E].
    + apply (added_locked ap _ (reentrancy p')) in E. by destruct p'.
    + destruct E as [->|(-> & Hl & ra & rb & -> & ?)]; split; [done|by left|done|by right].
Qed.

Lemma remove_spec rp p :
  wf p → 0 ≤ lp_amount rp →
  match remove_liquidity rp p with
  | (Ok r, p') => removed rp p p' r ∧ locked (reentrancy p') = false
  | (Err e, p') => books p' = books p ∧ locked (reentrancy p') = locked (reentrancy p)
  | (Panic, _) => False
  end.
Proof.
  intros Hwf Hx. apply (guarded_frame (remove_liquidity_inner rp) (fun r p' => removed rp p p' r) (fun e p' => books p' = books p) False).
  - intros g. split; [|done]. intros r p' Hs. by apply (removed_locked rp (reentrancy p)); destruct p.
  - done.
  - done.
  - destruct (remove_liquidity_inner rp _) as [r p'] eqn:E.
    apply (remove_inner_cases rp _ r p' (locked_wf (mkGuard true) p Hwf) Hx) in E. destruct r as [r|e|]; [| |done].
    + apply (removed_locked rp _ (reentrancy p')) in E. by destruct p'.
    + by rewrite E.
Qed.

Lemma add_failed_wf e p p' : wf p → add_failed e p p' → wf p'.
Proof.
  intros Hwf [Hr [[Ha Hb]|(-> & Hl & Ha & Hb)]]; injection Hr as _ Ht _ _; [by eapply wf_same|].
  destruct Hwf as [Wa Wb Wl Ww]. split; [lia..|]. right. lia.
Qed.

(** ** Runs *)

Inductive call :=
| Swap (sp : SwapParams)
| Add (ap : AddLiquidityParams)
| Remove (rp : RemoveLiquidityParams)
| Trip (why : bytes) (block : Z)
| Clear.

(** Amounts are unsigned. *)
Definition unsigned (c : call) : Prop :=
  match c with
  | Swap sp => 0 ≤ amount_in sp
  | Add ap => 0 ≤ amount_a ap ∧ 0 ≤ amount_b ap
  | Remove rp => 0 ≤ lp_amount rp
  | _ => True
  end.

Definition exec (c : call) : M unit :=
  match c with
  | Swap sp => swap sp;; mret tt
  | Add ap => add_liquidity ap;; mret tt
  | Remove rp => remove_liquidity rp;; mret tt
  | Trip why block => modify (fun p => set_circuit (trip why block (circuit p)) p)
  | Clear => modify (fun p => set_circuit (clear (circuit p)) p)
  end.

(** The pair after a sequence of calls; a failed call keeps what it wrote, a
    panic ends the process. *)
Fixpoint run (p : Pair) (cs : list call) : option Pair :=
  match cs with
  | [] => Some p
  | c :: rest => match exec c p with (Panic, _) => None | (_, p') => run p' rest end
  end.

Lemma exec_wf c p : wf p → unsigned c → (exec c p).1 ≠ Panic → wf (exec c p).2.
Proof.
  intros Hwf Hu. destruct c as [sp|ap|rp|why b|]; cbn in Hu; [| | |by intros; apply (wf_same p)..].
  - pose proof (swap_spec sp p Hwf Hu) as H. unfold exec, mbind, M_bind. destruct (swap sp p) as [[r|e|] p']; cbn; [| |done].
    + intros _. apply H.
    + intros _. destruct H as [[Hb _] _]. injection Hb as _ Ha Hb Hl _ _. by eapply wf_same.
  - pose proof (add_spec ap p Hwf ltac:(apply Hu) ltac:(apply Hu)) as H. unfold exec, mbind, M_bind.
    destruct (add_liquidity ap p) as [[r|e|] p']; cbn; [| |done].
    + intros _. eapply added_wf; [done|apply H].
    + intros _. eapply add_failed_wf; [done|apply H].
  - pose proof (remove_spec rp p Hwf Hu) as H. unfold exec, mbind, M_bind.
    destruct (remove_liquidity rp p) as [[r|e|] p']; cbn; [| |done].
    + intros _. eapply removed_wf; [done|apply H].
    + intros _. destruct H as [Hb _]. injection Hb as _ Ha Hb Hl _ _. by eapply wf_same.
Qed.

Lemma run_wf p cs p' : wf p → Forall unsigned cs → run p cs = Some p' → wf p'.
Proof.
  revert p. induction cs as [|c cs IH]; intros p Hwf Hu; cbn; [by intros [= <-]|].
  apply Forall_cons in Hu as [Hc Hu]. pose proof (exec_wf c p Hwf Hc) as Hx.
  destruct (exec c p) as [[[]|e|] p1]; [| |done]; intros Hr; (eapply IH; [by apply Hx|done|done]).
Qed.

(** ** What shares are worth *)

(** What [remove_liquidity] pays for [s] shares. *)
Definition redeem (s : Z) (p : Pair) : Z * Z := (s * reserve_a p / total_lp p, s * reserve_b p / total_lp p).

(** A deposit of [lp] shares against [lp * r / L] of a reserve: other shares
    lose less than a unit, and the new ones are worth at most their price. *)
Lemma deposit_dilution r L lp s :
  0 < L → 0 ≤ r → 0 ≤ lp → 0 ≤ s ≤ L →
  s * r / L - 1 ≤ s * (r + lp * r / L) / (L + lp) ∧ lp * (r + lp * r / L) / (L + lp) ≤ lp * r / L.
Proof.
  intros HL Hr Hlp Hs. pose proof (Z.mul_div_le (lp * r) L HL) as H1.
  pose proof (Z.mul_succ_div_gt (lp * r) L HL) as H2. set (u := lp * r / L) in *. split.
  - apply Z.div_le_lower_bound; [lia|]. pose proof (Z.mul_div_le (s * r) L HL) as H3. set (v := s * r / L) in *.
    assert (L * ((L + lp) * (v - 1)) ≤ L * (s * (r + u))); [|nia].
    assert (L * v * (L + lp) ≤ s * r * (L + lp)) by (apply Z.mul_le_mono_nonneg_r; lia). nia.
  - apply Z.lt_succ_r, Z.div_lt_upper_bound; nia.
Qed.

Lemma zero_div x : 0 / x = 0.
Proof. by destruct x. Qed.

(** A withdrawal of [lp] shares leaves the others at least their part. *)
Lemma withdrawal_fair r L lp s :
  0 < L → 0 ≤ r → 0 ≤ lp → lp < L → 0 ≤ s → s * r / L ≤ s * (r - lp * r / L) / (L - lp).
Proof.
  intros HL Hr Hlp Hlt Hs. pose proof (Z.mul_div_le (lp * r) L HL) as H1. set (u := lp * r / L) in *.
  apply Z.div_le_lower_bound; [lia|]. pose proof (Z.mul_div_le (s * r) L HL) as H3. set (v := s * r / L) in *.
  assert (L * ((L - lp) * v) ≤ L * (s * (r - u))); [|nia].
  assert (L * v * (L - lp) ≤ s * r * (L - lp)) by (apply Z.mul_le_mono_nonneg_r; lia). nia.
Qed.

(** C31: A swap is exact and never costs the pool. On a pair reached by any calls
    a swap never panics. When it succeeds it pays the quoted amount, which is
    positive, at least the caller's minimum and at most 30.01% of the reserve;
    the reserves move by exactly the input and the output, their product does
    not decrease, and nothing else but the fee counters changes. When it fails,
    reserves and shares are as before, and the error is never the invariant
    violation. Either way the pair stays well formed and is not left locked. *)
Theorem swap_sound i t cs p sp :
  Forall unsigned cs → run (pair_new i t) cs = Some p → 0 ≤ amount_in sp →
  match swap sp p with
  | (Ok r, p') => (swapped sp p p' (amount_out r) ∧ wf p') ∧ locked (reentrancy p') = false
  | (Err e, p') => (books p' = books p ∧ e ≠ InvariantViolation) ∧ locked (reentrancy p') = locked (reentrancy p)
  | (Panic, _) => False
  end.
Proof. intros Hu Hr Hx. apply swap_spec; [|done]. eapply run_wf; [apply wf_new|done|done]. Qed.

(** C32: Liquidity is priced fairly up to one unit. On a pair reached by any
    calls: a deposit uses at most what was offered, its shares redeem at most
    what it used, and the shares of the others redeem at most one unit of each
    token less than before; a withdrawal pays exactly the redemption of its
    shares and the remaining shares redeem no less than before; the deposit
    panics only when it is the first and the product of its amounts is the
    largest 128-bit number. *)
Theorem liquidity_fair i t cs p ap rp :
  Forall unsigned cs → run (pair_new i t) cs = Some p → unsigned (Add ap) → unsigned (Remove rp) →
  match add_liquidity ap p with
  | (Ok r, p') =>
      (used_a r ≤ amount_a ap ∧ used_b r ≤ amount_b ap) ∧
      (total_lp p ≠ 0 → (redeem (lp_minted r) p').1 ≤ used_a r ∧ (redeem (lp_minted r) p').2 ≤ used_b r) ∧
      (∀ s, 0 ≤ s ≤ total_lp p → (redeem s p).1 - 1 ≤ (redeem s p').1 ∧ (redeem s p).2 - 1 ≤ (redeem s p').2)
  | (Err e, p') => total_lp p' = total_lp p ∧ (e = Overflow ∨ books p' = books p)
  | (Panic, _) => total_lp p = 0 ∧ amount_a ap * amount_b ap = U128_MAX
  end ∧
  match remove_liquidity rp p with
  | (Ok r, p') =>
      (out_a r, out_b r) = redeem (lp_amount rp) p ∧
      (∀ s, 0 ≤ s ≤ total_lp p' → (redeem s p).1 ≤ (redeem s p').1 ∧ (redeem s p).2 ≤ (redeem s p').2)
  | (Err e, p') => books p' = books p
  | (Panic, _) => False
  end.
Proof.
  intros Hu Hr [Hx Hy] Hz. pose proof (run_wf _ _ _ (wf_new i t) Hu Hr) as Hwf. split.
  - pose proof (add_spec ap p Hwf Hx Hy) as H. destruct Hwf as [Wa Wb Wl Ww].
    destruct (add_liquidity ap p) as [[r|e|] p']; [| |done].
    + destruct H as [[Ha Hb Hl _ Hus [Hm _] _ Hn _ _] _]. split; [lia|]. unfold redeem. rewrite Ha, Hb, Hl.
      destruct Ww as [(Hz0 & Hza & Hzb)|Hpos].
      * split; [lia|]. intros s Hs. assert (s = 0) as -> by lia. cbn. rewrite !zero_div. lia.
      * destruct (Hn ltac:(lia)) as (_ & -> & ->). split.
        -- intros _. cbn. split; eapply (deposit_dilution _ _ _ 0); lia.
        -- intros s Hs. cbn. split; apply deposit_dilution; lia.
    + destruct H as [[Hrest [[Ha Hb]|(-> & _)]] _]; injection Hrest as Hi Hl Ht Hc; split; try done; [|by left].
      right. unfold books. congruence.
  - pose proof (remove_spec rp p Hwf Hz) as H. destruct Hwf as [Wa Wb Wl Ww].
    destruct (remove_liquidity rp p) as [[r|e|] p']; [|apply H|done].
    destruct H as [[Ha Hb Hl [Ea _] [Eb _] Hlp _ _] _]. unfold redeem. cbn. rewrite <- Ea, <- Eb. split; [done|].
    intros s Hs. rewrite Ha, Hb, Hl, Ea, Eb. rewrite Hl in Hs.
    destruct (decide (lp_amount rp = total_lp p)) as [E|E].
    + assert (s = 0) as -> by lia. cbn. by rewrite !zero_div.
    + split; apply withdrawal_fair; lia.
Qed.

(** ** Concrete pools *)

Module Samples.
Definition tok (n : Z) : address := replicate 20 n.
Definition pool0 : Pair := pair_new (pair_id_new (tok 2) (tok 1)) Standard.
Definition deposit (a b : Z) : AddLiquidityParams := mkAdd a b 0 100 50.
Definition withdraw (l : Z) : RemoveLiquidityParams := mkRemove l 0 0 100 50.
Definition trade (dir : bool) (x : Z) : SwapParams := mkSwap dir x 1 100 0 50.

(** A deposit, a swap each way, a second deposit and a withdrawal. *)
Definition day : list call :=
  [Add (deposit 2000000 8000000); Swap (trade true 30000); Swap (trade false 50000);
   Add (deposit 100000 300000); Remove (withdraw 50000)].
Definition pool1 : Pair := default pool0 (run pool0 day).

Lemma day_unsigned : Forall unsigned day.
Proof. repeat constructor; cbn; lia. Qed.
Lemma day_runs : run pool0 day = Some pool1.
Proof. by vm_compute. Qed.

Lemma swap_sound_witness :
  Forall unsigned day ∧ run pool0 day = Some pool1 ∧
  match swap (trade true 10000) pool1 with
  | (Ok r, p') => (swapped (trade true 10000) pool1 p' (amount_out r) ∧ wf p') ∧ locked (reentrancy p') = false
  | (Err e, p') => (books p' = books pool1 ∧ e ≠ InvariantViolation) ∧ locked (reentrancy p') = locked (reentrancy pool1)
  | (Panic, _) => False
  end.
Proof.
  split; [exact day_unsigned|]. split; [exact day_runs|].
  apply (swap_sound (pair_id_new (tok 2) (tok 1)) Standard day pool1 (trade true 10000) day_unsigned day_runs). cbn. lia.
Defined.

Example day_swap_pays : (snd (swap (trade true 10000) pool1)).(reserve_b) < pool1.(reserve_b).
Proof. by vm_compute. Qed.

Lemma liquidity_fair_witness :
  Forall unsigned day ∧ run pool0 day = Some pool1 ∧
  match remove_liquidity (withdraw 777) pool1 with
  | (Ok r, p') =>
      (out_a r, out_b r) = redeem 777 pool1 ∧
      (∀ s, 0 ≤ s ≤ total_lp p' → (redeem s pool1).1 ≤ (redeem s p').1 ∧ (redeem s pool1).2 ≤ (redeem s p').2)
  | (Err e, p') => books p' = books pool1
  | (Panic, _) => False
  end.
Proof.
  split; [exact day_unsigned|]. split; [exact day_runs|].
  assert (unsigned (Add (deposit 500 500))) by (cbn; lia). assert (unsigned (Remove (withdraw 777))) by (cbn; lia).
  apply (liquidity_fair (pair_id_new (tok 2) (tok 1)) Standard day pool1 (deposit 500 500) (withdraw 777) day_unsigned day_runs); done.
Defined.

(** The first deposit aborts the process when the product of its amounts is
    2^128 - 1, as for 2^64 - 1 and 2^64 + 1. *)
Theorem first_deposit_aborts : (add_liquidity (deposit (2 ^ 64 - 1) (2 ^ 64 + 1)) pool0).1 = Panic.
Proof. by vm_compute. Qed.

(** Nothing of the minimum liquidity stays in the pool: the first provider
    withdraws everything it has deposited. *)
Theorem first_provider_takes_all :
  match add_liquidity (deposit 1000000 1000000) pool0 with
  | (Ok r, p) => ∃ p', remove_liquidity (withdraw (lp_minted r)) p = (Ok (mkRemoveResult 1000000 1000000), p') ∧ total_lp p' = 0
  | _ => False
  end.
Proof. vm_compute. eexists. done. Qed.

(** The amounts of a deposit are rounded down: with few units of token A in the
    pool, two deposits use none of it and their shares redeem one. *)
Theorem rounding_favours_depositor :
  let p := (add_liquidity (deposit 10 402005) pool0).2 in
  let '(r1, p1) := add_liquidity (deposit 1 40201) p in
  let '(r2, p2) := add_liquidity (deposit 1 44400) p1 in
  r1 = Ok (mkAddResult 100 0 40000) ∧ r2 = Ok (mkAddResult 110 0 44000) ∧ (redeem 210 p2).1 = 1.
Proof. by vm_compute. Qed.

(** The deviation from the oracle is cut to 32 bits before it is compared: a
    price more than four hundred thousand times the oracle's passes. *)
Theorem oracle_check_wraps : check_oracle_deviation (2 ^ 32 + 10000) 10000 = Ok tt.
Proof. by vm_compute. Qed.

(** A swap that fails because the product overflows has already been credited
    to the protocol fees. *)
Theorem failed_swap_keeps_fee :
  let p := (add_liquidity (deposit (2 ^ 64) (2 ^ 64 - 1)) pool0).2 in
  let '(r, p') := swap (trade true (10 ^ 15)) p in
  r = Err InvariantOverflow ∧ fee_a p = 0 ∧ fee_a p' = 6 * 10 ^ 11.
Proof. by vm_compute. Qed.
End Samples.
End Pool.
