(* ===== verification/Zrc20.v ===== *)
(** * The ZRC-20 token engine

    Models [crates/zbx-contracts/src/zrc20_token.rs]: the token's state and
    every method that changes it, with the hook that guards each movement of
    balances. A method is a computation of the state and error monad of
    [Monad]: an error leaves the state as it was at the point of failure. The
    formatting of errors and the plain getters are left out. *)

From stdpp Require Import sorting.
From S2P Require Import Prelude.
From S2P Require Import Monad.
From S2P Require Import EvmBase.
From S2P Require Import EvmHost.
From S2P Require Import Totals.

Module Zrc20.
Import EvmHost Monad Totals.

Definition MAX_BATCH_SIZE : nat := 512.
Definition UNLIMITED_CAP : Z := U128_MAX.

Inductive Zrc20Error :=
| ZeroAddress | NotOwner | NotMinter
| InsufficientBalance (have need : Z)
| InsufficientAllowance (have need : Z)
| MintCapExceeded (cap would_be : Z)
| MintingPaused | MintingFinalized | TransferPaused
| AccountFrozen (account : address)
| TokensLocked (transferable : Z)
| ExceedsMaxTransfer (value max : Z)
| BatchLengthMismatch | BatchEmpty
| BatchTooLarge (max : nat)
| AlreadyFrozen | NotFrozen | ActiveLockExists | LockMustGrow | LockNotFound | LockExpired | UnlockTimeInPast
| InsufficientBalanceForLock (have need : Z)
| MintingAlreadyPaused | MintingNotPaused | AlreadyFinalized | InvalidMinterOp | ArithmeticOverflow.

Record LockInfo := mkLock { lock_amount : Z; unlock_time : Z }.

Record Zrc20Token := mkToken {
  name : bytes;
  symbol : bytes;
  decimals : Z;
  logo_uri : bytes;
  total_supply : Z;
  total_burned : Z;
  mint_cap : Z;
  balances : gmap (list Z) Z;
  allowances : gmap (list Z * list Z) Z;
  owner : address;
  pending_owner : option address;
  minters : gset (list Z);
  minting_paused : bool;
  minting_finalized : bool;
  transfer_paused : bool;
  max_transfer_amount : Z;
  frozen : gset (list Z);
  locks : gmap (list Z) LockInfo
}.

(** ** Setters *)

Definition set_books (supply burned : Z) (b : gmap (list Z) Z) (t : Zrc20Token) : Zrc20Token :=
  mkToken (name t) (symbol t) (decimals t) (logo_uri t) supply burned (mint_cap t) b (allowances t) (owner t)
    (pending_owner t) (minters t) (minting_paused t) (minting_finalized t) (transfer_paused t) (max_transfer_amount t)
    (frozen t) (locks t).
Definition set_balances (b : gmap (list Z) Z) (t : Zrc20Token) : Zrc20Token :=
  set_books (total_supply t) (total_burned t) b t.
Definition set_allowances (a : gmap (list Z * list Z) Z) (t : Zrc20Token) : Zrc20Token :=
  mkToken (name t) (symbol t) (decimals t) (logo_uri t) (total_supply t) (total_burned t) (mint_cap t) (balances t) a
    (owner t) (pending_owner t) (minters t) (minting_paused t) (minting_finalized t) (transfer_paused t)
    (max_transfer_amount t) (frozen t) (locks t).
Definition set_owner (o : address) (p : option address) (t : Zrc20Token) : Zrc20Token :=
  mkToken (name t) (symbol t) (decimals t) (logo_uri t) (total_supply t) (total_burned t) (mint_cap t) (balances t)
    (allowances t) o p (minters t) (minting_paused t) (minting_finalized t) (transfer_paused t) (max_transfer_amount t)
    (frozen t) (locks t).
Definition set_minting (m : gset (list Z)) (paused finalized : bool) (t : Zrc20Token) : Zrc20Token :=
  mkToken (name t) (symbol t) (decimals t) (logo_uri t) (total_supply t) (total_burned t) (mint_cap t) (balances t)
    (allowances t) (owner t) (pending_owner t) m paused finalized (transfer_paused t) (max_transfer_amount t) (frozen t)
    (locks t).
Definition set_guards (paused : bool) (max : Z) (f : gset (list Z)) (l : gmap (list Z) LockInfo) (t : Zrc20Token)
    : Zrc20Token :=
  mkToken (name t) (symbol t) (decimals t) (logo_uri t) (total_supply t) (total_burned t) (mint_cap t) (balances t)
    (allowances t) (owner t) (pending_owner t) (minters t) (minting_paused t) (minting_finalized t) paused max f l.
Definition set_logo (uri : bytes) (t : Zrc20Token) : Zrc20Token :=
  mkToken (name t) (symbol t) (decimals t) uri (total_supply t) (total_burned t) (mint_cap t) (balances t) (allowances t)
    (owner t) (pending_owner t) (minters t) (minting_paused t) (minting_finalized t) (transfer_paused t)
    (max_transfer_amount t) (frozen t) (locks t).

(** ** Views *)

Definition address_zero : address := replicate 20 0.
#[global] Arguments address_zero : simpl never.
Definition is_default (a : address) : bool := bool_decide (a = address_zero).

Definition balance_of (t : Zrc20Token) (account : address) : Z := default 0 (balances t !! account).
Definition allowance (t : Zrc20Token) (own spender : address) : Z := default 0 (allowances t !! (own, spender)).
Definition is_minter (t : Zrc20Token) (account : address) : bool := bool_decide (account ∈ minters t).
Definition is_frozen (t : Zrc20Token) (account : address) : bool := bool_decide (account ∈ frozen t).
Definition frozen_balance (t : Zrc20Token) (account : address) : Z :=
  if is_frozen t account then balance_of t account else 0.

Definition locked_balance_of (t : Zrc20Token) (account : address) (current_time : Z) : Z :=
  match locks t !! account with
  | Some l => if (0 <? lock_amount l) && (current_time <? unlock_time l) then lock_amount l else 0
  | None => 0
  end.
Definition transferable_balance (t : Zrc20Token) (account : address) (current_time : Z) : Z :=
  saturating_sub (balance_of t account) (locked_balance_of t account current_time).
Definition lock_info (t : Zrc20Token) (account : address) : Z * Z :=
  match locks t !! account with Some l => (lock_amount l, unlock_time l) | None => (0, 0) end.

(** ** The hook and the movements *)

Abbreviation M := (SE Zrc20Error Zrc20Token).

Definition before_transfer (from to : address) (value current_time : Z) : M unit :=
  t ← gets id;
  refuse (transfer_paused t) TransferPaused;;
  refuse (negb (is_default from) && is_frozen t from) (AccountFrozen from);;
  refuse (negb (is_default to) && is_frozen t to) (AccountFrozen to);;
  (if is_default from then mret tt else
   let locked := locked_balance_of t from current_time in
   let bal := balance_of t from in
   refuse ((0 <? locked) && ((bal <? locked) || (bal - locked <? value)))
     (TokensLocked (if locked <? bal then bal - locked else 0)));;
  refuse ((0 <? max_transfer_amount t) && negb (is_default from) && negb (is_default to)
          && (max_transfer_amount t <? value)) (ExceedsMaxTransfer value (max_transfer_amount t)).

Definition put_balance (a : address) (x : Z) : M unit := modify (fun t => set_balances (<[a := x]> (balances t)) t).

Definition internal_transfer (from to : address) (value current_time : Z) : M unit :=
  refuse (is_default from) ZeroAddress;;
  refuse (is_default to) ZeroAddress;;
  before_transfer from to value current_time;;
  from_bal ← gets (fun t => balance_of t from);
  refuse (from_bal <? value) (InsufficientBalance from_bal value);;
  put_balance from (from_bal - value);;
  to_bal ← gets (fun t => balance_of t to);
  put_balance to (saturating_add128 to_bal value).


Definition internal_mint (to : address) (value current_time : Z) : M unit :=
  refuse (is_default to) ZeroAddress;;
  before_transfer address_zero to value current_time;;
  t ← gets id;
  match checked_add128 (total_supply t) value with
  | None => fail ArithmeticOverflow
  | Some new_supply =>
      refuse (mint_cap t <? new_supply) (MintCapExceeded (mint_cap t) new_supply);;
      modify (fun t => set_books new_supply (total_burned t)
                         (<[to := saturating_add128 (balance_of t to) value]> (balances t)) t)
  end.

Definition internal_burn (from : address) (value current_time : Z) : M unit :=
  refuse (is_default from) ZeroAddress;;
  before_transfer from address_zero value current_time;;
  bal ← gets (fun t => balance_of t from);
  refuse (bal <? value) (InsufficientBalance bal value);;
  modify (fun t => set_books (saturating_sub (total_supply t) value) (saturating_add128 (total_burned t) value)
                     (<[from := bal - value]> (balances t)) t).

Definition spend_allowance (own spender : address) (value : Z) : M unit :=
  current ← gets (fun t => allowance t own spender);
  if current =? U128_MAX then mret tt else
  refuse (current <? value) (InsufficientAllowance current value);;
  modify (fun t => set_allowances (<[(own, spender) := current - value]> (allowances t)) t).

(** ** Public methods *)

Definition new (nm sym : bytes) (dec initial_supply cap : Z) (uri : bytes) (own : address) (current_time : Z)
    : outcome Zrc20Error Zrc20Token :=
  if is_default own then Err ZeroAddress else
  let resolved_cap := if cap =? 0 then UNLIMITED_CAP else cap in
  if resolved_cap <? initial_supply then Err (MintCapExceeded resolved_cap initial_supply) else
  let token := mkToken nm sym dec uri 0 0 resolved_cap ∅ ∅ own None {[own]} false false false 0 ∅ ∅ in
  if 0 <? initial_supply
  then match internal_mint own initial_supply current_time token with
       | (Ok _, t) => Ok t
       | (Err e, _) => Err e
       | (Panic, _) => Panic
       end
  else Ok token.

Definition transfer (from to : address) (value current_time : Z) : M unit := internal_transfer from to value current_time.

Definition approve (own spender : address) (value : Z) : M unit :=
  refuse (is_default own) ZeroAddress;;
  refuse (is_default spender) ZeroAddress;;
  modify (fun t => set_allowances (<[(own, spender) := value]> (allowances t)) t).

Definition transfer_from (spender from to : address) (value current_time : Z) : M unit :=
  spend_allowance from spender value;;
  internal_transfer from to value current_time.

Fixpoint batch_loop (from : address) (legs : list (address * Z)) (current_time : Z) : M unit :=
  match legs with
  | [] => mret tt
  | (to, value) :: rest => internal_transfer from to value current_time;; batch_loop from rest current_time
  end.

Definition batch_transfer (from : address) (to : list address) (values : list Z) (current_time : Z) : M unit :=
  refuse (negb (length to =? length values)%nat) BatchLengthMismatch;;
  refuse (length to =? 0)%nat BatchEmpty;;
  refuse (MAX_BATCH_SIZE <? length to)%nat (BatchTooLarge MAX_BATCH_SIZE);;
  batch_loop from (zip to values) current_time.

Definition mint (caller to : address) (value current_time : Z) : M unit :=
  t ← gets id;
  refuse (negb (is_minter t caller)) NotMinter;;
  refuse (minting_finalized t) MintingFinalized;;
  refuse (minting_paused t) MintingPaused;;
  internal_mint to value current_time.

(** [if caller != self.owner { return Err(NotOwner) }] *)
Definition only_owner (caller : address) : M unit :=
  o ← gets owner; refuse (negb (bool_decide (caller = o))) NotOwner.

Definition add_minter (caller account : address) : M unit :=
  only_owner caller;;
  refuse (is_default account) ZeroAddress;;
  modify (fun t => set_minting ({[account]} ∪ minters t) (minting_paused t) (minting_finalized t) t).

Definition remove_minter (caller account : address) : M unit :=
  only_owner caller;;
  modify (fun t => set_minting (minters t ∖ {[account]}) (minting_paused t) (minting_finalized t) t).

Definition burn (from : address) (value current_time : Z) : M unit := internal_burn from value current_time.

Definition burn_from (spender from : address) (value current_time : Z) : M unit :=
  spend_allowance from spender value;;
  internal_burn from value current_time.

Definition pause_minting (caller : address) : M unit :=
  only_owner caller;;
  t ← gets id;
  refuse (minting_finalized t) MintingFinalized;;
  refuse (minting_paused t) MintingAlreadyPaused;;
  modify (fun t => set_minting (minters t) true (minting_finalized t) t).

Definition resume_minting (caller : address) : M unit :=
  only_owner caller;;
  t ← gets id;
  refuse (minting_finalized t) MintingFinalized;;
  refuse (negb (minting_paused t)) MintingNotPaused;;
  modify (fun t => set_minting (minters t) false (minting_finalized t) t).

Definition finalize_minting (caller : address) : M unit :=
  only_owner caller;;
  t ← gets id;
  refuse (minting_finalized t) AlreadyFinalized;;
  modify (fun t => set_minting (minters t) (minting_paused t) true t).

Definition pause_transfers (caller : address) : M unit :=
  only_owner caller;; modify (fun t => set_guards true (max_transfer_amount t) (frozen t) (locks t) t).
Definition unpause_transfers (caller : address) : M unit :=
  only_owner caller;; modify (fun t => set_guards false (max_transfer_amount t) (frozen t) (locks t) t).
Definition set_max_transfer_amount (caller : address) (amount : Z) : M unit :=
  only_owner caller;; modify (fun t => set_guards (transfer_paused t) amount (frozen t) (locks t) t).

Definition freeze (caller account : address) : M unit :=
  only_owner caller;;
  refuse (is_default account) ZeroAddress;;
  t ← gets id;
  refuse (is_frozen t account) AlreadyFrozen;;
  modify (fun t => set_guards (transfer_paused t) (max_transfer_amount t) ({[account]} ∪ frozen t) (locks t) t).

Definition unfreeze (caller account : address) : M unit :=
  only_owner caller;;
  t ← gets id;
  refuse (negb (is_frozen t account)) NotFrozen;;
  modify (fun t => set_guards (transfer_paused t) (max_transfer_amount t) (frozen t ∖ {[account]}) (locks t) t).

Definition put_lock (account : address) (l : LockInfo) : M unit :=
  modify (fun t => set_guards (transfer_paused t) (max_transfer_amount t) (frozen t) (<[account := l]> (locks t)) t).

Definition lock_tokens (caller account : address) (amount unlock current_time : Z) : M unit :=
  only_owner caller;;
  refuse (is_default account) ZeroAddress;;
  refuse (amount =? 0) (InsufficientBalanceForLock 0 1);;
  refuse (unlock <=? current_time) UnlockTimeInPast;;
  t ← gets id;
  let bal := balance_of t account in
  refuse (bal <? amount) (InsufficientBalanceForLock bal amount);;
  refuse (match locks t !! account with
          | Some l => (0 <? lock_amount l) && (current_time <? unlock_time l)
          | None => false
          end) ActiveLockExists;;
  put_lock account (mkLock amount unlock).

Definition extend_lock (caller account : address) (new_amount new_unlock current_time : Z) : M unit :=
  only_owner caller;;
  t ← gets id;
  match locks t !! account with
  | None => fail LockNotFound
  | Some l =>
      refuse (lock_amount l =? 0) LockNotFound;;
      refuse (unlock_time l <=? current_time) LockExpired;;
      refuse (new_amount <? lock_amount l) LockMustGrow;;
      refuse (new_unlock <? unlock_time l) LockMustGrow;;
      let bal := balance_of t account in
      refuse (bal <? new_amount) (InsufficientBalanceForLock bal new_amount);;
      put_lock account (mkLock new_amount new_unlock)
  end.

Definition transfer_ownership (caller new_owner : address) : M unit :=
  only_owner caller;;
  refuse (is_default new_owner) ZeroAddress;;
  modify (fun t => set_owner (owner t) (Some new_owner) t).

Definition accept_ownership (caller : address) : M unit :=
  p ← gets pending_owner;
  if bool_decide (p = Some caller) then modify (set_owner caller None) else fail NotOwner.

Definition renounce_ownership (caller : address) : M unit :=
  only_owner caller;; modify (fun t => set_owner address_zero (pending_owner t) t).

Definition update_logo_uri (caller : address) (new_uri : bytes) : M bytes :=
  only_owner caller;;
  old ← gets logo_uri;
  modify (set_logo new_uri);;
  mret old.

(** ** Calls and runs *)

Inductive call :=
| Transfer (from to : address) (value : Z)
| Approve (own spender : address) (value : Z)
| TransferFrom (spender from to : address) (value : Z)
| BatchTransfer (from : address) (to : list address) (values : list Z)
| Mint (caller to : address) (value : Z)
| AddMinter (caller account : address)
| RemoveMinter (caller account : address)
| Burn (from : address) (value : Z)
| BurnFrom (spender from : address) (value : Z)
| PauseMinting (caller : address)
| ResumeMinting (caller : address)
| FinalizeMinting (caller : address)
| PauseTransfers (caller : address)
| UnpauseTransfers (caller : address)
| SetMaxTransfer (caller : address) (amount : Z)
| Freeze (caller account : address)
| Unfreeze (caller account : address)
| LockTokens (caller account : address) (amount unlock : Z)
| ExtendLock (caller account : address) (new_amount new_unlock : Z)
| TransferOwnership (caller new_owner : address)
| AcceptOwnership (caller : address)
| RenounceOwnership (caller : address)
| UpdateLogo (caller : address) (new_uri : bytes).

Definition exec (now : Z) (c : call) : M unit :=
  match c with
  | Transfer from to v => transfer from to v now
  | Approve o sp v => approve o sp v
  | TransferFrom sp from to v => transfer_from sp from to v now
  | BatchTransfer from to vs => batch_transfer from to vs now
  | Mint c to v => mint c to v now
  | AddMinter c a => add_minter c a
  | RemoveMinter c a => remove_minter c a
  | Burn from v => burn from v now
  | BurnFrom sp from v => burn_from sp from v now
  | PauseMinting c => pause_minting c
  | ResumeMinting c => resume_minting c
  | FinalizeMinting c => finalize_minting c
  | PauseTransfers c => pause_transfers c
  | UnpauseTransfers c => unpause_transfers c
  | SetMaxTransfer c m => set_max_transfer_amount c m
  | Freeze c a => freeze c a
  | Unfreeze c a => unfreeze c a
  | LockTokens c a x u => lock_tokens c a x u now
  | ExtendLock c a x u => extend_lock c a x u now
  | TransferOwnership c o => transfer_ownership c o
  | AcceptOwnership c => accept_ownership c
  | RenounceOwnership c => renounce_ownership c
  | UpdateLogo c u => update_logo_uri c u;; mret tt
  end.

(** The token after a sequence of calls at the given times; a failed call
    leaves what it had done. *)
Fixpoint run (t : Zrc20Token) (calls : list (Z * call)) : Zrc20Token :=
  match calls with
  | [] => t
  | (now, c) :: rest => run (exec now c t).2 rest
  end.

(** Amounts are unsigned. *)
Definition unsigned (c : call) : Prop :=
  match c with
  | Transfer _ _ v | TransferFrom _ _ _ v | Mint _ _ v | Burn _ v | BurnFrom _ _ v => 0 ≤ v
  | BatchTransfer _ _ vs => Forall (fun v => 0 ≤ v) vs
  | _ => True
  end.

(** ** Invariant *)

(** The balances add up to the supply, which the cap bounds. *)
Record ok (t : Zrc20Token) : Prop := {
  ok_nonneg : nonneg (balances t);
  ok_sum : total (balances t) = total_supply t;
  ok_cap : total_supply t ≤ mint_cap t ≤ U128_MAX
}.

(** What a call at time [now] may do to balances: cap and finality stay, a
    finalised supply does not grow, frozen accounts are not touched, and locked
    tokens do not leave. *)
Record held (now : Z) (t t' : Zrc20Token) : Prop := {
  he_cap : mint_cap t' = mint_cap t;
  he_final : minting_finalized t = true → minting_finalized t' = true ∧ total_supply t' ≤ total_supply t;
  he_frozen : ∀ a, a ≠ address_zero → a ∈ frozen t → balance_of t' a = balance_of t a;
  he_locked : ∀ a, a ≠ address_zero → locked_balance_of t a now ≤ balance_of t a →
    locked_balance_of t' a now ≤ balance_of t' a ∧
    ∀ l, locks t !! a = Some l → 0 < lock_amount l → now < unlock_time l →
      ∃ l', locks t' !! a = Some l' ∧ lock_amount l ≤ lock_amount l' ∧ unlock_time l ≤ unlock_time l'
}.

Lemma held_same now t t' :
  mint_cap t' = mint_cap t → (minting_finalized t = true → minting_finalized t' = true) →
  total_supply t' = total_supply t → balances t' = balances t → locks t' = locks t → held now t t'.
Proof.
  intros Hc Hf Hs Hb Hl. split; [done| | |].
  - intros Ht. rewrite Hs. split; [by apply Hf|lia].
  - intros. unfold balance_of. by rewrite Hb.
  - intros a Ha Hle. unfold locked_balance_of, balance_of in *. rewrite Hl, Hb. split; [done|]. intros l Hla _ _. by exists l.
Qed.

Lemma held_refl now t : held now t t.
Proof. by apply held_same. Qed.

Lemma ok_same t t' :
  mint_cap t' = mint_cap t → total_supply t' = total_supply t → balances t' = balances t → ok t → ok t'.
Proof. intros Hc Hs Hb []. split; rewrite ?Hb, ?Hc, ?Hs; done. Qed.

(** The hook reads only; when it passes, neither side is frozen and the value
    does not touch locked tokens. *)
Lemma hook_pass from to v now t r t' :
  before_transfer from to v now t = (r, t') →
  t' = t ∧ (r = Ok tt →
    (from ≠ address_zero → (from ∉ frozen t) ∧
       (0 < locked_balance_of t from now → v ≤ balance_of t from - locked_balance_of t from now)) ∧
    (to ≠ address_zero → to ∉ frozen t)).
Proof.
  unfold before_transfer, refuse, is_default, is_frozen. unfold gets, fail, mbind, M_bind, mret, M_ret, id.
  destruct (transfer_paused t); cbn; [by intros [= <- <-]|].
  destruct (decide (from = address_zero)) as [Hf|Hf]; [rewrite (bool_decide_eq_true_2 _ Hf)|rewrite (bool_decide_eq_false_2 _ Hf)];
    (destruct (decide (to = address_zero)) as [Ht|Ht]; [rewrite (bool_decide_eq_true_2 _ Ht)|rewrite (bool_decide_eq_false_2 _ Ht)]);
    cbn; rewrite ?andb_false_r, ?andb_true_r; cbn.
  all: repeat case_bool_decide; cbn; try (by intros [= <- <-]).
  all: destruct (0 <? locked_balance_of t from now) eqn:E1; cbn; try destruct (_ || _) eqn:E2; cbn; try (by intros [= <- <-]);
    try destruct ((0 <? _) && _); intros [= <- <-]; split_and!; try done; intros _; split; try done; intros _; split; try done;
    rewrite ?Z.ltb_lt, ?Z.ltb_ge, ?orb_false_iff in *; lia.
Qed.

Lemma locked_nonneg t a now : 0 ≤ locked_balance_of t a now.
Proof. unfold locked_balance_of. repeat case_match; lia. Qed.

Lemma balance_at t a : balance_of t a = at_ (balances t) a.
Proof. done. Qed.

(** A change of the books alone. *)
Lemma held_books now t supply burned b :
  (minting_finalized t = true → supply ≤ total_supply t) →
  (∀ a, a ≠ address_zero → a ∈ frozen t → at_ b a = balance_of t a) →
  (∀ a, a ≠ address_zero → locked_balance_of t a now ≤ balance_of t a → locked_balance_of t a now ≤ at_ b a) →
  held now t (set_books supply burned b t).
Proof.
  intros Hs Hf Hl. split; cbn; [done|auto|by intros; apply Hf|]. intros a Ha Hle. split; [by apply Hl|]. intros l Hla _ _. by exists l.
Qed.

(** An action keeps the token sound and held; a movement also leaves the
    frozen set and the locks alone, so that movements compose. *)
Definition keeps {A} (now : Z) (m : M A) : Prop := ∀ t r t', ok t → m t = (r, t') → ok t' ∧ held now t t'.
Definition moves {A} (now : Z) (m : M A) : Prop :=
  ∀ t r t', ok t → m t = (r, t') → ok t' ∧ held now t t' ∧ frozen t' = frozen t ∧ locks t' = locks t.

Lemma held_trans now t t1 t2 :
  frozen t1 = frozen t → locks t1 = locks t → held now t t1 → held now t1 t2 → held now t t2.
Proof.
  intros Hf Hl [A1 A2 A3 A4] [B1 B2 B3 B4]. split; [congruence| | |].
  - intros Hm. destruct (A2 Hm) as [Hm1 ?]. destruct (B2 Hm1). split; [done|lia].
  - intros a Ha Hin. rewrite B3, A3; by rewrite ?Hf.
  - intros a Ha Hle. destruct (A4 a Ha Hle) as [Hle1 _]. destruct (B4 a Ha Hle1) as [Hle2 Hk]. split; [done|].
    intros l. rewrite <- Hl. apply Hk.
Qed.

Lemma moves_same {A} now (m : M A) :
  (∀ t, let t' := (m t).2 in
     mint_cap t' = mint_cap t ∧ (minting_finalized t = true → minting_finalized t' = true) ∧
     total_supply t' = total_supply t ∧ balances t' = balances t ∧ frozen t' = frozen t ∧ locks t' = locks t) →
  moves now m.
Proof.
  intros Hm t r t' Hok E. specialize (Hm t). rewrite E in Hm. destruct Hm as (? & ? & ? & ? & ? & ?).
  split_and!; [by eapply ok_same|by apply held_same|done|done].
Qed.

Lemma moves_bind {A B} now (m : M A) (k : A → M B) : moves now m → (∀ a, moves now (k a)) → moves now (m ≫= k).
Proof.
  intros Hm Hk t r t' Hok. unfold mbind, M_bind. destruct (m t) as [[a|e|] t1] eqn:E; [|intros [= <- <-]; by eapply Hm..].
  destruct (Hm _ _ _ Hok E) as (Hok1 & Hh1 & Hf1 & Hl1). intros E2.
  destruct (Hk a _ _ _ Hok1 E2) as (Hok2 & Hh2 & Hf2 & Hl2).
  split_and!; [done|by eapply held_trans|congruence|congruence].
Qed.

Lemma moves_ret {A} now (a : A) : moves now (mret a).
Proof. by apply moves_same. Qed.

Lemma moves_transfer from to v now : 0 ≤ v → moves now (internal_transfer from to v now).
Proof.
  intros Hv t r t' Hok. unfold internal_transfer, refuse, is_default. unfold gets, fail, modify, put_balance, mbind, M_bind, mret, M_ret.
  case_bool_decide as Hf; [intros [= <- <-]; by split_and!; [|apply held_refl|..]|].
  case_bool_decide as Ht; [intros [= <- <-]; by split_and!; [|apply held_refl|..]|].
  destruct (before_transfer from to v now t) as [r1 t1] eqn:E. apply hook_pass in E as [-> Hp].
  destruct r1 as [[]|e|]; [|intros [= <- <-]; by split_and!; [|apply held_refl|..]..].
  destruct (Hp eq_refl) as [[Hff Hlk]%(fun H => H Hf) Hft%(fun H => H Ht)]. clear Hp.
  destruct (Z.ltb_spec (balance_of t from) v) as [Hlt|Hge]; [intros [= <- <-]; by split_and!; [|apply held_refl|..]|].
  cbn. unfold modify. intros [= <- <-]. destruct Hok as [Hn Hs Hc].
  change (balance_of t from) with (at_ (balances t) from) in *. set (b1 := <[from := _]> (balances t)).
  assert (Hn1 : nonneg b1) by (apply nonneg_insert; [done|lia]).
  assert (Ht1 : total b1 = total_supply t - v) by (unfold b1; rewrite total_insert; lia).
  pose proof (at_total b1 to Hn1) as Hto. pose proof (nonneg_at b1 to Hn1). pose proof (total_nonneg b1 Hn1).
  assert (Hsat : saturating_add128 (at_ b1 to) v = at_ b1 to + v) by (unfold saturating_add128; lia).
  change (balance_of (set_balances b1 t) to) with (at_ b1 to). rewrite Hsat.
  change (set_balances _ (set_balances b1 t)) with (set_books (total_supply t) (total_burned t) (<[to := at_ b1 to + v]> b1) t).
  split_and!; [| |done|done].
  - split; cbn; [apply nonneg_insert; [done|lia]| |lia]. rewrite total_insert. lia.
  - apply held_books; [lia| |]; intros a Ha; rewrite at_insert, balance_at; unfold b1; rewrite !at_insert.
    + intros Hfr. by rewrite !bool_decide_eq_false_2 by (by intros ->).
    + intros Hle. pose proof (locked_nonneg t a now). repeat case_bool_decide; subst; lia.
Qed.

(** Minting needs an open supply. *)
Lemma mint_moves to v now t r t' :
  0 ≤ v → ok t → minting_finalized t = false → internal_mint to v now t = (r, t') →
  ok t' ∧ held now t t' ∧ frozen t' = frozen t ∧ locks t' = locks t.
Proof.
  intros Hv Hok Hfin. unfold internal_mint, refuse, is_default. unfold gets, fail, modify, mbind, M_bind, mret, M_ret, id.
  case_bool_decide as Ht; [intros [= <- <-]; by split_and!; [|apply held_refl|..]|].
  destruct (before_transfer _ to v now t) as [r1 t1] eqn:E. apply hook_pass in E as [-> Hp].
  destruct r1 as [[]|e|]; [|intros [= <- <-]; by split_and!; [|apply held_refl|..]..].
  destruct (Hp eq_refl) as [_ Hft%(fun H => H Ht)]. clear Hp.
  unfold checked_add128. destruct (Z.leb_spec (total_supply t + v) U128_MAX); [|intros [= <- <-]; by split_and!; [|apply held_refl|..]].
  destruct (Z.ltb_spec (mint_cap t) (total_supply t + v)); [intros [= <- <-]; by split_and!; [|apply held_refl|..]|].
  cbn. intros [= <- <-]. destruct Hok as [Hn Hs Hc]. change (balance_of t to) with (at_ (balances t) to).
  pose proof (at_total (balances t) to Hn). pose proof (nonneg_at (balances t) to Hn).
  assert (saturating_add128 (at_ (balances t) to) v = at_ (balances t) to + v) as -> by (unfold saturating_add128; lia).
  split_and!; [| |done|done].
  - split; cbn; [apply nonneg_insert; [done|lia]| |lia]. rewrite total_insert. lia.
  - apply held_books; [congruence| |]; intros a Ha; rewrite at_insert, balance_at.
    + intros Hfr. by rewrite bool_decide_eq_false_2 by (by intros ->).
    + intros Hle. case_bool_decide; subst; lia.
Qed.

Lemma moves_burn from v now : 0 ≤ v → moves now (internal_burn from v now).
Proof.
  intros Hv t r t' Hok. unfold internal_burn, refuse, is_default. unfold gets, fail, modify, mbind, M_bind, mret, M_ret.
  case_bool_decide as Hf; [intros [= <- <-]; by split_and!; [|apply held_refl|..]|].
  destruct (before_transfer from _ v now t) as [r1 t1] eqn:E. apply hook_pass in E as [-> Hp].
  destruct r1 as [[]|e|]; [|intros [= <- <-]; by split_and!; [|apply held_refl|..]..].
  destruct (Hp eq_refl) as [[Hff Hlk]%(fun H => H Hf) _]. clear Hp.
  destruct (Z.ltb_spec (balance_of t from) v) as [Hlt|Hge]; [intros [= <- <-]; by split_and!; [|apply held_refl|..]|].
  cbn. intros [= <- <-]. destruct Hok as [Hn Hs Hc]. change (balance_of t from) with (at_ (balances t) from) in *.
  pose proof (at_total (balances t) from Hn).
  assert (saturating_sub (total_supply t) v = total_supply t - v) as -> by (unfold saturating_sub; lia).
  split_and!; [| |done|done].
  - split; cbn; [apply nonneg_insert; [done|lia]| |lia]. rewrite total_insert. lia.
  - apply held_books; [lia| |]; intros a Ha; rewrite at_insert, balance_at.
    + intros Hfr. by rewrite bool_decide_eq_false_2 by (by intros ->).
    + intros Hle. pose proof (locked_nonneg t a now). case_bool_decide; subst; lia.
Qed.

Lemma moves_allowance now own spender v : moves now (spend_allowance own spender v).
Proof.
  apply moves_same. intros t. unfold spend_allowance, refuse. unfold gets, fail, modify, mbind, M_bind, mret, M_ret.
  destruct (allowance t own spender =? U128_MAX); [done|]. by destruct (_ <? _).
Qed.

Lemma moves_batch now from legs : Forall (fun x => 0 ≤ x.2) legs → moves now (batch_loop from legs now).
Proof.
  induction 1 as [|[to v] legs Hv _ IH]; [apply moves_ret|]. apply moves_bind; [by apply moves_transfer|by intros []].
Qed.

(** A call other than a lock or a freeze that changes no balance. *)
Lemma keeps_moves {A} now (m : M A) : moves now m → keeps now m.
Proof. intros Hm t r t' Hok E. by destruct (Hm t r t' Hok E) as (? & ? & _). Qed.

(** Placing a lock within the balance, over one that is not stronger. *)
Lemma held_lock now t account x u :
  x ≤ balance_of t account → 0 ≤ balance_of t account →
  (∀ l, locks t !! account = Some l → 0 < lock_amount l → now < unlock_time l → lock_amount l ≤ x ∧ unlock_time l ≤ u) →
  held now t (set_guards (transfer_paused t) (max_transfer_amount t) (frozen t) (<[account := mkLock x u]> (locks t)) t).
Proof.
  intros Hx Hb Hl. split; cbn; [done|by intros; split|done|]. intros a Ha Hle. unfold locked_balance_of. cbn.
  destruct (decide (a = account)) as [-> |Hne].
  - rewrite lookup_insert_eq. cbn. split; [unfold balance_of in *; cbn; case_match; lia|].
    intros l Hla H1 H2. destruct (Hl l Hla H1 H2). eauto.
  - rewrite lookup_insert_ne by done. split; [exact Hle|]. intros l Hla _ _. exists l. split_and!; [done|lia|lia].
Qed.

Lemma keeps_lock now caller account x u : keeps now (lock_tokens caller account x u now).
Proof.
  intros t r t' Hok. unfold lock_tokens, only_owner, refuse, put_lock.
  unfold gets, fail, modify, mbind, M_bind, mret, M_ret, id.
  destruct (negb _); [intros [= <- <-]; by split; [|apply held_refl]|].
  destruct (is_default account); [intros [= <- <-]; by split; [|apply held_refl]|].
  destruct (x =? 0); [intros [= <- <-]; by split; [|apply held_refl]|].
  destruct (u <=? now); [intros [= <- <-]; by split; [|apply held_refl]|].
  destruct (Z.ltb_spec (balance_of t account) x); [intros [= <- <-]; by split; [|apply held_refl]|].
  destruct (match locks t !! account with Some l => _ | None => _ end) eqn:E; [intros [= <- <-]; by split; [|apply held_refl]|].
  intros [= <- <-]. split; [by apply (ok_same t)|]. apply held_lock; [lia|apply nonneg_at, Hok|].
  intros l Hl H1 H2. rewrite Hl in E. apply andb_false_iff in E as [E|E]; apply Z.ltb_ge in E; lia.
Qed.

Lemma keeps_extend now caller account x u : keeps now (extend_lock caller account x u now).
Proof.
  intros t r t' Hok. unfold extend_lock, only_owner, refuse, put_lock.
  unfold gets, fail, modify, mbind, M_bind, mret, M_ret, id.
  destruct (negb _); [intros [= <- <-]; by split; [|apply held_refl]|].
  destruct (locks t !! account) as [l|] eqn:El; [|intros [= <- <-]; by split; [|apply held_refl]].
  destruct (lock_amount l =? 0); [intros [= <- <-]; by split; [|apply held_refl]|].
  destruct (unlock_time l <=? now); [intros [= <- <-]; by split; [|apply held_refl]|].
  destruct (Z.ltb_spec x (lock_amount l)); [intros [= <- <-]; by split; [|apply held_refl]|].
  destruct (Z.ltb_spec u (unlock_time l)); [intros [= <- <-]; by split; [|apply held_refl]|].
  destruct (Z.ltb_spec (balance_of t account) x); [intros [= <- <-]; by split; [|apply held_refl]|].
  intros [= <- <-]. split; [by apply (ok_same t)|]. apply held_lock; [lia|apply nonneg_at, Hok|].
  intros l' Hl' _ _. simplify_eq. lia.
Qed.

(** Calls that touch neither balances nor supply nor locks. *)
Ltac admin :=
  unfold only_owner, refuse; unfold gets, fail, modify, mbind, M_bind, mret, M_ret, id;
  intros t r t' Hok; repeat case_match; intros [= <- <-]; simplify_eq/=;
  match goal with Ho : ok ?x |- _ => split; [by apply (ok_same x)|by apply held_same] end.

Lemma exec_keeps now c : unsigned c → keeps now (exec now c).
Proof.
  destruct c; cbn [exec unsigned]; intros Hu.
  - by apply keeps_moves, moves_transfer.
  - unfold approve. admin.
  - apply keeps_moves, moves_bind; [apply moves_allowance|]. intros []. by apply moves_transfer.
  - apply keeps_moves. unfold batch_transfer.
    repeat (apply moves_bind; [unfold refuse; case_match; by apply moves_same|intros []]).
    apply moves_batch. apply Forall_forall. intros [a v] Hin. apply elem_of_zip_r in Hin. by eapply Forall_forall in Hu.
  - intros t r t' Hok. unfold mint, refuse. unfold gets, fail, mbind, M_bind, mret, M_ret, id.
    destruct (negb _); [intros [= <- <-]; by split; [|apply held_refl]|].
    destruct (minting_finalized t) eqn:Ef; [intros [= <- <-]; by split; [|apply held_refl]|].
    destruct (minting_paused t); [intros [= <- <-]; by split; [|apply held_refl]|].
    intros E. by destruct (mint_moves to value now t r t' Hu Hok Ef E) as (? & ? & _).
  - unfold add_minter. admin.
  - unfold remove_minter. admin.
  - by apply keeps_moves, moves_burn.
  - apply keeps_moves, moves_bind; [apply moves_allowance|]. intros []. by apply moves_burn.
  - unfold pause_minting. admin.
  - unfold resume_minting. admin.
  - unfold finalize_minting. admin.
  - unfold pause_transfers. admin.
  - unfold unpause_transfers. admin.
  - unfold set_max_transfer_amount. admin.
  - unfold freeze. admin.
  - unfold unfreeze. admin.
  - apply keeps_lock.
  - apply keeps_extend.
  - unfold transfer_ownership. admin.
  - unfold accept_ownership. admin.
  - unfold renounce_ownership. admin.
  - unfold update_logo_uri. admin.
Qed.

(** ** Runs *)

Lemma new_ok nm sym dec initial cap uri own now t :
  0 ≤ initial → 0 ≤ cap ≤ U128_MAX → new nm sym dec initial cap uri own now = Ok t →
  ok t ∧ minting_finalized t = false ∧ locks t = ∅ ∧ frozen t = ∅.
Proof.
  intros Hi Hc. unfold new. destruct (is_default own); [done|]. set (rc := if cap =? 0 then _ else cap).
  assert (Hrc : 0 ≤ rc ≤ U128_MAX) by (unfold rc, UNLIMITED_CAP, U128_MAX in *; case_if; lia).
  destruct (rc <? initial); [done|]. set (t0 := mkToken _ _ _ _ _ _ _ _ _ _ _ _ _ _ _ _ _ _).
  assert (Ht0 : ok t0) by (split; cbn; [apply map_Forall_empty|apply total_empty|lia]).
  destruct (0 <? initial); [|by intros [= <-]]. destruct (internal_mint own initial now t0) as [[[]|e|] t1] eqn:E; [|done..].
  intros [= <-]. pose proof E as E'. apply mint_moves in E as (? & [_ Hfin _ _] & Hf & Hl); [|done..].
  split_and!; [done| |done|done]. revert E'. unfold internal_mint, refuse. unfold gets, fail, modify, mbind, M_bind, mret, M_ret, id.
  destruct (is_default own); [done|]. destruct (before_transfer _ _ _ _ _) as [[[]|e|] t2] eqn:E2; [|done..].
  apply hook_pass in E2 as [-> _]. repeat case_match; try done; intros [= <-]; by simplify_eq.
Qed.

Lemma locked_later t a now now' : now ≤ now' → locked_balance_of t a now' ≤ locked_balance_of t a now.
Proof. intros Hn. unfold locked_balance_of. repeat case_match; lia. Qed.

Lemma call_ok now c t : ok t → unsigned c → ok (exec now c t).2 ∧ held now t (exec now c t).2.
Proof. intros Hok Hu. destruct (exec now c t) as [r t'] eqn:E. by apply (exec_keeps now c Hu t r t'). Qed.

Lemma run_ok t calls :
  ok t → Forall (fun x => unsigned x.2) calls →
  ok (run t calls) ∧ mint_cap (run t calls) = mint_cap t ∧
  (minting_finalized t = true → minting_finalized (run t calls) = true ∧ total_supply (run t calls) ≤ total_supply t).
Proof.
  intros Hok Hu. revert t Hok. induction Hu as [|[now c] calls Hc _ IH]; intros t Hok; cbn; [by split_and!|].
  destruct (call_ok now c t Hok Hc) as [Hok' [A1 A2 _ _]]. destruct (IH _ Hok') as (? & ? & Hf).
  split_and!; [done|congruence|]. intros Hm. destruct (A2 Hm) as [Hm' ?]. destruct (Hf Hm'). split; [done|lia].
Qed.

Lemma run_app t c1 c2 : run t (c1 ++ c2) = run (run t c1) c2.
Proof. revert t. induction c1 as [|[now c] c1 IH]; intros t; cbn; [done|apply IH]. Qed.

(** A freeze ends only with [unfreeze]. *)
Definition unfreezes (a : address) (c : call) : Prop := match c with Unfreeze _ b => a = b | _ => False end.

(** A property of the token that an action does not lose. *)
Definition stays {A} (P : Zrc20Token → Prop) (m : M A) : Prop := ∀ t, P t → P (m t).2.

Lemma stays_bind {A B} P (m : M A) (k : A → M B) : stays P m → (∀ a, stays P (k a)) → stays P (m ≫= k).
Proof.
  intros Hm Hk t Ht. specialize (Hm t Ht). unfold mbind, M_bind. destruct (m t) as [[x|e|] t']; [by apply Hk|done|done].
Qed.
Lemma stays_refuse P c e : stays P (refuse c e).
Proof. intros t Ht. by destruct c. Qed.
Lemma stays_ret {A} P (x : A) : stays P (mret x).
Proof. by intros t Ht. Qed.
Lemma stays_fail {A} P e : stays P (fail e : M A).
Proof. by intros t Ht. Qed.
Lemma stays_gets {A} P (f : Zrc20Token → A) : stays P (gets f).
Proof. by intros t Ht. Qed.
Lemma stays_modify (P : Zrc20Token → Prop) f : (∀ t, P t → P (f t)) → stays P (modify f).
Proof. intros Hf t Ht. by apply Hf. Qed.

Create HintDb zrc20.
#[local] Hint Resolve stays_refuse stays_ret stays_fail stays_gets : zrc20.
Ltac stays :=
  repeat first [progress auto with zrc20 nocore|apply stays_bind; [|intros ?]|case_match|apply stays_modify; intros ? ?].

Lemma exec_frozen now c t a : ¬ unfreezes a c → a ∈ frozen t → a ∈ frozen (exec now c t).2.
Proof.
  intros Hc. revert t. change (stays (fun t => a ∈ frozen t) (exec now c)).
  assert (Htr : ∀ from to v, stays (fun t => a ∈ frozen t) (internal_transfer from to v now))
    by (intros; unfold internal_transfer, before_transfer, put_balance; stays; done).
  assert (Hbu : ∀ from v, stays (fun t => a ∈ frozen t) (internal_burn from v now))
    by (intros; unfold internal_burn, before_transfer; stays; done).
  assert (Hal : ∀ o sp v, stays (fun t => a ∈ frozen t) (spend_allowance o sp v))
    by (intros; unfold spend_allowance; stays; done).
  assert (Hba : ∀ from legs, stays (fun t => a ∈ frozen t) (batch_loop from legs now))
    by (intros from legs; induction legs as [|[to v] legs IH]; cbn; stays).
  destruct c; cbn [exec unfreezes] in *;
    unfold transfer, burn, transfer_from, burn_from, batch_transfer, mint, internal_mint, before_transfer, approve, add_minter,
      remove_minter, pause_minting, resume_minting, finalize_minting, pause_transfers, unpause_transfers,
      set_max_transfer_amount, freeze, unfreeze, lock_tokens, extend_lock, put_lock, transfer_ownership, accept_ownership,
      renounce_ownership, update_logo_uri, only_owner; stays; try done.
  - cbn. set_solver.
  - cbn. set_solver.
Qed.

Lemma run_frozen t calls a :
  ok t → Forall (fun x => unsigned x.2) calls → Forall (fun x => ¬ unfreezes a x.2) calls → a ≠ address_zero → a ∈ frozen t →
  balance_of (run t calls) a = balance_of t a.
Proof.
  intros Hok Hu Hn Ha. revert t Hok. induction Hu as [|[now c] calls Hc _ IH]; intros t Hok Hin; cbn; [done|].
  apply Forall_cons in Hn as [Hnc Hn]. destruct (call_ok now c t Hok Hc) as [Hok' [_ _ A3 _]].
  rewrite IH by (done || by apply exec_frozen). by apply A3.
Qed.

(** Locks hold along calls at times in order. *)
Lemma run_locked t calls now0 a :
  ok t → Forall (fun x => unsigned x.2) calls → StronglySorted Z.le (now0 :: calls.*1) → a ≠ address_zero →
  locked_balance_of t a now0 ≤ balance_of t a →
  (∀ tm, Forall (fun x => x ≤ tm) (now0 :: calls.*1) → locked_balance_of (run t calls) a tm ≤ balance_of (run t calls) a) ∧
  ∀ l, locks t !! a = Some l → 0 < lock_amount l → Forall (fun x => x < unlock_time l) calls.*1 →
    ∃ l', locks (run t calls) !! a = Some l' ∧ lock_amount l ≤ lock_amount l' ∧ unlock_time l ≤ unlock_time l'.
Proof.
  intros Hok Hu. revert t now0 Hok. induction Hu as [|[now c] calls Hc _ IH]; intros t now0 Hok Hs Ha Hle; cbn.
  { split; [|intros l Hl _ _; exists l; split_and!; [done|lia|lia]]. intros tm [Htm _]%Forall_cons.
    pose proof (locked_later t a now0 tm Htm). lia. }
  apply StronglySorted_inv in Hs as [Hs [Hn _]%Forall_cons]. pose proof (locked_later t a now0 now Hn).
  destruct (call_ok now c t Hok Hc) as [Hok' [_ _ _ A4]]. destruct (A4 a Ha ltac:(lia)) as [Hle' Hk].
  destruct (IH _ now Hok' Hs Ha Hle') as [I1 I2]. split.
  - intros tm [_ Htm]%Forall_cons. by apply I1.
  - intros l Hl Hp [Hlt Hrest]%Forall_cons. destruct (Hk l Hl Hp Hlt) as (l1 & Hl1 & Ha1 & Hu1).
    destruct (I2 l1 Hl1 ltac:(lia)) as (l2 & ? & ? & ?); [eapply Forall_impl; [exact Hrest|]; cbn; lia|].
    exists l2. split_and!; [done|lia|lia].
Qed.

Lemma last_time (l : list Z) : l ≠ [] → ∃ m, m ∈ l ∧ Forall (fun x => x ≤ m) l.
Proof.
  induction l as [|x [|y l] IH]; intros Hl; [done|exists x; split; [by left|by repeat constructor]|].
  destruct IH as (m & Hm & Hmax); [done|]. destruct (Z.le_gt_cases x m).
  - exists m. split; [by right|by constructor].
  - exists x. split; [by left|]. constructor; [lia|]. eapply Forall_impl; [exact Hmax|]. cbn. lia.
Qed.

(** ** Claims *)

(** C28: A ZRC-20 token's books balance. After any sequence of calls on a new
    token, failed ones and the halves of failed batches included, the balances
    add up to the total supply, no balance is negative or above it, the supply
    is within the mint cap, which never changes, and once minting is finalised
    the supply never grows again. *)
Theorem zrc20_books_balance nm sym dec initial cap uri own now t0 c1 c2 :
  0 ≤ initial → 0 ≤ cap ≤ U128_MAX → new nm sym dec initial cap uri own now = Ok t0 →
  Forall (fun x => unsigned x.2) (c1 ++ c2) →
  let t1 := run t0 c1 in let t2 := run t0 (c1 ++ c2) in
  total (balances t2) = total_supply t2 ∧ (∀ a, 0 ≤ balance_of t2 a ≤ total_supply t2) ∧
  total_supply t2 ≤ mint_cap t2 ∧ mint_cap t2 = mint_cap t0 ∧
  (minting_finalized t1 = true → total_supply t2 ≤ total_supply t1).
Proof.
  intros Hi Hc Hn Hu. apply new_ok in Hn as (Hok & _); [|done..]. rewrite run_app. apply Forall_app in Hu as [Hu1 Hu2].
  destruct (run_ok t0 c1 Hok Hu1) as (Hok1 & Hc1 & _). destruct (run_ok _ c2 Hok1 Hu2) as (Hok2 & Hc2 & Hf2).
  cbv zeta. set (t1 := run t0 c1) in *. set (t2 := run t1 c2) in *. destruct Hok2 as [A1 A2 A3].
  split_and!; [done| |lia|congruence|by intros; apply Hf2].
  intros a. rewrite <- A2. split; [by apply nonneg_at|by apply at_total].
Qed.

(** C29: Freezes and locks hold. From any state a new token can reach by calls
    at times in order: the balance of a frozen account does not change, in
    either direction, until it is unfrozen; and until the unlock time a lock
    has in that state the account holds at least the locked amount, whatever
    transfers, burns, batches and delegated spending are tried, and the
    lock's amount is not lowered. *)
Theorem zrc20_freezes_and_locks_hold nm sym dec initial cap uri own now t0 c1 c2 a :
  0 ≤ initial → 0 ≤ cap ≤ U128_MAX → new nm sym dec initial cap uri own now = Ok t0 →
  Forall (fun x => unsigned x.2) (c1 ++ c2) → StronglySorted Z.le (now :: (c1 ++ c2).*1) → a ≠ address_zero →
  let t1 := run t0 c1 in let t2 := run t0 (c1 ++ c2) in
  (a ∈ frozen t1 → Forall (fun x => ¬ unfreezes a x.2) c2 → balance_of t2 a = balance_of t1 a) ∧
  (∀ l, locks t1 !! a = Some l → 0 < lock_amount l → Forall (fun x => x < unlock_time l) (now :: (c1 ++ c2).*1) →
    lock_amount l ≤ balance_of t2 a ∧ ∃ l', locks t2 !! a = Some l' ∧ lock_amount l ≤ lock_amount l').
Proof.
  intros Hi Hc Hn Hu Hs Ha. apply new_ok in Hn as (Hok & _ & Hl0 & _); [|done..]. rewrite run_app. cbv zeta.
  rewrite fmap_app in *. apply Forall_app in Hu as [Hu1 Hu2].
  destruct (run_ok t0 c1 Hok Hu1) as (Hok1 & _). split; [by intros; apply run_frozen|].
  intros l Hl Hp [Hlt0 [Hlt1 Hlt2]%Forall_app]%Forall_cons.
  assert (Hz : locked_balance_of t0 a now ≤ balance_of t0 a).
  { unfold locked_balance_of. rewrite Hl0, lookup_empty. apply nonneg_at, Hok. }
  change (now :: c1.*1 ++ c2.*1) with ((now :: c1.*1) ++ c2.*1) in Hs.
  destruct (last_time (now :: c1.*1)) as (m & Hm & Hmax); [done|].
  destruct (run_locked t0 c1 now a Hok Hu1) as [Hb _]; [by eapply StronglySorted_app_1_l in Hs|done|done|].
  specialize (Hb m Hmax). set (t1 := run t0 c1) in *.
  assert (Hs2 : StronglySorted Z.le (m :: c2.*1)).
  { constructor; [by eapply StronglySorted_app_1_r in Hs|]. apply Forall_forall. intros x Hx.
    by eapply (StronglySorted_app_1_elem_of Z.le) in Hs. }
  destruct (run_locked t1 c2 m a Hok1 Hu2 Hs2 Ha Hb) as [Hb2 Hk]. destruct (Hk l Hl Hp Hlt2) as (l' & Hl' & Ha' & Hu').
  destruct (last_time (m :: c2.*1)) as (m2 & Hm2 & Hmax2); [done|]. specialize (Hb2 m2 Hmax2).
  assert (Hm2u : m2 < unlock_time l).
  { assert (m < unlock_time l) by (apply elem_of_cons in Hm as [-> |Hm]; [done|by eapply Forall_forall in Hlt1]).
    apply elem_of_cons in Hm2 as [-> |Hm2]; [done|by eapply Forall_forall in Hlt2]. }
  unfold locked_balance_of in Hb2. rewrite Hl' in Hb2.
  rewrite (proj2 (Z.ltb_lt 0 _)), (proj2 (Z.ltb_lt m2 _)) in Hb2 by lia. cbn in Hb2. split; [lia|eauto].
Qed.

(** ** Concrete tokens *)

Module Samples.

Definition adr (i : Z) : address := replicate 20 i.
Definition token : Zrc20Token :=
  match new [90] [90] 18 1000 5000 [] (adr 1) 0 with Ok t => t | _ => mkToken [] [] 0 [] 0 0 0 ∅ ∅ [] None ∅ false false false 0 ∅ ∅ end.

(** Payments, a lock on 300 units of account 2 until time 50, a freeze of
    account 3, and attempts to get round both. *)
Definition first_calls : list (Z * call) :=
  [(1, Transfer (adr 1) (adr 2) 400); (2, Transfer (adr 1) (adr 3) 100); (3, LockTokens (adr 1) (adr 2) 300 50);
   (4, Freeze (adr 1) (adr 3)); (5, FinalizeMinting (adr 1))].
Definition later_calls : list (Z * call) :=
  [(6, Transfer (adr 2) (adr 4) 200); (7, Transfer (adr 2) (adr 4) 90); (8, Burn (adr 3) 10); (9, Mint (adr 1) (adr 2) 7);
   (9, BatchTransfer (adr 1) [adr 5; adr 3] [50; 50]); (10, Burn (adr 4) 40)].

Lemma unsigned_sample : Forall (fun x => unsigned x.2) (first_calls ++ later_calls).
Proof. repeat constructor; cbn; lia. Qed.

Lemma zrc20_books_balance_witness :
  let t := run token (first_calls ++ later_calls) in
  total_supply t = 960 ∧ total (balances t) = total_supply t ∧ total_supply t ≤ mint_cap t.
Proof.
  destruct (zrc20_books_balance [90] [90] 18 1000 5000 [] (adr 1) 0 token first_calls later_calls) as (Ht & _ & Hc & _).
  - lia.
  - vm_compute. split; congruence.
  - vm_compute. reflexivity.
  - apply unsigned_sample.
  - split; [vm_compute; reflexivity|]. exact (conj Ht Hc).
Defined.

Lemma zrc20_freezes_and_locks_hold_witness :
  let t := run token (first_calls ++ later_calls) in
  balance_of t (adr 2) = 310 ∧ balance_of (run token first_calls) (adr 3) = 100 ∧
  300 ≤ balance_of t (adr 2) ∧ balance_of t (adr 3) = balance_of (run token first_calls) (adr 3).
Proof.
  assert (H2 := zrc20_freezes_and_locks_hold [90] [90] 18 1000 5000 [] (adr 1) 0 token first_calls later_calls (adr 2)).
  assert (H3 := zrc20_freezes_and_locks_hold [90] [90] 18 1000 5000 [] (adr 1) 0 token first_calls later_calls (adr 3)).
  assert (Hs : StronglySorted Z.le (0 :: (first_calls ++ later_calls).*1)) by (cbn; repeat (apply SSorted_cons; [|repeat (apply Forall_cons_2; [lia|]); apply Forall_nil_2]); apply SSorted_nil).
  assert (Hcap : 0 ≤ 5000 ≤ U128_MAX) by (vm_compute; split; congruence).
  assert (Hn : new [90] [90] 18 1000 5000 [] (adr 1) 0 = Ok token) by (vm_compute; reflexivity).
  specialize (H2 ltac:(lia) Hcap Hn unsigned_sample Hs ltac:(vm_compute; congruence)) as [_ H2].
  specialize (H3 ltac:(lia) Hcap Hn unsigned_sample Hs ltac:(vm_compute; congruence)) as [H3 _].
  split; [vm_compute; reflexivity|]. split; [vm_compute; reflexivity|]. split.
  - destruct (H2 (mkLock 300 50)) as [H2' _]; [vm_compute; reflexivity|reflexivity| |exact H2'].
    apply (bool_decide_unpack _). vm_compute. exact I.
  - apply H3; [apply (bool_decide_unpack _); vm_compute; exact I|].
    repeat (apply Forall_cons_2; [exact id|]). apply Forall_nil_2.
Defined.

(** A delegated transfer that fails has already spent the allowance. *)
Theorem failed_transfer_from_spends_allowance :
  let t := run token [(1, Approve (adr 2) (adr 9) 100)] in
  let r := exec 2 (TransferFrom (adr 9) (adr 2) (adr 3) 60) t in
  r.1 = Err (InsufficientBalance 0 60) ∧ allowance t (adr 2) (adr 9) = 100 ∧ allowance r.2 (adr 2) (adr 9) = 40.
Proof. vm_compute. split_and!; reflexivity. Qed.

(** A batch that fails keeps the legs before the failure. *)
Theorem failed_batch_keeps_legs :
  let r := exec 1 (BatchTransfer (adr 1) [adr 2; adr 3] [900; 900]) token in
  r.1 = Err (InsufficientBalance 100 900) ∧ balance_of r.2 (adr 2) = 900.
Proof. vm_compute. split_and!; reflexivity. Qed.

(** A renounced token has an owner again when a pending owner accepts. *)
Theorem renounced_token_regains_owner :
  let t := run token [(1, TransferOwnership (adr 1) (adr 7)); (2, RenounceOwnership (adr 1)); (3, AcceptOwnership (adr 7))] in
  owner t = adr 7.
Proof. reflexivity. Qed.
End Samples.
End Zrc20.
