(* ===== verification/Votes.v ===== *)
(** * Votes, quorum certificates and the vote accumulator

    Models [crates/zbx-consensus/src/vote.rs] and [error.rs]. BLS signatures
    and keccak-256 are the classes [Bls] and [Keccak]; what the accumulator
    relies on is the law [BlsLaws]. The [HashMap] of votes is a finite map; the
    order in which its values are listed is unspecified and no theorem depends
    on it. *)

From S2P Require Import Prelude.
From S2P Require Import EvmBase.
From S2P Require Import EvmHost.

Module Votes.
Import EvmHost.

(** ** error.rs *)

Inductive ConsensusError :=
| SafetyViolation
| StaleRound (got locked : Z)
| InsufficientVotes (got required : Z)
| InvalidProposer (round : Z)
| TimeoutIn (round : Z)
| DuplicateVote
| BlockNotFound
| StaleProposal (proposal_round highest_qc : Z)
| InvalidTimeoutCertificate
| Equivocation (round : Z) (seen attempted : bytes)
| RemoteEquivocation (validator : address) (round phase : Z) (hash_a hash_b : bytes)
| ConsecutiveTimeoutsExceeded (n : Z)
| InvalidQC (round : Z)
| InvalidMessage
| RateLimitExceeded
| InvalidEpoch (expected got : Z).

(** ** BLS12-381 (zbx-crypto over the bls12_381 crate) *)

Class Bls := {
  verify_single : bytes → bytes → bytes → bool;          (* signature, key, message *)
  verify_aggregate : bytes → list bytes → bytes → bool;
  aggregate_signatures : list bytes → option bytes;
  sign : bytes → bytes → bytes;                          (* private key, message *)
  to_pubkey : bytes → bytes
}.

(** An aggregate of valid signatures on one message verifies under their keys,
    and a signature made with a key verifies under its public key. *)
Class BlsLaws `{Bls} := {
  aggregate_verifies sigs pks msg agg :
    Forall2 (fun s pk => verify_single s pk msg = true) sigs pks →
    aggregate_signatures sigs = Some agg → verify_aggregate agg pks msg = true;
  sign_verifies sk msg : verify_single (sign sk msg) (to_pubkey sk) msg = true
}.

(** ** Vote data *)

Record VoteData := mkVoteData {
  block_hash : bytes;
  block_number : Z;
  phase : Z;
  epoch : Z
}.

#[export] Instance vote_data_eq_dec : EqDecision VoteData.
Proof. solve_decision. Defined.

Definition signing_bytes (d : VoteData) : bytes :=
  block_hash d ++ to_be 8 (block_number d) ++ [phase d] ++ to_be 8 (epoch d).

Record Vote := mkVote {
  v_data : VoteData;
  voter : address;
  signature : bytes
}.

Record QuorumCertificate := mkQC {
  vote_data : VoteData;
  agg_signature : bytes;
  signers : list address;
  signer_pubkeys : list bytes
}.

Definition qc_block_number (qc : QuorumCertificate) : Z := block_number (vote_data qc).
Definition qc_phase (qc : QuorumCertificate) : Z := phase (vote_data qc).
Definition signer_count (qc : QuorumCertificate) : nat := length (signers qc).

Section Crypto.
Context `{Keccak} `{Bls}.

Definition vote_msg (d : VoteData) : bytes := keccak256 (signing_bytes d).

Definition qc_verify (qc : QuorumCertificate) : bool :=
  if bool_decide (signer_pubkeys qc = []) then true
  else verify_aggregate (agg_signature qc) (signer_pubkeys qc) (vote_msg (vote_data qc)).

(** ** The accumulator *)

Record VoteAccumulator := mkAcc {
  acc_data : VoteData;
  acc_votes : gmap (list Z) (Vote * list Z);
  acc_quorum : nat
}.

Definition acc_new (d : VoteData) (quorum : nat) : VoteAccumulator := mkAcc d ∅ quorum.

(** [self.votes.values()] *)
Definition acc_values (a : VoteAccumulator) : list (Vote * list Z) := map snd (map_to_list (acc_votes a)).

(** [expect] panics when the signatures do not aggregate. *)
Definition form_qc (a : VoteAccumulator) : outcome ConsensusError QuorumCertificate :=
  let vals := acc_values a in
  match aggregate_signatures (map (fun x => signature x.1) vals) with
  | Some agg => Ok (mkQC (acc_data a) agg (map (fun x => voter x.1) vals) (map snd vals))
  | None => Panic
  end.

Definition add_vote (a : VoteAccumulator) (v : Vote) (pubkey : bytes)
    : outcome ConsensusError (option QuorumCertificate) * VoteAccumulator :=
  if negb (bool_decide (v_data v = acc_data a)) then (Ok None, a) else
  let addr := voter v in
  if bool_decide (is_Some (acc_votes a !! addr)) then (Err DuplicateVote, a) else
  if negb (verify_single (signature v) pubkey (vote_msg (v_data v))) then (Ok None, a) else
  let a' := mkAcc (acc_data a) (<[addr := (v, pubkey)]> (acc_votes a)) (acc_quorum a) in
  if (acc_quorum a <=? size (acc_votes a'))%nat
  then (let? qc := form_qc a' in Ok (Some qc), a')
  else (Ok None, a').

(** ** Equivocation evidence *)

Record EquivocationEvidence := mkEvidence {
  ev_validator : address;
  ev_round : Z;
  ev_phase : Z;
  vote_a : Vote;
  vote_b : Vote;
  ev_pubkey : bytes
}.

Definition ev_verify (e : EquivocationEvidence) : bool :=
  if negb (bool_decide (voter (vote_a e) = voter (vote_b e)))
     || negb (bool_decide (voter (vote_a e) = ev_validator e))
     || negb (block_number (v_data (vote_a e)) =? block_number (v_data (vote_b e)))
     || negb (phase (v_data (vote_a e)) =? phase (v_data (vote_b e)))
     || bool_decide (block_hash (v_data (vote_a e)) = block_hash (v_data (vote_b e)))
     || negb (block_number (v_data (vote_a e)) =? ev_round e)
     || negb (phase (v_data (vote_a e)) =? ev_phase e)
  then false
  else verify_single (signature (vote_a e)) (ev_pubkey e) (vote_msg (v_data (vote_a e)))
       && verify_single (signature (vote_b e)) (ev_pubkey e) (vote_msg (v_data (vote_b e))).

(** ** Invariant *)

(** Every recorded vote is for the accumulator's data, is filed under its
    voter and carries a signature that verifies under the key filed with it. *)
Definition wf_acc (a : VoteAccumulator) : Prop :=
  map_Forall (fun addr x =>
    v_data x.1 = acc_data a ∧ voter x.1 = addr ∧
    verify_single (signature x.1) x.2 (vote_msg (acc_data a)) = true) (acc_votes a).

Lemma acc_new_wf d q : wf_acc (acc_new d q).
Proof. apply map_Forall_empty. Qed.

Lemma add_vote_wf a v pk : wf_acc a → wf_acc (add_vote a v pk).2.
Proof.
  intros Ha. unfold add_vote. destruct (bool_decide (v_data v = _)) eqn:Hd; [|done].
  apply bool_decide_eq_true in Hd. cbn [negb]. case_match; [done|].
  destruct (verify_single _ _ _) eqn:Hv; [|done]. cbn [negb].
  assert (wf_acc (mkAcc (acc_data a) (<[voter v:=(v, pk)]> (acc_votes a)) (acc_quorum a))).
  { apply map_Forall_insert_2; [|done]. cbn. by rewrite <- Hd. }
  by case_match.
Qed.

(** The signers of a certificate formed from a well-formed accumulator. *)
Lemma acc_signers a :
  wf_acc a → map (fun x => voter x.1) (acc_values a) = (map_to_list (acc_votes a)).*1.
Proof.
  intros Ha. unfold acc_values. rewrite map_map. apply map_ext_in.
  intros [addr x] Hin%list_elem_of_In%elem_of_map_to_list. cbn. by apply (Ha addr x).
Qed.

Lemma form_qc_spec `{!BlsLaws} a qc :
  wf_acc a → form_qc a = Ok qc →
  vote_data qc = acc_data a ∧ NoDup (signers qc) ∧ length (signers qc) = size (acc_votes a) ∧
  (∀ s, s ∈ signers qc ↔ is_Some (acc_votes a !! s)) ∧ qc_verify qc = true.
Proof.
  intros Ha. unfold form_qc. destruct (aggregate_signatures _) as [agg|] eqn:Hagg; [|done].
  intros [= <-]. cbn. rewrite acc_signers by done. split; [done|]. split; [apply NoDup_fst_map_to_list|].
  split; [by rewrite length_fmap, length_map_to_list|]. split.
  - intros s. rewrite list_elem_of_fmap. split.
    + intros ([addr x] & -> & Hin%elem_of_map_to_list). cbn. eauto.
    + intros [x Hx]. exists (s, x). split; [done|]. by apply elem_of_map_to_list.
  - unfold qc_verify. cbn. case_bool_decide; [done|].
    eapply aggregate_verifies; [|exact Hagg]. apply Forall2_fmap_2, Forall_Forall2_diag, Forall_fmap.
    apply Forall_forall. intros [addr x] Hin%elem_of_map_to_list. by apply (Ha addr x).
Qed.

(** The votes an accumulator has been fed, in order. *)
Fixpoint add_votes (a : VoteAccumulator) (vs : list (Vote * list Z)) : VoteAccumulator :=
  match vs with
  | [] => a
  | (v, pk) :: rest => add_votes (add_vote a v pk).2 rest
  end.

Lemma add_votes_wf a vs : wf_acc a → wf_acc (add_votes a vs).
Proof.
  revert a. induction vs as [|[v pk] vs IH]; intros a Ha; [done|]. by apply IH, add_vote_wf.
Qed.

Lemma add_vote_data a v pk :
  acc_data (add_vote a v pk).2 = acc_data a ∧ acc_quorum (add_vote a v pk).2 = acc_quorum a.
Proof. unfold add_vote. by repeat case_match. Qed.

Lemma add_votes_data a vs :
  acc_data (add_votes a vs) = acc_data a ∧ acc_quorum (add_votes a vs) = acc_quorum a.
Proof.
  revert a. induction vs as [|[v pk] vs IH]; intros a; [done|]. cbn.
  destruct (IH (add_vote a v pk).2) as [-> ->]. apply add_vote_data.
Qed.

(** What [add_vote] returns when it returns a certificate. *)
Lemma add_vote_qc a v pk qc :
  (add_vote a v pk).1 = Ok (Some qc) →
  v_data v = acc_data a ∧ acc_votes a !! voter v = None ∧
  verify_single (signature v) pk (vote_msg (v_data v)) = true ∧
  acc_votes (add_vote a v pk).2 = <[voter v := (v, pk)]> (acc_votes a) ∧
  (acc_quorum a ≤ size (acc_votes (add_vote a v pk).2))%nat ∧
  form_qc (add_vote a v pk).2 = Ok qc.
Proof.
  unfold add_vote. destruct (bool_decide (v_data v = _)) eqn:Hd; [|done].
  apply bool_decide_eq_true in Hd. cbn [negb]. destruct (bool_decide (is_Some _)) eqn:Hs; [done|].
  apply bool_decide_eq_false, eq_None_not_Some in Hs.
  destruct (verify_single _ _ _) eqn:Hv; [|done]. cbn [negb].
  destruct (_ <=? _)%nat eqn:Hq; [|done]. apply Nat.leb_le in Hq. cbn [fst snd].
  intros H1. apply bind_Ok_inv in H1 as (qc' & Hf & [= ->]). done.
Qed.

Lemma add_vote_votes a v pk addr x :
  acc_votes (add_vote a v pk).2 !! addr = Some x → x = (v, pk) ∨ acc_votes a !! addr = Some x.
Proof.
  unfold add_vote. repeat case_match; cbn; try by right.
  all: intros Hx; apply lookup_insert_Some in Hx as [[_ <-]|[_ Hx]]; auto.
Qed.

Lemma add_votes_votes vs a addr x :
  acc_votes (add_votes a vs) !! addr = Some x → x ∈ vs ∨ acc_votes a !! addr = Some x.
Proof.
  revert a. induction vs as [|[v pk] vs IH]; intros a; cbn; [by right|].
  intros [Hx|Hx]%IH; [left; by constructor|]. apply add_vote_votes in Hx as [-> |Hx]; [|by right].
  left. by constructor.
Qed.

(** A certificate comes from a real quorum. However votes arrive at an
    accumulator (duplicates, other data, bad signatures, any order), when
    [add_vote] returns a certificate it is for the accumulator's vote data,
    its signers are distinct and at least the quorum, each of them supplied a
    vote on exactly that data whose signature verifies, and the certificate
    passes [QuorumCertificate::verify]. *)
Theorem qc_is_certified `{!BlsLaws} d quorum vs v pk qc :
  (add_vote (add_votes (acc_new d quorum) vs) v pk).1 = Ok (Some qc) →
  vote_data qc = d ∧ NoDup (signers qc) ∧ (quorum ≤ length (signers qc))%nat ∧
  qc_verify qc = true ∧
  ∀ s, s ∈ signers qc → ∃ v' pk', (v', pk') ∈ (v, pk) :: vs ∧ voter v' = s ∧ v_data v' = d ∧
       verify_single (signature v') pk' (vote_msg d) = true.
Proof.
  intros Hqc. set (a := add_votes (acc_new d quorum) vs) in *.
  destruct (add_votes_data (acc_new d quorum) vs) as [Hd Hq]. cbn in Hd, Hq. fold a in Hd, Hq.
  apply add_vote_qc in Hqc as (_ & _ & _ & _ & Hsz & Hf).
  assert (Ha : wf_acc (add_vote a v pk).2) by (by apply add_vote_wf, add_votes_wf, acc_new_wf).
  destruct (form_qc_spec _ _ Ha Hf) as (Hvd & Hnd & Hlen & Hin & Hver).
  destruct (add_vote_data a v pk) as [Hd' _]. rewrite Hd' in Hvd. rewrite Hlen, <- Hq.
  split_and!; [congruence|done|done|done|].
  intros s [[v' pk'] Hx]%Hin. exists v', pk'. destruct (Ha _ _ Hx) as (Hv1 & Hv2 & Hv3). cbn in *.
  rewrite Hd', Hd in *. split_and!; try done.
  apply add_vote_votes in Hx as [-> |Hx]; [by constructor|].
  apply add_votes_votes in Hx as [Hx|Hx]; [by constructor|]. cbn [acc_new acc_votes] in Hx. by rewrite lookup_empty in Hx.
Qed.
End Crypto.

(** A toy signature scheme that satisfies the laws: a signature is the key and
    the message, an aggregate the list of the signatures' bytes. *)
Module Toy.
#[export] Instance hash : Keccak := fun b => to_be 32 (be_val b).
#[export] Instance bls : Bls := {|
  verify_single s pk msg := bool_decide (s = pk ++ msg);
  verify_aggregate agg pks msg := bool_decide (agg = concat (map (fun pk => pk ++ msg) pks));
  aggregate_signatures sigs := match sigs with [] => None | _ => Some (concat sigs) end;
  sign sk msg := sk ++ msg;
  to_pubkey sk := sk
|}.
#[export] Instance bls_laws : BlsLaws.
Proof.
  constructor.
  - intros sigs pks msg agg Hall Hagg. apply bool_decide_eq_true_2.
    assert (concat sigs = concat (map (fun pk => pk ++ msg) pks)) as <-.
    { clear Hagg. induction Hall as [|? ? ? ? Hv _ IH]; [done|]. cbn in Hv.
      apply bool_decide_eq_true_1 in Hv as ->. cbn. by rewrite IH. }
    cbn in Hagg. destruct sigs; [done|]. by injection Hagg as <-.
  - intros. by apply bool_decide_eq_true_2.
Qed.

Definition data : VoteData := mkVoteData (replicate 32 5) 7 2 1.
Definition cast (i : Z) : Vote := mkVote data (replicate 20 i) (sign [i] (vote_msg data)).

Lemma qc_is_certified_witness :
  ∃ qc, vote_data qc = data ∧ NoDup (signers qc) ∧ (3 ≤ length (signers qc))%nat ∧
  qc_verify qc = true ∧
  ∀ s, s ∈ signers qc → ∃ v' pk', (v', pk') ∈ [(cast 3, [3]); (cast 1, [1]); (cast 2, [9]); (cast 2, [2])] ∧
       voter v' = s ∧ v_data v' = data ∧ verify_single (signature v') pk' (vote_msg data) = true.
Proof.
  destruct (add_vote (add_votes (acc_new data 3) [(cast 1, [1]); (cast 2, [9]); (cast 2, [2])])
              (cast 3) [3]).1 as [[qc|]| |] eqn:E; [|vm_compute in E; discriminate E..].
  exists qc. apply (qc_is_certified data 3 [(cast 1, [1]); (cast 2, [9]); (cast 2, [2])] (cast 3) [3] qc E).
Defined.
End Toy.
End Votes.
