(* ===== verification/Block.v ===== *)
(** * Block headers: canonical encoding, hash and parent validation

    Models [crates/zbx-types/src/block.rs]. A hash or address is its bytes, an
    integer field a [Z] of its width. [ZbxError::Consensus] carries a message;
    the model has one constructor per message. Transactions are the type [Tx]:
    nothing here looks inside them. *)

From S2P Require Import Prelude.
From S2P Require Import Fee.
From S2P Require Import U256.
From S2P Require Import EvmBase.
From S2P Require Import EvmHost.
From S2P Require Import Votes.

Module Block.
Import U256 EvmHost.

Definition BLOCK_GAS_LIMIT : Z := 30000000.

Record BlockHeader := mkHeader {
  parent_hash : bytes;
  uncle_hash : bytes;
  coinbase : address;
  state_root : bytes;
  transactions_root : bytes;
  receipts_root : bytes;
  logs_bloom : bytes;
  difficulty : Z;
  number : Z;
  gas_limit : Z;
  gas_used : Z;
  timestamp : Z;
  extra_data : bytes;
  mix_hash : bytes;
  nonce : Z;
  base_fee_per_gas : Z;
  committee_signature : bytes;
  epoch : Z;
  epoch_seed : option bytes
}.

Definition encode_seed (s : option bytes) : bytes :=
  match s with None => [0] | Some s => 1 :: s end.

Definition canonical_encode (h : BlockHeader) : bytes :=
  parent_hash h ++ uncle_hash h ++ coinbase h ++ state_root h ++ transactions_root h ++
  receipts_root h ++ logs_bloom h ++ to_be 32 (difficulty h) ++
  to_be 8 (number h) ++ to_be 8 (gas_limit h) ++ to_be 8 (gas_used h) ++ to_be 8 (timestamp h) ++
  to_be 4 (Z.of_nat (length (extra_data h))) ++ extra_data h ++
  mix_hash h ++ to_be 8 (nonce h) ++ to_be 8 (base_fee_per_gas h) ++
  to_be 8 (epoch h) ++ encode_seed (epoch_seed h).

Inductive HeaderError :=
| ParentHashMismatch (number : Z)
| NumberGap (expected got : Z)
| TimestampNotIncreasing
| GasUsedExceedsLimit (used limit : Z)
| GasLimitExceedsMaximum
| ExtraDataTooLong (len : Z)
| BaseFeeMismatch (number expected got : Z).

(** u128 intermediates cannot overflow: both factors are 64-bit. Dividing by a
    zero [target] panics. *)
Definition compute_eip1559_base_fee (parent_base gas_used gas_limit : Z) : outcome HeaderError Z :=
  if gas_limit =? 0 then Ok parent_base else
  let target := gas_limit / 2 in
  if gas_used =? target then Ok parent_base else
  let base := parent_base in
  let adj := base / 8 in
  if target <? gas_used then
    let delta := gas_used - target in
    if target =? 0 then Panic else
    let bump := Z.min (Z.max (base * delta / target) 1) adj in
    Ok (wrap64 (saturating_add128 base bump))
  else
    let delta := target - gas_used in
    if target =? 0 then Panic else
    let cut := Z.min (base * delta / target) adj in
    Ok (wrap64 (saturating_sub base cut)).

Record BlockBody (Tx : Type) := mkBody {
  transactions : list Tx;
  uncles : list BlockHeader
}.
Arguments mkBody {Tx}. Arguments transactions {Tx}. Arguments uncles {Tx}.

Record Block (Tx : Type) := mkBlock {
  header : BlockHeader;
  body : BlockBody Tx
}.
Arguments mkBlock {Tx}. Arguments header {Tx}. Arguments body {Tx}.

Definition blk_number {Tx} (b : Block Tx) : Z := number (header b).
Definition blk_coinbase {Tx} (b : Block Tx) : address := coinbase (header b).
Definition transaction_count {Tx} (b : Block Tx) : nat := length (transactions (body b)).

(** b"Zebvix Genesis" *)
Definition GENESIS_EXTRA : bytes := [90; 101; 98; 118; 105; 120; 32; 71; 101; 110; 101; 115; 105; 115].

Definition genesis {Tx} (state_root : bytes) (timestamp : Z) : Block Tx :=
  let zero := replicate 32 0 in
  mkBlock (mkHeader zero zero (replicate 20 0) state_root zero zero (replicate 256 0) 0 0
             BLOCK_GAS_LIMIT 0 timestamp GENESIS_EXTRA zero 0 1000000000 [] 0 None)
          (mkBody [] []).

Section Hash.
Context `{Keccak}.

Definition hash (h : BlockHeader) : bytes := keccak256 (canonical_encode h).
Definition blk_hash {Tx} (b : Block Tx) : bytes := hash (header b).

Definition validate_against_parent (h parent : BlockHeader) : outcome HeaderError unit :=
  if negb (bool_decide (parent_hash h = hash parent)) then Err (ParentHashMismatch (number h)) else
  if negb (number h =? wrap64 (number parent + 1))
  then Err (NumberGap (wrap64 (number parent + 1)) (number h)) else
  if timestamp h <=? timestamp parent then Err TimestampNotIncreasing else
  if gas_limit h <? gas_used h then Err (GasUsedExceedsLimit (gas_used h) (gas_limit h)) else
  if BLOCK_GAS_LIMIT <? gas_limit h then Err GasLimitExceedsMaximum else
  if 32 <? Z.of_nat (length (extra_data h)) then Err (ExtraDataTooLong (Z.of_nat (length (extra_data h)))) else
  if (0 <? number parent) || (0 <? base_fee_per_gas parent) then
    let? expected := compute_eip1559_base_fee (base_fee_per_gas parent) (gas_used parent) (gas_limit parent) in
    if negb (base_fee_per_gas h =? expected)
    then Err (BaseFeeMismatch (number h) expected (base_fee_per_gas h)) else Ok tt
  else Ok tt.
End Hash.

(** ** Well-formed headers: every field has the width of its Rust type *)

Definition is_hash (b : bytes) : Prop := length b = 32%nat ∧ wf_bytes b.

Record wf_header (h : BlockHeader) : Prop := {
  wf_parent : length (parent_hash h) = 32%nat;
  wf_uncle : length (uncle_hash h) = 32%nat;
  wf_coinbase : length (coinbase h) = 20%nat;
  wf_state : length (state_root h) = 32%nat;
  wf_txs : length (transactions_root h) = 32%nat;
  wf_receipts : length (receipts_root h) = 32%nat;
  wf_bloom : length (logs_bloom h) = 256%nat;
  wf_difficulty : 0 ≤ difficulty h < 2 ^ 256;
  wf_number : is_u64 (number h);
  wf_gas_limit : is_u64 (gas_limit h);
  wf_gas_used : is_u64 (gas_used h);
  wf_timestamp : is_u64 (timestamp h);
  wf_extra : Z.of_nat (length (extra_data h)) < 2 ^ 32;
  wf_mix : length (mix_hash h) = 32%nat;
  wf_nonce : is_u64 (nonce h);
  wf_base_fee : is_u64 (base_fee_per_gas h);
  wf_epoch : is_u64 (epoch h);
  wf_seed : ∀ s, epoch_seed h = Some s → length s = 32%nat
}.

(** The header without its committee signature, which the hash leaves out. *)
Definition unsigned (h : BlockHeader) : BlockHeader :=
  mkHeader (parent_hash h) (uncle_hash h) (coinbase h) (state_root h) (transactions_root h)
    (receipts_root h) (logs_bloom h) (difficulty h) (number h) (gas_limit h) (gas_used h) (timestamp h)
    (extra_data h) (mix_hash h) (nonce h) (base_fee_per_gas h) [] (epoch h) (epoch_seed h).

Lemma to_be_inj n a b :
  0 ≤ a < 256 ^ Z.of_nat n → 0 ≤ b < 256 ^ Z.of_nat n → to_be n a = to_be n b → a = b.
Proof.
  intros Ha Hb Heq. apply (f_equal be_val) in Heq. rewrite !be_val_to_be in Heq.
  by rewrite !Z.mod_small in Heq.
Qed.

Lemma to_be_8_inj a b : is_u64 a → is_u64 b → to_be 8 a = to_be 8 b → a = b.
Proof. apply (to_be_inj 8). Qed.

Lemma encode_seed_inj s1 s2 : encode_seed s1 = encode_seed s2 → s1 = s2.
Proof. by destruct s1, s2; intros [=]; subst. Qed.

(** Peels one field of equal width off an equation between encodings. *)
Ltac peel Heq :=
  apply app_inj_1 in Heq; [destruct Heq as [?Hf Heq]|by rewrite ?length_to_be; congruence].

(** The encoding determines every encoded field. *)
Lemma encoding_inj h1 h2 :
  wf_header h1 → wf_header h2 → canonical_encode h1 = canonical_encode h2 → unsigned h1 = unsigned h2.
Proof.
  intros [] [] Heq. unfold canonical_encode in Heq.
  do 13 peel Heq.
  assert (Hx : length (extra_data h1) = length (extra_data h2))
    by (apply Nat2Z.inj, (to_be_inj 4); [lia|lia|done]).
  do 5 peel Heq. apply encode_seed_inj in Heq.
  unfold unsigned. f_equal; try done.
  all: try (by apply to_be_8_inj). by apply (to_be_inj 32).
Qed.

(** The hashed encoding of a header is exact: two well-formed headers have
    the same canonical encoding if and only if they agree on every field except
    the committee signature, which is left out on purpose. *)
Theorem header_encoding_injective h1 h2 :
  wf_header h1 → wf_header h2 →
  canonical_encode h1 = canonical_encode h2 ↔ unsigned h1 = unsigned h2.
Proof.
  intros Hw1 Hw2. split; [by apply encoding_inj|]. intros Heq.
  by apply (f_equal canonical_encode) in Heq.
Qed.

(** ** The base-fee step *)

(** The base fee a validator expects of a child block. When the parent
    has a non-zero gas target and [base + base/8] fits in 64 bits, the step
    does not abort; it moves the fee by at most one eighth, in the direction
    of the parent's usage; and the full eighth is already reached when usage
    is one eighth of the target away from it. *)
Theorem block_base_fee_step base used limit :
  is_u64 base → is_u64 used → 2 ≤ limit → is_u64 limit → base + base / 8 < 2 ^ 64 →
  let target := limit / 2 in
  ∃ v, compute_eip1559_base_fee base used limit = Ok v ∧
    base - base / 8 ≤ v ≤ base + base / 8 ∧
    (used = target → v = base) ∧ (target ≤ used → base ≤ v) ∧ (used ≤ target → v ≤ base) ∧
    (8 ≤ base → target ≤ 8 * (used - target) → v = base + base / 8) ∧
    (target ≤ 8 * (target - used) → v = base - base / 8).
Proof.
  intros Hb Hu Hl2 Hl Hno target. unfold is_u64 in *.
  assert (Ht : 1 ≤ target) by (unfold target; apply Z.div_le_lower_bound; lia).
  assert (Ha : 0 ≤ base / 8 ≤ base) by (split; [apply Z.div_pos; lia | apply Z.div_le_upper_bound; lia]).
  assert (Hq : ∀ d, target ≤ 8 * d → base / 8 ≤ base * d / target).
  { intros d Hd. apply Z.div_le_lower_bound; [lia|]. pose proof (Z.mul_div_le base 8). nia. }
  unfold compute_eip1559_base_fee. fold target. case_if; [lia|]. case_if.
  { exists base. split_and!; try lia; done. }
  case_if; (case_if; [lia|]); eexists; (split; [reflexivity|]).
  - assert (0 ≤ base * (used - target) / target) by (apply Z.div_pos; nia).
    unfold saturating_add128, wrap64, U128_MAX. rewrite (Z.min_l (base + _)) by lia. rewrite Z.mod_small by lia.
    split_and!; try lia. intros H8 Hd. specialize (Hq _ Hd).
    assert (1 ≤ base / 8) by (apply Z.div_le_lower_bound; lia). lia.
  - assert (0 ≤ base * (target - used) / target) by (apply Z.div_pos; nia).
    unfold saturating_sub, wrap64. rewrite Z.mod_small by lia.
    split_and!; try lia. intros Hd. specialize (Hq _ Hd). lia.
Qed.

Lemma block_base_fee_step_witness :
  ∃ v, compute_eip1559_base_fee 1000000000 20000000 BLOCK_GAS_LIMIT = Ok v ∧
    1000000000 - 1000000000 / 8 ≤ v ≤ 1000000000 + 1000000000 / 8 ∧
    (20000000 = BLOCK_GAS_LIMIT / 2 → v = 1000000000) ∧ (BLOCK_GAS_LIMIT / 2 ≤ 20000000 → 1000000000 ≤ v) ∧
    (20000000 ≤ BLOCK_GAS_LIMIT / 2 → v ≤ 1000000000) ∧
    (8 ≤ 1000000000 → BLOCK_GAS_LIMIT / 2 ≤ 8 * (20000000 - BLOCK_GAS_LIMIT / 2) → v = 1000000000 + 1000000000 / 8) ∧
    (BLOCK_GAS_LIMIT / 2 ≤ 8 * (BLOCK_GAS_LIMIT / 2 - 20000000) → v = 1000000000 - 1000000000 / 8).
Proof.
  apply (block_base_fee_step 1000000000 20000000 BLOCK_GAS_LIMIT);
    unfold is_u64, BLOCK_GAS_LIMIT; vm_compute; try split; congruence.
Defined.

(** ** Parent validation *)

Section Chain.
Context `{Keccak}.

(** What a header must satisfy to extend [parent]. *)
Definition extends (h parent : BlockHeader) : Prop :=
  parent_hash h = hash parent ∧ number h = wrap64 (number parent + 1) ∧
  timestamp parent < timestamp h ∧ gas_used h ≤ gas_limit h ∧ gas_limit h ≤ BLOCK_GAS_LIMIT ∧
  (length (extra_data h) ≤ 32)%nat ∧
  (0 < number parent ∨ 0 < base_fee_per_gas parent →
   compute_eip1559_base_fee (base_fee_per_gas parent) (gas_used parent) (gas_limit parent) =
     Ok (base_fee_per_gas h)).

Lemma validate_extends h parent : validate_against_parent h parent = Ok tt ↔ extends h parent.
Proof.
  unfold validate_against_parent, extends. case_bool_decide as Hp; cbn [negb]; [|by split; [|intros [? _]]].
  destruct (number h =? _) eqn:Hn; cbn [negb]; [apply Z.eqb_eq in Hn|apply Z.eqb_neq in Hn; by split; [|intros (_ & ? & _)]].
  do 4 (case_if; [split; [done|intros; lia]|]).
  destruct (_ || _) eqn:Hz.
  - apply orb_true_iff in Hz. rewrite !Z.ltb_lt in Hz.
    destruct (compute_eip1559_base_fee _ _ _) as [v|e|]; cbn;
      [|by (split; [done|]; intros (_ & _ & _ & _ & _ & _ & Hc); specialize (Hc Hz))..].
    destruct (base_fee_per_gas h =? v) eqn:Hv; cbn.
    + apply Z.eqb_eq in Hv as <-. split; [|done]. intros _. split_and!; try done; lia.
    + apply Z.eqb_neq in Hv. split; [done|]. intros (_ & _ & _ & _ & _ & _ & [= ->]%(fun f => f Hz)). done.
  - apply orb_false_iff in Hz as [H1%Z.ltb_ge H2%Z.ltb_ge]. split; [|done]. intros _.
    split_and!; try done; lia.
Qed.

(** A chain, newest block first, each block validated against the next. *)
Fixpoint valid_chain (c : list BlockHeader) : Prop :=
  match c with
  | h :: (p :: _) as c' => validate_against_parent h p = Ok tt ∧ valid_chain c'
  | _ => True
  end.

(** The headers of two chains collide if two of them differ and hash alike. *)
Definition collision (c1 c2 : list BlockHeader) : Prop :=
  ∃ h1 h2, h1 ∈ c1 ∧ h2 ∈ c2 ∧ canonical_encode h1 ≠ canonical_encode h2 ∧ hash h1 = hash h2.

Lemma collision_cons h1 h2 c1 c2 : collision c1 c2 → collision (h1 :: c1) (h2 :: c2).
Proof. intros (x & y & Hx & Hy & Hne). exists x, y. by split; [apply list_elem_of_further|split; [apply list_elem_of_further|]]. Qed.

(** Headers with the same hash are the same up to the signature, or collide. *)
Lemma same_hash h1 h2 c1 c2 :
  wf_header h1 → wf_header h2 → hash h1 = hash h2 →
  unsigned h1 = unsigned h2 ∨ collision (h1 :: c1) (h2 :: c2).
Proof.
  intros Hw1 Hw2 Heq. destruct (decide (canonical_encode h1 = canonical_encode h2)) as [He|Hne].
  - left. intros. revert Hw1 Hw2 He. apply encoding_inj.
  - right. exists h1, h2. by split; [constructor|split; [constructor|]].
Qed.

Lemma chains_agree h1 c1 h2 c2 :
  Forall wf_header (h1 :: c1) → Forall wf_header (h2 :: c2) →
  valid_chain (h1 :: c1) → valid_chain (h2 :: c2) → length c1 = length c2 →
  hash h1 = hash h2 →
  map unsigned (h1 :: c1) = map unsigned (h2 :: c2) ∨ collision (h1 :: c1) (h2 :: c2).
Proof.
  revert h1 h2 c2. induction c1 as [|p1 c1 IH]; intros h1 h2 [|p2 c2] Hw1 Hw2 Hv1 Hv2 Hlen Heq;
    try done; inversion Hw1 as [|? ? Hh1 Hr1]; inversion Hw2 as [|? ? Hh2 Hr2]; subst.
  - destruct (same_hash h1 h2 [] [] Hh1 Hh2 Heq) as [Hu|Hc]; [|by right]. left. cbn. by rewrite Hu.
  - destruct (same_hash h1 h2 (p1 :: c1) (p2 :: c2) Hh1 Hh2 Heq) as [Hu|Hc]; [|by right].
    destruct Hv1 as [[Hp1 _]%validate_extends Hv1], Hv2 as [[Hp2 _]%validate_extends Hv2].
    destruct (IH p1 p2 c2) as [Hm|Hc]; try done; [by injection Hlen| | |by right; apply collision_cons].
    + apply (f_equal parent_hash) in Hu. cbn in Hu. congruence.
    + left. change (unsigned h1 :: map unsigned (p1 :: c1) = unsigned h2 :: map unsigned (p2 :: c2)).
      by rewrite Hu, Hm.
Qed.

Lemma chain_positions h1 c1 i h :
  Forall wf_header (h1 :: c1) → valid_chain (h1 :: c1) → (h1 :: c1) !! i = Some h →
  number h1 = wrap64 (number h + Z.of_nat i) ∧ timestamp h + Z.of_nat i ≤ timestamp h1.
Proof.
  revert h1 i. induction c1 as [|p1 c1 IH]; intros h1 [|i] Hw Hv Hi; cbn in Hi; simplify_eq; try done.
  1,2: apply Forall_inv, wf_number in Hw; unfold wrap64; rewrite Z.add_0_r, Z.mod_small by done; lia.
  destruct Hv as [(_ & Hn & Ht & _)%validate_extends Hv]. apply Forall_inv_tail in Hw.
  destruct (IH p1 i Hw Hv Hi) as [Hp Ht']. rewrite Hn, Hp, Nat2Z.inj_succ. split; [|lia].
  unfold wrap64. rewrite Zplus_mod_idemp_l. f_equal. lia.
Qed.

(** A block hash commits to the whole chain below it. Two chains of the
    same length, each block of which passed [validate_against_parent], whose
    newest blocks have the same hash are equal header by header up to the
    committee signatures, unless two of their headers are a keccak collision.
    Along such a chain heights are consecutive (modulo 2^64) and timestamps
    strictly increase. *)
Theorem chain_determined_by_tip h1 c1 h2 c2 :
  Forall wf_header (h1 :: c1) → Forall wf_header (h2 :: c2) →
  valid_chain (h1 :: c1) → valid_chain (h2 :: c2) → length c1 = length c2 →
  hash h1 = hash h2 →
  (map unsigned (h1 :: c1) = map unsigned (h2 :: c2) ∨ collision (h1 :: c1) (h2 :: c2)) ∧
  (∀ i h, (h1 :: c1) !! i = Some h →
     number h1 = wrap64 (number h + Z.of_nat i) ∧ timestamp h + Z.of_nat i ≤ timestamp h1).
Proof.
  intros Hw1 Hw2 Hv1 Hv2 Hlen Heq. split; [by apply chains_agree|]. intros i h Hi; by apply (chain_positions h1 c1).
Qed.
End Chain.

(** ** Concrete blocks *)

Module Samples.
Import Votes.Toy.

Definition g : BlockHeader := header (genesis (Tx:=unit) (replicate 32 7) 1000).

(** A child of [p] with the given usage and base fee. *)
Definition child (p : BlockHeader) (used fee : Z) : BlockHeader :=
  let zero := replicate 32 0 in
  mkHeader (Block.hash p) zero (replicate 20 3) zero zero zero (replicate 256 0) 1 (number p + 1)
    BLOCK_GAS_LIMIT used (timestamp p + 2) [] zero 0 fee [9] 0 None.

Definition b1 : BlockHeader := child g 20000000 875000000.

Lemma wf_g : wf_header g.
Proof. split; vm_compute; try done; try (split; congruence). Qed.
Lemma wf_b1 : wf_header b1.
Proof. split; vm_compute; try done; try (split; congruence). Qed.

Lemma header_encoding_injective_witness :
  canonical_encode g = canonical_encode b1 ↔ unsigned g = unsigned b1.
Proof. apply (header_encoding_injective g b1); [exact wf_g | exact wf_b1]. Defined.

Lemma chain_determined_by_tip_witness :
  (map unsigned [b1; g] = map unsigned [b1; g] ∨ collision [b1; g] [b1; g]) ∧
  (∀ i h, [b1; g] !! i = Some h →
     number b1 = wrap64 (number h + Z.of_nat i) ∧ timestamp h + Z.of_nat i ≤ timestamp b1).
Proof.
  apply (chain_determined_by_tip b1 [g] b1 [g]); try reflexivity.
  - repeat constructor; apply wf_b1 || apply wf_g.
  - repeat constructor; apply wf_b1 || apply wf_g.
  - split; [vm_compute; reflexivity | exact I].
  - split; [vm_compute; reflexivity | exact I].
Defined.

(** The two base-fee formulas of the repository disagree. After a parent
    two thirds full, the fee market ([zbx_fee::next_base_fee]) asks for
    911 458 333 wei, and a header carrying that fee is rejected by
    [validate_against_parent], which expects the full one-eighth step. *)
Theorem market_fee_rejected :
  Fee.next_base_fee (base_fee_per_gas b1) (gas_used b1) (gas_limit b1) = Ok 911458333 ∧
  validate_against_parent (child b1 0 911458333) b1 = Err (BaseFeeMismatch 2 984375000 911458333) ∧
  validate_against_parent (child b1 0 984375000) b1 = Ok tt.
Proof. vm_compute. split_and!; reflexivity. Qed.
End Samples.
End Block.
