(* ===== verification/Safety.v ===== *)
(** * Safety rules: when a validator may vote

    Models [crates/zbx-consensus/src/safety_rules.rs]. The write-ahead file is
    the field [wal]: what the last successful [persist_state] wrote, when a path
    is configured. Whether the n-th write (serialisation, temporary file and
    rename together) succeeds is up to the environment, the field [disk]; a
    failed write is only logged. A restart is [new_with_persist] on that file,
    which may turn out to be unreadable. *)

From S2P Require Import Prelude.
From S2P Require Import EvmBase.
From S2P Require Import EvmHost.
From S2P Require Import Votes.
From Stdlib Require Import Sorting.Sorted.

Module Safety.
Import EvmHost Votes.

Record SafetyState := mkSafety {
  highest_vote_round : Z;
  locked_round : Z;
  locked_qc : option QuorumCertificate;
  s_epoch : Z;
  voted_phases : gset (Z * Z)
}.

Definition safety_default : SafetyState := mkSafety 0 0 None 0 ∅.

Record SafetyRules := mkRules {
  state : SafetyState;
  priv_key : bytes;
  pub_key : bytes;
  sr_address : address;
  persist : bool;              (* [persist_path.is_some()] *)
  wal : option SafetyState;
  disk : nat → bool;           (* the environment: does the n-th write succeed *)
  writes : nat                 (* writes attempted so far *)
}.

Definition set_state (r : SafetyRules) (s : SafetyState) : SafetyRules :=
  mkRules s (priv_key r) (pub_key r) (sr_address r) (persist r) (wal r) (disk r) (writes r).

Section Crypto.
Context `{Keccak} `{Bls}.

Definition rules_new (sk : bytes) (addr : address) : SafetyRules :=
  mkRules safety_default sk (to_pubkey sk) addr false None (fun _ => true) 0.

(** [file] is the content of the file, [None] if absent; the validator starts
    from the default state also when the file cannot be read or decoded
    ([readable] is false). [n] writes to it have been attempted before. *)
Definition new_with_persist (sk : bytes) (addr : address) (file : option SafetyState) (readable : bool)
    (io : nat → bool) (n : nat) : SafetyRules :=
  mkRules (default safety_default (if readable then file else None)) sk (to_pubkey sk) addr true file io n.

(** A failed write leaves the file as it was, and the caller does not learn. *)
Definition persist_state (r : SafetyRules) : SafetyRules :=
  if persist r
  then mkRules (state r) (priv_key r) (pub_key r) (sr_address r) (persist r)
         (if disk r (writes r) then Some (state r) else wal r) (disk r) (S (writes r))
  else r.

Definition vote (r : SafetyRules) (data : VoteData) (parent_qc : QuorumCertificate)
    : outcome ConsensusError Vote * SafetyRules :=
  let s := state r in
  if block_number data <? highest_vote_round s
  then (Err (StaleRound (block_number data) (highest_vote_round s)), r) else
  let phase_key := (block_number data, phase data) in
  if bool_decide (phase_key ∈ voted_phases s) then (Err DuplicateVote, r) else
  if qc_block_number parent_qc <? locked_round s then (Err SafetyViolation, r) else
  if negb (epoch data =? s_epoch s) && negb (s_epoch s =? 0) then (Err SafetyViolation, r) else
  let sig := sign (priv_key r) (vote_msg data) in
  let r1 := set_state r (mkSafety (block_number data) (locked_round s) (locked_qc s) (s_epoch s)
                           ({[phase_key]} ∪ voted_phases s)) in
  (Ok (mkVote data (sr_address r) sig), persist_state r1).

Definition update_locked_qc (r : SafetyRules) (qc : QuorumCertificate) : SafetyRules :=
  let s := state r in
  if locked_round s <? qc_block_number qc
  then set_state r (mkSafety (highest_vote_round s) (qc_block_number qc) (Some qc) (s_epoch s) (voted_phases s))
  else r.

Definition advance_epoch (r : SafetyRules) (new_epoch : Z) : SafetyRules :=
  let s := state r in
  if s_epoch s <? new_epoch
  then set_state r (mkSafety (highest_vote_round s) (locked_round s) (locked_qc s) new_epoch ∅)
  else r.

(** ** Runs of a validator *)

Inductive sr_op :=
| OpVote (data : VoteData) (parent_qc : QuorumCertificate)
| OpLock (qc : QuorumCertificate)
| OpEpoch (e : Z)
| OpRestart (readable : bool).

Definition sr_step (r : SafetyRules) (op : sr_op) : list Vote * SafetyRules :=
  match op with
  | OpVote d qc => match vote r d qc with (Ok v, r') => ([v], r') | (_, r') => ([], r') end
  | OpLock qc => ([], update_locked_qc r qc)
  | OpEpoch e => ([], advance_epoch r e)
  | OpRestart readable => ([], new_with_persist (priv_key r) (sr_address r) (wal r) readable (disk r) (writes r))
  end.

(** The votes cast along a sequence of operations, in order. *)
Fixpoint sr_run (r : SafetyRules) (ops : list sr_op) : list Vote * SafetyRules :=
  match ops with
  | [] => ([], r)
  | op :: rest =>
      let '(vs, r1) := sr_step r op in
      let '(vs', r2) := sr_run r1 rest in
      (vs ++ vs', r2)
  end.

Definition vote_key (v : Vote) : Z * Z := (block_number (v_data v), phase (v_data v)).

(** The file holds the state of the last vote: no write was attempted, or the
    last one succeeded. *)
Definition synced (r : SafetyRules) : Prop :=
  match writes r with O => True | S n => disk r n = true end.

(** The restarts of a run happen while the file is up to date, and read it. *)
Fixpoint restarts_synced (r : SafetyRules) (ops : list sr_op) : Prop :=
  match ops with
  | [] => True
  | op :: rest => (∀ readable, op = OpRestart readable → readable = true ∧ synced r) ∧ restarts_synced (sr_step r op).2 rest
  end.

Definition is_epoch_op (op : sr_op) : bool := match op with OpEpoch _ => true | _ => false end.

(** ** Invariant *)

(** The state remembers the votes [cast] so far, and so does the state a restart
    would load when the file is up to date. *)
Definition remembers (cast : list Vote) (s : SafetyState) : Prop :=
  ∀ v, v ∈ cast → vote_key v ∈ voted_phases s ∧ block_number (v_data v) ≤ highest_vote_round s.

Definition rules_inv (cast : list Vote) (r : SafetyRules) : Prop :=
  remembers cast (state r) ∧ persist r = true ∧ (synced r → remembers cast (default safety_default (wal r))).

Lemma vote_Ok r d qc v r' :
  vote r d qc = (Ok v, r') →
  v = mkVote d (sr_address r) (sign (priv_key r) (vote_msg d)) ∧
  (vote_key v ∉ voted_phases (state r)) ∧ highest_vote_round (state r) ≤ block_number d ∧
  locked_round (state r) ≤ qc_block_number qc ∧
  (s_epoch (state r) = 0 ∨ epoch d = s_epoch (state r)) ∧
  state r' = mkSafety (block_number d) (locked_round (state r)) (locked_qc (state r)) (s_epoch (state r))
               ({[vote_key v]} ∪ voted_phases (state r)) ∧
  (persist r = true → synced r' → wal r' = Some (state r')) ∧
  persist r' = persist r ∧ priv_key r' = priv_key r ∧ sr_address r' = sr_address r.
Proof.
  unfold vote. case_if; [done|]. case_bool_decide as Hk; [done|]. case_if; [done|].
  destruct (negb _ && _) eqn:He; [done|]. intros [= <- <-]. cbn.
  apply andb_false_iff in He. split; [done|]. split; [done|]. split; [done|]. split; [done|].
  split. { destruct He as [He|He]; apply negb_false_iff, Z.eqb_eq in He; auto. }
  unfold persist_state, synced. cbn. destruct (persist r) eqn:Hp; cbn; split_and!; try done.
  by intros _ ->.
Qed.

Lemma vote_Err r d qc : (∀ v, (vote r d qc).1 ≠ Ok v) → (vote r d qc).2 = r.
Proof. unfold vote. repeat case_match; try done. intros Hx. exfalso. by eapply Hx. Qed.

Lemma remembers_mono cast s s' :
  remembers cast s → voted_phases s ⊆ voted_phases s' → highest_vote_round s ≤ highest_vote_round s' →
  remembers cast s'.
Proof. intros Hr Hv Hh v Hin. destruct (Hr v Hin). split; [set_solver | lia]. Qed.

Lemma sr_step_inv cast r op vs r' :
  rules_inv cast r → is_epoch_op op = false → (∀ readable, op = OpRestart readable → readable = true ∧ synced r) → sr_step r op = (vs, r') →
  rules_inv (cast ++ vs) r' ∧
  (∀ v, v ∈ vs → (vote_key v ∉ vote_key <$> cast) ∧
                 (∀ v', v' ∈ cast → block_number (v_data v') ≤ block_number (v_data v))) ∧
  (length vs ≤ 1)%nat.
Proof.
  intros (Hs & Hp & Hw) Hop Hsy. destruct op as [d qc|qc|e|readable]; cbn; try done.
  - destruct (vote r d qc) as [[v|e|] r1] eqn:Hv; intros [= <- <-].
    + apply vote_Ok in Hv as (Hve & Hk & Hh & _ & _ & Hst & Hwal & Hpe & _).
      assert (Hrem : remembers (cast ++ [v]) (state r1)).
      { rewrite Hst. intros v' [Hin|Hin]%elem_of_app.
        - destruct (Hs v' Hin). split; cbn; [set_solver|lia].
        - apply list_elem_of_singleton in Hin as ->. split; cbn; [set_solver|]. by rewrite Hve. }
      split; [|split; [|cbn; lia]].
      * split; [done|]. split; [congruence|]. intros Hsy'. by rewrite (Hwal Hp Hsy').
      * intros v' Hin%list_elem_of_singleton. subst v'. split.
        -- intros (v' & Heq & Hin)%list_elem_of_fmap. destruct (Hs v' Hin). congruence.
        -- intros v' Hin. destruct (Hs v' Hin). rewrite Hve. cbn. lia.
    + assert (Hr : (vote r d qc).2 = r) by (apply vote_Err; intros ?; by rewrite Hv).
      rewrite Hv in Hr. cbn in Hr. subst r1. rewrite app_nil_r.
      split; [done|]. split; [intros ? []%not_elem_of_nil|cbn; lia].
    + unfold vote in Hv. by repeat case_match.
  - intros [= <- <-]. rewrite app_nil_r. split; [|split; [intros ? []%not_elem_of_nil|cbn; lia]].
    unfold update_locked_qc. case_match; [|done].
    split; [|done]. eapply remembers_mono; [exact Hs|done|done].
  - intros [= <- <-]. rewrite app_nil_r. split; [|split; [intros ? []%not_elem_of_nil|cbn; lia]].
    destruct (Hsy readable eq_refl) as [-> Hsy']. split; [by apply Hw|done].
Qed.

Lemma sr_run_inv ops cast r vs r' :
  rules_inv cast r → forallb (fun op => negb (is_epoch_op op)) ops = true → restarts_synced r ops →
  sr_run r ops = (vs, r') → NoDup (vote_key <$> cast) →
  StronglySorted Z.le ((fun v => block_number (v_data v)) <$> cast) →
  rules_inv (cast ++ vs) r' ∧ NoDup (vote_key <$> cast ++ vs) ∧
  StronglySorted Z.le ((fun v => block_number (v_data v)) <$> cast ++ vs).
Proof.
  revert cast r vs. induction ops as [|op ops IH]; intros cast r vs Hi Hops Hsy; cbn.
  { intros [= <- <-]. by rewrite app_nil_r. }
  cbn in Hops. apply andb_true_iff in Hops as [Hop Hops]. apply negb_true_iff in Hop.
  cbn in Hsy. destruct Hsy as [Hsy Hsys]. destruct (sr_step r op) as [vs1 r1] eqn:Hst. destruct (sr_run r1 ops) as [vs2 r2] eqn:Hrun.
  intros [= <- <-] Hnd Hsort. rewrite app_assoc.
  destruct (sr_step_inv cast r op vs1 r1 Hi Hop Hsy Hst) as (Hi1 & Hnew & Hlen).
  eapply IH; [exact Hi1|done|exact Hsys|exact Hrun| |]; destruct vs1 as [|v [|? ?]]; cbn in Hlen; try lia.
  - by rewrite app_nil_r.
  - rewrite fmap_app. apply NoDup_app. split; [done|]. split; [|apply NoDup_singleton].
    destruct (Hnew v) as [Hk _]; [by constructor|]. intros k Hin Hin'.
    apply list_elem_of_singleton in Hin' as ->. done.
  - by rewrite app_nil_r.
  - rewrite fmap_app. cbn. destruct (Hnew v) as [_ Hle]; [by constructor|].
    clear -Hsort Hle. induction cast as [|c cast IH]; cbn in *; [repeat constructor|].
    inversion Hsort; subst. constructor; [apply IH; [done|]; intros; apply Hle; by constructor|].
    apply Forall_app. split; [done|]. repeat constructor. apply Hle. by constructor.
Qed.

(** C8: an honest validator does not double-vote. Whatever proposals,
    certificates and restarts it goes through without an epoch change, and
    whichever writes of its state file fail, a validator with a write-ahead file
    casts at most one vote per (block number, phase), in non-decreasing block
    order, provided each restart finds the file readable and its last write
    successful ([failed_write_double_votes] and [lost_file_double_votes] show
    that this proviso is needed). In particular it never double-votes while its
    process lives. *)
Theorem no_double_vote sk addr io ops vs r' :
  forallb (fun op => negb (is_epoch_op op)) ops = true →
  restarts_synced (new_with_persist sk addr None true io 0) ops →
  sr_run (new_with_persist sk addr None true io 0) ops = (vs, r') →
  NoDup (vote_key <$> vs) ∧ StronglySorted Z.le ((fun v => block_number (v_data v)) <$> vs).
Proof.
  intros Hops Hsy Hrun.
  destruct (sr_run_inv ops [] (new_with_persist sk addr None true io 0) vs r') as (_ & ? & ?);
    [|done|done|done|constructor|constructor|done].
  split; [intros ? []%not_elem_of_nil|]. split; [done|intros _ ? []%not_elem_of_nil].
Qed.

(** Locks only move forward. Without a restart, the locked round, the
    highest voted round and the epoch never decrease, and every vote cast was
    for a proposal whose parent certificate is at least as recent as the
    validator's lock at that moment. *)
Theorem safety_state_monotone r op vs r' :
  (∀ readable, op ≠ OpRestart readable) → sr_step r op = (vs, r') →
  locked_round (state r) ≤ locked_round (state r') ∧
  highest_vote_round (state r) ≤ highest_vote_round (state r') ∧
  s_epoch (state r) ≤ s_epoch (state r') ∧
  (∀ d qc, op = OpVote d qc → vs ≠ [] → locked_round (state r) ≤ qc_block_number qc).
Proof.
  intros Hop. destruct op as [d qc|qc|e|readable]; cbn; try done.
  - destruct (vote r d qc) as [[v|e|] r1] eqn:Hv; intros [= <- <-].
    + apply vote_Ok in Hv as (_ & _ & Hh & Hl & _ & -> & _). cbn. split_and!; try lia.
      by intros ? ? [= <- <-].
    + assert (Hr : (vote r d qc).2 = r) by (apply vote_Err; intros ?; by rewrite Hv).
      rewrite Hv in Hr. cbn in Hr. subst r1. split_and!; try lia. done.
    + unfold vote in Hv. by repeat case_match.
  - intros [= <- <-]. unfold update_locked_qc. case_if; cbn; split_and!; try lia; done.
  - intros [= <- <-]. unfold advance_epoch. case_if; cbn; split_and!; try lia; done.
  - by destruct (Hop readable).
Qed.
End Crypto.

(** ** Concrete runs *)

Module Runs.
Import Votes.Toy.

Definition me : address := replicate 20 1.
Definition qc0 : QuorumCertificate := mkQC (mkVoteData (replicate 32 0) 4 0 1) [] [] [].
Definition prop (h ep : Z) : VoteData := mkVoteData (replicate 32 h) 5 0 ep.

(** A disk whose first write fails and whose later writes succeed. *)
Definition flaky (n : nat) : bool := negb (n =? 0)%nat.

Lemma no_double_vote_witness :
  let r := new_with_persist [1] me None true flaky 0 in
  let ops := [OpVote (prop 7 0) qc0; OpVote (mkVoteData (replicate 32 7) 5 1 0) qc0; OpRestart true;
              OpVote (prop 8 0) qc0; OpVote (mkVoteData (replicate 32 7) 5 2 0) qc0] in
  NoDup (vote_key <$> (sr_run r ops).1) ∧
  StronglySorted Z.le ((fun v => block_number (v_data v)) <$> (sr_run r ops).1).
Proof.
  intros r ops.
  apply (no_double_vote [1] me flaky ops (sr_run r ops).1 (sr_run r ops).2);
    [reflexivity | vm_compute; split_and!; try done; intros rd [= <-]; done | apply surjective_pairing].
Defined.

(** The proviso of [no_double_vote] is needed: [vote] returns the vote although
    the write of its state has failed, and after a restart the validator votes
    for another block of the same height and phase; the two votes are slashable
    evidence. *)
Theorem failed_write_double_votes :
  let '(vs, _) := sr_run (new_with_persist [1] me None true flaky 0) [OpVote (prop 7 0) qc0; OpRestart true; OpVote (prop 8 0) qc0] in
  match vs with
  | [va; vb] => vote_key va = vote_key vb ∧ block_hash (v_data va) ≠ block_hash (v_data vb) ∧
                ev_verify (mkEvidence me 5 0 va vb [1]) = true
  | _ => False
  end.
Proof. vm_compute. split; [reflexivity|]. split; [discriminate|reflexivity]. Qed.

(** And so does a restart that cannot read the file. *)
Theorem lost_file_double_votes :
  let '(vs, _) := sr_run (new_with_persist [1] me None true (fun _ => true) 0)
                    [OpVote (prop 7 0) qc0; OpRestart false; OpVote (prop 8 0) qc0] in
  match vs with
  | [va; vb] => vote_key va = vote_key vb ∧ block_hash (v_data va) ≠ block_hash (v_data vb) ∧
                ev_verify (mkEvidence me 5 0 va vb [1]) = true
  | _ => False
  end.
Proof. vm_compute. split; [reflexivity|]. split; [discriminate|reflexivity]. Qed.

Lemma safety_state_monotone_witness :
  let r := new_with_persist [1] me None true (fun _ => true) 0 in
  let r' := (sr_step r (OpVote (prop 7 0) qc0)).2 in
  locked_round (state r) ≤ locked_round (state r') ∧
  highest_vote_round (state r) ≤ highest_vote_round (state r') ∧
  s_epoch (state r) ≤ s_epoch (state r') ∧
  (∀ d qc, OpVote (prop 7 0) qc0 = OpVote d qc → (sr_step r (OpVote (prop 7 0) qc0)).1 ≠ [] →
     locked_round (state r) ≤ qc_block_number qc).
Proof.
  intros r r'.
  apply (safety_state_monotone r (OpVote (prop 7 0) qc0) (sr_step r (OpVote (prop 7 0) qc0)).1 r');
    [discriminate | apply surjective_pairing].
Defined.

(** An epoch change makes an honest validator equivocate. [advance_epoch]
    empties [voted_phases] while the round check is not strict, so a validator
    that voted for block 5 in epoch 1 votes again for another block 5 in epoch
    2; [EquivocationEvidence::verify], which does not compare epochs, accepts
    the two honest votes as slashable evidence. *)
Theorem epoch_advance_allows_equivocation :
  let r0 := advance_epoch (new_with_persist [1] me None true (fun _ => true) 0) 1 in
  let '(vs, _) := sr_run r0 [OpVote (prop 7 1) qc0; OpEpoch 2; OpVote (prop 8 2) qc0] in
  match vs with
  | [va; vb] => vote_key va = vote_key vb ∧ block_hash (v_data va) ≠ block_hash (v_data vb) ∧
                ev_verify (mkEvidence me 5 0 va vb [1]) = true
  | _ => False
  end.
Proof. vm_compute. split; [reflexivity|]. split; [discriminate|reflexivity]. Qed.

(** A restart restores the lock of the last vote, not of the last
    certificate: [update_locked_qc] does not write the file. *)
Example restart_forgets_lock :
  let r := update_locked_qc (vote (new_with_persist [1] me None true (fun _ => true) 0) (prop 7 0) qc0).2
             (mkQC (mkVoteData (replicate 32 7) 5 0 0) [] [] []) in
  locked_round (state r) = 5 ∧ locked_round (state (sr_step r (OpRestart true)).2) = 0.
Proof. split; reflexivity. Qed.
End Runs.
End Safety.
