(* ===== verification/Liveness.v ===== *)
(** * Pacemaker: round timers, back-off and timeout certificates

    Models [crates/zbx-consensus/src/liveness.rs] and [pacemaker.rs]. A
    [Duration] or [Instant] is a number of nanoseconds; [Instant::now()] is the
    argument [now]. Log output is left out. *)

From S2P Require Import Prelude.
From S2P Require Import EvmBase.
From S2P Require Import EvmHost.
From S2P Require Import Votes.

Module Liveness.
Import EvmHost Votes.

(** ** liveness.rs *)

Definition U32 : Z := 2 ^ 32.
Definition NS_PER_MS : Z := 1000000.

Record PacemakerConfig := mkConfig {
  base_timeout : Z;
  backoff_num : Z;
  backoff_den : Z;
  max_timeout : Z
}.

Definition config_default : PacemakerConfig := mkConfig 2000000000 3 2 30000000000.

Record RoundState := mkRound {
  r_round : Z;
  r_epoch : Z;
  started_at : Z;
  timeout : Z;
  consecutive_timeouts : Z
}.

Definition round_new (round ep tmo now : Z) : RoundState := mkRound round ep now tmo 0.

(** [elapsed] saturates at zero. *)
Definition round_timed_out (s : RoundState) (now : Z) : bool :=
  timeout s <=? saturating_sub now (started_at s).

Record Pacemaker := mkPace {
  config : PacemakerConfig;
  current : RoundState
}.

Definition pace_new (c : PacemakerConfig) (now : Z) : Pacemaker :=
  mkPace c (round_new 1 1 (base_timeout c) now).

Definition current_round (p : Pacemaker) : Z := r_round (current p).
Definition current_epoch (p : Pacemaker) : Z := r_epoch (current p).

Definition advance_round (p : Pacemaker) (new_round ep now : Z) : Pacemaker :=
  if new_round <=? r_round (current p) then p
  else mkPace (config p) (round_new new_round ep (base_timeout (config p)) now).

Definition is_timed_out (p : Pacemaker) (now : Z) : bool := round_timed_out (current p) now.

Definition start_round (p : Pacemaker) (round ep now : Z) : Pacemaker :=
  mkPace (config p) (round_new round ep (base_timeout (config p)) now).

(** One turn of the fold: [acc?.checked_mul(num)?.checked_div(den)]. *)
Definition backoff_step (num den : Z) (acc : option Z) : option Z :=
  match acc with
  | Some ms => match checked_mul64 ms num with
               | Some x => checked_div64 x den
               | None => None
               end
  | None => None
  end.

Definition backoff_ms (base_ms num den : Z) (consecutive : nat) : option Z :=
  Nat.iter consecutive (backoff_step num den) (Some base_ms).

Definition new_timeout (c : PacemakerConfig) (consecutive : Z) : Z :=
  let base_ms := wrap64 (base_timeout c / NS_PER_MS) in
  let den := Z.max (backoff_den c) 1 in
  let num := backoff_num c in
  Z.min (match backoff_ms base_ms num den (Z.to_nat consecutive) with
         | Some ms => ms * NS_PER_MS
         | None => max_timeout c
         end) (max_timeout c).

Definition pace_on_timeout (p : Pacemaker) (now : Z) : Z * Pacemaker :=
  let timed_out_round := r_round (current p) in
  let consecutive := (consecutive_timeouts (current p) + 1) mod U32 in
  (timed_out_round,
   mkPace (config p)
     (mkRound (wrap64 (r_round (current p) + 1)) (r_epoch (current p)) now
        (new_timeout (config p) consecutive) consecutive)).

(** ** pacemaker.rs *)

Record TimeoutShareData := mkShareData {
  sd_round : Z;
  sd_epoch : Z;
  sd_high_qc_round : Z
}.

Record TimeoutShare := mkShare {
  ts_data : TimeoutShareData;
  ts_validator : address;
  ts_pubkey : bytes;
  ts_signature : bytes
}.

Record TimeoutCertificate := mkTC {
  tc_round : Z;
  tc_epoch : Z;
  tc_high_qc_round : Z;
  tc_agg_signature : bytes;
  tc_signers : list address
}.

Definition share_signing_bytes (d : TimeoutShareData) : bytes :=
  to_be 8 (sd_round d) ++ to_be 8 (sd_epoch d) ++ to_be 8 (sd_high_qc_round d).

Definition next_round (tc : TimeoutCertificate) : Z := wrap64 (tc_round tc + 1).

Section Crypto.
Context `{Keccak} `{Bls}.

Definition share_msg (d : TimeoutShareData) : bytes := keccak256 (share_signing_bytes d).

Record TcAccumulator := mkTcAcc {
  ta_round : Z;
  ta_epoch : Z;
  ta_quorum : nat;
  ta_shares : gmap (list Z) TimeoutShare
}.

Definition tc_acc_new (round ep : Z) (quorum : nat) : TcAccumulator := mkTcAcc round ep quorum ∅.

Definition zero_sig : bytes := replicate 96 0.

Definition tc_insert (a : TcAccumulator) (share : TimeoutShare)
    : option TimeoutCertificate * TcAccumulator :=
  if negb (sd_round (ts_data share) =? ta_round a) || negb (sd_epoch (ts_data share) =? ta_epoch a)
  then (None, a) else
  if bool_decide (is_Some (ta_shares a !! ts_validator share)) then (None, a) else
  if negb (verify_single (ts_signature share) (ts_pubkey share) (share_msg (ts_data share)))
  then (None, a) else
  let shares := <[ts_validator share := share]> (ta_shares a) in
  let a' := mkTcAcc (ta_round a) (ta_epoch a) (ta_quorum a) shares in
  if (size shares <? ta_quorum a)%nat then (None, a') else
  let l := map_to_list shares in
  let high_qc_round := fold_left (fun m s => Z.max m (sd_high_qc_round (ts_data s.2))) l 0 in
  let agg := default zero_sig (aggregate_signatures (map (fun s => ts_signature s.2) l)) in
  (Some (mkTC (ta_round a) (ta_epoch a) high_qc_round agg (map fst l)), a').

Inductive CoordinatorEvent :=
| BroadcastTimeout (s : TimeoutShare)
| NewTc (tc : TimeoutCertificate)
| NewRound (round : Z)
| Noop.

Record PacemakerCoordinator := mkCoord {
  inner : Pacemaker;
  c_round : Z;
  c_epoch : Z;
  self_addr : address;
  bls_key : bytes;
  bls_pubkey : bytes;
  c_quorum : nat;
  high_qc_round : Z;
  tc_accumulators : gmap Z TcAccumulator;
  delta_ms : Z;
  delta_min_ms : Z;
  delta_max_ms : Z
}.

Definition coord_quorum (n : Z) : Z := let f := wrap64 (n - 1) / 3 in wrap64 (2 * f + 1).

Definition coord_new (addr : address) (sk : bytes) (n round ep : Z) (c : PacemakerConfig) (now : Z)
    : PacemakerCoordinator :=
  mkCoord (pace_new c now) round ep addr sk (to_pubkey sk) (Z.to_nat (coord_quorum n)) 0 ∅
    2000 500 30000.

Definition build_timeout_share (c : PacemakerCoordinator) : TimeoutShare :=
  let data := mkShareData (c_round c) (c_epoch c) (high_qc_round c) in
  mkShare data (self_addr c) (bls_pubkey c) (sign (bls_key c) (share_msg data)).

Definition tick (c : PacemakerCoordinator) (now : Z) : CoordinatorEvent :=
  if is_timed_out (inner c) now then BroadcastTimeout (build_timeout_share c) else Noop.

Definition set_delta (c : PacemakerCoordinator) (d : Z) : PacemakerCoordinator :=
  mkCoord (inner c) (c_round c) (c_epoch c) (self_addr c) (bls_key c) (bls_pubkey c) (c_quorum c)
    (high_qc_round c) (tc_accumulators c) d (delta_min_ms c) (delta_max_ms c).
Definition set_accs (c : PacemakerCoordinator) (a : gmap Z TcAccumulator) : PacemakerCoordinator :=
  mkCoord (inner c) (c_round c) (c_epoch c) (self_addr c) (bls_key c) (bls_pubkey c) (c_quorum c)
    (high_qc_round c) a (delta_ms c) (delta_min_ms c) (delta_max_ms c).
Definition set_high_qc (c : PacemakerCoordinator) (r : Z) : PacemakerCoordinator :=
  mkCoord (inner c) (c_round c) (c_epoch c) (self_addr c) (bls_key c) (bls_pubkey c) (c_quorum c)
    r (tc_accumulators c) (delta_ms c) (delta_min_ms c) (delta_max_ms c).

Definition advance_to_round (c : PacemakerCoordinator) (round now : Z) : PacemakerCoordinator :=
  if c_round c <? round
  then mkCoord (start_round (inner c) round (c_epoch c) now) round (c_epoch c) (self_addr c) (bls_key c)
         (bls_pubkey c) (c_quorum c) (high_qc_round c) (tc_accumulators c) (delta_ms c)
         (delta_min_ms c) (delta_max_ms c)
  else c.

Definition adapt_delta (c : PacemakerCoordinator) (success : bool) : PacemakerCoordinator :=
  if success then set_delta c (Z.max (wrap64 (delta_ms c * 7) / 8) (delta_min_ms c))
  else set_delta c (Z.min (saturating_mul64 (delta_ms c) 3 / 2) (delta_max_ms c)).

Definition coord_on_qc (c : PacemakerCoordinator) (qc : QuorumCertificate) (now : Z)
    : CoordinatorEvent * PacemakerCoordinator :=
  let qc_round := qc_block_number qc in
  if c_round c <=? qc_round then
    let c1 := set_high_qc c (Z.max (high_qc_round c) qc_round) in
    let next := wrap64 (qc_round + 1) in
    let c2 := advance_to_round c1 next now in
    (NewRound next, adapt_delta c2 true)
  else (Noop, c).

Definition on_timeout_share (c : PacemakerCoordinator) (share : TimeoutShare) (now : Z)
    : outcome ConsensusError CoordinatorEvent * PacemakerCoordinator :=
  if negb (sd_epoch (ts_data share) =? c_epoch c)
  then (Err (InvalidEpoch (c_epoch c) (sd_epoch (ts_data share))), c) else
  let round := sd_round (ts_data share) in
  let acc := default (tc_acc_new round (c_epoch c) (c_quorum c)) (tc_accumulators c !! round) in
  let '(r, acc') := tc_insert acc share in
  let c1 := set_accs c (<[round := acc']> (tc_accumulators c)) in
  match r with
  | Some tc =>
      let c2 := set_accs c1 (filter (fun x => round ≤ x.1) (tc_accumulators c1)) in
      let c3 := adapt_delta c2 false in
      (Ok (NewTc tc), advance_to_round c3 (next_round tc) now)
  | None => (Ok Noop, c1)
  end.

(** ** Back-off *)

Lemma backoff_step_grows num den ms x :
  0 ≤ ms → 1 ≤ den ≤ num → backoff_step num den (Some ms) = Some x → ms ≤ x.
Proof.
  intros Hms Hd. unfold backoff_step, checked_mul64, checked_div64. case_if; [|done].
  case_if; [lia|]. intros [= <-]. apply Z.div_le_lower_bound; nia.
Qed.

Lemma backoff_S base num den k :
  backoff_ms base num den (S k) = backoff_step num den (backoff_ms base num den k).
Proof. reflexivity. Qed.

Lemma backoff_nonneg base num den k x :
  0 ≤ base → 1 ≤ den ≤ num → backoff_ms base num den k = Some x → base ≤ x.
Proof.
  intros Hb Hd. revert x. induction k as [|k IH]; intros x; [by intros [= <-]|].
  rewrite backoff_S. destruct (backoff_ms base num den k) as [y|]; [|done]. intros Hx. specialize (IH y eq_refl). apply backoff_step_grows in Hx; lia.
Qed.

(** The back-off is sound. For every ratio of at least one, the timeout
    never exceeds the configured maximum, never shrinks while timeouts repeat
    (overflow of the integer computation included) and, as long as the exact
    value fits, equals the documented [base * num^k / den^k] computed with one
    truncation per step. *)
Theorem backoff_sound c k :
  0 ≤ base_timeout c → 1 ≤ backoff_den c ≤ backoff_num c → 0 ≤ k →
  new_timeout c k ≤ max_timeout c ∧ new_timeout c k ≤ new_timeout c (k + 1) ∧
  ∀ ms, backoff_ms (wrap64 (base_timeout c / NS_PER_MS)) (backoff_num c) (backoff_den c) (Z.to_nat k) = Some ms →
    new_timeout c k = Z.min (ms * NS_PER_MS) (max_timeout c) ∧ wrap64 (base_timeout c / NS_PER_MS) ≤ ms.
Proof.
  intros Hb Hd Hk. unfold new_timeout. rewrite Z.max_l by lia.
  set (base := wrap64 _). assert (Hbase : 0 ≤ base) by (apply Z.mod_pos_bound; lia).
  split; [lia|]. split.
  - replace (Z.to_nat (k + 1)) with (S (Z.to_nat k)) by lia. rewrite backoff_S.
    destruct (backoff_ms base _ _ (Z.to_nat k)) as [x|] eqn:Hx; [|done].
    pose proof (backoff_nonneg _ _ _ _ _ Hbase Hd Hx).
    destruct (backoff_step _ _ (Some x)) as [y|] eqn:Hy; [|lia].
    apply backoff_step_grows in Hy; unfold NS_PER_MS in *; lia.
  - intros ms Hms. rewrite Hms. split; [done|]. by eapply backoff_nonneg.
Qed.

(** ** The coordinator *)

Inductive co_op :=
| CoQc (qc : QuorumCertificate) (now : Z)
| CoShare (s : TimeoutShare) (now : Z).

Definition co_step (c : PacemakerCoordinator) (op : co_op) : PacemakerCoordinator :=
  match op with
  | CoQc qc now => (coord_on_qc c qc now).2
  | CoShare s now => (on_timeout_share c s now).2
  end.

Definition delta_ok (c : PacemakerCoordinator) : Prop :=
  0 ≤ delta_min_ms c ≤ delta_ms c ∧ delta_ms c ≤ delta_max_ms c < 2 ^ 60.

Lemma advance_facts c r now :
  let c' := advance_to_round c r now in
  c_round c ≤ c_round c' ∧ delta_ms c' = delta_ms c ∧ delta_min_ms c' = delta_min_ms c ∧
  delta_max_ms c' = delta_max_ms c.
Proof. cbv zeta. unfold advance_to_round. case_if; cbn; lia. Qed.

Lemma adapt_ok c b : delta_ok c → delta_ok (adapt_delta c b) ∧ c_round (adapt_delta c b) = c_round c.
Proof.
  intros [[Hm Hl] [Hu Hb]]. unfold delta_ok, adapt_delta. destruct b; cbn; (split; [|done]).
  - unfold wrap64. rewrite Z.mod_small by lia.
    assert (delta_ms c * 7 / 8 ≤ delta_ms c) by (apply Z.div_le_upper_bound; lia). lia.
  - unfold saturating_mul64, U64_MAX. rewrite (Z.min_l (delta_ms c * 3)) by lia.
    assert (delta_ms c ≤ delta_ms c * 3 / 2) by (apply Z.div_le_lower_bound; lia). lia.
Qed.

Lemma delta_ok_ext c c' :
  delta_ms c' = delta_ms c → delta_min_ms c' = delta_min_ms c → delta_max_ms c' = delta_max_ms c →
  delta_ok c → delta_ok c'.
Proof. unfold delta_ok. intros -> -> ->. done. Qed.

Lemma co_step_ok c op : delta_ok c → delta_ok (co_step c op) ∧ c_round c ≤ c_round (co_step c op).
Proof.
  intros Hd. destruct op as [qc now|s now]; cbn.
  - unfold coord_on_qc. case_if; [|cbn; split; [done|lia]]. cbn [snd].
    set (c1 := set_high_qc _ _). destruct (advance_facts c1 (wrap64 (qc_block_number qc + 1)) now) as (Ha1&Ha2&Ha3&Ha4).
    destruct (adapt_ok (advance_to_round c1 (wrap64 (qc_block_number qc + 1)) now) true) as [Ha ->];
      [by eapply delta_ok_ext; [..|exact Hd]|]. split; [done|]. subst c1. cbn in *. lia.
  - unfold on_timeout_share. case_match; [cbn; split; [done|lia]|].
    destruct (tc_insert _ _) as [[tc|] acc']; cbn [snd].
    + set (c2 := set_accs (set_accs _ _) _).
      destruct (adapt_ok c2 false) as [Ha Hr]; [by eapply delta_ok_ext; [..|exact Hd]|].
      destruct (advance_facts (adapt_delta c2 false) (next_round tc) now) as (Ha1&Ha2&Ha3&Ha4).
      split; [by eapply delta_ok_ext; [..|exact Ha]|]. subst c2. cbn in *. lia.
    + split; [by eapply delta_ok_ext; [..|exact Hd]|cbn; lia].
Qed.

(** The coordinator's round never moves backwards and its adaptive delta
    stays within [500 ms, 30 s], through any sequence of certificates and
    timeout shares. *)
Theorem coordinator_monotone addr sk n round ep cfg now ops1 ops2 :
  let run := fold_left co_step in
  let c1 := run ops1 (coord_new addr sk n round ep cfg now) in
  let c2 := run ops2 c1 in
  c_round c1 ≤ c_round c2 ∧ 500 ≤ delta_ms c2 ≤ 30000.
Proof.
  cbv zeta.
  assert (Hgen : ∀ ops c, delta_ok c → delta_ok (fold_left co_step ops c) ∧ c_round c ≤ c_round (fold_left co_step ops c) ∧
    delta_min_ms (fold_left co_step ops c) = delta_min_ms c ∧ delta_max_ms (fold_left co_step ops c) = delta_max_ms c).
  { induction ops as [|op ops IH]; intros c Hc; cbn; [split_and!; done || lia|].
    destruct (co_step_ok c op Hc) as [Hc' Hle]. destruct (IH _ Hc') as (?&?&Hm&Hx).
    assert (delta_min_ms (co_step c op) = delta_min_ms c ∧ delta_max_ms (co_step c op) = delta_max_ms c) as [Em Ex].
    { destruct op as [qc t|s t]; cbn; unfold coord_on_qc, on_timeout_share, advance_to_round, adapt_delta;
        repeat case_match; done. }
    split_and!; [done|lia|congruence|congruence]. }
  assert (H0' : delta_ok (coord_new addr sk n round ep cfg now)) by (unfold delta_ok; cbn; lia).
  destruct (Hgen ops1 _ H0') as (Hc1 & _ & Hm1 & Hx1). destruct (Hgen ops2 _ Hc1) as (Hc2 & Hle & Hm2 & Hx2).
  cbn in Hm1, Hx1. destruct Hc2. lia.
Qed.
End Crypto.

Lemma backoff_sound_witness :
  new_timeout config_default 3 ≤ max_timeout config_default ∧
  new_timeout config_default 3 ≤ new_timeout config_default (3 + 1) ∧
  ∀ ms, backoff_ms (wrap64 (2000000000 / NS_PER_MS)) 3 2 3 = Some ms →
    new_timeout config_default 3 = Z.min (ms * NS_PER_MS) (max_timeout config_default) ∧
    wrap64 (2000000000 / NS_PER_MS) ≤ ms.
Proof. apply (backoff_sound config_default 3); cbn; lia. Defined.

Module Forged.
Import Votes.Toy.

(** A timeout certificate does not prove that validators timed out. A
    share is checked against the key it carries itself, and nothing compares
    its address with the validator set, so three invented identities suffice
    to form a certificate for a four-validator committee and move the round. *)
Theorem timeout_certificate_forged :
  let mallory (i : Z) :=
    let d := mkShareData 10 1 0 in
    mkShare d (replicate 20 i) [i] (sign [i] (share_msg d)) in
  let c0 := coord_new (replicate 20 1) [1] 4 1 1 config_default 0 in
  let c3 := fold_left (fun c i => (on_timeout_share c (mallory i) 0).2) [201; 202; 203] c0 in
  c_round c0 = 1 ∧ c_round c3 = 11.
Proof. split; vm_compute; reflexivity. Qed.
End Forged.

(** The quorum of the coordinator for three validators is one share, where
    the documentation gives [floor(2n/3) + 1 = 3]. *)
Example coord_quorum_three : coord_quorum 3 = 1 ∧ 2 * 3 / 3 + 1 = 3.
Proof. split; reflexivity. Qed.
End Liveness.
