(* ===== verification/Proposer.v ===== *)
(** * Proposer and committee election

    Models [crates/zbx-consensus/src/proposer.rs]: keccak-seeded leader
    election and the partial Fisher-Yates shuffle of [elect_committee]. *)

From S2P Require Import Prelude.
From S2P Require Import U256.
From S2P Require Import EvmBase.
From S2P Require Import EvmHost.
From S2P Require Import Votes.

Module Proposer.
Import U256 EvmHost.

Section Election.
Context `{Keccak}.

Record ProposerElection := mkElection { pe_validators : list address }.

Definition update_validators (_ : ProposerElection) (vs : list address) : ProposerElection := mkElection vs.

(** [u64::from_be_bytes(hash[..8]) % pool_size] *)
Definition hash_index (input : bytes) (pool_size : nat) : nat :=
  Z.to_nat (be_val (take 8 (keccak256 input)) mod Z.of_nat pool_size).

Definition vrf_index (seed : bytes) (round : Z) (pool_size : nat) : nat :=
  hash_index (seed ++ to_be 8 round) pool_size.

Definition elect (pe : ProposerElection) (round : Z) (qc_block_hash : bytes) : option address :=
  match pe_validators pe with
  | [] => None
  | vs => vs !! vrf_index qc_block_hash round (length vs)
  end.

Definition is_proposer (pe : ProposerElection) (addr : address) (round : Z) (h : bytes) : bool :=
  match elect pe round h with Some p => bool_decide (p = addr) | None => false end.

(** [indices.swap(i, j)] *)
Definition swap (l : list nat) (i j : nat) : list nat :=
  match l !! i, l !! j with
  | Some x, Some y => <[i := y]> (<[j := x]> l)
  | _, _ => l
  end.

(** The draws [i, i+1, ..., i+k-1]. *)
Fixpoint draws (vs : list address) (round : Z) (epoch_hash : bytes) (k i : nat) (indices : list nat)
    : list address :=
  match k with
  | O => []
  | S k =>
      let pool_size := (length vs - i)%nat in
      let pick := hash_index (epoch_hash ++ to_be 8 round ++ to_be 8 (Z.of_nat i)) pool_size in
      default [] (vs !! default O (indices !! (i + pick)%nat)) ::
      draws vs round epoch_hash k (S i) (swap indices i (i + pick))
  end.

Definition elect_committee (pe : ProposerElection) (round : Z) (epoch_hash : bytes) (size : nat) : list address :=
  let vs := pe_validators pe in
  let n := length vs in
  if (n =? 0)%nat || (size =? 0)%nat then [] else
  if (n <=? size)%nat then vs else
  draws vs round epoch_hash size 0 (seq 0 n).

Definition elect_batch (pe : ProposerElection) (rounds : list Z) (h : bytes) : list (Z * option address) :=
  map (fun r => (r, elect pe r h)) rounds.

(** The range [start..start + count], whose end wraps at the word size. *)
Definition lookahead (pe : ProposerElection) (start : Z) (count : nat) (h : bytes) : list (Z * address) :=
  if bool_decide (pe_validators pe = []) then [] else
  omap (fun r => (fun p => (r, p)) <$> elect pe r h)
    (map (fun i => start + Z.of_nat i)
       (seq 0 (Z.to_nat (wrap64 (start + Z.of_nat count) - start)))).

(** ** Lemmas *)

Lemma hash_index_lt input n : (0 < n)%nat → (hash_index input n < n)%nat.
Proof.
  intros Hn. unfold hash_index. pose proof (Z.mod_pos_bound (be_val (take 8 (keccak256 input))) (Z.of_nat n)). lia.
Qed.

Lemma elect_some pe r h : pe_validators pe ≠ [] → ∃ p, elect pe r h = Some p ∧ p ∈ pe_validators pe.
Proof.
  intros Hne. unfold elect. destruct (pe_validators pe) as [|v vs] eqn:E; [done|].
  destruct (lookup_lt_is_Some_2 (v :: vs) (vrf_index h r (length (v :: vs)))) as [p Hp].
  { apply hash_index_lt. cbn. lia. }
  exists p. split; [done|]. by eapply list_elem_of_lookup_2.
Qed.

Lemma lookup_swap l i j a x y :
  l !! i = Some x → l !! j = Some y →
  swap l i j !! a = if decide (a = i) then Some y else if decide (a = j) then Some x else l !! a.
Proof.
  intros Hi Hj. unfold swap. rewrite Hi, Hj. apply lookup_lt_Some in Hi as Hli. apply lookup_lt_Some in Hj as Hlj.
  destruct (decide (a = i)) as [->|Hai].
  - rewrite list_lookup_insert_eq; [done|]. by rewrite length_insert.
  - rewrite list_lookup_insert_ne by done. destruct (decide (a = j)) as [->|Haj].
    + by rewrite list_lookup_insert_eq.
    + by rewrite list_lookup_insert_ne.
Qed.

Lemma NoDup_swap l i j : NoDup l → NoDup (swap l i j).
Proof.
  intros Hnd. destruct (l !! i) as [x|] eqn:Hi; [|unfold swap; by rewrite Hi].
  destruct (l !! j) as [y|] eqn:Hj; [|unfold swap; by rewrite Hi, Hj].
  apply NoDup_alt. intros a b z. rewrite !(lookup_swap l i j _ x y) by done.
  repeat case_decide; subst; try done; intros Ha Hb; simplify_eq; try done.
  all: try (pose proof (NoDup_lookup _ _ _ _ Hnd Ha Hb); congruence).
  all: try (pose proof (NoDup_lookup _ _ _ _ Hnd Hi Hb); congruence).
  all: try (pose proof (NoDup_lookup _ _ _ _ Hnd Hj Hb); congruence).
  all: try (pose proof (NoDup_lookup _ _ _ _ Hnd Ha Hi); congruence).
  all: try (pose proof (NoDup_lookup _ _ _ _ Hnd Ha Hj); congruence).
  all: try (pose proof (NoDup_lookup _ _ _ _ Hnd Hi Hj); congruence).
Qed.

Lemma length_swap l i j : length (swap l i j) = length l.
Proof. unfold swap. repeat case_match; by rewrite ?length_insert. Qed.

(** The draws pick distinct positions among those not yet drawn. *)
Lemma draws_spec vs round h k i indices :
  NoDup indices → length indices = length vs → (i + k ≤ length vs)%nat →
  ∃ r, draws vs round h k i indices = map (fun j => default [] (vs !! j)) r ∧
       NoDup r ∧ length r = k ∧ ∀ j, j ∈ r → ∃ a, (i ≤ a)%nat ∧ indices !! a = Some j.
Proof.
  revert i indices. induction k as [|k IH]; intros i indices Hnd Hlen Hik; cbn.
  { exists []. split_and!; [done|constructor|done|]. intros j []%not_elem_of_nil. }
  set (pick := hash_index _ _).
  assert (Hp : (pick < length vs - i)%nat) by (apply hash_index_lt; lia).
  destruct (lookup_lt_is_Some_2 indices i) as [xi Hxi]; [lia|].
  destruct (lookup_lt_is_Some_2 indices (i + pick)) as [xj Hxj]; [lia|].
  destruct (IH (S i) (swap indices i (i + pick))) as (r & -> & Hr & Hl & Hin);
    [by apply NoDup_swap|by rewrite length_swap|lia|].
  exists (xj :: r). rewrite Hxj. split_and!; [done| |cbn; lia|].
  - constructor; [|done]. intros (a & Ha & Hla)%Hin.
    assert (Hi' : swap indices i (i + pick) !! i = Some xj)
      by (rewrite (lookup_swap _ _ _ _ xi xj) by done; by rewrite decide_True).
    pose proof (NoDup_lookup _ _ _ _ (NoDup_swap _ i (i + pick) Hnd) Hi' Hla). lia.
  - intros j [->|Hj]%elem_of_cons; [exists (i + pick)%nat; split; [lia|done]|].
    apply Hin in Hj as (a & Ha & Hla). rewrite (lookup_swap _ _ _ _ xi xj) in Hla by done.
    case_decide; [lia|]. case_decide; [|exists a; split; [lia|done]].
    injection Hla as <-. exists i. split; [lia|done].
Qed.

(** Distinct positions of a list without duplicates hold distinct elements. *)
Lemma positions_NoDup (vs : list address) r :
  NoDup vs → NoDup r → (∀ j, j ∈ r → (j < length vs)%nat) →
  NoDup (map (fun j => default [] (vs !! j)) r) ∧
  ∀ a, a ∈ map (fun j => default [] (vs !! j)) r → a ∈ vs.
Proof.
  intros Hvs Hr Hlt.
  assert (Hat : ∀ j, j ∈ r → vs !! j = Some (default [] (vs !! j))).
  { intros j Hj. destruct (lookup_lt_is_Some_2 vs j (Hlt j Hj)) as [x Hx]. by rewrite Hx. }
  split.
  - apply (NoDup_fmap_2_strong (fun j => default [] (vs !! j))); [|done].
    intros j1 j2 H1 H2 Heq. apply Hat in H1, H2. rewrite <- Heq in H2. exact (NoDup_lookup _ _ _ _ Hvs H1 H2).
  - intros a (j & -> & Hj)%(list_elem_of_fmap (fun j => default [] (vs !! j))).
    apply Hat in Hj. by eapply list_elem_of_lookup_2.
Qed.

(** Committee election samples without replacement: for every seed and
    round, the committee has exactly [min(size, n)] members, all of them
    validators and all distinct; and the proposer of a round is always a
    member of a non-empty validator set. *)
Theorem committee_correct pe round h size :
  NoDup (pe_validators pe) →
  let c := elect_committee pe round h size in
  NoDup c ∧ length c = Nat.min size (length (pe_validators pe)) ∧ (∀ a, a ∈ c → a ∈ pe_validators pe) ∧
  (pe_validators pe ≠ [] → ∃ p, elect pe round h = Some p ∧ p ∈ pe_validators pe).
Proof.
  intros Hnd. cbv zeta.
  enough (NoDup (elect_committee pe round h size) ∧
          length (elect_committee pe round h size) = Nat.min size (length (pe_validators pe)) ∧
          ∀ a, a ∈ elect_committee pe round h size → a ∈ pe_validators pe) as (? & ? & ?)
    by (split_and!; [done..|by apply elect_some]).
  unfold elect_committee. destruct (_ || _) eqn:E0.
  { apply orb_true_iff in E0. split; [constructor|]. split; [|by intros a ?%elem_of_nil].
    destruct E0 as [E%Nat.eqb_eq|E%Nat.eqb_eq]; rewrite ?E; cbn; lia. }
  destruct (length (pe_validators pe) <=? size)%nat eqn:E1.
  { apply Nat.leb_le in E1. split_and!; [done|lia|done]. }
  apply Nat.leb_gt in E1.
  destruct (draws_spec (pe_validators pe) round h size 0 (seq 0 (length (pe_validators pe))))
    as (r & -> & Hr & Hl & Hin); [apply NoDup_seq|by rewrite length_seq|lia|].
  rewrite length_map, Hl.
  destruct (positions_NoDup (pe_validators pe) r) as [H1 H2]; [done|done| |split_and!; [done|lia|done]].
  intros j (a & _ & Ha)%Hin. apply lookup_seq in Ha. lia.
Qed.
End Election.

Section Witness.
Import Votes.Toy.

Lemma committee_correct_witness :
  let pe := mkElection (map (fun i => replicate 20 (Z.of_nat i)) (seq 1 5)) in
  let c := elect_committee pe 9 (replicate 32 1) 3 in
  NoDup c ∧ length c = Nat.min 3 (length (pe_validators pe)) ∧ (∀ a, a ∈ c → a ∈ pe_validators pe) ∧
  (pe_validators pe ≠ [] → ∃ p, elect pe 9 (replicate 32 1) = Some p ∧ p ∈ pe_validators pe).
Proof.
  intros pe.
  apply (committee_correct pe 9 (replicate 32 1) 3). apply (bool_decide_unpack _). vm_compute. exact I.
Defined.
End Witness.
End Proposer.
