(* ===== verification/HotStuff.v ===== *)
(** * HotStuff: the three-phase consensus driver

    Models [crates/zbx-consensus/src/hotstuff.rs], [block_store.rs] and
    [round_manager.rs]. Every handler is the whole method: it returns what the
    method returns and the state it leaves. [Instant::now()] is the argument
    [now]; log output is left out. *)

From S2P Require Import Prelude.
From S2P Require Import U256.
From S2P Require Import EvmBase.
From S2P Require Import EvmHost.
From S2P Require Import Votes.
From S2P Require Import Block.
From S2P Require Import Safety.
From S2P Require Import Liveness.
From Stdlib Require Import Sorting.Sorted.

Module HotStuff.
Import U256 EvmHost Votes Safety Liveness.

Abbreviation hash_of := Block.blk_hash.
Abbreviation blk_number := Block.blk_number.

(** ** block_store.rs *)

Section Store.
Context `{Keccak} {Tx : Type}.

Record BlockStore := mkStore {
  blocks : gmap (list Z) (Block.Block Tx);
  insertion_order : list bytes;
  capacity : nat
}.

Definition store_new (capacity : nat) : BlockStore := mkStore ∅ [] capacity.

Definition store_add (s : BlockStore) (b : Block.Block Tx) : BlockStore :=
  let h := hash_of b in
  if bool_decide (is_Some (blocks s !! h)) then s else
  let '(m, order) :=
    if (capacity s <=? size (blocks s))%nat
    then match insertion_order s with
         | oldest :: rest => (delete oldest (blocks s), rest)
         | [] => (blocks s, [])
         end
    else (blocks s, insertion_order s) in
  mkStore (<[h := b]> m) (order ++ [h]) (capacity s).

Definition store_get (s : BlockStore) (h : bytes) : option (Block.Block Tx) := blocks s !! h.

Definition store_remove (s : BlockStore) (h : bytes) : option (Block.Block Tx) * BlockStore :=
  (blocks s !! h, mkStore (delete h (blocks s)) (insertion_order s) (capacity s)).

(** Blocks are filed under their hash. *)
Definition wf_store (s : BlockStore) : Prop := map_Forall (fun h b => hash_of b = h) (blocks s).

Lemma store_new_wf c : wf_store (store_new c).
Proof. apply map_Forall_empty. Qed.

Lemma store_add_wf s b : wf_store s → wf_store (store_add s b).
Proof.
  intros Hs. unfold store_add. case_bool_decide; [done|].
  assert (Hd : ∀ k, wf_store (mkStore (delete k (blocks s)) [] 0)) by (intros k; by apply map_Forall_delete).
  repeat case_match; simplify_eq; apply map_Forall_insert_2; try done; apply Hd.
Qed.

(** The newest block is stored, and older ones only ever make room for it. *)
Lemma store_add_get s b : store_get (store_add s b) (hash_of b) = Some b ∨ is_Some (store_get s (hash_of b)).
Proof.
  unfold store_add, store_get. case_bool_decide as Hin; [by right|left].
  repeat case_match; simplify_eq; apply lookup_insert_eq.
Qed.
End Store.
Arguments BlockStore : clear implicits.

(** ** The validator set *)

Record ValidatorSet := mkSet {
  validators : list address;
  quorum : nat;
  epoch_seed : bytes
}.

Definition H256_zero : bytes := replicate 32 0.

(** [floor(2n/3) + 1] *)
Definition quorum_of (n : nat) : nat := (2 * n / 3 + 1)%nat.

(** [assert!(n > 0)] *)
Definition vs_new (vs : list address) : outcome ConsensusError ValidatorSet :=
  if (0 <? length vs)%nat then Ok (mkSet vs (quorum_of (length vs)) H256_zero) else Panic.

Definition set_epoch_seed (s : ValidatorSet) (seed : bytes) : ValidatorSet :=
  mkSet (validators s) (quorum s) seed.

Definition vs_contains (s : ValidatorSet) (a : address) : bool := bool_decide (a ∈ validators s).

(** Two duplicate-free lists over [V] that are long enough overlap in more than
    a third of it. *)
Lemma overlap (V A B : list address) :
  NoDup A → NoDup B → (∀ a, a ∈ A → a ∈ V) → (∀ a, a ∈ B → a ∈ V) →
  (quorum_of (length V) ≤ length A)%nat → (quorum_of (length V) ≤ length B)%nat →
  ∃ L, NoDup L ∧ (length V < 3 * length L)%nat ∧ ∀ a, a ∈ L → a ∈ A ∧ a ∈ B.
Proof.
  intros HA HB HAV HBV Hqa Hqb. exists (filter (fun a => a ∈ B) A).
  split; [by apply NoDup_filter|]. split; [|intros a [? ?]%list_elem_of_filter; done].
  assert (Hu : (length (filter (fun a => a ∉ B) A ++ B) ≤ length V)%nat).
  { apply submseteq_length, NoDup_submseteq.
    - apply NoDup_app. split_and!; [by apply NoDup_filter| |done]. by intros a [? _]%list_elem_of_filter.
    - intros a [[_ ?]%list_elem_of_filter|?]%elem_of_app; auto. }
  assert (Hs : length A = (length (filter (fun a => a ∈ B) A) + length (filter (fun a => a ∉ B) A))%nat).
  { clear. induction A as [|a A IH]; [done|]. rewrite !filter_cons. repeat case_decide; cbn; try done; lia. }
  rewrite length_app in Hu. unfold quorum_of in *.
  pose proof (Nat.div_mod (2 * length V) 3 ltac:(done)). pose proof (Nat.mod_upper_bound (2 * length V) 3 ltac:(done)). lia.
Qed.

(** Quorums of a validator set built by [ValidatorSet::new] are attainable
    and intersect: a quorum never exceeds the set, and any two sets of distinct
    validators of quorum size share more than a third of the validators, so at
    least one honest one when fewer than a third are faulty. *)
Theorem quorum_intersection V S A B faulty :
  vs_new V = Ok S → NoDup A → NoDup B →
  (∀ a, a ∈ A → a ∈ validators S) → (∀ a, a ∈ B → a ∈ validators S) →
  (quorum S ≤ length A)%nat → (quorum S ≤ length B)%nat →
  (3 * length faulty ≤ length V)%nat →
  (quorum S ≤ length V)%nat ∧ ∃ a, a ∈ A ∧ a ∈ B ∧ (a ∉ faulty).
Proof.
  unfold vs_new. destruct (0 <? length V)%nat eqn:Hn; [|done]. apply Nat.ltb_lt in Hn.
  intros [= <-] HA HB HAV HBV Hqa Hqb Hf. cbn [validators quorum] in *.
  split. { unfold quorum_of. pose proof (Nat.div_mod (2 * length V) 3 ltac:(done)). lia. }
  destruct (overlap V A B) as (L & HL & Hlen & Hin); try done.
  destruct (decide (Exists (fun a => a ∉ faulty) L)) as [Hex|Hno].
  - apply Exists_exists in Hex as (a & Ha & Hna). exists a. by destruct (Hin a Ha).
  - exfalso. apply not_Exists_Forall in Hno; [|apply _].
    assert (length L ≤ length faulty)%nat; [|lia]. apply submseteq_length, NoDup_submseteq; [done|].
    intros a Ha. rewrite Forall_forall in Hno. specialize (Hno a Ha). by apply dec_stable in Hno.
Qed.

Section Driver.
Context `{Keccak} `{!Bls} `{!BlsLaws} {Tx : Type}.

(** The remainder by zero panics. *)
Definition proposer_for_round (s : ValidatorSet) (round : Z) : outcome ConsensusError address :=
  let n := Z.of_nat (length (validators s)) in
  let idx := if bool_decide (epoch_seed s = H256_zero) then round
             else be_val (take 8 (keccak256 (epoch_seed s ++ to_be 8 round))) in
  if n =? 0 then Panic else
  match validators s !! Z.to_nat (idx mod n) with Some a => Ok a | None => Panic end.

Inductive Phase := Prepare | PreCommit | Commit.
Definition phase_u8 (p : Phase) : Z := match p with Prepare => 0 | PreCommit => 1 | Commit => 2 end.

Inductive ConsensusEvent :=
| Committed (block : Block.Block Tx) (qc : QuorumCertificate)
| VoteCast (v : Vote)
| ProposalRequired (round : Z) (parent_hash : bytes)
| TimeoutEvent (round : Z).

Record HotStuffConsensus := mkHS {
  my_address : address;
  validator_set : ValidatorSet;
  safety_rules : SafetyRules;
  pacemaker : Pacemaker;
  block_store : BlockStore Tx;
  vote_accumulators : gmap (Z * Z) VoteAccumulator;
  committed_height : Z;
  highest_qc : option QuorumCertificate;
  seen_votes : gmap (Z * Z * list Z) (list Z * Vote * list Z);
  validator_pubkeys : gmap (list Z) (list Z);
  dropped_unregistered : Z;
  dropped_pubkey_mismatch : Z;
  dropped_invalid_sig : Z;
  dropped_non_validator : Z
}.

Definition hs_new (me : address) (rules : SafetyRules) (vs : ValidatorSet) (now : Z) : HotStuffConsensus :=
  mkHS me vs rules (pace_new config_default now) (store_new 1024) ∅ 0 None ∅ ∅ 0 0 0 0.

(** *** Setters *)

Definition upd_set vs (s : HotStuffConsensus) :=
  mkHS (my_address s) vs (safety_rules s) (pacemaker s) (block_store s) (vote_accumulators s)
    (committed_height s) (highest_qc s) (seen_votes s) (validator_pubkeys s)
    (dropped_unregistered s) (dropped_pubkey_mismatch s) (dropped_invalid_sig s) (dropped_non_validator s).
Definition upd_rules r (s : HotStuffConsensus) :=
  mkHS (my_address s) (validator_set s) r (pacemaker s) (block_store s) (vote_accumulators s)
    (committed_height s) (highest_qc s) (seen_votes s) (validator_pubkeys s)
    (dropped_unregistered s) (dropped_pubkey_mismatch s) (dropped_invalid_sig s) (dropped_non_validator s).
Definition upd_pace p (s : HotStuffConsensus) :=
  mkHS (my_address s) (validator_set s) (safety_rules s) p (block_store s) (vote_accumulators s)
    (committed_height s) (highest_qc s) (seen_votes s) (validator_pubkeys s)
    (dropped_unregistered s) (dropped_pubkey_mismatch s) (dropped_invalid_sig s) (dropped_non_validator s).
Definition upd_store b (s : HotStuffConsensus) :=
  mkHS (my_address s) (validator_set s) (safety_rules s) (pacemaker s) b (vote_accumulators s)
    (committed_height s) (highest_qc s) (seen_votes s) (validator_pubkeys s)
    (dropped_unregistered s) (dropped_pubkey_mismatch s) (dropped_invalid_sig s) (dropped_non_validator s).
Definition upd_accs m (s : HotStuffConsensus) :=
  mkHS (my_address s) (validator_set s) (safety_rules s) (pacemaker s) (block_store s) m
    (committed_height s) (highest_qc s) (seen_votes s) (validator_pubkeys s)
    (dropped_unregistered s) (dropped_pubkey_mismatch s) (dropped_invalid_sig s) (dropped_non_validator s).
Definition upd_height h (s : HotStuffConsensus) :=
  mkHS (my_address s) (validator_set s) (safety_rules s) (pacemaker s) (block_store s) (vote_accumulators s)
    h (highest_qc s) (seen_votes s) (validator_pubkeys s)
    (dropped_unregistered s) (dropped_pubkey_mismatch s) (dropped_invalid_sig s) (dropped_non_validator s).
Definition upd_high_qc q (s : HotStuffConsensus) :=
  mkHS (my_address s) (validator_set s) (safety_rules s) (pacemaker s) (block_store s) (vote_accumulators s)
    (committed_height s) q (seen_votes s) (validator_pubkeys s)
    (dropped_unregistered s) (dropped_pubkey_mismatch s) (dropped_invalid_sig s) (dropped_non_validator s).
Definition upd_seen m (s : HotStuffConsensus) :=
  mkHS (my_address s) (validator_set s) (safety_rules s) (pacemaker s) (block_store s) (vote_accumulators s)
    (committed_height s) (highest_qc s) m (validator_pubkeys s)
    (dropped_unregistered s) (dropped_pubkey_mismatch s) (dropped_invalid_sig s) (dropped_non_validator s).
Definition upd_keys m (s : HotStuffConsensus) :=
  mkHS (my_address s) (validator_set s) (safety_rules s) (pacemaker s) (block_store s) (vote_accumulators s)
    (committed_height s) (highest_qc s) (seen_votes s) m
    (dropped_unregistered s) (dropped_pubkey_mismatch s) (dropped_invalid_sig s) (dropped_non_validator s).
(** [saturating_add(1)] on the four drop counters. *)
Definition count_drop (a b c d : Z) (s : HotStuffConsensus) :=
  mkHS (my_address s) (validator_set s) (safety_rules s) (pacemaker s) (block_store s) (vote_accumulators s)
    (committed_height s) (highest_qc s) (seen_votes s) (validator_pubkeys s)
    (saturating_add64 (dropped_unregistered s) a) (saturating_add64 (dropped_pubkey_mismatch s) b)
    (saturating_add64 (dropped_invalid_sig s) c) (saturating_add64 (dropped_non_validator s) d).

(** *** Configuration *)

Abbreviation result := (outcome ConsensusError (list ConsensusEvent)).

Definition update_validator_set (s : HotStuffConsensus) (addrs : list address)
    : outcome ConsensusError HotStuffConsensus :=
  let? new_set := vs_new addrs in
  Ok (upd_set (set_epoch_seed new_set (epoch_seed (validator_set s))) s).

Definition rotate_epoch_seed (s : HotStuffConsensus) (seed : bytes) : HotStuffConsensus :=
  upd_set (set_epoch_seed (validator_set s) seed) s.

Definition dropped_vote_counters (s : HotStuffConsensus) : Z * Z * Z * Z :=
  (dropped_unregistered s, dropped_pubkey_mismatch s, dropped_invalid_sig s, dropped_non_validator s).

Definition check_pubkey_registry_invariant (s : HotStuffConsensus) : list address :=
  List.filter (fun a => negb (bool_decide (is_Some (validator_pubkeys s !! a)))) (validators (validator_set s)).

Definition register_validator_pubkey (s : HotStuffConsensus) (addr : address) (pk : bytes) : HotStuffConsensus :=
  match validator_pubkeys s !! addr with
  | Some existing => if bool_decide (existing = pk)
                     then upd_keys (<[addr := pk]> (validator_pubkeys s)) s else s
  | None => upd_keys (<[addr := pk]> (validator_pubkeys s)) s
  end.

Definition prune_seen_votes_below (s : HotStuffConsensus) (committed_round : Z) : HotStuffConsensus :=
  upd_seen (filter (fun kv => committed_round ≤ kv.1.1.1) (seen_votes s)) s.

Definition seen_votes_len (s : HotStuffConsensus) : nat := size (seen_votes s).

Definition build_remote_equivocation_evidence (s : HotStuffConsensus) (validator : address)
    (round ph : Z) (new_vote : Vote) (new_pk : bytes) : option EquivocationEvidence :=
  match seen_votes s !! (round, ph, validator) with
  | Some (_, prev_vote, _) =>
      let ev := mkEvidence validator round ph prev_vote new_vote new_pk in
      if ev_verify ev then Some ev else None
  | None => None
  end.

Definition hs_current_round (s : HotStuffConsensus) : Z := current_round (pacemaker s).

(** *** Handlers *)

Definition on_proposal (s : HotStuffConsensus) (block : Block.Block Tx) (parent_qc : QuorumCertificate)
    : result * HotStuffConsensus :=
  if negb (qc_verify parent_qc) then (Err (InvalidQC (blk_number block)), s) else
  let round := blk_number block in
  match proposer_for_round (validator_set s) round with
  | Ok proposer =>
      if negb (bool_decide (Block.blk_coinbase block = proposer)) then (Err (InvalidProposer round), s) else
      if negb (vs_contains (validator_set s) proposer) then (Err (InvalidProposer round), s) else
      let s := upd_store (store_add (block_store s) block) s in
      let vd := mkVoteData (hash_of block) round (phase_u8 Prepare) (Block.epoch (Block.header block)) in
      let '(r, rules) := vote (safety_rules s) vd parent_qc in
      let s := upd_rules rules s in
      (let? v := r in Ok [VoteCast v], s)
  | Err e => (Err e, s)
  | Panic => (Panic, s)
  end.

(** [if let Ok(v) = self.safety_rules.vote(..) { events.push(VoteCast(v)) }] *)
Definition phase_vote (s : HotStuffConsensus) (qc : QuorumCertificate) (p : Phase)
    : result * HotStuffConsensus :=
  let vd := mkVoteData (block_hash (vote_data qc)) (qc_block_number qc) (phase_u8 p)
              (current_epoch (pacemaker s)) in
  let '(r, rules) := vote (safety_rules s) vd qc in
  let s := upd_rules rules s in
  match r with
  | Ok v => (Ok [VoteCast v], s)
  | Err _ => (Ok [], s)
  | Panic => (Panic, s)
  end.

Definition on_qc (s : HotStuffConsensus) (qc : QuorumCertificate) (now : Z) : result * HotStuffConsensus :=
  if qc_phase qc =? 0 then
    let s := upd_rules (update_locked_qc (safety_rules s) qc) s in
    let s := upd_high_qc (Some qc) s in
    phase_vote s qc PreCommit
  else if qc_phase qc =? 1 then phase_vote s qc Commit
  else if qc_phase qc =? 2 then
    match store_get (block_store s) (block_hash (vote_data qc)) with
    | Some block =>
        if committed_height s <? blk_number block then
          let s := upd_height (blk_number block) s in
          let s := upd_pace (advance_round (pacemaker s) (wrap64 (blk_number block + 1))
                               (epoch (vote_data qc)) now) s in
          (Ok [Committed block qc], s)
        else (Ok [], s)
    | None => (Ok [], s)
    end
  else (Err InvalidMessage, s).

(** The tail of [on_vote]: count the vote, handle the certificate it completes. *)
Definition accumulate (s : HotStuffConsensus) (v : Vote) (pk : bytes) (now : Z) : result * HotStuffConsensus :=
  let key := (block_number (v_data v), phase (v_data v)) in
  let acc := default (acc_new (v_data v) (quorum (validator_set s))) (vote_accumulators s !! key) in
  let '(r, acc') := add_vote acc v pk in
  let s := upd_accs (<[key := acc']> (vote_accumulators s)) s in
  match r with
  | Ok (Some qc) => on_qc s qc now
  | Ok None => (Ok [], s)
  | Err e => (Err e, s)
  | Panic => (Panic, s)
  end.

Definition on_vote (s : HotStuffConsensus) (v : Vote) (pk : bytes) (now : Z) : result * HotStuffConsensus :=
  if negb (vs_contains (validator_set s) (voter v)) then (Ok [], count_drop 0 0 0 1 s) else
  match validator_pubkeys s !! voter v with
  | None => (Ok [], count_drop 1 0 0 0 s)
  | Some registered =>
      if negb (bool_decide (registered = pk)) then (Ok [], count_drop 0 1 0 0 s) else
      if negb (verify_single (signature v) pk (vote_msg (v_data v))) then (Ok [], count_drop 0 0 1 0 s) else
      let ek := (block_number (v_data v), phase (v_data v), voter v) in
      match seen_votes s !! ek with
      | Some (prev_hash, prev, _) =>
          if negb (bool_decide (prev_hash = block_hash (v_data v)))
          then (Err (RemoteEquivocation (voter prev) (block_number (v_data prev)) (phase (v_data prev))
                       (block_hash (v_data prev)) (block_hash (v_data v))), s)
          else accumulate s v pk now
      | None => accumulate (upd_seen (<[ek := (block_hash (v_data v), v, pk)]> (seen_votes s)) s) v pk now
      end
  end.

Definition on_timeout (s : HotStuffConsensus) (now : Z) : ConsensusEvent * HotStuffConsensus :=
  let '(timed_out, p) := pace_on_timeout (pacemaker s) now in
  (TimeoutEvent timed_out, upd_pace p s).

(** *** round_manager.rs *)

Definition rm_is_proposer (s : HotStuffConsensus) : outcome ConsensusError bool :=
  let? p := proposer_for_round (validator_set s) (hs_current_round s) in
  Ok (bool_decide (p = my_address s)).

Definition process_proposal := on_proposal.
Definition process_vote := on_vote.
Definition process_timeout := on_timeout.

(** *** Runs of a node *)

Inductive hs_op :=
| Proposal (block : Block.Block Tx) (parent_qc : QuorumCertificate)
| VoteMsg (v : Vote) (pk : bytes)
| TimerFired
| SetValidators (addrs : list address)
| RotateSeed (seed : bytes)
| RegisterKey (addr : address) (pk : bytes)
| Prune (round : Z)
| AdvanceEpoch (e : Z).

Definition hs_step (s : HotStuffConsensus) (now : Z) (op : hs_op) : result * HotStuffConsensus :=
  match op with
  | Proposal b qc => process_proposal s b qc
  | VoteMsg v pk => process_vote s v pk now
  | TimerFired => let '(e, s') := process_timeout s now in (Ok [e], s')
  | SetValidators addrs => match update_validator_set s addrs with
                           | Ok s' => (Ok [], s') | Err e => (Err e, s) | Panic => (Panic, s) end
  | RotateSeed seed => (Ok [], rotate_epoch_seed s seed)
  | RegisterKey a pk => (Ok [], register_validator_pubkey s a pk)
  | Prune r => (Ok [], prune_seen_votes_below s r)
  | AdvanceEpoch e => (Ok [], upd_rules (advance_epoch (safety_rules s) e) s)
  end.

(** All the events of a run; an abort ends it. *)
Fixpoint hs_run (s : HotStuffConsensus) (ops : list (Z * hs_op)) : list ConsensusEvent * HotStuffConsensus :=
  match ops with
  | [] => ([], s)
  | (now, op) :: rest =>
      let '(r, s1) := hs_step s now op in
      match r with
      | Ok evs => let '(evs', s2) := hs_run s1 rest in (evs ++ evs', s2)
      | Err _ => hs_run s1 rest
      | Panic => ([], s1)
      end
  end.

Definition fixed_set (op : hs_op) : bool := match op with SetValidators _ => false | _ => true end.
Definition keeps_votes (op : hs_op) : bool := match op with SetValidators _ | Prune _ => false | _ => true end.
(** ** Invariant *)

(** The fields the invariant speaks of. *)
Definition core (s : HotStuffConsensus) :=
  (validators (validator_set s), quorum (validator_set s), block_store s, vote_accumulators s,
   seen_votes s, validator_pubkeys s).

(** Accumulators are well formed, filed under their data, demand the set's
    quorum and hold only votes of registered members of the set. *)
Definition acc_inv (s : HotStuffConsensus) (key : Z * Z) (a : VoteAccumulator) : Prop :=
  wf_acc a ∧ acc_quorum a = quorum (validator_set s) ∧ key = (block_number (acc_data a), phase (acc_data a)) ∧
  map_Forall (fun addr x => addr ∈ validators (validator_set s) ∧ validator_pubkeys s !! addr = Some x.2)
    (acc_votes a).

(** The detector holds genuine votes, filed under round, phase and voter. *)
Definition seen_inv (s : HotStuffConsensus) (ek : Z * Z * list Z) (x : list Z * Vote * list Z) : Prop :=
  ek = (block_number (v_data x.1.2), phase (v_data x.1.2), voter x.1.2) ∧ x.1.1 = block_hash (v_data x.1.2) ∧
  validator_pubkeys s !! voter x.1.2 = Some x.2 ∧
  verify_single (signature x.1.2) x.2 (vote_msg (v_data x.1.2)) = true.

Record inv (s : HotStuffConsensus) : Prop := {
  inv_store : wf_store (block_store s);
  inv_accs : map_Forall (acc_inv s) (vote_accumulators s);
  inv_seen : map_Forall (seen_inv s) (seen_votes s)
}.

(** A certificate by a quorum of registered members of the set. *)
Definition certified (s : HotStuffConsensus) (qc : QuorumCertificate) : Prop :=
  qc_verify qc = true ∧ NoDup (signers qc) ∧ (quorum (validator_set s) ≤ length (signers qc))%nat ∧
  ∀ a, a ∈ signers qc → a ∈ validators (validator_set s) ∧
    ∃ v pk, validator_pubkeys s !! a = Some pk ∧ voter v = a ∧ v_data v = vote_data qc ∧
            verify_single (signature v) pk (vote_msg (vote_data qc)) = true.

Definition committed (s : HotStuffConsensus) (b : Block.Block Tx) (qc : QuorumCertificate) : Prop :=
  certified s qc ∧ qc_phase qc = 2 ∧ hash_of b = block_hash (vote_data qc).

Definition commit_of (e : ConsensusEvent) : option (Block.Block Tx * QuorumCertificate) :=
  match e with Committed b qc => Some (b, qc) | _ => None end.

(** The same validators and quorum, and no registered key forgotten. *)
Definition config_le (s s' : HotStuffConsensus) : Prop :=
  validators (validator_set s') = validators (validator_set s) ∧
  quorum (validator_set s') = quorum (validator_set s) ∧ validator_pubkeys s ⊆ validator_pubkeys s'.

Lemma config_le_trans s1 s2 s3 : config_le s1 s2 → config_le s2 s3 → config_le s1 s3.
Proof. intros (? & ? & ?) (? & ? & ?). split_and!; [congruence|congruence|by etrans]. Qed.

Lemma core_config s s' : core s' = core s → config_le s s'.
Proof. intros [=]. split_and!; congruence || by apply reflexive_eq. Qed.

Lemma core_inv s s' : core s' = core s → inv s → inv s'.
Proof.
  intros Hc [Hst Hac Hse]. injection Hc as Hv Hq Hs Ha Hn Hk. split.
  - by rewrite Hs.
  - rewrite Ha. intros k a Hka. unfold acc_inv. rewrite Hv, Hq, Hk. exact (Hac k a Hka).
  - rewrite Hn. intros k x Hkx. unfold seen_inv. rewrite Hk. exact (Hse k x Hkx).
Qed.

Lemma certified_mono s s' qc : config_le s s' → certified s qc → certified s' qc.
Proof.
  intros (Hv & Hq & Hk) (? & ? & ? & Hsig). unfold certified. rewrite Hv, Hq. split_and!; try done.
  intros a Ha. destruct (Hsig a Ha) as (? & v & pk & Hpk & ?). split; [done|]. exists v, pk.
  split; [by eapply lookup_weaken|done].
Qed.

Lemma committed_mono s s' b qc : config_le s s' → committed s b qc → committed s' b qc.
Proof. intros Hc (? & ?). split; [by eapply certified_mono|done]. Qed.

(** What one step may do. *)
Definition step_ok (s : HotStuffConsensus) (r : result) (s' : HotStuffConsensus) : Prop :=
  inv s' ∧ config_le s s' ∧ committed_height s ≤ committed_height s' ∧
  ∀ evs, r = Ok evs → omap commit_of evs = [] ∨
    ∃ b qc, omap commit_of evs = [(b, qc)] ∧ committed s' b qc ∧
            committed_height s < blk_number b ∧ committed_height s' = blk_number b.

(** Steps that leave the core and the height alone and commit nothing. *)
Lemma step_ok_quiet s r s' :
  inv s → core s' = core s → committed_height s' = committed_height s →
  (∀ evs, r = Ok evs → omap commit_of evs = []) → step_ok s r s'.
Proof.
  intros Hi Hc Hh He. split_and!; [by apply (core_inv s)|by apply core_config|lia|]. intros evs Hr. left. by apply He.
Qed.

(** A step from a state that only improved the configuration of [s]. *)
Lemma step_ok_from s s1 r s' :
  config_le s s1 → committed_height s1 = committed_height s → step_ok s1 r s' → step_ok s r s'.
Proof.
  intros Hc Hh (Hi & Hc' & Hle & He). rewrite Hh in *. split_and!; try done. by eapply config_le_trans.
Qed.

Lemma phase_vote_ok s qc p r s' : inv s → phase_vote s qc p = (r, s') → step_ok s r s'.
Proof.
  intros Hi. unfold phase_vote. destruct (vote _ _ _) as [[v|e|] rules]; intros [= <- <-];
    apply step_ok_quiet; try done; by intros evs [= <-].
Qed.

Lemma on_qc_ok s qc now r s' : inv s → certified s qc → on_qc s qc now = (r, s') → step_ok s r s'.
Proof.
  intros Hi Hcert. unfold on_qc. case_if.
  { intros Hp. apply phase_vote_ok in Hp; [|by apply (core_inv s)]. by eapply step_ok_from; [apply core_config| |exact Hp]. }
  case_if; [by apply phase_vote_ok|]. case_if; [|intros [= <- <-]; by apply step_ok_quiet].
  destruct (store_get _ _) as [b|] eqn:Hb; [|intros [= <- <-]; apply step_ok_quiet; try done; by intros ? [= <-]].
  case_if; [|intros [= <- <-]; apply step_ok_quiet; try done; by intros ? [= <-]].
  intros [= <- <-]. split_and!; [by apply (core_inv s)|by apply core_config|cbn; lia|].
  intros ? [= <-]. right. exists b, qc. split_and!; try done.
  split_and!; [by eapply certified_mono; [apply core_config|]|done|]. by apply (inv_store s Hi).
Qed.
Lemma inv_config s s' :
  inv s → config_le s s' → block_store s' = block_store s → vote_accumulators s' = vote_accumulators s →
  seen_votes s' = seen_votes s → inv s'.
Proof.
  intros [Hst Hac Hse] (Hv & Hq & Hk) Hs Ha Hn. split.
  - by rewrite Hs.
  - rewrite Ha. intros k a Hka. destruct (Hac k a Hka) as (? & ? & ? & Hall).
    split_and!; try done; [congruence|]. intros addr x Hx. destruct (Hall addr x Hx).
    rewrite Hv. split; [done|by eapply lookup_weaken].
  - rewrite Hn. intros k x Hkx. destruct (Hse k x Hkx) as (? & ? & ? & ?).
    split_and!; try done. by eapply lookup_weaken.
Qed.

Lemma add_vote_acc_inv s key a v pk :
  acc_inv s key a → voter v ∈ validators (validator_set s) → validator_pubkeys s !! voter v = Some pk →
  acc_inv s key (add_vote a v pk).2.
Proof.
  intros (Hwf & Hq & Hkey & Hall) Hv Hpk. destruct (add_vote_data a v pk) as [Hd Hq'].
  pose proof (add_vote_wf a v pk Hwf) as Hwf'. split_and!; [done|congruence|congruence|].
  intros addr x Hx. destruct (Hwf' addr x Hx) as (_ & Haddr & _).
  apply add_vote_votes in Hx as [-> |Hx]; [|by apply Hall]. cbn in *. by subst addr.
Qed.

Lemma acc_certified s key a v pk qc :
  acc_inv s key (add_vote a v pk).2 → (add_vote a v pk).1 = Ok (Some qc) → certified s qc.
Proof.
  intros (Hwf & Hq & Hkey & Hall) Hqc. destruct (add_vote_data a v pk) as [Hd Hq'].
  apply add_vote_qc in Hqc as (_ & _ & _ & _ & Hsz & Hf).
  destruct (form_qc_spec _ _ Hwf Hf) as (Hvd & Hnd & Hlen & Hin & Hver).
  split_and!; [done|done|rewrite Hlen, <- Hq, Hq'; done|].
  intros addr [[v' pk'] Hx]%Hin. destruct (Hall _ _ Hx) as [Hmem Hkeys]. split; [done|].
  destruct (Hwf _ _ Hx) as (? & ? & ?). rewrite Hvd. by exists v', pk'.
Qed.

Lemma accumulate_ok s v pk now r s' :
  inv s → voter v ∈ validators (validator_set s) → validator_pubkeys s !! voter v = Some pk →
  accumulate s v pk now = (r, s') → step_ok s r s'.
Proof.
  intros Hi Hv Hpk. unfold accumulate. set (key := (_, _)). set (a := default _ _).
  assert (Ha : acc_inv s key a).
  { unfold a. destruct (vote_accumulators s !! key) as [a0|] eqn:E; [by apply (inv_accs s Hi)|].
    split_and!; [apply acc_new_wf|done|done|apply map_Forall_empty]. }
  destruct (add_vote a v pk) as [x a'] eqn:E.
  pose proof (add_vote_acc_inv s key a v pk Ha Hv Hpk) as Ha'. rewrite E in Ha'.
  pose proof (acc_certified s key a v pk) as Hcert. rewrite E in Hcert.
  set (s1 := upd_accs _ s).
  assert (Hi1 : inv s1).
  { destruct Hi as [? Hac ?]. split; [done| |done]. apply map_Forall_insert_2; [exact Ha'|exact Hac]. }
  assert (Hc1 : config_le s s1) by done.
  destruct x as [[qc|]|e|]; cbn [fst snd] in *.
  - intros Hq. eapply step_ok_from; [exact Hc1|done|]. eapply on_qc_ok; [done| |exact Hq]. by apply Hcert.
  - intros [= <- <-]. split_and!; try done. intros ? [= <-]. by left.
  - intros [= <- <-]. by split_and!.
  - intros [= <- <-]. by split_and!.
Qed.

Lemma on_vote_ok s v pk now r s' : inv s → on_vote s v pk now = (r, s') → step_ok s r s'.
Proof.
  intros Hi. unfold on_vote, vs_contains.
  assert (Hdrop : ∀ a b c d, step_ok s (Ok []) (count_drop a b c d s))
    by (intros; apply step_ok_quiet; try done; by intros ? [= <-]).
  case_bool_decide as Hin; cbn [negb]; [|intros [= <- <-]; apply Hdrop].
  destruct (validator_pubkeys s !! voter v) as [pk0|] eqn:Hpk; [|intros [= <- <-]; apply Hdrop].
  case_bool_decide as Heq; cbn [negb]; [subst pk0|intros [= <- <-]; apply Hdrop].
  destruct (verify_single _ _ _) eqn:Hver; cbn [negb]; [|intros [= <- <-]; apply Hdrop].
  set (ek := (_, _, voter v)). destruct (seen_votes s !! ek) as [[[h prev] pk0]|] eqn:Hseen.
  - case_bool_decide; cbn [negb]; [by apply accumulate_ok|].
    intros [= <- <-]. by apply step_ok_quiet.
  - intros Hacc. set (s1 := upd_seen _ s) in Hacc. eapply (step_ok_from s s1); [done|done|].
    eapply accumulate_ok; [|done|done|exact Hacc].
    destruct Hi as [? ? Hse]. split; [done|done|]. by apply map_Forall_insert_2.
Qed.

Lemma on_proposal_ok s b qc r s' : inv s → on_proposal s b qc = (r, s') → step_ok s r s'.
Proof.
  intros Hi. unfold on_proposal. case_match; [intros [= <- <-]; by apply step_ok_quiet|].
  destruct (proposer_for_round _ _) as [p|e|]; [|intros [= <- <-]; by apply step_ok_quiet..].
  case_match; [intros [= <- <-]; by apply step_ok_quiet|].
  case_match; [intros [= <- <-]; by apply step_ok_quiet|].
  set (s1 := upd_store _ s). assert (Hi1 : inv s1).
  { destruct Hi. split; try done. by apply store_add_wf. }
  destruct (vote _ _ _) as [x rules]. intros [= <- <-]. apply (step_ok_from s s1); [done|done|].
  apply step_ok_quiet; try done. intros evs Hx. apply bind_Ok_inv in Hx as (v & _ & [= <-]). done.
Qed.

Lemma register_config s a pk : config_le s (register_validator_pubkey s a pk).
Proof.
  unfold register_validator_pubkey. destruct (validator_pubkeys s !! a) as [pk0|] eqn:E.
  - case_bool_decide; [subst pk0|done]. split_and!; try done. cbn. by rewrite insert_id.
  - split_and!; try done. cbn. by apply insert_subseteq.
Qed.

Lemma step_inv s now op r s' :
  inv s → fixed_set op = true → hs_step s now op = (r, s') → step_ok s r s'.
Proof.
  intros Hi Hop. destruct op as [b qc|v pk| |addrs|seed|a pk|rd|e]; cbn; try done.
  - by apply on_proposal_ok.
  - by apply on_vote_ok.
  - intros [= <- <-]. apply step_ok_quiet; try done. by intros ? [= <-].
  - intros [= <- <-]. apply step_ok_quiet; try done. by intros ? [= <-].
  - intros [= <- <-]. pose proof (register_config s a pk) as Hc.
    assert (Hf : block_store (register_validator_pubkey s a pk) = block_store s ∧
      vote_accumulators (register_validator_pubkey s a pk) = vote_accumulators s ∧
      seen_votes (register_validator_pubkey s a pk) = seen_votes s ∧
      committed_height (register_validator_pubkey s a pk) = committed_height s)
      by (unfold register_validator_pubkey; by repeat case_match).
    destruct Hf as (? & ? & ? & Hh). split_and!; [by eapply inv_config|done|lia|]. intros ? [= <-]. by left.
  - intros [= <- <-]. split_and!; try done; [|intros ? [= <-]; by left].
    destruct Hi as [? ? Hse]. split; try done. intros k x Hx. apply map_lookup_filter_Some in Hx as [Hx _].
    by apply Hse.
  - intros [= <- <-]. apply step_ok_quiet; try done. by intros ? [= <-].
Qed.

Lemma hs_new_inv me rules vs now : inv (hs_new me rules vs now).
Proof. split; [apply store_new_wf|apply map_Forall_empty|apply map_Forall_empty]. Qed.

Lemma run_inv ops s evs s' :
  inv s → forallb (fun x => fixed_set x.2) ops = true → hs_run s ops = (evs, s') →
  inv s' ∧ config_le s s' ∧ committed_height s ≤ committed_height s' ∧
  Forall (fun c => committed s' c.1 c.2 ∧ committed_height s < blk_number c.1) (omap commit_of evs) ∧
  StronglySorted Z.lt (map (fun c => blk_number c.1) (omap commit_of evs)).
Proof.
  revert s evs. induction ops as [|[now op] ops IH]; intros s evs Hi Hops; cbn.
  { intros [= <- <-]. split_and!; try done; constructor. }
  cbn in Hops. apply andb_true_iff in Hops as [Hop Hops].
  destruct (hs_step s now op) as [r s1] eqn:Hst.
  destruct (step_inv s now op r s1 Hi Hop Hst) as (Hi1 & Hc1 & Hh1 & He1).
  destruct r as [es|e|].
  - destruct (hs_run s1 ops) as [evs2 s2] eqn:Hrun. intros [= <- <-].
    destruct (IH s1 evs2 Hi1 Hops Hrun) as (Hi2 & Hc2 & Hh2 & Hall & Hsort).
    split_and!; [done|by eapply config_le_trans|lia| |]; rewrite omap_app.
    + apply Forall_app. split.
      * destruct (He1 es eq_refl) as [-> |(b & qc & -> & Hcm & Hlt & Heq)]; [constructor|].
        apply Forall_singleton. split; [by eapply committed_mono|done].
      * eapply Forall_impl; [exact Hall|]. intros c [? ?]. split; [done|lia].
    + destruct (He1 es eq_refl) as [-> |(b & qc & -> & Hcm & Hlt & Heq)]; [done|]. cbn.
      constructor; [done|]. apply Forall_map. eapply Forall_impl; [exact Hall|]. intros c [_ ?]. cbn. lia.
  - intros Hrun. destruct (IH s1 evs Hi1 Hops Hrun) as (Hi2 & Hc2 & Hh2 & Hall & Hsort).
    split_and!; try done; [by eapply config_le_trans|lia|].
    eapply Forall_impl; [exact Hall|]. intros c [? ?]. split; [done|lia].
  - intros [= <- <-]. split_and!; try done; constructor.
Qed.
(** C1: commits are certified. Along every run of a node from its start (any
    proposals, votes, timeouts, key registrations, prunes, epoch changes and
    seed rotations, in any order) with a fixed validator set, each [Committed]
    event carries a Commit-phase certificate for the hash of the committed
    block that verifies and whose signers are distinct members of the set, at
    least the quorum, each having sent a vote on exactly that data signed under
    its registered key; and committed heights strictly increase. *)
Theorem commit_certified me rules vs now ops evs s' :
  forallb (fun x => fixed_set x.2) ops = true → hs_run (hs_new me rules vs now) ops = (evs, s') →
  (∀ b qc, Committed b qc ∈ evs →
     qc_phase qc = 2 ∧ hash_of b = block_hash (vote_data qc) ∧ qc_verify qc = true ∧
     NoDup (signers qc) ∧ (quorum vs ≤ length (signers qc))%nat ∧
     ∀ a, a ∈ signers qc → a ∈ validators vs ∧
       ∃ v pk, validator_pubkeys s' !! a = Some pk ∧ voter v = a ∧ v_data v = vote_data qc ∧
               verify_single (signature v) pk (vote_msg (vote_data qc)) = true) ∧
  StronglySorted Z.lt (map (fun c => blk_number c.1) (omap commit_of evs)).
Proof.
  intros Hops Hrun. destruct (run_inv ops _ evs s' (hs_new_inv me rules vs now) Hops Hrun)
    as (_ & (Hv & Hq & _) & _ & Hall & Hsort).
  split; [|done]. intros b qc Hin. rewrite Forall_forall in Hall.
  destruct (Hall (b, qc)) as [((Hver & Hnd & Hlen & Hsig) & Hp & Hh) _].
  { apply list_elem_of_omap. by exists (Committed b qc). }
  cbn in *. rewrite Hv, Hq in *. by split_and!.
Qed.

(** A committed certificate of a run, in terms of the initial validator set. *)
Lemma run_committed me rules vs now ops evs s' b qc :
  forallb (fun x => fixed_set x.2) ops = true → hs_run (hs_new me rules vs now) ops = (evs, s') →
  Committed b qc ∈ evs → committed s' b qc ∧ config_le (hs_new me rules vs now) s'.
Proof.
  intros Hops Hrun Hin. destruct (run_inv ops _ evs s' (hs_new_inv me rules vs now) Hops Hrun)
    as (_ & Hc & _ & Hall & _).
  rewrite Forall_forall in Hall. destruct (Hall (b, qc)) as [Hcm _]; [|done].
  apply list_elem_of_omap. by exists (Committed b qc).
Qed.

Lemma double_signer_evidence s1 s2 qc1 qc2 a :
  certified s1 qc1 → certified s2 qc2 →
  (∀ x pk1 pk2, validator_pubkeys s1 !! x = Some pk1 → validator_pubkeys s2 !! x = Some pk2 → pk1 = pk2) →
  a ∈ signers qc1 → a ∈ signers qc2 →
  qc_block_number qc1 = qc_block_number qc2 → qc_phase qc1 = qc_phase qc2 →
  block_hash (vote_data qc1) ≠ block_hash (vote_data qc2) →
  ∃ va vb pk, validator_pubkeys s1 !! a = Some pk ∧
    ev_verify (mkEvidence a (qc_block_number qc1) (qc_phase qc1) va vb pk) = true.
Proof.
  intros (_ & _ & _ & Hs1) (_ & _ & _ & Hs2) Hreg Ha1 Ha2 Hnum Hph Hne.
  destruct (Hs1 a Ha1) as (_ & va & pk & Hpk & Hva & Hda & Hsa).
  destruct (Hs2 a Ha2) as (_ & vb & pk2 & Hpk2 & Hvb & Hdb & Hsb).
  specialize (Hreg a pk pk2 Hpk Hpk2) as <-. exists va, vb, pk. split; [done|].
  unfold ev_verify, qc_block_number, qc_phase in *. cbn. rewrite Hva, Hvb, Hda, Hdb, Hsa, Hsb, Hnum, Hph.
  rewrite !bool_decide_eq_true_2, !Z.eqb_refl by done. rewrite bool_decide_eq_false_2 by done. done.
Qed.

(** C2: accountable safety. If two nodes with the same validator set and
    agreeing key registries commit different blocks under certificates of the
    same height, then more than a third of the validators equivocated: for each
    of them there is evidence that [EquivocationEvidence::verify] accepts under
    its registered key. *)
Theorem accountable_safety vs me1 rules1 now1 ops1 evs1 s1 b1 qc1 me2 rules2 now2 ops2 evs2 s2 b2 qc2 :
  vs_new (validators vs) = Ok vs →
  forallb (fun x => fixed_set x.2) ops1 = true → hs_run (hs_new me1 rules1 vs now1) ops1 = (evs1, s1) →
  forallb (fun x => fixed_set x.2) ops2 = true → hs_run (hs_new me2 rules2 vs now2) ops2 = (evs2, s2) →
  (∀ x pk1 pk2, validator_pubkeys s1 !! x = Some pk1 → validator_pubkeys s2 !! x = Some pk2 → pk1 = pk2) →
  Committed b1 qc1 ∈ evs1 → Committed b2 qc2 ∈ evs2 →
  qc_block_number qc1 = qc_block_number qc2 → hash_of b1 ≠ hash_of b2 →
  ∃ L, NoDup L ∧ (length (validators vs) < 3 * length L)%nat ∧
    ∀ a, a ∈ L → a ∈ validators vs ∧ ∃ va vb pk, validator_pubkeys s1 !! a = Some pk ∧
      ev_verify (mkEvidence a (qc_block_number qc1) 2 va vb pk) = true.
Proof.
  intros Hvs Hf1 Hr1 Hf2 Hr2 Hreg Hin1 Hin2 Hnum Hne.
  destruct (run_committed _ _ _ _ _ _ _ _ _ Hf1 Hr1 Hin1) as [(Hc1 & Hp1 & Hh1) (Hv1 & Hq1 & _)].
  destruct (run_committed _ _ _ _ _ _ _ _ _ Hf2 Hr2 Hin2) as [(Hc2 & Hp2 & Hh2) (Hv2 & Hq2 & _)].
  assert (Hq : quorum vs = quorum_of (length (validators vs))).
  { unfold vs_new in Hvs. case_match; [|done]. by injection Hvs as <-. }
  pose proof Hc1 as (_ & Hnd1 & Hlen1 & Hs1). pose proof Hc2 as (_ & Hnd2 & Hlen2 & Hs2).
  rewrite Hv1 in Hs1. rewrite Hv2 in Hs2. rewrite Hq1 in Hlen1. rewrite Hq2 in Hlen2.
  cbn [hs_new validator_set] in *. rewrite Hq in Hlen1, Hlen2.
  destruct (overlap (validators vs) (signers qc1) (signers qc2)) as (L & HL & Hlen & Hin); try done;
    [intros a Ha; by apply (Hs1 a)|intros a Ha; by apply (Hs2 a)|].
  exists L. split_and!; try done. intros a Ha. destruct (Hin a Ha) as [Ha1 Ha2].
  split; [by apply Hs1|]. rewrite <- Hp1.
  apply (double_signer_evidence s1 s2 qc1 qc2 a); try done; [congruence|]. by rewrite <- Hh1, <- Hh2.
Qed.
(** ** The equivocation detector *)

(** A vote that passes the membership, registry and signature checks. *)
Definition admissible (s : HotStuffConsensus) (v : Vote) (pk : bytes) : Prop :=
  voter v ∈ validators (validator_set s) ∧ validator_pubkeys s !! voter v = Some pk ∧
  verify_single (signature v) pk (vote_msg (v_data v)) = true.

Definition vote_slot (v : Vote) : Z * Z * list Z := (block_number (v_data v), phase (v_data v), voter v).

(** Delivering [v] to [s] with outcome [r] reports its voter, and the evidence
    the node then assembles verifies. *)
Definition detected (s : HotStuffConsensus) (r : result) (v : Vote) (pk : bytes) : Prop :=
  (∃ h, h ≠ block_hash (v_data v) ∧
        r = Err (RemoteEquivocation (voter v) (block_number (v_data v)) (phase (v_data v)) h
                   (block_hash (v_data v)))) ∧
  ∃ ev, build_remote_equivocation_evidence s (voter v) (block_number (v_data v)) (phase (v_data v)) v pk = Some ev ∧
        ev_verify ev = true.

Lemma on_qc_core s qc now : core (on_qc s qc now).2 = core s.
Proof.
  unfold on_qc, phase_vote. repeat case_if; try done.
  - by destruct (vote _ _ _) as [[] ?].
  - by destruct (vote _ _ _) as [[] ?].
  - by repeat case_match.
Qed.

Lemma accumulate_seen s v pk now : seen_votes (accumulate s v pk now).2 = seen_votes s.
Proof.
  unfold accumulate. destruct (add_vote _ _ _) as [[[qc|]| |] a']; try done.
  pose proof (on_qc_core (upd_accs (<[(block_number (v_data v), phase (v_data v)):=a']> (vote_accumulators s)) s)
                qc now) as Hc. by injection Hc.
Qed.

Lemma on_vote_admissible s v pk now :
  admissible s v pk →
  on_vote s v pk now =
  match seen_votes s !! vote_slot v with
  | Some (h, prev, _) =>
      if bool_decide (h = block_hash (v_data v)) then accumulate s v pk now
      else (Err (RemoteEquivocation (voter prev) (block_number (v_data prev)) (phase (v_data prev))
                       (block_hash (v_data prev)) (block_hash (v_data v))), s)
  | None => accumulate (upd_seen (<[vote_slot v := (block_hash (v_data v), v, pk)]> (seen_votes s)) s) v pk now
  end.
Proof.
  intros (Hin & Hpk & Hver). unfold on_vote, vs_contains, vote_slot.
  rewrite bool_decide_eq_true_2, Hpk by done. cbn [negb]. rewrite bool_decide_eq_true_2, Hver by done. cbn [negb].
  repeat case_match; try done; by rewrite ?negb_true_iff, ?negb_false_iff in *; congruence.
Qed.

(** Against a recorded vote for another block, a vote is reported. *)
Lemma detect s v pk now h prev pk0 :
  inv s → admissible s v pk → seen_votes s !! vote_slot v = Some (h, prev, pk0) → h ≠ block_hash (v_data v) →
  detected s (on_vote s v pk now).1 v pk.
Proof.
  intros Hi Ha Hseen Hne. rewrite on_vote_admissible, Hseen, bool_decide_eq_false_2 by done. cbn [fst].
  destruct (inv_seen s Hi _ _ Hseen) as (Hek & Hh & Hpk0 & Hver). cbn in Hek, Hh, Hpk0, Hver.
  injection Hek as Hn Hp Hvt. destruct Ha as (_ & Hpk & Hv). split.
  - exists h. split; [done|]. by rewrite Hn, Hp, Hvt, Hh.
  - assert (pk0 = pk) as -> by (rewrite <- Hvt in Hpk0; congruence).
    exists (mkEvidence (voter v) (block_number (v_data v)) (phase (v_data v)) prev v pk).
    assert (He : ev_verify (mkEvidence (voter v) (block_number (v_data v)) (phase (v_data v)) prev v pk) = true).
    { unfold ev_verify. cbn. rewrite <- Hn, <- Hp, <- Hvt, !bool_decide_eq_true_2, !Z.eqb_refl by done.
      rewrite bool_decide_eq_false_2 by congruence. cbn. by rewrite Hver, Hv. }
    split; [|done]. unfold build_remote_equivocation_evidence, vote_slot in *. by rewrite Hseen, He.
Qed.

(** Steps other than prunes keep what the detector recorded. *)
Lemma step_seen s now op :
  keeps_votes op = true → seen_votes s ⊆ seen_votes (hs_step s now op).2 .
Proof.
  destruct op as [b qc|v pk| |addrs|seed|a pk|rd|e]; cbn; try done.
  - intros _. unfold process_proposal, on_proposal. repeat case_match; try done; cbn; simplify_eq; done.
  - intros _. unfold process_vote, on_vote. repeat (case_match; try done); rewrite accumulate_seen; try done.
    by apply insert_subseteq.
  - intros _. unfold register_validator_pubkey. by repeat case_match.
Qed.

Lemma run_seen ops s :
  forallb (fun x => keeps_votes x.2) ops = true → seen_votes s ⊆ seen_votes (hs_run s ops).2.
Proof.
  revert s. induction ops as [|[now op] ops IH]; intros s; cbn; [done|].
  intros [Hop Hops]%andb_true_iff. pose proof (step_seen s now op Hop) as Hs.
  destruct (hs_step s now op) as [[es|e|] s1]; cbn in *; [|by etrans; [|apply IH]|done].
  specialize (IH s1 Hops). destruct (hs_run s1 ops) as [evs s2]. by etrans.
Qed.

Lemma keeps_fixed (ops : list (Z * hs_op)) :
  forallb (fun x => keeps_votes x.2) ops = true → forallb (fun x => fixed_set x.2) ops = true.
Proof. intros Hk. apply forallb_forall. intros x Hx. eapply forallb_forall in Hk; [|done]. by destruct x as [? []]. Qed.

(** C34: equivocation is detected. When a registered validator of the set signs
    two votes for the same height and phase and different blocks, and both reach
    a node, at any two moments of a run in which the validator set is not
    updated, with no prune between the two deliveries, at least one of them
    returns [RemoteEquivocation] naming that validator, and
    [build_remote_equivocation_evidence] then yields evidence that verifies.
    After an update that removes the validator nothing is reported. *)
Theorem equivocation_detected me rules vs now ops0 evs0 s0 v1 v2 pk t1 r1 s1 ops1 evs1 s2 t2 :
  forallb (fun x => fixed_set x.2) ops0 = true → hs_run (hs_new me rules vs now) ops0 = (evs0, s0) →
  admissible s0 v1 pk → admissible s0 v2 pk → vote_slot v1 = vote_slot v2 →
  block_hash (v_data v1) ≠ block_hash (v_data v2) →
  on_vote s0 v1 pk t1 = (r1, s1) →
  forallb (fun x => keeps_votes x.2) ops1 = true → hs_run s1 ops1 = (evs1, s2) →
  detected s0 r1 v1 pk ∨ detected s2 (on_vote s2 v2 pk t2).1 v2 pk.
Proof.
  intros Hf0 Hr0 Ha1 Ha2 Hslot Hne Hv1 Hk1 Hr1.
  destruct (run_inv ops0 _ _ _ (hs_new_inv me rules vs now) Hf0 Hr0) as (Hi0 & _).
  destruct (on_vote_ok _ _ _ _ _ _ Hi0 Hv1) as (Hi1 & Hc1 & _).
  destruct (run_inv ops1 _ _ _ Hi1 (keeps_fixed _ Hk1) Hr1) as (Hi2 & Hc2 & _).
  pose proof (run_seen ops1 s1 Hk1) as Hsub. rewrite Hr1 in Hsub. cbn in Hsub.
  assert (Hrec : detected s0 r1 v1 pk ∨
                 ∃ p k, seen_votes s1 !! vote_slot v1 = Some (block_hash (v_data v1), p, k)).
  { destruct (seen_votes s0 !! vote_slot v1) as [[[h prev] pk0]|] eqn:Hseen.
    - destruct (decide (h = block_hash (v_data v1))) as [->|Hh].
      + right. exists prev, pk0. rewrite on_vote_admissible, Hseen, bool_decide_eq_true_2 in Hv1 by done.
        pose proof (accumulate_seen s0 v1 pk t1) as Hs. rewrite Hv1 in Hs. cbn in Hs. by rewrite Hs.
      + left. pose proof (detect s0 v1 pk t1 h prev pk0 Hi0 Ha1 Hseen Hh) as Hd. by rewrite Hv1 in Hd.
    - right. exists v1, pk. rewrite on_vote_admissible, Hseen in Hv1 by done.
      pose proof (accumulate_seen (upd_seen (<[vote_slot v1:=(block_hash (v_data v1), v1, pk)]> (seen_votes s0)) s0)
        v1 pk t1) as Hs. rewrite Hv1 in Hs. cbn in Hs. rewrite Hs. apply lookup_insert_eq. }
  destruct Hrec as [Hd|(p & k & Hp)]; [by left|right].
  apply (detect s2 v2 pk t2 (block_hash (v_data v1)) p k); [done| |rewrite <- Hslot; by eapply lookup_weaken|done].
  destruct (config_le_trans _ _ _ Hc1 Hc2) as (Hvs & _ & Hkeys). destruct Ha2 as (? & ? & ?).
  split_and!; [by rewrite Hvs|by eapply lookup_weaken|done].
Qed.
(** ** Forged parent certificates *)

Lemma proposer_member vs r p : proposer_for_round vs r = Ok p → vs_contains vs p = true.
Proof.
  unfold proposer_for_round. case_if; [done|]. case_match eqn:E; [|done]. intros [= <-].
  apply bool_decide_eq_true_2. by eapply list_elem_of_lookup_2.
Qed.

(** A certificate with no signers that claims to be for block [U64_MAX]. *)
Definition forged_qc : QuorumCertificate := mkQC (mkVoteData H256_zero U64_MAX 0 0) [] [] [].

(** The lock does not bind. [QuorumCertificate::verify] accepts any
    certificate without signer keys and [on_proposal] does not count signers, so
    a proposer that attaches [forged_qc] obtains the Prepare vote of every
    validator that has not voted at that height or above it and is in the
    block's epoch, whatever block that validator is locked on. *)
Theorem forged_qc_bypasses_lock s b :
  proposer_for_round (validator_set s) (blk_number b) = Ok (Block.blk_coinbase b) →
  highest_vote_round (state (safety_rules s)) ≤ blk_number b →
  ((blk_number b, 0) ∉ voted_phases (state (safety_rules s))) →
  (s_epoch (state (safety_rules s)) = 0 ∨ s_epoch (state (safety_rules s)) = Block.epoch (Block.header b)) →
  is_u64 (locked_round (state (safety_rules s))) →
  ∃ v s', on_proposal s b forged_qc = (Ok [VoteCast v], s') ∧ block_hash (v_data v) = hash_of b.
Proof.
  intros Hp Hh Hv He Hl. unfold on_proposal. rewrite Hp, bool_decide_eq_true_2 by done.
  cbn [negb qc_verify forged_qc signer_pubkeys]. unfold qc_verify. cbn [negb signer_pubkeys forged_qc].
  rewrite bool_decide_eq_true_2 by done. cbn [negb]. rewrite (proposer_member _ _ _ Hp). cbn [negb].
  unfold vote. cbn [upd_store safety_rules block_number phase epoch phase_u8].
  rewrite (proj2 (Z.ltb_ge _ _)) by lia. rewrite bool_decide_eq_false_2 by done.
  unfold qc_block_number, is_u64 in *. cbn [forged_qc vote_data block_number].
  rewrite (proj2 (Z.ltb_ge U64_MAX _)) by (unfold U64_MAX; lia).
  replace (_ && _) with false by (destruct He as [-> | ->]; rewrite ?Z.eqb_refl, ?andb_false_r; done).
  by eexists _, _.
Qed.
End Driver.
Arguments HotStuffConsensus : clear implicits.
Arguments ConsensusEvent : clear implicits.
Arguments hs_op : clear implicits.

(** ** Concrete runs *)

Module Samples.
Import Votes.Toy.

Definition val (i : Z) : address := replicate 20 i.
Definition four : list address := [val 1; val 2; val 3; val 4].
Definition vset : ValidatorSet := mkSet four 3 H256_zero.

(** Block 1, proposed by the second validator; [fee] tells two blocks apart. *)
Definition blk (fee : Z) : Block.Block unit :=
  let zero := replicate 32 0 in
  Block.mkBlock (Block.mkHeader zero zero (val 2) zero zero zero (replicate 256 0) 1 1 30000000 0 5 []
                   zero 0 fee [] 0 None) (Block.mkBody [] []).

Definition genesis_qc : QuorumCertificate := mkQC (mkVoteData H256_zero 0 0 0) [] [] [].
Definition cv (i fee ph : Z) : Vote :=
  let d := mkVoteData (hash_of (blk fee)) 1 ph 0 in mkVote d (val i) (sign [i] (vote_msg d)).

Definition setup : list (Z * hs_op unit) :=
  [(0, RegisterKey (val 1) [1]); (0, RegisterKey (val 2) [2]); (0, RegisterKey (val 3) [3]); (0, RegisterKey (val 4) [4])].

(** A run in which the block with the given fee is committed. *)
Definition commit_run (fee : Z) : list (Z * hs_op unit) :=
  setup ++ [(1, Proposal (blk fee) genesis_qc); (2, VoteMsg (cv 1 fee 2) [1]); (3, VoteMsg (cv 2 fee 2) [9]);
            (3, VoteMsg (cv 2 fee 2) [2]); (4, VoteMsg (cv 2 fee 2) [2]); (5, VoteMsg (cv 3 fee 2) [3])].

Definition node (i : Z) : HotStuffConsensus unit := hs_new (val i) (rules_new [i] (val i)) vset 0.
Definition events (i fee : Z) : list (ConsensusEvent unit) := (hs_run (node i) (commit_run fee)).1.
Definition final (i fee : Z) : HotStuffConsensus unit := (hs_run (node i) (commit_run fee)).2.
Definition committed_qc (i fee : Z) : QuorumCertificate := default genesis_qc (snd <$> head (omap commit_of (events i fee))).

Lemma committed_in (evs : list (ConsensusEvent unit)) b qc :
  omap commit_of evs = [(b, qc)] → Committed b qc ∈ evs.
Proof.
  intros He. assert (Hin : (b, qc) ∈ omap commit_of evs) by (rewrite He; by constructor).
  apply list_elem_of_omap in Hin as (e & He' & Hc). destruct e; cbn in Hc; try done. by injection Hc as -> ->.
Qed.

Lemma same_keys (m : gmap (list Z) (list Z)) x pk1 pk2 : m !! x = Some pk1 → m !! x = Some pk2 → pk1 = pk2.
Proof. congruence. Qed.

Lemma commit_certified_witness :
  let evs := events 1 7 in let s' := final 1 7 in
  length (omap commit_of evs) = 1%nat ∧
  (∀ b qc, Committed b qc ∈ evs →
     qc_phase qc = 2 ∧ hash_of b = block_hash (vote_data qc) ∧ qc_verify qc = true ∧
     NoDup (signers qc) ∧ (quorum vset ≤ length (signers qc))%nat ∧
     ∀ a, a ∈ signers qc → a ∈ validators vset ∧
       ∃ v pk, validator_pubkeys s' !! a = Some pk ∧ voter v = a ∧ v_data v = vote_data qc ∧
               verify_single (signature v) pk (vote_msg (vote_data qc)) = true) ∧
  StronglySorted Z.lt (map (fun c => blk_number c.1) (omap commit_of evs)).
Proof.
  intros evs s'. split; [vm_compute; reflexivity|].
  apply (commit_certified (val 1) (rules_new [1] (val 1)) vset 0 (commit_run 7) evs s');
    [vm_compute; reflexivity | apply surjective_pairing].
Defined.

Lemma accountable_safety_witness :
  ∃ L, NoDup L ∧ (length four < 3 * length L)%nat ∧
    ∀ a, a ∈ L → a ∈ four ∧ ∃ va vb pk, validator_pubkeys (final 1 7) !! a = Some pk ∧
      ev_verify (mkEvidence a (qc_block_number (committed_qc 1 7)) 2 va vb pk) = true.
Proof.
  apply (accountable_safety vset
    (val 1) (rules_new [1] (val 1)) 0 (commit_run 7) (events 1 7) (final 1 7) (blk 7) (committed_qc 1 7)
    (val 2) (rules_new [2] (val 2)) 0 (commit_run 8) (events 2 8) (final 2 8) (blk 8) (committed_qc 2 8)).
  - reflexivity.
  - vm_compute; reflexivity.
  - apply surjective_pairing.
  - vm_compute; reflexivity.
  - apply surjective_pairing.
  - assert (Hk : validator_pubkeys (final 1 7) = validator_pubkeys (final 2 8)) by (vm_compute; reflexivity).
    rewrite Hk. apply same_keys.
  - apply committed_in. vm_compute. reflexivity.
  - apply committed_in. vm_compute. reflexivity.
  - vm_compute; reflexivity.
  - vm_compute. discriminate.
Defined.

Lemma quorum_intersection_witness :
  (quorum vset ≤ length four)%nat ∧ ∃ a, a ∈ [val 1; val 2; val 3] ∧ a ∈ [val 2; val 3; val 4] ∧ (a ∉ [val 2]).
Proof.
  apply (quorum_intersection four vset [val 1; val 2; val 3] [val 2; val 3; val 4] [val 2]).
  - reflexivity.
  - apply (bool_decide_unpack _). vm_compute. exact I.
  - apply (bool_decide_unpack _). vm_compute. exact I.
  - apply Forall_forall, (bool_decide_unpack _). vm_compute. exact I.
  - apply Forall_forall, (bool_decide_unpack _). vm_compute. exact I.
  - cbn. lia.
  - cbn. lia.
  - cbn. lia.
Defined.

(** The node after the set-up, and after the first of two conflicting votes. *)
Definition start : HotStuffConsensus unit := (hs_run (node 1) setup).2.
Definition after_first : HotStuffConsensus unit := (on_vote start (cv 3 7 0) [3] 1).2.
Definition between : list (Z * hs_op unit) := [(2, TimerFired); (3, VoteMsg (cv 4 7 0) [4])].

Lemma admissible_start fee : cv 3 fee 0 = cv 3 7 0 ∨ cv 3 fee 0 = cv 3 8 0 → admissible start (cv 3 fee 0) [3].
Proof.
  intros [-> | ->]; split_and!; try (vm_compute; reflexivity).
  all: apply (bool_decide_unpack _); vm_compute; exact I.
Qed.

Lemma equivocation_detected_witness :
  detected start (on_vote start (cv 3 7 0) [3] 1).1 (cv 3 7 0) [3] ∨
  detected (hs_run after_first between).2
    (on_vote (hs_run after_first between).2 (cv 3 8 0) [3] 4).1 (cv 3 8 0) [3].
Proof.
  apply (equivocation_detected (val 1) (rules_new [1] (val 1)) vset 0 setup (hs_run (node 1) setup).1 start
    (cv 3 7 0) (cv 3 8 0) [3] 1 (on_vote start (cv 3 7 0) [3] 1).1 after_first between
    (hs_run after_first between).1 (hs_run after_first between).2 4).
  - reflexivity.
  - apply surjective_pairing.
  - apply admissible_start. by left.
  - apply admissible_start. by right.
  - vm_compute. reflexivity.
  - vm_compute. discriminate.
  - apply surjective_pairing.
  - reflexivity.
  - apply surjective_pairing.
Defined.

(** A validator locked on round 40 that has not voted at height 1. *)
Definition locked : HotStuffConsensus unit :=
  upd_rules (update_locked_qc (rules_new [1] (val 1)) (mkQC (mkVoteData H256_zero 40 0 0) [] [] [])) (node 1).

Lemma forged_qc_bypasses_lock_witness :
  ∃ v s', on_proposal locked (blk 7) forged_qc = (Ok [VoteCast v], s') ∧ block_hash (v_data v) = hash_of (blk 7).
Proof.
  apply (forged_qc_bypasses_lock locked (blk 7)).
  - vm_compute. reflexivity.
  - vm_compute. discriminate.
  - apply (bool_decide_unpack _). vm_compute. exact I.
  - left. reflexivity.
  - vm_compute. split; congruence.
Defined.

(** A validator-set change does not reach the votes already counted. An
    accumulator keeps the quorum of the set it was opened under: after the set
    grows from four validators to seven, whose quorum is five, a block is
    committed by three votes, two of which arrived before the change. *)
Theorem stale_quorum_after_update :
  let ops := setup ++ [(1, Proposal (blk 7) genesis_qc); (2, VoteMsg (cv 1 7 2) [1]); (3, VoteMsg (cv 2 7 2) [2]);
               (4, SetValidators (four ++ [val 5; val 6; val 7])); (5, VoteMsg (cv 3 7 2) [3])] in
  let '(evs, s') := hs_run (node 1) ops in
  quorum (validator_set s') = 5%nat ∧
  match omap commit_of evs with [(b, qc)] => b = blk 7 ∧ signer_count qc = 3%nat | _ => False end.
Proof. vm_compute. split_and!; reflexivity. Qed.
End Samples.
End HotStuff.
