(* ===== verification/Progress.v ===== *)
(** * Progress of a round of consensus

    The liveness of the driver of [HotStuff]: when a quorum of validators is
    live and ready for a height, one proposal by the elected proposer and three
    exchanges of votes commit the block on every live node, in whatever order
    the votes arrive. The other validators may be silent. *)

From S2P Require Import Prelude.
From S2P Require Import EvmBase.
From S2P Require Import EvmHost.
From S2P Require Import Votes.
From S2P Require Import Block.
From S2P Require Import Safety.
From S2P Require Import Liveness.
From S2P Require Import HotStuff.

Module Progress.
Import EvmHost Votes Safety Liveness HotStuff.

Section Round.
Context `{Keccak} `{!Bls} `{!BlsLaws} {Tx : Type}.

(** The validator set, the proposed block, the epoch of the pacemakers and the
    live validators with their keys. *)
Context (vs : ValidatorSet) (b : Block.Block Tx) (e : Z) (live : list (address * bytes)).

Abbreviation Node := (HotStuffConsensus Tx).
Abbreviation Event := (ConsensusEvent Tx).
Abbreviation n := (blk_number b).
Abbreviation q := (quorum vs).

(** What the live validators vote on in each phase (the first vote carries the
    block's epoch, the later ones the pacemaker's), and their votes. *)
Definition data (k : Z) : VoteData :=
  mkVoteData (hash_of b) n k (if k =? 0 then Block.epoch (Block.header b) else e).
Definition own_vote (x : address * bytes) (k : Z) : Vote := mkVote (data k) x.1 (sign x.2 (vote_msg (data k))).
Definition ballot (k : Z) (x : address * bytes) : Vote * bytes := (own_vote x k, to_pubkey x.2).

(** [x] is ready for the height: it has seen and counted no vote from phase [k]
    on, has cast none from phase [m] on, and neither its lock nor its last vote
    is beyond the height. *)
Record fresh (k m : Z) (x : address * bytes) (s : Node) : Prop := {
  fr_rules : sr_address (safety_rules s) = x.1 ∧ priv_key (safety_rules s) = x.2 ∧
             pub_key (safety_rules s) = to_pubkey x.2;
  fr_set : validator_set s = vs;
  fr_keys : ∀ y, y ∈ live → validator_pubkeys s !! y.1 = Some (to_pubkey y.2);
  fr_accs : ∀ j, k ≤ j → vote_accumulators s !! (n, j) = None;
  fr_seen : ∀ j y, k ≤ j → y ∈ live → seen_votes s !! (n, j, y.1) = None;
  fr_voted : ∀ j, m ≤ j → (n, j) ∉ voted_phases (state (safety_rules s));
  fr_round : highest_vote_round (state (safety_rules s)) ≤ n;
  fr_lock : locked_round (state (safety_rules s)) ≤ n;
  fr_epoch : s_epoch (state (safety_rules s)) = 0 ∨
             s_epoch (state (safety_rules s)) = e ∧ Block.epoch (Block.header b) = e;
  fr_pace : current_epoch (pacemaker s) = e;
  fr_height : m ≤ 3 → committed_height s < n
}.

(** The ballots counted so far, as the accumulator files them. *)
Definition filed (done : list (Vote * bytes)) : gmap (list Z) (Vote * list Z) :=
  fold_left (fun m x => <[voter x.1 := x]> m) done ∅.

(** What completing a quorum of phase [k] makes [x] do. *)
Definition phase_event (k : Z) (x : address * bytes) (evs : list Event) : Prop :=
  if k <? 2 then evs = [VoteCast (own_vote x (k + 1))] else ∃ qc, evs = [Committed b qc] ∧ vote_data qc = data 2.

(** A node in the middle of phase [k], having counted the ballots [done]. *)
Record collecting (k : Z) (x : address * bytes) (done : list (address * bytes)) (s : Node) : Prop := {
  co_fresh : fresh (k + 1) (if (q <=? length done)%nat then k + 2 else k + 1) x s;
  co_store : store_get (block_store s) (hash_of b) = Some b;
  co_acc : default (acc_new (data k) q) (vote_accumulators s !! (n, k)) = mkAcc (data k) (filed (map (ballot k) done)) q;
  co_seen : ∀ y, y ∈ live → y.1 ∉ done.*1 → seen_votes s !! (n, k, y.1) = None;
  co_fired : (q ≤ length done)%nat →
    if k <? 2 then (n, k + 1) ∈ voted_phases (state (safety_rules s)) else n ≤ committed_height s
}.

Hypothesis Hquorum : (0 < q)%nat.
Hypothesis Hlive : NoDup live.*1.
Hypothesis Hmembers : ∀ x, x ∈ live → x.1 ∈ validators vs.

(** Own signatures of distinct live validators add up to a signature; the
    aggregation fails on an empty list, on malformed signatures and on a sum
    that is the identity. *)
Hypothesis Haggregate : ∀ msg L, L ≠ [] → NoDup L → (∀ x, x ∈ L → x ∈ live) →
  is_Some (aggregate_signatures (map (fun x => sign x.2 msg) L)).

(** ** Counting *)

Lemma filed_app done x : filed (done ++ [x]) = <[voter x.1 := x]> (filed done).
Proof. unfold filed. by rewrite fold_left_app. Qed.

Lemma filed_lookup k done a y :
  filed (map (ballot k) done) !! a = Some y → ∃ x, x ∈ done ∧ a = x.1 ∧ y = ballot k x.
Proof.
  revert a y. induction done as [|x done IH] using rev_ind; intros a y; [done|].
  rewrite map_app. cbn [map]. rewrite filed_app. intros [[<- <-]|[_ Hy]]%lookup_insert_Some.
  - exists x. split_and!; [set_solver|done|done].
  - apply IH in Hy as (x' & Hx' & -> & ->). exists x'. set_solver.
Qed.

Lemma filed_fresh k done (x : address * bytes) : x.1 ∉ done.*1 → filed (map (ballot k) done) !! x.1 = None.
Proof.
  intros Hx. destruct (filed _ !! x.1) as [y|] eqn:E; [|done]. apply filed_lookup in E as (x' & Hx' & Hn & _).
  exfalso. apply Hx. rewrite Hn. apply list_elem_of_fmap. eauto.
Qed.

Lemma filed_size k (done : list (address * bytes)) : NoDup done.*1 → size (filed (map (ballot k) done)) = length done.
Proof.
  induction done as [|x done IH] using rev_ind; [done|]. rewrite fmap_app. intros (Hd & Hn & _)%NoDup_app.
  rewrite map_app, length_app. cbn [map length]. rewrite filed_app. cbn [voter ballot own_vote fst].
  rewrite map_size_insert_None, IH by (done || apply filed_fresh; set_solver). lia.
Qed.

(** The values of the file are the ballots of distinct live validators. *)
Lemma filed_values k (done : list (address * bytes)) :
  NoDup done.*1 → ∃ L, L ≡ₚ done ∧ map snd (map_to_list (filed (map (ballot k) done))) = map (ballot k) L.
Proof.
  intros Hd. enough (map_to_list (filed (map (ballot k) done)) ≡ₚ map (fun x => (x.1, ballot k x)) done) as Hp.
  { apply Permutation_map_inv in Hp as (L & HL & Hp). exists L. split; [by symmetry|]. by rewrite HL, map_map. }
  induction done as [|x done IH] using rev_ind; [done|]. rewrite fmap_app in Hd. apply NoDup_app in Hd as (Hd & Hn & _).
  rewrite map_app. cbn [map]. rewrite filed_app. cbn [voter ballot own_vote fst].
  rewrite map_to_list_insert by (apply filed_fresh; set_solver). rewrite IH, map_app by done. cbn.
  by rewrite Permutation_cons_append.
Qed.

(** A quorum of ballots forms a certificate of the phase's data. *)
Lemma form_qc_filed k (done : list (address * bytes)) :
  done ≠ [] → NoDup done.*1 → (∀ x, x ∈ done → x ∈ live) →
  ∃ qc, form_qc (mkAcc (data k) (filed (map (ballot k) done)) q) = Ok qc ∧ vote_data qc = data k.
Proof.
  intros Hne Hd Hin. unfold form_qc, acc_values. cbn [acc_votes].
  destruct (filed_values k done Hd) as (L & HL & ->). rewrite map_map. cbn [ballot own_vote signature fst].
  destruct (Haggregate (vote_msg (data k)) L) as [agg Ha].
  - intros ->. by apply Permutation_nil in HL.
  - rewrite HL. by eapply NoDup_fmap_1.
  - intros x. rewrite HL. apply Hin.
  - rewrite Ha. eauto.
Qed.

(** ** One node *)

(** The safety rules allow the vote of the next phase. *)
Lemma vote_ok k m x s qc :
  fresh k m x s → m ≤ 2 → (n, m) ∉ voted_phases (state (safety_rules s)) →
  locked_round (state (safety_rules s)) ≤ qc_block_number qc →
  ∃ r, vote (safety_rules s) (data m) qc = (Ok (own_vote x m), r) ∧
    sr_address r = x.1 ∧ priv_key r = x.2 ∧ pub_key r = to_pubkey x.2 ∧
    voted_phases (state r) = {[(n, m)]} ∪ voted_phases (state (safety_rules s)) ∧
    highest_vote_round (state r) = n ∧ locked_round (state r) = locked_round (state (safety_rules s)) ∧
    s_epoch (state r) = s_epoch (state (safety_rules s)).
Proof.
  intros Hf Hm Hv Hl. destruct Hf as [(Ha & Hk & Hp) _ _ _ _ _ Hr _ He _ _].
  unfold vote. cbn [block_number phase epoch data].
  rewrite (proj2 (Z.ltb_ge n _)), bool_decide_eq_false_2, (proj2 (Z.ltb_ge (qc_block_number qc) _)) by done.
  match goal with |- context [negb (?x =? _) && _] =>
    assert (negb (x =? s_epoch (state (safety_rules s))) && negb (s_epoch (state (safety_rules s)) =? 0) = false) as -> end.
  { destruct He as [-> |[-> ->]]; [by rewrite andb_false_r|]. case_if; by rewrite Z.eqb_refl. }
  unfold own_vote. rewrite Ha, Hk. eexists. split; [done|]. unfold persist_state. cbn. by destruct (persist _).
Qed.

(** Once cast, it is refused. *)
Lemma vote_again k m x s qc j :
  fresh k m x s → (n, j) ∈ voted_phases (state (safety_rules s)) →
  vote (safety_rules s) (data j) qc = (Err DuplicateVote, safety_rules s).
Proof.
  intros Hf Hv. unfold vote. cbn [block_number phase epoch data].
  by rewrite (proj2 (Z.ltb_ge n _)), bool_decide_eq_true_2 by (done || apply Hf).
Qed.

Lemma phase_vote_step k x s qc p (fired : bool) :
  0 ≤ k < 2 → phase_u8 p = k + 1 → vote_data qc = data k → fresh (k + 1) (if fired then k + 2 else k + 1) x s →
  (fired = true → (n, k + 1) ∈ voted_phases (state (safety_rules s))) →
  ∃ evs s', phase_vote s qc p = (Ok evs, s') ∧ (if fired then evs = [] else evs = [VoteCast (own_vote x (k + 1))]) ∧
    fresh (k + 1) (k + 2) x s' ∧ core s' = core s ∧ (n, k + 1) ∈ voted_phases (state (safety_rules s')).
Proof.
  intros Hk Hp Hd Hf Hv. unfold phase_vote, qc_block_number. rewrite Hd, Hp, (fr_pace _ _ _ _ Hf). cbn [block_hash block_number data].
  assert (mkVoteData (hash_of b) n (k + 1) e = data (k + 1)) as ->.
  { unfold data. by rewrite (proj2 (Z.eqb_neq _ _)) by lia. }
  destruct fired.
  - rewrite (vote_again _ _ _ _ _ _ Hf) by auto. exists [], (upd_rules (safety_rules s) s).
    destruct s; cbn in *; split_and!; try done; by apply Hv.
  - destruct (vote_ok _ _ _ _ qc Hf) as (r & -> & R1 & R2 & R3 & R4 & R5 & R6 & R7);
      [lia|by apply Hf|unfold qc_block_number; rewrite Hd; apply (fr_lock _ _ _ _ Hf)|].
    exists [VoteCast (own_vote x (k + 1))], (upd_rules r s). split_and!; try done; [|cbn; rewrite R4; set_solver].
    destruct Hf. split; cbn; rewrite ?R4, ?R5, ?R6, ?R7; try done.
    + intros j Hj. pose proof (fr_voted0 j ltac:(lia)). intros [[= ]%elem_of_singleton|?]%elem_of_union; [lia|done].
    + intros _. apply fr_height0. lia.
Qed.

Lemma fresh_lock k m x s qc j :
  fresh k m x s → vote_data qc = data j →
  fresh k m x (upd_high_qc (Some qc) (upd_rules (update_locked_qc (safety_rules s) qc) s)).
Proof.
  intros Hf Hd. unfold update_locked_qc, qc_block_number. rewrite Hd. cbn [block_number data].
  case_if; destruct Hf; by split.
Qed.

Lemma voted_lock s qc :
  voted_phases (state (update_locked_qc (safety_rules (s : Node)) qc)) = voted_phases (state (safety_rules s)).
Proof. unfold update_locked_qc. by case_if. Qed.

(** What the certificate of a phase makes the node do. *)
Lemma on_qc_step k x s qc now (fired : bool) :
  0 ≤ k ≤ 2 → vote_data qc = data k → fresh (k + 1) (if fired then k + 2 else k + 1) x s →
  store_get (block_store s) (hash_of b) = Some b →
  (fired = true → if k <? 2 then (n, k + 1) ∈ voted_phases (state (safety_rules s)) else n ≤ committed_height s) →
  ∃ evs s', on_qc s qc now = (Ok evs, s') ∧ (if fired then evs = [] else phase_event k x evs) ∧
    fresh (k + 1) (k + 2) x s' ∧ core s' = core s ∧
    (if k <? 2 then (n, k + 1) ∈ voted_phases (state (safety_rules s')) else n ≤ committed_height s').
Proof.
  intros Hk Hd Hf Hst Hv. unfold on_qc, qc_phase. rewrite Hd. cbn [phase data]. unfold phase_event.
  assert (k = 0 ∨ k = 1 ∨ k = 2) as [-> |[-> | ->]] by lia; cbn [Z.eqb Z.ltb Z.compare Pos.compare Pos.compare_cont Pos.eqb] in *.
  - set (s1 := upd_high_qc _ _).
    destruct (phase_vote_step 0 x s1 qc PreCommit fired) as (evs & s' & E & He & Hf' & Hc & Hv'); try done.
    + by eapply fresh_lock.
    + cbn [s1 upd_high_qc upd_rules safety_rules]. by rewrite voted_lock.
    + exists evs, s'. by destruct fired.
  - destruct (phase_vote_step 1 x s qc Commit fired) as (evs & s' & E & He & Hf' & Hc & Hv'); try done.
    exists evs, s'. by destruct fired.
  - cbn [block_hash data]. rewrite Hst. destruct fired.
    + rewrite (proj2 (Z.ltb_ge _ _)) by auto. exists [], s. split_and!; try done. by apply Hv.
    + rewrite (proj2 (Z.ltb_lt _ _)) by (apply Hf; lia). eexists _, _. split; [done|]. split_and!; try done; [by eexists|].
      destruct Hf. split; cbn; try done.
      * intros j Hj. apply fr_voted0. lia.
      * unfold advance_round, current_epoch in *. by case_if.
Qed.

(** The accumulator takes a new ballot. *)
Lemma add_vote_filed k done y :
  y ∈ live → y.1 ∉ done.*1 → NoDup done.*1 → (∀ z, z ∈ done → z ∈ live) →
  ∃ r, add_vote (mkAcc (data k) (filed (map (ballot k) done)) q) (own_vote y k) (to_pubkey y.2)
         = (Ok r, mkAcc (data k) (filed (map (ballot k) (done ++ [y]))) q) ∧
    if (q <=? S (length done))%nat then ∃ qc, r = Some qc ∧ vote_data qc = data k else r = None.
Proof.
  intros Hy Hnew Hd Hin. unfold add_vote. cbn [own_vote v_data acc_data voter signature acc_votes acc_quorum].
  rewrite bool_decide_eq_true_2, filed_fresh, sign_verifies by done. cbn [negb is_Some bool_decide].
  rewrite bool_decide_eq_false_2 by (by intros [? ?]).
  assert (<[y.1 := (own_vote y k, to_pubkey y.2)]> (filed (map (ballot k) done)) = filed (map (ballot k) (done ++ [y]))) as Hi
    by (rewrite map_app; cbn [map]; by rewrite filed_app).
  rewrite Hi. clear Hi.
  assert (Hd' : NoDup (done ++ [y]).*1).
  { rewrite fmap_app. apply NoDup_app. split_and!; [done| |apply NoDup_singleton]. intros a Ha ->%list_elem_of_singleton. done. }
  rewrite filed_size, length_app, Nat.add_1_r by done. destruct (q <=? S (length done))%nat; [|eauto].
  destruct (form_qc_filed k (done ++ [y])) as (qc & -> & Hq); [by destruct done|done|set_solver|]. cbn. eauto.
Qed.

(** One ballot is counted. *)
Lemma collect_step k x done y s now :
  0 ≤ k ≤ 2 → collecting k x done s → y ∈ live → y.1 ∉ done.*1 → NoDup done.*1 → (∀ z, z ∈ done → z ∈ live) →
  ∃ evs s', on_vote s (ballot k y).1 (ballot k y).2 now = (Ok evs, s') ∧ collecting k x (done ++ [y]) s' ∧
    if (q =? S (length done))%nat then phase_event k x evs else evs = [].
Proof.
  intros Hk [Hf Hst Ha Hs Hv] Hy Hnew Hd Hin. cbn [ballot fst snd].
  rewrite on_vote_admissible.
  2: { split_and!; cbn; [rewrite (fr_set _ _ _ _ Hf); by apply Hmembers|by apply Hf|apply sign_verifies]. }
  unfold vote_slot. change (v_data (own_vote y k)) with (data k). change (voter (own_vote y k)) with y.1.
  cbn [block_number phase data block_hash]. rewrite Hs by done. unfold accumulate.
  change (v_data (own_vote y k)) with (data k). cbn [block_number phase data upd_seen validator_set vote_accumulators].
  rewrite (fr_set _ _ _ _ Hf). fold (data k). rewrite Ha.
  destruct (add_vote_filed k done y Hy Hnew Hd Hin) as (r & Ev & Hr). rewrite Ev. clear Ev.
  set (s1 := upd_accs _ _).
  assert (Hf1 : fresh (k + 1) (if (q <=? length done)%nat then k + 2 else k + 1) x s1).
  { destruct Hf. split; try done; cbn.
    - intros j Hj. rewrite lookup_insert_ne by (intros [=]; lia). by apply fr_accs0.
    - intros j z Hj Hz. rewrite lookup_insert_ne by (intros [=]; lia). by apply fr_seen0. }
  assert (Ha1 : ∀ s', core s' = core s1 →
    default (acc_new (data k) q) (vote_accumulators s' !! (n, k)) = mkAcc (data k) (filed (map (ballot k) (done ++ [y]))) q ∧
    store_get (block_store s') (hash_of b) = Some b ∧
    ∀ z, z ∈ live → z.1 ∉ (done ++ [y]).*1 → seen_votes s' !! (n, k, z.1) = None).
  { intros s' [=]. split_and!.
    - replace (vote_accumulators s') with (vote_accumulators s1). cbn. by rewrite lookup_insert_eq.
    - by replace (block_store s') with (block_store s).
    - intros z Hz. rewrite fmap_app. intros [Hz1 Hz2]%not_elem_of_app. replace (seen_votes s') with (seen_votes s1). cbn.
      rewrite lookup_insert_ne; [by apply Hs|]. intros [= Hzy]. apply Hz2. rewrite <- Hzy. by left. }
  destruct (Nat.leb_spec q (S (length done))) as [Hq|Hq].
  - destruct Hr as (qc & -> & Hqc).
    destruct (on_qc_step k x s1 qc now (q <=? length done)%nat) as (evs & s' & -> & He & Hf' & Hc & Hv'); try done.
    { intros Hl%Nat.leb_le. by apply Hv. }
    destruct (Ha1 s' Hc) as (? & ? & ?). exists evs, s'. split_and!; [done| |].
    + split; try done. rewrite length_app, Nat.add_1_r, (proj2 (Nat.leb_le _ _)) by done. done.
    + destruct (Nat.eqb_spec q (S (length done))) as [Hqe|Hne].
      * by rewrite (proj2 (Nat.leb_gt _ _)) in He by lia.
      * by rewrite (proj2 (Nat.leb_le _ _)) in He by lia.
  - subst r. destruct (Ha1 s1 eq_refl) as (? & ? & ?). exists [], s1. rewrite (proj2 (Nat.eqb_neq _ _)) by lia.
    split_and!; try done. rewrite (proj2 (Nat.leb_gt q (length done))) in Hf1 by lia.
    split; try done; rewrite length_app, Nat.add_1_r; [by rewrite (proj2 (Nat.leb_gt _ _)) by lia|lia].
Qed.

(** A node counts the ballots of a phase. *)
Lemma collect_run k x done rest s ops evs s' :
  0 ≤ k ≤ 2 → collecting k x done s → NoDup (done ++ rest).*1 → (∀ z, z ∈ done ++ rest → z ∈ live) →
  (q ≤ length (done ++ rest))%nat → ops.*2 = map (fun y => VoteMsg (ballot k y).1 (ballot k y).2) rest →
  hs_run s ops = (evs, s') →
  collecting k x (done ++ rest) s' ∧ if (q <=? length done)%nat then evs = [] else phase_event k x evs.
Proof.
  intros Hk. revert done s ops evs. induction rest as [|y rest IH]; intros done s ops evs Hc Hd Hin Hq Hops Hrun.
  - destruct ops; [|done]. injection Hrun as <- <-. rewrite app_nil_r in *. split; [done|].
    by rewrite (proj2 (Nat.leb_le _ _)).
  - destruct ops as [|[now op] ops]; [done|]. injection Hops as Hop Hops. cbn [snd] in Hop. subst op. cbn [hs_run hs_step] in Hrun.
    rewrite (assoc_L (++) done [y] rest : done ++ y :: rest = _) in *.
    assert (Hdy : NoDup (done ++ [y]).*1) by (rewrite fmap_app in Hd; by apply NoDup_app in Hd as [? _]).
    pose proof Hdy as Hdn. rewrite fmap_app in Hdn. apply NoDup_app in Hdn as (Hdn & Hny & _).
    destruct (collect_step k x done y s now) as (ev1 & s1 & E1 & Hc1 & He1); [done|done|set_solver|set_solver|done|set_solver|].
    unfold process_vote in Hrun. cbn [ballot fst snd] in E1. rewrite E1 in Hrun. destruct (hs_run s1 ops) as [ev2 s2] eqn:E2. injection Hrun as <- <-.
    destruct (IH (done ++ [y]) s1 ops ev2 Hc1 Hd Hin Hq Hops E2) as [Hc2 He2]. split; [done|].
    rewrite length_app, Nat.add_1_r in He2.
    destruct (Nat.leb_spec q (length done)); destruct (Nat.leb_spec q (S (length done)));
      destruct (Nat.eqb_spec q (S (length done))); try lia; subst; by rewrite ?app_nil_r.
Qed.

(** ** The network *)

(** The events of a node's last step and the node. *)
Abbreviation Snapshot := (list (ConsensusEvent Tx) * HotStuffConsensus Tx)%type.

Definition vote_of (ev : Event) : option Vote := match ev with VoteCast v => Some v | _ => None end.

(** A node sends the votes it casts with its public key. *)
Definition sent (p : Snapshot) : list (hs_op Tx) :=
  map (fun v => VoteMsg v (pub_key (safety_rules p.2))) (omap vote_of p.1).

(** Every node handles the proposal. *)
Definition proposed (pqc : QuorumCertificate) (nodes : list Node) (net : list Snapshot) : Prop :=
  Forall2 (fun s p => ∃ t, hs_run s [(t, Proposal b pqc)] = p) nodes net.

(** Every node receives every vote that was sent, in an order and at times of
    its own. *)
Definition exchanged (net net' : list Snapshot) : Prop :=
  Forall2 (fun p p' => ∃ ops, ops.*2 ≡ₚ net ≫= sent ∧ hs_run p.2 ops = p') net net'.

(** The network in phase [k]: every live node has cast its vote of the phase. *)
Definition in_phase (k : Z) (net : list Snapshot) : Prop :=
  Forall2 (fun x p => p.1 = [VoteCast (own_vote x k)] ∧ fresh k (k + 1) x p.2 ∧
                      store_get (block_store p.2) (hash_of b) = Some b) live net.

Lemma in_phase_sent k net :
  in_phase k net → net ≫= sent = map (fun y => VoteMsg (ballot k y).1 (ballot k y).2) live.
Proof.
  unfold in_phase. clear. induction 1 as [|x p xs net (Hp & Hf & _) _ IH]; [done|]. cbn. rewrite IH. unfold sent. rewrite Hp. cbn.
  by destruct (fr_rules _ _ _ _ Hf) as (_ & _ & ->).
Qed.

(** A node that receives the ballots of all live validators, in any order,
    ends the phase. *)
Lemma node_phase k x s ops p :
  0 ≤ k ≤ 2 → (q ≤ length live)%nat → fresh k (k + 1) x s → store_get (block_store s) (hash_of b) = Some b →
  ops.*2 ≡ₚ map (fun y => VoteMsg (ballot k y).1 (ballot k y).2) live → hs_run s ops = p →
  phase_event k x p.1 ∧ fresh (k + 1) (k + 2) x p.2 ∧ store_get (block_store p.2) (hash_of b) = Some b.
Proof.
  intros Hk Hq Hf Hst Hops Hrun. destruct p as [evs s'].
  apply Permutation_map_inv in Hops as (L & Hops & HL).
  assert (Hc : collecting k x [] s).
  { split; [|done| | |cbn; lia].
    - rewrite (proj2 (Nat.leb_gt _ _)) by (cbn; lia). destruct Hf. split; try done.
      + intros j Hj. apply fr_accs0. lia.
      + intros j y Hj. apply fr_seen0. lia.
    - by rewrite (fr_accs _ _ _ _ Hf) by lia.
    - intros y Hy _. apply Hf; [lia|done]. }
  destruct (collect_run k x [] L s ops evs s') as [Hc' He]; try done.
  - by rewrite <- HL.
  - intros z. by rewrite HL.
  - by rewrite <- HL.
  - cbn [app] in Hc'. destruct Hc'. rewrite <- HL in co_fresh0.
    rewrite (proj2 (Nat.leb_le _ _)) in co_fresh0 by done. rewrite (proj2 (Nat.leb_gt _ _)) in He by (cbn; lia). done.
Qed.

(** One exchange takes every node through its phase. *)
Lemma exchange_phase k net net' :
  0 ≤ k ≤ 2 → (q ≤ length live)%nat → in_phase k net → exchanged net net' →
  Forall2 (fun x p => phase_event k x p.1 ∧ fresh (k + 1) (k + 2) x p.2 ∧
                      store_get (block_store p.2) (hash_of b) = Some b) live net'.
Proof.
  intros Hk Hq Hin. unfold exchanged. rewrite (in_phase_sent k net Hin). eapply Forall2_trans; [|exact Hin].
  cbn. intros x p p' (_ & Hf & Hst) (ops & Hops & Hrun). by eapply node_phase.
Qed.

Lemma exchange_next k net net' :
  0 ≤ k < 2 → (q ≤ length live)%nat → in_phase k net → exchanged net net' → in_phase (k + 1) net'.
Proof.
  intros Hk Hq Hin Hex. eapply Forall2_impl; [by eapply (exchange_phase k); [lia|..]|].
  cbn. intros x p (He & Hf & Hst). unfold phase_event in He. rewrite (proj2 (Z.ltb_lt _ _)) in He by lia.
  split_and!; try done. by replace (k + 1 + 1) with (k + 2) by lia.
Qed.

(** The proposal makes a ready node cast its first vote. *)
Lemma propose_node pqc x s t p :
  fresh 0 0 x s → locked_round (state (safety_rules s)) ≤ qc_block_number pqc →
  store_get (block_store s) (hash_of b) = None → qc_verify pqc = true →
  proposer_for_round vs n = Ok (Block.blk_coinbase b) → hs_run s [(t, Proposal b pqc)] = p →
  p.1 = [VoteCast (own_vote x 0)] ∧ fresh 0 1 x p.2 ∧ store_get (block_store p.2) (hash_of b) = Some b.
Proof.
  intros Hf Hl Hst Hv Hpr. cbn [hs_run hs_step]. unfold process_proposal, on_proposal.
  rewrite Hv, (fr_set _ _ _ _ Hf), Hpr, bool_decide_eq_true_2, (proposer_member _ _ _ Hpr) by done. cbn [negb].
  set (s1 := upd_store _ s).
  assert (Hf1 : fresh 0 0 x s1) by (destruct Hf; by split).
  assert (Hs1 : store_get (block_store s1) (hash_of b) = Some b).
  { destruct (store_add_get (block_store s) b) as [?|[? Hs]]; [done|]. by rewrite Hst in Hs. }
  change (mkVoteData _ _ _ _) with (data 0).
  destruct (vote_ok 0 0 x s1 pqc Hf1) as (r & -> & R1 & R2 & R3 & R4 & R5 & R6 & R7); [lia|by apply Hf1|done|].
  cbn. intros <-. cbn. split_and!; [done| |done].
  destruct Hf1. split; cbn; rewrite ?R4, ?R5, ?R6, ?R7; try done.
  - intros j Hj. pose proof (fr_voted0 j ltac:(lia)). intros [[= ]%elem_of_singleton|?]%elem_of_union; [lia|done].
Qed.

(** C3: A live quorum commits, in a round that starts clean. Take any live
    validators of the set, at least a quorum. Their nodes are fresh for the
    height ([fresh]): each runs with its own key over this set, knows the live
    validators' keys, has voted for nothing at the height nor beyond it, holds
    no accumulator of it, has seen no live validator's vote of it, has not
    committed it and is in the block's epoch or has none yet; their locks are not above the proposal's parent certificate, which
    verifies, and none has stored the block yet. The other validators are
    silent, and the live validators' signatures on a message aggregate to one
    that verifies ([BlsLaws], [Haggregate]).
    If the elected proposer's block then reaches the live nodes and, three
    times, every live node receives the votes the live nodes have cast, each in
    an order of its own, every live node commits exactly that block, under a
    certificate on it. A vote of a faulty validator that arrives first, or a
    higher lock, is outside the theorem and can stall the round. *)
Theorem live_quorum_commits pqc nodes net0 net1 net2 net3 :
  (q ≤ length live)%nat → qc_verify pqc = true →
  proposer_for_round vs n = Ok (Block.blk_coinbase b) →
  Forall2 (fun x s => fresh 0 0 x s ∧ locked_round (state (safety_rules s)) ≤ qc_block_number pqc ∧
                      store_get (block_store s) (hash_of b) = None) live nodes →
  proposed pqc nodes net0 → exchanged net0 net1 → exchanged net1 net2 → exchanged net2 net3 →
  Forall2 (fun x p => ∃ qc, p.1 = [Committed b qc] ∧ vote_data qc = data 2) live net3.
Proof.
  intros Hq Hv Hpr Hn Hp E0 E1 E2.
  assert (H0' : in_phase 0 net0).
  { eapply Forall2_trans; [|exact Hn|exact Hp]. intros x s p (Hf & Hl & Hst) (t & Ht). by eapply (propose_node pqc x s t). }
  apply (exchange_next 0) in E0; [|done..]. apply (exchange_next 1) in E1; [|done..].
  eapply Forall2_impl; [by eapply (exchange_phase 2)|]. cbn. by intros x p (He & _).
Qed.
End Round.

(** ** A concrete round *)

Module Samples.
Import HotStuff.Samples.
#[local] Existing Instances Votes.Toy.hash Votes.Toy.bls Votes.Toy.bls_laws.

(** Three of the four validators of [HotStuff.Samples] are live. *)
Definition live3 : list (address * bytes) := [(val 1, [1]); (val 2, [2]); (val 3, [3])].
Definition ready (x : address * bytes) : HotStuffConsensus unit :=
  (hs_run (hs_new x.1 (rules_new x.2 x.1) vset 0) setup).2.
Definition nodes3 : list (HotStuffConsensus unit) := map ready live3.
Definition propose (t : Z) (l : list (HotStuffConsensus unit)) :=
  map (fun s => hs_run s [(t, Proposal (blk 7) genesis_qc)]) l.

(** The first node receives the votes in reverse order. *)
Definition exchange (t : Z) (net : list (list (ConsensusEvent unit) * HotStuffConsensus unit)) :=
  let msgs := map (pair t) (net ≫= sent) in
  match net with
  | [] => []
  | p :: rest => hs_run p.2 (rev msgs) :: map (fun p => hs_run p.2 msgs) rest
  end.

Lemma exchanged_sample t net : exchanged net (exchange t net).
Proof.
  unfold exchanged, exchange.
  assert (Hm : ∀ l : list (hs_op unit), (map (pair t) l).*2 = l) by (intros; by rewrite map_map, map_id).
  destruct net as [|p rest]; [constructor|]. constructor.
  - eexists. split; [|done]. rewrite <- Permutation_rev. by rewrite Hm.
  - generalize (p :: rest). intros net. induction rest as [|p' rest IH]; constructor; [|done].
    eexists. split; [|done]. by rewrite Hm.
Qed.

Lemma live3_cases (P : address * bytes → Prop) : P (val 1, [1]) → P (val 2, [2]) → P (val 3, [3]) → ∀ x, x ∈ live3 → P x.
Proof. intros ? ? ?. apply Forall_forall. by repeat constructor. Qed.

Lemma ready_empty x :
  x ∈ live3 → vote_accumulators (ready x) = ∅ ∧ seen_votes (ready x) = ∅ ∧
  voted_phases (state (safety_rules (ready x))) = ∅.
Proof. revert x. apply live3_cases; vm_compute; done. Qed.

Lemma ready_fresh x : x ∈ live3 → fresh vset (blk 7) 1 live3 0 0 x (ready x).
Proof.
  intros Hx. destruct (ready_empty x Hx) as (Ha & Hs & Hv). split; rewrite ?Ha, ?Hs, ?Hv; try done.
  all: clear Ha Hs Hv; revert x Hx.
  - apply (live3_cases (fun x => ∀ y, y ∈ live3 → validator_pubkeys (ready x) !! y.1 = Some (to_pubkey y.2)));
      apply live3_cases; vm_compute; reflexivity.
  - apply live3_cases; by left.
Qed.

Lemma live_quorum_commits_witness :
  let net0 := propose 1 nodes3 in
  let net3 := exchange 4 (exchange 3 (exchange 2 net0)) in
  Forall2 (fun x p => ∃ qc, p.1 = [Committed (blk 7) qc] ∧ vote_data qc = data (blk 7) 1 2) live3 net3.
Proof.
  intros net0 net3.
  refine (live_quorum_commits vset (blk 7) 1 live3 _ _ _ _ genesis_qc nodes3 net0 (exchange 2 net0) (exchange 3 (exchange 2 net0))
            net3 _ _ _ _ _ _ _ _).
  - vm_compute. lia.
  - apply (bool_decide_unpack _). vm_compute. exact I.
  - apply live3_cases; apply (bool_decide_unpack _); vm_compute; exact I.
  - intros msg L HL _ _. destruct L; [done|]. cbn. by eexists.
  - vm_compute. lia.
  - reflexivity.
  - vm_compute. reflexivity.
  - apply Forall2_fmap_r, Forall_Forall2_diag, Forall_forall. intros x Hx. split_and!.
    + by apply ready_fresh.
    + revert x Hx. apply live3_cases; vm_compute; congruence.
    + revert x Hx. apply live3_cases; vm_compute; reflexivity.
  - apply Forall2_fmap_r, Forall_Forall2_diag, Forall_forall. intros s _. by exists 1.
  - apply exchanged_sample.
  - apply exchanged_sample.
  - apply exchanged_sample.
Defined.
End Samples.
End Progress.
