(* ===== verification/Transaction.v ===== *)
(** * Transactions: types, hashes, signatures

    Models [crates/zbx-types/src/transaction.rs] and the recovery path of
    [crates/zbx-crypto/src/secp256k1.rs] (with [zbx-crypto]'s [Signature]).
    The third-party [rlp] crate is the class [RlpCrate], whose documented
    behaviour (RLP is injective on well-formed items) is [RlpCrateLaws];
    [k256] is the class [K256]. A [U256] is a [Z] in [0, 2^256). *)

From S2P Require Import Prelude.
From S2P Require Import Rlp.
From S2P Require Import U256.
From S2P Require Import EvmBase.
From S2P Require Import EvmHost.

Module Transaction.
Import U256 EvmBase EvmHost.

(** ** The rlp crate

    [rlp_list fs] is the output of a stream made with [new_list(fs.len())]
    once the fields are appended: integers, byte strings, [append_empty_data]
    and pre-encoded items ([append_raw]). *)

Inductive rlp_field :=
| FU64 (n : Z)
| FBytes (b : bytes)
| FEmpty
| FRaw (item : bytes).

Class RlpCrate := rlp_list : list rlp_field → bytes.

(** The content of a field: the bytes of a string item, or a raw item. *)
Definition field_content (f : rlp_field) : bytes + bytes :=
  match f with
  | FU64 n => inl (Rlp.minimal_bytes n)
  | FBytes b => inl b
  | FEmpty => inl []
  | FRaw r => inr r
  end.

(** Total size of a field list, headers included at most nine bytes each. *)
Definition field_size (f : rlp_field) : Z :=
  9 + match field_content f with inl b => Rlp.rlp_len b | inr r => Rlp.rlp_len r end.
Definition fields_size (fs : list rlp_field) : Z := foldr (fun f acc => field_size f + acc) 0 fs.

Section RlpLaws.
Context `{RlpCrate}.

(** A field the crate encodes faithfully: 64-bit integers, byte strings, and
    raw items that are themselves the encoding of a list. *)
#[warnings="-register-all"]
Inductive wf_field : rlp_field → Prop :=
| wf_u64 n : is_u64 n → wf_field (FU64 n)
| wf_str b : wf_bytes b → wf_field (FBytes b)
| wf_empty : wf_field FEmpty
| wf_raw fs : Forall wf_field fs → fields_size fs < 2 ^ 60 → wf_field (FRaw (rlp_list fs)).

(** RLP's documented guarantees: an encoding determines the items, a list is
    told from a string by its first byte, and a header takes at most nine
    bytes. *)
Class RlpCrateLaws := {
  rlp_list_inj fs gs :
    Forall wf_field fs → Forall wf_field gs →
    fields_size fs < 2 ^ 60 → fields_size gs < 2 ^ 60 →
    rlp_list fs = rlp_list gs → map field_content fs = map field_content gs;
  rlp_list_head fs : Forall wf_field fs → fields_size fs < 2 ^ 60 →
    ∃ b r, rlp_list fs = b :: r ∧ 0xc0 ≤ b;
  rlp_list_len fs : Forall wf_field fs → fields_size fs < 2 ^ 60 →
    Rlp.rlp_len (rlp_list fs) ≤ 9 + fields_size fs
}.
End RlpLaws.

(** ** transaction.rs: the types *)

Inductive TxType := Legacy | AccessList | DynamicFee.

#[export] Instance TxType_eq_dec : EqDecision TxType.
Proof. solve_decision. Defined.

Record Transaction := mkTx {
  tx_type : TxType;
  nonce : Z;
  max_priority_fee_per_gas : Z;
  max_fee_per_gas : Z;
  gas_limit : Z;
  to : option address;
  value : Z;
  data : bytes;
  access_list : list (address * list bytes);
  chain_id : Z;
}.

Record Signature := mkSig { sig_v : Z; sig_r : bytes; sig_s : bytes }.

Record SignedTransaction := mkSigned {
  tx : Transaction;
  sig : Signature;
  from : address;
  tx_hash : bytes;
}.

#[export] Instance Transaction_eq_dec : EqDecision Transaction.
Proof. solve_decision. Defined.
#[export] Instance Signature_eq_dec : EqDecision Signature.
Proof. solve_decision. Defined.
#[export] Instance SignedTransaction_eq_dec : EqDecision SignedTransaction.
Proof. solve_decision. Defined.

(** ** [U256] of the primitive-types crate, as the code uses it *)

(** [bits()]: the number of bits of the value. *)
Definition u256_bits (v : Z) : Z := if v =? 0 then 0 else Z.log2 v + 1.

(** [if v.bits() > 128 { u128::MAX } else { v.low_u128() }] *)
Definition saturate_u128 (v : Z) : Z :=
  if 128 <? u256_bits v then U128_MAX else v mod 2 ^ 128.

(** ** RLP helpers *)

Definition strip_zeros (b : bytes) : bytes := drop (leading_zeros b) b.

Definition u256_rlp_bytes (v : Z) : bytes := let buf := to_be 32 v in drop (leading_zeros buf) buf.

Section Hashes.
Context `{RlpCrate} `{Keccak}.

Definition rlp_access_list (al : list (address * list bytes)) : bytes :=
  rlp_list (map (fun '(addr, slots) =>
    FRaw (rlp_list [FBytes addr; FRaw (rlp_list (map FBytes slots))])) al).

Definition to_field (t : option address) : rlp_field :=
  match t with Some a => FBytes a | None => FEmpty end.

(** The bytes [signing_hash] digests. *)
Definition signing_payload (t : Transaction) : bytes :=
  let value_bytes := u256_rlp_bytes (value t) in
  match tx_type t with
  | Legacy =>
      rlp_list [FU64 (nonce t); FU64 (max_fee_per_gas t); FU64 (gas_limit t); to_field (to t);
                FBytes value_bytes; FBytes (data t); FU64 (chain_id t); FU64 0; FU64 0]
  | AccessList =>
      0x01 :: rlp_list [FU64 (chain_id t); FU64 (nonce t); FU64 (max_fee_per_gas t);
                        FU64 (gas_limit t); to_field (to t); FBytes value_bytes; FBytes (data t);
                        FRaw (rlp_access_list (access_list t))]
  | DynamicFee =>
      0x02 :: rlp_list [FU64 (chain_id t); FU64 (nonce t); FU64 (max_priority_fee_per_gas t);
                        FU64 (max_fee_per_gas t); FU64 (gas_limit t); to_field (to t);
                        FBytes value_bytes; FBytes (data t); FRaw (rlp_access_list (access_list t))]
  end.

Definition signing_hash (t : Transaction) : bytes := keccak256 (signing_payload t).

(** The bytes [compute_hash] digests. *)
Definition hash_payload (s : SignedTransaction) : bytes :=
  let t := tx s in
  let value_bytes := u256_rlp_bytes (value t) in
  let r := strip_zeros (sig_r (sig s)) in
  let s' := strip_zeros (sig_s (sig s)) in
  match tx_type t with
  | Legacy =>
      let v := saturating_add64 (saturating_add64 (saturating_mul64 (chain_id t) 2) 35) (sig_v (sig s)) in
      rlp_list [FU64 (nonce t); FU64 (max_fee_per_gas t); FU64 (gas_limit t); to_field (to t);
                FBytes value_bytes; FBytes (data t); FU64 v; FBytes r; FBytes s']
  | AccessList =>
      0x01 :: rlp_list [FU64 (chain_id t); FU64 (nonce t); FU64 (max_fee_per_gas t);
                        FU64 (gas_limit t); to_field (to t); FBytes value_bytes; FBytes (data t);
                        FRaw (rlp_access_list (access_list t)); FU64 (sig_v (sig s));
                        FBytes r; FBytes s']
  | DynamicFee =>
      0x02 :: rlp_list [FU64 (chain_id t); FU64 (nonce t); FU64 (max_priority_fee_per_gas t);
                        FU64 (max_fee_per_gas t); FU64 (gas_limit t); to_field (to t);
                        FBytes value_bytes; FBytes (data t); FRaw (rlp_access_list (access_list t));
                        FU64 (sig_v (sig s)); FBytes r; FBytes s']
  end.

Definition compute_hash (s : SignedTransaction) : bytes := keccak256 (hash_payload s).
Definition verify_hash (s : SignedTransaction) : bool := bool_decide (compute_hash s = tx_hash s).
End Hashes.

(** ** Gas *)

Definition sum64 (l : list Z) : Z := fold_left (fun acc x => wrap64 (acc + x)) l 0.

Definition intrinsic_gas (t : Transaction) : Z :=
  let base := match to t with None => 53000 | Some _ => 21000 end in
  let data_cost := sum64 (map (fun b => if b =? 0 then 4 else 16) (data t)) in
  let al_cost := wrap64 (wrap64 (Z.of_nat (length (access_list t)) * 2400) +
    sum64 (map (fun e => wrap64 (Z.of_nat (length e.2) * 1900)) (access_list t))) in
  wrap64 (wrap64 (base + data_cost) + al_cost).

Definition is_create (t : Transaction) : bool := match to t with None => true | Some _ => false end.

Definition effective_gas_price (s : SignedTransaction) (base_fee : Z) : Z :=
  wrap64 (base_fee + Z.min (max_priority_fee_per_gas (tx s))
                           (saturating_sub (max_fee_per_gas (tx s)) base_fee)).

(** ** Signatures *)

(** The errors of [zbx_types::error::ZbxError] these functions return. *)
Inductive SigError := InvalidLength (expected got : Z) | SignatureError.

Definition sig_to_bytes (s : Signature) : bytes := sig_r s ++ sig_s s ++ [sig_v s].

Definition sig_from_bytes (b : bytes) : outcome SigError Signature :=
  if negb (Z.of_nat (length b) =? 65) then Err (InvalidLength 65 (Z.of_nat (length b))) else
  match b !! 64%nat with
  | Some v => Ok (mkSig v (take 32 b) (take 32 (drop 32 b)))
  | None => Panic
  end.

(** The k256 crate: parsing of [r || s], the high-S test, the conversion of a
    recovery id and the recovery of an uncompressed public key. *)
Class K256 := {
  ksig_from_slice : bytes → bool;
  ksig_high_s : bytes → bool;
  recovery_id_ok : Z → bool;
  recover_from_prehash : bytes → bytes → Z → option bytes
}.

Section Recovery.
Context `{Keccak} `{K256}.

Definition recover_pubkey (hash : bytes) (s : Signature) : outcome SigError bytes :=
  if 1 <? sig_v s then Err SignatureError else
  let rs := sig_r s ++ sig_s s in
  if negb (ksig_from_slice rs) then Err SignatureError else
  if ksig_high_s rs then Err SignatureError else
  if negb (recovery_id_ok (sig_v s)) then Err SignatureError else
  match recover_from_prehash hash rs (sig_v s) with
  | None => Err SignatureError
  | Some enc => if negb (Z.of_nat (length enc) =? 65) then Err SignatureError else Ok enc
  end.

(** [PubKey::to_address]: the last 20 bytes of the hash of X || Y. *)
Definition pubkey_to_address (pk : bytes) : address := drop 12 (keccak256 (drop 1 pk)).

Definition recover_signer (hash : bytes) (s : Signature) : outcome SigError address :=
  let? pk := recover_pubkey hash s in Ok (pubkey_to_address pk).

Definition verify_signature (hash : bytes) (s : Signature) (expected : address) : bool :=
  match recover_signer hash s with Ok a => bool_decide (a = expected) | _ => false end.

Lemma recover_signer_no_panic hash s : recover_signer hash s ≠ Panic.
Proof.
  unfold recover_signer, recover_pubkey. repeat case_if; try done.
  destruct (recover_from_prehash _ _ _); [|done]. by case_if.
Qed.
End Recovery.

(** ** Well-formed transactions *)

Definition wf_address (a : address) : Prop := length a = 20%nat ∧ wf_bytes a.
Definition wf_access_entry (e : address * list bytes) : Prop :=
  wf_address e.1 ∧ Forall (fun k => length k = 32%nat ∧ wf_bytes k) e.2.

(** What the Rust types guarantee, with the list sizes of anything that fits
    in memory. *)
Record wf_tx (t : Transaction) : Prop := {
  wt_nonce : is_u64 (nonce t);
  wt_prio : is_u64 (max_priority_fee_per_gas t);
  wt_fee : is_u64 (max_fee_per_gas t);
  wt_gas : is_u64 (gas_limit t);
  wt_chain : is_u64 (chain_id t);
  wt_to : from_option wf_address True (to t);
  wt_value : 0 ≤ value t < 2 ^ 256;
  wt_data : wf_bytes (data t) ∧ Z.of_nat (length (data t)) < 2 ^ 50;
  wt_al : Forall wf_access_entry (access_list t) ∧
          Z.of_nat (length (access_list t)) < 2 ^ 20 ∧
          Forall (fun e => Z.of_nat (length e.2) < 2 ^ 20) (access_list t)
}.

(** What a signature covers: for each transaction type, the fields a change
    of which changes the signed bytes. *)
Definition signed_view (t : Transaction) :=
  (tx_type t, chain_id t, nonce t, max_fee_per_gas t, gas_limit t, to t, value t, data t,
   match tx_type t with DynamicFee => Some (max_priority_fee_per_gas t) | _ => None end,
   match tx_type t with Legacy => None | _ => Some (access_list t) end).

(** ** Field contents *)

Lemma be_val_minimal n : is_u64 n → be_val (Rlp.minimal_bytes n) = n.
Proof.
  intros Hn. unfold Rlp.minimal_bytes. rewrite be_val_strip, be_val_to_be.
  apply Z.mod_small. unfold is_u64 in Hn. change (256 ^ Z.of_nat 8) with (2 ^ 64). lia.
Qed.

Lemma minimal_bytes_inj a b :
  is_u64 a → is_u64 b → Rlp.minimal_bytes a = Rlp.minimal_bytes b → a = b.
Proof. intros Ha Hb E. by rewrite <- (be_val_minimal a), <- (be_val_minimal b), E. Qed.

Lemma u256_rlp_bytes_inj a b :
  0 ≤ a < 2 ^ 256 → 0 ≤ b < 2 ^ 256 → u256_rlp_bytes a = u256_rlp_bytes b → a = b.
Proof.
  intros Ha Hb E. apply (f_equal be_val) in E. unfold u256_rlp_bytes in E.
  rewrite !be_val_strip, !be_val_to_be in E. change (256 ^ Z.of_nat 32) with (2 ^ 256) in E.
  by rewrite !Z.mod_small in E.
Qed.

Lemma to_field_inj (a b : option address) :
  from_option wf_address True a → from_option wf_address True b →
  field_content (to_field a) = field_content (to_field b) → a = b.
Proof.
  destruct a as [a|], b as [b|]; cbn; unfold wf_address; intros Ha Hb E; try done.
  - congruence.
  - injection E as ->. by destruct Ha.
  - injection E as <-. by destruct Hb.
Qed.

Lemma content_u64_inj a b :
  is_u64 a → is_u64 b → field_content (FU64 a) = field_content (FU64 b) → a = b.
Proof. intros Ha Hb [= E]. by apply minimal_bytes_inj. Qed.

Lemma content_bytes_inj a b : field_content (FBytes a) = field_content (FBytes b) → a = b.
Proof. by intros [= E]. Qed.

Lemma content_raw_inj a b : field_content (FRaw a) = field_content (FRaw b) → a = b.
Proof. by intros [= E]. Qed.

Lemma map_cons_inj {A B} (f : A → B) x y l m :
  map f (x :: l) = map f (y :: m) → f x = f y ∧ map f l = map f m.
Proof. intros E. by injection E. Qed.

Lemma length_strip (b : bytes) : (length (drop (leading_zeros b) b) ≤ length b)%nat.
Proof. rewrite length_drop. lia. Qed.

Lemma field_size_u64 n : field_size (FU64 n) ≤ 17.
Proof.
  unfold field_size, field_content, Rlp.rlp_len, Rlp.minimal_bytes.
  pose proof (length_strip (to_be 8 n)) as Hs. rewrite length_to_be in Hs. lia.
Qed.

Lemma field_size_to (a : option address) : from_option wf_address True a → field_size (to_field a) ≤ 29.
Proof.
  intros Hw. destruct a as [a|]; [|done]. destruct Hw as [Hl _].
  unfold field_size, to_field, field_content, Rlp.rlp_len. lia.
Qed.

Lemma field_size_value v : field_size (FBytes (u256_rlp_bytes v)) ≤ 41.
Proof.
  unfold field_size, field_content, Rlp.rlp_len, u256_rlp_bytes.
  pose proof (length_strip (to_be 32 v)) as Hs. rewrite length_to_be in Hs. lia.
Qed.

Lemma fields_size_bound fs m :
  Forall (fun f => field_size f ≤ m) fs → fields_size fs ≤ Z.of_nat (length fs) * m.
Proof.
  unfold fields_size. induction 1 as [|f fs Hf _ IH]; cbn [foldr length]; [lia|].
  rewrite Nat2Z.inj_succ. lia.
Qed.

Lemma map_FBytes_inj (a b : list bytes) :
  map field_content (map FBytes a) = map field_content (map FBytes b) → a = b.
Proof.
  revert b. induction a as [|x a IH]; intros [|y b]; cbn; try discriminate; [done|].
  intros [= -> E]. f_equal. by apply IH.
Qed.

Section Injectivity.
Context `{RlpCrateLaws}.

Definition entry_fields (e : address * list bytes) : list rlp_field :=
  [FBytes e.1; FRaw (rlp_list (map FBytes e.2))].

Lemma slots_ok (slots : list bytes) :
  Forall (fun k => length k = 32%nat ∧ wf_bytes k) slots → Z.of_nat (length slots) < 2 ^ 20 →
  Forall wf_field (map FBytes slots) ∧ fields_size (map FBytes slots) ≤ 2 ^ 20 * 41.
Proof.
  intros Hs Hn. split.
  - apply Forall_fmap. eapply Forall_impl; [apply Hs|]. cbn. intros k [_ ?]. by constructor.
  - trans (Z.of_nat (length (map FBytes slots)) * 41); [|rewrite length_map; lia].
    apply fields_size_bound, Forall_fmap. eapply Forall_impl; [apply Hs|]. cbn.
    intros k [Hl _]. unfold field_size, field_content, Rlp.rlp_len. lia.
Qed.

Lemma entry_ok (e : address * list bytes) :
  wf_access_entry e → Z.of_nat (length e.2) < 2 ^ 20 →
  Forall wf_field (entry_fields e) ∧ fields_size (entry_fields e) ≤ 2 ^ 27.
Proof.
  intros [[Ha Haw] Hs] Hn. destruct (slots_ok e.2 Hs Hn) as [Hw Hsz]. unfold entry_fields. split.
  - repeat constructor; try done. lia.
  - cbn [fields_size foldr]. unfold field_size, field_content, Rlp.rlp_len at 1.
    pose proof (rlp_list_len _ Hw ltac:(lia)). lia.
Qed.

Definition al_fields (al : list (address * list bytes)) : list rlp_field :=
  map (fun '(addr, slots) => FRaw (rlp_list [FBytes addr; FRaw (rlp_list (map FBytes slots))])) al.

Definition wf_al (al : list (address * list bytes)) : Prop :=
  Forall wf_access_entry al ∧ Z.of_nat (length al) < 2 ^ 20 ∧
  Forall (fun e => Z.of_nat (length e.2) < 2 ^ 20) al.

Lemma al_ok al : wf_al al →
  Forall wf_field (al_fields al) ∧ fields_size (al_fields al) ≤ 2 ^ 48.
Proof.
  intros (Hw & Hn & Hs). split.
  - apply Forall_fmap. rewrite Forall_forall in Hw, Hs |- *. intros [a sl] Hin. cbn.
    destruct (entry_ok (a, sl) (Hw _ Hin) (Hs _ Hin)) as [? ?].
    constructor; [done|]. unfold entry_fields in *. cbn in *. lia.
  - trans (Z.of_nat (length (al_fields al)) * 2 ^ 28);
      [|unfold al_fields; rewrite length_map; lia].
    apply fields_size_bound, Forall_fmap. rewrite Forall_forall in Hw, Hs |- *. intros [a sl] Hin.
    destruct (entry_ok (a, sl) (Hw _ Hin) (Hs _ Hin)) as [Hf ?].
    cbn. unfold field_size, field_content. pose proof (rlp_list_len _ Hf ltac:(lia)) as Hl.
    unfold entry_fields in *. cbn in *. lia.
Qed.

Lemma entry_inj a1 s1 a2 s2 :
  wf_access_entry (a1, s1) → wf_access_entry (a2, s2) →
  Z.of_nat (length s1) < 2 ^ 20 → Z.of_nat (length s2) < 2 ^ 20 →
  rlp_list (entry_fields (a1, s1)) = rlp_list (entry_fields (a2, s2)) → (a1, s1) = (a2, s2).
Proof.
  intros H1 H2 L1 L2 E. destruct (entry_ok _ H1 L1), (entry_ok _ H2 L2).
  apply rlp_list_inj in E; [|done..|lia|lia]. cbn in E. injection E as -> E. f_equal.
  destruct H1 as [_ H1], H2 as [_ H2], (slots_ok s1 H1 L1), (slots_ok s2 H2 L2).
  apply rlp_list_inj in E; [|done..|lia|lia]. by apply map_FBytes_inj.
Qed.

Lemma al_contents_inj al1 al2 :
  wf_al al1 → wf_al al2 →
  map field_content (al_fields al1) = map field_content (al_fields al2) → al1 = al2.
Proof.
  intros (W1 & _ & S1) (W2 & _ & S2). revert al2 W2 S2.
  induction al1 as [|[a1 s1] al1 IH]; intros [|[a2 s2] al2] W2 S2; try discriminate; [done|].
  apply Forall_cons in W1 as [? ?], W2 as [? ?], S1 as [? ?], S2 as [? ?].
  cbn. intros [= E1 E2]. f_equal; [by apply entry_inj | by apply IH].
Qed.

Lemma rlp_access_list_inj al1 al2 :
  wf_al al1 → wf_al al2 → rlp_access_list al1 = rlp_access_list al2 → al1 = al2.
Proof.
  intros W1 W2 E. apply al_contents_inj; [done..|].
  destruct (al_ok _ W1), (al_ok _ W2). by apply rlp_list_inj; [..|lia|lia|].
Qed.

(** The fields of the three signing payloads. *)
Definition signing_fields (t : Transaction) : list rlp_field :=
  let common := [FU64 (max_fee_per_gas t); FU64 (gas_limit t); to_field (to t);
                 FBytes (u256_rlp_bytes (value t)); FBytes (data t)] in
  match tx_type t with
  | Legacy => FU64 (nonce t) :: common ++ [FU64 (chain_id t); FU64 0; FU64 0]
  | AccessList => FU64 (chain_id t) :: FU64 (nonce t) :: common ++
                  [FRaw (rlp_access_list (access_list t))]
  | DynamicFee => FU64 (chain_id t) :: FU64 (nonce t) :: FU64 (max_priority_fee_per_gas t) ::
                  common ++ [FRaw (rlp_access_list (access_list t))]
  end.

Definition type_prefix (ty : TxType) : bytes :=
  match ty with Legacy => [] | AccessList => [0x01] | DynamicFee => [0x02] end.

Lemma signing_payload_eq t : signing_payload t = type_prefix (tx_type t) ++ rlp_list (signing_fields t).
Proof. unfold signing_payload, signing_fields. by destruct (tx_type t). Qed.

Lemma wf_to t : wf_tx t → wf_field (to_field (to t)).
Proof. intros Ht. pose proof (wt_to t Ht) as Hto. destruct (to t); cbn; constructor. apply Hto. Qed.

Lemma wf_value v : wf_field (FBytes (u256_rlp_bytes v)).
Proof. constructor. apply wf_bytes_drop, wf_to_be. Qed.

Lemma signing_fields_ok t : wf_tx t →
  Forall wf_field (signing_fields t) ∧ fields_size (signing_fields t) < 2 ^ 60.
Proof.
  intros Ht. destruct (al_ok (access_list t) (wt_al t Ht)) as [Ha Hs].
  assert (Hu : ∀ n, is_u64 n → wf_field (FU64 n)) by (intros; by constructor).
  assert (Hz : is_u64 0) by (unfold is_u64; lia).
  pose proof (wf_to t Ht). pose proof (wf_value (value t)). destruct (wt_data t Ht) as [Hd Hdl].
  assert (Hal : wf_field (FRaw (rlp_access_list (access_list t)))) by (apply (wf_raw (al_fields (access_list t))); [done|lia]).
  assert (Hd' : wf_field (FBytes (data t))) by by constructor.
  split.
  - destruct Ht. unfold signing_fields. destruct (tx_type t); cbn [app];
      repeat (apply Forall_cons_2; [by eauto|]); apply Forall_nil_2.
  - pose proof (field_size_to (to t) (wt_to t Ht)). pose proof (field_size_value (value t)).
    assert (field_size (FBytes (data t)) < 9 + 2 ^ 50) by (unfold field_size; cbn; unfold Rlp.rlp_len; lia).
    assert (field_size (FRaw (rlp_access_list (access_list t))) < 2 ^ 50).
    { unfold field_size, field_content. pose proof (rlp_list_len _ Ha ltac:(lia)) as Hl.
      unfold rlp_access_list. unfold al_fields in Hl, Hs. lia. }
    pose proof (field_size_u64 (nonce t)). pose proof (field_size_u64 (chain_id t)).
    pose proof (field_size_u64 (max_fee_per_gas t)). pose proof (field_size_u64 (gas_limit t)).
    pose proof (field_size_u64 (max_priority_fee_per_gas t)). pose proof (field_size_u64 0).
    unfold signing_fields. destruct (tx_type t); cbn [fields_size foldr app]; lia.
Qed.

Lemma type_prefix_inj t1 t2 :
  wf_tx t1 → wf_tx t2 → signing_payload t1 = signing_payload t2 →
  tx_type t1 = tx_type t2 ∧ rlp_list (signing_fields t1) = rlp_list (signing_fields t2).
Proof.
  intros W1 W2. rewrite !signing_payload_eq.
  destruct (signing_fields_ok t1 W1) as [F1 S1], (signing_fields_ok t2 W2) as [F2 S2].
  destruct (rlp_list_head _ F1 S1) as (b1 & r1 & E1 & ?), (rlp_list_head _ F2 S2) as (b2 & r2 & E2 & ?).
  rewrite E1, E2. destruct (tx_type t1), (tx_type t2); cbn; intros [=]; subst; try done; lia.
Qed.

Lemma signing_payload_inj t1 t2 :
  wf_tx t1 → wf_tx t2 → signing_payload t1 = signing_payload t2 → signed_view t1 = signed_view t2.
Proof.
  intros W1 W2 E. destruct (type_prefix_inj t1 t2 W1 W2 E) as [Ty E'].
  destruct (signing_fields_ok t1 W1) as [F1 S1], (signing_fields_ok t2 W2) as [F2 S2].
  apply rlp_list_inj in E'; [|done..]. pose proof (wt_al t1 W1) as A1. pose proof (wt_al t2 W2) as A2.
  unfold signing_fields in E'. rewrite Ty in E'. unfold signed_view. rewrite Ty.
  destruct W1, W2. destruct (tx_type t2); cbn [app] in E';
    repeat apply map_cons_inj in E' as [? E'];
    repeat match goal with
    | X : field_content (FU64 _) = _ |- _ => apply content_u64_inj in X; [|done..]
    | X : field_content (FBytes (u256_rlp_bytes _)) = _ |- _ =>
        apply content_bytes_inj, u256_rlp_bytes_inj in X; [|done..]
    | X : field_content (FBytes _) = _ |- _ => apply content_bytes_inj in X
    | X : field_content (to_field _) = _ |- _ => apply to_field_inj in X; [|done..]
    | X : field_content (FRaw _) = _ |- _ => apply content_raw_inj, rlp_access_list_inj in X; [|done..]
    end; congruence.
Qed.

Lemma signing_payload_view t1 t2 :
  signed_view t1 = signed_view t2 → signing_payload t1 = signing_payload t2.
Proof.
  unfold signed_view, signing_payload. destruct (tx_type t1) eqn:E1, (tx_type t2) eqn:E2;
    intros [=]; congruence.
Qed.

End Injectivity.

(** ** The encoder of zbx-rlp satisfies the laws *)

Module ZbxRlp.
Import Rlp.

Definition field_bytes (f : rlp_field) : bytes :=
  match field_content f with inl b => string_item b | inr r => r end.

Definition payload (fs : list rlp_field) : bytes := concat (map field_bytes fs).

#[export] Instance zbx_rlp : RlpCrate :=
  fun fs => list_prefix (rlp_len (payload fs)) ++ payload fs.

Lemma list_prefix_head n : 0 ≤ n < 2 ^ 63 →
  ∃ b r, list_prefix n = b :: r ∧ 0xc0 ≤ b ∧ rlp_len (list_prefix n) ≤ 9.
Proof.
  intros Hn. unfold list_prefix. case_if.
  - unfold wrap8. rewrite (Z.mod_small n), Z.mod_small by lia. eexists _, _.
    split; [done|]. unfold rlp_len. simpl length. lia.
  - destruct (minimal_bytes_spec n ltac:(lia)) as (_ & _ & Hl & _).
    fold (rlp_len (minimal_bytes n)). rewrite wrap8_header by lia. eexists _, _. split; [done|].
    unfold rlp_len in *. simpl length. lia.
Qed.

Lemma field_size_nonneg f : 0 ≤ field_size f.
Proof. unfold field_size. destruct (field_content f) as [b|r]; unfold rlp_len; lia. Qed.

Lemma payload_len fs : Forall wf_field fs → fields_size fs < 2 ^ 60 →
  rlp_len (payload fs) ≤ fields_size fs.
Proof.
  induction 1 as [|f fs Hf Hfs IH]; intros Hs; [done|].
  cbn [fields_size foldr] in *. fold (fields_size fs) in *.
  unfold payload in *. cbn [map concat]. rewrite rlp_len_app. unfold field_bytes.
  assert (0 ≤ fields_size fs).
  { clear. induction fs as [|f fs IH]; cbn; [lia|]. pose proof (field_size_nonneg f). fold (fields_size fs). lia. }
  pose proof (field_size_nonneg f). specialize (IH ltac:(lia)).
  assert (Hb : rlp_len (match field_content f with inl b => string_item b | inr r => r end) ≤ field_size f).
  { unfold field_size in *. destruct (field_content f) as [b|r]; [|lia].
    pose proof (length_string_item b ltac:(unfold rlp_len in *; lia)). lia. }
  unfold field_bytes in *. lia.
Qed.

Lemma wf_content f b : wf_field f → field_content f = inl b → wf_bytes b.
Proof.
  destruct 1; cbn [field_content]; intros E; try (apply (inj inl) in E as <-); try done.
  - apply wf_bytes_drop, wf_to_be.
  - constructor.
Qed.

(** One item read off the front of two equal payloads. *)
Lemma field_bytes_inj f g p q :
  wf_field f → wf_field g → field_size f < 2 ^ 60 → field_size g < 2 ^ 60 →
  field_bytes f ++ p = field_bytes g ++ q → field_content f = field_content g ∧ p = q.
Proof.
  assert (Hstr : ∀ h, wf_field h → field_size h < 2 ^ 60 → ∀ b r, field_content h = inl b →
    split_payload (field_bytes h ++ r) = Ok (b, r)).
  { intros h Hw Hs b r E. unfold field_bytes, field_size in *. rewrite E in *.
    apply split_payload_string_item; [by eapply wf_content|lia]. }
  assert (Hraw : ∀ h, wf_field h → ∀ x r, field_content h = inr x → ∃ fs,
    x = rlp_list fs ∧ list_payload (field_bytes h ++ r) = Ok (payload fs, r) ∧
    split_payload (field_bytes h ++ r) = Err ExpectedString).
  { intros h Hw x r E. unfold field_bytes. rewrite E. inversion Hw as [| | |fs Hf Hsz]; subst; cbn in E;
      simplify_eq. exists fs. split; [done|]. unfold rlp_list, zbx_rlp. rewrite <- app_assoc.
    pose proof (payload_len fs Hf Hsz). split; [apply list_payload_list; lia|].
    destruct (list_prefix_head (rlp_len (payload fs))) as (b & t & -> & Hb & _);
      [unfold rlp_len in *; lia|]. cbn [app split_payload]. by dec_bool. }
  intros Wf Wg Sf Sg E.
  destruct (field_content f) as [b|r] eqn:Ef, (field_content g) as [c|s] eqn:Eg.
  - pose proof (Hstr f Wf Sf b p Ef) as A. rewrite E, (Hstr g Wg Sg c q Eg) in A.
    by injection A as -> ->.
  - pose proof (Hstr f Wf Sf b p Ef) as A. rewrite E in A.
    destruct (Hraw g Wg s q Eg) as (? & _ & _ & B). congruence.
  - pose proof (Hstr g Wg Sg c q Eg) as A. rewrite <- E in A.
    destruct (Hraw f Wf r p Ef) as (? & _ & _ & B). congruence.
  - destruct (Hraw f Wf r p Ef) as (fs & -> & A & _), (Hraw g Wg s q Eg) as (gs & -> & B & _).
    rewrite E, B in A. injection A as A ->. split; [|done]. unfold rlp_list, zbx_rlp. congruence.
Qed.

Lemma field_bytes_nonempty f : wf_field f → field_bytes f ≠ [].
Proof.
  intros Hf E. unfold field_bytes in E. destruct (field_content f) as [b|r] eqn:Ef.
  - pose proof (string_item_nonempty b) as Hn. rewrite E in Hn. by compute in Hn.
  - destruct Hf as [| | |fs _ _]; cbn [field_content] in Ef; try discriminate.
    apply (inj inr) in Ef. rewrite <- Ef in E. apply app_eq_nil in E as [E _].
    unfold list_prefix in E. by case_if.
Qed.

Lemma payload_inj fs gs :
  Forall wf_field fs → Forall wf_field gs → fields_size fs < 2 ^ 60 → fields_size gs < 2 ^ 60 →
  payload fs = payload gs → map field_content fs = map field_content gs.
Proof.
  intros Hf. revert gs. induction Hf as [|f fs Hf Hfs IH]; intros gs Hg Sf Sg E;
    destruct Hg as [|g gs Hg Hgs]; unfold payload in E; cbn [map concat] in *.
  - done.
  - symmetry in E. apply app_eq_nil in E as [E _]. by destruct (field_bytes_nonempty g).
  - apply app_eq_nil in E as [E _]. by destruct (field_bytes_nonempty f).
  - cbn [fields_size foldr] in Sf, Sg. fold (fields_size fs) in Sf. fold (fields_size gs) in Sg.
    assert (Hn : ∀ hs, 0 ≤ fields_size hs).
    { intros hs. unfold fields_size. induction hs as [|h hs IHh]; cbn; [lia|].
      pose proof (field_size_nonneg h). lia. }
    pose proof (Hn fs). pose proof (Hn gs). pose proof (field_size_nonneg f).
    pose proof (field_size_nonneg g).
    apply field_bytes_inj in E as [E1 E2]; [|done || lia..].
    f_equal; [done|]. apply IH; try done; lia.
Qed.

#[export] Instance zbx_rlp_laws : RlpCrateLaws.
Proof.
  split.
  - intros fs gs Hf Hg Sf Sg E. apply payload_inj; try done.
    pose proof (payload_len fs Hf Sf). pose proof (payload_len gs Hg Sg).
    pose proof (list_payload_list (payload fs) [] ltac:(lia)) as A.
    pose proof (list_payload_list (payload gs) [] ltac:(lia)) as B.
    rewrite app_nil_r in A, B. unfold rlp_list, zbx_rlp in E. rewrite E, B in A. by injection A.
  - intros fs Hf Hs. pose proof (payload_len fs Hf Hs).
    destruct (list_prefix_head (rlp_len (payload fs))) as (b & r & E & Hb & _);
      [unfold rlp_len in *; lia|]. unfold rlp_list, zbx_rlp. rewrite E. by eexists _, _.
  - intros fs Hf Hs. pose proof (payload_len fs Hf Hs). unfold rlp_list, zbx_rlp. rewrite rlp_len_app.
    destruct (list_prefix_head (rlp_len (payload fs))) as (b & r & E & _ & Hl);
      [unfold rlp_len in *; lia|]. lia.
Qed.

End ZbxRlp.

(** ** Theorems *)

(** The same transaction with another tip and access list. *)
Definition with_unsigned (prio : Z) (al : list (address * list bytes)) (s : SignedTransaction)
    : SignedTransaction :=
  let t := tx s in
  mkSigned (mkTx (tx_type t) (nonce t) prio (max_fee_per_gas t) (gas_limit t) (to t) (value t)
                 (data t) al (chain_id t)) (sig s) (from s) (tx_hash s).

Section Theorems.
Context `{RlpCrateLaws} `{Keccak}.

(** What a signature covers. Two well-formed transactions have the same
    signing payload exactly when they agree on type, chain id, nonce, fee cap,
    gas limit, recipient, value and data, on the access list unless they are
    legacy, and on the priority fee if they are dynamic-fee transactions; a
    signature made for one chain fits a transaction of another chain only if
    two different payloads collide under the hash. *)
Theorem signature_covers (t1 t2 : Transaction) :
  wf_tx t1 → wf_tx t2 →
  (signing_payload t1 = signing_payload t2 ↔ signed_view t1 = signed_view t2) ∧
  (chain_id t1 ≠ chain_id t2 → signing_hash t1 = signing_hash t2 →
   signing_payload t1 ≠ signing_payload t2 ∧
   keccak256 (signing_payload t1) = keccak256 (signing_payload t2)).
Proof.
  intros W1 W2. split; [split; [by apply signing_payload_inj | apply signing_payload_view]|].
  intros Hc Hh. split; [|done]. intros E. apply signing_payload_inj in E; [|done..].
  unfold signed_view in E. congruence.
Qed.

(** What a legacy signature leaves open. The priority fee and the access
    list of a legacy transaction enter neither its signing hash nor its
    transaction hash: whoever relays it can change both, and with them the
    effective price and the intrinsic gas, and every hash and signature check
    still passes. *)
Theorem legacy_tip_not_signed `{K256} (s : SignedTransaction) (prio : Z) al :
  tx_type (tx s) = Legacy →
  signing_hash (tx (with_unsigned prio al s)) = signing_hash (tx s) ∧
  verify_hash (with_unsigned prio al s) = verify_hash s ∧
  recover_signer (signing_hash (tx (with_unsigned prio al s))) (sig (with_unsigned prio al s)) =
    recover_signer (signing_hash (tx s)) (sig s) ∧
  ∀ base, is_u64 base → is_u64 prio → is_u64 (max_fee_per_gas (tx s)) → base ≤ max_fee_per_gas (tx s) →
    effective_gas_price (with_unsigned prio al s) base =
      base + Z.min prio (max_fee_per_gas (tx s) - base).
Proof.
  intros Ht. unfold verify_hash, compute_hash, signing_hash, hash_payload, signing_payload.
  cbn [with_unsigned tx sig tx_hash tx_type]. rewrite Ht.
  cbn [nonce max_fee_per_gas gas_limit to value data chain_id]. split_and!; try done.
  intros base Hb Hp Hf Hle. unfold effective_gas_price, saturating_sub, wrap64, is_u64 in *.
  cbn [with_unsigned tx max_priority_fee_per_gas max_fee_per_gas].
  rewrite Z.mod_small by lia. lia.
Qed.

End Theorems.

(** The 65-byte form of a signature round-trips; any other length is an
    error. *)
Theorem signature_bytes_roundtrip (s : Signature) (b : bytes) :
  length (sig_r s) = 32%nat → length (sig_s s) = 32%nat →
  sig_from_bytes (sig_to_bytes s) = Ok s ∧
  (length b ≠ 65%nat → sig_from_bytes b = Err (InvalidLength 65 (Z.of_nat (length b)))).
Proof.
  intros Hr Hs. unfold sig_from_bytes, sig_to_bytes. split.
  - rewrite !length_app, Hr, Hs. cbn [length Z.of_nat negb].
    rewrite lookup_app_r by lia. rewrite Hr, lookup_app_r by lia. rewrite Hs.
    cbn. rewrite take_app_length' by done. rewrite drop_app_length' by done.
    rewrite take_app_length' by done. by destruct s.
  - intros Hb. dec_bool. done.
Qed.

Module Samples.
Import ZbxRlp.

#[local] Instance keccak_sample : Keccak := fun b => to_be 32 (be_val b).

Definition sample (ty : TxType) (chain : Z) : Transaction :=
  mkTx ty 7 2 50 21000 (Some (replicate 20 9)) 1000 [1; 0; 2] [(replicate 20 5, [replicate 32 6])] chain.

Lemma wf_sample ty chain : is_u64 chain → wf_tx (sample ty chain).
Proof.
  intros Hc.
  assert (∀ n x, is_u8 x → wf_bytes (replicate n x)) as Hr by (intros; by apply Forall_replicate).
  assert (is_u8 9 ∧ is_u8 5 ∧ is_u8 6) as (?&?&?) by (unfold is_u8; lia).
  split; cbn; try (unfold is_u64; lia); try done.
  - split; [done|]. by apply (Hr 20%nat).
  - split; [|lia]. repeat constructor; unfold is_u8; lia.
  - split_and!; [|lia|repeat constructor; cbn; lia].
    constructor; [|done]. split; [split; [done|by apply (Hr 20%nat)]|].
    constructor; [|done]. split; [done|by apply (Hr 32%nat)].
Qed.

Lemma signature_covers_witness :
  (signing_payload (sample DynamicFee 1) = signing_payload (sample DynamicFee 2) ↔
   signed_view (sample DynamicFee 1) = signed_view (sample DynamicFee 2)) ∧
  (chain_id (sample DynamicFee 1) ≠ chain_id (sample DynamicFee 2) →
   signing_hash (sample DynamicFee 1) = signing_hash (sample DynamicFee 2) →
   signing_payload (sample DynamicFee 1) ≠ signing_payload (sample DynamicFee 2) ∧
   keccak256 (signing_payload (sample DynamicFee 1)) = keccak256 (signing_payload (sample DynamicFee 2))).
Proof. apply (signature_covers (sample DynamicFee 1) (sample DynamicFee 2)); apply wf_sample; done. Defined.

#[local] Instance k256_sample : K256 := Build_K256 (fun _ => true) (fun _ => false) (fun _ => true)
  (fun h _ _ => Some (4 :: h ++ h)).

Definition signed_sample : SignedTransaction :=
  mkSigned (sample Legacy 1) (mkSig 1 (replicate 32 3) (replicate 32 4)) (replicate 20 9) (replicate 32 0).

Lemma legacy_tip_not_signed_witness :
  effective_gas_price signed_sample 30 = 32 ∧
  effective_gas_price (with_unsigned 20 [] signed_sample) 30 = 30 + Z.min 20 (50 - 30).
Proof.
  split; [reflexivity|].
  apply (legacy_tip_not_signed signed_sample 20 [] eq_refl); unfold is_u64; cbn; lia.
Defined.

Lemma signature_bytes_roundtrip_witness :
  sig_from_bytes (sig_to_bytes (mkSig 1 (replicate 32 3) (replicate 32 4))) =
  Ok (mkSig 1 (replicate 32 3) (replicate 32 4)).
Proof. apply (signature_bytes_roundtrip (mkSig 1 (replicate 32 3) (replicate 32 4)) []); done. Defined.

End Samples.

End Transaction.
