(* ===== verification/Mempool.v ===== *)
(** * zbx-mempool: the transaction pool

    Models [crates/zbx-mempool/src]: the pool with its pending and queued
    slots ([pool.rs]), the nonce tracker ([nonce_tracker.rs]) and the errors
    ([error.rs]). Each handler returns its result with the new pool. Where the
    code walks a hash map in iteration order, the order is an argument
    ([select_transactions]) or the walk is order-independent. *)

From stdpp Require Import sorting fin_maps.
From S2P Require Import Prelude.
From S2P Require Import U256.
From S2P Require Import EvmBase.
From S2P Require Import EvmHost.
From S2P Require Import Block.
From S2P Require Import Rlp.
From S2P Require Import Transaction.

Module Mempool.
#[local] Set Warnings "-clear-no-such-hyp".
Import EvmBase EvmHost Block.Block Transaction.Transaction.

Abbreviation key := (address * Z)%type.

(** ** error.rs *)

(** The cases of the [String] inside [InvalidSignature]. *)
Inductive sig_failure := HashMismatch | SigParse | RecoverFailed | SignerMismatch.

Inductive MempoolError :=
| AlreadyKnown (h : bytes)
| NonceTooLow (addr : address) (expected got : Z)
| InsufficientBalance (bal cost : Z)
| GasLimitTooHigh (gl block_limit : Z)
| FeeTooLow (tip min : Z)
| PendingFull (n : Z)
| QueuedFull (n : Z)
| InvalidSignature (why : sig_failure)
| TooManySlotsPerSender (addr : address) (slots max : Z)
| CumulativeBalanceExceeded (addr : address) (reserved bal : Z)
| ReplacementUnderpriced (addr : address) (n new_tip required : Z)
| IntrinsicGasTooLow (addr : address) (gl intrinsic : Z)
| NonceGapTooLarge (addr : address) (n on_chain max_gap : Z).

(** ** nonce_tracker.rs *)

Record NonceTracker := mkTracker {
  on_chain : gmap address Z;
  pending_max : gmap address Z;
}.

Definition tracker_new : NonceTracker := mkTracker ∅ ∅.

Definition set_on_chain (addr : address) (n : Z) (t : NonceTracker) : NonceTracker :=
  mkTracker (<[addr := n]> (on_chain t))
    (match pending_max t !! addr with
     | Some max => if max <=? n then delete addr (pending_max t) else pending_max t
     | None => pending_max t
     end).

Definition on_chain_nonce (addr : address) (t : NonceTracker) : Z := default 0 (on_chain t !! addr).

Definition next_nonce (addr : address) (t : NonceTracker) : Z :=
  match pending_max t !! addr with
  | Some n => wrap64 (n + 1)
  | None => default 0 (on_chain t !! addr)
  end.

Definition record_pending (addr : address) (n : Z) (t : NonceTracker) : NonceTracker :=
  let entry := default 0 (pending_max t !! addr) in
  mkTracker (on_chain t) (<[addr := if entry <? n then n else entry]> (pending_max t)).

Definition remove_pending (addr : address) (t : NonceTracker) : NonceTracker :=
  mkTracker (on_chain t) (delete addr (pending_max t)).

(** ** pool.rs *)

Definition slot_cost (s : SignedTransaction) : Z :=
  let max_cost := saturating_mul128 (max_fee_per_gas (tx s)) (gas_limit (tx s)) in
  saturating_add128 max_cost (saturate_u128 (value (tx s))).

Record MempoolConfig := mkConfig {
  max_pending : Z;
  max_queued : Z;
  min_gas_tip : Z;
  max_tx_size : Z;
  max_slots_per_sender : Z;
  max_nonce_gap : Z;
}.

Definition config_default : MempoolConfig := mkConfig 5000 2000 1000000 (128 * 1024) 64 256.

Record PendingSlot := mkSlot { slot_tx : SignedTransaction; priority : Z }.

#[export] Instance PendingSlot_eq_dec : EqDecision PendingSlot.
Proof. solve_decision. Defined.

Record TransactionPool := mkPool {
  config : MempoolConfig;
  pending : gmap key PendingSlot;
  queued : gmap key SignedTransaction;
  known : gmap bytes key;
  nonce_tracker : NonceTracker;
  base_fee : Z;
}.

Definition pool_new (c : MempoolConfig) : TransactionPool :=
  mkPool c ∅ ∅ ∅ tracker_new 1000000000.

Definition pending_count (p : TransactionPool) : Z := Z.of_nat (size (pending p)).
Definition queued_count (p : TransactionPool) : Z := Z.of_nat (size (queued p)).
Definition total_count (p : TransactionPool) : Z := pending_count p + queued_count p.

(** The number of keys of a map that belong to a sender. *)
Definition keys_of {A} (addr : address) (m : gmap key A) : Z :=
  Z.of_nat (size (filter (fun kv => kv.1.1 = addr) m)).

Definition sender_slot_count (addr : address) (p : TransactionPool) : Z :=
  keys_of addr (pending p) + keys_of addr (queued p).

(** [cost_of] of [sender_cumulative_cost]: the product of two 64-bit numbers
    fits in 128 bits. *)
Definition cost_of (s : SignedTransaction) : Z :=
  let max_cost := max_fee_per_gas (tx s) * gas_limit (tx s) in
  saturating_add128 max_cost (saturate_u128 (value (tx s))).

(** One of the two accumulation loops; saturating sums of non-negative numbers
    do not depend on the order. *)
Definition add_costs {A} (get : A → SignedTransaction) (addr : address) (m : gmap key A) (total : Z) : Z :=
  fold_left (fun total (kv : key * A) =>
    if bool_decide (kv.1.1 = addr) then saturating_add128 total (cost_of (get kv.2)) else total)
    (map_to_list m) total.

Definition sender_cumulative_cost (addr : address) (p : TransactionPool) : Z :=
  add_costs id addr (queued p) (add_costs slot_tx addr (pending p) 0).

Definition update_base_fee (h : BlockHeader) (p : TransactionPool) : TransactionPool :=
  mkPool (config p) (pending p) (queued p) (known p) (nonce_tracker p) (base_fee_per_gas h).

Definition with_tracker (t : NonceTracker) (p : TransactionPool) : TransactionPool :=
  mkPool (config p) (pending p) (queued p) (known p) t (base_fee p).
Definition with_known (k : gmap bytes key) (p : TransactionPool) : TransactionPool :=
  mkPool (config p) (pending p) (queued p) k (nonce_tracker p) (base_fee p).
Definition with_pending (m : gmap key PendingSlot) (p : TransactionPool) : TransactionPool :=
  mkPool (config p) m (queued p) (known p) (nonce_tracker p) (base_fee p).
Definition with_queued (m : gmap key SignedTransaction) (p : TransactionPool) : TransactionPool :=
  mkPool (config p) (pending p) m (known p) (nonce_tracker p) (base_fee p).

Definition tip_of (s : SignedTransaction) (bf : Z) : Z := saturating_sub (effective_gas_price s bf) bf.

(** [promote_queued]: at most [MAX_PROMOTE_PER_CALL] iterations. *)
Definition MAX_PROMOTE_PER_CALL : nat := 256.

Fixpoint promote_loop (n : nat) (addr : address) (p : TransactionPool) : TransactionPool :=
  match n with
  | O => p
  | S n' =>
      let expected := next_nonce addr (nonce_tracker p) in
      match queued p !! (addr, expected) with
      | Some t =>
          promote_loop n' addr
            (mkPool (config p) (<[(addr, expected) := mkSlot t (tip_of t (base_fee p))]> (pending p))
               (delete (addr, expected) (queued p)) (known p)
               (record_pending addr expected (nonce_tracker p)) (base_fee p))
      | None => p
      end
  end.

Definition promote_queued (addr : address) (p : TransactionPool) : TransactionPool :=
  promote_loop MAX_PROMOTE_PER_CALL addr p.

Section Admission.
Context `{RlpCrate} `{Keccak} `{K256}.

(** The signature checks of [add_transaction]. *)
Definition check_signature (s : SignedTransaction) : outcome MempoolError unit :=
  if negb (verify_hash s) then Err (InvalidSignature HashMismatch) else
  match sig_from_bytes (sig_to_bytes (sig s)) with
  | Err _ => Err (InvalidSignature SigParse)
  | Panic => Panic
  | Ok crypto_sig =>
      match recover_signer (signing_hash (tx s)) crypto_sig with
      | Err _ => Err (InvalidSignature RecoverFailed)
      | Panic => Panic
      | Ok recovered =>
          if negb (bool_decide (recovered = from s)) then Err (InvalidSignature SignerMismatch)
          else Ok tt
      end
  end.

(** [value + gas_limit * max_fee], saturating. *)
Definition total_cost (s : SignedTransaction) : Z :=
  saturating_add128 (max_fee_per_gas (tx s) * gas_limit (tx s)) (saturate_u128 (value (tx s))).

(** The checks before the first change of the pool. *)
Definition check_static (s : SignedTransaction) (sender_balance : Z) (p : TransactionPool)
    : outcome MempoolError unit :=
  if bool_decide (is_Some (known p !! tx_hash s)) then Err (AlreadyKnown (tx_hash s)) else
  let? _ := check_signature s in
  if BLOCK_GAS_LIMIT <? gas_limit (tx s) then Err (GasLimitTooHigh (gas_limit (tx s)) BLOCK_GAS_LIMIT) else
  let tip := tip_of s (base_fee p) in
  if tip <? min_gas_tip (config p) then Err (FeeTooLow tip (min_gas_tip (config p))) else
  let intrinsic := intrinsic_gas (tx s) in
  if gas_limit (tx s) <? intrinsic then Err (IntrinsicGasTooLow (from s) (gas_limit (tx s)) intrinsic) else
  if sender_balance <? total_cost s then Err (InsufficientBalance sender_balance (total_cost s)) else
  Ok tt.

Definition is_replacement (k : key) (p : TransactionPool) : bool :=
  bool_decide (is_Some (pending p !! k)) || bool_decide (is_Some (queued p !! k)).

(** The reservation of the sender's other pooled transactions. *)
Definition other_reserved (k : key) (p : TransactionPool) : Z :=
  let all := sender_cumulative_cost k.1 p in
  match pending p !! k with
  | Some slot => saturating_sub all (slot_cost (slot_tx slot))
  | None =>
      match queued p !! k with
      | Some old => saturating_sub all (slot_cost old)
      | None => all
      end
  end.

(** The tip a replacement must offer, if it is one. *)
Definition required_tip (k : key) (p : TransactionPool) : option Z :=
  let bump old := wrap64 (saturating_mul64 old 1125 / 1000 + 1) in
  match pending p !! k with
  | Some slot => Some (bump (priority slot))
  | None =>
      match queued p !! k with
      | Some old => Some (bump (tip_of old (base_fee p)))
      | None => None
      end
  end.

(** The checks after the nonce tracker has learned the on-chain nonce. *)
Definition check_pool (s : SignedTransaction) (sender_balance sender_on_chain_nonce : Z)
    (p : TransactionPool) : outcome MempoolError unit :=
  let addr := from s in
  let n := nonce (tx s) in
  let k := (addr, n) in
  if n <? sender_on_chain_nonce then Err (NonceTooLow addr sender_on_chain_nonce n) else
  let gap := saturating_sub n sender_on_chain_nonce in
  if max_nonce_gap (config p) <? gap
  then Err (NonceGapTooLarge addr n sender_on_chain_nonce (max_nonce_gap (config p))) else
  let used := sender_slot_count addr p in
  if negb (is_replacement k p) && (max_slots_per_sender (config p) <=? used)
  then Err (TooManySlotsPerSender addr (used + 1) (max_slots_per_sender (config p))) else
  let projected := saturating_add128 (other_reserved k p) (total_cost s) in
  if sender_balance <? projected then Err (CumulativeBalanceExceeded addr projected sender_balance) else
  let tip := tip_of s (base_fee p) in
  match required_tip k p with
  | Some required =>
      if tip <? required then Err (ReplacementUnderpriced addr n tip required) else Ok tt
  | None => Ok tt
  end.

(** The eviction of the replaced hash and the record of the new one. *)
Definition update_known (s : SignedTransaction) (p : TransactionPool) : gmap bytes key :=
  let k := (from s, nonce (tx s)) in
  let m1 := match pending p !! k with Some slot => delete (tx_hash (slot_tx slot)) (known p) | None => known p end in
  let m2 := match queued p !! k with Some old => delete (tx_hash old) m1 | None => m1 end in
  <[tx_hash s := k]> m2.

Definition insert_tx (s : SignedTransaction) (expected : Z) (p : TransactionPool)
    : outcome MempoolError bytes * TransactionPool :=
  let k := (from s, nonce (tx s)) in
  let repl := is_replacement k p in
  let p1 := with_known (update_known s p) p in
  if nonce (tx s) =? expected then
    if negb repl && (max_pending (config p) <=? pending_count p1)
    then (Err (PendingFull (pending_count p1)), with_known (delete (tx_hash s) (known p1)) p1)
    else
      let p2 := with_tracker (record_pending (from s) (nonce (tx s)) (nonce_tracker p1)) p1 in
      let p3 := with_pending (<[k := mkSlot s (tip_of s (base_fee p))]> (pending p2)) p2 in
      (Ok (tx_hash s), promote_queued (from s) p3)
  else
    if negb repl && (max_queued (config p) <=? queued_count p1)
    then (Err (QueuedFull (queued_count p1)), with_known (delete (tx_hash s) (known p1)) p1)
    else (Ok (tx_hash s), with_queued (<[k := s]> (queued p1)) p1).

Definition add_transaction (s : SignedTransaction) (sender_balance sender_on_chain_nonce : Z)
    (p : TransactionPool) : outcome MempoolError bytes * TransactionPool :=
  match check_static s sender_balance p with
  | Err e => (Err e, p)
  | Panic => (Panic, p)
  | Ok _ =>
      let p1 := with_tracker (set_on_chain (from s) sender_on_chain_nonce (nonce_tracker p)) p in
      let expected := next_nonce (from s) (nonce_tracker p1) in
      match check_pool s sender_balance sender_on_chain_nonce p1 with
      | Err e => (Err e, p1)
      | Panic => (Panic, p1)
      | Ok _ => insert_tx s expected p1
      end
  end.

End Admission.

(** [select_transactions]: [slots] is what iterating [pending.values()] gives. *)
Definition by_tip (a b : PendingSlot) : Prop := priority b ≤ priority a.
#[export] Instance by_tip_dec a b : Decision (by_tip a b).
Proof. unfold by_tip. apply _. Defined.

Fixpoint select_loop (slots : list PendingSlot) (total_gas gl : Z) : list SignedTransaction :=
  match slots with
  | [] => []
  | slot :: rest =>
      let gas := gas_limit (tx (slot_tx slot)) in
      if gl <? wrap64 (total_gas + gas) then select_loop rest total_gas gl
      else slot_tx slot :: select_loop rest (wrap64 (total_gas + gas)) gl
  end.

Definition select_transactions (slots : list PendingSlot) (gl : Z) : list SignedTransaction :=
  select_loop (merge_sort by_tip slots) 0 gl.

Definition confirm_one (p : TransactionPool) (s : SignedTransaction) : TransactionPool :=
  let k := (from s, nonce (tx s)) in
  mkPool (config p) (delete k (pending p)) (delete k (queued p)) (delete (tx_hash s) (known p))
    (set_on_chain (from s) (wrap64 (nonce (tx s) + 1)) (nonce_tracker p)) (base_fee p).

Definition remove_confirmed (txs : list SignedTransaction) (p : TransactionPool) : TransactionPool :=
  let p1 := fold_left confirm_one txs p in
  fold_left (fun p addr => promote_queued addr p) (map from txs) p1.

(** ** Sums of costs over a map *)

Section Sums.
Context {A : Type} (get : A → SignedTransaction) (addr : address).

Definition entry_cost (kv : key * A) : Z :=
  if bool_decide (kv.1.1 = addr) then cost_of (get kv.2) else 0.

Definition list_cost (l : list (key * A)) : Z := foldr (fun kv acc => entry_cost kv + acc) 0 l.
Definition cost_sum (m : gmap key A) : Z := list_cost (map_to_list m).

Lemma list_cost_perm l1 l2 : l1 ≡ₚ l2 → list_cost l1 = list_cost l2.
Proof. unfold list_cost. induction 1; cbn [foldr]; lia. Qed.

Lemma cost_sum_insert m k v : m !! k = None → cost_sum (<[k := v]> m) = entry_cost (k, v) + cost_sum m.
Proof. intros Hk. unfold cost_sum. by rewrite (list_cost_perm _ _ (map_to_list_insert m k v Hk)). Qed.

Lemma cost_sum_delete m k v : m !! k = Some v → cost_sum m = entry_cost (k, v) + cost_sum (delete k m).
Proof.
  intros Hk. rewrite <- cost_sum_insert by apply lookup_delete_eq.
  by rewrite insert_delete_id.
Qed.

Lemma cost_sum_replace m k v w :
  m !! k = Some v → cost_sum (<[k := w]> m) = cost_sum m - entry_cost (k, v) + entry_cost (k, w).
Proof.
  intros Hk. rewrite (cost_sum_delete m k v Hk), <- insert_delete_eq, cost_sum_insert
    by apply lookup_delete_eq. lia.
Qed.
End Sums.

(** Pooled transactions carry 64-bit fees and gas limits, so the costs are
    128-bit numbers. *)
Definition wf_cost (s : SignedTransaction) : Prop :=
  is_u64 (max_fee_per_gas (tx s)) ∧ is_u64 (gas_limit (tx s)) ∧ 0 ≤ value (tx s).

Lemma saturate_u128_nonneg v : 0 ≤ v → 0 ≤ saturate_u128 v.
Proof.
  intros Hv. unfold saturate_u128. case_if; [unfold U128_MAX; lia|]. apply Z.mod_pos_bound. lia.
Qed.

Lemma cost_of_bound s : wf_cost s → 0 ≤ cost_of s ≤ U128_MAX.
Proof.
  intros (Hf & Hg & Hv). unfold cost_of, saturating_add128, is_u64 in *.
  pose proof (saturate_u128_nonneg _ Hv). unfold U128_MAX in *. split; [nia|lia].
Qed.

(** The three spellings of a transaction's cost in [pool.rs] agree. *)
Lemma costs_agree s : wf_cost s → slot_cost s = cost_of s ∧ total_cost s = cost_of s.
Proof.
  intros (Hf & Hg & Hv). split; [|done]. unfold slot_cost, cost_of, saturating_mul128.
  rewrite Z.min_l; [done|]. unfold is_u64, U128_MAX in *. nia.
Qed.

Lemma entry_cost_nonneg {A} (get : A → SignedTransaction) addr kv :
  wf_cost (get kv.2) → 0 ≤ entry_cost get addr kv.
Proof. intros Hw. unfold entry_cost. case_bool_decide; [|lia]. apply cost_of_bound, Hw. Qed.

Lemma list_cost_nonneg {A} (get : A → SignedTransaction) addr l :
  Forall (fun kv : key * A => wf_cost (get kv.2)) l → 0 ≤ list_cost get addr l.
Proof.
  unfold list_cost. induction 1 as [|kv l Hw _ IH]; cbn [foldr]; [lia|].
  pose proof (entry_cost_nonneg get addr kv Hw). lia.
Qed.

Lemma map_Forall_list {A} (get : A → SignedTransaction) (m : gmap key A) :
  map_Forall (fun _ v => wf_cost (get v)) m → Forall (fun kv => wf_cost (get kv.2)) (map_to_list m).
Proof.
  intros Hm. apply Forall_forall. intros [k v] Hin. apply elem_of_map_to_list in Hin.
  by apply (Hm k v).
Qed.

(** The accumulation loops compute the sum, capped at 2^128 - 1. *)
Lemma add_costs_eq {A} (get : A → SignedTransaction) (addr : address) (m : gmap key A) total :
  map_Forall (fun _ v => wf_cost (get v)) m → 0 ≤ total ≤ U128_MAX →
  add_costs get addr m total = Z.min (total + cost_sum get addr m) U128_MAX.
Proof.
  intros Hm Ht. apply map_Forall_list in Hm. unfold add_costs, cost_sum. revert total Ht.
  induction Hm as [|kv l Hw Hl IH]; intros total Ht; cbn [fold_left list_cost foldr]; [lia|].
  pose proof (entry_cost_nonneg get addr kv Hw) as Hn. pose proof (list_cost_nonneg get addr l Hl).
  fold (list_cost get addr l). unfold entry_cost in *.
  case_bool_decide; rewrite IH; unfold saturating_add128 in *; lia.
Qed.

Definition pool_costs_ok (p : TransactionPool) : Prop :=
  map_Forall (fun _ v => wf_cost (slot_tx v)) (pending p) ∧
  map_Forall (fun _ v => wf_cost v) (queued p).

Definition pool_cost (addr : address) (p : TransactionPool) : Z :=
  cost_sum slot_tx addr (pending p) + cost_sum id addr (queued p).

Lemma cost_sum_nonneg {A} (get : A → SignedTransaction) (addr : address) (m : gmap key A) :
  map_Forall (fun _ v => wf_cost (get v)) m → 0 ≤ cost_sum get addr m.
Proof. intros Hm. by apply list_cost_nonneg, map_Forall_list. Qed.

Lemma cumulative_eq addr p :
  pool_costs_ok p → sender_cumulative_cost addr p = Z.min (pool_cost addr p) U128_MAX.
Proof.
  intros [Hp Hq]. unfold sender_cumulative_cost, pool_cost.
  pose proof (cost_sum_nonneg slot_tx addr _ Hp). pose proof (cost_sum_nonneg id addr _ Hq).
  assert (0 ≤ U128_MAX) by done.
  rewrite (add_costs_eq slot_tx) by (done || lia). rewrite (add_costs_eq id) by (done || lia). lia.
Qed.

(** ** Promotion *)

(** Invariants of a pool that [promote_queued] keeps are proved step by step. *)
Definition promote_one (addr : address) (t : SignedTransaction) (p : TransactionPool) : TransactionPool :=
  let expected := next_nonce addr (nonce_tracker p) in
  mkPool (config p) (<[(addr, expected) := mkSlot t (tip_of t (base_fee p))]> (pending p))
    (delete (addr, expected) (queued p)) (known p)
    (record_pending addr expected (nonce_tracker p)) (base_fee p).

Lemma promote_loop_S n addr p :
  promote_loop (S n) addr p =
  match queued p !! (addr, next_nonce addr (nonce_tracker p)) with
  | Some t => promote_loop n addr (promote_one addr t p)
  | None => p
  end.
Proof. done. Qed.

Lemma promote_ind (P : TransactionPool → Prop) addr n p :
  P p →
  (∀ q t, P q → queued q !! (addr, next_nonce addr (nonce_tracker q)) = Some t → P (promote_one addr t q)) →
  P (promote_loop n addr p).
Proof.
  intros H0 HS. revert p H0. induction n as [|n IH]; intros p H0; [done|].
  rewrite promote_loop_S. destruct (queued p !! _) eqn:E; [|done]. apply IH, HS; done.
Qed.

(** ** Admission, case by case *)

Section Cases.
Context `{RlpCrate} `{Keccak} `{K256}.

(** What [add_transaction] establishes of a transaction itself. *)
Record admissible (s : SignedTransaction) : Prop := {
  adm_hash : verify_hash s = true;
  adm_signer : ∃ sg, sig_from_bytes (sig_to_bytes (sig s)) = Ok sg ∧
                     recover_signer (signing_hash (tx s)) sg = Ok (from s);
  adm_block : gas_limit (tx s) ≤ BLOCK_GAS_LIMIT;
  adm_intrinsic : intrinsic_gas (tx s) ≤ gas_limit (tx s)
}.

Lemma sig_from_bytes_no_panic b : sig_from_bytes b ≠ Panic.
Proof.
  unfold sig_from_bytes. case_if; [done|]. destruct (b !! 64%nat) eqn:E; [done|].
  apply lookup_ge_None in E. lia.
Qed.

Lemma check_signature_ok s :
  check_signature s = Ok tt →
  verify_hash s = true ∧ ∃ sg, sig_from_bytes (sig_to_bytes (sig s)) = Ok sg ∧
    recover_signer (signing_hash (tx s)) sg = Ok (from s).
Proof.
  unfold check_signature. destruct (verify_hash s); [|done]. cbn [negb]. intros E. split; [done|].
  destruct (sig_from_bytes _) as [sg| |]; try done. exists sg. split; [done|].
  destruct (recover_signer _ _) as [a| |]; try done. by case_bool_decide; subst.
Qed.

Lemma check_static_ok s bal p :
  check_static s bal p = Ok tt →
  known p !! tx_hash s = None ∧ admissible s ∧
  min_gas_tip (config p) ≤ tip_of s (base_fee p) ∧ total_cost s ≤ bal.
Proof.
  unfold check_static. case_bool_decide as Hk; [done|]. apply eq_None_not_Some in Hk.
  destruct (check_signature s) as [[]| |] eqn:Es; try done. cbn [outcome_bind].
  repeat case_if; try done. intros _. apply check_signature_ok in Es as [? ?].
  split_and!; try done.
Qed.

Lemma check_pool_ok s bal oc p :
  check_pool s bal oc p = Ok tt →
  oc ≤ nonce (tx s) ∧ saturating_sub (nonce (tx s)) oc ≤ max_nonce_gap (config p) ∧
  (is_replacement (from s, nonce (tx s)) p = false → sender_slot_count (from s) p < max_slots_per_sender (config p)) ∧
  saturating_add128 (other_reserved (from s, nonce (tx s)) p) (total_cost s) ≤ bal ∧
  ∀ r, required_tip (from s, nonce (tx s)) p = Some r → r ≤ tip_of s (base_fee p).
Proof.
  unfold check_pool. repeat case_if; try done. intros E. split_and!; try lia.
  - destruct (is_replacement _ p); [done|]. cbn [negb andb] in *. by simp_bool.
  - destruct (required_tip _ p) as [r|]; [|done]. intros ? [= <-]. by case_if.
Qed.

Lemma check_static_no_panic s bal p : check_static s bal p ≠ Panic.
Proof.
  unfold check_static. case_if; [done|]. apply bind_no_panic; [|by intros; repeat case_if].
  unfold check_signature. case_if; [done|]. pose proof (sig_from_bytes_no_panic (sig_to_bytes (sig s))).
  destruct (sig_from_bytes _) as [sg| |]; try done.
  pose proof (recover_signer_no_panic (signing_hash (tx s)) sg).
  destruct (recover_signer _ _); try done. by case_if.
Qed.

Lemma check_pool_no_panic s bal oc p : check_pool s bal oc p ≠ Panic.
Proof. unfold check_pool. repeat case_if; try done. destruct (required_tip _ _); [by case_if|done]. Qed.

(** The pool once the tracker has learned the on-chain nonce, and the two
    ways the transaction is stored. *)
Definition tracked (s : SignedTransaction) (oc : Z) (p : TransactionPool) : TransactionPool :=
  with_tracker (set_on_chain (from s) oc (nonce_tracker p)) p.

Definition placed_pending (s : SignedTransaction) (p : TransactionPool) : TransactionPool :=
  mkPool (config p) (<[(from s, nonce (tx s)) := mkSlot s (tip_of s (base_fee p))]> (pending p))
    (queued p) (update_known s p) (record_pending (from s) (nonce (tx s)) (nonce_tracker p)) (base_fee p).

Definition placed_queued (s : SignedTransaction) (p : TransactionPool) : TransactionPool :=
  mkPool (config p) (pending p) (<[(from s, nonce (tx s)) := s]> (queued p))
    (update_known s p) (nonce_tracker p) (base_fee p).

Lemma update_known_full s p :
  is_replacement (from s, nonce (tx s)) p = false → known p !! tx_hash s = None →
  delete (tx_hash s) (update_known s p) = known p.
Proof.
  unfold is_replacement, update_known. intros Hr Hk. simp_bool.
  apply bool_decide_eq_false in H2, H3. apply eq_None_not_Some in H2, H3. rewrite H2, H3.
  rewrite delete_insert_eq. by apply delete_id.
Qed.

Inductive add_result (s : SignedTransaction) (bal oc : Z) (p : TransactionPool) :
    outcome MempoolError bytes → TransactionPool → Prop :=
| add_rejected_early e : add_result s bal oc p (Err e) p
| add_rejected_late e : add_result s bal oc p (Err e) (tracked s oc p)
| add_pending :
    check_static s bal p = Ok tt → check_pool s bal oc (tracked s oc p) = Ok tt →
    nonce (tx s) = next_nonce (from s) (nonce_tracker (tracked s oc p)) →
    (is_replacement (from s, nonce (tx s)) p = false → pending_count p < max_pending (config p)) →
    add_result s bal oc p (Ok (tx_hash s)) (promote_queued (from s) (placed_pending s (tracked s oc p)))
| add_queued :
    check_static s bal p = Ok tt → check_pool s bal oc (tracked s oc p) = Ok tt →
    nonce (tx s) ≠ next_nonce (from s) (nonce_tracker (tracked s oc p)) →
    (is_replacement (from s, nonce (tx s)) p = false → queued_count p < max_queued (config p)) →
    add_result s bal oc p (Ok (tx_hash s)) (placed_queued s (tracked s oc p)).

Lemma insert_full s p :
  is_replacement (from s, nonce (tx s)) p = false → known p !! tx_hash s = None →
  with_known (delete (tx_hash s) (known (with_known (update_known s p) p))) (with_known (update_known s p) p)
  = p.
Proof.
  intros Hr Hk. unfold with_known. cbn. rewrite update_known_full by done. by destruct p.
Qed.

Lemma add_cases s bal oc p :
  let '(r, p') := add_transaction s bal oc p in add_result s bal oc p r p'.
Proof.
  unfold add_transaction. pose proof (check_static_no_panic s bal p).
  destruct (check_static s bal p) as [[]|e|] eqn:Es; [|apply add_rejected_early|done].
  fold (tracked s oc p). pose proof (check_pool_no_panic s bal oc (tracked s oc p)).
  destruct (check_pool s bal oc (tracked s oc p)) as [[]|e|] eqn:Ep; [|apply add_rejected_late|done].
  assert (Hk : known (tracked s oc p) !! tx_hash s = None) by (apply check_static_ok in Es as [? _]; done).
  unfold insert_tx. repeat case_if.
  - rewrite insert_full by done. apply add_rejected_late.
  - apply add_pending; try done. intros Hr.
    change (is_replacement (from s, nonce (tx s)) (tracked s oc p) = false) in Hr.
    match goal with X : _ && _ = false |- _ => rewrite Hr in X; cbn [negb andb] in X; simp_bool end. done.
  - rewrite insert_full by done. apply add_rejected_late.
  - apply add_queued; try done. intros Hr.
    change (is_replacement (from s, nonce (tx s)) (tracked s oc p) = false) in Hr.
    match goal with X : _ && _ = false |- _ => rewrite Hr in X; cbn [negb andb] in X; simp_bool end. done.
Qed.

End Cases.

(** ** The invariant of the pool *)

(** The nonces of a sender that occupy the pool. *)
Definition sender_keys (addr : address) (p : TransactionPool) : gset key :=
  filter (fun k => k.1 = addr) (dom (pending p) ∪ dom (queued p)).

Lemma keys_of_size {A} (addr : address) (m : gmap key A) :
  keys_of addr m = Z.of_nat (size (filter (fun k => k.1 = addr) (dom m) : gset key)).
Proof.
  unfold keys_of. rewrite <- (size_dom (D:=gset key)). do 2 f_equal. apply leibniz_equiv.
  intros k. rewrite elem_of_dom, elem_of_filter, elem_of_dom. unfold is_Some.
  setoid_rewrite map_lookup_filter_Some. cbn. split.
  - intros (v & Hv & Ha). eauto.
  - intros (Ha & v & Hv). eauto.
Qed.

Lemma filter_union_keys (a : address) (X Y : gset key) :
  filter (fun k => k.1 = a) (X ∪ Y) = filter (fun k => k.1 = a) X ∪ filter (fun k => k.1 = a) Y.
Proof. apply leibniz_equiv. set_solver. Qed.

Lemma filter_key_same (a : address) (k : key) :
  k.1 = a → filter (fun k => k.1 = a) ({[k]} : gset key) = {[k]}.
Proof. intros. apply leibniz_equiv. set_solver. Qed.

Lemma filter_key_other (a : address) (k : key) :
  k.1 ≠ a → filter (fun k => k.1 = a) ({[k]} : gset key) = ∅.
Proof. intros. apply leibniz_equiv. set_solver. Qed.

Lemma sender_keys_count addr p : Z.of_nat (size (sender_keys addr p)) ≤ sender_slot_count addr p.
Proof.
  unfold sender_slot_count, sender_keys. rewrite !keys_of_size.
  rewrite <- Nat2Z.inj_add. apply inj_le. rewrite filter_union_keys, size_union_alt.
  assert (size ((filter (fun k => k.1 = addr) (dom (queued p)) : gset key) ∖
                filter (fun k => k.1 = addr) (dom (pending p)))
          ≤ size (filter (fun k => k.1 = addr) (dom (queued p)) : gset key))%nat
    by (apply subseteq_size, subseteq_difference_l; done).
  lia.
Qed.

(** Keys held twice: pending, and queued as a replacement that did not replace. *)
Definition doubled (p : TransactionPool) : gset key := dom (pending p) ∩ dom (queued p).

Lemma size_union_inter (X Y : gset key) : (size X + size Y = size (X ∪ Y) + size (X ∩ Y))%nat.
Proof.
  rewrite size_union_alt. assert (size Y = size (Y ∖ X) + size (X ∩ Y))%nat; [|lia].
  rewrite <- size_union by set_solver. f_equal. apply leibniz_equiv. intros k. destruct (decide (k ∈ X)); set_solver.
Qed.

(** The code's counters are the numbers of nonces plus those held twice. *)
Lemma slot_count_keys addr p :
  sender_slot_count addr p =
  Z.of_nat (size (sender_keys addr p)) + Z.of_nat (size (filter (fun k => k.1 = addr) (doubled p))).
Proof.
  unfold sender_slot_count, sender_keys, doubled. rewrite !keys_of_size, filter_union_keys.
  rewrite <- !Nat2Z.inj_add, size_union_inter. do 3 f_equal. apply leibniz_equiv. set_solver.
Qed.

Lemma queued_count_keys p :
  queued_count p = Z.of_nat (size (dom (queued p) ∖ dom (pending p))) + Z.of_nat (size (doubled p)).
Proof.
  unfold queued_count, doubled. rewrite <- (size_dom (D:=gset key)), <- Nat2Z.inj_add. f_equal.
  rewrite <- size_union by set_solver. f_equal. apply leibniz_equiv. intros k.
  destruct (decide (k ∈ dom (pending p))); set_solver.
Qed.

Lemma slots_mono (X Y : gset key) (a : address) :
  X ⊆ Y → Z.of_nat (size (filter (fun k => k.1 = a) X)) ≤ Z.of_nat (size (filter (fun k => k.1 = a) Y)).
Proof. intros HXY. apply inj_le, subseteq_size. set_solver. Qed.

Lemma queue_mono (X Y : gset key) : X ⊆ Y → Z.of_nat (size X) ≤ Z.of_nat (size Y).
Proof. intros HXY. by apply inj_le, subseteq_size. Qed.

Lemma record_pending_ok addr n t :
  0 ≤ n < U64_MAX → map_Forall (fun _ m => 0 ≤ m < U64_MAX) (pending_max t) →
  map_Forall (fun _ m => 0 ≤ m < U64_MAX) (pending_max (record_pending addr n t)).
Proof.
  intros Hn Ht. unfold record_pending. cbn. apply map_Forall_insert_2; [|done].
  case_if; [done|]. destruct (pending_max t !! addr) as [m|] eqn:E; cbn in *.
  - by apply (Ht addr m).
  - unfold U64_MAX. lia.
Qed.

Lemma set_on_chain_ok addr n t :
  map_Forall (fun _ m => 0 ≤ m < U64_MAX) (pending_max t) →
  map_Forall (fun _ m => 0 ≤ m < U64_MAX) (pending_max (set_on_chain addr n t)).
Proof.
  intros Ht. unfold set_on_chain. cbn. destruct (pending_max t !! addr); [|done].
  case_if; [by apply map_Forall_delete|done].
Qed.

Section Invariant.
Context `{RlpCrate} `{Keccak} `{K256}.

Record entry_ok (k : key) (s : SignedTransaction) : Prop := {
  eo_key : k = (from s, nonce (tx s));
  eo_adm : admissible s;
  eo_cost : wf_cost s;
  eo_nonce : 0 ≤ nonce (tx s) < U64_MAX
}.

Record pool_inv (p : TransactionPool) : Prop := {
  pi_pending : map_Forall (fun k v => entry_ok k (slot_tx v)) (pending p);
  pi_queued : map_Forall (fun k v => entry_ok k v) (queued p);
  pi_slots : ∀ a, Z.of_nat (size (sender_keys a p)) ≤ max_slots_per_sender (config p);
  pi_queue : Z.of_nat (size (dom (queued p) ∖ dom (pending p))) ≤ max_queued (config p);
  pi_tracker : map_Forall (fun _ m => 0 ≤ m < U64_MAX) (pending_max (nonce_tracker p))
}.

Lemma promote_one_inv addr t p :
  pool_inv p → queued p !! (addr, next_nonce addr (nonce_tracker p)) = Some t →
  pool_inv (promote_one addr t p).
Proof.
  intros [Hp Hq Hs Hu Ht] E. pose proof (Hq _ _ E) as Hk. destruct (eo_key _ _ Hk).
  assert (Hd : (addr, next_nonce addr (nonce_tracker p)) ∈ (dom (queued p) : gset key))
    by (by apply elem_of_dom_2 in E).
  split; cbn.
  - by apply map_Forall_insert_2.
  - by apply map_Forall_delete.
  - intros a. etrans; [|apply (Hs a)]. apply slots_mono. cbn [pending queued promote_one].
    rewrite dom_insert_L, dom_delete_L. set_solver.
  - etrans; [|apply Hu]. apply queue_mono. rewrite dom_insert_L, dom_delete_L. set_solver.
  - apply record_pending_ok; [|done]. pose proof (eo_nonce _ _ Hk). pose proof (eo_key _ _ Hk).
    congruence.
Qed.

Lemma promote_queued_inv addr p : pool_inv p → pool_inv (promote_queued addr p).
Proof. intros Hp. apply (promote_ind pool_inv); [done|]. intros q t. apply promote_one_inv. Qed.

Lemma tracked_inv s oc p : pool_inv p → pool_inv (tracked s oc p).
Proof. intros [Hp Hq Hs Hu Ht]. split; try done. by apply set_on_chain_ok. Qed.

(** A key added to the pool stays within the sender's allowance: it is there
    already, or a slot was free. *)
Lemma slots_add s p :
  (∀ a, Z.of_nat (size (sender_keys a p)) ≤ max_slots_per_sender (config p)) →
  (is_replacement (from s, nonce (tx s)) p = false →
   sender_slot_count (from s) p < max_slots_per_sender (config p)) →
  ∀ a, Z.of_nat (size (filter (fun k => k.1 = a)
         ({[ (from s, nonce (tx s)) ]} ∪ (dom (pending p) ∪ dom (queued p)) : gset key)))
       ≤ max_slots_per_sender (config p).
Proof.
  intros Hs Hr a. set (k := (from s, nonce (tx s))). rewrite filter_union_keys.
  destruct (decide (a = from s)) as [->|Ha].
  2:{ rewrite filter_key_other by (cbn; congruence). rewrite union_empty_l_L. apply Hs. }
  rewrite filter_key_same by done. destruct (is_replacement k p) eqn:E.
  - assert (k ∈ sender_keys (from s) p).
    { unfold sender_keys. rewrite elem_of_filter, elem_of_union, !elem_of_dom. split; [done|].
      unfold is_replacement in E. apply orb_true_iff in E as [E|E]; apply bool_decide_eq_true in E; eauto. }
    replace ({[k]} ∪ filter _ _) with (sender_keys (from s) p); [apply Hs|].
    unfold sender_keys in *. set_solver.
  - specialize (Hr E). pose proof (sender_keys_count (from s) p).
    fold (sender_keys (from s) p). rewrite size_union_alt, size_singleton.
    assert (size (sender_keys (from s) p ∖ {[k]}) ≤ size (sender_keys (from s) p))%nat
      by (apply subseteq_size; set_solver). lia.
Qed.

Lemma placed_pending_inv s p :
  pool_inv p → entry_ok (from s, nonce (tx s)) s →
  (is_replacement (from s, nonce (tx s)) p = false →
   sender_slot_count (from s) p < max_slots_per_sender (config p)) →
  pool_inv (placed_pending s p).
Proof.
  intros [Hp Hq Hs Hu Ht] He Hr. split; cbn; try done.
  - by apply map_Forall_insert_2.
  - intros a. unfold sender_keys. cbn. rewrite dom_insert_L, <- (assoc_L (∪)). by apply slots_add.
  - etrans; [|apply Hu]. apply queue_mono. rewrite dom_insert_L. set_solver.
  - apply record_pending_ok; [apply He|done].
Qed.

Lemma placed_queued_inv s p :
  pool_inv p → entry_ok (from s, nonce (tx s)) s →
  (is_replacement (from s, nonce (tx s)) p = false →
   sender_slot_count (from s) p < max_slots_per_sender (config p)) →
  (is_replacement (from s, nonce (tx s)) p = false → queued_count p < max_queued (config p)) →
  pool_inv (placed_queued s p).
Proof.
  intros [Hp Hq Hs Hu Ht] He Hr Hf. split; cbn; try done.
  - by apply map_Forall_insert_2.
  - intros a. unfold sender_keys. cbn. rewrite dom_insert_L, (assoc_L (∪)), (comm_L (∪) (dom (pending p))),
      <- (assoc_L (∪)). by apply slots_add.
  - rewrite dom_insert_L. destruct (is_replacement (from s, nonce (tx s)) p) eqn:E.
    + etrans; [|apply Hu]. apply queue_mono.
      assert ((from s, nonce (tx s)) ∈ dom (pending p) ∪ dom (queued p)).
      { unfold is_replacement in E. rewrite elem_of_union, !elem_of_dom.
        apply orb_true_iff in E as [E|E]; apply bool_decide_eq_true in E; eauto. }
      set_solver.
    + specialize (Hf eq_refl). unfold queued_count in Hf. rewrite <- (size_dom (D:=gset key)) in Hf.
      trans (Z.of_nat (size ({[(from s, nonce (tx s))]} ∪ dom (queued p) : gset key)));
        [apply queue_mono; set_solver|]. rewrite size_union_alt, size_singleton.
      assert (size (dom (queued p) ∖ {[(from s, nonce (tx s))]} : gset key) ≤ size (dom (queued p) : gset key))%nat
        by (apply subseteq_size; set_solver). lia.
Qed.

Lemma confirm_one_inv s p : pool_inv p → pool_inv (confirm_one p s).
Proof.
  intros [Hp Hq Hs Hu Ht]. split; cbn.
  - by apply map_Forall_delete.
  - by apply map_Forall_delete.
  - intros a. etrans; [|apply (Hs a)]. apply slots_mono. cbn [pending queued confirm_one].
    rewrite !dom_delete_L. set_solver.
  - etrans; [|apply Hu]. apply queue_mono. rewrite !dom_delete_L. set_solver.
  - by apply set_on_chain_ok.
Qed.

Lemma remove_confirmed_inv txs p : pool_inv p → pool_inv (remove_confirmed txs p).
Proof.
  intros Hp. unfold remove_confirmed. apply (fold_left_inv pool_inv).
  - intros q a Hq. by apply promote_queued_inv.
  - apply (fold_left_inv pool_inv); [|done]. intros q t Hq. by apply confirm_one_inv.
Qed.

(** What the types of a submitted transaction guarantee. *)
Definition well_typed (s : SignedTransaction) : Prop := wf_cost s ∧ is_u64 (nonce (tx s)).

Lemma admitted_entry s bal oc p :
  well_typed s → 0 ≤ oc → oc + max_nonce_gap (config p) < U64_MAX →
  check_static s bal p = Ok tt → check_pool s bal oc (tracked s oc p) = Ok tt →
  entry_ok (from s, nonce (tx s)) s.
Proof.
  intros [Hc Hn] Ho Hg Hs Hp. apply check_static_ok in Hs as (_ & Ha & _).
  apply check_pool_ok in Hp as (Hlo & Hgap & _). cbn in Hgap. unfold saturating_sub, is_u64 in *.
  split; [done..|]. lia.
Qed.

Lemma add_transaction_inv s bal oc p :
  well_typed s → 0 ≤ oc → oc + max_nonce_gap (config p) < U64_MAX →
  pool_inv p → pool_inv (add_transaction s bal oc p).2.
Proof.
  intros Hw Ho Hg Hp. pose proof (add_cases s bal oc p) as Hc.
  destruct (add_transaction s bal oc p) as [r p']. cbn [snd].
  pose proof (tracked_inv s oc p Hp) as Ht. destruct Hc as [e|e|Es Ep Ee Ef|Es Ep Ee Ef]; [done..| |].
  - pose proof (check_pool_ok _ _ _ _ Ep) as (_ & _ & Hsl & _).
    apply promote_queued_inv, placed_pending_inv; [done| |done]. by eapply admitted_entry.
  - pose proof (check_pool_ok _ _ _ _ Ep) as (_ & _ & Hsl & _).
    apply placed_queued_inv; [done| |done|done]. by eapply admitted_entry.
Qed.

(** ** Runs of the pool *)

Inductive pool_step : TransactionPool → TransactionPool → Prop :=
| step_add s bal oc p :
    well_typed s → 0 ≤ oc → oc + max_nonce_gap (config p) < U64_MAX →
    pool_step p (add_transaction s bal oc p).2
| step_base_fee h p : pool_step p (update_base_fee h p)
| step_confirm txs p : pool_step p (remove_confirmed txs p).

Lemma pool_new_inv c : 0 ≤ max_slots_per_sender c → 0 ≤ max_queued c → pool_inv (pool_new c).
Proof.
  intros Hs Hq. split; cbn.
  - apply map_Forall_empty.
  - apply map_Forall_empty.
  - intros a. unfold sender_keys. cbn. rewrite !dom_empty_L.
    rewrite (proj2 (size_empty_iff _)) by set_solver. done.
  - rewrite !dom_empty_L, (proj2 (size_empty_iff _)) by set_solver. done.
  - apply map_Forall_empty.
Qed.

Lemma pool_step_inv p p' : pool_step p p' → pool_inv p → pool_inv p'.
Proof.
  destruct 1 as [s bal oc p Hw Ho Hg|h p|txs p]; intros Hp.
  - by apply add_transaction_inv.
  - by destruct Hp; split.
  - by apply remove_confirmed_inv.
Qed.

Lemma reachable_inv c p :
  0 ≤ max_slots_per_sender c → 0 ≤ max_queued c → rtc pool_step (pool_new c) p → pool_inv p.
Proof.
  intros Hs Hq. intros Hr. pose proof (pool_new_inv c Hs Hq) as H0'. revert H0'.
  induction Hr as [|x y z Hxy _ IH]; [done|]. intros Hx. by eapply IH, pool_step_inv.
Qed.

(** ** Reservations *)

Lemma pool_inv_costs p : pool_inv p → pool_costs_ok p.
Proof.
  intros [Hp Hq _ _ _]. split; intros k v Hk; [apply (eo_cost k), (Hp k v Hk) | apply (eo_cost k), (Hq k v Hk)].
Qed.

Lemma entry_cost_slot addr k t tip : entry_cost slot_tx addr (k, mkSlot t tip) = entry_cost id addr (k, t).
Proof. done. Qed.

Lemma cost_insert_le (addr : address) (m : gmap key PendingSlot) (k : key) (v : PendingSlot) :
  map_Forall (fun _ v => wf_cost (slot_tx v)) m →
  cost_sum slot_tx addr (<[k := v]> m) ≤ entry_cost slot_tx addr (k, v) + cost_sum slot_tx addr m.
Proof.
  intros Hm. destruct (m !! k) as [w|] eqn:E.
  - rewrite (cost_sum_replace _ _ _ _ w) by done.
    pose proof (entry_cost_nonneg slot_tx addr (k, w) (Hm _ _ E)). lia.
  - rewrite cost_sum_insert by done. lia.
Qed.

Lemma promote_cost addr a p :
  pool_inv p → pool_cost addr (promote_queued a p) ≤ pool_cost addr p ∧ pool_inv (promote_queued a p).
Proof.
  intros Hp. apply (promote_ind (fun q => pool_cost addr q ≤ pool_cost addr p ∧ pool_inv q)); [done|].
  intros q t [Hc Hq] E. split; [|by apply promote_one_inv]. etrans; [|apply Hc].
  pose proof (pool_inv_costs q Hq) as [Hw _]. unfold pool_cost. cbn [promote_one pending queued].
  pose proof (cost_insert_le addr (pending q) (a, next_nonce a (nonce_tracker q)) (mkSlot t (tip_of t (base_fee q))) Hw).
  rewrite (cost_sum_delete id addr (queued q) _ _ E). rewrite entry_cost_slot in *. lia.
Qed.

(** ** The admitted transaction stays in the pool *)

Lemma record_pending_ge addr n t :
  ∃ m, pending_max (record_pending addr n t) !! addr = Some m ∧ n ≤ m ∧
       ∀ m0, pending_max t !! addr = Some m0 → m0 ≤ m.
Proof.
  unfold record_pending. cbn. rewrite lookup_insert_eq. eexists. split; [done|].
  destruct (pending_max t !! addr) as [m0|]; cbn; case_if; split; try lia; naive_solver lia.
Qed.

Lemma promote_keeps a n slot p :
  pool_inv p → (∃ m, pending_max (nonce_tracker p) !! a = Some m ∧ n ≤ m) →
  pending p !! (a, n) = Some slot → pending (promote_queued a p) !! (a, n) = Some slot.
Proof.
  intros Hp Hm Hs.
  apply (promote_ind (fun q => pool_inv q ∧ (∃ m, pending_max (nonce_tracker q) !! a = Some m ∧ n ≤ m) ∧
    pending q !! (a, n) = Some slot)); [done|].
  intros q t (Hq & (m & Hqm & Hn) & Hqs) E. split_and!; [by apply promote_one_inv| |].
  - destruct (record_pending_ge a (next_nonce a (nonce_tracker q)) (nonce_tracker q)) as (m' & E' & _ & Hge).
    exists m'. split; [done|]. specialize (Hge m Hqm). lia.
  - cbn [promote_one pending]. rewrite lookup_insert_ne; [done|].
    unfold next_nonce. rewrite Hqm. pose proof (pi_tracker q Hq a m Hqm) as Hb. cbn beta in Hb.
    unfold wrap64, U64_MAX in *. rewrite Z.mod_small by lia. intros [=]. lia.
Qed.

Lemma promote_known a p : known (promote_queued a p) = known p.
Proof. by apply (promote_ind (fun q => known q = known p)). Qed.

(** ** Promotion leaves nothing ready behind *)

Lemma keys_of_delete {A} (addr : address) (m : gmap key A) (n : Z) (v : A) :
  m !! (addr, n) = Some v → keys_of addr m = 1 + keys_of addr (delete (addr, n) m).
Proof.
  intros E. unfold keys_of. rewrite map_filter_delete.
  assert (E' : filter (fun kv => kv.1.1 = addr) m !! (addr, n) = Some v)
    by (by apply map_lookup_filter_Some).
  rewrite map_size_delete, E'.
  assert (size (filter (fun kv => kv.1.1 = addr) m) ≠ 0%nat).
  { intros Hz. apply map_size_empty_inv in Hz. rewrite Hz in E'. by rewrite lookup_empty in E'. }
  cbn. lia.
Qed.

Lemma promote_loop_complete n addr p :
  keys_of addr (queued p) ≤ Z.of_nat n →
  let p' := promote_loop n addr p in queued p' !! (addr, next_nonce addr (nonce_tracker p')) = None.
Proof.
  revert p. induction n as [|n IH]; intros p Hn.
  - cbn zeta. cbn [promote_loop]. destruct (queued p !! _) as [t|] eqn:E; [|done].
    rewrite (keys_of_delete _ _ _ _ E) in Hn. unfold keys_of in Hn. lia.
  - rewrite promote_loop_S. destruct (queued p !! _) as [t|] eqn:E; [|done].
    apply IH. cbn [promote_one queued]. rewrite (keys_of_delete _ _ _ _ E) in Hn. lia.
Qed.

Lemma queued_keys_le addr p : keys_of addr (queued p) ≤ Z.of_nat (size (sender_keys addr p)).
Proof.
  rewrite keys_of_size. apply inj_le, subseteq_size. unfold sender_keys.
  rewrite filter_union_keys. apply union_subseteq_r.
Qed.

End Invariant.

(** ** Theorems *)

Section Theorems.
Context `{RlpCrate} `{Keccak} `{K256}.

(** C22: The pool's invariant. Through any sequence of submissions, base-fee
    updates and block confirmations, every pooled transaction sits under its
    own sender and nonce and passed the hash, signature, gas-limit and
    intrinsic-gas checks. The code's slot count of a sender exceeds
    [max_slots_per_sender], and its queue count [max_queued], by at most the
    number of keys that are pending and queued at once, which a replacement of
    a pending transaction out of turn creates ([caps_exceeded] shows that this
    happens); without such keys the limits hold as configured. *)
Theorem pool_invariant (c : MempoolConfig) (p : TransactionPool) :
  0 ≤ max_slots_per_sender c → 0 ≤ max_queued c → rtc pool_step (pool_new c) p →
  (∀ k slot, pending p !! k = Some slot →
     k = (from (slot_tx slot), nonce (tx (slot_tx slot))) ∧ admissible (slot_tx slot)) ∧
  (∀ k s, queued p !! k = Some s → k = (from s, nonce (tx s)) ∧ admissible s) ∧
  (∀ a, sender_slot_count a p ≤
     max_slots_per_sender (config p) + Z.of_nat (size (filter (fun k => k.1 = a) (doubled p)))) ∧
  queued_count p ≤ max_queued (config p) + Z.of_nat (size (doubled p)).
Proof.
  intros Hs Hq Hr. destruct (reachable_inv c p Hs Hq Hr) as [Hp Hq' Hsl Hu _]. split_and!.
  - intros k slot Hk. destruct (Hp k slot Hk). done.
  - intros k s Hk. destruct (Hq' k s Hk). done.
  - intros a. rewrite slot_count_keys. specialize (Hsl a). lia.
  - rewrite queued_count_keys. lia.
Qed.

(** C23: What admission means. When a pool that satisfies the invariant
    accepts a transaction, the transaction was not known, its cached hash and
    its signer are genuine, its gas limit covers the intrinsic gas and fits a
    block, its tip reaches the minimum, its worst-case cost is covered by the
    sender's balance, its nonce is neither used nor too far ahead, and it is
    in the pool under its key, its hash recorded. *)
Theorem admission_sound (s : SignedTransaction) (bal oc : Z) (p : TransactionPool) h p' :
  pool_inv p → well_typed s → 0 ≤ oc → oc + max_nonce_gap (config p) < U64_MAX →
  add_transaction s bal oc p = (Ok h, p') →
  h = tx_hash s ∧ known p !! h = None ∧ admissible s ∧
  min_gas_tip (config p) ≤ tip_of s (base_fee p) ∧ total_cost s ≤ bal ∧
  oc ≤ nonce (tx s) ≤ oc + max_nonce_gap (config p) ∧
  (pending p' !! (from s, nonce (tx s)) = Some (mkSlot s (tip_of s (base_fee p))) ∨
   queued p' !! (from s, nonce (tx s)) = Some s) ∧
  known p' !! h = Some (from s, nonce (tx s)).
Proof.
  intros Hp Hw Ho Hg E. pose proof (add_cases s bal oc p) as Hc. rewrite E in Hc.
  pose proof (tracked_inv s oc p Hp) as Ht. inversion Hc as [| |Es Ep Ee Ef|Es Ep Ee Ef]; subst.
  all: pose proof (admitted_entry s bal oc p Hw Ho Hg Es Ep) as He.
  all: apply check_static_ok in Es as (Hk & Ha & Htip & Hb).
  all: pose proof (check_pool_ok _ _ _ _ Ep) as (Hlo & Hgap & Hsl & _); cbn in Hgap.
  all: unfold saturating_sub in Hgap; split_and!; try done; try lia.
  - left. apply promote_keeps.
    + by apply placed_pending_inv.
    + cbn. destruct (record_pending_ge (from s) (nonce (tx s)) (set_on_chain (from s) oc (nonce_tracker p)))
        as (m & Em & Hm & _). by exists m.
    + cbn. by rewrite lookup_insert_eq.
  - rewrite promote_known. cbn. unfold update_known. by rewrite lookup_insert_eq.
  - right. cbn. by rewrite lookup_insert_eq.
  - cbn. unfold update_known. by rewrite lookup_insert_eq.
Qed.

(** A rejected transaction leaves the pool as it was, up to the tracker's
    record of the sender's on-chain nonce, whatever check fails; the capacity
    errors, which are raised after the hash has been recorded, take the record
    back. Admission never panics. *)
Theorem rejection_keeps_pool (s : SignedTransaction) (bal oc : Z) (p : TransactionPool) :
  match add_transaction s bal oc p with
  | (Ok _, _) => True
  | (Err _, p') => p' = p ∨ p' = with_tracker (set_on_chain (from s) oc (nonce_tracker p)) p
  | (Panic, _) => False
  end.
Proof.
  pose proof (add_cases s bal oc p) as Hc. destruct (add_transaction s bal oc p) as [r p'].
  destruct Hc; auto.
Qed.

(** A submission takes the place it claims: a new key, a pending key that is
    next in line, or a queued key that is not. *)
Definition in_place (s : SignedTransaction) (oc : Z) (p : TransactionPool) : Prop :=
  let k := (from s, nonce (tx s)) in
  let expected := next_nonce (from s) (set_on_chain (from s) oc (nonce_tracker p)) in
  match pending p !! k, queued p !! k with
  | None, None => True
  | Some _, _ => nonce (tx s) = expected
  | None, Some _ => nonce (tx s) ≠ expected
  end.

Lemma reservation_bound s bal oc p p' h :
  pool_inv p → well_typed s → bal < U128_MAX → pool_cost (from s) p ≤ U128_MAX →
  in_place s oc p → 0 ≤ oc → oc + max_nonce_gap (config p) < U64_MAX →
  add_transaction s bal oc p = (Ok h, p') →
  pool_cost (from s) p' ≤ bal.
Proof.
  intros Hp Hw Hb Hm Hi Ho Hg E. pose proof (add_cases s bal oc p) as Hc. rewrite E in Hc.
  pose proof (tracked_inv s oc p Hp) as Ht. pose proof (pool_inv_costs p Hp) as Hco.
  pose proof (costs_agree s (proj1 Hw)) as [_ Hcost]. pose proof (cost_of_bound s (proj1 Hw)).
  assert (Hself : ∀ k, k.1 = from s → entry_cost id (from s) (k, s) = cost_of s)
    by (intros k Hk; unfold entry_cost; cbn [fst]; by rewrite bool_decide_eq_true_2).
  assert (Hold : ∀ A (get : A → SignedTransaction) (k : key) v, k.1 = from s → wf_cost (get v) →
    entry_cost get (from s) (k, v) = slot_cost (get v))
    by (intros A get k v Hk Hv; unfold entry_cost; cbn [fst]; rewrite bool_decide_eq_true_2 by done;
        symmetry; by apply costs_agree).
  destruct Hco as [Hcp Hcq].
  inversion Hc as [| |Es Ep Ee Ef|Es Ep Ee Ef]; subst; clear Hc;
    pose proof (check_pool_ok _ _ _ _ Ep) as (_ & _ & Hsl & Hres & _);
    pose proof (admitted_entry s bal oc p Hw Ho Hg Es Ep) as He;
    unfold other_reserved in Hres; cbn [fst] in Hres;
    change (sender_cumulative_cost (from s) (tracked s oc p)) with (sender_cumulative_cost (from s) p) in Hres;
    rewrite cumulative_eq in Hres by done; cbn [tracked with_tracker pending queued] in Hres;
    unfold in_place in Hi; cbn in Ee, Hi; unfold saturating_add128, saturating_sub in Hres; rewrite Hcost in Hres.
  - etrans; [apply promote_cost; by apply placed_pending_inv|]. unfold pool_cost in *. cbn.
    destruct (pending p !! (from s, nonce (tx s))) as [old|] eqn:E1.
    + rewrite (cost_sum_replace _ _ _ _ old) by done. rewrite entry_cost_slot, Hself by done.
      rewrite (Hold _ slot_tx) by (done || by apply (Hcp _ _ E1)). lia.
    + destruct (queued p !! (from s, nonce (tx s))) as [old|] eqn:E2; [done|].
      rewrite cost_sum_insert, entry_cost_slot, Hself by done. lia.
  - unfold pool_cost in *. cbn.
    destruct (pending p !! (from s, nonce (tx s))) as [old|] eqn:E1; [done|].
    destruct (queued p !! (from s, nonce (tx s))) as [old|] eqn:E2.
    + rewrite (cost_sum_replace _ _ _ _ old) by done. rewrite Hself by done.
      rewrite (Hold _ id) by (done || by apply (Hcq _ _ E2)). cbn [id] in *. lia.
    + rewrite cost_sum_insert, Hself by done. lia.
Qed.

(** Cumulative reservation. When a pool accepts a transaction for a key
    that is new, pending and next in line, or queued and not next in line, the
    worst-case costs of all the sender's pooled transactions together stay
    within the balance given with the submission. *)
Theorem reservation_respected (s : SignedTransaction) (bal oc : Z) (p : TransactionPool) h p' :
  pool_inv p → well_typed s → 0 ≤ bal ≤ U128_MAX → sender_cumulative_cost (from s) p < U128_MAX →
  in_place s oc p → 0 ≤ oc → oc + max_nonce_gap (config p) < U64_MAX →
  add_transaction s bal oc p = (Ok h, p') →
  sender_cumulative_cost (from s) p' ≤ bal.
Proof.
  intros Hp Hw Hb Hc Hi Ho Hg E.
  assert (Hp' : pool_inv p').
  { pose proof (add_transaction_inv s bal oc p Hw Ho Hg Hp) as T. by rewrite E in T. }
  rewrite cumulative_eq by by apply pool_inv_costs. rewrite cumulative_eq in Hc by by apply pool_inv_costs.
  destruct (decide (bal < U128_MAX)) as [Hlt|]; [|lia].
  pose proof (reservation_bound s bal oc p p' h Hp Hw Hlt ltac:(lia) Hi Ho Hg E). lia.
Qed.

(** Promotion. With at most 256 slots per sender (the default is 64),
    [promote_queued] never stops at its iteration cap: afterwards no queued
    transaction carries the sender's next nonce, and the set of nonces the
    sender occupies has not changed. *)
Theorem promotion_complete (a : address) (p : TransactionPool) :
  pool_inv p → max_slots_per_sender (config p) ≤ 256 →
  let p' := promote_queued a p in
  queued p' !! (a, next_nonce a (nonce_tracker p')) = None ∧
  ∀ b, sender_keys b p' = sender_keys b p.
Proof.
  intros Hp Hs. cbn zeta. split.
  - apply (promote_loop_complete 256 a p). pose proof (queued_keys_le a p).
    pose proof (pi_slots p Hp a). lia.
  - intros b. apply (promote_ind (fun q => sender_keys b q = sender_keys b p)); [done|].
    intros q t <- E. unfold sender_keys. f_equal. cbn [promote_one pending queued].
    apply elem_of_dom_2 in E. apply leibniz_equiv. intros k.
    rewrite !elem_of_union, dom_insert_L, dom_delete_L.
    destruct (decide (k = (a, next_nonce a (nonce_tracker q)))); set_solver.
Qed.

(** The off-by-one of the nonce tracker. When a sender's highest pending
    nonce equals its on-chain nonce, an accepted transaction with the very next
    nonce is not pending but queued, although its predecessor is pending: the
    tracker drops a pending nonce as confirmed one too early. *)
Theorem successor_is_queued (s : SignedTransaction) (bal oc : Z) (p : TransactionPool) h p' :
  pending_max (nonce_tracker p) !! from s = Some oc → nonce (tx s) = oc + 1 →
  add_transaction s bal oc p = (Ok h, p') →
  queued p' !! (from s, oc + 1) = Some s ∧ pending p' = pending p.
Proof.
  intros Hm Hn E. pose proof (add_cases s bal oc p) as Hc. rewrite E in Hc.
  assert (Hx : next_nonce (from s) (set_on_chain (from s) oc (nonce_tracker p)) = oc).
  { unfold next_nonce, set_on_chain. cbn. rewrite Hm, Z.leb_refl, lookup_delete_eq, lookup_insert_eq. done. }
  inversion Hc as [| |Es Ep Ee Ef|Es Ep Ee Ef]; subst.
  - cbn in Ee. lia.
  - cbn. by rewrite <- Hn, lookup_insert_eq.
Qed.

(** A replacement that does not replace. When a transaction replaces a
    pending one whose nonce is not the next expected, it is stored in the
    queue; the pending slot keeps the old transaction, which block building
    will select, and the old hash, unless it is the new one, is forgotten. *)
Theorem replacement_keeps_old (s : SignedTransaction) (bal oc : Z) (p : TransactionPool) h p' slot :
  pending p !! (from s, nonce (tx s)) = Some slot →
  nonce (tx s) ≠ next_nonce (from s) (set_on_chain (from s) oc (nonce_tracker p)) →
  add_transaction s bal oc p = (Ok h, p') →
  pending p' !! (from s, nonce (tx s)) = Some slot ∧
  queued p' !! (from s, nonce (tx s)) = Some s ∧
  (tx_hash (slot_tx slot) ≠ tx_hash s → known p' !! tx_hash (slot_tx slot) = None).
Proof.
  intros Hs Hn E. pose proof (add_cases s bal oc p) as Hc. rewrite E in Hc.
  inversion Hc as [| |Es Ep Ee Ef|Es Ep Ee Ef]; subst; [done|]. cbn. split_and!; [done| |].
  - by rewrite lookup_insert_eq.
  - intros Hne. unfold update_known. cbn. rewrite Hs, lookup_insert_ne by done.
    destruct (queued p !! _) as [old|].
    + destruct (decide (tx_hash old = tx_hash (slot_tx slot))) as [->|]; [by rewrite lookup_delete_eq|].
      rewrite lookup_delete_ne by done. by rewrite lookup_delete_eq.
    + by rewrite lookup_delete_eq.
Qed.

(** ** Block building *)

Definition gas_of (slots : list PendingSlot) : Z :=
  foldr (fun slot acc => gas_limit (tx (slot_tx slot)) + acc) 0 slots.

Lemma gas_of_nonneg slots : Forall (fun sl => 0 ≤ gas_limit (tx (slot_tx sl))) slots → 0 ≤ gas_of slots.
Proof. unfold gas_of. induction 1; cbn [foldr]; lia. Qed.

Lemma select_loop_spec slots total gl :
  Forall (fun sl => 0 ≤ gas_limit (tx (slot_tx sl)) ≤ BLOCK_GAS_LIMIT) slots →
  0 ≤ total ≤ gl → gl + BLOCK_GAS_LIMIT < 2 ^ 64 →
  ∃ sel, select_loop slots total gl = map slot_tx sel ∧ sel `sublist_of` slots ∧
    total + gas_of sel ≤ gl ∧
    ∀ sl, sl ∈ slots → sl ∈ sel ∨ gl < total + gas_of sel + gas_limit (tx (slot_tx sl)).
Proof.
  intros Hg. revert total. induction Hg as [|sl slots Hsl Hg IH]; intros total Ht Hgl.
  - exists []. cbn. split_and!; try done; [lia|]. intros sl Hin. by apply elem_of_nil in Hin.
  - cbn [select_loop]. unfold wrap64. rewrite Z.mod_small by lia. case_if.
    + destruct (IH total Ht Hgl) as (sel & -> & Hsub & Hle & Hmax). exists sel. split_and!; try done.
      * by apply sublist_cons.
      * intros x [->|Hx]%elem_of_cons; [|by apply Hmax]. right.
        assert (0 ≤ gas_of sel) by (apply gas_of_nonneg, Forall_forall; intros y Hy;
          rewrite Forall_forall in Hg; apply (Hg y); by eapply elem_of_sublist). lia.
    + destruct (IH (total + gas_limit (tx (slot_tx sl))) ltac:(lia) Hgl) as (sel & -> & Hsub & Hle & Hmax).
      exists (sl :: sel). unfold gas_of in *. cbn [map foldr]. split_and!; [done| |lia|].
      * by apply sublist_skip.
      * intros x [->|Hx]%elem_of_cons; [left; apply elem_of_cons; by left|].
        destruct (Hmax x Hx); [left; apply elem_of_cons; by right | right; lia].
Qed.

(** Block building. Whatever order the hash map yields the pending slots
    in, [select_transactions] returns pending transactions by descending tip
    whose gas limits sum to at most the block's, and leaves out only
    transactions that no longer fit beside the selected ones. *)
Theorem selection_sound (p : TransactionPool) (slots : list PendingSlot) (gl : Z) :
  pool_inv p → slots ≡ₚ (map_to_list (pending p)).*2 → 0 ≤ gl → gl + BLOCK_GAS_LIMIT < 2 ^ 64 →
  ∃ sel, select_transactions slots gl = map slot_tx sel ∧
    (∀ sl, sl ∈ sel → ∃ k, pending p !! k = Some sl) ∧
    Sorted by_tip sel ∧ gas_of sel ≤ gl ∧
    ∀ k sl, pending p !! k = Some sl →
      sl ∈ sel ∨ gl < gas_of sel + gas_limit (tx (slot_tx sl)).
Proof.
  intros Hp Hperm Hgl0 Hgl.
  assert (Hin : ∀ sl, sl ∈ merge_sort by_tip slots ↔ ∃ k, pending p !! k = Some sl).
  { intros sl. rewrite (merge_sort_Permutation by_tip slots), Hperm, list_elem_of_fmap.
    setoid_rewrite elem_of_map_to_list'. split.
    - intros ([k v] & -> & E). eauto. - intros [k E]. by exists (k, sl). }
  destruct (select_loop_spec (merge_sort by_tip slots) 0 gl) as (sel & E & Hsub & Hle & Hmax).
  { apply Forall_forall. intros sl [k Hk]%Hin. destruct (pi_pending p Hp k sl Hk) as [_ Ha Hc _].
    split; [apply Hc | apply (adm_block _ Ha)]. }
  { lia. } { done. }
  exists sel. split_and!.
  - done.
  - intros sl Hsl. apply Hin. by eapply elem_of_sublist.
  - apply StronglySorted_Sorted.
    assert (Hs : StronglySorted by_tip (merge_sort by_tip slots)).
    { apply Sorted_StronglySorted; [intros a b c; unfold by_tip; lia|].
      apply Sorted_merge_sort. intros a b. unfold by_tip. lia. }
    clear -Hsub Hs. induction Hsub as [|x l1 l2 Hsub IH|x l1 l2 Hsub IH]; [constructor| |].
    + apply StronglySorted_inv in Hs as [Hs Hf]. constructor; [by apply IH|].
      apply Forall_forall. intros y Hy. rewrite Forall_forall in Hf. apply Hf. by eapply elem_of_sublist.
    + apply IH. by apply StronglySorted_inv in Hs as [? _].
  - lia.
  - intros k sl Hk. destruct (Hmax sl) as [?|?]; [apply Hin; eauto|by left|right; lia].
Qed.

End Theorems.

(** ** Concrete runs *)

Module Samples.
Import ZbxRlp.

#[local] Instance keccak_sample : Keccak := fun b => to_be 32 (be_val b mod (2 ^ 256 - 189)).
(** A recovery whose public key is the signature. *)
#[local] Instance k256_sample : K256 :=
  Build_K256 (fun _ => true) (fun _ => false) (fun _ => true) (fun _ rs _ => Some (4 :: rs)).

Definition sg : Signature := mkSig 0 (replicate 32 1) (replicate 32 7).
Definition alice : address := pubkey_to_address (4 :: sig_r sg ++ sig_s sg).
Definition unsigned_tx (n prio : Z) : Transaction :=
  mkTx DynamicFee n prio 3000000000 21000 (Some (replicate 20 9)) 5 [] [] 8989.
Definition signed (n prio : Z) : SignedTransaction :=
  let t := unsigned_tx n prio in
  mkSigned t sg alice (compute_hash (mkSigned t sg alice [])).

Definition rich : Z := 10 ^ 21.
Definition t0 := signed 0 2000000.
Definition t1 := signed 1 2000000.
Definition t0' := signed 0 4000000.
Definition p0 := pool_new config_default.
Definition p1 := (add_transaction t0 rich 0 p0).2.
Definition p2 := (add_transaction t1 rich 0 p1).2.

Lemma well_typed_sample n prio : is_u64 n → well_typed (signed n prio).
Proof. intros Hn. split; [|done]. split_and!; unfold is_u64; cbn; lia. Qed.

Ltac small := (unfold rich, is_u64, U64_MAX, U128_MAX; cbn; lia).

Lemma p1_step : pool_step p0 p1.
Proof. apply step_add; [apply well_typed_sample; small | lia | small]. Qed.

Lemma p0_inv : pool_inv p0.
Proof. apply pool_new_inv; cbn; lia. Qed.
Lemma p1_inv : pool_inv p1.
Proof. eapply pool_step_inv; [apply p1_step | apply p0_inv]. Qed.

Lemma pool_invariant_witness :
  Z.of_nat (size (pending p1)) = 1 ∧ doubled p1 = ∅ ∧ sender_slot_count alice p1 ≤ max_slots_per_sender (config p1).
Proof.
  split; [vm_compute; reflexivity|]. assert (Hd : doubled p1 = ∅) by (vm_compute; reflexivity). split; [exact Hd|].
  pose proof (pool_invariant config_default p1 ltac:(cbn; lia) ltac:(cbn; lia) (rtc_once _ _ p1_step)) as (_ & _ & Hs & _).
  specialize (Hs alice). rewrite Hd in Hs.
  rewrite (leibniz_equiv _ _ (filter_empty (C := gset key) _)), size_empty, Z.add_0_r in Hs. exact Hs.
Defined.

Lemma admission_sound_witness :
  pending p1 !! (alice, 0) = Some (mkSlot t0 (tip_of t0 (base_fee p0))) ∨ queued p1 !! (alice, 0) = Some t0.
Proof.
  assert (E : (add_transaction t0 rich 0 p0).1 = Ok (tx_hash t0)) by (vm_compute; reflexivity).
  apply (admission_sound t0 rich 0 p0 (tx_hash t0) p1 p0_inv); [|lia|small|].
  - apply well_typed_sample; small.
  - unfold p1. rewrite <- E. by destruct (add_transaction t0 rich 0 p0).
Defined.

Lemma reservation_respected_witness : sender_cumulative_cost alice p1 ≤ rich.
Proof.
  assert (E : (add_transaction t0 rich 0 p0).1 = Ok (tx_hash t0)) by (vm_compute; reflexivity).
  apply (reservation_respected t0 rich 0 p0 (tx_hash t0) p1 p0_inv); [|small| | |lia|small|].
  - apply well_typed_sample; small.
  - vm_compute. done.
  - vm_compute. done.
  - unfold p1. rewrite <- E. by destruct (add_transaction t0 rich 0 p0).
Defined.

Lemma promotion_complete_witness :
  queued (promote_queued alice p1) !!
    (alice, next_nonce alice (nonce_tracker (promote_queued alice p1))) = None.
Proof. apply (promotion_complete alice p1 p1_inv). vm_compute. discriminate. Defined.

Lemma successor_is_queued_witness :
  queued p2 !! (alice, 0 + 1) = Some t1 ∧ pending p2 = pending p1.
Proof.
  assert (E : (add_transaction t1 rich 0 p1).1 = Ok (tx_hash t1)) by (vm_compute; reflexivity).
  apply (successor_is_queued t1 rich 0 p1 (tx_hash t1) p2).
  - vm_compute. reflexivity.
  - reflexivity.
  - unfold p2. rewrite <- E. by destruct (add_transaction t1 rich 0 p1).
Defined.

(** With nonces 0 and 1 pending, the replacement of nonce 0 is queued. *)
Definition q1 := (add_transaction t0 rich 0 (add_transaction t1 rich 0 p0).2).2.
Definition q2 := (add_transaction t0' rich 0 q1).2.

Lemma replacement_keeps_old_witness :
  pending q2 !! (alice, 0) = Some (mkSlot t0 2000000) ∧ queued q2 !! (alice, 0) = Some t0' ∧
  (tx_hash t0 ≠ tx_hash t0' → known q2 !! tx_hash t0 = None).
Proof.
  assert (E : (add_transaction t0' rich 0 q1).1 = Ok (tx_hash t0')) by (vm_compute; reflexivity).
  apply (replacement_keeps_old t0' rich 0 q1 (tx_hash t0') q2 (mkSlot t0 2000000)).
  - vm_compute. reflexivity.
  - vm_compute. discriminate.
  - unfold q2. rewrite <- E. by destruct (add_transaction t0' rich 0 q1).
Defined.

Lemma selection_sound_witness :
  ∃ sel, select_transactions ((map_to_list (pending p1)).*2) 100000 = map slot_tx sel ∧
    (∀ sl, sl ∈ sel → ∃ k, pending p1 !! k = Some sl) ∧ Sorted by_tip sel ∧ gas_of sel ≤ 100000 ∧
    ∀ k sl, pending p1 !! k = Some sl → sl ∈ sel ∨ 100000 < gas_of sel + gas_limit (tx (slot_tx sl)).
Proof.
  apply (selection_sound p1 ((map_to_list (pending p1)).*2) 100000 p1_inv); [done|lia|].
  unfold BLOCK_GAS_LIMIT. lia.
Defined.

(** Promotion ignores [max_pending]: a pool with room for one pending
    transaction holds two once the first nonce arrives. *)
Definition tiny : MempoolConfig := mkConfig 1 10 1000000 1000 10 10.
Lemma promotion_ignores_max_pending :
  let p := (add_transaction t0 rich 0 (add_transaction t1 rich 0 (pool_new tiny)).2).2 in
  max_pending (config p) = 1 ∧ pending_count p = 2.
Proof. vm_compute. done. Qed.

(** The limits are not hard caps: with room for two slots per sender and one
    queued transaction, two replacements of pending transactions out of turn
    are accepted into the queue past both limits. *)
Definition capped : MempoolConfig := mkConfig 5000 1 1000000 1000 2 256.
Definition t1' := signed 1 4000000.
Definition replacements : list SignedTransaction := [t1; t0; t0'; t1'].
Theorem caps_exceeded :
  let p := foldl (fun q t => (add_transaction t rich 0 q).2) (pool_new capped) replacements in
  max_slots_per_sender (config p) = 2 ∧ sender_slot_count alice p = 4 ∧
  max_queued (config p) = 1 ∧ queued_count p = 2.
Proof. vm_compute. done. Qed.

End Samples.

End Mempool.
