(* ===== verification/State.v ===== *)
(** * World state: accounts, the state database and the executor's view

    Models [crates/zbx-types/src/account.rs], the overlay [StateDB] of
    [crates/zbx-state/src/state_db.rs], and the executor's [StateView] and
    [StateDiff] of [crates/zbx-execution/src/executor.rs] and [state_diff.rs].
    The write guards take the release-mode branch (log and clamp). A [U256]
    balance is a [Z]. The abstract specification [World] is the finite map of
    visible accounts; both overlays are shown to implement it. *)

From S2P Require Import Prelude.
From S2P Require Import U256.
From S2P Require Import EvmBase.
From S2P Require Import EvmHost.
From S2P Require Import Transaction.

Module State.
#[local] Set Warnings "-clear-no-such-hyp".
Import EvmBase EvmHost.
Import Transaction.Transaction (saturate_u128, u256_bits).

(** ** account.rs *)

Inductive VmKind := Evm | Zvm.

#[export] Instance VmKind_eq_dec : EqDecision VmKind.
Proof. solve_decision. Defined.

Definition EMPTY_CODE_HASH : bytes :=
  [0xc5; 0xd2; 0x46; 0x01; 0x86; 0xf7; 0x23; 0x3c; 0x92; 0x7e; 0x7d; 0xb2; 0xdc; 0xc7; 0x03; 0xc0;
   0xe5; 0x00; 0xb6; 0x53; 0xca; 0x82; 0x27; 0x3b; 0x7b; 0xfa; 0xd8; 0x04; 0x5d; 0x85; 0xa4; 0x70].

Definition EMPTY_STORAGE_ROOT : bytes :=
  [0x56; 0xe8; 0x1f; 0x17; 0x1b; 0xcc; 0x55; 0xa6; 0xff; 0x83; 0x45; 0xe6; 0x92; 0xc0; 0xf8; 0x6e;
   0x5b; 0x48; 0xe0; 0x1b; 0x99; 0x6c; 0xad; 0xc0; 0x01; 0x62; 0x2f; 0xb5; 0xe3; 0x63; 0xb4; 0x21].

Record AccountState := mkAcct {
  acct_nonce : Z;
  acct_balance : Z;
  acct_code_hash : bytes;
  storage_root : bytes;
  vm : VmKind;
}.

#[export] Instance AccountState_eq_dec : EqDecision AccountState.
Proof. solve_decision. Defined.

Definition acct_default : AccountState := mkAcct 0 0 EMPTY_CODE_HASH EMPTY_STORAGE_ROOT Evm.

Definition is_eoa (a : AccountState) : bool := bool_decide (acct_code_hash a = EMPTY_CODE_HASH).
Definition is_contract (a : AccountState) : bool := negb (is_eoa a).
Definition acct_is_empty (a : AccountState) : bool :=
  (acct_nonce a =? 0) && (acct_balance a =? 0) && is_eoa a.

Definition balance_u128 (a : AccountState) : Z := saturate_u128 (acct_balance a).

Definition set_balance_u128 (wei : Z) (a : AccountState) : AccountState :=
  mkAcct (acct_nonce a) wei (acct_code_hash a) (storage_root a) (vm a).

Definition with_nonce (n : Z) (a : AccountState) : AccountState :=
  mkAcct n (acct_balance a) (acct_code_hash a) (storage_root a) (vm a).
Definition with_code_hash (h : bytes) (a : AccountState) : AccountState :=
  mkAcct (acct_nonce a) (acct_balance a) h (storage_root a) (vm a).
Definition with_vm (k : VmKind) (a : AccountState) : AccountState :=
  mkAcct (acct_nonce a) (acct_balance a) (acct_code_hash a) (storage_root a) k.

(** [increment_nonce]: [None] is [ZbxError::Overflow]. *)
Definition increment_nonce (a : AccountState) : option AccountState :=
  match checked_add64 (acct_nonce a) 1 with
  | Some n => Some (with_nonce n a)
  | None => None
  end.

(** ** The write guards shared by the two overlays

    What is stored when [state] is written over [prior]: a lower nonce is
    replaced by the prior one (and then the code is not examined), and a
    contract's code hash may stay or be cleared, not change. *)
Definition guarded (prior state : AccountState) : AccountState :=
  if acct_nonce state <? acct_nonce prior then with_nonce (acct_nonce prior) state
  else if negb (is_contract prior) then state
  else if bool_decide (acct_code_hash state = acct_code_hash prior) then state
  else if bool_decide (acct_code_hash state = EMPTY_CODE_HASH) then state
  else with_code_hash (acct_code_hash prior) state.

(** ** state_db.rs *)

Abbreviation slots := (gmap bytes bytes).

Record StateDB {Log : Type} := mkDB {
  base_accounts : gmap address AccountState;
  dirty_accounts : gmap address AccountState;
  code_cache : gmap bytes bytes;
  storage_cache : gmap address slots;
  dirty_storage : gmap address (gset bytes);
  to_delete : gset address;
  logs : list Log;
  refund : Z;
}.
Arguments StateDB : clear implicits.
Arguments mkDB {Log} _ _ _ _ _ _ _ _.

Record StateSnapshot := mkSnap {
  sn_dirty_accounts : gmap address AccountState;
  sn_dirty_storage : gmap address (gset bytes);
  sn_storage_cache : gmap address slots;
  sn_to_delete : gset address;
  sn_logs_len : nat;
  sn_refund : Z;
}.

Section StateDB.
Context {Log : Type}.
Implicit Types d : StateDB Log.

Definition db_new : StateDB Log := mkDB ∅ ∅ ∅ ∅ ∅ ∅ [] 0.

Definition db_seed_account (a : address) (s : AccountState) d : StateDB Log :=
  mkDB (<[a := s]> (base_accounts d)) (dirty_accounts d) (code_cache d) (storage_cache d)
    (dirty_storage d) (to_delete d) (logs d) (refund d).

Definition db_seed_code (h code : bytes) d : StateDB Log :=
  mkDB (base_accounts d) (dirty_accounts d) (<[h := code]> (code_cache d)) (storage_cache d)
    (dirty_storage d) (to_delete d) (logs d) (refund d).

Definition db_get_account d (a : address) : AccountState :=
  default (default acct_default (base_accounts d !! a)) (dirty_accounts d !! a).

Definition db_set_account (a : address) (state : AccountState) d : StateDB Log :=
  let prior := if bool_decide (a ∈ to_delete d) then acct_default else db_get_account d a in
  mkDB (base_accounts d) (<[a := guarded prior state]> (dirty_accounts d)) (code_cache d)
    (storage_cache d) (dirty_storage d) (to_delete d ∖ {[a]}) (logs d) (refund d).

Definition db_set_account_unchecked (a : address) (state : AccountState) d : StateDB Log :=
  mkDB (base_accounts d) (<[a := state]> (dirty_accounts d)) (code_cache d)
    (storage_cache d) (dirty_storage d) (to_delete d) (logs d) (refund d).

Definition db_get_storage d (a : address) (slot : bytes) : bytes :=
  default (replicate 32 0) (storage_cache d !! a ≫= fun m => m !! slot).

Definition db_set_storage (a : address) (slot value : bytes) d : StateDB Log :=
  mkDB (base_accounts d) (dirty_accounts d) (code_cache d)
    (<[a := <[slot := value]> (default ∅ (storage_cache d !! a))]> (storage_cache d))
    (<[a := {[slot]} ∪ default ∅ (dirty_storage d !! a)]> (dirty_storage d))
    (to_delete d) (logs d) (refund d).

Definition db_get_code d (h : bytes) : bytes := default [] (code_cache d !! h).

Definition db_deploy_code `{Keccak} (code : bytes) d : bytes * StateDB Log :=
  let h := keccak256 code in (h, db_seed_code h code d).

Definition db_add_refund (amount : Z) d : StateDB Log :=
  mkDB (base_accounts d) (dirty_accounts d) (code_cache d) (storage_cache d) (dirty_storage d)
    (to_delete d) (logs d) (saturating_add64 (refund d) amount).

Definition db_selfdestruct (a : address) d : StateDB Log :=
  mkDB (base_accounts d) (delete a (dirty_accounts d)) (code_cache d) (storage_cache d)
    (dirty_storage d) ({[a]} ∪ to_delete d) (logs d) (refund d).

Definition db_emit_log (l : Log) d : StateDB Log :=
  mkDB (base_accounts d) (dirty_accounts d) (code_cache d) (storage_cache d) (dirty_storage d)
    (to_delete d) (logs d ++ [l]) (refund d).

(** The account set the state root is computed over: [(base ∪ dirty) \ to_delete]. *)
Definition db_visible d : gmap address AccountState :=
  filter (fun kv => kv.1 ∉ to_delete d) (dirty_accounts d ∪ base_accounts d).

Definition db_is_dirty d : bool :=
  negb (bool_decide (dirty_accounts d = ∅)) || negb (bool_decide (dirty_storage d = ∅)).

Definition db_snapshot d : StateSnapshot :=
  mkSnap (dirty_accounts d) (dirty_storage d) (storage_cache d) (to_delete d) (length (logs d)) (refund d).

Definition db_revert_to (s : StateSnapshot) d : StateDB Log :=
  mkDB (base_accounts d) (sn_dirty_accounts s) (code_cache d) (sn_storage_cache s)
    (sn_dirty_storage s) (sn_to_delete s) (take (sn_logs_len s) (logs d)) (sn_refund s).

End StateDB.

(** ** state_diff.rs and the [StateView] of executor.rs *)

Record StateDiff {Log : Type} := mkDiff {
  accounts : gmap address AccountState;
  storage : gmap address slots;
  new_code : gmap bytes bytes;
  deleted : list address;
  diff_logs : list Log;
}.
Arguments StateDiff : clear implicits.
Arguments mkDiff {Log} _ _ _ _ _.

Record StateView {Log : Type} := mkView {
  base : gmap address AccountState;
  codes : gmap bytes bytes;
  diffs : StateDiff Log;
  sv_to_delete : gset address;
}.
Arguments StateView : clear implicits.
Arguments mkView {Log} _ _ _ _.

Section StateView.
Context {Log : Type}.
Implicit Types v : StateView Log.
Implicit Types f : StateDiff Log.

Definition diff_new : StateDiff Log := mkDiff ∅ ∅ ∅ [] [].

Definition diff_set_account (a : address) (s : AccountState) f : StateDiff Log :=
  mkDiff (<[a := s]> (accounts f)) (storage f) (new_code f) (deleted f) (diff_logs f).
Definition diff_set_storage (a : address) (slot value : bytes) f : StateDiff Log :=
  mkDiff (accounts f) (<[a := <[slot := value]> (default ∅ (storage f !! a))]> (storage f))
    (new_code f) (deleted f) (diff_logs f).
Definition diff_add_code (h code : bytes) f : StateDiff Log :=
  mkDiff (accounts f) (storage f) (<[h := code]> (new_code f)) (deleted f) (diff_logs f).
Definition diff_delete_account (a : address) f : StateDiff Log :=
  mkDiff (delete a (accounts f)) (storage f) (new_code f) (deleted f ++ [a]) (diff_logs f).
Definition diff_emit_log (l : Log) f : StateDiff Log :=
  mkDiff (accounts f) (storage f) (new_code f) (deleted f) (diff_logs f ++ [l]).

(** [merge]: [extend] on each map, the other diff wins. *)
Definition diff_merge f (o : StateDiff Log) : StateDiff Log :=
  mkDiff (accounts o ∪ accounts f)
    (union_with (fun new old => Some (new ∪ old)) (storage o) (storage f))
    (new_code o ∪ new_code f) (deleted f ++ deleted o) (diff_logs f ++ diff_logs o).

Definition diff_is_empty f : bool :=
  bool_decide (accounts f = ∅) && bool_decide (storage f = ∅) &&
  bool_decide (new_code f = ∅) && bool_decide (deleted f = []).

Definition with_diffs f v : StateView Log := mkView (base v) (codes v) f (sv_to_delete v).

Definition view_new : StateView Log := mkView ∅ ∅ diff_new ∅.

Definition view_selfdestruct (a : address) v : StateView Log :=
  let f := diffs v in
  mkView (base v) (codes v)
    (mkDiff (delete a (accounts f)) (delete a (storage f)) (new_code f) (deleted f ++ [a]) (diff_logs f))
    ({[a]} ∪ sv_to_delete v).

Definition is_deleted v (a : address) : bool := bool_decide (a ∈ sv_to_delete v).

Definition view_seed_account (a : address) (s : AccountState) v : StateView Log :=
  mkView (<[a := s]> (base v)) (codes v) (diffs v) (sv_to_delete v).

Definition view_seed_code (h code : bytes) v : StateView Log :=
  mkView (base v) (<[h := code]> (codes v)) (diffs v) (sv_to_delete v).

Definition get_account v (a : address) : AccountState :=
  if bool_decide (a ∈ sv_to_delete v) then acct_default
  else default (default acct_default (base v !! a)) (accounts (diffs v) !! a).

Definition get_code v (a : address) : bytes :=
  let acct := get_account v a in
  if negb (is_contract acct) then [] else default [] (codes v !! acct_code_hash acct).

Definition set_account (a : address) (state : AccountState) v : StateView Log :=
  if bool_decide (a ∈ sv_to_delete v) then
    let f := diffs v in
    mkView (base v) (codes v)
      (mkDiff (<[a := state]> (accounts f)) (storage f) (new_code f)
         (filter (fun x => x ≠ a) (deleted f)) (diff_logs f))
      (sv_to_delete v ∖ {[a]})
  else
    let prior := default (default acct_default (base v !! a)) (accounts (diffs v) !! a) in
    with_diffs (diff_set_account a (guarded prior state) (diffs v)) v.

Definition get_storage v (a : address) (slot : bytes) : bytes :=
  default (replicate 32 0) (storage (diffs v) !! a ≫= fun m => m !! slot).

Definition set_storage (a : address) (slot value : bytes) v : StateView Log :=
  with_diffs (diff_set_storage a slot value (diffs v)) v.

Definition emit_log (l : Log) v : StateView Log := with_diffs (diff_emit_log l (diffs v)) v.

Definition into_diff v : StateDiff Log := diffs v.

Definition view_visible v : gmap address AccountState :=
  filter (fun kv => kv.1 ∉ sv_to_delete v) (accounts (diffs v) ∪ base v).

End StateView.

(** ** The abstract specification

    The world is the finite map of visible accounts; an absent account reads
    as the default one. What a write stores is written out field by field: the
    larger nonce, the new balance, storage root and machine, and the old code
    hash if the account is a contract, its nonce does not regress and the write
    does not clear the code. Self-destruction removes the account. *)

Abbreviation World := (gmap address AccountState).

Inductive state_op := OpSet (a : address) (s : AccountState) | OpDestruct (a : address).

Definition w_get (w : World) (a : address) : AccountState := default acct_default (w !! a).

Definition w_write (prior s : AccountState) : AccountState :=
  mkAcct (Z.max (acct_nonce prior) (acct_nonce s)) (acct_balance s)
    (if (acct_nonce prior <=? acct_nonce s) && is_contract prior && is_contract s
     then acct_code_hash prior else acct_code_hash s)
    (storage_root s) (vm s).

Definition w_step (w : World) (op : state_op) : World :=
  match op with
  | OpSet a s => <[a := w_write (w_get w a) s]> w
  | OpDestruct a => delete a w
  end.

Definition db_step {Log} (d : StateDB Log) (op : state_op) : StateDB Log :=
  match op with OpSet a s => db_set_account a s d | OpDestruct a => db_selfdestruct a d end.

Definition view_step {Log} (v : StateView Log) (op : state_op) : StateView Log :=
  match op with OpSet a s => set_account a s v | OpDestruct a => view_selfdestruct a v end.

(** The code's chain of guards stores what the specification says. *)
Lemma w_write_guarded prior s : w_write prior s = guarded prior s.
Proof.
  unfold w_write, guarded, with_nonce, with_code_hash. destruct s as [n b h sr k]. cbn.
  destruct (Z.ltb_spec n (acct_nonce prior)), (Z.leb_spec (acct_nonce prior) n); try lia; cbn.
  - rewrite Z.max_l by lia. done.
  - rewrite Z.max_r by lia. destruct (is_contract prior); cbn; [|done].
    unfold is_contract, is_eoa. cbn. repeat case_bool_decide; cbn; congruence.
Qed.

(** ** Reads of the overlays *)

(** Lookup in the map of visible accounts of an overlay. *)
Lemma visible_lookup (dirty under : gmap address AccountState) (dead : gset address) (a : address) :
  filter (fun kv => kv.1 ∉ dead) (dirty ∪ under) !! a =
  if bool_decide (a ∈ dead) then None
  else match dirty !! a with Some s => Some s | None => under !! a end.
Proof.
  case_bool_decide as Hd.
  - apply map_lookup_filter_None. right. cbn. naive_solver.
  - destruct ((dirty ∪ under) !! a) as [s|] eqn:E.
    + rewrite (proj2 (map_lookup_filter_Some _ _ _ _)) by done. rewrite lookup_union in E.
      destruct (dirty !! a); rewrite ?union_Some_l in E; cbn in *; [|by destruct (under !! a)].
      by destruct (under !! a).
    + rewrite (proj2 (map_lookup_filter_None _ _ _)) by by left.
      apply lookup_union_None in E as [-> ->]. done.
Qed.

Lemma view_get_visible {Log} (v : StateView Log) a : get_account v a = w_get (view_visible v) a.
Proof.
  unfold get_account, w_get, view_visible. rewrite visible_lookup. case_bool_decide; [done|].
  by destruct (accounts (diffs v) !! a).
Qed.

(** The prior [db_set_account] compares with is what is visible. *)
Lemma db_prior_visible {Log} (d : StateDB Log) a :
  (if bool_decide (a ∈ to_delete d) then acct_default else db_get_account d a) = w_get (db_visible d) a.
Proof.
  unfold db_get_account, w_get, db_visible. rewrite visible_lookup. case_bool_decide; [done|].
  by destruct (dirty_accounts d !! a).
Qed.

Ltac visible_cases a b :=
  apply map_eq; intros b; destruct (decide (b = a)) as [->|];
  rewrite ?lookup_insert_eq, ?lookup_insert_ne, ?lookup_delete_eq, ?lookup_delete_ne by done;
  rewrite !visible_lookup;
  rewrite ?lookup_insert_eq, ?lookup_insert_ne, ?lookup_delete_eq, ?lookup_delete_ne by done;
  repeat case_bool_decide; try set_solver.

Lemma db_step_refines {Log} (d : StateDB Log) op : db_visible (db_step d op) = w_step (db_visible d) op.
Proof.
  destruct op as [a s|a]; cbn [db_step w_step].
  - rewrite w_write_guarded. unfold db_set_account. rewrite db_prior_visible. generalize (guarded (w_get (db_visible d) a) s).
    intros g. unfold db_visible. cbn. visible_cases a b.
  - unfold db_selfdestruct, db_visible. cbn. visible_cases a b.
Qed.

Lemma guarded_fresh s : 0 ≤ acct_nonce s → guarded acct_default s = s.
Proof.
  intros Hn. unfold guarded. cbn. dec_bool. unfold is_contract, is_eoa. cbn.
  by rewrite bool_decide_eq_true_2.
Qed.

(** Nonces are unsigned. *)
Definition op_ok (op : state_op) : Prop :=
  match op with OpSet _ s => 0 ≤ acct_nonce s | OpDestruct _ => True end.

Lemma view_step_refines {Log} (v : StateView Log) op :
  op_ok op → view_visible (view_step v op) = w_step (view_visible v) op.
Proof.
  destruct op as [a s|a]; cbn [view_step w_step op_ok]; intros Hn.
  - rewrite w_write_guarded, <- view_get_visible. unfold set_account, get_account. case_bool_decide as Hd.
    + rewrite guarded_fresh by done. unfold view_visible. cbn. visible_cases a b.
    + generalize (guarded (default (default acct_default (base v !! a)) (accounts (diffs v) !! a)) s).
      intros g. unfold view_visible. cbn. visible_cases a b.
  - unfold view_selfdestruct, view_visible. cbn. visible_cases a b.
Qed.

Lemma db_run_refines {Log} ops (d : StateDB Log) :
  db_visible (fold_left db_step ops d) = fold_left w_step ops (db_visible d).
Proof.
  revert d. induction ops as [|op ops IH]; intros d; [done|]. cbn [fold_left].
  by rewrite IH, db_step_refines.
Qed.

Lemma view_run_refines {Log} ops (v : StateView Log) :
  Forall op_ok ops → view_visible (fold_left view_step ops v) = fold_left w_step ops (view_visible v).
Proof.
  intros Hok. revert v. induction Hok as [|op ops Hop _ IH]; intros v; [done|]. cbn [fold_left].
  by rewrite IH, view_step_refines.
Qed.

Lemma guarded_nonce prior s : acct_nonce (guarded prior s) = Z.max (acct_nonce prior) (acct_nonce s).
Proof. unfold guarded. repeat case_if; cbn; try lia. Qed.

Lemma guarded_balance prior s : acct_balance (guarded prior s) = acct_balance s.
Proof. unfold guarded. by repeat case_if. Qed.

Lemma guarded_code prior s :
  is_contract prior = true → acct_nonce prior ≤ acct_nonce s → acct_code_hash s ≠ EMPTY_CODE_HASH →
  acct_code_hash (guarded prior s) = acct_code_hash prior.
Proof.
  intros Hc Hn He. unfold guarded. dec_bool. rewrite Hc. cbn [negb].
  case_bool_decide as E; [done|]. by rewrite bool_decide_eq_false_2.
Qed.

Lemma w_get_set w a s b :
  w_get (w_step w (OpSet a s)) b = if decide (b = a) then guarded (w_get w a) s else w_get w b.
Proof.
  unfold w_get at 1, w_step. rewrite w_write_guarded. destruct (decide (b = a)) as [->|]; [by rewrite lookup_insert_eq|].
  by rewrite lookup_insert_ne.
Qed.

Lemma w_nonce_monotone (ops : list state_op) (a : address) (w : World) :
  OpDestruct a ∉ ops → acct_nonce (w_get w a) ≤ acct_nonce (w_get (fold_left w_step ops w) a).
Proof.
  revert w. induction ops as [|op ops IH]; intros w Hd; [done|]. cbn [fold_left].
  apply not_elem_of_cons in Hd as [Hne Hd]. etrans; [|apply IH, Hd].
  destruct op as [b s|b].
  - rewrite w_get_set. destruct (decide (a = b)) as [->|]; [|done]. rewrite guarded_nonce. lia.
  - assert (a ≠ b) by congruence. unfold w_get, w_step. by rewrite lookup_delete_ne.
Qed.

(** ** Every change a block makes to a [StateDB] *)

Inductive db_op (Log : Type) :=
| DSet (a : address) (s : AccountState)
| DSetUnchecked (a : address) (s : AccountState)
| DDestruct (a : address)
| DStorage (a : address) (slot value : bytes)
| DDeploy (code : bytes)
| DRefund (amount : Z)
| DLog (l : Log).
Arguments DSet {Log} _ _.
Arguments DSetUnchecked {Log} _ _.
Arguments DDestruct {Log} _.
Arguments DStorage {Log} _ _ _.
Arguments DDeploy {Log} _.
Arguments DRefund {Log} _.
Arguments DLog {Log} _.

Definition db_apply `{Keccak} {Log} (d : StateDB Log) (op : db_op Log) : StateDB Log :=
  match op with
  | DSet a s => db_set_account a s d
  | DSetUnchecked a s => db_set_account_unchecked a s d
  | DDestruct a => db_selfdestruct a d
  | DStorage a k x => db_set_storage a k x d
  | DDeploy c => (db_deploy_code c d).2
  | DRefund n => db_add_refund n d
  | DLog l => db_emit_log l d
  end.

Lemma db_apply_frame `{Keccak} {Log} ops (d : StateDB Log) :
  base_accounts (fold_left db_apply ops d) = base_accounts d ∧
  ∃ ls, logs (fold_left db_apply ops d) = logs d ++ ls.
Proof.
  apply (fold_left_inv (fun d' => base_accounts d' = base_accounts d ∧ ∃ ls, logs d' = logs d ++ ls)).
  - intros d' op [Hb [ls Hl]]. destruct op; cbn; split; try done; eauto.
    rewrite Hl, <- app_assoc. eauto.
  - split; [done|]. exists []. by rewrite app_nil_r.
Qed.

(** ** Theorems *)





(** The write guards. A write to the executor's view stores the larger of
    the two nonces and the written balance; over a contract, unless the nonce
    regresses or the code is cleared, it keeps the contract's code hash; it
    touches no other account. Along any writes and self-destructs of other
    accounts, an account's nonce never decreases, in both overlays. *)
Theorem write_guards {Log} (v : StateView Log) (d : StateDB Log) a s (ops : list state_op) :
  0 ≤ acct_nonce s → Forall op_ok ops → OpDestruct a ∉ ops →
  let s' := get_account (set_account a s v) a in
  let prior := get_account v a in
  acct_nonce s' = Z.max (acct_nonce prior) (acct_nonce s) ∧ acct_balance s' = acct_balance s ∧
  (is_contract prior = true → acct_nonce prior ≤ acct_nonce s →
   acct_code_hash s ≠ EMPTY_CODE_HASH → acct_code_hash s' = acct_code_hash prior) ∧
  (∀ b, b ≠ a → get_account (set_account a s v) b = get_account v b) ∧
  acct_nonce (get_account v a) ≤ acct_nonce (get_account (fold_left view_step ops v) a) ∧
  acct_nonce (w_get (db_visible d) a) ≤ acct_nonce (w_get (db_visible (fold_left db_step ops d)) a).
Proof.
  intros Hn Hok Hd. cbn zeta.
  assert (E : ∀ b, get_account (set_account a s v) b =
    if decide (b = a) then guarded (get_account v a) s else get_account v b).
  { intros b. rewrite !view_get_visible. change (set_account a s v) with (view_step v (OpSet a s)).
    rewrite view_step_refines by done. apply w_get_set. }
  rewrite E, decide_True by done. split_and!.
  - apply guarded_nonce.
  - apply guarded_balance.
  - apply guarded_code.
  - intros b Hb. by rewrite E, decide_False.
  - rewrite !view_get_visible, view_run_refines by done. by apply w_nonce_monotone.
  - rewrite db_run_refines. by apply w_nonce_monotone.
Qed.

(** Snapshots. Whatever a frame did to the state database, checked and
    unchecked writes, self-destructs, storage, logs and refunds included,
    reverting to a snapshot gives back exactly the database of the snapshot,
    up to the content-addressed code cache. *)
Theorem snapshot_revert_exact `{Keccak} {Log} (ops : list (db_op Log)) (d : StateDB Log) :
  db_revert_to (db_snapshot d) (fold_left db_apply ops d) =
  mkDB (base_accounts d) (dirty_accounts d) (code_cache (fold_left db_apply ops d)) (storage_cache d)
    (dirty_storage d) (to_delete d) (logs d) (refund d).
Proof.
  destruct (db_apply_frame ops d) as [Hb [ls Hl]]. unfold db_revert_to, db_snapshot. cbn.
  by rewrite Hb, Hl, take_app_length.
Qed.

(** Reads after self-destruction differ between the overlays. The
    executor's view reads a destroyed account as empty, its storage as zero;
    the state database still reads the account its base holds and every
    storage slot it held, although neither enters the state root. *)
Theorem destroyed_reads_differ {Log} (d : StateDB Log) (v : StateView Log) (a : address) (k : bytes) :
  get_account (view_selfdestruct a v) a = acct_default ∧
  get_storage (view_selfdestruct a v) a k = replicate 32 0 ∧
  db_visible (db_selfdestruct a d) !! a = None ∧
  db_get_account (db_selfdestruct a d) a = default acct_default (base_accounts d !! a) ∧
  db_get_storage (db_selfdestruct a d) a k = db_get_storage d a k.
Proof.
  split_and!.
  - unfold get_account. cbn. by rewrite bool_decide_eq_true_2 by set_solver.
  - unfold get_storage. cbn. by rewrite lookup_delete_eq.
  - unfold db_visible. rewrite visible_lookup. cbn. by rewrite bool_decide_eq_true_2 by set_solver.
  - unfold db_get_account. cbn. by rewrite lookup_delete_eq.
  - done.
Qed.

(** The nonce guard skips the code guard. A write whose nonce regresses is
    stored with the prior nonce and with whatever code hash it carries, so it
    replaces the code of a live contract. *)
Theorem nonce_clamp_skips_code_guard {Log} (v : StateView Log) (a : address) (s : AccountState) :
  0 ≤ acct_nonce s < acct_nonce (get_account v a) →
  get_account (set_account a s v) a = with_nonce (acct_nonce (get_account v a)) s.
Proof.
  intros Hn. rewrite !view_get_visible. change (set_account a s v) with (view_step v (OpSet a s)).
  rewrite view_step_refines by (cbn; lia). rewrite w_get_set, decide_True, <- view_get_visible by done.
  unfold guarded. by dec_bool.
Qed.

Module Samples.

Definition eve : address := replicate 20 3.
Definition code_a : bytes := replicate 32 0xaa.
Definition code_b : bytes := replicate 32 0xbb.
Definition contract (n : Z) (h : bytes) : AccountState := mkAcct n 10 h EMPTY_STORAGE_ROOT Evm.
Definition v0 : StateView unit := view_seed_account eve (contract 5 code_a) view_new.
Definition d0 : StateDB unit := db_seed_account eve (contract 5 code_a) db_new.


Lemma write_guards_witness :
  acct_code_hash (get_account (set_account eve (contract 9 code_b) v0) eve) = code_a.
Proof.
  apply (write_guards v0 d0 eve (contract 9 code_b) []).
  - cbn. lia.
  - constructor.
  - apply not_elem_of_nil.
  - vm_compute. reflexivity.
  - vm_compute. discriminate.
  - vm_compute. discriminate.
Defined.

Lemma nonce_clamp_skips_code_guard_witness :
  get_account (set_account eve (contract 2 code_b) v0) eve = contract 5 code_b.
Proof. apply (nonce_clamp_skips_code_guard v0 eve (contract 2 code_b)). vm_compute. split; [discriminate|reflexivity]. Defined.

End Samples.

End State.
