(* ===== verification/Supply.v ===== *)
(** * Money in a state view

    The supply of a world is the sum of its balances. The file has what a
    write, a deletion and a credit do to it, for any view whose accounts have
    non-negative balances and 64-bit nonces. *)

From S2P Require Import Prelude.
From S2P Require Import U256.
From S2P Require Import EvmBase.
From S2P Require Import Transaction.
From S2P Require Import State.

Module Supply.
Import U256 EvmBase State.State.
Import Transaction.Transaction (saturate_u128, u256_bits).

Definition supply (w : World) : Z := map_fold (fun _ s acc => acct_balance s + acc) 0 w.

Definition acct_ok (s : AccountState) : Prop := 0 ≤ acct_balance s ∧ is_u64 (acct_nonce s).

Lemma supply_insert w a s : supply (<[a := s]> w) = supply w - acct_balance (w_get w a) + acct_balance s.
Proof.
  unfold supply, w_get. destruct (w !! a) as [x|] eqn:E.
  - rewrite (map_fold_delete_L _ _ a x w) by (done || (intros; lia)). rewrite <- insert_delete_eq.
    rewrite map_fold_insert_L by (apply lookup_delete_eq || (intros; lia)). cbn. lia.
  - rewrite map_fold_insert_L by (done || (intros; lia)). cbn. lia.
Qed.

Lemma supply_nonneg w : map_Forall (fun _ s => 0 ≤ acct_balance s) w → 0 ≤ supply w.
Proof.
  unfold supply. induction w as [|i x m Hi IH] using map_ind; intros Hg; [done|].
  rewrite map_fold_insert_L by (done || (intros; lia)).
  apply map_Forall_insert in Hg as [Hx Hg]; [|done]. specialize (IH Hg). lia.
Qed.

Lemma supply_delete w a : supply (delete a w) = supply w - acct_balance (w_get w a).
Proof.
  unfold supply, w_get. destruct (w !! a) as [x|] eqn:E.
  - rewrite (map_fold_delete_L _ _ a x w) by (done || (intros; lia)). cbn. lia.
  - rewrite delete_id by done. cbn. lia.
Qed.

Lemma supply_covers w a : map_Forall (fun _ s => 0 ≤ acct_balance s) w → 0 ≤ acct_balance (w_get w a) ≤ supply w.
Proof.
  intros Hg. pose proof (supply_nonneg (delete a w) (map_Forall_delete _ _ _ Hg)) as Hd. rewrite supply_delete in Hd.
  split; [|lia]. unfold w_get. destruct (w !! a) as [x|] eqn:E; [by apply (Hg a x)|done].
Qed.

Section View.
Context {Log : Type}.
Implicit Types v : StateView Log.

Definition bal v (a : address) : Z := acct_balance (get_account v a).
Definition non v (a : address) : Z := acct_nonce (get_account v a).
Definition view_supply v : Z := supply (view_visible v).

Definition sound v : Prop := map_Forall (fun _ s => acct_ok s) (view_visible v).

Lemma sound_get v a : sound v → acct_ok (get_account v a).
Proof.
  intros Hs. rewrite view_get_visible. unfold w_get. destruct (view_visible v !! a) as [x|] eqn:E; [by apply (Hs a x)|].
  split; [done|unfold is_u64; cbn; lia].
Qed.

Lemma sound_bal v a : sound v → 0 ≤ bal v a ≤ view_supply v.
Proof.
  intros Hs. unfold bal. rewrite view_get_visible. apply supply_covers. eapply map_Forall_impl; [exact Hs|]. by intros ? ? [].
Qed.

Lemma set_account_visible v a s :
  0 ≤ acct_nonce s → view_visible (set_account a s v) = <[a := guarded (get_account v a) s]> (view_visible v).
Proof. intros Hn. rewrite view_get_visible, <- w_write_guarded. by apply (view_step_refines v (OpSet a s)). Qed.

Lemma set_account_supply v a s :
  0 ≤ acct_nonce s → view_supply (set_account a s v) = view_supply v - bal v a + acct_balance s.
Proof.
  intros Hn. unfold view_supply, bal. by rewrite set_account_visible, supply_insert, guarded_balance, <- view_get_visible.
Qed.

Lemma set_account_get v a s b :
  0 ≤ acct_nonce s →
  get_account (set_account a s v) b = if decide (b = a) then guarded (get_account v a) s else get_account v b.
Proof.
  intros Hn. rewrite !view_get_visible, set_account_visible by done. unfold w_get at 1. case_decide as E.
  - subst b. rewrite lookup_insert_eq. cbn. by rewrite view_get_visible.
  - by rewrite lookup_insert_ne.
Qed.

Lemma set_account_non v a s b : 0 ≤ acct_nonce s → non v b ≤ non (set_account a s v) b.
Proof.
  intros Hn. unfold non. rewrite set_account_get by done. case_decide; [|lia]. subst. rewrite guarded_nonce. lia.
Qed.

Lemma set_account_sound v a s : sound v → acct_ok s → sound (set_account a s v).
Proof.
  intros Hs [Hb Hn]. unfold sound. rewrite set_account_visible by (by destruct Hn).
  apply map_Forall_insert_2; [|done]. destruct (sound_get v a Hs) as [_ Hn'].
  split; [by rewrite guarded_balance|]. rewrite guarded_nonce. unfold is_u64 in *. lia.
Qed.

Lemma selfdestruct_visible v a : view_visible (view_selfdestruct a v) = delete a (view_visible v).
Proof. by apply (view_step_refines v (OpDestruct a)). Qed.

Lemma selfdestruct_supply v a : sound v → sound (view_selfdestruct a v) ∧ view_supply (view_selfdestruct a v) ≤ view_supply v.
Proof.
  intros Hs. unfold sound, view_supply. rewrite selfdestruct_visible. split; [by apply map_Forall_delete|].
  rewrite supply_delete, <- view_get_visible. pose proof (sound_bal v a Hs). unfold bal in *. lia.
Qed.

(** [saturate_u128] never raises a balance. *)
Lemma saturate_le x : 0 ≤ x → 0 ≤ saturate_u128 x ≤ x.
Proof.
  intros Hx. unfold saturate_u128. pose proof (Z.mod_pos_bound x (2 ^ 128) ltac:(lia)).
  pose proof (Z.mod_le x (2 ^ 128) Hx ltac:(lia)). case_if; [|lia]. unfold u256_bits in *.
  destruct (Z.eqb_spec x 0); [lia|].
  pose proof (Z.log2_spec x ltac:(lia)) as [Hl _]. pose proof (Z.pow_le_mono_r 2 128 (Z.log2 x) ltac:(lia) ltac:(lia)).
  unfold U128_MAX. lia.
Qed.
End View.
End Supply.
