(* ===== verification/Nibbles.v ===== *)
(** * Trie paths: nibbles and the hex-prefix encoding

    Models [crates/zbx-trie/src/nibbles.rs]. The struct is the record
    [Nibbles], a shared byte vector with an offset; [nib] is the list of
    nibbles it stands for. [nibbles_refine] shows that every operation
    depends on that list only, so the trie of [Trie] works with lists. *)

From S2P Require Import Prelude.

Module Nibbles.

(** ** nibbles.rs *)

Record Nibbles := mkNib { inner : list Z; offset : nat }.

Definition high (b : Z) : Z := Z.shiftr b 4.
Definition low (b : Z) : Z := Z.land b 0x0f.

Definition from_bytes (bs : bytes) : Nibbles := mkNib (concat (map (fun b => [high b; low b]) bs)) 0.

(** [saturating_sub] *)
Definition len (n : Nibbles) : nat := (length (inner n) - offset n)%nat.
Definition is_empty (n : Nibbles) : bool := (len n =? 0)%nat.

(** Indexing panics out of range: [None]. *)
Definition at_ (n : Nibbles) (i : nat) : option Z := inner n !! (offset n + i)%nat.

Definition slice (n : Nibbles) (i : nat) : Nibbles := mkNib (inner n) (offset n + i).

(** [(0..max).take_while(|i| at(i) == at(i)).count()] *)
Fixpoint count_while (p : nat → bool) (l : list nat) : nat :=
  match l with [] => 0 | i :: r => if p i then S (count_while p r) else 0 end.

Definition common_prefix_len (a b : Nibbles) : nat :=
  count_while (fun i => bool_decide (at_ a i = at_ b i)) (seq 0 (len a `min` len b)).

Definition empty : Nibbles := mkNib [] 0.
Definition single (n : Z) : Nibbles := mkNib [low n] 0.

(** [&inner[from..to]] panics when [from > to]. *)
Definition sub (n : Nibbles) (start l : nat) : option Nibbles :=
  let from := (offset n + start)%nat in
  let to := ((from + l) `min` length (inner n))%nat in
  if (from <=? to)%nat then Some (mkNib (take (to - from) (drop from (inner n))) 0) else None.

(** Inside the loops [at] is in range, so the default is not used. *)
Definition at_def (n : Nibbles) (i : nat) : Z := default 0 (at_ n i).

Definition concat_ (a b : Nibbles) : Nibbles :=
  mkNib (map (at_def a) (seq 0 (len a)) ++ map (at_def b) (seq 0 (len b))) 0.

Definition pack (a b : Z) : Z := Z.lor (wrap8 (Z.shiftl a 4)) b.

(** [(start..len).step_by(2)] *)
Fixpoint step2 (start : nat) (fuel : nat) : list nat :=
  match fuel with O => [] | S f => start :: step2 (start + 2) f end.
Definition step_by_2 (start stop : nat) : list nat := step2 start ((stop - start + 1) / 2).

Definition encode_compact (n : Nibbles) (leaf : bool) : bytes :=
  let odd := (len n mod 2 =? 1)%nat in
  let flag := Z.lor (if leaf then 0x20 else 0x00) (if odd then 0x10 else 0x00) in
  if odd then
    Z.lor flag (at_def n 0) :: map (fun i => pack (at_def n i) (at_def n (i + 1))) (step_by_2 1 (len n))
  else
    flag :: map (fun i => pack (at_def n i) (at_def n (i + 1))) (step_by_2 0 (len n)).

(** The assertion panics on an empty encoding: [None]. *)
Definition decode_compact (e : bytes) : option (Nibbles * bool) :=
  match e with
  | [] => None
  | flag :: rest =>
      let leaf := negb (Z.land flag 0x20 =? 0) in
      let odd := negb (Z.land flag 0x10 =? 0) in
      let nibs := (if odd then [Z.land flag 0x0f] else []) ++ concat (map (fun b => [high b; low b]) rest) in
      Some (mkNib nibs 0, leaf)
  end.

(** ** What the operations observe *)

Definition nib (n : Nibbles) : list Z := drop (offset n) (inner n).

Definition is_nibble (x : Z) : Prop := 0 ≤ x < 16.
Abbreviation wf_nibs l := (Forall is_nibble l).

(** Length of the common prefix of two lists. *)
Fixpoint cpl (a b : list Z) : nat :=
  match a, b with
  | x :: a', y :: b' => if x =? y then S (cpl a' b') else O
  | _, _ => O
  end.

Fixpoint pairs (l : list Z) : bytes :=
  match l with a :: b :: r => pack a b :: pairs r | _ => [] end.

(** The hex-prefix encoding of a list of nibbles. *)
Definition hp_encode (l : list Z) (leaf : bool) : bytes :=
  let odd := (length l mod 2 =? 1)%nat in
  let flag := Z.lor (if leaf then 0x20 else 0x00) (if odd then 0x10 else 0x00) in
  if odd then match l with x :: r => Z.lor flag x :: pairs r | [] => [] end
  else flag :: pairs l.

Definition expand (bs : bytes) : list Z := concat (map (fun b => [high b; low b]) bs).

Definition hp_decode (e : bytes) : option (list Z * bool) :=
  match e with
  | [] => None
  | flag :: rest =>
      Some ((if negb (Z.land flag 0x10 =? 0) then [Z.land flag 0x0f] else []) ++ expand rest,
            negb (Z.land flag 0x20 =? 0))
  end.

(** ** The record against the list *)

Lemma len_nib n : len n = length (nib n).
Proof. unfold len, nib. by rewrite length_drop. Qed.

Lemma at_nib n i : at_ n i = nib n !! i.
Proof. unfold at_, nib. by rewrite lookup_drop. Qed.

Lemma nib_slice n i : nib (slice n i) = drop i (nib n).
Proof. unfold nib, slice. cbn. by rewrite drop_drop. Qed.

Lemma count_while_cpl (a b : list Z) (k : nat) :
  count_while (fun i => bool_decide (a !! (i - k) = b !! (i - k)))%nat (seq k (length a `min` length b)) = cpl a b.
Proof.
  revert b k. induction a as [|x a IH]; intros [|y b] k; try done. cbn [length Nat.min seq count_while cpl].
  rewrite Nat.sub_diag. cbn [lookup list_lookup]. destruct (x =? y) eqn:E; simp_bool.
  - subst. rewrite bool_decide_eq_true_2 by done. f_equal. rewrite <- (IH b (S k)).
    assert (Hext : ∀ l p q, (∀ i, i ∈ l → p i = q i) → count_while p l = count_while q l).
    { clear. induction l as [|i l IH]; intros p q Hpq; [done|]. cbn.
      rewrite (Hpq i) by (apply elem_of_cons; by left).
      case_if; [|done]. f_equal. apply IH. intros j Hj. apply Hpq, elem_of_cons. by right. }
    apply Hext. intros i Hi%elem_of_seq. replace (i - k)%nat with (S (i - S k)) by lia. done.
  - rewrite bool_decide_eq_false_2; [done|]. congruence.
Qed.

Lemma cpl_nib a b : common_prefix_len a b = cpl (nib a) (nib b).
Proof.
  unfold common_prefix_len. rewrite !len_nib, <- (count_while_cpl (nib a) (nib b) 0).
  assert (Hext : ∀ l p q, (∀ i, p i = q i) → count_while p l = count_while q l).
  { clear. induction l as [|i l IH]; intros p q Hpq; [done|]. cbn. rewrite Hpq. case_if; [|done].
    f_equal. by apply IH. }
  apply Hext. intros i. by rewrite !at_nib, Nat.sub_0_r.
Qed.

(** The offset stays within the vector as long as slices are taken in range. *)
Definition in_range (n : Nibbles) : Prop := (offset n ≤ length (inner n))%nat.

Lemma sub_nib n start l :
  in_range n → (start ≤ len n)%nat →
  ∃ m, sub n start l = Some m ∧ nib m = take l (drop start (nib n)) ∧ in_range m.
Proof.
  unfold in_range. intros Ho Hs. unfold sub, nib in *. unfold len in Hs.
  rewrite (proj2 (Nat.leb_le _ _)) by lia. eexists. split; [done|]. cbn. split; [|lia].
  rewrite drop_0, drop_drop. apply list_eq. intros i. destruct (decide (i < l))%nat.
  - rewrite (lookup_take_lt _ l) by done. destruct (decide (offset n + start + i < length (inner n)))%nat.
    + rewrite lookup_take_lt by lia. done.
    + rewrite lookup_take_ge by lia. symmetry. rewrite lookup_drop. by apply lookup_ge_None_2; lia.
  - rewrite !lookup_take_ge by lia. done.
Qed.

Lemma map_at_nib n : map (at_def n) (seq 0 (len n)) = nib n.
Proof.
  rewrite len_nib. apply list_eq. intros i. rewrite list_lookup_fmap.
  destruct (decide (i < length (nib n)))%nat as [Hi|Hi].
  - rewrite lookup_seq_lt by done. cbn. unfold at_def. rewrite at_nib.
    destruct (lookup_lt_is_Some_2 (nib n) i Hi) as [x ->]. done.
  - rewrite lookup_seq_ge by lia. symmetry. by apply lookup_ge_None_2; lia.
Qed.

Lemma concat_nib a b : nib (concat_ a b) = nib a ++ nib b.
Proof. unfold concat_, nib at 1. cbn. by rewrite !map_at_nib. Qed.

(** The stepping loop of [encode_compact] packs the nibbles two by two. *)
Lemma step2_pairs (l : list Z) (f : nat → Z) (k fuel : nat) :
  (∀ i, (i < length l)%nat → f (k + i)%nat = default 0 (l !! i)) → length l = (2 * fuel)%nat →
  map (fun i => pack (f i) (f (i + 1)%nat)) (step2 k fuel) = pairs l.
Proof.
  revert l k. induction fuel as [|n IH]; intros l k Hf Hl.
  - destruct l; [done|]. cbn in Hl. lia.
  - destruct l as [|a [|b l]]; try (cbn in Hl; lia). cbn [step2 map pairs]. f_equal.
    + pose proof (Hf 0%nat ltac:(cbn; lia)) as H0. pose proof (Hf 1%nat ltac:(cbn; lia)) as H1.
      rewrite Nat.add_0_r in H0. cbn in H0, H1. by rewrite H0, H1.
    + apply IH; [|cbn in Hl; lia]. intros i Hi. specialize (Hf (S (S i)) ltac:(cbn; lia)).
      replace (k + 2 + i)%nat with (k + S (S i))%nat by lia. exact Hf.
Qed.

Lemma encode_compact_nib n leaf : encode_compact n leaf = hp_encode (nib n) leaf.
Proof.
  unfold encode_compact, hp_encode. rewrite len_nib. set (l := nib n).
  assert (Hat : ∀ i, at_def n i = default 0 (l !! i))
    by (intros i; unfold at_def; rewrite at_nib; reflexivity).
  pose proof (Nat.div_mod (length l) 2 ltac:(done)) as Hdm.
  destruct (length l mod 2 =? 1)%nat eqn:E.
  - apply Nat.eqb_eq in E. rewrite E in Hdm. destruct l as [|x r] eqn:El; [cbn in Hdm; lia|].
    f_equal; [by rewrite (Hat 0%nat)|]. unfold step_by_2. apply (step2_pairs _ (at_def n)).
    + intros i _. by rewrite Hat.
    + cbn [length] in *. replace (S (length r) - 1 + 1)%nat with (S (length r)) by lia. lia.
  - apply Nat.eqb_neq in E. pose proof (Nat.mod_upper_bound (length l) 2 ltac:(done)).
    assert (length l mod 2 = 0)%nat as E0 by lia. rewrite E0 in Hdm. f_equal.
    unfold step_by_2. apply (step2_pairs _ (at_def n)).
    + intros i _. by rewrite Hat.
    + rewrite Nat.sub_0_r. replace (length l) with (2 * (length l / 2))%nat at 1 by lia.
      rewrite Hdm at 2. rewrite Nat.add_0_r.
      replace (2 * (length l / 2) + 1)%nat with (1 + length l / 2 * 2)%nat by lia.
      rewrite Nat.div_add by done. done.
Qed.

Lemma decode_compact_nib e :
  match decode_compact e, hp_decode e with
  | Some (n, leaf), Some (l, leaf') => nib n = l ∧ leaf = leaf'
  | None, None => True
  | _, _ => False
  end.
Proof. by destruct e. Qed.

(** ** Hex-prefix round trip *)

Lemma pack_nibbles a b : is_nibble a → is_nibble b → high (pack a b) = a ∧ low (pack a b) = b ∧ is_u8 (pack a b).
Proof.
  unfold is_nibble, high, low, pack, wrap8. intros Ha Hb.
  rewrite Z.shiftl_mul_pow2, Z.mod_small by lia.
  assert (E : Z.lor (a * 2 ^ 4) b = a * 16 + b).
  { pose proof (Z.add_lor_land (a * 2 ^ 4) b) as A.
    assert (L : Z.land (a * 2 ^ 4) b = 0); [|lia]. apply Z.bits_inj'. intros n Hn.
    rewrite Z.land_spec, Z.bits_0. destruct (decide (n < 4)).
    - rewrite Z.mul_pow2_bits_low by lia. done.
    - rewrite andb_comm, (Z.bits_above_log2 b n); [done|lia|].
      destruct (decide (b = 0)) as [->|]; [cbn; lia|]. apply Z.log2_lt_pow2; [lia|].
      eapply Z.lt_le_trans; [apply Hb|]. change 16 with (2 ^ 4). apply Z.pow_le_mono_r; lia. }
  rewrite E. split_and!.
  - rewrite Z.shiftr_div_pow2 by lia. change (2 ^ 4) with 16.
    rewrite Z.div_add_l, Z.div_small by lia. lia.
  - change 0x0f with (Z.ones 4). rewrite Z.land_ones by lia. change (2 ^ 4) with 16.
    rewrite Z.add_comm, Z.mod_add, Z.mod_small by lia. done.
  - unfold is_u8. lia.
Qed.

Lemma expand_pairs (l : list Z) : wf_nibs l → (length l mod 2 = 0)%nat → expand (pairs l) = l ∧ wf_bytes (pairs l).
Proof.
  assert (H : ∀ n (l : list Z), (length l ≤ n)%nat → wf_nibs l → (length l mod 2 = 0)%nat →
    expand (pairs l) = l ∧ wf_bytes (pairs l)); [|eauto].
  clear. induction n as [|n IH]; intros l Hn Hl Hm.
  - destruct l; [by split; [|constructor]|cbn in Hn; lia].
  - destruct l as [|a [|b l]]; [by split; [|constructor]|by cbn in Hm|].
    apply Forall_cons in Hl as [Ha Hl]. apply Forall_cons in Hl as [Hb Hl].
    destruct (pack_nibbles a b Ha Hb) as (E1 & E2 & E3).
    destruct (IH l) as [E4 E5]; [cbn in Hn; lia|done| |].
    { replace (length (a :: b :: l)) with (length l + 1 * 2)%nat in Hm by (cbn; lia).
      by rewrite Nat.Div0.mod_add in Hm. }
    unfold expand in *. cbn [pairs map concat app]. rewrite E1, E2, E4. split; [done|]. by constructor.
Qed.

Lemma flag_nibble (f : Z) (x : Z) :
  is_nibble x → f = 0x10 ∨ f = 0x30 →
  Z.land (Z.lor f x) 0x10 ≠ 0 ∧ Z.land (Z.lor f x) 0x0f = x ∧
  (Z.land (Z.lor f x) 0x20 = 0 ↔ f = 0x10) ∧ is_u8 (Z.lor f x).
Proof.
  unfold is_nibble. intros Hx Hf.
  assert (x = 0 ∨ x = 1 ∨ x = 2 ∨ x = 3 ∨ x = 4 ∨ x = 5 ∨ x = 6 ∨ x = 7 ∨ x = 8 ∨ x = 9 ∨ x = 10 ∨
          x = 11 ∨ x = 12 ∨ x = 13 ∨ x = 14 ∨ x = 15) as Hc by lia.
  destruct Hf as [-> | ->];
    repeat (destruct Hc as [-> | Hc]; [unfold is_u8; cbn; repeat split; (done || lia)|]);
    subst; unfold is_u8; cbn; repeat split; (done || lia).
Qed.

Lemma hp_roundtrip (l : list Z) (leaf : bool) :
  wf_nibs l → hp_decode (hp_encode l leaf) = Some (l, leaf) ∧ wf_bytes (hp_encode l leaf) ∧
  (length (hp_encode l leaf) ≤ length l + 1)%nat ∧ hp_encode l leaf ≠ [].
Proof.
  intros Hl. unfold hp_encode. pose proof (Nat.mod_upper_bound (length l) 2 ltac:(done)).
  assert (Hlen : ∀ r : list Z, (length (pairs r) ≤ length r)%nat).
  { assert (H' : ∀ n (r : list Z), (length r ≤ n)%nat → (length (pairs r) ≤ length r)%nat); [|eauto].
    induction n as [|n IHn]; intros r Hr; destruct r as [|a [|b r]]; cbn in *; try lia.
    specialize (IHn r ltac:(lia)). lia. }
  destruct (length l mod 2 =? 1)%nat eqn:E.
  - apply Nat.eqb_eq in E. destruct l as [|x r]; [done|].
    apply Forall_cons in Hl as [Hx Hr].
    assert (Hm : (length r mod 2 = 0)%nat).
    { cbn [length] in E. pose proof (Nat.div_mod (S (length r)) 2 ltac:(done)) as Hd. rewrite E in Hd.
      replace (length r) with (0 + (S (length r) / 2) * 2)%nat by lia. by rewrite Nat.Div0.mod_add. }
    destruct (expand_pairs r Hr Hm) as [E1 E2].
    destruct (flag_nibble (Z.lor (if leaf then 0x20 else 0) 0x10) x Hx) as (F1 & F2 & F3 & F4);
      [destruct leaf; cbn; auto|].
    split_and!; [|by constructor| |done].
    + cbn [hp_decode]. rewrite (proj2 (Z.eqb_neq _ _) F1), F2, E1. cbn [negb app]. f_equal. f_equal.
      destruct leaf; cbn in F3 |- *.
      * rewrite (proj2 (Z.eqb_neq _ _)); [done|]. rewrite F3. done.
      * rewrite (proj2 (Z.eqb_eq _ _)); [done|]. by apply F3.
    + cbn. specialize (Hlen r). lia.
  - apply Nat.eqb_neq in E. destruct (expand_pairs l Hl ltac:(lia)) as [E1 E2].
    assert (is_u8 (Z.lor (if leaf then 0x20 else 0) 0)) by (by destruct leaf).
    split_and!; [|by apply Forall_cons_2| |done].
    + cbn [hp_decode]. rewrite E1. by destruct leaf.
    + cbn. specialize (Hlen l). lia.
Qed.

(** ** Theorems *)

(** The nibble vector with an offset behaves as the list of nibbles it
    stands for: length, indexing, slicing, common prefixes, sub-paths taken in
    range, concatenation and the compact encodings are those of the list. *)
Theorem nibbles_refine (a b : Nibbles) (i start l : nat) (leaf : bool) :
  in_range a → (start ≤ len a)%nat →
  len a = length (nib a) ∧ at_ a i = nib a !! i ∧ nib (slice a i) = drop i (nib a) ∧
  common_prefix_len a b = cpl (nib a) (nib b) ∧
  (∃ m, sub a start l = Some m ∧ nib m = take l (drop start (nib a))) ∧
  nib (concat_ a b) = nib a ++ nib b ∧ encode_compact a leaf = hp_encode (nib a) leaf.
Proof.
  intros Ha Hs. split_and!; [apply len_nib|apply at_nib|apply nib_slice|apply cpl_nib| | |].
  - destruct (sub_nib a start l Ha Hs) as (m & ? & ? & _). eauto.
  - apply concat_nib.
  - apply encode_compact_nib.
Qed.

Lemma nibbles_refine_witness : common_prefix_len (from_bytes [0x12; 0x34]) (slice (from_bytes [0xf1; 0x23]) 1) = 3%nat.
Proof.
  rewrite (proj1 (proj2 (proj2 (proj2 (nibbles_refine (from_bytes [0x12; 0x34])
    (slice (from_bytes [0xf1; 0x23]) 1) 0 0 0 true ltac:(unfold in_range; cbn; lia) ltac:(cbn; lia)))))).
  reflexivity.
Defined.

(** The hex-prefix encoding round-trips: decoding the compact form of any
    path gives back the path and the leaf flag, for even and odd lengths. *)
Theorem compact_roundtrip (n : Nibbles) (leaf : bool) :
  wf_nibs (nib n) →
  ∃ m, decode_compact (encode_compact n leaf) = Some (m, leaf) ∧ nib m = nib n.
Proof.
  intros Hn. rewrite encode_compact_nib. destruct (hp_roundtrip (nib n) leaf Hn) as (E & _).
  pose proof (decode_compact_nib (hp_encode (nib n) leaf)) as D. rewrite E in D.
  destruct (decode_compact _) as [[m lf]|]; [|done]. destruct D as [Hm ->]. eauto.
Qed.

Lemma compact_roundtrip_witness :
  ∃ m, decode_compact (encode_compact (mkNib [1; 2; 3] 0) true) = Some (m, true) ∧ nib m = nib (mkNib [1; 2; 3] 0).
Proof. apply (compact_roundtrip (mkNib [1; 2; 3] 0) true). repeat constructor; unfold is_nibble; lia. Defined.

(** Keys expand to nibbles. *)
Lemma wf_expand (bs : bytes) : wf_bytes bs → wf_nibs (expand bs).
Proof.
  induction 1 as [|b bs Hb _ IH]; [constructor|]. unfold expand in *. cbn [map concat app].
  unfold is_u8, is_nibble, high, low in *. repeat constructor; try done.
  - rewrite Z.shiftr_div_pow2 by lia. apply Z.div_pos; lia.
  - rewrite Z.shiftr_div_pow2 by lia. apply Z.div_lt_upper_bound; lia.
  - apply Z.land_nonneg. lia.
  - change 0x0f with (Z.ones 4). rewrite Z.land_ones by lia. apply Z.mod_pos_bound. lia.
Qed.

Lemma expand_inj (a b : bytes) : wf_bytes a → wf_bytes b → expand a = expand b → a = b.
Proof.
  intros Ha. revert b. induction Ha as [|x a Hx Ha IH]; intros b Hb E; destruct Hb as [|y b Hy Hb]; try done.
  unfold expand in E. cbn [map concat app] in E. injection E as E1 E2 E3.
  f_equal; [|by apply IH]. unfold high, low, is_u8 in *.
  rewrite !Z.shiftr_div_pow2 in E1 by lia. change 0x0f with (Z.ones 4) in E2. rewrite !Z.land_ones in E2 by lia.
  pose proof (Z.div_mod x (2 ^ 4)). pose proof (Z.div_mod y (2 ^ 4)). lia.
Qed.

Lemma length_expand (bs : bytes) : length (expand bs) = (2 * length bs)%nat.
Proof. unfold expand. induction bs as [|b bs IH]; [done|]. cbn [map concat app length]. rewrite IH. lia. Qed.

End Nibbles.
