(* ===== verification/TrieTree.v ===== *)
(** * Patricia trees without hashing

    The data structure the trie of [Trie] implements, with child nodes in
    place of references: lookup, insertion with leaf and extension splits, and
    deletion with branch collapse, each following the corresponding function
    of [crates/zbx-trie/src/trie.rs]. A tree is canonical when branches hold
    at least two entries and extensions lead to branches; canonical trees are
    determined by what they contain, which is why a root hash commits to a
    set of key-value pairs and not to the history that produced it. *)

From S2P Require Import Prelude.
From S2P Require Import Nibbles.

Module TrieTree.
Import Nibbles.Nibbles.
#[local] Set Warnings "-clear-no-such-hyp,-register-all".

Inductive tree :=
| TEmpty
| TLeaf (p : list Z) (v : bytes)
| TExt (p : list Z) (t : tree)
| TBranch (ts : list tree) (v : option bytes).

Section Ind.
Context (P : tree → Prop)
  (HE : P TEmpty) (HL : ∀ p v, P (TLeaf p v)) (HX : ∀ p t, P t → P (TExt p t))
  (HB : ∀ ts v, Forall P ts → P (TBranch ts v)).

(** Induction with the hypothesis for every child of a branch. *)
Fixpoint tree_ind' (t : tree) : P t :=
  match t with
  | TEmpty => HE
  | TLeaf p v => HL p v
  | TExt p t => HX p t (tree_ind' t)
  | TBranch ts v => HB ts v ((fix go ts := match ts return Forall P ts with
      | [] => Forall_nil_2 P
      | t :: ts => Forall_cons_2 P t ts (tree_ind' t) (go ts) end) ts)
  end.
End Ind.

(** ** Operations *)

(** The rest of a path after a prefix. *)
Fixpoint strip (p path : list Z) : option (list Z) :=
  match p, path with
  | [], _ => Some path
  | x :: p', y :: path' => if x =? y then strip p' path' else None
  | _, _ => None
  end.

Fixpoint tget (t : tree) (path : list Z) : option bytes :=
  match t with
  | TEmpty => None
  | TLeaf p v => if bool_decide (path = p) then Some v else None
  | TExt p t => match strip p path with Some r => tget t r | None => None end
  | TBranch ts v =>
      match path with
      | [] => v
      | x :: r =>
          (fix nth ts i := match ts, i with
            | [], _ => None
            | t :: _, O => tget t r
            | _ :: ts, S i => nth ts i
            end) ts (Z.to_nat x)
      end
  end.

Definition blank : list tree := replicate 16 TEmpty.

(** Put a path and its value under a branch being built. *)
Definition place (path : list Z) (cp : nat) (v : bytes) (tsbv : list tree * option bytes)
    : list tree * option bytes :=
  match path !! cp with
  | None => (tsbv.1, Some v)
  | Some x => (<[Z.to_nat x := TLeaf (drop (S cp) path) v]> tsbv.1, tsbv.2)
  end.

Definition wrap (path : list Z) (cp : nat) (t : tree) : tree :=
  match cp with O => t | _ => TExt (take cp path) t end.

Definition ext_child (p : list Z) (t : tree) : tree :=
  match p with [] => t | _ => TExt p t end.

Fixpoint tinsert (t : tree) (path : list Z) (v : bytes) : tree :=
  match t with
  | TEmpty => TLeaf path v
  | TLeaf p ov =>
      let cp := cpl path p in
      if bool_decide (path = p) then TLeaf p v
      else let tsbv := place path cp v (place p cp ov (blank, None)) in
           wrap path cp (TBranch tsbv.1 tsbv.2)
  | TExt p t' =>
      let cp := cpl path p in
      match p !! cp with
      | None => TExt p (tinsert t' (drop cp path) v)
      | Some x =>
          let tsbv := place path cp v (<[Z.to_nat x := ext_child (drop (S cp) p) t']> blank, None) in
          wrap path cp (TBranch tsbv.1 tsbv.2)
      end
  | TBranch ts bv =>
      match path with
      | [] => TBranch ts (Some v)
      | x :: r => TBranch (alter (fun t' => tinsert t' r v) (Z.to_nat x) ts) bv
      end
  end.

Definition is_emptyb (t : tree) : bool := match t with TEmpty => true | _ => false end.

(** Prefix a path to a subtree. *)
Definition merge (p : list Z) (t : tree) : tree :=
  match t with
  | TEmpty => TEmpty
  | TLeaf q v => TLeaf (p ++ q) v
  | TExt q t' => TExt (p ++ q) t'
  | TBranch ts v => TExt p (TBranch ts v)
  end.

Definition occupied (ts : list tree) : list nat :=
  filter (fun i => is_emptyb <$> ts !! i = Some false) (seq 0 16).

Definition collapse (ts : list tree) (v : option bytes) : tree :=
  match occupied ts, v with
  | [], None => TEmpty
  | [], Some v => TLeaf [] v
  | [i], None => match ts !! i with Some t => merge [Z.of_nat i] t | None => TEmpty end
  | _, _ => TBranch ts v
  end.

(** The tree without a path; the flag says whether the path was there. *)
Fixpoint tdelete (t : tree) (path : list Z) : tree * bool :=
  match t with
  | TEmpty => (TEmpty, false)
  | TLeaf p v => if bool_decide (path = p) then (TEmpty, true) else (t, false)
  | TExt p t' =>
      match strip p path with
      | None => (t, false)
      | Some r => let res := tdelete t' r in if res.2 then (merge p res.1, true) else (t, false)
      end
  | TBranch ts bv =>
      match path with
      | [] => match bv with Some _ => (collapse ts None, true) | None => (t, false) end
      | x :: r =>
          let res := (fix nth ts i := match ts, i with
            | [], _ => (TEmpty, false)
            | t :: _, O => tdelete t r
            | _ :: ts, S i => nth ts i
            end) ts (Z.to_nat x) in
          if res.2 then (collapse (<[Z.to_nat x := res.1]> ts) bv, true) else (t, false)
      end
  end.

(** ** Canonical trees *)

(** Values are non-empty byte strings: an empty one reads back as absent. *)
Definition wf_val (v : bytes) : Prop := v ≠ [] ∧ wf_bytes v ∧ Z.of_nat (length v) < 2 ^ 40.
Definition wf_path (p : list Z) : Prop := wf_nibs p.

Definition occupancy (ts : list tree) (v : option bytes) : nat :=
  (length (filter (fun t => is_emptyb t = false) ts) + match v with Some _ => 1 | None => 0 end)%nat.

Fixpoint canon (t : tree) : Prop :=
  match t with
  | TEmpty => False
  | TLeaf p v => wf_path p ∧ wf_val v
  | TExt p t' => p ≠ [] ∧ wf_path p ∧ canon t' ∧ match t' with TBranch _ _ => True | _ => False end
  | TBranch ts v =>
      length ts = 16%nat ∧ foldr (fun t' P => (t' = TEmpty ∨ canon t') ∧ P) True ts ∧
      from_option wf_val True v ∧ (2 ≤ occupancy ts v)%nat
  end.

Definition ok (t : tree) : Prop := t = TEmpty ∨ canon t.

#[export] Instance empty_dec (t : tree) : Decision (t = TEmpty).
Proof. destruct t; [by left|by right..]. Defined.

Lemma canon_children ts : foldr (fun t' P => (t' = TEmpty ∨ canon t') ∧ P) True ts ↔ Forall ok ts.
Proof.
  induction ts as [|t ts IH]; cbn [foldr]; [done|]. rewrite IH, Forall_cons. done.
Qed.

Lemma canon_branch ts v :
  canon (TBranch ts v) ↔
  length ts = 16%nat ∧ Forall ok ts ∧ from_option wf_val True v ∧ (2 ≤ occupancy ts v)%nat.
Proof. cbn [canon]. by rewrite canon_children. Qed.

(** ** Equations of lookup *)

Lemma tget_branch ts v x r :
  tget (TBranch ts v) (x :: r) = match ts !! Z.to_nat x with Some t => tget t r | None => None end.
Proof.
  cbn [tget]. generalize (Z.to_nat x) as i. induction ts as [|t ts IH]; intros [|i]; first [done | apply (IH i)].
Qed.

Lemma tdelete_branch ts v x r :
  tdelete (TBranch ts v) (x :: r) =
  let res := match ts !! Z.to_nat x with Some t => tdelete t r | None => (TEmpty, false) end in
  if res.2 then (collapse (<[Z.to_nat x := res.1]> ts) v, true) else (TBranch ts v, false).
Proof.
  cbn [tdelete]. cbv zeta.
  replace ((fix nth (ts : list tree) (i : nat) {struct ts} : tree * bool := _) ts (Z.to_nat x))
    with (match ts !! Z.to_nat x with Some t => tdelete t r | None => (TEmpty, false) end); [done|].
  generalize (Z.to_nat x) as i. induction ts as [|t ts IH]; intros [|i]; first [done | apply (IH i)].
Qed.

(** ** Common prefixes *)

Lemma cpl_le (a b : list Z) : (cpl a b ≤ length a ∧ cpl a b ≤ length b)%nat.
Proof.
  revert b. induction a as [|x a IH]; intros [|y b]; cbn; try lia. destruct (x =? y); [|lia].
  specialize (IH b). lia.
Qed.

Lemma cpl_take (a b : list Z) : take (cpl a b) a = take (cpl a b) b.
Proof.
  revert b. induction a as [|x a IH]; intros [|y b]; cbn; try done. destruct (x =? y) eqn:E; [|done].
  simp_bool. subst. cbn. by rewrite IH.
Qed.

Lemma cpl_split (a b : list Z) :
  ∃ p a' b', a = p ++ a' ∧ b = p ++ b' ∧ cpl a b = length p ∧
  match a', b' with x :: _, y :: _ => x ≠ y | _, _ => True end.
Proof.
  revert b. induction a as [|x a IH]; intros [|y b].
  - by exists [], [], [].
  - by exists [], [], (y :: b).
  - by exists [], (x :: a), [].
  - cbn [cpl]. destruct (x =? y) eqn:E; simp_bool.
    + subst. destruct (IH b) as (p & a' & b' & -> & -> & Hc & Hd). exists (y :: p), a', b'.
      cbn. by rewrite Hc.
    + by exists [], (x :: a), (y :: b).
Qed.

Lemma cpl_full (a b : list Z) : cpl a b = length b ↔ ∃ r, a = b ++ r.
Proof.
  revert b. induction a as [|x a IH]; intros [|y b]; cbn; split; try done; try (intros [r Hr]; done).
  - by exists [].
  - by exists (x :: a).
  - destruct (x =? y) eqn:E; [|done]. simp_bool. intros [= Hl]. apply IH in Hl as [r ->]. exists r. by subst.
  - intros [r [= -> ->]]. rewrite Z.eqb_refl. f_equal. apply IH. by exists r.
Qed.

Lemma strip_Some p path r : strip p path = Some r ↔ path = p ++ r.
Proof.
  revert path. induction p as [|x p IH]; intros path; cbn; [split; congruence|].
  destruct path as [|y path]; [split; done|]. destruct (x =? y) eqn:E; simp_bool.
  - rewrite IH. subst. split; [by intros ->|by intros [= ->]].
  - split; [done|]. intros [= ? _]. congruence.
Qed.

Lemma strip_app p r : strip p (p ++ r) = Some r.
Proof. by apply strip_Some. Qed.

Lemma strip_None p path : strip p path = None ↔ ∀ r, path ≠ p ++ r.
Proof.
  split.
  - intros E r ->. by rewrite strip_app in E.
  - intros Hr. destruct (strip p path) as [r|] eqn:E; [|done]. apply strip_Some in E. by destruct (Hr r).
Qed.

(** ** Planting a path in a branch *)

Definition plant (a : list Z) (v : bytes) (tsbv : list tree * option bytes) : list tree * option bytes :=
  match a with
  | [] => (tsbv.1, Some v)
  | x :: r => (<[Z.to_nat x := TLeaf r v]> tsbv.1, tsbv.2)
  end.

Lemma place_plant p a v tsbv : place (p ++ a) (length p) v tsbv = plant a v tsbv.
Proof.
  unfold place, plant. rewrite lookup_app_r, Nat.sub_diag by lia. destruct a as [|x r]; [done|].
  cbn. do 3 f_equal. rewrite drop_app_ge by lia. by replace (S (length p) - length p)%nat with 1%nat by lia.
Qed.

(** The position a path takes is free. *)
Definition free (a : list Z) (ts : list tree) (bv : option bytes) : Prop :=
  match a with [] => bv = None | x :: _ => ts !! Z.to_nat x = Some TEmpty end.

Lemma nibble_index x y : is_nibble x → is_nibble y → Z.to_nat x = Z.to_nat y → x = y.
Proof. unfold is_nibble. lia. Qed.

Lemma nibble_lt x (ts : list tree) : is_nibble x → length ts = 16%nat → (Z.to_nat x < length ts)%nat.
Proof. unfold is_nibble. lia. Qed.

Lemma tget_plant a v ts bv q :
  length ts = 16%nat → free a ts bv → wf_nibs a → wf_nibs q →
  tget (TBranch (plant a v (ts, bv)).1 (plant a v (ts, bv)).2) q =
  if decide (q = a) then Some v else tget (TBranch ts bv) q.
Proof.
  intros Hl Hf Ha Hq. destruct a as [|x r]; cbn [plant fst snd].
  - destruct q as [|y q]; [by rewrite decide_True|]. by rewrite decide_False, !tget_branch.
  - apply Forall_cons in Ha as [Hx Hr]. destruct q as [|y q]; [by rewrite decide_False|].
    apply Forall_cons in Hq as [Hy Hq]. rewrite !tget_branch.
    destruct (decide (x = y)) as [->|Hne].
    + rewrite list_lookup_insert_eq by by apply nibble_lt. cbn in Hf. rewrite Hf. cbn [tget].
      destruct (decide (y :: q = y :: r)) as [E|E].
      * rewrite bool_decide_eq_true_2; congruence.
      * rewrite bool_decide_eq_false_2; congruence.
    + rewrite list_lookup_insert_ne by (intros E; by apply Hne, nibble_index).
      rewrite decide_False by congruence. done.
Qed.

Lemma occupancy_insert i t ts v :
  ts !! i = Some TEmpty → t ≠ TEmpty → occupancy (<[i := t]> ts) v = S (occupancy ts v).
Proof.
  intros Hi Ht. apply list_elem_of_split_length in Hi as (l1 & l2 & -> & ->). unfold occupancy.
  rewrite insert_app_r_alt, Nat.sub_diag by lia. cbn [insert list_insert].
  rewrite !filter_app, !filter_cons, !length_app. cbn [is_emptyb].
  rewrite (decide_True (P := is_emptyb t = false)) by (by destruct t). rewrite decide_False by done.
  cbn. lia.
Qed.

Lemma occupancy_replace i t t0 ts v :
  ts !! i = Some t0 → t0 ≠ TEmpty → t ≠ TEmpty → occupancy (<[i := t]> ts) v = occupancy ts v.
Proof.
  intros Hi H0 Ht. apply list_elem_of_split_length in Hi as (l1 & l2 & -> & ->). unfold occupancy.
  rewrite insert_app_r_alt, Nat.sub_diag by lia. cbn [insert list_insert].
  rewrite !filter_app, !filter_cons, !length_app.
  rewrite (decide_True (P := is_emptyb t = false)) by (by destruct t).
  rewrite (decide_True (P := is_emptyb t0 = false)) by (by destruct t0). cbn. lia.
Qed.

Record wf_branch (ts : list tree) (bv : option bytes) : Prop := {
  wb_len : length ts = 16%nat;
  wb_ok : Forall ok ts;
  wb_val : from_option wf_val True bv
}.

Lemma canon_wf_branch ts bv : canon (TBranch ts bv) → wf_branch ts bv.
Proof. rewrite canon_branch. intros (? & ? & ? & _). done. Qed.

Lemma blank_wf : wf_branch blank None ∧ occupancy blank None = 0%nat.
Proof. split; [|done]. split; [done| |done]. apply Forall_replicate. by left. Qed.

Lemma plant_wf a v ts bv :
  wf_branch ts bv → free a ts bv → wf_path a → wf_val v →
  wf_branch (plant a v (ts, bv)).1 (plant a v (ts, bv)).2 ∧
  occupancy (plant a v (ts, bv)).1 (plant a v (ts, bv)).2 = S (occupancy ts bv).
Proof.
  intros [Hl Ho Hv] Hf Ha Hval. destruct a as [|x r]; cbn [plant fst snd].
  - cbn in Hf. subst bv. split; [by split|]. unfold occupancy. lia.
  - apply Forall_cons in Ha as [Hx Hr]. cbn in Hf. split; [split|].
    + by rewrite length_insert.
    + apply Forall_insert; [done|]. right. by split.
    + done.
    + by apply occupancy_insert.
Qed.

Lemma wf_path_app p a : wf_path (p ++ a) → wf_path p ∧ wf_path a.
Proof. apply Forall_app. Qed.

Lemma wf_path_cons x r : wf_path (x :: r) → is_nibble x ∧ wf_path r.
Proof. apply Forall_cons. Qed.

Lemma canon_wrap p a ts bv :
  wf_path p → canon (TBranch ts bv) → canon (wrap (p ++ a) (length p) (TBranch ts bv)).
Proof.
  intros Hp Hc. unfold wrap. destruct p as [|x p]; [done|]. cbn [length].
  rewrite take_app_length' by done. cbn [canon]. done.
Qed.

Lemma tget_wrap p a t q :
  tget (wrap (p ++ a) (length p) t) q = match strip p q with Some r => tget t r | None => None end.
Proof. unfold wrap. destruct p as [|x p]; [done|]. cbn [length]. by rewrite take_app_length' by done. Qed.

Lemma blank_lookup x : is_nibble x → blank !! Z.to_nat x = Some TEmpty.
Proof. unfold is_nibble, blank. intros. apply lookup_replicate_2. lia. Qed.

Lemma tget_blank q : wf_nibs q → tget (TBranch blank None) q = None.
Proof.
  destruct q as [|x q]; [done|]. intros [Hx _]%Forall_cons. by rewrite tget_branch, blank_lookup.
Qed.

(** ** Insertion *)

Lemma tget_leaf p v q : tget (TLeaf p v) q = if bool_decide (q = p) then Some v else None.
Proof. done. Qed.

Lemma tget_ext p t q : tget (TExt p t) q = match strip p q with Some r => tget t r | None => None end.
Proof. done. Qed.

Lemma free_blank b : wf_path b → free b blank None.
Proof. destruct b as [|y b]; [done|]. intros [Hy _]%wf_path_cons. by apply blank_lookup. Qed.

(** Two paths that part take different places. *)
Definition parted (a b : list Z) : Prop :=
  a ≠ b ∧ match a, b with x :: _, y :: _ => x ≠ y | _, _ => True end.

Lemma free_parted a b ov :
  wf_path a → wf_path b → parted a b →
  free a (plant b ov (blank, None)).1 (plant b ov (blank, None)).2.
Proof.
  intros Ha Hb [Hne Hd]. destruct a as [|x a], b as [|y b]; cbn [free plant fst snd]; try done.
  - apply wf_path_cons in Ha as [Hx _]. by apply blank_lookup.
  - apply wf_path_cons in Ha as [Hx _], Hb as [Hy _].
    rewrite list_lookup_insert_ne by (intros E; by apply Hd; symmetry; apply nibble_index).
    by apply blank_lookup.
Qed.

Lemma free_next a x t :
  wf_path a → is_nibble x → match a with y :: _ => y ≠ x | [] => True end →
  free a (<[Z.to_nat x := t]> blank) None.
Proof.
  intros Ha Hx Hd. destruct a as [|z a]; [done|]. apply wf_path_cons in Ha as [Hz _]. cbn [free].
  rewrite list_lookup_insert_ne by (intros E; by apply Hd; symmetry; apply nibble_index).
  by apply blank_lookup.
Qed.

Lemma leaf_split path p ov v :
  wf_path path → wf_path p → wf_val ov → wf_val v → path ≠ p →
  let t := tinsert (TLeaf p ov) path v in
  canon t ∧ ∀ q, wf_nibs q → tget t q = if decide (q = path) then Some v else tget (TLeaf p ov) q.
Proof.
  intros Hpath Hp Hov Hv Hne. cbn zeta. cbn [tinsert]. rewrite bool_decide_eq_false_2 by done.
  destruct (cpl_split path p) as (c & a & b & -> & -> & -> & Hd).
  apply wf_path_app in Hpath as [Hc Ha]. apply wf_path_app in Hp as [_ Hb].
  rewrite !place_plant. destruct blank_wf as [Hbl Hocc].
  pose proof (free_blank b Hb) as Hfb.
  destruct (plant_wf b ov blank None Hbl Hfb Hb Hov) as [Hw1 Ho1].
  assert (Hfa : free a (plant b ov (blank, None)).1 (plant b ov (blank, None)).2).
  { apply free_parted; [done..|]. split; [congruence|done]. }
  destruct (plant_wf a v _ _ Hw1 Hfa Ha Hv) as [Hw2 Ho2]. rewrite <- surjective_pairing in Hw2, Ho2.
  split.
  - apply canon_wrap; [done|]. apply canon_branch. destruct Hw2. split_and!; try done. lia.
  - intros q Hq. rewrite tget_wrap, tget_leaf. destruct (strip c q) as [s|] eqn:Es.
    + apply strip_Some in Es as ->. apply Forall_app in Hq as [_ Hs].
      pose proof (tget_plant a v _ _ s (wb_len _ _ Hw1) Hfa Ha Hs) as E.
      rewrite <- surjective_pairing in E. rewrite E.
      destruct (decide (s = a)) as [->|Hsa]; [by rewrite decide_True|].
      rewrite decide_False by (intros E'; by apply (inj (app c)) in E').
      rewrite (tget_plant b ov blank None s) by (done || apply Hb). rewrite tget_blank by done.
      destruct (decide (s = b)) as [->|Hsb]; [by rewrite bool_decide_eq_true_2|].
      rewrite bool_decide_eq_false_2; [done|]. intros E'. by apply (inj (app c)) in E'.
    + rewrite strip_None in Es. rewrite decide_False by apply Es. rewrite bool_decide_eq_false_2; [done|apply Es].
Qed.

Lemma tget_ext_child b t r : tget (ext_child b t) r = tget (TExt b t) r.
Proof. by destruct b. Qed.

Lemma strip_app_l c p q : strip (c ++ p) (c ++ q) = strip p q.
Proof. induction c as [|x c IH]; [done|]. cbn. by rewrite Z.eqb_refl. Qed.

Lemma wf_path_suffix p x b : wf_path (p ++ x :: b) → is_nibble x ∧ wf_path b.
Proof. intros [_ H]%wf_path_app. by apply wf_path_cons. Qed.

Lemma ext_split p t' path v x :
  canon (TExt p t') → wf_path path → wf_val v → p !! cpl path p = Some x →
  let t := tinsert (TExt p t') path v in
  canon t ∧ ∀ q, wf_nibs q → tget t q = if decide (q = path) then Some v else tget (TExt p t') q.
Proof.
  intros Hcan Hpath Hv Hx. cbn zeta. cbn [tinsert]. rewrite Hx.
  destruct (cpl_split path p) as (c & a & b0 & -> & -> & Hcp & Hd). rewrite Hcp in *.
  rewrite lookup_app_r, Nat.sub_diag in Hx by lia. destruct b0 as [|y b]; [done|]. injection Hx as ->.
  apply wf_path_app in Hpath as [Hc Ha]. cbn [canon] in Hcan. destruct Hcan as (_ & Hp & Hct & Hbr).
  destruct (wf_path_suffix _ _ _ Hp) as [Hnx Hb]. apply wf_path_app in Hp as [_ Hxb].
  rewrite place_plant. rewrite drop_app_ge by lia.
  replace (S (length c) - length c)%nat with 1%nat by lia. cbn [drop]. rewrite drop_0.
  destruct blank_wf as [[Hl Hok _] Hocc].
  assert (Hec : canon (ext_child b t')) by (destruct b; [done|cbn [ext_child canon]; done]).
  assert (Hne : ext_child b t' ≠ TEmpty) by (intros E; by rewrite E in Hec).
  set (ts1 := <[Z.to_nat x := ext_child b t']> blank).
  assert (Hw1 : wf_branch ts1 None).
  { split; [by unfold ts1; rewrite length_insert|apply Forall_insert; [done|by right]|done]. }
  assert (Ho1 : occupancy ts1 None = 1%nat) by (unfold ts1; rewrite occupancy_insert; [by rewrite Hocc|by apply blank_lookup|done]).
  assert (Hfa : free a ts1 None) by (by apply free_next).
  destruct (plant_wf a v ts1 None Hw1 Hfa Ha Hv) as [Hw2 Ho2]. rewrite Ho1 in Ho2. split.
  - apply canon_wrap; [done|]. apply canon_branch. fold ts1. destruct Hw2. split_and!; try done.
    by rewrite Ho2.
  - intros q Hq. rewrite tget_wrap, tget_ext. destruct (strip c q) as [s|] eqn:Es.
    + apply strip_Some in Es as ->. apply Forall_app in Hq as [_ Hs].
      rewrite (tget_plant a v ts1 None s (wb_len _ _ Hw1) Hfa Ha Hs), strip_app_l.
      destruct (decide (s = a)) as [->|Hsa]; [by rewrite decide_True|].
      rewrite decide_False by (intros E'; by apply (inj (app c)) in E').
      destruct s as [|z s]; [done|]. apply Forall_cons in Hs as [Hz Hs]. rewrite tget_branch. cbn [strip].
      unfold ts1. destruct (x =? z) eqn:Exz; simp_bool.
      * subst z. rewrite list_lookup_insert_eq by by apply nibble_lt.
        by rewrite tget_ext_child, tget_ext.
      * rewrite list_lookup_insert_ne by (intros E; by apply Exz, nibble_index). by rewrite blank_lookup.
    + rewrite strip_None in Es. rewrite decide_False by apply Es.
      rewrite (proj2 (strip_None (c ++ x :: b) q)); [done|]. intros r ->. apply (Es (x :: b ++ r)).
      by rewrite <- app_assoc.
Qed.

Lemma tinsert_ne t path v : tinsert t path v ≠ TEmpty.
Proof.
  destruct t as [|p ov|p t'|ts bv]; cbn [tinsert]; try done.
  - case_bool_decide; [done|]. unfold wrap. by destruct (cpl path p).
  - destruct (p !! _); [|done]. unfold wrap. by destruct (cpl path p).
  - by destruct path.
Qed.

Lemma ext_full (p path : list Z) :
  p !! cpl path p = None → ∃ r, path = p ++ r ∧ drop (cpl path p) path = r.
Proof.
  intros E. apply lookup_ge_None in E. pose proof (cpl_le path p).
  assert (Hc : cpl path p = length p) by lia. pose proof Hc as Hc'. apply cpl_full in Hc as [r ->].
  exists r. split; [done|]. rewrite Hc'. apply drop_app_length.
Qed.

Lemma alter_insert {A} (f : A → A) (l : list A) (i : nat) (x : A) :
  l !! i = Some x → alter f i l = <[i := f x]> l.
Proof.
  revert i. induction l as [|y l IH]; intros [|i] E; try done; [by injection E as ->|].
  change (y :: alter f i l = y :: <[i := f x]> l). f_equal. by apply IH.
Qed.

Lemma tinsert_branch_shape ts bv path v :
  match tinsert (TBranch ts bv) path v with TBranch _ _ => True | _ => False end.
Proof. cbn. by destruct path. Qed.

Lemma tinsert_spec t path v :
  ok t → wf_path path → wf_val v →
  canon (tinsert t path v) ∧
  ∀ q, wf_nibs q → tget (tinsert t path v) q = if decide (q = path) then Some v else tget t q.
Proof.
  revert path. induction t as [|p ov|p t' IH|ts bv IH] using tree_ind'; intros path Hok Hpath Hv.
  - cbn [tinsert]. split; [done|]. intros q Hq. rewrite tget_leaf. cbn [tget].
    destruct (decide (q = path)); [by rewrite bool_decide_eq_true_2|by rewrite bool_decide_eq_false_2].
  - destruct Hok as [Hok|[Hp Hov]]; [done|]. destruct (decide (path = p)) as [->|Hne].
    + cbn [tinsert]. rewrite bool_decide_eq_true_2 by done. split; [done|]. intros q Hq.
      rewrite !tget_leaf. destruct (decide (q = p)); [by rewrite bool_decide_eq_true_2|].
      by rewrite bool_decide_eq_false_2.
    + by apply leaf_split.
  - destruct Hok as [Hok|Hok]; [done|]. destruct (p !! cpl path p) as [x|] eqn:Hx; [by eapply ext_split|].
    cbn [tinsert]. rewrite Hx. destruct (ext_full p path Hx) as (r & -> & ->).
    cbn [canon] in Hok. destruct Hok as (Hne & Hp & Hct & Hbr). apply wf_path_app in Hpath as [_ Hr].
    destruct (IH r) as [Hcan Hget]; [by right|done|done|]. split.
    + cbn [canon]. split_and!; try done; [apply Hp..|]. destruct t'; try done. apply tinsert_branch_shape.
    + intros q Hq. rewrite !tget_ext. destruct (strip p q) as [s|] eqn:Es.
      * apply strip_Some in Es as ->. apply Forall_app in Hq as [_ Hs]. rewrite Hget by done.
        destruct (decide (s = r)) as [->|Hsr]; [by rewrite decide_True|].
        rewrite decide_False; [done|]. intros E. by apply (inj (app p)) in E.
      * rewrite strip_None in Es. rewrite decide_False; [done|apply Es].
  - destruct Hok as [Hok|Hok]; [done|]. apply canon_branch in Hok as (Hl & Hcs & Hbv & Hocc).
    destruct path as [|x r].
    + cbn [tinsert]. split.
      * apply canon_branch. split_and!; try done. unfold occupancy in *. destruct bv; lia.
      * intros q Hq. destruct q as [|y q]; [by rewrite decide_True|].
        by rewrite decide_False, !tget_branch.
    + apply wf_path_cons in Hpath as [Hx Hr]. cbn [tinsert].
      destruct (lookup_lt_is_Some_2 ts (Z.to_nat x) (nibble_lt x ts Hx Hl)) as [t' Ht'].
      rewrite Forall_lookup in IH. destruct (IH _ _ Ht' r) as [Hcan Hget];
        [by apply (Forall_lookup_1 _ _ _ _ Hcs Ht')|done|done|].
      rewrite (alter_insert _ _ _ _ Ht'). split.
      * apply canon_branch. split_and!; [by rewrite length_insert|apply Forall_insert; [done|by right]|done|].
        pose proof (tinsert_ne t' r v). destruct (decide (t' = TEmpty)) as [->|].
        -- rewrite occupancy_insert by done. lia.
        -- by rewrite (occupancy_replace _ _ t').
      * intros q Hq. destruct q as [|y q]; [by rewrite decide_False|]. apply Forall_cons in Hq as [Hy Hq].
        rewrite !tget_branch. destruct (decide (x = y)) as [->|Hne].
        -- rewrite list_lookup_insert_eq by by apply nibble_lt. rewrite Hget, Ht' by done.
           destruct (decide (q = r)) as [->|]; [by rewrite decide_True|by rewrite decide_False by congruence].
        -- rewrite list_lookup_insert_ne by (intros E; by apply Hne, nibble_index).
           by rewrite decide_False by congruence.
Qed.

(** ** Occupied slots *)

Lemma elem_of_occupied ts i :
  length ts = 16%nat → i ∈ occupied ts ↔ ∃ t, ts !! i = Some t ∧ t ≠ TEmpty.
Proof.
  intros Hl. unfold occupied. rewrite list_elem_of_filter, elem_of_seq. split.
  - intros [E _]. destruct (ts !! i) as [t|]; [|done]. exists t. split; [done|]. intros ->. done.
  - intros (t & E & Hne). apply lookup_lt_Some in E as Hlt. rewrite E. split; [|lia].
    cbn. f_equal. by destruct t.
Qed.

Lemma NoDup_occupied ts : NoDup (occupied ts).
Proof. apply NoDup_filter, NoDup_seq. Qed.

Lemma filter_ext_in {A} (P Q : A → Prop) `{!∀ x, Decision (P x)} `{!∀ x, Decision (Q x)} (l : list A) :
  (∀ x, x ∈ l → P x ↔ Q x) → filter P l = filter Q l.
Proof.
  induction l as [|x l IH]; intros Heq; [done|]. rewrite !filter_cons.
  rewrite IH by (intros y Hy; apply Heq, elem_of_cons; by right).
  pose proof (Heq x ltac:(apply elem_of_cons; by left)). repeat case_decide; naive_solver.
Qed.

Lemma occupied_length ts : length ts = 16%nat → length (occupied ts) = length (filter (fun t => is_emptyb t = false) ts).
Proof.
  intros Hl. unfold occupied. rewrite <- Hl. clear Hl.
  assert (G : ∀ (l : list tree) (k : nat),
    length (filter (fun i => is_emptyb <$> l !! (i - k)%nat = Some false) (seq k (length l))) =
    length (filter (fun t => is_emptyb t = false) l)).
  { induction l as [|t l IH]; intros k; [done|]. cbn [length seq]. rewrite !filter_cons, Nat.sub_diag.
    cbn [lookup list_lookup fmap option_fmap option_map].
    assert (E : filter (fun i => is_emptyb <$> (t :: l) !! (i - k)%nat = Some false) (seq (S k) (length l)) =
                filter (fun i => is_emptyb <$> l !! (i - S k)%nat = Some false) (seq (S k) (length l))).
    { apply filter_ext_in. intros i Hi%elem_of_seq.
      replace (i - k)%nat with (S (i - S k)) by lia. done. }
    rewrite E. destruct (is_emptyb t) eqn:Et; cbn.
    - rewrite !decide_False by (intros [=]). apply IH.
    - rewrite !decide_True by done. cbn. f_equal. apply IH. }
  rewrite <- (G ts 0%nat). f_equal. apply filter_ext_in. intros i _. by rewrite Nat.sub_0_r.
Qed.

Lemma occupancy_occupied ts v :
  length ts = 16%nat → occupancy ts v = (length (occupied ts) + match v with Some _ => 1 | None => 0 end)%nat.
Proof. intros Hl. unfold occupancy. by rewrite occupied_length. Qed.

(** A child of a canonical branch, by index or by nibble. *)
Lemma child_nibble (i : nat) (ts : list tree) t :
  length ts = 16%nat → ts !! i = Some t → is_nibble (Z.of_nat i) ∧ ts !! Z.to_nat (Z.of_nat i) = Some t.
Proof.
  intros Hl E. rewrite Nat2Z.id. split; [|done]. apply lookup_lt_Some in E. unfold is_nibble. lia.
Qed.

(** ** Canonical trees hold keys, and branches hold diverging ones *)

Definition has (t : tree) (q : list Z) : Prop := wf_nibs q ∧ is_Some (tget t q).

Lemma has_child ts v i t q :
  length ts = 16%nat → ts !! i = Some t → has t q → has (TBranch ts v) (Z.of_nat i :: q).
Proof.
  intros Hl E [Hq Hs]. destruct (child_nibble i ts t Hl E) as [Hi E']. split; [by constructor|].
  by rewrite tget_branch, E'.
Qed.

Lemma canon_has t : canon t → ∃ q, has t q.
Proof.
  induction t as [|p ov|p t' IH|ts bv IH] using tree_ind'.
  - done.
  - intros [Hp _]. exists p. split; [done|]. rewrite tget_leaf, bool_decide_eq_true_2 by done. eauto.
  - cbn [canon]. intros (_ & Hp & Hc & _). destruct (IH Hc) as (q & Hq & Hs). exists (p ++ q).
    split; [by apply Forall_app|]. by rewrite tget_ext, strip_app.
  - intros (Hl & Hok & _ & Hocc)%canon_branch. destruct bv as [v|].
    + exists []. split; [constructor|]. cbn. eauto.
    + rewrite occupancy_occupied in Hocc by done. destruct (occupied ts) as [|i l] eqn:E; [cbn in Hocc; lia|].
      assert (Hi : i ∈ occupied ts) by (rewrite E; apply elem_of_cons; by left).
      apply elem_of_occupied in Hi as (t & Et & Hne); [|done].
      rewrite Forall_lookup in IH, Hok. destruct (Hok _ _ Et) as [->|Hc]; [done|].
      destruct (IH _ _ Et Hc) as (q & Hq). exists (Z.of_nat i :: q). by eapply has_child.
Qed.

Lemma branch_diverges ts bv :
  canon (TBranch ts bv) →
  ∃ q1 q2, has (TBranch ts bv) q1 ∧ has (TBranch ts bv) q2 ∧ q1 ≠ q2 ∧ cpl q1 q2 = 0%nat.
Proof.
  intros (Hl & Hok & Hv & Hocc)%canon_branch. rewrite occupancy_occupied in Hocc by done.
  assert (Hslot : ∀ i, i ∈ occupied ts → ∃ q, has (TBranch ts bv) (Z.of_nat i :: q)).
  { intros i (t & Et & Hne)%elem_of_occupied; [|done]. rewrite Forall_lookup in Hok.
    destruct (Hok _ _ Et) as [->|Hc]; [done|]. destruct (canon_has t Hc) as [q Hq].
    exists q. by eapply has_child. }
  pose proof (NoDup_occupied ts) as Hnd.
  destruct (occupied ts) as [|i [|j l]].
  - destruct bv; cbn in Hocc; lia.
  - destruct bv as [v|]; [|cbn in Hocc; lia].
    destruct (Hslot i) as [q Hq]; [apply elem_of_cons; by left|].
    exists [], (Z.of_nat i :: q). by split_and!.
  - destruct (Hslot i) as [q1 H1]; [apply elem_of_cons; by left|].
    destruct (Hslot j) as [q2 H2]; [apply elem_of_cons; right; apply elem_of_cons; by left|].
    apply NoDup_cons in Hnd as [Hij _]. rewrite elem_of_cons in Hij.
    exists (Z.of_nat i :: q1), (Z.of_nat j :: q2). split_and!; try done.
    + intros [=]. apply Hij. left. lia.
    + cbn. rewrite (proj2 (Z.eqb_neq _ _)); [done|]. intros E. apply Hij. left. lia.
Qed.

Lemma ext_keys p t q : has (TExt p t) q ↔ wf_nibs p ∧ ∃ r, q = p ++ r ∧ has t r.
Proof.
  unfold has. rewrite tget_ext. split.
  - intros [Hq Hs]. destruct (strip p q) as [r|] eqn:E; [|by destruct Hs].
    apply strip_Some in E as ->. apply Forall_app in Hq as [Hp Hr]. eauto.
  - intros (Hp & r & -> & Hr & Hs). split; [by apply Forall_app|]. by rewrite strip_app.
Qed.

(** Two keys that diverge right away exclude a common first nibble. *)
Lemma cpl_cons_0 x a b : cpl (x :: a) (x :: b) ≠ 0%nat.
Proof. cbn. by rewrite Z.eqb_refl. Qed.

Lemma cpl_app c a b : cpl (c ++ a) (c ++ b) = (length c + cpl a b)%nat.
Proof. induction c as [|x c IH]; [done|]. cbn. rewrite Z.eqb_refl. by rewrite IH. Qed.

(** ** Canonical trees are determined by their contents *)

Definition same (t1 t2 : tree) : Prop := ∀ q, wf_nibs q → tget t1 q = tget t2 q.

Lemma same_has t1 t2 q : same t1 t2 → has t1 q → has t2 q.
Proof. intros Hs [Hq Hi]. split; [done|]. by rewrite <- Hs. Qed.

Lemma same_sym t1 t2 : same t1 t2 → same t2 t1.
Proof. intros Hs q Hq. by rewrite Hs. Qed.

(** A leaf has one key only; an extension or a branch has two. *)
Lemma leaf_not_other p v t :
  canon t → (∃ q1 q2, has t q1 ∧ has t q2 ∧ q1 ≠ q2) → ¬ same (TLeaf p v) t.
Proof.
  intros _ (q1 & q2 & H1 & H2 & Hne) Hs.
  assert (E : ∀ q, has t q → q = p).
  { intros q Hq. apply (same_has _ (TLeaf p v)) in Hq as [_ [x Hx]]; [|by apply same_sym].
    rewrite tget_leaf in Hx. by case_bool_decide. }
  apply Hne. rewrite (E _ H1), (E _ H2). done.
Qed.

Lemma ext_two p t : canon (TExt p t) → ∃ q1 q2, has (TExt p t) q1 ∧ has (TExt p t) q2 ∧ q1 ≠ q2 ∧ cpl q1 q2 = length p.
Proof.
  cbn [canon]. intros (_ & Hp & Hc & Hb). destruct t as [| | |ts bv]; try done.
  destruct (branch_diverges ts bv Hc) as (q1 & q2 & H1 & H2 & Hne & Hcp).
  exists (p ++ q1), (p ++ q2). split_and!.
  - apply ext_keys. eauto.
  - apply ext_keys. eauto.
  - intros E. by apply (inj (app p)) in E.
  - rewrite cpl_app, Hcp. lia.
Qed.

Lemma ext_not_branch p t ts bv : canon (TExt p t) → canon (TBranch ts bv) → ¬ same (TExt p t) (TBranch ts bv).
Proof.
  intros He Hb Hs. destruct (branch_diverges ts bv Hb) as (q1 & q2 & H1 & H2 & Hne & Hcp).
  apply (same_has _ (TExt p t)) in H1, H2; [|by apply same_sym..].
  apply ext_keys in H1 as (_ & r1 & -> & _), H2 as (_ & r2 & -> & _).
  destruct He as (Hp & _). destruct p; [done|]. by apply cpl_cons_0 in Hcp.
Qed.

(** The path of an extension is the longest common prefix of its keys. *)
Lemma ext_same_path p1 t1 p2 t2 :
  canon (TExt p1 t1) → canon (TExt p2 t2) → same (TExt p1 t1) (TExt p2 t2) → p1 = p2.
Proof.
  assert (G : ∀ p1 t1 p2 t2, canon (TExt p1 t1) → canon (TExt p2 t2) → same (TExt p1 t1) (TExt p2 t2) →
    (length p2 ≤ length p1)%nat ∧ ∃ q a b, q = p1 ++ a ∧ q = p2 ++ b).
  { clear. intros p1 t1 p2 t2 H1 H2 Hs. destruct (ext_two p1 t1 H1) as (q1 & q2 & K1 & K2 & _ & Hcp).
    pose proof K1 as K1'. apply (same_has _ _ _ Hs) in K1, K2.
    apply ext_keys in K1 as (_ & r1 & -> & _), K2 as (_ & r2 & -> & _). rewrite cpl_app in Hcp.
    apply ext_keys in K1' as (_ & r & E & _). split; [lia|]. eauto. }
  intros H1 H2 Hs. destruct (G _ _ _ _ H1 H2 Hs) as [L1 (q & a & b & -> & E)].
  destruct (G _ _ _ _ H2 H1 (same_sym _ _ Hs)) as [L2 _].
  apply (f_equal (take (length p1))) in E. rewrite take_app_length in E.
  rewrite take_app_length' in E by lia. done.
Qed.

Lemma same_ext p t1 t2 : wf_nibs p → same (TExt p t1) (TExt p t2) → same t1 t2.
Proof.
  intros Hp Hs q Hq. specialize (Hs (p ++ q)). rewrite !tget_ext, !strip_app in Hs. apply Hs.
  by apply Forall_app.
Qed.

Lemma canon_unique t1 t2 : canon t1 → canon t2 → same t1 t2 → t1 = t2.
Proof.
  revert t2. induction t1 as [|p ov|p t' IH|ts bv IH] using tree_ind'; intros t2 H1 H2 Hs; [done|..].
  - destruct t2 as [|p2 v2|p2 t2|ts2 bv2]; [done|..].
    + destruct H1 as [Hp _]. pose proof (Hs p Hp) as E. rewrite !tget_leaf in E.
      rewrite bool_decide_eq_true_2 in E by done. case_bool_decide; [|done]. congruence.
    + exfalso. eapply leaf_not_other; [apply H2| |done].
      destruct (ext_two p2 t2 H2) as (q1 & q2 & ? & ? & ? & _). eauto.
    + exfalso. eapply leaf_not_other; [apply H2| |done].
      destruct (branch_diverges ts2 bv2 H2) as (q1 & q2 & ? & ? & ? & _). eauto.
  - destruct t2 as [|p2 v2|p2 t2|ts2 bv2]; [done|..].
    + exfalso. eapply leaf_not_other; [apply H1| |by apply same_sym].
      destruct (ext_two p t' H1) as (q1 & q2 & ? & ? & ? & _). eauto.
    + assert (p = p2) as -> by by eapply ext_same_path. f_equal. apply IH; [apply H1|apply H2|].
      eapply same_ext; [|done]. apply H1.
    + exfalso. by eapply ext_not_branch.
  - destruct t2 as [|p2 v2|p2 t2|ts2 bv2]; [done|..].
    + exfalso. eapply leaf_not_other; [apply H1| |by apply same_sym].
      destruct (branch_diverges ts bv H1) as (q1 & q2 & ? & ? & ? & _). eauto.
    + exfalso. by eapply ext_not_branch; [..|apply same_sym].
    + apply canon_branch in H1 as (L1 & O1 & _ & _), H2 as (L2 & O2 & _ & _).
      f_equal; [|by apply (Hs [])]. apply list_eq. intros i.
      destruct (ts !! i) as [c1|] eqn:E1; destruct (ts2 !! i) as [c2|] eqn:E2; try done.
      2: { apply lookup_lt_Some in E1. apply lookup_ge_None in E2. lia. }
      2: { apply lookup_lt_Some in E2. apply lookup_ge_None in E1. lia. }
      f_equal. destruct (child_nibble i ts c1 L1 E1) as [Hi E1'], (child_nibble i ts2 c2 L2 E2) as [_ E2'].
      assert (Hc : same c1 c2).
      { intros q Hq. specialize (Hs (Z.of_nat i :: q)). rewrite !tget_branch, E1', E2' in Hs. apply Hs.
        by constructor. }
      rewrite Forall_lookup in IH, O1, O2.
      destruct (O1 _ _ E1) as [->|C1], (O2 _ _ E2) as [->|C2].
      * done.
      * destruct (canon_has c2 C2) as [q Hq]. apply (same_has _ TEmpty) in Hq as [_ [x Hx]]; [done|by apply same_sym].
      * destruct (canon_has c1 C1) as [q Hq]. apply (same_has _ TEmpty) in Hq as [_ [x Hx]]; done.
      * by apply (IH _ _ E1).
Qed.

Lemma ok_unique t1 t2 : ok t1 → ok t2 → same t1 t2 → t1 = t2.
Proof.
  intros [->|H1] [->|H2] Hs; [done| | |by apply canon_unique].
  - destruct (canon_has t2 H2) as [q Hq]. apply (same_has _ TEmpty) in Hq as [_ [x Hx]]; [done|by apply same_sym].
  - destruct (canon_has t1 H1) as [q Hq]. apply (same_has _ TEmpty) in Hq as [_ [x Hx]]; done.
Qed.

(** ** Deletion *)

Lemma tget_merge p t q : tget (merge p t) q = match strip p q with Some r => tget t r | None => None end.
Proof.
  destruct t as [|p' v|p' t'|ts bv]; cbn [merge]; [by destruct (strip p q)|..|done].
  - rewrite tget_leaf. destruct (strip p q) as [r|] eqn:E.
    + apply strip_Some in E as ->. rewrite tget_leaf. do 2 case_bool_decide; try done.
      * apply (inj (app p)) in H. done.
      * subst. done.
    + rewrite strip_None in E. rewrite bool_decide_eq_false_2; [done|apply E].
  - rewrite tget_ext. destruct (strip p q) as [r|] eqn:E.
    + apply strip_Some in E as ->. by rewrite strip_app_l.
    + rewrite strip_None in E. rewrite (proj2 (strip_None (p ++ p') q)); [done|].
      intros r ->. apply (E (p' ++ r)). by rewrite <- app_assoc.
Qed.

Lemma canon_merge p t : p ≠ [] → wf_path p → canon t → canon (merge p t).
Proof.
  intros Hne Hp Hc. destruct t as [|p' v|p' t'|ts bv]; [done|..]; cbn [merge canon] in *.
  - destruct Hc as [? ?]. split; [by apply Forall_app|done].
  - destruct Hc as (? & ? & ? & ?). split_and!; try done; [by destruct p|by apply Forall_app].
  - done.
Qed.

Lemma unoccupied ts i t : length ts = 16%nat → i ∉ occupied ts → ts !! i = Some t → t = TEmpty.
Proof.
  intros Hl Hi E. destruct (decide (t = TEmpty)); [done|]. destruct Hi. apply elem_of_occupied; eauto.
Qed.

Lemma collapse_spec ts v :
  wf_branch ts v → ok (collapse ts v) ∧ ∀ q, wf_nibs q → tget (collapse ts v) q = tget (TBranch ts v) q.
Proof.
  intros [Hl Hok Hv].
  assert (Hun : ∀ x r, is_nibble x → Z.to_nat x ∉ occupied ts → tget (TBranch ts v) (x :: r) = None).
  { intros x r Hx Hi. rewrite tget_branch. destruct (ts !! Z.to_nat x) as [t|] eqn:E; [|done].
    by rewrite (unoccupied ts _ t Hl Hi E). }
  pose proof (occupancy_occupied ts v Hl) as Hocc. unfold collapse.
  assert (Hbr : (2 ≤ occupancy ts v)%nat → ok (TBranch ts v) ∧ ∀ q, wf_nibs q → tget (TBranch ts v) q = tget (TBranch ts v) q)
    by (intros; split; [right; by apply canon_branch|done]).
  destruct (occupied ts) as [|i [|j l]] eqn:Eo; destruct v as [w|].
  - split; [right; by split; [constructor|]|]. intros q Hq. rewrite tget_leaf.
    destruct q as [|x r]; [done|]. apply Forall_cons in Hq as [Hx _].
    rewrite Hun by (done || by intros ?%elem_of_nil). by rewrite bool_decide_eq_false_2.
  - split; [by left|]. intros q Hq. destruct q as [|x r]; [done|]. apply Forall_cons in Hq as [Hx _].
    by rewrite Hun by (done || by intros ?%elem_of_nil).
  - apply Hbr. cbn in Hocc. lia.
  - assert (Hi : i ∈ occupied ts) by (rewrite Eo; apply elem_of_cons; by left).
    apply elem_of_occupied in Hi as (t & Et & Hne); [|done]. rewrite Et.
    destruct (child_nibble i ts t Hl Et) as [Hni Et'].
    rewrite Forall_lookup in Hok. destruct (Hok _ _ Et) as [->|Hc]; [done|]. split.
    + right. apply canon_merge; [done|by constructor|done].
    + intros q Hq. rewrite tget_merge. destruct q as [|x r]; [done|]. apply Forall_cons in Hq as [Hx _].
      cbn [strip]. destruct (Z.of_nat i =? x) eqn:Ex; simp_bool.
      * subst x. by rewrite tget_branch, Et'.
      * rewrite Hun; [done..|]. rewrite elem_of_cons, elem_of_nil. intros [E|?]; [|done]. apply Ex.
        unfold is_nibble in Hx. lia.
  - apply Hbr. cbn in Hocc. lia.
  - apply Hbr. cbn in Hocc. lia.
Qed.

Lemma tdelete_spec t path :
  ok t → wf_nibs path →
  let res := tdelete t path in
  (res.2 = true ↔ is_Some (tget t path)) ∧ (res.2 = false → res.1 = t) ∧ ok res.1 ∧
  ∀ q, wf_nibs q → tget res.1 q = if decide (q = path) then None else tget t q.
Proof.
  assert (Hsame : ∀ t path, ok t → tget t path = None →
    let res := (t, false) in
    (res.2 = true ↔ is_Some (tget t path)) ∧ (res.2 = false → res.1 = t) ∧ ok res.1 ∧
    ∀ q, wf_nibs q → tget res.1 q = if decide (q = path) then None else tget t q).
  { clear. intros t path Hok E. cbn. rewrite E. split; [split; [done|by intros []]|].
    split_and!; try done. intros q _. by destruct (decide (q = path)) as [->|]. }
  revert path. induction t as [|p ov|p t' IH|ts bv IH] using tree_ind'; intros path Hok Hpath.
  - by apply Hsame.
  - cbn [tdelete]. case_bool_decide as E.
    + cbn. rewrite bool_decide_eq_true_2 by done. split; [split; [by eexists|done]|].
      split_and!; [done|by left|]. intros q _. destruct (decide (q = path)); [done|]. by rewrite bool_decide_eq_false_2 by congruence.
    + apply Hsame; [done|]. by rewrite tget_leaf, bool_decide_eq_false_2.
  - cbn [tdelete]. destruct Hok as [Hok|Hok]; [done|]. pose proof Hok as Hok'.
    cbn [canon] in Hok. destruct Hok as (Hne & Hp & Hct & Hbr).
    destruct (strip p path) as [r|] eqn:E; [|apply Hsame; [by right|by rewrite tget_ext, E]].
    apply strip_Some in E as ->. apply Forall_app in Hpath as [_ Hr].
    destruct (IH r ltac:(by right) Hr) as (Hb & Hf & Hok2 & Hget). cbv zeta.
    destruct (tdelete t' r).2 eqn:Eb.
    + cbn [fst snd]. rewrite tget_ext, strip_app. split; [done|]. split_and!; [done| |].
      * destruct Hok2 as [->|Hc2]; [by left|]. right. by apply canon_merge.
      * intros q Hq. rewrite tget_merge, tget_ext. destruct (strip p q) as [s|] eqn:Es.
        -- apply strip_Some in Es as ->. apply Forall_app in Hq as [_ Hs]. rewrite Hget by done.
           destruct (decide (s = r)) as [->|]; [by rewrite decide_True|].
           rewrite decide_False; [done|]. intros E. by apply (inj (app p)) in E.
        -- by case_decide.
    + apply Hsame; [by right|]. rewrite tget_ext, strip_app. apply eq_None_not_Some. rewrite <- Hb. done.
  - destruct Hok as [Hok|Hok]; [done|]. pose proof Hok as Hcan. apply canon_branch in Hok as (Hl & Hcs & Hbv & Hocc).
    destruct path as [|x r].
    + cbn [tdelete]. destruct bv as [w|]; [|apply Hsame; [by right|done]].
      destruct (collapse_spec ts None) as [Hco Hcg]; [by split|]. cbn [fst snd]. split; [split; [by eexists|done]|].
      split_and!; [done|done|]. intros q Hq. rewrite Hcg by done. destruct q as [|y q]; [done|]. by rewrite decide_False, !tget_branch.
    + apply Forall_cons in Hpath as [Hx Hr]. rewrite tdelete_branch. cbv zeta.
      destruct (lookup_lt_is_Some_2 ts (Z.to_nat x) (nibble_lt x ts Hx Hl)) as [t' Ht']. rewrite Ht'.
      rewrite Forall_lookup in IH. destruct (IH _ _ Ht' r) as (Hb & Hf & Hok2 & Hget);
        [by apply (Forall_lookup_1 _ _ _ _ Hcs Ht')|done|].
      destruct (tdelete t' r).2 eqn:Eb.
      * destruct (collapse_spec (<[Z.to_nat x := (tdelete t' r).1]> ts) bv) as [Hco Hcg].
        { split; [by rewrite length_insert|by apply Forall_insert|done]. }
        cbn [fst snd]. rewrite tget_branch, Ht'. split; [done|]. split_and!; [done|done|].
        intros q Hq. rewrite Hcg by done. destruct q as [|y q]; [by rewrite decide_False|].
        apply Forall_cons in Hq as [Hy Hq]. rewrite !tget_branch. destruct (decide (x = y)) as [->|Hne].
        -- rewrite list_lookup_insert_eq by by apply nibble_lt. rewrite Hget, Ht' by done.
           destruct (decide (q = r)) as [->|]; [by rewrite decide_True|by rewrite decide_False by congruence].
        -- rewrite list_lookup_insert_ne by (intros E; by apply Hne, nibble_index).
           by rewrite decide_False by congruence.
      * apply Hsame; [by right|]. rewrite tget_branch, Ht'. apply eq_None_not_Some. rewrite <- Hb. done.
Qed.

End TrieTree.
