(* ===== verification/Trie.v ===== *)
(** * zbx-trie: the Merkle Patricia trie

    Models [crates/zbx-trie/src]: nodes and their RLP form ([node.rs]), the
    mutable trie with its database trait ([trie.rs]) and proof verification
    ([proof.rs]). Partial paths are lists of nibbles ([Nibbles]). A method
    with [&mut self] is a computation in the monad [TM], which threads the
    trie and stops at the first error, keeping the changes made so far. The
    recursions that follow node references take fuel: running out stands for
    the stack overflow of an endless descent. [keccak256] is a parameter. *)

From S2P Require Import Prelude.
From S2P Require Import U256.
From S2P Require Import EvmBase.
From S2P Require Import EvmHost.
From S2P Require Import Rlp.
From S2P Require Import Nibbles.

Module Trie.
Import EvmHost Nibbles.Nibbles.
#[local] Set Warnings "-register-all".

(** ** error.rs and lib.rs *)

Inductive TrieError :=
| MissingNode (h : bytes)
| RlpDecode
| RlpEncode
| InvalidProof
| KeyNotFound
| Database
| Inconsistent.

Definition EMPTY_ROOT : bytes :=
  [0x56; 0xe8; 0x1f; 0x17; 0x1b; 0xcc; 0x55; 0xa6; 0xff; 0x83; 0x45; 0xe6; 0x92; 0xc0; 0xf8; 0x6e;
   0x5b; 0x48; 0xe0; 0x1b; 0x99; 0x6c; 0xad; 0xc0; 0x01; 0x62; 0x2f; 0xb5; 0xe3; 0x63; 0xb4; 0x21].

(** ** node.rs *)

Inductive TrieNode :=
| NEmpty
| NLeaf (partial : list Z) (value : bytes)
| NExt (partial : list Z) (child : NodeRef)
| NBranch (children : list NodeRef) (value : option bytes)
with NodeRef : Type :=
| RHash (h : bytes)
| RInline (n : TrieNode)
| REmpty.

(** [RlpStream::out] of a stream with one open list, which never fails. *)
Definition stream_out (s : Rlp.RlpStream) : bytes :=
  match Rlp.out s with Ok b => b | _ => [] end.

Fixpoint encode (n : TrieNode) : bytes :=
  match n with
  | NEmpty => [0x80]
  | NLeaf partial value =>
      stream_out (Rlp.append value (Rlp.append (hp_encode partial true) Rlp.new_list))
  | NExt partial child =>
      stream_out (append_ref child (Rlp.append (hp_encode partial false) Rlp.new_list))
  | NBranch children value =>
      let s := fold_left (fun s c => append_ref c s) children Rlp.new_list in
      stream_out (match value with Some v => Rlp.append v s | None => Rlp.append [] s end)
  end
with append_ref (r : NodeRef) (s : Rlp.RlpStream) : Rlp.RlpStream :=
  match r with
  | RHash h => Rlp.append h s
  | RInline n => Rlp.append_raw (encode n) s
  | REmpty => Rlp.append [] s
  end.

(** [map_err(|e| TrieError::RlpDecode(..))] *)
Definition lift_rlp {A} (m : Rlp.res A) : outcome TrieError A :=
  match m with Ok a => Ok a | Err _ => Err RlpDecode | Panic => Panic end.

(** [rlp.val_at::<Vec<u8>>(i)] *)
Definition val_bytes (b : bytes) (i : Z) : Rlp.res bytes := @Rlp.val_at bytes Rlp.decodable_bytes b i.

(** [decode] with the decoder of inline nodes as an argument. *)
Section Decode.
Context (decode_inline : bytes → outcome TrieError TrieNode).

(** A child slot: an inline node, the empty string or a hash. *)
Definition decode_ref (item : bytes) : outcome TrieError NodeRef :=
  if Rlp.is_list item then let? n := decode_inline item in Ok (RInline n)
  else
    let? raw := lift_rlp (Rlp.as_bytes item) in
    match raw with
    | [] => Ok REmpty
    | _ => if Z.of_nat (length raw) =? 32 then Ok (RHash raw) else Err RlpDecode
    end.

Fixpoint decode_children (b : bytes) (slots : list nat) : outcome TrieError (list NodeRef) :=
  match slots with
  | [] => Ok []
  | i :: rest =>
      let? item := lift_rlp (Rlp.at_ b (Z.of_nat i)) in
      let? r := decode_ref item in
      let? rs := decode_children b rest in Ok (r :: rs)
  end.

Definition decode_step (b : bytes) : outcome TrieError TrieNode :=
  let? count := lift_rlp (Rlp.item_count b) in
  if count =? 0 then Ok NEmpty
  else if count =? 2 then
    let? path := lift_rlp (val_bytes b 0) in
    match hp_decode path with
    | None => Panic
    | Some (partial, is_leaf) =>
        if is_leaf : bool then
          let? value := lift_rlp (val_bytes b 1) in Ok (NLeaf partial value)
        else
          let? item := lift_rlp (Rlp.at_ b 1) in
          let? child := decode_ref item in Ok (NExt partial child)
    end
  else if count =? 17 then
    let? children := decode_children b (seq 0 16) in
    let? v := lift_rlp (val_bytes b 16) in
    Ok (NBranch children (match v with [] => None | _ => Some v end))
  else Err RlpDecode.
End Decode.

Fixpoint decode_fuel (fuel : nat) (b : bytes) : outcome TrieError TrieNode :=
  match fuel with O => Panic | S f => decode_step (decode_fuel f) b end.

Definition decode (b : bytes) : outcome TrieError TrieNode := decode_fuel (S (length b)) b.

(** ** trie.rs: the database trait *)

Class TrieDB (D : Type) := {
  db_get : D → bytes → outcome TrieError (option bytes);
  db_insert : D → bytes → bytes → outcome TrieError unit * D;
  db_contains : D → bytes → outcome TrieError bool
}.

Definition MemoryTrieDB : Type := gmap bytes bytes.

#[export] Instance memory_trie_db : TrieDB MemoryTrieDB := {|
  db_get s h := Ok (s !! h);
  db_insert s h v := (Ok tt, <[h := v]> s);
  db_contains s h := Ok (bool_decide (is_Some (s !! h)))
|}.

Record MutableTrie (D : Type) := mkTrie { root : bytes; db : D; cache : gmap bytes bytes }.
Arguments mkTrie {D} _ _ _.
Arguments root {D} _.
Arguments db {D} _.
Arguments cache {D} _.

(** ** The monad of [&mut self] methods *)

Definition TM (D A : Type) : Type := MutableTrie D → outcome TrieError A * MutableTrie D.

#[export] Instance TM_ret D : MRet (TM D) := fun A a s => (Ok a, s).
#[export] Instance TM_bind D : MBind (TM D) := fun A B k m s =>
  match m s with
  | (Ok a, s') => k a s'
  | (Err e, s') => (Err e, s')
  | (Panic, s') => (Panic, s')
  end.

Definition lift {D A} (m : outcome TrieError A) : TM D A := fun s => (m, s).
Definition tpanic {D A} : TM D A := fun s => (Panic, s).

(** ** The trie *)

Section MutableTrie.
Context `{Keccak} {D : Type} `{TrieDB D}.

Definition trie_new (d : D) : MutableTrie D := mkTrie EMPTY_ROOT d ∅.
Definition from_root (r : bytes) (d : D) : MutableTrie D := mkTrie r d ∅.

Definition cache_put (h b : bytes) : TM D unit :=
  fun s => (Ok tt, mkTrie (root s) (db s) (<[h := b]> (cache s))).

Definition store_node (n : TrieNode) : TM D NodeRef :=
  let encoded := encode n in
  if Z.of_nat (length encoded) <? 32 then mret (RInline n)
  else let h := keccak256 encoded in cache_put h encoded;; mret (RHash h).

(** The bytes stored under a hash: the cache, then the database. *)
Definition fetch (s : MutableTrie D) (h : bytes) : option bytes :=
  match cache s !! h with
  | Some b => Some b
  | None => match db_get (db s) h with Ok o => o | _ => None end
  end.

Definition resolve (s : MutableTrie D) (r : NodeRef) : outcome TrieError TrieNode :=
  match r with
  | REmpty => Ok NEmpty
  | RInline n => Ok n
  | RHash h =>
      if bool_decide (h = EMPTY_ROOT) then Ok NEmpty
      else match fetch s h with Some b => decode b | None => Err (MissingNode h) end
  end.

Definition resolve_m (r : NodeRef) : TM D TrieNode := fun s => (resolve s r, s).

Definition commit_root (n : TrieNode) : TM D bytes :=
  match n with
  | NEmpty => mret EMPTY_ROOT
  | _ => let encoded := encode n in
         let h := keccak256 encoded in cache_put h encoded;; mret h
  end.

Definition set_root (r : bytes) : TM D unit := fun s => (Ok tt, mkTrie r (db s) (cache s)).

(** [children[i] = r]: an index past 15 panics. *)
Definition set_child (i : Z) (r : NodeRef) (cs : list NodeRef) : TM D (list NodeRef) :=
  if (Z.to_nat i <? length cs)%nat then mret (<[Z.to_nat i := r]> cs) else tpanic.

Definition no_children : list NodeRef := replicate 16 REmpty.

(** Place a path and its value under a new branch: at the branch itself when
    the path ends there, in a new leaf otherwise. *)
Definition place_new (path : list Z) (cp : nat) (value : bytes) (cs : list NodeRef) (bv : option bytes)
    : TM D (list NodeRef * option bytes) :=
  if (cp =? length path)%nat then mret (cs, Some value)
  else match path !! cp with
       | None => tpanic
       | Some nibble =>
           r ← store_node (NLeaf (take (length path - cp - 1) (drop (cp + 1) path)) value);
           cs' ← set_child nibble r cs;
           mret (cs', bv)
       end.

(** The branch built by a split, under an extension if there is a common prefix. *)
Definition wrap_prefix (path : list Z) (cp : nat) (branch : TrieNode) : TM D TrieNode :=
  if (0 <? cp)%nat then r ← store_node branch; mret (NExt (take cp path) r) else mret branch.

(** [insert_node] on a leaf. *)
Definition insert_leaf (partial : list Z) (old_val : bytes) (path : list Z) (value : bytes) : TM D TrieNode :=
  let cp := cpl path partial in
  if (cp =? length partial)%nat && (cp =? length path)%nat then mret (NLeaf partial value) else
  csbv ← place_new partial cp old_val no_children None;
  csbv' ← place_new path cp value csbv.1 csbv.2;
  wrap_prefix path cp (NBranch csbv'.1 csbv'.2).

(** The split of an extension. *)
Definition split_ext (partial : list Z) (child : NodeRef) (path : list Z) (value : bytes) : TM D TrieNode :=
  let cp := cpl path partial in
  match partial !! cp with
  | None => tpanic
  | Some ext_nibble =>
      let ext_remaining :=
        if (cp + 1 <? length partial)%nat then take (length partial - cp - 1) (drop (cp + 1) partial) else [] in
      r ← match ext_remaining with [] => mret child | _ => store_node (NExt ext_remaining child) end;
      cs ← set_child ext_nibble r no_children;
      csbv ← place_new path cp value cs None;
      wrap_prefix path cp (NBranch csbv.1 csbv.2)
  end.

Fixpoint insert_node (fuel : nat) (node : TrieNode) (key : list Z) (depth : nat) (value : bytes)
    : TM D TrieNode :=
  match fuel with
  | O => tpanic
  | S f =>
      let path := drop depth key in
      match node with
      | NEmpty => mret (NLeaf path value)
      | NLeaf partial old_val => insert_leaf partial old_val path value
      | NExt partial child =>
          let cp := cpl path partial in
          if (cp =? length partial)%nat then
            child_node ← resolve_m child;
            new_child ← insert_node f child_node key (depth + cp) value;
            r ← store_node new_child;
            mret (NExt partial r)
          else split_ext partial child path value
      | NBranch cs bv =>
          if (depth =? length key)%nat then mret (NBranch cs (Some value))
          else match key !! depth with
               | None => tpanic
               | Some idx =>
                   match cs !! Z.to_nat idx with
                   | None => tpanic
                   | Some c =>
                       child_node ← resolve_m c;
                       new_child ← insert_node f child_node key (depth + 1) value;
                       r ← store_node new_child;
                       cs' ← set_child idx r cs;
                       mret (NBranch cs' bv)
                   end
               end
      end
  end.

(** The descent moves down the key at every step of a well-formed trie. *)
Definition descent_fuel (key : list Z) : nat := S (S (length key)).

Definition insert (key value : bytes) : TM D unit :=
  let nibbles := expand key in
  s ← (fun s => (Ok s, s));
  old_root ← (if bool_decide (root s = EMPTY_ROOT) then mret NEmpty else resolve_m (RHash (root s)));
  new_root ← insert_node (descent_fuel nibbles) old_root nibbles 0 value;
  r ← commit_root new_root;
  set_root r.

Fixpoint get_node (fuel : nat) (s : MutableTrie D) (r : NodeRef) (key : list Z) (depth : nat)
    : outcome TrieError (option bytes) :=
  match fuel with
  | O => Panic
  | S f =>
      let? node := resolve s r in
      match node with
      | NEmpty => Ok None
      | NLeaf partial value =>
          let path := drop depth key in
          if (cpl path partial =? length partial)%nat && (length partial =? length path)%nat
          then Ok (Some value) else Ok None
      | NExt partial child =>
          let path := drop depth key in
          let cp := cpl path partial in
          if (cp <? length partial)%nat then Ok None else get_node f s child key (depth + cp)
      | NBranch cs value =>
          if (depth =? length key)%nat then Ok value
          else match key !! depth with
               | None => Panic
               | Some idx =>
                   match cs !! Z.to_nat idx with
                   | None => Panic
                   | Some c => get_node f s c key (depth + 1)
                   end
               end
      end
  end.

Definition get (s : MutableTrie D) (key : bytes) : outcome TrieError (option bytes) :=
  if bool_decide (root s = EMPTY_ROOT) then Ok None
  else get_node (descent_fuel (expand key)) s (RHash (root s)) (expand key) 0.

(** Indices of the non-empty children. *)
Definition is_ref (o : option NodeRef) : bool :=
  match o with Some (RHash _) | Some (RInline _) => true | _ => false end.
Definition non_empty (cs : list NodeRef) : list nat :=
  filter (fun i => is_ref (cs !! i) = true) (seq 0 16).

Definition maybe_collapse_branch (cs : list NodeRef) (value : option bytes) : TM D TrieNode :=
  match non_empty cs, value with
  | [], None => mret NEmpty
  | [], Some v => mret (NLeaf [] v)
  | [idx], None =>
      match cs !! idx with
      | None => tpanic
      | Some c =>
          child_node ← resolve_m c;
          let prefix := [low (wrap8 (Z.of_nat idx))] in
          match child_node with
          | NLeaf partial v => mret (NLeaf (prefix ++ partial) v)
          | NExt partial child => mret (NExt (prefix ++ partial) child)
          | NBranch cs' v' => r ← store_node (NBranch cs' v'); mret (NExt prefix r)
          | NEmpty => mret NEmpty
          end
      end
  | _, _ => mret (NBranch cs value)
  end.

Fixpoint delete_node (fuel : nat) (node : TrieNode) (key : list Z) (depth : nat)
    : TM D (TrieNode * bool) :=
  match fuel with
  | O => tpanic
  | S f =>
      let path := drop depth key in
      match node with
      | NEmpty => mret (NEmpty, false)
      | NLeaf partial value =>
          if (length path =? length partial)%nat && (cpl path partial =? length partial)%nat
          then mret (NEmpty, true) else mret (NLeaf partial value, false)
      | NExt partial child =>
          let cp := cpl path partial in
          if negb (cp =? length partial)%nat then mret (NExt partial child, false) else
          child_node ← resolve_m child;
          res ← delete_node f child_node key (depth + length partial);
          if negb res.2 then mret (NExt partial child, false) else
          collapsed ← match res.1 with
                      | NEmpty => mret NEmpty
                      | NLeaf cp2 v => mret (NLeaf (partial ++ cp2) v)
                      | NExt cp2 gc => mret (NExt (partial ++ cp2) gc)
                      | NBranch cs v => r ← store_node (NBranch cs v); mret (NExt partial r)
                      end;
          mret (collapsed, true)
      | NBranch cs bv =>
          if (depth =? length key)%nat then
            match bv with
            | Some _ => collapsed ← maybe_collapse_branch cs None; mret (collapsed, true)
            | None => mret (NBranch cs None, false)
            end
          else match key !! depth with
               | None => tpanic
               | Some idx =>
                   match cs !! Z.to_nat idx with
                   | None => tpanic
                   | Some c =>
                       child_node ← resolve_m c;
                       res ← delete_node f child_node key (depth + 1);
                       if negb res.2 then mret (NBranch cs bv, false) else
                       r ← match res.1 with NEmpty => mret REmpty | other => store_node other end;
                       cs' ← set_child idx r cs;
                       collapsed ← maybe_collapse_branch cs' bv;
                       mret (collapsed, true)
                   end
               end
      end
  end.

Definition delete (key : bytes) : TM D bool :=
  s ← (fun s => (Ok s, s));
  if bool_decide (root s = EMPTY_ROOT) then mret false else
  old_root ← resolve_m (RHash (root s));
  res ← delete_node (descent_fuel (expand key)) old_root (expand key) 0;
  if negb res.2 then mret false else
  r ← commit_root res.1;
  set_root r;;
  mret true.

(** [commit]: drain the cache into the database, in iteration order [entries]. *)
Fixpoint commit_loop (entries : list (bytes * bytes)) (d : D) : outcome TrieError unit * D :=
  match entries with
  | [] => (Ok tt, d)
  | (h, b) :: rest =>
      match db_insert d h b with
      | (Ok _, d') => commit_loop rest d'
      | (Err e, d') => (Err e, d')
      | (Panic, d') => (Panic, d')
      end
  end.

Definition commit (entries : list (bytes * bytes)) : TM D bytes := fun s =>
  match commit_loop entries (db s) with
  | (Ok _, d') => (Ok (root s), mkTrie (root s) d' ∅)
  | (Err e, d') => (Err e, mkTrie (root s) d' ∅)
  | (Panic, d') => (Panic, mkTrie (root s) d' ∅)
  end.

(** ** proof.rs *)

Record MerkleProof := mkProof { pf_key : bytes; pf_value : option bytes; pf_nodes : list bytes }.

Definition opt_bytes_eqb (a b : option bytes) : bool := bool_decide (a = b).

Fixpoint verify_loop (nodes : list bytes) (expected_hash : bytes) (nibbles : list Z) (depth : nat)
    (expected_value : option bytes) : outcome TrieError bool :=
  match nodes with
  | [] => Ok false
  | encoded :: rest =>
      if negb (bool_decide (keccak256 encoded = expected_hash)) then Ok false else
      match decode encoded with
      | Err _ => Ok false
      | Panic => Panic
      | Ok node =>
          match node with
          | NLeaf partial value =>
              let cp := cpl (drop depth nibbles) partial in
              if (cp =? length partial)%nat && (depth + cp =? length nibbles)%nat
              then Ok (opt_bytes_eqb expected_value (Some value))
              else Ok (opt_bytes_eqb expected_value None)
          | NExt partial child =>
              let cp := cpl (drop depth nibbles) partial in
              if negb (cp =? length partial)%nat then Ok (opt_bytes_eqb expected_value None) else
              match child with
              | RHash h => verify_loop rest h nibbles (depth + cp) expected_value
              | REmpty => Ok (opt_bytes_eqb expected_value None)
              | RInline _ => Ok false
              end
          | NBranch cs value =>
              if (depth =? length nibbles)%nat then
                match rest with
                | [] => Ok (opt_bytes_eqb expected_value value)
                | _ => Ok false
                end
              else match nibbles !! depth with
                   | None => Panic
                   | Some idx =>
                       match cs !! Z.to_nat idx with
                       | None => Panic
                       | Some (RHash h) => verify_loop rest h nibbles (depth + 1) expected_value
                       | Some REmpty => Ok (opt_bytes_eqb expected_value None)
                       | Some (RInline _) => Ok false
                       end
                   end
          | NEmpty => Ok (opt_bytes_eqb expected_value None)
          end
      end
  end.

Definition verify_proof (r key : bytes) (expected_value : option bytes) (nodes : list bytes)
    : outcome TrieError bool :=
  match nodes with
  | [] => Ok (bool_decide (r = EMPTY_ROOT) && opt_bytes_eqb expected_value None)
  | _ => verify_loop nodes r (expand key) 0 expected_value
  end.

Definition proof_verify (p : MerkleProof) (r : bytes) : outcome TrieError bool :=
  verify_proof r (pf_key p) (pf_value p) (pf_nodes p).

(** [prove]: the walk down the trie, with the nodes pushed so far. *)
Fixpoint prove_loop (fuel : nat) (s : MutableTrie D) (current : NodeRef) (nibbles : list Z) (depth : nat)
    (nodes : list bytes) : outcome TrieError (option bytes * list bytes) :=
  match fuel with
  | O => Panic
  | S f =>
      let step node nodes :=
        match node with
        | NEmpty => Ok (None, nodes)
        | NLeaf partial v =>
            let path := drop depth nibbles in
            if (length path =? length partial)%nat && (cpl path partial =? length partial)%nat
            then Ok (Some v, nodes) else Ok (None, nodes)
        | NExt partial child =>
            let cp := cpl (drop depth nibbles) partial in
            if negb (cp =? length partial)%nat then Ok (None, nodes)
            else prove_loop f s child nibbles (depth + cp) nodes
        | NBranch cs v =>
            if (depth =? length nibbles)%nat then Ok (v, nodes)
            else match nibbles !! depth with
                 | None => Panic
                 | Some idx =>
                     match cs !! Z.to_nat idx with
                     | None => Panic
                     | Some c => prove_loop f s c nibbles (depth + 1) nodes
                     end
                 end
        end in
      match current with
      | REmpty => Ok (None, nodes)
      | RHash h =>
          if bool_decide (h = EMPTY_ROOT) then Ok (None, nodes)
          else match fetch s h with
               | None => Err (MissingNode h)
               | Some b => let? node := decode b in step node (nodes ++ [b])
               end
      | RInline n => step n nodes
      end
  end.

Definition prove (s : MutableTrie D) (key : bytes) : outcome TrieError MerkleProof :=
  let? r := prove_loop (descent_fuel (expand key)) s (RHash (root s)) (expand key) 0 [] in
  Ok (mkProof key r.1 r.2).

End MutableTrie.

End Trie.
