(* ===== verification/TrieProps.v ===== *)
(** * The trie implements a finite map

    Connects the hashed trie of [Trie] with the trees of [TrieTree]: the RLP
    form of a node decodes to the node, a trie whose store holds the nodes of
    a canonical tree behaves as that tree under lookup, insertion, deletion
    and proof verification, and its root hash is a function of the contents.
    Hash collisions are excluded for the nodes of the trees involved only
    ([apart]), a condition that concrete instances decide. *)

From S2P Require Import Prelude.
From S2P Require Import U256.
From S2P Require Import EvmBase.
From S2P Require Import EvmHost.
From S2P Require Import Rlp.
From S2P Require Import Nibbles.
From S2P Require Import TrieTree.
From S2P Require Import Trie.

Module TrieProps.
Import U256 EvmHost Nibbles.Nibbles TrieTree.TrieTree Trie.Trie.
#[local] Set Warnings "-clear-no-such-hyp,-register-all".

(** ** Nodes as lists of items *)

Definition ref_item (r : NodeRef) : bytes :=
  match r with
  | RHash h => Rlp.string_item h
  | RInline n => encode n
  | REmpty => Rlp.string_item []
  end.

Definition items (n : TrieNode) : list bytes :=
  match n with
  | NEmpty => []
  | NLeaf p v => [Rlp.string_item (hp_encode p true); Rlp.string_item v]
  | NExt p r => [Rlp.string_item (hp_encode p false); ref_item r]
  | NBranch rs v => map ref_item rs ++ [Rlp.string_item (default [] v)]
  end.

(** A stream with one open list. *)
Definition one_list (payload : bytes) : Rlp.RlpStream := Rlp.mkStream (replicate 9 0 ++ payload) [O].

Lemma stream_out_one payload : stream_out (one_list payload) = Rlp.list_item payload.
Proof.
  unfold stream_out, Rlp.out, one_list. cbn [Rlp.list_stack Rlp.out_loop].
  rewrite Rlp.finalize_single. done.
Qed.

Lemma append_one x payload : Rlp.append x (one_list payload) = one_list (payload ++ Rlp.string_item x).
Proof. unfold Rlp.append, Rlp.encode_string, one_list. cbn [Rlp.buf Rlp.list_stack]. by rewrite <- app_assoc. Qed.

Lemma append_ref_one r payload : append_ref r (one_list payload) = one_list (payload ++ ref_item r).
Proof.
  destruct r as [h|n|]; cbn [append_ref ref_item]; [apply append_one| |apply append_one].
  unfold Rlp.append_raw, one_list. cbn [Rlp.buf Rlp.list_stack]. by rewrite <- app_assoc.
Qed.

Lemma fold_append_refs rs payload :
  fold_left (fun s c => append_ref c s) rs (one_list payload) = one_list (payload ++ concat (map ref_item rs)).
Proof.
  revert payload. induction rs as [|r rs IH]; intros payload; cbn [fold_left map concat];
    [by rewrite app_nil_r|]. by rewrite append_ref_one, IH, <- app_assoc.
Qed.

Lemma encode_items n : n ≠ NEmpty → encode n = Rlp.list_item (concat (items n)).
Proof.
  change Rlp.new_list with (one_list []). intros Hn.
  destruct n as [|p v|p r|rs v]; [done|..]; cbn [encode items]; change Rlp.new_list with (one_list []).
  - by rewrite !append_one, stream_out_one, app_nil_l; cbn [concat]; rewrite app_nil_r.
  - by rewrite append_one, append_ref_one, stream_out_one, app_nil_l; cbn [concat]; rewrite app_nil_r.
  - rewrite fold_append_refs, app_nil_l, concat_app. cbn [concat]. rewrite app_nil_r.
    destruct v as [v|]; by rewrite append_one, stream_out_one.
Qed.

(** ** Strings and lists apart *)

Lemma is_list_string x : Rlp.rlp_len x < 2 ^ 63 → Rlp.is_list (Rlp.string_item x) = false.
Proof.
  intros Hx. destruct (Rlp.string_item_cases x) as [(b & -> & Hb & ->)|[[-> Hn]|[-> Hn]]]; cbn [Rlp.is_list].
  - apply Z.leb_gt. lia.
  - apply Z.leb_gt. lia.
  - destruct (Rlp.minimal_bytes_spec (Rlp.rlp_len x) ltac:(lia)) as (_ & _ & Hl & _).
    rewrite Rlp.wrap8_header by lia. apply Z.leb_gt. unfold Rlp.rlp_len at 1. lia.
Qed.

Lemma is_list_list p : Rlp.rlp_len p < 2 ^ 63 → Rlp.is_list (Rlp.list_item p) = true.
Proof.
  intros Hp. pose proof (Rlp.rlp_len_nonneg p).
  destruct (Rlp.list_item_cases p Hp) as [[-> _]|(lb & -> & Hl & _)]; cbn [Rlp.is_list]; apply Z.leb_le; lia.
Qed.

Lemma as_bytes_string x : wf_bytes x → Rlp.rlp_len x < 2 ^ 63 → Rlp.as_bytes (Rlp.string_item x) = Ok x.
Proof.
  intros Hw Hx. unfold Rlp.as_bytes. rewrite <- (app_nil_r (Rlp.string_item x)).
  by rewrite Rlp.split_payload_string_item.
Qed.

(** ** The hashed form of a tree *)

Section Hashed.
Context `{KO : KeccakOk}.

(** The reference [store_node] makes for a node. *)
Definition mkref (n : TrieNode) : NodeRef :=
  match n with
  | NEmpty => REmpty
  | _ => if Z.of_nat (length (encode n)) <? 32 then RInline n else RHash (keccak256 (encode n))
  end.

Fixpoint node_of (t : tree) : TrieNode :=
  match t with
  | TEmpty => NEmpty
  | TLeaf p v => NLeaf p v
  | TExt p t' => NExt p (mkref (node_of t'))
  | TBranch ts v => NBranch (map (fun t' => mkref (node_of t')) ts) v
  end.

Definition enc (t : tree) : bytes := encode (node_of t).
Definition ref (t : tree) : NodeRef := mkref (node_of t).

(** The root hash of a tree. *)
Definition root_of (t : tree) : bytes := match t with TEmpty => EMPTY_ROOT | _ => keccak256 (enc t) end.

(** Key lengths that fit in memory. *)
Definition small (t : tree) : Prop := ∀ q, has t q → Z.of_nat (length q) < 2 ^ 40.

Lemma small_ext p t : wf_nibs p → small (TExt p t) → small t.
Proof.
  intros Hp Hs q Hq. specialize (Hs (p ++ q)). rewrite length_app in Hs.
  assert (has (TExt p t) (p ++ q)) as Hh by (apply ext_keys; eauto). specialize (Hs Hh). lia.
Qed.

Lemma small_child ts v i t : length ts = 16%nat → ts !! i = Some t → small (TBranch ts v) → small t.
Proof.
  intros Hl E Hs q Hq. specialize (Hs _ (has_child ts v i t q Hl E Hq)). cbn [length] in Hs. lia.
Qed.

Lemma small_path t : canon t → small t →
  match t with TLeaf p _ | TExt p _ => Z.of_nat (length p) < 2 ^ 40 | _ => True end.
Proof.
  intros Hc Hs. destruct (canon_has t Hc) as [q Hq]. destruct t as [|p v|p t'|ts v]; try done.
  - specialize (Hs _ Hq). destruct Hq as [_ [x Hx]]. rewrite tget_leaf in Hx. case_bool_decide; [|done]. by subst.
  - specialize (Hs _ Hq). apply ext_keys in Hq as (_ & r & -> & _). rewrite length_app in Hs. lia.
Qed.

Lemma node_of_ne t : canon t → node_of t ≠ NEmpty.
Proof. by destruct t. Qed.

Lemma ref_canon t : canon t →
  ref t = if Z.of_nat (length (enc t)) <? 32 then RInline (node_of t) else RHash (keccak256 (enc t)).
Proof. intros Hc. unfold ref, mkref, enc. by destruct t. Qed.

(** The item of a child takes at most 41 bytes. *)
Lemma ref_item_len t : ok t → Rlp.rlp_len (ref_item (ref t)) ≤ 41.
Proof.
  intros [->|Hc]; [done|]. rewrite ref_canon by done. unfold Rlp.rlp_len. case_if; cbn [ref_item].
  - fold (enc t). lia.
  - pose proof (keccak_wf (enc t)) as [Hl _]. change 32%nat with (Z.to_nat 32) in Hl.
    pose proof (Rlp.length_string_item (keccak256 (enc t))) as Hs. unfold Rlp.rlp_len in Hs. lia.
Qed.

Lemma concat_len (l : list bytes) m :
  Forall (fun x => Rlp.rlp_len x ≤ m) l → Rlp.rlp_len (concat l) ≤ Z.of_nat (length l) * m.
Proof.
  induction 1 as [|x l Hx _ IH]; [done|]. cbn [concat length]. rewrite Rlp.rlp_len_app. lia.
Qed.

Lemma string_item_len x : Rlp.rlp_len x < 2 ^ 41 → Rlp.rlp_len (Rlp.string_item x) < 2 ^ 42.
Proof. intros Hx. pose proof (Rlp.length_string_item x ltac:(lia)). lia. Qed.

Lemma hp_len p leaf : wf_nibs p → Z.of_nat (length p) < 2 ^ 40 → Rlp.rlp_len (hp_encode p leaf) < 2 ^ 41.
Proof. intros Hp Hl. destruct (hp_roundtrip p leaf Hp) as (_ & _ & Hn & _). unfold Rlp.rlp_len. lia. Qed.

Lemma val_len (v : option bytes) : from_option wf_val True v → Rlp.rlp_len (default [] v) < 2 ^ 41.
Proof. destruct v as [v|]; [|done]. intros (_ & _ & Hl). cbn. unfold Rlp.rlp_len. lia. Qed.

Lemma items_len t : canon t → small t → Rlp.rlp_len (concat (items (node_of t))) < 2 ^ 50.
Proof.
  intros Hc Hs. pose proof (small_path t Hc Hs) as Hp. destruct t as [|p v|p t'|ts v]; [done|..];
    cbn [node_of items concat].
  - destruct Hc as [Hw Hv]. rewrite !Rlp.rlp_len_app.
    pose proof (string_item_len _ (hp_len p true Hw Hp)).
    pose proof (string_item_len v (val_len (Some v) Hv)). change (Rlp.rlp_len []) with 0. lia.
  - cbn [canon] in Hc. destruct Hc as (_ & Hw & Hc & _). rewrite !Rlp.rlp_len_app.
    pose proof (string_item_len _ (hp_len p false Hw Hp)).
    pose proof (ref_item_len t' ltac:(by right)). fold (ref t'). change (Rlp.rlp_len []) with 0. lia.
  - apply canon_branch in Hc as (Hl & Hok & Hv & _). rewrite concat_app, Rlp.rlp_len_app. cbn [concat].
    rewrite app_nil_r. pose proof (string_item_len _ (val_len v Hv)).
    assert (Rlp.rlp_len (concat (map ref_item (map (fun t' => mkref (node_of t')) ts))) ≤ Z.of_nat 16 * 41); [|lia].
    rewrite map_map. rewrite <- Hl, <- (length_map (fun x => ref_item (mkref (node_of x))) ts).
    apply concat_len, Forall_fmap. eapply Forall_impl; [apply Hok|]. intros t' Ht'. by apply ref_item_len.
Qed.

Lemma enc_list t : canon t → enc t = Rlp.list_item (concat (items (node_of t))).
Proof. intros Hc. apply encode_items. by apply node_of_ne. Qed.

Lemma delimited_ref t : ok t → small t → Rlp.delimited (ref_item (ref t)).
Proof.
  intros [->|Hc] Hs; [apply Rlp.delimited_string; constructor|]. rewrite ref_canon by done. case_if; cbn [ref_item].
  - fold (enc t). rewrite enc_list by done. apply Rlp.delimited_list.
    pose proof (items_len t Hc Hs). lia.
  - apply Rlp.delimited_string. apply (keccak_wf (enc t)).
Qed.

Lemma hp_item p leaf : wf_nibs p → Z.of_nat (length p) < 2 ^ 40 →
  Rlp.as_bytes (Rlp.string_item (hp_encode p leaf)) = Ok (hp_encode p leaf) ∧
  hp_decode (hp_encode p leaf) = Some (p, leaf) ∧ Rlp.delimited (Rlp.string_item (hp_encode p leaf)).
Proof.
  intros Hw Hl. destruct (hp_roundtrip p leaf Hw) as (Hd & Hb & _). pose proof (hp_len p leaf Hw Hl).
  split_and!; [apply as_bytes_string; [done|lia]|done|by apply Rlp.delimited_string].
Qed.

Lemma val_item (v : option bytes) : from_option wf_val True v →
  Rlp.as_bytes (Rlp.string_item (default [] v)) = Ok (default [] v) ∧
  Rlp.delimited (Rlp.string_item (default [] v)).
Proof.
  intros Hv. pose proof (val_len v Hv). assert (wf_bytes (default [] v)).
  { destruct v as [v|]; [apply Hv|constructor]. }
  split; [apply as_bytes_string; [done|lia]|by apply Rlp.delimited_string].
Qed.

Lemma items_delimited t : canon t → small t → Forall Rlp.delimited (items (node_of t)).
Proof.
  intros Hc Hs. pose proof (small_path t Hc Hs) as Hp. destruct t as [|p v|p t'|ts v]; [done|..];
    cbn [node_of items].
  - destruct Hc as [Hw Hv]. destruct (hp_item p true Hw Hp) as (_ & _ & Hd).
    destruct (val_item (Some v) Hv) as [_ Hd']. by rewrite !Forall_cons.
  - cbn [canon] in Hc. destruct Hc as (_ & Hw & Hc & _). destruct (hp_item p false Hw Hp) as (_ & _ & Hd).
    rewrite !Forall_cons. split_and!; [done| |done]. fold (ref t'). apply delimited_ref; [by right|by apply (small_ext p)].
  - apply canon_branch in Hc as (Hl & Hok & Hv & _). destruct (val_item v Hv) as [_ Hd].
    apply Forall_app. split; [|by rewrite Forall_cons]. rewrite map_map. apply Forall_fmap, Forall_lookup.
    intros i t' Hi. apply delimited_ref; [by eapply Forall_lookup_1|by eapply small_child].
Qed.

(** An inline child is shorter than its parent. *)
Lemma item_shorter t x : canon t → small t → x ∈ items (node_of t) → (length x < length (enc t))%nat.
Proof.
  intros Hc Hs Hx. rewrite enc_list by done. pose proof (items_len t Hc Hs) as Hl.
  pose proof (Rlp.list_item_len (concat (items (node_of t))) ltac:(lia)) as Hle.
  apply list_elem_of_split in Hx as (l1 & l2 & E). rewrite E in *.
  rewrite concat_app in *. cbn [concat] in *. unfold Rlp.rlp_len in *. rewrite !length_app in *. lia.
Qed.

(** A decoder of inline nodes that handles one tree. *)
Definition decodes (dec : bytes → outcome TrieError TrieNode) (t : tree) : Prop :=
  canon t → (length (enc t) < 32)%nat → dec (enc t) = Ok (node_of t).

Lemma decode_ref_item dec t :
  ok t → small t → decodes dec t → decode_ref dec (ref_item (ref t)) = Ok (ref t).
Proof.
  intros [->|Hc] Hs Hd; [done|]. rewrite ref_canon by done. unfold decode_ref. destruct (_ <? 32) eqn:E; cbn [ref_item].
  - fold (enc t). rewrite (enc_list t) at 1 by done. rewrite is_list_list by (pose proof (items_len t Hc Hs); lia).
    rewrite Hd by (done || simp_bool; lia). done.
  - pose proof (keccak_wf (enc t)) as [Hl Hw]. assert (Rlp.rlp_len (keccak256 (enc t)) = 32) as Hr
      by (unfold Rlp.rlp_len; rewrite Hl; done).
    rewrite is_list_string by lia. rewrite as_bytes_string by (done || lia). cbn [lift_rlp outcome_bind].
    destruct (keccak256 (enc t)) as [|b r] eqn:Ek; [done|]. unfold Rlp.rlp_len in Hr.
    rewrite (proj2 (Z.eqb_eq _ _)) by done. done.
Qed.

Lemma decode_children_items dec b (ts : list tree) k :
  Forall ok ts → Forall small ts → Forall (decodes dec) ts →
  (∀ i t, ts !! i = Some t → Rlp.at_ b (Z.of_nat (k + i)) = Ok (ref_item (ref t))) →
  decode_children dec b (seq k (length ts)) = Ok (map ref ts).
Proof.
  revert k. induction ts as [|t ts IH]; intros k Ho Hs Hd Hi; [done|].
  apply Forall_cons in Ho as [Ho Hos], Hs as [Hs Hss], Hd as [Hd Hds].
  cbn [length seq decode_children map]. pose proof (Hi 0%nat t eq_refl) as H0. rewrite Nat.add_0_r in H0.
  rewrite H0. cbn [lift_rlp outcome_bind]. rewrite decode_ref_item by done. cbn [outcome_bind].
  rewrite IH; [done..|]. intros i t' E. replace (S k + i)%nat with (k + S i)%nat by lia. by apply (Hi (S i)).
Qed.

Lemma decode_step_enc dec t : canon t → small t →
  match t with
  | TExt _ t' => decodes dec t'
  | TBranch ts _ => Forall (decodes dec) ts
  | _ => True
  end → decode_step dec (enc t) = Ok (node_of t).
Proof.
  intros Hc Hs Hd. pose proof (small_path t Hc Hs) as Hp. pose proof (items_len t Hc Hs) as Hl.
  destruct (Rlp.list_items_decode (items (node_of t)) (items_delimited t Hc Hs) ltac:(lia)) as [Hn Hat].
  rewrite <- enc_list in Hn, Hat by done. unfold decode_step, val_bytes, Rlp.val_at, Rlp.decode_from,
    Rlp.decodable_bytes. rewrite Hn. cbn [lift_rlp outcome_bind].
  destruct t as [|p v|p t'|ts v]; [done|..]; cbn [node_of items] in *.
  - destruct Hc as [Hw Hv]. destruct (hp_item p true Hw Hp) as (Ha & Hh & _).
    destruct (val_item (Some v) Hv) as [Hb _]. change (Z.of_nat (length [_; _])) with 2. cbn [Z.eqb Pos.eqb].
    rewrite (Hat 0%nat : Rlp.at_ _ 0 = _), (Hat 1%nat : Rlp.at_ _ 1 = _). cbn [lookup list_lookup outcome_bind].
    rewrite Ha. cbn [lift_rlp outcome_bind]. rewrite Hh. cbn [default] in Hb. change (id v) with v in Hb. by rewrite Hb.
  - cbn [canon] in Hc. destruct Hc as (_ & Hw & Hc & _). destruct (hp_item p false Hw Hp) as (Ha & Hh & _).
    change (Z.of_nat (length [_; _])) with 2. cbn [Z.eqb Pos.eqb].
    rewrite (Hat 0%nat : Rlp.at_ _ 0 = _), (Hat 1%nat : Rlp.at_ _ 1 = _). cbn [lookup list_lookup outcome_bind].
    rewrite Ha. cbn [lift_rlp outcome_bind]. rewrite Hh. cbn [lift_rlp outcome_bind]. fold (ref t').
    rewrite decode_ref_item; [done|by right|by apply (small_ext p)|done].
  - apply canon_branch in Hc as (Hts & Hok & Hv & _). destruct (val_item v Hv) as [Hb _].
    rewrite length_app, !length_map, Hts. change (Z.of_nat (16 + length [_])) with 17. cbn [Z.eqb Pos.eqb].
    rewrite (Hat 16%nat : Rlp.at_ _ 16 = _), lookup_app_r, !length_map, Hts by (rewrite !length_map; lia).
    cbn [lookup list_lookup Nat.sub outcome_bind].
    replace (seq 0 16) with (seq 0 (length ts)) by (by rewrite Hts). rewrite decode_children_items; [|done| |done|].
    + cbn [outcome_bind]. rewrite Hb. cbn [lift_rlp outcome_bind]. do 2 f_equal.
      destruct v as [[|]|]; try done. by destruct Hv.
    + apply Forall_lookup. intros i t' Hi. by eapply small_child.
    + intros i t' Hi. rewrite Hat, lookup_app_l, map_map.
      * change (map ?f ts) with (f <$> ts). rewrite list_lookup_fmap. cbn. by rewrite Hi.
      * rewrite !length_map. by eapply lookup_lt_Some.
Qed.

Lemma inline_item t : canon t → (length (enc t) < 32)%nat → ref_item (ref t) = enc t.
Proof. intros Hc Hl. rewrite ref_canon by done. rewrite (proj2 (Z.ltb_lt _ _)) by lia. done. Qed.

(** The RLP form of a canonical tree decodes to its node. *)
Lemma decode_fuel_enc t : canon t → small t →
  ∀ f, (length (enc t) < f)%nat → decode_fuel f (enc t) = Ok (node_of t).
Proof.
  induction t as [|p v|p t' IH|ts v IH] using tree_ind'; intros Hc Hs [|f] Hf; try lia; [done|..];
    cbn [decode_fuel]; apply decode_step_enc; try done.
  - intros Hc' Hl'. pose proof (item_shorter (TExt p t') (ref_item (ref t')) Hc Hs ltac:(set_solver)) as Hi.
    rewrite inline_item in Hi by done. apply IH; [done| |lia].
    apply (small_ext p); [apply Hc|done].
  - apply Forall_lookup. intros i t' Hi Hc' Hl'. pose proof (canon_wf_branch _ _ Hc) as [Hts Hok _].
    assert (ref_item (ref t') ∈ items (node_of (TBranch ts v))) as Hin.
    { cbn [node_of items]. apply elem_of_app. left. rewrite map_map. apply list_elem_of_fmap. exists t'.
      split; [done|]. by eapply list_elem_of_lookup_2. }
    apply (item_shorter _ _ Hc Hs) in Hin. rewrite inline_item in Hin by done.
    eapply Forall_lookup_1 in IH; [|done]. apply IH; [done|by eapply small_child|lia].
Qed.

Lemma decode_enc t : canon t → small t → decode (enc t) = Ok (node_of t).
Proof. intros. apply decode_fuel_enc; [done..|lia]. Qed.

(** ** Subtrees *)

(** The non-empty subtrees, the tree itself included. *)
Fixpoint subs (t : tree) : list tree :=
  match t with
  | TEmpty => []
  | TLeaf _ _ => [t]
  | TExt _ t' => t :: subs t'
  | TBranch ts _ => t :: concat (map subs ts)
  end.

Definition kids (t : tree) : list tree :=
  match t with
  | TExt _ t' => subs t'
  | TBranch ts _ => concat (map subs ts)
  | _ => []
  end.

Lemma subs_kids t u : u ∈ subs t ↔ (u = t ∧ t ≠ TEmpty) ∨ u ∈ kids t.
Proof. destruct t; cbn [subs kids]; rewrite ?elem_of_cons, ?elem_of_nil; naive_solver. Qed.

Lemma elem_of_kids_branch ts v u : u ∈ kids (TBranch ts v) ↔ ∃ t', t' ∈ ts ∧ u ∈ subs t'.
Proof.
  cbn [kids]. rewrite list_elem_of_In, in_concat. setoid_rewrite <- list_elem_of_In. split.
  - intros (l & (t' & -> & Ht')%list_elem_of_fmap & Hu). eauto.
  - intros (t' & Ht' & Hu). exists (subs t'). split; [|done]. apply list_elem_of_fmap. eauto.
Qed.

Lemma child_subs ts v t' : t' ∈ ts → subs t' ⊆ kids (TBranch ts v).
Proof. intros Ht u Hu. apply elem_of_kids_branch. eauto. Qed.

Lemma kids_subs t : kids t ⊆ subs t.
Proof. intros u Hu. apply subs_kids. by right. Qed.

Lemma self_subs t : t ≠ TEmpty → t ∈ subs t.
Proof. intros Ht. apply subs_kids. by left. Qed.

Lemma self_canon t : canon t → t ∈ subs t.
Proof. intros Hc. apply self_subs. by destruct t. Qed.

(** ** The node store *)

Section Store.
Context {D : Type} `{!TrieDB D}.

(** A store serves a subtree: nodes below 32 bytes are inlined in their parents. *)
Definition stored (s : MutableTrie D) (t : tree) : Prop :=
  (32 ≤ length (enc t))%nat → fetch s (keccak256 (enc t)) = Some (enc t).

Definition full (s : MutableTrie D) (t : tree) : Prop := ∀ u, u ∈ subs t → stored s u.
Definition inner (s : MutableTrie D) (t : tree) : Prop := ∀ u, u ∈ kids t → stored s u.
Definition held (s : MutableTrie D) (ts : list tree) : Prop := ∀ t, t ∈ ts → full s t.

Lemma full_inner s t : full s t ↔ inner s t ∧ (t ≠ TEmpty → stored s t).
Proof.
  unfold full, inner. setoid_rewrite subs_kids. split; [|by intros [Hi Hs] u [[-> ?]|?]; auto]. auto.
Qed.

Lemma inner_branch s ts v : inner s (TBranch ts v) ↔ held s ts.
Proof. unfold inner, held, full. setoid_rewrite elem_of_kids_branch. naive_solver. Qed.

(** No two of the trees collide, and none hashes to the empty root. *)
Definition apart (U : list tree) : Prop :=
  Forall (fun u => keccak256 (enc u) ≠ EMPTY_ROOT ∧
                   Forall (fun v => keccak256 (enc u) = keccak256 (enc v) → enc u = enc v) U) U.

(** Decided on the list of hashes and encodings, computed once. *)
Definition apart_on (L : list (bytes * bytes)) : Prop :=
  Forall (fun p => p.1 ≠ EMPTY_ROOT ∧ Forall (fun q => p.1 = q.1 → p.2 = q.2) L) L.

Lemma apart_hashed U : apart U ↔ apart_on (map (fun u => (keccak256 (enc u), enc u)) U).
Proof.
  unfold apart, apart_on. change (map ?f U) with (f <$> U). rewrite Forall_fmap. apply Forall_proper; [|done].
  intros u. cbn. by rewrite Forall_fmap.
Qed.

#[export] Instance apart_on_dec L : Decision (apart_on L).
Proof. apply Forall_dec. intros u. apply and_dec; [apply not_dec, decide|apply Forall_dec]; apply _. Defined.

#[export] Instance apart_dec U : Decision (apart U).
Proof.
  destruct (decide (apart_on (map (fun u => (keccak256 (enc u), enc u)) U))) as [Ha|Ha]; [left|right];
    by rewrite apart_hashed.
Defined.

Lemma apart_mono U V : U ⊆ V → apart V → apart U.
Proof.
  unfold apart. setoid_rewrite Forall_forall. intros Hs Ha u Hu. destruct (Ha u (Hs u Hu)) as [He Hi].
  split; [done|]. rewrite Forall_forall in *. auto.
Qed.

Lemma resolve_ref s t : ok t → small t → (canon t → stored s t ∧ keccak256 (enc t) ≠ EMPTY_ROOT) →
  resolve s (ref t) = Ok (node_of t).
Proof.
  intros [->|Hc] Hsm Hst; [done|]. destruct (Hst Hc) as [Hf He]. rewrite ref_canon by done.
  destruct (_ <? 32) eqn:E; cbn [resolve]; [done|]. rewrite bool_decide_eq_false_2 by done.
  simp_bool. rewrite Hf by lia. by apply decode_enc.
Qed.

(** ** Running a step within a set of subtrees *)

Section Runs.
Context (U : list tree) (HU : apart U).

Lemma apart_inj u v : u ∈ U → v ∈ U → keccak256 (enc u) = keccak256 (enc v) → enc u = enc v.
Proof.
  intros Hu Hv. unfold apart in HU. rewrite Forall_forall in HU. destruct (HU u Hu) as [_ Hi].
  rewrite Forall_forall in Hi. auto.
Qed.

Lemma apart_root u : u ∈ U → keccak256 (enc u) ≠ EMPTY_ROOT.
Proof. intros Hu. unfold apart in HU. rewrite Forall_forall in HU. by destruct (HU u Hu). Qed.

(** The root and the database stay, and no node of [U] is lost. *)
Record frame (s s' : MutableTrie D) : Prop := {
  fr_root : root s' = root s;
  fr_db : db s' = db s;
  fr_fetch : ∀ u, u ∈ U → fetch s (keccak256 (enc u)) = Some (enc u) → fetch s' (keccak256 (enc u)) = Some (enc u)
}.

#[export] Instance frame_preorder : PreOrder frame.
Proof. split; [by split|]. intros s1 s2 s3 [] []. split; [congruence..|auto]. Qed.

Lemma fr_stored s s' u : frame s s' → u ∈ U → stored s u → stored s' u.
Proof. intros [_ _ Hf] Hu Hs Hl. auto. Qed.

Lemma frame_full s s' t : frame s s' → subs t ⊆ U → full s t → full s' t.
Proof. intros Hf HtU Ht u Hu. apply (fr_stored _ _ _ Hf); [by apply HtU|by apply Ht]. Qed.

Lemma frame_held s s' ts : frame s s' → (∀ t, t ∈ ts → subs t ⊆ U) → held s ts → held s' ts.
Proof. intros Hf HtU Hh t Ht. eapply frame_full; eauto. Qed.

Definition runs {A} (m : TM D A) (s : MutableTrie D) (a : A) (Q : MutableTrie D → Prop) : Prop :=
  ∃ s', m s = (Ok a, s') ∧ frame s s' ∧ Q s'.

Lemma runs_ret {A} (a : A) s (Q : MutableTrie D → Prop) : Q s → runs (mret a) s a Q.
Proof. intros HQ. by exists s. Qed.

Lemma runs_bind {A B} (m : TM D A) (k : A → TM D B) s a b P Q :
  runs m s a P → (∀ s', frame s s' → P s' → runs (k a) s' b Q) → runs (m ≫= k) s b Q.
Proof.
  intros (s1 & E & Hf & HP) Hk. destruct (Hk s1 Hf HP) as (s2 & E2 & Hf2 & HQ).
  exists s2. split_and!; [|by trans s1|done]. unfold mbind, TM_bind. by rewrite E.
Qed.

Lemma runs_impl {A} (m : TM D A) s a (P Q : MutableTrie D → Prop) :
  runs m s a P → (∀ s', frame s s' → P s' → Q s') → runs m s a Q.
Proof. intros (s' & E & Hf & HP) HQ. exists s'. eauto. Qed.

Lemma runs_resolve s t : ok t → small t → subs t ⊆ U → full s t →
  runs (resolve_m (ref t)) s (node_of t) (fun s' => s' = s).
Proof.
  intros Ho Hs HtU Hf. exists s. unfold resolve_m. split_and!; [|done..]. f_equal. apply resolve_ref; [done..|].
  intros Hc. assert (t ∈ subs t) by (apply self_subs; by destruct t).
  split; [by apply Hf|by apply apart_root, HtU].
Qed.

Lemma frame_put s t : t ∈ U → frame s (mkTrie (root s) (db s) (<[keccak256 (enc t) := enc t]> (cache s))).
Proof.
  intros Ht. split; [done..|]. intros u Hu Hs. unfold fetch in *. cbn [cache db].
  destruct (decide (keccak256 (enc t) = keccak256 (enc u))) as [E|E].
  - rewrite E, lookup_insert_eq. f_equal. by apply apart_inj.
  - by rewrite lookup_insert_ne.
Qed.

Lemma runs_store s t : canon t → t ∈ U → inner s t → kids t ⊆ U →
  runs (store_node (node_of t)) s (ref t) (fun s' => full s' t).
Proof.
  intros Hc Ht Hi HkU. rewrite ref_canon by done. unfold store_node. fold (enc t).
  destruct (_ <? 32) eqn:E; simp_bool.
  - apply runs_ret. apply full_inner. split; [done|]. intros _ Hl. lia.
  - eexists. split; [done|]. split; [by apply frame_put|]. intros u [[-> _]|Hu]%subs_kids.
    + intros _. unfold fetch. cbn [cache]. by rewrite lookup_insert_eq.
    + apply (fr_stored _ _ _ (frame_put s t Ht)); [by apply HkU|by apply Hi].
Qed.

(** ** Insertion *)

Lemma runs_set_child s x t (ts : list tree) :
  is_nibble x → length ts = 16%nat →
  runs (set_child x (ref t) (map ref ts)) s (map ref (<[Z.to_nat x := t]> ts)) (fun s' => s' = s).
Proof.
  intros Hx Hl. unfold set_child. rewrite length_map, (proj2 (Nat.ltb_lt _ _)) by by apply nibble_lt.
  change (map ref ?l) with (ref <$> l). rewrite list_fmap_insert. by apply runs_ret.
Qed.

Lemma held_insert s i t ts : held s ts → full s t → held s (<[i := t]> ts).
Proof.
  intros Hh Ht u Hu. apply list_elem_of_lookup in Hu as [j Hj].
  apply list_lookup_insert_Some in Hj as [(-> & -> & _)|[_ Hj]]; [done|].
  apply Hh. by eapply list_elem_of_lookup_2.
Qed.

Lemma plant_elem a v ts bv u :
  free a ts bv → u ∈ ts → u ≠ TEmpty → u ∈ (plant a v (ts, bv)).1.
Proof.
  destruct a as [|x r]; [done|]. cbn [free plant fst]. intros Hf Hu Hne.
  apply list_elem_of_lookup in Hu as [j Hj]. apply (list_elem_of_lookup_2 _ j).
  rewrite list_lookup_insert_ne; [done|]. intros <-. congruence.
Qed.

Lemma plant_leaf x r v ts bv :
  is_nibble x → length ts = 16%nat → TLeaf r v ∈ (plant (x :: r) v (ts, bv)).1.
Proof.
  intros Hx Hl. cbn [plant fst]. apply (list_elem_of_lookup_2 _ (Z.to_nat x)).
  apply list_lookup_insert_eq. by apply nibble_lt.
Qed.

Lemma runs_place c a v ts bv s :
  wf_path a → wf_val v → length ts = 16%nat → (∀ t, t ∈ ts → subs t ⊆ U) →
  match a with [] => True | _ :: r => TLeaf r v ∈ U end → held s ts →
  runs (place_new (c ++ a) (length c) v (map ref ts) bv) s
    (map ref (plant a v (ts, bv)).1, (plant a v (ts, bv)).2) (fun s' => held s' (plant a v (ts, bv)).1).
Proof.
  intros Ha Hv Hl HtU HaU Hh. unfold place_new. rewrite length_app.
  destruct a as [|x r]; cbn [plant fst snd length].
  - rewrite Nat.add_0_r, Nat.eqb_refl. by apply runs_ret.
  - rewrite (proj2 (Nat.eqb_neq _ _)) by lia. rewrite lookup_app_r, Nat.sub_diag by lia.
    apply wf_path_cons in Ha as [Hx Hr]. cbn [lookup list_lookup].
    replace (take _ (drop (length c + 1) (c ++ x :: r))) with r.
    2:{ rewrite drop_app_ge by lia. replace (length c + 1 - length c)%nat with 1%nat by lia. cbn [drop].
        rewrite drop_0, take_ge; [done|lia]. }
    change (NLeaf r v) with (node_of (TLeaf r v)). eapply runs_bind.
    { apply runs_store; [done|done|by intros ? ?%elem_of_nil|by intros ? ?%elem_of_nil]. }
    intros s1 Hf Hfull. cbn beta. eapply runs_bind; [by apply runs_set_child|]. intros s2 _ ->.
    apply runs_ret. apply held_insert; [by eapply frame_held|done].
Qed.

Lemma runs_wrap c a ts bv s :
  canon (TBranch ts bv) → TBranch ts bv ∈ U → held s ts → (∀ t, t ∈ ts → subs t ⊆ U) →
  runs (wrap_prefix (c ++ a) (length c) (NBranch (map ref ts) bv)) s
    (node_of (wrap (c ++ a) (length c) (TBranch ts bv)))
    (fun s' => inner s' (wrap (c ++ a) (length c) (TBranch ts bv))).
Proof.
  intros Hc HU' Hh HtU. unfold wrap_prefix, wrap. destruct c as [|x c]; cbn [length Nat.ltb Nat.leb].
  - apply runs_ret. by apply inner_branch.
  - change (NBranch (map ref ts) bv) with (node_of (TBranch ts bv)). eapply runs_bind.
    { apply runs_store; [done..|by apply inner_branch|]. intros u (t & Ht & Hu)%elem_of_kids_branch.
      by apply (HtU t). }
    intros s1 _ Hfull. apply runs_ret. exact Hfull.
Qed.

Lemma wrap_subs c a ts bv : subs (TBranch ts bv) ⊆ subs (wrap (c ++ a) (length c) (TBranch ts bv)).
Proof.
  unfold wrap. destruct c as [|x c]; [done|]. cbn [length subs].
  intros u Hu. apply elem_of_cons. by right.
Qed.

Lemma branch_in ts bv : subs (TBranch ts bv) ⊆ U →
  TBranch ts bv ∈ U ∧ ∀ t, t ∈ ts → subs t ⊆ U.
Proof.
  intros HbU. split; [apply HbU, self_subs; done|]. intros t Ht u Hu.
  apply HbU, kids_subs. by apply (child_subs ts bv t Ht).
Qed.

Lemma plant_in a v ts bv t :
  free a ts bv → (∀ u, u ∈ (plant a v (ts, bv)).1 → subs u ⊆ U) → t ∈ ts → subs t ⊆ U.
Proof.
  intros Hf HpU Ht. destruct (decide (t = TEmpty)) as [->|Hne]; [intros ? ?%elem_of_nil; done|].
  by apply HpU, plant_elem.
Qed.

Lemma leaf_in a v ts bv :
  wf_path a → length ts = 16%nat → (∀ u, u ∈ (plant a v (ts, bv)).1 → subs u ⊆ U) →
  match a with [] => True | _ :: r => TLeaf r v ∈ U end.
Proof.
  intros Ha Hl HpU. destruct a as [|x r]; [done|]. apply wf_path_cons in Ha as [Hx _].
  apply (HpU (TLeaf r v)); [by apply plant_leaf|]. by apply self_subs.
Qed.

Lemma canon_unwrap c a ts bv : canon (wrap (c ++ a) (length c) (TBranch ts bv)) → canon (TBranch ts bv).
Proof. unfold wrap. destruct c as [|x c]; [done|]. cbn [length]. by intros (_ & _ & ? & _). Qed.

Lemma held_blank s : held s blank.
Proof. intros t [-> _]%elem_of_replicate u ?%elem_of_nil. done. Qed.

Lemma plant_length a v ts bv : length (plant a v (ts, bv)).1 = length ts.
Proof. destruct a; [done|]. cbn. by rewrite length_insert. Qed.

(** Finish a split: the branch is built, the path is planted and the prefix wrapped. *)
Lemma runs_finish c a v ts bv s :
  let P := plant a v (ts, bv) in
  let t := wrap (c ++ a) (length c) (TBranch P.1 P.2) in
  wf_path a → wf_val v → length ts = 16%nat → free a ts bv → canon t → subs t ⊆ U → held s ts →
  runs (csbv ← place_new (c ++ a) (length c) v (map ref ts) bv;
        wrap_prefix (c ++ a) (length c) (NBranch csbv.1 csbv.2)) s (node_of t) (fun s' => inner s' t).
Proof.
  intros P t Ha Hv Hl Hf Hcan HtU Hh.
  destruct (branch_in P.1 P.2) as [HbU HcU]; [by intros u Hu; apply HtU, wrap_subs|].
  eapply runs_bind.
  - apply (runs_place c a v ts bv); try done; [|by eapply leaf_in]. intros t' Ht'. by eapply plant_in.
  - intros s1 _ Hh1. apply runs_wrap; [by eapply canon_unwrap|done..].
Qed.

Lemma runs_insert_leaf p ov path v s :
  let t := tinsert (TLeaf p ov) path v in
  wf_path p → wf_val ov → wf_path path → wf_val v → subs t ⊆ U →
  runs (insert_leaf p ov path v) s (node_of t) (fun s' => inner s' t).
Proof.
  intros t Hp Hov Hpath Hv HtU. subst t. unfold insert_leaf. destruct (decide (path = p)) as [->|Hne].
  - cbn [tinsert]. rewrite bool_decide_eq_true_2 by done.
    assert (cpl p p = length p) as -> by (apply cpl_full; exists []; by rewrite app_nil_r).
    rewrite Nat.eqb_refl. apply runs_ret. by intros u ?%elem_of_nil.
  - destruct (leaf_split path p ov v Hpath Hp Hov Hv Hne) as [Hcan _].
    cbn [tinsert] in *. rewrite bool_decide_eq_false_2 in * by done.
    destruct (cpl_split path p) as (c & a & b & -> & -> & Hcp & Hd). rewrite Hcp in *.
    apply wf_path_app in Hpath as [_ Ha]. apply wf_path_app in Hp as [_ Hb].
    assert (parted a b) as Hpt by (split; [congruence|done]).
    replace (_ && _) with false.
    2:{ rewrite !length_app. symmetry. apply andb_false_iff. rewrite !Nat.eqb_neq.
        destruct Hpt as [Hab _]. destruct a, b; cbn [length]; try done; lia. }
    rewrite !place_plant in *. pose proof (free_parted a b ov Ha Hb Hpt) as Hfa.
    set (Q := plant b ov (blank, None)) in *. assert (length Q.1 = 16%nat) as HQ by (by unfold Q; rewrite plant_length).
    rewrite (surjective_pairing Q) in HtU, Hcan |- *.
    destruct (branch_in (plant a v (Q.1, Q.2)).1 (plant a v (Q.1, Q.2)).2) as [_ HcU];
      [by intros u Hu; apply HtU, wrap_subs|].
    assert (∀ u, u ∈ Q.1 → subs u ⊆ U) as HqU by (intros u Hu; by eapply plant_in).
    eapply runs_bind.
    + apply (runs_place c b ov blank None); [done..| |by apply (leaf_in b ov blank None)|apply held_blank].
      intros u [-> _]%elem_of_replicate ? ?%elem_of_nil. done.
    + intros s1 _ Hh1. cbn [fst snd]. by apply runs_finish.
Qed.

Lemma runs_split_ext p t' path v x s :
  let t := tinsert (TExt p t') path v in
  canon (TExt p t') → wf_path path → wf_val v → p !! cpl path p = Some x → subs t ⊆ U → full s t' →
  runs (split_ext p (ref t') path v) s (node_of t) (fun s' => inner s' t).
Proof.
  intros t Hc Hpath Hv Hx HtU Hfull. subst t. destruct (ext_split p t' path v x Hc Hpath Hv Hx) as [Hcan _].
  unfold split_ext. cbn [tinsert] in *. rewrite Hx in *.
  destruct (cpl_split path p) as (c & a & b0 & -> & -> & Hcp & Hd). rewrite Hcp in *.
  rewrite lookup_app_r, Nat.sub_diag in Hx by lia. destruct b0 as [|y b]; [done|]. injection Hx as ->.
  cbn [canon] in Hc. destruct Hc as (_ & Hp & Hc & Hbr). apply wf_path_app in Hpath as [_ Ha].
  destruct (wf_path_suffix _ _ _ Hp) as [Hnx Hb].
  assert (drop (S (length c)) (c ++ x :: b) = b) as Hdrop.
  { rewrite drop_app_ge by lia. replace (S (length c) - length c)%nat with 1%nat by lia. cbn. by rewrite drop_0. }
  rewrite Hdrop in *. rewrite place_plant in *.
  replace (if (_ <? _)%nat then _ else []) with b.
  2:{ rewrite Nat.add_1_r, Hdrop, length_app. cbn [length]. destruct b as [|z b].
      - by rewrite (proj2 (Nat.ltb_ge _ _)) by (cbn; lia).
      - rewrite (proj2 (Nat.ltb_lt _ _)) by (cbn; lia). rewrite take_ge; [done|cbn; lia]. }
  set (ts1 := <[Z.to_nat x := ext_child b t']> blank) in *.
  assert (free a ts1 None) as Hfa.
  { apply free_next; [done..|]. destruct a; [done|]. congruence. }
  destruct (branch_in (plant a v (ts1, None)).1 (plant a v (ts1, None)).2) as [_ HcU];
    [by intros u Hu; apply HtU, wrap_subs|].
  assert (canon (ext_child b t')) as Hec by (destruct b; [done|by cbn [ext_child canon]]).
  assert (length ts1 = 16%nat) as Hl1 by (by unfold ts1; rewrite length_insert).
  assert (ext_child b t' ∈ ts1) as Hin.
  { apply (list_elem_of_lookup_2 _ (Z.to_nat x)), list_lookup_insert_eq. by apply nibble_lt. }
  assert (subs (ext_child b t') ⊆ U) as HeU by (by eapply plant_in).
  eapply (runs_bind _ _ _ (ref (ext_child b t')) _ (fun s' => full s' (ext_child b t'))).
  { destruct b as [|z b]; [by apply runs_ret|].
    change (NExt (z :: b) (ref t')) with (node_of (TExt (z :: b) t')).
    apply runs_store; [done|by apply HeU, self_subs|done|]. intros u Hu. by apply HeU, kids_subs. }
  intros s1 _ Hf1. eapply runs_bind.
  { change no_children with (map ref blank). by apply runs_set_child. }
  intros s2 _ ->. apply runs_finish; try done. apply held_insert; [apply held_blank|done].
Qed.

(** The key at a depth, and what is below it. *)
Lemma drop_cases (key : list Z) depth : (depth ≤ length key)%nat →
  (depth = length key ∧ drop depth key = []) ∨
  (∃ x, depth ≠ length key ∧ key !! depth = Some x ∧ drop depth key = x :: drop (depth + 1) key).
Proof.
  intros Hd. destruct (decide (depth = length key)) as [->|Hne]; [left; by rewrite drop_all|right].
  destruct (lookup_lt_is_Some_2 key depth ltac:(lia)) as [x Hx]. exists x. split_and!; [done..|].
  rewrite Nat.add_1_r. by apply drop_S.
Qed.

(** What insertion does at one node, for use by the parents. *)
Definition inserts (t : tree) : Prop := ∀ f key depth v s,
  let path := drop depth key in
  let t' := tinsert t path v in
  (depth ≤ length key)%nat → (length path < f)%nat →
  ok t → small t → wf_path path → wf_val v → subs t ⊆ U → subs t' ⊆ U → inner s t →
  runs (insert_node f (node_of t) key depth v) s (node_of t') (fun s' => inner s' t').

Lemma runs_insert_ext p t1 : inserts t1 → inserts (TExt p t1).
Proof.
  intros IH [|f] key depth v s path t' Hd Hf Ho Hsm Hpath Hv HtU Ht'U Hi; [lia|]. subst t'.
  cbn [insert_node node_of]. fold path. destruct Ho as [|Hc]; [done|]. fold (ref t1).
  assert (full s t1) as Hfull by done.
  destruct (p !! cpl path p) as [x|] eqn:Hx.
  { rewrite (proj2 (Nat.eqb_neq _ _)) by (apply lookup_lt_Some in Hx; lia). by eapply runs_split_ext. }
  pose proof (cpl_le path p). pose proof (lookup_ge_None_1 _ _ Hx).
  rewrite (proj2 (Nat.eqb_eq _ _)) by lia. cbn [tinsert] in *. rewrite Hx in *.
  assert (drop (depth + cpl path p) key = drop (cpl path p) path) as Ed by (unfold path; by rewrite drop_drop).
  assert (length path = length key - depth)%nat as Hlp by (unfold path; by rewrite length_drop).
  assert (wf_path (drop (cpl path p) path)) as Hwd by (by apply Forall_drop).
  cbn [canon] in Hc. destruct Hc as (Hne & Hp & Hc1 & Hbr).
  eapply runs_bind. { apply runs_resolve; [by right|by apply (small_ext p)| |done]. intros u Hu. by apply HtU, kids_subs. }
  intros s1 _ ->. rewrite <- Ed in *. eapply runs_bind.
  { apply (IH f key (depth + cpl path p)%nat v s); try done.
    - lia.
    - rewrite Ed, length_drop. destruct p; [done|]. cbn [length] in *. lia.
    - by right.
    - by apply (small_ext p).
    - intros u Hu. by apply HtU, kids_subs.
    - intros u Hu. by apply Ht'U, kids_subs.
    - intros u Hu. by apply Hfull, kids_subs. }
  intros s2 _ Hi2. set (t2 := tinsert t1 _ v) in *.
  assert (canon t2) as Hc2 by (apply tinsert_spec; [by right|done..]).
  eapply runs_bind.
  { apply (runs_store s2 t2); [done| |done|].
    - apply Ht'U, kids_subs. apply self_subs. apply tinsert_ne.
    - intros u Hu. by apply Ht'U, kids_subs, kids_subs. }
  intros s3 _ Hf3. apply runs_ret. exact Hf3.
Qed.

Lemma runs_insert_branch ts bv : Forall inserts ts → inserts (TBranch ts bv).
Proof.
  intros IH [|f] key depth v s path t' Hd Hf Ho Hsm Hpath Hv HtU Ht'U Hi; [lia|]. subst t'.
  cbn [insert_node node_of]. destruct Ho as [|Hc]; [done|]. change (map _ ts) with (map ref ts).
  pose proof (canon_wf_branch _ _ Hc) as [Hl Hok _]. rewrite Forall_lookup in Hok, IH.
  destruct (drop_cases key depth Hd) as [[-> E]|(x & Hne & Hx & E)]; fold path in E; rewrite E in *;
    cbn [tinsert] in *.
  { rewrite Nat.eqb_refl. apply runs_ret. exact Hi. }
  rewrite (proj2 (Nat.eqb_neq _ _) Hne), Hx. apply wf_path_cons in Hpath as [Hnx Hr].
  destruct (lookup_lt_is_Some_2 ts (Z.to_nat x) (nibble_lt x ts Hnx Hl)) as [t1 Ht1].
  rewrite (alter_insert _ _ _ _ Ht1) in *. change (map ref ts) with (ref <$> ts).
  rewrite list_lookup_fmap, Ht1. cbn [fmap option_fmap option_map]. change (ref <$> ts) with (map ref ts).
  assert (Ht1' : t1 ∈ ts) by (by eapply list_elem_of_lookup_2).
  destruct (branch_in ts bv HtU) as [_ HcU]. apply inner_branch in Hi as Hh.
  set (t2 := tinsert t1 _ v) in *. destruct (branch_in _ _ Ht'U) as [_ HcU'].
  assert (subs t2 ⊆ U) as H2U.
  { apply HcU', (list_elem_of_lookup_2 _ (Z.to_nat x)), list_lookup_insert_eq. by apply nibble_lt. }
  assert (canon t2) as Hc2 by (apply tinsert_spec; [by eapply Hok|done..]).
  pose proof (lookup_lt_Some _ _ _ Hx). pose proof (Hok _ _ Ht1) as Ho1.
  pose proof (small_child ts bv _ t1 Hl Ht1 Hsm) as Hs1.
  eapply runs_bind. { apply runs_resolve; [done..|by apply HcU|by apply Hh]. }
  intros s1 _ ->. eapply runs_bind.
  { apply (IH _ _ Ht1 f key (depth + 1)%nat v s); try done; [lia|cbn [length] in Hf; lia|by apply HcU|].
    intros u Hu. by apply (Hh t1), kids_subs. }
  intros s2 Hf2 Hi2. eapply runs_bind.
  { apply (runs_store s2 t2); [done|by apply H2U, self_subs, tinsert_ne|done|].
    intros u Hu. by apply H2U, kids_subs. }
  intros s3 Hf3 Hfull3. eapply runs_bind; [by apply runs_set_child|]. intros s4 _ ->.
  apply runs_ret. apply inner_branch, held_insert; [|done].
  apply (frame_held s2); [done..|]. by apply (frame_held s).
Qed.

Lemma runs_insert_node t : inserts t.
Proof.
  induction t as [|p ov|p t1 IH|ts bv IH] using tree_ind'.
  - intros [|f] key depth v s path t' Hd Hf **; [lia|]. apply runs_ret. by intros u ?%elem_of_nil.
  - intros [|f] key depth v s path t' Hd Hf Ho **; [lia|]. destruct Ho as [|[Hp Hov]]; [done|].
    by apply runs_insert_leaf.
  - by apply runs_insert_ext.
  - by apply runs_insert_branch.
Qed.

(** ** Lookup *)

Lemma leaf_match (path p : list Z) :
  (cpl path p =? length p)%nat && (length p =? length path)%nat = bool_decide (path = p).
Proof.
  destruct (cpl path p =? length p)%nat eqn:E; cbn [andb].
  - apply Nat.eqb_eq, cpl_full in E as [r ->]. rewrite length_app. destruct r as [|x r]; cbn [length].
    + by rewrite app_nil_r, Nat.add_0_r, Nat.eqb_refl, bool_decide_eq_true_2.
    + rewrite (proj2 (Nat.eqb_neq _ _)), bool_decide_eq_false_2; [done| |lia].
      intros E. apply (f_equal length) in E. rewrite length_app in E. cbn in E. lia.
  - symmetry. apply bool_decide_eq_false_2. intros ->. apply Nat.eqb_neq in E. apply E, cpl_full.
    exists []. by rewrite app_nil_r.
Qed.

Lemma strip_cpl (p path : list Z) :
  strip p path = if (cpl path p =? length p)%nat then Some (drop (length p) path) else None.
Proof.
  destruct (_ =? _)%nat eqn:E.
  - apply Nat.eqb_eq, cpl_full in E as [r ->]. rewrite strip_app. by rewrite drop_app_length.
  - apply strip_None. intros r ->. apply Nat.eqb_neq in E. apply E, cpl_full. by exists r.
Qed.

Lemma get_node_spec t key depth f s r :
  let path := drop depth key in
  (depth ≤ length key)%nat → (length path < f)%nat →
  ok t → small t → wf_path path → subs t ⊆ U → inner s t → resolve s r = Ok (node_of t) →
  get_node f s r key depth = Ok (tget t path).
Proof.
  revert f depth r. induction t as [|p v|p t1 IH|ts bv IH] using tree_ind';
    intros [|f] depth r path Hd Hf Ho Hsm Hpath HtU Hi Hr; try lia; cbn [get_node]; rewrite Hr;
    cbn [outcome_bind node_of tget]; fold path.
  - done.
  - rewrite leaf_match. by case_bool_decide.
  - destruct Ho as [|Hc]; [done|]. rewrite strip_cpl. destruct (cpl_le path p) as [Hcl Hcp].
    destruct (Nat.eqb_spec (cpl path p) (length p)) as [E|E].
    + rewrite (proj2 (Nat.ltb_ge _ _)) by lia. fold (ref t1). cbn [canon] in Hc. destruct Hc as (Hne & Hp & Hc & _).
      assert (length path = length key - depth)%nat as Hlp by (unfold path; by rewrite length_drop).
      assert (drop (depth + cpl path p) key = drop (length p) path) as Ed by (rewrite E; unfold path; by rewrite drop_drop).
      rewrite <- Ed. apply IH; try done.
      * lia.
      * rewrite Ed, length_drop. destruct p; [done|]. cbn [length] in *. lia.
      * by right.
      * by apply (small_ext p).
      * rewrite Ed. by apply Forall_drop.
      * intros u Hu. by apply HtU, kids_subs.
      * intros u Hu. by apply Hi, kids_subs.
      * destruct (runs_resolve s t1) as (s' & Es & _); [by right|by apply (small_ext p)| |done|].
        { intros u Hu. by apply HtU, kids_subs. } by injection Es.
    + by rewrite (proj2 (Nat.ltb_lt _ _)) by lia.
  - destruct Ho as [|Hc]; [done|]. change (map _ ts) with (ref <$> ts).
    pose proof (canon_wf_branch _ _ Hc) as [Hl Hok _]. rewrite Forall_lookup in Hok, IH.
    destruct (drop_cases key depth Hd) as [[-> E]|(x & Hne & Hx & E)]; fold path in E; rewrite E in *.
    + by rewrite Nat.eqb_refl.
    + rewrite (proj2 (Nat.eqb_neq _ _) Hne), Hx. apply wf_path_cons in Hpath as [Hnx Hrest].
      destruct (lookup_lt_is_Some_2 ts (Z.to_nat x) (nibble_lt x ts Hnx Hl)) as [t1 Ht1].
      rewrite list_lookup_fmap, Ht1. cbn [fmap option_fmap option_map].
      assert (Ht1' : t1 ∈ ts) by (by eapply list_elem_of_lookup_2).
      destruct (branch_in ts bv HtU) as [_ HcU]. apply inner_branch in Hi as Hh.
      pose proof (tget_branch ts bv x (drop (depth + 1) key)) as Eg. rewrite Ht1 in Eg. cbn [tget] in Eg. rewrite Eg.
      pose proof (lookup_lt_Some _ _ _ Hx). apply (IH _ _ Ht1); try done.
      * lia.
      * cbn [length] in Hf. lia.
      * by eapply Hok.
      * by eapply small_child.
      * by apply HcU.
      * intros u Hu. by apply (Hh t1), kids_subs.
      * destruct (runs_resolve s t1) as (s' & Es & _); [by eapply Hok|by eapply small_child|by apply HcU|by apply Hh|].
        by injection Es.
Qed.

(** ** Deletion *)

Lemma non_empty_occupied ts : non_empty (map ref ts) = occupied ts.
Proof.
  unfold non_empty, occupied. apply filter_ext_in. intros i _. change (map ref ts) with (ref <$> ts).
  rewrite list_lookup_fmap. destruct (ts !! i) as [t|]; cbn; [|naive_solver].
  destruct t; cbn [is_emptyb ref mkref node_of is_ref]; try (by case_if); naive_solver.
Qed.

Lemma collapse_full ts v : length ts = 16%nat → (2 ≤ occupancy ts v)%nat → collapse ts v = TBranch ts v.
Proof.
  intros Hl Ho. rewrite occupancy_occupied in Ho by done. unfold collapse.
  destruct (occupied ts) as [|i [|j l]], v; cbn in Ho; (done || lia).
Qed.

Lemma low_index i : (i < 16)%nat → low (wrap8 (Z.of_nat i)) = Z.of_nat i.
Proof.
  intros Hi. unfold low, wrap8. rewrite Z.mod_small by lia. change 0x0f with (Z.ones 4).
  rewrite Z.land_ones, Z.mod_small by lia. done.
Qed.

Lemma runs_collapse ts bv s :
  wf_branch ts bv → (∀ t, t ∈ ts → small t ∧ subs t ⊆ U) → held s ts → kids (collapse ts bv) ⊆ U →
  runs (maybe_collapse_branch (map ref ts) bv) s (node_of (collapse ts bv))
    (fun s' => inner s' (collapse ts bv)).
Proof.
  intros [Hl Hok Hv] HtU Hh HcU. unfold maybe_collapse_branch, collapse in *. rewrite non_empty_occupied.
  pose proof (fun i => proj1 (elem_of_occupied ts i Hl)) as Hin.
  assert (∀ v, inner s (TBranch ts v)) as Hb by (intros v; by apply inner_branch).
  destruct (occupied ts) as [|i [|j l]] eqn:Eo; destruct bv as [w|];
    try (apply runs_ret; first [exact (Hb _) | by intros u ?%elem_of_nil]).
  destruct (Hin i) as (t & Et & Hne); [apply elem_of_cons; by left|]. rewrite Et in *.
  change (map ref ts) with (ref <$> ts). rewrite list_lookup_fmap, Et. cbn [fmap option_fmap option_map].
  pose proof (list_elem_of_lookup_2 _ _ _ Et) as Hmem. destruct (HtU t Hmem) as [Hsm HsU].
  pose proof (lookup_lt_Some _ _ _ Et) as Hi. rewrite Hl in Hi.
  rewrite Forall_lookup in Hok. destruct (Hok _ _ Et) as [|Hc]; [done|].
  eapply runs_bind; [apply runs_resolve; [by right|done..|by apply Hh]|]. intros s1 _ ->.
  rewrite low_index by done. pose proof (Hh t Hmem) as Hf.
  destruct t as [|q w|q t1|ts1 w]; [done|..]; cbn [node_of merge] in *.
  - apply runs_ret. by intros u ?%elem_of_nil.
  - apply runs_ret. intros u Hu. by apply Hf, kids_subs.
  - change (NBranch _ w) with (node_of (TBranch ts1 w)).
    eapply runs_bind.
    { apply runs_store; [done|by apply HsU, self_subs| |].
      - intros u Hu. by apply Hf, kids_subs.
      - intros u Hu. by apply HsU, kids_subs. }
    intros s2 _ Hf2. apply runs_ret. exact Hf2.
Qed.

Lemma small_delete t path : ok t → wf_nibs path → small t → small (tdelete t path).1.
Proof.
  intros Ho Hp Hs q [Hq Hg]. destruct (tdelete_spec t path Ho Hp) as (_ & _ & _ & Hget).
  rewrite Hget in Hg by done. case_decide; [by destruct Hg|]. by apply Hs.
Qed.

Lemma kids_merge p t : kids t ⊆ kids (merge p t).
Proof. destruct t; cbn [merge]; try done. intros u Hu. by apply kids_subs. Qed.

(** The path of an extension is rejoined with what deletion leaves below. *)
Lemma runs_merge p t s :
  ok t → kids (merge p t) ⊆ U → inner s t →
  runs (match node_of t with
        | NEmpty => mret NEmpty
        | NLeaf cp2 v => mret (NLeaf (p ++ cp2) v)
        | NExt cp2 gc => mret (NExt (p ++ cp2) gc)
        | NBranch cs v => r ← store_node (NBranch cs v); mret (NExt p r)
        end) s (node_of (merge p t)) (fun s' => inner s' (merge p t)).
Proof.
  intros Ho HU' Hi. destruct t as [|q v|q t1|ts v]; cbn [node_of merge] in *.
  - by apply runs_ret.
  - apply runs_ret. by intros u ?%elem_of_nil.
  - by apply runs_ret.
  - destruct Ho as [|Hc]; [done|]. change (NBranch _ v) with (node_of (TBranch ts v)).
    eapply runs_bind.
    { apply runs_store; [done|by apply HU', self_subs|done|]. intros u Hu. by apply HU', kids_subs. }
    intros s1 _ Hf. apply runs_ret. exact Hf.
Qed.

(** The new reference of a child that lost a path. *)
Lemma runs_restore t s :
  ok t → subs t ⊆ U → inner s t →
  runs (match node_of t with NEmpty => mret REmpty | other => store_node other end) s (ref t)
    (fun s' => full s' t).
Proof.
  intros Ho HU' Hi. destruct (decide (t = TEmpty)) as [->|Hne].
  - apply runs_ret. by intros u ?%elem_of_nil.
  - destruct Ho as [|Hc]; [done|]. replace (match node_of t with NEmpty => _ | _ => _ end) with (store_node (D := D) (node_of t)).
    + apply runs_store; [done|by apply HU', self_subs|done|]. intros u Hu. by apply HU', kids_subs.
    + by destruct t.
Qed.

Lemma frame_inner s s' t : frame s s' → kids t ⊆ U → inner s t → inner s' t.
Proof. intros Hf HtU Ht u Hu. apply (fr_stored _ _ _ Hf); [by apply HtU|by apply Ht]. Qed.

(** What deletion does at one node, for use by the parents. *)
Definition deletes (t : tree) : Prop := ∀ f key depth s,
  let path := drop depth key in
  let res := tdelete t path in
  (depth ≤ length key)%nat → (length path < f)%nat →
  ok t → small t → wf_path path → subs t ⊆ U → kids res.1 ⊆ U → inner s t →
  runs (delete_node f (node_of t) key depth) s (node_of res.1, res.2) (fun s' => inner s' res.1).

Lemma runs_delete_ext p t1 : deletes t1 → deletes (TExt p t1).
Proof.
  intros IH [|f] key depth s path res Hd Hf Ho Hsm Hpath HtU HrU Hi; [lia|]. subst res.
  cbn [delete_node node_of tdelete] in *. fold path. destruct Ho as [|Hc]; [done|].
  rewrite strip_cpl in *. destruct (cpl_le path p) as [Hcl Hcp].
  destruct (Nat.eqb_spec (cpl path p) (length p)) as [E|E]; cbn [negb]; [|by apply runs_ret].
  fold (ref t1). cbn [canon] in Hc. destruct Hc as (Hne & Hp & Hc & _).
  assert (length path = length key - depth)%nat as Hlp by (unfold path; by rewrite length_drop).
  assert (drop (depth + length p) key = drop (length p) path) as Ed by (unfold path; by rewrite drop_drop).
  assert (wf_path (drop (length p) path)) as Hwd by (by apply Forall_drop).
  assert (subs t1 ⊆ U) as H1U by (intros u Hu; by apply HtU, kids_subs).
  destruct (tdelete_spec t1 (drop (length p) path) ltac:(by right) Hwd) as (_ & Hsame & Ho2 & _).
  rewrite <- Ed in *. set (res1 := tdelete t1 _) in *.
  eapply runs_bind. { apply runs_resolve; [by right|by apply (small_ext p)|done..]. }
  intros s1 _ ->. eapply runs_bind.
  { apply (IH f key (depth + length p)%nat s); try done.
    - lia.
    - rewrite Ed, length_drop. destruct p; [done|]. cbn [length] in *. lia.
    - by right.
    - by apply (small_ext p).
    - intros u Hu. fold res1 in Hu. destruct res1.2.
      + cbn [fst] in HrU. by apply HrU, kids_merge.
      + rewrite Hsame in Hu by done. by apply H1U, kids_subs.
    - intros u Hu. by apply Hi, kids_subs. }
  fold res1. intros s2 Hf2 Hi2. cbn [fst snd]. destruct res1.2; cbn [negb fst snd] in *.
  - eapply runs_bind; [by apply runs_merge|]. intros s3 _ Hi3. by apply runs_ret.
  - apply runs_ret. exact (frame_full _ _ _ Hf2 H1U Hi).
Qed.

Lemma runs_delete_branch ts bv : Forall deletes ts → deletes (TBranch ts bv).
Proof.
  intros IH [|f] key depth s path res Hd Hf Ho Hsm Hpath HtU HrU Hi; [lia|]. subst res.
  destruct Ho as [|Hc]; [done|]. cbn [delete_node node_of]. change (map _ ts) with (map ref ts).
  pose proof (canon_wf_branch _ _ Hc) as Hwb. destruct Hwb as [Hl Hok Hval]. rewrite Forall_lookup in IH.
  destruct (branch_in ts bv HtU) as [_ HcU]. apply inner_branch in Hi as Hh.
  assert (∀ t, t ∈ ts → small t ∧ subs t ⊆ U) as Hch.
  { intros t (i & Ht)%list_elem_of_lookup. split; [by eapply small_child|]. by eapply HcU, list_elem_of_lookup_2. }
  destruct (drop_cases key depth Hd) as [[-> E]|(x & Hne & Hx & E)]; fold path in E; rewrite E in *.
  - rewrite Nat.eqb_refl. cbn [tdelete] in *. destruct bv as [w|]; [|by apply runs_ret]. cbn [fst snd] in *.
    eapply runs_bind; [by apply runs_collapse|]. intros s1 _ Hi1. by apply runs_ret.
  - rewrite (proj2 (Nat.eqb_neq _ _) Hne), Hx. apply wf_path_cons in Hpath as [Hnx Hr].
    destruct (lookup_lt_is_Some_2 ts (Z.to_nat x) (nibble_lt x ts Hnx Hl)) as [t1 Ht1].
    rewrite tdelete_branch, Ht1 in *. cbv zeta in *. change (map ref ts) with (ref <$> ts).
    rewrite list_lookup_fmap, Ht1. cbn [fmap option_fmap option_map]. change (ref <$> ts) with (map ref ts).
    pose proof (list_elem_of_lookup_2 _ _ _ Ht1) as Hm1. destruct (Hch t1 Hm1) as [Hs1 H1U].
    pose proof (Forall_lookup_1 _ _ _ _ Hok Ht1) as Ho1.
    destruct (tdelete_spec t1 (drop (depth + 1) key) Ho1 Hr) as (Hb & Hsame & Ho2 & _).
    pose proof (small_delete t1 (drop (depth + 1) key) Ho1 Hr Hs1) as Hs2.
    set (res1 := tdelete t1 _) in *. pose proof (lookup_lt_Some _ _ _ Hx).
    assert (res1.2 = true → subs res1.1 ⊆ U) as H2U.
    { intros Ed. rewrite Ed in HrU. cbn [fst] in HrU.
      destruct (decide (res1.1 = TEmpty)) as [->|H2ne]; [intros ? ?%elem_of_nil; done|].
      assert (t1 ≠ TEmpty) as H1ne by (intros ->; apply Hb in Ed; by destruct Ed).
      rewrite collapse_full in HrU; [|by rewrite length_insert|].
      2:{ rewrite (occupancy_replace _ _ t1) by done. apply canon_branch in Hc. apply Hc. }
      intros u Hu. apply HrU. eapply child_subs; [|done].
      apply (list_elem_of_lookup_2 _ (Z.to_nat x)), list_lookup_insert_eq. by apply nibble_lt. }
    eapply runs_bind. { apply runs_resolve; [done..|by apply Hh]. }
    intros s1 _ ->. eapply runs_bind.
    { apply (IH _ _ Ht1 f key (depth + 1)%nat s); try done.
      - lia.
      - cbn [length] in Hf. lia.
      - intros u Hu. fold res1 in Hu. destruct res1.2; [by apply H2U, kids_subs|].
        rewrite Hsame in Hu by done. by apply H1U, kids_subs.
      - intros u Hu. by apply (Hh t1), kids_subs. }
    fold res1. intros s2 Hf2 Hi2. cbn [fst snd]. destruct res1.2; cbn [negb fst snd] in *.
    + eapply runs_bind; [by apply runs_restore; [done|apply H2U|]|]. intros s3 Hf3 Hfull3.
      eapply runs_bind; [by apply runs_set_child|]. intros s4 _ ->.
      eapply runs_bind.
      { apply runs_collapse; [|..|done].
        - split; [by rewrite length_insert|by apply Forall_insert|done].
        - intros t (j & Hj)%list_elem_of_lookup. apply list_lookup_insert_Some in Hj as [(_ & <- & _)|[_ Hj]].
          + split; [done|by apply H2U].
          + by eapply Hch, list_elem_of_lookup_2.
        - apply held_insert; [|done]. apply (frame_held s2); [done..|]. by apply (frame_held s). }
      intros s5 _ Hi5. by apply runs_ret.
    + apply runs_ret. apply inner_branch. by apply (frame_held s).
Qed.

Lemma runs_delete_node t : deletes t.
Proof.
  induction t as [|p v|p t1 IH|ts bv IH] using tree_ind'.
  - intros [|f] key depth s path res Hd Hf **; [lia|]. by apply runs_ret.
  - intros [|f] key depth s path res Hd Hf **; [lia|]. subst res. cbn [delete_node node_of tdelete]. fold path.
    rewrite andb_comm, (Nat.eqb_sym (length path)), leaf_match. case_bool_decide; by apply runs_ret.
  - by apply runs_delete_ext.
  - by apply runs_delete_branch.
Qed.

End Runs.
(** ** The trie as a map *)

(** The tree holds exactly the pairs of the map, keys spelled in nibbles. *)
Record contents (t : tree) (M : gmap bytes bytes) : Prop := {
  ct_get : ∀ k, wf_bytes k → tget t (expand k) = M !! k;
  ct_keys : ∀ q, has t q → ∃ k, wf_bytes k ∧ q = expand k;
  ct_wf : ∀ k v, M !! k = Some v → wf_bytes k
}.

(** A trie state that represents a tree. *)
Record represents (s : MutableTrie D) (t : tree) : Prop := {
  rp_ok : ok t;
  rp_small : small t;
  rp_root : root s = root_of t;
  rp_inner : inner s t;
  rp_fetch : t ≠ TEmpty → fetch s (keccak256 (enc t)) = Some (enc t)
}.

(** Keys and values of sizes that fit in memory. *)
Definition wf_key (k : bytes) : Prop := wf_bytes k ∧ Z.of_nat (length k) < 2 ^ 39.

Lemma wf_key_path k : wf_key k → wf_path (expand k) ∧ Z.of_nat (length (expand k)) < 2 ^ 40.
Proof. intros [Hw Hl]. split; [by apply wf_expand|]. rewrite length_expand. lia. Qed.

Lemma root_of_ne t : t ≠ TEmpty → root_of t = keccak256 (enc t).
Proof. by destruct t. Qed.

Lemma contents_insert t M k v :
  ok t → wf_bytes k → wf_val v → contents t M → contents (tinsert t (expand k) v) (<[k := v]> M).
Proof.
  intros Ho Hk Hv [Hg Hks Hw]. pose proof (wf_expand k Hk) as Hp.
  destruct (tinsert_spec t (expand k) v Ho Hp Hv) as [_ Hget]. split.
  - intros k' Hk'. rewrite Hget by by apply wf_expand. destruct (decide (k' = k)) as [->|Hne].
    + by rewrite decide_True, lookup_insert_eq.
    + rewrite decide_False, lookup_insert_ne by (done || intros E; by apply Hne, expand_inj). by apply Hg.
  - intros q [Hq Hs]. rewrite Hget in Hs by done. case_decide; [eauto|]. by apply Hks.
  - intros k' v' [[<- <-]|[_ E]]%lookup_insert_Some; [done|by eapply Hw].
Qed.

Lemma contents_delete t M k :
  ok t → wf_bytes k → contents t M → contents (tdelete t (expand k)).1 (base.delete k M).
Proof.
  intros Ho Hk [Hg Hks Hw]. pose proof (wf_expand k Hk) as Hp.
  destruct (tdelete_spec t (expand k) Ho Hp) as (_ & _ & _ & Hget). split.
  - intros k' Hk'. rewrite Hget by by apply wf_expand. destruct (decide (k' = k)) as [->|Hne].
    + by rewrite decide_True, lookup_delete_eq.
    + rewrite decide_False, lookup_delete_ne by (done || intros E; by apply Hne, expand_inj). by apply Hg.
  - intros q [Hq Hs]. rewrite Hget in Hs by done. case_decide; [by destruct Hs|]. by apply Hks.
  - intros k' v' [_ E]%lookup_delete_Some. by eapply Hw.
Qed.

Lemma contents_same t1 t2 M : contents t1 M → contents t2 M → same t1 t2.
Proof.
  intros [Hg1 Hk1 _] [Hg2 Hk2 _] q Hq. destruct (tget t1 q) as [v|] eqn:E1.
  - destruct (Hk1 q) as (k & Hk & ->); [by split; [|eexists]|]. rewrite Hg1 in E1 by done. by rewrite Hg2.
  - destruct (tget t2 q) as [v|] eqn:E2; [|done].
    destruct (Hk2 q) as (k & Hk & ->); [by split; [|eexists]|]. rewrite Hg2 in E2 by done.
    rewrite Hg1 in E1 by done. congruence.
Qed.

Lemma contents_unique t M1 M2 : contents t M1 → contents t M2 → M1 = M2.
Proof.
  intros Hc1 Hc2. apply map_eq. intros k. apply option_eq. intros v. split; intros Ek.
  - by rewrite <- (ct_get _ _ Hc2), (ct_get _ _ Hc1) by by eapply (ct_wf _ _ Hc1).
  - by rewrite <- (ct_get _ _ Hc1), (ct_get _ _ Hc2) by by eapply (ct_wf _ _ Hc2).
Qed.

(** The node at the root. *)
Lemma resolve_root s t :
  represents s t → apart (subs t) → t ≠ TEmpty →
  root s ≠ EMPTY_ROOT ∧ resolve s (RHash (root s)) = Ok (node_of t).
Proof.
  intros [Ho Hsm Hr _ Hf] Ha Hne. rewrite root_of_ne in Hr by done. rewrite Hr.
  pose proof (apart_root _ Ha t (self_subs t Hne)) as He. split; [done|]. cbn [resolve].
  rewrite bool_decide_eq_false_2, Hf by done. destruct Ho as [|Hc]; [done|]. by apply decode_enc.
Qed.

Lemma represents_empty s t : represents s t → apart (subs t) → root s = EMPTY_ROOT ↔ t = TEmpty.
Proof.
  intros Hr Ha. split; [|intros ->; apply (rp_root _ _ Hr)]. intros E.
  destruct (decide (t = TEmpty)) as [|Hne]; [done|]. by destruct (resolve_root s t Hr Ha Hne).
Qed.

(** Committing a new root node. *)
Lemma commit_represents U t s :
  apart U → canon t → small t → subs t ⊆ U → inner s t →
  ∃ s', (r ← commit_root (node_of t); set_root r) s = (Ok tt, s') ∧ represents s' t ∧ db s' = db s.
Proof.
  intros HU Hc Hsm HtU Hi. assert (t ≠ TEmpty) as Hne by (by destruct t).
  assert (t ∈ U) as Ht by (by apply HtU, self_subs).
  exists (mkTrie (keccak256 (enc t)) (db s) (<[keccak256 (enc t) := enc t]> (cache s))).
  split_and!; [|split|done].
  - unfold enc. by destruct t.
  - by right.
  - done.
  - by rewrite root_of_ne.
  - intros u Hu. exact (fr_stored U _ _ u (frame_put U HU s t Ht) ltac:(by apply HtU, kids_subs) (Hi u Hu)).
  - intros _. unfold fetch. cbn [cache]. by rewrite lookup_insert_eq.
Qed.

Lemma small_insert t path v :
  ok t → wf_path path → wf_val v → small t → Z.of_nat (length path) < 2 ^ 40 → small (tinsert t path v).
Proof.
  intros Ho Hp Hv Hs Hl q [Hq Hg]. destruct (tinsert_spec t path v Ho Hp Hv) as [_ Hget].
  rewrite Hget in Hg by done. case_decide as E; [by subst|]. by apply Hs.
Qed.

(** The old root node, or the empty node. *)
Lemma read_root s t : represents s t → apart (subs t) →
  (if bool_decide (root s = EMPTY_ROOT) then mret NEmpty else resolve_m (RHash (root s))) s =
  (Ok (node_of t), s).
Proof.
  intros Hr Ha. case_bool_decide as E.
  - apply (represents_empty s t Hr Ha) in E as ->. done.
  - destruct (resolve_root s t Hr Ha) as [_ Hres].
    + intros ->. apply E. apply (rp_root _ _ Hr).
    + unfold resolve_m. by rewrite Hres.
Qed.

Lemma subseteq_app_l (a b : list tree) : a ⊆ a ++ b.
Proof. intros u Hu. apply elem_of_app. by left. Qed.

Lemma subseteq_app_r (a b : list tree) : b ⊆ a ++ b.
Proof. intros u Hu. apply elem_of_app. by right. Qed.

Lemma insert_represents s t k v :
  represents s t → wf_key k → wf_val v → apart (subs t ++ subs (tinsert t (expand k) v)) →
  ∃ s', insert k v s = (Ok tt, s') ∧ represents s' (tinsert t (expand k) v) ∧ db s' = db s.
Proof.
  intros Hr Hk Hv Ha. destruct (wf_key_path k Hk) as [Hp Hlp]. pose proof Hr as [Ho Hsm _ Hi _].
  destruct (tinsert_spec t (expand k) v Ho Hp Hv) as [Hc _].
  pose proof (read_root s t Hr (apart_mono _ _ (subseteq_app_l _ _) Ha)) as Er.
  destruct (runs_insert_node _ Ha t (descent_fuel (expand k)) (expand k) 0%nat v s) as (s1 & E1 & [_ Hdb _] & Hi1);
    rewrite ?drop_0; try done.
  - lia.
  - unfold descent_fuel. lia.
  - apply subseteq_app_l.
  - apply subseteq_app_r.
  - rewrite drop_0 in E1, Hi1.
    destruct (commit_represents _ (tinsert t (expand k) v) s1 Ha Hc) as (s' & E' & Hr' & Hdb');
      [by apply small_insert|apply subseteq_app_r|done|].
    exists s'. split_and!; [|done|congruence]. unfold insert. cbv zeta.
    unfold mbind at 1, TM_bind at 1. unfold mbind at 1, TM_bind at 1. rewrite Er.
    unfold mbind at 1, TM_bind at 1. rewrite E1. exact E'.
Qed.

Lemma get_represents s t k :
  represents s t → wf_key k → apart (subs t) → get s k = Ok (tget t (expand k)).
Proof.
  intros Hr Hk Ha. destruct (wf_key_path k Hk) as [Hp _]. pose proof Hr as [Ho Hsm _ Hi _].
  unfold get. case_bool_decide as E.
  - by apply (represents_empty s t Hr Ha) in E as ->.
  - destruct (resolve_root s t Hr Ha) as [_ Hres].
    { intros ->. apply E. apply (rp_root _ _ Hr). }
    rewrite (get_node_spec _ Ha t); rewrite ?drop_0; try done; [lia|]. unfold descent_fuel. lia.
Qed.

Lemma delete_represents s t k :
  let res := tdelete t (expand k) in
  represents s t → wf_key k → apart (subs t ++ subs res.1) →
  ∃ s', delete k s = (Ok res.2, s') ∧ represents s' res.1 ∧ db s' = db s.
Proof.
  intros res Hr Hk Ha. destruct (wf_key_path k Hk) as [Hp _]. pose proof Hr as [Ho Hsm Hroot Hi Hfetch].
  pose proof (apart_mono _ _ (subseteq_app_l _ _) Ha) as Hat.
  destruct (tdelete_spec t (expand k) Ho Hp) as (_ & Hsame & Ho2 & _). fold res in Hsame, Ho2.
  unfold delete, mbind at 1, TM_bind at 1. case_bool_decide as E.
  { apply (represents_empty s t Hr Hat) in E as ->. exists s. done. }
  assert (t ≠ TEmpty) as Hne by (intros ->; by apply E, (rp_root _ _ Hr)).
  destruct (resolve_root s t Hr Hat Hne) as [_ Hres].
  unfold mbind at 1, TM_bind at 1, resolve_m. rewrite Hres.
  destruct (runs_delete_node _ Ha t (descent_fuel (expand k)) (expand k) 0%nat s) as (s1 & E1 & [Hroot1 Hdb Hst] & Hi1);
    rewrite ?drop_0; try done.
  { lia. }
  { unfold descent_fuel. lia. }
  { apply subseteq_app_l. }
  { intros u Hu. by apply subseteq_app_r, kids_subs. }
  rewrite drop_0 in E1, Hi1. fold res in E1, Hi1. unfold mbind at 1, TM_bind at 1. rewrite E1. cbn [fst snd].
  destruct res.2 eqn:Eb; cbn [negb].
  - destruct (decide (res.1 = TEmpty)) as [Ee|Ene].
    + rewrite Ee. eexists. split; [done|]. split; [|done]. split; [by left| |done|by intros u ?%elem_of_nil|done].
      intros q [_ [? Hq]]. done.
    + destruct Ho2 as [|Hc2]; [done|].
      destruct (commit_represents _ res.1 s1 Ha Hc2) as (s' & E' & Hr' & Hdb');
        [by apply small_delete|apply subseteq_app_r|done|].
      exists s'. split_and!; [|done|congruence]. revert E'.
      unfold mbind, TM_bind. destruct (commit_root _ s1) as [[r| |] s2]; [|done..]. by intros ->.
  - exists s1. split_and!; [done| |done]. rewrite Hsame in * by done. split; [done..|congruence|done|].
    intros _. apply Hst; [by apply subseteq_app_l, self_subs|by apply Hfetch].
Qed.

(** ** The root hash binds the contents *)

Lemma map_ref_inj (ts1 ts2 : list tree) i t1 t2 :
  map ref ts1 = map ref ts2 → ts1 !! i = Some t1 → ts2 !! i = Some t2 → ref t1 = ref t2.
Proof.
  intros E E1 E2. change (ref <$> ts1 = ref <$> ts2) in E. apply (f_equal (lookup i)) in E.
  rewrite !list_lookup_fmap, E1, E2 in E. by injection E.
Qed.

(** Equal references point to nodes with equal encodings. *)
Lemma ref_enc U t1 t2 : apart U → t1 ∈ U → t2 ∈ U → canon t1 → canon t2 → ref t1 = ref t2 → enc t1 = enc t2.
Proof.
  intros HU H1 H2 Hc1 Hc2. rewrite !ref_canon by done. repeat case_if; intros [= E]; [|by eapply apart_inj].
  unfold enc. by rewrite E.
Qed.

Lemma ref_empty t : ref t = REmpty → t = TEmpty.
Proof. unfold ref, mkref. destruct t; cbn [node_of]; [done|..]; case_if; done. Qed.

Lemma enc_inj U t1 : apart U → ∀ t2, canon t1 → canon t2 → small t1 → small t2 →
  subs t1 ⊆ U → subs t2 ⊆ U → enc t1 = enc t2 → t1 = t2.
Proof.
  intros HU. induction t1 as [|p v|p t1' IH|ts1 v1 IH] using tree_ind'; intros t2 Hc1 Hc2 Hs1 Hs2 HU1 HU2 E; [done|..];
    pose proof (decode_enc _ Hc1 Hs1) as D1; pose proof (decode_enc _ Hc2 Hs2) as D2; rewrite E, D2 in D1;
    destruct t2 as [|p2 v2|p2 t2'|ts2 v2]; cbn [node_of] in D1; try discriminate D1.
  - by injection D1 as -> ->.
  - injection D1 as -> Er. fold (ref t1') (ref t2') in Er. f_equal. cbn [canon] in Hc1, Hc2.
    destruct Hc1 as (_ & Hp & Hc1 & _), Hc2 as (_ & _ & Hc2 & _).
    assert (∀ q u, subs (TExt q u) ⊆ U → subs u ⊆ U) as Hsub
      by (intros q u Hq w Hw; by apply Hq, kids_subs).
    apply IH; try done; [by apply (small_ext p)..|by eapply Hsub|by eapply Hsub|].
    symmetry. apply (ref_enc U); try done; [apply (Hsub p t2')|apply (Hsub p t1')]; try done; by apply self_canon.
  - injection D1 as Er ->. change (map ref ts2 = map ref ts1) in Er.
    apply canon_branch in Hc1 as (Hl1 & Hok1 & _), Hc2 as (Hl2 & Hok2 & _). f_equal.
    destruct (branch_in U _ _ HU1) as [_ HcU1], (branch_in U _ _ HU2) as [_ HcU2].
    apply list_eq_same_length with 16%nat; [done..|]. intros i x y _ Hx Hy.
    pose proof (map_ref_inj _ _ i y x Er Hy Hx) as Exy. rewrite Forall_lookup in Hok1, Hok2, IH.
    pose proof (list_elem_of_lookup_2 _ _ _ Hx) as Mx. pose proof (list_elem_of_lookup_2 _ _ _ Hy) as My.
    destruct (Hok1 _ _ Hx) as [->|Hcx]; [symmetry; exact (ref_empty _ Exy)|].
    destruct (Hok2 _ _ Hy) as [->|Hcy]; [exact (ref_empty _ (eq_sym Exy))|].
    apply (IH _ _ Hx); try done; [by apply (small_child ts1 v1 i)|by apply (small_child ts2 v1 i)|by apply HcU1|by apply HcU2|].
    symmetry. apply (ref_enc U); try done; [apply (HcU2 y)|apply (HcU1 x)]; try done; by apply self_canon.
Qed.

Lemma root_of_inj t1 t2 :
  ok t1 → ok t2 → small t1 → small t2 → apart (subs t1 ++ subs t2) → root_of t1 = root_of t2 → t1 = t2.
Proof.
  intros Ho1 Ho2 Hs1 Hs2 Ha E.
  assert (∀ t, t ≠ TEmpty → t ∈ subs t1 ++ subs t2 → root_of t ≠ EMPTY_ROOT) as Hne.
  { intros t Ht Hin. rewrite root_of_ne by done. by apply (apart_root _ Ha). }
  destruct Ho1 as [->|Hc1], Ho2 as [->|Hc2]; [done|..].
  - destruct (Hne t2); [by destruct t2|apply elem_of_app; right; by apply self_canon|done].
  - destruct (Hne t1); [by destruct t1|apply elem_of_app; left; by apply self_canon|done].
  - assert (t1 ≠ TEmpty) by (by destruct t1). assert (t2 ≠ TEmpty) by (by destruct t2).
    rewrite !root_of_ne in E by done.
    apply (enc_inj _ _ Ha); try done; [apply subseteq_app_l|apply subseteq_app_r|].
    apply (apart_inj _ Ha); [apply elem_of_app; left|apply elem_of_app; right|]; by try apply self_subs.
Qed.

(** ** Proofs *)

(** The proof nodes that share a hash with a node of the tree are that node. *)
Definition uncollided (t : tree) (nodes : list bytes) : Prop :=
  ∀ n u, n ∈ nodes → u ∈ subs t → keccak256 n = keccak256 (enc u) → n = enc u.

Lemma verify_leaf (path p : list Z) (depth n : nat) :
  n = (depth + length path)%nat →
  (cpl path p =? length p)%nat && (depth + cpl path p =? n)%nat = bool_decide (path = p).
Proof.
  intros ->. rewrite <- leaf_match. destruct (Nat.eqb_spec (cpl path p) (length p)) as [E|E]; [|done]. cbn [andb].
  rewrite E. destruct (Nat.eqb_spec (length p) (length path)) as [E'|E'];
    [apply Nat.eqb_eq|apply Nat.eqb_neq]; lia.
Qed.

Lemma opt_bytes_eqb_true a b : opt_bytes_eqb a b = true → a = b.
Proof. apply bool_decide_eq_true_1. Qed.

Lemma verify_loop_sound t nodes key depth e :
  canon t → small t → wf_path (drop depth key) → (depth ≤ length key)%nat → uncollided t nodes →
  verify_loop nodes (keccak256 (enc t)) key depth e = Ok true → e = tget t (drop depth key).
Proof.
  revert nodes depth. induction t as [|p v|p t1 IH|ts bv IH] using tree_ind';
    intros [|n nodes] depth Hc Hsm Hw Hd Hun; try done; cbn [verify_loop];
    destruct (bool_decide (keccak256 n = _)) eqn:En; cbn [negb]; try done; apply bool_decide_eq_true_1 in En;
    assert (n = enc _) as -> by (apply Hun in En; [done|apply elem_of_cons; by left|by apply self_subs]);
    rewrite decode_enc by done; cbn [node_of].
  - rewrite verify_leaf by (rewrite length_drop; lia). rewrite tget_leaf.
    case_bool_decide; intros [= E]; by apply opt_bytes_eqb_true in E.
  - rewrite tget_ext, strip_cpl. set (path := drop depth key) in *. destruct (cpl_le path p) as [Hcl Hcp].
    destruct (Nat.eqb_spec (cpl path p) (length p)) as [E|E]; cbn [negb];
      [|by intros [= Ee]; apply opt_bytes_eqb_true in Ee].
    fold (ref t1). cbn [canon] in Hc. destruct Hc as (Hne & Hp & Hc & _). rewrite ref_canon by done.
    case_if; [done|]. intros Hv.
    assert (drop (depth + cpl path p) key = drop (length p) path) as Ed by (rewrite E; unfold path; by rewrite drop_drop).
    rewrite <- Ed. apply (IH nodes); try done.
    + by apply (small_ext p).
    + rewrite Ed. by apply Forall_drop.
    + unfold path in *. rewrite length_drop in *. lia.
    + intros m u Hm Hu. apply Hun; [apply elem_of_cons; by right|by apply kids_subs].
  - pose proof (canon_wf_branch _ _ Hc) as [Hl Hok _]. rewrite Forall_lookup in Hok, IH.
    destruct (drop_cases key depth Hd) as [[-> E]|(x & Hne & Hx & E)]; rewrite E in *.
    + rewrite Nat.eqb_refl. destruct nodes; [|done]. intros [= Ee]. by apply opt_bytes_eqb_true in Ee.
    + rewrite (proj2 (Nat.eqb_neq _ _) Hne), Hx, tget_branch. apply wf_path_cons in Hw as [Hnx Hrest].
      destruct (lookup_lt_is_Some_2 ts (Z.to_nat x) (nibble_lt x ts Hnx Hl)) as [t1 Ht1].
      change (map _ ts) with (ref <$> ts). rewrite list_lookup_fmap, Ht1. cbn [fmap option_fmap option_map].
      destruct (Hok _ _ Ht1) as [->|Hc1]; [by intros [= Ee]; apply opt_bytes_eqb_true in Ee|].
      rewrite ref_canon by done. case_if; [done|]. intros Hv. pose proof (lookup_lt_Some _ _ _ Hx).
      apply (IH _ _ Ht1 nodes); try done; [by eapply small_child|lia|].
      intros m u Hm Hu. apply Hun; [apply elem_of_cons; by right|]. apply kids_subs.
      eapply child_subs; [|done]. by eapply list_elem_of_lookup_2.
Qed.


(** Every proper subtree is linked by its hash. *)
Definition hash_linked (t : tree) : Prop := ∀ u, u ∈ kids t → (32 ≤ length (enc u))%nat.

Lemma opt_bytes_eqb_refl a : opt_bytes_eqb a a = true.
Proof. by apply bool_decide_eq_true_2. Qed.

Lemma leaf_match' (path p : list Z) :
  (length path =? length p)%nat && (cpl path p =? length p)%nat = bool_decide (path = p).
Proof. by rewrite andb_comm, (Nat.eqb_sym (length path)), leaf_match. Qed.

Definition proves (t : tree) : Prop := ∀ key depth f s acc,
  let path := drop depth key in
  canon t → small t → wf_path path → (depth ≤ length key)%nat → (length path < f)%nat → apart (subs t) →
  inner s t → fetch s (keccak256 (enc t)) = Some (enc t) → hash_linked t →
  ∃ ns, prove_loop f s (RHash (keccak256 (enc t))) key depth acc = Ok (tget t path, acc ++ ns) ∧
        verify_loop ns (keccak256 (enc t)) key depth (tget t path) = Ok true.

(** The step of the walk from a parent to a child. *)
Lemma proves_child t t1 key depth f s acc :
  proves t1 → ok t1 → small t1 → wf_path (drop depth key) → (depth ≤ length key)%nat →
  (length (drop depth key) < f)%nat → apart (subs t) → subs t1 ⊆ kids t → inner s t → hash_linked t →
  (t1 = TEmpty ∧ prove_loop f s (ref t1) key depth acc = Ok (None, acc)) ∨
  (canon t1 ∧ ref t1 = RHash (keccak256 (enc t1)) ∧
   ∃ ns, prove_loop f s (ref t1) key depth acc = Ok (tget t1 (drop depth key), acc ++ ns) ∧
         verify_loop ns (keccak256 (enc t1)) key depth (tget t1 (drop depth key)) = Ok true).
Proof.
  intros IH Ho Hs Hw Hd Hf Ha Hsub Hi Hlk. destruct Ho as [->|Hc].
  { left. split; [done|]. destruct f; [lia|done]. }
  right. pose proof (Hsub t1 (self_canon t1 Hc)) as Hin. pose proof (Hlk t1 Hin) as Hl.
  assert (ref t1 = RHash (keccak256 (enc t1))) as Er.
  { rewrite ref_canon by done. by rewrite (proj2 (Z.ltb_ge _ _)) by lia. }
  split_and!; [done..|]. rewrite Er. apply IH; try done.
  - eapply apart_mono; [|done]. intros u Hu. by apply kids_subs, Hsub.
  - intros u Hu. by apply Hi, Hsub, kids_subs.
  - by apply Hi.
  - intros u Hu. by apply Hlk, Hsub, kids_subs.
Qed.

(** The walk reads the node of a tree and continues below it. *)
Ltac prove_head :=
  intros key depth [|f] s acc path Hc Hsm Hw Hd Hf Ha Hi Hfetch Hlk; [lia|];
  pose proof (apart_root _ Ha _ (self_canon _ Hc)) as He;
  cbn [prove_loop]; rewrite bool_decide_eq_false_2, Hfetch, decode_enc by done; cbn [outcome_bind node_of];
  fold path.

Lemma proves_leaf p v : proves (TLeaf p v).
Proof.
  prove_head. exists [enc (TLeaf p v)]. rewrite leaf_match', tget_leaf. cbn [verify_loop].
  rewrite (bool_decide_eq_true_2 (keccak256 _ = _)), decode_enc by done. cbn [negb node_of]. fold path.
  rewrite verify_leaf by (unfold path; rewrite length_drop; lia).
  by case_bool_decide; rewrite opt_bytes_eqb_refl.
Qed.

Lemma proves_ext p t1 : proves t1 → proves (TExt p t1).
Proof.
  intros IH. prove_head. rewrite tget_ext, strip_cpl. destruct (cpl_le path p) as [Hcl Hcp].
  destruct (Nat.eqb_spec (cpl path p) (length p)) as [E|E]; cbn [negb].
  2:{ exists [enc (TExt p t1)]. split; [done|]. cbn [verify_loop].
      rewrite (bool_decide_eq_true_2 (keccak256 _ = _)), decode_enc by done. cbn [negb node_of]. fold path.
      by rewrite (proj2 (Nat.eqb_neq _ _) E). }
  pose proof Hc as Hc0. cbn [canon] in Hc. destruct Hc as (Hne & Hp & Hc & _). fold (ref t1).
  assert (length path = length key - depth)%nat as Hlp by (unfold path; by rewrite length_drop).
  assert (drop (depth + cpl path p) key = drop (length p) path) as Ed by (rewrite E; unfold path; by rewrite drop_drop).
  destruct (proves_child (TExt p t1) t1 key (depth + cpl path p) f s (acc ++ [enc (TExt p t1)]))
    as [[-> _]|(_ & Er & ns & E1 & E2)]; try done.
  - by right.
  - by apply (small_ext p).
  - rewrite Ed. by apply Forall_drop.
  - lia.
  - rewrite Ed, length_drop. destruct p; [done|]. cbn [length] in *. lia.
  - exists (enc (TExt p t1) :: ns). rewrite E1, Ed, <- app_assoc in *. split; [done|]. cbn [verify_loop].
    rewrite (bool_decide_eq_true_2 (keccak256 _ = _)), decode_enc by done. cbn [negb node_of]. fold path (ref t1).
    rewrite (proj2 (Nat.eqb_eq _ _) E). cbn [negb]. by rewrite Er.
Qed.

Lemma verify_branch ts bv r key depth e : canon (TBranch ts bv) → small (TBranch ts bv) →
  verify_loop (enc (TBranch ts bv) :: r) (keccak256 (enc (TBranch ts bv))) key depth e =
  if (depth =? length key)%nat then match r with [] => Ok (opt_bytes_eqb e bv) | _ => Ok false end
  else match key !! depth with
       | None => Panic
       | Some idx => match (ref <$> ts) !! Z.to_nat idx with
         | None => Panic
         | Some (RHash h) => verify_loop r h key (depth + 1) e
         | Some REmpty => Ok (opt_bytes_eqb e None)
         | Some (RInline _) => Ok false end end.
Proof. intros Hc Hs. cbn [verify_loop]. by rewrite bool_decide_eq_true_2, decode_enc. Qed.

Lemma proves_branch ts bv : Forall proves ts → proves (TBranch ts bv).
Proof.
  intros IH. prove_head. pose proof (canon_wf_branch _ _ Hc) as [Hl Hok _]. rewrite Forall_lookup in Hok, IH.
  change (map _ ts) with (ref <$> ts).
  pose proof (fun r e => verify_branch ts bv r key depth e Hc Hsm) as Ev.
  destruct (drop_cases key depth Hd) as [[-> E]|(x & Hne & Hx & E)]; fold path in E; rewrite E in *.
  - exists [enc (TBranch ts bv)]. rewrite Nat.eqb_refl in *. split; [done|].
    rewrite Ev. cbn [tget]. by rewrite opt_bytes_eqb_refl.
  - rewrite (proj2 (Nat.eqb_neq _ _) Hne), Hx, tget_branch in *. apply wf_path_cons in Hw as [Hnx Hrest].
    destruct (lookup_lt_is_Some_2 ts (Z.to_nat x) (nibble_lt x ts Hnx Hl)) as [t1 Ht1].
    rewrite list_lookup_fmap, Ht1 in *. cbn [fmap option_fmap option_map] in *.
    pose proof (lookup_lt_Some _ _ _ Hx). pose proof (list_elem_of_lookup_2 _ _ _ Ht1) as Hm.
    destruct (proves_child (TBranch ts bv) t1 key (depth + 1) f s (acc ++ [enc (TBranch ts bv)]))
      as [[-> E1]|(_ & Er & ns & E1 & E2)]; try done.
    + by eapply IH.
    + by eapply Hok.
    + by apply (small_child ts bv (Z.to_nat x)).
    + lia.
    + cbn [length] in Hf. lia.
    + by apply child_subs.
    + exists [enc (TBranch ts bv)]. rewrite E1, Ev. split; [done|].
      change (ref TEmpty) with REmpty. cbn [tget]. by rewrite opt_bytes_eqb_refl.
    + exists (enc (TBranch ts bv) :: ns). rewrite E1, Ev, Er, <- app_assoc. done.
Qed.

Lemma proves_all t : proves t.
Proof.
  induction t as [|p v|p t1 IH|ts bv IH] using tree_ind';
    [by intros ? ? ? ? ? ? []|apply proves_leaf|by apply proves_ext|].
  by apply proves_branch.
Qed.

(** An empty trie represents the empty map. *)
Lemma new_represents (d : D) : represents (trie_new d) TEmpty ∧ contents TEmpty ∅.
Proof.
  split; split; try done.
  - by left.
  - intros q [_ [? Hq]]. done.
  - by intros u ?%elem_of_nil.
  - intros q [_ [? Hq]]. done.
Qed.

(** ** Committing to the database *)

(** What the trie relies on in a database: an insert that succeeds, and does
    not rewrite a hash with different bytes, is read back. *)
Class TrieDBLaws := {
  db_ok : D → Prop;
  db_insert_get : ∀ (d d' : D) h b, db_ok d → (∀ b', db_get d h = Ok (Some b') → b' = b) →
    db_insert d h b = (Ok tt, d') →
    db_ok d' ∧ ∀ h', db_get d' h' = if decide (h' = h) then Ok (Some b) else db_get d h'
}.

(** The entries do not rewrite a hash of the database with different bytes. *)
Definition compatible (entries : list (bytes * bytes)) (d : D) : Prop :=
  ∀ h b b', (h, b) ∈ entries → db_get d h = Ok (Some b') → b' = b.

Lemma commit_loop_get `{!TrieDBLaws} entries d d' h :
  db_ok d → compatible entries d → NoDup entries.*1 → commit_loop entries d = (Ok tt, d') →
  db_get d' h = match (list_to_map entries : gmap bytes bytes) !! h with
                | Some b => Ok (Some b) | None => db_get d h end.
Proof.
  revert d. induction entries as [|[k b] rest IH]; intros d Hok Hco Hnd E; [by injection E as <-|].
  cbn [commit_loop] in E. destruct (db_insert d k b) as [[[]| |] d1] eqn:Ei; [|done..].
  cbn [fmap list_fmap fst] in Hnd. apply NoDup_cons in Hnd as [Hk Hnd].
  destruct (db_insert_get d d1 k b Hok) as [Hok1 Hget]; [|done|].
  { intros b' Hb'. eapply Hco; [|done]. apply elem_of_cons. by left. }
  assert (compatible rest d1) as Hco1.
  { intros h' x b' Hin Hb'. rewrite Hget in Hb'. case_decide as Ed.
    - subst. destruct Hk. apply list_elem_of_fmap. by exists (k, x).
    - eapply Hco; [|done]. apply elem_of_cons. by right. }
  rewrite (IH d1 Hok1 Hco1 Hnd E), list_to_map_cons, Hget. destruct (decide (h = k)) as [->|Hne].
  - by rewrite lookup_insert_eq, not_elem_of_list_to_map_1.
  - rewrite lookup_insert_ne by done. done.
Qed.

(** ** Theorems *)

(** C7: The hashed trie refines a finite map with non-empty values. From a
    state that represents a map, [get] returns the map's entry, [insert] of a
    non-empty value succeeds in a state that represents the updated map, and
    [delete] reports whether the key was there and leaves a state that
    represents the map without it; the database is not written. Keys are
    shorter than 2^39 bytes and values shorter than 2^40; an empty value is
    outside the theorem, since a branch that holds one reads back as a branch
    without a value ([Samples.empty_value_lost]). The last two hypotheses
    exclude hash collisions among the nodes of the trie before and after the
    operation. *)
Theorem trie_refines_map (s : MutableTrie D) (t : tree) (M : gmap bytes bytes) (k v : bytes) :
  represents s t → contents t M → wf_key k → wf_val v →
  apart (subs t ++ subs (tinsert t (expand k) v)) → apart (subs t ++ subs (tdelete t (expand k)).1) →
  get s k = Ok (M !! k) ∧
  (∃ s' t', insert k v s = (Ok tt, s') ∧ represents s' t' ∧ contents t' (<[k := v]> M) ∧ db s' = db s) ∧
  (∃ s' t', delete k s = (Ok (bool_decide (is_Some (M !! k))), s') ∧ represents s' t' ∧
            contents t' (base.delete k M) ∧ db s' = db s).
Proof.
  intros Hr Hc Hk Hv Ha Ha'. destruct (wf_key_path k Hk) as [Hp _]. destruct Hk as [Hw Hl].
  pose proof (rp_ok _ _ Hr) as Ho. split_and!.
  - rewrite (get_represents s t) by first [done | by eapply apart_mono; [apply subseteq_app_l|]].
    by rewrite (ct_get _ _ Hc).
  - destruct (insert_represents s t k v Hr) as (s' & E & Hr' & Hdb); [done..|].
    exists s', (tinsert t (expand k) v). split_and!; try done. by apply contents_insert.
  - destruct (delete_represents s t k Hr) as (s' & E & Hr' & Hdb); [done..|].
    exists s', (tdelete t (expand k)).1. split_and!; try done; [|by apply contents_delete].
    rewrite E. do 2 f_equal. apply eq_true_iff_eq. rewrite bool_decide_eq_true, <- (ct_get _ _ Hc k Hw).
    apply (tdelete_spec t (expand k) Ho Hp).
Qed.

(** C14: The root hash commits to the contents and to nothing else. Two tries
    that hold the same key-value pairs have the same root whatever operations
    produced them, and, unless two of their nodes collide, two tries with the
    same root hold the same pairs. *)
Theorem root_commits (s1 s2 : MutableTrie D) (t1 t2 : tree) (M1 M2 : gmap bytes bytes) :
  represents s1 t1 → represents s2 t2 → contents t1 M1 → contents t2 M2 →
  (M1 = M2 → root s1 = root s2) ∧ (apart (subs t1 ++ subs t2) → root s1 = root s2 → M1 = M2).
Proof.
  intros [Ho1 Hs1 Hr1 _ _] [Ho2 Hs2 Hr2 _ _] Hc1 Hc2. rewrite Hr1, Hr2. split.
  - intros <-. by rewrite (ok_unique t1 t2 Ho1 Ho2 (contents_same _ _ _ Hc1 Hc2)).
  - intros Ha E. apply root_of_inj in E as <-; [|done..]. by eapply contents_unique.
Qed.

(** C15: Merkle proofs are sound. A proof that [verify_proof] accepts against
    the root of a trie claims what the trie holds: the value of the key for an
    inclusion proof, and absence for a non-inclusion proof; a proof can only
    lie with a node that collides with a node of the trie. *)
Theorem proof_sound (s : MutableTrie D) (t : tree) (M : gmap bytes bytes) (k : bytes) (e : option bytes)
    (nodes : list bytes) :
  represents s t → contents t M → wf_key k → apart (subs t) → uncollided t nodes →
  Forall (fun n => keccak256 n = EMPTY_ROOT → n = [0x80]) nodes →
  verify_proof (root s) k e nodes = Ok true → e = M !! k.
Proof.
  intros [Ho Hsm Hr Hi Hf] Hc Hk Ha Hun Hem E. destruct (wf_key_path k Hk) as [Hp _]. destruct Hk as [Hw _].
  rewrite Hr in E. rewrite <- (ct_get _ _ Hc k Hw). destruct Ho as [->|Hcan].
  - cbn [tget]. destruct nodes as [|n nodes]; cbn [verify_proof verify_loop root_of] in E.
    + injection E as E. by apply opt_bytes_eqb_true in E.
    + apply Forall_cons in Hem as [Hn _]. case_bool_decide as En; [|done]. rewrite (Hn En) in E.
      change (decode [0x80]) with (Ok (E := TrieError) NEmpty) in E. injection E as E. by apply opt_bytes_eqb_true in E.
  - rewrite root_of_ne in E by (by destruct t). destruct nodes as [|n nodes]; cbn [verify_proof] in E.
    + injection E as E. apply andb_true_iff in E as [E _]. apply bool_decide_eq_true_1 in E.
      by destruct (apart_root _ Ha t (self_canon t Hcan)).
    + rewrite <- (drop_0 (expand k)). eapply verify_loop_sound; rewrite ?drop_0; try done. lia.
Qed.

(** Merkle proofs are complete for hash-linked tries: when no proper
    subtree is small enough to be inlined, [prove] returns the value the trie
    holds (or its absence) with nodes that [verify] accepts. *)
Theorem proof_complete (s : MutableTrie D) (t : tree) (M : gmap bytes bytes) (k : bytes) :
  represents s t → contents t M → wf_key k → apart (subs t) → hash_linked t →
  ∃ p, prove s k = Ok p ∧ pf_value p = M !! k ∧ proof_verify p (root s) = Ok true.
Proof.
  intros Hrep Hc Hk Ha Hlk. pose proof Hrep as [Ho Hsm Hr Hi Hf]. destruct (wf_key_path k Hk) as [Hp _].
  destruct Hk as [Hw _]. rewrite <- (ct_get _ _ Hc k Hw). unfold prove, proof_verify. rewrite Hr.
  destruct (decide (t = TEmpty)) as [->|Hne]; [by eexists|]. destruct Ho as [|Hcan]; [done|].
  rewrite root_of_ne by done.
  destruct (proves_all t (expand k) 0%nat (descent_fuel (expand k)) s []) as (ns & E1 & E2);
    rewrite ?drop_0; try done; [lia|unfold descent_fuel; lia|by apply Hf|].
  rewrite drop_0 in E1, E2. rewrite E1. eexists. split; [done|]. split; [done|].
  cbn [pf_key pf_value pf_nodes app]. destruct ns as [|n ns]; [done|]. exact E2.
Qed.

(** [commit] persists the trie. When the database accepts the buffered
    nodes, the call returns the current root, empties the buffer, and a trie
    reopened from that root on the database alone represents the same tree. *)
Theorem commit_persists `{!TrieDBLaws} (s s' : MutableTrie D) (t : tree) (r : bytes)
    (entries : list (bytes * bytes)) :
  represents s t → db_ok (db s) → compatible entries (db s) →
  NoDup entries.*1 → list_to_map entries = cache s → commit entries s = (Ok r, s') →
  r = root s ∧ cache s' = ∅ ∧ represents s' t ∧ represents (from_root r (db s')) t.
Proof.
  intros [Ho Hsm Hr Hi Hf] Hok Hco Hnd Hmap E. unfold commit in E.
  destruct (commit_loop entries (db s)) as [[[]| |] d'] eqn:Ec; [|done..]. injection E as <- <-.
  assert (∀ h b, fetch s h = Some b → fetch (mkTrie (root s) d' ∅) h = Some b) as Hfetch.
  { intros h b. unfold fetch. cbn [cache db]. rewrite lookup_empty, (commit_loop_get _ _ _ h Hok Hco Hnd Ec), Hmap.
    by destruct (cache s !! h). }
  assert (represents (mkTrie (root s) d' ∅) t) as Hrep.
  { split; [done..| |]; [|by intros Hne; apply Hfetch, Hf]. intros u Hu Hl. by apply Hfetch, Hi. }
  split_and!; done.
Qed.

End Store.

End Hashed.

#[export] Instance memory_trie_db_laws : TrieDBLaws (D := MemoryTrieDB).
Proof.
  exists (fun _ => True). intros d d' h b _ _ [= <-]. split; [done|]. intros h'. unfold db_get, memory_trie_db.
  case_decide as E; f_equal; [subst; by apply lookup_insert_eq|by apply lookup_insert_ne].
Defined.

(** A stored node whose path item is empty aborts the process: the list of
    two empty strings has the shape of a leaf or extension, and the compact
    path decoder asserts that its input is not empty. *)
Theorem decode_empty_path_panics : decode [0xc2; 0x80; 0x80] = Panic.
Proof. reflexivity. Qed.

(** ** Concrete tries *)

Module Samples.

#[local] Instance keccak_sample : Keccak := fun b => to_be 32 (be_val b mod (2 ^ 256 - 189)).
#[local] Instance keccak_sample_ok : KeccakOk.
Proof. intros b. apply wf_to_word. Qed.

Definition k1 : bytes := [0x12; 0x34].
Definition k2 : bytes := [0x12; 0x35].
Definition v1 : bytes := replicate 40 7.
Definition v2 : bytes := replicate 33 9.
Definition s0 : MutableTrie MemoryTrieDB := trie_new ∅.
Definition s1 : MutableTrie MemoryTrieDB := (insert k1 v1 s0).2.
Definition s2 : MutableTrie MemoryTrieDB := (insert k2 v2 s1).2.
Definition t1 : tree := tinsert TEmpty (expand k1) v1.
Definition t2 : tree := tinsert t1 (expand k2) v2.
Definition m1 : gmap bytes bytes := {[k1 := v1]}.
Definition m2 : gmap bytes bytes := <[k2 := v2]> m1.

Lemma wf_keys : wf_key k1 ∧ wf_key k2.
Proof. split; split; try (cbn; lia); repeat constructor; unfold is_u8; lia. Qed.

Lemma wf_vals : wf_val v1 ∧ wf_val v2.
Proof. split; (split; [done|]; split; [apply Forall_replicate; unfold is_u8; lia|cbn; lia]). Qed.

Lemma apart_all : apart (subs t1 ++ subs t2).
Proof. apply (bool_decide_unpack _). vm_compute. done. Qed.

Lemma s1_represents : represents s1 t1 ∧ contents t1 m1.
Proof.
  destruct (new_represents (∅ : MemoryTrieDB)) as [Hr Hc]. destruct wf_keys as [Hk _], wf_vals as [Hv _]. split.
  - destruct (insert_represents s0 TEmpty k1 v1 Hr Hk Hv) as (s' & E & Hr' & _).
    + eapply apart_mono; [|apply apart_all]. intros u Hu. apply elem_of_app. left. exact Hu.
    + unfold s1. by rewrite E.
  - apply (contents_insert TEmpty ∅ k1 v1); [by left|apply Hk|done..].
Qed.

Lemma s2_represents : represents s2 t2 ∧ contents t2 m2.
Proof.
  destruct s1_represents as [Hr Hc]. destruct wf_keys as [_ Hk], wf_vals as [_ Hv]. split.
  - destruct (insert_represents s1 t1 k2 v2 Hr Hk Hv apart_all) as (s' & E & Hr' & _). unfold s2. by rewrite E.
  - apply contents_insert; [apply (rp_ok _ _ Hr)|apply Hk|done..].
Qed.

Lemma trie_refines_map_witness :
  get s1 k2 = Ok None ∧
  (∃ s' t', insert k2 v2 s1 = (Ok tt, s') ∧ represents s' t' ∧ contents t' m2 ∧ db s' = db s1) ∧
  (∃ s' t', delete k2 s1 = (Ok false, s') ∧ represents s' t' ∧ contents t' (base.delete k2 m1) ∧ db s' = db s1).
Proof.
  apply (trie_refines_map s1 t1 m1 k2 v2).
  - apply s1_represents.
  - apply s1_represents.
  - apply wf_keys.
  - apply wf_vals.
  - apply apart_all.
  - apply (bool_decide_unpack _). vm_compute. done.
Defined.

(** An empty value is lost. Inserting one at a key that is a prefix of a stored
    key returns [Ok], but the branch that carries it is encoded as a branch
    without a value: [get] does not find the key, [delete] reports that it was
    absent. Under a key that ends in a leaf the empty value is kept. *)
Definition prefix : bytes := [0x12].
Theorem empty_value_lost :
  (insert prefix [] s1).1 = Ok tt ∧ get (insert prefix [] s1).2 prefix = Ok None ∧
  (delete prefix (insert prefix [] s1).2).1 = Ok false ∧
  (insert k2 [] s1).1 = Ok tt ∧ get (insert k2 [] s1).2 k2 = Ok (Some []).
Proof. vm_compute. done. Qed.

Lemma root_commits_witness : root s1 ≠ root s2.
Proof.
  intros E. assert (m1 = m2) as Em.
  { destruct s1_represents as [Hr1 Hc1], s2_represents as [Hr2 Hc2].
    exact (proj2 (root_commits s1 s2 t1 t2 m1 m2 Hr1 Hr2 Hc1 Hc2) apart_all E). }
  apply (f_equal (lookup k2)) in Em. vm_compute in Em. done.
Defined.

Lemma t2_nodes : Forall (fun n => Forall (fun u => keccak256 n = keccak256 (enc u) → n = enc u) (subs t2))
  (map enc (subs t2)) ∧ Forall (fun n => keccak256 n = EMPTY_ROOT → n = [0x80]) (map enc (subs t2)).
Proof. apply (bool_decide_unpack _). vm_compute. done. Qed.

Lemma apart_t2 : apart (subs t2).
Proof. eapply apart_mono; [|apply apart_all]. apply subseteq_app_r. Qed.

(** The proof of [k2] is the root extension, the branch and the leaf. *)
Definition nodes_of (o : outcome TrieError MerkleProof) : list bytes :=
  match o with Ok p => pf_nodes p | _ => [] end.
Definition nodes2 : list bytes := nodes_of (prove s2 k2).

Lemma proof_sound_witness : verify_proof (root s2) k2 (Some v2) nodes2 = Ok true ∧ Some v2 = m2 !! k2.
Proof.
  assert (E : verify_proof (root s2) k2 (Some v2) nodes2 = Ok true) by (vm_compute; reflexivity).
  split; [exact E|]. apply (proof_sound s2 t2 m2 k2 (Some v2) nodes2).
  - apply s2_represents.
  - apply s2_represents.
  - apply wf_keys.
  - apply apart_t2.
  - intros n u Hn Hu. destruct t2_nodes as [Hf _]. rewrite Forall_forall in Hf. specialize (Hf n).
    rewrite Forall_forall in Hf. apply Hf; [|done]. clear - Hn. revert n Hn. apply Forall_forall.
    apply (bool_decide_unpack _). vm_compute. done.
  - apply (bool_decide_unpack _). vm_compute. done.
  - exact E.
Defined.

Lemma proof_complete_witness :
  ∃ p, prove s2 k1 = Ok p ∧ pf_value p = Some v1 ∧ proof_verify p (root s2) = Ok true.
Proof.
  apply (proof_complete s2 t2 m2 k1).
  - apply s2_represents.
  - apply s2_represents.
  - apply wf_keys.
  - apply apart_t2.
  - unfold hash_linked. apply Forall_forall. apply (bool_decide_unpack _). vm_compute. done.
Defined.

Lemma commit_persists_witness :
  represents (from_root (root s2) (db (commit (map_to_list (cache s2)) s2).2)) t2.
Proof.
  apply (commit_persists s2 (commit (map_to_list (cache s2)) s2).2 t2 (root s2) (map_to_list (cache s2))).
  - apply s2_represents.
  - exact I.
  - intros h b b' _ E. vm_compute in E. done.
  - apply NoDup_fst_map_to_list.
  - apply list_to_map_to_list.
  - rewrite (surjective_pairing (commit _ _)) at 1. f_equal.
Defined.

(** Two inline leaves: their proofs are produced but not accepted. *)
Definition s3 : MutableTrie MemoryTrieDB := (insert k2 [2] (insert k1 [1] s0).2).2.

Example inline_proof_rejected :
  ∃ p, prove s3 k1 = Ok p ∧ pf_value p = Some [1] ∧ get s3 k1 = Ok (Some [1]) ∧
       proof_verify p (root s3) = Ok false.
Proof. eexists. split; [vm_compute; reflexivity|]. vm_compute. repeat split. Qed.

End Samples.

End TrieProps.
