(* ===== verification/StateRoot.v ===== *)
(** * State roots

    Models [crates/zbx-state/src/mpt.rs] (account and storage roots, in memory
    and over a persistent database), the [state_root] methods of [StateDB] and
    [StateView], and the trie-node adapter of [trie_adapter.rs]. The order in
    which a hash map is iterated is a parameter ([MapIter]): the standard
    library promises some enumeration of the entries, no more. The theorems
    show that the root does not depend on that order, that it binds the
    accounts, and that the persistent variants never write their database. *)

From S2P Require Import Prelude.
From S2P Require Import U256.
From S2P Require Import EvmBase.
From S2P Require Import EvmHost.
From S2P Require Import Rlp.
From S2P Require Import Nibbles.
From S2P Require Import TrieTree.
From S2P Require Import Trie.
From S2P Require Import TrieProps.
From S2P Require Import State.

Module StateRoot.
Import U256 EvmHost Nibbles.Nibbles TrieTree.TrieTree Trie.Trie TrieProps.TrieProps State.State.
#[local] Set Warnings "-clear-no-such-hyp,-register-all".

(** ** Iteration order *)

Class MapIter := {
  iter_accounts : gmap address AccountState → list (address * AccountState);
  iter_slots : slots → list (bytes * bytes)
}.

Definition iter_ok (I : MapIter) : Prop :=
  (∀ m, @iter_accounts I m ≡ₚ map_to_list m) ∧ (∀ m, @iter_slots I m ≡ₚ map_to_list m).

(** ** mpt.rs *)

Definition u64_min_be (n : Z) : bytes :=
  if n =? 0 then [] else let b := to_be 8 n in drop (leading_zeros b) b.

Definition strip_leading_zeros (b : bytes) : bytes := drop (leading_zeros b) b.

Definition vm_byte (k : VmKind) : Z := match k with Evm => 0 | Zvm => 1 end.

Definition encode_account_rlp (state : AccountState) (sroot : bytes) : bytes :=
  let s := Rlp.begin_list Rlp.stream_new in
  let s := Rlp.append (u64_min_be (acct_nonce state)) s in
  let s := Rlp.append (strip_leading_zeros (to_be 32 (acct_balance state))) s in
  let s := Rlp.append sroot s in
  let s := Rlp.append (acct_code_hash state) s in
  let s := if bool_decide (vm state = Zvm) then Rlp.append [vm_byte Zvm] s else s in
  stream_out s.

(** [value.is_zero()] *)
Definition is_zero (v : bytes) : bool := forallb (fun b => b =? 0) v.

(** The RLP form of a storage value. *)
Definition encode_slot (value : bytes) : bytes :=
  stream_out (Rlp.append (strip_leading_zeros value) Rlp.stream_new).

(** [.expect(..)]: an error panics. *)
Definition expect {D A} (m : TM D A) : TM D A := fun s =>
  match m s with (Err _, s') => (Panic, s') | r => r end.

Section Roots.
Context `{Keccak} {I : MapIter}.

Section Memory.

Fixpoint storage_loop (l : list (bytes * bytes)) : TM MemoryTrieDB unit :=
  match l with
  | [] => mret tt
  | (slot, value) :: rest =>
      if is_zero value then storage_loop rest
      else expect (insert (keccak256 slot) (encode_slot value));; storage_loop rest
  end.

(** The root a loop leaves. *)
Definition root_after {D} (m : TM D unit) (s : MutableTrie D) : outcome TrieError bytes :=
  match m s with (Ok _, s') => Ok (root s') | (Err e, _) => Err e | (Panic, _) => Panic end.

Definition compute_storage_root (sl : slots) : outcome TrieError bytes :=
  let? r := root_after (storage_loop (iter_slots sl)) (trie_new (∅ : MemoryTrieDB)) in
  Ok (if bool_decide (r = EMPTY_ROOT) then EMPTY_STORAGE_ROOT else r).

Definition cache_is_empty (st : gmap address slots) (a : address) : bool :=
  match st !! a with None => true | Some sl => bool_decide (sl = ∅) end.

(** The storage root that goes into an account's leaf. *)
Definition leaf_storage_root (st : gmap address slots) (a : address) (state : AccountState)
    : outcome TrieError bytes :=
  match st !! a with
  | Some sl => if bool_decide (sl = ∅) then Ok (storage_root state) else compute_storage_root sl
  | None => Ok (storage_root state)
  end.

Fixpoint account_loop (st : gmap address slots) (l : list (address * AccountState)) : TM MemoryTrieDB unit :=
  match l with
  | [] => mret tt
  | (a, state) :: rest =>
      if acct_is_empty state && cache_is_empty st a then account_loop st rest
      else
        sroot ← lift (leaf_storage_root st a state);
        expect (insert (keccak256 a) (encode_account_rlp state sroot));;
        account_loop st rest
  end.

Definition compute_state_root (accts : gmap address AccountState) (st : gmap address slots)
    : outcome TrieError bytes :=
  root_after (account_loop st (iter_accounts accts)) (trie_new (∅ : MemoryTrieDB)).

(** [visible] is [base] with [dirty] written over it and [to_delete] removed. *)
Definition compute_state_root_filtered (base dirty : gmap address AccountState)
    (st : gmap address slots) (dead : gset address) : outcome TrieError bytes :=
  compute_state_root (filter (fun kv => kv.1 ∉ dead) (dirty ∪ base)) st.

Definition db_state_root {Log} (d : StateDB Log) : outcome TrieError bytes :=
  compute_state_root_filtered (base_accounts d) (dirty_accounts d) (storage_cache d) (to_delete d).

Definition view_state_root {Log} (v : StateView Log) : outcome TrieError bytes :=
  compute_state_root_filtered (base v) (accounts (diffs v)) (storage (diffs v)) (sv_to_delete v).

End Memory.

(** *** The persistent variants

    They return the database they were given as well: it is shared with the
    caller. *)
Section WithDb.
Context {D : Type} `{!TrieDB D}.

(** [KeyNotFound] is tolerated. *)
Definition delete_slot (key : bytes) : TM D unit := fun s =>
  match delete key s with
  | (Ok _, s') => (Ok tt, s')
  | (Err KeyNotFound, s') => (Ok tt, s')
  | (Err e, s') => (Err e, s')
  | (Panic, s') => (Panic, s')
  end.

Fixpoint storage_loop_with_db (l : list (bytes * bytes)) : TM D unit :=
  match l with
  | [] => mret tt
  | (slot, value) :: rest =>
      (if is_zero value then delete_slot (keccak256 slot)
       else insert (keccak256 slot) (encode_slot value));;
      storage_loop_with_db rest
  end.

Definition compute_storage_root_with_db (sl : slots) (prev_root : bytes) (d : D)
    : outcome TrieError bytes * D :=
  match storage_loop_with_db (iter_slots sl) (from_root prev_root d) with
  | (Ok _, s') => (Ok (if bool_decide (root s' = EMPTY_ROOT) then EMPTY_STORAGE_ROOT else root s'), db s')
  | (Err e, s') => (Err e, db s')
  | (Panic, s') => (Panic, db s')
  end.

(** The account trie and the storage tries share the database [db s]. *)
Definition with_shared_db {A} (f : D → outcome TrieError A * D) : TM D A := fun s =>
  let r := f (db s) in (r.1, mkTrie (root s) r.2 (cache s)).

Definition leaf_storage_root_with_db (st : gmap address slots) (a : address) (state : AccountState)
    : TM D bytes :=
  match st !! a with
  | Some sl => if bool_decide (sl = ∅) then mret (storage_root state)
               else with_shared_db (compute_storage_root_with_db sl (storage_root state))
  | None => mret (storage_root state)
  end.

Fixpoint account_loop_with_db (st : gmap address slots) (l : list (address * AccountState)) : TM D unit :=
  match l with
  | [] => mret tt
  | (a, state) :: rest =>
      if acct_is_empty state && cache_is_empty st a then account_loop_with_db st rest
      else
        sroot ← leaf_storage_root_with_db st a state;
        insert (keccak256 a) (encode_account_rlp state sroot);;
        account_loop_with_db st rest
  end.

Definition compute_state_root_with_db (accts : gmap address AccountState) (st : gmap address slots) (d : D)
    : outcome TrieError bytes * D :=
  match account_loop_with_db st (iter_accounts accts) (trie_new d) with
  | (Ok _, s') => (Ok (root s'), db s')
  | (Err e, s') => (Err e, db s')
  | (Panic, s') => (Panic, db s')
  end.

Definition db_state_root_with_db {Log} (b : StateDB Log) (d : D) : outcome TrieError bytes * D :=
  compute_state_root_with_db (db_visible b) (storage_cache b) d.

Definition view_state_root_with_db {Log} (v : StateView Log) (d : D) : outcome TrieError bytes * D :=
  compute_state_root_with_db (view_visible v) (storage (diffs v)) d.

End WithDb.
End Roots.

(** ** trie_adapter.rs *)

(** The storage engine's column of trie nodes: a read, and an atomic batch
    write that applies its entries in order or fails. *)
Class NodeColumn (C : Type) := {
  get_trie_node : C → bytes → outcome TrieError (option bytes);
  write_batch : C → list (bytes * bytes) → option C
}.

Definition AUTO_FLUSH_THRESHOLD : nat := 1024.

Record ZbxDbTrieAdapter (C : Type) := mkAdapter { disk : C; pending : list (bytes * bytes) }.
Arguments mkAdapter {C} _ _.
Arguments disk {C} _.
Arguments pending {C} _.

Section Adapter.
Context {C : Type} `{!NodeColumn C}.

Definition adapter_new (c : C) : ZbxDbTrieAdapter C := mkAdapter c [].

Definition adapter_commit (a : ZbxDbTrieAdapter C) : outcome TrieError unit * ZbxDbTrieAdapter C :=
  match pending a with
  | [] => (Ok tt, a)
  | p => match write_batch (disk a) p with
         | Some c => (Ok tt, mkAdapter c [])
         | None => (Err (MissingNode []), a)
         end
  end.

(** The first pending entry for a hash. *)
Fixpoint find_pending (h : bytes) (p : list (bytes * bytes)) : option bytes :=
  match p with
  | [] => None
  | (k, v) :: rest => if bool_decide (k = h) then Some v else find_pending h rest
  end.

Definition adapter_get (a : ZbxDbTrieAdapter C) (h : bytes) : outcome TrieError (option bytes) :=
  match find_pending h (pending a) with
  | Some v => Ok (Some v)
  | None => get_trie_node (disk a) h
  end.

Definition adapter_insert (a : ZbxDbTrieAdapter C) (h v : bytes)
    : outcome TrieError unit * ZbxDbTrieAdapter C :=
  let a' := mkAdapter (disk a) (pending a ++ [(h, v)]) in
  if (AUTO_FLUSH_THRESHOLD <=? length (pending a'))%nat then adapter_commit a' else (Ok tt, a').

Definition adapter_contains (a : ZbxDbTrieAdapter C) (h : bytes) : outcome TrieError bool :=
  let? o := adapter_get a h in Ok (bool_decide (is_Some o)).

#[export] Instance adapter_trie_db : TrieDB (ZbxDbTrieAdapter C) := {|
  db_get := adapter_get;
  db_insert := adapter_insert;
  db_contains := adapter_contains
|}.

End Adapter.

(** ** The database is never written *)

Section Keeps.
Context `{Keccak} {I : MapIter} {D : Type} `{!TrieDB D}.

Definition keeps {A} (m : TM D A) : Prop := ∀ s, db (m s).2 = db s.

Lemma keeps_ret {A} (a : A) : keeps (mret a).
Proof. done. Qed.

Lemma keeps_bind {A B} (m : TM D A) (k : A → TM D B) : keeps m → (∀ a, keeps (k a)) → keeps (m ≫= k).
Proof.
  intros Hm Hk s. unfold mbind, TM_bind. specialize (Hm s). destruct (m s) as [[a| |] s1]; [|done..].
  by rewrite Hk.
Qed.

Lemma keeps_read {A} (f : MutableTrie D → outcome TrieError A) : keeps (fun s => (f s, s)).
Proof. done. Qed.

Lemma keeps_store n : keeps (store_node n).
Proof. intros s. unfold store_node. by case_if. Qed.

Lemma keeps_set_child i r cs : keeps (set_child i r cs).
Proof. intros s. unfold set_child. by destruct (_ <? _)%nat. Qed.

Lemma keeps_commit_root n : keeps (commit_root n).
Proof. by destruct n. Qed.

Hint Resolve keeps_ret keeps_bind keeps_read keeps_store keeps_set_child keeps_commit_root : core.

(** Walk a computation: binds, cases, then the primitives. *)
Ltac keeps_walk :=
  repeat first
    [ apply keeps_bind; [|intros ?]
    | solve [auto]
    | match goal with
      | |- keeps (match ?x with _ => _ end) => destruct x
      | |- keeps (if ?b then _ else _) => destruct b
      end
    | by intros ? ].

Lemma keeps_place path cp v cs bv : keeps (place_new path cp v cs bv).
Proof. unfold place_new. keeps_walk. Qed.

Lemma keeps_wrap path cp n : keeps (wrap_prefix path cp n).
Proof. unfold wrap_prefix. keeps_walk. Qed.

Hint Resolve keeps_place keeps_wrap : core.

Lemma keeps_insert_leaf p ov path v : keeps (insert_leaf p ov path v).
Proof. unfold insert_leaf. keeps_walk. Qed.

Lemma keeps_split_ext p c path v : keeps (split_ext p c path v).
Proof. unfold split_ext. keeps_walk. Qed.

Hint Resolve keeps_insert_leaf keeps_split_ext : core.

Lemma keeps_insert_node f n key depth v : keeps (insert_node f n key depth v).
Proof.
  revert n depth. induction f as [|f IH]; intros n depth; [done|]. cbn [insert_node].
  destruct n; keeps_walk; apply IH.
Qed.

Lemma keeps_insert k v : keeps (insert k v).
Proof.
  unfold insert. keeps_walk. apply keeps_insert_node.
Qed.

Lemma keeps_collapse cs v : keeps (maybe_collapse_branch cs v).
Proof. unfold maybe_collapse_branch. keeps_walk. Qed.

Hint Resolve keeps_collapse : core.

Lemma keeps_delete_node f n key depth : keeps (delete_node f n key depth).
Proof.
  revert n depth. induction f as [|f IH]; intros n depth; [done|]. cbn [delete_node].
  destruct n; keeps_walk; apply IH.
Qed.

Lemma keeps_delete k : keeps (delete k).
Proof. unfold delete. keeps_walk. apply keeps_delete_node. Qed.

Lemma keeps_delete_slot k : keeps (delete_slot (D := D) k).
Proof.
  intros s. unfold delete_slot. pose proof (keeps_delete k s) as E. destruct (delete k s) as [[b|[]|] s']; exact E.
Qed.

Lemma keeps_storage_loop l : keeps (storage_loop_with_db (D := D) l).
Proof.
  induction l as [|[slot value] l IH]; cbn [storage_loop_with_db]; [done|].
  apply keeps_bind; [|done]. destruct (is_zero value); [apply keeps_delete_slot|apply keeps_insert].
Qed.

Lemma storage_root_keeps sl r (d : D) : (compute_storage_root_with_db sl r d).2 = d.
Proof.
  unfold compute_storage_root_with_db. pose proof (keeps_storage_loop (iter_slots sl) (from_root r d)) as E.
  by destruct (storage_loop_with_db _ _) as [[| |] s'].
Qed.

Lemma keeps_leaf_root st a state : keeps (leaf_storage_root_with_db st a state).
Proof.
  unfold leaf_storage_root_with_db. keeps_walk. intros s. unfold with_shared_db. cbn. apply storage_root_keeps.
Qed.

Lemma keeps_account_loop st l : keeps (account_loop_with_db st l).
Proof.
  induction l as [|[a state] l IH]; cbn [account_loop_with_db]; [done|]. destruct (_ && _); [done|].
  apply keeps_bind; [apply keeps_leaf_root|]. intros r. apply keeps_bind; [apply keeps_insert|done].
Qed.

End Keeps.

(** ** The adapter as a database *)

Section AdapterLaws.
Context {C : Type} `{!NodeColumn C}.

(** A batch applies its entries in order: the last one for a hash wins. *)
Class NodeColumnLaws : Prop := write_batch_get : ∀ (c c' : C) p h,
  write_batch c p = Some c' →
  get_trie_node c' h = match find_pending h (rev p) with Some v => Ok (Some v) | None => get_trie_node c h end.

(** Pending entries for one hash hold the same bytes. *)
Definition coherent (p : list (bytes * bytes)) : Prop :=
  ∀ h v v', (h, v) ∈ p → (h, v') ∈ p → v = v'.

Lemma find_pending_Some h p v : find_pending h p = Some v → (h, v) ∈ p.
Proof.
  induction p as [|[k w] p IH]; [done|]. cbn [find_pending]. case_bool_decide as E; rewrite elem_of_cons.
  - intros [= ->]. left. congruence.
  - intros Hf. right. auto.
Qed.

Lemma find_pending_None h p v : find_pending h p = None → (h, v) ∉ p.
Proof.
  induction p as [|[k w] p IH]; [by intros _ ?%elem_of_nil|]. cbn [find_pending].
  case_bool_decide as E; [done|]. rewrite elem_of_cons. intros Hf [[= ? _]|Hin]; [congruence|by apply IH].
Qed.

Lemma find_pending_coherent h p v : coherent p → (h, v) ∈ p → find_pending h p = Some v.
Proof.
  intros Hc Hin. destruct (find_pending h p) as [w|] eqn:E.
  - f_equal. eapply Hc; [|done]. by apply find_pending_Some.
  - by destruct (find_pending_None h p v E).
Qed.

(** In a coherent buffer the first and the last entry agree. *)
Lemma find_pending_rev h p : coherent p → find_pending h (rev p) = find_pending h p.
Proof.
  intros Hc. assert (coherent (rev p)) as Hr.
  { intros k v v'. rewrite !list_elem_of_In, <- !in_rev, <- !list_elem_of_In. apply Hc. }
  destruct (find_pending h p) as [v|] eqn:E.
  - apply find_pending_coherent; [done|]. apply find_pending_Some in E.
    by rewrite list_elem_of_In, <- in_rev, <- list_elem_of_In.
  - destruct (find_pending h (rev p)) as [v|] eqn:E'; [|done]. apply find_pending_Some in E'.
    rewrite list_elem_of_In, <- in_rev, <- list_elem_of_In in E'. by destruct (find_pending_None h p v E).
Qed.

Lemma find_pending_app h p q :
  find_pending h (p ++ q) = match find_pending h p with Some v => Some v | None => find_pending h q end.
Proof. induction p as [|[k w] p IH]; [done|]. cbn. by case_bool_decide. Qed.

Context `{!NodeColumnLaws}.

Lemma commit_reads (a a' : ZbxDbTrieAdapter C) h :
  coherent (pending a) → adapter_commit a = (Ok tt, a') → pending a' = [] ∧ adapter_get a' h = adapter_get a h.
Proof.
  intros Hc E. unfold adapter_commit in E. destruct (pending a) as [|e p] eqn:Ep.
  - by injection E as <-.
  - destruct (write_batch (disk a) (e :: p)) as [c|] eqn:Ew; [|done]. injection E as <-. split; [done|].
    unfold adapter_get. cbn [pending disk find_pending]. rewrite (write_batch_get _ _ _ h Ew), Ep.
    by rewrite find_pending_rev.
Qed.

#[export] Instance adapter_laws : TrieDBLaws (D := ZbxDbTrieAdapter C).
Proof.
  exists (fun a => coherent (pending a)). intros a a' h b Hc Hb E. cbn [db_insert adapter_trie_db] in E.
  unfold adapter_insert in E. cbn [pending] in E. set (a1 := mkAdapter (disk a) (pending a ++ [(h, b)])) in E.
  assert (coherent (pending a1)) as Hc1.
  { assert (∀ v, (h, v) ∈ pending a → v = b) as Hhb.
    { intros v Hv. apply Hb. cbn. unfold adapter_get. by rewrite (find_pending_coherent h _ v). }
    intros k v v' [H1|H1%list_elem_of_singleton]%elem_of_app [H2|H2%list_elem_of_singleton]%elem_of_app; simplify_eq.
    - by eapply Hc.
    - by apply Hhb.
    - symmetry. by apply Hhb.
    - done. }
  assert (∀ h', adapter_get a1 h' = if decide (h' = h) then Ok (Some b) else adapter_get a h') as Hget.
  { intros h'. unfold adapter_get. cbn [pending disk a1]. rewrite find_pending_app. case_decide as Eh.
    - subst. destruct (find_pending h (pending a)) as [v|] eqn:Ef.
      + do 2 f_equal. apply Hb. cbn. unfold adapter_get. by rewrite Ef.
      + cbn. by rewrite bool_decide_eq_true_2.
    - destruct (find_pending h' (pending a)); [done|]. cbn. by rewrite bool_decide_eq_false_2. }
  destruct (_ <=? _)%nat.
  - split; [|intros h'; destruct (commit_reads a1 a' h' Hc1 E) as [_ Eg]; cbn; by rewrite Eg].
    destruct (commit_reads a1 a' h Hc1 E) as [Ep _]. rewrite Ep. by intros ? ? ? ?%elem_of_nil.
  - injection E as <-. done.
Defined.

End AdapterLaws.

(** ** Building a trie from pairs *)

Section Build.
Context `{KO : KeccakOk} {D : Type} `{!TrieDB D}.

Abbreviation pair := (prod bytes bytes).

Fixpoint insert_all (kvs : list pair) : TM D unit :=
  match kvs with
  | [] => mret tt
  | (k, v) :: rest => insert k v;; insert_all rest
  end.

Definition grow (t : tree) (kv : pair) : tree := tinsert t (expand kv.1) kv.2.
Definition tree_of (kvs : list pair) : tree := fold_left grow kvs TEmpty.
Definition put (M : gmap bytes bytes) (kv : pair) : gmap bytes bytes := <[kv.1 := kv.2]> M.

(** No collision at any insertion. *)
Fixpoint trail (t : tree) (kvs : list pair) : Prop :=
  match kvs with
  | [] => True
  | kv :: rest => apart (subs t ++ subs (grow t kv)) ∧ trail (grow t kv) rest
  end.

#[export] Instance trail_dec t kvs : Decision (trail t kvs).
Proof. revert t. induction kvs as [|kv kvs IH]; intros t; cbn [trail]; apply _. Defined.

Definition wf_pair (kv : pair) : Prop := wf_key kv.1 ∧ wf_val kv.2.

Lemma grow_contents kvs t M :
  ok t → contents t M → Forall wf_pair kvs →
  ok (fold_left grow kvs t) ∧ contents (fold_left grow kvs t) (fold_left put kvs M).
Proof.
  revert t M. induction kvs as [|[k v] kvs IH]; intros t M Ho Hc Hwf; [done|].
  apply Forall_cons in Hwf as [[Hk Hv] Hwf]. destruct (wf_key_path k Hk) as [Hp _]. cbn [fold_left]. apply IH; [..|done].
  - right. by apply tinsert_spec.
  - apply contents_insert; [done|apply Hk|done..].
Qed.

Lemma insert_all_represents kvs s t :
  represents s t → Forall wf_pair kvs → trail t kvs →
  ∃ s', insert_all kvs s = (Ok tt, s') ∧ represents s' (fold_left grow kvs t).
Proof.
  revert s t. induction kvs as [|[k v] kvs IH]; intros s t Hr Hwf Ht; [by exists s|].
  apply Forall_cons in Hwf as [[Hk Hv] Hwf]. destruct Ht as [Ha Ht].
  destruct (insert_represents s t k v Hr Hk Hv Ha) as (s1 & E1 & Hr1 & _).
  destruct (IH s1 (grow t (k, v)) Hr1 Hwf Ht) as (s2 & E2 & Hr2).
  exists s2. split; [|done]. cbn [insert_all]. unfold mbind, TM_bind. by rewrite E1.
Qed.

Lemma put_all kvs M : NoDup kvs.*1 → fold_left put kvs M = list_to_map kvs ∪ M.
Proof.
  revert M. induction kvs as [|[k v] kvs IH]; intros M Hnd; cbn [fold_left].
  - by rewrite list_to_map_nil, (left_id_L ∅ (∪)).
  - cbn [fmap list_fmap fst] in Hnd. apply NoDup_cons in Hnd as [Hk Hnd]. rewrite IH by done.
    unfold put at 1. cbn [fst snd]. rewrite list_to_map_cons.
    rewrite <- insert_union_r by by apply not_elem_of_list_to_map_1. by rewrite insert_union_l.
Qed.

(** Distinct keys inserted without collisions. *)
Definition clean (kvs : list pair) : Prop := NoDup kvs.*1 ∧ trail TEmpty kvs.

Lemma tree_of_contents kvs :
  NoDup kvs.*1 → Forall wf_pair kvs → ok (tree_of kvs) ∧ contents (tree_of kvs) (list_to_map kvs).
Proof.
  intros Hnd Hwf. destruct (grow_contents kvs TEmpty ∅) as [Ho Hc]; [by left| |done|].
  - split; [done|by intros q [_ [? Hq]]|done].
  - split; [done|]. rewrite put_all, (right_id_L ∅ (∪)) in Hc by done. done.
Qed.

(** The order of insertion does not matter. *)
Lemma tree_of_order kvs1 kvs2 :
  NoDup kvs1.*1 → Forall wf_pair kvs1 → kvs1 ≡ₚ kvs2 → tree_of kvs1 = tree_of kvs2.
Proof.
  intros Hnd Hwf Hp. destruct (tree_of_contents kvs1 Hnd Hwf) as [Ho1 Hc1].
  destruct (tree_of_contents kvs2) as [Ho2 Hc2]; [by rewrite <- Hp..|].
  apply ok_unique; [done..|]. eapply contents_same; [done|]. by rewrite (list_to_map_proper kvs1 kvs2).
Qed.

Lemma build_root kvs (d : D) :
  clean kvs → Forall wf_pair kvs →
  ∃ s', insert_all kvs (trie_new d) = (Ok tt, s') ∧ root s' = root_of (tree_of kvs) ∧ represents s' (tree_of kvs).
Proof.
  intros [Hnd Ht] Hwf. destruct (new_represents d) as [Hr _].
  destruct (insert_all_represents kvs (trie_new d) TEmpty Hr Hwf Ht) as (s' & E & Hr').
  exists s'. split_and!; [done|apply (rp_root _ _ Hr')|done].
Qed.

End Build.

(** ** Leaves *)

Lemma u8_wrap8 z : is_u8 (wrap8 z).
Proof. unfold is_u8, wrap8. apply Z.mod_pos_bound. lia. Qed.

Lemma wf_minimal_bytes n : wf_bytes (Rlp.minimal_bytes n).
Proof. apply Forall_drop, wf_to_be. Qed.

Hint Resolve u8_wrap8 wf_minimal_bytes : core.

Lemma wf_string_item x : wf_bytes x → wf_bytes (Rlp.string_item x).
Proof.
  intros Hx. unfold Rlp.string_item. destruct x as [|b [|c x]].
  - repeat constructor; lia.
  - case_if; [done|]. by apply Forall_cons_2.
  - case_if; (apply Forall_cons_2; [auto|]); [done|]. apply Forall_app. split; [apply wf_minimal_bytes|done].
Qed.

Lemma wf_list_item p : wf_bytes p → wf_bytes (Rlp.list_item p).
Proof.
  intros Hp. apply Forall_app. split; [|done]. unfold Rlp.list_prefix. case_if; (apply Forall_cons_2; [apply u8_wrap8|]); [by apply Forall_nil|].
  apply wf_minimal_bytes.
Qed.

Lemma strip_zeros_facts b : wf_bytes b → wf_bytes (strip_leading_zeros b) ∧ (length (strip_leading_zeros b) ≤ length b)%nat.
Proof. intros Hb. split; [by apply Forall_drop|]. unfold strip_leading_zeros. rewrite length_drop. lia. Qed.

(** A storage leaf is the encoding of a non-empty string of at most 32 bytes. *)
Lemma wf_encode_slot v : wf_word v → wf_val (encode_slot v).
Proof.
  intros [Hl Hw]. destruct (strip_zeros_facts v Hw) as [Hsw Hsl]. unfold encode_slot, stream_out, Rlp.out. cbn.
  pose proof (Rlp.string_item_nonempty (strip_leading_zeros v)) as Hne.
  pose proof (Rlp.length_string_item (strip_leading_zeros v)) as Hub. unfold Rlp.rlp_len in *.
  split_and!; [by destruct (Rlp.string_item _)|by apply wf_string_item|]. lia.
Qed.

Record wf_account (s : AccountState) : Prop := {
  wa_nonce : is_u64 (acct_nonce s);
  wa_balance : 0 ≤ acct_balance s < 2 ^ 256;
  wa_code : wf_word (acct_code_hash s);
  wa_storage : wf_word (storage_root s)
}.

Definition account_fields (s : AccountState) (sroot : bytes) : list bytes :=
  [u64_min_be (acct_nonce s); strip_leading_zeros (to_be 32 (acct_balance s)); sroot; acct_code_hash s] ++
  (if bool_decide (vm s = Zvm) then [[vm_byte Zvm]] else []).

Lemma encode_account_list s sroot :
  encode_account_rlp s sroot = Rlp.list_item (concat (map Rlp.string_item (account_fields s sroot))).
Proof.
  unfold encode_account_rlp, account_fields. change (Rlp.begin_list Rlp.stream_new) with (one_list []).
  rewrite !append_one. case_bool_decide; rewrite ?append_one, stream_out_one; f_equal; cbn [map concat app];
    by rewrite <- ?app_assoc, ?app_nil_r.
Qed.

Lemma u64_min_be_eq n : u64_min_be n = if n =? 0 then [] else Rlp.minimal_bytes n.
Proof. done. Qed.

Lemma account_fields_wf s sroot : wf_account s → wf_word sroot →
  Forall (fun f => wf_bytes f ∧ (length f ≤ 32)%nat) (account_fields s sroot).
Proof.
  intros [Hn Hb [Hcl Hcw] _] [Hrl Hrw].
  assert (wf_bytes (u64_min_be (acct_nonce s)) ∧ (length (u64_min_be (acct_nonce s)) ≤ 32)%nat).
  { rewrite u64_min_be_eq. case_if; [split; [constructor|cbn; lia]|]. split; [done|].
    unfold Rlp.minimal_bytes. rewrite length_drop, length_to_be. lia. }
  destruct (strip_zeros_facts (to_be 32 (acct_balance s)) (wf_to_be _ _)) as [Hsw Hsl]. rewrite length_to_be in Hsl.
  unfold account_fields. apply Forall_app. rewrite !Forall_cons. split.
  - destruct H. split_and!; first [done | lia | by apply Forall_nil].
  - case_bool_decide; [|done]. repeat constructor; cbn; lia.
Qed.

Lemma fields_payload (fs : list bytes) : Forall (fun f => wf_bytes f ∧ (length f ≤ 32)%nat) fs →
  Forall Rlp.delimited (map Rlp.string_item fs) ∧ wf_bytes (concat (map Rlp.string_item fs)) ∧
  Rlp.rlp_len (concat (map Rlp.string_item fs)) ≤ 64 * Z.of_nat (length fs).
Proof.
  induction 1 as [|f fs [Hw Hl] _ (IH1 & IH2 & IH3)];
    [by split_and!; [apply Forall_nil|apply Forall_nil|]|]. cbn [map concat length].
  rewrite Rlp.rlp_len_app. pose proof (Rlp.length_string_item f) as Hs. unfold Rlp.rlp_len in *. split_and!.
  - constructor; [by apply Rlp.delimited_string|done].
  - apply Forall_app. split; [by apply wf_string_item|done].
  - lia.
Qed.

Lemma account_fields_len s sroot : (length (account_fields s sroot) ≤ 5)%nat.
Proof. unfold account_fields. rewrite length_app. case_bool_decide; cbn; lia. Qed.

Lemma wf_encode_account s sroot : wf_account s → wf_word sroot → wf_val (encode_account_rlp s sroot).
Proof.
  intros Hs Hr. rewrite encode_account_list. pose proof (account_fields_len s sroot).
  destruct (fields_payload _ (account_fields_wf s sroot Hs Hr)) as (_ & Hw & Hl).
  pose proof (Rlp.list_item_len (concat (map Rlp.string_item (account_fields s sroot))) ltac:(lia)) as Hll.
  pose proof (Rlp.rlp_len_nonneg (concat (map Rlp.string_item (account_fields s sroot)))).
  split_and!; [|by apply wf_list_item|unfold Rlp.rlp_len in *; lia].
  intros E. rewrite E in Hll. change (Rlp.rlp_len []) with 0 in Hll. lia.
Qed.

Lemma string_items_inj (fs gs : list bytes) :
  Forall (fun f => wf_bytes f ∧ (length f ≤ 32)%nat) fs → Forall (fun f => wf_bytes f ∧ (length f ≤ 32)%nat) gs →
  map Rlp.string_item fs = map Rlp.string_item gs → fs = gs.
Proof.
  intros Hf. revert gs. induction Hf as [|f fs [Hw Hl] _ IH]; intros gs Hg E; destruct Hg as [|g gs [Hw' Hl'] Hg];
    [done..|]. injection E as E1 E2. f_equal; [|by apply IH].
  pose proof (as_bytes_string f Hw ltac:(unfold Rlp.rlp_len; lia)) as A.
  rewrite E1, as_bytes_string in A by (done || unfold Rlp.rlp_len; lia). by injection A.
Qed.

Lemma list_items_inj (fs gs : list bytes) :
  Forall (fun f => wf_bytes f ∧ (length f ≤ 32)%nat) fs → Forall (fun f => wf_bytes f ∧ (length f ≤ 32)%nat) gs →
  (length fs ≤ 5)%nat → (length gs ≤ 5)%nat →
  Rlp.list_item (concat (map Rlp.string_item fs)) = Rlp.list_item (concat (map Rlp.string_item gs)) → fs = gs.
Proof.
  intros Hf Hg Lf Lg E. destruct (fields_payload fs Hf) as (Df & _ & Pf), (fields_payload gs Hg) as (Dg & _ & Pg).
  destruct (Rlp.list_items_decode _ Df ltac:(lia)) as [_ Af], (Rlp.list_items_decode _ Dg ltac:(lia)) as [_ Ag].
  apply string_items_inj; [done..|]. apply list_eq. intros i. specialize (Af i). specialize (Ag i).
  rewrite E, Ag in Af. destruct (map _ fs !! i), (map _ gs !! i); congruence.
Qed.

(** What an account's leaf commits to. *)
Definition leaf_view (s : AccountState) (sroot : bytes) := (acct_nonce s, acct_balance s, sroot, acct_code_hash s, vm s).

Lemma encode_account_inj s1 r1 s2 r2 :
  wf_account s1 → wf_word r1 → wf_account s2 → wf_word r2 →
  encode_account_rlp s1 r1 = encode_account_rlp s2 r2 → leaf_view s1 r1 = leaf_view s2 r2.
Proof.
  intros H1 Hr1 H2 Hr2 E. rewrite !encode_account_list in E.
  apply list_items_inj in E; [|by apply account_fields_wf|by apply account_fields_wf|apply account_fields_len|apply account_fields_len].
  assert (∀ i, account_fields s1 r1 !! i = account_fields s2 r2 !! i) as Hi by (by rewrite E).
  pose proof (Hi 0%nat : Some _ = Some _) as En. pose proof (Hi 1%nat : Some _ = Some _) as Eb.
  pose proof (Hi 2%nat : Some _ = Some _) as Er. pose proof (Hi 3%nat : Some _ = Some _) as Ec.
  pose proof (Hi 4%nat) as Ev. apply (inj Some) in En, Eb, Er, Ec. unfold leaf_view.
  destruct H1 as [Hn1 Hb1 _ _], H2 as [Hn2 Hb2 _ _].
  assert (acct_nonce s1 = acct_nonce s2) as ->.
  { assert (∀ n, is_u64 n → be_val (u64_min_be n) = n) as Hbe.
    { intros n Hn. rewrite u64_min_be_eq. case_if; [by subst|]. unfold Rlp.minimal_bytes.
      rewrite be_val_strip, be_val_to_be. apply Z.mod_small. unfold is_u64 in Hn. lia. }
    rewrite <- (Hbe (acct_nonce s1)), <- (Hbe (acct_nonce s2)) by done. by rewrite En. }
  assert (acct_balance s1 = acct_balance s2) as ->.
  { apply (f_equal be_val) in Eb. unfold strip_leading_zeros in Eb. rewrite !be_val_strip, !be_val_to_be in Eb.
    rewrite !Z.mod_small in Eb by lia. done. }
  assert (vm s1 = vm s2) as -> by (unfold account_fields in Ev; by destruct (vm s1), (vm s2)).
  by rewrite Er, Ec.
Qed.

(** ** The root as a function of the accounts *)

Section RootOf.
Context `{KO : KeccakOk}.

(** The entries the loops insert. *)
Definition slot_pair (kv : bytes * bytes) : option (bytes * bytes) :=
  if is_zero kv.2 then None else Some (keccak256 kv.1, encode_slot kv.2).

Definition slot_pairs (I : MapIter) (sl : slots) : list (bytes * bytes) := omap slot_pair (iter_slots sl).

Definition leaf_root (I : MapIter) (st : gmap address slots) (a : address) (s : AccountState) : bytes :=
  match leaf_storage_root st a s with Ok r => r | _ => [] end.

Definition account_pair (I : MapIter) (st : gmap address slots) (kv : address * AccountState)
    : option (bytes * bytes) :=
  if acct_is_empty kv.2 && cache_is_empty st kv.1 then None
  else Some (keccak256 kv.1, encode_account_rlp kv.2 (leaf_root I st kv.1 kv.2)).

Definition account_pairs (I : MapIter) (accts : gmap address AccountState) (st : gmap address slots)
    : list (bytes * bytes) := omap (account_pair I st) (iter_accounts accts).

Definition wf_world (accts : gmap address AccountState) (st : gmap address slots) : Prop :=
  map_Forall (fun _ s => wf_account s) accts ∧ map_Forall (fun _ sl => map_Forall (fun _ v => wf_word v) sl) st.

(** Distinct hashed keys and no collision while the tries are built. *)
Definition clean_state (I : MapIter) (accts : gmap address AccountState) (st : gmap address slots) : Prop :=
  map_Forall (fun _ sl => clean (slot_pairs I sl)) st ∧ clean (account_pairs I accts st).

Lemma wf_key_hash b : wf_key (keccak256 b).
Proof. destruct (keccak_wf b) as [Hl Hw]. split; [done|]. rewrite Hl. lia. Qed.

Lemma insert_all_cons k v kvs (s s' : MutableTrie MemoryTrieDB) :
  insert_all ((k, v) :: kvs) s = (Ok tt, s') →
  ∃ s1, insert k v s = (Ok tt, s1) ∧ insert_all kvs s1 = (Ok tt, s').
Proof.
  cbn [insert_all]. unfold mbind, TM_bind. destruct (insert k v s) as [[[]| |] s1]; [|done..]. eauto.
Qed.

Lemma expect_bind (m k : TM MemoryTrieDB unit) (s s1 : MutableTrie MemoryTrieDB) :
  m s = (Ok tt, s1) → (expect m;; k) s = k s1.
Proof. intros E. unfold mbind, TM_bind, expect. by rewrite E. Qed.

Lemma storage_loop_run l s s' :
  insert_all (omap slot_pair l) s = (Ok tt, s') → storage_loop l s = (Ok tt, s').
Proof.
  revert s. induction l as [|[k v] l IH]; intros s E; [done|]. cbn [omap list_omap storage_loop] in *.
  unfold slot_pair at 1 in E. cbn [fst snd] in E. destruct (is_zero v); [by apply IH|].
  apply insert_all_cons in E as (s1 & E1 & E2). rewrite (expect_bind _ _ _ _ E1). by apply IH.
Qed.

Lemma slot_pairs_wf I sl : iter_ok I → map_Forall (fun _ v => wf_word v) sl → Forall wf_pair (slot_pairs I sl).
Proof.
  intros [_ Hit] Hw. apply Forall_forall. intros [k v] (kv & Hin & E)%list_elem_of_omap.
  rewrite Hit in Hin. destruct kv as [k' v']. apply elem_of_map_to_list in Hin. apply Hw in Hin.
  unfold slot_pair in E. destruct (is_zero _); [done|]. injection E as <- <-.
  split; [apply wf_key_hash|by apply wf_encode_slot].
Qed.

Lemma storage_root_eq I sl :
  iter_ok I → map_Forall (fun _ v => wf_word v) sl → clean (slot_pairs I sl) →
  compute_storage_root sl = Ok (root_of (tree_of (slot_pairs I sl))).
Proof.
  intros Hit Hw Hc. destruct (build_root (slot_pairs I sl) (∅ : MemoryTrieDB) Hc) as (s' & E & Hr & _);
    [by apply slot_pairs_wf|].
  unfold compute_storage_root, root_after. rewrite (storage_loop_run _ _ _ E). cbn [outcome_bind]. rewrite Hr.
  case_bool_decide as Ee; [|done]. f_equal. by rewrite Ee.
Qed.

Lemma wf_root_of t : wf_word (root_of t).
Proof.
  destruct t; cbn [root_of]; try apply keccak_wf. split; [done|]. unfold EMPTY_ROOT.
  repeat (apply Forall_cons_2; [unfold is_u8; lia|]). by apply Forall_nil.
Qed.

(** The root in an account's leaf. *)
Lemma leaf_root_eq I accts st a s :
  iter_ok I → wf_world accts st → map_Forall (fun _ sl => clean (slot_pairs I sl)) st → wf_account s →
  leaf_storage_root st a s = Ok (leaf_root I st a s) ∧ wf_word (leaf_root I st a s) ∧
  leaf_root I st a s =
    match st !! a with
    | Some sl => if bool_decide (sl = ∅) then storage_root s else root_of (tree_of (slot_pairs I sl))
    | None => storage_root s
    end.
Proof.
  intros Hit [_ Hw] Hc Hs. unfold leaf_root, leaf_storage_root.
  destruct (st !! a) as [sl|] eqn:E; [|split_and!; [done|apply Hs|done]].
  case_bool_decide; [split_and!; [done|apply Hs|done]|].
  rewrite (storage_root_eq I sl Hit (Hw _ _ E) (Hc _ _ E)). split_and!; [done|apply wf_root_of|done].
Qed.

Lemma account_loop_run I st l s s' :
  (∀ a x, (a, x) ∈ l → leaf_storage_root st a x = Ok (leaf_root I st a x)) →
  insert_all (omap (account_pair I st) l) s = (Ok tt, s') → account_loop st l s = (Ok tt, s').
Proof.
  revert s. induction l as [|[a x] l IH]; intros s Hl E; [done|]. cbn [omap list_omap account_loop] in *.
  assert (∀ b y, (b, y) ∈ l → leaf_storage_root st b y = Ok (leaf_root I st b y)) as Hl'
    by (intros b y Hin; apply Hl, elem_of_cons; by right).
  unfold account_pair at 1 in E. cbn [fst snd] in E. destruct (_ && _); [by apply IH|].
  apply insert_all_cons in E as (s1 & E1 & E2). unfold mbind at 1, TM_bind at 1, lift.
  rewrite Hl by (apply elem_of_cons; by left). rewrite (expect_bind _ _ _ _ E1). by apply IH.
Qed.

Lemma account_pairs_wf I accts st :
  iter_ok I → wf_world accts st → map_Forall (fun _ sl => clean (slot_pairs I sl)) st →
  Forall wf_pair (account_pairs I accts st).
Proof.
  intros Hit Hw Hc. apply Forall_forall. intros [k v] (kv & Hin & E)%list_elem_of_omap.
  destruct Hit as [Hia His]. rewrite Hia in Hin. destruct kv as [a s]. apply elem_of_map_to_list in Hin.
  pose proof (proj1 Hw _ _ Hin) as Hs. destruct (leaf_root_eq I accts st a s (conj Hia His) Hw Hc Hs) as (_ & Hr & _).
  unfold account_pair in E. destruct (_ && _); [done|]. injection E as <- <-.
  split; [apply wf_key_hash|by apply wf_encode_account].
Qed.

Lemma state_root_eq I accts st :
  iter_ok I → wf_world accts st → clean_state I accts st →
  compute_state_root accts st = Ok (root_of (tree_of (account_pairs I accts st))).
Proof.
  intros Hit Hw [Hcs Hc]. pose proof (account_pairs_wf I accts st Hit Hw Hcs) as Hwf.
  destruct (build_root (account_pairs I accts st) (∅ : MemoryTrieDB) Hc Hwf) as (s' & E & Hr & _).
  unfold compute_state_root, root_after. erewrite account_loop_run; [by rewrite Hr| |done].
  intros a x Hin. rewrite (proj1 Hit) in Hin. apply elem_of_map_to_list in Hin.
  apply (leaf_root_eq I accts st a x Hit Hw Hcs). by apply (proj1 Hw) in Hin.
Qed.

(** Two iteration orders give the same entries up to order. *)
Lemma account_pairs_perm I1 I2 accts st :
  iter_ok I1 → iter_ok I2 → wf_world accts st → clean_state I1 accts st → clean_state I2 accts st →
  account_pairs I1 accts st ≡ₚ account_pairs I2 accts st.
Proof.
  intros H1 H2 Hw [Hc1 _] [Hc2 _]. unfold account_pairs. rewrite (proj1 H1), (proj1 H2).
  assert (∀ l : list (address * AccountState), (∀ a s, (a, s) ∈ l → accts !! a = Some s) →
    omap (account_pair I1 st) l = omap (account_pair I2 st) l) as Heq; [|by rewrite Heq; [|intros; by apply elem_of_map_to_list]].
  induction l as [|[a s] l IH]; intros Hl; [done|]. cbn [omap list_omap].
  rewrite IH by (intros; apply Hl, elem_of_cons; by right).
  replace (account_pair I2 st (a, s)) with (account_pair I1 st (a, s)); [done|].
  unfold account_pair. cbn [fst snd]. destruct (_ && _); [done|]. do 3 f_equal.
  assert (wf_account s) as Hs by (apply (proj1 Hw a), Hl, elem_of_cons; by left).
  destruct (leaf_root_eq I1 accts st a s H1 Hw Hc1 Hs) as (_ & _ & ->).
  destruct (leaf_root_eq I2 accts st a s H2 Hw Hc2 Hs) as (_ & _ & ->).
  destruct (st !! a) as [sl|] eqn:E; [|done]. case_bool_decide; [done|]. f_equal. apply tree_of_order.
  - apply (Hc1 _ _ E).
  - apply slot_pairs_wf; [done|]. apply (proj2 Hw _ _ E).
  - unfold slot_pairs. by rewrite (proj2 H1), (proj2 H2).
Qed.

(** What the state root says of an address: [None] when it has no leaf. *)
Definition leaf (I : MapIter) (accts : gmap address AccountState) (st : gmap address slots) (a : address) :=
  match accts !! a with
  | None => None
  | Some s => if acct_is_empty s && cache_is_empty st a then None else Some (leaf_view s (leaf_root I st a s))
  end.

Lemma leaf_pairs I accts st a x :
  iter_ok I → leaf I accts st a = Some x →
  ∃ s, accts !! a = Some s ∧ x = leaf_view s (leaf_root I st a s) ∧
       (keccak256 a, encode_account_rlp s (leaf_root I st a s)) ∈ account_pairs I accts st.
Proof.
  intros Hit. unfold leaf. destruct (accts !! a) as [s|] eqn:Ea; [|done].
  destruct (_ && _) eqn:Ee; [done|]. intros [= <-]. exists s. split_and!; [done..|].
  apply list_elem_of_omap. exists (a, s). rewrite (proj1 Hit), elem_of_map_to_list. split; [done|].
  unfold account_pair. cbn [fst snd]. by rewrite Ee.
Qed.

Lemma pairs_leaf I accts st k v :
  iter_ok I → (k, v) ∈ account_pairs I accts st →
  ∃ a s, accts !! a = Some s ∧ k = keccak256 a ∧ v = encode_account_rlp s (leaf_root I st a s) ∧
         leaf I accts st a = Some (leaf_view s (leaf_root I st a s)).
Proof.
  intros Hit ([a s] & Hin & E)%list_elem_of_omap. rewrite (proj1 Hit) in Hin. apply elem_of_map_to_list in Hin.
  unfold account_pair in E. cbn [fst snd] in E. destruct (_ && _) eqn:Ee; [done|]. injection E as <- <-.
  exists a, s. split_and!; try done. unfold leaf. by rewrite Hin, Ee.
Qed.

(** One direction of the binding: a leaf of the first world is one of the second. *)
Lemma leaf_transfer I accts1 st1 accts2 st2 a x :
  iter_ok I → wf_world accts1 st1 → wf_world accts2 st2 → clean_state I accts1 st1 → clean_state I accts2 st2 →
  (∀ b c, is_Some (accts1 !! b) → is_Some (accts2 !! c) → keccak256 b = keccak256 c → b = c) →
  (list_to_map (account_pairs I accts1 st1) : gmap bytes bytes) = list_to_map (account_pairs I accts2 st2) →
  leaf I accts1 st1 a = Some x → leaf I accts2 st2 a = Some x.
Proof.
  intros Hit Hw1 Hw2 [Hc1 [Hnd1 _]] [Hc2 [Hnd2 _]] Hinj Em Hx.
  destruct (leaf_pairs I accts1 st1 a x Hit Hx) as (s & Es & -> & Hin).
  apply (elem_of_list_to_map_1 _ _ _ Hnd1) in Hin. rewrite Em in Hin. apply elem_of_list_to_map_2 in Hin.
  destruct (pairs_leaf I accts2 st2 _ _ Hit Hin) as (b & s' & Es' & Ek & Ev & Hl).
  assert (a = b) as <- by (apply Hinj; eauto). rewrite Hl. f_equal. symmetry.
  pose proof (proj1 Hw1 _ _ Es) as Hs. pose proof (proj1 Hw2 _ _ Es') as Hs'.
  destruct (leaf_root_eq I accts1 st1 a s Hit Hw1 Hc1 Hs) as (_ & Hr & _).
  destruct (leaf_root_eq I accts2 st2 a s' Hit Hw2 Hc2 Hs') as (_ & Hr' & _).
  by apply encode_account_inj.
Qed.

(** ** Theorems *)

(** The state root does not depend on the order in which the hash maps are
    iterated: any two enumerations of the accounts and of the slots give the
    same root, as long as the hashed keys are distinct and the trie nodes built
    on the way do not collide. *)
Theorem state_root_order_free (I1 I2 : MapIter) (accts : gmap address AccountState) (st : gmap address slots) :
  iter_ok I1 → iter_ok I2 → wf_world accts st → clean_state I1 accts st → clean_state I2 accts st →
  ∃ r, @compute_state_root _ I1 accts st = Ok r ∧ @compute_state_root _ I2 accts st = Ok r.
Proof.
  intros H1 H2 Hw Hc1 Hc2. exists (root_of (tree_of (account_pairs I1 accts st))).
  split; [by apply state_root_eq|]. rewrite (state_root_eq I2) by done. do 2 f_equal. symmetry.
  apply tree_of_order; [apply Hc1|apply account_pairs_wf; [done..|apply Hc1]|by apply account_pairs_perm].
Qed.

(** C26: The state root binds the world state: two states with the same root
    give every address the same leaf (nonce, balance, storage root, code hash
    and virtual machine, or no leaf at all), unless the hash function collides
    on their addresses or trie nodes. *)
Theorem state_root_binds (I : MapIter) (accts1 accts2 : gmap address AccountState)
    (st1 st2 : gmap address slots) (r : bytes) :
  iter_ok I → wf_world accts1 st1 → wf_world accts2 st2 → clean_state I accts1 st1 → clean_state I accts2 st2 →
  (∀ b c, is_Some (accts1 !! b) → is_Some (accts2 !! c) → keccak256 b = keccak256 c → b = c) →
  apart (subs (tree_of (account_pairs I accts1 st1)) ++ subs (tree_of (account_pairs I accts2 st2))) →
  compute_state_root accts1 st1 = Ok r → compute_state_root accts2 st2 = Ok r →
  ∀ a, leaf I accts1 st1 a = leaf I accts2 st2 a.
Proof.
  intros Hit Hw1 Hw2 Hc1 Hc2 Hinj Ha E1 E2.
  rewrite (state_root_eq I) in E1, E2 by done. injection E1 as E1. injection E2 as E2.
  pose proof (account_pairs_wf I accts1 st1 Hit Hw1 (proj1 Hc1)) as Wf1.
  pose proof (account_pairs_wf I accts2 st2 Hit Hw2 (proj1 Hc2)) as Wf2.
  destruct (build_root _ (∅ : MemoryTrieDB) (proj2 Hc1) Wf1) as (s1 & _ & _ & [Ho1 Hs1 _ _ _]).
  destruct (build_root _ (∅ : MemoryTrieDB) (proj2 Hc2) Wf2) as (s2 & _ & _ & [Ho2 Hs2 _ _ _]).
  assert (tree_of (account_pairs I accts1 st1) = tree_of (account_pairs I accts2 st2)) as Et
    by (apply root_of_inj; [done..|congruence]).
  destruct (tree_of_contents _ (proj1 (proj2 Hc1)) Wf1) as [_ C1].
  destruct (tree_of_contents _ (proj1 (proj2 Hc2)) Wf2) as [_ C2].
  rewrite <- Et in C2. pose proof (contents_unique _ _ _ C1 C2) as Em.
  intros a. apply option_eq. intros x. split.
  - by apply leaf_transfer.
  - apply leaf_transfer; try done. intros b c Hb Hc E. symmetry. by apply Hinj.
Qed.

End RootOf.

(** Computing a state root over a persistent database never writes it: the
    new nodes stay in the buffers of the tries, which are dropped when the
    call returns, whatever the outcome. *)
Theorem with_db_never_writes `{Keccak} {I : MapIter} {D : Type} `{!TrieDB D}
    (accts : gmap address AccountState) (st : gmap address slots) (d : D) :
  (compute_state_root_with_db accts st d).2 = d.
Proof.
  unfold compute_state_root_with_db. pose proof (keeps_account_loop st (iter_accounts accts) (trie_new d)) as E.
  by destruct (account_loop_with_db _ _ _) as [[| |] s'].
Qed.

(** A successful [commit] of the node adapter empties the buffer and
    changes no read: what was served from the buffer is served from the
    column, provided the buffered entries of one hash agree, which inserting
    nodes under their hashes maintains. *)
Theorem adapter_commit_reads {C : Type} `{!NodeColumn C} `{!NodeColumnLaws} (a a' : ZbxDbTrieAdapter C) (h : bytes) :
  coherent (pending a) → adapter_commit a = (Ok tt, a') →
  pending a' = [] ∧ db_get a' h = db_get a h ∧ db_contains a' h = db_contains a h.
Proof.
  intros Hc E. destruct (commit_reads a a' h Hc E) as [Hp Hg]. split_and!; [done..|].
  cbn. unfold adapter_contains. by rewrite Hg.
Qed.

(** ** Concrete states *)

(** A column in memory: a batch writes its entries in order. *)
#[export] Instance memory_column : NodeColumn (gmap bytes bytes) := {|
  get_trie_node c h := Ok (c !! h);
  write_batch c p := Some (fold_left (fun m kv => <[kv.1 := kv.2]> m) p c)
|}.

#[export] Instance memory_column_laws : NodeColumnLaws (C := gmap bytes bytes).
Proof.
  intros c c' p h [= <-]. cbn [get_trie_node memory_column]. induction p as [|[k v] p IH] using rev_ind; [done|].
  rewrite fold_left_app, rev_app_distr. cbn [fold_left rev app find_pending fst snd].
  case_bool_decide as E; [subst; by rewrite lookup_insert_eq|]. by rewrite lookup_insert_ne.
Qed.

Module Samples.

#[local] Instance keccak_sample : Keccak := fun b => to_be 32 (be_val b mod (2 ^ 256 - 189)).
#[local] Instance keccak_sample_ok : KeccakOk.
Proof. intros b. apply wf_to_word. Qed.

Definition iter_up : MapIter := {| iter_accounts m := map_to_list m; iter_slots m := map_to_list m |}.
Definition iter_down : MapIter := {| iter_accounts m := rev (map_to_list m); iter_slots m := rev (map_to_list m) |}.

Lemma iters_ok : iter_ok iter_up ∧ iter_ok iter_down.
Proof. split; split; intros m; cbn; try done; symmetry; apply Permutation_rev. Qed.

Definition addr (x : Z) : address := to_be 20 x.
Definition accts : gmap address AccountState :=
  {[addr 2 := mkAcct 0 9 EMPTY_CODE_HASH EMPTY_STORAGE_ROOT Evm;
    addr 3 := mkAcct 7 5 (to_be 32 99) EMPTY_STORAGE_ROOT Zvm]}.
(** One account with a leaf and one without. *)
Definition accts2 : gmap address AccountState :=
  {[addr 2 := mkAcct 0 0 EMPTY_CODE_HASH EMPTY_STORAGE_ROOT Evm;
    addr 3 := mkAcct 7 5 (to_be 32 99) EMPTY_STORAGE_ROOT Zvm]}.
Definition sl : slots := {[to_be 32 1 := to_be 32 500; to_be 32 2 := to_be 32 0]}.
Definition st : gmap address slots := {[addr 3 := sl]}.

#[local] Instance clean_dec kvs : Decision (clean kvs).
Proof. unfold clean. apply _. Defined.
#[local] Instance clean_state_dec I a s : Decision (clean_state I a s).
Proof. unfold clean_state. apply _. Defined.

Lemma wf_empty_roots : wf_word EMPTY_CODE_HASH ∧ wf_word EMPTY_STORAGE_ROOT.
Proof.
  split; (split; [done|]); unfold EMPTY_CODE_HASH, EMPTY_STORAGE_ROOT;
    repeat (apply Forall_cons_2; [unfold is_u8; lia|]); by apply Forall_nil.
Qed.

Lemma wf_world_sample A : A = accts ∨ A = accts2 → wf_world A st.
Proof.
  destruct wf_empty_roots as [Hc Hs]. intros HA. split.
  - intros a x. unfold accts, accts2 in HA. destruct HA as [-> | ->];
      rewrite !lookup_insert_Some, lookup_singleton_Some; intros [[_ <-]|[_ [_ <-]]];
      (split; cbn; [unfold is_u64; lia|lia|first [done | apply wf_to_word]|done]).
  - intros a x. unfold st. rewrite lookup_singleton_Some. intros [_ <-] k v. unfold sl.
    rewrite !lookup_insert_Some, lookup_singleton_Some.
    intros [[_ <-]|[_ [_ <-]]]; apply wf_to_word.
Qed.

Lemma clean_samples : clean_state iter_up accts st ∧ clean_state iter_down accts st.
Proof. apply (bool_decide_unpack _). vm_compute. done. Qed.

Lemma state_root_order_free_witness :
  ∃ r, @compute_state_root _ iter_up accts st = Ok r ∧ @compute_state_root _ iter_down accts st = Ok r.
Proof.
  exact (state_root_order_free iter_up iter_down accts st (proj1 iters_ok) (proj2 iters_ok) (wf_world_sample _ (or_introl eq_refl))
    (proj1 clean_samples) (proj2 clean_samples)).
Defined.

(** The suppressed account and the absent one are not told apart, by design. *)
Definition accts' : gmap address AccountState := base.delete (addr 2) accts2.

Lemma state_root_binds_witness :
  leaf iter_up accts2 st (addr 2) = leaf iter_up accts' st (addr 2).
Proof.
  assert (Hw : wf_world accts' st).
  { destruct (wf_world_sample accts2 (or_intror eq_refl)) as [Ha Hs]. split; [|done]. by apply map_Forall_delete. }
  assert (Hc : clean_state iter_up accts' st) by (apply (bool_decide_unpack _); vm_compute; done).
  assert (Hc2 : clean_state iter_up accts2 st) by (apply (bool_decide_unpack _); vm_compute; done).
  assert (E : ∃ r, @compute_state_root _ iter_up accts2 st = Ok r ∧ @compute_state_root _ iter_up accts' st = Ok r)
    by (eexists; split; vm_compute; reflexivity).
  destruct E as (r & E1 & E2).
  apply (state_root_binds iter_up accts2 accts' st st r).
  - exact (proj1 iters_ok).
  - exact (wf_world_sample accts2 (or_intror eq_refl)).
  - exact Hw.
  - exact Hc2.
  - exact Hc.
  - assert (Hall : Forall (fun b => Forall (fun c => keccak256 b = keccak256 c → b = c) (map_to_list accts').*1)
        (map_to_list accts2).*1) by (apply (bool_decide_unpack _); vm_compute; done).
    intros b c [x Hb] [y Hd]. rewrite Forall_forall in Hall. specialize (Hall b).
    rewrite Forall_forall in Hall. apply Hall; apply list_elem_of_fmap.
    + exists (b, x). split; [done|]. by apply elem_of_map_to_list.
    + exists (c, y). split; [done|]. by apply elem_of_map_to_list.
  - apply (bool_decide_unpack _). vm_compute. done.
  - exact E1.
  - exact E2.
Defined.

(** A storage root computed over a database cannot be opened from it again. *)
Definition lost_root : bytes := to_be 32 (be_val (enc (tree_of (slot_pairs iter_up sl))) mod (2 ^ 256 - 189)).

Example storage_root_lost :
  @compute_storage_root_with_db _ iter_up _ _ sl EMPTY_STORAGE_ROOT (∅ : MemoryTrieDB) = (Ok lost_root, ∅) ∧
  @compute_storage_root_with_db _ iter_up _ _ sl lost_root (∅ : MemoryTrieDB) = (Err (MissingNode lost_root), ∅).
Proof. split; vm_compute; reflexivity. Qed.

Definition adapter : ZbxDbTrieAdapter (gmap bytes bytes) := mkAdapter ∅ [([1], [10]); ([2], [20]); ([1], [10])].

Lemma adapter_commit_reads_witness :
  db_get (adapter_commit adapter).2 [2] = Ok (Some [20]).
Proof.
  assert (Hc : coherent (pending adapter)).
  { intros h v v' H1 H2. unfold adapter in *. cbn [pending] in *. set_solver. }
  destruct (adapter_commit_reads adapter (adapter_commit adapter).2 [2] Hc) as (_ & E & _);
    [vm_compute; reflexivity|]. rewrite E. reflexivity.
Defined.

End Samples.

End StateRoot.
