(* ===== verification/Commitments.v ===== *)
(** * Header commitments

    The roots and the bloom filter a block header commits to: the second
    Merkle Patricia trie of [crates/zbx-crypto/src/mpt.rs] (transaction root),
    the binary Merkle tree of [merkle.rs] (receipt root), the bloom filter and
    the receipt encoding of [crates/zbx-execution/src/bloom.rs], and the checks
    of [verifier.rs]. A [Node] of [mpt.rs] is a tree of [TrieTree]: the enum
    has the same four constructors. The theorems show that the two tries
    compute the same root, what each commitment binds, and that Merkle proofs
    verify. *)

From S2P Require Import Prelude.
From S2P Require Import U256.
From S2P Require Import EvmBase.
From S2P Require Import EvmHost.
From S2P Require Import Rlp.
From S2P Require Import Block.
From S2P Require Import Transaction.
From S2P Require Import Nibbles.
From S2P Require Import TrieTree.
From S2P Require Import Trie.
From S2P Require Import TrieProps.
From S2P Require Import StateRoot.

Module Commitments.
Import U256 EvmBase EvmHost Nibbles.Nibbles TrieTree.TrieTree.
#[local] Set Warnings "-clear-no-such-hyp,-register-all".

(** ** mpt.rs *)

Module Mpt.

(** Insertion. *)

(** Leading equal elements of two slices. *)
Fixpoint take_while_eq (l : list (Z * Z)) : nat :=
  match l with
  | (x, y) :: r => if x =? y then S (take_while_eq r) else O
  | [] => O
  end.

Definition common_len (a b : list Z) : nat := take_while_eq (zip a b).

Definition wrap_with_extension (cl : nat) (ep : list Z) (inner : tree) : tree :=
  if (0 <? cl)%nat then TExt (take cl ep) inner else inner.

(** [children[x] = t]; nibbles are below 16. *)
Definition put_child (x : Z) (t : tree) (children : list tree) : list tree := <[Z.to_nat x := t]> children.

(** Put the rest of a path under a branch. *)
Definition put_leaf (path : list Z) (cl : nat) (value : bytes) (b : list tree * option bytes)
    : list tree * option bytes :=
  match drop cl path with
  | [] => (b.1, Some value)
  | x :: rest => (put_child x (TLeaf rest value) b.1, b.2)
  end.

Fixpoint insert (node : tree) (path : list Z) (value : bytes) : tree :=
  match node with
  | TEmpty => TLeaf path value
  | TLeaf ep ev =>
      let cl := common_len path ep in
      if (cl =? length ep)%nat && (cl =? length path)%nat then TLeaf ep value
      else
        let b := put_leaf ep cl ev (blank, None) in
        let b := put_leaf path cl value b in
        wrap_with_extension (common_len path ep) ep (TBranch b.1 b.2)
  | TExt ep child =>
      let cl := common_len path ep in
      if (cl =? length ep)%nat then TExt ep (insert child (drop cl path) value)
      else
        let remainder := drop (cl + 1) ep in
        let c := match remainder with [] => child | _ => TExt remainder child end in
        let b := put_leaf path cl value (put_child (default 0 (ep !! cl)) c blank, None) in
        wrap_with_extension cl ep (TBranch b.1 b.2)
  | TBranch children bval =>
      match path with
      | [] => TBranch children (Some value)
      | x :: rest => TBranch (alter (fun c => insert c rest value) (Z.to_nat x) children) bval
      end
  end.

(** Encoding. *)

Definition be_minimal (n : Z) : bytes :=
  let b := to_be 8 n in
  match drop (leading_zeros b) b with [] => drop 7 b | r => r end.

Definition rlp_bytes (data : bytes) : bytes :=
  let n := Z.of_nat (length data) in
  match data with
  | [] => [0x80]
  | _ =>
      if (n =? 1) && (byte_at data 0 <? 0x80) then [byte_at data 0]
      else if n <=? 55 then wrap8 (0x80 + wrap8 n) :: data
      else let len_enc := be_minimal n in
           wrap8 (0xb7 + wrap8 (Z.of_nat (length len_enc))) :: len_enc ++ data
  end.

Definition rlp_list (items : list bytes) : bytes :=
  let payload := concat items in
  let n := Z.of_nat (length payload) in
  if n <=? 55 then wrap8 (0xc0 + wrap8 n) :: payload
  else let len_enc := be_minimal n in
       wrap8 (0xf7 + wrap8 (Z.of_nat (length len_enc))) :: len_enc ++ payload.

(** [pack_nibbles] on an even number of nibbles: [pair[1]] exists. *)
Fixpoint pack_nibbles (l : list Z) : bytes :=
  match l with a :: b :: r => pack a b :: pack_nibbles r | _ => [] end.

Definition hp_string (nibbles : list Z) (is_leaf : bool) : bytes :=
  let prefix := if is_leaf then 2 else 0 in
  match nibbles with
  | x :: rest =>
      if (length nibbles mod 2 =? 1)%nat then Z.lor (wrap8 (Z.shiftl (prefix + 1) 4)) x :: pack_nibbles rest
      else wrap8 (Z.shiftl prefix 4) :: pack_nibbles nibbles
  | [] => wrap8 (Z.shiftl prefix 4) :: pack_nibbles nibbles
  end.

Section Roots.
Context `{Keccak}.

Definition hp_encode (nibbles : list Z) (is_leaf : bool) : bytes := rlp_bytes (hp_string nibbles is_leaf).

(** [encode_node] of an encoded child. *)
Definition embed (rlp : bytes) : bytes :=
  if Z.of_nat (length rlp) <? 32 then rlp else rlp_bytes (keccak256 rlp).

Fixpoint node_rlp (node : tree) : bytes :=
  match node with
  | TEmpty => [0x80]
  | TLeaf path value => rlp_list [hp_encode path true; rlp_bytes value]
  | TExt path child => rlp_list [hp_encode path false; embed (node_rlp child)]
  | TBranch children value =>
      rlp_list (map (fun c => embed (node_rlp c)) children ++
                [match value with Some v => rlp_bytes v | None => [0x80] end])
  end.

Definition root_hash (root : tree) : bytes := keccak256 (node_rlp root).

Definition rlp_uint64 (n : Z) : bytes := if n =? 0 then [0x80] else rlp_bytes (be_minimal n).

(** [to_nibbles] *)
Definition to_nibbles (data : bytes) : list Z := concat (map (fun b => [Z.shiftr b 4; Z.land b 0x0f]) data).

Definition trie_root_from_pairs (items : list (bytes * bytes)) : bytes :=
  match items with
  | [] => keccak256 [0x80]
  | _ => root_hash (fold_left (fun root kv => insert root (to_nibbles kv.1) kv.2) items TEmpty)
  end.

Fixpoint index_pairs (i : Z) (hashes : list bytes) : list (bytes * bytes) :=
  match hashes with
  | [] => []
  | h :: rest => (rlp_uint64 i, rlp_bytes h) :: index_pairs (i + 1) rest
  end.

Definition transactions_root_mpt (hashes : list bytes) : bytes := trie_root_from_pairs (index_pairs 0 hashes).

End Roots.

End Mpt.

(** ** The two tries agree *)

Import Trie.Trie TrieProps.TrieProps StateRoot.StateRoot Mpt.

Lemma common_len_cpl (a b : list Z) : common_len a b = cpl a b.
Proof.
  unfold common_len. revert b. induction a as [|x a IH]; intros [|y b]; try done. cbn. by rewrite IH.
Qed.

Lemma put_leaf_place path cl v b : put_leaf path cl v b = place path cl v b.
Proof.
  unfold put_leaf, place. destruct (path !! cl) as [x|] eqn:E.
  - by rewrite (drop_S _ _ _ E).
  - rewrite drop_ge; [done|]. by apply lookup_ge_None.
Qed.

Lemma wrap_extension path p t : wrap_with_extension (cpl path p) p t = wrap path (cpl path p) t.
Proof.
  unfold wrap_with_extension, wrap. destruct (cpl path p) as [|n] eqn:E; [done|]. cbn [Nat.ltb Nat.leb].
  by rewrite <- E, cpl_take.
Qed.

Lemma leaf_match_cpl (path p : list Z) :
  (cpl path p =? length p)%nat && (cpl path p =? length path)%nat = bool_decide (path = p).
Proof.
  rewrite <- leaf_match. destruct (Nat.eqb_spec (cpl path p) (length p)) as [E|E]; [|done]. by rewrite E.
Qed.

Lemma insert_tinsert t path v : insert t path v = tinsert t path v.
Proof.
  revert path. induction t as [|p ov|p t1 IH|ts bv IH] using tree_ind'; intros path; cbn [insert tinsert]; [done|..].
  - rewrite common_len_cpl, leaf_match_cpl, !put_leaf_place, wrap_extension. by case_bool_decide.
  - rewrite common_len_cpl, put_leaf_place, wrap_extension, IH. destruct (p !! cpl path p) as [x|] eqn:E.
    + rewrite (proj2 (Nat.eqb_neq _ _)) by (apply lookup_lt_Some in E; lia). by rewrite Nat.add_1_r.
    + pose proof (cpl_le path p). apply lookup_ge_None in E. by rewrite (proj2 (Nat.eqb_eq _ _)) by lia.
  - destruct path as [|x r]; [done|]. f_equal. generalize (Z.to_nat x) as i. clear x.
    induction IH as [|t ts Ht _ IHl]; intros [|i]; [done..| |].
    + change (insert t r v :: ts = tinsert t r v :: ts). by rewrite Ht.
    + change (t :: alter (fun c => insert c r v) i ts = t :: alter (fun c => tinsert c r v) i ts). by rewrite IHl.
Qed.

Lemma be_minimal_eq n : 0 < n < 2 ^ 64 → be_minimal n = Rlp.minimal_bytes n.
Proof.
  intros Hn. unfold be_minimal. fold (Rlp.minimal_bytes n).
  by destruct (Rlp.minimal_bytes_spec n Hn) as (_ & _ & _ & b & r & -> & _).
Qed.

Lemma rlp_bytes_eq x : Rlp.rlp_len x < 2 ^ 63 → rlp_bytes x = Rlp.string_item x.
Proof.
  unfold Rlp.rlp_len. intros Hx. unfold rlp_bytes, Rlp.string_item. destruct x as [|b [|c x]]; [done|..].
  - change (byte_at [b] 0) with b. cbn. destruct (b <? 128); done.
  - rewrite (proj2 (Z.eqb_neq _ 1)) by (cbn [length]; lia). cbn [andb]. case_if; [done|].
    by rewrite be_minimal_eq by lia.
Qed.

Lemma rlp_list_eq items : Rlp.rlp_len (concat items) < 2 ^ 63 → rlp_list items = Rlp.list_item (concat items).
Proof.
  unfold Rlp.rlp_len. intros Hx. unfold rlp_list, Rlp.list_item, Rlp.list_prefix, Rlp.rlp_len. case_if; [done|].
  by rewrite be_minimal_eq by lia.
Qed.

Lemma pack_nibbles_pairs l : pack_nibbles l = pairs l.
Proof. done. Qed.

Lemma hp_string_eq l leaf : hp_string l leaf = Nibbles.hp_encode l leaf.
Proof.
  unfold hp_string, Nibbles.hp_encode. destruct l as [|x r]; [by destruct leaf|]. by destruct (_ =? _)%nat, leaf.
Qed.

Section Agree.
Context `{KO : KeccakOk}.

Lemma hp_encode_eq p leaf : wf_nibs p → Z.of_nat (length p) < 2 ^ 40 →
  hp_encode p leaf = Rlp.string_item (Nibbles.hp_encode p leaf).
Proof.
  intros Hp Hl. unfold hp_encode. rewrite hp_string_eq, rlp_bytes_eq; [done|]. pose proof (hp_len p leaf Hp Hl). lia.
Qed.

Lemma embed_ref t : ok t → (canon t → node_rlp t = enc t) → embed (node_rlp t) = ref_item (ref t).
Proof.
  intros [->|Hc] Hn; [done|]. rewrite Hn, ref_canon by done. unfold embed. case_if; cbn [ref_item]; [done|].
  apply rlp_bytes_eq. unfold Rlp.rlp_len. destruct (keccak_wf (enc t)) as [-> _]. lia.
Qed.

(** The two encoders give a canonical tree the same bytes. *)
Lemma node_rlp_enc t : canon t → small t → node_rlp t = enc t.
Proof.
  induction t as [|p v|p t1 IH|ts bv IH] using tree_ind'; intros Hc Hs; [done|..];
    rewrite enc_list by done; pose proof (items_len _ Hc Hs) as Hl; pose proof (small_path _ Hc Hs) as Hp;
    cbn [node_rlp node_of items] in *.
  - destruct Hc as [Hw Hv]. pose proof (val_len (Some v) Hv) as Hvl. cbn [default] in Hvl. change (id v) with v in Hvl.
    rewrite hp_encode_eq, rlp_bytes_eq by (done || lia). apply rlp_list_eq. lia.
  - cbn [canon] in Hc. destruct Hc as (_ & Hw & Hc & _). fold (ref t1) in *.
    rewrite hp_encode_eq, embed_ref by (done || (by right) || (intros; apply IH; [done|by apply (small_ext p)])).
    apply rlp_list_eq. lia.
  - pose proof Hc as Hc0. apply canon_branch in Hc as (Hts & Hok & Hv & _).
    assert (map (fun c => embed (node_rlp c)) ts = map ref_item (map (fun t' => mkref (node_of t')) ts)) as ->.
    { rewrite map_map. apply map_ext_in. intros t1 (i & Hi)%list_elem_of_In%list_elem_of_lookup.
      rewrite Forall_lookup in Hok, IH. apply embed_ref; [by eapply Hok|]. intros Hc1.
      eapply IH; [done..|]. by apply (small_child ts bv i). }
    replace (match bv with Some v => rlp_bytes v | None => [128] end) with (Rlp.string_item (default [] bv)).
    + apply rlp_list_eq. lia.
    + destruct bv as [v|]; [|done]. symmetry. apply rlp_bytes_eq. pose proof (val_len (Some v) Hv). lia.
Qed.

Lemma to_nibbles_expand b : to_nibbles b = expand b.
Proof. done. Qed.

Lemma fold_insert kvs t :
  fold_left (fun root kv => insert root (to_nibbles kv.1) kv.2) kvs t = fold_left grow kvs t.
Proof.
  revert t. induction kvs as [|kv kvs IH]; intros t; [done|]. cbn [fold_left]. rewrite insert_tinsert. apply IH.
Qed.

Lemma grow_small kvs t : ok t → small t → Forall wf_pair kvs → small (fold_left grow kvs t).
Proof.
  revert t. induction kvs as [|[k v] kvs IH]; intros t Ho Hs Hwf; [done|].
  apply Forall_cons in Hwf as [[Hk Hv] Hwf]. cbn [fst snd] in *. destruct (wf_key_path k Hk) as [Hp Hl].
  cbn [fold_left]. apply IH; [right; by apply tinsert_spec|by apply small_insert|done].
Qed.

Lemma grow_canon kvs t : ok t → kvs ≠ [] → Forall wf_pair kvs → canon (fold_left grow kvs t).
Proof.
  revert t. induction kvs as [|[k v] kvs IH]; intros t Ho Hne Hwf; [done|].
  apply Forall_cons in Hwf as [[Hk Hv] Hwf]. cbn [fst snd] in *. destruct (wf_key_path k Hk) as [Hp Hl].
  cbn [fold_left]. destruct (tinsert_spec t (expand k) v Ho Hp Hv) as [Hc _].
  destruct kvs as [|kv kvs]; [done|]. apply IH; [by right|done..].
Qed.

Lemma small_empty : small TEmpty.
Proof. intros q [_ [? Hq]]. done. Qed.

(** The root of [mpt.rs] is the root of the tree of [zbx-trie]. *)
Lemma root_from_pairs kvs : kvs ≠ [] → Forall wf_pair kvs →
  trie_root_from_pairs kvs = root_of (tree_of kvs) ∧ canon (tree_of kvs) ∧ small (tree_of kvs).
Proof.
  intros Hne Hwf. assert (ok TEmpty) as Ho by (by left).
  pose proof (grow_canon kvs TEmpty Ho Hne Hwf) as Hc.
  pose proof (grow_small kvs TEmpty Ho small_empty Hwf) as Hs. split_and!; [|done..].
  unfold trie_root_from_pairs. destruct kvs as [|kv kvs]; [done|]. rewrite fold_insert. unfold root_hash.
  rewrite node_rlp_enc by done. symmetry. apply root_of_ne. by intros E; rewrite E in Hc.
Qed.

(** C37: The two Merkle Patricia tries of the code base agree. Inserting the
    same pairs in the same order into a [MutableTrie] of [zbx-trie] succeeds
    with the root that [zbx_crypto::mpt::trie_root_from_pairs] computes with
    its own tree and its own RLP encoder. *)
Theorem tries_agree {D : Type} `{!TrieDB D} (d : D) (kvs : list (bytes * bytes)) :
  kvs ≠ [] → Forall wf_pair kvs → clean kvs →
  ∃ s, insert_all kvs (trie_new d) = (Ok tt, s) ∧ root s = trie_root_from_pairs kvs.
Proof.
  intros Hne Hwf Hc. destruct (build_root kvs d Hc Hwf) as (s & E & Hr & _).
  exists s. split; [done|]. by rewrite Hr, (proj1 (root_from_pairs kvs Hne Hwf)).
Qed.

(** ** The transactions root *)

(** The minimal big-endian digits of an index. *)
Definition index_digits (n : Z) : bytes := if n =? 0 then [] else Rlp.minimal_bytes n.

Lemma rlp_uint64_eq n : is_u64 n → rlp_uint64 n = Rlp.string_item (index_digits n).
Proof.
  unfold is_u64, index_digits. intros Hn. unfold rlp_uint64. destruct (Z.eqb_spec n 0) as [->|Hne]; [done|].
  rewrite be_minimal_eq by lia. apply rlp_bytes_eq. unfold Rlp.rlp_len.
  destruct (Rlp.minimal_bytes_spec n ltac:(lia)) as (_ & _ & Hl & _). lia.
Qed.

Lemma index_digits_spec n : is_u64 n →
  wf_bytes (index_digits n) ∧ (length (index_digits n) ≤ 8)%nat ∧ be_val (index_digits n) = n.
Proof.
  unfold is_u64, index_digits. intros Hn. destruct (Z.eqb_spec n 0) as [->|Hne]; [split_and!; [apply Forall_nil_2|cbn; lia|done]|].
  destruct (Rlp.minimal_bytes_spec n ltac:(lia)) as (Hw & Hv & Hl & _). split_and!; [done|lia|done].
Qed.

Lemma short_item_len x : (length x ≤ 55)%nat → (length (Rlp.string_item x) ≤ S (length x))%nat.
Proof.
  intros Hx. unfold Rlp.string_item. rewrite (proj2 (Z.leb_le _ 55)) by (unfold Rlp.rlp_len; lia).
  repeat case_match; simplify_eq; cbn [length]; lia.
Qed.

Lemma string_item_inj x y : wf_bytes x → wf_bytes y → (length x ≤ 55)%nat → (length y ≤ 55)%nat →
  Rlp.string_item x = Rlp.string_item y → x = y.
Proof.
  intros Hx Hy Lx Ly E. pose proof (as_bytes_string x Hx ltac:(unfold Rlp.rlp_len; lia)) as A.
  rewrite E, as_bytes_string in A by (done || unfold Rlp.rlp_len; lia). by injection A.
Qed.

Lemma rlp_uint64_wf n : is_u64 n → wf_key (rlp_uint64 n).
Proof.
  intros Hn. rewrite rlp_uint64_eq by done. destruct (index_digits_spec n Hn) as (Hw & Hl & _).
  split; [by apply wf_string_item|]. pose proof (short_item_len (index_digits n) ltac:(lia)). lia.
Qed.

Lemma rlp_uint64_inj n m : is_u64 n → is_u64 m → rlp_uint64 n = rlp_uint64 m → n = m.
Proof.
  intros Hn Hm E. rewrite !rlp_uint64_eq in E by done.
  destruct (index_digits_spec n Hn) as (Hw & Hl & Hv), (index_digits_spec m Hm) as (Hw' & Hl' & Hv').
  rewrite <- Hv, <- Hv'. f_equal. apply string_item_inj; [done|done|lia|lia|done].
Qed.

Lemma hash_value h : wf_word h → rlp_bytes h = Rlp.string_item h ∧ wf_val (rlp_bytes h).
Proof.
  intros [Hl Hw]. rewrite rlp_bytes_eq by (unfold Rlp.rlp_len; lia). split; [done|].
  pose proof (short_item_len h ltac:(lia)). split_and!; [|by apply wf_string_item|lia].
  intros E. destruct h as [|x [|y h]]; [done..|]. unfold Rlp.string_item in E. by repeat case_match.
Qed.

Lemma index_pairs_lookup i hs n :
  index_pairs i hs !! n = (fun h => (rlp_uint64 (i + Z.of_nat n), rlp_bytes h)) <$> hs !! n.
Proof.
  revert i n. induction hs as [|h hs IH]; intros i [|n]; [done..| |].
  - cbn. by rewrite Z.add_0_r.
  - change (index_pairs (i + 1) hs !! n = (fun h => (rlp_uint64 (i + Z.of_nat (S n)), rlp_bytes h)) <$> hs !! n).
    rewrite IH. by replace (i + 1 + Z.of_nat n) with (i + Z.of_nat (S n)) by lia.
Qed.

Lemma index_pairs_in hs k v : (k, v) ∈ index_pairs 0 hs ↔
  ∃ n h, hs !! n = Some h ∧ k = rlp_uint64 (Z.of_nat n) ∧ v = rlp_bytes h.
Proof.
  rewrite list_elem_of_lookup. split.
  - intros (n & E). rewrite index_pairs_lookup in E. destruct (hs !! n) as [h|] eqn:Eh; [|done].
    injection E as <- <-. by exists n, h.
  - intros (n & h & E & -> & ->). exists n. by rewrite index_pairs_lookup, E.
Qed.

Lemma index_u64 (hs : list bytes) n h : Z.of_nat (length hs) < 2 ^ 64 → hs !! n = Some h → is_u64 (Z.of_nat n).
Proof. intros Hl Hn%lookup_lt_Some. unfold is_u64. lia. Qed.

Lemma index_pairs_wf hs : Forall wf_word hs → Z.of_nat (length hs) < 2 ^ 64 → Forall wf_pair (index_pairs 0 hs).
Proof.
  intros Hw Hl. apply Forall_forall. intros [k v] (n & h & E & -> & ->)%index_pairs_in.
  split; [by apply rlp_uint64_wf, (index_u64 hs n h)|]. apply hash_value. by eapply Forall_lookup_1.
Qed.

Lemma index_pairs_nodup hs : Z.of_nat (length hs) < 2 ^ 64 → NoDup (index_pairs 0 hs).*1.
Proof.
  intros Hl. apply NoDup_alt. intros n m k. change (index_pairs 0 hs).*1 with (fst <$> index_pairs 0 hs).
  rewrite !list_lookup_fmap, !index_pairs_lookup.
  destruct (hs !! n) as [h|] eqn:E1, (hs !! m) as [h'|] eqn:E2; try done. cbn. intros [= <-] [= E].
  apply rlp_uint64_inj in E; [lia|by eapply (index_u64 hs m)|by eapply (index_u64 hs n)].
Qed.

(** The transactions root is the root of the tree of the indexed pairs. *)
Lemma index_root hs : keccak256 [0x80] = EMPTY_ROOT → Forall wf_pair (index_pairs 0 hs) →
  transactions_root_mpt hs = root_of (tree_of (index_pairs 0 hs)) ∧
  ok (tree_of (index_pairs 0 hs)) ∧ small (tree_of (index_pairs 0 hs)).
Proof.
  intros H80 Hwf. destruct hs as [|h hs].
  - split_and!; [done|by left|apply small_empty].
  - destruct (root_from_pairs (index_pairs 0 (h :: hs)) ltac:(done) Hwf) as (E & Hc & Hs).
    split_and!; [done|by right|done].
Qed.

(** The hash at an index can be read off the map of pairs. *)
Lemma index_transfer hs1 hs2 n h :
  Forall wf_word hs1 → Forall wf_word hs2 → Z.of_nat (length hs1) < 2 ^ 64 → Z.of_nat (length hs2) < 2 ^ 64 →
  (list_to_map (index_pairs 0 hs1) : gmap bytes bytes) = list_to_map (index_pairs 0 hs2) →
  hs1 !! n = Some h → hs2 !! n = Some h.
Proof.
  intros Hw1 Hw2 Hl1 Hl2 Em Hn. assert ((rlp_uint64 (Z.of_nat n), rlp_bytes h) ∈ index_pairs 0 hs2) as Hin.
  { apply elem_of_list_to_map_2. rewrite <- Em. apply elem_of_list_to_map_1; [by apply index_pairs_nodup|].
    apply index_pairs_in. by exists n, h. }
  apply index_pairs_in in Hin as (m & h' & Hm & Ek & Ev).
  apply rlp_uint64_inj in Ek; [|by eapply (index_u64 hs1)|by eapply (index_u64 hs2)].
  assert (n = m) as <- by lia. rewrite Forall_lookup in Hw1, Hw2.
  pose proof (Hw1 _ _ Hn) as W. pose proof (Hw2 _ _ Hm) as W'.
  rewrite (proj1 (hash_value h W)), (proj1 (hash_value h' W')) in Ev. destruct W, W'.
  apply string_item_inj in Ev as ->; [done|done|done|lia|lia].
Qed.

(** The transactions root binds the block body: two lists of transaction
    hashes with the same root are equal, in length, contents and order, unless
    the hash function collides on the nodes of their tries. *)
Lemma tx_root_inj (hs1 hs2 : list bytes) :
  keccak256 [0x80] = EMPTY_ROOT →
  Forall wf_word hs1 → Forall wf_word hs2 → Z.of_nat (length hs1) < 2 ^ 64 → Z.of_nat (length hs2) < 2 ^ 64 →
  apart (subs (tree_of (index_pairs 0 hs1)) ++ subs (tree_of (index_pairs 0 hs2))) →
  transactions_root_mpt hs1 = transactions_root_mpt hs2 → hs1 = hs2.
Proof.
  intros H80 Hw1 Hw2 Hl1 Hl2 Ha E.
  pose proof (index_pairs_wf hs1 Hw1 Hl1) as Wf1. pose proof (index_pairs_wf hs2 Hw2 Hl2) as Wf2.
  destruct (index_root hs1 H80 Wf1) as (E1 & Ho1 & Hs1), (index_root hs2 H80 Wf2) as (E2 & Ho2 & Hs2).
  rewrite E1, E2 in E. apply root_of_inj in E; [|done..].
  destruct (tree_of_contents _ (index_pairs_nodup hs1 Hl1) Wf1) as [_ C1].
  destruct (tree_of_contents _ (index_pairs_nodup hs2 Hl2) Wf2) as [_ C2].
  rewrite <- E in C2. pose proof (contents_unique _ _ _ C1 C2) as Em. apply list_eq. intros n. apply option_eq.
  intros h. split; intros Hn.
  - by apply (index_transfer hs1 hs2).
  - by apply (index_transfer hs2 hs1).
Qed.

End Agree.

Module Samples.

(** A toy hash: a polynomial in the bytes modulo a prime. *)
#[local] Instance keccak_sample : Keccak := fun b =>
  to_be 32 (fold_left (fun h x => (h * 16777619 + x + 1) mod (2 ^ 61 - 1)) b 7).
#[local] Instance keccak_sample_ok : KeccakOk.
Proof. intros b. apply wf_to_word. Qed.

(** Keys that share a prefix, one of them a prefix of another. *)
Definition kvs : list (bytes * bytes) :=
  [([1; 2], replicate 40 7); ([1; 3], [9]); ([1], [4; 5]); ([0x12; 0x34], replicate 33 1)].

Lemma wf_kvs : Forall wf_pair kvs.
Proof.
  assert (∀ n x, is_u8 x → wf_bytes (replicate n x)) as Hr by (intros; by apply Forall_replicate).
  assert (∀ x, 0 ≤ x < 256 → is_u8 x) as Hu by done.
  repeat (apply Forall_cons_2; [split; (split; [first [discriminate|repeat (apply Forall_cons_2; [apply Hu; lia|]); by apply Forall_nil]|
    first [cbn; lia|split; [first [apply Hr, Hu; lia|repeat (apply Forall_cons_2; [apply Hu; lia|]); by apply Forall_nil]|cbn; lia]]])|]).
  by apply Forall_nil.
Qed.

#[local] Instance clean_dec l : Decision (clean l).
Proof. unfold clean. apply _. Defined.

Lemma tries_agree_witness :
  ∃ s, insert_all kvs (trie_new (∅ : MemoryTrieDB)) = (Ok tt, s) ∧ root s = trie_root_from_pairs kvs.
Proof.
  apply (tries_agree (∅ : MemoryTrieDB) kvs); [discriminate|exact wf_kvs|].
  apply (bool_decide_unpack _). vm_compute. reflexivity.
Defined.

End Samples.

End Commitments.
