(* ===== verification/Receipts.v ===== *)
(** * Receipts, Merkle trees and header checks

    The receipt side of a block header: receipt and log types of
    [crates/zbx-types/src/receipt.rs], the binary Merkle tree of
    [crates/zbx-crypto/src/merkle.rs], the bloom filter, the receipt encoding
    and the receipts root of [crates/zbx-execution/src/bloom.rs], the second
    bloom filter of [crates/zbx-primitives/src/bloom.rs], and the block checks
    of [crates/zbx-execution/src/verifier.rs]. The theorems show that Merkle
    proofs are complete and sound, what the receipts root binds and what it
    leaves open, that the bloom filter has no false negatives, and that a block
    hash binds the body of a block that passes the checks. *)

From S2P Require Import Prelude.
From S2P Require Import U256.
From S2P Require Import EvmBase.
From S2P Require Import EvmHost.
From S2P Require Import Rlp.
From S2P Require Import Block.
From S2P Require Import Transaction.
From S2P Require Import Nibbles.
From S2P Require Import TrieTree.
From S2P Require Import Trie.
From S2P Require Import TrieProps.
From S2P Require Import StateRoot.
From S2P Require Import Commitments.

Module Receipts.
Import U256 EvmBase EvmHost Transaction.Transaction.
#[local] Set Warnings "-clear-no-such-hyp,-register-all".

(** ** receipt.rs *)

Record Log := mkLog {
  log_address : address;
  topics : list bytes;
  log_data : bytes;
  log_block_number : Z;
  log_index : Z;
  log_tx_hash : bytes;
  log_tx_index : Z
}.

Inductive TxStatus := Failure | Success.

Definition status_byte (s : TxStatus) : Z := match s with Failure => 0 | Success => 1 end.

Record TransactionReceipt := mkReceipt {
  status : TxStatus;
  cumulative_gas_used : Z;
  rc_logs_bloom : bytes;
  logs : list Log;
  rc_tx_hash : bytes;
  rc_tx_index : Z;
  rc_block_hash : bytes;
  rc_block_number : Z;
  rc_from : address;
  rc_to : option address;
  contract_address : option address;
  rc_gas_used : Z;
  rc_effective_gas_price : Z
}.

Definition is_success (r : TransactionReceipt) : bool := match status r with Success => true | Failure => false end.

(** ** merkle.rs *)

Section Merkle.
Context `{Keccak}.

Definition hash_leaf (data : bytes) : bytes := keccak256 (0x00 :: data).
Definition combine_hashes (left right : bytes) : bytes := keccak256 (0x01 :: left ++ right).

(** [current.chunks(2).map(..)] *)
Fixpoint next_layer (current : list bytes) : list bytes :=
  match current with
  | a :: b :: rest => combine_hashes a b :: next_layer rest
  | [a] => [combine_hashes a a]
  | [] => []
  end.

(** The [while] loop; the layer shrinks, so its length is enough fuel. *)
Fixpoint build_loop (fuel : nat) (current : list bytes) : list (list bytes) :=
  match fuel with
  | O => [current]
  | S f => if (1 <? length current)%nat then current :: build_loop f (next_layer current) else [current]
  end.

Record MerkleTree := mkTree { layers : list (list bytes) }.

Definition build_from_hashes (current : list bytes) : MerkleTree := mkTree (build_loop (length current) current).

(** [None] is the failed assertion. *)
Definition build (leaves : list bytes) : option MerkleTree :=
  match leaves with [] => None | _ => Some (build_from_hashes (map hash_leaf leaves)) end.

Definition root (t : MerkleTree) : bytes :=
  default (replicate 32 0) (last (layers t) ≫= head).

Definition len (t : MerkleTree) : nat := from_option length O (head (layers t)).

Record MerkleProof := mkProof { leaf_index : Z; leaf_count : Z; siblings : list bytes }.

(** The loop over all layers but the last; [layer[idx]] is in range for a
    valid index. *)
Fixpoint proof_loop (idx : nat) (ls : list (list bytes)) : list bytes :=
  match ls with
  | [] | [_] => []
  | layer :: rest =>
      let sibling_idx := if (idx mod 2 =? 0)%nat then (idx + 1)%nat else (idx - 1)%nat in
      (if (sibling_idx <? length layer)%nat then default [] (layer !! sibling_idx) else default [] (layer !! idx))
        :: proof_loop (idx / 2) rest
  end.

Definition proof (t : MerkleTree) (leaf_index : nat) : option MerkleProof :=
  if (len t <=? leaf_index)%nat then None
  else Some (mkProof (Z.of_nat leaf_index) (Z.of_nat (len t)) (proof_loop leaf_index (layers t))).

Fixpoint verify_loop (current : bytes) (index : Z) (sibs : list bytes) : bytes :=
  match sibs with
  | [] => current
  | sibling :: rest =>
      verify_loop (if index mod 2 =? 0 then combine_hashes current sibling else combine_hashes sibling current)
        (index / 2) rest
  end.

Definition verify (p : MerkleProof) (r leaf_hash : bytes) : bool :=
  bool_decide (verify_loop leaf_hash (leaf_index p) (siblings p) = r).

Definition transactions_root (tx_hashes : list bytes) : bytes :=
  match tx_hashes with [] => replicate 32 0 | _ => root (build_from_hashes tx_hashes) end.

End Merkle.

(** ** bloom.rs *)

Section Bloom.
Context `{Keccak}.

Definition bloom_bit (h : bytes) (v : nat) : Z :=
  Z.land (Z.lor (Z.shiftl (byte_at h v) 8 mod 2 ^ 16) (byte_at h (v + 1))) 2047.

Definition bloom_set (bloom : bytes) (bit : Z) : bytes :=
  alter (fun b => Z.lor b (wrap8 (Z.shiftl 1 (bit mod 8)))) (Z.to_nat (256 - bit / 8 - 1)) bloom.

Definition bloom_add (bloom item : bytes) : bytes :=
  let h := keccak256 item in
  fold_left (fun bloom v => bloom_set bloom (bloom_bit h v)) [0; 2; 4]%nat bloom.

Definition bloom_log (bloom : bytes) (log : Log) : bytes :=
  fold_left bloom_add (topics log) (bloom_add bloom (log_address log)).

Definition compute_receipt_bloom (logs : list Log) : bytes := fold_left bloom_log logs (replicate 256 0).

Definition or_bytes (a b : bytes) : bytes := zip_with Z.lor a b.

Definition aggregate_block_bloom (receipts : list TransactionReceipt) : bytes :=
  fold_left (fun bloom r => or_bytes bloom (rc_logs_bloom r)) receipts (replicate 256 0).

Definition encode_log (log : Log) : bytes :=
  log_address log ++ to_be 8 (Z.of_nat (length (topics log))) ++ concat (topics log) ++
  to_be 8 (Z.of_nat (length (log_data log))) ++ log_data log.

(** The buffer [compute_receipt_hash] digests. *)
Definition encode_receipt (r : TransactionReceipt) : bytes :=
  status_byte (status r) :: to_be 8 (cumulative_gas_used r) ++ rc_logs_bloom r ++
  to_be 8 (Z.of_nat (length (logs r))) ++ concat (map encode_log (logs r)).

Definition compute_receipt_hash (r : TransactionReceipt) : bytes := keccak256 (encode_receipt r).

Definition compute_receipts_root (receipts : list TransactionReceipt) : bytes :=
  match receipts with
  | [] => replicate 32 0
  | _ => transactions_root (map compute_receipt_hash receipts)
  end.

Definition compute_tx_root `{RlpCrate} (txs : list SignedTransaction) : bytes :=
  Commitments.Mpt.transactions_root_mpt (map (fun t => signing_hash (tx t)) txs).

End Bloom.

(** ** zbx-primitives bloom.rs *)

Definition accrue (self other : bytes) : bytes := zip_with Z.lor self other.

Definition prim_add (self hashed : bytes) : bytes :=
  if Z.of_nat (length hashed) <? 6 then self
  else fold_left (fun b i =>
         let bit := Z.lor (Z.shiftl (byte_at hashed (2 * i)) 8 mod 2 ^ 16) (byte_at hashed (2 * i + 1)) mod 2048 in
         alter (fun x => Z.lor x (wrap8 (Z.shiftl 1 (bit mod 8)))) (Z.to_nat (255 - bit / 8)) b) [0; 1; 2]%nat self.

(** ** verifier.rs *)

(** The message inside [ExecutionError::Validation]. *)
Inductive Mismatch :=
  | HeaderInvalid (e : Block.HeaderError)
  | TransactionsRootMismatch
  | GasUsedMismatch (header_says execution_used : Z)
  | StateRootMismatch (number : Z) (header_says computed : bytes)
  | ReceiptsRootMismatch (number : Z) (header_says computed : bytes)
  | LogsBloomMismatch (number : Z)
  | GasUsedAboveLimit (used limit number : Z).

Section Verifier.
Context `{Keccak} `{RlpCrate}.

#[local] Abbreviation Block := (Block.Block SignedTransaction).
#[local] Abbreviation check := (outcome Mismatch unit).

Definition verify_header (h parent : Block.BlockHeader) : check :=
  match Block.validate_against_parent h parent with
  | Ok tt => Ok tt
  | Err e => Err (HeaderInvalid e)
  | Panic => Panic
  end.

Definition verify_transactions_root (b : Block) : check :=
  let hashes := map (fun t => signing_hash (tx t)) (Block.transactions (Block.body b)) in
  let computed := Commitments.Mpt.transactions_root_mpt hashes in
  if bool_decide (computed = Block.transactions_root (Block.header b)) then Ok tt else Err TransactionsRootMismatch.

Definition verify_gas_used (b : Block) (actual_gas : Z) : check :=
  let h := Block.header b in
  if negb (Block.gas_used h =? actual_gas) then Err (GasUsedMismatch (Block.gas_used h) actual_gas) else Ok tt.

Definition verify_state_root (b : Block) (computed : bytes) : check :=
  let h := Block.header b in
  if bool_decide (Block.state_root h = computed) then Ok tt
  else Err (StateRootMismatch (Block.number h) (Block.state_root h) computed).

Definition verify_receipts_root (b : Block) (computed : bytes) : check :=
  let h := Block.header b in
  if bool_decide (Block.receipts_root h = computed) then Ok tt
  else Err (ReceiptsRootMismatch (Block.number h) (Block.receipts_root h) computed).

Definition verify_logs_bloom (b : Block) (computed : bytes) : check :=
  let h := Block.header b in
  if bool_decide (Block.logs_bloom h = computed) then Ok tt else Err (LogsBloomMismatch (Block.number h)).

Definition verify_gas_limit_bound (b : Block) : check :=
  let h := Block.header b in
  if Block.gas_limit h <? Block.gas_used h
  then Err (GasUsedAboveLimit (Block.gas_used h) (Block.gas_limit h) (Block.number h)) else Ok tt.

End Verifier.

(** ** Merkle proofs *)

Section MerkleProps.
Context `{KO : KeccakOk}.

(** Layers are read two hashes at a time. *)
Lemma pair_ind (P : list bytes → Prop) :
  P [] → (∀ a, P [a]) → (∀ a b l, P l → P (a :: b :: l)) → ∀ l, P l.
Proof.
  intros H0 H1 H2. refine (fix go l := match l with [] => H0 | [a] => H1 a | a :: b :: r => H2 a b r (go r) end).
Qed.

Lemma length_next l : length (next_layer l) = ((length l + 1) / 2)%nat.
Proof.
  induction l as [|a|a b l IH] using pair_ind; [done..|]. cbn [next_layer length]. rewrite IH.
  replace (S (S (length l)) + 1)%nat with (length l + 1 + 1 * 2)%nat by lia. rewrite Nat.div_add by lia. lia.
Qed.

(** The buffers [combine_hashes] digests for a layer. *)
Fixpoint next_preimages (current : list bytes) : list bytes :=
  match current with
  | a :: b :: rest => (1 :: a ++ b) :: next_preimages rest
  | [a] => [1 :: a ++ a]
  | [] => []
  end.

(** The pair a node of the next layer is made of. *)
Lemma next_lookup l i x :
  l !! i = Some x →
  ∃ a b, next_layer l !! (i / 2)%nat = Some (combine_hashes a b) ∧ (1 :: a ++ b) ∈ next_preimages l ∧
    if (i mod 2 =? 0)%nat then a = x ∧ b = default x (l !! (i + 1)%nat) else b = x ∧ l !! (i - 1)%nat = Some a.
Proof.
  revert i. induction l as [|a|a b l IH] using pair_ind; intros i Hi; [done|..].
  - destruct i as [|i]; [|done]. injection Hi as <-. exists a, a. split_and!; [done|by left|done].
  - destruct i as [|[|i]].
    + injection Hi as <-. exists a, b. split_and!; [done|by left|done].
    + injection Hi as <-. exists a, b. split_and!; [done|by left|done].
    + destruct (IH i Hi) as (c & d & Hn & Hp & Hx). exists c, d.
      replace (S (S i)) with (i + 1 * 2)%nat by lia. rewrite Nat.div_add, Nat.Div0.mod_add by lia.
      split_and!; [by rewrite Nat.add_1_r|by right|].
      destruct (Nat.eqb_spec (i mod 2) 0) as [E|E].
      * by replace (i + 1 * 2 + 1)%nat with (S (S (i + 1))) by lia.
      * destruct i as [|i]; [done|]. by replace (S i + 1 * 2 - 1)%nat with (S (S (S i - 1))) by lia.
Qed.

Fixpoint tree_preimages (fuel : nat) (current : list bytes) : list bytes :=
  match fuel with
  | O => []
  | S f => if (1 <? length current)%nat then next_preimages current ++ tree_preimages f (next_layer current) else []
  end.

(** The buffers a verifier digests. *)
Fixpoint path_preimages (current : bytes) (index : Z) (sibs : list bytes) : list bytes :=
  match sibs with
  | [] => []
  | sibling :: rest =>
      let b := if index mod 2 =? 0 then 1 :: current ++ sibling else 1 :: sibling ++ current in
      b :: path_preimages (keccak256 b) (index / 2) rest
  end.

(** No two different buffers of the list have the same hash. *)
Definition collision_free (U : list bytes) : Prop :=
  Forall (fun x => Forall (fun y => keccak256 x = keccak256 y → x = y) U) U.

(** Decided on the list of digests, computed once. *)
Lemma collision_free_hashed U :
  collision_free U ↔
  Forall (fun p => Forall (fun q => p.1 = q.1 → p.2 = q.2) ((fun x => (keccak256 x, x)) <$> U))
    ((fun x => (keccak256 x, x)) <$> U).
Proof. unfold collision_free. rewrite Forall_fmap. apply Forall_proper; [|done]. intros x. cbn. by rewrite Forall_fmap. Qed.

#[export] Instance collision_free_dec U : Decision (collision_free U).
Proof.
  assert (∀ L : list (bytes * bytes), Decision (Forall (fun p => Forall (fun q => p.1 = q.1 → p.2 = q.2) L) L)) as D
    by (intros L; apply Forall_dec; intros p; apply Forall_dec; apply _).
  destruct (D ((fun x => (keccak256 x, x)) <$> U)) as [Hc|Hc]; [left|right]; by rewrite collision_free_hashed.
Defined.

Lemma collision_free_use U x y : collision_free U → x ∈ U → y ∈ U → keccak256 x = keccak256 y → x = y.
Proof. unfold collision_free. rewrite Forall_forall. intros HU Hx. specialize (HU x Hx). rewrite Forall_forall in HU. apply HU. Qed.

Lemma collision_free_mono U V : V ⊆ U → collision_free U → collision_free V.
Proof.
  intros HV HU. apply Forall_forall. intros x Hx. apply Forall_forall. intros y Hy.
  by apply (collision_free_use U); [|apply HV..].
Qed.

Lemma build_loop_cons f l : ∃ ls, build_loop f l = l :: ls.
Proof. destruct f as [|f]; cbn; [by eexists|]. case_match; by eexists. Qed.

Lemma root_cons l f l' : root (mkTree (l :: build_loop f l')) = root (mkTree (build_loop f l')).
Proof. by destruct (build_loop_cons f l') as (ls & ->). Qed.

Lemma build_loop_S f l :
  build_loop (S f) l = if (1 <? length l)%nat then l :: build_loop f (next_layer l) else [l].
Proof. done. Qed.

Lemma build_loop_stop f l : (length l ≤ 1)%nat → build_loop f l = [l].
Proof. intros Hl. destruct f as [|f]; [done|]. by rewrite build_loop_S, (proj2 (Nat.ltb_ge _ _)). Qed.

Lemma build_loop_step f l : (1 < length l ≤ f)%nat →
  ∃ f', f = S f' ∧ (length (next_layer l) ≤ f')%nat ∧ build_loop f l = l :: build_loop f' (next_layer l).
Proof.
  intros Hl. destruct f as [|f]; [lia|]. exists f. rewrite build_loop_S, (proj2 (Nat.ltb_lt _ _)) by lia.
  split_and!; [done| |done]. rewrite length_next. apply Nat.lt_succ_r, Nat.Div0.div_lt_upper_bound. lia.
Qed.

(** Enough fuel: the last layer is the root alone. *)
Lemma build_loop_done f l : l ≠ [] → (length l ≤ f)%nat → ∃ r, last (build_loop f l) = Some [r].
Proof.
  revert l. induction f as [|f IH]; intros l Hne Hl; [destruct l; [done|cbn in Hl; lia]|].
  destruct (decide (length l ≤ 1)%nat) as [H1|H1].
  - rewrite build_loop_stop by done. destruct l as [|x [|y l]]; [done|by exists x|cbn in *; lia].
  - destruct (build_loop_step (S f) l ltac:(lia)) as (f' & [= <-] & Hn & ->).
    destruct (IH (next_layer l)) as (r & Hr); [|done|].
    + destruct l as [|a [|b l]]; [done..|]. discriminate.
    + exists r. destruct (build_loop_cons f (next_layer l)) as (ls & E). by rewrite E in *.
Qed.

Lemma build_loop_fuel f g l : (length l ≤ f)%nat → (length l ≤ g)%nat → build_loop f l = build_loop g l.
Proof.
  revert g l. induction f as [|f IH]; intros g l Hf Hg.
  - by rewrite !build_loop_stop by lia.
  - destruct (decide (length l ≤ 1)%nat) as [H1|H1]; [by rewrite !build_loop_stop by done|].
    destruct (build_loop_step (S f) l ltac:(lia)) as (f' & [= <-] & Hn & ->).
    destruct (build_loop_step g l ltac:(lia)) as (g' & -> & Hn' & ->). f_equal. by apply IH.
Qed.

Lemma half_parity i : Z.of_nat i / 2 = Z.of_nat (i / 2) ∧ (Z.of_nat i mod 2 =? 0) = (i mod 2 =? 0)%nat.
Proof.
  split; [by rewrite Nat2Z.inj_div|]. change 2 with (Z.of_nat 2). rewrite <- Nat2Z.inj_mod.
  destruct (Nat.eqb_spec (i mod 2) 0) as [->|E]; [done|]. apply Z.eqb_neq. lia.
Qed.

Lemma proof_verifies f l i x :
  (length l ≤ f)%nat → l !! i = Some x →
  verify_loop x (Z.of_nat i) (proof_loop i (build_loop f l)) = root (mkTree (build_loop f l)).
Proof.
  revert l i x. induction f as [|f IH]; intros l i x Hl Hi.
  - destruct l; [done|cbn in *; lia].
  - pose proof (lookup_lt_Some _ _ _ Hi) as Hlt. destruct (decide (length l ≤ 1)%nat) as [H1|H1].
    + rewrite build_loop_stop by done. destruct l as [|y [|z l]]; [done| |cbn in *; lia].
      destruct i; [|done]. by injection Hi as <-.
    + destruct (build_loop_step (S f) l ltac:(lia)) as (f' & [= <-] & Hn & ->).
      destruct (next_lookup l i x Hi) as (a & b & Hab & _ & Hx). rewrite root_cons.
      rewrite <- (IH _ _ _ Hn Hab). destruct (build_loop_cons f (next_layer l)) as (ls & E). rewrite E.
      cbn [proof_loop verify_loop]. destruct (half_parity i) as [-> ->].
      destruct (Nat.eqb_spec (i mod 2) 0) as [Ei|Ei].
      * destruct Hx as [-> ->]. rewrite Hi. do 2 f_equal.
        destruct (Nat.ltb_spec (i + 1) (length l)) as [Hs|Hs].
        -- by destruct (lookup_lt_is_Some_2 l (i + 1)%nat Hs) as [y ->].
        -- by rewrite (lookup_ge_None_2 l (i + 1)%nat).
      * destruct Hx as [-> Ha]. rewrite Ha, (proj2 (Nat.ltb_lt _ _)) by lia. done.
Qed.

Lemma pair_inj (a b c d : bytes) : length a = length c → 1 :: a ++ b = 1 :: c ++ d → a = c ∧ b = d.
Proof. intros Hl E. injection E as E. by apply app_inj_1. Qed.

Definition hashes (l : list bytes) : Prop := Forall (fun h => length h = 32%nat) l.

Lemma combine_len a b : length (combine_hashes a b) = 32%nat.
Proof. unfold combine_hashes. apply keccak_wf. Qed.

Lemma hashes_next l : hashes (next_layer l).
Proof.
  induction l as [|a|a b l IH] using pair_ind; cbn; [by apply Forall_nil| |];
    apply Forall_cons_2; [apply combine_len|by apply Forall_nil|apply combine_len|done].
Qed.

Lemma proof_binds f l i x sibs :
  (length l ≤ f)%nat → (i < length l)%nat → hashes l → hashes (x :: sibs) →
  length (build_loop f l) = S (length sibs) →
  collision_free (tree_preimages f l ++ path_preimages x (Z.of_nat i) sibs) →
  verify_loop x (Z.of_nat i) sibs = root (mkTree (build_loop f l)) → l !! i = Some x.
Proof.
  revert l i x sibs. induction f as [|f IH]; intros l i x sibs Hl Hi Hh [Hx Hsibs]%Forall_cons Hd Hc Hv; [lia|].
  destruct (decide (length l ≤ 1)%nat) as [H1|H1].
  { rewrite build_loop_stop in * by done. destruct sibs; [|done].
    destruct l as [|y [|z l]]; [cbn in *; lia| |cbn in *; lia]. cbn in Hi. replace i with O by lia.
    change (Some y = Some x). f_equal. done. }
  destruct (build_loop_step (S f) l ltac:(lia)) as (f' & [= <-] & Hn & E). rewrite E in *.
  destruct sibs as [|s sibs].
  { destruct (build_loop_cons f (next_layer l)) as (ls & E'). by rewrite E' in Hd. }
  apply Forall_cons in Hsibs as [Hs Hsibs]. rewrite root_cons in Hv. cbn [verify_loop] in Hv.
  destruct (lookup_lt_is_Some_2 l i Hi) as [y Hy]. destruct (next_lookup l i y Hy) as (a & b & Hab & Hp & Hxy).
  cbn [path_preimages tree_preimages] in Hc. rewrite (proj2 (Nat.ltb_lt _ _)) in Hc by lia.
  destruct (half_parity i) as [Ed Em]. rewrite Ed, Em in *.
  set (buf := if (i mod 2 =? 0)%nat then 1 :: x ++ s else 1 :: s ++ x) in *.
  assert ((if (i mod 2 =? 0)%nat then combine_hashes x s else combine_hashes s x) = keccak256 buf) as Eb
    by (unfold buf; by case_match). rewrite Eb in Hv.
  apply IH in Hv; [|done|by apply lookup_lt_Some in Hab|apply hashes_next| |by injection Hd|];
    [|apply Forall_cons_2; [apply keccak_wf|done]|eapply collision_free_mono, Hc; set_solver].
  assert (1 :: a ++ b = buf) as Ebuf.
  { apply (collision_free_use _ _ _ Hc); [set_solver..|]. rewrite Hab in Hv. by injection Hv. }
  pose proof (Forall_lookup_1 _ _ _ _ Hh Hy) as Ly. cbn in Ly. unfold buf in Ebuf. rewrite Hy. f_equal.
  destruct (Nat.eqb_spec (i mod 2) 0) as [Ei|Ei].
  - destruct Hxy as [-> _]. by apply pair_inj in Ebuf as [-> _]; [|congruence].
  - destruct Hxy as [-> Ha]. apply pair_inj in Ebuf as [_ ->]; [done|].
    pose proof (Forall_lookup_1 _ _ _ _ Hh Ha) as La. cbn in La. congruence.
Qed.

Lemma next_inj l1 l2 :
  length l1 = length l2 → hashes l1 → hashes l2 → collision_free (next_preimages l1 ++ next_preimages l2) →
  next_layer l1 = next_layer l2 → l1 = l2.
Proof.
  revert l2. induction l1 as [|a|a b l1 IH] using pair_ind; intros l2 Hl H1 H2 Hc E.
  - by destruct l2.
  - destruct l2 as [|c [|d l2]]; [done| |done]. injection E as E.
    apply (collision_free_use _ (1 :: a ++ a) (1 :: c ++ c) Hc) in E; [|set_solver..].
    apply Forall_cons in H1 as [La _], H2 as [Lc _]. apply pair_inj in E as [-> _]; [done|congruence].
  - destruct l2 as [|c [|d l2]]; [done..|]. injection E as Eh E.
    apply (collision_free_use _ (1 :: a ++ b) (1 :: c ++ d) Hc) in Eh; [|set_solver..].
    apply Forall_cons in H1 as [La H1], H2 as [Lc H2]. apply Forall_cons in H1 as [_ H1], H2 as [_ H2].
    apply pair_inj in Eh as [-> ->]; [|congruence]. f_equal; f_equal. apply IH; [by injection Hl|done|done| |done].
    eapply collision_free_mono, Hc. cbn. set_solver.
Qed.

Lemma root_binds f l1 l2 :
  length l1 = length l2 → (length l1 ≤ f)%nat → hashes l1 → hashes l2 →
  collision_free (tree_preimages f l1 ++ tree_preimages f l2) →
  root (mkTree (build_loop f l1)) = root (mkTree (build_loop f l2)) → l1 = l2.
Proof.
  revert l1 l2. induction f as [|f IH]; intros l1 l2 Hl Hf H1 H2 Hc E.
  { destruct l1, l2; by try (cbn in *; lia). }
  destruct (decide (length l1 ≤ 1)%nat) as [Hs|Hs].
  { rewrite !build_loop_stop in E by lia. destruct l1 as [|a [|b l1]], l2 as [|c [|d l2]]; try done; try (cbn in *; lia).
    cbn in E. congruence. }
  cbn [tree_preimages] in Hc. rewrite !(proj2 (Nat.ltb_lt _ _)) in Hc by lia.
  destruct (build_loop_step (S f) l1 ltac:(lia)) as (f' & [= <-] & Hn & E1).
  destruct (build_loop_step (S f) l2 ltac:(lia)) as (f' & [= <-] & _ & E2).
  rewrite E1, E2, !root_cons in E. apply IH in E; [|by rewrite !length_next, Hl|done|apply hashes_next..|].
  - apply next_inj in E; [done..|]. eapply collision_free_mono, Hc. set_solver.
  - eapply collision_free_mono, Hc. set_solver.
Qed.

Lemma next_duplicate l x : Nat.odd (length l) = true → last l = Some x → next_layer (l ++ [x]) = next_layer l.
Proof.
  induction l as [|a|a b l IH] using pair_ind; intros Ho Hx; [done|by injection Hx as ->|].
  cbn [app next_layer]. f_equal. destruct l as [|c l]; [done|]. by apply IH.
Qed.

Lemma root_duplicate f g l x :
  Nat.odd (length l) = true → (1 < length l)%nat → last l = Some x → (length l ≤ f)%nat → (S (length l) ≤ g)%nat →
  root (mkTree (build_loop g (l ++ [x]))) = root (mkTree (build_loop f l)).
Proof.
  intros Ho H1 Hx Hf Hg. destruct (build_loop_step f l ltac:(lia)) as (f' & -> & Hn & ->).
  destruct (build_loop_step g (l ++ [x])) as (g' & -> & Hn' & ->); [rewrite length_app; cbn; lia|].
  rewrite !root_cons, next_duplicate in * by done. by rewrite (build_loop_fuel g' f').
Qed.

End MerkleProps.

(** ** The receipt encoding *)

Record wf_log (l : Log) : Prop := {
  wf_log_addr : length (log_address l) = 20%nat;
  wf_log_topics : hashes (topics l);
  wf_log_count : Z.of_nat (length (topics l)) < 2 ^ 64;
  wf_log_data : Z.of_nat (length (log_data l)) < 2 ^ 64
}.

Record wf_receipt (r : TransactionReceipt) : Prop := {
  wf_rc_gas : is_u64 (cumulative_gas_used r);
  wf_rc_bloom : length (rc_logs_bloom r) = 256%nat;
  wf_rc_logs : Forall wf_log (logs r);
  wf_rc_count : Z.of_nat (length (logs r)) < 2 ^ 64
}.

(** The fields the receipt hash covers. *)
Definition log_view (l : Log) := (log_address l, topics l, log_data l).
Definition receipt_view (r : TransactionReceipt) :=
  (status r, cumulative_gas_used r, rc_logs_bloom r, map log_view (logs r)).

Lemma count_inj (n m : nat) : Z.of_nat n < 2 ^ 64 → Z.of_nat m < 2 ^ 64 →
  to_be 8 (Z.of_nat n) = to_be 8 (Z.of_nat m) → n = m.
Proof. intros Hn Hm E. apply Nat2Z.inj. apply Block.to_be_8_inj; [unfold is_u64; lia..|done]. Qed.

Lemma hashes_concat_inj l1 l2 (r1 r2 : bytes) :
  length l1 = length l2 → hashes l1 → hashes l2 → concat l1 ++ r1 = concat l2 ++ r2 → l1 = l2 ∧ r1 = r2.
Proof.
  revert l2. induction l1 as [|a l1 IH]; intros [|b l2] Hl H1 H2 E; try done.
  apply Forall_cons in H1 as [La H1], H2 as [Lb H2]. cbn in E. rewrite <- !app_assoc in E.
  apply app_inj_1 in E as [-> E]; [|congruence]. by destruct (IH l2 ltac:(by injection Hl) H1 H2 E) as [-> ->].
Qed.

Lemma encode_log_inj a b (r1 r2 : bytes) :
  wf_log a → wf_log b → encode_log a ++ r1 = encode_log b ++ r2 → log_view a = log_view b ∧ r1 = r2.
Proof.
  intros [A1 A2 A3 A4] [B1 B2 B3 B4] E. unfold encode_log in E. rewrite <- !app_assoc in E.
  do 2 Block.peel E. apply count_inj in Hf0; [|done..]. apply hashes_concat_inj in E as [Et E]; [|done..].
  Block.peel E. apply count_inj in Hf1; [|done..]. apply app_inj_1 in E as [Ed Er]; [|done].
  unfold log_view. by rewrite Hf, Et, Ed.
Qed.

Lemma encode_logs_inj l1 l2 :
  length l1 = length l2 → Forall wf_log l1 → Forall wf_log l2 →
  concat (map encode_log l1) = concat (map encode_log l2) → map log_view l1 = map log_view l2.
Proof.
  revert l2. induction l1 as [|a l1 IH]; intros [|b l2] Hl H1 H2 E; try done.
  apply Forall_cons in H1 as [Wa H1], H2 as [Wb H2]. cbn [map concat] in *.
  apply encode_log_inj in E as [-> E]; [|done..]. f_equal. apply IH; [by injection Hl|done..].
Qed.

Lemma encode_receipt_inj r1 r2 :
  wf_receipt r1 → wf_receipt r2 → encode_receipt r1 = encode_receipt r2 → receipt_view r1 = receipt_view r2.
Proof.
  intros [A1 A2 A3 A4] [B1 B2 B3 B4] E. unfold encode_receipt in E. apply (inj2 cons) in E as [Es E].
  do 3 Block.peel E. apply count_inj in Hf1; [|done..]. apply encode_logs_inj in E; [|done..].
  apply Block.to_be_8_inj in Hf; [|done..]. unfold receipt_view. rewrite Hf, Hf0, E.
  by destruct (status r1), (status r2).
Qed.

(** ** Bits of a bloom filter *)

Definition has_bit (bloom : bytes) (bit : Z) : Prop :=
  Z.testbit (default 0 (bloom !! Z.to_nat (255 - bit / 8))) (bit mod 8) = true.

(** All bits of [a] are set in [b]. *)
Definition bits_le (a b : bytes) : Prop := length a = length b ∧ ∀ bit, 0 ≤ bit < 2048 → has_bit a bit → has_bit b bit.

#[export] Instance bits_le_preorder : PreOrder bits_le.
Proof.
  split; [done|]. intros a b c [E1 H1] [E2 H2]. split; [congruence|]. intros bit Hb Ha. by apply H2, H1.
Qed.

Lemma bloom_set_spec bloom bit : length bloom = 256%nat → 0 ≤ bit < 2048 →
  bits_le bloom (bloom_set bloom bit) ∧ has_bit (bloom_set bloom bit) bit.
Proof.
  intros Hl Hb. assert (0 ≤ bit / 8 < 256) as Hd by (split; [apply Z.div_pos; lia|apply Z.div_lt_upper_bound; lia]).
  unfold bits_le, has_bit, bloom_set. rewrite length_alter.
  replace (Z.to_nat (256 - bit / 8 - 1)) with (Z.to_nat (255 - bit / 8)) by lia. split; [split; [done|]|].
  - intros bit' Hb' Ha. rewrite list_lookup_alter. case_decide as E; [|done]. rewrite <- E in Ha.
    destruct (bloom !! _) as [x|]; cbn in *; [by rewrite Z.lor_spec, Ha|].
    by rewrite Z.testbit_0_l in Ha.
  - rewrite list_lookup_alter_eq. destruct (lookup_lt_is_Some_2 bloom (Z.to_nat (255 - bit / 8))) as [x ->]; [lia|].
    cbn. pose proof (Z.mod_pos_bound bit 8 ltac:(lia)). rewrite Z.lor_spec. unfold wrap8.
    rewrite Z.mod_pow2_bits_low, Z.shiftl_spec, Z.sub_diag by lia. apply orb_true_r.
Qed.

Lemma or_bytes_le a b : length a = length b → bits_le a (or_bytes a b) ∧ bits_le b (or_bytes a b).
Proof.
  intros Hl. unfold or_bytes. split; (split; [rewrite length_zip_with; lia|]); intros bit Hb Ha;
    unfold has_bit in *; rewrite lookup_zip_with;
    destruct (a !! _) as [x|] eqn:E1, (b !! _) as [y|] eqn:E2; cbn in *; try (by rewrite Z.testbit_0_l in Ha);
    try (by rewrite Z.lor_spec, Ha, ?orb_true_r);
    apply lookup_lt_Some in E1 || apply lookup_lt_Some in E2;
    apply lookup_ge_None in E1 || apply lookup_ge_None in E2; lia.
Qed.

Section BloomProps.
Context `{KO : KeccakOk}.

(** The membership test of a bloom filter: the three bits of the item are set. *)
Definition bloom_has (bloom item : bytes) : Prop :=
  Forall (fun v => has_bit bloom (bloom_bit (keccak256 item) v)) [0; 2; 4]%nat.

Lemma bloom_bit_range h v : 0 ≤ bloom_bit h v < 2048.
Proof. unfold bloom_bit. change 2047 with (Z.ones 11). rewrite Z.land_ones by lia. apply Z.mod_pos_bound. lia. Qed.

Lemma bloom_has_mono a b item : bits_le a b → bloom_has a item → bloom_has b item.
Proof. intros [_ Hle] Ha. eapply Forall_impl; [exact Ha|]. cbn. intros v. apply Hle, bloom_bit_range. Qed.

Lemma bloom_add_spec bloom item : length bloom = 256%nat →
  bits_le bloom (bloom_add bloom item) ∧ bloom_has (bloom_add bloom item) item.
Proof.
  intros Hl. unfold bloom_add, bloom_has. cbn [fold_left]. set (h := keccak256 item).
  destruct (bloom_set_spec bloom (bloom_bit h 0) Hl (bloom_bit_range h 0)) as [L0 B0].
  set (b0 := bloom_set bloom _) in *.
  destruct (bloom_set_spec b0 (bloom_bit h 2) ltac:(by rewrite <- (proj1 L0)) (bloom_bit_range h 2)) as [L2 B2].
  set (b2 := bloom_set b0 _) in *.
  destruct (bloom_set_spec b2 (bloom_bit h 4) ltac:(by rewrite <- (proj1 L2), <- (proj1 L0)) (bloom_bit_range h 4)) as [L4 B4].
  split; [by do 2 (etransitivity; [done|])|]. repeat apply Forall_cons_2; [| |done|by apply Forall_nil].
  - apply L4; [apply bloom_bit_range|]. by apply L2; [apply bloom_bit_range|].
  - by apply L4; [apply bloom_bit_range|].
Qed.

(** Items added in sequence are all found. *)
Lemma bloom_adds items bloom : length bloom = 256%nat →
  bits_le bloom (fold_left bloom_add items bloom) ∧ Forall (bloom_has (fold_left bloom_add items bloom)) items.
Proof.
  revert bloom. induction items as [|x items IH]; intros bloom Hl; [done|]. cbn [fold_left].
  destruct (bloom_add_spec bloom x Hl) as [L B].
  destruct (IH (bloom_add bloom x)) as [L' B']; [by rewrite <- (proj1 L)|].
  split; [by etransitivity|]. apply Forall_cons_2; [by eapply bloom_has_mono|done].
Qed.

(** The items a log contributes. *)
Definition log_items (l : Log) : list bytes := log_address l :: topics l.

Lemma compute_receipt_bloom_items ls : compute_receipt_bloom ls = fold_left bloom_add (concat (map log_items ls)) (replicate 256 0).
Proof.
  unfold compute_receipt_bloom. generalize (replicate 256 0) as b. induction ls as [|l ls IH]; intros b; [done|].
  cbn [map concat fold_left]. rewrite fold_left_app, IH. done.
Qed.

Lemma receipt_bloom_has ls l item : l ∈ ls → item ∈ log_items l → bloom_has (compute_receipt_bloom ls) item.
Proof.
  intros Hl Hi. rewrite compute_receipt_bloom_items.
  destruct (bloom_adds (concat (map log_items ls)) (replicate 256 0)) as [_ B]; [apply length_replicate|].
  rewrite Forall_forall in B. apply B. apply list_elem_of_In, in_concat. exists (log_items l).
  split; [|by apply list_elem_of_In]. by apply in_map, list_elem_of_In.
Qed.

Lemma aggregate_le rs b : length b = 256%nat → Forall (fun r => length (rc_logs_bloom r) = 256%nat) rs →
  let agg := fold_left (fun bloom r => or_bytes bloom (rc_logs_bloom r)) rs b in
  bits_le b agg ∧ Forall (fun r => bits_le (rc_logs_bloom r) agg) rs.
Proof.
  revert b. induction rs as [|r rs IH]; intros b Hb Hr; [done|]. apply Forall_cons in Hr as [Hr Hrs]. cbn [fold_left].
  destruct (or_bytes_le b (rc_logs_bloom r)) as [L1 L2]; [congruence|].
  destruct (IH (or_bytes b (rc_logs_bloom r))) as [L3 B]; [by rewrite <- (proj1 L1)|done|].
  split; [by etransitivity|]. apply Forall_cons_2; [by etransitivity|done].
Qed.

Lemma prim_add_eq bloom item : bloom_add bloom item = prim_add bloom (keccak256 item).
Proof.
  unfold prim_add. rewrite (proj2 (Z.ltb_ge _ _)) by (destruct (keccak_wf item) as [-> _]; lia).
  unfold bloom_add, bloom_set, bloom_bit. cbn [fold_left Nat.mul Nat.add]. change 2047 with (Z.ones 11).
  rewrite !Z.land_ones by lia. change (2 ^ 11) with 2048.
  by do 3 (match goal with |- context [Z.to_nat (256 - ?x - 1)] =>
    replace (256 - x - 1) with (255 - x) by lia end).
Qed.

End BloomProps.

(** ** Theorems *)

Section Theorems.
Context `{KO : KeccakOk}.

(** Merkle inclusion proofs are complete and sound. For every leaf
    position the tree gives a proof, and the verifier accepts it for the leaf;
    and a proof of the tree's depth that the verifier accepts at a position of
    the tree proves the leaf that is there, unless the hash function collides
    on the buffers of the tree and of the proof. *)
Theorem merkle_proofs_correct (hs : list bytes) (i : nat) (x : bytes) :
  (hs !! i = Some x → ∃ p, proof (build_from_hashes hs) i = Some p ∧
                           verify p (root (build_from_hashes hs)) x = true) ∧
  (∀ cnt sibs, (i < length hs)%nat → hashes hs → hashes (x :: sibs) →
     length (layers (build_from_hashes hs)) = S (length sibs) →
     collision_free (tree_preimages (length hs) hs ++ path_preimages x (Z.of_nat i) sibs) →
     verify (mkProof (Z.of_nat i) cnt sibs) (root (build_from_hashes hs)) x = true → hs !! i = Some x).
Proof.
  unfold verify, proof, build_from_hashes. split.
  - intros Hi. assert (len (mkTree (build_loop (length hs) hs)) = length hs) as ->.
    { unfold len. cbn [layers]. by destruct (build_loop_cons (length hs) hs) as (ls & ->). }
    rewrite (proj2 (Nat.leb_gt _ _)) by (by eapply lookup_lt_Some). eexists. split; [done|].
    by apply bool_decide_eq_true, (proof_verifies (length hs) hs i x).
  - intros cnt sibs Hi Hh Hs Hd Hc Hv%bool_decide_eq_true. by apply (proof_binds (length hs) hs i x sibs).
Qed.

Lemma receipts_root_build rs : rs ≠ [] →
  compute_receipts_root rs = root (mkTree (build_loop (length rs) (map compute_receipt_hash rs))).
Proof. destruct rs as [|r rs]; [done|]. intros _. by rewrite <- (length_map compute_receipt_hash (r :: rs)). Qed.

Lemma receipt_hashes rs : hashes (map compute_receipt_hash rs).
Proof. induction rs as [|r rs IH]; [by apply Forall_nil|]. apply Forall_cons_2; [apply keccak_wf|done]. Qed.

(** The buffers digested for the receipts root. *)
Definition receipts_preimages (rs : list TransactionReceipt) : list bytes :=
  map encode_receipt rs ++ tree_preimages (length rs) (map compute_receipt_hash rs).

Lemma receipt_hashes_inj rs1 rs2 :
  length rs1 = length rs2 → Forall wf_receipt rs1 → Forall wf_receipt rs2 →
  collision_free (map encode_receipt rs1 ++ map encode_receipt rs2) →
  map compute_receipt_hash rs1 = map compute_receipt_hash rs2 → map receipt_view rs1 = map receipt_view rs2.
Proof.
  revert rs2. induction rs1 as [|r1 rs1 IH]; intros [|r2 rs2] Hl H1 H2 Hc E; try done.
  apply Forall_cons in H1 as [W1 H1], H2 as [W2 H2]. cbn [map] in *. apply (inj2 cons) in E as [E0 E].
  apply (collision_free_use _ _ _ Hc) in E0; [|set_solver..]. f_equal; [by apply encode_receipt_inj|].
  apply IH; [by injection Hl|done|done| |done]. eapply collision_free_mono, Hc. set_solver.
Qed.

(** The receipts root binds the receipts of a block up to their number.
    Two lists of equally many receipts with the same root agree on every
    hashed field of every receipt (status, cumulative gas, bloom, and the
    address, topics and data of every log), unless the hash function
    collides. *)
Theorem receipts_root_binds (rs1 rs2 : list TransactionReceipt) :
  length rs1 = length rs2 → Forall wf_receipt rs1 → Forall wf_receipt rs2 →
  collision_free (receipts_preimages rs1 ++ receipts_preimages rs2) →
  compute_receipts_root rs1 = compute_receipts_root rs2 → map receipt_view rs1 = map receipt_view rs2.
Proof.
  intros Hl H1 H2 Hc E. destruct (decide (rs1 = [])) as [->|Hne]; [by destruct rs2|].
  assert (rs2 ≠ []) as Hne2 by (intros ->; by destruct rs1).
  rewrite !receipts_root_build, <- Hl in E by done.
  unfold receipts_preimages in Hc. apply receipt_hashes_inj; [done..|eapply collision_free_mono, Hc; set_solver|].
  rewrite <- Hl in Hc.
  apply root_binds in E; [done|by rewrite !length_map|by rewrite length_map|apply receipt_hashes..|].
  eapply collision_free_mono, Hc. set_solver.
Qed.

(** The number of receipts is not bound. Appending a copy of the last
    receipt to an odd number (above one) of receipts leaves the receipts root
    unchanged, because a layer with an odd number of hashes is completed with
    a copy of its last hash. *)
Theorem receipts_root_duplicate (rs : list TransactionReceipt) (r : TransactionReceipt) :
  Nat.odd (length rs) = true → (1 < length rs)%nat → last rs = Some r →
  compute_receipts_root (rs ++ [r]) = compute_receipts_root rs.
Proof.
  intros Ho H1 Hr. assert (rs ≠ []) as Hne by (by intros ->).
  rewrite !receipts_root_build by (done || by destruct rs).
  rewrite map_app. cbn [map]. apply root_duplicate; rewrite ?length_map; [done|done| |done|].
  - change (map compute_receipt_hash rs) with (compute_receipt_hash <$> rs). by rewrite fmap_last, Hr.
  - rewrite length_app. cbn. lia.
Qed.

(** The bloom filter of a block has no false negatives: when every
    receipt carries the bloom of its logs, the address and every topic of
    every log of every receipt test positive in the aggregated block bloom;
    and the filter of [zbx-primitives] sets the same bits. *)
Theorem bloom_no_false_negatives (rs : list TransactionReceipt) (r : TransactionReceipt) (l : Log) (item : bytes) :
  Forall (fun r => rc_logs_bloom r = compute_receipt_bloom (logs r)) rs →
  r ∈ rs → l ∈ logs r → item = log_address l ∨ item ∈ topics l →
  bloom_has (aggregate_block_bloom rs) item ∧
  ∀ bloom, bloom_add bloom item = prim_add bloom (keccak256 item).
Proof.
  intros Hb Hr Hl Hi. split; [|intros bloom; apply prim_add_eq].
  assert (Forall (fun r => length (rc_logs_bloom r) = 256%nat) rs) as Hlen.
  { eapply Forall_impl; [exact Hb|]. cbn. intros r' ->. rewrite compute_receipt_bloom_items.
    destruct (bloom_adds (concat (map log_items (logs r'))) (replicate 256 0)) as [[<- _] _]; apply length_replicate. }
  destruct (aggregate_le rs (replicate 256 0) (length_replicate _ _) Hlen) as [_ Hagg].
  rewrite Forall_forall in Hb, Hagg. eapply bloom_has_mono; [by apply Hagg|]. rewrite Hb by done.
  apply (receipt_bloom_has _ l); [done|]. unfold log_items. set_solver.
Qed.

End Theorems.

(** ** A block hash binds the body *)

Section Body.
Context `{KO : KeccakOk} `{RL : RlpCrateLaws}.

#[local] Abbreviation Block := (Block.Block SignedTransaction).

Definition payloads (b : Block) : list bytes := map (fun t => signing_payload (tx t)) (Block.transactions (Block.body b)).
Definition body_views (b : Block) := map (fun t => signed_view (tx t)) (Block.transactions (Block.body b)).
Definition body_tree (b : Block) : TrieTree.tree :=
  StateRoot.tree_of (Commitments.Mpt.index_pairs 0 (map keccak256 (payloads b))).

Record wf_block (b : Block) : Prop := {
  wf_b_header : Block.wf_header (Block.header b);
  wf_b_txs : Forall (fun t => wf_tx (tx t)) (Block.transactions (Block.body b));
  wf_b_count : Z.of_nat (length (Block.transactions (Block.body b))) < 2 ^ 64
}.

Lemma payloads_inj b1 b2 : wf_block b1 → wf_block b2 → payloads b1 = payloads b2 → body_views b1 = body_views b2.
Proof.
  intros [_ W1 _] [_ W2 _]. unfold payloads, body_views. revert W1 W2.
  generalize (Block.transactions (Block.body b1)), (Block.transactions (Block.body b2)).
  intros l1 l2 W1. revert l2. induction W1 as [|t1 l1 Wt1 _ IH]; intros l2 W2 E; destruct W2 as [|t2 l2 Wt2 W2]; try done.
  cbn [map] in *. apply (inj2 cons) in E as [E0 E]. f_equal; [by apply signing_payload_inj|by apply IH].
Qed.

Lemma hash_list_inj (l1 l2 : list bytes) : collision_free (l1 ++ l2) → map keccak256 l1 = map keccak256 l2 → l1 = l2.
Proof.
  revert l2. induction l1 as [|x l1 IH]; intros [|y l2] Hc E; try done. cbn [map] in E. apply (inj2 cons) in E as [E0 E].
  apply (collision_free_use _ _ _ Hc) in E0; [|set_solver..]. f_equal; [done|]. apply IH; [|done].
  eapply collision_free_mono, Hc. set_solver.
Qed.

Lemma hashes_wf (l : list bytes) : Forall wf_word (map keccak256 l).
Proof. apply Forall_fmap, Forall_true. intros x. apply keccak_wf. Qed.

Lemma verified_root b : verify_transactions_root b = Ok tt →
  Block.transactions_root (Block.header b) = Commitments.Mpt.transactions_root_mpt (map keccak256 (payloads b)).
Proof. unfold verify_transactions_root, payloads. rewrite map_map. by case_bool_decide. Qed.

(** C27: A block hash binds the whole block. Two blocks with the same hash
    whose bodies pass [verify_transactions_root] have the same header up to
    the committee signature and the same transactions, in order, up to what a
    signature does not cover, unless the hash function collides on the
    headers, on the signing payloads or on the nodes of the transaction
    tries. *)
Theorem block_hash_binds_body (b1 b2 : Block) :
  keccak256 [0x80] = Trie.EMPTY_ROOT → wf_block b1 → wf_block b2 →
  collision_free (Block.canonical_encode (Block.header b1) :: Block.canonical_encode (Block.header b2) ::
                  payloads b1 ++ payloads b2) →
  TrieProps.apart (TrieProps.subs (body_tree b1) ++ TrieProps.subs (body_tree b2)) →
  verify_transactions_root b1 = Ok tt → verify_transactions_root b2 = Ok tt →
  Block.blk_hash b1 = Block.blk_hash b2 →
  Block.unsigned (Block.header b1) = Block.unsigned (Block.header b2) ∧ body_views b1 = body_views b2.
Proof.
  intros H80 W1 W2 Hc Ha V1 V2 E. apply (collision_free_use _ _ _ Hc) in E; [|set_solver..].
  apply Block.encoding_inj in E; [|by apply wf_b_header..]. split; [done|]. apply payloads_inj; [done..|].
  apply hash_list_inj; [eapply collision_free_mono, Hc; set_solver|].
  apply (f_equal Block.transactions_root) in E. cbn in E.
  rewrite (verified_root b1), (verified_root b2) in E by done.
  destruct W1 as [_ _ C1], W2 as [_ _ C2].
  apply Commitments.tx_root_inj in E; [done|done|apply hashes_wf|apply hashes_wf| | |done];
    unfold payloads; by rewrite !length_map.
Qed.

End Body.

Module Samples.
Import Transaction.ZbxRlp.

(** The documented digest of the empty trie and a toy hash elsewhere. *)
#[local] Instance keccak_sample : Keccak := fun b =>
  if bool_decide (b = [0x80]) then Trie.EMPTY_ROOT else to_be 32 (fold_left (fun h x => (h * 16777619 + x + 1) mod (2 ^ 61 - 1)) b 7).
#[local] Instance keccak_sample_ok : KeccakOk.
Proof.
  intros b. unfold keccak256, keccak_sample. case_bool_decide; [|apply wf_to_word]. split; [done|].
  repeat (apply Forall_cons_2; [unfold is_u8; lia|]); by apply Forall_nil.
Qed.

Definition h (x : Z) : bytes := to_be 32 x.
Definition hs : list bytes := [h 11; h 22; h 33].

Lemma merkle_proofs_correct_witness :
  (∃ p, proof (build_from_hashes hs) 2 = Some p ∧ verify p (root (build_from_hashes hs)) (h 33) = true) ∧
  hs !! 2%nat = Some (h 33).
Proof.
  destruct (merkle_proofs_correct hs 2 (h 33)) as [C S]. split; [exact (C eq_refl)|].
  apply (S 3 [h 33; combine_hashes (h 11) (h 22)]); try reflexivity.
  - cbn. lia.
  - repeat (apply Forall_cons_2; [reflexivity|]). by apply Forall_nil.
  - repeat (apply Forall_cons_2; [reflexivity|]). by apply Forall_nil.
  - apply (bool_decide_unpack _). vm_compute. reflexivity.
Defined.

Definition log1 : Log := mkLog (to_be 20 5) [h 7; h 8] [1; 2; 3] 9 0 (h 1) 0.
Definition receipt (gas : Z) : TransactionReceipt :=
  mkReceipt Success gas (compute_receipt_bloom [log1]) [log1] (h 1) 0 (h 2) 9 (to_be 20 6) None None gas 5.
Definition rs : list TransactionReceipt := [receipt 21000; receipt 42000; receipt 63000].

(** A receipt that differs only where the hash does not look. *)
Definition rs' : list TransactionReceipt :=
  map (fun r => mkReceipt (status r) (cumulative_gas_used r) (rc_logs_bloom r) (logs r) (h 99) 0 (h 2) 9
                  (to_be 20 6) None None 0 0) rs.

Lemma wf_receipts l : l = rs ∨ l = rs' → Forall wf_receipt l.
Proof.
  assert (Forall wf_log [log1]) as Hl.
  { apply Forall_cons_2; [|by apply Forall_nil]. split; [reflexivity| |vm_compute; reflexivity|vm_compute; reflexivity].
    repeat (apply Forall_cons_2; [reflexivity|]). by apply Forall_nil. }
  intros [-> | ->]; repeat (apply Forall_cons_2; [split; [unfold is_u64; cbn; lia|reflexivity|exact Hl|cbn; lia]|]);
    by apply Forall_nil.
Qed.

Lemma receipts_root_binds_witness : map receipt_view rs = map receipt_view rs'.
Proof.
  apply (receipts_root_binds rs rs' eq_refl (wf_receipts rs (or_introl eq_refl)) (wf_receipts rs' (or_intror eq_refl))).
  - apply (bool_decide_unpack _). vm_compute. reflexivity.
  - vm_compute. reflexivity.
Defined.

Lemma receipts_root_duplicate_witness : compute_receipts_root (rs ++ [receipt 63000]) = compute_receipts_root rs.
Proof. apply (receipts_root_duplicate rs (receipt 63000)); [reflexivity|cbn; lia|reflexivity]. Defined.

Lemma bloom_no_false_negatives_witness :
  bloom_has (aggregate_block_bloom rs) (h 8) ∧ ∀ bloom, bloom_add bloom (h 8) = prim_add bloom (keccak256 (h 8)).
Proof.
  apply (bloom_no_false_negatives rs (receipt 21000) log1 (h 8)).
  - repeat (apply Forall_cons_2; [reflexivity|]). by apply Forall_nil.
  - by left.
  - by left.
  - right. right. by left.
Defined.

Definition stx (s : Z) : SignedTransaction :=
  mkSigned (Transaction.Samples.sample DynamicFee 1) (mkSig s (replicate 32 3) (replicate 32 4)) (replicate 20 9) (h 0).

(** Two copies of a block whose transaction carries different signatures. *)
Definition block (s : Z) : Block.Block SignedTransaction :=
  let z := replicate 32 0 in
  Block.mkBlock (Block.mkHeader z z (replicate 20 3) z (compute_tx_root [stx s]) z (replicate 256 0) 0 1
                   30000000 21000 7 [] z 0 1000000000 [s] 0 None)
    (Block.mkBody [stx s] []).

Lemma wf_blocks s : wf_block (block s).
Proof.
  split; [| |reflexivity].
  - split; try reflexivity; try (unfold is_u64; cbn; lia). done.
  - apply Forall_cons_2; [|by apply Forall_nil]. apply Transaction.Samples.wf_sample. unfold is_u64. lia.
Qed.

Lemma block_hash_binds_body_witness :
  Block.unsigned (Block.header (block 0)) = Block.unsigned (Block.header (block 1)) ∧
  body_views (block 0) = body_views (block 1).
Proof.
  apply (block_hash_binds_body (block 0) (block 1) eq_refl (wf_blocks 0) (wf_blocks 1)).
  - apply (bool_decide_unpack _). vm_compute. reflexivity.
  - apply (bool_decide_unpack _). vm_compute. reflexivity.
  - vm_compute. reflexivity.
  - vm_compute. reflexivity.
  - vm_compute. reflexivity.
Defined.

End Samples.

End Receipts.
