(* ===== verification/ZvmBase.v ===== *)
(** * The ZVM's stack, memory, gas schedule, opcodes and call context

    Models [stack.rs], [memory.rs], [gas.rs], [opcodes.rs], [error.rs] and
    [context.rs] of [crates/zbx-zvm/src]. The [Vec] of the stack is a list
    whose head is the top; memory is the [Vec] of bytes. A [usize] is a 64-bit
    integer whose [+] and [*] wrap, and a vector whose length the code sets
    aborts beyond [isize::MAX] bytes or beyond what the allocator serves, the
    parameter [Heap]. The type
    [primitive_types::U256] is an integer below [2^256]. *)

From S2P Require Import Prelude.
From S2P Require Import U256.
From S2P Require Import EvmBase.

Module ZvmBase.
Import U256.

(** ** error.rs (the texts of the messages are left out) *)

Inductive ZvmError :=
| StackOverflow
| StackUnderflow
| OutOfGas
| InvalidJump (dest : Z)
| InvalidOpcode (b : Z)
| StaticStateChange
| UnexpectedEnd
| InvalidUtf8
| InvalidInput
| InsufficientBalance
| PrecompileNotFound (a : address)
| PayIdNotFound
| Internal.

(** ** opcodes.rs

    [PUSH n], [DUP n], [SWAP n] and [LOG n] stand for the constructors
    [PUSHn], [DUPn], [SWAPn] and [LOGn]. *)

Inductive Opcode :=
| STOP | ADD | MUL | SUB | DIV | SDIV | MOD | SMOD | ADDMOD | MULMOD | EXP | SIGNEXTEND
| LT | GT | SLT | SGT | EQ | ISZERO | AND | OR | XOR | NOT | BYTE | SHL | SHR | SAR
| KECCAK256
| ADDRESS | BALANCE | ORIGIN | CALLER | CALLVALUE | CALLDATALOAD | CALLDATASIZE | CALLDATACOPY
| CODESIZE | CODECOPY | GASPRICE | EXTCODESIZE | EXTCODECOPY | RETURNDATASIZE | RETURNDATACOPY | EXTCODEHASH
| BLOCKHASH | COINBASE | TIMESTAMP | NUMBER | PREVRANDAO | GASLIMIT | CHAINID | SELFBALANCE
| BASEFEE | BLOBHASH | BLOBBASEFEE
| POP | MLOAD | MSTORE | MSTORE8 | SLOAD | SSTORE | JUMP | JUMPI | PC | MSIZE | GAS | JUMPDEST
| TLOAD | TSTORE | MCOPY | PUSH0
| PUSH (n : nat) | DUP (n : nat) | SWAP (n : nat) | LOG (n : nat)
| CREATE | CALL | CALLCODE | RETURN | DELEGATECALL | CREATE2 | STATICCALL | REVERT | INVALID | SELFDESTRUCT
| PAYID | ZUSDBAL | ZBXPRICE | ZBXTIME | AASENDER | CHAINVER | BLOBFEE | PAYIDSET | ZBXBURN | ZVMLOG.

Definition from_u8 (b : Z) : option Opcode :=
  if (0x60 <=? b) && (b <=? 0x7F) then Some (PUSH (Z.to_nat (b - 0x5F))) else
  if (0x80 <=? b) && (b <=? 0x8F) then Some (DUP (Z.to_nat (b - 0x7F))) else
  if (0x90 <=? b) && (b <=? 0x9F) then Some (SWAP (Z.to_nat (b - 0x8F))) else
  if (0xA0 <=? b) && (b <=? 0xA4) then Some (LOG (Z.to_nat (b - 0xA0))) else
  match b with
  | 0x00 => Some STOP | 0x01 => Some ADD | 0x02 => Some MUL | 0x03 => Some SUB
  | 0x04 => Some DIV | 0x05 => Some SDIV | 0x06 => Some MOD | 0x07 => Some SMOD
  | 0x08 => Some ADDMOD | 0x09 => Some MULMOD | 0x0A => Some EXP | 0x0B => Some SIGNEXTEND
  | 0x10 => Some LT | 0x11 => Some GT | 0x12 => Some SLT | 0x13 => Some SGT
  | 0x14 => Some EQ | 0x15 => Some ISZERO | 0x16 => Some AND | 0x17 => Some OR
  | 0x18 => Some XOR | 0x19 => Some NOT | 0x1A => Some BYTE | 0x1B => Some SHL
  | 0x1C => Some SHR | 0x1D => Some SAR | 0x20 => Some KECCAK256
  | 0x30 => Some ADDRESS | 0x31 => Some BALANCE | 0x32 => Some ORIGIN | 0x33 => Some CALLER
  | 0x34 => Some CALLVALUE | 0x35 => Some CALLDATALOAD | 0x36 => Some CALLDATASIZE | 0x37 => Some CALLDATACOPY
  | 0x38 => Some CODESIZE | 0x39 => Some CODECOPY | 0x3A => Some GASPRICE | 0x3B => Some EXTCODESIZE
  | 0x3C => Some EXTCODECOPY | 0x3D => Some RETURNDATASIZE | 0x3E => Some RETURNDATACOPY | 0x3F => Some EXTCODEHASH
  | 0x40 => Some BLOCKHASH | 0x41 => Some COINBASE | 0x42 => Some TIMESTAMP | 0x43 => Some NUMBER
  | 0x44 => Some PREVRANDAO | 0x45 => Some GASLIMIT | 0x46 => Some CHAINID | 0x47 => Some SELFBALANCE
  | 0x48 => Some BASEFEE | 0x49 => Some BLOBHASH | 0x4A => Some BLOBBASEFEE
  | 0x50 => Some POP | 0x51 => Some MLOAD | 0x52 => Some MSTORE | 0x53 => Some MSTORE8
  | 0x54 => Some SLOAD | 0x55 => Some SSTORE | 0x56 => Some JUMP | 0x57 => Some JUMPI
  | 0x58 => Some PC | 0x59 => Some MSIZE | 0x5A => Some GAS | 0x5B => Some JUMPDEST
  | 0x5C => Some TLOAD | 0x5D => Some TSTORE | 0x5E => Some MCOPY | 0x5F => Some PUSH0
  | 0xF0 => Some CREATE | 0xF1 => Some CALL | 0xF2 => Some CALLCODE | 0xF3 => Some RETURN
  | 0xF4 => Some DELEGATECALL | 0xF5 => Some CREATE2 | 0xFA => Some STATICCALL
  | 0xFD => Some REVERT | 0xFE => Some INVALID | 0xFF => Some SELFDESTRUCT
  | 0xC0 => Some PAYID | 0xC1 => Some ZUSDBAL | 0xC2 => Some ZBXPRICE | 0xC3 => Some ZBXTIME
  | 0xC4 => Some AASENDER | 0xC5 => Some CHAINVER | 0xC6 => Some BLOBFEE | 0xC7 => Some PAYIDSET
  | 0xC8 => Some ZBXBURN | 0xC9 => Some ZVMLOG
  | _ => None
  end.

Definition is_zvm_native (op : Opcode) : bool :=
  match op with
  | PAYID | ZUSDBAL | ZBXPRICE | ZBXTIME | AASENDER | CHAINVER | BLOBFEE | PAYIDSET | ZBXBURN | ZVMLOG => true
  | _ => false
  end.

(** ** gas.rs *)

Definition evm_gas_cost (op : Opcode) : Z :=
  match op with
  | STOP | RETURN | REVERT => 0
  | ADD | SUB | LT | GT | SLT | SGT | EQ | ISZERO | AND | OR | XOR | NOT | BYTE | SHL | SHR | SAR => 3
  | MUL | DIV | SDIV | MOD | SMOD | SIGNEXTEND => 5
  | ADDMOD | MULMOD => 8
  | EXP => 10
  | KECCAK256 => 30
  | ADDRESS | ORIGIN | CALLER | CALLVALUE | CALLDATASIZE | CODESIZE | GASPRICE | COINBASE | TIMESTAMP
  | NUMBER | PREVRANDAO | GASLIMIT | CHAINID | SELFBALANCE | BASEFEE | BLOBBASEFEE => 2
  | BALANCE | EXTCODESIZE | EXTCODEHASH => 100
  | BLOCKHASH => 20
  | CALLDATALOAD => 3
  | CALLDATACOPY | CODECOPY | RETURNDATACOPY => 3
  | EXTCODECOPY => 100
  | RETURNDATASIZE => 2
  | POP | PC | MSIZE | GAS => 2
  | MLOAD | MSTORE | MSTORE8 => 3
  | SLOAD => 100
  | SSTORE => 100
  | JUMP => 8
  | JUMPI => 10
  | JUMPDEST => 1
  | PUSH0 => 2
  | TLOAD | TSTORE => 100
  | MCOPY => 3
  | BLOBHASH => 3
  | PUSH _ => 3
  | DUP _ => 3
  | SWAP _ => 3
  | LOG _ => 375
  | CREATE => 32000
  | CREATE2 => 32000
  | CALL | CALLCODE | STATICCALL | DELEGATECALL => 100
  | SELFDESTRUCT => 5000
  | _ => 0
  end.

Definition zvm_gas_cost (op : Opcode) : Z :=
  match op with
  | PAYID => 200 | ZUSDBAL => 100 | ZBXPRICE => 50 | ZBXTIME => 2 | AASENDER => 2 | CHAINVER => 2
  | BLOBFEE => 50 | PAYIDSET => 100 | ZBXBURN => 500 | ZVMLOG => 600
  | _ => 0
  end.

Definition opcode_gas (op : Opcode) : Z := if is_zvm_native op then zvm_gas_cost op else evm_gas_cost op.

Definition COLD_SLOAD_COST : Z := 2100.
Definition WARM_SLOAD_COST : Z := 100.
Definition COLD_ACCOUNT_COST : Z := 2600.
Definition WARM_ACCOUNT_COST : Z := 100.
Definition SSTORE_COLD_DELTA : Z := 2100.

Definition exp_dynamic_gas (exponent_be : word) : Z :=
  saturating_mul64 50 (saturating_sub 32 (Z.of_nat (leading_zeros exponent_be))).

(** [(len as u64 + 31) / 32] *)
Definition words_of (len : Z) : Z := wrap64 (len + 31) / 32.

Definition keccak256_dynamic_gas (len : Z) : Z := saturating_mul64 6 (words_of len).
Definition copy_dynamic_gas (len : Z) : Z := saturating_mul64 3 (words_of len).
Definition log_dynamic_gas (n_topics data_len : Z) : Z :=
  saturating_add64 (saturating_mul64 375 n_topics) (saturating_mul64 8 data_len).

(** The nested function [cost] of [memory_gas_delta]. *)
Definition mem_cost (w : Z) : Z := saturating_add64 (saturating_mul64 3 w) (saturating_mul64 w w / 512).

Definition memory_gas_delta (old_words new_words : Z) : Z :=
  if new_words <=? old_words then 0 else saturating_sub (mem_cost new_words) (mem_cost old_words).

(** ** context.rs *)

Record ZvmContext := mkZvmCtx {
  z_bytecode : bytes;
  z_calldata : bytes;
  z_caller : address;
  z_contract : address;
  z_value : Z;
  z_gas_limit : Z;
  z_block_number : Z;
  z_timestamp : Z;
  z_base_fee : Z;
  z_blob_base_fee : Z;
  z_chain_id : Z;
  z_is_static : bool;
  z_aa_sender : option address;
  z_price_usd : Z;
  z_origin : address
}.

Inductive ExecutionStatus := ZSuccess | ZRevert | ZOutOfGas | ZInvalidOpcode (op : Z) | ZStackOverflow | ZError (e : ZvmError).

Record ZvmLog := mkZvmLog { zl_address : address; zl_topics : list word; zl_data : bytes }.
Record ZvmStructuredLog := mkSLog { sl_key : bytes; sl_value : bytes; sl_block : Z; sl_index : Z }.

Record ZvmResult := mkZvmResult {
  zr_status : ExecutionStatus;
  zr_return_data : bytes;
  zr_gas_remaining : Z;
  zr_gas_used : Z;
  zr_logs : list ZvmLog;
  zr_zvm_logs : list ZvmStructuredLog
}.

(** ** stack.rs *)

Definition MAX_STACK_DEPTH : nat := 1024.

Abbreviation ZvmStack := (list (list Z)).

Definition stack_push (v : word) (s : ZvmStack) : outcome ZvmError ZvmStack :=
  if (MAX_STACK_DEPTH <=? length s)%nat then Err StackOverflow else Ok (v :: s).

Definition stack_pop (s : ZvmStack) : outcome ZvmError (word * ZvmStack) :=
  match s with v :: s' => Ok (v, s') | [] => Err StackUnderflow end.

(** [n] is at least 1. *)
Definition stack_dup (n : nat) (s : ZvmStack) : outcome ZvmError ZvmStack :=
  match s !! (n - 1)%nat with Some v => stack_push v s | None => Err StackUnderflow end.

Definition stack_swap (n : nat) (s : ZvmStack) : outcome ZvmError ZvmStack :=
  match s !! O, s !! n with
  | Some t, Some v => Ok (<[O := v]> (<[n := t]> s))
  | _, _ => Err StackUnderflow
  end.

(** The words [push_u64], [push_u128], [push_address] and [push_u256] push, and
    what [pop_u64], [pop_u128], [pop_address] and [pop_u256] read. *)
Definition word_of_u64 (v : Z) : word := replicate 24 0 ++ to_be 8 v.
Definition word_of_u128 (v : Z) : word := replicate 16 0 ++ to_be 16 v.
Definition word_of_address (a : address) : word := replicate 12 0 ++ a.
Definition word_of_u256 (v : Z) : word := to_be 32 v.
Definition word_u64 (w : word) : Z := be_val (drop 24 w).
Definition word_u128 (w : word) : Z := be_val (drop 16 w).
Definition word_address (w : word) : address := drop 12 w.
Definition word_u256 (w : word) : Z := be_val w.

(** ** memory.rs *)

Abbreviation ZvmMemory := (list Z).

Definition ISIZE_MAX : Z := 2 ^ 63 - 1.

(** The longest vector the system's allocator serves; asking for more aborts
    the process. *)
Class Heap := heap_limit : Z.

(** [Vec::resize(n, 0)] *)
Definition vec_resize `{Heap} (m : bytes) (n : Z) : outcome ZvmError bytes :=
  if (ISIZE_MAX <? n) || (heap_limit <? n) then Panic else Ok (EvmBase.resize0 m n).

Definition mem_size (m : ZvmMemory) : Z := Z.of_nat (length m).
Definition mem_words (m : ZvmMemory) : Z := (mem_size m + 31) / 32.

Definition mem_resize `{Heap} (size : Z) (m : ZvmMemory) : outcome ZvmError ZvmMemory :=
  if mem_size m <? size then vec_resize m (wrap64 (size + 31) / 32 * 32) else Ok m.

(** [read_slice], and [load] when [len] is 32. *)
Definition mem_read_slice `{Heap} (offset len : Z) (m : ZvmMemory) : outcome ZvmError (bytes * ZvmMemory) :=
  let? m' := mem_resize (wrap64 (offset + len)) m in
  let? d := slice m' offset (wrap64 (offset + len)) in
  Ok (d, m').

(** [self.data[offset..offset + src.len()].copy_from_slice(src)] *)
Definition splice (offset : Z) (src m : bytes) : outcome ZvmError bytes :=
  let end_ := wrap64 (offset + Z.of_nat (length src)) in
  let? _ := slice m offset end_ in
  Ok (take (Z.to_nat offset) m ++ src ++ drop (Z.to_nat end_) m).

Definition mem_store `{Heap} (offset : Z) (w : word) (m : ZvmMemory) : outcome ZvmError ZvmMemory :=
  let? m' := mem_resize (wrap64 (offset + 32)) m in splice offset w m'.

Definition mem_store8 `{Heap} (offset : Z) (byte : Z) (m : ZvmMemory) : outcome ZvmError ZvmMemory :=
  let? m' := mem_resize (wrap64 (offset + 1)) m in
  if offset <? mem_size m' then Ok (<[Z.to_nat offset := byte]> m') else Panic.

Definition mem_write_slice `{Heap} (offset : Z) (src : bytes) (m : ZvmMemory) : outcome ZvmError ZvmMemory :=
  match src with
  | [] => Ok m
  | _ => let? m' := mem_resize (wrap64 (offset + Z.of_nat (length src))) m in splice offset src m'
  end.

(** [copy_within] of the source range, whose bounds it checks first. *)
Definition mem_copy `{Heap} (dst src len : Z) (m : ZvmMemory) : outcome ZvmError ZvmMemory :=
  if len =? 0 then Ok m else
  let? m' := mem_resize (saturating_add64 (Z.max dst src) len) m in
  let? d := slice m' src (wrap64 (src + len)) in
  if mem_size m' - len <? dst then Panic else
  Ok (take (Z.to_nat dst) m' ++ d ++ drop (Z.to_nat (dst + len)) m').

(** [std::str::from_utf8]: the well-formed byte sequences of Unicode. *)
Definition cont (b : Z) : bool := (0x80 <=? b) && (b <=? 0xBF).

Fixpoint utf8_valid (l : bytes) : bool :=
  match l with
  | [] => true
  | b0 :: l1 =>
      if b0 <=? 0x7F then utf8_valid l1 else
      match l1 with
      | [] => false
      | b1 :: l2 =>
          if (0xC2 <=? b0) && (b0 <=? 0xDF) then cont b1 && utf8_valid l2 else
          match l2 with
          | [] => false
          | b2 :: l3 =>
              if (0xE0 <=? b0) && (b0 <=? 0xEF) then
                ((if b0 =? 0xE0 then 0xA0 else 0x80) <=? b1) && (b1 <=? (if b0 =? 0xED then 0x9F else 0xBF))
                && cont b2 && utf8_valid l3
              else
              match l3 with
              | [] => false
              | b3 :: l4 =>
                  (0xF0 <=? b0) && (b0 <=? 0xF4) &&
                  ((if b0 =? 0xF0 then 0x90 else 0x80) <=? b1) && (b1 <=? (if b0 =? 0xF4 then 0x8F else 0xBF))
                  && cont b2 && cont b3 && utf8_valid l4
              end
          end
      end
  end.

End ZvmBase.
