(* ===== verification/ZvmHost.v ===== *)
(** * The ZVM's view of the chain

    The trait [ZvmHost] of [crates/zbx-zvm/src/host.rs] as a class, what the
    interpreter relies on as the class [ZvmHostLaws], and the host the block
    executor runs contracts on, [ProductionZvmHost] of
    [crates/zbx-state/src/host_zvm.rs], over the [StateView] of
    [crates/zbx-execution/src/host_zvm.rs]. *)

From S2P Require Import Prelude.
From S2P Require Import U256.
From S2P Require Import EvmBase.
From S2P Require Import EvmHost.
From S2P Require Import State.
From S2P Require Import Block.
From S2P Require Import Receipts.
From S2P Require Import ZvmBase.

Module ZvmHost.
Import U256 State ZvmBase.

(** ** The trait *)

Class ZvmHost (H : Type) := {
  balance : H → address → Z;
  storage_load : H → address → word → word;
  storage_store : address → word → word → H → H;
  code : H → address → bytes;
  code_hash : H → address → word;
  block_hash : H → Z → word;
  transfer : address → address → Z → H → outcome ZvmError unit * H;
  nonce : H → address → Z;
  inc_nonce : address → H → Z * H;
  set_code : address → bytes → H → H;
  resolve_pay_id : H → bytes → option address;
  resolve_pay_id_bytes : H → bytes → option address;
  reverse_pay_id : H → address → option bytes;
  zusd_balance : H → address → Z;
  zbx_price_usd : H → Z;
  blob_base_fee : H → Z;
  has_pay_id : H → address → bool;
  burn_zbx : address → Z → H → outcome ZvmError unit * H;
  emit_zvm_log : bytes → bytes → H → H;
  transient_load : H → address → word → word;
  transient_store : address → word → word → H → H;
  coinbase : H → address;
  block_gas_limit : H → Z;
  prevrandao : H → word;
  gas_price : H → Z;
  blob_hash : H → Z → word;
  is_call_allowed : H → address → bool;
  mark_created_this_tx : address → H → H;
  was_created_this_tx : H → address → bool;
  selfdestruct : address → address → H → H;
  emit_log : address → list word → bytes → H → H
}.

(** The trait's default [code_size]. *)
Definition code_size {H} `{ZvmHost H} (h : H) (a : address) : Z := Z.of_nat (length (code h a)).

(** ** ProductionZvmHost *)

Abbreviation View := (StateView Receipts.Receipts.Log).

Record ZvmBlockEnv := mkEnv {
  e_coinbase : address;
  e_block_gas_limit : Z;
  e_prevrandao : word;
  e_gas_price : Z;
  e_blob_hashes : list word
}.

Definition from_header_with_blob_hashes (h : Block.BlockHeader) (blob_hashes : list word) : ZvmBlockEnv :=
  mkEnv (Block.coinbase h) (Block.gas_limit h) (Block.mix_hash h) (Block.base_fee_per_gas h) blob_hashes.

Definition from_header (h : Block.BlockHeader) : ZvmBlockEnv := from_header_with_blob_hashes h [].

Record ProductionZvmHost := mkHost {
  ph_state : View;
  ph_env : ZvmBlockEnv;
  ph_transient : gmap (address * word) word;
  ph_caller_vm : VmKind;
  ph_created : gset address;
  ph_destructs : list (address * address)
}.

Definition host_new (state : View) (env : ZvmBlockEnv) (transient : gmap (address * word) word) : ProductionZvmHost :=
  mkHost state env transient Zvm ∅ [].

Definition with_state (v : View) (h : ProductionZvmHost) : ProductionZvmHost :=
  mkHost v (ph_env h) (ph_transient h) (ph_caller_vm h) (ph_created h) (ph_destructs h).
Definition with_transient (t : gmap (address * word) word) (h : ProductionZvmHost) : ProductionZvmHost :=
  mkHost (ph_state h) (ph_env h) t (ph_caller_vm h) (ph_created h) (ph_destructs h).
Definition with_created (c : gset address) (h : ProductionZvmHost) : ProductionZvmHost :=
  mkHost (ph_state h) (ph_env h) (ph_transient h) (ph_caller_vm h) c (ph_destructs h).
Definition with_destructs (d : list (address * address)) (h : ProductionZvmHost) : ProductionZvmHost :=
  mkHost (ph_state h) (ph_env h) (ph_transient h) (ph_caller_vm h) (ph_created h) d.

Definition take_pending_destructs (h : ProductionZvmHost) : list (address * address) * ProductionZvmHost :=
  (ph_destructs h, with_destructs [] h).

Definition acct (h : ProductionZvmHost) (a : address) : AccountState := get_account (ph_state h) a.
Definition put_acct (a : address) (s : AccountState) (h : ProductionZvmHost) : ProductionZvmHost :=
  with_state (set_account a s (ph_state h)) h.

Definition host_balance (h : ProductionZvmHost) (a : address) : Z := balance_u128 (acct h a).

Definition host_transfer (from to : address) (amount : Z) (h : ProductionZvmHost) : outcome ZvmError unit * ProductionZvmHost :=
  let from_acct := acct h from in
  let from_bal := balance_u128 from_acct in
  if from_bal <? amount then (Err InsufficientBalance, h) else
  let h1 := put_acct from (set_balance_u128 (from_bal - amount) from_acct) h in
  let to_acct := acct h1 to in
  let to_bal := balance_u128 to_acct in
  (Ok tt, put_acct to (set_balance_u128 (saturating_add128 to_bal amount) to_acct) h1).

Definition host_inc_nonce (a : address) (h : ProductionZvmHost) : Z * ProductionZvmHost :=
  let n := saturating_add64 (acct_nonce (acct h a)) 1 in
  (n, put_acct a (with_nonce n (acct h a)) h).

Definition host_burn (a : address) (amount : Z) (h : ProductionZvmHost) : outcome ZvmError unit * ProductionZvmHost :=
  let bal := balance_u128 (acct h a) in
  if bal <? amount then (Err InsufficientBalance, h)
  else (Ok tt, put_acct a (set_balance_u128 (bal - amount) (acct h a)) h).

Definition host_selfdestruct (contract beneficiary : address) (h : ProductionZvmHost) : ProductionZvmHost :=
  let bal := host_balance h contract in
  let h1 := if 0 <? bal then (host_transfer contract beneficiary bal h).2 else h in
  with_destructs (ph_destructs h1 ++ [(contract, beneficiary)]) h1.

Definition host_is_call_allowed (h : ProductionZvmHost) (target : address) : bool :=
  if negb (is_contract (acct h target)) then true
  else bool_decide (vm (acct h target) = ph_caller_vm h).

Definition host_emit_log (a : address) (topics : list word) (data : bytes) (h : ProductionZvmHost) : ProductionZvmHost :=
  with_state (State.emit_log (Receipts.Receipts.mkLog a topics data 0 0 (replicate 32 0) 0) (ph_state h)) h.

(** [to_ascii_lowercase] and [trim_end_matches("@zbx")], which removes the
    suffix as often as it is there. *)
Definition ascii_lower (b : Z) : Z := if (65 <=? b) && (b <=? 90) then b + 32 else b.

Definition AT_ZBX : bytes := [64; 122; 98; 120].

Fixpoint trim_end (fuel : nat) (l : bytes) : bytes :=
  match fuel with
  | O => l
  | S fuel =>
      let n := (length l - 4)%nat in
      if bool_decide (drop n l = AT_ZBX) then trim_end fuel (take n l) else l
  end.
Definition trim_end_zbx (l : bytes) : bytes := trim_end (length l) l.

Section PayId.
Context `{EvmHost.Keccak}.

Definition host_resolve_bytes (h : ProductionZvmHost) (name : bytes) : option address :=
  if negb (EvmHost.validate_payid_name name) then None else
  let w := get_storage (ph_state h) EvmHost.PAYID_REGISTRAR_ADDR (EvmHost.payid_forward_slot name) in
  if forallb (fun b => b =? 0) w then None else Some (take 20 (drop 12 w)).

Definition host_resolve (h : ProductionZvmHost) (pay_id : bytes) : option address :=
  host_resolve_bytes h (trim_end_zbx (map ascii_lower pay_id)).

(** [iter().position(|&b| b == 0)] *)
Fixpoint position_zero (l : bytes) : option nat :=
  match l with
  | [] => None
  | b :: l' => if b =? 0 then Some O else S <$> position_zero l'
  end.

Definition host_reverse (h : ProductionZvmHost) (a : address) : option bytes :=
  let w := get_storage (ph_state h) EvmHost.PAYID_REGISTRAR_ADDR (EvmHost.payid_reverse_slot a) in
  if forallb (fun b => b =? 0) w then None else Some (take (default 32%nat (position_zero w)) w).

Definition host_set_code (a : address) (cd : bytes) (h : ProductionZvmHost) : ProductionZvmHost :=
  let hash := EvmHost.keccak256 cd in
  let h1 := with_state (view_seed_code hash cd (ph_state h)) h in
  put_acct a (with_vm Zvm (with_code_hash hash (acct h1 a))) h1.

#[export] Instance production_host : ZvmHost ProductionZvmHost := {|
  balance := host_balance;
  storage_load h a k := get_storage (ph_state h) a k;
  storage_store a k v h := with_state (set_storage a k v (ph_state h)) h;
  code h a := get_code (ph_state h) a;
  code_hash h a := acct_code_hash (acct h a);
  block_hash _ _ := zero;
  transfer := host_transfer;
  nonce h a := acct_nonce (acct h a);
  inc_nonce := host_inc_nonce;
  set_code := host_set_code;
  resolve_pay_id := host_resolve;
  resolve_pay_id_bytes := host_resolve_bytes;
  reverse_pay_id := host_reverse;
  zusd_balance _ _ := 0;
  zbx_price_usd _ := 0;
  blob_base_fee _ := 1;
  has_pay_id _ _ := false;
  burn_zbx := host_burn;
  emit_zvm_log _ _ h := h;
  transient_load h a k := default zero (ph_transient h !! (a, k));
  transient_store a k v h := with_transient (<[(a, k) := v]> (ph_transient h)) h;
  coinbase h := e_coinbase (ph_env h);
  block_gas_limit h := e_block_gas_limit (ph_env h);
  prevrandao h := e_prevrandao (ph_env h);
  gas_price h := e_gas_price (ph_env h);
  blob_hash h i := default zero (e_blob_hashes (ph_env h) !! Z.to_nat i);
  is_call_allowed := host_is_call_allowed;
  mark_created_this_tx a h := with_created ({[a]} ∪ ph_created h) h;
  was_created_this_tx h a := bool_decide (a ∈ ph_created h);
  selfdestruct := host_selfdestruct;
  emit_log := host_emit_log
|}.
End PayId.

End ZvmHost.
