(* ===== verification/ZvmInterp.v ===== *)
(** * The ZVM interpreter

    Models [interpreter.rs] and [executor.rs] of [crates/zbx-zvm/src], and
    [payid_resolve_with] of [precompiles.rs]; the other precompiled contracts
    are the class [ZvmPrecompiles]. A method taking [&mut self] is a
    computation of the monad of [Monad], which keeps the state on error. The recursion of [do_call] and [do_create] into a child interpreter
    is cut at that point: they return [EnterCall] or [EnterCreate] with the
    child and what the parent needs to resume, and [loop] executes the child
    and calls [resume_call] or [resume_create]. *)

From S2P Require Import Prelude.
From S2P Require Import Monad.
From S2P Require Import U256.
From S2P Require Import EvmBase.
From S2P Require Import EvmHost.
From S2P Require Import ZvmBase.
From S2P Require Import ZvmHost.

Module ZvmInterp.
Import Monad U256 ZvmBase ZvmHost.
Abbreviation Keccak := EvmHost.Keccak.
Abbreviation keccak256 := EvmHost.keccak256.

(** ** Precompiled contracts *)

Class ZvmPrecompiles := {
  call_precompile : address → bytes → Z → outcome ZvmError (bytes * Z);
  price_oracle_with : bytes → Z → (address → word → word) → outcome ZvmError (bytes * Z);
  zusd_vault_with : bytes → Z → (address → word → word) → Z → outcome ZvmError (bytes * Z)
}.

Definition nonzero (l : bytes) : bool := existsb (fun b => negb (b =? 0)) l.

(** The ABI encoding of a [string]: offset, length, data padded to 32 bytes. *)
Definition abi_string (name : bytes) : bytes :=
  let padded := ((length name + 31) / 32 * 32)%nat in
  replicate 31 0 ++ [0x20] ++ replicate 28 0 ++ to_be 4 (Z.of_nat (length name)) ++
  name ++ replicate (padded - length name) 0.

Definition payid_resolve_with (input : bytes) (gas : Z) (resolve : bytes → option address)
    (reverse : address → option bytes) : outcome ZvmError (bytes * Z) :=
  if (length input <? 96)%nat then Err InvalidInput else
  if nonzero (take 31 input) then Err InvalidInput else
  let op := byte_at input 31 in
  if nonzero (take 28 (drop 64 input)) then Err InvalidInput else
  let len := be_val (take 4 (drop 92 input)) in
  if (len =? 0) || (Z.of_nat (length input) <? 96 + len) then Err InvalidInput else
  let payload := take (Z.to_nat len) (drop 96 input) in
  let cost := saturating_add64 700 (saturating_mul64 50 (Z.of_nat (length payload))) in
  if gas <? cost then Err OutOfGas else
  if op =? 0 then
    if negb (utf8_valid payload) then Err InvalidInput else
    let name := trim_end_zbx (map ascii_lower payload) in
    if negb (EvmHost.validate_payid_name name) then Err InvalidInput else
    match resolve name with
    | Some addr => Ok (replicate 12 0 ++ addr, cost)
    | None => Ok (replicate 32 0, cost)
    end
  else if op =? 1 then
    if negb (length payload =? 20)%nat then Err InvalidInput else
    Ok (abi_string (default [] (reverse payload)), cost)
  else Err InvalidInput.

Definition is_precompile (addr : address) : bool :=
  forallb (fun x => x =? 0) (take 19 addr) && (1 <=? byte_at addr 19) && (byte_at addr 19 <=? 0x0F).

(** The dispatch shared by [do_precompile_call] and
    [execute_precompile_with_host]; the adapters read the host. *)
Definition run_precompile {H} `{ZvmHost H} `{ZvmPrecompiles} (h : H) (timestamp : Z) (target : address)
    (input : bytes) (gas : Z) : outcome ZvmError (bytes * Z) :=
  if byte_at target 19 =? 0x0A then payid_resolve_with input gas (resolve_pay_id_bytes h) (reverse_pay_id h)
  else if byte_at target 19 =? 0x0C then price_oracle_with input gas (storage_load h)
  else if byte_at target 19 =? 0x0F then zusd_vault_with input gas (storage_load h) timestamp
  else call_precompile target input gas.

(** ** 256-bit arithmetic on [primitive_types::U256] *)

Definition wrap256 (x : Z) : Z := x mod W.

Definition is_negative (x : Z) : bool := negb (Z.land (byte_at (to_be 32 x) 0) 0x80 =? 0).
(** [(!x).overflowing_add(1)] *)
Definition neg (x : Z) : Z := wrap256 (W - 1 - x + 1).

Definition div_u256 (a b : Z) : Z := if b =? 0 then 0 else a / b.
Definition mod_u256 (a b : Z) : Z := if b =? 0 then 0 else a mod b.
(** The sum and product are taken in 512 bits. *)
Definition addmod_u256 (a b n : Z) : Z := if n =? 0 then 0 else (a + b) mod n.
Definition mulmod_u256 (a b n : Z) : Z := if n =? 0 then 0 else (a * b) mod n.

Definition sdiv_u256 (a b : Z) : Z :=
  if b =? 0 then 0 else
  let min_neg := 2 ^ 255 in
  let neg_one := W - 1 in
  if (a =? min_neg) && (b =? neg_one) then min_neg else
  let neg_a := is_negative a in
  let neg_b := is_negative b in
  let abs_a := if neg_a then neg a else a in
  let abs_b := if neg_b then neg b else b in
  let q := abs_a / abs_b in
  if xorb neg_a neg_b then neg q else q.

Definition smod_u256 (a b : Z) : Z :=
  if b =? 0 then 0 else
  let neg_a := is_negative a in
  let neg_b := is_negative b in
  let abs_a := if neg_a then neg a else a in
  let abs_b := if neg_b then neg b else b in
  let r := abs_a mod abs_b in
  if r =? 0 then 0 else if neg_a then neg r else r.

Definition signed_lt (a b : Z) : bool :=
  match is_negative a, is_negative b with
  | true, false => true
  | false, true => false
  | _, _ => a <? b
  end.

Definition shl_u256 (shift value : Z) : Z := if 256 <=? shift then 0 else wrap256 (Z.shiftl value shift).
Definition shr_u256 (shift value : Z) : Z := if 256 <=? shift then 0 else Z.shiftr value shift.

Definition sar_u256 (value shift : Z) : Z :=
  let neg_v := is_negative value in
  if 256 <=? shift then (if neg_v then W - 1 else 0) else
  let logical := Z.shiftr value shift in
  if negb neg_v then logical else
  if shift =? 0 then logical else
  let mask := wrap256 (Z.shiftl (W - 1) (256 - shift)) in
  Z.lor logical mask.

(** [overflowing_pow(exp).0] *)
Fixpoint pow_pos (base : Z) (e : positive) : Z :=
  match e with
  | xH => wrap256 base
  | xO e => let r := pow_pos base e in wrap256 (r * r)
  | xI e => let r := pow_pos base e in wrap256 (wrap256 (r * r) * base)
  end.
Definition overflowing_pow (base exp : Z) : Z := match exp with Zpos e => pow_pos base e | _ => 1 end.

Definition signextend_u256 (b x : Z) : Z :=
  if 31 <=? b then x else
  let bit := b * 8 + 7 in
  let x_be := to_be 32 x in
  let sign_byte := (31 - Z.to_nat (bit / 8))%nat in
  let sign := Z.land (Z.shiftr (byte_at x_be sign_byte) 7) 1 =? 1 in
  be_val (imap (fun i v => if bool_decide (i < sign_byte)%nat then (if sign then 0xFF else 0x00) else v) x_be).

Definition byte_word (i : Z) (x : word) : word :=
  if 32 <=? i then zero else <[31%nat := byte_at x (Z.to_nat i)]> zero.

(** ** CREATE and CREATE2 addresses *)

(** The bytes [create_address] hashes. *)
Definition create_preimage (creator : address) (nonce : Z) : bytes :=
  let nonce_bytes := to_be 8 nonce in
  let nonce_compact := drop (leading_zeros nonce_bytes `min` 7) nonce_bytes in
  let creator_rlp := (0x80 + 20) :: creator in
  let nonce_rlp :=
    if nonce =? 0 then [0x80]
    else if (length nonce_compact =? 1)%nat && (byte_at nonce_compact 0 <? 0x80) then [byte_at nonce_compact 0]
    else (0x80 + Z.of_nat (length nonce_compact)) :: nonce_compact in
  let payload_len := (length creator_rlp + length nonce_rlp)%nat in
  (0xC0 + Z.of_nat payload_len) :: creator_rlp ++ nonce_rlp.

Definition create_address `{Keccak} (creator : address) (nonce : Z) : address :=
  drop 12 (keccak256 (create_preimage creator nonce)).

Definition create2_address `{Keccak} (creator : address) (salt : word) (initcode : bytes) : address :=
  let init_hash := keccak256 initcode in
  drop 12 (keccak256 ([0xFF] ++ creator ++ salt ++ init_hash)).

(** ** The JUMPDEST bitmap *)

Fixpoint bitmap_loop (fuel : nat) (code : bytes) (i : nat) (dests : list bool) : option (list bool) :=
  match fuel with
  | O => None
  | S fuel =>
      match code !! i with
      | None => Some dests
      | Some op =>
          if op =? 0x5B then bitmap_loop fuel code (i + 1) (<[i := true]> dests)
          else if (0x60 <=? op) && (op <=? 0x7F) then
            bitmap_loop fuel code (i + (1 + Z.to_nat (op - 0x5F))) dests
          else bitmap_loop fuel code (i + 1) dests
      end
  end.

(** At most one iteration per byte. *)
Definition build_jumpdest_bitmap (code : bytes) : list bool :=
  default [] (bitmap_loop (S (length code)) code 0 (replicate (length code) false)).

(** ** The interpreter state *)

Inductive ZvmCallKind := Call | CallCode | DelegateCall | StaticCall.

Definition CALL_DEPTH_LIMIT : nat := 1024.

Record ZvmInterpreter (H : Type) := mkInterp {
  i_ctx : ZvmContext;
  i_host : H;
  i_stack : list (list Z);
  i_memory : list Z;
  i_pc : Z;
  i_gas : Z;
  i_logs : list ZvmLog;
  i_zvm_logs : list ZvmStructuredLog;
  i_return_data : bytes;
  i_log_index : Z;
  i_depth : nat;
  i_accessed_addresses : gset (list Z);
  i_accessed_slots : gset (list Z * list Z);
  i_jumpdests : list bool
}.
Arguments mkInterp {H}.
Arguments i_ctx {H}. Arguments i_host {H}. Arguments i_stack {H}. Arguments i_memory {H}. Arguments i_pc {H}.
Arguments i_gas {H}. Arguments i_logs {H}. Arguments i_zvm_logs {H}. Arguments i_return_data {H}.
Arguments i_log_index {H}. Arguments i_depth {H}. Arguments i_accessed_addresses {H}.
Arguments i_accessed_slots {H}. Arguments i_jumpdests {H}.

Section Setters.
Context {H : Type}.
Implicit Types s : ZvmInterpreter H.

Definition set_host (x : H) s : ZvmInterpreter H :=
  mkInterp (i_ctx s) x (i_stack s) (i_memory s) (i_pc s) (i_gas s) (i_logs s) (i_zvm_logs s) (i_return_data s)
    (i_log_index s) (i_depth s) (i_accessed_addresses s) (i_accessed_slots s) (i_jumpdests s).
Definition set_stack (x : list (list Z)) s : ZvmInterpreter H :=
  mkInterp (i_ctx s) (i_host s) x (i_memory s) (i_pc s) (i_gas s) (i_logs s) (i_zvm_logs s) (i_return_data s)
    (i_log_index s) (i_depth s) (i_accessed_addresses s) (i_accessed_slots s) (i_jumpdests s).
Definition set_memory (x : list Z) s : ZvmInterpreter H :=
  mkInterp (i_ctx s) (i_host s) (i_stack s) x (i_pc s) (i_gas s) (i_logs s) (i_zvm_logs s) (i_return_data s)
    (i_log_index s) (i_depth s) (i_accessed_addresses s) (i_accessed_slots s) (i_jumpdests s).
Definition set_pc (x : Z) s : ZvmInterpreter H :=
  mkInterp (i_ctx s) (i_host s) (i_stack s) (i_memory s) x (i_gas s) (i_logs s) (i_zvm_logs s) (i_return_data s)
    (i_log_index s) (i_depth s) (i_accessed_addresses s) (i_accessed_slots s) (i_jumpdests s).
Definition set_gas (x : Z) s : ZvmInterpreter H :=
  mkInterp (i_ctx s) (i_host s) (i_stack s) (i_memory s) (i_pc s) x (i_logs s) (i_zvm_logs s) (i_return_data s)
    (i_log_index s) (i_depth s) (i_accessed_addresses s) (i_accessed_slots s) (i_jumpdests s).
Definition set_logs (x : list ZvmLog) s : ZvmInterpreter H :=
  mkInterp (i_ctx s) (i_host s) (i_stack s) (i_memory s) (i_pc s) (i_gas s) x (i_zvm_logs s) (i_return_data s)
    (i_log_index s) (i_depth s) (i_accessed_addresses s) (i_accessed_slots s) (i_jumpdests s).
Definition set_zvm_logs (x : list ZvmStructuredLog) (n : Z) s : ZvmInterpreter H :=
  mkInterp (i_ctx s) (i_host s) (i_stack s) (i_memory s) (i_pc s) (i_gas s) (i_logs s) x (i_return_data s)
    n (i_depth s) (i_accessed_addresses s) (i_accessed_slots s) (i_jumpdests s).
Definition set_return_data (x : bytes) s : ZvmInterpreter H :=
  mkInterp (i_ctx s) (i_host s) (i_stack s) (i_memory s) (i_pc s) (i_gas s) (i_logs s) (i_zvm_logs s) x
    (i_log_index s) (i_depth s) (i_accessed_addresses s) (i_accessed_slots s) (i_jumpdests s).
Definition set_warm (a : gset (list Z)) (k : gset (list Z * list Z)) s : ZvmInterpreter H :=
  mkInterp (i_ctx s) (i_host s) (i_stack s) (i_memory s) (i_pc s) (i_gas s) (i_logs s) (i_zvm_logs s)
    (i_return_data s) (i_log_index s) (i_depth s) a k (i_jumpdests s).
Definition set_jumpdests (x : list bool) s : ZvmInterpreter H :=
  mkInterp (i_ctx s) (i_host s) (i_stack s) (i_memory s) (i_pc s) (i_gas s) (i_logs s) (i_zvm_logs s)
    (i_return_data s) (i_log_index s) (i_depth s) (i_accessed_addresses s) (i_accessed_slots s) x.
End Setters.

(** What the parent keeps while a child interpreter runs. *)
Record PendingCall := mkPending { p_ret_off : Z; p_ret_len : Z }.

(** What a handler tells [step]: go on with the next instruction, go on at the
    [pc] already set, stop, or run a child first. *)
Inductive Ctrl (H : Type) :=
| Next
| Jumped
| Halt (status : ExecutionStatus)
| EnterCall (sub : ZvmInterpreter H) (p : PendingCall)
| EnterCreate (sub : ZvmInterpreter H) (new_addr : address).
Arguments Next {H}. Arguments Jumped {H}. Arguments Halt {H}. Arguments EnterCall {H}. Arguments EnterCreate {H}.

(** ** The monad *)

Abbreviation M H := (SE ZvmError (ZvmInterpreter H)).

Section Primitives.
Context {H : Type} `{ZvmHost H} `{HP : Heap}.

(** A method of the host that returns a [Result]. *)
Definition host_try (f : H → outcome ZvmError unit * H) : M H unit := fun s =>
  let r := f (i_host s) in (r.1, set_host r.2 s).
Definition host_do (f : H → H) : M H unit := modify (fun s => set_host (f (i_host s)) s).

Definition charge_gas (amt : Z) : M H unit := fun s =>
  if i_gas s <? amt then (Err OutOfGas, set_gas 0 s) else (Ok tt, set_gas (i_gas s - amt) s).

Definition charge_mem_expansion (new_size : Z) : M H unit :=
  if new_size =? 0 then mret tt else
  m ← gets i_memory;
  let delta := memory_gas_delta (mem_words m) (words_of new_size) in
  if delta =? 0 then mret tt else charge_gas delta.

Definition push (v : word) : M H unit :=
  st ← gets i_stack; st' ← lift (stack_push v st); modify (set_stack st').
Definition pop : M H word :=
  st ← gets i_stack; r ← lift (stack_pop st); modify (set_stack r.2);; mret r.1.
Definition dup (n : nat) : M H unit :=
  st ← gets i_stack; st' ← lift (stack_dup n st); modify (set_stack st').
Definition swap (n : nat) : M H unit :=
  st ← gets i_stack; st' ← lift (stack_swap n st); modify (set_stack st').

Definition push_u64 (v : Z) : M H unit := push (word_of_u64 v).
Definition push_u128 (v : Z) : M H unit := push (word_of_u128 v).
Definition push_address (a : address) : M H unit := push (word_of_address a).
Definition push_u256 (v : Z) : M H unit := push (word_of_u256 v).
Definition pop_u64 : M H Z := w ← pop; mret (word_u64 w).
Definition pop_u128 : M H Z := w ← pop; mret (word_u128 w).
Definition pop_address : M H address := w ← pop; mret (word_address w).
Definition pop_u256 : M H Z := w ← pop; mret (word_u256 w).

(** A method of [ZvmMemory]. *)
Definition mem_do (f : ZvmMemory → outcome ZvmError ZvmMemory) : M H unit :=
  m ← gets i_memory; m' ← lift (f m); modify (set_memory m').
Definition mread (offset len : Z) : M H bytes :=
  m ← gets i_memory; r ← lift (mem_read_slice offset len m); modify (set_memory r.2);; mret r.1.
Definition read_string (offset len : Z) : M H bytes :=
  d ← mread offset len; if utf8_valid d then mret d else fail InvalidUtf8.

(** [accessed_addresses.insert], then the cold surcharge. *)
Definition touch (addr : address) : M H unit :=
  warm ← gets i_accessed_addresses;
  modify (fun s => set_warm ({[addr]} ∪ warm) (i_accessed_slots s) s);;
  charge_gas (if bool_decide (addr ∈ warm) then 0 else saturating_sub COLD_ACCOUNT_COST WARM_ACCOUNT_COST).

Definition touch_slot (slot : address * word) (cold : Z) : M H unit :=
  warm ← gets i_accessed_slots;
  modify (fun s => set_warm (i_accessed_addresses s) ({[slot]} ∪ warm) s);;
  charge_gas (if bool_decide (slot ∈ warm) then 0 else cold).

Definition ctx : M H ZvmContext := gets i_ctx.
Definition guard_static : M H unit := c ← ctx; if z_is_static c then fail StaticStateChange else mret tt.

Definition binop (f : Z → Z → Z) : M H unit := a ← pop_u256; b ← pop_u256; push_u256 (f a b).
Definition ternop (f : Z → Z → Z → Z) : M H unit :=
  a ← pop_u256; b ← pop_u256; n ← pop_u256; push_u256 (f a b n).
Definition cmpop (f : Z → Z → bool) : M H unit :=
  a ← pop_u256; b ← pop_u256; push_u64 (if f a b then 1 else 0).
Definition bitop (f : word → word → word) : M H unit := a ← pop; b ← pop; push (f a b).
Definition push_of (f : ZvmInterpreter H → word) : M H unit := w ← gets f; push w.
End Primitives.

(** ** Instruction handlers *)

Definition ZVM_VERSION : Z := 1.

(** [vec![0u8; len]] *)
Definition vec_zeros `{Heap} (len : Z) : outcome ZvmError bytes := vec_resize [] len.

(** The buffer of CALLDATACOPY, CODECOPY and EXTCODECOPY. *)
Definition copy_buf `{Heap} (data : bytes) (src len : Z) : outcome ZvmError bytes :=
  let? buf := vec_zeros len in
  let n := Z.of_nat (length data) in
  if src <? n then
    let take := Z.min (n - src) len in
    let? chunk := slice data src (src + take) in
    Ok (chunk ++ drop (Z.to_nat take) buf)
  else Ok buf.

Definition calldataload (data : bytes) (offset : Z) : outcome ZvmError word :=
  let n := Z.of_nat (length data) in
  if offset <? n then
    let take := Z.min (n - offset) 32 in
    let? chunk := slice data offset (offset + take) in
    Ok (chunk ++ replicate (32 - Z.to_nat take) 0)
  else Ok zero.

(** [for i in 0..l.len() { memory.store8(off + i, l[i])? }] *)
Fixpoint store_bytes `{Heap} (off : Z) (l : bytes) (m : ZvmMemory) : outcome ZvmError ZvmMemory :=
  match l with
  | [] => Ok m
  | b :: l => let? m' := mem_store8 (wrap64 off) b m in store_bytes (off + 1) l m'
  end.

(** The word PUSHn pushes. *)
Definition push_value (code : bytes) (pc : Z) (n : nat) : outcome ZvmError word :=
  let start := pc + 1 in
  let end_ := start + Z.of_nat n in
  if Z.of_nat (length code) <? end_ then Err UnexpectedEnd else
  let? chunk := slice code start end_ in
  Ok (replicate (32 - n) 0 ++ chunk).

Definition addr_or_zero (a : option address) : address := default (replicate 20 0) a.

Section Handlers.
Context {H : Type} `{ZvmHost H} `{Keccak} `{ZvmPrecompiles} `{HP : Heap}.

Definition copy_data (data : M H bytes) (dest_off src_off len : Z) : M H unit :=
  charge_gas (copy_dynamic_gas len);;
  charge_mem_expansion (saturating_add64 dest_off len);;
  d ← data;
  buf ← lift (copy_buf d src_off len);
  mem_do (mem_write_slice dest_off buf).

(** STOP to SAR. *)
Definition exec_exp : M H unit :=
  base ← pop_u256; exp ← pop_u256;
  charge_gas (exp_dynamic_gas (to_be 32 exp));;
  push_u256 (overflowing_pow base exp).

Definition exec_keccak : M H unit :=
  offset ← pop_u64; length ← pop_u64;
  charge_gas (keccak256_dynamic_gas length);;
  charge_mem_expansion (saturating_add64 offset length);;
  data ← mread offset length;
  push (keccak256 data).

Definition exec_calldataload : M H unit :=
  offset ← pop_u256;
  c ← ctx;
  w ← lift (calldataload (z_calldata c) offset);
  push w.

Definition exec_copy (data : M H bytes) : M H unit :=
  dest_off ← pop_u64; src_off ← pop_u64; len ← pop_u64;
  copy_data data dest_off src_off len.

Definition exec_returndatacopy : M H unit :=
  dest_off ← pop_u64; src_off ← pop_u64; len ← pop_u64;
  charge_gas (copy_dynamic_gas len);;
  charge_mem_expansion (saturating_add64 dest_off len);;
  rd ← gets i_return_data;
  if Z.of_nat (length rd) <? saturating_add64 src_off len then fail InvalidInput else
  buf ← lift (slice rd src_off (src_off + len));
  mem_do (mem_write_slice dest_off buf).

Definition exec_extcodecopy : M H unit :=
  addr ← pop_address;
  dest_off ← pop_u64; code_off ← pop_u64; len ← pop_u64;
  touch addr;;
  copy_data (gets (fun s => code (i_host s) addr)) dest_off code_off len.

(** BALANCE, EXTCODESIZE and EXTCODEHASH. *)
Definition exec_account (f : H → address → word) : M H unit :=
  addr ← pop_address; touch addr;; push_of (fun s => f (i_host s) addr).

Definition exec_mcopy : M H unit :=
  dest_off ← pop_u64; src_off ← pop_u64; len ← pop_u64;
  charge_gas (copy_dynamic_gas len);;
  charge_mem_expansion (saturating_add64 (Z.max dest_off src_off) len);;
  mem_do (mem_copy dest_off src_off len).

Definition exec_push (n : nat) : M H unit :=
  c ← ctx; pc ← gets i_pc;
  w ← lift (push_value (z_bytecode c) pc n);
  push w;; modify (fun s => set_pc (i_pc s + Z.of_nat n) s).

Definition exec_mload : M H unit :=
  offset ← pop_u64;
  charge_mem_expansion (saturating_add64 offset 32);;
  w ← mread offset 32; push w.
Definition exec_mstore : M H unit :=
  offset ← pop_u64; w ← pop;
  charge_mem_expansion (saturating_add64 offset 32);;
  mem_do (mem_store offset w).
Definition exec_mstore8 : M H unit :=
  offset ← pop_u64; w ← pop;
  charge_mem_expansion (saturating_add64 offset 1);;
  mem_do (mem_store8 offset (byte_at w 31)).

Definition exec_sload : M H unit :=
  key ← pop; c ← ctx;
  touch_slot (z_contract c, key) (saturating_sub COLD_SLOAD_COST WARM_SLOAD_COST);;
  push_of (fun s => storage_load (i_host s) (z_contract c) key).
Definition exec_sstore : M H unit :=
  guard_static;;
  key ← pop; val ← pop; c ← ctx;
  touch_slot (z_contract c, key) SSTORE_COLD_DELTA;;
  host_do (storage_store (z_contract c) key val).
Definition exec_tload : M H unit :=
  key ← pop; c ← ctx; push_of (fun s => transient_load (i_host s) (z_contract c) key).
Definition exec_tstore : M H unit :=
  guard_static;;
  key ← pop; val ← pop; c ← ctx;
  host_do (transient_store (z_contract c) key val).

Definition valid_jump (s : ZvmInterpreter H) (dest : Z) : bool :=
  (dest <? Z.of_nat (length (z_bytecode (i_ctx s)))) && default false (i_jumpdests s !! Z.to_nat dest).

Definition jump_to (dest : Z) : M H (Ctrl H) :=
  ok ← gets (fun s => valid_jump s dest);
  if negb ok then fail (InvalidJump dest) else modify (set_pc dest);; mret Jumped.

Definition exec_jump : M H (Ctrl H) := dest ← pop_u64; jump_to dest.
Definition exec_jumpi : M H (Ctrl H) :=
  dest ← pop_u64; cond ← pop;
  if negb (bool_decide (cond = zero)) then jump_to dest else mret Next.

(** RETURN and REVERT *)
Definition do_return (status : ExecutionStatus) : M H (Ctrl H) :=
  offset ← pop_u64; len ← pop_u64;
  charge_mem_expansion (saturating_add64 offset len);;
  d ← mread offset len;
  modify (set_return_data d);; mret (Halt status).

Definition exec_selfdestruct : M H (Ctrl H) :=
  guard_static;;
  beneficiary ← pop_address; c ← ctx;
  host_do (selfdestruct (z_contract c) beneficiary);;
  mret (Halt ZSuccess).

(** The ZVM's own instructions. *)
Definition exec_payid : M H unit :=
  ptr ← pop_u64; len ← pop_u64;
  pay_id ← read_string ptr len;
  push_of (fun s => word_of_address (addr_or_zero (resolve_pay_id (i_host s) pay_id))).
Definition exec_zbxburn : M H unit :=
  guard_static;;
  amount ← pop_u128; c ← ctx;
  host_try (burn_zbx (z_caller c) amount).
Definition exec_zvmlog : M H unit :=
  key_ptr ← pop_u64; key_len ← pop_u64; val_ptr ← pop_u64; val_len ← pop_u64;
  key ← read_string key_ptr key_len;
  val ← read_string val_ptr val_len;
  host_do (emit_zvm_log key val);;
  modify (fun s => set_zvm_logs
    (i_zvm_logs s ++ [mkSLog key val (z_block_number (i_ctx s)) (i_log_index s)])
    ((i_log_index s + 1) mod 2 ^ 32) s).

Fixpoint pop_n (n : nat) : M H (list word) :=
  match n with
  | O => mret []
  | S n => w ← pop; rest ← pop_n n; mret (w :: rest)
  end.

Definition exec_log (n_topics : nat) : M H unit :=
  guard_static;;
  offset ← pop_u64; length ← pop_u64;
  charge_gas (log_dynamic_gas (Z.of_nat n_topics) length);;
  charge_mem_expansion (saturating_add64 offset length);;
  topics ← pop_n n_topics;
  data ← mread offset length;
  c ← ctx;
  modify (fun s => set_logs (i_logs s ++ [mkZvmLog (z_contract c) topics data]) s);;
  host_do (emit_log (z_contract c) topics data).

(** ** The CALL family *)

Definition takes_value (kind : ZvmCallKind) : bool := match kind with Call | CallCode => true | _ => false end.

Definition new_interp (c : ZvmContext) (h : H) : ZvmInterpreter H :=
  mkInterp c h [] [] 0 (z_gas_limit c) [] [] [] 0 0 ∅ ∅ [].

(** The sub-interpreter of a call or a creation. *)
Definition child (parent : ZvmInterpreter H) (c : ZvmContext) : ZvmInterpreter H :=
  mkInterp c (i_host parent) [] [] 0 (z_gas_limit c) [] [] [] 0 (S (i_depth parent))
    (i_accessed_addresses parent) (i_accessed_slots parent) [].

Definition push_failure : M H (Ctrl H) := modify (set_return_data []);; push_u64 0;; mret Next.

Definition do_precompile_call (target : address) (calldata : bytes) (gas_req ret_off ret_len : Z) : M H (Ctrl H) :=
  s ← gets (fun s => s);
  let avail := Z.min gas_req (i_gas s) in
  match run_precompile (i_host s) (z_timestamp (i_ctx s)) target calldata avail with
  | Ok (output, gas_used) =>
      modify (fun s => set_gas (saturating_sub (i_gas s) gas_used) s);;
      let copy_len := Z.min ret_len (Z.of_nat (length output)) in
      mem_do (store_bytes ret_off (take (Z.to_nat copy_len) output));;
      modify (set_return_data output);;
      push_u64 1;; mret Next
  | Err _ => push_failure
  | Panic => lift Panic
  end.

Definition sub_call_ctx (kind : ZvmCallKind) (c : ZvmContext) (target : address) (value : Z) (code calldata : bytes)
    (forwarded : Z) : ZvmContext :=
  let '(sub_caller, sub_contract) :=
    match kind with DelegateCall => (z_caller c, z_contract c) | _ => (z_contract c, target) end in
  let sub_static := z_is_static c || match kind with StaticCall => true | _ => false end in
  mkZvmCtx code calldata sub_caller sub_contract
    (match kind with DelegateCall => z_value c | _ => value end) forwarded (z_block_number c) (z_timestamp c)
    (z_base_fee c) (z_blob_base_fee c) (z_chain_id c) sub_static None (z_price_usd c) (z_origin c).

(** [do_call] once the target may be called. *)
Definition call_enter (kind : ZvmCallKind) (gas_req : Z) (target : address) (value : Z) (calldata : bytes)
    (ret_off ret_len : Z) : M H (Ctrl H) :=
  c ← ctx;
  target_code ← gets (fun s => code (i_host s) target);
  transfers ← mret (match kind with Call => 0 <? value | _ => false end);
  poor ← gets (fun s => balance (i_host s) (z_contract c) <? value);
  if transfers && poor then push_failure else
  (if transfers : bool then host_try (transfer (z_contract c) target value) else mret tt);;
  gas ← gets i_gas;
  let forwarded := Z.min gas_req (gas / 64 * 63) in
  modify (set_gas (saturating_sub gas forwarded));;
  parent ← gets (fun s => s);
  mret (EnterCall (child parent (sub_call_ctx kind c target value target_code calldata forwarded))
          (mkPending ret_off ret_len)).

Definition do_call (kind : ZvmCallKind) : M H (Ctrl H) :=
  gas_req ← pop_u64;
  target ← pop_address;
  value ← (if takes_value kind then pop_u128 else mret 0);
  c ← ctx;
  if takes_value kind && z_is_static c && (0 <? value) then fail StaticStateChange else
  args_off ← pop_u64; args_len ← pop_u64; ret_off ← pop_u64; ret_len ← pop_u64;
  touch target;;
  charge_mem_expansion (saturating_add64 args_off args_len);;
  charge_mem_expansion (saturating_add64 ret_off ret_len);;
  depth ← gets i_depth;
  if (CALL_DEPTH_LIMIT <=? depth)%nat then push_failure else
  calldata ← mread args_off args_len;
  if is_precompile target then do_precompile_call target calldata gas_req ret_off ret_len else
  allowed ← gets (fun s => is_call_allowed (i_host s) target);
  if negb allowed then push_failure else
  call_enter kind gas_req target value calldata ret_off ret_len.

Definition is_success (st : ExecutionStatus) : bool := match st with ZSuccess => true | _ => false end.

(** The host, the warm sets and the gas come back from the child. *)
Definition merge_child (r : ZvmResult) (sub : ZvmInterpreter H) : M H unit :=
  modify (set_host (i_host sub));;
  modify (fun s => set_warm (i_accessed_addresses s ∪ i_accessed_addresses sub)
                     (i_accessed_slots s ∪ i_accessed_slots sub) s);;
  modify (fun s => set_gas (saturating_add64 (i_gas s) (zr_gas_remaining r)) s).

Definition resume_call (p : PendingCall) (r : ZvmResult) (sub : ZvmInterpreter H) : M H unit :=
  merge_child r sub;;
  modify (set_return_data (zr_return_data r));;
  let copy_len := Z.min (p_ret_len p) (Z.of_nat (length (zr_return_data r))) in
  mem_do (store_bytes (p_ret_off p) (take (Z.to_nat copy_len) (zr_return_data r)));;
  push_u64 (if is_success (zr_status r) then 1 else 0).

(** ** CREATE and CREATE2 *)

Definition MAX_INITCODE_SIZE : Z := 2 * 24576.

Definition sub_create_ctx (c : ZvmContext) (new_addr : address) (value : Z) (initcode : bytes) (forwarded : Z)
    : ZvmContext :=
  mkZvmCtx initcode [] (z_contract c) new_addr value forwarded (z_block_number c) (z_timestamp c) (z_base_fee c)
    (z_blob_base_fee c) (z_chain_id c) false None (z_price_usd c) (z_origin c).

(** [do_create] from the balance check on. *)
Definition create_enter (value : Z) (off len : Z) (salt : option word) : M H (Ctrl H) :=
  c ← ctx;
  poor ← gets (fun s => balance (i_host s) (z_contract c) <? value);
  if poor : bool then push zero;; mret Next else
  initcode ← mread off len;
  creator_nonce ← gets (fun s => nonce (i_host s) (z_contract c));
  let new_addr := match salt with
                  | Some s => create2_address (z_contract c) s initcode
                  | None => create_address (z_contract c) creator_nonce
                  end in
  host_do (fun h => (inc_nonce (z_contract c) h).2);;
  collision ← gets (fun s => negb (bool_decide (code (i_host s) new_addr = [])) || (0 <? nonce (i_host s) new_addr));
  if collision : bool then push zero;; mret Next else
  (if 0 <? value then host_try (transfer (z_contract c) new_addr value) else mret tt);;
  host_do (fun h => (inc_nonce new_addr h).2);;
  gas ← gets i_gas;
  let forwarded := gas / 64 * 63 in
  modify (set_gas (saturating_sub gas forwarded));;
  parent ← gets (fun s => s);
  mret (EnterCreate (child parent (sub_create_ctx c new_addr value initcode forwarded)) new_addr).

Definition do_create (with_salt : bool) : M H (Ctrl H) :=
  guard_static;;
  value ← pop_u128; off ← pop_u64; len ← pop_u64;
  salt ← (if with_salt then w ← pop; mret (Some w) else mret None);
  if MAX_INITCODE_SIZE <? len then modify (set_return_data []);; push zero;; mret Next else
  charge_gas (saturating_mul64 2 (words_of len));;
  (if with_salt then charge_gas (keccak256_dynamic_gas len) else mret tt);;
  charge_mem_expansion (saturating_add64 off len);;
  depth ← gets i_depth;
  if (CALL_DEPTH_LIMIT <=? depth)%nat then modify (set_return_data []);; push zero;; mret Next else
  create_enter value off len salt.

Definition resume_create (new_addr : address) (r : ZvmResult) (sub : ZvmInterpreter H) : M H unit :=
  merge_child r sub;;
  if negb (is_success (zr_status r)) then modify (set_return_data (zr_return_data r));; push zero else
  let deployed := zr_return_data r in
  if 24576 <? Z.of_nat (length deployed) then push zero else
  if bool_decide (head deployed = Some 0xEF) then push zero else
  let deposit_cost := 200 * Z.of_nat (length deployed) in
  gas ← gets i_gas;
  if gas <? deposit_cost then push zero else
  modify (set_gas (gas - deposit_cost));;
  host_do (set_code new_addr deployed);;
  host_do (mark_created_this_tx new_addr);;
  modify (set_return_data []);;
  push_address new_addr.

(** ** dispatch *)

Definition next (m : M H unit) : M H (Ctrl H) := m;; mret Next.
Definition of_ctx (f : ZvmContext → word) : M H (Ctrl H) := next (push_of (fun s => f (i_ctx s))).
Definition of_host (f : H → word) : M H (Ctrl H) := next (push_of (fun s => f (i_host s))).

(** Every constructor of [Opcode] has an arm in the source, whose last one is
    never taken. *)
Definition dispatch (op : Opcode) : M H (Ctrl H) :=
  match op with
  | STOP => mret (Halt ZSuccess)
  | ADD => next (binop (fun a b => wrap256 (a + b)))
  | MUL => next (binop (fun a b => wrap256 (a * b)))
  | SUB => next (binop (fun a b => wrap256 (a - b)))
  | DIV => next (binop div_u256)
  | SDIV => next (binop sdiv_u256)
  | MOD => next (binop mod_u256)
  | SMOD => next (binop smod_u256)
  | ADDMOD => next (ternop addmod_u256)
  | MULMOD => next (ternop mulmod_u256)
  | EXP => next exec_exp
  | SIGNEXTEND => next (binop signextend_u256)
  | LT => next (cmpop Z.ltb)
  | GT => next (cmpop (fun a b => b <? a))
  | SLT => next (cmpop signed_lt)
  | SGT => next (cmpop (fun a b => signed_lt b a))
  | EQ => next (a ← pop; b ← pop; push_u64 (if bool_decide (a = b) then 1 else 0))
  | ISZERO => next (a ← pop; push_u64 (if bool_decide (a = zero) then 1 else 0))
  | AND => next (bitop (zip_with Z.land))
  | OR => next (bitop (zip_with Z.lor))
  | XOR => next (bitop (zip_with Z.lxor))
  | NOT => next (a ← pop; push (map (fun x => 255 - x) a))
  | BYTE => next (i ← pop_u256; x ← pop; push (byte_word i x))
  | SHL => next (binop shl_u256)
  | SHR => next (binop shr_u256)
  | SAR => next (binop (fun shift value => sar_u256 value shift))
  | KECCAK256 => next exec_keccak
  | ADDRESS => of_ctx (fun c => word_of_address (z_contract c))
  | BALANCE => next (exec_account (fun h a => word_of_u128 (balance h a)))
  | ORIGIN => of_ctx (fun c => word_of_address (z_origin c))
  | CALLER => of_ctx (fun c => word_of_address (z_caller c))
  | CALLVALUE => of_ctx (fun c => word_of_u128 (z_value c))
  | CALLDATALOAD => next exec_calldataload
  | CALLDATASIZE => of_ctx (fun c => word_of_u64 (Z.of_nat (length (z_calldata c))))
  | CALLDATACOPY => next (exec_copy (gets (fun s => z_calldata (i_ctx s))))
  | CODESIZE => of_ctx (fun c => word_of_u64 (Z.of_nat (length (z_bytecode c))))
  | CODECOPY => next (exec_copy (gets (fun s => z_bytecode (i_ctx s))))
  | GASPRICE => of_host (fun h => word_of_u128 (gas_price h))
  | EXTCODESIZE => next (exec_account (fun h a => word_of_u64 (code_size h a)))
  | EXTCODECOPY => next exec_extcodecopy
  | RETURNDATASIZE => next (push_of (fun s => word_of_u64 (Z.of_nat (length (i_return_data s)))))
  | RETURNDATACOPY => next exec_returndatacopy
  | EXTCODEHASH => next (exec_account code_hash)
  | BLOCKHASH => next (n ← pop_u64; push_of (fun s => block_hash (i_host s) n))
  | COINBASE => of_host (fun h => word_of_address (coinbase h))
  | TIMESTAMP => of_ctx (fun c => word_of_u64 (z_timestamp c))
  | NUMBER => of_ctx (fun c => word_of_u64 (z_block_number c))
  | PREVRANDAO => of_host prevrandao
  | GASLIMIT => of_host (fun h => word_of_u64 (block_gas_limit h))
  | CHAINID => of_ctx (fun c => word_of_u64 (z_chain_id c))
  | SELFBALANCE => next (push_of (fun s => word_of_u128 (balance (i_host s) (z_contract (i_ctx s)))))
  | BASEFEE => of_ctx (fun c => word_of_u128 (z_base_fee c))
  | BLOBHASH => next (i ← pop_u64; push_of (fun s => blob_hash (i_host s) i))
  | BLOBBASEFEE => of_ctx (fun c => word_of_u128 (z_blob_base_fee c))
  | POP => next (_ ← pop; mret tt)
  | MLOAD => next exec_mload
  | MSTORE => next exec_mstore
  | MSTORE8 => next exec_mstore8
  | SLOAD => next exec_sload
  | SSTORE => next exec_sstore
  | JUMP => exec_jump
  | JUMPI => exec_jumpi
  | PC => next (push_of (fun s => word_of_u64 (i_pc s)))
  | MSIZE => next (push_of (fun s => word_of_u64 ((mem_size (i_memory s) + 31) / 32 * 32)))
  | GAS => next (push_of (fun s => word_of_u64 (i_gas s)))
  | JUMPDEST => mret Next
  | TLOAD => next exec_tload
  | TSTORE => next exec_tstore
  | MCOPY => next exec_mcopy
  | PUSH0 => next (push zero)
  | PUSH n => next (exec_push n)
  | DUP n => next (dup n)
  | SWAP n => next (swap n)
  | LOG n => next (exec_log n)
  | CREATE => do_create false
  | CALL => do_call Call
  | CALLCODE => do_call CallCode
  | RETURN => do_return ZSuccess
  | DELEGATECALL => do_call DelegateCall
  | CREATE2 => do_create true
  | STATICCALL => do_call StaticCall
  | REVERT => do_return ZRevert
  | INVALID => mret (Halt (ZInvalidOpcode 0xFE))
  | SELFDESTRUCT => exec_selfdestruct
  | PAYID => next exec_payid
  | ZUSDBAL => next (a ← pop_address; push_of (fun s => word_of_u128 (zusd_balance (i_host s) a)))
  | ZBXPRICE => of_host (fun h => word_of_u128 (zbx_price_usd h))
  | ZBXTIME => next (push_u64 5000)
  | AASENDER => of_ctx (fun c => word_of_address (default (z_caller c) (z_aa_sender c)))
  | CHAINVER => next (push_u64 ZVM_VERSION)
  | BLOBFEE => of_host (fun h => word_of_u128 (blob_base_fee h))
  | PAYIDSET => next (a ← pop_address; push_of (fun s => word_of_u64 (if has_pay_id (i_host s) a then 1 else 0)))
  | ZBXBURN => next exec_zbxburn
  | ZVMLOG => next exec_zvmlog
  end.

(** ** run *)

Definition finish (status : ExecutionStatus) (s : ZvmInterpreter H) : ZvmResult :=
  mkZvmResult status (i_return_data s) (i_gas s) (saturating_sub (z_gas_limit (i_ctx s)) (i_gas s))
    (i_logs s) (i_zvm_logs s).

(** [self.pc += 1] when the handler falls through. *)
Definition advance (c : Ctrl H) : M H (Ctrl H) :=
  match c with
  | Next => modify (fun s => set_pc (i_pc s + 1) s);; mret Next
  | _ => mret c
  end.

(** One iteration of the loop of [run]. *)
Definition step : M H (Ctrl H) := fun s =>
  match z_bytecode (i_ctx s) !! Z.to_nat (i_pc s) with
  | None => (Ok (Halt ZSuccess), s)
  | Some byte =>
      match from_u8 byte with
      | None => (Ok (Halt (ZInvalidOpcode byte)), s)
      | Some op =>
          let cost := opcode_gas op in
          if i_gas s <? cost then (Ok (Halt ZOutOfGas), s)
          else (c ← dispatch op; advance c) (set_gas (i_gas s - cost) s)
      end
  end.

(** The end of a run and the interpreter it leaves; [Aborted] is a panic. *)
Inductive RunResult :=
| Finished (r : ZvmResult) (s : ZvmInterpreter H)
| Aborted.

Definition finish_child (r : outcome ZvmError unit * ZvmInterpreter H) : outcome ZvmError (Ctrl H) * ZvmInterpreter H :=
  match r with
  | (Ok _, s) => (Ok Next, set_pc (i_pc s + 1) s)
  | (Err e, s) => (Err e, s)
  | (Panic, s) => (Panic, s)
  end.

(** The bitmap is built when [run] starts. *)
Definition prepare (s : ZvmInterpreter H) : ZvmInterpreter H :=
  if (length (i_jumpdests s) =? length (z_bytecode (i_ctx s)))%nat then s
  else set_jumpdests (build_jumpdest_bitmap (z_bytecode (i_ctx s))) s.

(** [None] when the fuel (steps and nesting) is exhausted. *)
Fixpoint loop (fuel : nat) (s : ZvmInterpreter H) : option RunResult :=
  match fuel with
  | O => None
  | S fuel =>
      let continue (r : outcome ZvmError (Ctrl H) * ZvmInterpreter H) :=
        match r with
        | (Ok (Halt status), s') => Some (Finished (finish status s') s')
        | (Ok _, s') => loop fuel s'
        | (Err e, s') => Some (Finished (finish (ZError e) s') s')
        | (Panic, _) => Some Aborted
        end in
      match step s with
      | (Ok (EnterCall sub p), s') =>
          match loop fuel (prepare sub) with
          | Some (Finished r sub') => continue (finish_child (resume_call p r sub' s'))
          | x => x
          end
      | (Ok (EnterCreate sub a), s') =>
          match loop fuel (prepare sub) with
          | Some (Finished r sub') => continue (finish_child (resume_create a r sub' s'))
          | x => x
          end
      | r => continue r
      end
  end.

Definition run (fuel : nat) (s : ZvmInterpreter H) : option RunResult := loop fuel (prepare s).

(** ** executor.rs *)

Definition execute_precompile_with_host (c : ZvmContext) (h : H) : outcome ZvmError ZvmResult :=
  match run_precompile h (z_timestamp c) (z_contract c) (z_calldata c) (z_gas_limit c) with
  | Ok (output, used) =>
      Ok (mkZvmResult ZSuccess output (saturating_sub (z_gas_limit c) used) used [] [])
  | Err e => Ok (mkZvmResult (ZError e) [] 0 (z_gas_limit c) [] [])
  | Panic => Panic
  end.

(** [ZvmExecutor::execute]: the result and the host it leaves. *)
Definition execute (fuel : nat) (c : ZvmContext) (h : H) : option (outcome ZvmError (ZvmResult * H)) :=
  if is_precompile (z_contract c) then Some (let? r := execute_precompile_with_host c h in Ok (r, h))
  else match run fuel (new_interp c h) with
       | None => None
       | Some (Finished r s) => Some (Ok (r, i_host s))
       | Some Aborted => Some Panic
       end.
End Handlers.
End ZvmInterp.
