(* ===== verification/ZvmWords.v ===== *)
(** * The words of the two virtual machines

    The EVM computes on 32-byte big-endian words byte by byte
    ([zbx-evm/src/stack.rs], modelled in [U256]); the ZVM converts to
    [primitive_types::U256] and back ([zbx-zvm/src/interpreter.rs], modelled in
    [ZvmInterp]). This file proves on which operands the two agree, and gives
    the operands on which they do not. *)

From S2P Require Import Prelude.
From S2P Require Import U256.
From S2P Require Import U256Props.
From S2P Require Import U256Wf.
From S2P Require Import EvmBase.
From S2P Require Import EvmHost.
From S2P Require Import EvmInterp.
From S2P Require Import ZvmBase.
From S2P Require Import ZvmHost.
From S2P Require Import ZvmInterp.

Module ZvmWords.
Import U256 U256Props U256Wf.

Abbreviation of_word := ZvmBase.word_u256.
Abbreviation to_word := ZvmBase.word_of_u256.

Abbreviation half := (2 ^ 255).

(** The number a word stands for as a signed integer. *)
Definition signed (x : Z) : Z := if x <? half then x else x - W.

Lemma W_half : W = 2 * half.
Proof. reflexivity. Qed.

(** A word is determined by its number. *)
Lemma word_eq w v : wf_word w → be_val w = v → w = to_word v.
Proof.
  intros Hw <-. destruct Hw as [Hl Hb]. unfold ZvmBase.word_of_u256. rewrite <- Hl at 1. symmetry. by apply to_be_be_val.
Qed.

Lemma val_to_word x : 0 ≤ x < W → be_val (to_be 32 x) = x.
Proof. intros Hx. rewrite be_val_to_be. by apply Z.mod_small. Qed.

(** ** The ZVM's signed operations *)

Lemma zvm_is_negative x : 0 ≤ x < W → ZvmInterp.is_negative x = (half <=? x).
Proof.
  intros Hx. pose proof (is_negative_spec (to_be 32 x) (wf_to_word x)) as Hn. rewrite val_to_word in Hn by done. exact Hn.
Qed.

Lemma zvm_neg x : ZvmInterp.neg x = (- x) mod W.
Proof.
  unfold ZvmInterp.neg, ZvmInterp.wrap256. replace (W - 1 - x + 1) with (- x + 1 * W) by lia. apply Z.mod_add. done.
Qed.

(** The magnitude is the absolute value of the signed number. *)
Lemma zvm_abs x :
  0 ≤ x < W → (if ZvmInterp.is_negative x then ZvmInterp.neg x else x) = Z.abs (signed x).
Proof.
  intros Hx. rewrite zvm_is_negative by done. unfold signed. rewrite Z.leb_antisym.
  pose proof W_half. destruct (Z.ltb_spec x half); cbn [negb]; [lia|].
  rewrite zvm_neg. rewrite <- (Z.mod_add _ 1) by done. rewrite Z.mod_small; lia.
Qed.

Lemma zvm_sign x : 0 ≤ x < W → ZvmInterp.is_negative x = (signed x <? 0).
Proof.
  intros Hx. rewrite zvm_is_negative by done. unfold signed. pose proof W_half.
  destruct (Z.ltb_spec x half); lia.
Qed.

Lemma signed_bound x : 0 ≤ x < W → - half ≤ signed x < half.
Proof. intros Hx. unfold signed. pose proof W_half. case_match; lia. Qed.

Lemma signed_zero x : 0 ≤ x < W → (signed x =? 0) = (x =? 0).
Proof. intros Hx. unfold signed. case_match; [done|]. rewrite !(proj2 (Z.eqb_neq _ _)); lia. Qed.

(** The absolute quotient, with the sign put back, is the truncated quotient. *)
Lemma quot_sign x y :
  y ≠ 0 → Z.quot x y = if xorb (x <? 0) (y <? 0) then - (Z.abs x / Z.abs y) else Z.abs x / Z.abs y.
Proof.
  intros Hy. destruct (Z.ltb_spec x 0); destruct (Z.ltb_spec y 0); cbn [xorb].
  - rewrite !Z.abs_neq, <- Z.quot_div_nonneg, Z.quot_opp_opp by lia. done.
  - rewrite Z.abs_neq, Z.abs_eq, <- Z.quot_div_nonneg, Z.quot_opp_l by lia. lia.
  - rewrite Z.abs_eq, Z.abs_neq, <- Z.quot_div_nonneg, Z.quot_opp_r by lia. lia.
  - rewrite !Z.abs_eq, <- Z.quot_div_nonneg by lia. done.
Qed.

Lemma rem_sign x y : y ≠ 0 → Z.rem x y = if x <? 0 then - (Z.abs x mod Z.abs y) else Z.abs x mod Z.abs y.
Proof.
  intros Hy. rewrite <- Z.rem_mod_nonneg by lia. rewrite Z.rem_abs_r by done. destruct (Z.ltb_spec x 0).
  - rewrite Z.abs_neq, Z.rem_opp_l by lia. lia.
  - by rewrite Z.abs_eq.
Qed.

Lemma zvm_sdiv a b :
  0 ≤ a < W → 0 ≤ b < W →
  ZvmInterp.sdiv_u256 a b = if signed b =? 0 then 0 else Z.quot (signed a) (signed b) mod W.
Proof.
  intros Ha Hb. unfold ZvmInterp.sdiv_u256. rewrite signed_zero by done. case_if; [done|].
  assert (Hb0 : signed b ≠ 0) by (apply Z.eqb_neq; rewrite signed_zero by done; by apply Z.eqb_neq).
  destruct ((a =? half) && (b =? W - 1)) eqn:E.
  { apply andb_true_iff in E as [->%Z.eqb_eq ->%Z.eqb_eq]. reflexivity. }
  rewrite !zvm_abs, !zvm_sign, (quot_sign _ _ Hb0) by done.
  case_match; [apply zvm_neg|]. symmetry. apply Z.mod_small. pose proof (signed_bound a Ha). pose proof W_half.
  split; [apply Z.div_pos; lia|]. eapply Z.le_lt_trans; [apply Z.div_le_upper_bound|]; [lia| |].
  - assert (1 * Z.abs (signed a) ≤ Z.abs (signed b) * Z.abs (signed a)) by (apply Z.mul_le_mono_nonneg_r; lia).
    rewrite Z.mul_1_l in *. eassumption.
  - lia.
Qed.

Lemma zvm_smod a b :
  0 ≤ a < W → 0 ≤ b < W →
  ZvmInterp.smod_u256 a b = if signed b =? 0 then 0 else Z.rem (signed a) (signed b) mod W.
Proof.
  intros Ha Hb. unfold ZvmInterp.smod_u256. rewrite signed_zero by done. case_if; [done|].
  assert (Hb0 : signed b ≠ 0) by (apply Z.eqb_neq; rewrite signed_zero by done; by apply Z.eqb_neq).
  rewrite !zvm_abs, !zvm_sign, (rem_sign _ _ Hb0) by done.
  pose proof (Z.mod_pos_bound (Z.abs (signed a)) (Z.abs (signed b)) ltac:(lia)).
  pose proof (signed_bound b Hb). pose proof W_half.
  destruct (Z.eqb_spec (Z.abs (signed a) mod Z.abs (signed b)) 0) as [-> |]; [by case_match|].
  case_match; [apply zvm_neg|]. symmetry. apply Z.mod_small. lia.
Qed.

Lemma zvm_signed_lt a b : 0 ≤ a < W → 0 ≤ b < W → ZvmInterp.signed_lt a b = (signed a <? signed b).
Proof.
  intros Ha Hb. unfold ZvmInterp.signed_lt. rewrite !zvm_is_negative by done. unfold signed. pose proof W_half.
  destruct (Z.ltb_spec a half); destruct (Z.ltb_spec b half);
    destruct (Z.leb_spec half a); destruct (Z.leb_spec half b); lia.
Qed.

Lemma zvm_pow x y : 0 ≤ y → ZvmInterp.overflowing_pow x y = (x ^ y) mod W.
Proof.
  intros Hy. destruct y as [|e|]; [reflexivity| |lia]. cbn [ZvmInterp.overflowing_pow]. clear Hy.
  induction e as [e IH|e IH|]; cbn [ZvmInterp.pow_pos]; unfold ZvmInterp.wrap256 in *.
  - rewrite IH, Pos2Z.inj_xI, Z.pow_add_r, Z.pow_1_r by lia. replace (2 * Z.pos e) with (Z.pos e + Z.pos e) by lia.
    rewrite Z.pow_add_r by lia. rewrite <- Z.mul_mod by done. by rewrite Z.mul_mod_idemp_l.
  - rewrite IH, Pos2Z.inj_xO. replace (2 * Z.pos e) with (Z.pos e + Z.pos e) by lia.
    rewrite Z.pow_add_r by lia. by rewrite <- Z.mul_mod.
  - by rewrite Z.pow_1_r.
Qed.

(** ** Shifts *)

(** Filling with ones is adding them, above the shifted bits. *)
Lemma sign_fill x s :
  0 ≤ x < W → 0 < s < 256 →
  Z.lor (Z.shiftr x s) (ZvmInterp.wrap256 (Z.shiftl (W - 1) (256 - s))) = x / 2 ^ s + (W - 2 ^ (256 - s)).
Proof.
  intros Hx Hs. pose proof (Z.pow_pos_nonneg 2 (256 - s) ltac:(lia) ltac:(lia)).
  assert (HW : W = 2 ^ s * 2 ^ (256 - s)) by (rewrite <- Z.pow_add_r by lia; by replace (s + (256 - s)) with 256 by lia).
  assert (Hm : ZvmInterp.wrap256 (Z.shiftl (W - 1) (256 - s)) = Z.shiftl (2 ^ s - 1) (256 - s)).
  { unfold ZvmInterp.wrap256. rewrite !Z.shiftl_mul_pow2 by lia.
    replace ((W - 1) * 2 ^ (256 - s)) with ((2 ^ s - 1) * 2 ^ (256 - s) + (2 ^ (256 - s) - 1) * W) by (rewrite HW; ring).
    rewrite Z.mod_add by done. apply Z.mod_small. pose proof (proj1 (Z.pow_gt_1 2 s ltac:(lia)) ltac:(lia)). rewrite HW. nia. }
  rewrite Hm, <- Z.add_nocarry_lor.
  - rewrite Z.shiftr_div_pow2, Z.shiftl_mul_pow2 by lia. rewrite HW. ring.
  - apply Z.bits_inj'. intros i Hi. rewrite Z.land_spec, Z.bits_0, Z.shiftr_spec, Z.shiftl_spec by done.
    destruct (Z.lt_ge_cases i (256 - s)); [rewrite (Z.testbit_neg_r _ (i - (256 - s))) by lia; apply andb_false_r|].
    rewrite (Z.bits_above_log2 x); [done|lia|]. destruct (Z.eq_dec x 0) as [-> |]; [cbn; lia|].
    apply Z.log2_lt_pow2; [lia|]. apply Z.lt_le_trans with W; [lia|]. by apply Z.pow_le_mono_r; lia.
Qed.

Lemma zvm_sar x s :
  0 ≤ x < W → 0 ≤ s → ZvmInterp.sar_u256 x s = (signed x / 2 ^ Z.min s 256) mod W.
Proof.
  intros Hx Hs. unfold ZvmInterp.sar_u256. rewrite zvm_is_negative by done. unfold signed. pose proof W_half.
  rewrite (Z.leb_antisym x half). destruct (Z.leb_spec 256 s).
  - rewrite Z.min_r by lia. change (2 ^ 256) with W. destruct (Z.ltb_spec x half); cbn [negb].
    + rewrite Z.div_small by lia. reflexivity.
    + replace (x - W) with (x + (-1) * W) by lia. rewrite Z.div_add, Z.div_small by (done || lia). reflexivity.
  - rewrite Z.min_l by lia. pose proof (Z.pow_pos_nonneg 2 s ltac:(lia) Hs).
    assert (0 ≤ x / 2 ^ s < W).
    { split; [apply Z.div_pos; lia|]. apply Z.le_lt_trans with x; [|lia]. apply Z.div_le_upper_bound; nia. }
    destruct (Z.ltb_spec x half); cbn [negb]; [rewrite Z.shiftr_div_pow2, Z.mod_small by lia; done|].
    destruct (Z.eqb_spec s 0) as [-> |].
    { rewrite Z.shiftr_0_r, Z.pow_0_r, Z.div_1_r. replace (x - W) with (x + (-1) * W) by lia. by rewrite Z.mod_add, Z.mod_small. }
    rewrite sign_fill by lia.
    assert (HW : W = 2 ^ (256 - s) * 2 ^ s) by (rewrite <- Z.pow_add_r by lia; by replace (256 - s + s) with 256 by lia).
    replace (x - W) with (x + (- 2 ^ (256 - s)) * 2 ^ s) by (rewrite HW; ring).
    rewrite Z.div_add by lia. rewrite <- (Z.mod_add _ 1) by done.
    assert (0 < 2 ^ (256 - s)) by (apply Z.pow_pos_nonneg; lia).
    assert (x / 2 ^ s < 2 ^ (256 - s)) by (apply Z.div_lt_upper_bound; lia).
    assert (2 ^ (256 - s) ≤ W) by (by apply Z.pow_le_mono_r; lia).
    rewrite Z.mod_small; lia.
Qed.

Lemma zvm_shl s x : 0 ≤ s → ZvmInterp.shl_u256 s x = (if s <? 256 then x * 2 ^ s else 0) mod W.
Proof.
  intros Hs. unfold ZvmInterp.shl_u256, ZvmInterp.wrap256. rewrite Z.leb_antisym. destruct (s <? 256); cbn [negb]; [|reflexivity].
  by rewrite Z.shiftl_mul_pow2.
Qed.

Lemma zvm_shr s x : 0 ≤ s → ZvmInterp.shr_u256 s x = if s <? 256 then x / 2 ^ s else 0.
Proof.
  intros Hs. unfold ZvmInterp.shr_u256. rewrite Z.leb_antisym. destruct (s <? 256); cbn [negb]; [|done].
  by rewrite Z.shiftr_div_pow2.
Qed.

(** ** Agreement *)

Lemma div_agree a b : wf_word a → wf_word b → u256_div a b = to_word (ZvmInterp.div_u256 (of_word a) (of_word b)).
Proof.
  intros Ha Hb. apply word_eq; [by apply div_wf|]. unfold ZvmInterp.div_u256, ZvmBase.word_u256.
  pose proof (wf_word_bound b Hb). case_if.
  - unfold u256_div. rewrite u256_is_zero_spec, (proj2 (Z.eqb_eq _ _)) by done. apply val_zero.
  - apply div_mod_spec; [done..|lia].
Qed.

Lemma mod_agree a b : wf_word a → wf_word b → u256_mod a b = to_word (ZvmInterp.mod_u256 (of_word a) (of_word b)).
Proof.
  intros Ha Hb. apply word_eq; [by apply mod_wf|]. unfold ZvmInterp.mod_u256, ZvmBase.word_u256.
  pose proof (wf_word_bound b Hb). case_if.
  - unfold u256_mod. rewrite u256_is_zero_spec, (proj2 (Z.eqb_eq _ _)) by done. apply val_zero.
  - apply div_mod_spec; [done..|lia].
Qed.

Lemma byte_agree i x : wf_word i → wf_word x → be_val i < 2 ^ 64 → u256_byte i x = ZvmInterp.byte_word (of_word i) x.
Proof.
  intros Hi Hx Hlt. pose proof (wf_word_bound i Hi). unfold u256_byte, ZvmInterp.byte_word, ZvmBase.word_u256.
  rewrite to_u64_val, Z.mod_small by (done || lia). case_if; [done|].
  pose proof (byte_at_u8 x (Z.to_nat (be_val i)) Hx) as Hu. unfold is_u8 in Hu.
  apply wf_word_inj; [apply from_u64_wf|by apply wf_insert; [apply wf_zero|]|].
  destruct (from_u64_spec (byte_at x (Z.to_nat (be_val i)))) as [_ ->]. rewrite Z.mod_small by lia.
  unfold zero. cbn. lia.
Qed.

(** C30: The two virtual machines compute the same words. For all operands the
    ring operations, the divisions and remainders, signed ones included, EXP,
    the comparisons and the bitwise operations give the same result in the
    byte-wise code of the EVM and in the 256-bit integers of the ZVM; BYTE and
    the shifts do for a first operand below 2^64, ADDMOD and MULMOD for a
    modulus up to 2^255. *)
Theorem evm_zvm_words_agree a b n :
  wf_word a → wf_word b → wf_word n →
  let x := of_word a in let y := of_word b in
  (u256_add a b = to_word (ZvmInterp.wrap256 (x + y)) ∧ u256_sub a b = to_word (ZvmInterp.wrap256 (x - y)) ∧
   u256_mul a b = to_word (ZvmInterp.wrap256 (x * y))) ∧
  (u256_div a b = to_word (ZvmInterp.div_u256 x y) ∧ u256_mod a b = to_word (ZvmInterp.mod_u256 x y) ∧
   u256_sdiv a b = to_word (ZvmInterp.sdiv_u256 x y) ∧ u256_smod a b = to_word (ZvmInterp.smod_u256 x y) ∧
   u256_exp a b = Some (to_word (ZvmInterp.overflowing_pow x y))) ∧
  (u256_lt a b = (x <? y) ∧ u256_gt a b = (y <? x) ∧ u256_slt a b = ZvmInterp.signed_lt x y ∧
   u256_sgt a b = ZvmInterp.signed_lt y x) ∧
  (be_val a < 2 ^ 64 →
   u256_shl a b = to_word (ZvmInterp.shl_u256 x y) ∧ u256_shr a b = to_word (ZvmInterp.shr_u256 x y) ∧
   u256_sar a b = to_word (ZvmInterp.sar_u256 y x) ∧ u256_byte a b = ZvmInterp.byte_word x b) ∧
  (be_val n ≤ half →
   u256_addmod a b n = to_word (ZvmInterp.addmod_u256 x y (of_word n)) ∧
   u256_mulmod a b n = to_word (ZvmInterp.mulmod_u256 x y (of_word n))).
Proof.
  intros Ha Hb Hn x y. pose proof (wf_word_bound a Ha) as Hx. pose proof (wf_word_bound b Hb) as Hy.
  destruct (ring_ops_correct a b Ha Hb) as ([? ?] & [? ?] & [? ?]). destruct (sdiv_smod_correct a b Ha Hb) as [Hsd Hsm].
  destruct (exp_correct a b Ha Hb) as (out & Hout & Hwo & Hvo).
  destruct (comparisons_correct a b Ha Hb) as (? & ? & _ & _ & ? & ?).
  destruct (addmod_mulmod_correct a b n Ha Hb Hn) as [Ham Hmm]. split_and!.
  - by apply word_eq.
  - by apply word_eq.
  - by apply word_eq.
  - by apply div_agree.
  - by apply mod_agree.
  - apply word_eq; [by apply sdiv_wf|]. rewrite Hsd. symmetry. by apply zvm_sdiv.
  - apply word_eq; [by apply smod_wf|]. rewrite Hsm. symmetry. by apply zvm_smod.
  - rewrite Hout. f_equal. apply word_eq; [done|]. rewrite Hvo. symmetry. apply zvm_pow. unfold x, y, ZvmBase.word_u256. lia.
  - done.
  - done.
  - rewrite zvm_signed_lt by done. done.
  - rewrite zvm_signed_lt by done. done.
  - intros Hlt. destruct (shifts_correct a b Ha Hb Hlt) as (Hl & Hr & Hs). split_and!.
    + apply word_eq; [by apply shl_wf|]. rewrite Hl. symmetry. apply zvm_shl. apply Hx.
    + apply word_eq; [by apply shr_wf|]. rewrite Hr. symmetry. apply zvm_shr. apply Hx.
    + apply word_eq; [by apply sar_wf|]. rewrite Hs. symmetry. apply zvm_sar; [done|apply Hx].
    + by apply byte_agree.
  - intros Hlt. split; apply word_eq; [by apply addmod_wf|apply Ham; by left|by apply mulmod_wf|by apply Hmm].
Qed.

Lemma evm_zvm_words_agree_witness :
  let a := to_be 32 77 in let b := to_be 32 (W - 12345) in let n := to_be 32 (2 ^ 255 - 19) in
  be_val a < 2 ^ 64 ∧ be_val n ≤ half ∧
  u256_sdiv a b = to_word (ZvmInterp.sdiv_u256 (of_word a) (of_word b)) ∧
  u256_sar a b = to_word (ZvmInterp.sar_u256 (of_word b) (of_word a)) ∧
  u256_mulmod a b n = to_word (ZvmInterp.mulmod_u256 (of_word a) (of_word b) (of_word n)).
Proof.
  intros a b n.
  destruct (evm_zvm_words_agree a b n (wf_to_word _) (wf_to_word _) (wf_to_word _)) as (_ & (_ & _ & Hd & _) & _ & Hs & Hm).
  assert (Ha : be_val a < 2 ^ 64) by (vm_compute; reflexivity).
  assert (Hn : be_val n ≤ half) by (vm_compute; congruence).
  destruct (Hs Ha) as (_ & _ & Hs' & _). destruct (Hm Hn) as [_ Hm']. exact (conj Ha (conj Hn (conj Hd (conj Hs' Hm')))).
Defined.

(** Outside these operands the two engines answer differently: a shift by 2^64
    (the EVM truncates the operand), ADDMOD with a modulus above 2^255 (the EVM
    loses a carry), and SIGNEXTEND of 0x80 from byte 0 (the EVM overwrites the
    sign byte), so the same bytecode means different things on the two. *)
Theorem evm_zvm_words_differ :
  let big := to_be 32 (2 ^ 64) in let v := to_be 32 9 in let m := to_be 32 (W - 1) in let m1 := to_be 32 (W - 2) in
  u256_shl big v ≠ to_word (ZvmInterp.shl_u256 (of_word big) (of_word v)) ∧
  u256_addmod m1 m1 m ≠ to_word (ZvmInterp.addmod_u256 (of_word m1) (of_word m1) (of_word m)) ∧
  sval (u256_signextend (to_be 32 0) (to_be 32 0x80)) = -1 ∧
  sval (to_word (ZvmInterp.signextend_u256 0 0x80)) = -128.
Proof. vm_compute. split_and!; congruence. Qed.
End ZvmWords.
