(* ===== verification/ZvmLogic.v ===== *)
(** * A program logic for the ZVM interpreter

    What the interpreter relies on of its host ([ZvmHostLaws]) and of the
    precompiled contracts, the frame invariant every instruction keeps
    (well-formed stack, memory and words, a gas counter that does not grow, an
    unchanged call context, a host that changed only as a frame of its kind
    may change it), and the rules of the interpreter's primitives. *)

From S2P Require Import Prelude.
From S2P Require Import Monad.
From S2P Require Import U256.
From S2P Require Import U256Wf.
From S2P Require Import EvmBase.
From S2P Require Import EvmHost.
From S2P Require Import EvmInterp.
From S2P Require Import EvmLogic.
From S2P Require Import ZvmBase.
From S2P Require Import ZvmHost.
From S2P Require Import ZvmInterp.

Module ZvmLogic.
Import Monad U256 U256Wf ZvmBase ZvmHost ZvmInterp.
Abbreviation wf_addr := EvmLogic.wf_addr.

(** [frame static h h']: what a frame that starts on [h] may have made of it;
    only [emit_zvm_log] is allowed to static frames. *)
Class ZvmHostLaws (H : Type) `{ZvmHost H} := {
  hinv : H → Prop;
  frame : bool → H → H → Prop;
  frame_refl b h : frame b h h;
  frame_trans b h1 h2 h3 : frame b h1 h2 → frame b h2 h3 → frame b h1 h3;
  frame_weaken h h' : frame true h h' → frame false h h';
  storage_load_wf h a k : hinv h → wf_word (storage_load h a k);
  transient_load_wf h a k : hinv h → wf_word (transient_load h a k);
  code_wf h a : hinv h → wf_bytes (code h a);
  code_hash_wf h a : hinv h → wf_word (code_hash h a);
  block_hash_wf h n : hinv h → wf_word (block_hash h n);
  blob_hash_wf h n : hinv h → wf_word (blob_hash h n);
  prevrandao_wf h : hinv h → wf_word (prevrandao h);
  coinbase_wf h : hinv h → wf_addr (coinbase h);
  resolve_wf h p a : hinv h → resolve_pay_id h p = Some a → wf_addr a;
  resolve_bytes_wf h p a : hinv h → resolve_pay_id_bytes h p = Some a → wf_addr a;
  reverse_wf h a n : hinv h → reverse_pay_id h a = Some n → wf_bytes n;
  storage_store_ok a k v h : hinv h → wf_word v → hinv (storage_store a k v h) ∧ frame false h (storage_store a k v h);
  transient_store_ok a k v h :
    hinv h → wf_word v → hinv (transient_store a k v h) ∧ frame false h (transient_store a k v h);
  transfer_np f t x h : (transfer f t x h).1 ≠ Panic;
  transfer_ok f t x h : hinv h → 0 ≤ x → hinv (transfer f t x h).2 ∧ frame false h (transfer f t x h).2;
  inc_nonce_ok a h : hinv h → hinv (inc_nonce a h).2 ∧ frame false h (inc_nonce a h).2;
  set_code_ok a c h : hinv h → wf_bytes c → hinv (set_code a c h) ∧ frame false h (set_code a c h);
  burn_np a x h : (burn_zbx a x h).1 ≠ Panic;
  burn_ok a x h : hinv h → 0 ≤ x → hinv (burn_zbx a x h).2 ∧ frame false h (burn_zbx a x h).2;
  emit_zvm_log_ok b k v h : hinv h → hinv (emit_zvm_log k v h) ∧ frame b h (emit_zvm_log k v h);
  mark_created_ok a h : hinv h → hinv (mark_created_this_tx a h) ∧ frame false h (mark_created_this_tx a h);
  selfdestruct_ok a b h : hinv h → hinv (selfdestruct a b h) ∧ frame false h (selfdestruct a b h);
  emit_log_ok a t d h : hinv h → hinv (emit_log a t d h) ∧ frame false h (emit_log a t d h)
}.

(** The documented behaviour of the precompiled contracts. *)
Definition pre_ok (o : outcome ZvmError (bytes * Z)) : Prop :=
  match o with
  | Ok (out, used) => wf_bytes out ∧ is_u64 used
  | Err _ => True
  | Panic => False
  end.

Class ZvmPrecompilesOk `{ZvmPrecompiles} := {
  call_precompile_ok a i g : pre_ok (call_precompile a i g);
  price_oracle_ok i g r : pre_ok (price_oracle_with i g r);
  zusd_vault_ok i g r t : pre_ok (zusd_vault_with i g r t)
}.

(** ** Words *)

Lemma wf_pad n k l : length l = k → (n + k = 32)%nat → wf_bytes l → wf_word (replicate n 0 ++ l).
Proof.
  intros Hl Hn Hw. split; [rewrite length_app, length_replicate; lia|].
  apply Forall_app. split; [apply EvmBase.wf_replicate0 | done].
Qed.

Lemma word_of_u64_wf v : wf_word (word_of_u64 v).
Proof. apply wf_pad with 8%nat; [apply length_to_be | done | apply wf_to_be]. Qed.
Lemma word_of_u128_wf v : wf_word (word_of_u128 v).
Proof. apply wf_pad with 16%nat; [apply length_to_be | done | apply wf_to_be]. Qed.
Lemma word_of_u256_wf v : wf_word (word_of_u256 v).
Proof. split; [apply length_to_be | apply wf_to_be]. Qed.
Lemma word_of_address_wf a : wf_addr a → wf_word (word_of_address a).
Proof. intros [Hl Hw]. by apply wf_pad with 20%nat. Qed.

Lemma word_drop_bound w n : wf_word w → (n ≤ 32)%nat → 0 ≤ be_val (drop n w) < 256 ^ Z.of_nat (32 - n).
Proof.
  intros [Hl Hw] Hn. pose proof (be_val_bound (drop n w) (wf_bytes_drop _ _ Hw)) as Hb.
  rewrite length_drop, Hl in Hb. done.
Qed.
Lemma word_u64_range w : wf_word w → is_u64 (word_u64 w).
Proof. intros Hw. exact (word_drop_bound w 24 Hw ltac:(lia)). Qed.
Lemma word_u128_nonneg w : wf_word w → 0 ≤ word_u128 w.
Proof. intros Hw. apply (word_drop_bound w 16 Hw). lia. Qed.
Lemma word_u256_range w : wf_word w → 0 ≤ word_u256 w < W.
Proof. intros Hw. exact (word_drop_bound w 0 Hw ltac:(lia)). Qed.
Lemma word_address_wf w : wf_word w → wf_addr (word_address w).
Proof. apply EvmLogic.wf_addr_of_word. Qed.
#[export] Hint Resolve word_of_u64_wf word_of_u128_wf word_of_u256_wf word_of_address_wf wf_zero : zbx.

Lemma byte_word_wf i x : 0 ≤ i → wf_word x → wf_word (byte_word i x).
Proof.
  intros Hi [Hl Hw]. unfold byte_word. case_if; [apply wf_zero|]. split; [by rewrite length_insert|].
  apply Forall_insert; [apply wf_zero|]. unfold byte_at. destruct (x !! _) as [b|] eqn:E; cbn.
  - by eapply Forall_lookup_1 in E.
  - unfold is_u8. lia.
Qed.


(** ** Memory *)

(** Operands below this bound never make a memory access panic. *)
Definition SMALL `{Heap} : Z := Z.min (2 ^ 61) (heap_limit / 4 - 32).

Lemma slice_inv {E} (d : bytes) i j (x : bytes) :
  slice (E := E) d i j = Ok x → wf_bytes d → wf_bytes x ∧ (0 ≤ i → Z.of_nat (length x) = j - i).
Proof.
  unfold slice. case_match; [|done]. intros [= <-] Hd. split; [by apply wf_bytes_take, wf_bytes_drop|].
  simp_bool. intros. rewrite length_take, length_drop. lia.
Qed.

Lemma words_bytes n : 0 ≤ n < 2 ^ 64 - 31 → n ≤ wrap64 (n + 31) / 32 * 32 ≤ n + 31.
Proof. intros Hn. unfold wrap64. rewrite Z.mod_small by lia. Z.div_mod_to_equations. lia. Qed.

Lemma resize_wf `{Heap} n m m' : mem_resize n m = Ok m' → wf_bytes m → wf_bytes m'.
Proof.
  unfold mem_resize, vec_resize. repeat case_if; try done; intros [= <-]; [|done]. apply EvmBase.wf_resize0.
Qed.

Lemma resize_small `{Heap} n m : 0 ≤ SMALL → 0 ≤ n ≤ 2 * SMALL + 64 → ∃ m', mem_resize n m = Ok m' ∧ n ≤ mem_size m' ∧ mem_size m ≤ mem_size m'.
Proof.
  unfold SMALL, mem_resize, vec_resize, ISIZE_MAX. intros Hs Hn. pose proof (Z.mul_div_le heap_limit 4 ltac:(lia)). pose proof (words_bytes n ltac:(lia)).
  case_if; [|eauto with lia]. do 2 rewrite (proj2 (Z.ltb_ge _ _)) by lia. cbn [orb]. eexists. split; [done|].
  unfold mem_size in *. rewrite EvmBase.length_resize0 by lia. lia.
Qed.

Lemma read_slice_wf `{Heap} o n m d m' :
  is_u64 o → is_u64 n → mem_read_slice o n m = Ok (d, m') → wf_bytes m → wf_bytes d ∧ wf_bytes m'.
Proof.
  intros Ho Hn Hr Hm. unfold mem_read_slice in Hr. destruct (mem_resize _ m) as [m1|e|] eqn:E1; [|done..].
  cbn in Hr. destruct (slice m1 _ _) as [x|e|] eqn:E2; [|done..]. injection Hr as <- <-.
  apply resize_wf in E1; [|done]. by apply slice_inv in E2 as [? _].
Qed.

Lemma read_slice_length `{Heap} o n m d m' :
  is_u64 o → is_u64 n → mem_read_slice o n m = Ok (d, m') → Z.of_nat (length d) = n.
Proof.
  intros [Ho Ho'] [Hn Hn'] Hr. unfold mem_read_slice in Hr. destruct (mem_resize _ m) as [m1|e|]; [|done..].
  cbn in Hr. unfold slice in Hr. case_match; [|done]. injection Hr as <- _. simp_bool. unfold wrap64 in *.
  rewrite length_take, length_drop. destruct (decide (o + n < 2 ^ 64)).
  - rewrite Z.mod_small in * by lia. lia.
  - rewrite <- (Z_mod_plus_full _ (-1)), Z.mod_small in * by lia. lia.
Qed.

Lemma read_slice_small `{Heap} o n m : 0 ≤ o < SMALL → 0 ≤ n < SMALL + 64 → mem_read_slice o n m ≠ Panic.
Proof.
  unfold SMALL. intros Ho Hn. unfold mem_read_slice, wrap64. rewrite Z.mod_small by lia.
  destruct (resize_small (o + n) m) as (m' & -> & Hle & _); [unfold SMALL; lia..|].
  cbn. rewrite slice_ok by (unfold mem_size in *; lia). done.
Qed.

Lemma splice_wf o d m m' : splice o d m = Ok m' → wf_bytes d → wf_bytes m → wf_bytes m'.
Proof.
  unfold splice. destruct (slice m _ _); [|done..]. intros [= <-] Hd Hm.
  apply Forall_app. split; [by apply wf_bytes_take|]. apply Forall_app. split; [done|by apply wf_bytes_drop].
Qed.

Lemma splice_small o d m :
  0 ≤ o → o + Z.of_nat (length d) < 2 ^ 64 → o + Z.of_nat (length d) ≤ mem_size m → splice o d m ≠ Panic.
Proof.
  unfold splice, wrap64, mem_size. intros. rewrite Z.mod_small, slice_ok by lia. done.
Qed.

Lemma store_wf `{Heap} o w m m' : mem_store o w m = Ok m' → wf_bytes w → wf_bytes m → wf_bytes m'.
Proof.
  unfold mem_store. destruct (mem_resize _ m) as [m1|e|] eqn:E; [|done..]. intros Hs Hw Hm.
  eapply splice_wf; [exact Hs|done|by eapply resize_wf].
Qed.

Lemma store_small `{Heap} o w m : length w = 32%nat → 0 ≤ o < SMALL → mem_store o w m ≠ Panic.
Proof.
  intros Hl Ho. unfold mem_store, wrap64, SMALL in *. rewrite Z.mod_small by lia.
  destruct (resize_small (o + 32) m) as (m' & -> & Hle & _); [unfold SMALL; lia..|]. cbn.
  apply splice_small; rewrite ?Hl; lia.
Qed.

Lemma store8_wf `{Heap} o b m m' : mem_store8 o b m = Ok m' → is_u8 b → wf_bytes m → wf_bytes m'.
Proof.
  unfold mem_store8. destruct (mem_resize _ m) as [m1|e|] eqn:E; [|done..]. cbn. case_if; [|done].
  intros [= <-] Hb Hm. apply Forall_insert; [by eapply resize_wf|done].
Qed.

Lemma store8_small `{Heap} o b m : 0 ≤ o < 2 * SMALL → mem_store8 o b m ≠ Panic.
Proof.
  intros Ho. unfold mem_store8, wrap64, SMALL in *. rewrite Z.mod_small by lia.
  destruct (resize_small (o + 1) m) as (m' & -> & Hle & _); [unfold SMALL; lia..|]. cbn. case_if; [done|lia].
Qed.

Lemma store_bytes_wf `{Heap} l o m m' : store_bytes o l m = Ok m' → wf_bytes l → wf_bytes m → wf_bytes m'.
Proof.
  revert o m. induction l as [|b l IH]; intros o m; [by intros [= <-]|]. cbn.
  destruct (mem_store8 _ _ _) as [m1|e|] eqn:E; [|done..]. intros Hs Hl Hm. apply Forall_cons in Hl as [Hb Hl].
  eapply IH; [exact Hs|done|]. by eapply store8_wf.
Qed.

Lemma store_bytes_small `{Heap} l o m : 0 ≤ o → o + Z.of_nat (length l) ≤ 2 * SMALL → store_bytes o l m ≠ Panic.
Proof.
  revert o m. induction l as [|b l IH]; intros o m Ho Hl; [done|]. cbn [store_bytes length] in *.
  unfold wrap64, SMALL in *. rewrite Z.mod_small by lia.
  assert (mem_store8 o b m ≠ Panic) by (apply store8_small; unfold SMALL; lia). destruct (mem_store8 _ _ _); [|done..].
  apply IH; lia.
Qed.

Lemma write_slice_wf `{Heap} o d m m' : mem_write_slice o d m = Ok m' → wf_bytes d → wf_bytes m → wf_bytes m'.
Proof.
  unfold mem_write_slice. destruct d as [|b d]; [by intros [= <-]|].
  destruct (mem_resize _ m) as [m1|e|] eqn:E; [|done..]. intros Hs Hw Hm.
  eapply splice_wf; [exact Hs|done|by eapply resize_wf].
Qed.

Lemma write_slice_small `{Heap} o d m : 0 ≤ o < SMALL → Z.of_nat (length d) < SMALL → mem_write_slice o d m ≠ Panic.
Proof.
  intros Ho Hd. unfold mem_write_slice. destruct d as [|b d]; [done|]. set (l := b :: d) in *.
  unfold wrap64, SMALL in *. rewrite Z.mod_small by lia.
  destruct (resize_small (o + Z.of_nat (length l)) m) as (m' & -> & Hle & _); [unfold SMALL; lia..|]. cbn [outcome_bind].
  apply splice_small; lia.
Qed.

Lemma copy_wf `{Heap} d s n m m' : mem_copy d s n m = Ok m' → wf_bytes m → wf_bytes m'.
Proof.
  unfold mem_copy. case_if; [by intros [= <-]|]. destruct (mem_resize _ m) as [m1|e|] eqn:E; [|done..]. cbn.
  destruct (slice m1 _ _) as [x|e|] eqn:E2; [|done..]. cbn. case_if; [done|]. intros [= <-] Hm.
  apply resize_wf in E; [|done]. apply slice_inv in E2 as [? _]; [|done].
  apply Forall_app. split; [by apply wf_bytes_take|]. apply Forall_app. split; [done|by apply wf_bytes_drop].
Qed.

Lemma copy_small `{Heap} d s n m : 0 ≤ d < SMALL → 0 ≤ s < SMALL → 0 ≤ n < SMALL → mem_copy d s n m ≠ Panic.
Proof.
  unfold SMALL. intros Hd Hs Hn. unfold mem_copy. case_if; [done|]. unfold saturating_add64, U64_MAX, wrap64.
  rewrite Z.min_l, Z.mod_small by lia.
  destruct (resize_small (Z.max d s + n) m) as (m' & -> & Hle & _); [unfold SMALL; lia..|]. cbn.
  rewrite slice_ok by (unfold mem_size in *; lia). cbn. case_if; [lia|done].
Qed.

Lemma copy_buf_wf `{Heap} data o n b : is_u64 o → is_u64 n → copy_buf data o n = Ok b → wf_bytes data → wf_bytes b ∧ Z.of_nat (length b) = n.
Proof.
  intros [Ho _] [Hn _]. unfold copy_buf, vec_zeros, vec_resize. case_if; [done|]. cbn [outcome_bind].
  assert (wf_bytes (EvmBase.resize0 [] n)) as Hw by (apply EvmBase.wf_resize0; constructor).
  pose proof (EvmBase.length_resize0 [] n ltac:(lia)) as Hl.
  case_if; [|by intros [= <-]]. destruct (slice data _ _) as [c|e|] eqn:E; [|done..]. intros [= <-] Hd.
  apply slice_inv in E as [Hc Hcl]; [|done]. specialize (Hcl Ho).
  split; [apply Forall_app; split; [done|by apply wf_bytes_drop]|].
  rewrite length_app, length_drop. lia.
Qed.

Lemma copy_buf_small `{Heap} data o n : is_u64 o → 0 ≤ n < SMALL → copy_buf data o n ≠ Panic.
Proof.
  intros [Ho _] Hn. unfold copy_buf, vec_zeros, vec_resize, ISIZE_MAX, SMALL in *. pose proof (Z.mul_div_le heap_limit 4 ltac:(lia)). do 2 rewrite (proj2 (Z.ltb_ge _ _)) by lia. cbn.
  case_if; [|done]. rewrite slice_ok by lia. done.
Qed.

(** ** The invariant of a frame *)

Record wf_ctx (c : ZvmContext) : Prop := {
  wc_caller : wf_addr (z_caller c);
  wc_contract : wf_addr (z_contract c);
  wc_origin : wf_addr (z_origin c);
  wc_aa : from_option wf_addr True (z_aa_sender c);
  wc_code : wf_bytes (z_bytecode c);
  wc_data : wf_bytes (z_calldata c);
  wc_gas : is_u64 (z_gas_limit c)
}.

Definition wf_stack (st : ZvmStack) : Prop := Forall wf_word st ∧ (length st ≤ MAX_STACK_DEPTH)%nat.

Section Logic.
Context {H : Type} `{HL : ZvmHostLaws H} `{KO : EvmHost.KeccakOk} `{PO : ZvmPrecompilesOk} `{HP : Heap}.
Implicit Types s : ZvmInterpreter H.

Record wf s : Prop := {
  wf_c : wf_ctx (i_ctx s);
  wf_st : wf_stack (i_stack s);
  wf_me : wf_bytes (i_memory s);
  wf_pc : 0 ≤ i_pc s;
  wf_ga : is_u64 (i_gas s);
  wf_rd : wf_bytes (i_return_data s);
  wf_de : (i_depth s ≤ CALL_DEPTH_LIMIT)%nat
}.

(** What a frame started in [s0] may have done to the host. *)
Definition hok s0 (h : H) : Prop := hinv h ∧ frame (z_is_static (i_ctx s0)) (i_host s0) h.

(** The invariant of a frame started in [s0], with at most [g] gas left. *)
Definition inv s0 (g : Z) s : Prop :=
  wf s ∧ (i_ctx s = i_ctx s0 ∧ i_depth s = i_depth s0) ∧ i_gas s ≤ g ≤ i_gas s0 ∧ hok s0 (i_host s).

Definition einv s0 : ZvmInterpreter H → Prop := inv s0 (i_gas s0).

(** Until an instruction pushes its result, its stack is what is left of the
    one it started with. *)
Definition pre s0 (g : Z) s : Prop := inv s0 g s ∧ ∃ popped, i_stack s0 = popped ++ i_stack s.

(** An operand that may be large enough to make a memory access panic. *)
Definition big s0 : Prop := ∃ w, w ∈ i_stack s0 ∧ SMALL ≤ word_u64 w.

Section Rules.
Context (s0 : ZvmInterpreter H) (g : Z).
Context {B : Type} (Q : B → ZvmInterpreter H → Prop).
Abbreviation tri P m := (triple (big s0) P m Q (einv s0)).
Abbreviation Pre := (pre s0 g).
Abbreviation Inv := (inv s0 g).

Lemma pre_inv s : Pre s → Inv s.
Proof. by intros []. Qed.

Lemma zvm_inv_einv s : Inv s → einv s0 s.
Proof. intros (?&?&?&?). split; [done|]. split; [done|]. split; [lia|done]. Qed.

Lemma pre_einv s : Pre s → einv s0 s.
Proof. intros []. by apply zvm_inv_einv. Qed.

#[local] Ltac inv_tac :=
  intros (Hw & Hc & Hg & Hh); intros; destruct Hw;
  split; [constructor; simpl; try done; try lia|]; split; [done|]; split; [try lia|]; try done.

Lemma zvm_inv_set_stack s st : Inv s → wf_stack st → Inv (set_stack st s).
Proof. inv_tac. Qed.
Lemma zvm_inv_set_memory s m : Inv s → wf_bytes m → Inv (set_memory m s).
Proof. inv_tac. Qed.
Lemma zvm_inv_set_gas s x g' : Inv s → is_u64 x → x ≤ g' ≤ i_gas s0 → inv s0 g' (set_gas x s).
Proof. inv_tac. Qed.
Lemma zvm_inv_set_pc s x : Inv s → 0 ≤ x → Inv (set_pc x s).
Proof. inv_tac. Qed.
Lemma zvm_inv_set_return_data s x : Inv s → wf_bytes x → Inv (set_return_data x s).
Proof. inv_tac. Qed.
Lemma zvm_inv_set_host s x : Inv s → hok s0 x → Inv (set_host x s).
Proof. inv_tac. Qed.
Lemma zvm_inv_set_warm s a k : Inv s → Inv (set_warm a k s).
Proof. inv_tac. Qed.
Lemma zvm_inv_set_logs s x : Inv s → Inv (set_logs x s).
Proof. inv_tac. Qed.
Lemma inv_set_zvm_logs s x n : Inv s → Inv (set_zvm_logs x n s).
Proof. inv_tac. Qed.

(** Rules for computations that keep the stack. *)
Lemma t_modify_pre (f : ZvmInterpreter H → ZvmInterpreter H) (k : unit → M H B) :
  (∀ s, Inv s → Inv (f s)) → (∀ s, i_stack (f s) = i_stack s) → tri Pre (k tt) → tri Pre (modify f ≫= k).
Proof.
  intros Hf Hst Hk. eapply t_modify; [|exact Hk]. intros s [Hi [l Hl]]. split; [by apply Hf|].
  exists l. by rewrite Hst.
Qed.

Lemma zvm_t_pop (k : word → M H B) :
  (∀ w, wf_word w → word_u64 w < SMALL ∨ big s0 → tri Pre (k w)) → tri Pre (pop ≫= k).
Proof.
  intros Hk. apply t_assoc, t_gets. intros s Hs. apply t_assoc, t_lift; [apply pre_einv|by destruct (i_stack s)|].
  intros [w st] Hst. destruct (i_stack s) as [|w' st'] eqn:Est; [done|]. injection Hst as -> ->.
  apply t_assoc. intros s1 Hs1. destruct Hs as [Hi [l Hl]]. pose proof (wf_st _ (proj1 Hi)) as [Hf Hlen].
  rewrite Est in Hf, Hlen, Hl. apply Forall_cons in Hf as [Hw Hf]. cbn [length] in Hlen.
  assert (word_u64 w < SMALL ∨ big s0) as Hb.
  { destruct (decide (word_u64 w < SMALL)); [by left|right]. exists w. rewrite Hl. split; [set_solver|lia]. }
  apply (Hk w Hw Hb (set_stack st s1)). split; [apply zvm_inv_set_stack; [apply Hs1|split; [done|lia]]|].
  exists (l ++ [w]). cbn. by rewrite <- app_assoc.
Qed.

Lemma zvm_t_pop_u64 (k : Z → M H B) :
  (∀ x, is_u64 x → x < SMALL ∨ big s0 → tri Pre (k x)) → tri Pre (pop_u64 ≫= k).
Proof. intros Hk. apply t_assoc, zvm_t_pop. intros w Hw Hb. apply t_ret_bind, Hk; [by apply word_u64_range|done]. Qed.

Lemma t_pop_u128 (k : Z → M H B) : (∀ x, 0 ≤ x → tri Pre (k x)) → tri Pre (pop_u128 ≫= k).
Proof. intros Hk. apply t_assoc, zvm_t_pop. intros w Hw _. by apply t_ret_bind, Hk, word_u128_nonneg. Qed.

Lemma zvm_t_pop_address (k : address → M H B) : (∀ a, wf_addr a → tri Pre (k a)) → tri Pre (pop_address ≫= k).
Proof. intros Hk. apply t_assoc, zvm_t_pop. intros w Hw _. by apply t_ret_bind, Hk, word_address_wf. Qed.

Lemma t_pop_u256 (k : Z → M H B) : (∀ x, 0 ≤ x < W → tri Pre (k x)) → tri Pre (pop_u256 ≫= k).
Proof. intros Hk. apply t_assoc, zvm_t_pop. intros w Hw _. by apply t_ret_bind, Hk, word_u256_range. Qed.

Lemma zvm_t_pop_n n (k : list word → M H B) : (∀ l, tri Pre (k l)) → tri Pre (pop_n n ≫= k).
Proof.
  revert k. induction n as [|n IH]; intros k Hk; [apply t_ret_bind, Hk|].
  apply t_assoc, zvm_t_pop. intros w _ _. apply t_assoc, IH. intros l. apply t_ret_bind, Hk.
Qed.

(** The stack operations that end an instruction. *)
Lemma zvm_t_push v (k : unit → M H B) : wf_word v → tri Inv (k tt) → tri Pre (push v ≫= k).
Proof.
  intros Hv Hk. apply t_assoc, t_gets. intros s Hs. unfold stack_push.
  apply t_assoc, t_lift; [apply pre_einv|by case_match|]. intros st. case_match; [done|]. intros [= <-].
  eapply t_modify; [|exact Hk]. intros s1 [Hs1 _]. apply zvm_inv_set_stack; [done|].
  destruct (wf_st _ (proj1 (proj1 Hs))) as [Hf Hl]. apply Nat.leb_gt in H3. split; [by constructor|cbn; lia].
Qed.

Lemma zvm_t_dup n (k : unit → M H B) : tri Inv (k tt) → tri Pre (dup n ≫= k).
Proof.
  intros Hk. apply t_assoc, t_gets. intros s Hs. unfold stack_dup, stack_push.
  apply t_assoc, t_lift; [apply pre_einv|by repeat case_match|]. intros st.
  destruct (i_stack s !! (n - 1)%nat) as [v|] eqn:E; [|done]. case_match eqn:El; [done|]. intros [= <-].
  eapply t_modify; [|exact Hk]. intros s1 [Hs1 _]. apply zvm_inv_set_stack; [done|].
  destruct (wf_st _ (proj1 (proj1 Hs))) as [Hf Hl]. apply Nat.leb_gt in El.
  split; [constructor; [by eapply Forall_lookup_1 in E|done]|cbn; lia].
Qed.

Lemma zvm_t_swap n (k : unit → M H B) : tri Inv (k tt) → tri Pre (swap n ≫= k).
Proof.
  intros Hk. apply t_assoc, t_gets. intros s Hs. unfold stack_swap.
  apply t_assoc, t_lift; [apply pre_einv|by repeat case_match|]. intros st.
  destruct (i_stack s !! 0%nat) as [v|] eqn:E; [|done]. destruct (i_stack s !! n) as [u|] eqn:E'; [|done].
  intros [= <-]. eapply t_modify; [|exact Hk]. intros s1 [Hs1 _]. apply zvm_inv_set_stack; [done|].
  destruct (wf_st _ (proj1 (proj1 Hs))) as [Hf Hl].
  split; [|by rewrite !length_insert]. apply Forall_insert; [apply Forall_insert; [done|]|]; by eapply Forall_lookup_1.
Qed.

Lemma zvm_t_push_of f (k : unit → M H B) :
  (∀ s, Pre s → wf_word (f s)) → tri Inv (k tt) → tri Pre (push_of f ≫= k).
Proof. intros Hf Hk. apply t_assoc, t_gets. intros s Hs. apply zvm_t_push; auto. Qed.

(** Gas *)
Lemma t_charge a (k : unit → M H B) : 0 ≤ a → tri Pre (k tt) → tri Pre (charge_gas a ≫= k).
Proof.
  intros Ha Hk s Hs. pose proof (Hk (set_gas (i_gas s - a) s)) as Hk'.
  pose proof Hs as [(Hw & _ & Hg & _) [l Hl]]. pose proof (wf_ga _ Hw) as [Hg0 Hg1].
  unfold mbind, M_bind, charge_gas. destruct (Z.ltb_spec (i_gas s) a).
  - eapply zvm_inv_einv, zvm_inv_set_gas; [apply Hs|unfold is_u64; lia|lia].
  - apply Hk'. split; [apply zvm_inv_set_gas; [apply Hs|unfold is_u64; lia|lia]|]. by exists l.
Qed.

Lemma memory_gas_delta_nonneg a b : 0 ≤ memory_gas_delta a b.
Proof. unfold memory_gas_delta, saturating_sub. case_if; lia. Qed.

Lemma t_charge_mem n (k : unit → M H B) : tri Pre (k tt) → tri Pre (charge_mem_expansion n ≫= k).
Proof.
  intros Hk. unfold charge_mem_expansion. case_if; [by apply t_ret_bind|]. apply t_assoc, t_gets. intros s Hs.
  cbv zeta. case_if; [by apply t_ret_bind|]. apply t_charge; [apply memory_gas_delta_nonneg|done].
Qed.

Lemma zvm_t_touch a (k : unit → M H B) : tri Pre (k tt) → tri Pre (touch a ≫= k).
Proof.
  intros Hk. apply t_assoc, t_gets. intros s Hs. apply t_assoc, t_modify_pre; [intros; by apply zvm_inv_set_warm|done|].
  apply t_charge; [by case_match|done].
Qed.

Lemma zvm_t_touch_slot p c (k : unit → M H B) : 0 ≤ c → tri Pre (k tt) → tri Pre (touch_slot p c ≫= k).
Proof.
  intros Hc Hk. apply t_assoc, t_gets. intros s Hs.
  apply t_assoc, t_modify_pre; [intros; by apply zvm_inv_set_warm|done|]. apply t_charge; [by case_match|done].
Qed.

(** Memory *)
Lemma t_mem_do f (k : unit → M H B) :
  (∀ m m', f m = Ok m' → wf_bytes m → wf_bytes m') → (∀ m, f m ≠ Panic) ∨ big s0 →
  tri Pre (k tt) → tri Pre (mem_do f ≫= k).
Proof.
  intros Hf Hp Hk. apply t_assoc, t_gets. intros s Hs. pose proof (wf_me _ (proj1 (proj1 Hs))) as Hm.
  apply t_assoc, t_lift; [apply pre_einv|intros E; destruct Hp as [Hp|]; [by apply Hp in E|done]|].
  intros m' Hm'. apply t_modify_pre; [|done..]. intros. apply zvm_inv_set_memory; eauto.
Qed.

Lemma t_mread_upto o n (k : bytes → M H B) :
  is_u64 o → is_u64 n → o < SMALL ∨ big s0 → n < SMALL + 64 ∨ big s0 →
  (∀ d, wf_bytes d → Z.of_nat (length d) = n → tri Pre (k d)) → tri Pre (mread o n ≫= k).
Proof.
  intros Ho Hn Hbo Hbn Hk. apply t_assoc, t_gets. intros s Hs. pose proof (wf_me _ (proj1 (proj1 Hs))) as Hm.
  apply t_assoc, t_lift; [apply pre_einv| |].
  { intros E. destruct Hbo as [Hbo|]; [|done]. destruct Hbn as [Hbn|]; [|done].
    exfalso. revert E. destruct Ho, Hn. by apply read_slice_small. }
  intros [d m'] Hr. pose proof (read_slice_length _ _ _ _ _ Ho Hn Hr) as Hl.
  apply read_slice_wf in Hr as [Hd Hm']; [|done..]. apply t_assoc, t_modify_pre; [|done|].
  { intros. by apply zvm_inv_set_memory. }
  apply t_ret_bind. auto.
Qed.

Lemma zvm_t_mread o n (k : bytes → M H B) :
  is_u64 o → is_u64 n → o < SMALL ∨ big s0 → n < SMALL ∨ big s0 →
  (∀ d, wf_bytes d → Z.of_nat (length d) = n → tri Pre (k d)) → tri Pre (mread o n ≫= k).
Proof. intros Ho Hn Hbo [Hbn|Hb]; apply t_mread_upto; try done; [left; lia|by right]. Qed.

(** MLOAD *)
Lemma zvm_t_mread32 o (k : bytes → M H B) :
  is_u64 o → o < SMALL ∨ big s0 →
  (∀ d, wf_bytes d → Z.of_nat (length d) = 32 → tri Pre (k d)) → tri Pre (mread o 32 ≫= k).
Proof. intros Ho Hbo. apply t_mread_upto; [done|done|done|]. destruct Ho, Hbo; [left; lia|by right]. Qed.

Lemma t_read_string o n (k : bytes → M H B) :
  is_u64 o → is_u64 n → o < SMALL ∨ big s0 → n < SMALL ∨ big s0 → (∀ d, tri Pre (k d)) → tri Pre (read_string o n ≫= k).
Proof.
  intros Ho Hn Hbo Hbn Hk. apply t_assoc, zvm_t_mread; [done..|]. intros d _ _. destruct (utf8_valid d); [by apply t_ret_bind|].
  intros s Hs. by apply pre_einv.
Qed.

(** The host *)
Lemma hok_step s h' : Inv s → hinv h' → frame (z_is_static (i_ctx s0)) (i_host s) h' → hok s0 h'.
Proof. intros (_&_&_&[_ Hf]) Hi Hf'. split; [done|]. by eapply frame_trans. Qed.

Lemma t_host_do f (k : unit → M H B) :
  (∀ h, hinv h → hinv (f h) ∧ frame (z_is_static (i_ctx s0)) h (f h)) → tri Pre (k tt) → tri Pre (host_do f ≫= k).
Proof.
  intros Hf Hk. apply t_modify_pre; [|done..]. intros s Hs. apply zvm_inv_set_host; [done|].
  destruct (Hf (i_host s)) as [Hi Hf']; [apply Hs|]. by eapply hok_step.
Qed.

Lemma t_host_try f (k : unit → M H B) :
  (∀ h, (f h).1 ≠ Panic) → (∀ h, hinv h → hinv (f h).2 ∧ frame (z_is_static (i_ctx s0)) h (f h).2) →
  tri Pre (k tt) → tri Pre (host_try f ≫= k).
Proof.
  intros Hp Hf Hk s Hs. unfold mbind, M_bind, host_try. specialize (Hp (i_host s)).
  destruct (Hf (i_host s)) as [Hi Hf']; [apply Hs|].
  assert (Inv (set_host (f (i_host s)).2 s)) as Hi' by (apply zvm_inv_set_host; [apply Hs|]; eapply hok_step; [apply Hs|done..]).
  destruct (f (i_host s)) as [[[]|e|] h']; cbn in *; [|by apply zvm_inv_einv|done].
  apply Hk. split; [done|]. apply Hs.
Qed.

Lemma t_guard_static (k : unit → M H B) :
  (z_is_static (i_ctx s0) = false → tri Pre (k tt)) → tri Pre (guard_static ≫= k).
Proof.
  intros Hk. apply t_assoc. unfold ctx. apply t_gets. intros s Hs. destruct Hs as [(_&[Hc _]&_) _]. rewrite Hc.
  destruct (z_is_static _); [intros s1 Hs1; by apply pre_einv|]. apply t_ret_bind. auto.
Qed.

Lemma t_ctx (k : ZvmContext → M H B) :
  (wf_ctx (i_ctx s0) → tri Pre (k (i_ctx s0))) → tri Pre (ctx ≫= k).
Proof.
  intros Hk. apply t_gets. intros s [(Hw&[Hc _]&_) _]. rewrite Hc. apply Hk. rewrite <- Hc. apply Hw.
Qed.
End Rules.
End Logic.
End ZvmLogic.
