(* ===== verification/ZvmExec.v ===== *)
(** * The ZVM's instructions keep the frame invariant

    One lemma per handler of [crates/zbx-zvm/src/interpreter.rs]: from a
    well-formed frame the instruction ends well formed with less gas, or in an
    error that keeps the frame's invariant, or suspends the frame with a
    well-formed child; it panics only if an operand is huge. *)

From S2P Require Import Prelude.
From S2P Require Import Monad.
From S2P Require Import U256.
From S2P Require Import U256Wf.
From S2P Require Import EvmBase.
From S2P Require Import EvmHost.
From S2P Require Import EvmInterp.
From S2P Require Import EvmLogic.
From S2P Require Import ZvmBase.
From S2P Require Import ZvmHost.
From S2P Require Import ZvmInterp.
From S2P Require Import ZvmLogic.

Module ZvmExec.
Import Monad U256 U256Wf ZvmBase ZvmHost ZvmInterp ZvmLogic.

(** ** Costs are not negative *)

Lemma sat_mul_nonneg a b : 0 ≤ a → 0 ≤ b → 0 ≤ saturating_mul64 a b.
Proof. intros. unfold saturating_mul64, U64_MAX. nia. Qed.
Lemma sat_add_nonneg a b : 0 ≤ a → 0 ≤ b → 0 ≤ saturating_add64 a b.
Proof. intros. unfold saturating_add64, U64_MAX. lia. Qed.
Lemma sat_sub_nonneg a b : 0 ≤ saturating_sub a b.
Proof. unfold saturating_sub. lia. Qed.
Lemma words_nonneg n : 0 ≤ words_of n.
Proof. apply Z.div_pos; [apply Z.mod_pos_bound; lia | lia]. Qed.
#[local] Hint Resolve sat_mul_nonneg sat_add_nonneg sat_sub_nonneg words_nonneg Nat2Z.is_nonneg : zbx.

Lemma exp_gas_nonneg w : 0 ≤ exp_dynamic_gas w.
Proof. apply sat_mul_nonneg; auto with zbx lia. Qed.
Lemma keccak_gas_nonneg n : 0 ≤ keccak256_dynamic_gas n.
Proof. apply sat_mul_nonneg; auto with zbx lia. Qed.
Lemma copy_gas_nonneg n : 0 ≤ copy_dynamic_gas n.
Proof. apply sat_mul_nonneg; auto with zbx lia. Qed.
Lemma log_gas_nonneg k n : 0 ≤ n → 0 ≤ log_dynamic_gas (Z.of_nat k) n.
Proof. intros. apply sat_add_nonneg; apply sat_mul_nonneg; auto with zbx lia. Qed.
#[local] Hint Resolve exp_gas_nonneg keccak_gas_nonneg copy_gas_nonneg log_gas_nonneg : zbx.

(** Every opcode that does not end the frame costs at least 1. *)
Definition ends (op : Opcode) : bool := match op with STOP | RETURN | REVERT | INVALID => true | _ => false end.

Lemma opcode_gas_nonneg op : 0 ≤ opcode_gas op.
Proof. by destruct op. Qed.

Lemma opcode_gas_pos op : ends op = false → 1 ≤ opcode_gas op.
Proof. by destruct op. Qed.

Lemma push_operand b n : from_u8 b = Some (PUSH n) → (n ≤ 32)%nat.
Proof.
  unfold from_u8. destruct (_ && _) eqn:E; [|by repeat case_match].
  simp_bool. intros [= <-]. lia.
Qed.

Lemma calldataload_wf data o :
  wf_bytes data → 0 ≤ o → ∃ w, calldataload data o = Ok w ∧ wf_word w.
Proof.
  intros Hd Ho. unfold calldataload. case_if; [|eexists; split; [done|apply wf_zero]].
  set (n := Z.min _ 32). rewrite slice_ok by lia. eexists. split; [done|].
  pose proof (length_slice data o (o + n) ltac:(lia) ltac:(lia)). split.
  - rewrite length_app, length_replicate. lia.
  - apply Forall_app. split; [by apply wf_bytes_take, wf_bytes_drop | apply EvmBase.wf_replicate0].
Qed.

Lemma push_value_wf cd pc n w :
  push_value cd pc n = Ok w → wf_bytes cd → 0 ≤ pc → (n ≤ 32)%nat → wf_word w.
Proof.
  intros Hp Hd Hpc Hn. unfold push_value in Hp. case_if; [done|].
  destruct (slice cd _ _) as [c|e|] eqn:E; [|done..]. injection Hp as <-.
  apply slice_inv in E as [Hc Hl]; [|done]. apply wf_pad with n; [lia|lia|done].
Qed.

Lemma push_value_np cd pc n : 0 ≤ pc → push_value cd pc n ≠ Panic.
Proof. intros. unfold push_value. case_if; [done|]. rewrite slice_ok by lia. done. Qed.

Lemma abi_string_wf name : wf_bytes name → wf_bytes (abi_string name).
Proof.
  intros Hn. unfold abi_string, wf_bytes. rewrite !Forall_app.
  split_and!; try apply EvmBase.wf_replicate0; try done; [|apply wf_to_be]. apply Forall_singleton. unfold is_u8. lia.
Qed.

Lemma payid_ok input g r v :
  (∀ n a, r n = Some a → wf_addr a) → (∀ a n, v a = Some n → wf_bytes n) → pre_ok (payid_resolve_with input g r v).
Proof.
  intros Hr Hv. unfold payid_resolve_with. pose proof (EvmBase.wf_replicate0) as Hz.
  set (cost := saturating_add64 _ _).
  assert (is_u64 cost) as Hc.
  { unfold cost, is_u64, saturating_add64, saturating_mul64, U64_MAX. lia. }
  repeat (case_match; try done); unfold pre_ok; (split; [|done]).
  - apply Forall_app_2; [apply Hz|]. by eapply Hr.
  - apply abi_string_wf. destruct (v _) eqn:E; [by eapply Hv|constructor].
Qed.

Section Exec.
Context {H : Type} `{HL : ZvmHostLaws H} `{KO : EvmHost.KeccakOk} `{PO : ZvmPrecompilesOk} `{HP : Heap}.
Implicit Types s : ZvmInterpreter H.

(** The parent while its child runs: the child's gas is set aside. *)
Record susp s0 (sub : ZvmInterpreter H) s : Prop := {
  su_pre : pre s0 (i_gas s0 - 1 - i_gas sub) s;
  su_wf : wf sub;
  su_gas : z_gas_limit (i_ctx sub) = i_gas sub;
  su_host : hok s0 (i_host sub);
  su_static : z_is_static (i_ctx s0) = true → z_is_static (i_ctx sub) = true
}.

Definition good s0 (c : Ctrl H) s : Prop :=
  match c with
  | Next | Jumped => inv s0 (i_gas s0 - 1) s
  | Halt _ => einv s0 s
  | EnterCall sub p =>
      susp s0 sub s ∧ is_u64 (p_ret_off p) ∧ is_u64 (p_ret_len p) ∧
      (p_ret_off p < SMALL ∨ big s0) ∧ (p_ret_len p < SMALL ∨ big s0)
  | EnterCreate sub a => susp s0 sub s ∧ wf_addr a ∧ z_is_static (i_ctx s0) = false
  end.

Lemma inv_mono s0 g g' s : inv s0 g s → g ≤ g' ≤ i_gas s0 → inv s0 g' s.
Proof. intros (?&?&?&?) ?. split; [done|]. split; [done|]. split; [lia|done]. Qed.

Lemma pre_mono s0 g g' s : pre s0 g s → g ≤ g' ≤ i_gas s0 → pre s0 g' s.
Proof. intros [? ?] ?. split; [by eapply inv_mono|done]. Qed.

(** The words a state in the invariant reads. *)
Lemma pre_hinv s0 g s : pre s0 g s → hinv (i_host s).
Proof. intros [(_&_&_&[]) _]. done. Qed.
Lemma pre_ctx s0 g s : pre s0 g s → wf_ctx (i_ctx s).
Proof. intros [(Hw&_) _]. apply Hw. Qed.

Lemma aa_sender_wf c : wf_ctx c → wf_addr (default (z_caller c) (z_aa_sender c)).
Proof. intros []. by destruct (z_aa_sender c). Qed.

Lemma resolved_wf h p : hinv h → wf_addr (addr_or_zero (resolve_pay_id h p)).
Proof.
  intros Hi. unfold addr_or_zero. destruct (resolve_pay_id h p) eqn:E; [by eapply resolve_wf|].
  split; [done|apply EvmBase.wf_replicate0].
Qed.

(** Discharges the well-formedness of a word that is pushed. *)
Ltac side_wf :=
  lazymatch goal with
  | Hp : pre _ _ ?s |- _ => pose proof (pre_hinv _ _ _ Hp); pose proof (pre_ctx _ _ _ Hp)
  | _ => idtac
  end;
  solve [ auto with zbx
        | apply and_wf; assumption | apply or_wf; assumption | apply xor_wf; assumption | apply not_wf; assumption
        | apply byte_word_wf; [lia|assumption]
        | apply word_of_address_wf; first [ apply wc_caller | apply wc_contract | apply wc_origin | apply aa_sender_wf
                                          | apply coinbase_wf | apply resolved_wf ]; assumption
        | apply storage_load_wf; assumption | apply transient_load_wf; assumption
        | apply code_hash_wf; assumption | apply block_hash_wf; assumption | apply blob_hash_wf; assumption
        | apply prevrandao_wf; assumption | apply EvmHost.keccak_wf
        | split; [lia|assumption] ].
Ltac side_np lem := first [ right; assumption | left; intros; apply lem; unfold is_u64 in *; lia ].
Ltac is_cost := first [ done | solve [auto with zbx] | apply sat_mul_nonneg; [done | apply words_nonneg] | apply log_gas_nonneg; unfold is_u64 in *; lia ].

Ltac z_unfold :=
  unfold of_ctx, of_host, next, push_failure, binop, ternop, cmpop, bitop, exec_copy, copy_data, exec_account,
    push_u64, push_u128, push_u256, push_address.
Ltac z_step :=
  lazymatch goal with
  | |- triple _ _ (mbind _ ?m) _ _ =>
      lazymatch m with
      | mbind _ _ => apply t_assoc
      | mret _ => apply t_ret_bind
      | fail _ => apply t_fail_bind; intros ? ?; eapply pre_einv; eassumption
      | pop => apply zvm_t_pop; intros ? ? ?
      | pop_u64 => apply zvm_t_pop_u64; intros ? ? ?
      | pop_u128 => apply t_pop_u128; intros ? ?
      | pop_address => apply zvm_t_pop_address; intros ? ?
      | pop_u256 => apply t_pop_u256; intros ? ?
      | pop_n _ => apply zvm_t_pop_n; intros ?
      | push _ => apply zvm_t_push; [try side_wf|]
      | dup _ => apply zvm_t_dup
      | swap _ => apply zvm_t_swap
      | push_of _ => apply zvm_t_push_of; [intros ? ?; try side_wf|]
      | charge_gas _ => apply t_charge; [try is_cost|]
      | charge_mem_expansion _ => apply t_charge_mem
      | touch _ => apply zvm_t_touch
      | touch_slot _ _ => apply zvm_t_touch_slot; [done|]
      | mread _ 32 => apply zvm_t_mread32; [first [assumption|done] | try assumption |];
                     [try (left; done)..|]; intros ? ? ?
      | mread _ _ => apply zvm_t_mread; [first [assumption|done] | first [assumption|done] | try assumption | try assumption |];
                     [try (left; done)..|]; intros ? ? ?
      | read_string _ _ => apply t_read_string; [assumption..|]; intros ?
      | ctx => apply t_ctx; intros ?
      | guard_static => apply t_guard_static; intros ?
      | gets _ => apply t_gets; intros ? ?
      | modify (set_return_data _) =>
          apply t_modify_pre; [intros; apply zvm_inv_set_return_data; [assumption|try assumption; try constructor] | done |]
      | (if ?b then _ else _) => destruct b eqn:?
      end
  | |- triple _ _ (if ?b then _ else _) _ _ => destruct b eqn:?
  | |- triple _ (pre _ _) (fail _) _ _ => apply t_fail; intros ? ?; eapply pre_einv; eassumption
  | |- triple _ (inv _ _) (mret Next) _ _ => apply t_ret; intros ? ?; eapply inv_mono; [eassumption|lia]
  | |- triple _ (pre _ _) (mret Next) _ _ => apply t_ret; intros ? [? _]; eapply inv_mono; [eassumption|lia]
  end.
Ltac z_go := z_unfold; repeat z_step.

Section Handlers.
Context (s0 : ZvmInterpreter H) (g : Z) (Hg : g ≤ i_gas s0 - 1) (Hw0 : is_u64 (i_gas s0)).
Abbreviation ok m := (triple (big s0) (pre s0 g) m (good s0) (einv s0)).

Lemma exec_exp_ok : ok (next exec_exp).
Proof. unfold exec_exp. z_go. Qed.
Lemma exec_keccak_ok : ok (next exec_keccak).
Proof. unfold exec_keccak. z_go. Qed.

Lemma exec_calldataload_ok : ok (next exec_calldataload).
Proof.
  unfold exec_calldataload. z_go. destruct (calldataload_wf (z_calldata (i_ctx s0)) x) as (w & -> & Hw); [by apply wc_data|lia|].
  apply t_lift; [apply pre_einv|done|]. intros ? [= <-]. z_go.
Qed.

Lemma copy_data_ok f d o n (k : unit → M H (Ctrl H)) :
  is_u64 d → is_u64 o → is_u64 n → d < SMALL ∨ big s0 → n < SMALL ∨ big s0 →
  (∀ s, pre s0 g s → wf_bytes (f s)) → ok (k tt) → ok (copy_data (gets f) d o n ≫= k).
Proof.
  intros Hd Ho Hn Hbd Hbn Hf Hk. z_go. apply t_lift; [apply pre_einv| |].
  { intros E. destruct Hbn; [|done]. exfalso. revert E. destruct Hn. by apply copy_buf_small. }
  intros b Hb. apply copy_buf_wf in Hb as [Hb Hl]; [|done|done|by apply Hf].
  apply t_mem_do; [intros; by eapply write_slice_wf| |done].
  destruct Hbd; [|by right]. destruct Hbn; [|by right]. left. intros m. destruct Hd. apply write_slice_small; lia.
Qed.

Lemma exec_copy_ok f : (∀ s, pre s0 g s → wf_bytes (f s)) → ok (next (exec_copy (gets f))).
Proof. intros Hf. unfold next, exec_copy. repeat z_step. apply copy_data_ok; auto. z_go. Qed.

Lemma exec_extcodecopy_ok : ok (next exec_extcodecopy).
Proof.
  unfold next, exec_extcodecopy. repeat z_step. apply copy_data_ok; try done; [|z_go].
  intros. apply code_wf. by eapply pre_hinv.
Qed.

Lemma exec_returndatacopy_ok : ok (next exec_returndatacopy).
Proof.
  unfold next, exec_returndatacopy. apply t_assoc, zvm_t_pop_u64. intros d Hd Hbd. apply t_assoc, zvm_t_pop_u64. intros o Ho Hbo.
  apply t_assoc, zvm_t_pop_u64. intros n Hn Hbn. do 4 z_step. apply t_assoc, t_gets. intros s Hs. z_step; [z_go|].
  apply Z.ltb_ge in Heqb. unfold saturating_add64, U64_MAX, is_u64 in *. apply t_assoc, t_lift; [apply pre_einv| |].
  { intros E. destruct Hbo as [Hbo|]; [|done]. destruct Hbn as [Hbn|]; [|done]. exfalso. revert E.
    unfold SMALL in *. rewrite slice_ok by lia. done. }
  intros b Hb. apply slice_inv in Hb as [Hb Hl]; [|apply (wf_rd s); by destruct Hs as [[? _] _]].
  apply t_mem_do; [intros; by eapply write_slice_wf| |z_go].
  destruct Hbd; [|by right]. destruct Hbn; [|by right]. left. intros m. apply write_slice_small; lia.
Qed.

Lemma exec_account_ok f : (∀ h a, hinv h → wf_word (f h a)) → ok (next (exec_account f)).
Proof. intros Hf. z_go. Qed.

Lemma exec_mcopy_ok : ok (next exec_mcopy).
Proof.
  unfold next, exec_mcopy. apply t_assoc, zvm_t_pop_u64. intros d Hd Hbd. apply t_assoc, zvm_t_pop_u64. intros o Ho Hbo.
  apply t_assoc, zvm_t_pop_u64. intros n Hn Hbn. do 4 z_step. apply t_mem_do; [intros; by eapply copy_wf| |z_go].
  destruct Hbd; [|by right]. destruct Hbo; [|by right]. destruct Hbn; [|by right].
  left. intros m. destruct Hd, Ho, Hn. by apply copy_small.
Qed.

Lemma exec_push_ok n : (n ≤ 32)%nat → ok (next (exec_push n)).
Proof.
  intros Hn. unfold next, exec_push. repeat z_step. pose proof (wf_pc _ (proj1 (proj1 H4))) as Hpc.
  apply t_lift; [apply pre_einv|intros E; exfalso; revert E; by apply push_value_np|].
  intros w Hw. apply push_value_wf in Hw; [|by apply wc_code|done|done]. z_step. z_step.
  eapply t_modify.
  - intros s' Hs'. apply zvm_inv_set_pc; [exact Hs'|]. pose proof (wf_pc _ (proj1 Hs')). lia.
  - z_go.
Qed.

Lemma exec_mload_ok : ok (next exec_mload).
Proof. unfold exec_mload. z_go. Qed.

Lemma exec_mstore_ok : ok (next exec_mstore).
Proof.
  unfold next, exec_mstore. apply t_assoc, zvm_t_pop_u64. intros o Ho Hbo. apply t_assoc, zvm_t_pop. intros w Hw _. do 2 z_step.
  destruct Hw as [Hl Hw]. apply t_mem_do; [intros; by eapply store_wf| |z_go].
  destruct Hbo; [|by right]. left. intros m. destruct Ho. by apply store_small.
Qed.

Lemma zvm_byte_at_u8 w i : wf_bytes w → is_u8 (byte_at w i).
Proof.
  intros Hw. unfold byte_at. destruct (w !! i) as [b|] eqn:E; cbn; [by eapply Forall_lookup_1 in E|unfold is_u8; lia].
Qed.

Lemma exec_mstore8_ok : ok (next exec_mstore8).
Proof.
  unfold next, exec_mstore8. apply t_assoc, zvm_t_pop_u64. intros o Ho Hbo. apply t_assoc, zvm_t_pop. intros w Hw _. do 2 z_step.
  destruct Hw as [Hl Hw]. apply t_mem_do; [intros; eapply store8_wf; [done|by apply zvm_byte_at_u8|done]| |z_go].
  destruct Hbo; [|by right]. left. intros m. destruct Ho. apply store8_small. unfold SMALL in *. lia.
Qed.

Lemma exec_sload_ok : ok (next exec_sload).
Proof. unfold exec_sload. z_go. Qed.
Lemma exec_tload_ok : ok (next exec_tload).
Proof. unfold exec_tload. z_go. Qed.

Lemma exec_sstore_ok : ok (next exec_sstore).
Proof.
  unfold exec_sstore. z_go. apply t_host_do; [|z_go]. intros h Hh. rewrite H3. by apply storage_store_ok.
Qed.
Lemma exec_tstore_ok : ok (next exec_tstore).
Proof.
  unfold exec_tstore. z_go. apply t_host_do; [|z_go]. intros h Hh. rewrite H3. by apply transient_store_ok.
Qed.

Lemma zvm_jump_to_ok d : 0 ≤ d → ok (jump_to d).
Proof.
  intros Hd. unfold jump_to. z_go. eapply t_modify; [intros s' [Hs' _]; apply zvm_inv_set_pc; [exact Hs'|done]|].
  apply t_ret. intros s' Hs'. eapply inv_mono; [exact Hs'|lia].
Qed.
Lemma exec_jump_ok : ok exec_jump.
Proof. unfold exec_jump. z_go. apply zvm_jump_to_ok. by destruct H3. Qed.
Lemma exec_jumpi_ok : ok exec_jumpi.
Proof. unfold exec_jumpi. z_go. apply zvm_jump_to_ok. by destruct H3. Qed.

Lemma exec_selfdestruct_ok : ok exec_selfdestruct.
Proof.
  unfold exec_selfdestruct. z_go. apply t_host_do; [intros h Hh; rewrite H3; by apply selfdestruct_ok|].
  apply t_ret. intros s Hs. by eapply pre_einv.
Qed.

Lemma exec_payid_ok : ok (next exec_payid).
Proof. unfold exec_payid. z_go. Qed.

Lemma exec_zbxburn_ok : ok (next exec_zbxburn).
Proof.
  unfold exec_zbxburn. z_go. apply t_host_try; [intros; apply burn_np| |z_go].
  intros h Hh. rewrite H3. by apply burn_ok.
Qed.

Lemma exec_zvmlog_ok : ok (next exec_zvmlog).
Proof.
  unfold exec_zvmlog. z_go. apply t_host_do; [intros h Hh; by apply emit_zvm_log_ok|].
  apply t_modify_pre; [intros; by apply inv_set_zvm_logs|done|]. z_go.
Qed.

Lemma zvm_exec_log_ok n : ok (next (exec_log n)).
Proof.
  unfold exec_log. z_go. apply t_modify_pre; [intros; by apply zvm_inv_set_logs|done|].
  apply t_host_do; [intros h Hh; rewrite H3; by apply emit_log_ok|]. z_go.
Qed.

(** RETURN and REVERT, which are free. *)
Lemma zvm_do_return_ok st : triple (big s0) (pre s0 (i_gas s0)) (do_return st) (good s0) (einv s0).
Proof.
  unfold do_return. z_go. apply t_ret. intros s Hs. by eapply pre_einv.
Qed.

(** ** The CALL family *)

Lemma zvm_run_precompile_ok h ts a d gas : hinv h → pre_ok (run_precompile h ts a d gas).
Proof.
  intros Hh. unfold run_precompile. repeat case_match.
  - apply payid_ok; intros; [by eapply resolve_bytes_wf|by eapply reverse_wf].
  - apply price_oracle_ok.
  - apply zusd_vault_ok.
  - apply call_precompile_ok.
Qed.

Lemma store_ret_ok o n d (k : unit → M H (Ctrl H)) :
  is_u64 o → is_u64 n → o < SMALL ∨ big s0 → n < SMALL ∨ big s0 → wf_bytes d →
  ok (k tt) → ok (mem_do (store_bytes o (take (Z.to_nat (Z.min n (Z.of_nat (length d)))) d)) ≫= k).
Proof.
  intros [Ho _] [Hn _] Hbo Hbn Hd Hk. apply t_mem_do; [intros; eapply store_bytes_wf; [done|by apply wf_bytes_take|done]| |done].
  destruct Hbo; [|by right]. destruct Hbn; [|by right]. left. intros m. apply store_bytes_small; [done|].
  rewrite length_take. unfold SMALL in *. lia.
Qed.

Lemma do_precompile_call_ok target d req o n :
  is_u64 o → is_u64 n → o < SMALL ∨ big s0 → n < SMALL ∨ big s0 → ok (do_precompile_call target d req o n).
Proof.
  intros Ho Hn Hbo Hbn. unfold do_precompile_call. apply t_gets. intros s Hs. cbv zeta.
  pose proof (zvm_run_precompile_ok (i_host s) (z_timestamp (i_ctx s)) target d (Z.min req (i_gas s)) (pre_hinv _ _ _ Hs)) as Hp.
  destruct (run_precompile _ _ _ _ _) as [[out used]|e|]; [|z_go|done]. destruct Hp as [Hout [Hu _]].
  apply t_modify_pre; [|done|].
  { intros s' Hs'. pose proof (wf_ga _ (proj1 Hs')) as []. pose proof Hs' as (_&_&?&_).
    eapply zvm_inv_set_gas; [exact Hs'|unfold is_u64, saturating_sub; lia|unfold saturating_sub; lia]. }
  apply store_ret_ok; [done..|]. z_go.
Qed.

(** Gas is set aside for a child built from the parent's state. *)
Lemma t_enter F (C : ZvmInterpreter H → Z → Ctrl H) :
  (∀ gas, 0 ≤ gas → 0 ≤ F gas ≤ gas) →
  (∀ s f, pre s0 (g - f) s → is_u64 f → good s0 (C s f) s) →
  ok (gas ← gets i_gas; let f := F gas in
      modify (set_gas (saturating_sub gas f));; parent ← gets (fun s => s); mret (C parent f) : M H (Ctrl H)).
Proof.
  intros HF HC s Hs. cbn. pose proof Hs as [(Hw&_&Hgas&_) [l Hl]]. pose proof (wf_ga _ Hw) as [Hg0 Hg1].
  specialize (HF (i_gas s) Hg0). apply HC; [|unfold is_u64; lia]. split; [|by exists l].
  eapply zvm_inv_set_gas; [apply Hs|unfold is_u64, saturating_sub; lia|unfold saturating_sub; lia].
Qed.

Lemma child_susp s c :
  pre s0 (g - z_gas_limit c) s → wf_ctx c → (i_depth s < CALL_DEPTH_LIMIT)%nat →
  (z_is_static (i_ctx s0) = true → z_is_static c = true) → susp s0 (child s c) s.
Proof.
  intros Hs Hc Hd Hst. pose proof Hs as [(Hw&_&_&Hh) _]. pose proof (wc_gas c Hc) as []. split; cbn; try done.
  - eapply pre_mono; [exact Hs|lia].
  - constructor; cbn; try done; try constructor; try lia; try constructor. unfold MAX_STACK_DEPTH. cbn. lia.
Qed.

Lemma zvm_call_enter_ok kind req target value d o n :
  is_u64 req → wf_addr target → 0 ≤ value → wf_bytes d → (i_depth s0 < CALL_DEPTH_LIMIT)%nat →
  (takes_value kind && z_is_static (i_ctx s0) && (0 <? value) = false) →
  is_u64 o → is_u64 n → o < SMALL ∨ big s0 → n < SMALL ∨ big s0 → ok (call_enter kind req target value d o n).
Proof.
  intros [Hreq _] Ht Hv Hd Hde Hst Ho Hn Hbo Hbn. unfold call_enter. z_step. apply t_gets. intros s1 Hs1.
  pose proof (code_wf (i_host s1) target (pre_hinv _ _ _ Hs1)) as Hcode. z_step. z_step.
  set (transfers := match kind with Call => 0 <? value | _ => false end). z_step; [z_go|].
  apply t_bind with (R := fun _ => pre s0 g).
  { destruct transfers eqn:Etr; [|by apply t_ret]. apply t_tail, t_host_try; [intros; apply transfer_np| |by apply t_ret].
    assert (z_is_static (i_ctx s0) = false) as ->; [|intros; by apply transfer_ok].
    destruct kind; try done. cbn in Hst. unfold transfers in Etr. rewrite Etr in Hst. by destruct (z_is_static _). }
  intros _. apply (t_enter (fun gas => Z.min req (gas / 64 * 63))
    (fun parent f => EnterCall (child parent (sub_call_ctx kind (i_ctx s0) target value (code (i_host s1) target) d f))
                       (mkPending o n))).
  { intros gas Hgas. pose proof (Z.div_pos gas 64 ltac:(lia) ltac:(lia)). Z.div_mod_to_equations. lia. }
  intros s2 f Hs Hf. cbn. split; [|done]. pose proof Hs as [(_&[_ Hdep]&_) _].
  destruct H3. apply child_susp; [by destruct kind| |lia|].
  - by destruct kind; constructor.
  - by destruct kind; cbn; intros ->.
Qed.

Lemma zvm_do_call_ok kind : ok (do_call kind).
Proof.
  unfold do_call. apply zvm_t_pop_u64. intros req Hreq _. apply zvm_t_pop_address. intros target Ht.
  apply t_bind with (R := fun v s => 0 ≤ v ∧ pre s0 g s).
  { destruct (takes_value kind); [|by apply t_ret]. apply t_tail, t_pop_u128. intros. by apply t_ret. }
  intros value. apply t_pure. intros Hv. z_step. z_step; [z_go|].
  apply zvm_t_pop_u64. intros ao Hao Hbao. apply zvm_t_pop_u64. intros al Hal Hbal.
  apply zvm_t_pop_u64. intros ro Hro Hbro. apply zvm_t_pop_u64. intros rl Hrl Hbrl. do 3 z_step.
  apply t_gets. intros s1 Hs1. pose proof Hs1 as [(_&[_ Hde]&_) _]. rewrite Hde. z_step; [z_go|]. apply Nat.leb_gt in Heqb0.
  apply zvm_t_mread; [done..|]. intros d Hd _. z_step; [by apply do_precompile_call_ok|].
  z_step. z_step; [z_go|]. by apply zvm_call_enter_ok.
Qed.

(** ** CREATE and CREATE2 *)

Lemma create_addr_wf c n : wf_addr (create_address c n).
Proof. apply EvmLogic.wf_addr_of_word, EvmHost.keccak_wf. Qed.
Lemma create2_addr_wf c w i : wf_addr (create2_address c w i).
Proof. apply EvmLogic.wf_addr_of_word, EvmHost.keccak_wf. Qed.

Lemma zvm_create_enter_ok value o n salt :
  0 ≤ value → is_u64 o → is_u64 n → o < SMALL ∨ big s0 → n < SMALL ∨ big s0 →
  (i_depth s0 < CALL_DEPTH_LIMIT)%nat → z_is_static (i_ctx s0) = false → ok (create_enter value o n salt).
Proof.
  intros Hv Ho Hn Hbo Hbn Hde Hst. unfold create_enter. z_step. z_step. z_step; [z_go|].
  apply zvm_t_mread; [done..|]. intros ic Hic _. z_step. cbv zeta. set (a := match salt with Some _ => _ | None => _ end).
  assert (wf_addr a) as Ha by (destruct salt; [apply create2_addr_wf|apply create_addr_wf]).
  apply t_host_do; [intros; rewrite Hst; by apply inc_nonce_ok|]. z_step. z_step; [z_go|].
  apply t_bind with (R := fun _ => pre s0 g).
  { destruct (0 <? value); [|by apply t_ret]. apply t_tail, t_host_try; [intros; apply transfer_np| |by apply t_ret].
    intros. rewrite Hst. by apply transfer_ok. }
  intros _. apply t_host_do; [intros; rewrite Hst; by apply inc_nonce_ok|].
  apply (t_enter (fun gas => gas / 64 * 63)
    (fun parent f => EnterCreate (child parent (sub_create_ctx (i_ctx s0) a value ic f)) a)).
  { intros gas Hgas. pose proof (Z.div_pos gas 64 ltac:(lia) ltac:(lia)). Z.div_mod_to_equations. lia. }
  intros s3 f Hs Hf. cbn. split; [|done]. pose proof Hs as [(_&[_ Hdep]&_) _]. destruct H3.
  apply child_susp; [done| |lia|congruence]. constructor; cbn; try done. constructor.
Qed.

Lemma zvm_do_create_ok salted : ok (do_create salted).
Proof.
  unfold do_create. z_step. apply t_pop_u128. intros v Hv. apply zvm_t_pop_u64. intros o Ho Hbo.
  apply zvm_t_pop_u64. intros n Hn Hbn. apply t_bind with (R := fun _ => pre s0 g).
  { destruct salted; [|by apply t_ret]. z_step. by apply t_ret. }
  intros salt. z_step; [z_go|]. z_step. apply t_bind with (R := fun _ => pre s0 g).
  { destruct salted; [|by apply t_ret]. apply t_tail, t_charge; [auto with zbx|by apply t_ret]. }
  intros _. z_step. apply t_gets. intros s1 Hs1. pose proof Hs1 as [(_&[_ Hde]&_) _]. rewrite Hde.
  z_step; [z_go|]. apply Nat.leb_gt in Heqb0. by apply zvm_create_enter_ok.
Qed.
End Handlers.

(** ** Resuming the parent *)

(** How a child ends. *)
Record ended (sub sub' : ZvmInterpreter H) (r : ZvmResult) : Prop := {
  en_inv : einv sub sub';
  en_data : zr_return_data r = i_return_data sub';
  en_gas : zr_gas_remaining r = i_gas sub'
}.

Lemma hok_child s0 sub s sub' : susp s0 sub s → einv sub sub' → hok s0 (i_host sub').
Proof.
  intros [_ _ _ [Hi Hf] Hst] (_&_&_&[Hi' Hf']). split; [done|]. destruct (z_is_static (i_ctx s0)) eqn:E.
  - rewrite Hst in Hf' by done. by eapply frame_trans.
  - eapply frame_trans; [done|]. destruct (z_is_static (i_ctx sub)); [by apply frame_weaken|done].
Qed.

Section Resume.
Context (s0 sub s sub' : ZvmInterpreter H) (r : ZvmResult).
Hypothesis Hsu : susp s0 sub s.
Hypothesis Hen : ended sub sub' r.
Abbreviation resumed m := (triple (big s0) (pre s0 (i_gas s0 - 1 - i_gas sub)) m (good s0) (einv s0)).

Lemma t_merge (k : unit → M H (Ctrl H)) :
  triple (big s0) (pre s0 (i_gas s0 - 1)) (k tt) (good s0) (einv s0) → resumed (merge_child r sub' ≫= k).
Proof.
  intros Hk. pose proof (hok_child _ _ _ _ Hsu (en_inv _ _ _ Hen)) as Hh.
  destruct (en_inv _ _ _ Hen) as (Hw & _ & Hg & _). pose proof (wf_ga _ Hw) as [Hg0 _].
  apply t_assoc, t_modify_pre; [intros; by apply zvm_inv_set_host|done|].
  apply t_assoc, t_modify_pre; [intros; by apply zvm_inv_set_warm|done|].
  eapply t_modify; [|exact Hk]. intros s1 [Hi [l Hl]]. pose proof Hi as (Hw1&_&?&_). pose proof (wf_ga _ Hw1) as [].
  split; [|by exists l]. rewrite (en_gas _ _ _ Hen).
  eapply zvm_inv_set_gas; [exact Hi|unfold is_u64, saturating_add64, U64_MAX; lia|unfold saturating_add64, U64_MAX; lia].
Qed.

Lemma ended_data : wf_bytes (zr_return_data r).
Proof. rewrite (en_data _ _ _ Hen). apply (wf_rd sub'), Hen. Qed.

Lemma zvm_resume_call_ok p :
  is_u64 (p_ret_off p) → is_u64 (p_ret_len p) → p_ret_off p < SMALL ∨ big s0 → p_ret_len p < SMALL ∨ big s0 →
  resumed (next (resume_call p r sub')).
Proof.
  intros Ho Hn Hbo Hbn. pose proof ended_data as Hd. unfold next, resume_call. apply t_assoc, t_merge.
  do 2 z_step. apply t_assoc, store_ret_ok; [done..|]. z_go.
Qed.

Lemma zvm_resume_create_ok a :
  wf_addr a → z_is_static (i_ctx s0) = false → resumed (next (resume_create a r sub')).
Proof.
  intros Ha Hst. pose proof ended_data as Hd. unfold next, resume_create. apply t_assoc, t_merge.
  z_step; [z_go|]. cbv zeta. z_step; [z_go|]. z_step; [z_go|]. apply t_assoc, t_gets. intros s1 Hs1. z_step; [z_go|].
  apply Z.ltb_ge in Heqb2. pose proof Hs1 as [(_&_&?&_) _]. z_step. eapply t_modify.
  { intros s2 [Hi [l Hl]]. instantiate (1 := pre s0 (i_gas s0 - 1)). pose proof (wf_ga _ (proj1 (proj1 Hs1))) as [].
    split; [|by exists l]. eapply zvm_inv_set_gas; [exact Hi|unfold is_u64; lia|lia]. }
  do 2 (z_step; apply t_host_do; [intros; rewrite Hst; by first [apply set_code_ok|apply mark_created_ok]|]). z_go.
Qed.
End Resume.

(** ** Every instruction *)

Lemma dispatch_ends s0 op :
  ends op = true → triple (big s0) (pre s0 (i_gas s0)) (dispatch op) (good s0) (einv s0).
Proof.
  intros He. destruct op; try done; try apply zvm_do_return_ok; apply t_ret; intros s Hs; by eapply pre_einv.
Qed.

Lemma dispatch_ok s0 b op :
  is_u64 (i_gas s0) → from_u8 b = Some op →
  triple (big s0) (pre s0 (i_gas s0 - opcode_gas op)) (dispatch op) (good s0) (einv s0).
Proof.
  intros Hg Hop. pose proof (opcode_gas_nonneg op) as Hge. destruct (ends op) eqn:He.
  { eapply t_conseq; [by apply dispatch_ends| |done]. intros s Hs. eapply pre_mono; [exact Hs|]. lia. }
  pose proof (opcode_gas_pos op He) as Hpos. set (g := i_gas s0 - opcode_gas op).
  assert (g ≤ i_gas s0 - 1) as Hg' by lia. clearbody g. clear Hpos Hge.
  destruct op; try discriminate He; cbn [dispatch];
    lazymatch goal with
    | |- triple _ _ (next ?m) _ _ =>
        lazymatch m with
        | exec_exp => by apply exec_exp_ok
        | exec_keccak => by apply exec_keccak_ok
        | exec_calldataload => by apply exec_calldataload_ok
        | exec_copy _ => apply exec_copy_ok; [done|]; intros s Hs; pose proof (pre_ctx _ _ _ Hs) as []; done
        | exec_extcodecopy => by apply exec_extcodecopy_ok
        | exec_returndatacopy => by apply exec_returndatacopy_ok
        | exec_account _ => apply exec_account_ok; [done|]; intros; first [by auto with zbx | by apply code_hash_wf]
        | exec_mcopy => by apply exec_mcopy_ok
        | exec_push _ => apply exec_push_ok; [done|by eapply push_operand]
        | exec_mload => by apply exec_mload_ok
        | exec_mstore => by apply exec_mstore_ok
        | exec_mstore8 => by apply exec_mstore8_ok
        | exec_sload => by apply exec_sload_ok
        | exec_tload => by apply exec_tload_ok
        | exec_sstore => by apply exec_sstore_ok
        | exec_tstore => by apply exec_tstore_ok
        | exec_payid => by apply exec_payid_ok
        | exec_zbxburn => by apply exec_zbxburn_ok
        | exec_zvmlog => by apply exec_zvmlog_ok
        | exec_log _ => by apply zvm_exec_log_ok
        | _ => z_go
        end
    | |- triple _ _ (do_call _) _ _ => by apply zvm_do_call_ok
    | |- triple _ _ (do_create _) _ _ => by apply zvm_do_create_ok
    | |- triple _ _ exec_jump _ _ => by apply exec_jump_ok
    | |- triple _ _ exec_jumpi _ _ => by apply exec_jumpi_ok
    | |- triple _ _ exec_selfdestruct _ _ => by apply exec_selfdestruct_ok
    | |- _ => z_go
    end.
Qed.
End Exec.
End ZvmExec.
