(* ===== verification/ZvmProps.v ===== *)
(** * Properties of the ZVM interpreter

    What [ZvmInterpreter::run] of [crates/zbx-zvm/src/interpreter.rs]
    guarantees over every host that keeps the laws of [ZvmHost]: termination
    within a fuel given by the gas limit, the machine invariants at the end of
    a frame, what a frame may do to the host, and which instructions can abort
    the process. *)

From S2P Require Import Prelude.
From S2P Require Import Monad.
From S2P Require Import U256.
From S2P Require Import EvmBase.
From S2P Require Import EvmHost.
From S2P Require Import EvmInterp.
From S2P Require Import EvmLogic.
From S2P Require Import ZvmBase.
From S2P Require Import ZvmHost.
From S2P Require Import ZvmInterp.
From S2P Require Import ZvmLogic.
From S2P Require Import ZvmExec.

Module ZvmProps.
Import Monad U256 ZvmBase ZvmHost ZvmInterp ZvmLogic ZvmExec.

Section Props.
Context {H : Type} `{HL : ZvmHostLaws H} `{KO : EvmHost.KeccakOk} `{PO : ZvmPrecompilesOk} `{HP : Heap}.
Implicit Types s : ZvmInterpreter H.

(** ** One step *)

Lemma good_advance s0 c s : good s0 c s → match advance c s with (Ok c', s') => good s0 c' s' | _ => False end.
Proof.
  destruct c; cbn; try done. intros Hs. eapply zvm_inv_set_pc; [exact Hs|]. pose proof (wf_pc _ (proj1 Hs)). lia.
Qed.

Lemma zvm_inv_start s0 : wf s0 → hinv (i_host s0) → inv s0 (i_gas s0) s0.
Proof. intros Hw Hi. split; [done|]. split; [done|]. split; [lia|]. split; [done|apply frame_refl]. Qed.

(** What an instruction leaves once the program counter has moved. *)
Lemma then_advance s0 (m : M H (Ctrl H)) P s :
  triple (big s0) P m (good s0) (einv s0) → P s →
  match (c ← m; advance c) s with
  | (Ok c, s') => good s0 c s'
  | (Err _, s') => einv s0 s'
  | (Panic, _) => big s0
  end.
Proof.
  intros Ht Hs. specialize (Ht s Hs). unfold mbind, M_bind. destruct (m s) as [[c|e|] s1]; [|done|done].
  apply good_advance in Ht. by destruct (advance c s1) as [[c'|e|] s2].
Qed.

Lemma zvm_step_ok s0 :
  wf s0 → hinv (i_host s0) →
  match step s0 with
  | (Ok c, s') => good s0 c s'
  | (Err _, s') => einv s0 s'
  | (Panic, _) => big s0
  end.
Proof.
  intros Hw Hi. pose proof (zvm_inv_start s0 Hw Hi) as Hs. unfold step.
  destruct (z_bytecode (i_ctx s0) !! _) as [b|]; [|done].
  destruct (from_u8 b) as [op|] eqn:Eop; [|done]. pose proof (opcode_gas_nonneg op) as Hc.
  pose proof (wf_ga _ Hw) as Hu. destruct (Z.ltb_spec (i_gas s0) (opcode_gas op)); [done|].
  eapply then_advance; [by eapply dispatch_ok|]. split; [|by exists []].
  eapply zvm_inv_set_gas; [exact Hs|unfold is_u64 in *; lia|lia].
Qed.

(** ** Composing steps *)

Lemma zvm_inv_trans s0 g s1 s2 : inv s0 g s1 → einv s1 s2 → einv s0 s2.
Proof.
  intros (Hw1 & [Hc1 Hd1] & Hg1 & [Hi1 Hf1]) (Hw2 & [Hc2 Hd2] & Hg2 & [Hi2 Hf2]).
  split; [done|]. split; [split; congruence|]. split; [lia|]. split; [done|].
  rewrite Hc1 in Hf2. by eapply frame_trans.
Qed.

Lemma prepare_wf s : wf s → wf (prepare s).
Proof. intros []. unfold prepare. case_match; by constructor. Qed.
Lemma prepare_same s :
  i_ctx (prepare s) = i_ctx s ∧ i_gas (prepare s) = i_gas s ∧ i_host (prepare s) = i_host s ∧ i_depth (prepare s) = i_depth s.
Proof. unfold prepare. by case_match. Qed.
Lemma prepare_einv s s' : einv (prepare s) s' → einv s s'.
Proof.
  unfold einv, inv, hok. destruct (prepare_same s) as (-> & -> & -> & ->). done.
Qed.

(** A child that has run, and the parent after it. *)
Lemma finish_child_eq (m : M H unit) s : finish_child (m s) = (c ← next m; advance c) s.
Proof. unfold next, mbind, M_bind. by destruct (m s) as [[[]|e|] s1]. Qed.

Definition next_ok s0 (r : outcome ZvmError (Ctrl H) * ZvmInterpreter H) : Prop :=
  match r with
  | (Ok (Halt _), s') => einv s0 s'
  | (Ok Next, s') | (Ok Jumped, s') => inv s0 (i_gas s0 - 1) s'
  | (Ok _, _) => False
  | (Err _, s') => einv s0 s'
  | (Panic, _) => True
  end.

Lemma finish_next s0 (m : M H unit) P s :
  triple (big s0) P (next m) (good s0) (einv s0) → P s → next_ok s0 (finish_child (m s)).
Proof.
  intros Ht Hs. specialize (Ht s Hs). unfold next, mbind, M_bind in Ht.
  destruct (m s) as [[[]|e|] s1]; cbn in *; [|done|done].
  pose proof (good_advance s0 Next s1 Ht) as Ha. exact Ha.
Qed.

Lemma zvm_finish_call_ok s0 sub p s sub' r :
  good s0 (EnterCall sub p) s → ended sub sub' r → next_ok s0 (finish_child (resume_call p r sub' s)).
Proof. intros (Hs & ? & ? & ? & ?) He. eapply finish_next; [by eapply zvm_resume_call_ok|apply Hs]. Qed.

Lemma zvm_finish_create_ok s0 sub a s sub' r :
  good s0 (EnterCreate sub a) s → ended sub sub' r → next_ok s0 (finish_child (resume_create a r sub' s)).
Proof. intros (Hs & ? & ?) He. eapply finish_next; [by eapply zvm_resume_create_ok|apply Hs]. Qed.

Lemma finished_ended sub sub' st : einv (prepare sub) sub' → ended sub sub' (finish st sub').
Proof. intros He. split; [by apply prepare_einv|done|done]. Qed.

(** [loop] unfolded once. *)
Definition continue (n : nat) (r : outcome ZvmError (Ctrl H) * ZvmInterpreter H) : option RunResult :=
  match r with
  | (Ok (Halt status), s') => Some (Finished (finish status s') s')
  | (Ok _, s') => loop n s'
  | (Err e, s') => Some (Finished (finish (ZError e) s') s')
  | (Panic, _) => Some Aborted
  end.

Lemma loop_S n s :
  loop (S n) s =
  match step s with
  | (Ok (EnterCall sub p), s') =>
      match loop n (prepare sub) with
      | Some (Finished r sub') => continue n (finish_child (resume_call p r sub' s'))
      | x => x
      end
  | (Ok (EnterCreate sub a), s') =>
      match loop n (prepare sub) with
      | Some (Finished r sub') => continue n (finish_child (resume_create a r sub' s'))
      | x => x
      end
  | r => continue n r
  end.
Proof. reflexivity. Qed.

Lemma susp_child s0 sub s : susp s0 sub s → wf (prepare sub) ∧ hinv (i_host (prepare sub)) ∧ 0 ≤ i_gas (prepare sub) < i_gas s0.
Proof.
  intros [Hp Hw _ [Hi _] _]. destruct (prepare_same sub) as (_ & -> & -> & _). pose proof (wf_ga _ Hw) as [].
  split; [by apply prepare_wf|]. split; [done|]. destruct Hp as [(Hw'&_&?&_) _]. pose proof (wf_ga _ Hw') as []. lia.
Qed.

(** Whatever a frame does, its final state is acceptable for its initial one,
    and its result is that of [finish]. *)
Lemma loop_einv n s0 r s' :
  wf s0 → hinv (i_host s0) → loop n s0 = Some (Finished r s') → einv s0 s' ∧ ∃ st, r = finish st s'.
Proof.
  revert s0 r s'. induction n as [|n IH]; [done|]. intros s0 r s' Hw Hi.
  assert (Hcont : ∀ x, next_ok s0 x → continue n x = Some (Finished r s') → einv s0 s' ∧ ∃ st, r = finish st s').
  { intros [[c|e|] s1] Hn; cbn; [|intros [= <- <-]; eauto|done].
    destruct c; cbn in Hn; try done; [| |intros [= <- <-]; eauto].
    all: intros Hr; apply IH in Hr as [He Hf]; [|apply Hn|apply Hn]; split; [by eapply zvm_inv_trans|done]. }
  rewrite loop_S. pose proof (zvm_step_ok s0 Hw Hi) as Hst.
  destruct (step s0) as [[c|e|] s1]; [|by apply Hcont|done].
  destruct c as [| |st|sub p|sub a]; try by apply Hcont.
  - destruct (loop n (prepare sub)) as [[r1 sub'|]|] eqn:Hsub; [|done|done]. intros Hr.
    destruct (susp_child _ _ _ (proj1 Hst)) as (Hw1 & Hi1 & _). destruct (IH _ _ _ Hw1 Hi1 Hsub) as [He [st ->]].
    eapply Hcont; [|exact Hr]. eapply zvm_finish_call_ok; [exact Hst|by apply finished_ended].
  - destruct (loop n (prepare sub)) as [[r1 sub'|]|] eqn:Hsub; [|done|done]. intros Hr.
    destruct (susp_child _ _ _ (proj1 Hst)) as (Hw1 & Hi1 & _). destruct (IH _ _ _ Hw1 Hi1 Hsub) as [He [st ->]].
    eapply Hcont; [|exact Hr]. eapply zvm_finish_create_ok; [exact Hst|by apply finished_ended].
Qed.

(** ** Termination: every step that goes on and every child has less gas *)

Lemma loop_terminates n s0 :
  wf s0 → hinv (i_host s0) → i_gas s0 < Z.of_nat n → ∃ r, loop n s0 = Some r.
Proof.
  revert s0. induction n as [|n IH]; intros s0 Hw Hi Hn; [pose proof (wf_ga _ Hw) as []; lia|].
  assert (Hcont : ∀ x, next_ok s0 x → ∃ r, continue n x = Some r).
  { intros [[c|e|] s1] Hx; cbn; [|eauto|eauto]. destruct c; cbn in Hx; try done; [| |eauto].
    all: destruct Hx as (Hw1 & _ & ? & [Hi1 _]); apply IH; [done|done|lia]. }
  rewrite loop_S. pose proof (zvm_step_ok s0 Hw Hi) as Hst.
  destruct (step s0) as [[c|e|] s1]; [|by apply Hcont|cbn; eauto].
  destruct c as [| |st|sub p|sub a]; try by apply Hcont.
  all: destruct (susp_child _ _ _ (proj1 Hst)) as (Hw1 & Hi1 & Hg1);
    destruct (IH (prepare sub)) as [[r1 sub'|] Hsub]; [done|done|lia| |]; rewrite Hsub; [|eauto];
    destruct (loop_einv _ _ _ _ Hw1 Hi1 Hsub) as [He [st ->]].
  - apply Hcont. eapply zvm_finish_call_ok; [exact Hst|by apply finished_ended].
  - apply Hcont. eapply zvm_finish_create_ok; [exact Hst|by apply finished_ended].
Qed.

(** More fuel does not change the result. *)
Lemma zvm_continue_mono n m x r :
  (∀ s r, loop n s = Some r → loop m s = Some r) → continue n x = Some r → continue m x = Some r.
Proof. intros Hr. destruct x as [[c|e|] s1]; cbn; try done. destruct c; cbn; auto. Qed.

Lemma loop_mono n m s r : loop n s = Some r → (n ≤ m)%nat → loop m s = Some r.
Proof.
  revert m s r. induction n as [|n IH]; [done|]. intros [|m] s r Hr Hle; [lia|].
  assert (Hcont : ∀ x r, continue n x = Some r → continue m x = Some r)
    by (intros; apply zvm_continue_mono with n; [intros; apply IH; [done|lia] | done]).
  rewrite loop_S in Hr. rewrite loop_S. destruct (step s) as [[c|e|] s1]; try by apply Hcont.
  destruct c as [| |st|sub p|sub p]; try by apply Hcont.
  all: destruct (loop n (prepare sub)) as [x|] eqn:Hsub; [|done]; erewrite IH by (done || lia);
    destruct x; [by apply Hcont | done].
Qed.

Lemma zvm_new_wf c (h : H) : wf_ctx c → wf (new_interp c h).
Proof.
  intros Hc. constructor; cbn; try done; try lia; try constructor; try apply Hc.
  - constructor.
  - unfold MAX_STACK_DEPTH. cbn. lia.
Qed.

Lemma zvm_run_einv n c (h : H) r s' :
  wf_ctx c → hinv h → run n (new_interp c h) = Some (Finished r s') → einv (new_interp c h) s' ∧ ∃ st, r = finish st s'.
Proof.
  intros Hc Hh Hr. apply loop_einv in Hr as [He Hf].
  - split; [by apply prepare_einv|done].
  - by apply prepare_wf, zvm_new_wf.
  - by destruct (prepare_same (new_interp c h)) as (_ & _ & -> & _).
Qed.

(** ** Claims *)

(** C20: every ZVM execution ends, and the gas limit bounds it: with more fuel
    than the gas limit, [run] returns on any code, context and host, calling
    and creating contracts at will (every instruction that goes on costs at
    least 1 gas, and a child gets less gas than its parent has). *)
Theorem zvm_terminates c (h : H) n :
  wf_ctx c → hinv h → z_gas_limit c < Z.of_nat n → ∃ r, run n (new_interp c h) = Some r.
Proof.
  intros Hc Hh Hn. apply loop_terminates.
  - by apply prepare_wf, zvm_new_wf.
  - by destruct (prepare_same (new_interp c h)) as (_ & _ & -> & _).
  - by destruct (prepare_same (new_interp c h)) as (_ & -> & _ & _).
Qed.

(** The machine invariants at the end of a ZVM frame, on every path
    (return, revert, error): at most 1024 stack items, all of 32 bytes, bytes
    in memory and return data, and the gas reported as used and as remaining
    are not negative and add up to the limit. *)
Theorem zvm_invariants c (h : H) n r s' :
  wf_ctx c → hinv h → run n (new_interp c h) = Some (Finished r s') →
  (length (i_stack s') ≤ 1024)%nat ∧ Forall (fun w => length w = 32%nat) (i_stack s') ∧
  wf_bytes (i_memory s') ∧ wf_bytes (zr_return_data r) ∧
  0 ≤ zr_gas_remaining r ∧ 0 ≤ zr_gas_used r ∧ zr_gas_used r + zr_gas_remaining r = z_gas_limit c.
Proof.
  intros Hc Hh Hr. apply zvm_run_einv in Hr as [(Hw & [Hctx _] & Hg & _) [st ->]]; [|done|done].
  destruct Hw. destruct wf_st0 as [Hs Hl]. destruct wf_ga0. cbn in *. unfold saturating_sub. rewrite Hctx. cbn.
  split_and!; try done; try lia. eapply Forall_impl; [exact Hs|]. by intros ? [].
Qed.

(** C38: an instruction of the ZVM can abort the process only if an operand is
    huge. On a system whose allocator serves vectors of up to [heap_limit]
    bytes, and with precompiled contracts that do not panic, a step that aborts
    has on its stack a word whose low 64 bits are at least 2^61 or at least a
    quarter of [heap_limit] less 32: below that every slice, copy and vector
    length is in range. *)
Theorem zvm_abort_operand s s1 :
  wf s → hinv (i_host s) → step s = (Panic, s1) →
  ∃ w, w ∈ i_stack s ∧ Z.min (2 ^ 61) (heap_limit / 4 - 32) ≤ word_u64 w.
Proof. intros Hw Hi Hst. pose proof (zvm_step_ok s Hw Hi) as Hs. by rewrite Hst in Hs. Qed.
End Props.
End ZvmProps.
