(* ===== verification/ZvmChain.v ===== *)
(** * The ZVM on the chain's state

    [ProductionZvmHost] keeps the laws of [ZvmHostLaws]: in a static frame the
    host does not change at all, and in any other frame no operation of the
    host creates money, lowers a nonce, drops a log or changes the block
    environment. The theorems of [ZvmProps] instantiated with it say what a
    ZVM transaction can do to the chain. *)

From S2P Require Import Prelude.
From S2P Require Import U256.
From S2P Require Import EvmBase.
From S2P Require Import EvmHost.
From S2P Require Import EvmInterp.
From S2P Require Import EvmLogic.
From S2P Require Import State.
From S2P Require Import Supply.
From S2P Require Import Block.
From S2P Require Import Receipts.
From S2P Require Import ZvmBase.
From S2P Require Import ZvmHost.
From S2P Require Import ZvmInterp.
From S2P Require Import ZvmLogic.
From S2P Require Import ZvmExec.
From S2P Require Import ZvmProps.

Module ZvmChain.
Import U256 State.State Supply ZvmBase ZvmHost ZvmInterp ZvmLogic.

#[local] Set Warnings "-clear-no-such-hyp".
Implicit Types v : View.

(** ** The invariant and the frame of the host *)

Record view_ok (v : View) : Prop := {
  vo_sound : sound v;
  vo_hash : map_Forall (fun _ s => wf_word (acct_code_hash s)) (view_visible v);
  vo_storage : map_Forall (fun _ m => map_Forall (fun _ w => wf_word w) m) (storage (diffs v));
  vo_codes : map_Forall (fun _ c => wf_bytes c) (codes v);
  vo_dead : ∀ a, a ∈ deleted (diffs v) ↔ a ∈ sv_to_delete v
}.

Record env_ok (e : ZvmBlockEnv) : Prop := {
  eo_coinbase : wf_addr (e_coinbase e);
  eo_rand : wf_word (e_prevrandao e);
  eo_blobs : Forall wf_word (e_blob_hashes e)
}.

Record host_ok (h : ProductionZvmHost) : Prop := {
  ho_view : view_ok (ph_state h);
  ho_env : env_ok (ph_env h);
  ho_transient : map_Forall (fun _ w => wf_word w) (ph_transient h)
}.

(** What any sequence of host operations does to the view. *)
Record grown (v v' : View) : Prop := {
  gr_supply : view_supply v' ≤ view_supply v;
  gr_nonces : ∀ a, non v a ≤ non v' a;
  gr_logs : ∃ l, diff_logs (diffs v') = diff_logs (diffs v) ++ l;
  gr_base : base v' = base v;
  gr_dead : sv_to_delete v' ⊆ sv_to_delete v
}.

Definition prod_frame (static : bool) (h h' : ProductionZvmHost) : Prop :=
  if static then h' = h else grown (ph_state h) (ph_state h') ∧ ph_env h' = ph_env h.

Lemma grown_refl v : grown v v.
Proof. split; [lia|intros; lia|exists []; by rewrite app_nil_r|done|done]. Qed.

Lemma grown_trans v1 v2 v3 : grown v1 v2 → grown v2 v3 → grown v1 v3.
Proof.
  intros [S1 N1 [l1 L1] B1 D1] [S2 N2 [l2 L2] B2 D2]. split; [lia| |exists (l1 ++ l2); by rewrite L2, L1, app_assoc|congruence|set_solver].
  intros a. specialize (N1 a). specialize (N2 a). lia.
Qed.

(** ** Reads *)

Lemma hash_wf v a : view_ok v → wf_word (acct_code_hash (get_account v a)).
Proof.
  intros Hv. rewrite view_get_visible. unfold w_get. destruct (view_visible v !! a) as [x|] eqn:E; [by apply (vo_hash _ Hv a)|].
  split; [done|]. cbn. repeat constructor; unfold is_u8; lia.
Qed.

Lemma storage_wf v a k : view_ok v → wf_word (get_storage v a k).
Proof.
  intros Hv. unfold get_storage. destruct (storage (diffs v) !! a) as [m|] eqn:E; cbn; [|apply wf_zero].
  destruct (m !! k) as [w|] eqn:E'; cbn; [|apply wf_zero]. by eapply (vo_storage _ Hv a m E).
Qed.

Lemma view_code_wf v a : view_ok v → wf_bytes (get_code v a).
Proof.
  intros Hv. unfold get_code. case_match; [constructor|]. destruct (codes v !! _) eqn:E; cbn; [|constructor].
  by apply (vo_codes _ Hv _ _ E).
Qed.

(** ** Writes *)

Lemma set_account_parts a s (v : View) :
  storage (diffs (set_account a s v)) = storage (diffs v) ∧ codes (set_account a s v) = codes v ∧
  base (set_account a s v) = base v ∧ diff_logs (diffs (set_account a s v)) = diff_logs (diffs v) ∧
  sv_to_delete (set_account a s v) ⊆ sv_to_delete v.
Proof. unfold set_account. case_bool_decide; cbn; split_and!; set_solver. Qed.

Lemma guarded_hash_wf p s :
  wf_word (acct_code_hash p) → wf_word (acct_code_hash s) → wf_word (acct_code_hash (guarded p s)).
Proof. intros. unfold guarded. by repeat case_if. Qed.

Lemma set_account_ok a s (v : View) :
  view_ok v → acct_ok s → wf_word (acct_code_hash s) → view_ok (set_account a s v).
Proof.
  intros Hv Hs Hh. destruct (set_account_parts a s v) as (E1 & E2 & _). pose proof Hs as [_ [Hn _]].
  split; rewrite ?E1, ?E2; try apply Hv; [by apply set_account_sound; [apply Hv|]| |].
  - rewrite set_account_visible by done. apply map_Forall_insert_2; [|apply Hv].
    apply guarded_hash_wf; [by apply hash_wf|done].
  - intros b. pose proof (vo_dead _ Hv b). unfold set_account. case_bool_decide; cbn; [|done].
    rewrite list_elem_of_filter. set_solver.
Qed.

Lemma set_account_grown a s (v : View) :
  acct_ok s → acct_balance s ≤ bal v a → grown v (set_account a s v).
Proof.
  intros [_ [Hn _]] Hb. destruct (set_account_parts a s v) as (_ & _ & E3 & E4 & E5).
  split; [rewrite set_account_supply by done; lia|intros; by apply set_account_non| |done|done].
  exists []. by rewrite E4, app_nil_r.
Qed.

(** The account as the host reads it, with another balance. *)
Lemma balance_le v a : sound v → 0 ≤ balance_u128 (get_account v a) ≤ bal v a.
Proof. intros Hs. apply saturate_le. apply (sound_bal v a Hs). Qed.

Lemma set_balance_ok v a x : view_ok v → 0 ≤ x →
  acct_ok (set_balance_u128 x (get_account v a)) ∧ wf_word (acct_code_hash (set_balance_u128 x (get_account v a))).
Proof.
  intros Hv Hx. destruct (sound_get v a (vo_sound _ Hv)) as [_ Hn]. split; [by split|]. by apply hash_wf.
Qed.

(** Debit, then credit: what is credited is at most what was debited. *)
Lemma move_ok v from to x :
  view_ok v → 0 ≤ x ≤ balance_u128 (get_account v from) →
  let v1 := set_account from (set_balance_u128 (balance_u128 (get_account v from) - x) (get_account v from)) v in
  let v2 := set_account to (set_balance_u128 (saturating_add128 (balance_u128 (get_account v1 to)) x) (get_account v1 to)) v1 in
  view_ok v2 ∧ grown v v2.
Proof.
  intros Hv Hx v1 v2. pose proof (balance_le v from (vo_sound _ Hv)) as Hb.
  destruct (set_balance_ok v from (balance_u128 (get_account v from) - x) Hv ltac:(lia)) as [Hs Hh].
  assert (view_ok v1) as Hv1 by (by apply set_account_ok).
  pose proof (balance_le v1 to (vo_sound _ Hv1)) as Hb1.
  destruct (set_balance_ok v1 to (saturating_add128 (balance_u128 (get_account v1 to)) x) Hv1) as [Hs1 Hh1];
    [unfold saturating_add128, U128_MAX; lia|].
  split; [by apply set_account_ok|].
  destruct (set_account_grown from _ v Hs) as [S1 N1 [l1 L1] B1 D1]; [cbn; lia|]. fold v1 in S1, N1, L1, B1, D1.
  destruct (set_account_parts to (set_balance_u128 (saturating_add128 (balance_u128 (get_account v1 to)) x) (get_account v1 to)) v1)
    as (_ & _ & E3 & E4 & E5). fold v2 in E3, E4, E5. split.
  - unfold v2. rewrite set_account_supply by apply Hs1. unfold v1 at 1. rewrite set_account_supply by apply Hs. cbn.
    unfold saturating_add128, U128_MAX. lia.
  - intros b. pose proof (N1 b). unfold v2. pose proof (set_account_non v1 to _ b (proj1 (proj2 Hs1))). lia.
  - exists l1. by rewrite E4, L1.
  - congruence.
  - set_solver.
Qed.

Lemma with_state_frame h v : host_ok h → view_ok v → grown (ph_state h) v →
  host_ok (with_state v h) ∧ prod_frame false h (with_state v h).
Proof. intros [_ He Ht] Hv Hg. by split. Qed.

Lemma host_transfer_ok from to x h : host_ok h → 0 ≤ x →
  host_ok (host_transfer from to x h).2 ∧ prod_frame false h (host_transfer from to x h).2.
Proof.
  intros Hh Hx. unfold host_transfer, acct. case_if; cbn; [split; [done|split; [apply grown_refl|done]]|].
  destruct (move_ok (ph_state h) from to x (ho_view _ Hh)) as [Hv Hg]; [lia|].
  exact (with_state_frame h _ Hh Hv Hg).
Qed.

Section Laws.
Context `{KO : EvmHost.KeccakOk}.

Lemma resolved_addr_wf (w : word) a : wf_word w → Some (take 20 (drop 12 w)) = Some a → wf_addr a.
Proof.
  intros [Hl Hw] [= <-]. split; [rewrite length_take, length_drop; lia|]. by apply wf_bytes_take, wf_bytes_drop.
Qed.

Lemma put_acct_ok a s h :
  host_ok h → acct_ok s → wf_word (acct_code_hash s) → acct_balance s ≤ bal (ph_state h) a →
  host_ok (put_acct a s h) ∧ prod_frame false h (put_acct a s h).
Proof.
  intros Hh Hs Hw Hb. apply with_state_frame; [done| |by apply set_account_grown]. apply set_account_ok; [apply Hh|done|done].
Qed.

#[export, program] Instance production_laws : ZvmHostLaws ProductionZvmHost := {|
  hinv := host_ok;
  frame := prod_frame
|}.
Next Obligation. intros [] h; [done|]. split; [apply grown_refl|done]. Qed.
Next Obligation.
  intros [] h1 h2 h3; [by intros -> ->|]. intros [G1 E1] [G2 E2]. split; [by eapply grown_trans|congruence].
Qed.
Next Obligation. intros h h' ->. split; [apply grown_refl|done]. Qed.
Next Obligation. intros h a k Hh. apply storage_wf, Hh. Qed.
Next Obligation.
  intros h a k Hh. cbn. destruct (ph_transient h !! _) eqn:E; cbn; [by apply (ho_transient _ Hh _ _ E)|apply wf_zero].
Qed.
Next Obligation. intros h a Hh. apply view_code_wf, Hh. Qed.
Next Obligation. intros h a Hh. apply hash_wf, Hh. Qed.
Next Obligation. intros. apply wf_zero. Qed.
Next Obligation.
  intros h n Hh. cbn. destruct (e_blob_hashes _ !! _) eqn:E; cbn; [|apply wf_zero].
  eapply Forall_lookup_1; [apply (eo_blobs _ (ho_env _ Hh))|exact E].
Qed.
Next Obligation. intros h Hh. apply Hh. Qed.
Next Obligation. intros h Hh. apply Hh. Qed.
Next Obligation.
  intros h p a Hh. cbn. unfold host_resolve, host_resolve_bytes. case_match; [done|]. case_match; [done|].
  apply resolved_addr_wf, storage_wf, Hh.
Qed.
Next Obligation.
  intros h p a Hh. cbn. unfold host_resolve_bytes. case_match; [done|]. case_match; [done|].
  apply resolved_addr_wf, storage_wf, Hh.
Qed.
Next Obligation.
  intros h a n Hh. cbn. unfold host_reverse. case_match; [done|]. intros [= <-]. apply wf_bytes_take, storage_wf, Hh.
Qed.
Next Obligation.
  intros a k v h Hh Hw. cbn. apply with_state_frame; [done| |].
  - destruct (ho_view _ Hh) as [S Ha St C D]. split; [done|done| |done|done]. cbn. apply map_Forall_insert_2; [|done].
    apply map_Forall_insert_2; [done|]. destruct (storage _ !! a) as [m|] eqn:E; cbn; [by apply (St a)|apply map_Forall_empty].
  - split; [apply Z.le_refl|intros; apply Z.le_refl|exists []; by rewrite app_nil_r|done|done].
Qed.
Next Obligation.
  intros a k v h [Hv He Ht] Hw. cbn. split; [split; cbn; [done|done|by apply map_Forall_insert_2]|].
  split; [apply grown_refl|done].
Qed.
Next Obligation. intros f t x h. cbn. unfold host_transfer. by case_if. Qed.
Next Obligation. intros f t x h Hh Hx. by apply host_transfer_ok. Qed.
Next Obligation.
  intros a h Hh. cbn. destruct (sound_get (ph_state h) a (vo_sound _ (ho_view _ Hh))) as [Hb Hn].
  apply put_acct_ok; [done| |apply hash_wf, Hh|apply Z.le_refl].
  split; [done|]. cbn. unfold is_u64, saturating_add64, U64_MAX, acct in *. lia.
Qed.
Next Obligation.
  intros a c h Hh Hc. cbn. unfold host_set_code.
  set (h1 := with_state (view_seed_code _ _ _) h).
  assert (host_ok h1) as Hh1.
  { destruct Hh as [[S Ha St C D] He Ht]. split; [split; [done|done|done|by apply map_Forall_insert_2|done]|done|done]. }
  destruct (sound_get (ph_state h1) a (vo_sound _ (ho_view _ Hh1))) as [Hb Hn].
  destruct (put_acct_ok a (with_vm Zvm (with_code_hash (EvmHost.keccak256 c) (acct h1 a))) h1) as [Ho [Hg He]];
    [done|by split|apply EvmHost.keccak_wf|apply Z.le_refl|].
  split; [done|]. split; [|done]. destruct Hg as [G1 G2 G3 G4 G5]. by split.
Qed.
Next Obligation. intros a x h. cbn. unfold host_burn. by case_if. Qed.
Next Obligation.
  intros a x h Hh Hx. cbn. unfold host_burn. case_if; cbn; [split; [done|split; [apply grown_refl|done]]|].
  pose proof (balance_le (ph_state h) a (vo_sound _ (ho_view _ Hh))). unfold acct in *.
  destruct (set_balance_ok (ph_state h) a (balance_u128 (get_account (ph_state h) a) - x) (ho_view _ Hh) ltac:(lia)).
  apply put_acct_ok; [done|done|done|cbn; lia].
Qed.
Next Obligation. intros b k v h Hh. cbn. split; [done|]. destruct b; [done|]. split; [apply grown_refl|done]. Qed.
Next Obligation. intros a h [Hv He Ht]. split; [by split|]. split; [apply grown_refl|done]. Qed.
Next Obligation.
  intros a b h Hh. cbn. unfold host_selfdestruct. cbv zeta.
  set (h1 := if 0 <? host_balance h a then _ else h).
  assert (host_ok h1 ∧ prod_frame false h h1) as [[Hv He Ht] [Hg Hf]].
  { unfold h1. case_if; [apply host_transfer_ok; [done|lia]|split; [done|split; [apply grown_refl|done]]]. }
  split; [by split|by split].
Qed.
Next Obligation.
  intros a t d h Hh. cbn. unfold host_emit_log. apply with_state_frame; [done| |].
  - destruct (ho_view _ Hh) as [S Ha St C D]. by split.
  - split; [done|done|by eexists|done|done].
Qed.

(** ** Claims *)

Context `{PO : ZvmPrecompilesOk} `{HP : Heap}.

(** What a run leaves of the host. *)
Lemma run_frame n c (h : ProductionZvmHost) r s' :
  wf_ctx c → host_ok h → run n (new_interp c h) = Some (Finished r s') →
  host_ok (i_host s') ∧ prod_frame (z_is_static c) h (i_host s').
Proof. intros Hc Hh Hr. by apply ZvmProps.zvm_run_einv in Hr as [(_ & _ & _ & Hk) _]. Qed.

(** C19: a static ZVM frame does not touch the chain: whatever it executes and
    whatever contracts it calls, the host it leaves (accounts, storage, code,
    logs, transient storage, created contracts, destruct queue) is the one it
    was given. *)
Theorem zvm_static_frame n c (h : ProductionZvmHost) r s' :
  wf_ctx c → host_ok h → z_is_static c = true → run n (new_interp c h) = Some (Finished r s') → i_host s' = h.
Proof. intros Hc Hh Hst Hr. destruct (run_frame n c h r s' Hc Hh Hr) as [_ Hf]. by rewrite Hst in Hf. Qed.

(** C16: a ZVM execution never creates money: the sum of all balances does not
    grow, no account's nonce goes down, the logs of earlier transactions stay,
    and the block environment is unchanged, whatever the code does and however
    it ends. *)
Theorem zvm_never_mints n c (h : ProductionZvmHost) r s' :
  wf_ctx c → host_ok h → run n (new_interp c h) = Some (Finished r s') →
  view_supply (ph_state (i_host s')) ≤ view_supply (ph_state h) ∧
  (∀ a, non (ph_state h) a ≤ non (ph_state (i_host s')) a) ∧
  (∃ l, diff_logs (diffs (ph_state (i_host s'))) = diff_logs (diffs (ph_state h)) ++ l) ∧
  ph_env (i_host s') = ph_env h.
Proof.
  intros Hc Hh Hr. destruct (run_frame n c h r s' Hc Hh Hr) as [_ Hf].
  destruct (z_is_static c); [|destruct Hf as [[] ?]; by split_and!].
  cbn in Hf. subst h. destruct (grown_refl (ph_state (i_host s'))). by split_and!.
Qed.
End Laws.

(** ** Concrete runs *)

Module Samples.
#[local] Instance hash : Keccak := fun b => to_be 32 (be_val b * 31 + 7).
#[local] Instance hash_ok : EvmHost.KeccakOk.
Proof. intros b. apply wf_to_word. Qed.
(** A terabyte. *)
#[local] Instance heap : Heap := 2 ^ 40.
#[local] Instance precompiles : ZvmPrecompiles := {|
  call_precompile _ i g := if g <? 15 then Err OutOfGas else Ok (repeat 1 3, 15);
  price_oracle_with _ _ _ := Err OutOfGas;
  zusd_vault_with _ _ _ _ := Err OutOfGas
|}.
#[local] Instance precompiles_ok : ZvmPrecompilesOk.
Proof.
  constructor; intros; cbn; try done. unfold pre_ok. destruct (_ <? _); [done|].
  split; [repeat constructor; unfold is_u8; lia|unfold is_u64; lia].
Qed.

Definition adr (i : Z) : address := replicate 19 0 ++ [i].
Definition ctx0 (code : bytes) (static : bool) : ZvmContext :=
  mkZvmCtx code [1; 2; 3] (adr 20) (adr 21) 0 100000 1 2 5 1 8989 static None 0 (adr 20).

Ltac bytes_tac := repeat constructor; unfold is_u8; lia.

Lemma zvm_wf_adr i : is_u8 i → wf_addr (adr i).
Proof. intros Hi. split; [done|]. apply Forall_app_2; [apply EvmBase.wf_replicate0|by constructor]. Qed.

Lemma zvm_wf_ctx0 code b : wf_bytes code → wf_ctx (ctx0 code b).
Proof.
  intros Hc. constructor; cbn; try done; try (apply zvm_wf_adr; unfold is_u8; lia); try (unfold is_u64; lia); bytes_tac.
Qed.

(** A contract at address 30 that stores 5 in slot 1 and reverts, called by
    the contract at address 21, which holds 1000. *)
Definition reverting : bytes := [0x60; 5; 0x60; 1; 0x55; 0x60; 0; 0x60; 0; 0xFD].
Definition view0 : View :=
  view_seed_code (replicate 32 7) reverting
    (view_seed_account (adr 30) (mkAcct 1 0 (replicate 32 7) EMPTY_STORAGE_ROOT Zvm)
       (view_seed_account (adr 21) (mkAcct 1 1000 (replicate 32 8) EMPTY_STORAGE_ROOT Zvm) view_new)).
Definition env0 : ZvmBlockEnv := mkEnv (adr 22) 30000000 zero 5 [].
Definition host0 : ProductionZvmHost := host_new view0 env0 ∅.

Lemma host0_ok : host_ok host0.
Proof.
  assert (view_visible view0 = {[adr 30 := mkAcct 1 0 (replicate 32 7) EMPTY_STORAGE_ROOT Zvm;
                                 adr 21 := mkAcct 1 1000 (replicate 32 8) EMPTY_STORAGE_ROOT Zvm]}) as E
    by (vm_compute; reflexivity).
  split; [split| |apply map_Forall_empty].
  - unfold sound. cbn [host0 host_new ph_state]. rewrite E. apply map_Forall_insert_2; [|apply map_Forall_singleton];
      (split; [cbn; lia|unfold is_u64; cbn; lia]).
  - cbn [host0 host_new ph_state]. rewrite E.
    apply map_Forall_insert_2; [|apply map_Forall_singleton]; (split; [done|bytes_tac]).
  - apply map_Forall_empty.
  - apply map_Forall_insert_2; [bytes_tac|apply map_Forall_empty].
  - intros a. change (deleted (diffs (ph_state host0))) with (@nil address). change (sv_to_delete (ph_state host0)) with (∅ : gset address).
    clear. set_solver.
  - split; [apply zvm_wf_adr; unfold is_u8; lia|apply wf_zero|constructor].
Qed.

(** The final interpreter and result of a run, where there are any. *)
Definition final (code : bytes) (static : bool) (n : nat) : ZvmInterpreter ProductionZvmHost :=
  match run n (new_interp (ctx0 code static) host0) with Some (Finished _ s) => s | _ => new_interp (ctx0 code static) host0 end.
Definition result (code : bytes) (static : bool) (n : nat) : ZvmResult :=
  match run n (new_interp (ctx0 code static) host0) with
  | Some (Finished r _) => r
  | _ => finish ZSuccess (new_interp (ctx0 code static) host0)
  end.

(** CALL with value 7 and STATICCALL of the contract at address 30. *)
Definition call_code : bytes :=
  [0x60; 0; 0x60; 0; 0x60; 0; 0x60; 0; 0x60; 7; 0x60; 30; 0x61; 0x7F; 0xFF; 0xF1].
Definition static_code : bytes := [0x60; 0; 0x60; 0; 0x60; 0; 0x60; 0; 0x60; 30; 0x61; 0x7F; 0xFF; 0xFA].
Definition loop_code : bytes := [0x5B; 0x60; 0; 0x56].

Lemma zvm_terminates_witness : ∃ r, run (Z.to_nat 100001) (new_interp (ctx0 loop_code false) host0) = Some r.
Proof.
  apply (ZvmProps.zvm_terminates (ctx0 loop_code false) host0 (Z.to_nat 100001));
    [apply zvm_wf_ctx0; bytes_tac | apply host0_ok | rewrite Z2Nat.id by lia; cbn; lia].
Defined.

Lemma zvm_invariants_witness :
  (length (i_stack (final call_code false 40)) ≤ 1024)%nat ∧
  zr_gas_used (result call_code false 40) + zr_gas_remaining (result call_code false 40) = 100000.
Proof.
  destruct (ZvmProps.zvm_invariants (ctx0 call_code false) host0 40 (result call_code false 40) (final call_code false 40))
    as (Hl & _ & _ & _ & _ & _ & Hg); [apply zvm_wf_ctx0; bytes_tac | apply host0_ok | vm_compute; reflexivity |].
  split; [exact Hl|exact Hg].
Defined.

Lemma zvm_static_frame_witness : i_host (final static_code true 40) = host0.
Proof.
  apply (zvm_static_frame 40 (ctx0 static_code true) host0 (result static_code true 40) (final static_code true 40));
    [apply zvm_wf_ctx0; bytes_tac | apply host0_ok | reflexivity | vm_compute; reflexivity].
Defined.

Lemma zvm_never_mints_witness : view_supply (ph_state (i_host (final call_code false 40))) ≤ view_supply view0.
Proof.
  destruct (zvm_never_mints 40 (ctx0 call_code false) host0 (result call_code false 40) (final call_code false 40))
    as [Hs _]; [apply zvm_wf_ctx0; bytes_tac | apply host0_ok | vm_compute; reflexivity | exact Hs].
Defined.

(** MLOAD at the last address. *)
Definition mload_code : bytes := [0x67; 0xFF; 0xFF; 0xFF; 0xFF; 0xFF; 0xFF; 0xFF; 0xFF; 0x51].
Definition mload_state : ZvmInterpreter ProductionZvmHost :=
  set_stack [word_of_u64 (2 ^ 64 - 1)] (new_interp (ctx0 [0x51] false) host0).

Lemma zvm_abort_operand_witness :
  ∃ w, w ∈ [word_of_u64 (2 ^ 64 - 1)] ∧ Z.min (2 ^ 61) (2 ^ 40 / 4 - 32) ≤ word_u64 w.
Proof.
  apply (ZvmProps.zvm_abort_operand mload_state (step mload_state).2).
  - destruct (ZvmProps.zvm_new_wf (ctx0 [0x51] false) host0) as []; [apply zvm_wf_ctx0; bytes_tac|].
    constructor; try done. split; [constructor; [apply word_of_u64_wf|constructor]|unfold MAX_STACK_DEPTH; cbn; lia].
  - apply host0_ok.
  - vm_compute. reflexivity.
Defined.

(** The abort is reachable and costs 6 gas: the size of the access wraps past
    the check, [resize] shrinks the memory and the slice is out of range. *)
Theorem zvm_mload_aborts :
  run 10 (new_interp (ctx0 mload_code false) host0) = Some Aborted.
Proof. vm_compute. reflexivity. Qed.

(** A failed call is not rolled back: the contract at address 30 stores and
    reverts, the caller gets 0, and the storage write and the 7 wei stay. *)
Theorem zvm_failed_call_keeps_effects :
  let s := final call_code false 40 in
  head (i_stack s) = Some zero ∧
  get_storage (ph_state (i_host s)) (adr 30) (word_of_u64 1) = word_of_u64 5 ∧
  get_storage view0 (adr 30) (word_of_u64 1) = zero ∧
  bal (ph_state (i_host s)) (adr 30) = 7 ∧ bal (ph_state (i_host s)) (adr 21) = 993.
Proof. vm_compute. done. Qed.

(** PAYID reads memory without paying for its growth: with an empty name at
    offset 1000 the memory grows to 1024 bytes for the 200 gas of the
    instruction and the 6 of its operands, where MLOAD there pays for it. *)
Theorem zvm_payid_memory_free :
  let s := final [0x60; 0; 0x61; 3; 232; 0xC0] false 10 in
  mem_size (i_memory s) = 1024 ∧ i_gas s = 100000 - 206 ∧
  i_gas (final [0x61; 3; 232; 0x51] false 10) = 100000 - 6 - 3 * 33 - 2.
Proof. vm_compute. done. Qed.

(** So an offset the allocator cannot serve, 2^50 here, aborts the process for
    the gas of the instruction and its operands. *)
Theorem zvm_payid_aborts :
  run 10 (new_interp (ctx0 [0x60; 0; 0x66; 4; 0; 0; 0; 0; 0; 0; 0xC0] false) host0) = Some Aborted.
Proof. vm_compute. reflexivity. Qed.

(** CALLCODE runs the target's code on the target's storage, not on the
    caller's: the store of the called code lands at address 31. *)
Theorem zvm_callcode_writes_target :
  let storing := [0x60; 5; 0x60; 1; 0x55] in
  let h := with_state (view_seed_code (replicate 32 9) storing
             (view_seed_account (adr 31) (mkAcct 1 0 (replicate 32 9) EMPTY_STORAGE_ROOT Zvm) view0)) host0 in
  let code := [0x60; 0; 0x60; 0; 0x60; 0; 0x60; 0; 0x60; 0; 0x60; 31; 0x61; 0x7F; 0xFF; 0xF2] in
  match run 40 (new_interp (ctx0 code false) h) with
  | Some (Finished r s) =>
      zr_status r = ZSuccess ∧ get_storage (ph_state (i_host s)) (adr 31) (word_of_u64 1) = word_of_u64 5 ∧
      get_storage (ph_state (i_host s)) (adr 21) (word_of_u64 1) = zero
  | _ => False
  end.
Proof. vm_compute. done. Qed.
End Samples.
End ZvmChain.
