(* ===== verification/Validators.v ===== *)
(** * Validators, rewards and election

    Models [crates/zbx-staking/src/validator.rs], [rewards.rs] and [error.rs],
    with the key parsing and the proof of possession of
    [crates/zbx-crypto/src/bls.rs]. The registry is a finite map; the order in
    which [values()] lists it is the parameter [VsIter]. The theorems show what
    an election returns and that it does not depend on that order, that a
    distribution never credits more than what is minted for it, what the
    unchecked product of the committee share does to realistic stakes, and how
    a reward pool is shared out. *)

From stdpp Require Import sorting.
From S2P Require Import Prelude.
From S2P Require Import EvmBase.
From S2P Require Import EvmHost.
From S2P Require Import Votes.
From S2P Require Import Emission.

Module Validators.
Import EvmHost Votes Emission.
#[local] Set Warnings "-clear-no-such-hyp".

(** ** error.rs *)

(** The text of an [InvalidEvidence]. *)
Inductive EvidenceFault := BadBlsPubkey | BadBlsPop | PopRejected | NoOffender | NotVerified.

(** The text of a [BadPayload]. *)
Inductive PayloadFault := PayloadUndecodable | AppealMisrouted.

(** The text of a [Persistence] error. *)
Inductive StoreFault := BadDelegationEntry | CorruptRecord | CorruptBond | WriteFailed | RecordVanished.

Inductive StakingError :=
| AlreadyRegistered (a : address)
| NotFound (a : address)
| InsufficientSelfStake (have need : Z)
| UnbondingPeriod (remaining : Z)
| IsJailed
| DelegationTooSmall (minimum : Z)
| NoPendingRewards (a : address)
| EpochNotComplete
| InvalidEvidence (f : EvidenceFault)
| DuplicateEvidence
| EvidenceNotFound
| AppealNotAllowed
| AppealWindowExpired
| Persistence (f : StoreFault)
| UnexpectedValue (got expected : Z)
| InsufficientDelegation (have requested : Z)
| NothingToWithdraw
| NotAValidator (a : address)
| BadPayload (f : PayloadFault)
| EscrowUnderflow (have need : Z)
| AppealNotByOffender
| AppealBondMismatch (got need : Z)
| OverturnNotAllowed.

(** ** lib.rs: the parameters of the protocol *)

Definition MIN_SELF_STAKE : Z := 100000 * 10 ^ 18.
Definition EPOCH_LENGTH : Z := 172800.
Definition MAX_VALIDATORS : nat := 100.
Definition SLASH_DOUBLE_SIGN : Z := 500.
Definition SLASH_LIVENESS_DAILY : Z := 1.
Definition MAX_CONSECUTIVE_MISSED : Z := 20.
Definition REWARD_INTERVAL : Z := 100.

(** ** bls.rs: keys and proofs of possession

    Decompression of curve points is the [bls12_381] crate's. *)

Class BlsPoints := {
  g1_point : bytes → bool;
  g2_point : bytes → bool
}.

Section Keys.
Context `{Keccak} `{Bls} `{BlsPoints}.

Definition BlsPubKey_from_bytes (b : bytes) : option bytes :=
  if negb (length b =? 48)%nat then None else if g1_point b then Some b else None.

Definition BlsSignature_from_bytes (b : bytes) : option bytes :=
  if negb (length b =? 96)%nat then None else if g2_point b then Some b else None.

(** The bytes of [zbx-bls-pop-v1]. *)
Definition POP_DOMAIN : bytes :=
  [0x7a; 0x62; 0x78; 0x2d; 0x62; 0x6c; 0x73; 0x2d; 0x70; 0x6f; 0x70; 0x2d; 0x76; 0x31].

Definition verify_pop (pk pop : bytes) (validator : address) : bool :=
  verify_single pop pk (keccak256 (validator ++ POP_DOMAIN)).
End Keys.

(** ** validator.rs *)

Inductive ValidatorStatus :=
| Pending | Active | Jailed | Unbonding (until_block : Z) | Inactive | Tombstoned.

#[export] Instance ValidatorStatus_eq_dec : EqDecision ValidatorStatus.
Proof. solve_decision. Defined.

Record Validator := mkValidator {
  v_address : address;
  v_bls_pubkey : bytes;
  self_stake : Z;
  delegated_stake : Z;
  commission_bps : Z;
  status : ValidatorStatus;
  last_signed_block : Z;
  pending_rewards : Z;
  delegator_reward_pool : Z;
  pool_denominator : Z;
  registered_epoch : Z
}.

#[export] Instance Validator_eq_dec : EqDecision Validator.
Proof. solve_decision. Defined.

(** Field updates. *)
Definition set_self_stake (x : Z) (v : Validator) : Validator :=
  mkValidator (v_address v) (v_bls_pubkey v) x (delegated_stake v) (commission_bps v) (status v) (last_signed_block v)
    (pending_rewards v) (delegator_reward_pool v) (pool_denominator v) (registered_epoch v).
Definition set_delegated (x : Z) (v : Validator) : Validator :=
  mkValidator (v_address v) (v_bls_pubkey v) (self_stake v) x (commission_bps v) (status v) (last_signed_block v)
    (pending_rewards v) (delegator_reward_pool v) (pool_denominator v) (registered_epoch v).
Definition set_status (x : ValidatorStatus) (v : Validator) : Validator :=
  mkValidator (v_address v) (v_bls_pubkey v) (self_stake v) (delegated_stake v) (commission_bps v) x (last_signed_block v)
    (pending_rewards v) (delegator_reward_pool v) (pool_denominator v) (registered_epoch v).
Definition set_pending (x : Z) (v : Validator) : Validator :=
  mkValidator (v_address v) (v_bls_pubkey v) (self_stake v) (delegated_stake v) (commission_bps v) (status v)
    (last_signed_block v) x (delegator_reward_pool v) (pool_denominator v) (registered_epoch v).
Definition set_pool (pool denom : Z) (v : Validator) : Validator :=
  mkValidator (v_address v) (v_bls_pubkey v) (self_stake v) (delegated_stake v) (commission_bps v) (status v)
    (last_signed_block v) (pending_rewards v) pool denom (registered_epoch v).

Definition total_stake (v : Validator) : Z := saturating_add128 (self_stake v) (delegated_stake v).

Definition is_active (v : Validator) : bool := bool_decide (status v = Active).

(** [matches!(status, Jailed | Inactive | Unbonding { .. } | Tombstoned)] *)
Definition excluded (s : ValidatorStatus) : bool :=
  match s with Jailed | Inactive | Unbonding _ | Tombstoned => true | Pending | Active => false end.

Definition is_eligible (v : Validator) : bool :=
  (MIN_SELF_STAKE <=? self_stake v) && negb (excluded (status v)).

Definition commission_of (v : Validator) (reward : Z) : Z :=
  match checked_mul128 reward (commission_bps v) with
  | Some p => p / 10000
  | None => wrap128 (reward / 10000 * commission_bps v)
  end.

Definition claim_delegator_share (delegator_stake : Z) (v : Validator) : Z * Validator :=
  let pool := delegator_reward_pool v in
  if pool =? 0 then (0, v) else
  let share :=
    if 0 <? pool_denominator v then
      match checked_mul128 pool delegator_stake with
      | Some p => p / pool_denominator v
      | None => saturating_mul128 (pool / pool_denominator v) delegator_stake
      end
    else pool in
  let share := Z.min share pool in
  (share, set_pool (saturating_sub pool share) (saturating_sub (pool_denominator v) delegator_stake) v).

Record ValidatorSet := mkVs {
  validators : gmap address Validator;
  active_set : list address;
  current_epoch : Z
}.

Definition vs_new : ValidatorSet := mkVs ∅ [] 0.
Definition with_validators (m : gmap address Validator) (vs : ValidatorSet) : ValidatorSet :=
  mkVs m (active_set vs) (current_epoch vs).
Definition vs_get (vs : ValidatorSet) (a : address) : option Validator := validators vs !! a.
Definition vs_put (a : address) (v : Validator) (vs : ValidatorSet) : ValidatorSet :=
  with_validators (<[a := v]> (validators vs)) vs.

Definition register (a : address) (pk : bytes) (stake commission : Z) (vs : ValidatorSet)
    : outcome StakingError ValidatorSet :=
  if bool_decide (is_Some (vs_get vs a)) then Err (AlreadyRegistered a) else
  if stake <? MIN_SELF_STAKE then Err (InsufficientSelfStake stake MIN_SELF_STAKE) else
  Ok (vs_put a (mkValidator a pk stake 0 (Z.min commission 2000) Pending 0 0 0 0 (current_epoch vs)) vs).

Definition register_with_pop `{Keccak} `{Bls} (a : address) (pk pop : bytes) (stake commission : Z) (vs : ValidatorSet)
    : outcome StakingError ValidatorSet :=
  if negb (verify_pop pk pop a) then Err (InvalidEvidence PopRejected) else register a pk stake commission vs.

Definition vs_delegate (dst : address) (amount : Z) (vs : ValidatorSet) : outcome StakingError ValidatorSet :=
  match vs_get vs dst with
  | None => Err (NotFound dst)
  | Some v =>
      if excluded (status v) then Err IsJailed
      else Ok (vs_put dst (set_delegated (saturating_add128 (delegated_stake v) amount) v) vs)
  end.

Definition vs_undelegate (src : address) (amount : Z) (vs : ValidatorSet) : outcome StakingError ValidatorSet :=
  match vs_get vs src with
  | None => Err (NotFound src)
  | Some v =>
      if delegated_stake v <? amount then Err (InsufficientDelegation (delegated_stake v) amount)
      else Ok (vs_put src (set_delegated (delegated_stake v - amount) v) vs)
  end.

Definition vs_claim_rewards (a : address) (vs : ValidatorSet) : outcome StakingError (Z * ValidatorSet) :=
  match vs_get vs a with
  | None => Err (NotAValidator a)
  | Some v => Ok (pending_rewards v, vs_put a (set_pending 0 v) vs)
  end.

(** *** Election *)

(** The order [validators.values()] lists the registry in. *)
Class VsIter := iter_validators : gmap address Validator → list (address * Validator).

(** [b.1.cmp(&a.1).then_with(|| a.0.cmp(&b.0))] is not [Greater]. *)
Definition ranks_before (a b : address * Z) : Prop :=
  b.2 < a.2 ∨ (a.2 = b.2 ∧ lex_lt b.1 a.1 = false).

#[export] Instance ranks_before_dec : RelDecision ranks_before.
Proof. intros a b. unfold ranks_before. apply _. Defined.

Definition activate (new_set : list address) (m : gmap address Validator) : gmap address Validator :=
  fold_left (fun m a => match m !! a with
    | Some v => if bool_decide (status v = Tombstoned) then m else <[a := set_status Active v]> m
    | None => m end) new_set m.

Definition deactivate (old_set new_set : list address) (m : gmap address Validator) : gmap address Validator :=
  fold_left (fun m a => if bool_decide (a ∈ new_set) then m else
    match m !! a with
    | Some v => if bool_decide (status v = Active) then <[a := set_status Pending v]> m else m
    | None => m end) old_set m.

Definition eligible_stakes `{VsIter} (vs : ValidatorSet) : list (address * Z) :=
  map (fun p => (v_address p.2, total_stake p.2)) (List.filter (fun p => is_eligible p.2) (iter_validators (validators vs))).

Definition elected `{VsIter} (vs : ValidatorSet) : list address :=
  map fst (take MAX_VALIDATORS (merge_sort ranks_before (eligible_stakes vs))).

Definition elect_active_set `{VsIter} (vs : ValidatorSet) : list address * ValidatorSet :=
  let new_set := elected vs in
  (new_set, mkVs (activate new_set (deactivate (active_set vs) new_set (validators vs))) new_set
    (wrap64 (current_epoch vs + 1))).

Definition active_bls_keys (vs : ValidatorSet) : list bytes :=
  omap (fun a => v_bls_pubkey <$> vs_get vs a) (active_set vs).

(** ** rewards.rs *)

(** The subsidy of the interval that ends at [block_height]. *)
Definition interval_base (block_height : Z) : Z :=
  let window_start := saturating_sub block_height (REWARD_INTERVAL - 1) in
  sum128 (map block_reward_at (seqZ window_start (block_height - window_start + 1))).

Definition interval_escrow_mint (block_height accumulated_fees : Z) : Z :=
  if negb (block_height mod REWARD_INTERVAL =? 0) then 0
  else saturating_add128 (interval_base block_height) accumulated_fees.

Definition total_active_stake (vs : ValidatorSet) : Z :=
  sum128 (map total_stake (omap (vs_get vs) (active_set vs))).

(** The loop body: what one active validator receives of the committee share. *)
Definition split_reward (committee_share stakes : Z) (v : Validator) : Validator :=
  let weight := total_stake v in
  let total_reward := wrap128 (committee_share * weight) / stakes in
  if total_reward =? 0 then v else
  if delegated_stake v =? 0 then set_pending (saturating_add128 (pending_rewards v) total_reward) v else
  let self_share := match checked_mul128 total_reward (self_stake v) with
                    | Some p => p / weight
                    | None => wrap128 (total_reward / weight * self_stake v)
                    end in
  let deleg_gross := saturating_sub total_reward self_share in
  let commission := commission_of v deleg_gross in
  let net_deleg := saturating_sub deleg_gross commission in
  set_pool (saturating_add128 (delegator_reward_pool v) net_deleg) (delegated_stake v)
    (set_pending (saturating_add128 (saturating_add128 (pending_rewards v) self_share) commission) v).

Definition pay_committee (committee_share stakes : Z) (l : list address) (m : gmap address Validator)
    : gmap address Validator :=
  fold_left (fun m a => match m !! a with
    | Some v => <[a := split_reward committee_share stakes v]> m
    | None => m end) l m.

Definition pay_proposer (proposer : address) (bonus : Z) (m : gmap address Validator) : gmap address Validator :=
  match m !! proposer with
  | Some v => <[proposer := set_pending (saturating_add128 (pending_rewards v) bonus) v]> m
  | None => m
  end.

Definition distribute_block_reward (block_height : Z) (proposer : address) (accumulated_fees : Z) (vs : ValidatorSet)
    : ValidatorSet :=
  if negb (block_height mod REWARD_INTERVAL =? 0) then vs else
  let total := saturating_add128 (interval_base block_height) accumulated_fees in
  if total =? 0 then vs else
  let proposer_bonus := total / 10 in
  let committee_share := total - proposer_bonus in
  let stakes := total_active_stake vs in
  if stakes =? 0 then vs else
  with_validators (pay_committee committee_share stakes (active_set vs)
    (pay_proposer proposer proposer_bonus (validators vs))) vs.

(** [RewardDistributor::claim_rewards] *)
Definition claim_own_rewards (a : address) (vs : ValidatorSet) : outcome StakingError (Z * ValidatorSet) :=
  match vs_get vs a with
  | None => Err (NotFound a)
  | Some v => if pending_rewards v =? 0 then Err (NoPendingRewards a)
              else Ok (pending_rewards v, vs_put a (set_pending 0 v) vs)
  end.

(** The set is changed even when the share is nothing. *)
Definition claim_delegator_reward (validator delegator : address) (stake : Z) (vs : ValidatorSet)
    : outcome StakingError Z * ValidatorSet :=
  if stake =? 0 then (Err (NoPendingRewards delegator), vs) else
  match vs_get vs validator with
  | None => (Err (NotFound validator), vs)
  | Some v =>
      let '(share, v') := claim_delegator_share stake v in
      (if share =? 0 then Err (NoPendingRewards delegator) else Ok share, vs_put validator v' vs)
  end.

(** ** The election is a ranking *)

Lemma ranks_before_total : Total ranks_before.
Proof.
  intros [a x] [b y]. unfold ranks_before. cbn. destruct (lex_lt_total a b) as [E|[->|E]], (Z.lt_trichotomy x y) as [?|[->|?]]; auto.
  - left. right. split; [done|]. destruct (lex_lt b a) eqn:F; [|done].
    pose proof (lex_lt_trans _ _ _ E F) as G. by rewrite lex_lt_irrefl in G.
  - left. right. by rewrite lex_lt_irrefl.
  - right. right. split; [done|]. destruct (lex_lt a b) eqn:F; [|done].
    pose proof (lex_lt_trans _ _ _ E F) as G. by rewrite lex_lt_irrefl in G.
Qed.

Lemma ranks_before_trans : Transitive ranks_before.
Proof.
  intros [a x] [b y] [c z]. unfold ranks_before. cbn. intros [?|[-> E1]] [?|[-> E2]]; [left; lia|left; lia|left; lia|].
  right. split; [done|]. destruct (lex_lt c a) eqn:F; [|done].
  destruct (lex_lt_total a b) as [G|[->|G]]; [|congruence|congruence].
  pose proof (lex_lt_trans _ _ _ F G). congruence.
Qed.

Lemma ranks_before_antisym : AntiSymm (=) ranks_before.
Proof.
  intros [a x] [b y]. unfold ranks_before. cbn. intros [?|[-> E1]] [?|[? E2]]; try lia.
  destruct (lex_lt_total a b) as [G|[->|G]]; congruence.
Qed.

#[export] Existing Instances ranks_before_total ranks_before_trans ranks_before_antisym.

(** [values()] lists every entry once. *)
Definition vs_iter_ok (I : VsIter) : Prop := ∀ m, @iter_validators I m ≡ₚ map_to_list m.

(** Every validator is registered under its own address. *)
Definition self_keyed (vs : ValidatorSet) : Prop := map_Forall (fun a v => v_address v = a) (validators vs).

Lemma filter_perm {A} (p : A → bool) l1 l2 : l1 ≡ₚ l2 → List.filter p l1 ≡ₚ List.filter p l2.
Proof.
  induction 1 as [|x l1 l2 _ IH|x y l|l1 l2 l3 _ IH1 _ IH2]; cbn; [done|..|by etrans].
  - destruct (p x); [by constructor|done].
  - destruct (p x), (p y); first [apply Permutation_swap | reflexivity].
Qed.

Lemma eligible_perm I1 I2 vs : vs_iter_ok I1 → vs_iter_ok I2 → @eligible_stakes I1 vs ≡ₚ @eligible_stakes I2 vs.
Proof. intros H1 H2. unfold eligible_stakes. apply Permutation_map, filter_perm. etrans; [apply H1|symmetry; apply H2]. Qed.

Lemma elected_order_free I1 I2 vs : vs_iter_ok I1 → vs_iter_ok I2 → @elected I1 vs = @elected I2 vs.
Proof.
  intros H1 H2. unfold elected. do 2 f_equal. apply (Sorted_unique ranks_before); [apply Sorted_merge_sort, _..|].
  rewrite !merge_sort_Permutation. by apply eligible_perm.
Qed.

Lemma eligible_elem I vs a x : vs_iter_ok I → self_keyed vs →
  (a, x) ∈ @eligible_stakes I vs ↔ ∃ v, vs_get vs a = Some v ∧ is_eligible v = true ∧ x = total_stake v.
Proof.
  intros HI Hk. unfold eligible_stakes. rewrite list_elem_of_fmap. split.
  - intros ([b v] & [= -> ->] & Hin). apply list_elem_of_In, filter_In in Hin as [Hin He]. cbn in *.
    apply list_elem_of_In in Hin. rewrite (HI _) in Hin. apply elem_of_map_to_list in Hin.
    rewrite (Hk b v Hin). by exists v.
  - intros (v & Hv & He & ->). exists (a, v). cbn. rewrite (Hk a v Hv). split; [done|].
    apply list_elem_of_In, filter_In. split; [|done]. apply list_elem_of_In. rewrite (HI _). by apply elem_of_map_to_list.
Qed.

Lemma eligible_nodup I vs : vs_iter_ok I → self_keyed vs → NoDup (@eligible_stakes I vs).*1.
Proof.
  intros HI Hk. unfold eligible_stakes. rewrite <- list_fmap_compose.
  assert (∀ l : list (address * Validator), (∀ p, p ∈ l → v_address p.2 = p.1) → NoDup l.*1 →
    NoDup (((fst : address * Z → _) ∘ (fun p => (v_address p.2, total_stake p.2))) <$> List.filter (fun p => is_eligible p.2) l)) as H.
  { induction l as [|p l IH]; intros Hl Hn; [constructor|]. apply NoDup_cons in Hn as [Hp Hn].
    assert (NoDup (((fst : address * Z → _) ∘ (fun p => (v_address p.2, total_stake p.2))) <$>
      List.filter (fun p => is_eligible p.2) l)) as IH'.
    { apply IH; [|done]. intros q Hq. apply Hl. by right. }
    cbn. destruct (is_eligible p.2); [|done]. cbn. apply NoDup_cons. split; [|done].
    rewrite list_elem_of_fmap. intros (q & E & Hq). apply list_elem_of_In, filter_In in Hq as [Hq _]. apply list_elem_of_In in Hq.
    cbn in E. rewrite (Hl p), (Hl q) in E by first [by left | by right]. apply Hp. rewrite E. apply list_elem_of_fmap. by exists q. }
  apply H.
  - intros [a v] Hin. rewrite (HI _) in Hin. apply elem_of_map_to_list in Hin. by apply (Hk a v).
  - rewrite (HI _). apply NoDup_fst_map_to_list.
Qed.

(** Two conditionals with equivalent tests. *)
#[local] Ltac same_test :=
  f_equal; match goal with |- (if bool_decide ?P then _ else _) = (if bool_decide ?Q then _ else _) =>
    replace (bool_decide Q) with (bool_decide P); [done|apply bool_decide_ext; rewrite elem_of_cons] end.

(** What the two status loops leave at an address. *)
Lemma deactivate_lookup old new m a :
  deactivate old new m !! a = (fun v => if bool_decide (a ∈ old ∧ (a ∉ new) ∧ status v = Active) then set_status Pending v else v) <$> m !! a.
Proof.
  unfold deactivate. revert m. induction old as [|b old IH]; intros m; cbn [fold_left].
  { destruct (m !! a) as [v|]; cbn; [|done]. rewrite bool_decide_eq_false_2; [done|]. intros [H _]. by apply not_elem_of_nil in H. }
  rewrite IH. destruct (bool_decide_reflect (b ∈ new)) as [Hb|Hb].
  - destruct (m !! a) as [v|]; cbn; [|done]. same_test. naive_solver.
  - destruct (m !! b) as [w|] eqn:E.
    + destruct (bool_decide_reflect (status w = Active)) as [Hw|Hw].
      * destruct (decide (a = b)) as [->|Hn].
        -- rewrite lookup_insert_eq, E. cbn. rewrite bool_decide_eq_false_2 by (cbn; naive_solver).
           rewrite bool_decide_eq_true_2; [done|]. split_and!; [by left|done|done].
        -- rewrite lookup_insert_ne by done. destruct (m !! a) as [v|]; cbn; [|done]. same_test. naive_solver.
      * destruct (m !! a) as [v|] eqn:Ea; cbn; [|done]. same_test.
        split; [naive_solver|]. intros ([->|H] & H1 & H2); [|naive_solver]. rewrite E in Ea. naive_solver.
    + destruct (m !! a) as [v|] eqn:Ea; cbn; [|done]. same_test.
      split; [naive_solver|]. intros ([->|H] & H1 & H2); [congruence|naive_solver].
Qed.

Lemma activate_lookup new m a :
  activate new m !! a = (fun v => if bool_decide (a ∈ new ∧ status v ≠ Tombstoned) then set_status Active v else v) <$> m !! a.
Proof.
  unfold activate. revert m. induction new as [|b new IH]; intros m; cbn [fold_left].
  { destruct (m !! a) as [v|]; cbn; [|done]. rewrite bool_decide_eq_false_2; [done|]. intros [H _]. by apply not_elem_of_nil in H. }
  rewrite IH. destruct (m !! b) as [w|] eqn:E.
  - destruct (bool_decide_reflect (status w = Tombstoned)) as [Hw|Hw].
    + destruct (m !! a) as [v|] eqn:Ea; cbn; [|done]. same_test.
      split; [naive_solver|]. intros ([->|H] & H1); [|naive_solver]. rewrite E in Ea. naive_solver.
    + destruct (decide (a = b)) as [->|Hn].
      * rewrite lookup_insert_eq, E. cbn. rewrite (bool_decide_eq_true_2 (b ∈ b :: new ∧ _)) by (split; [by left|done]).
        by case_bool_decide.
      * rewrite lookup_insert_ne by done. destruct (m !! a) as [v|]; cbn; [|done]. same_test. naive_solver.
  - destruct (m !! a) as [v|] eqn:Ea; cbn; [|done]. same_test.
    split; [naive_solver|]. intros ([->|H] & H1); [congruence|naive_solver].
Qed.

(** Where an election leaves a validator's status. *)
Definition elected_status (new old : list address) (a : address) (s : ValidatorStatus) : ValidatorStatus :=
  if bool_decide (a ∈ new) then Active
  else if bool_decide (a ∈ old ∧ s = Active) then Pending else s.

(** An election returns at most a hundred distinct registered validators,
    each with the minimum self-stake and none jailed, inactive, unbonding or
    tombstoned; an eligible validator is left out only when the set is full of
    validators that rank before it by stake, then address; the elected become
    active, active validators that are left out become pending and every other
    status is kept; and the outcome does not depend on the order in which the
    hash map is listed. *)
Theorem election_correct (I J : VsIter) (vs : ValidatorSet) :
  vs_iter_ok I → vs_iter_ok J → self_keyed vs →
  let new := (@elect_active_set I vs).1 in
  let vs' := (@elect_active_set I vs).2 in
  @elect_active_set J vs = (new, vs') ∧ active_set vs' = new ∧ NoDup new ∧ (length new ≤ MAX_VALIDATORS)%nat ∧
  (∀ a, a ∈ new → ∃ v, vs_get vs a = Some v ∧ is_eligible v = true) ∧
  (∀ a v, vs_get vs a = Some v → is_eligible v = true → a ∉ new →
     length new = MAX_VALIDATORS ∧
     ∀ b w, b ∈ new → vs_get vs b = Some w → ranks_before (b, total_stake w) (a, total_stake v)) ∧
  (∀ a, vs_get vs' a = (fun v => set_status (elected_status new (active_set vs) a (status v)) v) <$> vs_get vs a).
Proof.
  intros HI HJ Hk. unfold elect_active_set. cbn [fst snd active_set]. set (S := merge_sort ranks_before (@eligible_stakes I vs)).
  assert (Hp : S ≡ₚ @eligible_stakes I vs) by apply merge_sort_Permutation.
  assert (Hs : StronglySorted ranks_before S) by (apply Sorted_StronglySorted; [apply _|]; apply Sorted_merge_sort, _).
  assert (Hnd : NoDup S.*1) by (rewrite Hp; by apply eligible_nodup).
  assert (Hin : ∀ a, a ∈ @elected I vs → ∃ v, vs_get vs a = Some v ∧ is_eligible v = true).
  { intros a Ha. unfold elected in Ha. apply list_elem_of_fmap in Ha as ([b x] & -> & Hx).
    apply elem_of_take in Hx as (k & Hx & _). apply list_elem_of_lookup_2 in Hx. fold S in Hx. rewrite Hp in Hx.
    apply eligible_elem in Hx as (v & Hv & He & _); [|done..]. by exists v. }
  split_and!.
  - by rewrite (elected_order_free J I).
  - done.
  - unfold elected. fold S. change (NoDup (take MAX_VALIDATORS S).*1).
    rewrite fmap_take. eapply sublist_NoDup; [exact Hnd|apply sublist_take].
  - unfold elected. rewrite length_map, length_take. apply Nat.le_min_l.
  - done.
  - intros a v Hv He Ha. assert (Hav : (a, total_stake v) ∈ S) by (rewrite Hp; apply eligible_elem; [done..|]; by exists v).
    rewrite <- (take_drop MAX_VALIDATORS S) in Hav, Hs. apply elem_of_app in Hav as [Hav|Hav].
    { exfalso. apply Ha. unfold elected. fold S. apply list_elem_of_fmap. by exists (a, total_stake v). }
    split.
    { unfold elected. fold S. rewrite length_map, length_take. apply list_elem_of_lookup in Hav as [k Hav].
      apply lookup_lt_Some in Hav. rewrite length_drop in Hav. apply Nat.min_l. lia. }
    intros b w Hb Hw. unfold elected in Hb. fold S in Hb. apply list_elem_of_fmap in Hb as ([b' x] & -> & Hx). cbn in *.
    pose proof Hx as Hx'. apply elem_of_take in Hx' as (k & Hx' & _). apply list_elem_of_lookup_2 in Hx'. rewrite Hp in Hx'.
    apply eligible_elem in Hx' as (w' & Hw' & _ & ->); [|done..]. unfold vs_get in *. cbn in Hw. rewrite Hw in Hw'. injection Hw' as <-.
    by eapply StronglySorted_app_1_elem_of in Hs.
  - intros a. unfold vs_get at 1. cbn [validators]. rewrite activate_lookup, deactivate_lookup. fold (vs_get vs a).
    destruct (vs_get vs a) as [v|] eqn:Ev; [|done]. cbn [fmap option_fmap option_map]. f_equal. unfold elected_status.
    destruct (bool_decide_reflect (a ∈ @elected I vs)) as [Ha|Ha].
    + rewrite (bool_decide_eq_false_2 (a ∈ active_set vs ∧ (a ∉ @elected I vs) ∧ _)) by (intros (_ & Hx & _); by apply Hx).
      destruct (Hin a Ha) as (v' & Ev' & He). rewrite Ev in Ev'. injection Ev' as <-.
      rewrite bool_decide_eq_true_2; [done|]. split; [done|]. intros Et. unfold is_eligible in He. rewrite Et in He.
      rewrite andb_false_r in He. done.
    + rewrite (bool_decide_eq_false_2 (a ∈ @elected I vs ∧ _)) by (intros [Hx _]; by apply Ha).
      destruct (bool_decide_reflect (a ∈ active_set vs ∧ status v = Active)) as [[H1 H2]|Hn].
      * by rewrite bool_decide_eq_true_2.
      * rewrite bool_decide_eq_false_2; [by destruct v|]. intros (H1 & _ & H2). by apply Hn.
Qed.

(** ** Distribution *)

(** What the escrow owes to a validator and its delegators as rewards. *)
Definition owed (v : Validator) : Z := pending_rewards v + delegator_reward_pool v.
Definition vs_owed (vs : ValidatorSet) : Z := map_sum owed (validators vs).

Record wf_validator (v : Validator) : Prop := {
  wv_self : 0 ≤ self_stake v;
  wv_deleg : 0 ≤ delegated_stake v;
  wv_stake : self_stake v + delegated_stake v < U128;
  wv_bps : 0 ≤ commission_bps v ≤ 2000;
  wv_pending : 0 ≤ pending_rewards v;
  wv_pool : 0 ≤ delegator_reward_pool v;
  wv_denom : 0 ≤ pool_denominator v
}.

Definition wf_vs (vs : ValidatorSet) : Prop := map_Forall (fun _ => wf_validator) (validators vs).

Lemma total_stake_exact v : wf_validator v → total_stake v = self_stake v + delegated_stake v.
Proof. intros []. unfold total_stake, saturating_add128, U128_MAX, U128 in *. lia. Qed.

Lemma commission_le v r : wf_validator v → is_u128 r → 0 ≤ commission_of v r ≤ r.
Proof.
  intros [_ _ _ Hb _ _ _] [Hr Hr']. unfold commission_of, checked_mul128. case_if.
  - split; [apply Z.div_pos; nia|]. apply Z.div_le_upper_bound; nia.
  - pose proof (Z.mul_div_le r 10000 ltac:(lia)). assert (0 ≤ r / 10000) by (apply Z.div_pos; lia).
    unfold wrap128. rewrite Z.mod_small; nia.
Qed.

Lemma self_share_le v t : wf_validator v → is_u128 t → 0 < total_stake v →
  let x := match checked_mul128 t (self_stake v) with
           | Some p => p / total_stake v | None => wrap128 (t / total_stake v * self_stake v) end in
  0 ≤ x ≤ t.
Proof.
  intros W [Ht Ht'] Hw. pose proof (total_stake_exact v W) as E. destruct W as [Hs Hd _ _ _ _ _]. cbn. unfold checked_mul128. case_if.
  - split; [apply Z.div_pos; nia|]. apply Z.div_le_upper_bound; nia.
  - pose proof (Z.mul_div_le t (total_stake v) Hw). assert (0 ≤ t / total_stake v) by (apply Z.div_pos; lia).
    unfold wrap128. rewrite Z.mod_small; nia.
Qed.

(** The committee share of one validator, as the code computes it. *)
Definition cut (c stakes : Z) (v : Validator) : Z := wrap128 (c * total_stake v) / stakes.

Lemma cut_bounds c T v : 0 < T → 0 ≤ c * total_stake v → is_u128 (cut c T v) ∧ cut c T v * T ≤ c * total_stake v.
Proof.
  intros HT Hc. unfold cut, is_u128. pose proof (Z.mod_pos_bound (c * total_stake v) U128 ltac:(done)) as Hm.
  assert (wrap128 (c * total_stake v) ≤ c * total_stake v) by (apply Z.mod_le; [done|done]).
  fold (wrap128 (c * total_stake v)) in Hm. pose proof (Z.mul_div_le (wrap128 (c * total_stake v)) T HT).
  split; [|lia]. split; [apply Z.div_pos; lia|]. apply Z.div_lt_upper_bound; nia.
Qed.

(** A validator's stakes are kept and its credit is the cut, nothing else. *)
Lemma split_reward_owed c T v :
  wf_validator v → 0 < T → 0 ≤ c → owed v + cut c T v < U128 →
  let v' := split_reward c T v in
  owed v' = owed v + cut c T v ∧ wf_validator v' ∧ total_stake v' = total_stake v ∧
  self_stake v' = self_stake v ∧ delegated_stake v' = delegated_stake v ∧ v_address v' = v_address v ∧ status v' = status v.
Proof.
  intros W HT Hc Ho. pose proof (total_stake_exact v W) as Et. pose proof W as [Hs Hd Hsd Hb Hp Hq Hn].
  assert (0 ≤ c * total_stake v) as Hcw by nia. destruct (cut_bounds c T v HT Hcw) as [Hcut _].
  unfold split_reward. fold (cut c T v). cbn zeta. destruct (Z.eqb_spec (cut c T v) 0) as [E0|N0]; [rewrite E0; split_and!; [lia|done..]|].
  unfold owed, is_u128 in *. destruct (Z.eqb_spec (delegated_stake v) 0) as [Ed|Nd].
  { unfold saturating_add128. rewrite Z.min_l by (unfold U128_MAX, U128 in *; lia). cbn. split_and!; [lia| |done..].
    split; cbn; (done || lia). }
  assert (0 < total_stake v) as Hw by lia.
  pose proof (self_share_le v (cut c T v) W Hcut Hw) as Hss. cbn zeta in Hss.
  set (ss := match checked_mul128 _ _ with Some p => _ | None => _ end) in *.
  assert (is_u128 (cut c T v - ss)) as Hg by (unfold is_u128; lia). unfold saturating_sub.
  rewrite (Z.max_r 0 (cut c T v - ss)) by lia. pose proof (commission_le v _ W Hg) as Hcm.
  set (cm := commission_of v _) in *. rewrite Z.max_r by lia. unfold saturating_add128.
  rewrite !Z.min_l by (unfold U128_MAX, U128 in *; lia). cbn. split_and!; [lia| |done..]. split; cbn; (done || lia).
Qed.

Definition cuts (c T : Z) (m : gmap address Validator) (l : list address) : Z :=
  sumZ (fun a => match m !! a with Some v => cut c T v | None => 0 end) l.

(** The stakes of every validator are as before. *)
Definition same_stakes (m m' : gmap address Validator) : Prop :=
  ∀ a, (fun v => (v_address v, status v, self_stake v, delegated_stake v)) <$> m' !! a =
       (fun v => (v_address v, status v, self_stake v, delegated_stake v)) <$> m !! a.

Lemma same_stakes_cuts c T m m' l : same_stakes m m' → cuts c T m' l = cuts c T m l.
Proof.
  intros Hs. apply sumZ_ext. intros a _. specialize (Hs a). destruct (m' !! a), (m !! a); simplify_eq/=; [|done].
  unfold cut, total_stake. congruence.
Qed.

Lemma same_stakes_insert m a v v' :
  m !! a = Some v → v_address v' = v_address v → status v' = status v → self_stake v' = self_stake v →
  delegated_stake v' = delegated_stake v → same_stakes m (<[a := v']> m).
Proof.
  intros Hv E1 E2 E3 E4 b. destruct (decide (b = a)) as [->|]; [|by rewrite lookup_insert_ne].
  rewrite lookup_insert_eq, Hv. cbn. by rewrite E1, E2, E3, E4.
Qed.

Lemma same_stakes_trans m1 m2 m3 : same_stakes m1 m2 → same_stakes m2 m3 → same_stakes m1 m3.
Proof. intros H1 H2 a. by rewrite H2, H1. Qed.

Lemma owed_le (m : gmap address Validator) a v : map_Forall (fun _ => wf_validator) m → m !! a = Some v →
  pending_rewards v + delegator_reward_pool v ≤ map_sum owed m.
Proof.
  intros W Hv. apply (map_sum_lookup_le owed m a); [|done]. intros b w Hw. destruct (W b w Hw). unfold owed. lia.
Qed.

Lemma pay_committee_owed c T l m :
  map_Forall (fun _ => wf_validator) m → 0 < T → 0 ≤ c → map_sum owed m + cuts c T m l < U128 →
  let m' := pay_committee c T l m in
  map_sum owed m' = map_sum owed m + cuts c T m l ∧ map_Forall (fun _ => wf_validator) m' ∧ same_stakes m m'.
Proof.
  intros W HT Hc. revert m W. induction l as [|a l IH]; intros m W Hs; [cbn; split_and!; [lia|done|done]|].
  assert (∀ m l, map_Forall (fun _ => wf_validator) m → 0 ≤ cuts c T m l) as Hnn.
  { intros m0 l0 W0. apply sumZ_nonneg, Forall_forall. intros b _. destruct (m0 !! b) as [w|] eqn:E; [|done].
    pose proof (total_stake_exact w (W0 b w E)). destruct (W0 b w E).
    apply (cut_bounds c T w HT). nia. }
  change (cuts c T m (a :: l)) with (match m !! a with Some v => cut c T v | None => 0 end + cuts c T m l) in *.
  unfold pay_committee. cbn [fold_left]. fold (pay_committee c T l (match m !! a with Some v => <[a := split_reward c T v]> m | None => m end)).
  destruct (m !! a) as [v|] eqn:Ev; [|cbn zeta in *; rewrite Z.add_0_l in *; by apply IH].
  pose proof (Hnn m l W) as Hl. pose proof (owed_le m a v W Ev) as Hov.
  destruct (split_reward_owed c T v (W a v Ev) HT Hc ltac:(unfold owed at 1; lia)) as (Eo & Wv & Et & Es & Ed & Ea & Est).
  assert (same_stakes m (<[a := split_reward c T v]> m)) as Hss by by eapply same_stakes_insert.
  specialize (IH (<[a := split_reward c T v]> m)). cbn zeta in IH.
  rewrite (map_sum_insert owed m a _ v Ev), (same_stakes_cuts c T _ _ l Hss), Eo in IH.
  destruct IH as (E1 & E2 & E3); [by apply map_Forall_insert_2|lia|]. split_and!; [lia|done|by eapply same_stakes_trans].
Qed.

Lemma pay_proposer_owed p x m :
  map_Forall (fun _ => wf_validator) m → 0 ≤ x → map_sum owed m + x < U128 →
  let m' := pay_proposer p x m in
  map_sum owed m' = map_sum owed m + (if bool_decide (is_Some (m !! p)) then x else 0) ∧
  map_Forall (fun _ => wf_validator) m' ∧ same_stakes m m'.
Proof.
  intros W Hx Hs. unfold pay_proposer. destruct (m !! p) as [v|] eqn:Ev.
  - rewrite bool_decide_eq_true_2 by done. pose proof (owed_le m p v W Ev) as Hov.
    destruct (W p v Ev) as [H1 H2 H3 H4 H5 H6 H7]. unfold saturating_add128.
    rewrite Z.min_l by (unfold U128_MAX, U128 in *; lia). cbn zeta. rewrite (map_sum_insert owed m p _ v Ev).
    unfold owed at 2 3. cbn [pending_rewards delegator_reward_pool set_pending].
    split_and!; [lia| |by eapply same_stakes_insert]. apply map_Forall_insert_2; [|done]. split; cbn; (done || lia).
  - rewrite bool_decide_eq_false_2 by (intros [? ?]; congruence). split_and!; [lia|done|done].
Qed.

(** The stakes of the active validators, as exact sums. *)
Definition active_stakes (vs : ValidatorSet) : Z :=
  sumZ (fun a => match vs_get vs a with Some v => self_stake v + delegated_stake v | None => 0 end) (active_set vs).

Lemma total_active_exact vs : wf_vs vs → active_stakes vs < U128 → total_active_stake vs = active_stakes vs ∧ 0 ≤ active_stakes vs.
Proof.
  intros W. unfold total_active_stake, active_stakes.
  assert (∀ l, sumZ id (map total_stake (omap (vs_get vs) l)) =
    sumZ (fun a => match vs_get vs a with Some v => self_stake v + delegated_stake v | None => 0 end) l) as E.
  { induction l as [|a l IH]; [done|]. rewrite sumZ_cons, <- IH.
    change (omap (vs_get vs) (a :: l)) with (match vs_get vs a with Some y => y :: omap (vs_get vs) l | None => omap (vs_get vs) l end).
    destruct (vs_get vs a) as [v|] eqn:Ev; [|done]. cbn [map]. rewrite sumZ_cons. unfold id at 1. by rewrite (total_stake_exact v (W a v Ev)). }
  assert (Forall (fun x => 0 ≤ x) (map total_stake (omap (vs_get vs) (active_set vs)))) as Hnn.
  { apply Forall_forall. intros x Hx. apply list_elem_of_fmap in Hx as (v & -> & Hv). apply list_elem_of_omap in Hv as (a & _ & Hv).
    rewrite (total_stake_exact v (W a v Hv)). destruct (W a v Hv). lia. }
  intros Hs. rewrite <- E in *. split; [by apply sum128_exact|exact (sumZ_nonneg id _ Hnn)].
Qed.

Lemma cut_sum_le (c T : Z) (m : gmap address Validator) l :
  map_Forall (fun _ => wf_validator) m → 0 < T → 0 ≤ c →
  cuts c T m l * T ≤ c * sumZ (fun a => match m !! a with Some v => self_stake v + delegated_stake v | None => 0 end) l ∧ 0 ≤ cuts c T m l.
Proof.
  intros W HT Hc. unfold cuts, sumZ. induction l as [|a l [IH1 IH2]]; cbn; [lia|].
  destruct (m !! a) as [v|] eqn:E; [|lia]. pose proof (total_stake_exact v (W a v E)) as Et. destruct (W a v E).
  destruct (cut_bounds c T v HT) as [[? ?] ?]; [nia|]. rewrite Et in *. lia.
Qed.

Lemma mint_nonneg h fees : 0 ≤ fees → 0 ≤ interval_base h ∧ 0 ≤ saturating_add128 (interval_base h) fees < U128.
Proof.
  intros Hf. assert (0 ≤ interval_base h) as Hb.
  { unfold interval_base, sum128. apply (fold_left_inv (fun x => 0 ≤ x)); [|done].
    intros x b _. apply Z.mod_pos_bound. done. }
  unfold saturating_add128, U128_MAX, U128. lia.
Qed.

Lemma distribute_effect h proposer fees vs :
  wf_vs vs → 0 ≤ fees → active_stakes vs < U128 → vs_owed vs + interval_escrow_mint h fees < U128 →
  let mint := interval_escrow_mint h fees in
  let vs' := distribute_block_reward h proposer fees vs in
  wf_vs vs' ∧ same_stakes (validators vs) (validators vs') ∧ active_set vs' = active_set vs ∧
  (h mod REWARD_INTERVAL ≠ 0 → vs' = vs) ∧
  ∃ b k, vs_owed vs' = vs_owed vs + b + k ∧ 0 ≤ b ≤ mint / 10 ∧ 0 ≤ k ≤ mint - mint / 10 ∧
    (k = 0 ∨ 0 < active_stakes vs ∧ k = cuts (mint - mint / 10) (active_stakes vs) (validators vs) (active_set vs)).
Proof.
  intros W Hf Hs Hm mint vs'. assert (0 ≤ mint) as Hpos.
  { unfold mint, interval_escrow_mint. case_if; [done|]. apply (mint_nonneg h fees Hf). }
  pose proof (Z.mul_div_le mint 10 ltac:(lia)) as Hb. assert (0 ≤ mint / 10) by (apply Z.div_pos; lia).
  assert (∃ b k, vs_owed vs = vs_owed vs + b + k ∧ 0 ≤ b ≤ mint / 10 ∧ 0 ≤ k ≤ mint - mint / 10 ∧
    (k = 0 ∨ 0 < active_stakes vs ∧ k = cuts (mint - mint / 10) (active_stakes vs) (validators vs) (active_set vs))) as Hsame.
  { exists 0, 0. split_and!; (lia || by left). }
  subst vs'. fold mint in Hm. unfold distribute_block_reward in *. unfold interval_escrow_mint in mint.
  destruct (Z.eqb_spec (h mod REWARD_INTERVAL) 0) as [Eb|Nb]; cbn [negb] in *; [|split_and!; [done..|exact Hsame]].
  fold mint in Hsame |- *. destruct (Z.eqb_spec mint 0) as [E0|N0]; [split_and!; [done..|exact Hsame]|].
  destruct (total_active_exact vs W Hs) as [-> Hann].
  destruct (Z.eqb_spec (active_stakes vs) 0) as [|Na]; [split_and!; [done..|exact Hsame]|]. clear Hsame.
  destruct (pay_proposer_owed proposer (mint / 10) (validators vs) W) as (E1 & W1 & S1); [lia|unfold vs_owed in Hm; lia|].
  set (m1 := pay_proposer proposer (mint / 10) (validators vs)) in *. set (c := mint - mint / 10) in *.
  assert (0 ≤ c) as Hc by (unfold c; lia).
  destruct (cut_sum_le c (active_stakes vs) (validators vs) (active_set vs) W ltac:(lia) Hc) as [Hcut Hcn].
  change (sumZ _ (active_set vs)) with (active_stakes vs) in Hcut.
  assert (cuts c (active_stakes vs) (validators vs) (active_set vs) ≤ c) as Hle by nia.
  destruct (pay_committee_owed c (active_stakes vs) (active_set vs) m1 W1 ltac:(lia) Hc) as (E2 & W2 & S2).
  { rewrite E1, (same_stakes_cuts _ _ _ _ _ S1). unfold vs_owed in Hm. case_bool_decide; unfold c in *; lia. }
  split_and!; [done|by eapply same_stakes_trans|done|done|].
  rewrite E1, (same_stakes_cuts _ _ _ _ _ S1) in E2. eexists _, _. split; [exact E2|].
  split_and!; [case_bool_decide; lia|case_bool_decide; lia|done|done|right; split; [lia|done]].
Qed.

(** At a reward boundary the validators and delegators together are
    credited at most what [interval_escrow_mint] asks the executor to mint into
    the escrow for that block, no stake, status or key changes, and off the
    boundary nothing changes at all. *)
Theorem distribution_within_mint (h : Z) (proposer : address) (fees : Z) (vs : ValidatorSet) :
  wf_vs vs → 0 ≤ fees → active_stakes vs < U128 → vs_owed vs + interval_escrow_mint h fees < U128 →
  let vs' := distribute_block_reward h proposer fees vs in
  vs_owed vs ≤ vs_owed vs' ≤ vs_owed vs + interval_escrow_mint h fees ∧
  wf_vs vs' ∧ same_stakes (validators vs) (validators vs') ∧ active_set vs' = active_set vs ∧
  (h mod REWARD_INTERVAL ≠ 0 → vs' = vs).
Proof.
  intros W Hf Hs Hm vs'. destruct (distribute_effect h proposer fees vs W Hf Hs Hm) as (W' & S & A & N & b & k & E & Hb & Hk & _).
  fold vs' in E. split_and!; (done || lia).
Qed.

Lemma cuts_wrap c vs : wf_vs vs → 0 < active_stakes vs →
  (∀ a v, a ∈ active_set vs → vs_get vs a = Some v → MIN_SELF_STAKE ≤ self_stake v) →
  cuts c (active_stakes vs) (validators vs) (active_set vs) ≤ Z.of_nat (length (active_set vs)) * (U128 / MIN_SELF_STAKE).
Proof.
  intros W Hpos Hmin. assert (0 ≤ U128 / MIN_SELF_STAKE) as Hq by (apply Z.div_pos; done).
  assert (∀ l, l ⊆ active_set vs → cuts c (active_stakes vs) (validators vs) l ≤ Z.of_nat (length l) * (U128 / MIN_SELF_STAKE)) as H;
    [|by apply H].
  induction l as [|a l IH]; intros Hl; [done|]. specialize (IH ltac:(set_solver)).
  change (cuts ?c ?T ?m (a :: l)) with (match m !! a with Some v => cut c T v | None => 0 end + cuts c T m l).
  cbn [length]. rewrite Nat2Z.inj_succ. destruct (validators vs !! a) as [v|] eqn:Ev; [|nia].
  assert (cut c (active_stakes vs) v ≤ U128 / MIN_SELF_STAKE); [|nia]. unfold cut.
  assert (MIN_SELF_STAKE ≤ active_stakes vs) as HT.
  { specialize (Hmin a v ltac:(set_solver) Ev). apply (Z.le_trans _ (self_stake v + delegated_stake v)); [destruct (W a v Ev); lia|].
    unfold active_stakes. assert (a ∈ active_set vs) as Ha by set_solver. clear Hl IH Hmin Hpos.
    apply list_elem_of_split in Ha as (l1 & l2 & ->). rewrite sumZ_app. cbn. unfold vs_get at 2. rewrite Ev.
    assert (∀ l, 0 ≤ sumZ (fun a => match vs_get vs a with Some v => self_stake v + delegated_stake v | None => 0 end) l) as Hnn.
    { intros l0. apply sumZ_nonneg, Forall_forall. intros b _. destruct (vs_get vs b) as [w|] eqn:E; [|done]. destruct (W b w E). lia. }
    pose proof (Hnn l1). pose proof (Hnn l2). unfold sumZ in *. lia. }
  pose proof (Z.mod_pos_bound (c * total_stake v) U128 ltac:(done)). unfold wrap128.
  etrans; [apply Z.div_le_mono; [lia|]; apply Z.lt_le_incl, H|]. apply Z.div_le_compat_l; [done|]. split; [done|lia].
Qed.

(** The product of the committee share with a stake is computed in 128
    bits, and a validator has at least 10^23 wei at stake: whatever the
    interval's subsidy and fees, an active validator of legal stake receives at
    most 2^128 / 10^23 wei (0.0034 ZBX) of the committee share, so nearly all of
    what is minted for a hundred blocks is credited to nobody. *)
Theorem committee_share_wraps (h : Z) (proposer : address) (fees : Z) (vs : ValidatorSet) :
  wf_vs vs → 0 ≤ fees → active_stakes vs < U128 → vs_owed vs + interval_escrow_mint h fees < U128 →
  (∀ a v, a ∈ active_set vs → vs_get vs a = Some v → MIN_SELF_STAKE ≤ self_stake v) →
  vs_owed (distribute_block_reward h proposer fees vs) ≤
    vs_owed vs + interval_escrow_mint h fees / 10 + Z.of_nat (length (active_set vs)) * (U128 / MIN_SELF_STAKE).
Proof.
  intros W Hf Hs Hm Hmin. assert (0 ≤ U128 / MIN_SELF_STAKE) as Hq by (apply Z.div_pos; done).
  destruct (distribute_effect h proposer fees vs W Hf Hs Hm) as (_ & _ & _ & _ & b & k & -> & Hb & Hk & [->|[HT ->]]); [nia|].
  pose proof (cuts_wrap (interval_escrow_mint h fees - interval_escrow_mint h fees / 10) vs W HT Hmin). lia.
Qed.

(** ** Sharing a pool *)

(** The claims of a sequence of stakes, with what each receives. *)
Fixpoint claims (stakes : list Z) (v : Validator) : list Z * Validator :=
  match stakes with
  | [] => ([], v)
  | s :: rest => let '(x, v1) := claim_delegator_share s v in
                 let '(xs, v2) := claims rest v1 in (x :: xs, v2)
  end.

Lemma claim_spec s v :
  wf_validator v → 0 < s → delegator_reward_pool v * s ≤ U128_MAX →
  let P := delegator_reward_pool v in let D := pool_denominator v in
  let share := if D <=? s then P else P * s / D in
  claim_delegator_share s v = (share, if P =? 0 then v else set_pool (P - share) (saturating_sub D s) v) ∧ 0 ≤ share ≤ P.
Proof.
  intros W Hs Hov. destruct W as [_ _ _ _ _ HP HD]. unfold claim_delegator_share, checked_mul128. cbn zeta.
  set (P := delegator_reward_pool v) in *. set (D := pool_denominator v) in *.
  assert (0 ≤ (if D <=? s then P else P * s / D) ≤ P) as Hsh.
  { case_if; [lia|]. split; [apply Z.div_pos; nia|]. apply Z.div_le_upper_bound; nia. }
  destruct (Z.eqb_spec P 0) as [E|N].
  { split; [|done]. rewrite E. f_equal. case_if; [done|]. symmetry. apply Z.div_0_l. lia. }
  split; [|done]. rewrite (proj2 (Z.leb_le _ _) Hov).
  assert (Z.min (if 0 <? D then P * s / D else P) P = if D <=? s then P else P * s / D) as ->.
  { destruct (Z.leb_spec D s), (Z.ltb_spec 0 D); try lia. apply Z.min_r. apply Z.div_le_lower_bound; nia. }
  f_equal. f_equal. unfold saturating_sub. lia.
Qed.

Lemma claim_step s v :
  wf_validator v → 0 < s → delegator_reward_pool v * s ≤ U128_MAX →
  let x := (claim_delegator_share s v).1 in let v' := (claim_delegator_share s v).2 in
  wf_validator v' ∧ 0 ≤ x ∧ x + delegator_reward_pool v' = delegator_reward_pool v ∧
  (delegator_reward_pool v ≠ 0 → pool_denominator v' = saturating_sub (pool_denominator v) s) ∧
  (pool_denominator v ≤ s → x = delegator_reward_pool v) ∧
  (s < pool_denominator v → x = delegator_reward_pool v * s / pool_denominator v).
Proof.
  intros W Hs Hov. destruct (claim_spec s v W Hs Hov) as [-> Hsh]. cbn [fst snd].
  set (sh := if pool_denominator v <=? s then _ else _) in *. destruct W as [H1 H2 H3 H4 H5 H6 H7].
  assert ((pool_denominator v ≤ s → sh = delegator_reward_pool v) ∧
    (s < pool_denominator v → sh = delegator_reward_pool v * s / pool_denominator v)) as [E1 E2].
  { unfold sh. destruct (Z.leb_spec (pool_denominator v) s); split; intros; (done || lia). }
  destruct (Z.eqb_spec (delegator_reward_pool v) 0) as [E|N]; cbn [delegator_reward_pool pool_denominator set_pool].
  - split_and!; [by split|lia|lia|done|done|done].
  - split_and!; [split; cbn; try (done || lia); unfold saturating_sub; lia|lia|lia|done|done|done].
Qed.

(** Claims in sequence from a pool [P0] over a denominator [D0]: what is left
    stays at least proportional to the stakes still to come. *)
Lemma claims_run P0 D0 l v :
  0 ≤ P0 → 0 < D0 → wf_validator v → Forall (fun s => 0 < s ∧ P0 * s ≤ U128_MAX) l → l ≠ [] →
  delegator_reward_pool v ≤ P0 → (delegator_reward_pool v ≠ 0 → sumZ id l = pool_denominator v) →
  P0 * sumZ id l ≤ delegator_reward_pool v * D0 →
  let '(xs, v') := claims l v in
  delegator_reward_pool v' = 0 ∧ sumZ id xs = delegator_reward_pool v ∧ Forall2 (fun s x => P0 * s / D0 ≤ x) l xs.
Proof.
  intros HP0 HD0. revert v. induction l as [|s l IH]; intros v W Hl Hne HP Hd Hprop; [done|].
  apply Forall_cons in Hl as [[Hs Hov] Hl]. pose proof (wv_pool v W) as HPn. cbn [claims].
  pose proof (claim_step s v W Hs ltac:(nia)) as Hc. cbn zeta in Hc.
  destruct (claim_delegator_share s v) as [x v1]. cbn [fst snd] in Hc. destruct Hc as (W1 & Hx & Hcons & Hden & Hall & Hpart).
  rewrite sumZ_cons in Hprop, Hd. change (id s) with s in *.
  assert (Forall (fun s => 0 < s) l) as Hpos by (eapply Forall_impl; [exact Hl|naive_solver]).
  assert (0 ≤ sumZ id l) as Hln by (apply sumZ_nonneg; eapply Forall_impl; [exact Hpos|unfold id; lia]).
  pose proof (wv_pool v1 W1) as HP1n.
  destruct (decide (l = [])) as [->|Hn].
  { cbn. change (sumZ id []) with 0 in *. assert (x = delegator_reward_pool v) as ->.
    { destruct (decide (delegator_reward_pool v = 0)); [lia|]. apply Hall. lia. }
    split_and!; [lia|unfold sumZ; cbn; lia|]. apply Forall2_cons. split; [|constructor]. apply Z.div_le_upper_bound; lia. }
  assert (0 < sumZ id l) as Hlp.
  { destruct l as [|y l]; [done|]. apply Forall_cons in Hpos as [Hy Hpos]. rewrite sumZ_cons. change (id y) with y.
    assert (0 ≤ sumZ id l) by (apply sumZ_nonneg; eapply Forall_impl; [exact Hpos|unfold id; lia]). lia. }
  assert (P0 * s / D0 ≤ x ∧ P0 * sumZ id l ≤ delegator_reward_pool v1 * D0 ∧
    (delegator_reward_pool v1 ≠ 0 → sumZ id l = pool_denominator v1)) as (Hlow & Hprop' & Hd').
  { destruct (decide (delegator_reward_pool v = 0)) as [E|N].
    - assert (P0 = 0) as -> by nia. rewrite Z.mul_0_l, Z.div_0_l by lia. split_and!; nia.
    - specialize (Hd N). rewrite (Hden N) in *. assert (s < pool_denominator v) as Hlt by lia. specialize (Hpart Hlt).
      pose proof (Z.mul_div_le (delegator_reward_pool v * s) (pool_denominator v) ltac:(lia)) as Hx2. rewrite <- Hpart in Hx2.
      split_and!.
      + rewrite Hpart. pose proof (Z.mul_div_le (P0 * s) D0 HD0). apply Z.div_le_lower_bound; [lia|]. rewrite <- Hd in *.
        set (q := P0 * s / D0) in *. apply (Z.mul_le_mono_pos_l _ _ D0); nia.
      + apply (Z.mul_le_mono_pos_l _ _ (pool_denominator v)); [lia|]. nia.
      + intros _. unfold saturating_sub. lia. }
  specialize (IH v1 W1 Hl Hn ltac:(lia) Hd' Hprop'). destruct (claims l v1) as [xs v2]. destruct IH as (E1 & E2 & E3).
  split_and!; [done|rewrite sumZ_cons; unfold id at 1; lia|by apply Forall2_cons].
Qed.

(** When the delegators whose stakes make up the snapshot claim one after
    the other, the whole pool is paid out and each receives at least its
    proportional part, rounded down. *)
Theorem claims_share_pool (stakes : list Z) (v : Validator) :
  wf_validator v → Forall (fun s => 0 < s ∧ delegator_reward_pool v * s ≤ U128_MAX) stakes → stakes ≠ [] →
  sumZ id stakes = pool_denominator v →
  let '(xs, v') := claims stakes v in
  delegator_reward_pool v' = 0 ∧ sumZ id xs = delegator_reward_pool v ∧
  Forall2 (fun s x => delegator_reward_pool v * s / pool_denominator v ≤ x) stakes xs.
Proof.
  intros W Hst Hne Hsum. apply claims_run; [apply W| |done|done|done|done|done|rewrite Hsum; lia].
  destruct stakes as [|s l]; [done|]. apply Forall_cons in Hst as [[Hs _] Hl]. rewrite sumZ_cons in Hsum. unfold id at 1 in Hsum.
  assert (0 ≤ sumZ id l) by (apply sumZ_nonneg; eapply Forall_impl; [exact Hl|unfold id; cbn; lia]). lia.
Qed.

(** Nothing records who has claimed: a single delegator that repeats its
    claim until its stake times the number of claims reaches the snapshot is
    paid the whole pool, the other delegators' part included. *)
Theorem claimant_takes_pool (n : nat) (s : Z) (v : Validator) :
  wf_validator v → 0 < s → delegator_reward_pool v * s ≤ U128_MAX → pool_denominator v ≤ Z.of_nat n * s → (0 < n)%nat →
  sumZ id (claims (replicate n s) v).1 = delegator_reward_pool v.
Proof.
  intros W Hs. revert v W. induction n as [|n IH]; intros v W Hov Hd Hn; [lia|]. cbn [replicate claims].
  pose proof (claim_step s v W Hs Hov) as Hc. cbn zeta in Hc. destruct (claim_delegator_share s v) as [x v1].
  cbn [fst snd] in Hc. destruct Hc as (W1 & Hx & Hcons & Hden & Hall & Hpart). pose proof (wv_pool v1 W1). pose proof (wv_pool v W).
  destruct n as [|n].
  { cbn. unfold id. rewrite Hall by lia. unfold sumZ. cbn. lia. }
  specialize (IH v1 W1 ltac:(nia)). destruct (claims (replicate (S n) s) v1) as [xs v2] eqn:E. cbn [fst] in *.
  rewrite sumZ_cons. unfold id at 1. destruct (decide (delegator_reward_pool v = 0)) as [E0|N0].
  - assert (sumZ id xs = 0); [|lia]. clear IH.
    assert (∀ k v, delegator_reward_pool v = 0 → sumZ id (claims (replicate k s) v).1 = 0) as Hz.
    { clear. induction k as [|k IHk]; intros v E; [done|]. cbn [replicate claims]. unfold claim_delegator_share. rewrite E, Z.eqb_refl.
      specialize (IHk v E). destruct (claims (replicate k s) v). cbn [fst] in *. rewrite sumZ_cons. unfold id at 1. lia. }
    specialize (Hz (S n) v1 ltac:(lia)). rewrite E in Hz. exact Hz.
  - rewrite IH; [lia| |lia]. rewrite (Hden N0). unfold saturating_sub. lia.
Qed.

(** ** Concrete sets *)

Module Samples.

Definition adr (n : Z) : address := replicate 19 0 ++ [n].
Definition val (n self del : Z) (st : ValidatorStatus) : Validator :=
  mkValidator (adr n) [n] self del 1000 st 0 0 0 0 0.

Definition iter_up : VsIter := map_to_list.
Definition iter_down : VsIter := fun m => rev (map_to_list m).

Definition stake (n : Z) : Z := n * MIN_SELF_STAKE.
Definition vs0 : ValidatorSet :=
  mkVs (<[adr 1 := val 1 (stake 2) 5 Active]> (<[adr 2 := val 2 (stake 2) 5 Active]>
       (<[adr 3 := val 3 (stake 9) 0 Tombstoned]> {[ adr 4 := val 4 (stake 1) 7 Pending ]}))) [adr 1; adr 2] 0.

#[local] Ltac entries :=
  repeat match goal with H : _ ∨ _ |- _ => destruct H | H : _ ∧ _ |- _ => destruct H end; subst.

Lemma vs0_wf : wf_vs vs0 ∧ self_keyed vs0.
Proof.
  split; intros a v; unfold vs0; cbn [validators]; rewrite !lookup_insert_Some, lookup_singleton_Some; intros Hv;
    entries; try done; split; cbn; (done || unfold U128; lia).
Qed.

Lemma election_correct_witness :
  (@elect_active_set iter_up vs0).1 = [adr 1; adr 2; adr 4] ∧ @elect_active_set iter_down vs0 = @elect_active_set iter_up vs0.
Proof.
  split; [vm_compute; reflexivity|].
  destruct (election_correct iter_up iter_down vs0 (fun m => Permutation_refl _) (fun m => Permutation_sym (Permutation_rev _))
    (proj2 vs0_wf)) as [E _].
  rewrite E. by destruct (@elect_active_set iter_up vs0).
Defined.

Lemma distribution_within_mint_witness :
  vs_owed (distribute_block_reward 100 (adr 1) 7 vs0) ≤ vs_owed vs0 + interval_escrow_mint 100 7 ∧
  vs_owed vs0 < vs_owed (distribute_block_reward 100 (adr 1) 7 vs0).
Proof.
  split; [|vm_compute; reflexivity].
  destruct (distribution_within_mint 100 (adr 1) 7 vs0 (proj1 vs0_wf) ltac:(lia) ltac:(vm_compute; reflexivity)
    ltac:(vm_compute; reflexivity)) as [[_ H] _]. exact H.
Defined.

(** Of 200 ZBX for a hundred blocks, 180 should reach the committee; 0.007 do. *)
Lemma committee_share_wraps_witness :
  interval_escrow_mint 100 0 = 200 * 10 ^ 18 ∧
  vs_owed (distribute_block_reward 100 (adr 1) 0 vs0) ≤ 20 * 10 ^ 18 + 7 * 10 ^ 15.
Proof.
  split; [vm_compute; reflexivity|].
  eapply Z.le_trans; [refine (committee_share_wraps 100 (adr 1) 0 vs0 (proj1 vs0_wf) _ _ _ _);
    [lia|vm_compute; reflexivity|vm_compute; reflexivity|]|].
  - intros a v Ha. unfold vs_get, vs0. cbn [validators]. rewrite !lookup_insert_Some, lookup_singleton_Some. intros Hv.
    entries; cbn; vm_compute; discriminate.
  - vm_compute. discriminate.
Defined.

Definition pooled : Validator := mkValidator (adr 1) [] 1000000 4000000 0 Active 0 0 1200 4000000 0.

Lemma pooled_wf : wf_validator pooled.
Proof. split; cbn; (done || unfold U128; lia). Qed.

Lemma claims_share_pool_witness :
  (claims [3000000; 1000000] pooled).1 = [900; 300] ∧ sumZ id (claims [3000000; 1000000] pooled).1 = delegator_reward_pool pooled.
Proof.
  split; [vm_compute; reflexivity|].
  pose proof (claims_share_pool [3000000; 1000000] pooled pooled_wf
    ltac:(repeat constructor; cbn; unfold U128_MAX; lia) ltac:(done) ltac:(reflexivity)) as H.
  destruct (claims _ _) as [xs v']. apply H.
Defined.

(** The delegator with a quarter of the stake takes everything. *)
Lemma claimant_takes_pool_witness :
  sumZ id (claims (replicate 4 1000000) pooled).1 = 1200.
Proof.
  apply (claimant_takes_pool 4 1000000 pooled pooled_wf); [lia|cbn; unfold U128_MAX; lia|cbn; lia|lia].
Defined.

End Samples.

End Validators.
