(* ===== verification/StakingTx.v ===== *)
(** * The wire format of staking calls

    Models [crates/zbx-types/src/staking_tx.rs]: the [StakingTx] payload and
    its RLP codec, and [decode_staking_call] of
    [crates/zbx-staking/src/tx_handler.rs]. The third-party [rlp] crate is
    [RlpCrate] for writing and [RlpReader] for reading; [RlpReaderLaws] states
    what the crate documents about reading a list back. The theorem is the
    round trip, and that whatever is decoded has fields of the declared
    widths. *)

From S2P Require Import Prelude.
From S2P Require Import Rlp.
From S2P Require Import EvmBase.
From S2P Require Import EvmHost.
From S2P Require Import Transaction.
From S2P Require Import Votes.
From S2P Require Import Validators.

Module StakingTx.
Import EvmHost Transaction.Transaction Validators.

(** ** Reading with the rlp crate

    [item_count], [at], [data], and [as_val] at the two integer types the codec
    reads; every [DecoderError] is [None]. *)

Class RlpReader := {
  rlp_item_count : bytes → option Z;
  rlp_at : bytes → nat → option bytes;
  rlp_data : bytes → option bytes;
  rlp_u8 : bytes → option Z;
  rlp_u16 : bytes → option Z
}.

Section Laws.
Context `{RlpCrate} `{RlpReader}.

(** A list of string items is read back item by item; integers are read from
    their minimal bytes; what is read from bytes is bytes, and an integer of a
    type is in its range. *)
Class RlpReaderLaws := {
  count_back fs : Forall wf_field fs → fields_size fs < 2 ^ 60 → Forall (fun f => ∃ c, field_content f = inl c) fs →
    rlp_item_count (rlp_list fs) = Some (Z.of_nat (length fs));
  items_back fs i f c : Forall wf_field fs → fields_size fs < 2 ^ 60 → Forall (fun f => ∃ c, field_content f = inl c) fs →
    fs !! i = Some f → field_content f = inl c → ∃ it, rlp_at (rlp_list fs) i = Some it ∧ rlp_data it = Some c ∧
      (∀ n, c = Rlp.minimal_bytes n → 0 ≤ n < 2 ^ 8 → rlp_u8 it = Some n) ∧
      (∀ n, c = Rlp.minimal_bytes n → 0 ≤ n < 2 ^ 16 → rlp_u16 it = Some n);
  at_bytes b i it : wf_bytes b → rlp_at b i = Some it → wf_bytes it;
  data_bytes b c : wf_bytes b → rlp_data b = Some c → wf_bytes c;
  u16_range b n : wf_bytes b → rlp_u16 b = Some n → 0 ≤ n < 2 ^ 16
}.
End Laws.

(** ** staking_tx.rs *)

Definition STAKING_PRECOMPILE_ADDR : address := replicate 18 0 ++ [0x08; 0x88].
Definition UNBONDING_PERIOD_BLOCKS : Z := 907200.
Definition APPEAL_BOND_WEI : Z := 1000 * 10 ^ 18.

Definition TAG_REGISTER : Z := 0.
Definition TAG_DELEGATE : Z := 1.
Definition TAG_UNDELEGATE : Z := 2.
Definition TAG_WITHDRAW : Z := 3.
Definition TAG_CLAIM_REWARDS : Z := 4.
Definition TAG_CLAIM_DELEGATOR_REWARDS : Z := 5.
Definition TAG_FILE_APPEAL : Z := 6.

Inductive StakingTx :=
| RegisterValidator (pubkey bls_pubkey bls_pop : bytes) (stake commission : Z)
| Delegate (validator : address) (amount : Z)
| Undelegate (validator : address) (amount : Z)
| Withdraw (validator : address)
| ClaimRewards (validator : address)
| ClaimDelegatorRewards (validator : address)
| FileAppeal (evidence_id : bytes).

#[export] Instance StakingTx_eq_dec : EqDecision StakingTx.
Proof. solve_decision. Defined.

Definition u128_be (v : Z) : bytes := to_be 16 v.

(** [rlp_append] *)
Definition staking_fields (c : StakingTx) : list rlp_field :=
  match c with
  | RegisterValidator pubkey bls_pubkey bls_pop stake commission =>
      [FU64 TAG_REGISTER; FBytes pubkey; FBytes bls_pubkey; FBytes bls_pop; FBytes (u128_be stake); FU64 commission]
  | Delegate validator amount => [FU64 TAG_DELEGATE; FBytes validator; FBytes (u128_be amount)]
  | Undelegate validator amount => [FU64 TAG_UNDELEGATE; FBytes validator; FBytes (u128_be amount)]
  | Withdraw validator => [FU64 TAG_WITHDRAW; FBytes validator]
  | ClaimRewards validator => [FU64 TAG_CLAIM_REWARDS; FBytes validator]
  | ClaimDelegatorRewards validator => [FU64 TAG_CLAIM_DELEGATOR_REWARDS; FBytes validator]
  | FileAppeal evidence_id => [FU64 TAG_FILE_APPEAL; FBytes evidence_id]
  end.

Section Codec.
Context `{RlpCrate} `{RlpReader}.

Definition encode (c : StakingTx) : bytes := rlp_list (staking_fields c).

Definition u128_from_be (item : bytes) : option Z :=
  b ← rlp_data item;
  if (16 <? length b)%nat then None else Some (be_val (replicate (16 - length b) 0 ++ b)).

Definition fixed_bytes (n : nat) (item : bytes) : option bytes :=
  b ← rlp_data item; if negb (length b =? n)%nat then None else Some b.

Definition address_at (item : bytes) : option address := fixed_bytes 20 item.

Definition decode (rlp : bytes) : option StakingTx :=
  n ← rlp_item_count rlp;
  if n =? 0 then None else
  tag ← rlp_at rlp 0 ≫= rlp_u8;
  if (tag =? TAG_REGISTER) && (n =? 6) then
    pubkey ← rlp_at rlp 1 ≫= fixed_bytes 33;
    bls_pubkey ← rlp_at rlp 2 ≫= fixed_bytes 48;
    bls_pop ← rlp_at rlp 3 ≫= fixed_bytes 96;
    stake ← rlp_at rlp 4 ≫= u128_from_be;
    commission ← rlp_at rlp 5 ≫= rlp_u16;
    Some (RegisterValidator pubkey bls_pubkey bls_pop stake commission)
  else if (tag =? TAG_DELEGATE) && (n =? 3) then
    validator ← rlp_at rlp 1 ≫= address_at; amount ← rlp_at rlp 2 ≫= u128_from_be; Some (Delegate validator amount)
  else if (tag =? TAG_UNDELEGATE) && (n =? 3) then
    validator ← rlp_at rlp 1 ≫= address_at; amount ← rlp_at rlp 2 ≫= u128_from_be; Some (Undelegate validator amount)
  else if (tag =? TAG_WITHDRAW) && (n =? 2) then validator ← rlp_at rlp 1 ≫= address_at; Some (Withdraw validator)
  else if (tag =? TAG_CLAIM_REWARDS) && (n =? 2) then validator ← rlp_at rlp 1 ≫= address_at; Some (ClaimRewards validator)
  else if (tag =? TAG_CLAIM_DELEGATOR_REWARDS) && (n =? 2) then
    validator ← rlp_at rlp 1 ≫= address_at; Some (ClaimDelegatorRewards validator)
  else if (tag =? TAG_FILE_APPEAL) && (n =? 2) then id ← rlp_at rlp 1 ≫= fixed_bytes 32; Some (FileAppeal id)
  else None.

Definition decode_staking_call (data : bytes) : outcome StakingError StakingTx :=
  ok_or (decode data) (BadPayload PayloadUndecodable).

End Codec.

(** ** Correctness *)

Definition fixed (n : nat) (b : bytes) : Prop := length b = n ∧ wf_bytes b.

(** The fields have the widths of the Rust types. *)
Definition wf_call (c : StakingTx) : Prop :=
  match c with
  | RegisterValidator pubkey bls_pubkey bls_pop stake commission =>
      fixed 33 pubkey ∧ fixed 48 bls_pubkey ∧ fixed 96 bls_pop ∧ is_u128 stake ∧ 0 ≤ commission < 2 ^ 16
  | Delegate validator amount | Undelegate validator amount => fixed 20 validator ∧ is_u128 amount
  | Withdraw validator | ClaimRewards validator | ClaimDelegatorRewards validator => fixed 20 validator
  | FileAppeal id => fixed 32 id
  end.

Section Roundtrip.
Context `{RlpCrate} `{RlpReader} `{!RlpReaderLaws}.

Lemma u128_be_fixed x : fixed 16 (u128_be x).
Proof. split; [apply length_to_be|apply wf_to_be]. Qed.

Lemma fixed_back n it c : rlp_data it = Some c → fixed n c → fixed_bytes n it = Some c.
Proof. intros E [Hl _]. unfold fixed_bytes. rewrite E. cbn. by rewrite Hl, Nat.eqb_refl. Qed.

Lemma u128_back it x : rlp_data it = Some (u128_be x) → is_u128 x → u128_from_be it = Some x.
Proof.
  intros E Hx. unfold u128_from_be. rewrite E. cbn [mbind option_bind]. unfold u128_be. rewrite length_to_be.
  change (Some (be_val (to_be 16 x)) = Some x). rewrite be_val_to_be, Z.mod_small; [done|exact Hx].
Qed.

Lemma fields_wf c : wf_call c →
  Forall wf_field (staking_fields c) ∧ fields_size (staking_fields c) < 2 ^ 60 ∧
  Forall (fun f => ∃ b, field_content f = inl b) (staking_fields c).
Proof.
  assert (∀ t, 0 ≤ t < 2 ^ 16 → wf_field (FU64 t)) as Hu by (intros; constructor; unfold is_u64; lia).
  assert (∀ x, wf_field (FBytes (u128_be x))) as Ha by (intros; constructor; apply wf_to_be).
  assert (∀ n, length (Rlp.minimal_bytes n) ≤ 8)%nat as Hm by (intros; unfold Rlp.minimal_bytes; rewrite length_drop, length_to_be; lia).
  intros W. split_and!.
  - destruct c; cbn [wf_call staking_fields] in *; unfold fixed in *; destruct_and?; repeat apply Forall_cons_2; try apply Forall_nil_2;
      first [apply Ha | constructor; done | apply Hu; first [lia | split; vm_compute; congruence]].
  - unfold fields_size, field_size, Rlp.rlp_len. destruct c as [p1 p2 p3 st cm|v x|v x|v|v|v|v]; cbn [wf_call staking_fields foldr field_content] in *; unfold fixed in *;
      destruct_and?; unfold u128_be; rewrite ?length_to_be; repeat match goal with H : length ?b = _ |- context [length ?b] => rewrite H end;
      repeat match goal with |- context [length (Rlp.minimal_bytes ?n)] =>
        let k := fresh "k" in pose proof (Hm n); set (k := length (Rlp.minimal_bytes n)) in * end; lia.
  - destruct c; repeat apply Forall_cons_2; try apply Forall_nil_2; eexists; reflexivity.
Qed.

(** The item at a position of an encoded call. *)
Lemma item_of c i f b : wf_call c → staking_fields c !! i = Some f → field_content f = inl b →
  ∃ it, rlp_at (encode c) i = Some it ∧ rlp_data it = Some b ∧
    (∀ n, b = Rlp.minimal_bytes n → 0 ≤ n < 2 ^ 8 → rlp_u8 it = Some n) ∧
    (∀ n, b = Rlp.minimal_bytes n → 0 ≤ n < 2 ^ 16 → rlp_u16 it = Some n).
Proof. intros W Hi Hb. destruct (fields_wf c W) as (W1 & W2 & W3). by eapply items_back. Qed.

Lemma bytes_at c i n b : wf_call c → staking_fields c !! i = Some (FBytes b) → fixed n b →
  rlp_at (encode c) i ≫= fixed_bytes n = Some b.
Proof. intros W Hi Hb. destruct (item_of c i _ b W Hi eq_refl) as (it & -> & E & _). by apply fixed_back. Qed.

Lemma amount_at c i x : wf_call c → staking_fields c !! i = Some (FBytes (u128_be x)) → is_u128 x →
  rlp_at (encode c) i ≫= u128_from_be = Some x.
Proof. intros W Hi Hx. destruct (item_of c i _ _ W Hi eq_refl) as (it & -> & E & _). by apply u128_back. Qed.

Lemma tag_at c t : wf_call c → staking_fields c !! 0%nat = Some (FU64 t) → 0 ≤ t < 2 ^ 8 →
  rlp_at (encode c) 0 ≫= rlp_u8 = Some t.
Proof. intros W Hi Ht. destruct (item_of c 0 _ _ W Hi eq_refl) as (it & -> & _ & E & _). by apply E. Qed.

Lemma u16_at c i n : wf_call c → staking_fields c !! i = Some (FU64 n) → 0 ≤ n < 2 ^ 16 →
  rlp_at (encode c) i ≫= rlp_u16 = Some n.
Proof. intros W Hi Ht. destruct (item_of c i _ _ W Hi eq_refl) as (it & -> & _ & _ & E). by apply E. Qed.

Lemma count_at c : wf_call c → rlp_item_count (encode c) = Some (Z.of_nat (length (staking_fields c))).
Proof. intros W. destruct (fields_wf c W) as (W1 & W2 & W3). by apply count_back. Qed.

(** Decoding the encoding of any staking call gives the call back. *)
Theorem staking_call_roundtrip (c : StakingTx) : wf_call c → decode_staking_call (encode c) = Ok c.
Proof.
  intros W. unfold decode_staking_call, decode, address_at. rewrite (count_at c W). cbn [mbind option_bind].
  destruct c; cbn [wf_call] in W; destruct_and?; cbn [staking_fields length Z.of_nat Z.eqb];
    (erewrite tag_at; [|done|reflexivity|done]); cbn -[rlp_at rlp_u8 rlp_u16 fixed_bytes u128_from_be encode];
    repeat first [ erewrite bytes_at; [|done|reflexivity|done]; cbn [mbind option_bind]
                 | erewrite amount_at; [|done|reflexivity|done]; cbn [mbind option_bind]
                 | erewrite u16_at; [|done|reflexivity|done]; cbn [mbind option_bind] ]; done.
Qed.

Lemma fixed_wf n rlp i b : wf_bytes rlp → rlp_at rlp i ≫= fixed_bytes n = Some b → fixed n b.
Proof.
  intros Hw. destruct (rlp_at rlp i) as [it|] eqn:E; [|done]. cbn. unfold fixed_bytes.
  destruct (rlp_data it) as [c|] eqn:Ec; [|done]. cbn. destruct (Nat.eqb_spec (length c) n) as [Hl|]; [|done]. cbn. intros [= <-].
  split; [done|]. by eapply data_bytes, Ec; eapply at_bytes.
Qed.

Lemma u128_wf rlp i x : wf_bytes rlp → rlp_at rlp i ≫= u128_from_be = Some x → is_u128 x.
Proof.
  intros Hw. destruct (rlp_at rlp i) as [it|] eqn:E; [|done]. cbn [mbind option_bind]. unfold u128_from_be.
  destruct (rlp_data it) as [c|] eqn:Ec; [|done]. cbn [mbind option_bind]. destruct (Nat.ltb_spec 16 (length c)); [done|].
  intros [= <-]. assert (wf_bytes c) by (by eapply data_bytes, Ec; eapply at_bytes).
  pose proof (be_val_bound (replicate (16 - length c) 0 ++ c)) as Hb. rewrite length_app, length_replicate in Hb.
  unfold is_u128. change U128 with (256 ^ Z.of_nat 16). replace (16 - length c + length c)%nat with 16%nat in Hb by lia.
  apply Hb, Forall_app. split; [|done]. apply Forall_replicate. unfold is_u8. lia.
Qed.

(** What is decoded fits the Rust types, whatever the payload. *)
Lemma decoded_wf rlp c : wf_bytes rlp → decode_staking_call rlp = Ok c → wf_call c.
Proof.
  intros Hw. unfold decode_staking_call, decode, address_at. destruct (rlp_item_count rlp) as [n|]; [|done]. cbn [mbind option_bind].
  case_if; [done|]. destruct (rlp_at rlp 0 ≫= rlp_u8) as [t|]; [|done]. cbn [mbind option_bind].
  assert (∀ x, rlp_at rlp 5 ≫= rlp_u16 = Some x → 0 ≤ x < 2 ^ 16) as Hu.
  { intros x. destruct (rlp_at rlp 5) as [it|] eqn:E; [|done]. cbn. apply u16_range. by eapply at_bytes. }
  repeat match goal with |- context [if ?b then _ else _] => destruct b end;
  repeat match goal with
  | |- ok_or (mbind ?k (mbind ?f (rlp_at rlp ?i))) _ = _ → _ => destruct (mbind f (rlp_at rlp i)) eqn:?; cbn [mbind option_bind]
  end; try done; intros [= <-]; cbn [wf_call];
    eauto 10 using fixed_wf, u128_wf.
Qed.

End Roundtrip.

(** ** The codec of zbx-rlp satisfies the laws *)

Module ZbxReader.
Import Rlp ZbxRlp.

Definition ok_some {A} (r : res A) : option A := match r with Ok a => Some a | _ => None end.

(** An unsigned integer of at most [w] bytes. *)
Definition read_uint (w : nat) (b : bytes) : option Z :=
  c ← ok_some (as_bytes b); if (w <? length c)%nat then None else Some (be_val c).

#[export] Instance zbx_reader : RlpReader := {|
  rlp_item_count b := ok_some (item_count b);
  rlp_at b i := ok_some (at_ b (Z.of_nat i));
  rlp_data b := ok_some (as_bytes b);
  rlp_u8 := read_uint 1;
  rlp_u16 := read_uint 2
|}.

Lemma flat_items fs : Forall (fun f => ∃ c, field_content f = inl c) fs → Forall wf_field fs →
  ∃ cs, Forall wf_bytes cs ∧ Forall2 (fun f c => field_content f = inl c) fs cs ∧ payload fs = concat (map string_item cs).
Proof.
  induction 1 as [|f fs [c Hc] _ IH]; intros Hw; [by exists []; split_and!|]. apply Forall_cons in Hw as [Hf Hw].
  destruct (IH Hw) as (cs & H1 & H2 & H3). exists (c :: cs). split_and!.
  - constructor; [by eapply wf_content|done].
  - by constructor.
  - unfold payload in *. cbn [map concat]. rewrite H3. unfold field_bytes. by rewrite Hc.
Qed.

Lemma minimal_width (n : Z) (w : nat) : 0 ≤ n < 256 ^ Z.of_nat w → (w ≤ 8)%nat → (length (minimal_bytes n) ≤ w)%nat ∧ be_val (minimal_bytes n) = n.
Proof.
  intros Hn Hw. assert (256 ^ Z.of_nat w ≤ 256 ^ 8) by (apply Z.pow_le_mono_r; lia). destruct (decide (n = 0)) as [->|].
  { change (minimal_bytes 0) with (@nil Z). split; [cbn; lia|reflexivity]. }
  destruct (minimal_bytes_spec n) as (Hwf & Hv & Hl & b & r & E & Hb); [lia|]. split; [|done].
  assert (256 ^ (Z.of_nat (length (minimal_bytes n)) - 1) ≤ n) as Hlow.
  { rewrite <- Hv at 2. rewrite E in *. rewrite be_val_cons. cbn [length]. apply Forall_cons in Hwf as [Hb8 Hr]. pose proof (be_val_bound r Hr).
    replace (Z.of_nat (S (length r)) - 1) with (Z.of_nat (length r)) by lia. unfold is_u8 in Hb8. nia. }
  destruct (decide (length (minimal_bytes n) ≤ w)%nat); [done|]. exfalso.
  assert (256 ^ Z.of_nat w ≤ 256 ^ (Z.of_nat (length (minimal_bytes n)) - 1)) by (apply Z.pow_le_mono_r; lia). lia.
Qed.

Lemma read_minimal w it n : ok_some (as_bytes it) = Some (minimal_bytes n) → 0 ≤ n < 256 ^ Z.of_nat w → (w ≤ 8)%nat →
  read_uint w it = Some n.
Proof.
  intros E Hn Hw. unfold read_uint. rewrite E. cbn [mbind option_bind]. destruct (minimal_width n w Hn Hw) as [Hl Hv].
  rewrite (proj2 (Nat.ltb_ge _ _)) by lia. by rewrite Hv.
Qed.

Lemma item_slice_wf b i it : wf_bytes b → at_ b i = Ok it → wf_bytes it.
Proof.
  intros Hw. unfold at_. destruct (list_payload b) as [[p r]|e|] eqn:E; [|done..]. cbn [outcome_bind fst].
  destruct (list_payload_cases b Hw) as [_ Hp]. specialize (Hp p r E).
  generalize 0 at 1 as pos. generalize 0 as idx. generalize (length p) as fuel. induction fuel as [|f IH]; intros idx pos; cbn [at_loop].
  - by case_if.
  - case_if; [|done]. destruct (item_length p pos) as [il|e|]; [|done..]. cbn [outcome_bind]. case_if; [|apply IH].
    unfold slice. case_if; [|done]. intros [= <-]. eauto with zbx.
Qed.

Lemma payload_wf b c : wf_bytes b → as_bytes b = Ok c → wf_bytes c.
Proof.
  intros Hw. unfold as_bytes, split_payload. destruct b as [|x b]; [done|]. repeat case_if; try done.
  - unfold slice. repeat case_if; cbn [outcome_bind]; try done. intros [= <-]. exact (wf_bytes_take 1 _ Hw).
  - destruct (short_payload_cases (x :: b) (x - 0x80)) as [_ Hp]; [lia|].
    destruct (short_payload (x :: b) (x - 0x80)) as [[p r]|e|] eqn:E; [|done..]. intros [= <-]. by eapply Hp.
  - destruct (long_payload_cases (x :: b) (x - 0xb7)) as [_ Hp]; [done|lia|].
    destruct (long_payload (x :: b) (x - 0xb7)) as [[p r]|e|] eqn:E; [|done..]. intros [= <-]. by eapply Hp.
Qed.

#[export] Instance zbx_reader_laws : RlpReaderLaws.
Proof.
  assert (∀ fs, Forall wf_field fs → fields_size fs < 2 ^ 60 → Forall (fun f => ∃ c, field_content f = inl c) fs →
    ∃ cs, Forall wf_bytes cs ∧ Forall2 (fun f c => field_content f = inl c) fs cs ∧ rlp_len (concat (map string_item cs)) < 2 ^ 62 ∧
      item_count (rlp_list fs) = Ok (Z.of_nat (length fs)) ∧
      ∀ k : nat, at_ (rlp_list fs) (Z.of_nat k) = match map string_item cs !! k with Some x => Ok x | None => Err ItemCountMismatch end) as H.
  { intros fs W S F. destruct (flat_items fs F W) as (cs & H1 & H2 & H3). exists cs. pose proof (payload_len fs W S) as Hl. rewrite H3 in Hl.
    destruct (list_items_decode (map string_item cs)) as [E1 E2]; [|lia|].
    { apply Forall_fmap. eapply Forall_impl; [exact H1|]. intros c Hc. by apply delimited_string. }
    rewrite length_map, <- (Forall2_length _ _ _ H2) in E1. unfold rlp_list, zbx_rlp. rewrite H3. split_and!; [done|done|lia|done|done]. }
  split.
  - intros fs W S F. destruct (H fs W S F) as (cs & _ & _ & _ & E & _). unfold rlp_item_count, zbx_reader. by rewrite E.
  - intros fs i f c W S F Hi Hc. destruct (H fs W S F) as (cs & H1 & H2 & Hl & _ & E).
    destruct (Forall2_lookup_l _ _ _ _ _ H2 Hi) as (c' & Hc' & Ec). rewrite Hc in Ec. apply (inj inl) in Ec as <-.
    unfold rlp_at, rlp_data, rlp_u8, rlp_u16, zbx_reader. rewrite E. rewrite list_lookup_fmap, Hc'. cbn [fmap option_fmap option_map ok_some].
    exists (string_item c). split; [done|]. assert (ok_some (as_bytes (string_item c)) = Some c) as Ed.
    { unfold as_bytes. rewrite <- (app_nil_r (string_item c)), split_payload_string_item; [done| |].
      - by apply (Forall_lookup_1 _ _ _ _ H1 Hc').
      - assert (rlp_len c ≤ rlp_len (string_item c)).
        { destruct (string_item_cases c) as [(b & -> & Hb & ->) | [[-> Hn] | [-> Hn]]]; unfold rlp_len; simpl length; rewrite ?length_app; lia. }
        apply list_elem_of_split_length in Hc' as (l1 & l2 & -> & _). rewrite map_app, concat_app, rlp_len_app in Hl. cbn in Hl.
        rewrite rlp_len_app in Hl. pose proof (rlp_len_nonneg (concat (map string_item l1))). pose proof (rlp_len_nonneg (concat (map string_item l2))). lia. }
    split; [done|]. split; intros n -> Hn; (apply read_minimal; [exact Ed|exact Hn|lia]).
  - intros b i it Hw. unfold rlp_at, zbx_reader. destruct (at_ b (Z.of_nat i)) eqn:E; [|done..]. cbn. intros [= <-]. by eapply item_slice_wf.
  - intros b c Hw. unfold rlp_data, zbx_reader. destruct (as_bytes b) eqn:E; [|done..]. cbn. intros [= <-]. by eapply payload_wf.
  - intros b n Hw. unfold rlp_u16, zbx_reader, read_uint. destruct (as_bytes b) as [c|e|] eqn:E; [|done..]. cbn [ok_some mbind option_bind].
    destruct (Nat.ltb_spec 2 (length c)) as [|Hl]; [done|]. intros [= <-]. pose proof (be_val_bound c (payload_wf b c Hw E)).
    assert (256 ^ Z.of_nat (length c) ≤ 256 ^ 2) by (apply Z.pow_le_mono_r; lia). lia.
Qed.
End ZbxReader.

Module Samples.
Import ZbxRlp ZbxReader.

Lemma staking_call_roundtrip_witness :
  decode_staking_call (encode (Delegate (replicate 20 7) (5 * 10 ^ 18))) = Ok (Delegate (replicate 20 7) (5 * 10 ^ 18)).
Proof.
  apply staking_call_roundtrip. split; [split; [done|]|unfold is_u128, U128; lia]. apply (Forall_replicate _ 20 7). unfold is_u8. lia.
Defined.

(** A key one byte short is refused. *)
Example short_key_refused :
  decode_staking_call (rlp_list [FU64 TAG_REGISTER; FBytes (replicate 32 0); FBytes (replicate 48 0); FBytes (replicate 96 0);
    FBytes (u128_be 1); FU64 500]) = Err (BadPayload PayloadUndecodable).
Proof. vm_compute. reflexivity. Qed.

End Samples.

End StakingTx.
