(* ===== verification/StakingLedger.v ===== *)
(** * The staking ledger: database columns and the deferred write-set

    Models the staking part of [crates/zbx-storage/src/db.rs] (the
    [Delegations] and [Unbonding] column families and [apply_staking_delta]),
    [crates/zbx-staking/src/delta.rs], and the flush of
    [node/src/block_producer.rs]. RocksDB is an ordered map from byte strings
    to byte strings; its I/O errors are not modelled. A hash map or set is
    listed in an unspecified order ([DeltaIter]). The refinement theorem: a
    [StakingDelta] over a database reads and writes exactly as the database it
    will be flushed to. *)

From stdpp Require Import sorting.
From S2P Require Import Prelude.
From S2P Require Import EvmBase.
From S2P Require Import EvmHost.
From S2P Require Import Votes.
From S2P Require Import Validators.

Module StakingLedger.
Import EvmHost Validators.
#[local] Set Warnings "-clear-no-such-hyp".

(** ** db.rs *)

(** [u128::to_le_bytes], [u128::from_le_bytes] *)
Definition to_le16 (x : Z) : bytes := rev (to_be 16 x).
Definition from_le (b : bytes) : Z := be_val (rev b).

Record ZbxDb := mkDb { cf_delegations : gmap bytes bytes; cf_unbonding : gmap bytes bytes }.

Definition delegation_key (validator delegator : address) : bytes := validator ++ delegator.
Definition unbonding_key (unlock : Z) (delegator validator : address) : bytes := to_be 8 unlock ++ delegator ++ validator.

Definition db_get_delegation (db : ZbxDb) (validator delegator : address) : outcome StakingError Z :=
  match cf_delegations db !! delegation_key validator delegator with
  | None => Ok 0
  | Some b => if (length b =? 16)%nat then Ok (from_le b) else Err (Persistence BadDelegationEntry)
  end.

Definition db_put_delegation (validator delegator : address) (amount : Z) (db : ZbxDb) : ZbxDb :=
  let key := delegation_key validator delegator in
  mkDb (if amount =? 0 then delete key (cf_delegations db) else <[key := to_le16 amount]> (cf_delegations db)) (cf_unbonding db).

Definition db_get_unbonding_entry (db : ZbxDb) (unlock : Z) (delegator validator : address) : Z :=
  match cf_unbonding db !! unbonding_key unlock delegator validator with
  | Some v => if (length v =? 16)%nat then from_le v else 0
  | None => 0
  end.

Definition db_put_unbonding_entry (unlock : Z) (delegator validator : address) (amount : Z) (db : ZbxDb) : ZbxDb :=
  mkDb (cf_delegations db) (<[unbonding_key unlock delegator validator := to_le16 amount]> (cf_unbonding db)).

Definition db_delete_unbonding_entry (unlock : Z) (delegator validator : address) (db : ZbxDb) : ZbxDb :=
  mkDb (cf_delegations db) (delete (unbonding_key unlock delegator validator) (cf_unbonding db)).

Definition db_delete_unbonding_entries (delegator : address) (entries : list (Z * address)) (db : ZbxDb) : ZbxDb :=
  fold_left (fun db e => db_delete_unbonding_entry e.1 delegator e.2 db) entries db.

(** RocksDB iterates in key order. *)
Definition key_before (a b : bytes * bytes) : Prop := lex_lt b.1 a.1 = false.
#[export] Instance key_before_dec : RelDecision key_before.
Proof. intros a b. unfold key_before. apply _. Defined.

Definition iterator_cf (m : gmap bytes bytes) : list (bytes * bytes) := merge_sort key_before (map_to_list m).

Fixpoint matured_loop (l : list (bytes * bytes)) (who : address) (current_height : Z) : list (Z * address * Z) :=
  match l with
  | [] => []
  | (k, v) :: rest =>
      if negb (length k =? 48)%nat || negb (length v =? 16)%nat then matured_loop rest who current_height else
      let unlock_height := be_val (take 8 k) in
      if current_height <? unlock_height then [] else
      if negb (bool_decide (take 20 (drop 8 k) = who)) then matured_loop rest who current_height else
      (unlock_height, drop 28 k, from_le v) :: matured_loop rest who current_height
  end.

Definition db_iter_matured (db : ZbxDb) (who : address) (current_height : Z) : list (Z * address * Z) :=
  matured_loop (iterator_cf (cf_unbonding db)) who current_height.

Definition apply_staking_delta (delegations : list (address * address * Z)) (puts : list (Z * address * address * Z))
    (deletes : list (Z * address * address)) (db : ZbxDb) : ZbxDb :=
  let db := fold_left (fun db '(v, d, amt) => db_put_delegation v d amt db) delegations db in
  let db := fold_left (fun db '(u, d, v, amt) => db_put_unbonding_entry u d v amt db) puts db in
  fold_left (fun db '(u, d, v) => db_delete_unbonding_entry u d v db) deletes db.

(** ** delta.rs *)

Record StakingDelta := mkDelta {
  delegations : gmap (address * address) Z;
  unbonding_puts : gmap (Z * address * address) Z;
  unbonding_deletes : gset (Z * address * address)
}.

Definition delta_new : StakingDelta := mkDelta ∅ ∅ ∅.

Definition is_empty (d : StakingDelta) : bool :=
  bool_decide (delegations d = ∅) && bool_decide (unbonding_puts d = ∅) && bool_decide (unbonding_deletes d = ∅).

Definition get_delegation (d : StakingDelta) (db : ZbxDb) (validator delegator : address) : outcome StakingError Z :=
  match delegations d !! (validator, delegator) with
  | Some x => Ok x
  | None => db_get_delegation db validator delegator
  end.

Definition put_delegation (validator delegator : address) (amount : Z) (d : StakingDelta) : StakingDelta :=
  mkDelta (<[(validator, delegator) := amount]> (delegations d)) (unbonding_puts d) (unbonding_deletes d).

Definition get_unbonding_entry (d : StakingDelta) (db : ZbxDb) (unlock : Z) (delegator validator : address) : Z :=
  let key := (unlock, delegator, validator) in
  if bool_decide (key ∈ unbonding_deletes d) then default 0 (unbonding_puts d !! key)
  else match unbonding_puts d !! key with
       | Some x => x
       | None => db_get_unbonding_entry db unlock delegator validator
       end.

Definition put_unbonding_entry (unlock : Z) (delegator validator : address) (amount : Z) (d : StakingDelta) : StakingDelta :=
  let key := (unlock, delegator, validator) in
  mkDelta (delegations d) (<[key := amount]> (unbonding_puts d)) (unbonding_deletes d ∖ {[key]}).

Definition delete_unbonding_entry (unlock : Z) (delegator validator : address) (d : StakingDelta) : StakingDelta :=
  let key := (unlock, delegator, validator) in
  mkDelta (delegations d) (delete key (unbonding_puts d)) (unbonding_deletes d ∪ {[key]}).

Definition delete_unbonding_entries (delegator : address) (entries : list (Z * address)) (d : StakingDelta) : StakingDelta :=
  fold_left (fun d e => delete_unbonding_entry e.1 delegator e.2 d) entries d.

(** The order in which the maps and the set are listed. *)
Class DeltaIter := {
  iter_delegations : gmap (address * address) Z → list (address * address * Z);
  iter_puts : gmap (Z * address * address) Z → list (Z * address * address * Z);
  iter_deletes : gset (Z * address * address) → list (Z * address * address)
}.

Definition delta_iter_ok (I : DeltaIter) : Prop :=
  (∀ m, @iter_delegations I m ≡ₚ map_to_list m) ∧ (∀ m, @iter_puts I m ≡ₚ map_to_list m) ∧
  (∀ s, @iter_deletes I s ≡ₚ elements s).

(** The loop that adds new puts: [seen.insert] is true for a new key. *)
Fixpoint add_puts (puts : list (Z * address * address * Z)) (who : address) (current_height : Z)
    (seen : gset (Z * address)) (acc : list (Z * address * Z)) : list (Z * address * Z) :=
  match puts with
  | [] => acc
  | (unlock, delegator, validator, amt) :: rest =>
      if negb (bool_decide (delegator = who)) then add_puts rest who current_height seen acc else
      if current_height <? unlock then add_puts rest who current_height seen acc else
      if bool_decide ((unlock, validator) ∈ seen) then add_puts rest who current_height seen acc else
      add_puts rest who current_height (seen ∪ {[(unlock, validator)]}) (acc ++ [(unlock, validator, amt)])
  end.

Definition iter_matured_unbondings_for `{DeltaIter} (d : StakingDelta) (db : ZbxDb) (who : address) (current_height : Z)
    : list (Z * address * Z) :=
  let on_disk := List.filter (fun '(h, v, _) => negb (bool_decide ((h, who, v) ∈ unbonding_deletes d)))
    (db_iter_matured db who current_height) in
  let on_disk := map (fun '(h, v, amt) => (h, v, default amt (unbonding_puts d !! (h, who, v)))) on_disk in
  add_puts (iter_puts (unbonding_puts d)) who current_height (list_to_set (map fst on_disk)) on_disk.

(** ** block_producer.rs: the flush *)

Definition flush `{DeltaIter} (d : StakingDelta) (db : ZbxDb) : ZbxDb :=
  if is_empty d then db
  else apply_staking_delta (iter_delegations (delegations d)) (iter_puts (unbonding_puts d)) (iter_deletes (unbonding_deletes d)) db.

(** ** Well-formedness *)

Definition wf_addr20 (a : address) : Prop := length a = 20%nat ∧ wf_bytes a.
Definition wf_ukey (k : Z * address * address) : Prop := is_u64 k.1.1 ∧ wf_addr20 k.1.2 ∧ wf_addr20 k.2.

Record wf_db (db : ZbxDb) : Prop := {
  wdb_deleg : map_Forall (fun _ v => length v = 16%nat ∧ wf_bytes v) (cf_delegations db);
  wdb_unb : map_Forall (fun k v => length k = 48%nat ∧ wf_bytes k ∧ length v = 16%nat ∧ wf_bytes v) (cf_unbonding db)
}.

Record wf_delta (d : StakingDelta) : Prop := {
  wd_deleg : map_Forall (fun k x => wf_addr20 k.1 ∧ wf_addr20 k.2 ∧ is_u128 x) (delegations d);
  wd_puts : map_Forall (fun k x => wf_ukey k ∧ is_u128 x) (unbonding_puts d);
  wd_dels : set_Forall wf_ukey (unbonding_deletes d);
  wd_disj : ∀ k, k ∈ unbonding_deletes d → unbonding_puts d !! k = None
}.

Lemma le16_roundtrip x : is_u128 x → from_le (to_le16 x) = x ∧ length (to_le16 x) = 16%nat ∧ wf_bytes (to_le16 x).
Proof.
  intros Hx. unfold from_le, to_le16. rewrite rev_involutive, length_rev, length_to_be, be_val_to_be. split_and!.
  - apply Z.mod_small. exact Hx.
  - done.
  - apply Forall_rev, wf_to_be.
Qed.

Lemma unbonding_key_inj u d v u' d' v' : wf_ukey (u, d, v) → wf_ukey (u', d', v') →
  unbonding_key u d v = unbonding_key u' d' v' → (u, d, v) = (u', d', v').
Proof.
  intros (Hu & [Hd _] & [Hv _]) (Hu' & [Hd' _] & [Hv' _]) E. cbn [fst snd] in *. unfold unbonding_key in E.
  apply app_inj_1 in E as [E1 E2]; [|by rewrite !length_to_be]. apply app_inj_1 in E2 as [-> ->]; [|congruence].
  assert (be_val (to_be 8 u) = be_val (to_be 8 u')) as E by congruence. rewrite !be_val_to_be in E.
  change (256 ^ Z.of_nat 8) with (2 ^ 64) in E. rewrite !Z.mod_small in E by done. congruence.
Qed.

Lemma delegation_key_inj v d v' d' : wf_addr20 v → wf_addr20 v' → delegation_key v d = delegation_key v' d' → (v, d) = (v', d').
Proof. intros [H1 _] [H2 _] E. unfold delegation_key in E. apply app_inj_1 in E as [-> ->]; congruence. Qed.

(** The typed key of a 48-byte key. *)
Definition parse_key (k : bytes) : Z * address * address := (be_val (take 8 k), take 20 (drop 8 k), drop 28 k).

Definition ukey (k : Z * address * address) : bytes := unbonding_key k.1.1 k.1.2 k.2.

Lemma parse_key_wf k : length k = 48%nat → wf_bytes k → wf_ukey (parse_key k) ∧ ukey (parse_key k) = k.
Proof.
  intros Hl Hw. assert (wf_bytes (take 8 k)) as W8 by eauto with zbx. pose proof (be_val_bound _ W8) as Hb.
  rewrite length_take, Hl in Hb. split.
  - unfold parse_key, wf_ukey, wf_addr20. cbn [fst snd]. rewrite length_take, !length_drop, Hl.
    split_and!; [exact Hb| | |done|]; eauto with zbx.
  - unfold ukey, unbonding_key, parse_key. cbn [fst snd].
    replace 8%nat with (length (take 8 k)) at 1 by (rewrite length_take; lia). rewrite to_be_be_val by done.
    change 28%nat with (8 + 20)%nat. by rewrite <- drop_drop, !take_drop.
Qed.

Lemma parse_ukey k : wf_ukey k → parse_key (ukey k) = k.
Proof.
  intros W. destruct k as [[u d] v]. pose proof W as (Hu & [Hd Wd] & [Hv Wv]). cbn [fst snd] in *.
  destruct (parse_key_wf (ukey (u, d, v))) as [W' E].
  - unfold ukey, unbonding_key. cbn [fst snd]. rewrite !length_app, length_to_be. lia.
  - unfold ukey, unbonding_key. cbn [fst snd]. apply Forall_app. split; [apply wf_to_be|by apply Forall_app].
  - destruct (parse_key (ukey (u, d, v))) as [[u' d'] v'] eqn:Ep. apply unbonding_key_inj; done.
Qed.

Lemma ukey_inj k k' : wf_ukey k → wf_ukey k' → ukey k = ukey k' → k = k'.
Proof. destruct k as [[u d] v], k' as [[u' d'] v']. apply unbonding_key_inj. Qed.

(** ** The iterator *)

Lemma key_before_total : Total key_before.
Proof.
  intros [a x] [b y]. unfold key_before. cbn. destruct (lex_lt b a) eqn:E; [|by left]. right. destruct (lex_lt a b) eqn:F; [|done].
  pose proof (lex_lt_trans _ _ _ E F) as G. by rewrite lex_lt_irrefl in G.
Qed.
Lemma key_before_trans : Transitive key_before.
Proof.
  intros [a x] [b y] [c z]. unfold key_before. cbn. intros E1 E2. destruct (lex_lt c a) eqn:F; [|done].
  destruct (lex_lt_total a b) as [G|[->|G]]; [|congruence|congruence]. pose proof (lex_lt_trans _ _ _ F G). congruence.
Qed.
#[export] Existing Instances key_before_total key_before_trans.

Lemma lex_take n a b : lex_lt b a = false → lex_lt (take n b) (take n a) = false.
Proof.
  revert a b. induction n as [|n IH]; intros [|x a] [|y b]; cbn; try done. destruct (y =? x); [apply IH|done].
Qed.

(** One entry of the iterator, without the early exit. *)
Definition matured_entry (who : address) (cur : Z) (e : bytes * bytes) : option (Z * address * Z) :=
  let k := parse_key e.1 in
  if bool_decide (length e.1 = 48%nat ∧ length e.2 = 16%nat ∧ k.1.1 ≤ cur ∧ k.1.2 = who) then Some (k.1.1, k.2, from_le e.2) else None.

Lemma matured_loop_omap l who cur :
  StronglySorted key_before l → Forall (fun e => wf_bytes e.1) l → matured_loop l who cur = omap (matured_entry who cur) l.
Proof.
  induction l as [|[k v] l IH]; intros Hs Hw; [done|]. apply StronglySorted_inv in Hs as [Hs Hall]. apply Forall_cons in Hw as [Hk Hw].
  specialize (IH Hs Hw). cbn [matured_loop]. change (omap (matured_entry who cur) ((k, v) :: l)) with
    (match matured_entry who cur (k, v) with Some y => y :: omap (matured_entry who cur) l | None => omap (matured_entry who cur) l end).
  unfold matured_entry at 1. unfold parse_key at 1. cbn [fst snd].
  destruct (Nat.eqb_spec (length k) 48) as [Ek|]; cbn [negb orb]; [|rewrite bool_decide_eq_false_2; [done|naive_solver]].
  destruct (Nat.eqb_spec (length v) 16) as [Ev|]; cbn [negb]; [|rewrite bool_decide_eq_false_2; [done|naive_solver]].
  destruct (Z.ltb_spec cur (be_val (take 8 k))) as [Hlt|Hle].
  - rewrite bool_decide_eq_false_2; [|intros (_ & _ & H & _); cbn in H; lia]. symmetry.
    assert (∀ l, Forall (key_before (k, v)) l → Forall (fun e => wf_bytes e.1) l → omap (matured_entry who cur) l = []) as H; [|by apply H].
    clear IH Hs Hall Hw l. intros l Hall Hw. induction l as [|[k' v'] l IH]; [done|].
    apply Forall_cons in Hall as [Hb Hall]. apply Forall_cons in Hw as [Hw' Hw]. cbn [fst] in Hw'.
    change (omap (matured_entry who cur) ((k', v') :: l)) with
      (match matured_entry who cur (k', v') with Some y => y :: omap (matured_entry who cur) l | None => omap (matured_entry who cur) l end).
    unfold matured_entry at 1, parse_key at 1. cbn [fst snd]. rewrite bool_decide_eq_false_2; [by apply IH|].
    intros (Hl & _ & Hc & _). cbn [fst snd parse_key] in Hc. unfold key_before in Hb. cbn [fst] in Hb. apply (lex_take 8) in Hb.
    rewrite lex_lt_spec in Hb; [apply Z.ltb_ge in Hb; lia|eauto with zbx..|rewrite !length_take; lia].
  - destruct (bool_decide_reflect (take 20 (drop 8 k) = who)) as [Ew|]; cbn [negb].
    + rewrite bool_decide_eq_true_2 by done. by rewrite IH.
    + rewrite bool_decide_eq_false_2; [done|naive_solver].
Qed.

Lemma iterator_omap db who cur : wf_db db → db_iter_matured db who cur = omap (matured_entry who cur) (iterator_cf (cf_unbonding db)).
Proof.
  intros W. unfold db_iter_matured. apply matured_loop_omap.
  - apply Sorted_StronglySorted; [apply _|]. apply Sorted_merge_sort, _.
  - apply Forall_forall. intros [k v] Hin. unfold iterator_cf in Hin. rewrite merge_sort_Permutation in Hin.
    apply elem_of_map_to_list in Hin. by apply (wdb_unb db W k v).
Qed.

(** What the iterator lists: the delegator's entries up to the height. *)
Lemma iter_elem db who cur h v amt : wf_db db → wf_addr20 who →
  (h, v, amt) ∈ db_iter_matured db who cur ↔
  wf_ukey (h, who, v) ∧ h ≤ cur ∧ ∃ b, cf_unbonding db !! ukey (h, who, v) = Some b ∧ amt = from_le b.
Proof.
  intros W Hwho. rewrite (iterator_omap db who cur W), list_elem_of_omap. split.
  - intros ([k b] & Hin & E). unfold iterator_cf in Hin. rewrite merge_sort_Permutation in Hin. apply elem_of_map_to_list in Hin.
    destruct (wdb_unb db W k b Hin) as (Hk & Wk & Hb & Wb). destruct (parse_key_wf k Hk Wk) as [Wp Ep].
    unfold matured_entry in E. cbn [fst snd] in E. destruct (parse_key k) as [[u d] w] eqn:Eq. cbn [fst snd] in E.
    case_bool_decide as Hc; [|done]. destruct Hc as (_ & _ & Hle & ->). injection E as <- <- <-.
    split_and!; [done|done|]. exists b. split; [|done]. by rewrite Ep.
  - intros (Wk & Hle & b & Hb & ->). exists (ukey (h, who, v), b). split.
    { unfold iterator_cf. rewrite merge_sort_Permutation. by apply elem_of_map_to_list. }
    destruct (wdb_unb db W _ b Hb) as (Hk & _ & Hb' & _). unfold matured_entry. cbn [fst snd]. rewrite (parse_ukey _ Wk). cbn [fst snd].
    by rewrite bool_decide_eq_true_2.
Qed.

Lemma iter_nodup db who cur : wf_db db → NoDup (db_iter_matured db who cur).*1.
Proof.
  intros W. rewrite (iterator_omap db who cur W).
  assert (∀ l, NoDup l.*1 → (∀ e, e ∈ l → length e.1 = 48%nat ∧ wf_bytes e.1) → NoDup (omap (matured_entry who cur) l).*1) as H.
  2:{ apply H.
    - unfold iterator_cf. rewrite merge_sort_Permutation. apply NoDup_fst_map_to_list.
    - intros [k v] Hin. unfold iterator_cf in Hin. rewrite merge_sort_Permutation in Hin. apply elem_of_map_to_list in Hin.
      destruct (wdb_unb db W k v Hin) as (? & ? & _). done. }
  induction l as [|[k b] l IH]; intros Hn Hl; [constructor|]. apply NoDup_cons in Hn as [Hk Hn].
  specialize (IH Hn ltac:(intros e He; apply Hl; by right)).
  change (omap (matured_entry who cur) ((k, b) :: l)) with
    (match matured_entry who cur (k, b) with Some y => y :: omap (matured_entry who cur) l | None => omap (matured_entry who cur) l end).
  destruct (matured_entry who cur (k, b)) as [y|] eqn:E; [|done]. cbn [fmap list_fmap]. apply NoDup_cons. split; [|done].
  intros Hin. apply Hk. apply list_elem_of_fmap in Hin as (y' & Ey & Hy). apply list_elem_of_omap in Hy as ([k' b'] & Hin & E').
  unfold matured_entry in E, E'. cbn [fst snd] in *.
  destruct (Hl (k, b) ltac:(by left)) as [L1 W1], (Hl (k', b') ltac:(by right)) as [L2 W2]. cbn [fst] in *.
  destruct (parse_key_wf k L1 W1) as [_ P1], (parse_key_wf k' L2 W2) as [_ P2].
  destruct (parse_key k) as [[u d] w], (parse_key k') as [[u' d'] w']. cbn [fst snd] in *.
  case_bool_decide as Hc; [|done]. case_bool_decide as Hc'; [|done].
  destruct Hc as (_ & _ & _ & ->), Hc' as (_ & _ & _ & ->). injection E as <-. injection E' as <-. cbn [fst] in Ey. injection Ey as -> ->.
  rewrite P2 in P1. subst k'. apply list_elem_of_fmap. by exists (k, b').
Qed.

(** ** The flush *)

#[local] Instance is_u8_dec x : Decision (is_u8 x).
Proof. unfold is_u8. apply _. Defined.

(** A byte string that is the key of some unbonding entry. *)
Definition is_ukey (k : bytes) : Prop := length k = 48%nat ∧ wf_bytes k.
#[local] Instance is_ukey_dec k : Decision (is_ukey k).
Proof. unfold is_ukey, wf_bytes. apply _. Defined.

Lemma ukey_is k : wf_ukey k → is_ukey (ukey k).
Proof.
  destruct k as [[u d] v]. intros (Hu & [Hd Wd] & [Hv Wv]). cbn [fst snd] in *. unfold is_ukey, ukey, unbonding_key. cbn [fst snd].
  rewrite !length_app, length_to_be. split; [lia|]. apply Forall_app. split; [apply wf_to_be|by apply Forall_app].
Qed.

Lemma elem_put (P : Z * address * address * Z → Prop) m l : l ≡ₚ map_to_list m →
  map_Forall (fun k x => P (k, x)) m → Forall P l.
Proof. intros El Hm. apply Forall_forall. intros [k x] Hin. rewrite El in Hin. by apply Hm, elem_of_map_to_list. Qed.

(** Puts in any order: each key holds its amount, other keys are as before. *)
Lemma fold_puts l m db : l ≡ₚ map_to_list m → map_Forall (fun k x => wf_ukey k) m →
  let db' := fold_left (fun db '(u, d, v, amt) => db_put_unbonding_entry u d v amt db) l db in
  cf_delegations db' = cf_delegations db ∧
  (∀ k, wf_ukey k → cf_unbonding db' !! ukey k = match m !! k with Some x => Some (to_le16 x) | None => cf_unbonding db !! ukey k end) ∧
  (∀ kb, ¬ is_ukey kb → cf_unbonding db' !! kb = cf_unbonding db !! kb).
Proof.
  revert m db. induction l as [|[[[u d] v] x] l IH]; intros m db El Wm; cbn [fold_left].
  { symmetry in El. apply Permutation_nil_r, map_to_list_empty_iff in El. subst m. cbn. by setoid_rewrite lookup_empty. }
  assert (m !! (u, d, v) = Some x) as Hx by (apply elem_of_map_to_list; rewrite <- El; by left).
  destruct (IH (delete (u, d, v) m) (db_put_unbonding_entry u d v x db)) as (E0 & E1 & E2).
  - apply (Permutation_cons_inv (a := (u, d, v, x))). rewrite El. rewrite <- (insert_delete_id m _ _ Hx) at 1.
    by rewrite map_to_list_insert by apply lookup_delete_eq.
  - by apply map_Forall_delete.
  - pose proof (Wm _ _ Hx) as Wk. split_and!; [done| |].
    + intros k W. rewrite E1 by done. destruct (decide (k = (u, d, v))) as [->|Hn].
      * rewrite lookup_delete_eq, Hx. cbn [cf_unbonding db_put_unbonding_entry]. by rewrite lookup_insert_eq.
      * rewrite lookup_delete_ne by done. destruct (m !! k); [done|]. cbn [cf_unbonding db_put_unbonding_entry].
        apply lookup_insert_ne. intros E. apply Hn. symmetry. by apply ukey_inj.
    + intros kb Hk. rewrite E2 by done. cbn [cf_unbonding db_put_unbonding_entry]. apply lookup_insert_ne. intros <-. by apply Hk, (ukey_is (u, d, v)).
Qed.

Lemma fold_deletes l db : Forall wf_ukey l →
  let db' := fold_left (fun db '(u, d, v) => db_delete_unbonding_entry u d v db) l db in
  cf_delegations db' = cf_delegations db ∧
  (∀ k, wf_ukey k → cf_unbonding db' !! ukey k = if bool_decide (k ∈ l) then None else cf_unbonding db !! ukey k) ∧
  (∀ kb, ¬ is_ukey kb → cf_unbonding db' !! kb = cf_unbonding db !! kb).
Proof.
  revert db. induction l as [|[[u d] v] l IH]; intros db Wl; cbn [fold_left].
  { split_and!; [done| |done]. intros k _. rewrite bool_decide_eq_false_2; [done|apply not_elem_of_nil]. }
  apply Forall_cons in Wl as [Wk Wl]. destruct (IH (db_delete_unbonding_entry u d v db) Wl) as (E0 & E1 & E2). split_and!; [done| |].
  - intros k W. rewrite E1 by done. destruct (bool_decide_reflect (k ∈ l)) as [Hin|Hn].
    { rewrite bool_decide_eq_true_2; [done|by right]. }
    cbn [cf_unbonding db_delete_unbonding_entry]. destruct (decide (k = (u, d, v))) as [->|Hne].
    + rewrite bool_decide_eq_true_2 by by left. apply lookup_delete_eq.
    + rewrite bool_decide_eq_false_2 by (rewrite elem_of_cons; tauto). apply lookup_delete_ne. intros E. apply Hne. symmetry. by apply ukey_inj.
  - intros kb Hk. rewrite E2 by done. cbn [cf_unbonding db_delete_unbonding_entry]. apply lookup_delete_ne. intros <-. by apply Hk, (ukey_is (u, d, v)).
Qed.

Lemma fold_delegs l m db : l ≡ₚ map_to_list m → map_Forall (fun k (_ : Z) => wf_addr20 k.1) m →
  let db' := fold_left (fun db '(v, d, amt) => db_put_delegation v d amt db) l db in
  cf_unbonding db' = cf_unbonding db ∧
  (∀ v d, wf_addr20 v → cf_delegations db' !! delegation_key v d =
     match m !! (v, d) with Some x => if x =? 0 then None else Some (to_le16 x) | None => cf_delegations db !! delegation_key v d end) ∧
  (∀ kb, (∀ v d, wf_addr20 v → kb ≠ delegation_key v d) → cf_delegations db' !! kb = cf_delegations db !! kb).
Proof.
  revert m db. induction l as [|[[v d] x] l IH]; intros m db El Wm; cbn [fold_left].
  { symmetry in El. apply Permutation_nil_r, map_to_list_empty_iff in El. subst m. cbn. by setoid_rewrite lookup_empty. }
  assert (m !! (v, d) = Some x) as Hx by (apply elem_of_map_to_list; rewrite <- El; by left).
  destruct (IH (delete (v, d) m) (db_put_delegation v d x db)) as (E0 & E1 & E2).
  - apply (Permutation_cons_inv (a := (v, d, x))). rewrite El. rewrite <- (insert_delete_id m _ _ Hx) at 1.
    by rewrite map_to_list_insert by apply lookup_delete_eq.
  - by apply map_Forall_delete.
  - pose proof (Wm _ _ Hx) as Wk. cbn [fst] in Wk. split_and!; [done| |].
    + intros v' d' W. rewrite E1 by done. unfold db_put_delegation. cbn [cf_delegations]. destruct (decide ((v', d') = (v, d))) as [E|Hn].
      * rewrite E. rewrite lookup_delete_eq, Hx. injection E as -> ->. case_if; [apply lookup_delete_eq|apply lookup_insert_eq].
      * rewrite lookup_delete_ne by done. destruct (m !! (v', d')); [done|].
        assert (delegation_key v d ≠ delegation_key v' d') as Hk by (intros E; apply Hn; symmetry; by apply delegation_key_inj).
        case_if; [by apply lookup_delete_ne|by apply lookup_insert_ne].
    + intros kb Hk. rewrite E2 by done. unfold db_put_delegation. cbn [cf_delegations].
      assert (delegation_key v d ≠ kb) by (intros E; by apply (Hk v d)). case_if; [by apply lookup_delete_ne|by apply lookup_insert_ne].
Qed.

Lemma put_delegation_wf v w x d : wf_delta d → wf_addr20 v → wf_addr20 w → is_u128 x → wf_delta (put_delegation v w x d).
Proof. intros [W1 W2 W3 W4] Hv Hw Hx. split; cbn; [|done..]. by apply map_Forall_insert_2. Qed.

Lemma put_unbonding_wf u w v x d : wf_delta d → wf_ukey (u, w, v) → is_u128 x → wf_delta (put_unbonding_entry u w v x d).
Proof.
  intros [W1 W2 W3 W4] Hk Hx. split; cbn; [done|by apply map_Forall_insert_2|..].
  - intros k Hin. apply W3. set_solver.
  - intros k Hin. apply elem_of_difference in Hin as [Hin Hn]. rewrite lookup_insert_ne by set_solver. by apply W4.
Qed.

Lemma delete_unbonding_wf u w v d : wf_delta d → wf_ukey (u, w, v) → wf_delta (delete_unbonding_entry u w v d).
Proof.
  intros [W1 W2 W3 W4] Hk. split; cbn; [done|by apply map_Forall_delete|..].
  - intros k [Hin| ->%elem_of_singleton]%elem_of_union; [by apply W3|done].
  - intros k Hin. destruct (decide (k = (u, w, v))) as [->|Hn]; [apply lookup_delete_eq|]. rewrite lookup_delete_ne by done. apply W4. set_solver.
Qed.

Section Flush.
Context (I : DeltaIter) (HI : delta_iter_ok I).

Lemma flush_apply d db :
  flush d db = apply_staking_delta (iter_delegations (delegations d)) (iter_puts (unbonding_puts d)) (iter_deletes (unbonding_deletes d)) db.
Proof.
  unfold flush, is_empty. case_if; [|done]. destruct_and?. repeat match goal with H : bool_decide _ = true |- _ => apply bool_decide_eq_true in H end.
  destruct d as [m1 m2 s]. cbn in *. subst. destruct HI as (I1 & I2 & I3).
  pose proof (proj1 (Permutation_nil_r _) (I1 ∅)) as E1. pose proof (proj1 (Permutation_nil_r _) (I2 ∅)) as E2. pose proof (proj1 (Permutation_nil_r _) (I3 ∅)) as E3.
  by rewrite E1, E2, E3.
Qed.

Lemma flush_spec d db : wf_delta d →
  (∀ k, wf_ukey k → cf_unbonding (flush d db) !! ukey k =
     if bool_decide (k ∈ unbonding_deletes d) then None
     else match unbonding_puts d !! k with Some x => Some (to_le16 x) | None => cf_unbonding db !! ukey k end) ∧
  (∀ kb, ¬ is_ukey kb → cf_unbonding (flush d db) !! kb = cf_unbonding db !! kb) ∧
  (∀ v w, wf_addr20 v → cf_delegations (flush d db) !! delegation_key v w =
     match delegations d !! (v, w) with Some x => if x =? 0 then None else Some (to_le16 x)
                                   | None => cf_delegations db !! delegation_key v w end) ∧
  (∀ kb, (∀ v w, wf_addr20 v → kb ≠ delegation_key v w) → cf_delegations (flush d db) !! kb = cf_delegations db !! kb).
Proof.
  intros [W1 W2 W3 _]. rewrite flush_apply. unfold apply_staking_delta. destruct HI as (H1 & H2 & H3).
  destruct (fold_delegs _ _ db (H1 (delegations d))) as (A0 & A1 & A2).
  { intros k x Hk. by apply (W1 k x). }
  set (db1 := fold_left _ (iter_delegations (delegations d)) db) in *.
  destruct (fold_puts _ _ db1 (H2 (unbonding_puts d))) as (B0 & B1 & B2).
  { intros k x Hk. by apply (W2 k x). }
  set (db2 := fold_left _ (iter_puts (unbonding_puts d)) db1) in *.
  destruct (fold_deletes (iter_deletes (unbonding_deletes d)) db2) as (C0 & C1 & C2).
  { apply Forall_forall. intros k Hk. rewrite H3 in Hk. by apply W3, elem_of_elements. }
  set (db3 := fold_left _ (iter_deletes (unbonding_deletes d)) db2) in *. split_and!.
  - intros k Wk. rewrite C1, B1, A0 by done. erewrite bool_decide_ext; [reflexivity|]. rewrite H3. apply elem_of_elements.
  - intros kb Hk. by rewrite C2, B2, A0.
  - intros v w Hv. by rewrite C0, B0, A1.
  - intros kb Hk. by rewrite C0, B0, A2.
Qed.

Lemma flush_wf d db : wf_db db → wf_delta d → wf_db (flush d db).
Proof.
  intros [D1 D2] W. destruct (flush_spec d db W) as (E1 & E2 & E3 & E4). destruct W as [W1 W2 W3 _]. split.
  - intros kb b Hb. destruct (decide (length (take 20 kb) = 20%nat ∧ wf_bytes (take 20 kb))) as [Hk|Hk].
    + rewrite <- (take_drop 20 kb) in Hb. change (take 20 kb ++ drop 20 kb) with (delegation_key (take 20 kb) (drop 20 kb)) in Hb.
      rewrite E3 in Hb by done. destruct (delegations d !! _) as [x|] eqn:Ex.
      * case_if; [done|]. injection Hb as <-. destruct (W1 _ _ Ex) as (_ & _ & Hx). by apply le16_roundtrip.
      * by apply (D1 _ _ Hb).
    + rewrite E4 in Hb; [by apply (D1 _ _ Hb)|]. intros v w [Hv Wv] ->. apply Hk. unfold delegation_key.
      rewrite <- Hv, take_app_length. done.
  - intros kb b Hb. destruct (decide (is_ukey kb)) as [[Hl Hw]|Hk].
    + destruct (parse_key_wf kb Hl Hw) as [Wk Ek]. rewrite <- Ek in Hb. rewrite E1 in Hb by done. case_bool_decide; [done|].
      destruct (unbonding_puts d !! parse_key kb) as [x|] eqn:Ex.
      * injection Hb as <-. destruct (W2 _ _ Ex) as (_ & Hx). destruct (le16_roundtrip x Hx) as (_ & ? & ?). by split_and!.
      * rewrite Ek in Hb. by apply (D2 _ _ Hb).
    + rewrite E2 in Hb by done. by apply (D2 _ _ Hb).
Qed.

(** *** Reads *)

Lemma get_delegation_flush d db v w : wf_delta d → wf_addr20 v →
  get_delegation d db v w = db_get_delegation (flush d db) v w.
Proof.
  intros W Hv. destruct (flush_spec d db W) as (_ & _ & E3 & _). unfold get_delegation, db_get_delegation. rewrite E3 by done.
  destruct (delegations d !! (v, w)) as [x|] eqn:Ex; [|done]. destruct (wd_deleg d W _ _ Ex) as (_ & _ & Hx).
  destruct (le16_roundtrip x Hx) as (E & L & _). destruct (Z.eqb_spec x 0) as [->|]; [done|]. by rewrite L, E.
Qed.

Lemma get_unbonding_flush d db u w v : wf_delta d → wf_ukey (u, w, v) →
  get_unbonding_entry d db u w v = db_get_unbonding_entry (flush d db) u w v.
Proof.
  intros W Hk. destruct (flush_spec d db W) as (E1 & _). unfold get_unbonding_entry, db_get_unbonding_entry.
  change (unbonding_key u w v) with (ukey (u, w, v)). rewrite E1 by done. case_bool_decide as Hd; [by rewrite (wd_disj d W _ Hd)|].
  destruct (unbonding_puts d !! (u, w, v)) as [x|] eqn:Ex; [|done]. destruct (wd_puts d W _ _ Ex) as (_ & Hx).
  destruct (le16_roundtrip x Hx) as (E & L & _). by rewrite L, E.
Qed.

Lemma add_puts_spec puts who cur seen acc :
  NoDup puts.*1 →
  (∀ x, x ∈ add_puts puts who cur seen acc ↔ x ∈ acc ∨ ((x.1.1, who, x.1.2, x.2) ∈ puts ∧ x.1.1 ≤ cur ∧ (x.1 ∉ seen))) ∧
  (NoDup acc.*1 → list_to_set acc.*1 ⊆ seen → NoDup (add_puts puts who cur seen acc).*1).
Proof.
  revert seen acc. induction puts as [|[[[u w] v] a] puts IH]; intros seen acc Hn; cbn [add_puts].
  { split; [|done]. intros x. rewrite elem_of_nil. naive_solver. }
  apply NoDup_cons in Hn as [Hk Hn]. cbn [fst] in Hk. pose proof (fun s c => IH s c Hn) as IH'. clear IH.
  destruct (bool_decide_reflect (w = who)) as [->|Hw]; cbn [negb].
  2:{ destruct (IH' seen acc) as [E D]. split; [|done]. intros x. rewrite E, elem_of_cons. naive_solver. }
  destruct (Z.ltb_spec cur u) as [Hc|Hc].
  { destruct (IH' seen acc) as [E D]. split; [|done]. intros x. rewrite E, elem_of_cons. split; [naive_solver|].
    intros [?|([[= <- <- <-]|?] & ? & ?)]; [naive_solver|lia|naive_solver]. }
  destruct (bool_decide_reflect ((u, v) ∈ seen)) as [Hs|Hs].
  { destruct (IH' seen acc) as [E D]. split; [|done]. intros x. rewrite E, elem_of_cons. split; [naive_solver|].
    destruct x as [[xu xv] xa]. cbn [fst snd]. intros [?|([[= <- <- <-]|?] & ? & ?)]; [naive_solver|done|naive_solver]. }
  destruct (IH' (seen ∪ {[(u, v)]}) (acc ++ [(u, v, a)])) as [E D]. split.
  - intros [[xu xv] xa]. rewrite E, elem_of_app, list_elem_of_singleton, elem_of_cons, elem_of_union, elem_of_singleton. cbn [fst snd]. split.
    + intros [[?|[= -> -> ->]]|(? & ? & ?)]; [naive_solver|naive_solver|naive_solver].
    + intros [?|([[= -> -> ->]|Hin] & Hle & Hx)]; [naive_solver|naive_solver|]. right. split_and!; [done|done|]. intros [?|[= -> ->]]; [done|].
      apply Hk, list_elem_of_fmap. by exists (u, who, v, xa).
  - intros Hna Hsub. apply D.
    + rewrite fmap_app. cbn. apply NoDup_app. split_and!; [done| |apply NoDup_singleton].
      intros x Hx ->%list_elem_of_singleton. apply Hs, Hsub. by apply elem_of_list_to_set.
    + rewrite fmap_app, list_to_set_app. cbn. set_solver.
Qed.

Lemma iter_matured_flush d db who cur : wf_db db → wf_delta d → wf_addr20 who →
  iter_matured_unbondings_for d db who cur ≡ₚ db_iter_matured (flush d db) who cur.
Proof.
  intros Wdb W Hwho. pose proof (flush_wf d db Wdb W) as Wf. destruct (flush_spec d db W) as (E1 & _).
  unfold iter_matured_unbondings_for. set (disk := List.filter _ _). set (on := map _ disk).
  assert (NoDup on.*1) as Hnd.
  { assert (on.*1 = disk.*1) as ->.
    { unfold on. rewrite <- list_fmap_compose. apply list_fmap_ext. by intros _ [[h v] a] _. }
    unfold disk. pose proof (iter_nodup db who cur Wdb) as Hn. revert Hn. generalize (db_iter_matured db who cur) as l.
    induction l as [|[[h v] a] l IH]; intros Hn; [constructor|]. apply NoDup_cons in Hn as [Hh Hn]. cbn. case_if; [|by apply IH].
    cbn. apply NoDup_cons. split; [|by apply IH]. intros Hin. apply Hh. apply list_elem_of_fmap in Hin as (y & Ey & Hy).
    apply list_elem_of_In, filter_In in Hy as [Hy _]. apply list_elem_of_fmap. exists y. split; [done|]. by apply list_elem_of_In. }
  assert (NoDup (iter_puts (unbonding_puts d)).*1) as Hnp by (rewrite (proj1 (proj2 HI) _); apply NoDup_fst_map_to_list).
  destruct (add_puts_spec (iter_puts (unbonding_puts d)) who cur (list_to_set (map fst on)) on Hnp) as [Hel Hno].
  assert (∀ h v a, (h, v, a) ∈ on ↔ ∃ a0, (h, v, a0) ∈ db_iter_matured db who cur ∧ ((h, who, v) ∉ unbonding_deletes d) ∧
    a = default a0 (unbonding_puts d !! (h, who, v))) as Hon.
  { intros h v a. unfold on. rewrite list_elem_of_fmap. split.
    - intros ([[h' v'] a0] & [= -> -> ->] & Hin). unfold disk in Hin. apply list_elem_of_In, filter_In in Hin as [Hin Hf].
      apply list_elem_of_In in Hin. exists a0. split_and!; [done| |done]. apply negb_true_iff, bool_decide_eq_false in Hf. done.
    - intros (a0 & Hin & Hd & ->). exists (h, v, a0). split; [done|]. unfold disk. apply list_elem_of_In, filter_In.
      split; [by apply list_elem_of_In|]. by apply negb_true_iff, bool_decide_eq_false. }
  apply NoDup_Permutation.
  - apply (NoDup_fmap_1 fst), Hno; [done|set_solver].
  - apply (NoDup_fmap_1 fst). by apply iter_nodup.
  - intros [[h v] a]. rewrite Hel, (iter_elem (flush d db) who cur h v a Wf Hwho), Hon. cbn [fst snd].
    rewrite (proj1 (proj2 HI) _), elem_of_map_to_list, elem_of_list_to_set. split.
    + intros [(a0 & Hin & Hd & ->)|(Hp & Hle & Hns)].
      * apply (iter_elem db who cur h v a0 Wdb Hwho) in Hin as (Wk & Hle & b & Hb & ->). split_and!; [done|done|]. rewrite E1 by done.
        rewrite bool_decide_eq_false_2 by done. destruct (unbonding_puts d !! (h, who, v)) as [x|] eqn:Ex; cbn [default]; [|by exists b].
        exists (to_le16 x). split; [done|]. destruct (wd_puts d W _ _ Ex) as (_ & Hx). by destruct (le16_roundtrip x Hx) as [-> _].
      * destruct (wd_puts d W _ _ Hp) as (Wk & Hx). split_and!; [done|done|]. rewrite E1, Hp by done.
        rewrite bool_decide_eq_false_2 by (intros Hd; pose proof (wd_disj d W _ Hd); congruence). exists (to_le16 a). split; [done|].
        by destruct (le16_roundtrip a Hx) as [-> _].
    + intros (Wk & Hle & b & Hb & ->). rewrite E1 in Hb by done. case_bool_decide as Hd; [done|].
      destruct (unbonding_puts d !! (h, who, v)) as [x|] eqn:Ex.
      * injection Hb as <-. destruct (wd_puts d W _ _ Ex) as (_ & Hx). destruct (le16_roundtrip x Hx) as [-> _].
        destruct (cf_unbonding db !! ukey (h, who, v)) as [b0|] eqn:Eb.
        -- left. exists (from_le b0). split_and!; [|done|done]. apply iter_elem; [done|done|]. split_and!; [done|done|]. by exists b0.
        -- right. split_and!; [done|done|]. intros Hin. apply list_elem_of_fmap in Hin as ([[h' v'] a'] & [= -> ->] & Hin).
           apply Hon in Hin as (a0 & Hin & _). apply iter_elem in Hin as (_ & _ & b & Hb & _); [|done|done]. congruence.
      * left. exists (from_le b). split_and!; [|done|done]. apply iter_elem; [done|done|]. split_and!; [done|done|]. by exists b.
Qed.

(** *** Writes *)

Lemma db_ext db1 db2 :
  (∀ k, wf_ukey k → cf_unbonding db1 !! ukey k = cf_unbonding db2 !! ukey k) →
  (∀ kb, ¬ is_ukey kb → cf_unbonding db1 !! kb = cf_unbonding db2 !! kb) →
  (∀ v w, wf_addr20 v → cf_delegations db1 !! delegation_key v w = cf_delegations db2 !! delegation_key v w) →
  (∀ kb, (∀ v w, wf_addr20 v → kb ≠ delegation_key v w) → cf_delegations db1 !! kb = cf_delegations db2 !! kb) → db1 = db2.
Proof.
  intros H1 H2 H3 H4. destruct db1 as [m1 n1], db2 as [m2 n2]. cbn in *. f_equal; apply map_eq; intros kb.
  - destruct (decide (length (take 20 kb) = 20%nat ∧ wf_bytes (take 20 kb))) as [Hk|Hk].
    + rewrite <- (take_drop 20 kb). by apply (H3 (take 20 kb) (drop 20 kb)).
    + apply H4. intros v w [Hv Wv] ->. apply Hk. unfold delegation_key. by rewrite <- Hv, take_app_length.
  - destruct (decide (is_ukey kb)) as [[Hl Hw]|Hk]; [|by apply H2]. destruct (parse_key_wf kb Hl Hw) as [Wk Ek].
    rewrite <- Ek. by apply H1.
Qed.

Lemma put_delegation_flush v w x d db : wf_delta d → wf_addr20 v → wf_addr20 w → is_u128 x →
  flush (put_delegation v w x d) db = db_put_delegation v w x (flush d db).
Proof.
  intros W Hv Hw Hx. destruct (flush_spec d db W) as (A1 & A2 & A3 & A4).
  destruct (flush_spec _ db (put_delegation_wf v w x d W Hv Hw Hx)) as (B1 & B2 & B3 & B4). apply db_ext.
  - intros k Hk. by rewrite B1, <- A1.
  - intros kb Hk. by rewrite B2, <- A2.
  - intros v' w' Hv'. rewrite B3 by done. unfold db_put_delegation. cbn [cf_delegations put_delegation delegations].
    destruct (decide ((v', w') = (v, w))) as [E|Hn].
    + rewrite E, lookup_insert_eq. injection E as -> ->. case_if; [by rewrite lookup_delete_eq|by rewrite lookup_insert_eq].
    + rewrite lookup_insert_ne by done.
      assert (delegation_key v w ≠ delegation_key v' w') as Hk by (intros E; apply Hn; symmetry; by apply delegation_key_inj).
      case_if; [rewrite lookup_delete_ne by done|rewrite lookup_insert_ne by done]; by rewrite A3.
  - intros kb Hk. rewrite B4 by done. unfold db_put_delegation. cbn [cf_delegations].
    assert (delegation_key v w ≠ kb) by (intros E; by apply (Hk v w)).
    case_if; [rewrite lookup_delete_ne by done|rewrite lookup_insert_ne by done]; by rewrite A4.
Qed.

Lemma put_unbonding_flush u w v x d db : wf_delta d → wf_ukey (u, w, v) → is_u128 x →
  flush (put_unbonding_entry u w v x d) db = db_put_unbonding_entry u w v x (flush d db).
Proof.
  intros W Hk Hx. destruct (flush_spec d db W) as (A1 & A2 & A3 & A4).
  destruct (flush_spec _ db (put_unbonding_wf u w v x d W Hk Hx)) as (B1 & B2 & B3 & B4). apply db_ext.
  - intros k Wk. rewrite B1 by done. cbn [cf_unbonding db_put_unbonding_entry put_unbonding_entry unbonding_puts unbonding_deletes].
    change (unbonding_key u w v) with (ukey (u, w, v)). destruct (decide (k = (u, w, v))) as [->|Hn].
    + rewrite !lookup_insert_eq. rewrite bool_decide_eq_false_2 by set_solver. done.
    + rewrite lookup_insert_ne, (lookup_insert_ne (cf_unbonding _)), A1; [|done|intros E; apply Hn; symmetry; by apply ukey_inj|done].
      erewrite bool_decide_ext; [reflexivity|]. set_solver.
  - intros kb Hb. rewrite B2 by done. cbn [cf_unbonding db_put_unbonding_entry]. rewrite lookup_insert_ne; [by rewrite A2|].
    intros <-. by apply Hb, (ukey_is (u, w, v)).
  - intros v' w' Hv'. by rewrite B3, <- A3.
  - intros kb Hb. by rewrite B4, <- A4.
Qed.

Lemma delete_unbonding_flush u w v d db : wf_delta d → wf_ukey (u, w, v) →
  flush (delete_unbonding_entry u w v d) db = db_delete_unbonding_entry u w v (flush d db).
Proof.
  intros W Hk. destruct (flush_spec d db W) as (A1 & A2 & A3 & A4).
  destruct (flush_spec _ db (delete_unbonding_wf u w v d W Hk)) as (B1 & B2 & B3 & B4). apply db_ext.
  - intros k Wk. rewrite B1 by done. cbn [cf_unbonding db_delete_unbonding_entry delete_unbonding_entry unbonding_puts unbonding_deletes].
    change (unbonding_key u w v) with (ukey (u, w, v)). destruct (decide (k = (u, w, v))) as [->|Hn].
    + rewrite !lookup_delete_eq. by rewrite bool_decide_eq_true_2 by set_solver.
    + rewrite lookup_delete_ne, (lookup_delete_ne (cf_unbonding _)), A1; [|done|intros E; apply Hn; symmetry; by apply ukey_inj|done].
      erewrite bool_decide_ext; [reflexivity|]. set_solver.
  - intros kb Hb. rewrite B2 by done. cbn [cf_unbonding db_delete_unbonding_entry]. rewrite lookup_delete_ne; [by rewrite A2|].
    intros <-. by apply Hb, (ukey_is (u, w, v)).
  - intros v' w' Hv'. by rewrite B3, <- A3.
  - intros kb Hb. by rewrite B4, <- A4.
Qed.

(** C17: A pending write-set over a database behaves as the database the
    producer will flush it to: every delegation, unbonding entry and list of
    matured entries reads the same (the list up to its order), and a write to
    the set followed by the flush is the flush followed by the same write to
    the database, whatever the order the hash maps are listed in. *)
Theorem delta_refines_db (d : StakingDelta) (db : ZbxDb) :
  wf_db db → wf_delta d →
  wf_db (flush d db) ∧
  (∀ v w, wf_addr20 v → get_delegation d db v w = db_get_delegation (flush d db) v w) ∧
  (∀ u w v, wf_ukey (u, w, v) → get_unbonding_entry d db u w v = db_get_unbonding_entry (flush d db) u w v) ∧
  (∀ who cur, wf_addr20 who → iter_matured_unbondings_for d db who cur ≡ₚ db_iter_matured (flush d db) who cur) ∧
  (∀ v w x, wf_addr20 v → wf_addr20 w → is_u128 x →
     wf_delta (put_delegation v w x d) ∧ flush (put_delegation v w x d) db = db_put_delegation v w x (flush d db)) ∧
  (∀ u w v x, wf_ukey (u, w, v) → is_u128 x →
     wf_delta (put_unbonding_entry u w v x d) ∧ flush (put_unbonding_entry u w v x d) db = db_put_unbonding_entry u w v x (flush d db)) ∧
  (∀ u w v, wf_ukey (u, w, v) →
     wf_delta (delete_unbonding_entry u w v d) ∧ flush (delete_unbonding_entry u w v d) db = db_delete_unbonding_entry u w v (flush d db)).
Proof.
  intros Wdb W. split_and!; [by apply flush_wf|..]; intros.
  - by apply get_delegation_flush.
  - by apply get_unbonding_flush.
  - by apply iter_matured_flush.
  - split; [by apply put_delegation_wf|by apply put_delegation_flush].
  - split; [by apply put_unbonding_wf|by apply put_unbonding_flush].
  - split; [by apply delete_unbonding_wf|by apply delete_unbonding_flush].
Qed.

End Flush.

(** ** A concrete ledger *)

Module Samples.

Definition adr (n : Z) : address := replicate 19 0 ++ [n].

#[export] Instance iter_up : DeltaIter := {|
  iter_delegations := map_to_list; iter_puts := map_to_list; iter_deletes := elements |}.

Lemma iter_up_ok : delta_iter_ok iter_up.
Proof. by split_and!. Qed.

Lemma adr_wf n : is_u8 n → wf_addr20 (adr n).
Proof.
  intros Hn. split; [done|]. apply Forall_app. split; [|by constructor]. apply (Forall_replicate _ 19 0). unfold is_u8. lia.
Qed.

Definition db0 : ZbxDb :=
  mkDb {[ delegation_key (adr 1) (adr 7) := to_le16 500 ]}
    (<[unbonding_key 300 (adr 7) (adr 1) := to_le16 20]> {[ unbonding_key 90 (adr 7) (adr 1) := to_le16 10 ]}).

Definition d0 : StakingDelta :=
  put_unbonding_entry 95 (adr 7) (adr 2) 30 (delete_unbonding_entry 90 (adr 7) (adr 1) (put_delegation (adr 1) (adr 7) 0 delta_new)).

Lemma db0_wf : wf_db db0.
Proof.
  assert (∀ x, 0 ≤ x < 1000 → length (to_le16 x) = 16%nat ∧ wf_bytes (to_le16 x)) as H.
  { intros x Hx. apply le16_roundtrip. unfold is_u128, U128. lia. }
  assert (∀ u, is_u64 u → is_ukey (unbonding_key u (adr 7) (adr 1))) as Hk.
  { intros u Hu. apply (ukey_is (u, adr 7, adr 1)). split_and!; [done|apply adr_wf; unfold is_u8; lia..]. }
  split; unfold db0; cbn [cf_delegations cf_unbonding].
  - apply map_Forall_singleton. by apply H.
  - apply map_Forall_insert_2; [|apply map_Forall_singleton];
      (split; [apply Hk; unfold is_u64; lia|split; [apply Hk; unfold is_u64; lia|by apply H]]).
Qed.

Lemma d0_wf : wf_delta d0.
Proof.
  assert (∀ n, 0 ≤ n < 256 → wf_addr20 (adr n)) as Ha by (intros; apply adr_wf; unfold is_u8; lia).
  apply put_unbonding_wf; [apply delete_unbonding_wf; [apply put_delegation_wf|]|..].
  - split; cbn; try apply map_Forall_empty; set_solver.
  - by apply Ha.
  - by apply Ha.
  - unfold is_u128, U128. lia.
  - split_and!; [unfold is_u64; cbn; lia|by apply Ha..].
  - split_and!; [unfold is_u64; cbn; lia|by apply Ha..].
  - unfold is_u128, U128. lia.
Qed.

Lemma delta_refines_db_witness :
  get_delegation d0 db0 (adr 1) (adr 7) = Ok 0 ∧
  db_get_delegation (flush d0 db0) (adr 1) (adr 7) = Ok 0 ∧
  iter_matured_unbondings_for d0 db0 (adr 7) 100 = [(95, adr 2, 30)] ∧
  iter_matured_unbondings_for d0 db0 (adr 7) 100 ≡ₚ db_iter_matured (flush d0 db0) (adr 7) 100.
Proof.
  destruct (delta_refines_db iter_up iter_up_ok d0 db0 db0_wf d0_wf) as (_ & E & _ & P & _).
  assert (wf_addr20 (adr 1) ∧ wf_addr20 (adr 7)) as [W1 W7] by (split; apply adr_wf; unfold is_u8; lia).
  split_and!; [vm_compute; reflexivity| |vm_compute; reflexivity|by apply P].
  rewrite <- (E (adr 1) (adr 7) W1). vm_compute. reflexivity.
Defined.

End Samples.

End StakingLedger.
