(* ===== verification/StakingHandler.v ===== *)
(** * Staking transactions

    Models [dispatch_staking_tx] and [dispatch_file_appeal_tx]'s sibling
    constants of [crates/zbx-staking/src/tx_handler.rs]. The balances are any
    type with the two operations of the trait [BalanceAccess]. The theorems
    show what each call moves between the escrow account and the sender, that
    the escrow's surplus over everything it owes is kept by every call, and
    when the per-delegator ledger stays equal to the aggregate stakes. *)

From S2P Require Import Prelude.
From S2P Require Import EvmBase.
From S2P Require Import EvmHost.
From S2P Require Import Votes.
From S2P Require Import Validators.
From S2P Require Import StakingLedger.
From S2P Require Import StakingTx.

Module StakingHandler.
Import EvmHost Votes Validators StakingLedger StakingTx.StakingTx.
#[local] Set Warnings "-clear-no-such-hyp".

(** ** tx_handler.rs *)

Definition STAKING_GAS_REGISTER : Z := 200000.
Definition STAKING_GAS_DELEGATE : Z := 60000.
Definition STAKING_GAS_UNDELEGATE : Z := 80000.
Definition STAKING_GAS_WITHDRAW : Z := 50000.
Definition STAKING_GAS_CLAIM : Z := 40000.
Definition STAKING_GAS_CLAIM_DELEGATOR : Z := 50000.
Definition STAKING_GAS_FILE_APPEAL : Z := 150000.

Class BalanceAccess (B : Type) := {
  get_balance : B → address → Z;
  set_balance : address → Z → B → B
}.

Section Dispatch.
Context `{Keccak} `{Bls} `{BlsPoints} `{DeltaIter} {B : Type} `{!BalanceAccess B}.

(** Gas or error, with the validator set, the write-set and the balances as
    they are left, also after an error. *)
Definition Handled : Type := outcome StakingError Z * (ValidatorSet * StakingDelta * B).

(** The escrow pays [amt] to [who]. *)
Definition pay_out (amt : Z) (who : address) (gas : Z) (vs : ValidatorSet) (d : StakingDelta) (b : B) : Handled :=
  let escrow := get_balance b STAKING_PRECOMPILE_ADDR in
  if escrow <? amt then (Err (EscrowUnderflow escrow amt), (vs, d, b)) else
  let b1 := set_balance STAKING_PRECOMPILE_ADDR (escrow - amt) b in
  (Ok gas, (vs, d, set_balance who (saturating_add128 (get_balance b1 who) amt) b1)).

(** [matches!(status, Jailed | Inactive | Unbonding { .. })]: [Tombstoned] is
    not among them. *)
Definition refuses_delegation (s : ValidatorStatus) : bool :=
  match s with Jailed | Inactive | Unbonding _ => true | Pending | Active | Tombstoned => false end.

Definition do_register (bls_pubkey bls_pop : bytes) (stake commission : Z) (sender : address) (value : Z)
    (vs : ValidatorSet) (d : StakingDelta) (b : B) : Handled :=
  if negb (value =? stake) then (Err (UnexpectedValue value stake), (vs, d, b)) else
  match BlsPubKey_from_bytes bls_pubkey with
  | None => (Err (InvalidEvidence BadBlsPubkey), (vs, d, b))
  | Some pk =>
      match BlsSignature_from_bytes bls_pop with
      | None => (Err (InvalidEvidence BadBlsPop), (vs, d, b))
      | Some pop =>
          match register_with_pop sender pk pop stake commission vs with
          | Ok vs' => (Ok STAKING_GAS_REGISTER, (vs', d, b))
          | Err e => (Err e, (vs, d, b))
          | Panic => (Panic, (vs, d, b))
          end
      end
  end.

Definition do_delegate (validator : address) (amount : Z) (sender : address) (value : Z) (db : ZbxDb)
    (vs : ValidatorSet) (d : StakingDelta) (b : B) : Handled :=
  if negb (value =? amount) then (Err (UnexpectedValue value amount), (vs, d, b)) else
  if amount =? 0 then (Err (DelegationTooSmall 1), (vs, d, b)) else
  match vs_get vs validator with
  | None => (Err (NotFound validator), (vs, d, b))
  | Some v =>
      if refuses_delegation (status v) then (Err IsJailed, (vs, d, b)) else
      match get_delegation d db validator sender with
      | Ok prior =>
          let d' := put_delegation validator sender (saturating_add128 prior amount) d in
          match vs_delegate validator amount vs with
          | Ok vs' => (Ok STAKING_GAS_DELEGATE, (vs', d', b))
          | Err e => (Err e, (vs, d', b))
          | Panic => (Panic, (vs, d', b))
          end
      | Err e => (Err e, (vs, d, b))
      | Panic => (Panic, (vs, d, b))
      end
  end.

Definition do_undelegate (validator : address) (amount : Z) (sender : address) (value height : Z) (db : ZbxDb)
    (vs : ValidatorSet) (d : StakingDelta) (b : B) : Handled :=
  if negb (value =? 0) then (Err (UnexpectedValue value 0), (vs, d, b)) else
  match vs_get vs validator with
  | None => (Err (NotFound validator), (vs, d, b))
  | Some v =>
      if delegated_stake v <? amount then (Err (InsufficientDelegation (delegated_stake v) amount), (vs, d, b)) else
      match get_delegation d db validator sender with
      | Ok prior =>
          if prior <? amount then (Err (InsufficientDelegation prior amount), (vs, d, b)) else
          let unlock := saturating_add64 height UNBONDING_PERIOD_BLOCKS in
          let existing := get_unbonding_entry d db unlock sender validator in
          let combined := saturating_add128 existing amount in
          let d' := put_unbonding_entry unlock sender validator combined (put_delegation validator sender (prior - amount) d) in
          match vs_undelegate validator amount vs with
          | Ok vs' => (Ok STAKING_GAS_UNDELEGATE, (vs', d', b))
          | Err e => (Err e, (vs, d', b))
          | Panic => (Panic, (vs, d', b))
          end
      | Err e => (Err e, (vs, d, b))
      | Panic => (Panic, (vs, d, b))
      end
  end.

Definition do_withdraw (validator sender : address) (value height : Z) (db : ZbxDb)
    (vs : ValidatorSet) (d : StakingDelta) (b : B) : Handled :=
  if negb (value =? 0) then (Err (UnexpectedValue value 0), (vs, d, b)) else
  let matured := List.filter (fun '(_, v, _) => bool_decide (v = validator)) (iter_matured_unbondings_for d db sender height) in
  if bool_decide (matured = []) then (Err NothingToWithdraw, (vs, d, b)) else
  let total := sum128 (map snd matured) in
  let escrow := get_balance b STAKING_PRECOMPILE_ADDR in
  if escrow <? total then (Err (EscrowUnderflow escrow total), (vs, d, b)) else
  let d' := delete_unbonding_entries sender (map fst matured) d in
  pay_out total sender STAKING_GAS_WITHDRAW vs d' b.

Definition do_claim (validator sender : address) (value : Z) (vs : ValidatorSet) (d : StakingDelta) (b : B) : Handled :=
  if negb (value =? 0) then (Err (UnexpectedValue value 0), (vs, d, b)) else
  if negb (bool_decide (sender = validator)) then (Err (NotAValidator sender), (vs, d, b)) else
  match vs_get vs validator with
  | None => (Err (NotAValidator validator), (vs, d, b))
  | Some _ =>
      match vs_claim_rewards validator vs with
      | Ok (amt, vs') => if 0 <? amt then pay_out amt validator STAKING_GAS_CLAIM vs' d b else (Ok STAKING_GAS_CLAIM, (vs', d, b))
      | Err e => (Err e, (vs, d, b))
      | Panic => (Panic, (vs, d, b))
      end
  end.

Definition do_claim_delegator (validator sender : address) (value : Z) (db : ZbxDb)
    (vs : ValidatorSet) (d : StakingDelta) (b : B) : Handled :=
  if negb (value =? 0) then (Err (UnexpectedValue value 0), (vs, d, b)) else
  match get_delegation d db validator sender with
  | Ok stake =>
      if stake =? 0 then (Err (NoPendingRewards sender), (vs, d, b)) else
      match claim_delegator_reward validator sender stake vs with
      | (Ok amt, vs') => if 0 <? amt then pay_out amt sender STAKING_GAS_CLAIM_DELEGATOR vs' d b
                         else (Ok STAKING_GAS_CLAIM_DELEGATOR, (vs', d, b))
      | (Err e, vs') => (Err e, (vs', d, b))
      | (Panic, vs') => (Panic, (vs', d, b))
      end
  | Err e => (Err e, (vs, d, b))
  | Panic => (Panic, (vs, d, b))
  end.

Definition dispatch_staking_tx (db : ZbxDb) (call : StakingTx) (sender : address) (value height : Z)
    (vs : ValidatorSet) (d : StakingDelta) (b : B) : Handled :=
  match call with
  | RegisterValidator _ bls_pubkey bls_pop stake commission => do_register bls_pubkey bls_pop stake commission sender value vs d b
  | Delegate validator amount => do_delegate validator amount sender value db vs d b
  | Undelegate validator amount => do_undelegate validator amount sender value height db vs d b
  | Withdraw validator => do_withdraw validator sender value height db vs d b
  | ClaimRewards validator => do_claim validator sender value vs d b
  | FileAppeal _ => (Err (BadPayload AppealMisrouted), (vs, d, b))
  | ClaimDelegatorRewards validator => do_claim_delegator validator sender value db vs d b
  end.

End Dispatch.

(** ** What the escrow owes *)

Definition liability (v : Validator) : Z := self_stake v + delegated_stake v + owed v.
Definition vs_liabilities (vs : ValidatorSet) : Z := map_sum liability (validators vs).
Definition unbonding_total (db : ZbxDb) : Z := map_sum from_le (cf_unbonding db).

Section Money.
Context `{Keccak} `{Bls} `{BlsPoints} (I : DeltaIter) (HI : delta_iter_ok I) {B : Type} `{!BalanceAccess B}.

(** Stakes, rewards and the unbonding queue as the flush will leave it. *)
Definition liabilities (db : ZbxDb) (vs : ValidatorSet) (d : StakingDelta) : Z := vs_liabilities vs + unbonding_total (flush d db).

Record wf_staking (db : ZbxDb) (vs : ValidatorSet) (d : StakingDelta) : Prop := {
  ws_db : wf_db db;
  ws_delta : wf_delta d;
  ws_vs : wf_vs vs;
  ws_small : liabilities db vs d < U128
}.

Lemma from_le_nonneg b : wf_bytes b → 0 ≤ from_le b.
Proof. intros Hb. unfold from_le. apply be_val_bound. by apply Forall_rev. Qed.

Lemma unbonding_nonneg db : wf_db db → 0 ≤ unbonding_total db.
Proof. intros W. apply map_sum_nonneg. intros k v Hv. apply from_le_nonneg. by apply (wdb_unb db W k v). Qed.

Lemma vs_liabilities_nonneg vs : wf_vs vs → 0 ≤ vs_liabilities vs.
Proof. intros W. apply map_sum_nonneg. intros a v Hv. destruct (W a v Hv). unfold liability, owed. lia. Qed.

Lemma liability_le vs a v : wf_vs vs → vs_get vs a = Some v → liability v ≤ vs_liabilities vs.
Proof.
  intros W Hv. apply (map_sum_lookup_le liability _ a); [|done]. intros c w Hw. destruct (W c w Hw). unfold liability, owed. lia.
Qed.

Lemma vs_put_liabilities vs a v v' : vs_get vs a = Some v → vs_liabilities (vs_put a v' vs) = vs_liabilities vs - liability v + liability v'.
Proof. intros Hv. unfold vs_liabilities, vs_put. cbn. by apply map_sum_insert. Qed.

Lemma vs_put_wf vs a v : wf_vs vs → wf_validator v → wf_vs (vs_put a v vs).
Proof. intros W Wv. by apply map_Forall_insert_2. Qed.

Lemma claim_share_bounds s v : wf_validator v → 0 ≤ s →
  let '(x, v') := claim_delegator_share s v in wf_validator v' ∧ 0 ≤ x ∧ liability v' + x = liability v.
Proof.
  intros [W1 W2 W3 W4 W5 W6 W7] Hs. unfold claim_delegator_share, checked_mul128, saturating_mul128.
  set (P := delegator_reward_pool v) in *. set (D := pool_denominator v) in *. destruct (Z.eqb_spec P 0); [split_and!; [by split|done|lia]|].
  set (q := if 0 <? D then _ else _). assert (0 ≤ q).
  { unfold q. destruct (Z.ltb_spec 0 D); [|done]. pose proof (Z.div_pos P D). pose proof (Z.div_pos (P * s) D).
    unfold U128_MAX in *. destruct (_ <=? _); nia. }
  split_and!; [|lia|].
  - split; unfold set_pool, saturating_sub; cbn; lia.
  - unfold liability, owed, set_pool, saturating_sub. cbn. fold P. lia.
Qed.

Lemma filter_fst_nodup {A C} (p : A * C → bool) l : NoDup l.*1 → NoDup (List.filter p l).*1.
Proof.
  induction l as [|x l IH]; cbn; [done|]. rewrite NoDup_cons. intros [Hx ND]. destruct (p x); cbn; [|by apply IH].
  apply NoDup_cons. split; [|by apply IH]. intros (y & E & Hy)%list_elem_of_fmap. apply Hx. rewrite E.
  apply list_elem_of_fmap. exists y. split; [done|]. apply list_elem_of_In in Hy. apply filter_In in Hy as [Hy _]. by apply list_elem_of_In.
Qed.

Lemma sumZ_map {A} (f : A → Z) l : sumZ id (map f l) = sumZ f l.
Proof. induction l as [|x l IH]; [done|]. cbn [map]. by rewrite !sumZ_cons, IH. Qed.

(** *** The unbonding queue *)

Lemma unbonding_put db u w v x : is_u128 x →
  unbonding_total (db_put_unbonding_entry u w v x db) =
  unbonding_total db - from_option from_le 0 (cf_unbonding db !! ukey (u, w, v)) + x.
Proof.
  intros Hx. unfold unbonding_total, db_put_unbonding_entry. cbn [cf_unbonding]. change (unbonding_key u w v) with (ukey (u, w, v)).
  rewrite map_sum_insert_any. destruct (le16_roundtrip x Hx) as (-> & _). done.
Qed.

Lemma unbonding_entry_value db u w v : wf_db db →
  db_get_unbonding_entry db u w v = from_option from_le 0 (cf_unbonding db !! ukey (u, w, v)).
Proof.
  intros W. unfold db_get_unbonding_entry. change (unbonding_key u w v) with (ukey (u, w, v)).
  destruct (cf_unbonding db !! ukey (u, w, v)) as [b|] eqn:E; [|done]. destruct (wdb_unb db W _ _ E) as (_ & _ & -> & _). done.
Qed.

Lemma unbonding_entry_bound db u w v : wf_db db → 0 ≤ db_get_unbonding_entry db u w v ≤ unbonding_total db.
Proof.
  intros W. rewrite unbonding_entry_value by done. pose proof (unbonding_nonneg db W).
  destruct (cf_unbonding db !! ukey (u, w, v)) as [b|] eqn:E; cbn [from_option]; [|lia]. split.
  - apply from_le_nonneg. by apply (wdb_unb db W _ _ E).
  - apply (map_sum_lookup_le from_le _ (ukey (u, w, v))); [|done]. intros k c Hc. apply from_le_nonneg. by apply (wdb_unb db W k c).
Qed.

(** Deleting listed entries takes exactly their sum out of the queue. *)
Lemma unbonding_deletes (who : address) (l : list (Z * address * Z)) : ∀ d db, wf_db db → wf_delta d → NoDup l.*1 →
  Forall (fun e => wf_ukey (e.1.1, who, e.1.2) ∧ ∃ b, cf_unbonding (flush d db) !! ukey (e.1.1, who, e.1.2) = Some b ∧ e.2 = from_le b) l →
  let d' := delete_unbonding_entries who (map fst l) d in
  wf_delta d' ∧ unbonding_total (flush d' db) = unbonding_total (flush d db) - sumZ snd l.
Proof.
  induction l as [|[[u v] x] l IH]; intros d db Wd W ND F.
  { cbn. split; [done|]. unfold sumZ. cbn. lia. }
  apply Forall_cons in F as ((Wk & b & Hx & Ex) & F). cbn [fst snd] in *. apply NoDup_cons in ND as [Hni ND].
  pose proof (delete_unbonding_wf u who v d W Wk) as W1. pose proof (delete_unbonding_flush I HI u who v d db W Wk) as E1.
  destruct (IH (delete_unbonding_entry u who v d) db Wd W1 ND) as [W2 E2].
  { rewrite E1. rewrite Forall_forall in *. intros [[u' v'] x'] Hin. destruct (F _ Hin) as (Wk' & b' & Hx' & Ux'). cbn [fst snd] in *.
    split; [done|]. exists b'. split; [|done].
    unfold db_delete_unbonding_entry. cbn [cf_unbonding]. change (unbonding_key u who v) with (ukey (u, who, v)).
    rewrite lookup_delete_ne; [done|]. intros E. apply ukey_inj in E; [|done..]. injection E as -> ->.
    apply Hni, list_elem_of_fmap. by exists (u', v', x'). }
  change (delete_unbonding_entries who (map fst ((u, v, x) :: l)) d)
    with (delete_unbonding_entries who (map fst l) (delete_unbonding_entry u who v d)).
  split; [exact W2|].
  rewrite sumZ_cons. cbn [snd]. rewrite E2, E1. unfold unbonding_total at 1, db_delete_unbonding_entry. cbn [cf_unbonding].
  change (unbonding_key u who v) with (ukey (u, who, v)). rewrite (map_sum_delete _ _ _ _ Hx).
  rewrite Ex. unfold unbonding_total. lia.
Qed.

(** *** What a call does to the books *)

(** [x] was paid out of the escrow to [who]. *)
Definition paid (x : Z) (who : address) (b : B) : B :=
  let b1 := set_balance STAKING_PRECOMPILE_ADDR (get_balance b STAKING_PRECOMPILE_ADDR - x) b in
  set_balance who (saturating_add128 (get_balance b1 who) x) b1.

(** A finished call: it does not abort, the books stay well formed, and
    either nothing was paid or the escrow had the amount. *)
Record booked (db : ZbxDb) (vs : ValidatorSet) (d : StakingDelta) (b : B) (who : address) (value : Z) (h : Handled) : Prop := {
  bk_total : h.1 ≠ Panic;
  bk_vs : wf_vs h.2.1.1;
  bk_delta : wf_delta h.2.1.2;
  bk_paid : ∃ x, 0 ≤ x ∧ (h.2.2 = b ∧ x = 0 ∨ h.2.2 = paid x who b ∧ x ≤ get_balance b STAKING_PRECOMPILE_ADDR) ∧
    match h.1 with
    | Ok _ => liabilities db h.2.1.1 h.2.1.2 + x = liabilities db vs d + value
    | _ => x = 0 ∧ liabilities db h.2.1.1 h.2.1.2 ≤ liabilities db vs d
    end
}.

Context (db : ZbxDb) (vs : ValidatorSet) (d : StakingDelta) (b : B) (who : address) (value : Z).
Hypothesis W : wf_staking db vs d.
Hypothesis Wwho : wf_addr20 who.
Hypothesis Wvalue : 0 ≤ value.
Hypothesis Hsmall : liabilities db vs d + value < U128.

Abbreviation booked' := (booked db vs d b who value).

Lemma booked_err e : booked' (Err e, (vs, d, b)).
Proof. split; cbn; [done|apply W|apply W|]. exists 0. split_and!; [lia|by left|lia|lia]. Qed.

Lemma booked_pay x gas vs' d' : wf_vs vs' → wf_delta d' → 0 ≤ x →
  liabilities db vs' d' + x = liabilities db vs d + value → liabilities db vs' d' ≤ liabilities db vs d →
  booked' (pay_out x who gas vs' d' b).
Proof.
  intros W1 W2 Hx E Hle. unfold pay_out. destruct (Z.ltb_spec (get_balance b STAKING_PRECOMPILE_ADDR) x) as [Hlt|Hge].
  - split; cbn; [done..|]. exists 0. split_and!; [lia|by left|lia|lia].
  - split; cbn; [done..|]. exists x. split_and!; [done| |done]. by right.
Qed.

Lemma booked_ok gas vs' d' : wf_vs vs' → wf_delta d' → liabilities db vs' d' = liabilities db vs d + value →
  booked' (Ok gas, (vs', d', b)).
Proof. intros W1 W2 E. split; cbn; [done..|]. exists 0. split_and!; [lia|by left|lia]. Qed.

Hint Resolve booked_err : core.

Lemma register_booked pk pop stake commission : 0 ≤ commission →
  booked' (do_register pk pop stake commission who value vs d b).
Proof.
  intros Hc. unfold do_register. case_match eqn:E1; [done|]. case_match; [|done]. case_match; [|done].
  unfold register_with_pop, register. destruct (negb (verify_pop _ _ _)); [done|]. case_bool_decide as Hn; [done|].
  destruct (Z.ltb_spec stake MIN_SELF_STAKE) as [|Hmin]; [done|]. apply negb_false_iff, Z.eqb_eq in E1 as <-.
  apply eq_None_not_Some in Hn. pose proof (vs_liabilities_nonneg vs (ws_vs _ _ _ W)). pose proof (unbonding_nonneg _ (flush_wf I HI d db (ws_db _ _ _ W) (ws_delta _ _ _ W))).
  apply booked_ok; [|apply W|].
  - apply vs_put_wf; [apply W|]. unfold liabilities in Hsmall. split; cbn [self_stake delegated_stake commission_bps pending_rewards delegator_reward_pool pool_denominator]; lia.
  - unfold liabilities, vs_liabilities, vs_put, with_validators. cbn [validators]. rewrite map_sum_insert_new by done.
    unfold liability at 1, owed. cbn [self_stake delegated_stake pending_rewards delegator_reward_pool]. lia.
Qed.

Lemma books_nonneg : 0 ≤ vs_liabilities vs ∧ 0 ≤ unbonding_total (flush d db).
Proof. split; [apply vs_liabilities_nonneg, W|]. apply unbonding_nonneg, flush_wf; [done|apply W..]. Qed.

Lemma get_delegation_ok v x : wf_addr20 v → get_delegation d db v who = x → ∃ n, x = Ok n ∧ is_u128 n.
Proof.
  intros Wv <-. rewrite (get_delegation_flush I HI d db v who (ws_delta _ _ _ W) Wv). unfold db_get_delegation.
  pose proof (flush_wf I HI d db (ws_db _ _ _ W) (ws_delta _ _ _ W)) as Wf.
  destruct (cf_delegations (flush d db) !! delegation_key v who) as [c|] eqn:E; [|exists 0; split; [done|vm_compute; by split]].
  destruct (wdb_deleg _ Wf _ _ E) as [L Wc]. rewrite L. eexists. split; [done|].
  unfold from_le, is_u128. pose proof (be_val_bound (rev c) (Forall_rev Wc)) as Hb. rewrite length_rev, L in Hb. exact Hb.
Qed.

Lemma delegate_booked v amount : wf_addr20 v → is_u128 amount → booked' (do_delegate v amount who value db vs d b).
Proof.
  intros Wv Ha. unfold do_delegate. destruct (negb (value =? amount)) eqn:E1; [done|]. apply negb_false_iff, Z.eqb_eq in E1 as <-.
  destruct (value =? 0); [done|]. destruct (vs_get vs v) as [val|] eqn:Ev; [|done]. destruct (refuses_delegation (status val)) eqn:Er; [done|].
  destruct (get_delegation_ok v _ Wv eq_refl) as (n & -> & Hn). unfold vs_delegate. rewrite Ev.
  set (d' := put_delegation _ _ _ _).
  assert (wf_delta d' ∧ unbonding_total (flush d' db) = unbonding_total (flush d db)) as [Wd Eu].
  { assert (is_u128 (saturating_add128 n value)) by (unfold saturating_add128, is_u128, U128_MAX, U128 in *; lia). split.
    - apply put_delegation_wf; [apply W|done..].
    - unfold d'. rewrite put_delegation_flush; [done|done|apply W|done..]. }
  pose proof books_nonneg as [N1 N2]. pose proof (ws_vs _ _ _ W) as Wvs. pose proof (Wvs _ _ Ev) as Wval.
  pose proof (liability_le vs v val Wvs Ev) as Hl. destruct (excluded (status val)).
  - split; cbn; [done..|]. exists 0. split_and!; [lia|by left|done|]. unfold liabilities. lia.
  - assert (saturating_add128 (delegated_stake val) value = delegated_stake val + value) as ->.
    { destruct Wval. unfold saturating_add128, U128_MAX, liability, liabilities, owed, U128 in *. lia. }
    apply booked_ok; [|done|].
    + apply vs_put_wf; [done|]. destruct Wval. unfold liabilities, liability, owed, is_u128 in *.
      split; cbn [set_delegated self_stake delegated_stake commission_bps pending_rewards delegator_reward_pool pool_denominator]; lia.
    + unfold liabilities. rewrite Eu, (vs_put_liabilities vs v val) by done. unfold liability, owed, set_delegated. cbn. lia.
Qed.

Lemma undelegate_booked v amount height : wf_addr20 v → is_u128 amount → is_u64 height →
  booked' (do_undelegate v amount who value height db vs d b).
Proof.
  intros Wv Ha Hh. unfold do_undelegate. destruct (negb (value =? 0)) eqn:E1; [done|]. apply negb_false_iff, Z.eqb_eq in E1 as E1.
  destruct (vs_get vs v) as [val|] eqn:Ev; [|done]. destruct (Z.ltb_spec (delegated_stake val) amount) as [|Hd]; [done|].
  destruct (get_delegation_ok v _ Wv eq_refl) as (n & -> & Hn). destruct (Z.ltb_spec n amount) as [|Hna]; [done|].
  set (unlock := saturating_add64 _ _). assert (is_u64 unlock) as Hu.
  { unfold unlock, saturating_add64, is_u64, UNBONDING_PERIOD_BLOCKS, U64_MAX in *. lia. }
  assert (wf_ukey (unlock, who, v)) as Wk by done. pose proof (ws_delta _ _ _ W) as Wd.
  pose proof (flush_wf I HI d db (ws_db _ _ _ W) Wd) as Wf. rewrite (get_unbonding_flush I HI d db unlock who v Wd Wk).
  pose proof (unbonding_entry_bound _ unlock who v Wf) as Hb. pose proof books_nonneg as [N1 N2].
  pose proof (liability_le vs v val (ws_vs _ _ _ W) Ev) as Hl. pose proof (ws_vs _ _ _ W _ _ Ev) as Wval.
  set (cur := db_get_unbonding_entry _ _ _ _) in *.
  assert (cur + amount < U128) as Hlt by (destruct Wval; unfold liabilities, liability, owed in *; lia).
  assert (saturating_add128 cur amount = cur + amount) as -> by (unfold saturating_add128, U128_MAX, U128, is_u128 in *; lia).
  set (d1 := put_delegation _ _ _ _). assert (wf_delta d1) as W1 by (apply put_delegation_wf; [done..|unfold is_u128 in *; lia]).
  assert (is_u128 (cur + amount)) as Hs by (unfold is_u128, U128 in *; lia).
  pose proof (put_unbonding_wf unlock who v (cur + amount) d1 W1 Wk Hs) as W2. unfold vs_undelegate. rewrite Ev.
  rewrite (proj2 (Z.ltb_ge _ _) Hd). apply booked_ok; [|done|].
  - apply vs_put_wf; [apply W|]. destruct Wval. unfold is_u128 in *.
    split; cbn [set_delegated self_stake delegated_stake commission_bps pending_rewards delegator_reward_pool pool_denominator]; lia.
  - unfold liabilities. rewrite put_unbonding_flush by done. unfold d1. rewrite put_delegation_flush by (done || unfold is_u128 in *; lia).
    rewrite unbonding_put by done. unfold db_put_delegation. cbn [cf_unbonding]. rewrite <- unbonding_entry_value by done. fold cur.
    rewrite (vs_put_liabilities vs v val) by done. unfold unbonding_total at 1. cbn [cf_unbonding]. fold (unbonding_total (flush d db)).
    unfold liability, owed, set_delegated. cbn. lia.
Qed.

Lemma withdraw_booked v height : wf_addr20 v → booked' (do_withdraw v who value height db vs d b).
Proof.
  intros Wv. unfold do_withdraw. destruct (negb (value =? 0)) eqn:E1; [done|]. apply negb_false_iff, Z.eqb_eq in E1 as E1.
  set (l := List.filter _ _). case_bool_decide as Hnil; [done|]. pose proof (ws_delta _ _ _ W) as Wd.
  pose proof (flush_wf I HI d db (ws_db _ _ _ W) Wd) as Wf.
  pose proof (iter_matured_flush I HI d db who height (ws_db _ _ _ W) Wd Wwho) as Ep.
  assert (NoDup l.*1) as ND.
  { pose proof (iter_nodup _ who height Wf) as ND. rewrite <- Ep in ND. unfold l. by apply filter_fst_nodup. }
  assert (Forall (fun e => wf_ukey (e.1.1, who, e.1.2) ∧ ∃ b, cf_unbonding (flush d db) !! ukey (e.1.1, who, e.1.2) = Some b ∧ e.2 = from_le b) l) as F.
  { apply Forall_forall. intros [[u w] x] Hin. unfold l in Hin. apply list_elem_of_In, filter_In in Hin as [Hin _].
    apply list_elem_of_In in Hin. rewrite Ep in Hin. apply iter_elem in Hin as (Wk & _ & c & Hc & ->); [|done..]. cbn. eauto. }
  destruct (unbonding_deletes who l d db (ws_db _ _ _ W) Wd ND F) as [W' Eu]. pose proof books_nonneg as [N1 N2].
  assert (Forall (fun e : Z * address * Z => 0 ≤ e.2) l) as Fp.
  { eapply Forall_impl; [exact F|]. intros [[u w] x] (_ & c & Hc & ->). apply from_le_nonneg. by apply (wdb_unb _ Wf _ _ Hc). }
  assert (0 ≤ sumZ snd l) as Hp by (by apply sumZ_nonneg).
  pose proof (unbonding_nonneg _ (flush_wf I HI _ db (ws_db _ _ _ W) W')) as N3.
  assert (sum128 (map snd l) = sumZ snd l) as ->.
  { rewrite <- (sumZ_map snd l). apply sum128_exact; [by apply Forall_fmap|]. rewrite sumZ_map. unfold liabilities in *. lia. }
  destruct (Z.ltb_spec (get_balance b STAKING_PRECOMPILE_ADDR) (sumZ snd l)); [done|].
  apply booked_pay; [apply W|done|done|unfold liabilities; lia..].
Qed.

Lemma claim_booked v : booked' (do_claim v who value vs d b).
Proof.
  unfold do_claim. destruct (negb (value =? 0)) eqn:E1; [done|]. apply negb_false_iff, Z.eqb_eq in E1 as E1.
  case_bool_decide as Ew; cbn [negb]; [|done]. subst v. unfold vs_claim_rewards. destruct (vs_get vs who) as [val|] eqn:Ev; [|done].
  pose proof (ws_vs _ _ _ W _ _ Ev) as Wval.
  assert (wf_vs (vs_put who (set_pending 0 val) vs)) as Wvs.
  { apply vs_put_wf; [apply W|]. destruct Wval. by split. }
  assert (liabilities db (vs_put who (set_pending 0 val) vs) d + pending_rewards val = liabilities db vs d) as El.
  { unfold liabilities. rewrite (vs_put_liabilities vs who val) by done. unfold liability, owed, set_pending. cbn. lia. }
  destruct Wval. destruct (Z.ltb_spec 0 (pending_rewards val)).
  - apply booked_pay; [done|apply W|lia..].
  - apply booked_ok; [done|apply W|lia].
Qed.

Lemma claim_delegator_booked v : wf_addr20 v → booked' (do_claim_delegator v who value db vs d b).
Proof.
  intros Wv. unfold do_claim_delegator. destruct (negb (value =? 0)) eqn:E1; [done|]. apply negb_false_iff, Z.eqb_eq in E1 as E1.
  destruct (get_delegation_ok v _ Wv eq_refl) as (n & -> & Hn). destruct (Z.eqb_spec n 0) as [|Hz]; [done|].
  unfold claim_delegator_reward. rewrite (proj2 (Z.eqb_neq _ _) Hz). destruct (vs_get vs v) as [val|] eqn:Ev; [|done].
  pose proof (ws_vs _ _ _ W _ _ Ev) as Wval. destruct (claim_delegator_share n val) as [x val'] eqn:Ec.
  pose proof (claim_share_bounds n val Wval) as Hc. rewrite Ec in Hc. destruct Hc as (Wv' & Hx & E2); [unfold is_u128 in Hn; lia|].
  assert (wf_vs (vs_put v val' vs)) as Wvs by (by apply vs_put_wf; [apply W|]).
  assert (liabilities db (vs_put v val' vs) d + x = liabilities db vs d) as El.
  { unfold liabilities. rewrite (vs_put_liabilities vs v val) by done. lia. }
  destruct (Z.eqb_spec x 0) as [->|Hx0].
  - split; cbn; [done|done|apply W|]. exists 0. split_and!; [lia|by left|done|lia].
  - rewrite (proj2 (Z.ltb_lt 0 x)) by lia. apply booked_pay; [done|apply W|lia..].
Qed.

Lemma dispatch_booked call height : wf_call call → is_u64 height →
  booked' (dispatch_staking_tx db call who value height vs d b).
Proof.
  intros Wc Hh. destruct call; cbn [wf_call dispatch_staking_tx] in *; unfold fixed in *; destruct_and?.
  - by apply register_booked.
  - by apply delegate_booked.
  - by apply undelegate_booked.
  - by apply withdraw_booked.
  - apply claim_booked.
  - by apply claim_delegator_booked.
  - done.
Qed.

End Money.

(** ** The ledger of delegations *)

(** What the per-delegator entries of a validator add up to. *)
Definition delegated_to (db : ZbxDb) (v : address) : Z :=
  map_sum from_le (filter (fun p => take 20 p.1 = v) (cf_delegations db)).

Section Ledger.
Context `{Keccak} `{Bls} `{BlsPoints} (I : DeltaIter) (HI : delta_iter_ok I) {B : Type} `{!BalanceAccess B}.

(** The entries of every validator add up to its aggregate stake, and a
    validator that is not registered has none. *)
Definition ledger_ok (db : ZbxDb) (vs : ValidatorSet) (d : StakingDelta) : Prop :=
  ∀ v, delegated_to (flush d db) v = from_option delegated_stake 0 (vs_get vs v).

Definition entry (db : ZbxDb) (v w : address) : Z := from_option from_le 0 (cf_delegations db !! delegation_key v w).

Lemma delegated_put db v w x v' : wf_addr20 v → is_u128 x →
  delegated_to (db_put_delegation v w x db) v' = delegated_to db v' + (if bool_decide (v = v') then x - entry db v w else 0).
Proof.
  intros [Lv _] Hx. unfold delegated_to, db_put_delegation, entry. cbn [cf_delegations].
  assert (take 20 (delegation_key v w) = v) as Et by (unfold delegation_key; by rewrite take_app_le, take_ge by lia).
  assert (from_option from_le 0 (filter (fun p => take 20 p.1 = v) (cf_delegations db) !! delegation_key v w) =
          from_option from_le 0 (cf_delegations db !! delegation_key v w)) as El.
  { destruct (cf_delegations db !! delegation_key v w) as [c|] eqn:E.
    - by rewrite (proj2 (map_lookup_filter_Some _ _ _ c)).
    - by rewrite (proj2 (map_lookup_filter_None _ _ _)) by (by left). }
  case_bool_decide as Ev.
  - subst v'. destruct (Z.eqb_spec x 0) as [->|Hz].
    + rewrite map_filter_delete, map_sum_delete_any, El. lia.
    + rewrite map_filter_insert_True, map_sum_insert_any, El by done. destruct (le16_roundtrip x Hx) as (-> & _). lia.
  - rewrite Z.add_0_r. f_equal. case_if.
    + rewrite map_filter_delete, delete_id; [done|]. apply map_lookup_filter_None. right. intros c _. cbn. congruence.
    + rewrite map_filter_insert_False by (cbn; congruence). rewrite map_filter_delete, delete_id; [done|].
      apply map_lookup_filter_None. right. intros c _. cbn. congruence.
Qed.

Lemma get_entry db v w n : db_get_delegation db v w = Ok n → entry db v w = n.
Proof. unfold db_get_delegation, entry. intros E. repeat case_match; by simplify_eq/=. Qed.

Lemma delegated_unbonding db u w v x v' : delegated_to (db_put_unbonding_entry u w v x db) v' = delegated_to db v'.
Proof. done. Qed.

Lemma delegated_deletes (who : address) l : ∀ d db v, wf_db db → wf_delta d → Forall (fun e => wf_ukey (e.1, who, e.2)) l →
  delegated_to (flush (delete_unbonding_entries who l d) db) v = delegated_to (flush d db) v.
Proof.
  induction l as [|[u v] l IH]; intros d db v' Wd W F; [done|]. apply Forall_cons in F as [Wk F].
  change (delete_unbonding_entries who ((u, v) :: l) d) with (delete_unbonding_entries who l (delete_unbonding_entry u who v d)).
  rewrite IH; [|done|by apply delete_unbonding_wf|done]. by rewrite delete_unbonding_flush.
Qed.

Lemma entry_le db v w : wf_db db → wf_addr20 v → entry db v w ≤ delegated_to db v.
Proof.
  intros Wd [Lv _]. unfold entry, delegated_to. assert (map_Forall (fun _ c => 0 ≤ from_le c) (filter (fun p => take 20 p.1 = v) (cf_delegations db))).
  { intros k c [Hc _]%map_lookup_filter_Some. apply from_le_nonneg. by apply (wdb_deleg db Wd k c). }
  destruct (cf_delegations db !! delegation_key v w) as [c|] eqn:E; cbn [from_option]; [|by apply map_sum_nonneg].
  apply (map_sum_lookup_le from_le _ (delegation_key v w)); [done|]. apply map_lookup_filter_Some. split; [done|].
  unfold delegation_key. cbn. by rewrite take_app_le, take_ge by lia.
Qed.

Lemma stake_put vs a x val val' : vs_get vs a = Some val →
  from_option delegated_stake 0 (vs_get (vs_put a val' vs) x) =
  from_option delegated_stake 0 (vs_get vs x) + (if bool_decide (a = x) then delegated_stake val' - delegated_stake val else 0).
Proof.
  intros Ha. unfold vs_get, vs_put, with_validators in *. cbn [validators]. case_bool_decide as E.
  - subst x. rewrite lookup_insert_eq, Ha. cbn. lia.
  - rewrite lookup_insert_ne by done. lia.
Qed.

Lemma ledger_vs_put db vs d a val val' : vs_get vs a = Some val → delegated_stake val' = delegated_stake val →
  ledger_ok db vs d → ledger_ok db (vs_put a val' vs) d.
Proof. intros Ha E L x. rewrite (stake_put vs a x val val' Ha), L. case_bool_decide; lia. Qed.

(** A write of [x] for [(v, w)] with the same change to the aggregate. *)
Lemma ledger_write db vs d v w x val val' :
  wf_delta d → wf_addr20 v → wf_addr20 w → is_u128 x → vs_get vs v = Some val →
  delegated_stake val' - delegated_stake val = x - entry (flush d db) v w →
  ledger_ok db vs d → ledger_ok db (vs_put v val' vs) (put_delegation v w x d).
Proof.
  intros Wd Wv Ww Hx Hv E L y. rewrite put_delegation_flush, delegated_put, (stake_put vs v y val val' Hv), L by done. case_bool_decide; lia.
Qed.

Context (db : ZbxDb) (vs : ValidatorSet) (d : StakingDelta) (b : B) (who : address) (value : Z).
Hypothesis W : wf_staking I db vs d.
Hypothesis Wwho : wf_addr20 who.
Hypothesis Hsmall : liabilities I db vs d + value < U128.
Hypothesis L : ledger_ok db vs d.

Abbreviation kept h := (ledger_ok db (snd h).1.1 (snd h).1.2).

Lemma read_entry v : wf_addr20 v → get_delegation d db v who = Ok (entry (flush d db) v who) ∧ is_u128 (entry (flush d db) v who).
Proof.
  intros Wv. destruct (get_delegation_ok I HI db vs d who W v _ Wv eq_refl) as (n & E & Hn). pose proof E as E'.
  rewrite (get_delegation_flush I HI) in E' by (done || apply W). apply get_entry in E' as ->. done.
Qed.

Lemma stake_room v val : wf_addr20 v → vs_get vs v = Some val →
  wf_validator val ∧ entry (flush d db) v who ≤ delegated_stake val ∧ delegated_stake val + value < U128.
Proof.
  intros Wv Ev. pose proof (flush_wf I HI d db (ws_db _ _ _ _ W) (ws_delta _ _ _ _ W)) as Wf. pose proof (ws_vs _ _ _ _ W _ _ Ev) as Wval.
  pose proof (liability_le vs v val (ws_vs _ _ _ _ W) Ev) as Hl. pose proof (books_nonneg I HI db vs d W) as [N1 N2].
  pose proof (entry_le _ v who Wf Wv) as He. rewrite L, Ev in He. cbn in He. split_and!; [done|done|].
  destruct Wval. unfold liabilities, liability, owed in *. lia.
Qed.

Lemma delegate_kept v amount : wf_addr20 v → is_u128 amount →
  (∀ val, vs_get vs v = Some val → status val ≠ Tombstoned) → kept (do_delegate v amount who value db vs d b).
Proof.
  intros Wv Ha Ht. unfold do_delegate. destruct (negb (value =? amount)) eqn:E1; [done|]. apply negb_false_iff, Z.eqb_eq in E1 as <-.
  destruct (value =? 0); [done|]. destruct (vs_get vs v) as [val|] eqn:Ev; [|done]. destruct (refuses_delegation (status val)) eqn:Er; [done|].
  destruct (read_entry v Wv) as [-> He]. destruct (stake_room v val Wv Ev) as (Wval & Hle & Hroom). unfold vs_delegate. rewrite Ev.
  assert (excluded (status val) = false) as -> by (specialize (Ht val eq_refl); by destruct (status val)).
  cbn [snd fst]. destruct Wval. unfold is_u128, U128, saturating_add128, U128_MAX in *. apply (ledger_write _ _ _ _ _ _ val); [apply W|done|done| |done| |done].
  - unfold is_u128, U128. lia.
  - unfold set_delegated. cbn [delegated_stake]. lia.
Qed.

Lemma undelegate_kept v amount height : wf_addr20 v → is_u128 amount → is_u64 height →
  kept (do_undelegate v amount who value height db vs d b).
Proof.
  intros Wv Ha Hh. unfold do_undelegate. destruct (negb (value =? 0)) eqn:E1; [done|]. apply negb_false_iff, Z.eqb_eq in E1.
  destruct (vs_get vs v) as [val|] eqn:Ev; [|done]. destruct (Z.ltb_spec (delegated_stake val) amount) as [|Hd]; [done|].
  destruct (read_entry v Wv) as [-> He]. destruct (Z.ltb_spec (entry (flush d db) v who) amount) as [|Hna]; [done|].
  destruct (stake_room v val Wv Ev) as (Wval & Hle & Hroom). unfold vs_undelegate. rewrite Ev, (proj2 (Z.ltb_ge _ _) Hd). cbn [snd fst].
  set (unlock := saturating_add64 _ _). assert (wf_ukey (unlock, who, v)) as Wk.
  { split_and!; [|done..]. cbn. unfold unlock, saturating_add64, is_u64, UNBONDING_PERIOD_BLOCKS, U64_MAX in *. lia. }
  set (e := entry (flush d db) v who) in *. pose proof (ws_delta _ _ _ _ W) as Wd.
  assert (wf_delta (put_delegation v who (e - amount) d)) by (apply put_delegation_wf; [done..|unfold is_u128 in *; lia]).
  pose proof (get_unbonding_flush I HI d db unlock who v Wd Wk) as ->. set (cur := db_get_unbonding_entry _ _ _ _).
  assert (is_u128 (saturating_add128 cur amount)) as Hs.
  { pose proof (unbonding_entry_bound (flush d db) unlock who v (flush_wf I HI d db (ws_db _ _ _ _ W) Wd)) as Hc. fold cur in Hc.
    unfold is_u128, saturating_add128, U128_MAX, U128 in *. lia. }
  intros y. rewrite put_unbonding_flush, delegated_unbonding by done.
  apply (ledger_write db vs d v who (e - amount) val); [done..| |done| |done]; unfold is_u128, e, set_delegated in *; cbn [delegated_stake]; lia.
Qed.

Lemma withdraw_kept v height : wf_addr20 v → kept (do_withdraw v who value height db vs d b).
Proof.
  intros Wv. unfold do_withdraw. destruct (negb (value =? 0)); [done|]. case_bool_decide; [done|]. case_match; [done|].
  unfold pay_out. case_match; cbn [snd fst]; intros y; (rewrite delegated_deletes; [apply L|apply W|apply W|]);
    apply Forall_fmap, Forall_forall; intros [[u w] x] Hin; apply list_elem_of_In, filter_In in Hin as [Hin _];
    apply list_elem_of_In in Hin; rewrite (iter_matured_flush I HI) in Hin by (done || apply W);
    apply iter_elem in Hin as (Wk & _); try done; apply flush_wf; (done || apply W).
Qed.

Lemma register_kept pk pop stake commission : kept (do_register pk pop stake commission who value vs d b).
Proof.
  unfold do_register. case_match; [done|]. case_match; [|done]. case_match; [|done]. unfold register_with_pop, register.
  destruct (negb (verify_pop _ _ _)); [done|]. case_bool_decide as Hn; [done|]. destruct (stake <? MIN_SELF_STAKE); [done|].
  cbn [fst snd]. intros y. rewrite L. apply eq_None_not_Some in Hn. unfold vs_get, vs_put, with_validators in *. cbn [validators].
  destruct (decide (y = who)) as [->|Hy]; [by rewrite lookup_insert_eq, Hn|by rewrite lookup_insert_ne].
Qed.

Lemma pay_out_kept x gas vs' d' : ledger_ok db vs' d' → kept (pay_out x who gas vs' d' b).
Proof. intros HL. unfold pay_out. by case_match. Qed.

Lemma claim_kept v : kept (do_claim v who value vs d b).
Proof.
  unfold do_claim. case_match; [done|]. case_bool_decide as Ew; cbn [negb]; [|done]. subst v. unfold vs_claim_rewards.
  destruct (vs_get vs who) as [val|] eqn:Ev; [|done].
  assert (ledger_ok db (vs_put who (set_pending 0 val) vs) d) by (by apply (ledger_vs_put _ _ _ _ val)).
  case_match; [by apply pay_out_kept|done].
Qed.

Lemma claim_delegator_kept v : wf_addr20 v → kept (do_claim_delegator v who value db vs d b).
Proof.
  intros Wv. unfold do_claim_delegator. case_match; [done|]. destruct (read_entry v Wv) as [-> He].
  destruct (entry _ v who =? 0) eqn:Ez; [done|]. unfold claim_delegator_reward. rewrite Ez. destruct (vs_get vs v) as [val|] eqn:Ev; [|done].
  destruct (claim_delegator_share _ val) as [x val'] eqn:Ec.
  assert (ledger_ok db (vs_put v val' vs) d).
  { apply (ledger_vs_put _ _ _ _ val); [done| |done]. unfold claim_delegator_share in Ec. by case_match; injection Ec as _ <-. }
  destruct (x =? 0); [done|]. case_match; [by apply pay_out_kept|done].
Qed.

End Ledger.

(** ** The theorems *)

Section Theorems.
Context `{Keccak} `{Bls} `{BlsPoints} (I : DeltaIter) {B : Type} `{!BalanceAccess B}.

(** C13: No staking call aborts, and every call keeps the escrow's books: when
    it succeeds, what the escrow owes afterwards (stakes, rewards and the
    unbonding queue) plus what it paid to the sender is what it owed before
    plus the value that came with the call; when it fails, nothing is paid
    and the escrow owes at most what it owed before. A payment never exceeds
    the escrow's balance and only moves between the escrow and the sender. *)
Theorem staking_books_balance (db : ZbxDb) (vs : ValidatorSet) (d : StakingDelta) (b : B) (call : StakingTx)
    (who : address) (value height : Z) :
  delta_iter_ok I → wf_staking I db vs d → wf_call call → wf_addr20 who → 0 ≤ value → is_u64 height →
  liabilities I db vs d + value < U128 →
  booked I db vs d b who value (dispatch_staking_tx db call who value height vs d b).
Proof. intros. by apply dispatch_booked. Qed.

(** C33: If the entries of each validator's delegators add up to its aggregate
    delegated stake before a staking call, they do after it, except after a
    [Delegate] to a tombstoned validator. *)
Theorem delegations_add_up (db : ZbxDb) (vs : ValidatorSet) (d : StakingDelta) (b : B) (call : StakingTx)
    (who : address) (value height : Z) :
  delta_iter_ok I → wf_staking I db vs d → wf_call call → wf_addr20 who → is_u64 height →
  liabilities I db vs d + value < U128 → ledger_ok I db vs d →
  (∀ v amount val, call = Delegate v amount → vs_get vs v = Some val → status val ≠ Tombstoned) →
  let h := dispatch_staking_tx db call who value height vs d b in ledger_ok I db h.2.1.1 h.2.1.2.
Proof.
  intros HI W Wc Wwho Hh Hs L Ht. destruct call; cbn [wf_call dispatch_staking_tx] in *; unfold fixed in *; destruct_and?.
  - by apply register_kept.
  - apply delegate_kept; [done..|]. intros val. by eapply Ht.
  - by apply undelegate_kept.
  - by apply withdraw_kept.
  - by apply claim_kept.
  - by apply claim_delegator_kept.
  - done.
Qed.

Lemma singleton_filter {A} (p : A → bool) (x : A) l : NoDup l → (∀ y, y ∈ l ∧ p y = true ↔ y = x) → List.filter p l = [x].
Proof.
  intros ND Hx. apply Permutation_singleton_r. symmetry. apply NoDup_Permutation.
  - apply NoDup_singleton.
  - apply NoDup_ListNoDup, List.NoDup_filter. by apply NoDup_ListNoDup.
  - intros y. rewrite list_elem_of_singleton, list_elem_of_In, filter_In, <- list_elem_of_In. symmetry. apply Hx.
Qed.

(** The withdrawal after an undelegation by a sender with an empty queue. *)
Lemma withdraw_single db vs d b who v h amount :
  delta_iter_ok I → wf_db db → wf_delta d → wf_addr20 who → wf_ukey (h, who, v) → is_u128 amount →
  (∀ u, is_u64 u → cf_unbonding (flush d db) !! ukey (u, who, v) = if bool_decide (u = h) then Some (to_le16 amount) else None) →
  amount ≤ get_balance b STAKING_PRECOMPILE_ADDR →
  ∃ d', do_withdraw v who 0 h db vs d b = (Ok STAKING_GAS_WITHDRAW, (vs, d', paid amount who b)).
Proof.
  intros HI Wdb Wd Wwho Wk Ha Hq Hb. pose proof (iter_matured_flush I HI d db who h Wdb Wd Wwho) as Ep.
  pose proof (flush_wf I HI d db Wdb Wd) as Wf. destruct (le16_roundtrip amount Ha) as (Er & _).
  unfold do_withdraw. cbn [negb Z.eqb]. rewrite (singleton_filter _ (h, v, amount)).
  - rewrite bool_decide_eq_false_2 by done. cbn [map snd].
    assert (sum128 [amount] = amount) as ->.
    { rewrite sum128_exact; [unfold sumZ; cbn; lia| |]; unfold is_u128 in Ha; [|unfold sumZ; cbn; lia]. apply Forall_singleton. lia. }
    rewrite (proj2 (Z.ltb_ge _ _) Hb). unfold pay_out. rewrite (proj2 (Z.ltb_ge _ _) Hb). eexists. reflexivity.
  - rewrite Ep. eapply NoDup_fmap_1, iter_nodup, Wf.
  - intros [[u w] x]. rewrite Ep, (iter_elem _ who h u w x Wf Wwho). split.
    + intros ((Wu & Hle & c & Hc & ->) & Hw). case_bool_decide; [|done]. subst w. rewrite Hq in Hc by apply Wu. case_bool_decide; [|done]. subst u. injection Hc as <-. by rewrite Er.
    + intros E. injection E as -> -> ->. split; [|by rewrite bool_decide_eq_true_2]. split_and!; [done|lia|].
      exists (to_le16 amount). by rewrite Hq, bool_decide_eq_true_2 by (done || apply Wk).
Qed.

(** A [Delegate] to a tombstoned validator fails after its ledger entry
    was written, and the entry stays. A sender who paid nothing can so take
    delegated stake of others: the failed [Delegate], an [Undelegate] of the
    amount and, when the unbonding period is over, a [Withdraw] pay the amount
    out of the escrow. *)
Theorem phantom_delegation (db : ZbxDb) (vs : ValidatorSet) (d : StakingDelta) (b : B) (who v : address) (amount h : Z) (val : Validator) :
  delta_iter_ok I → wf_staking I db vs d → wf_addr20 who → wf_addr20 v → 0 ≤ h → h + UNBONDING_PERIOD_BLOCKS ≤ U64_MAX →
  vs_get vs v = Some val → status val = Tombstoned → 0 < amount ≤ delegated_stake val →
  cf_delegations (flush d db) !! delegation_key v who = None →
  (∀ u, is_u64 u → cf_unbonding (flush d db) !! ukey (u, who, v) = None) →
  amount ≤ get_balance b STAKING_PRECOMPILE_ADDR →
  ∃ d1 vs2 d2 d3,
    dispatch_staking_tx db (Delegate v amount) who amount h vs d b = (Err IsJailed, (vs, d1, b)) ∧
    dispatch_staking_tx db (Undelegate v amount) who 0 h vs d1 b = (Ok STAKING_GAS_UNDELEGATE, (vs2, d2, b)) ∧
    dispatch_staking_tx db (Withdraw v) who 0 (h + UNBONDING_PERIOD_BLOCKS) vs2 d2 b =
      (Ok STAKING_GAS_WITHDRAW, (vs2, d3, paid amount who b)).
Proof.
  intros HI W Ww Wv Hh Hu Ev Es [Hp Hle] He Hq Hb. pose proof (ws_delta _ _ _ _ W) as Wd. pose proof (ws_db _ _ _ _ W) as Wdb.
  pose proof (ws_vs _ _ _ _ W _ _ Ev) as Wval. assert (is_u128 amount) as Ha by (destruct Wval; unfold is_u128; lia).
  set (d1 := put_delegation v who amount d). set (u := h + UNBONDING_PERIOD_BLOCKS).
  assert (wf_ukey (u, who, v)) as Wk.
  { split_and!; [|done..]. cbn. unfold u, is_u64, UNBONDING_PERIOD_BLOCKS, U64_MAX in *. lia. }
  pose proof (put_delegation_wf v who amount d Wd Wv Ww Ha) as W1. fold d1 in W1.
  assert (get_unbonding_entry d1 db u who v = 0) as Eq0.
  { rewrite (get_unbonding_flush I HI) by done. unfold d1. rewrite put_delegation_flush by done.
    unfold db_get_unbonding_entry. cbn [cf_unbonding db_put_delegation]. change (unbonding_key u who v) with (ukey (u, who, v)). by rewrite Hq by apply Wk. }
  assert (is_u128 0) as Hz by (vm_compute; by split).
  set (d2 := put_unbonding_entry u who v amount (put_delegation v who 0 d1)).
  pose proof (put_delegation_wf v who 0 d1 W1 Wv Ww Hz) as W2. pose proof (put_unbonding_wf u who v amount _ W2 Wk Ha) as W3.
  set (vs2 := vs_put v (set_delegated (delegated_stake val - amount) val) vs).
  assert (saturating_add128 0 amount = amount) as Es0 by (unfold saturating_add128, U128_MAX, is_u128, U128 in *; lia).
  destruct (withdraw_single db vs2 d2 b who v u amount HI Wdb W3 Ww Wk Ha) as [d3 E3]; [|done|].
  { intros u' Hu'. unfold d2, d1. rewrite put_unbonding_flush, !put_delegation_flush by done. cbn [cf_unbonding db_put_unbonding_entry db_put_delegation].
    change (unbonding_key u who v) with (ukey (u, who, v)). case_bool_decide as Eu; [subst u'; apply lookup_insert_eq|].
    rewrite lookup_insert_ne; [by apply Hq|]. intros E. apply ukey_inj in E; [|done..]. by injection E as ->. }
  exists d1, vs2, d2, d3. split_and!; [| |exact E3].
  - cbn [dispatch_staking_tx]. unfold do_delegate. rewrite Z.eqb_refl. cbn [negb]. rewrite (proj2 (Z.eqb_neq amount 0)) by lia.
    rewrite Ev, Es. cbn [refuses_delegation]. rewrite (get_delegation_flush I HI) by done. unfold db_get_delegation. rewrite He, Es0.
    fold d1. unfold vs_delegate. by rewrite Ev, Es.
  - cbn [dispatch_staking_tx]. unfold do_undelegate. cbn [negb Z.eqb]. rewrite Ev. rewrite (proj2 (Z.ltb_ge _ _) Hle).
    assert (get_delegation d1 db v who = Ok amount) as ->.
    { unfold get_delegation, d1, put_delegation. cbn [delegations]. by rewrite lookup_insert_eq. }
    rewrite Z.ltb_irrefl, Z.sub_diag. assert (saturating_add64 h UNBONDING_PERIOD_BLOCKS = u) as -> by (unfold saturating_add64, u; lia).
    rewrite Eq0, Es0. fold d2. unfold vs_undelegate. rewrite Ev. by rewrite (proj2 (Z.ltb_ge _ _) Hle).
Qed.

End Theorems.

(** ** A concrete escrow *)

Module Samples.
Import StakingLedger.Samples.

(** A signature is the key followed by the message. *)
#[local] Instance keccak_sample : Keccak := fun b => to_be 32 (be_val b).
#[local] Instance bls_sample : Bls := {|
  verify_single s pk m := bool_decide (s = pk ++ m); verify_aggregate _ _ _ := false;
  aggregate_signatures _ := None; sign k m := k ++ m; to_pubkey k := k |}.
#[local] Instance points_sample : BlsPoints := {| g1_point _ := true; g2_point _ := true |}.
#[local] Instance balances_sample : BalanceAccess (gmap address Z) := {|
  get_balance m a := default 0 (m !! a); set_balance a x m := <[a := x]> m |}.

(** Account 7 delegated 500 to validator 1, which is now tombstoned. *)
Definition hdb : ZbxDb := mkDb {[ delegation_key (adr 1) (adr 7) := to_le16 500 ]} {[ unbonding_key 90 (adr 7) (adr 1) := to_le16 10 ]}.
Definition hval (n del : Z) (st : ValidatorStatus) : Validator := mkValidator (adr n) [] MIN_SELF_STAKE del 1000 st 0 8 0 0 0.
Definition hvs : ValidatorSet := mkVs (<[adr 1 := hval 1 500 Tombstoned]> {[ adr 2 := hval 2 0 Active ]}) [adr 2] 0.
Definition hbal : gmap address Z := {[ STAKING_PRECOMPILE_ADDR := 2 * MIN_SELF_STAKE + 526 ]}.

Lemma hdb_wf : wf_db hdb.
Proof.
  assert (∀ x, 0 ≤ x < 1000 → length (to_le16 x) = 16%nat ∧ wf_bytes (to_le16 x)) as H.
  { intros x Hx. apply le16_roundtrip. unfold is_u128, U128. lia. }
  assert (is_ukey (unbonding_key 90 (adr 7) (adr 1))) as Hk.
  { apply (ukey_is (90, adr 7, adr 1)). split_and!; [unfold is_u64; cbn; lia|apply adr_wf; unfold is_u8; lia..]. }
  split; unfold hdb; cbn [cf_delegations cf_unbonding]; apply map_Forall_singleton.
  - by apply H.
  - split; [apply Hk|split; [apply Hk|by apply H]].
Qed.

Lemma fresh_val_wf : wf_delta delta_new.
Proof. split; cbn; try apply map_Forall_empty; set_solver. Qed.

Lemma hvs_wf : wf_vs hvs.
Proof.
  intros a v; unfold hvs; cbn [validators]; rewrite lookup_insert_Some, lookup_singleton_Some. intros [[<- <-]|(_ & <- & <-)];
    split; cbn; (done || unfold U128; lia).
Qed.

Lemma hstaking_wf : wf_staking iter_up hdb hvs delta_new.
Proof. split; [apply hdb_wf|apply fresh_val_wf|apply hvs_wf|vm_compute; reflexivity]. Qed.

Lemma adr7 : wf_addr20 (adr 1) ∧ wf_addr20 (adr 2) ∧ wf_addr20 (adr 7) ∧ wf_addr20 (adr 9).
Proof. split_and!; apply adr_wf; unfold is_u8; lia. Qed.

Lemma hledger : ledger_ok iter_up hdb hvs delta_new.
Proof.
  intros v. change (@flush iter_up delta_new hdb) with hdb. unfold delegated_to, hdb. cbn [cf_delegations]. rewrite map_filter_singleton.
  unfold vs_get, hvs. cbn [validators fst]. change (take 20 (delegation_key (adr 1) (adr 7))) with (adr 1). case_decide as E.
  - subst v. rewrite lookup_insert_eq. vm_compute. reflexivity.
  - rewrite lookup_insert_ne by done. rewrite map_sum_empty. destruct (decide (v = adr 2)) as [->|Hn].
    + by rewrite lookup_singleton_eq.
    + by rewrite lookup_singleton_ne.
Qed.

(** The withdrawal of ten pays ten and the books close. *)
Lemma staking_books_balance_witness :
  (dispatch_staking_tx hdb (Withdraw (adr 1)) (adr 7) 0 90 hvs delta_new hbal).1 = Ok STAKING_GAS_WITHDRAW ∧
  get_balance (dispatch_staking_tx hdb (Withdraw (adr 1)) (adr 7) 0 90 hvs delta_new hbal).2.2 (adr 7) = 10 ∧
  booked iter_up hdb hvs delta_new hbal (adr 7) 0 (dispatch_staking_tx hdb (Withdraw (adr 1)) (adr 7) 0 90 hvs delta_new hbal).
Proof.
  destruct adr7 as (W1 & W2 & W7 & _). split; [vm_compute; reflexivity|]. split; [vm_compute; reflexivity|].
  refine (staking_books_balance iter_up hdb hvs delta_new hbal (Withdraw (adr 1)) (adr 7) 0 90 iter_up_ok hstaking_wf W1 W7 _ _ _).
  - lia.
  - unfold is_u64; lia.
  - vm_compute; reflexivity.
Defined.

Lemma delegations_add_up_witness :
  let h := dispatch_staking_tx hdb (Undelegate (adr 1) 200) (adr 7) 0 90 hvs delta_new hbal in
  h.1 = Ok STAKING_GAS_UNDELEGATE ∧ ledger_ok iter_up hdb h.2.1.1 h.2.1.2.
Proof.
  destruct adr7 as (W1 & W2 & W7 & _). split; [vm_compute; reflexivity|].
  refine (delegations_add_up iter_up hdb hvs delta_new hbal (Undelegate (adr 1) 200) (adr 7) 0 90 iter_up_ok hstaking_wf _ W7 _ _ hledger _).
  - split; [exact W1|]. unfold is_u128, U128. lia.
  - unfold is_u64; lia.
  - vm_compute; reflexivity.
  - discriminate.
Defined.

(** Account 9 owns nothing and walks away with the 500 of account 7. *)
Lemma phantom_delegation_witness :
  ∃ d1 vs2 d2 d3,
    dispatch_staking_tx hdb (Delegate (adr 1) 500) (adr 9) 500 60 hvs delta_new hbal = (Err IsJailed, (hvs, d1, hbal)) ∧
    dispatch_staking_tx hdb (Undelegate (adr 1) 500) (adr 9) 0 60 hvs d1 hbal = (Ok STAKING_GAS_UNDELEGATE, (vs2, d2, hbal)) ∧
    dispatch_staking_tx hdb (Withdraw (adr 1)) (adr 9) 0 (60 + UNBONDING_PERIOD_BLOCKS) vs2 d2 hbal =
      (Ok STAKING_GAS_WITHDRAW, (vs2, d3, paid 500 (adr 9) hbal)).
Proof.
  destruct adr7 as (W1 & W2 & W7 & W9).
  refine (phantom_delegation iter_up hdb hvs delta_new hbal (adr 9) (adr 1) 500 60 (hval 1 500 Tombstoned)
    iter_up_ok hstaking_wf W9 W1 _ _ _ _ _ _ _ _).
  - lia.
  - vm_compute. discriminate.
  - reflexivity.
  - reflexivity.
  - split; [lia|vm_compute; discriminate].
  - reflexivity.
  - intros u Hu. change (@flush iter_up delta_new hdb) with hdb. unfold hdb. cbn [cf_unbonding].
    apply lookup_singleton_ne. intros E. apply (ukey_inj (90, adr 7, adr 1) (u, adr 9, adr 1)) in E; [|split_and!; (done || unfold is_u64; cbn; lia)..].
    discriminate.
  - vm_compute. discriminate.
Defined.

End Samples.

End StakingHandler.
