(* ===== verification/Slashing.v ===== *)
(** * The slashing registry

    Models [crates/zbx-staking/src/slashing_v2.rs]: evidence, the correlated
    slash amounts, evidence records and the operations of
    [SlashingRegistryV2]. SHA3-256 is a parameter. The theorems show how a
    record's status can change, what the amounts are bounded by and how the
    reporters share the reward. *)

From stdpp Require Import sorting.
From S2P Require Import Prelude.
From S2P Require Import EvmBase.
From S2P Require Import EvmHost.
From S2P Require Import Votes.
From S2P Require Import Validators.

Module Slashing.
Import EvmHost Votes Validators.
#[local] Set Warnings "-clear-no-such-hyp".

(** ** Constants and data *)

Definition APPEAL_WINDOW_BLOCKS : Z := 172800.
Definition WHISTLEBLOWER_REWARD_BPS : Z := 500.
Definition EVIDENCE_BOND_WEI : Z := 100 * 10 ^ 18.
Definition SLASH_RECORD_FORMAT_VERSION : Z := 1.

Inductive EvidenceType := DoubleSignT | LivenessFaultT | ConsecutiveMissT | InvalidBlockT | SurrogateVoteT.
#[export] Instance EvidenceType_eq_dec : EqDecision EvidenceType.
Proof. solve_decision. Defined.

Inductive EvidenceStatus := SPending | SAppealed | SConfirmed | SRejected | SOverturned.
#[export] Instance EvidenceStatus_eq_dec : EqDecision EvidenceStatus.
Proof. solve_decision. Defined.

Record DoubleSignProof := mkProof {
  ds_height : Z;
  ds_round : Z;
  ds_phase : Z;
  block_a : bytes;
  block_b : bytes;
  sig_a : bytes;
  sig_b : bytes;
  ds_validator : address;
  validator_bls_pubkey : bytes
}.

Definition proof_verify `{Bls} `{BlsPoints} (p : DoubleSignProof) : bool :=
  if bool_decide (block_a p = block_b p) then false else
  match BlsPubKey_from_bytes (validator_bls_pubkey p) with
  | None => false
  | Some pk =>
      if negb (length (sig_a p) =? 96)%nat || negb (length (sig_b p) =? 96)%nat then false else
      match BlsSignature_from_bytes (sig_a p), BlsSignature_from_bytes (sig_b p) with
      | Some sa, Some sb => verify_single sa pk (block_a p) && verify_single sb pk (block_b p)
      | _, _ => false
      end
  end.

Inductive BlockViolation :=
| InvalidStateRoot (claimed actual : bytes)
| InvalidTxRoot
| GasLimitExceeded (claimed max : Z)
| InvalidTimestamp (claimed expected_min : Z)
| ChainIdMismatch (claimed expected : Z).

Record InvalidBlockProof := mkInvalid { ib_block_hash : bytes; ib_proposer : address; ib_violation : BlockViolation }.

Inductive SlashEvidenceV2 :=
| DoubleSign (p : DoubleSignProof)
| LivenessFault (epoch missed total : Z)
| ConsecutiveMiss (from_block count : Z)
| InvalidBlock (p : InvalidBlockProof)
| SurrogateVote (vote_hash block_a block_b : bytes) (validator : address).

Definition evidence_type (e : SlashEvidenceV2) : EvidenceType :=
  match e with
  | DoubleSign _ => DoubleSignT
  | LivenessFault _ _ _ => LivenessFaultT
  | ConsecutiveMiss _ _ => ConsecutiveMissT
  | InvalidBlock _ => InvalidBlockT
  | SurrogateVote _ _ _ _ => SurrogateVoteT
  end.

Definition offender_of (e : SlashEvidenceV2) : option address :=
  match e with
  | DoubleSign p => Some (ds_validator p)
  | InvalidBlock p => Some (ib_proposer p)
  | SurrogateVote _ _ _ v => Some v
  | LivenessFault _ _ _ | ConsecutiveMiss _ _ => None
  end.

Record SlashEvidenceRecord := mkRecord {
  r_id : bytes;
  r_type : EvidenceType;
  r_offender : address;
  submitted_by : address;
  submit_block : Z;
  r_evidence : SlashEvidenceV2;
  r_status : EvidenceStatus;
  base_slash_wei : Z;
  final_slash_wei : Z;
  appeal_deadline : Z;
  reporters : list address;
  jailed_by_slash : bool;
  burn_applied : bool;
  format_version : Z
}.

(** Field updates. *)
Definition with_status (s : EvidenceStatus) (r : SlashEvidenceRecord) : SlashEvidenceRecord :=
  mkRecord (r_id r) (r_type r) (r_offender r) (submitted_by r) (submit_block r) (r_evidence r) s (base_slash_wei r)
    (final_slash_wei r) (appeal_deadline r) (reporters r) (jailed_by_slash r) (burn_applied r) (format_version r).
Definition with_reporters (l : list address) (r : SlashEvidenceRecord) : SlashEvidenceRecord :=
  mkRecord (r_id r) (r_type r) (r_offender r) (submitted_by r) (submit_block r) (r_evidence r) (r_status r) (base_slash_wei r)
    (final_slash_wei r) (appeal_deadline r) l (jailed_by_slash r) (burn_applied r) (format_version r).
Definition with_jailed (j : bool) (r : SlashEvidenceRecord) : SlashEvidenceRecord :=
  mkRecord (r_id r) (r_type r) (r_offender r) (submitted_by r) (submit_block r) (r_evidence r) (r_status r) (base_slash_wei r)
    (final_slash_wei r) (appeal_deadline r) (reporters r) j (burn_applied r) (format_version r).
Definition with_burn (b : bool) (version : Z) (r : SlashEvidenceRecord) : SlashEvidenceRecord :=
  mkRecord (r_id r) (r_type r) (r_offender r) (submitted_by r) (submit_block r) (r_evidence r) (r_status r) (base_slash_wei r)
    (final_slash_wei r) (appeal_deadline r) (reporters r) (jailed_by_slash r) b version.

(** ** Identifiers and amounts *)

Definition type_discriminant (t : EvidenceType) : Z :=
  match t with DoubleSignT => 0 | LivenessFaultT => 1 | ConsecutiveMissT => 2 | InvalidBlockT => 3 | SurrogateVoteT => 4 end.

Definition compute_id_for_offender `{Sha3} (offender : address) (submit_block : Z) (t : EvidenceType) : bytes :=
  sha3_256 (offender ++ rev (to_be 8 submit_block) ++ [type_discriminant t]).

Definition base_slash_bps (t : EvidenceType) : Z :=
  match t with
  | DoubleSignT => SLASH_DOUBLE_SIGN
  | LivenessFaultT => SLASH_LIVENESS_DAILY
  | ConsecutiveMissT => 100
  | InvalidBlockT => 2000
  | SurrogateVoteT => 500
  end.

Definition correlated_slash_bps (base_bps n_slashed n_total : Z) : Z :=
  if n_total =? 0 then base_bps else
  let ratio_bps := wrap128 (n_slashed * 10000) / n_total in
  let factor_fp := wrap128 (10000 + wrap128 (3 * ratio_bps)) in
  let factor_sq := wrap128 (factor_fp * factor_fp) / 10000 in
  Z.min (wrap128 (base_bps * factor_sq) / 10000) 10000.

Definition slash_amount_wei (stake_wei slash_bps : Z) : Z :=
  match checked_mul128 stake_wei slash_bps with
  | Some p => p / 10000
  | None => saturating_mul128 (stake_wei / 10000) slash_bps
  end.

(** ** The registry *)

Inductive SubmitOutcome := NewRecord (id : bytes) | CoWitnessAdded (id : bytes) | AlreadyRecorded (id : bytes).
Definition record_id (o : SubmitOutcome) : bytes :=
  match o with NewRecord id | CoWitnessAdded id | AlreadyRecorded id => id end.

Record FinalizedSlash := mkFinal { fs_slash_wei : Z; total_reward : Z; splits : list (address * Z) }.

Record SlashingRegistryV2 := mkRegistry {
  records : gmap bytes SlashEvidenceRecord;
  epoch_slash_count : gmap (Z * address) Z;
  pending_bonds : gmap bytes (address * Z);
  total_validators : Z
}.

Definition registry_new (total : Z) : SlashingRegistryV2 := mkRegistry ∅ ∅ ∅ total.
Definition with_records (m : gmap bytes SlashEvidenceRecord) (g : SlashingRegistryV2) : SlashingRegistryV2 :=
  mkRegistry m (epoch_slash_count g) (pending_bonds g) (total_validators g).

Definition get_record (g : SlashingRegistryV2) (id : bytes) : option SlashEvidenceRecord := records g !! id.

Definition submit_evidence `{Sha3} (evidence : SlashEvidenceV2) (by_ : address) (current_block current_epoch offender_stake : Z)
    (g : SlashingRegistryV2) : outcome StakingError (SubmitOutcome * SlashingRegistryV2) :=
  match offender_of evidence with
  | None => Err (InvalidEvidence NoOffender)
  | Some offender =>
      let t := evidence_type evidence in
      let id := compute_id_for_offender offender current_block t in
      match records g !! id with
      | Some existing =>
          if negb (bool_decide (r_status existing = SPending)) then Ok (AlreadyRecorded id, g) else
          if bool_decide (submitted_by existing = by_) || bool_decide (by_ ∈ reporters existing) then Ok (AlreadyRecorded id, g) else
          Ok (CoWitnessAdded id,
              mkRegistry (<[id := with_reporters (reporters existing ++ [by_]) existing]> (records g)) (epoch_slash_count g)
                (<[id := (by_, EVIDENCE_BOND_WEI)]> (pending_bonds g)) (total_validators g))
      | None =>
          let n_slashed := wrap64 (default 0 (epoch_slash_count g !! (current_epoch, offender)) + 1) in
          let base_bps := base_slash_bps t in
          let corr_bps := correlated_slash_bps base_bps n_slashed (total_validators g) in
          let r := mkRecord id t offender by_ current_block evidence SPending (slash_amount_wei offender_stake base_bps)
                     (slash_amount_wei offender_stake corr_bps) (wrap64 (current_block + APPEAL_WINDOW_BLOCKS)) [] false false
                     SLASH_RECORD_FORMAT_VERSION in
          Ok (NewRecord id,
              mkRegistry (<[id := r]> (records g)) (epoch_slash_count g) (<[id := (by_, EVIDENCE_BOND_WEI)]> (pending_bonds g))
                (total_validators g))
      end
  end.

(** [if let Some(r) = self.records.get_mut(id) { .. }] *)
Definition alter_record (f : SlashEvidenceRecord → SlashEvidenceRecord) (id : bytes) (g : SlashingRegistryV2) : SlashingRegistryV2 :=
  with_records (alter f id (records g)) g.

Definition set_jailed_by_slash (id : bytes) (j : bool) : SlashingRegistryV2 → SlashingRegistryV2 := alter_record (with_jailed j) id.
Definition set_burn_applied (id : bytes) : SlashingRegistryV2 → SlashingRegistryV2 :=
  alter_record (fun r => with_burn true (format_version r) r) id.

Definition file_appeal (id : bytes) (current_block : Z) (g : SlashingRegistryV2) : outcome StakingError SlashingRegistryV2 :=
  match records g !! id with
  | None => Err EvidenceNotFound
  | Some r =>
      if negb (bool_decide (r_status r = SPending)) then Err AppealNotAllowed else
      if appeal_deadline r <? current_block then Err AppealWindowExpired else
      Ok (with_records (<[id := with_status SAppealed r]> (records g)) g)
  end.

(** [sort_unstable] by the bytes of the address, then [dedup]. *)
Definition addr_le (a b : address) : Prop := lex_lt b a = false.
#[export] Instance addr_le_dec : RelDecision addr_le.
Proof. intros a b. unfold addr_le. apply _. Defined.

Fixpoint dedup (l : list address) : list address :=
  match l with
  | a :: rest =>
      match rest with
      | b :: _ => if bool_decide (a = b) then dedup rest else a :: dedup rest
      | [] => [a]
      end
  | [] => []
  end.

Definition recompute_splits (r : SlashEvidenceRecord) : FinalizedSlash :=
  let slash := final_slash_wei r in
  let reward := wrap128 (slash * WHISTLEBLOWER_REWARD_BPS) / 10000 in
  let all := dedup (merge_sort addr_le (submitted_by r :: reporters r)) in
  let n := Z.of_nat (length all) in
  let per_reporter := if n =? 0 then 0 else reward / n in
  mkFinal slash reward (map (fun a => (a, per_reporter)) all).

Definition finalize_slash (id : bytes) (current_block : Z) (g : SlashingRegistryV2)
    : outcome StakingError (option FinalizedSlash * SlashingRegistryV2) :=
  match records g !! id with
  | None => Err EvidenceNotFound
  | Some r =>
      if negb (bool_decide (r_status r = SPending)) then Ok (None, g) else
      if current_block <=? appeal_deadline r then Ok (None, g) else
      let r' := with_burn false SLASH_RECORD_FORMAT_VERSION (with_status SConfirmed r) in
      Ok (Some (recompute_splits r'), with_records (<[id := r']> (records g)) g)
  end.

Definition overturn_slash (id : bytes) (g : SlashingRegistryV2) : outcome StakingError (Z * SlashingRegistryV2) :=
  match records g !! id with
  | None => Err EvidenceNotFound
  | Some r =>
      if negb (bool_decide (r_status r = SAppealed)) then Err OverturnNotAllowed else
      Ok (final_slash_wei r, with_records (<[id := with_status SOverturned r]> (records g)) g)
  end.

Definition reject_appeal (id : bytes) (g : SlashingRegistryV2) : outcome StakingError (Z * SlashingRegistryV2) :=
  match records g !! id with
  | None => Err EvidenceNotFound
  | Some r =>
      if negb (bool_decide (r_status r = SAppealed)) then Err OverturnNotAllowed else
      Ok (final_slash_wei r, with_records (<[id := with_status SConfirmed r]> (records g)) g)
  end.

Definition pending_count (g : SlashingRegistryV2) : nat :=
  size (filter (fun p => r_status p.2 = SPending) (records g)).

Definition lifetime_confirmed_slashes (g : SlashingRegistryV2) (offender : address) : Z :=
  Z.of_nat (size (filter (fun p => r_status p.2 = SConfirmed ∧ r_offender p.2 = offender) (records g))).

Definition file_appeal_for_tx (id : bytes) (sender : address) (current_block : Z) (g : SlashingRegistryV2)
    : outcome StakingError (SlashEvidenceRecord * SlashingRegistryV2) :=
  match records g !! id with
  | None => Err EvidenceNotFound
  | Some r =>
      if negb (bool_decide (r_offender r = sender)) then Err AppealNotByOffender else
      match file_appeal id current_block g with
      | Ok g' => match records g' !! id with Some r' => Ok (r', g') | None => Panic end
      | Err e => Err e
      | Panic => Panic
      end
  end.

Definition insert_rehydrated_record (r : SlashEvidenceRecord) (g : SlashingRegistryV2) : SlashingRegistryV2 :=
  let counts :=
    if bool_decide (r_status r = SConfirmed) || bool_decide (r_status r = SPending) || bool_decide (r_status r = SAppealed) then
      let k := (submit_block r / EPOCH_LENGTH, r_offender r) in
      <[k := wrap64 (default 0 (epoch_slash_count g !! k) + 1)]> (epoch_slash_count g)
    else epoch_slash_count g in
  mkRegistry (<[r_id r := r]> (records g)) counts (pending_bonds g) (total_validators g).

(** ** How records change *)

Definition reaches (s s' : EvidenceStatus) : bool :=
  match s, s' with
  | SPending, SRejected => false
  | SPending, _ => true
  | SAppealed, (SAppealed | SConfirmed | SOverturned) => true
  | SConfirmed, SConfirmed | SOverturned, SOverturned | SRejected, SRejected => true
  | _, _ => false
  end.

Record evolves (r r' : SlashEvidenceRecord) : Prop := {
  ev_id : r_id r' = r_id r;
  ev_type : r_type r' = r_type r;
  ev_offender : r_offender r' = r_offender r;
  ev_submitter : submitted_by r' = submitted_by r;
  ev_evidence : r_evidence r' = r_evidence r;
  ev_block : submit_block r' = submit_block r;
  ev_base : base_slash_wei r' = base_slash_wei r;
  ev_final : final_slash_wei r' = final_slash_wei r;
  ev_deadline : appeal_deadline r' = appeal_deadline r;
  ev_reporters : reporters r `prefix_of` reporters r';
  ev_status : reaches (r_status r) (r_status r') = true
}.

Lemma reaches_trans s1 s2 s3 : reaches s1 s2 = true → reaches s2 s3 = true → reaches s1 s3 = true.
Proof. by destruct s1, s2, s3. Qed.

#[export] Instance evolves_preorder : PreOrder evolves.
Proof.
  split.
  - intros r. split; try done. by destruct (r_status r).
  - intros r1 r2 r3 [] []. split; try congruence; [by etrans|by eapply reaches_trans].
Qed.

Section Registry.
Context `{Sha3}.

(** Everything the pipeline does to the registry of a running node. *)
Inductive reg_step : SlashingRegistryV2 → SlashingRegistryV2 → Prop :=
| rs_submit e by_ blk ep stake o g g' : submit_evidence e by_ blk ep stake g = Ok (o, g') → reg_step g g'
| rs_appeal id sender blk r g g' : file_appeal_for_tx id sender blk g = Ok (r, g') → reg_step g g'
| rs_finalize id blk f g g' : finalize_slash id blk g = Ok (f, g') → reg_step g g'
| rs_overturn id x g g' : overturn_slash id g = Ok (x, g') → reg_step g g'
| rs_reject id x g g' : reject_appeal id g = Ok (x, g') → reg_step g g'
| rs_jailed id j g : reg_step g (set_jailed_by_slash id j g)
| rs_burnt id g : reg_step g (set_burn_applied id g).

Definition keeps (g g' : SlashingRegistryV2) : Prop :=
  ∀ id r, records g !! id = Some r → ∃ r', records g' !! id = Some r' ∧ evolves r r'.

#[export] Instance keeps_preorder : PreOrder keeps.
Proof.
  split.
  - intros g id r Hr. by exists r.
  - intros g1 g2 g3 H12 H23 id r (r2 & E2 & V2)%H12. destruct (H23 _ _ E2) as (r3 & E3 & V3). exists r3. split; [done|by etrans].
Qed.

Lemma records_keeps_insert g id r r' m c b t : records g = m → (∀ r0, m !! id = Some r0 → r0 = r) → evolves r r' →
  keeps g (mkRegistry (<[id := r']> m) c b t).
Proof.
  intros <- Hr Hv k s Hs. cbn [records]. destruct (decide (k = id)) as [->|Hn].
  - rewrite lookup_insert_eq. exists r'. split; [done|]. by rewrite (Hr _ Hs).
  - rewrite lookup_insert_ne by done. by exists s.
Qed.

Lemma keeps_alter g id f : (∀ r, evolves r (f r)) → keeps g (alter_record f id g).
Proof.
  intros Hf k r Hr. unfold alter_record, with_records. cbn [records]. destruct (decide (k = id)) as [->|Hn].
  - rewrite lookup_alter_eq, Hr. cbn. eauto.
  - rewrite lookup_alter_ne by done. by exists r.
Qed.

Lemma evolves_status r r' s : reaches (r_status r) s = true → r' = with_status s r → evolves r r'.
Proof. intros Hs ->. by split. Qed.

Lemma step_keeps g g' : reg_step g g' → keeps g g'.
Proof.
  destruct 1 as [e by_ blk ep stake o g g' E|id sender blk r g g' E|id blk f g g' E|id x g g' E|id x g g' E|id j g|id g].
  - unfold submit_evidence in E. destruct (offender_of e) as [off|]; [|done]. destruct (records g !! _) as [r|] eqn:Er.
    + case_match; [by injection E as _ <-|]. case_match; [by injection E as _ <-|]. injection E as _ <-.
      eapply (records_keeps_insert g _ r); [done|intros r0; rewrite Er; congruence|]. split; cbn; try done; [by apply prefix_app_r|by destruct (r_status r)].
    + injection E as _ <-. intros k s Hs. cbn [records]. rewrite lookup_insert_ne by congruence. by exists s.
  - unfold file_appeal_for_tx, file_appeal in E. destruct (records g !! id) as [r0|] eqn:Er; [|done]. case_match; [done|].
    destruct (negb (bool_decide (r_status r0 = SPending))) eqn:Es; [done|]. apply negb_false_iff, bool_decide_eq_true in Es.
    destruct (appeal_deadline r0 <? blk); [done|]. destruct (records (with_records _ g) !! id); [|done]. injection E as _ <-.
    eapply (records_keeps_insert g _ r0); [done|intros ?; rewrite Er; congruence|]. apply (evolves_status r0 _ SAppealed); [by rewrite Es|done].
  - unfold finalize_slash in E. destruct (records g !! id) as [r0|] eqn:Er; [|done].
    destruct (negb (bool_decide (r_status r0 = SPending))) eqn:Es; [by injection E as _ <-|]. apply negb_false_iff, bool_decide_eq_true in Es.
    case_match; [by injection E as _ <-|]. injection E as _ <-.
    eapply (records_keeps_insert g _ r0); [done|intros ?; rewrite Er; congruence|]. split; cbn; try done. by rewrite Es.
  - unfold overturn_slash in E. destruct (records g !! id) as [r0|] eqn:Er; [|done].
    destruct (negb (bool_decide (r_status r0 = SAppealed))) eqn:Es; [done|]. apply negb_false_iff, bool_decide_eq_true in Es. injection E as _ <-.
    eapply (records_keeps_insert g _ r0); [done|intros ?; rewrite Er; congruence|]. apply (evolves_status r0 _ SOverturned); [by rewrite Es|done].
  - unfold reject_appeal in E. destruct (records g !! id) as [r0|] eqn:Er; [|done].
    destruct (negb (bool_decide (r_status r0 = SAppealed))) eqn:Es; [done|]. apply negb_false_iff, bool_decide_eq_true in Es. injection E as _ <-.
    eapply (records_keeps_insert g _ r0); [done|intros ?; rewrite Er; congruence|]. apply (evolves_status r0 _ SConfirmed); [by rewrite Es|done].
  - apply keeps_alter. intros r. split; try done. cbn. by destruct (r_status r).
  - apply keeps_alter. intros r. split; try done. cbn. by destruct (r_status r).
Qed.

Lemma steps_keep g g' : rtc reg_step g g' → keeps g g'.
Proof. induction 1 as [|g g1 g2 Hs _ IH]; [done|]. etrans; [by apply step_keeps|done]. Qed.

(** C36: Whatever a running node does to its registry, no record disappears;
    its offence, offender, evidence, first reporter, submission block, slash amounts
    and appeal deadline never change, reporters are only appended, and its
    status only moves from pending to appealed or confirmed and from appealed
    to confirmed or overturned: both of these are final, and the status
    [Rejected] is never reached. *)
Theorem records_evolve (g g' : SlashingRegistryV2) (id : bytes) (r : SlashEvidenceRecord) :
  rtc reg_step g g' → get_record g id = Some r → ∃ r', get_record g' id = Some r' ∧ evolves r r'.
Proof. intros Hs Hr. by apply (steps_keep g g' Hs id r). Qed.

End Registry.

(** ** Amounts *)

Lemma base_bounds t : 0 < base_slash_bps t ≤ 2000.
Proof. destruct t; cbn; unfold SLASH_DOUBLE_SIGN, SLASH_LIVENESS_DAILY; lia. Qed.

(** The correlation factor without wrap-around. *)
Definition correlated_spec (base n total : Z) : Z :=
  let f := 10000 + 3 * (n * 10000 / total) in Z.min (base * (f * f / 10000) / 10000) 10000.

Lemma correlated_exact base n total : 0 ≤ base ≤ 10000 → 0 ≤ n ≤ total → 0 < total < 2 ^ 64 →
  correlated_slash_bps base n total = correlated_spec base n total ∧ 10000 ≤ 10000 + 3 * (n * 10000 / total) ≤ 40000.
Proof.
  intros Hb Hn Ht. unfold correlated_slash_bps, correlated_spec. rewrite (proj2 (Z.eqb_neq total 0)) by lia.
  assert (0 ≤ n * 10000 / total ≤ 10000) as Hq.
  { split; [apply Z.div_pos; lia|]. apply Z.div_le_upper_bound; lia. }
  unfold wrap128. rewrite (Z.mod_small (n * 10000)) by (change U128 with (2 ^ 128); lia).
  set (q := n * 10000 / total) in *. rewrite (Z.mod_small (3 * q)), (Z.mod_small (10000 + 3 * q)) by (unfold U128; lia).
  rewrite (Z.mod_small ((10000 + 3 * q) * (10000 + 3 * q))) by (unfold U128; nia).
  assert (0 ≤ (10000 + 3 * q) * (10000 + 3 * q) / 10000 ≤ 160000).
  { split; [apply Z.div_pos; nia|]. apply Z.div_le_upper_bound; nia. }
  rewrite Z.mod_small by (unfold U128; nia). split; [done|lia].
Qed.

Lemma correlated_mono base n n' total : 0 ≤ base → 0 ≤ n ≤ n' → 0 < total →
  correlated_spec base n total ≤ correlated_spec base n' total.
Proof.
  intros Hb Hn Ht. unfold correlated_spec.
  assert (0 ≤ n * 10000 / total ≤ n' * 10000 / total) as Hq by (split; [apply Z.div_pos; lia|apply Z.div_le_mono; lia]).
  set (a := 10000 + 3 * (n * 10000 / total)). set (b := 10000 + 3 * (n' * 10000 / total)). assert (0 ≤ a ≤ b) by (unfold a, b; lia).
  assert (a * a / 10000 ≤ b * b / 10000) by (apply Z.div_le_mono; nia).
  assert (base * (a * a / 10000) / 10000 ≤ base * (b * b / 10000) / 10000) by (apply Z.div_le_mono; nia). lia.
Qed.

Lemma amount_le stake bps : is_u128 stake → 0 ≤ bps ≤ 10000 → 0 ≤ slash_amount_wei stake bps ≤ stake.
Proof.
  intros [Hs _] Hb. unfold slash_amount_wei, checked_mul128, saturating_mul128. destruct (_ <=? _).
  - split; [apply Z.div_pos; nia|]. apply Z.div_le_upper_bound; nia.
  - pose proof (Z.div_pos stake 10000 Hs). pose proof (Z.mul_div_le stake 10000). unfold U128_MAX. nia.
Qed.

Lemma amount_mono stake b b' : 0 ≤ stake → 0 ≤ b ≤ b' → stake * b' ≤ U128_MAX → slash_amount_wei stake b ≤ slash_amount_wei stake b'.
Proof.
  intros Hs Hb Ho. unfold slash_amount_wei, checked_mul128. rewrite (proj2 (Z.leb_le (stake * b) _)), (proj2 (Z.leb_le (stake * b') _)) by nia.
  apply Z.div_le_mono; nia.
Qed.

(** A new record charges at least the base rate of its offence and at
    most the whole stake, never less when more slashes are counted, and its
    appeal window is the full [APPEAL_WINDOW_BLOCKS]; with no validator
    counted ([total_validators = 0]) it charges the base rate exactly. *)
Theorem slash_amount_bounds `{Sha3} (e : SlashEvidenceV2) (by_ : address) (blk ep stake : Z) (g g' : SlashingRegistryV2) (id : bytes) :
  0 ≤ stake → stake * 10000 ≤ U128_MAX → 0 ≤ blk → blk + APPEAL_WINDOW_BLOCKS < 2 ^ 64 → 0 ≤ total_validators g < 2 ^ 64 →
  (∀ k n, epoch_slash_count g !! k = Some n → 0 ≤ n < total_validators g) →
  submit_evidence e by_ blk ep stake g = Ok (NewRecord id, g') →
  ∃ r, get_record g' id = Some r ∧ r_status r = SPending ∧ burn_applied r = false ∧ appeal_deadline r = blk + APPEAL_WINDOW_BLOCKS ∧
    base_slash_wei r = stake * base_slash_bps (evidence_type e) / 10000 ∧
    base_slash_wei r ≤ final_slash_wei r ≤ stake ∧
    (total_validators g = 0 → final_slash_wei r = base_slash_wei r).
Proof.
  intros Hs Ho Hb Hw Ht Hc E. unfold submit_evidence in E. destruct (offender_of e) as [off|]; [|done].
  destruct (records g !! _) as [r|] eqn:Er; [by repeat (case_match; try done)|]. injection E as <- <-. eexists. unfold get_record. cbn [records].
  split; [apply lookup_insert_eq|]. cbn [r_status burn_applied appeal_deadline base_slash_wei final_slash_wei].
  pose proof (base_bounds (evidence_type e)) as Hbase. set (base := base_slash_bps _) in *.
  assert (is_u128 stake) as Hs' by (unfold is_u128, U128, U128_MAX in *; lia).
  set (n := wrap64 (default 0 _ + 1)). assert (total_validators g ≠ 0 → 1 ≤ n ≤ total_validators g) as Hn.
  { intros Hz. unfold n, wrap64. destruct (epoch_slash_count g !! (ep, off)) as [c|] eqn:Ec; cbn [from_option id].
    - pose proof (Hc _ _ Ec). rewrite Z.mod_small; lia.
    - rewrite Z.mod_small; lia. }
  assert (base ≤ correlated_slash_bps base n (total_validators g) ≤ 10000) as Hcorr.
  { destruct (decide (total_validators g = 0)) as [Ez|Hz]; [unfold correlated_slash_bps; rewrite Ez; cbn; lia|].
    destruct (correlated_exact base n (total_validators g)) as [-> Hf]; [lia|specialize (Hn Hz); lia|lia|]. unfold correlated_spec.
    set (f := 10000 + _) in *. assert (10000 ≤ f * f / 10000) by (apply Z.div_le_lower_bound; nia).
    assert (base ≤ base * (f * f / 10000) / 10000) by (apply Z.div_le_lower_bound; nia). lia. }
  split_and!; try done.
  - unfold wrap64. apply Z.mod_small. unfold APPEAL_WINDOW_BLOCKS in *. lia.
  - unfold slash_amount_wei, checked_mul128. by rewrite (proj2 (Z.leb_le _ _)) by (unfold U128_MAX in *; nia).
  - apply amount_mono; [done|lia|nia].
  - apply amount_le; [done|lia].
  - intros Ez. unfold correlated_slash_bps. by rewrite Ez.
Qed.

(** *** The reward *)

Lemma addr_le_total : Total addr_le.
Proof.
  intros a b. unfold addr_le. destruct (lex_lt b a) eqn:E1; [|by left]. right. destruct (lex_lt a b) eqn:E2; [|done].
  pose proof (lex_lt_trans _ _ _ E1 E2) as E3. by rewrite lex_lt_irrefl in E3.
Qed.
Lemma addr_le_trans : Transitive addr_le.
Proof.
  intros a b c E1 E2. unfold addr_le in *. destruct (lex_lt c a) eqn:F; [|done].
  destruct (lex_lt_total a b) as [G|[->|G]]; [|congruence|congruence]. pose proof (lex_lt_trans _ _ _ F G). congruence.
Qed.
Lemma addr_le_antisym : AntiSymm (=) addr_le.
Proof. intros a b E1 E2. unfold addr_le in *. by destruct (lex_lt_total a b) as [G|[->|G]]; [congruence| |congruence]. Qed.
#[export] Existing Instances addr_le_total addr_le_trans addr_le_antisym.

Lemma dedup_elem l a : a ∈ dedup l ↔ a ∈ l.
Proof.
  induction l as [|x l IH]; [done|]. cbn [dedup]. destruct l as [|y l]; [done|]. case_bool_decide as E.
  - subst y. rewrite IH, (elem_of_cons _ a x). set_solver.
  - rewrite !(elem_of_cons _ a x), IH. done.
Qed.

Lemma dedup_sorted l : StronglySorted addr_le l → StronglySorted addr_le (dedup l) ∧ NoDup (dedup l).
Proof.
  induction l as [|x l IH]; intros Hs; [split; constructor|]. cbn [dedup].
  inversion_clear Hs as [|? ? Hl Hx]. destruct (IH Hl) as [S N]. destruct l as [|y l]; [split; [repeat constructor|apply NoDup_singleton]|].
  case_bool_decide as E; [done|]. split.
  - constructor; [done|]. apply Forall_forall. intros z Hz. rewrite dedup_elem in Hz. rewrite Forall_forall in Hx. by apply Hx.
  - apply NoDup_cons. split; [|done]. rewrite dedup_elem. intros Hin. apply E. apply (anti_symm addr_le).
    + rewrite Forall_forall in Hx. apply Hx. left.
    + apply elem_of_cons in Hin as [->|Hin]; [done|]. inversion_clear Hl as [|? ? _ Hy]. rewrite Forall_forall in Hy. by apply Hy.
Qed.

Definition all_reporters (r : SlashEvidenceRecord) : list address := dedup (merge_sort addr_le (submitted_by r :: reporters r)).

Lemma all_reporters_spec r : StronglySorted addr_le (all_reporters r) ∧ NoDup (all_reporters r) ∧
  ∀ a, a ∈ all_reporters r ↔ a = submitted_by r ∨ a ∈ reporters r.
Proof.
  destruct (dedup_sorted (merge_sort addr_le (submitted_by r :: reporters r))) as [S N]; [apply (StronglySorted_merge_sort addr_le)|].
  split_and!; [done|done|]. intros a. unfold all_reporters. by rewrite dedup_elem, merge_sort_Permutation, elem_of_cons.
Qed.

Lemma sumZ_const {A} (f : A → Z) c l : (∀ x, x ∈ l → f x = c) → sumZ f l = c * Z.of_nat (length l).
Proof.
  induction l as [|x l IH]; intros Hf; [unfold sumZ; cbn; lia|]. rewrite sumZ_cons, IH, (Hf x) by set_solver. cbn [length]. lia.
Qed.

Lemma map_pair_fst {A C} (c : C) (l : list A) : (map (fun a => (a, c)) l).*1 = l.
Proof. induction l as [|a l IH]; [done|]. cbn. by f_equal. Qed.

(** The shares are not negative and add up to at most a twentieth. *)
Lemma splits_bounds r : 0 ≤ final_slash_wei r → final_slash_wei r * WHISTLEBLOWER_REWARD_BPS < U128 →
  let f := recompute_splits r in
  fs_slash_wei f = final_slash_wei r ∧ Forall (fun e => 0 ≤ e.2) (splits f) ∧ sumZ snd (splits f) ≤ final_slash_wei r / 20.
Proof.
  intros Hp Hs f. unfold f, recompute_splits. cbn [fs_slash_wei splits]. unfold wrap128, WHISTLEBLOWER_REWARD_BPS in *. rewrite Z.mod_small by lia.
  change 10000 with (20 * 500). rewrite Z.div_mul_cancel_r by done. set (l := dedup _). set (x := final_slash_wei r / 20).
  assert (0 ≤ x) as Hx by (apply Z.div_pos; lia). set (n := Z.of_nat (length l)). assert (0 ≤ n) as Hn by lia.
  set (q := if n =? 0 then 0 else x / n). assert (0 ≤ q ∧ q * n ≤ x) as [Hq Hqn].
  { unfold q. destruct (Z.eqb_spec n 0); [lia|]. split; [apply Z.div_pos; lia|]. pose proof (Z.mul_div_le x n). lia. }
  split_and!; [done|by apply Forall_fmap, Forall_forall|]. rewrite (sumZ_const snd q); [by rewrite length_map|].
  by intros ? (a & -> & _)%list_elem_of_fmap.
Qed.

(** The whistleblower reward of a confirmed slash is a twentieth of it.
    Every reporter, the first one and the co-witnesses, appears exactly once
    in the split with an equal share; the shares add up to at most the
    reward, with less than one wei per reporter left over, and depend only
    on who reported, not on the order in which the reports arrived. *)
Theorem reward_shared_equally (r : SlashEvidenceRecord) :
  0 ≤ final_slash_wei r → final_slash_wei r * WHISTLEBLOWER_REWARD_BPS < U128 →
  let f := recompute_splits r in
  fs_slash_wei f = final_slash_wei r ∧ total_reward f = final_slash_wei r / 20 ∧
  NoDup (splits f).*1 ∧ (∀ a, a ∈ (splits f).*1 ↔ a = submitted_by r ∨ a ∈ reporters r) ∧
  (∀ a b x y, (a, x) ∈ splits f → (b, y) ∈ splits f → x = y) ∧
  sumZ snd (splits f) ≤ total_reward f < sumZ snd (splits f) + Z.of_nat (length (splits f)) ∧
  ∀ r', final_slash_wei r' = final_slash_wei r →
    (∀ a, a = submitted_by r' ∨ a ∈ reporters r' ↔ a = submitted_by r ∨ a ∈ reporters r) → recompute_splits r' = f.
Proof.
  intros Hp Hs f. destruct (all_reporters_spec r) as (S & N & Hel).
  assert (total_reward f = final_slash_wei r / 20) as Er.
  { unfold f, recompute_splits. cbn [total_reward]. unfold wrap128. unfold WHISTLEBLOWER_REWARD_BPS in *. rewrite Z.mod_small by lia.
    change 10000 with (20 * 500). by rewrite Z.div_mul_cancel_r. }
  assert ((splits f).*1 = all_reporters r) as Ef.
  { unfold f, recompute_splits. cbn [splits]. apply map_pair_fst. }
  assert (0 < Z.of_nat (length (splits f))) as Hn.
  { rewrite <- (length_fmap fst), Ef. assert (submitted_by r ∈ all_reporters r) by (apply Hel; by left).
    destruct (all_reporters r); [set_solver|cbn; lia]. }
  assert (∀ p, p ∈ splits f → p.2 = total_reward f / Z.of_nat (length (splits f))) as Hx.
  { intros p Hin. unfold f, recompute_splits in *. cbn [splits total_reward] in *. rewrite length_map in *.
    rewrite (proj2 (Z.eqb_neq _ 0)) in Hin by lia. apply list_elem_of_fmap in Hin as (a & -> & _). done. }
  split_and!; [done|done|by rewrite Ef|by rewrite Ef| |..].
  - intros a b x y Ha Hb. apply Hx in Ha, Hb. cbn in *. congruence.
  - rewrite (sumZ_const snd _ _ Hx). pose proof (Z.mul_div_le (total_reward f) _ Hn). lia.
  - rewrite (sumZ_const snd _ _ Hx). pose proof (Z.mul_succ_div_gt (total_reward f) _ Hn). lia.
  - intros r' E1 E2. unfold f, recompute_splits. rewrite E1. fold (all_reporters r') (all_reporters r).
    destruct (all_reporters_spec r') as (S' & N' & Hel').
    replace (all_reporters r') with (all_reporters r); [done|]. apply (StronglySorted_unique addr_le); [done|done|].
    apply NoDup_Permutation; [done|done|]. intros a. by rewrite Hel, Hel', E2.
Qed.

(** ** What a restart does to the correlation *)

(** The records of an offender in an epoch that a restart counts. *)
Definition counted (k : Z * address) (r : SlashEvidenceRecord) : bool :=
  (bool_decide (r_status r = SConfirmed) || bool_decide (r_status r = SPending) || bool_decide (r_status r = SAppealed)) &&
  bool_decide ((submit_block r / EPOCH_LENGTH, r_offender r) = k).

Definition rehydrated (total : Z) (l : list SlashEvidenceRecord) : SlashingRegistryV2 :=
  fold_left (fun g r => insert_rehydrated_record r g) l (registry_new total).

Definition count_of (g : SlashingRegistryV2) (k : Z * address) : Z := default 0 (epoch_slash_count g !! k).

Lemma insert_count r g k : 0 ≤ count_of g k < 2 ^ 64 - 1 →
  count_of (insert_rehydrated_record r g) k = count_of g k + (if counted k r then 1 else 0).
Proof.
  intros Hk. unfold count_of, insert_rehydrated_record, counted in *. cbn [epoch_slash_count]. destruct (_ || _ || _); cbn [andb]; [|lia].
  case_bool_decide as E; [rewrite E, lookup_insert_eq|by rewrite lookup_insert_ne, Z.add_0_r]. cbn [from_option id]. unfold wrap64.
  apply Z.mod_small. lia.
Qed.

Lemma rehydrated_spec total l k : Z.of_nat (length l) < 2 ^ 64 - 1 →
  count_of (rehydrated total l) k = Z.of_nat (length (List.filter (counted k) l)) ∧ total_validators (rehydrated total l) = total ∧
  ∀ id, (∀ r, r ∈ l → r_id r ≠ id) → records (rehydrated total l) !! id = None.
Proof.
  unfold rehydrated. intros Hl. assert (∀ g, 0 ≤ count_of g k → count_of g k + Z.of_nat (length l) < 2 ^ 64 - 1 →
    let g' := fold_left (fun g r => insert_rehydrated_record r g) l g in
    count_of g' k = count_of g k + Z.of_nat (length (List.filter (counted k) l)) ∧ total_validators g' = total_validators g ∧
    ∀ id, (∀ r, r ∈ l → r_id r ≠ id) → records g !! id = None → records g' !! id = None) as Hg.
  { clear Hl. induction l as [|r l IH]; intros g H1 H2; cbn [fold_left List.filter length] in *; [split_and!; [lia|done|done]|].
    pose proof (insert_count r g k ltac:(lia)) as Ec. destruct (IH (insert_rehydrated_record r g)) as (E1 & E2 & E3); [rewrite Ec; destruct (counted k r); lia..|].
    split_and!.
    - rewrite E1, Ec. destruct (counted k r); cbn [length]; lia.
    - by rewrite E2.
    - intros id Hid Hn. apply E3; [intros; apply Hid; by right|]. unfold insert_rehydrated_record. cbn [records].
      rewrite lookup_insert_ne; [done|]. apply Hid. left. }
  assert (count_of (registry_new total) k = 0) as E0 by (unfold count_of; cbn [registry_new epoch_slash_count]; by rewrite lookup_empty).
  destruct (Hg (registry_new total)) as (E1 & E2 & E3); [lia..|]. split_and!; [rewrite E1, E0; lia|done|].
  intros id Hid. by apply E3.
Qed.

Lemma running_counts `{Sha3} total g : rtc reg_step (registry_new total) g → epoch_slash_count g = ∅ ∧ total_validators g = total.
Proof.
  intros Hs. remember (registry_new total) as g0 eqn:E0. assert (epoch_slash_count g0 = ∅ ∧ total_validators g0 = total) as H0 by (by subst).
  clear E0. induction Hs as [|g g1 g2 Hs _ IH]; [done|]. apply IH. clear IH. destruct H0 as [<- <-].
  destruct Hs; unfold submit_evidence, file_appeal_for_tx, file_appeal, finalize_slash, overturn_slash, reject_appeal in *;
    repeat (case_match; try discriminate); by simplify_eq/=.
Qed.

(** A running node never counts earlier slashes: its correlation factor
    always uses one slashed validator. A node restarted from the same records
    uses one more than the number of live records of that offender and epoch,
    so the two store different amounts for the same new evidence. *)
Theorem restart_changes_slash `{Sha3} (total : Z) (g : SlashingRegistryV2) (l : list SlashEvidenceRecord)
    (e : SlashEvidenceV2) (off by_ : address) (blk ep stake : Z) :
  rtc reg_step (registry_new total) g → l ≡ₚ (map_to_list (records g)).*2 → Z.of_nat (length l) < 2 ^ 64 - 1 →
  map_Forall (fun id r => r_id r = id) (records g) →
  offender_of e = Some off →
  let id := compute_id_for_offender off blk (evidence_type e) in
  records g !! id = None →
  let n := Z.of_nat (length (List.filter (counted (ep, off)) l)) in
  let amount k := slash_amount_wei stake (correlated_slash_bps (base_slash_bps (evidence_type e)) k total) in
  (∃ g1 r, submit_evidence e by_ blk ep stake g = Ok (NewRecord id, g1) ∧ get_record g1 id = Some r ∧ final_slash_wei r = amount 1) ∧
  (∃ g2 r, submit_evidence e by_ blk ep stake (rehydrated total l) = Ok (NewRecord id, g2) ∧ get_record g2 id = Some r ∧
     final_slash_wei r = amount (n + 1)).
Proof.
  intros Hs Hl Hlen Hid Ho id Hn n amount. destruct (running_counts total g Hs) as [Ec Et].
  destruct (rehydrated_spec total l (ep, off) Hlen) as (E1 & E2 & E3). split.
  - unfold submit_evidence. rewrite Ho. fold id. rewrite Hn, Ec, lookup_empty, Et. do 2 eexists. split; [reflexivity|].
    unfold get_record. cbn [records]. split; [apply lookup_insert_eq|done].
  - unfold submit_evidence. rewrite Ho. fold id. rewrite E3.
    + fold (count_of (rehydrated total l) (ep, off)). rewrite E1, E2. do 2 eexists. split; [reflexivity|].
      unfold get_record. cbn [records]. split; [apply lookup_insert_eq|]. cbn [final_slash_wei]. unfold amount, wrap64.
      rewrite Z.mod_small; [done|]. pose proof (List.filter_length_le (counted (ep, off)) l). unfold n. lia.
    + intros r Hr Er. rewrite Hl in Hr. apply list_elem_of_fmap in Hr as ([id' r'] & -> & Hr). apply elem_of_map_to_list in Hr.
      cbn in Er. rewrite (Hid _ _ Hr) in Er. congruence.
Qed.

(** ** A concrete registry *)

Module Samples.

Definition adr (n : Z) : address := replicate 19 0 ++ [n].

(** A digest that keeps the offender, the block and the kind. *)
#[export] Instance sha_sample : Sha3 := fun b => to_be 32 (be_val (drop 17 b)).

Definition double (v h : Z) : SlashEvidenceV2 := DoubleSign (mkProof h h 0 [1] [2] [] [] (adr v) []).

(** The registry after a submission with outcome [o]. *)
Definition after (m : outcome StakingError (SubmitOutcome * SlashingRegistryV2)) : SlashingRegistryV2 :=
  match m with Ok (_, g) => g | _ => registry_new 0 end.

Definition g1 : SlashingRegistryV2 := after (submit_evidence (double 5 100) (adr 1) 100 0 1000000 (registry_new 4)).
Definition id1 : bytes := compute_id_for_offender (adr 5) 100 DoubleSignT.
Definition g2 : SlashingRegistryV2 := after (submit_evidence (double 5 100) (adr 2) 100 0 1000000 g1).
Definition rec1 : SlashEvidenceRecord := default (mkRecord [] DoubleSignT [] [] 0 (double 0 0) SPending 0 0 0 [] false false 0) (records g2 !! id1).

Lemma g1_step : reg_step (registry_new 4) g1.
Proof. apply (rs_submit (double 5 100) (adr 1) 100 0 1000000 (NewRecord id1)). reflexivity. Qed.

Lemma g2_step : reg_step g1 g2.
Proof. apply (rs_submit (double 5 100) (adr 2) 100 0 1000000 (CoWitnessAdded id1)). vm_compute. reflexivity. Qed.

Lemma records_evolve_witness :
  get_record g1 id1 ≠ None ∧ ∀ r, get_record g1 id1 = Some r → ∃ r', get_record g2 id1 = Some r' ∧ evolves r r' ∧ reporters r' = [adr 2].
Proof.
  split; [vm_compute; discriminate|]. intros r Hr.
  destruct (records_evolve g1 g2 id1 r (rtc_once _ _ g2_step) Hr) as (r' & E & V).
  exists r'. split_and!; [exact E|exact V|]. revert E. vm_compute. intros [= <-]. reflexivity.
Defined.

Lemma slash_amount_bounds_witness :
  ∃ r, get_record g1 id1 = Some r ∧ base_slash_wei r = 50000 ∧ final_slash_wei r = 153100 ∧ base_slash_wei r ≤ final_slash_wei r ≤ 1000000.
Proof.
  destruct (slash_amount_bounds (double 5 100) (adr 1) 100 0 1000000 (registry_new 4) g1 id1 ltac:(lia) ltac:(vm_compute; discriminate) ltac:(lia)
    ltac:(vm_compute; reflexivity) ltac:(vm_compute; split; [discriminate|reflexivity]) ltac:(intros k n; cbn; rewrite lookup_empty; discriminate) ltac:(vm_compute; reflexivity))
    as (r & E & _ & _ & _ & Eb & Hb & _).
  exists r. split_and!; [exact E|exact Eb|revert E; vm_compute; intros [= <-]; reflexivity|apply Hb|apply Hb].
Defined.

(** 153100 / 20 = 7655 between two reporters. *)
Lemma reward_shared_equally_witness :
  splits (recompute_splits rec1) = [(adr 1, 3827); (adr 2, 3827)] ∧
  sumZ snd (splits (recompute_splits rec1)) ≤ total_reward (recompute_splits rec1).
Proof.
  split; [vm_compute; reflexivity|].
  destruct (reward_shared_equally rec1 ltac:(vm_compute; discriminate) ltac:(vm_compute; reflexivity)) as (_ & _ & _ & _ & _ & [H _] & _). exact H.
Defined.

Lemma g1_keyed : map_Forall (fun id r => r_id r = id) (records g1).
Proof.
  assert (records g1 = {[ id1 := default rec1 (records g1 !! id1) ]}) as -> by (vm_compute; reflexivity).
  apply map_Forall_singleton. vm_compute. reflexivity.
Qed.

(** The running node charges 15.31 percent, the restarted one 31.25. *)
Lemma restart_changes_slash_witness :
  (∃ g r, submit_evidence (double 5 101) (adr 1) 101 0 1000000 g1 = Ok (NewRecord (compute_id_for_offender (adr 5) 101 DoubleSignT), g) ∧
     get_record g (compute_id_for_offender (adr 5) 101 DoubleSignT) = Some r ∧ final_slash_wei r = 153100) ∧
  (∃ g r, submit_evidence (double 5 101) (adr 1) 101 0 1000000 (rehydrated 4 (map_to_list (records g1)).*2) =
       Ok (NewRecord (compute_id_for_offender (adr 5) 101 DoubleSignT), g) ∧
     get_record g (compute_id_for_offender (adr 5) 101 DoubleSignT) = Some r ∧ final_slash_wei r = 312500).
Proof.
  refine (restart_changes_slash 4 g1 (map_to_list (records g1)).*2 (double 5 101) (adr 5) (adr 1) 101 0 1000000 _ _ _ _ _ _).
  - apply rtc_once, g1_step.
  - reflexivity.
  - vm_compute; reflexivity.
  - exact g1_keyed.
  - reflexivity.
  - vm_compute. reflexivity.
Defined.

End Samples.

End Slashing.
