(* ===== verification/Pipeline.v ===== *)
(** * The slashing pipeline

    Models [crates/zbx-staking/src/persistence.rs] (the durable evidence
    store), [pipeline.rs] ([ingest_equivocation], [tick_finalize],
    [overturn_and_refund], [rehydrate_from_disk], [apply_slash_burn_v2]),
    [dispatch_file_appeal_tx] of [tx_handler.rs] and the slashing columns of
    [crates/zbx-storage/src/db.rs]. Bincode, the hash functions and the success
    of every disk write are parameters. The theorems show that a burn is
    applied at most once under any pattern of failed writes, that an appealed
    slash is never burnt, that a tombstone is permanent and what a burn and an
    overturned appeal do to the stakes. *)

From stdpp Require Import sorting.
From S2P Require Import Prelude.
From S2P Require Import EvmBase.
From S2P Require Import EvmHost.
From S2P Require Import Votes.
From S2P Require Import Validators.
From S2P Require Import StakingTx.
From S2P Require Import StakingLedger.
From S2P Require Import StakingHandler.
From S2P Require Import Slashing.

Module Pipeline.
Import EvmHost Votes Validators StakingTx.StakingTx StakingLedger StakingHandler Slashing.
#[local] Set Warnings "-clear-no-such-hyp".

(** ** Data *)

Inductive BondKind := Whistleblower | Appeal.
#[export] Instance BondKind_eq_dec : EqDecision BondKind.
Proof. solve_decision. Defined.

Record BondEntry := mkBond { bond_wei : Z; bond_kind : BondKind }.

(** [bincode::serialize] and [bincode::deserialize] at the three types. *)
Class Bincode := {
  ser_evidence : EquivocationEvidence → bytes;
  de_evidence : bytes → option EquivocationEvidence;
  ser_record : SlashEvidenceRecord → bytes;
  de_record : bytes → option SlashEvidenceRecord;
  ser_bond : BondEntry → bytes;
  de_bond : bytes → option BondEntry
}.

(** What was serialised deserialises to itself. *)
Class BincodeLaws `{Bincode} := {
  evidence_roundtrip e : de_evidence (ser_evidence e) = Some e;
  record_roundtrip r : de_record (ser_record r) = Some r;
  bond_roundtrip b : de_bond (ser_bond b) = Some b
}.

(** Whether the n-th synced write to the disk succeeds. *)
Class Disk := write_ok : nat → bool.

Record EvidenceStore := mkStore {
  cf_evidence : gmap bytes bytes;
  cf_records : gmap bytes bytes;
  cf_bonds : gmap bytes bytes;
  st_writes : nat
}.

Record AppliedSlash := mkApplied {
  as_record_id : bytes;
  as_offender : address;
  burn_wei : Z;
  whistleblower_wei : Z;
  whistleblower : address;
  as_reporters : list address;
  as_splits : list Z;
  as_jailed : bool;
  as_tombstoned : bool
}.

Record AppliedOverturn := mkOverturn {
  ao_record_id : bytes;
  ao_offender : address;
  refunded_wei : Z;
  appeal_bond_refunded_wei : Z;
  whistleblower_bonds_forfeited_wei : Z;
  unjailed : bool
}.

(** The store, the registry and the validator set; [p_burns] records the ids
    for which [apply_slash_burn_v2] ran, for the statements below. *)
Record SlashingPipeline := mkPipeline {
  p_store : EvidenceStore;
  p_reg : SlashingRegistryV2;
  p_vs : ValidatorSet;
  p_burns : list bytes
}.

Definition with_store (s : EvidenceStore) (p : SlashingPipeline) : SlashingPipeline := mkPipeline s (p_reg p) (p_vs p) (p_burns p).
Definition with_reg (g : SlashingRegistryV2) (p : SlashingPipeline) : SlashingPipeline := mkPipeline (p_store p) g (p_vs p) (p_burns p).
Definition with_vs (vs : ValidatorSet) (p : SlashingPipeline) : SlashingPipeline := mkPipeline (p_store p) (p_reg p) vs (p_burns p).

(** ** Effects: errors that keep the state reached *)

Definition M (A : Type) : Type := SlashingPipeline → outcome StakingError A * SlashingPipeline.
Definition ret {A} (a : A) : M A := fun p => (Ok a, p).
Definition throw {A} (e : StakingError) : M A := fun p => (Err e, p).
Definition bind {A C} (m : M A) (k : A → M C) : M C := fun p =>
  match m p with
  | (Ok a, p') => k a p'
  | (Err e, p') => (Err e, p')
  | (Panic, p') => (Panic, p')
  end.
Definition get {A} (f : SlashingPipeline → A) : M A := fun p => (Ok (f p), p).
Definition modify (f : SlashingPipeline → SlashingPipeline) : M unit := fun p => (Ok tt, f p).
(** The registry is left as it was when its operation fails. *)
Definition on_reg {A} (f : SlashingRegistryV2 → outcome StakingError (A * SlashingRegistryV2)) : M A := fun p =>
  match f (p_reg p) with
  | Ok (a, g) => (Ok a, with_reg g p)
  | Err e => (Err e, p)
  | Panic => (Panic, p)
  end.

#[export] Instance M_ret : MRet M := @ret.
#[export] Instance M_bind : MBind M := fun A C k m => bind m k.

Section Model.
Context `{Keccak} `{Bls} `{BlsPoints} `{Sha3} `{Bincode} `{Disk}.

(** ** persistence.rs and the slashing columns of db.rs *)

Definition write_synced (f : EvidenceStore → EvidenceStore) : M unit := fun p =>
  let s := p_store p in
  let tick s' := mkStore (cf_evidence s') (cf_records s') (cf_bonds s') (S (st_writes s)) in
  if write_ok (st_writes s) then (Ok tt, with_store (tick (f s)) p) else (Err (Persistence WriteFailed), with_store (tick s) p).

Definition evidence_id (e : EquivocationEvidence) : bytes := keccak256 (ser_evidence e).

Definition put_evidence (e : EquivocationEvidence) : M bytes :=
  write_synced (fun s => mkStore (<[evidence_id e := ser_evidence e]> (cf_evidence s)) (cf_records s) (cf_bonds s) (st_writes s)) ;;
  ret (evidence_id e).

Definition get_evidence (s : EvidenceStore) (id : bytes) : outcome StakingError (option EquivocationEvidence) :=
  match cf_evidence s !! id with
  | None => Ok None
  | Some b => match de_evidence b with Some e => Ok (Some e) | None => Err (Persistence CorruptRecord) end
  end.

(** The entries with 32-byte keys in key order; a corrupt one fails. *)
Fixpoint load_all {A} (de : bytes → option A) (l : list (bytes * bytes)) : outcome StakingError (list (bytes * A)) :=
  match l with
  | [] => Ok []
  | (k, v) :: rest =>
      if (length k =? 32)%nat then
        match de v with
        | None => Err (Persistence CorruptRecord)
        | Some a => match load_all de rest with Ok t => Ok ((k, a) :: t) | Err e => Err e | Panic => Panic end
        end
      else load_all de rest
  end.

Definition load_all_evidence (s : EvidenceStore) : outcome StakingError (list (bytes * EquivocationEvidence)) :=
  load_all de_evidence (iterator_cf (cf_evidence s)).

Definition put_record (r : SlashEvidenceRecord) : M unit :=
  write_synced (fun s => mkStore (cf_evidence s) (<[r_id r := ser_record r]> (cf_records s)) (cf_bonds s) (st_writes s)).

Definition store_get_record (s : EvidenceStore) (id : bytes) : outcome StakingError (option SlashEvidenceRecord) :=
  match cf_records s !! id with
  | None => Ok None
  | Some b => match de_record b with Some r => Ok (Some r) | None => Err (Persistence CorruptRecord) end
  end.

Definition load_all_records (s : EvidenceStore) : outcome StakingError (list SlashEvidenceRecord) :=
  match load_all de_record (iterator_cf (cf_records s)) with Ok l => Ok (map snd l) | Err e => Err e | Panic => Panic end.

Definition load_records_ready_to_finalize (current_block : Z) (s : EvidenceStore) : outcome StakingError (list SlashEvidenceRecord) :=
  match load_all_records s with
  | Ok l => Ok (List.filter (fun r => bool_decide (r_status r = SPending) && (appeal_deadline r <? current_block)) l)
  | Err e => Err e
  | Panic => Panic
  end.

Definition load_records_with_unapplied_burn (s : EvidenceStore) : outcome StakingError (list SlashEvidenceRecord) :=
  match load_all_records s with
  | Ok l => Ok (List.filter (fun r => (SLASH_RECORD_FORMAT_VERSION <=? format_version r) && bool_decide (r_status r = SConfirmed) &&
                                       negb (burn_applied r)) l)
  | Err e => Err e
  | Panic => Panic
  end.

Definition slashing_bond_key (id : bytes) (reporter : address) : bytes := id ++ reporter.

Definition put_bond (id : bytes) (reporter : address) (b : BondEntry) : M unit :=
  write_synced (fun s => mkStore (cf_evidence s) (cf_records s) (<[slashing_bond_key id reporter := ser_bond b]> (cf_bonds s)) (st_writes s)).

Definition get_bond (s : EvidenceStore) (id : bytes) (reporter : address) : outcome StakingError (option BondEntry) :=
  match cf_bonds s !! slashing_bond_key id reporter with
  | None => Ok None
  | Some b => match de_bond b with Some e => Ok (Some e) | None => Err (Persistence CorruptBond) end
  end.

Definition delete_bond (id : bytes) (reporter : address) : M unit :=
  write_synced (fun s => mkStore (cf_evidence s) (cf_records s) (delete (slashing_bond_key id reporter) (cf_bonds s)) (st_writes s)).

(** The scan starts at the first key not below the record id and stops at
    the first one that leaves the prefix. *)
Fixpoint scan_from (id : bytes) (l : list (bytes * bytes)) : list (bytes * bytes) :=
  match l with
  | [] => []
  | (k, v) :: rest => if lex_lt k id then scan_from id rest else (k, v) :: rest
  end.

Fixpoint scan_prefix (id : bytes) (l : list (bytes * bytes)) : list (address * bytes) :=
  match l with
  | [] => []
  | (k, v) :: rest =>
      if negb (length k =? 52)%nat || negb (bool_decide (take 32 k = id)) then [] else (drop 32 k, v) :: scan_prefix id rest
  end.

Definition iter_slashing_bonds_for_record (s : EvidenceStore) (id : bytes) : list (address * bytes) :=
  scan_prefix id (scan_from id (iterator_cf (cf_bonds s))).

Fixpoint decode_bonds (l : list (address * bytes)) : outcome StakingError (list (address * BondEntry)) :=
  match l with
  | [] => Ok []
  | (a, v) :: rest =>
      match de_bond v with
      | None => Err (Persistence CorruptBond)
      | Some b => match decode_bonds rest with Ok t => Ok ((a, b) :: t) | Err e => Err e | Panic => Panic end
      end
  end.

Definition list_bonds_for_record (s : EvidenceStore) (id : bytes) : outcome StakingError (list (address * BondEntry)) :=
  decode_bonds (iter_slashing_bonds_for_record s id).

Definition evidence_to_double_sign (e : EquivocationEvidence) : SlashEvidenceV2 :=
  DoubleSign (mkProof (block_number (v_data (vote_a e))) (ev_round e) (ev_phase e) (block_hash (v_data (vote_a e)))
    (block_hash (v_data (vote_b e))) (signature (vote_a e)) (signature (vote_b e)) (ev_validator e) (ev_pubkey e)).

(** ** pipeline.rs *)

(** A read of the store. *)
Definition load {A} (f : EvidenceStore → outcome StakingError A) : M A := fun p => (f (p_store p), p).

Definition rehydrate_from_disk : M nat :=
  records ← load load_all_records;
  modify (fun p => with_reg (fold_left (fun g r => insert_rehydrated_record r g) records (p_reg p)) p) ;;
  ret (length records).

Definition ingest_equivocation (e : EquivocationEvidence) (submitter : address) (current_block current_epoch offender_stake : Z) : M bytes :=
  if negb (ev_verify e) then throw (InvalidEvidence NotVerified) else
  put_evidence e ;;
  out ← on_reg (submit_evidence (evidence_to_double_sign e) submitter current_block current_epoch offender_stake);
  let id := record_id out in
  found ← get (fun p => get_record (p_reg p) id);
  match found with
  | None => throw (Persistence RecordVanished)
  | Some r =>
      match out with
      | NewRecord _ | CoWitnessAdded _ =>
          put_record r ;;
          put_bond id submitter (mkBond 0 Whistleblower) ;;
          ret id
      | AlreadyRecorded _ => ret id
      end
  end.

Definition burn_offender (slash_wei : Z) (force_tombstone : bool) (v : Validator) : bool * bool * Validator :=
  let actual := Z.min slash_wei (self_stake v) in
  let v := set_self_stake (saturating_sub (self_stake v) actual) v in
  match status v with
  | Tombstoned => (false, false, v)
  | Active => if force_tombstone then (false, true, set_status Tombstoned v) else (true, false, set_status Jailed v)
  | _ => if force_tombstone then (false, true, set_status Tombstoned v) else (false, false, v)
  end.

Definition credit_splits (l : list (address * Z)) (m : gmap address Validator) : gmap address Validator :=
  fold_left (fun m '(a, x) => match m !! a with
    | Some w => <[a := set_pending (saturating_add128 (pending_rewards w) x) w]> m
    | None => m end) l m.

Definition apply_slash_burn_v2 (vs : ValidatorSet) (offender : address) (slash_wei : Z) (splits : list (address * Z))
    (force_tombstone : bool) : bool * bool * ValidatorSet :=
  let '(jailed, tombstoned, m) :=
    match validators vs !! offender with
    | Some v => let '(j, t, v') := burn_offender slash_wei force_tombstone v in (j, t, <[offender := v']> (validators vs))
    | None => (false, false, validators vs)
    end in
  (jailed, tombstoned,
   mkVs (credit_splits splits m) (List.filter (fun a => negb (bool_decide (a = offender))) (active_set vs)) (current_epoch vs)).

Definition apply_slash_burn (vs : ValidatorSet) (offender : address) (slash_wei : Z) (wb : address) (reward : Z) : bool * ValidatorSet :=
  let '(jailed, _, vs') := apply_slash_burn_v2 vs offender slash_wei [(wb, reward)] false in (jailed, vs').

(** [validators.write()], then the burn. *)
Definition burn (id : bytes) (offender : address) (f : FinalizedSlash) (force_tombstone : bool) : M (bool * bool) := fun p =>
  let '(j, t, vs) := apply_slash_burn_v2 (p_vs p) offender (fs_slash_wei f) (splits f) force_tombstone in
  (Ok (j, t), mkPipeline (p_store p) (p_reg p) vs (id :: p_burns p)).

(** The second phase: stamp the record and persist it again. *)
Definition stamp (id : bytes) (jailed : bool) : M unit :=
  modify (fun p => with_reg (set_burn_applied id (p_reg p)) p) ;;
  modify (fun p => if jailed then with_reg (set_jailed_by_slash id true (p_reg p)) p else p) ;;
  found ← get (fun p => get_record (p_reg p) id);
  match found with Some r => put_record r | None => ret tt end.

Definition applied_of (id : bytes) (offender : address) (f : FinalizedSlash) (j t : bool) : AppliedSlash :=
  mkApplied id offender (fs_slash_wei f) (total_reward f) (match splits f with (a, _) :: _ => a | [] => offender end)
    (map fst (splits f)) (map snd (splits f)) j t.

(** [let _ = self.store.put_record(&r2)] *)
Definition ignore {A} (m : M A) : M unit := fun p => (Ok tt, (m p).2).

Definition already_slashed (r : SlashEvidenceRecord) (vs : ValidatorSet) : bool :=
  match vs_get vs (r_offender r) with
  | None => true
  | Some v => (self_stake v <? final_slash_wei r)
              || (jailed_by_slash r && (bool_decide (status v = Jailed) || bool_decide (status v = Tombstoned)))
              || negb (bool_decide (status v = Active))
  end.

Definition force_tombstone (r : SlashEvidenceRecord) (g : SlashingRegistryV2) : bool :=
  (2 <=? lifetime_confirmed_slashes g (r_offender r)) || bool_decide (r_type r = InvalidBlockT).

Fixpoint replay_loop (l : list SlashEvidenceRecord) (current_block : Z) : M (list AppliedSlash) :=
  match l with
  | [] => ret []
  | r :: rest =>
      if current_block <=? appeal_deadline r then replay_loop rest current_block else
      vs ← get p_vs;
      if already_slashed r vs then
        modify (fun p => with_reg (set_burn_applied (r_id r) (p_reg p)) p) ;;
        found ← get (fun p => get_record (p_reg p) (r_id r));
        match found with Some r2 => ignore (put_record r2) | None => ret tt end ;;
        replay_loop rest current_block
      else
        let f := recompute_splits r in
        force ← get (fun p => force_tombstone r (p_reg p));
        jt ← burn (r_id r) (r_offender r) f force;
        stamp (r_id r) (jt.1 || jt.2) ;;
        applied ← replay_loop rest current_block;
        ret (applied_of (r_id r) (r_offender r) f jt.1 jt.2 :: applied)
  end.

Fixpoint finalize_loop (l : list SlashEvidenceRecord) (current_block : Z) : M (list AppliedSlash) :=
  match l with
  | [] => ret []
  | rec :: rest =>
      result ← on_reg (finalize_slash (r_id rec) current_block);
      match result with
      | None => finalize_loop rest current_block
      | Some f =>
          updated ← get (fun p => get_record (p_reg p) (r_id rec));
          match updated with
          | None => throw (Persistence RecordVanished)
          | Some r =>
              put_record r ;;
              force ← get (fun p => (2 <=? lifetime_confirmed_slashes (p_reg p) (r_offender rec)) || bool_decide (r_type r = InvalidBlockT));
              jt ← burn (r_id rec) (r_offender rec) f force;
              stamp (r_id rec) (jt.1 || jt.2) ;;
              applied ← finalize_loop rest current_block;
              ret (applied_of (r_id rec) (r_offender rec) f jt.1 jt.2 :: applied)
          end
      end
  end.

Definition tick_finalize (current_block : Z) : M (list AppliedSlash) :=
  to_replay ← load load_records_with_unapplied_burn;
  replayed ← replay_loop to_replay current_block;
  ready ← load (load_records_ready_to_finalize current_block);
  applied ← finalize_loop ready current_block;
  ret (replayed ++ applied).

Definition bonds_of (k : BondKind) (l : list (address * BondEntry)) : Z :=
  fold_left (fun acc '(_, b) => if bool_decide (bond_kind b = k) then saturating_add128 acc (bond_wei b) else acc) l 0.

Definition refund_offender (r : SlashEvidenceRecord) (refund bond : Z) (v : Validator) : bool * Validator :=
  let v1 := set_self_stake (saturating_add128 (self_stake v) refund) v in
  let free := burn_applied r && jailed_by_slash r && bool_decide (status v1 = Jailed) in
  let v2 := if free then set_status Pending v1 else v1 in
  (free, set_pending (saturating_add128 (pending_rewards v2) bond) v2).

Definition overturn_and_refund (id : bytes) : M AppliedOverturn :=
  found ← get (fun p => get_record (p_reg p) id);
  match found with
  | None => throw EvidenceNotFound
  | Some r =>
      if negb (bool_decide (r_status r = SAppealed)) then throw OverturnNotAllowed else
      let refund := if burn_applied r then final_slash_wei r else 0 in
      bonds ← load (fun s => list_bonds_for_record s id);
      let appeal_bond := bonds_of Appeal bonds in
      vs ← get p_vs;
      let '(free, vs') :=
        match vs_get vs (r_offender r) with
        | Some v => let '(free, v') := refund_offender r refund appeal_bond v in (free, vs_put (r_offender r) v' vs)
        | None => (false, vs)
        end in
      modify (with_vs vs') ;;
      on_reg (overturn_slash id) ;;
      updated ← get (fun p => get_record (p_reg p) id);
      match updated with
      | None => throw (Persistence RecordVanished)
      | Some r' =>
          put_record r' ;;
          fold_right (fun '(a, _) m => ignore (delete_bond id a) ;; m) (ret tt) bonds ;;
          ret (mkOverturn id (r_offender r) refund appeal_bond (bonds_of Whistleblower bonds) free)
      end
  end.

(** ** tx_handler.rs: [dispatch_file_appeal_tx] *)

Definition dispatch_file_appeal_tx (id : bytes) (sender : address) (value height : Z) : M Z :=
  if negb (value =? APPEAL_BOND_WEI) then throw (AppealBondMismatch value APPEAL_BOND_WEI) else
  r ← on_reg (file_appeal_for_tx id sender height);
  put_bond id sender (mkBond APPEAL_BOND_WEI Appeal) ;;
  put_record r ;;
  ret STAKING_GAS_FILE_APPEAL.

End Model.

(** ** Reasoning about the effects *)

(** [m] run from [p] ends in [Q] with its result, or fails in [E]. *)
Definition wp {A} (m : M A) (Q : A → SlashingPipeline → Prop) (E : SlashingPipeline → Prop) (p : SlashingPipeline) : Prop :=
  match m p with
  | (Ok a, p') => Q a p'
  | (_, p') => E p'
  end.

Lemma wp_bind {A C} (m : M A) (k : A → M C) Q E p : wp m (fun a p' => wp (k a) Q E p') E p → wp (x ← m; k x) Q E p.
Proof. unfold wp, mbind, M_bind, bind. destruct (m p) as [[a|e|] p']; [|done..]. done. Qed.

Lemma wp_mono {A} (m : M A) (Q Q' : A → SlashingPipeline → Prop) (E : SlashingPipeline → Prop) p :
  wp m Q E p → (∀ a p', Q a p' → Q' a p') → wp m Q' E p.
Proof. unfold wp. destruct (m p) as [[a|e|] p']; auto. Qed.

Lemma wp_cons {A} (m : M A) (Q Q' : A → SlashingPipeline → Prop) (E E' : SlashingPipeline → Prop) p :
  wp m Q E p → (∀ a p', Q a p' → Q' a p') → (∀ p', E p' → E' p') → wp m Q' E' p.
Proof. unfold wp. destruct (m p) as [[a|e|] p']; auto. Qed.

Lemma wp_ret {A} (a : A) (Q : A → SlashingPipeline → Prop) E p : Q a p → wp (ret a) Q E p.
Proof. done. Qed.

Lemma wp_throw {A} e (Q : A → SlashingPipeline → Prop) (E : SlashingPipeline → Prop) p : E p → wp (throw e) Q E p.
Proof. done. Qed.

Lemma wp_get {A} (f : SlashingPipeline → A) Q E p : Q (f p) p → wp (get f) Q E p.
Proof. done. Qed.

Lemma wp_modify f (Q : unit → SlashingPipeline → Prop) E p : Q tt (f p) → wp (modify f) Q E p.
Proof. done. Qed.

Lemma wp_inv {A} (m : M A) (J : SlashingPipeline → Prop) p : wp m (fun _ => J) J p → J (m p).2.
Proof. unfold wp. by destruct (m p) as [[a|e|] p']. Qed.

Lemma wp_on_reg {A} (f : SlashingRegistryV2 → outcome StakingError (A * SlashingRegistryV2)) Q (E : SlashingPipeline → Prop) p :
  E p → (∀ a g, f (p_reg p) = Ok (a, g) → Q a (with_reg g p)) → wp (on_reg f) Q E p.
Proof. intros HE HQ. unfold wp, on_reg. destruct (f (p_reg p)) as [[a g]|e|]; auto. Qed.

Lemma wp_ignore {A} (m : M A) (Q : unit → SlashingPipeline → Prop) (E J : SlashingPipeline → Prop) p :
  wp m (fun _ => J) J p → (∀ p', J p' → Q tt p') → wp (ignore m) Q E p.
Proof. intros Hm%wp_inv HQ. unfold wp, ignore. by apply HQ. Qed.

(** ** The burn *)

(** What the reporters' shares do to one validator. *)
Definition credited (l : list (address * Z)) (a : address) (v : Validator) : Validator :=
  fold_left (fun v '(b, x) => if bool_decide (b = a) then set_pending (saturating_add128 (pending_rewards v) x) v else v) l v.

Lemma credit_lookup l m a : credit_splits l m !! a = credited l a <$> m !! a.
Proof.
  unfold credit_splits, credited. revert m. induction l as [|[b x] l IH]; intros m; cbn [fold_left]; [by destruct (m !! a)|].
  rewrite IH. case_bool_decide as E.
  - subst b. destruct (m !! a) as [w|] eqn:Ea; [by rewrite lookup_insert_eq|by rewrite Ea].
  - destruct (m !! b) as [w|]; [by rewrite lookup_insert_ne|done].
Qed.

Lemma credited_fields l a v : status (credited l a v) = status v ∧ self_stake (credited l a v) = self_stake v ∧
  delegated_stake (credited l a v) = delegated_stake v ∧ delegator_reward_pool (credited l a v) = delegator_reward_pool v.
Proof.
  unfold credited. revert v. induction l as [|[b x] l IH]; intros v; [done|]. cbn [fold_left]. destruct (IH (if bool_decide (b = a) then set_pending (saturating_add128 (pending_rewards v) x) v else v)) as (-> & -> & -> & ->).
  by case_bool_decide.
Qed.

Lemma burn_lookup vs off slash l force j t vs' a : apply_slash_burn_v2 vs off slash l force = (j, t, vs') →
  vs_get vs' a = credited l a <$> (if bool_decide (a = off) then (fun v => (burn_offender slash force v).2) <$> vs_get vs a else vs_get vs a).
Proof.
  unfold apply_slash_burn_v2, vs_get. intros E.
  destruct (validators vs !! off) as [v|] eqn:Ev.
  - destruct (burn_offender slash force v) as [[j' t'] v'] eqn:Eb. injection E as _ _ <-. cbn [validators]. rewrite credit_lookup.
    case_bool_decide as Ea; [subst a; by rewrite lookup_insert_eq, Ev; cbn; rewrite Eb|by rewrite lookup_insert_ne].
  - injection E as _ _ <-. cbn [validators]. rewrite credit_lookup. case_bool_decide as Ea; [subst a; by rewrite Ev|done].
Qed.

Lemma burn_offender_status slash force v : status (burn_offender slash force v).2 ≠ Active ∧
  (status v = Tombstoned → status (burn_offender slash force v).2 = Tombstoned).
Proof. unfold burn_offender. cbn [set_self_stake status]. destruct (status v) eqn:E, force; cbn; rewrite ?E; done. Qed.

(** No validator at [a] is active. *)
Definition inactive (vs : ValidatorSet) (a : address) : Prop := ∀ v, vs_get vs a = Some v → status v ≠ Active.

Lemma burn_inactive vs off slash l force j t vs' : apply_slash_burn_v2 vs off slash l force = (j, t, vs') →
  inactive vs' off ∧ ∀ a, inactive vs a → inactive vs' a.
Proof.
  intros E. assert (∀ a v', vs_get vs' a = Some v' → (a = off ∨ inactive vs a) → status v' ≠ Active) as Hs.
  { intros a v' Hv. rewrite (burn_lookup _ _ _ _ _ _ _ _ a E) in Hv. apply fmap_Some in Hv as (w & Hw & ->).
    destruct (credited_fields l a w) as (-> & _). case_bool_decide as Ea.
    - apply fmap_Some in Hw as (v & _ & ->). intros _. apply burn_offender_status.
    - intros [->|Hi]; [done|]. by apply Hi. }
  split; [intros v Hv; apply (Hs off v Hv); auto|intros a Ha v Hv; apply (Hs a v Hv); auto].
Qed.

Section Safety.
Context `{Keccak} `{Bls} `{BlsPoints} `{Sha3} `{Bincode} `{!BincodeLaws} `{Disk}.

Lemma wp_load {A} (f : EvidenceStore → outcome StakingError A) Q (E : SlashingPipeline → Prop) p :
  E p → (∀ a, f (p_store p) = Ok a → Q a p) → wp (load f) Q E p.
Proof. intros HE HQ. unfold wp, load. destruct (f (p_store p)) as [a|e|]; auto. Qed.

(** What the disk holds for a record. *)
Definition on_disk (p : SlashingPipeline) (k : bytes) (r : SlashEvidenceRecord) : Prop :=
  ∃ b, cf_records (p_store p) !! k = Some b ∧ de_record b = Some r.

Record books (p : SlashingPipeline) : Prop := {
  bo_keys : ∀ id r, records (p_reg p) !! id = Some r → r_id r = id;
  bo_disk : ∀ k r, on_disk p k r → r_id r = k ∧ ∃ r0, records (p_reg p) !! k = Some r0 ∧ evolves r r0;
  bo_fresh : ∀ id r, records (p_reg p) !! id = Some r → r_status r = SPending ∨ r_status r = SAppealed → burn_applied r = false;
  bo_nodup : NoDup (p_burns p);
  bo_burnt : ∀ id, id ∈ p_burns p → ∃ r, records (p_reg p) !! id = Some r ∧ r_status r = SConfirmed ∧ burn_applied r = true;
  bo_open : ∀ id r, id ∈ p_burns p → on_disk p id r → burn_applied r = true ∨ inactive (p_vs p) (r_offender r)
}.

(** Only writes differ. *)
Record same_view (p p' : SlashingPipeline) : Prop := {
  sv_reg : p_reg p' = p_reg p;
  sv_vs : p_vs p' = p_vs p;
  sv_burns : p_burns p' = p_burns p
}.

Lemma wp_write f (Q : unit → SlashingPipeline → Prop) (E : SlashingPipeline → Prop) p :
  (∀ p', same_view p p' → cf_records (p_store p') = cf_records (f (p_store p)) → Q tt p') →
  (∀ p', same_view p p' → cf_records (p_store p') = cf_records (p_store p) → E p') → wp (write_synced f) Q E p.
Proof. intros HQ HE. unfold wp, write_synced. destruct (write_ok _); [apply HQ|apply HE]; by try split. Qed.

Lemma books_same p p' : same_view p p' → cf_records (p_store p') = cf_records (p_store p) → books p → books p'.
Proof. intros [E1 E2 E3] E4 [B1 B2 B3 B4 B5 B6]. unfold on_disk in *. split; unfold on_disk; rewrite ?E1, ?E2, ?E3, ?E4; done. Qed.

(** Persisting the registry's own copy of a record. *)
Lemma put_record_books r p : books p → records (p_reg p) !! r_id r = Some r →
  wp (put_record r) (fun _ p' => books p' ∧ same_view p p') (fun p' => books p' ∧ same_view p p') p.
Proof.
  intros B Hr. apply wp_write; intros p' Sv Es; (split; [|done]).
  2: { by apply (books_same p). }
  cbn [cf_records] in Es. pose proof Sv as [E1 E2 E3]. destruct B as [B1 B2 B3 B4 B5 B6].
  assert (∀ k s, on_disk p' k s → k = r_id r ∧ s = r ∨ on_disk p k s) as Hd.
  { intros k s (b & Hb & Hs). rewrite Es in Hb. apply lookup_insert_Some in Hb as [[<- <-]|[_ Hb]]; [left|right; by exists b].
    rewrite record_roundtrip in Hs. by injection Hs. }
  split; rewrite ?E1, ?E2, ?E3; try done.
  - intros k s [[-> ->]|Hk]%Hd; [|by apply B2]. split; [done|]. by exists r.
  - intros id s Hid [[-> ->]|Hk]%Hd; [|by apply (B6 id)]. left. destruct (B5 _ Hid) as (r0 & E0 & _ & Eb). congruence.
Qed.

(** Writes to the other columns. *)
Lemma write_books f p : (∀ s, cf_records (f s) = cf_records s) → books p →
  wp (write_synced f) (fun _ p' => books p' ∧ same_view p p') (fun p' => books p' ∧ same_view p p') p.
Proof. intros Hf B. apply wp_write; intros p' Sv Es; rewrite ?Hf in Es; (split; [by apply (books_same p)|done]). Qed.

(** A registry step that leaves confirmed records alone. *)
Lemma reg_books g p : books p → keeps (p_reg p) g →
  (∀ id r, records g !! id = Some r → r_id r = id) →
  (∀ id r, records g !! id = Some r → r_status r = SPending ∨ r_status r = SAppealed → burn_applied r = false) →
  (∀ id r r', records (p_reg p) !! id = Some r → records g !! id = Some r' → r_status r = SConfirmed → burn_applied r = true → burn_applied r' = true) →
  books (with_reg g p).
Proof.
  intros [B1 B2 B3 B4 B5 B6] K K1 K2 K3. split; try done.
  - intros k r Hd. destruct (B2 k r Hd) as (E & r0 & Hr0 & V). split; [done|]. destruct (K _ _ Hr0) as (r1 & Hr1 & V1).
    exists r1. split; [done|by etrans].
  - intros id Hid. destruct (B5 id Hid) as (r & Hr & Es & Eb). destruct (K _ _ Hr) as (r1 & Hr1 & V1). exists r1. split_and!; [done| |by eapply K3].
    pose proof (ev_status _ _ V1) as V2. rewrite Es in V2. by destruct (r_status r1).
Qed.

(** The registry operations that only touch records that are not confirmed. *)
Lemma open_step g g' :
  (∀ id r, records g !! id = Some r → r_id r = id) →
  (∀ id r, records g !! id = Some r → r_status r = SPending ∨ r_status r = SAppealed → burn_applied r = false) →
  (∀ id r', records g' !! id = Some r' → records g !! id = Some r' ∨
     (r_id r' = id ∧ (burn_applied r' = false) ∧ ∀ r, records g !! id = Some r → r_status r ≠ SConfirmed)) →
  (∀ id r, records g' !! id = Some r → r_id r = id) ∧
  (∀ id r, records g' !! id = Some r → r_status r = SPending ∨ r_status r = SAppealed → burn_applied r = false) ∧
  (∀ id r r', records g !! id = Some r → records g' !! id = Some r' → r_status r = SConfirmed → burn_applied r = true → burn_applied r' = true).
Proof.
  intros K1 K2 Hs. split_and!.
  - intros id r [Hr|(E & _)]%Hs; [by apply K1|done].
  - intros id r [Hr|(_ & E & _)]%Hs; [by apply (K2 id)|done].
  - intros id r r' Hr [Hr'|(_ & _ & Hn)]%Hs Es Eb; [congruence|]. by destruct (Hn r).
Qed.

Lemma insert_open (m : gmap bytes SlashEvidenceRecord) id r0 :
  r_id r0 = id → burn_applied r0 = false → (∀ r, m !! id = Some r → r_status r ≠ SConfirmed) →
  ∀ k r', <[id := r0]> m !! k = Some r' → m !! k = Some r' ∨
    (r_id r' = k ∧ burn_applied r' = false ∧ ∀ r, m !! k = Some r → r_status r ≠ SConfirmed).
Proof. intros E1 E2 E3 k r' [[<- <-]|[_ Hr]]%lookup_insert_Some; [by right|by left]. Qed.

Lemma submit_books e who blk ep stake o g p : books p → submit_evidence e who blk ep stake (p_reg p) = Ok (o, g) → books (with_reg g p).
Proof.
  intros B E. pose proof (step_keeps _ _ (rs_submit _ _ _ _ _ _ _ _ E)) as K. pose proof B as [B1 B2 B3 _ _ _].
  assert (∀ id r', records g !! id = Some r' → records (p_reg p) !! id = Some r' ∨
    (r_id r' = id ∧ burn_applied r' = false ∧ ∀ r, records (p_reg p) !! id = Some r → r_status r ≠ SConfirmed)) as Hs.
  { unfold submit_evidence in E. destruct (offender_of e) as [off|]; [|done]. set (id := compute_id_for_offender _ _ _) in *.
    destruct (records (p_reg p) !! id) as [r|] eqn:Er.
    - destruct (negb _) eqn:Es; [injection E as _ <-; auto|]. apply negb_false_iff, bool_decide_eq_true in Es.
      destruct (_ || _); injection E as _ <-; [auto|]. apply insert_open.
      + exact (B1 id r Er).
      + apply (B3 id r); auto.
      + intros r1. rewrite Er. intros [= <-]. congruence.
    - injection E as _ <-. apply insert_open; [done|done|]. intros r. by rewrite Er. }
  destruct (open_step (p_reg p) g B1 B3 Hs) as (O1 & O2 & O3). by apply reg_books.
Qed.

Lemma appeal_books id sender blk r g p : books p → file_appeal_for_tx id sender blk (p_reg p) = Ok (r, g) →
  books (with_reg g p) ∧ r_id r = id ∧ records g !! id = Some r.
Proof.
  intros B E. pose proof (step_keeps _ _ (rs_appeal _ _ _ _ _ _ E)) as K. pose proof B as [B1 B2 B3 _ _ _].
  unfold file_appeal_for_tx, file_appeal in E. destruct (records (p_reg p) !! id) as [r0|] eqn:Er; [|done]. destruct (negb _); [done|].
  destruct (negb (bool_decide (r_status r0 = SPending))) eqn:Es; [done|]. apply negb_false_iff, bool_decide_eq_true in Es.
  destruct (appeal_deadline r0 <? blk); [done|]. cbn [with_records records] in E. rewrite lookup_insert_eq in E. injection E as <- <-.
  destruct (open_step (p_reg p) (with_records (<[id := with_status SAppealed r0]> (records (p_reg p))) (p_reg p)) B1 B3) as (O1 & O2 & O3).
  { apply insert_open; [exact (B1 id r0 Er)|apply (B3 id r0); auto|]. intros r1. rewrite Er. intros [= <-]. congruence. }
  split_and!; [by apply reg_books|exact (B1 id r0 Er)|apply lookup_insert_eq].
Qed.

Lemma finalize_books id blk f g p : books p → finalize_slash id blk (p_reg p) = Ok (f, g) → books (with_reg g p) ∧
  (f = None → g = p_reg p) ∧
  ∀ x, f = Some x → ∃ r0 r, records (p_reg p) !! id = Some r0 ∧ r_status r0 = SPending ∧ appeal_deadline r0 < blk ∧
    records g !! id = Some r ∧ evolves r0 r ∧ r_status r = SConfirmed ∧ x = recompute_splits r.
Proof.
  intros B E. pose proof (step_keeps _ _ (rs_finalize _ _ _ _ _ E)) as K. pose proof B as [B1 B2 B3 _ _ _].
  unfold finalize_slash in E. destruct (records (p_reg p) !! id) as [r0|] eqn:Er; [|done].
  assert (with_reg (p_reg p) p = p) as Ep by (by destruct p).
  destruct (negb (bool_decide (r_status r0 = SPending))) eqn:Es; [injection E as <- <-; by rewrite Ep|]. apply negb_false_iff, bool_decide_eq_true in Es.
  destruct (Z.leb_spec blk (appeal_deadline r0)) as [|Hd]; [injection E as <- <-; by rewrite Ep|]. injection E as <- <-.
  set (r := with_burn _ _ _) in *. set (g := with_records _ _) in *.
  destruct (open_step (p_reg p) g B1 B3) as (O1 & O2 & O3).
  { apply insert_open; [exact (B1 id r0 Er)|done|]. intros r1. rewrite Er. intros [= <-]. congruence. }
  split_and!; [by apply reg_books|done|]. intros x [= <-]. exists r0, r. split_and!; try done; [apply lookup_insert_eq|].
  destruct (K _ _ Er) as (r1 & Hr1 & V). unfold g in Hr1. cbn [with_records records] in Hr1. rewrite lookup_insert_eq in Hr1. by simplify_eq.
Qed.

Lemma overturn_books id x g p : books p → overturn_slash id (p_reg p) = Ok (x, g) → books (with_reg g p).
Proof.
  intros B E. pose proof (step_keeps _ _ (rs_overturn _ _ _ _ E)) as K. pose proof B as [B1 B2 B3 _ _ _].
  unfold overturn_slash in E. destruct (records (p_reg p) !! id) as [r0|] eqn:Er; [|done].
  destruct (negb (bool_decide (r_status r0 = SAppealed))) eqn:Es; [done|]. apply negb_false_iff, bool_decide_eq_true in Es. injection E as _ <-.
  destruct (open_step (p_reg p) (with_records (<[id := with_status SOverturned r0]> (records (p_reg p))) (p_reg p)) B1 B3) as (O1 & O2 & O3).
  { apply insert_open; [exact (B1 id r0 Er)|apply (B3 id r0); auto|]. intros r1. rewrite Er. intros [= <-]. congruence. }
  by apply reg_books.
Qed.

(** Marking a confirmed record. *)
Lemma alter_books p id f r0 : books p → records (p_reg p) !! id = Some r0 → r_status r0 = SConfirmed →
  (∀ r, evolves r (f r) ∧ r_status (f r) = r_status r ∧ (burn_applied r = true → burn_applied (f r) = true)) →
  books (with_reg (alter_record f id (p_reg p)) p).
Proof.
  intros B Hr Es Hf. pose proof B as [B1 B2 B3 _ _ _].
  assert (∀ k r', records (alter_record f id (p_reg p)) !! k = Some r' →
    ∃ r, records (p_reg p) !! k = Some r ∧ (r' = r ∨ k = id ∧ r' = f r)) as Hk.
  { intros k r' Hk. unfold alter_record in Hk. cbn [with_records records] in Hk. destruct (decide (k = id)) as [->|Hn].
    - rewrite lookup_alter_eq, Hr in Hk. cbn in Hk. injection Hk as <-. exists r0. auto.
    - rewrite lookup_alter_ne in Hk by done. exists r'. auto. }
  apply reg_books; [done|by apply keeps_alter; intros r; apply Hf|..].
  - intros k r' (r & Hkr & [->|[-> ->]])%Hk; [by apply B1|]. destruct (Hf r) as [[] _]. rewrite ev_id0. by apply B1.
  - intros k r' (r & Hkr & [->|[-> ->]])%Hk Hs; [by apply (B3 k)|]. destruct (Hf r) as (_ & Ef & _). rewrite Ef in Hs.
    rewrite Hr in Hkr. injection Hkr as <-. rewrite Es in Hs. by destruct Hs.
  - intros k r r' Hkr (r1 & Hk1 & Hor)%Hk Hs Hb. rewrite Hkr in Hk1. injection Hk1 as <-. destruct Hor as [->|[-> ->]]; [done|]. by apply Hf.
Qed.

Lemma books_vs vs' p : (∀ a, inactive (p_vs p) a → inactive vs' a) → books p → books (with_vs vs' p).
Proof. intros Hi [B1 B2 B3 B4 B5 B6]. split; try done. intros id r Hid Hd. destruct (B6 id r Hid Hd) as [|Hr]; [by left|right; by apply Hi]. Qed.

(** Books that will be in order once the record is stamped. *)
Definition burning (id : bytes) (p : SlashingPipeline) : Prop := books (with_reg (set_burn_applied id (p_reg p)) p).

Lemma stamp_evolves v r : evolves r (with_burn true v r) ∧ r_status (with_burn true v r) = r_status r ∧
  (burn_applied r = true → burn_applied (with_burn true v r) = true).
Proof. split_and!; [split; try done; cbn; by destruct (r_status r)|done|done]. Qed.

Lemma burn_books id off f force p r0 E : books p → records (p_reg p) !! id = Some r0 → r_status r0 = SConfirmed → r_offender r0 = off →
  id ∉ p_burns p →
  wp (burn id off f force) (fun _ p' => burning id p' ∧ p_reg p' = p_reg p ∧ p_store p' = p_store p ∧
    p_burns p' = id :: p_burns p ∧ ∀ a, inactive (p_vs p) a ∨ a = off → inactive (p_vs p') a) E p.
Proof.
  intros B Hr Es Eo Hn. unfold wp, burn. destruct (apply_slash_burn_v2 _ _ _ _ _) as [[j t] vs'] eqn:Eb. cbn [p_reg p_store p_burns p_vs].
  destruct (burn_inactive _ _ _ _ _ _ _ _ Eb) as [Hoff Hi].
  split_and!; [|done|done|done|intros a [Ha| ->]; auto].
  pose proof (books_vs vs' (with_reg (set_burn_applied id (p_reg p)) p) Hi
    (alter_books p id _ r0 B Hr Es (fun r => stamp_evolves (format_version r) r))) as [B1 B2 B3 B4 B5 B6].
  cbn [p_reg with_vs with_reg] in *. assert (records (set_burn_applied id (p_reg p)) !! id = Some (with_burn true (format_version r0) r0)) as Hs.
  { unfold set_burn_applied, alter_record, with_records. cbn [records]. by rewrite lookup_alter_eq, Hr. }
  split; try done; cbn [p_burns p_reg with_reg p_vs].
  - by apply NoDup_cons.
  - intros k [->|Hk]%elem_of_cons; [by eexists|by apply B5].
  - intros k r [->|Hk]%elem_of_cons Hd; [|by apply (B6 k)]. right. destruct (B2 id r Hd) as (_ & r1 & Hr1 & V).
    pose proof (eq_trans (eq_sym Hs) Hr1) as Er1. injection Er1 as <-. rewrite <- (ev_offender _ _ V). cbn. by rewrite Eo.
Qed.

Lemma stamp_books id jailed p : burning id p → is_Some (records (p_reg p) !! id) →
  (∀ r, records (p_reg p) !! id = Some r → r_status r = SConfirmed) →
  wp (stamp id jailed) (fun _ p' => books p' ∧ p_vs p' = p_vs p ∧ p_burns p' = p_burns p ∧ keeps (p_reg p) (p_reg p')) books p.
Proof.
  intros B [r Hr] Hc. unfold stamp. apply wp_bind, wp_modify, wp_bind, wp_modify.
  set (p1 := with_reg (set_burn_applied id (p_reg p)) p) in *.
  assert (records (p_reg p1) !! id = Some (with_burn true (format_version r) r)) as Hr1.
  { unfold p1, set_burn_applied, alter_record, with_records. cbn [p_reg with_reg records]. by rewrite lookup_alter_eq, Hr. }
  set (p2 := if jailed then _ else _).
  assert (keeps (p_reg p) (p_reg p1)) as K1 by (apply keeps_alter; intros; apply stamp_evolves).
  assert (books p2 ∧ p_vs p2 = p_vs p ∧ p_burns p2 = p_burns p ∧ keeps (p_reg p) (p_reg p2)) as (B2 & E2 & E3 & K2).
  { unfold p2. destruct jailed; [|done]. split_and!; [|done|done|etrans; [exact K1|by apply keeps_alter; intros s; split; try done; cbn; destruct (r_status s)]]. eapply alter_books; [exact B|exact Hr1|exact (Hc r Hr)|].
    intros s. split_and!; [split; try done; cbn; by destruct (r_status s)|done|done]. }
  apply wp_bind, wp_get. unfold get_record. destruct (records (p_reg p2) !! id) as [r2|] eqn:E; [|by apply wp_ret].
  pose proof (bo_keys _ B2 _ _ E) as Eid. pose proof (put_record_books r2 p2 B2) as Hp. rewrite Eid in Hp. specialize (Hp E).
  eapply wp_cons; [exact Hp| |by intros p3 []]. intros _ p3 [B3 [Er Ev Eb]]. split_and!; [done|congruence|congruence|by rewrite Er].
Qed.

(** A confirmed record read from the disk before the loop reached it. *)
Record replayable (p : SlashingPipeline) (r : SlashEvidenceRecord) : Prop := {
  rp_status : r_status r = SConfirmed;
  rp_reg : ∃ r0, records (p_reg p) !! r_id r = Some r0 ∧ evolves r r0;
  rp_open : r_id r ∈ p_burns p → inactive (p_vs p) (r_offender r)
}.

Lemma replayable_mono p p' id r : replayable p r → keeps (p_reg p) (p_reg p') → (∀ a, inactive (p_vs p) a → inactive (p_vs p') a) →
  (∀ k, k ∈ p_burns p' → k = id ∨ k ∈ p_burns p) → r_id r ≠ id → replayable p' r.
Proof.
  intros [S (r0 & Hr & V) O] K Hi Hb Hn. split; [done| |].
  - destruct (K _ _ Hr) as (r1 & Hr1 & V1). exists r1. split; [done|by etrans].
  - intros [?|Hin]%Hb; [done|]. by apply Hi, O.
Qed.

Lemma confirmed_stays r r0 : evolves r r0 → r_status r = SConfirmed → r_status r0 = SConfirmed.
Proof. intros V%ev_status E. rewrite E in V. by destruct (r_status r0). Qed.

Lemma skip_books r p : books p → replayable p r →
  let p1 := with_reg (set_burn_applied (r_id r) (p_reg p)) p in
  wp match get_record (p_reg p1) (r_id r) with Some r2 => ignore (put_record r2) | None => ret tt end
    (fun _ p' => books p' ∧ p_vs p' = p_vs p ∧ p_burns p' = p_burns p ∧ keeps (p_reg p) (p_reg p')) books p1.
Proof.
  intros B [S (r0 & Hr & V) O] p1.
  assert (books p1) as B1 by (eapply alter_books; [done..|by eapply confirmed_stays|intros; apply stamp_evolves]).
  assert (keeps (p_reg p) (p_reg p1)) as K1 by (apply keeps_alter; intros; apply stamp_evolves).
  unfold get_record. destruct (records (p_reg p1) !! r_id r) as [r2|] eqn:E; [|by apply wp_ret].
  pose proof (bo_keys _ B1 _ _ E) as Eid. pose proof (put_record_books r2 p1 B1) as Hp. rewrite Eid in Hp.
  apply (wp_ignore _ _ _ (fun p' => books p' ∧ same_view p1 p')); [by apply Hp|].
  intros p' [Bp [E1 E2 E3]]. split_and!; [done|by rewrite E2|by rewrite E3|by rewrite E1].
Qed.

Lemma replay_books l blk : ∀ p, books p → NoDup (map r_id l) → (∀ r, r ∈ l → replayable p r) → wp (replay_loop l blk) (fun _ => books) books p.
Proof.
  induction l as [|r l IH]; intros p B ND Hl; [by apply wp_ret|]. cbn [replay_loop map] in *. apply NoDup_cons in ND as [Hn ND].
  assert (replayable p r) as Hr by (apply Hl; left).
  destruct (blk <=? appeal_deadline r); [apply IH; [done|done|]; intros s Hs; apply Hl; by right|].
  assert (∀ s, s ∈ l → r_id s ≠ r_id r) as Hne.
  { intros s Hs E. apply Hn. rewrite <- E. apply list_elem_of_fmap. by exists s. }
  apply wp_bind, wp_get. destruct (already_slashed r (p_vs p)) eqn:Ea.
  - apply wp_bind, wp_modify, wp_bind, wp_get, wp_bind. eapply wp_mono; [by apply skip_books|].
    intros _ p1 (B1 & E1 & E2 & K).
    apply IH; [done|done|]. intros s Hs. apply (replayable_mono p p1 (r_id r)); [apply Hl; by right|done|by rewrite E1|rewrite E2; auto|by apply Hne].
  - destruct Hr as [S (r0 & Hr0 & V) O]. apply wp_bind, wp_get, wp_bind.
    assert (r_id r ∉ p_burns p) as Hnb.
    { intros Hin. specialize (O Hin). unfold already_slashed in Ea. destruct (vs_get (p_vs p) (r_offender r)) as [v|] eqn:Ev; [|done].
      apply orb_false_iff in Ea as [_ Ea]. apply negb_false_iff, bool_decide_eq_true in Ea. by apply (O v). }
    eapply wp_mono; [eapply (burn_books (r_id r) (r_offender r) _ _ p r0); [done|done|by eapply confirmed_stays|by apply ev_offender|done]|].
    intros [j t] p1 (Bu & Er & _ & Eb & Hi). apply wp_bind.
    eapply wp_mono; [apply stamp_books; [done|rewrite Er; by eexists|]|].
    { intros s. rewrite Er, Hr0. intros [= <-]. by eapply confirmed_stays. }
    intros _ p2 (B2 & E2 & E3 & K2). apply wp_bind. eapply wp_mono.
    + apply IH; [done|done|]. intros s Hs. apply (replayable_mono p p2 (r_id r)); [apply Hl; by right| | | |by apply Hne].
      * by rewrite <- Er.
      * intros a Ha. rewrite E2. apply Hi. by left.
      * rewrite E3, Eb. intros k [->|Hk]%elem_of_cons; auto.
    + intros. by apply wp_ret.
Qed.

Lemma finalize_loop_books l blk : ∀ p, books p → (∀ r, r ∈ l → ∃ r0, records (p_reg p) !! r_id r = Some r0 ∧ evolves r r0) →
  wp (finalize_loop l blk) (fun _ => books) books p.
Proof.
  induction l as [|r l IH]; intros p B Hl; [by apply wp_ret|]. cbn [finalize_loop]. apply wp_bind.
  assert (∀ p', keeps (p_reg p) (p_reg p') → ∀ s, s ∈ l → ∃ r0, records (p_reg p') !! r_id s = Some r0 ∧ evolves s r0) as Hmono.
  { intros p' K s Hs. destruct (Hl s) as (s0 & Hs0 & V); [by right|]. destruct (K _ _ Hs0) as (s1 & Hs1 & V1). exists s1. split; [done|by etrans]. }
  apply wp_on_reg; [done|]. intros f g Ef. pose proof (step_keeps _ _ (rs_finalize _ _ _ _ _ Ef)) as K.
  destruct (finalize_books _ _ _ _ _ B Ef) as (B1 & Hnone & Hsome). destruct f as [f|].
  2: { apply IH; [done|]. by apply (Hmono (with_reg g p)). }
  destruct (Hsome f eq_refl) as (r0 & r1 & Hr0 & Es0 & Hdl & Hr1 & V1 & Ec & Ef1). apply wp_bind, wp_get. unfold get_record. cbn [p_reg with_reg]. rewrite Hr1.
  assert (r_id r ∉ p_burns p) as Hnb.
  { intros Hin. destruct (bo_burnt _ B _ Hin) as (s & Hs & Ess & _). congruence. }
  pose proof (bo_keys _ B1 _ _ Hr1) as Eid. apply wp_bind. pose proof (put_record_books r1 (with_reg g p) B1) as Hp. rewrite Eid in Hp. specialize (Hp Hr1).
  eapply wp_cons; [exact Hp| |by intros p1 []]. intros _ p1 [Bp [E1 E2 E3]]. cbn [p_reg with_reg p_vs p_burns] in *.
  apply wp_bind, wp_get, wp_bind.
  assert (r_offender r1 = r_offender r) as Eo.
  { destruct (Hl r) as (s & Hs & V); [left|]. assert (s = r0) as -> by congruence. rewrite (ev_offender _ _ V1). apply (ev_offender _ _ V). }
  eapply wp_mono; [eapply (burn_books (r_id r) (r_offender r) _ _ p1 r1); [done|by rewrite E1|done|done|by rewrite E3]|].
  intros [j t] p2 (Bu & Er & _ & Eb & Hi). apply wp_bind.
  eapply wp_mono; [apply stamp_books; [done|rewrite Er, E1; by eexists|]|].
  { intros s. rewrite Er, E1, Hr1. by intros [= <-]. }
  intros _ p3 (B3 & E4 & E5 & K3). apply wp_bind. eapply wp_mono; [apply IH; [done|]; apply Hmono|intros; by apply wp_ret].
  etrans; [exact K|]. by rewrite <- E1, <- Er.
Qed.

(** *** Reading the store *)

Lemma NoDup_fst_inj {A C} (t : list (A * C)) k x y : NoDup t.*1 → (k, x) ∈ t → (k, y) ∈ t → x = y.
Proof.
  induction t as [|[k' z] t IH]; [set_solver|]. cbn. intros [Hn ND]%NoDup_cons Hx%elem_of_cons Hy%elem_of_cons.
  destruct Hx as [E1|Hx], Hy as [E2|Hy]; simplify_eq; [done| | |by apply IH]; destruct Hn; apply list_elem_of_fmap; by eexists (_, _).
Qed.

Lemma load_all_spec {A} (de : bytes → option A) l t : NoDup l.*1 → load_all de l = Ok t →
  NoDup t.*1 ∧ ∀ k a, (k, a) ∈ t → ∃ v, (k, v) ∈ l ∧ de v = Some a.
Proof.
  revert t. induction l as [|[k v] l IH]; intros t ND E; cbn [load_all] in E; [injection E as <-; split; [constructor|set_solver]|].
  apply NoDup_cons in ND as [Hk ND]. destruct (length k =? 32)%nat.
  - destruct (de v) as [a|] eqn:Ea; [|done]. destruct (load_all de l) as [t'|e|] eqn:El; [|done..]. injection E as <-.
    destruct (IH _ ND eq_refl) as [N1 Hs]. split.
    + apply NoDup_cons. split; [|done]. intros ([k' b] & Ek & (w & Hw & _)%Hs)%list_elem_of_fmap. cbn in Ek. subst k'.
      apply Hk, list_elem_of_fmap. by exists (k, w).
    + intros k' b [[= -> ->]|(w & Hw & Ew)%Hs]%elem_of_cons; [exists v; split; [left|done]|exists w; split; [by right|done]].
  - destruct (IH _ ND E) as [N1 Hs]. split; [done|]. intros k' b (w & Hw & Ew)%Hs. exists w. split; [by right|done].
Qed.

Lemma iterator_spec (m : gmap bytes bytes) : NoDup (iterator_cf m).*1 ∧ ∀ k v, (k, v) ∈ iterator_cf m → m !! k = Some v.
Proof.
  unfold iterator_cf. split.
  - rewrite merge_sort_Permutation. apply NoDup_fst_map_to_list.
  - intros k v Hin. rewrite merge_sort_Permutation in Hin. by apply elem_of_map_to_list.
Qed.

Lemma load_records_spec p l : books p → load_all_records (p_store p) = Ok l → NoDup (map r_id l) ∧ ∀ r, r ∈ l → on_disk p (r_id r) r.
Proof.
  intros B E. unfold load_all_records in E. destruct (load_all _ _) as [t|e|] eqn:Et; [|done..]. injection E as <-.
  destruct (iterator_spec (cf_records (p_store p))) as [N Hi]. destruct (load_all_spec _ _ _ N Et) as [N1 Hs].
  assert (∀ k r, (k, r) ∈ t → on_disk p k r) as Hd.
  { intros k r (v & Hv & Ev)%Hs. exists v. split; [by apply Hi|done]. }
  split.
  - replace (map r_id (map snd t)) with (t.*1); [done|]. clear - B Hd. induction t as [|[k r] t IH]; [done|]. cbn. f_equal.
    + destruct (bo_disk _ B k r) as [E _]; [apply Hd; left|]. done.
    + apply IH. intros. apply Hd. by right.
  - intros r ([k r'] & -> & Hr)%list_elem_of_fmap. cbn. pose proof (Hd k r' Hr) as Ho. destruct (bo_disk _ B k r' Ho) as [-> _]. done.
Qed.

Lemma nodup_map_filter {A C} (f : A → C) (p : A → bool) l : NoDup (map f l) → NoDup (map f (List.filter p l)).
Proof.
  induction l as [|x l IH]; cbn; [done|]. intros [Hx ND]%NoDup_cons. destruct (p x); cbn; [|by apply IH].
  apply NoDup_cons. split; [|by apply IH]. intros (y & E & Hy)%list_elem_of_fmap. apply Hx. rewrite E.
  apply list_elem_of_fmap. exists y. split; [done|]. apply list_elem_of_In in Hy. apply filter_In in Hy as [Hy _]. by apply list_elem_of_In.
Qed.

(** *** The operations *)

Lemma tick_books blk p : books p → wp (tick_finalize blk) (fun _ => books) books p.
Proof.
  intros B. unfold tick_finalize. apply wp_bind, wp_load; [done|]. intros l El. apply wp_bind. unfold load_records_with_unapplied_burn in El.
  destruct (load_all_records (p_store p)) as [l0|e|] eqn:E0; [|done..]. injection El as <-. destruct (load_records_spec p l0 B E0) as [N Hd].
  eapply wp_mono; [apply replay_books; [done|by apply nodup_map_filter|]|].
  - intros r Hr. apply list_elem_of_In, filter_In in Hr as [Hr Hc]. apply list_elem_of_In, Hd in Hr.
    apply andb_true_iff in Hc as [Hc Hb]. apply andb_true_iff in Hc as [_ Hc]. apply bool_decide_eq_true in Hc. apply negb_true_iff in Hb.
    destruct (bo_disk _ B _ _ Hr) as (_ & V). split; [done|done|]. intros Hin. destruct (bo_open _ B _ _ Hin Hr); [congruence|done].
  - intros done_ p1 B1. apply wp_bind, wp_load; [done|]. intros l1 E1. apply wp_bind. unfold load_records_ready_to_finalize in E1.
    destruct (load_all_records (p_store p1)) as [l2|e|] eqn:E2; [|done..]. injection E1 as <-. destruct (load_records_spec p1 l2 B1 E2) as [_ Hd1].
    eapply wp_mono; [apply finalize_loop_books; [done|]|intros; by apply wp_ret].
    intros r Hr. apply list_elem_of_In, filter_In in Hr as [Hr _]. apply list_elem_of_In, Hd1 in Hr. by destruct (bo_disk _ B1 _ _ Hr).
Qed.

Lemma ingest_books e who blk ep stake p : books p → wp (ingest_equivocation e who blk ep stake) (fun _ => books) books p.
Proof.
  intros B. unfold ingest_equivocation. destruct (negb (ev_verify e)); [by apply wp_throw|]. apply wp_bind. unfold put_evidence. apply wp_bind.
  eapply wp_cons; [apply write_books; [done|exact B]| |by intros p1 []]. intros _ p1 [B1 _]. apply wp_ret, wp_bind, wp_on_reg; [done|].
  intros o g Eo. pose proof (submit_books _ _ _ _ _ _ _ _ B1 Eo) as B2. apply wp_bind, wp_get. unfold get_record. cbn [p_reg with_reg].
  destruct (records g !! record_id o) as [r|] eqn:Er; [|by apply wp_throw].
  assert (wp (put_record r ;; put_bond (record_id o) who (mkBond 0 Whistleblower) ;; ret (record_id o)) (fun _ => books) books (with_reg g p1)) as Hp.
  { pose proof (bo_keys _ B2 _ _ Er) as Eid. apply wp_bind. eapply wp_cons; [apply put_record_books; [exact B2|by rewrite Eid]| |by intros p2 []].
    intros _ p2 [B3 _]. apply wp_bind. eapply wp_cons; [apply write_books; [done|exact B3]| |by intros p3 []]. intros _ p3 [B4 _]. by apply wp_ret. }
  destruct o; [done|done|by apply wp_ret].
Qed.

Lemma appeal_tx_books id sender value h p : books p → wp (dispatch_file_appeal_tx id sender value h) (fun _ => books) books p.
Proof.
  intros B. unfold dispatch_file_appeal_tx. destruct (negb _); [by apply wp_throw|]. apply wp_bind, wp_on_reg; [done|]. intros r g Er.
  destruct (appeal_books _ _ _ _ _ _ B Er) as (B1 & Eid & Hr). apply wp_bind.
  eapply wp_cons; [apply write_books; [done|exact B1]| |by intros p2 []]. intros _ p2 [B2 [Eg _ _]]. apply wp_bind.
  eapply wp_cons; [apply put_record_books; [exact B2|rewrite Eg, Eid; exact Hr]| |by intros p3 []]. intros _ p3 [B3 _]. by apply wp_ret.
Qed.

Lemma refund_inactive r refund bond v : status v ≠ Active → status (refund_offender r refund bond v).2 ≠ Active.
Proof.
  unfold refund_offender. cbn [status set_self_stake snd]. destruct (burn_applied r && jailed_by_slash r && _); done.
Qed.

Lemma deletes_books id (l : list (address * BondEntry)) p : books p →
  wp (fold_right (fun '(a, _) m => ignore (delete_bond id a) ;; m) (ret tt) l) (fun _ => books) books p.
Proof.
  revert p. induction l as [|[a b] l IH]; intros p B; cbn [fold_right]; [by apply wp_ret|]. apply wp_bind.
  apply (wp_ignore _ _ _ books); [|intros p1 B1; by apply IH].
  eapply wp_cons; [apply write_books; [done|exact B]|by intros _ p1 []|by intros p1 []].
Qed.

Lemma overturn_refund_books id p : books p → wp (overturn_and_refund id) (fun _ => books) books p.
Proof.
  intros B. unfold overturn_and_refund. apply wp_bind, wp_get. destruct (get_record (p_reg p) id) as [r|]; [|by apply wp_throw].
  destruct (negb _); [by apply wp_throw|]. apply wp_bind, wp_load; [done|]. intros bonds _. apply wp_bind, wp_get.
  set (x := match vs_get _ _ with Some _ => _ | None => _ end).
  assert (∀ a, inactive (p_vs p) a → inactive x.2 a) as Hi.
  { unfold x. intros a Ha. destruct (vs_get (p_vs p) (r_offender r)) as [v|] eqn:Ev; [|done].
    destruct (refund_offender _ _ _ v) as [free v'] eqn:Ef. cbn [snd]. intros w Hw. unfold vs_get, vs_put, with_validators in *. cbn [validators] in Hw.
    apply lookup_insert_Some in Hw as [[<- <-]|[_ Hw]]; [|by apply Ha]. change v' with ((free, v').2). rewrite <- Ef. by apply refund_inactive, Ha. }
  destruct x as [free vs']. apply wp_bind, wp_modify, wp_bind. pose proof (books_vs vs' p Hi B) as B1.
  apply wp_on_reg; [done|]. intros y g Ey. pose proof (overturn_books _ _ _ _ B1 Ey) as B2. apply wp_bind, wp_get. unfold get_record. cbn [p_reg with_reg].
  destruct (records g !! id) as [r'|] eqn:Er; [|by apply wp_throw]. pose proof (bo_keys _ B2 _ _ Er) as Eid. apply wp_bind.
  eapply wp_cons; [apply put_record_books; [exact B2|by rewrite Eid]| |by intros p2 []]. intros _ p2 [B3 _]. apply wp_bind.
  eapply wp_mono; [by apply deletes_books|]. intros. by apply wp_ret.
Qed.

(** ** Runs of the pipeline *)

(** Every record whose burn ran says so on the disk. *)
Definition synced (p : SlashingPipeline) : Prop := ∀ id r, id ∈ p_burns p → on_disk p id r → burn_applied r = true.

(** The pipeline's operations, and changes others make to the validator set:
    any change while the disk is up to date, and otherwise any change that
    activates no validator. *)
Inductive pstep : SlashingPipeline → SlashingPipeline → Prop :=
| ps_ingest e who blk ep stake p : pstep p (ingest_equivocation e who blk ep stake p).2
| ps_tick blk p : pstep p (tick_finalize blk p).2
| ps_appeal id sender value h p : pstep p (dispatch_file_appeal_tx id sender value h p).2
| ps_overturn id p : pstep p (overturn_and_refund id p).2
| ps_others vs' p : synced p ∨ (∀ a, inactive (p_vs p) a → inactive vs' a) → pstep p (with_vs vs' p).

Lemma step_books p p' : pstep p p' → books p → books p'.
Proof.
  intros Hs B. destruct Hs as [e who blk ep stake p|blk p|id sender value h p|id p|vs' p Hor].
  - by apply wp_inv, ingest_books.
  - by apply wp_inv, tick_books.
  - by apply wp_inv, appeal_tx_books.
  - by apply wp_inv, overturn_refund_books.
  - destruct Hor as [Hsy|Hi]; [|by apply books_vs]. destruct B as [B1 B2 B3 B4 B5 B6]. split; try done. intros id r Hid Hd. left. by apply (Hsy id).
Qed.

Lemma run_books p p' : rtc pstep p p' → books p → books p'.
Proof. induction 1 as [|p p1 p2 Hs _ IH]; [done|]. intros B. by apply IH, (step_books p). Qed.

(** *** The start of a process *)

(** What a disk written by this code satisfies: records are stored under
    their 32-byte id, and those still open have no burn. *)
Definition disk_ok (st : EvidenceStore) : Prop :=
  ∀ k b r, cf_records st !! k = Some b → de_record b = Some r →
    r_id r = k ∧ length k = 32%nat ∧ (r_status r = SPending ∨ r_status r = SAppealed → burn_applied r = false).

Definition boot (st : EvidenceStore) (total : Z) (vs : ValidatorSet) : outcome StakingError nat * SlashingPipeline :=
  rehydrate_from_disk (mkPipeline st (registry_new total) vs []).

Lemma load_all_complete {A} (de : bytes → option A) l t k v a : load_all de l = Ok t → (k, v) ∈ l → length k = 32%nat → de v = Some a → (k, a) ∈ t.
Proof.
  revert t. induction l as [|[k' v'] l IH]; intros t E Hin Hk Ha; [set_solver|]. cbn [load_all] in E.
  apply elem_of_cons in Hin as [[= -> ->]|Hin].
  - rewrite Hk in E. cbn [Nat.eqb] in E. rewrite Ha in E. destruct (load_all de l); [|done..]. injection E as <-. left.
  - destruct (length k' =? 32)%nat; [|by apply (IH t)]. destruct (de v'); [|done]. destruct (load_all de l) as [t'|e|]; [|done..].
    injection E as <-. right. by apply IH.
Qed.

Lemma rehydrated_lookup (l : list SlashEvidenceRecord) g : NoDup (map r_id l) →
  ∀ id, records (fold_left (fun g r => insert_rehydrated_record r g) l g) !! id =
    match List.find (fun r => bool_decide (r_id r = id)) l with Some r => Some r | None => records g !! id end.
Proof.
  revert g. induction l as [|r l IH]; intros g ND id; [done|]. cbn [map fold_left List.find] in *. apply NoDup_cons in ND as [Hn ND]. rewrite IH by done.
  case_bool_decide as E.
  - destruct (List.find _ l) as [s|] eqn:Ef.
    + apply find_some in Ef as [Hin Es]. apply bool_decide_eq_true in Es. destruct Hn. rewrite E, <- Es. apply list_elem_of_fmap. exists s.
      split; [done|]. by apply list_elem_of_In.
    + unfold insert_rehydrated_record. cbn [records]. by rewrite E, lookup_insert_eq.
  - destruct (List.find _ l); [done|]. unfold insert_rehydrated_record. cbn [records]. by rewrite lookup_insert_ne.
Qed.

Lemma boot_books st total vs n : disk_ok st → (boot st total vs).1 = Ok n → books (boot st total vs).2.
Proof.
  intros Hd. unfold boot, rehydrate_from_disk, mbind, M_bind, bind, load, modify. cbn [p_store p_reg].
  destruct (load_all_records st) as [l|e|] eqn:El; [|done..]. intros _. cbn [snd ret]. unfold load_all_records in El.
  destruct (load_all de_record (iterator_cf (cf_records st))) as [t|e|] eqn:Et; [|done..]. injection El as <-.
  destruct (iterator_spec (cf_records st)) as [N Hi]. destruct (load_all_spec _ _ _ N Et) as [N1 Hs].
  assert (∀ k r, (k, r) ∈ t → r_id r = k ∧ cf_records st !! k ≠ None ∧ (r_status r = SPending ∨ r_status r = SAppealed → burn_applied r = false)) as Hk.
  { intros k r (v & Hv & Ev)%Hs. apply Hi in Hv. destruct (Hd _ _ _ Hv Ev) as (? & _ & ?). split_and!; [done|congruence|done]. }
  assert (map r_id (map snd t) = t.*1) as Em.
  { clear - Hk. induction t as [|[k r] t IH]; [done|]. cbn. f_equal; [apply (Hk k r); left|]. apply IH. intros. apply Hk. by right. }
  assert (NoDup (map r_id (map snd t))) as Nr by (by rewrite Em).
  set (g := fold_left _ _ _). assert (∀ id r, records g !! id = Some r → (id, r) ∈ t) as Hg.
  { intros id r Hr. unfold g in Hr. rewrite rehydrated_lookup in Hr by done. cbn [registry_new records] in Hr. rewrite lookup_empty in Hr.
    destruct (List.find _ _) as [s|] eqn:Ef; [|done]. injection Hr as ->. apply find_some in Ef as [Hin Es]. apply bool_decide_eq_true in Es.
    apply list_elem_of_In, list_elem_of_fmap in Hin as ([k' r'] & -> & Hin). cbn in Es. destruct (Hk _ _ Hin) as [E _]. cbn. congruence. }
  split; cbn [p_reg p_burns with_reg]; [| | |apply NoDup_nil_2|by intros id Hid%elem_of_nil|by intros id r Hid%elem_of_nil].
  - intros id r Hr%Hg. by apply (Hk id).
  - intros k r (b & Hb & Er). cbn [p_store with_reg] in Hb. destruct (Hd _ _ _ Hb Er) as (E1 & E2 & _). split; [done|]. exists r. split; [|done].
    assert ((k, r) ∈ t) as Ht.
    { eapply load_all_complete; [exact Et| |done|exact Er]. unfold iterator_cf. rewrite merge_sort_Permutation. by apply elem_of_map_to_list. }
    unfold g. rewrite rehydrated_lookup by done. destruct (List.find _ _) as [s|] eqn:Ef.
    + apply find_some in Ef as [Hin Es]. apply bool_decide_eq_true in Es. apply list_elem_of_In, list_elem_of_fmap in Hin as ([k' r'] & -> & Hin).
      cbn in Es |- *. f_equal. destruct (Hk _ _ Hin) as [E _]. assert (k' = k) as -> by congruence.
      by apply (NoDup_fst_inj t k r' r).
    + apply find_none with (x := r) in Ef; [|apply list_elem_of_In, list_elem_of_fmap; by exists (k, r)]. by rewrite bool_decide_eq_true_2 in Ef.
  - intros id r Hr%Hg. by apply (Hk id).
Qed.

(** C10: From the start of a node and whatever the pipeline then does, and
    whichever disk writes fail, no record's stake burn is applied twice, and
    a burn is only ever applied for a record that is confirmed: never for one
    that is pending, under appeal or overturned. Elections, which activate
    validators, are not operations of the pipeline. *)
Theorem burnt_at_most_once (st : EvidenceStore) (total : Z) (vs : ValidatorSet) (n : nat) (p : SlashingPipeline) :
  disk_ok st → (boot st total vs).1 = Ok n → rtc pstep (boot st total vs).2 p →
  NoDup (p_burns p) ∧ ∀ id, id ∈ p_burns p → ∃ r, get_record (p_reg p) id = Some r ∧ r_status r = SConfirmed ∧ burn_applied r = true.
Proof.
  intros Hd Hn Hr. destruct (run_books _ _ Hr (boot_books st total vs n Hd Hn)) as [_ _ _ N Hb _]. split; [done|exact Hb].
Qed.

(** ** What finalisation does to validators *)

Record punished (v v' : Validator) : Prop := {
  pu_stake : 0 ≤ self_stake v → 0 ≤ self_stake v' ≤ self_stake v;
  pu_delegated : delegated_stake v' = delegated_stake v;
  pu_pool : delegator_reward_pool v' = delegator_reward_pool v;
  pu_tombstone : status v = Tombstoned → status v' = Tombstoned;
  pu_active : status v' = Active → status v = Active
}.

#[export] Instance punished_preorder : PreOrder punished.
Proof.
  split; [by intros v; split|]. intros v1 v2 v3 [A1 A2 A3 A4 A5] [C1 C2 C3 C4 C5]. split; intros; try congruence; try auto.
  destruct A1 as [A1 A1']; [done|]. destruct C1; lia.
Qed.

(** The same validators, each at most punished; nobody joins the active set. *)
Record punishes (vs vs' : ValidatorSet) : Prop := {
  pn_some : ∀ a v, vs_get vs a = Some v → ∃ v', vs_get vs' a = Some v' ∧ punished v v';
  pn_none : ∀ a, vs_get vs a = None → vs_get vs' a = None;
  pn_set : ∀ a, a ∈ active_set vs' → a ∈ active_set vs
}.

#[export] Instance punishes_preorder : PreOrder punishes.
Proof.
  split; [intros vs; split; [intros a v Hv; by exists v|done|done]|]. intros v1 v2 v3 [A1 A2 A3] [B1 B2 B3]. split; [|auto|auto].
  intros a v (w & Hw & P)%A1. destruct (B1 _ _ Hw) as (x & Hx & P'). exists x. split; [done|by etrans].
Qed.

Lemma credited_punished l a v w : punished v w → punished v (credited l a w).
Proof. intros []. destruct (credited_fields l a w) as (E1 & E2 & E3 & E4). split; rewrite ?E1, ?E2, ?E3, ?E4; done. Qed.

Lemma burn_offender_punished slash force v : 0 ≤ slash → punished v (burn_offender slash force v).2.
Proof.
  intros Hs. unfold burn_offender, saturating_sub. cbn [set_self_stake status]. destruct (status v) eqn:Es, force; split; cbn; intros; rewrite ?Es in *; (done || lia).
Qed.

Lemma burn_punishes vs off slash l force j t vs' : 0 ≤ slash → apply_slash_burn_v2 vs off slash l force = (j, t, vs') → punishes vs vs'.
Proof.
  intros Hs E. split.
  - intros a v Hv. rewrite (burn_lookup _ _ _ _ _ _ _ _ a E), Hv. case_bool_decide; cbn; eexists; (split; [done|]); apply credited_punished;
      [by apply burn_offender_punished|done].
  - intros a Hv. rewrite (burn_lookup _ _ _ _ _ _ _ _ a E), Hv. by case_bool_decide.
  - intros a Ha. unfold apply_slash_burn_v2 in E. destruct (match validators vs !! off with Some _ => _ | None => _ end) as [[j' t'] m].
    injection E as _ _ <-. cbn [active_set] in Ha. apply list_elem_of_In, filter_In in Ha as [Ha _]. by apply list_elem_of_In.
Qed.

(** Since [vs0] validators were only punished, and no slash is negative. *)
Record punishing (vs0 : ValidatorSet) (p : SlashingPipeline) : Prop := {
  pg_vs : punishes vs0 (p_vs p);
  pg_reg : map_Forall (fun _ r => 0 ≤ final_slash_wei r) (records (p_reg p));
  pg_disk : ∀ k r, on_disk p k r → 0 ≤ final_slash_wei r
}.

Context (vs0 : ValidatorSet).
Abbreviation punishing' := (punishing vs0).

Lemma put_record_punishing r p : punishing' p → 0 ≤ final_slash_wei r → wp (put_record r) (fun _ => punishing') punishing' p.
Proof.
  intros [P1 P2 P3] Hr. apply wp_write; intros p' [E1 E2 E3] Es; split; rewrite ?E1, ?E2; try done; intros k s (b & Hb & Hs); rewrite Es in Hb.
  - cbn [cf_records] in Hb. apply lookup_insert_Some in Hb as [[_ <-]|[_ Hb]]; [|by apply (P3 k); exists b]. rewrite record_roundtrip in Hs. by injection Hs as <-.
  - by apply (P3 k); exists b.
Qed.

Lemma alter_punishing f id p : (∀ r, final_slash_wei (f r) = final_slash_wei r) → punishing' p → punishing' (with_reg (alter_record f id (p_reg p)) p).
Proof.
  intros Hf [P1 P2 P3]. split; [done| |done]. intros k r. unfold alter_record, with_records. cbn [p_reg with_reg records].
  intros Hr. apply lookup_alter_Some in Hr as [(-> & r0 & Hr & ->)|[_ Hr]]; [rewrite Hf; by apply (P2 k)|by apply (P2 k)].
Qed.

Lemma burn_punishing id off f force p : 0 ≤ fs_slash_wei f → punishing' p → wp (burn id off f force) (fun _ => punishing') punishing' p.
Proof.
  intros Hf [P1 P2 P3]. unfold wp, burn. destruct (apply_slash_burn_v2 _ _ _ _ _) as [[j t] vs'] eqn:E. split; [|done|done].
  etrans; [done|]. by eapply burn_punishes.
Qed.

Lemma reg_slash p id r : punishing' p → get_record (p_reg p) id = Some r → 0 ≤ final_slash_wei r.
Proof. intros P Hr. by apply (pg_reg _ _ P id). Qed.

Lemma stamp_punishing id j p : punishing' p → wp (stamp id j) (fun _ => punishing') punishing' p.
Proof.
  intros P. unfold stamp. apply wp_bind, wp_modify, wp_bind, wp_modify. set (p1 := with_reg _ p). assert (punishing' p1) as P1 by (by apply alter_punishing).
  set (p2 := if j then _ else _). assert (punishing' p2) as P2 by (unfold p2; destruct j; [by apply alter_punishing|done]).
  apply wp_bind, wp_get. destruct (get_record (p_reg p2) id) as [r|] eqn:E; [|done]. apply put_record_punishing; [done|by eapply reg_slash].
Qed.

Lemma replay_punishing l blk : ∀ p, punishing' p → Forall (fun r => 0 ≤ final_slash_wei r) l → wp (replay_loop l blk) (fun _ => punishing') punishing' p.
Proof.
  induction l as [|r l IH]; intros p P Hl; [done|]. apply Forall_cons in Hl as [Hr Hl]. cbn [replay_loop]. case_match; [by apply IH|].
  apply wp_bind, wp_get. destruct (already_slashed r (p_vs p)).
  - apply wp_bind, wp_modify, wp_bind, wp_get, wp_bind. set (p1 := with_reg _ p). assert (punishing' p1) as P1 by (by apply alter_punishing).
    destruct (get_record (p_reg p1) (r_id r)) as [r2|] eqn:E; [|by apply wp_ret, IH].
    apply (wp_ignore _ _ _ punishing'); [apply put_record_punishing; [done|by eapply reg_slash]|]. intros p2 P2. by apply IH.
  - apply wp_bind, wp_get, wp_bind. eapply wp_mono; [by apply burn_punishing|]. intros [j t] p1 P1. apply wp_bind.
    eapply wp_mono; [by apply stamp_punishing|]. intros u p2 P2. apply wp_bind. eapply wp_mono; [by apply IH|]. intros. by apply wp_ret.
Qed.

Lemma finalize_punishing l blk : ∀ p, punishing' p → wp (finalize_loop l blk) (fun _ => punishing') punishing' p.
Proof.
  induction l as [|r l IH]; intros p P; [done|]. cbn [finalize_loop]. apply wp_bind, wp_on_reg; [done|]. intros f g Ef.
  assert (punishing' (with_reg g p) ∧ ∀ x, f = Some x → 0 ≤ fs_slash_wei x) as [P1 Hx].
  { destruct P as [P1 P2 P3]. unfold finalize_slash in Ef. destruct (records (p_reg p) !! r_id r) as [r0|] eqn:Er; [|done].
    assert (0 ≤ final_slash_wei r0) as Hnn by (by apply (P2 (r_id r))).
    destruct (negb _); [by injection Ef as <- <-|]. destruct (_ <=? _); [by injection Ef as <- <-|]. injection Ef as <- <-. split; [|by intros x [= <-]].
    split; [done| |done]. unfold with_records. cbn [p_reg with_reg records]. by apply map_Forall_insert_2. }
  destruct f as [f|]; [|by apply IH]. apply wp_bind, wp_get. destruct (get_record _ _) as [r1|] eqn:E1; [|by apply wp_throw].
  apply wp_bind. eapply wp_mono; [apply put_record_punishing; [done|by eapply reg_slash]|]. intros u p1 Pp. apply wp_bind, wp_get, wp_bind.
  eapply wp_mono; [apply burn_punishing; [by apply Hx|done]|]. intros [j t] p2 P2. apply wp_bind. eapply wp_mono; [by apply stamp_punishing|].
  intros u2 p3 P3. apply wp_bind. eapply wp_mono; [by apply IH|]. intros. by apply wp_ret.
Qed.

Lemma load_nonneg p l : punishing' p → load_all_records (p_store p) = Ok l → Forall (fun r => 0 ≤ final_slash_wei r) l.
Proof.
  intros P E. unfold load_all_records in E. destruct (load_all _ _) as [t|e|] eqn:Et; [|done..]. injection E as <-.
  destruct (iterator_spec (cf_records (p_store p))) as [N Hi]. destruct (load_all_spec _ _ _ N Et) as [_ Hs].
  apply Forall_forall. intros r ([k r'] & -> & (v & Hv & Ev)%Hs)%list_elem_of_fmap. apply (pg_disk _ _ P k). exists v. split; [by apply Hi|done].
Qed.

Lemma tick_punishing blk p : punishing' p → wp (tick_finalize blk) (fun _ => punishing') punishing' p.
Proof.
  intros P. unfold tick_finalize. apply wp_bind, wp_load; [done|]. intros l El. unfold load_records_with_unapplied_burn in El.
  destruct (load_all_records (p_store p)) as [l0|e|] eqn:E0; [|done..]. injection El as <-. apply wp_bind. eapply wp_mono; [apply replay_punishing; [done|]|].
  { apply Forall_forall. intros r Hr. apply list_elem_of_In, filter_In in Hr as [Hr _]. apply list_elem_of_In in Hr.
    pose proof (load_nonneg p l0 P E0) as F. rewrite Forall_forall in F. by apply F. }
  intros done_ p1 P1. apply wp_bind, wp_load; [done|]. intros l1 _. apply wp_bind. eapply wp_mono; [by apply finalize_punishing|]. intros. by apply wp_ret.
Qed.

End Safety.

Section Effects.
Context `{Keccak} `{Bls} `{BlsPoints} `{Sha3} `{Bincode} `{!BincodeLaws} `{Disk}.

(** A finalisation tick, whether it succeeds or fails halfway, only
    punishes: no validator is added or removed, no self-stake grows or
    becomes negative, delegated stakes and delegator pools are untouched, a
    tombstone stays, and no validator becomes active or joins the active
    set. *)
Theorem tick_only_punishes (blk : Z) (p : SlashingPipeline) :
  map_Forall (fun _ r => 0 ≤ final_slash_wei r) (records (p_reg p)) → (∀ k r, on_disk p k r → 0 ≤ final_slash_wei r) →
  punishes (p_vs p) (p_vs (tick_finalize blk p).2).
Proof. intros Hr Hd. apply (wp_inv _ (punishing (p_vs p))), tick_punishing. by split. Qed.

Lemma deletes_vs id (l : list (address * BondEntry)) vs E p : p_vs p = vs →
  wp (fold_right (fun '(a, _) m => ignore (delete_bond id a) ;; m) (ret tt) l) (fun _ p' => p_vs p' = vs) E p.
Proof.
  revert p. induction l as [|[a b] l IH]; intros p Ep; cbn [fold_right]; [by apply wp_ret|]. apply wp_bind.
  apply (wp_ignore _ _ _ (fun p' => p_vs p' = vs)); [|intros p1 E1; by apply IH].
  apply wp_write; intros p' [_ E2 _] _; congruence.
Qed.

Lemma overturn_spec id p :
  wp (overturn_and_refund id) (fun out p' => ∃ r bonds, get_record (p_reg p) id = Some r ∧ r_status r = SAppealed ∧
      list_bonds_for_record (p_store p) id = Ok bonds ∧ let refund := if burn_applied r then final_slash_wei r else 0 in
      ao_offender out = r_offender r ∧ refunded_wei out = refund ∧ appeal_bond_refunded_wei out = bonds_of Appeal bonds ∧
      match vs_get (p_vs p) (r_offender r) with
      | Some v => (unjailed out, p_vs p') = ((refund_offender r refund (bonds_of Appeal bonds) v).1,
                    vs_put (r_offender r) (refund_offender r refund (bonds_of Appeal bonds) v).2 (p_vs p))
      | None => (unjailed out, p_vs p') = (false, p_vs p)
      end) (fun _ => True) p.
Proof.
  unfold overturn_and_refund. apply wp_bind, wp_get. destruct (get_record (p_reg p) id) as [r|]; [|by apply wp_throw].
  destruct (negb (bool_decide (r_status r = SAppealed))) eqn:Es; [by apply wp_throw|]. apply negb_false_iff, bool_decide_eq_true in Es.
  apply wp_bind, wp_load; [done|]. intros bonds Eb. apply wp_bind, wp_get. set (refund := if burn_applied r then _ else _).
  set (x := match vs_get _ _ with Some _ => _ | None => _ end).
  assert (match vs_get (p_vs p) (r_offender r) with
      | Some v => x = ((refund_offender r refund (bonds_of Appeal bonds) v).1, vs_put (r_offender r) (refund_offender r refund (bonds_of Appeal bonds) v).2 (p_vs p))
      | None => x = (false, p_vs p) end) as Ex.
  { unfold x. destruct (vs_get _ _) as [v|]; [|done]. by destruct (refund_offender _ _ _ _). }
  clearbody x. destruct x as [free vs']. apply wp_bind, wp_modify, wp_bind, wp_on_reg; [done|]. intros y g Ey. apply wp_bind, wp_get.
  destruct (get_record _ id) as [r'|]; [|by apply wp_throw]. apply wp_bind, wp_write; [|done]. intros p1 [_ E1 _] _. cbn [p_vs with_reg with_vs] in E1.
  apply wp_bind. eapply wp_mono; [by apply (deletes_vs id bonds vs')|]. intros u p2 E2. apply wp_ret. exists r, bonds. split_and!; try done.
  cbn [unjailed]. by rewrite E2.
Qed.

(** In a running node an overturned appeal returns the appeal bond and
    nothing else: the slash had not been burnt, so no stake is minted, nobody
    is released from jail, and the offender's only change is the bond added
    to its pending rewards. *)
Theorem overturn_returns_bond (st : EvidenceStore) (total : Z) (vs : ValidatorSet) (n : nat) (p p' : SlashingPipeline)
    (id : bytes) (out : AppliedOverturn) :
  disk_ok st → (boot st total vs).1 = Ok n → rtc pstep (boot st total vs).2 p →
  map_Forall (fun _ v => is_u128 (self_stake v)) (validators (p_vs p)) →
  overturn_and_refund id p = (Ok out, p') →
  refunded_wei out = 0 ∧ unjailed out = false ∧
  ∀ a, vs_get (p_vs p') a = (fun v => if bool_decide (a = ao_offender out)
                                      then set_pending (saturating_add128 (pending_rewards v) (appeal_bond_refunded_wei out)) v
                                      else v) <$> vs_get (p_vs p) a.
Proof.
  intros Hd Hn Hr Hu E. destruct (run_books _ _ Hr (boot_books st total vs n Hd Hn)) as [_ _ Hf _ _ _].
  pose proof (overturn_spec id p) as Hs. unfold wp in Hs. rewrite E in Hs. destruct Hs as (r & bonds & Hg & Es & _ & Eo & Er & Eb & Hm).
  assert (burn_applied r = false) as Eba by (apply (Hf id); auto). rewrite Eba in *. split; [done|]. rewrite Eo, Eb.
  unfold vs_get in *. destruct (validators (p_vs p) !! r_offender r) as [v|] eqn:Ev.
  - unfold refund_offender in Hm. rewrite Eba in Hm. cbn [andb fst snd] in Hm. injection Hm as -> ->. split; [done|]. intros a.
    unfold vs_put, with_validators. cbn [validators].
    assert (saturating_add128 (self_stake v) 0 = self_stake v) as ->.
    { pose proof (Hu _ _ Ev) as Hs. unfold is_u128, U128, saturating_add128, U128_MAX in *. cbn beta in Hs. lia. }
    assert (set_self_stake (self_stake v) v = v) as -> by (by destruct v). case_bool_decide as Ea.
    + subst a. by rewrite lookup_insert_eq, Ev.
    + rewrite lookup_insert_ne by done. by destruct (validators (p_vs p) !! a).
  - injection Hm as -> ->. split; [done|]. intros a. case_bool_decide as Ea; [subst a; by rewrite Ev|]. by destruct (validators (p_vs p) !! a).
Qed.

(** *** What a burn does to the books of the escrow *)

Lemma credit_liabilities l m : map_Forall (fun _ => wf_validator) m → Forall (fun e => 0 ≤ e.2) l →
  map_sum liability m + sumZ snd l < U128 →
  map_Forall (fun _ => wf_validator) (credit_splits l m) ∧
  map_sum liability m ≤ map_sum liability (credit_splits l m) ≤ map_sum liability m + sumZ snd l.
Proof.
  unfold credit_splits. revert m. induction l as [|[a x] l IH]; intros m W F Hs; cbn [fold_left].
  { split; [done|]. unfold sumZ. cbn. lia. }
  apply Forall_cons in F as [Hx F]. rewrite sumZ_cons in *. cbn [snd] in *. assert (0 ≤ sumZ snd l) as Hl by (by apply sumZ_nonneg).
  destruct (m !! a) as [w|] eqn:Ea; [|destruct (IH m W F) as [? ?]; [lia|split; [done|lia]]].
  pose proof (W _ _ Ea) as [W1 W2 W3 W4 W5 W6 W7]. assert (liability w ≤ map_sum liability m) as Hle.
  { apply (map_sum_lookup_le liability m a); [|done]. intros c u [] %W. unfold liability, owed. lia. }
  assert (saturating_add128 (pending_rewards w) x = pending_rewards w + x) as ->.
  { unfold saturating_add128, U128_MAX, liability, owed, U128 in *. lia. }
  assert (map_sum liability (<[a := set_pending (pending_rewards w + x) w]> m) = map_sum liability m + x) as Em.
  { rewrite (map_sum_insert _ _ _ _ w) by done. unfold liability, owed, set_pending. cbn. lia. }
  destruct (IH (<[a := set_pending (pending_rewards w + x) w]> m)) as [W' Hb]; [|done|lia|].
  - apply map_Forall_insert_2; [split; cbn; (done || lia)|done].
  - split; [done|lia].
Qed.

Lemma burn_offender_liability slash force v : wf_validator v → 0 ≤ slash →
  wf_validator (burn_offender slash force v).2 ∧ liability (burn_offender slash force v).2 = liability v - Z.min slash (self_stake v).
Proof.
  intros [W1 W2 W3 W4 W5 W6 W7] Hs. unfold burn_offender, saturating_sub. cbn [set_self_stake status].
  destruct (status v), force; cbn [snd]; (split; [split; cbn; lia|unfold liability, owed; cbn; lia]).
Qed.

(** Applying the finalised slash of a record keeps the validator set
    well formed and removes at least nineteen twentieths of the slash from
    what the escrow owes, as long as the offender's self-stake covers it. In
    general the escrow owes less by what was really burnt and more by at most
    the twentieth promised to the reporters. *)
Theorem burn_reduces_liabilities (vs : ValidatorSet) (r : SlashEvidenceRecord) (v : Validator) (force : bool) :
  wf_vs vs → vs_get vs (r_offender r) = Some v → 0 ≤ final_slash_wei r → final_slash_wei r * WHISTLEBLOWER_REWARD_BPS < U128 →
  vs_liabilities vs + final_slash_wei r < U128 →
  let f := recompute_splits r in
  let vs' := (apply_slash_burn_v2 vs (r_offender r) (fs_slash_wei f) (splits f) force).2 in
  let burnt := Z.min (final_slash_wei r) (self_stake v) in
  wf_vs vs' ∧ (r_offender r ∉ active_set vs') ∧
  vs_liabilities vs - burnt ≤ vs_liabilities vs' ≤ vs_liabilities vs - burnt + final_slash_wei r / 20 ∧
  (final_slash_wei r ≤ self_stake v → 19 * final_slash_wei r ≤ 20 * (vs_liabilities vs - vs_liabilities vs')).
Proof.
  intros W Hv Hp Ho Hs f vs' burnt. destruct (splits_bounds r Hp Ho) as (Ef & Fs & Hsum). fold f in Ef, Fs, Hsum.
  pose proof (W _ _ Hv) as Wv. destruct (burn_offender_liability (fs_slash_wei f) force v Wv) as [Wb Eb]; [by rewrite Ef|].
  replace (Z.min (fs_slash_wei f) (self_stake v)) with burnt in Eb by (unfold burnt; by rewrite Ef).
  assert (0 ≤ final_slash_wei r / 20 ≤ final_slash_wei r) as H20 by (split; [apply Z.div_pos; lia|apply Z.div_le_upper_bound; lia]).
  set (m := <[r_offender r := (burn_offender (fs_slash_wei f) force v).2]> (validators vs)).
  assert (map_sum liability m = vs_liabilities vs - burnt) as Em.
  { unfold m, vs_liabilities. rewrite (map_sum_insert _ _ _ _ v) by done. lia. }
  assert (vs' = mkVs (credit_splits (splits f) m) (List.filter (fun a => negb (bool_decide (a = r_offender r))) (active_set vs)) (current_epoch vs)) as ->.
  { unfold vs', apply_slash_burn_v2, m. unfold vs_get in Hv. rewrite Hv. by destruct (burn_offender _ _ v) as [[j t] w]. }
  destruct (credit_liabilities (splits f) m) as [Wc Hc].
  { by apply map_Forall_insert_2. }
  { done. }
  { unfold burnt in *. destruct Wv. lia. }
  set (L' := map_sum liability (credit_splits (splits f) m)) in *. change (vs_liabilities (mkVs (credit_splits (splits f) m) _ _)) with L'.
  unfold wf_vs. cbn [validators active_set].
  assert (20 * (final_slash_wei r / 20) ≤ final_slash_wei r) by (apply Z.mul_div_le; lia). split_and!; [done| |lia|lia|intros; unfold burnt in *; lia].
  intros Hin. apply list_elem_of_In, filter_In in Hin as [_ Hin]. by rewrite bool_decide_eq_true_2 in Hin.
Qed.

End Effects.

(** ** A concrete node *)

Module Samples.
Import Slashing.Samples.

(** *** A codec: every value is encoded as one number *)

#[local] Instance vote_data_countable : Countable VoteData :=
  inj_countable' (fun d => (block_hash d, block_number d, phase d, epoch d)) (fun '(a, b, c, d) => mkVoteData a b c d) ltac:(by intros []).
#[local] Instance vote_eq_dec : EqDecision Vote.
Proof. solve_decision. Defined.
#[local] Instance vote_countable : Countable Vote :=
  inj_countable' (fun v => (v_data v, voter v, signature v)) (fun '(a, b, c) => mkVote a b c) ltac:(by intros []).
#[local] Instance evidence_eq_dec : EqDecision EquivocationEvidence.
Proof. solve_decision. Defined.
#[local] Instance evidence_countable : Countable EquivocationEvidence :=
  inj_countable' (fun e => (ev_validator e, ev_round e, ev_phase e, vote_a e, vote_b e, ev_pubkey e))
    (fun '(a, b, c, d, e, f) => mkEvidence a b c d e f) ltac:(by intros []).

#[local] Instance proof_eq_dec : EqDecision DoubleSignProof.
Proof. solve_decision. Defined.
#[local] Instance proof_countable : Countable DoubleSignProof :=
  inj_countable' (fun p => (ds_height p, ds_round p, ds_phase p, block_a p, block_b p, (sig_a p, sig_b p, ds_validator p, validator_bls_pubkey p)))
    (fun '(a, b, c, d, e, (f, g, h, i)) => mkProof a b c d e f g h i) ltac:(by intros []).
#[local] Instance violation_eq_dec : EqDecision BlockViolation.
Proof. solve_decision. Defined.
#[local] Instance violation_countable : Countable BlockViolation :=
  inj_countable' (fun v => match v with
      | InvalidStateRoot a b => inl (a, b) | InvalidTxRoot => inr (inl tt) | GasLimitExceeded a b => inr (inr (0, a, b))
      | InvalidTimestamp a b => inr (inr (1, a, b)) | ChainIdMismatch a b => inr (inr (2, a, b)) end)
    (fun x => match x with
      | inl (a, b) => InvalidStateRoot a b | inr (inl _) => InvalidTxRoot
      | inr (inr (n, a, b)) => if n =? 0 then GasLimitExceeded a b else if n =? 1 then InvalidTimestamp a b else ChainIdMismatch a b end)
    ltac:(by intros []).
#[local] Instance invalid_eq_dec : EqDecision InvalidBlockProof.
Proof. solve_decision. Defined.
#[local] Instance invalid_countable : Countable InvalidBlockProof :=
  inj_countable' (fun p => (ib_block_hash p, ib_proposer p, ib_violation p)) (fun '(a, b, c) => mkInvalid a b c) ltac:(by intros []).
#[local] Instance slash_evidence_eq_dec : EqDecision SlashEvidenceV2.
Proof. solve_decision. Defined.
#[local] Instance slash_evidence_countable : Countable SlashEvidenceV2 :=
  inj_countable' (fun e => match e with
      | DoubleSign p => inl (inl p) | InvalidBlock p => inl (inr p) | SurrogateVote a b c d => inr (inl (a, b, c, d))
      | LivenessFault a b c => inr (inr (inl (a, b, c))) | ConsecutiveMiss a b => inr (inr (inr (a, b))) end)
    (fun x => match x with
      | inl (inl p) => DoubleSign p | inl (inr p) => InvalidBlock p | inr (inl (a, b, c, d)) => SurrogateVote a b c d
      | inr (inr (inl (a, b, c))) => LivenessFault a b c | inr (inr (inr (a, b))) => ConsecutiveMiss a b end) ltac:(by intros []).
#[local] Instance type_countable : Countable EvidenceType :=
  inj_countable' type_discriminant (fun n => if n =? 0 then DoubleSignT else if n =? 1 then LivenessFaultT else if n =? 2 then ConsecutiveMissT
    else if n =? 3 then InvalidBlockT else SurrogateVoteT) ltac:(by intros []).
#[local] Instance status_countable : Countable EvidenceStatus :=
  inj_countable' (fun s => match s with SPending => 0 | SAppealed => 1 | SConfirmed => 2 | SRejected => 3 | SOverturned => 4 end)
    (fun n => if n =? 0 then SPending else if n =? 1 then SAppealed else if n =? 2 then SConfirmed else if n =? 3 then SRejected else SOverturned)
    ltac:(by intros []).
#[local] Instance record_eq_dec : EqDecision SlashEvidenceRecord.
Proof. solve_decision. Defined.
#[local] Instance record_countable : Countable SlashEvidenceRecord :=
  inj_countable' (fun r => (r_id r, r_type r, r_offender r, submitted_by r, submit_block r, (r_evidence r, r_status r, base_slash_wei r),
      (final_slash_wei r, appeal_deadline r, reporters r, jailed_by_slash r, burn_applied r, format_version r)))
    (fun '(a, b, c, d, e, (f, g, h), (i, j, k, l, m, n)) => mkRecord a b c d e f g h i j k l m n) ltac:(by intros []).
#[local] Instance kind_countable : Countable BondKind :=
  inj_countable' (fun k => bool_decide (k = Appeal)) (fun b : bool => if b then Appeal else Whistleblower) ltac:(by intros []).
#[local] Instance bond_eq_dec : EqDecision BondEntry.
Proof. solve_decision. Defined.
#[local] Instance bond_countable : Countable BondEntry :=
  inj_countable' (fun b => (bond_wei b, bond_kind b)) (fun '(a, b) => mkBond a b) ltac:(by intros []).

Definition ser {A} `{Countable A} (a : A) : bytes := [Zpos (countable.encode a)].
Definition de {A} `{Countable A} (b : bytes) : option A := match b with [Zpos x] => countable.decode x | _ => None end.

#[local] Instance codec : Bincode := {|
  ser_evidence := ser; de_evidence := de; ser_record := ser; de_record := de; ser_bond := ser; de_bond := de |}.
#[local] Instance codec_laws : BincodeLaws.
Proof. split; intros x; cbn; apply countable.decode_encode. Qed.

#[local] Instance keccak_sample : Keccak := fun b => to_be 32 (be_val b).
#[local] Instance bls_sample : Bls := {|
  verify_single _ _ _ := true; verify_aggregate _ _ _ := true; aggregate_signatures _ := None; sign k m := k ++ m; to_pubkey k := k |}.
#[local] Instance points_sample : BlsPoints := {| g1_point _ := true; g2_point _ := true |}.

(** *** One offender and two reporters *)

Definition val (n stake : Z) (st : ValidatorStatus) : Validator := mkValidator (adr n) [] stake 0 1000 st 0 0 0 0 0.
Definition vs0 : ValidatorSet :=
  mkVs (<[adr 5 := val 5 1000000 Active]> (<[adr 1 := val 1 1000000 Active]> {[ adr 2 := val 2 1000000 Active ]})) [adr 1; adr 2; adr 5] 0.
Definition store0 : EvidenceStore := mkStore ∅ ∅ ∅ 0.

Definition ev5 : EquivocationEvidence :=
  mkEvidence (adr 5) 100 0 (mkVote (mkVoteData [1] 100 0 0) (adr 5) [7]) (mkVote (mkVoteData [2] 100 0 0) (adr 5) [8]) [9].

Section Node.
Context `{Disk}.
Definition run1 : SlashingPipeline := (ingest_equivocation ev5 (adr 1) 100 0 1000000 (boot store0 4 vs0).2).2.
Definition run2 : SlashingPipeline := (ingest_equivocation ev5 (adr 2) 100 0 1000000 run1).2.
Definition run3 : SlashingPipeline := (tick_finalize 172901 run2).2.
Definition run4 : SlashingPipeline := (tick_finalize 172902 run3).2.

Lemma run_steps : rtc pstep (boot store0 4 vs0).2 run4.
Proof. eapply rtc_l; [apply ps_ingest|]. eapply rtc_l; [apply ps_ingest|]. eapply rtc_l; [apply ps_tick|]. apply rtc_once, ps_tick. Qed.
End Node.

(** A disk that never fails, and one whose write after the burn fails. *)
Definition good : Disk := fun _ => true.
Definition flaky : Disk := fun n => negb (n =? 7)%nat.

Lemma store0_ok : disk_ok store0.
Proof. intros k b r Hb. cbn in Hb. by rewrite lookup_empty in Hb. Qed.

Lemma burnt_at_most_once_witness :
  p_burns (@run4 good) = [id1] ∧ p_burns (@run4 flaky) = [id1] ∧ NoDup (p_burns (@run4 flaky)).
Proof.
  split; [vm_compute; reflexivity|]. split; [vm_compute; reflexivity|].
  exact (proj1 (burnt_at_most_once store0 4 vs0 0 (@run4 flaky) store0_ok eq_refl (@run_steps flaky))).
Defined.

(** The guard on the other changes of the validator set is needed: the
    offender waits for election, its burn is applied and the write after it
    fails; once elected it is burnt again for the same record. *)
Definition waiting : ValidatorSet := vs_put (adr 5) (val 5 (2 * MIN_SELF_STAKE) Pending) vs0.
Definition elect (p : SlashingPipeline) : SlashingPipeline := with_vs (@elect_active_set Validators.Samples.iter_up (p_vs p)).2 p.

Example election_reopens_burn :
  let p1 := (@ingest_equivocation _ _ _ _ flaky ev5 (adr 1) 100 0 1000000 (boot store0 4 waiting).2).2 in
  let p2 := (@ingest_equivocation _ _ _ _ flaky ev5 (adr 2) 100 0 1000000 p1).2 in
  p_burns (@tick_finalize _ flaky 172902 (elect (@tick_finalize _ flaky 172901 p2).2)).2 = [id1; id1].
Proof. vm_compute. reflexivity. Qed.

Lemma tick_only_punishes_witness :
  (vs_get (p_vs (@run3 good)) (adr 5) = Some (set_status Jailed (set_self_stake (1000000 - 153100) (val 5 1000000 Active)))) ∧
  punishes (p_vs (@run2 good)) (p_vs (@run3 good)).
Proof.
  split; [vm_compute; reflexivity|]. refine (@tick_only_punishes _ _ good 172901 (@run2 good) _ _).
  - assert (records (p_reg (@run2 good)) = {[ id1 := default rec1 (records (p_reg (@run2 good)) !! id1) ]}) as -> by (vm_compute; reflexivity).
    apply map_Forall_singleton. vm_compute. discriminate.
  - intros k r (b & Hb & Er).
    assert (cf_records (p_store (@run2 good)) = {[ id1 := default [] (cf_records (p_store (@run2 good)) !! id1) ]}) as E by (vm_compute; reflexivity).
    rewrite E in Hb. apply lookup_singleton_Some in Hb as [<- <-]. revert Er. vm_compute. intros [= <-]. discriminate.
Defined.

(** The offender appeals in time and governance overturns the slash. *)
Definition appealed : SlashingPipeline := (@dispatch_file_appeal_tx _ good id1 (adr 5) APPEAL_BOND_WEI 5000 (@run2 good)).2.

Lemma overturn_returns_bond_witness :
  ∃ out p', @overturn_and_refund _ good id1 appealed = (Ok out, p') ∧ refunded_wei out = 0 ∧
    vs_get (p_vs p') (adr 5) = Some (set_pending APPEAL_BOND_WEI (val 5 1000000 Active)).
Proof.
  destruct (@overturn_and_refund _ good id1 appealed) as [[out|e|] p'] eqn:E; [|exfalso; revert E; vm_compute; discriminate..].
  exists out, p'. split; [reflexivity|].
  destruct (@overturn_returns_bond _ _ _ _ _ good store0 4 vs0 0%nat appealed p' id1 out store0_ok eq_refl) as (E1 & E2 & E3).
  - eapply rtc_l; [apply ps_ingest|]. eapply rtc_l; [apply ps_ingest|]. apply rtc_once, ps_appeal.
  - assert (validators (p_vs appealed) = validators vs0) as -> by (vm_compute; reflexivity).
    repeat apply map_Forall_insert_2; [vm_compute; split; [discriminate|reflexivity]..|]. apply map_Forall_empty.
  - exact E.
  - split; [exact E1|]. rewrite E3.
    assert (out = mkOverturn id1 (adr 5) 0 APPEAL_BOND_WEI 0 false) as -> by (revert E; vm_compute; intros [= <- _]; reflexivity).
    vm_compute. reflexivity.
Defined.

Lemma burn_reduces_liabilities_witness :
  let f := recompute_splits rec1 in
  let vs' := (apply_slash_burn_v2 vs0 (adr 5) (fs_slash_wei f) (splits f) false).2 in
  vs_liabilities vs' = 3000000 - 153100 + 2 * 3827 ∧ 19 * 153100 ≤ 20 * (vs_liabilities vs0 - vs_liabilities vs').
Proof.
  split; [vm_compute; reflexivity|].
  destruct (burn_reduces_liabilities vs0 rec1 (val 5 1000000 Active) false) as (_ & _ & _ & H).
  - repeat apply map_Forall_insert_2; [split; vm_compute; (reflexivity || discriminate || split; discriminate)..|].
    apply map_Forall_empty.
  - reflexivity.
  - vm_compute. discriminate.
  - vm_compute. reflexivity.
  - vm_compute. reflexivity.
  - apply H. vm_compute. discriminate.
Defined.

End Samples.

End Pipeline.
