(* ===== verification/Executor.v ===== *)
(** * The block executor

    Models [crates/zbx-execution/src/executor.rs]: [execute_tx], the block loop
    [execute_inner] behind [execute], [execute_with_db] and
    [execute_with_staking], [apply_slash_burn] and [execute_staking_tx]. The
    EVM is the interpreter of [EvmInterp] on a fresh [MockHost], the ZVM that
    of [ZvmInterp] on a [ProductionZvmHost] over the view; the staking
    dispatcher is a parameter. The theorems show when a block
    executes, that money is neither created nor lost on the EVM path beyond the
    block reward and the burnt base fee, the gas bounds and the nonce
    discipline, and the size of the emission. *)

From S2P Require Import Prelude.
From S2P Require Import U256.
From S2P Require Import EvmBase.
From S2P Require Import EvmHost.
From S2P Require Import EvmInterp.
From S2P Require Import EvmLogic.
From S2P Require Import EvmExec.
From S2P Require Import EvmProps.
From S2P Require Import Block.
From S2P Require Import Transaction.
From S2P Require Import State.
From S2P Require Import Supply.
From S2P Require Import Trie.
From S2P Require Import StateRoot.
From S2P Require Import Receipts.
From S2P Require Import Emission.
From S2P Require Import StakingTx.
From S2P Require Import ZvmBase.
From S2P Require Import ZvmHost.
From S2P Require Import ZvmInterp.

Module Executor.
Import Emission U256 EvmBase EvmHost EvmInterp EvmLogic Transaction.Transaction State.State Supply Receipts.
#[local] Set Warnings "-clear-no-such-hyp,-register-all".

(** ** error.rs *)

(** The message of a [State] error. *)
Inductive StateMessage := NonceOverflowed | TrieFailed (e : Trie.TrieError).

(** The variants of [ExecutionError] the executor returns. *)
Inductive ExecutionError :=
  | InvalidNonce (expected got : Z)
  | InsufficientFunds (balance cost : Z)
  | IntrinsicGasTooLow (required provided : Z)
  | StateError (m : StateMessage)
  | GasLimitAboveMax (limit max : Z).

(** ** Parameter: the staking dispatcher *)

Abbreviation View := (StateView Log).

(** The staking crate: validator set, pending database operations, slashing
    pipeline, decoded calls and errors. *)
Class StakingOps := {
  ValidatorSet : Type;
  StakingDelta : Type;
  SlashingPipeline : Type;
  StakingCall : Type;
  StakingError : Type;
  delta_new : StakingDelta;
  decode_staking_call : bytes → outcome StakingError StakingCall;
  file_appeal_id : StakingCall → option bytes;
  dispatch_file_appeal_tx : bytes → address → Z → Z → SlashingPipeline → outcome StakingError Z * SlashingPipeline;
  dispatch_staking_tx : StakingCall → address → Z → Z → ValidatorSet → StakingDelta → View →
    outcome StakingError Z * (ValidatorSet * StakingDelta * View)
}.

#[local] Abbreviation STAKING_PRECOMPILE_ADDR := StakingTx.StakingTx.STAKING_PRECOMPILE_ADDR.

Definition is_staking_destination (to : option address) : bool := bool_decide (to = Some STAKING_PRECOMPILE_ADDR).

(** ** Results that may run out of fuel

    [None] means that the fuel given to the interpreter was not enough. *)

Definition fueled (A : Type) : Type := option (outcome ExecutionError A).

Definition fret {A} (a : A) : fueled A := Some (Ok a).
Definition fbind {A B} (m : fueled A) (k : A → fueled B) : fueled B :=
  match m with
  | Some (Ok a) => k a
  | Some (Err e) => Some (Err e)
  | Some Panic => Some Panic
  | None => None
  end.

Declare Scope fueled_scope.
Delimit Scope fueled_scope with fueled.
#[local] Notation "x ← m ; k" := (fbind m (fun x => k)) (at level 20, m at level 100, k at level 200) : fueled_scope.
#[local] Open Scope fueled_scope.

Definition lift {A} (o : outcome ExecutionError A) : fueled A := Some o.

(** ** Balances *)

Definition credit (a : address) (wei : Z) (v : View) : View :=
  let acct := get_account v a in
  set_account a (set_balance_u128 (saturating_add128 (balance_u128 acct) wei) acct) v.

Definition apply_slash_burn (v : View) (offender : address) (amount_wei : Z) : Z * View :=
  let acct := get_account v offender in
  let bal := balance_u128 acct in
  let actual := Z.min amount_wei bal in
  (actual, set_account offender (set_balance_u128 (bal - actual) acct) v).

(** [impl BalanceAccess for StateView] *)
Definition get_balance (v : View) (a : address) : Z := balance_u128 (get_account v a).
Definition set_balance (a : address) (wei : Z) (v : View) : View :=
  set_account a (set_balance_u128 wei (get_account v a)) v.

(** ** execute_tx *)

Definition max_cost (s : SignedTransaction) : Z := max_fee_per_gas (tx s) * gas_limit (tx s).
(** The low 16 bytes of the 32-byte value. *)
Definition value_u128 (s : SignedTransaction) : Z := wrap128 (value (tx s)).
Definition total_cost (s : SignedTransaction) : Z := saturating_add128 (max_cost s) (value_u128 s).

(** Steps 1 and 2: checks, then debit and nonce. *)
Definition preflight (s : SignedTransaction) (v : View) : outcome ExecutionError View :=
  let sender := get_account v (from s) in
  if negb (nonce (tx s) =? acct_nonce sender) then Err (InvalidNonce (acct_nonce sender) (nonce (tx s))) else
  let balance := balance_u128 sender in
  if balance <? total_cost s then Err (InsufficientFunds balance (total_cost s)) else
  let intrinsic := intrinsic_gas (tx s) in
  if gas_limit (tx s) <? intrinsic then Err (IntrinsicGasTooLow intrinsic (gas_limit (tx s))) else
  let sender := set_balance_u128 (saturating_sub balance (wrap128 (max_cost s + value_u128 s))) sender in
  match increment_nonce sender with
  | None => Err (StateError NonceOverflowed)
  | Some sender => Ok (set_account (from s) sender v)
  end.

Definition ZVM_DEPLOY_DISCRIMINATOR : Z := 0x5A.

Record Target := mkTarget {
  t_callee : address;
  t_code : bytes;
  t_contract : option address;
  t_transfer : bool;
  t_vm : VmKind
}.

#[local] Existing Instance ZvmHost.production_host.

Section Exec.
Context `{Keccak} `{Precompiles} `{RlpCrate} `{ZvmInterp.ZvmPrecompiles} `{HP : ZvmBase.Heap} `{StakingOps} `{StateRoot.MapIter}.

Definition new_contract_address (s : SignedTransaction) : address :=
  drop 12 (keccak256 (from s ++ to_be 8 (nonce (tx s)))).

(** The runtime code is stored before it runs. *)
Definition persist_code (a : address) (code : bytes) (k : VmKind) (v : View) : View :=
  match code with
  | [] => v
  | _ =>
      let code_hash := keccak256 code in
      let v := view_seed_code code_hash code v in
      let acct := with_code_hash code_hash (get_account v a) in
      set_account a (match k with Zvm => with_vm Zvm acct | Evm => acct end) v
  end.

(** Step 3. *)
Definition resolve_target (s : SignedTransaction) (v : View) : Target * View :=
  match to (tx s) with
  | None =>
      let new_addr := new_contract_address s in
      let init := data (tx s) in
      let '(k, code) := if bool_decide (head init = Some ZVM_DEPLOY_DISCRIMINATOR)
                        then (Zvm, drop 1 init) else (Evm, init) in
      (mkTarget new_addr code (Some new_addr) false k, persist_code new_addr code k v)
  | Some to =>
      let to_acct := get_account v to in
      if is_contract to_acct then (mkTarget to (get_code v to) None false (vm to_acct), v)
      else (mkTarget to [] None true Evm, v)
  end.

Record RunOutcome := mkRun { r_status : ExitStatus; r_gas : Z; r_logs : list Log; r_view : View }.

Definition call_data (s : SignedTransaction) : bytes := match to (tx s) with Some _ => data (tx s) | None => [] end.

Definition forwarded_gas (s : SignedTransaction) : Z := saturating_sub (gas_limit (tx s)) (intrinsic_gas (tx s)).

Definition run_precompile (s : SignedTransaction) (callee : address) (v : View) : fueled RunOutcome :=
  match call_precompile (byte_at callee 19) (data (tx s)) (forwarded_gas s) with
  | Ok (_, used) => fret (mkRun Succeeded used [] v)
  | Err e => fret (mkRun (Failed e) (forwarded_gas s) [] v)
  | Panic => Some Panic
  end.

Definition zvm_status (st : ZvmBase.ExecutionStatus) : ExitStatus :=
  match st with
  | ZvmBase.ZSuccess => Succeeded
  | ZvmBase.ZRevert => Reverted
  | ZvmBase.ZOutOfGas => Failed OutOfGas
  | ZvmBase.ZInvalidOpcode op => Failed (InvalidOpcode op)
  | ZvmBase.ZStackOverflow => Failed StackOverflow
  | ZvmBase.ZError _ => Failed OutOfGas
  end.

Definition zvm_ctx (s : SignedTransaction) (h : Block.BlockHeader) (t : Target) : ZvmBase.ZvmContext :=
  ZvmBase.mkZvmCtx (t_code t) (call_data s) (from s) (t_callee t) (value_u128 s) (forwarded_gas s) (Block.number h)
    (Block.timestamp h) (Block.base_fee_per_gas h) 1 (chain_id (tx s)) false None 0 (from s).

(** The host of a ZVM run: a fresh scratchpad, and the contract of a creation
    marked as created in this transaction. *)
Definition zvm_host (h : Block.BlockHeader) (t : Target) (v : View) : ZvmHost.ProductionZvmHost :=
  let host := ZvmHost.host_new v (ZvmHost.from_header h) ∅ in
  match t_contract t with
  | Some new_addr => ZvmHost.mark_created_this_tx new_addr host
  | None => host
  end.

(** Deletions of contracts created in the same transaction. *)
Definition apply_destructs (st : ZvmBase.ExecutionStatus) (pending : list (address * address)) (created : gset address)
    (v : View) : View :=
  match st with
  | ZvmBase.ZSuccess =>
      fold_left (fun v cb => if bool_decide (cb.1 ∈ created) then view_selfdestruct cb.1 v else v) pending v
  | _ => v
  end.

(** [view.diffs.logs.drain(pre_log_len..)] panics past the end. *)
Definition drain_logs (pre_log_len : nat) (v : View) : outcome ExecutionError (list Log * View) :=
  let f := diffs v in
  if (length (diff_logs f) <? pre_log_len)%nat then Panic
  else Ok (drop pre_log_len (diff_logs f),
           with_diffs (mkDiff (accounts f) (storage f) (new_code f) (deleted f) (take pre_log_len (diff_logs f))) v).

Definition run_zvm (fuel : nat) (s : SignedTransaction) (h : Block.BlockHeader) (t : Target) (v : View)
    : fueled RunOutcome :=
  let pre_log_len := length (diff_logs (diffs v)) in
  match ZvmInterp.run fuel (ZvmInterp.new_interp (zvm_ctx s h t) (zvm_host h t v)) with
  | None => None
  | Some ZvmInterp.Aborted => Some Panic
  | Some (ZvmInterp.Finished r i) =>
      let '(pending, host) := ZvmHost.take_pending_destructs (ZvmInterp.i_host i) in
      let v' := apply_destructs (ZvmBase.zr_status r) pending (ZvmHost.ph_created host) (ZvmHost.ph_state host) in
      d ← lift (drain_logs pre_log_len v');
      fret (mkRun (zvm_status (ZvmBase.zr_status r)) (ZvmBase.zr_gas_used r) d.1 d.2)
  end.

Definition evm_ctx (s : SignedTransaction) (h : Block.BlockHeader) (t : Target) : EVMContext :=
  mkCtx (from s) (t_callee t) (to_be 32 (value (tx s))) (call_data s) (forwarded_gas s) false (Block.number h)
    (Block.timestamp h) (Block.coinbase h) (Block.base_fee_per_gas h) (chain_id (tx s)).

Definition receipt_log (h : Block.BlockHeader) (l : EvmLog) : Log :=
  mkLog (EvmInterp.log_address l) (log_topics l) (EvmInterp.log_data l) (Block.number h) 0 (replicate 32 0) 0.

Definition run_evm (fuel : nat) (s : SignedTransaction) (h : Block.BlockHeader) (t : Target) (v : View)
    : fueled RunOutcome :=
  match run fuel (new_interp (evm_ctx s h t) (t_code t) mock_new) with
  | None => None
  | Some Aborted => Some Panic
  | Some (Finished status i) => fret (mkRun status (EvmInterp.gas_used i) (map (receipt_log h) (i_logs i)) v)
  end.

(** Step 4. *)
Definition run_target (fuel : nat) (s : SignedTransaction) (h : Block.BlockHeader) (t : Target) (v : View)
    : fueled RunOutcome :=
  if bool_decide (is_Some (to (tx s))) && is_precompile (t_callee t) then run_precompile s (t_callee t) v
  else if t_transfer t || bool_decide (t_code t = []) then fret (mkRun Succeeded 0 [] v)
  else match t_vm t with
       | Zvm => run_zvm fuel s h t v
       | Evm => run_evm fuel s h t v
       end.

Record TxResult := mkTxResult {
  tr_gas_used : Z;
  tr_effective_price : Z;
  tr_success : bool;
  tr_logs : list Log;
  tr_contract : option address
}.

Definition tx_gas_used (s : SignedTransaction) (run_gas : Z) : Z :=
  Z.min (saturating_add64 (intrinsic_gas (tx s)) run_gas) (gas_limit (tx s)).

(** Step 5. *)
Definition settle_fee (s : SignedTransaction) (gas_used effective_price : Z) (v : View) : View :=
  let fee_owed := gas_used * effective_price in
  credit (from s) (saturating_sub (max_cost s) fee_owed) v.

(** Finalisation of a CREATE. *)
Definition fund_contract (s : SignedTransaction) (a : address) (k : VmKind) (v : View) : View :=
  if is_deleted v a then v
  else
    let acct := get_account v a in
    let acct := if 0 <? value_u128 s
                then set_balance_u128 (saturating_add128 (balance_u128 acct) (value_u128 s)) acct else acct in
    set_account a (match k with Zvm => with_vm Zvm acct | Evm => acct end) v.

(** Step 6. *)
Definition settle_value (s : SignedTransaction) (success : bool) (t : Target) (v : View) : View :=
  if success then
    match to (tx s), t_contract t with
    | Some to, _ => credit to (value_u128 s) v
    | None, Some a => fund_contract s a (t_vm t) v
    | None, None => v
    end
  else credit (from s) (value_u128 s) v.

Definition is_succeeded (st : ExitStatus) : bool := match st with Succeeded => true | _ => false end.

Definition execute_tx (fuel : nat) (s : SignedTransaction) (h : Block.BlockHeader) (v : View)
    : fueled (TxResult * View) :=
  let effective_price := effective_gas_price s (Block.base_fee_per_gas h) in
  v1 ← lift (preflight s v);
  let '(t, v2) := resolve_target s v1 in
  r ← run_target fuel s h t v2;
  let gas_used := tx_gas_used s (r_gas r) in
  let success := is_succeeded (r_status r) in
  let v3 := settle_fee s gas_used effective_price (r_view r) in
  fret (mkTxResult gas_used effective_price success (r_logs r) (t_contract t), settle_value s success t v3).

(** ** execute_staking_tx *)

Record StakingCtx := mkStakingCtx { sc_vs : ValidatorSet; sc_pipeline : option SlashingPipeline; sc_delta : StakingDelta }.

(** Success flag and gas of the dispatched call. *)
Definition dispatch_call (s : SignedTransaction) (h : Block.BlockHeader) (c : StakingCtx) (v : View)
    : outcome ExecutionError ((bool * Z) * (StakingCtx * View)) :=
  match decode_staking_call (data (tx s)) with
  | Err _ => Ok ((false, 0), (c, v))
  | Panic => Panic
  | Ok call =>
      match file_appeal_id call with
      | Some evidence_id =>
          match sc_pipeline c with
          | Some p =>
              match dispatch_file_appeal_tx evidence_id (from s) (value_u128 s) (Block.number h) p with
              | (Ok g, p') => Ok ((true, g), (mkStakingCtx (sc_vs c) (Some p') (sc_delta c), v))
              | (Err _, p') => Ok ((false, 0), (mkStakingCtx (sc_vs c) (Some p') (sc_delta c), v))
              | (Panic, _) => Panic
              end
          | None => Ok ((false, 0), (c, v))
          end
      | None =>
          match dispatch_staking_tx call (from s) (value_u128 s) (Block.number h) (sc_vs c) (sc_delta c) v with
          | (Ok g, (vs, d, v')) => Ok ((true, g), (mkStakingCtx vs (sc_pipeline c) d, v'))
          | (Err _, (vs, d, v')) => Ok ((false, 0), (mkStakingCtx vs (sc_pipeline c) d, v'))
          | (Panic, _) => Panic
          end
      end
  end.

Definition execute_staking_tx (s : SignedTransaction) (h : Block.BlockHeader) (c : StakingCtx) (v : View)
    : outcome ExecutionError (TxResult * (StakingCtx * View)) :=
  let effective_price := effective_gas_price s (Block.base_fee_per_gas h) in
  let? v1 := preflight s v in
  let? '((success, dispatch_gas), (c', v2)) := dispatch_call s h c v1 in
  let gas_used := tx_gas_used s dispatch_gas in
  let v3 := settle_fee s gas_used effective_price v2 in
  let v4 := if success
            then (if 0 <? value_u128 s then credit STAKING_PRECOMPILE_ADDR (value_u128 s) v3 else v3)
            else credit (from s) (value_u128 s) v3 in
  Ok (mkTxResult gas_used effective_price success [] None, (c', v4)).

(** ** execute_inner *)

#[local] Abbreviation Blk := (Block.Block SignedTransaction).

Definition pay_validator (h : Block.BlockHeader) (r : TxResult) (v : View) : View :=
  let tip := saturating_sub (tr_effective_price r) (Block.base_fee_per_gas h) in
  credit (Block.coinbase h) (tip * tr_gas_used r) v.

Definition make_receipt (b : Blk) (idx cumulative : Z) (s : SignedTransaction) (r : TxResult) : TransactionReceipt :=
  mkReceipt (if tr_success r then Success else Failure) cumulative (compute_receipt_bloom (tr_logs r)) (tr_logs r)
    (tx_hash s) (idx mod 2 ^ 32) (Block.blk_hash b) (Block.blk_number b) (from s) (to (tx s)) (tr_contract r)
    (tr_gas_used r) (tr_effective_price r).

(** One transaction of the loop. *)
Definition execute_one (fuel : nat) (b : Blk) (s : SignedTransaction) (c : option StakingCtx) (v : View)
    : fueled (TxResult * (option StakingCtx * View)) :=
  let h := Block.header b in
  match c with
  | Some sc =>
      if is_staking_destination (to (tx s)) then
        x ← lift (execute_staking_tx s h sc v); fret (x.1, (Some x.2.1, x.2.2))
      else x ← execute_tx fuel s h v; fret (x.1, (c, x.2))
  | None => x ← execute_tx fuel s h v; fret (x.1, (c, x.2))
  end.

Record LoopState := mkLoop {
  l_cumulative : Z;
  l_receipts : list TransactionReceipt;
  l_staking : option StakingCtx;
  l_view : View
}.

Fixpoint tx_loop (fuel : nat) (b : Blk) (idx : Z) (txs : list SignedTransaction) (l : LoopState) : fueled LoopState :=
  match txs with
  | [] => fret l
  | s :: rest =>
      x ← execute_one fuel b s (l_staking l) (l_view l);
      let r := x.1 in
      let cumulative := wrap64 (l_cumulative l + tr_gas_used r) in
      let v := pay_validator (Block.header b) r x.2.2 in
      tx_loop fuel b (idx + 1) rest
        (mkLoop cumulative (l_receipts l ++ [make_receipt b idx cumulative s r]) x.2.1 v)
  end.

Definition pay_reward (b : Blk) (v : View) : View :=
  let reward := block_reward_at (Block.blk_number b) in
  if 0 <? reward then credit (Block.coinbase (Block.header b)) reward v else v.

Record ExecutionResult := mkExec {
  receipts : list TransactionReceipt;
  state_diff : StateDiff Log;
  ex_gas_used : Z;
  new_state_root : bytes;
  ex_transactions_root : bytes;
  receipts_root : bytes;
  ex_logs_bloom : bytes;
  staking : option StakingCtx
}.

Section Root.
Context {D : Type} `{!Trie.TrieDB D}.

Definition final_root (d : option D) (v : View) : outcome ExecutionError bytes :=
  match d with
  | Some d => match (StateRoot.view_state_root_with_db v d).1 with
              | Ok r => Ok r
              | Err e => Err (StateError (TrieFailed e))
              | Panic => Panic
              end
  | None => match StateRoot.view_state_root v with Ok r => Ok r | _ => Panic end
  end.

Definition execute_inner (fuel : nat) (b : Blk) (v : View) (d : option D) (c : option StakingCtx)
    : fueled ExecutionResult :=
  let h := Block.header b in
  if Block.BLOCK_GAS_LIMIT <? Block.gas_limit h
  then Some (Err (GasLimitAboveMax (Block.gas_limit h) Block.BLOCK_GAS_LIMIT)) else
  l ← tx_loop fuel b 0 (Block.transactions (Block.body b)) (mkLoop 0 [] c v);
  let v' := pay_reward b (l_view l) in
  r ← lift (final_root d v');
  fret (mkExec (l_receipts l) (into_diff v') (l_cumulative l) r (compute_tx_root (Block.transactions (Block.body b)))
          (compute_receipts_root (l_receipts l)) (aggregate_block_bloom (l_receipts l)) (l_staking l)).

Definition execute_with_db (fuel : nat) (b : Blk) (v : View) (d : D) : fueled ExecutionResult :=
  execute_inner fuel b v (Some d) None.

Definition execute_with_staking (fuel : nat) (b : Blk) (v : View) (d : D) (vs : ValidatorSet)
    (pipeline : option SlashingPipeline) : fueled ExecutionResult :=
  execute_inner fuel b v (Some d) (Some (mkStakingCtx vs pipeline delta_new)).

End Root.

#[local] Existing Instance Trie.memory_trie_db.

Definition execute (fuel : nat) (b : Blk) (v : View) : fueled ExecutionResult :=
  execute_inner (D := Trie.MemoryTrieDB) fuel b v None None.

End Exec.

(** ** Money *)

(** Accounts with non-negative balances and 64-bit nonces, none of them run by
    the ZVM. *)
Definition good_acct (s : AccountState) : Prop := 0 ≤ acct_balance s ∧ is_u64 (acct_nonce s) ∧ vm s = Evm.

Record plain (v : View) : Prop := {
  pl_dead : sv_to_delete v = ∅;
  pl_good : map_Forall (fun _ s => good_acct s) (view_visible v)
}.

Lemma supply_bound w a : map_Forall (fun _ s => good_acct s) w → 0 ≤ acct_balance (w_get w a) ≤ supply w.
Proof. intros Hg. apply supply_covers. eapply map_Forall_impl; [exact Hg|]. by intros ? ? []. Qed.

Lemma good_get v a : plain v → good_acct (get_account v a).
Proof.
  intros [_ Hg]. rewrite view_get_visible. unfold w_get. destruct (view_visible v !! a) as [x|] eqn:E; [by apply (Hg a x)|].
  split_and!; [done|unfold is_u64; cbn; lia|done].
Qed.

Lemma bal_bound v a : plain v → 0 ≤ bal v a ≤ view_supply v.
Proof. intros [_ Hg]. unfold bal. rewrite view_get_visible. by apply supply_bound. Qed.

(** A change [δ] of balances and [ν] of nonces that adds [d] to the supply. *)
Record moved (v v' : View) (δ ν : address → Z) (d : Z) : Prop := {
  mv_plain : plain v';
  mv_base : base v' = base v;
  mv_bal : ∀ b, bal v' b = bal v b + δ b;
  mv_non : ∀ b, non v' b = non v b + ν b;
  mv_supply : view_supply v' = view_supply v + d
}.

Definition at_addr (a : address) (x : Z) (b : address) : Z := if decide (b = a) then x else 0.

Lemma moved_trans v1 v2 v3 δ1 δ2 ν1 ν2 d1 d2 :
  moved v1 v2 δ1 ν1 d1 → moved v2 v3 δ2 ν2 d2 →
  moved v1 v3 (fun b => δ1 b + δ2 b) (fun b => ν1 b + ν2 b) (d1 + d2).
Proof.
  intros [_ E1 B1 N1 S1] [P2 E2 B2 N2 S2].
  split; [done|congruence|intros b; rewrite B2, B1; lia|intros b; rewrite N2, N1; lia|lia].
Qed.

Lemma moved_refl v : plain v → moved v v (fun _ => 0) (fun _ => 0) 0.
Proof. intros Hp. split; [done|done|..]; intros; lia. Qed.

Lemma moved_ext v v' δ ν d δ' ν' d' :
  moved v v' δ ν d → (∀ b, δ b = δ' b) → (∀ b, ν b = ν' b) → d = d' → moved v v' δ' ν' d'.
Proof. intros [P E B N S] E1 E2 ->. split; [done|done|..]; intros; rewrite <- ?E1, <- ?E2; auto. Qed.

Lemma guarded_vm prior s : vm (guarded prior s) = vm s.
Proof. unfold guarded. by repeat case_if. Qed.

Lemma set_account_moved v a s :
  plain v → good_acct s → non v a ≤ acct_nonce s →
  moved v (set_account a s v) (at_addr a (acct_balance s - bal v a)) (at_addr a (acct_nonce s - non v a))
    (acct_balance s - bal v a).
Proof.
  intros Hp (Hb & Hn & Hv) Hmono. pose proof Hp as [Hd Hg].
  assert (view_visible (set_account a s v) = <[a := guarded (get_account v a) s]> (view_visible v)) as E.
  { rewrite view_get_visible. rewrite <- w_write_guarded. apply (view_step_refines v (OpSet a s)). cbn. unfold is_u64 in Hn. lia. }
  assert (∀ b, get_account (set_account a s v) b = if decide (b = a) then guarded (get_account v a) s else get_account v b) as G.
  { intros b. rewrite !view_get_visible, E. unfold w_get at 1. destruct (decide (b = a)) as [->|].
    - rewrite lookup_insert_eq. cbn. by rewrite view_get_visible.
    - by rewrite lookup_insert_ne. }
  split.
  - split.
    + unfold set_account. rewrite Hd. by rewrite bool_decide_eq_false_2.
    + rewrite E. apply map_Forall_insert_2; [|done]. destruct (good_get v a Hp) as (_ & Hn' & _).
      split_and!; [by rewrite guarded_balance| |by rewrite guarded_vm]. rewrite guarded_nonce.
      unfold is_u64 in *. lia.
  - unfold set_account. by case_bool_decide.
  - intros b. unfold bal, at_addr. rewrite G. destruct (decide (b = a)) as [->|]; [rewrite guarded_balance|]; lia.
  - intros b. unfold non, at_addr in *. rewrite G. destruct (decide (b = a)) as [->|]; [rewrite guarded_nonce|]; lia.
  - unfold view_supply. rewrite E, supply_insert, <- view_get_visible, guarded_balance. unfold bal. lia.
Qed.

Lemma saturate_small x : 0 ≤ x < U128 → saturate_u128 x = x.
Proof.
  unfold U128. intros Hx. unfold saturate_u128, u256_bits. rewrite Z.mod_small by lia.
  destruct (Z.eqb_spec x 0) as [->|]; [done|]. pose proof (proj1 (Z.log2_lt_pow2 x 128 ltac:(lia)) ltac:(lia)). dec_bool. done.
Qed.

Lemma balance_small v a : plain v → view_supply v < U128 → balance_u128 (get_account v a) = bal v a.
Proof. intros Hp Hs. pose proof (bal_bound v a Hp). apply saturate_small. unfold bal in *. lia. Qed.

Lemma credit_moved v a wei :
  plain v → 0 ≤ wei → view_supply v + wei < U128 →
  moved v (credit a wei v) (at_addr a wei) (fun _ => 0) wei.
Proof.
  intros Hp Hw Hs. unfold credit. rewrite balance_small by (done || lia). pose proof (bal_bound v a Hp).
  unfold saturating_add128. rewrite Z.min_l by (unfold U128, U128_MAX in *; lia).
  destruct (good_get v a Hp) as (Hb & Hn & Hv).
  eapply moved_ext; [apply set_account_moved; [done| |]| | |]; cbn.
  - split_and!; cbn; [lia|done|done].
  - done.
  - intros b. unfold at_addr. case_decide; lia.
  - intros b. unfold at_addr, non. case_decide; lia.
  - lia.
Qed.

(** ** The effect of one transaction *)

(** A creation that does not ask for the ZVM. *)
Definition evm_only (s : SignedTransaction) : Prop :=
  to (tx s) = None → head (data (tx s)) ≠ Some ZVM_DEPLOY_DISCRIMINATOR.

Definition fee_paid (s : SignedTransaction) (r : TxResult) : Z :=
  Z.min (max_cost s) (tr_gas_used r * tr_effective_price r).

Lemma cost_nonneg s : wf_tx (tx s) → 0 ≤ max_cost s ∧ 0 ≤ value_u128 s.
Proof.
  intros W. destruct (wt_fee _ W), (wt_gas _ W). split; [unfold max_cost; nia|].
  unfold value_u128, wrap128. apply Z.mod_pos_bound. unfold U128. lia.
Qed.

Lemma preflight_moved s v v' :
  plain v → view_supply v < U128_MAX → wf_tx (tx s) → preflight s v = Ok v' →
  let c := max_cost s + value_u128 s in
  moved v v' (at_addr (from s) (- c)) (at_addr (from s) 1) (- c) ∧
  non v (from s) = nonce (tx s) ∧ c ≤ bal v (from s) ∧ intrinsic_gas (tx s) ≤ gas_limit (tx s).
Proof.
  intros Hp Hs W. destruct (cost_nonneg s W) as [Hc Hv]. pose proof (bal_bound v (from s) Hp) as Hb.
  destruct (good_get v (from s) Hp) as (_ & Hn & Hvm).
  assert (view_supply v < U128) as Hs' by (unfold U128, U128_MAX in *; lia).
  unfold preflight. rewrite balance_small by done. destruct (negb _) eqn:Hnon; [done|].
  destruct (Z.ltb_spec (bal v (from s)) (total_cost s)) as [|Hle]; [done|].
  destruct (Z.ltb_spec (gas_limit (tx s)) (intrinsic_gas (tx s))) as [|Hi]; [done|].
  unfold total_cost, saturating_add128 in Hle. rewrite Z.min_l in Hle by lia.
  unfold wrap128. rewrite Z.mod_small by (unfold U128, U128_MAX in *; lia).
  unfold saturating_sub. rewrite Z.max_r by lia. unfold increment_nonce. cbn [acct_nonce set_balance_u128].
  destruct (checked_add64 _ 1) as [n|] eqn:En; [|done]. intros [= <-]. apply negb_false_iff, Z.eqb_eq in Hnon.
  unfold checked_add64 in En. case_if; [|done]. injection En as <-. unfold is_u64, non, U64_MAX in *.
  split_and!; [|done|done|done].
  eapply moved_ext; [apply set_account_moved; [done|split_and!; cbn; [lia|unfold is_u64; lia|done]|cbn; unfold non; lia]|..];
    cbn; unfold at_addr, non; intros; try case_decide; lia.
Qed.

(** What the executor relies on of the staking crate: a call moves balances
    without creating or destroying any, changes no nonce and no code, and
    gas is not negative. *)
Class StakingLaws `{StakingOps} := {
  dispatch_moves call who value h vs d v : plain v → view_supply v < U128 →
    let x := dispatch_staking_tx call who value h vs d v in
    (∃ δ, moved v x.2.2 δ (fun _ => 0) 0) ∧ (∀ g, x.1 = Ok g → 0 ≤ g) ∧ codes x.2.2 = codes v;
  appeal_gas id who value h p g : (dispatch_file_appeal_tx id who value h p).1 = Ok g → 0 ≤ g
}.

Section Effects.
Context `{KO : KeccakOk} `{PO : PrecompilesOk} `{ZvmInterp.ZvmPrecompiles} `{HP : ZvmBase.Heap}.

Lemma resolve_moved s v t v' :
  plain v → evm_only s → resolve_target s v = (t, v') →
  moved v v' (fun _ => 0) (fun _ => 0) 0 ∧ t_vm t = Evm ∧
  t_contract t = (match to (tx s) with None => Some (new_contract_address s) | Some _ => None end).
Proof.
  intros Hp Hev. unfold resolve_target, evm_only in *. destruct (to (tx s)) as [a|].
  - destruct (good_get v a Hp) as (_ & _ & Hvm). case_if; intros [= <- <-]; split_and!; try done; by apply moved_refl.
  - rewrite bool_decide_eq_false_2 by auto. intros [= <- <-]. split_and!; [|done..].
    unfold persist_code. destruct (data (tx s)) as [|x d] eqn:Ed; [by apply moved_refl|].
    set (w := view_seed_code _ _ _). set (a := new_contract_address s).
    assert (plain w) as Hw by (destruct Hp; by split).
    destruct (good_get w a Hw) as (Hb & Hn & Hvm).
    assert (moved w (set_account a (with_code_hash (keccak256 (x :: d)) (get_account w a)) w) (fun _ => 0) (fun _ => 0) 0)
      as [P E B N S]; [|by split].
    eapply moved_ext; [apply set_account_moved; [done|by split_and!|done]|..]; cbn; unfold at_addr, bal, non;
      intros; try case_decide; lia.
Qed.

Lemma run_target_view fuel s h t v r :
  t_vm t = Evm → run_target fuel s h t v = Some (Ok r) → r_view r = v ∧ 0 ≤ r_gas r.
Proof.
  intros Hvm. unfold run_target. rewrite Hvm. case_if; [|case_if].
  - unfold run_precompile. pose proof (call_precompile_ok (byte_at (t_callee t) 19) (data (tx s)) (forwarded_gas s)) as Hok.
    destruct (call_precompile _ _ _) as [[o u]|e|]; intros [= <-]; cbn in *; split; try done; [by destruct Hok as [_ []]|].
    unfold forwarded_gas, saturating_sub. lia.
  - by intros [= <-].
  - unfold run_evm. destruct (run _ _) as [[st i|]|]; [|done..]. intros [= <-]. cbn. split; [done|].
    unfold EvmInterp.gas_used, saturating_sub. lia.
Qed.

Lemma intrinsic_u64 t : is_u64 (intrinsic_gas t).
Proof. unfold intrinsic_gas, is_u64. apply Z.mod_pos_bound. lia. Qed.

Lemma gas_bounds s g : 0 ≤ g → intrinsic_gas (tx s) ≤ gas_limit (tx s) →
  intrinsic_gas (tx s) ≤ tx_gas_used s g ≤ gas_limit (tx s).
Proof.
  intros Hg Hi. destruct (intrinsic_u64 (tx s)). unfold tx_gas_used, saturating_add64, U64_MAX in *. lia.
Qed.

(** Who receives the value of a successful transaction. *)
Definition recipient (s : SignedTransaction) : address := default (new_contract_address s) (to (tx s)).

Lemma settle_value_moved s success t v :
  plain v → wf_tx (tx s) → view_supply v + value_u128 s < U128 → t_vm t = Evm →
  t_contract t = (match to (tx s) with None => Some (new_contract_address s) | Some _ => None end) →
  moved v (settle_value s success t v)
    (at_addr (if success then recipient s else from s) (value_u128 s)) (fun _ => 0) (value_u128 s).
Proof.
  intros Hp W Hs Hvm Hc. destruct (cost_nonneg s W) as [_ Hv]. unfold settle_value, recipient.
  destruct success; [|by apply credit_moved]. rewrite Hc. destruct (to (tx s)) as [a|]; cbn [default]; [by apply credit_moved|].
  unfold fund_contract, is_deleted. set (a := new_contract_address s).
  rewrite (pl_dead v Hp), bool_decide_eq_false_2, Hvm by set_solver.
  destruct (Z.ltb_spec 0 (value_u128 s)) as [Hpos|Hz]; [by apply credit_moved|].
  destruct (good_get v a Hp) as (Hb & Hn & Hvm'). cbn.
  eapply moved_ext; [apply set_account_moved; [done|by split_and!|done]|..]; unfold at_addr, bal, non;
    intros; try case_decide; lia.
Qed.

(** The exact effect of an executed transaction on every account. *)
Lemma execute_tx_moved fuel s h v r v' :
  plain v → view_supply v < U128_MAX → wf_tx (tx s) → evm_only s →
  execute_tx fuel s h v = Some (Ok (r, v')) →
  let moved_value := if tr_success r then value_u128 s else 0 in
  moved v v' (fun b => at_addr (recipient s) moved_value b - at_addr (from s) (fee_paid s r + moved_value) b)
    (at_addr (from s) 1) (- fee_paid s r) ∧
  intrinsic_gas (tx s) ≤ tr_gas_used r ≤ gas_limit (tx s) ∧
  tr_effective_price r = effective_gas_price s (Block.base_fee_per_gas h) ∧
  non v (from s) = nonce (tx s) ∧ fee_paid s r + moved_value ≤ bal v (from s).
Proof.
  intros Hp Hs W Hev E. unfold execute_tx in E. destruct (cost_nonneg s W) as [Hc Hv].
  destruct (preflight s v) as [v1|e|] eqn:E1; [|done..]. cbn [lift fbind] in E.
  destruct (preflight_moved s v v1 Hp Hs W E1) as (M1 & Hnon & Hcost & Hint).
  destruct (resolve_target s v1) as [t v2] eqn:E2.
  destruct (resolve_moved s v1 t v2 (mv_plain _ _ _ _ _ M1) Hev E2) as (M2 & Hvm & Hct).
  destruct (run_target fuel s h t v2) as [[ro|e|]|] eqn:E3; [|done..]. cbn [fbind fret] in E. injection E as <- <-.
  destruct (run_target_view fuel s h t v2 ro Hvm E3) as [-> Hg]. cbn [tr_success tr_gas_used tr_effective_price].
  destruct (gas_bounds s (r_gas ro) Hg Hint) as [Hg1 Hg2].
  set (gas := tx_gas_used s (r_gas ro)) in *. set (price := effective_gas_price s _).
  assert (0 ≤ gas * price) as Hfee.
  { destruct (intrinsic_u64 (tx s)). unfold price, effective_gas_price, wrap64. 
    pose proof (Z.mod_pos_bound (Block.base_fee_per_gas h + Z.min (max_priority_fee_per_gas (tx s))
      (saturating_sub (max_fee_per_gas (tx s)) (Block.base_fee_per_gas h))) (2 ^ 64) ltac:(lia)). nia. }
  set (refund := saturating_sub (max_cost s) (gas * price)).
  assert (0 ≤ refund ≤ max_cost s) as Hrf by (unfold refund, saturating_sub; lia).
  destruct M1 as [P1 D1 B1 N1 S1], M2 as [P2 D2 B2 N2 S2]. pose proof (bal_bound v (from s) Hp) as Hb.
  assert (view_supply v2 + refund < U128) as Hs2 by (unfold U128, U128_MAX in *; lia).
  destruct (credit_moved v2 (from s) refund P2 ltac:(lia) Hs2) as [P3 D3 B3 N3 S3].
  destruct (settle_value_moved s (is_succeeded (r_status ro)) t (credit (from s) refund v2) P3 W) as [P4 D4 B4 N4 S4];
    [unfold U128, U128_MAX in *; lia|done|done|].
  unfold settle_fee. fold refund. unfold fee_paid. cbn [tr_gas_used tr_effective_price]. fold gas price.
  assert (Z.min (max_cost s) (gas * price) = max_cost s - refund) as Emin by (unfold refund, saturating_sub; lia).
  rewrite Emin. split; [split; [done|congruence|..]|]; [..|split_and!; [lia|lia|done|done|]].
  - intros b. rewrite B4, B3, B2, B1. unfold at_addr. destruct (is_succeeded _); repeat case_decide; lia.
  - intros b. rewrite N4, N3, N2, N1. lia.
  - rewrite S4, S3, S2, S1. lia.
  - destruct (is_succeeded _); lia.
Qed.

(** ** The effect of a block *)

Definition gas_sum (rs : list TransactionReceipt) : Z := foldr (fun r acc => rc_gas_used r + acc) 0 rs.
Definition sent_by (a : address) (txs : list SignedTransaction) : Z :=
  foldr (fun s acc => at_addr (from s) 1 a + acc) 0 txs.

Lemma gas_sum_nonneg txs rs :
  Forall2 (fun s r => intrinsic_gas (tx s) ≤ rc_gas_used r ≤ gas_limit (tx s)) txs rs → 0 ≤ gas_sum rs.
Proof. induction 1 as [|s r txs rs Hg _ IH]; [done|]. cbn. fold (gas_sum rs). destruct (intrinsic_u64 (tx s)). lia. Qed.

(** A transaction of an EVM block whose fee cap reaches the base fee. *)
Definition regular (h : Block.BlockHeader) (s : SignedTransaction) : Prop :=
  wf_tx (tx s) ∧ evm_only s ∧ Block.base_fee_per_gas h ≤ max_fee_per_gas (tx s).

Lemma price_bounds s bf : wf_tx (tx s) → 0 ≤ bf ≤ max_fee_per_gas (tx s) →
  bf ≤ effective_gas_price s bf ≤ max_fee_per_gas (tx s).
Proof.
  intros W Hb. destruct (wt_fee _ W), (wt_prio _ W). unfold effective_gas_price, saturating_sub, wrap64.
  rewrite Z.mod_small; lia.
Qed.

Context `{RlpCrate} `{StakingOps} `{!StakingLaws} `{StateRoot.MapIter}.

Lemma price_nonneg s bf : 0 ≤ effective_gas_price s bf.
Proof. unfold effective_gas_price, wrap64. apply Z.mod_pos_bound. lia. Qed.

Lemma dispatch_call_moved s h c v success g c' v' : plain v → view_supply v < U128 →
  dispatch_call s h c v = Ok ((success, g), (c', v')) → (∃ δ, moved v v' δ (fun _ => 0) 0) ∧ 0 ≤ g.
Proof.
  intros Hp Hs E. assert ((∃ δ, moved v v δ (fun _ => 0) 0) ∧ 0 ≤ 0) as Hr by (split; [eexists; by apply moved_refl|done]). unfold dispatch_call in E.
  destruct (decode_staking_call _) as [call|e|]; [|by simplify_eq|done]. destruct (file_appeal_id call) as [id|].
  - destruct (sc_pipeline c) as [pl|]; [|by simplify_eq].
    destruct (dispatch_file_appeal_tx _ _ _ _ _) as [[g'|e|] p'] eqn:Ed; simplify_eq; [|done].
    split; [apply Hr|]. eapply appeal_gas. by rewrite Ed.
  - destruct (dispatch_moves call (from s) (value_u128 s) (Block.number h) (sc_vs c) (sc_delta c) v Hp Hs) as (HM & Hg & _).
    destruct (dispatch_staking_tx _ _ _ _ _ _ _) as [[g'|e|] [[vs d] w]] eqn:Ed; simplify_eq; cbn [fst snd] in *; split; [done|by apply Hg|done|done].
Qed.

(** A staking call moves value between accounts and pays its fee. *)
Lemma execute_staking_moved s h c v r c' v' :
  plain v → view_supply v < U128_MAX → wf_tx (tx s) → execute_staking_tx s h c v = Ok (r, (c', v')) →
  (∃ δ, moved v v' δ (at_addr (from s) 1) (- fee_paid s r)) ∧
  intrinsic_gas (tx s) ≤ tr_gas_used r ≤ gas_limit (tx s) ∧
  tr_effective_price r = effective_gas_price s (Block.base_fee_per_gas h) ∧ fee_paid s r ≤ view_supply v.
Proof.
  intros Hp Hs W E. unfold execute_staking_tx in E. destruct (cost_nonneg s W) as [Hc Hv].
  destruct (preflight s v) as [v1|e|] eqn:E1; [|done..]. cbn [outcome_bind] in E.
  destruct (preflight_moved s v v1 Hp Hs W E1) as (M1 & _ & Hcost & Hint). pose proof (bal_bound v (from s) Hp) as Hb.
  assert (view_supply v1 < U128) as Hs1 by (rewrite (mv_supply _ _ _ _ _ M1); unfold U128, U128_MAX in *; lia).
  destruct (dispatch_call s h c v1) as [[[success g] [c1 v2]]|e|] eqn:E2; [|done..]. cbn [outcome_bind] in E. injection E as <- <- <-.
  destruct (dispatch_call_moved s h c v1 success g c1 v2 (mv_plain _ _ _ _ _ M1) Hs1 E2) as ((δ & M2) & Hg). cbn [tr_gas_used tr_effective_price].
  destruct (gas_bounds s g Hg Hint) as [Hg1 Hg2]. set (gas := tx_gas_used s g) in *. set (price := effective_gas_price s _).
  assert (0 ≤ gas * price) as Hfee by (pose proof (price_nonneg s (Block.base_fee_per_gas h)); destruct (intrinsic_u64 (tx s)); unfold price; nia).
  unfold fee_paid. cbn [tr_gas_used tr_effective_price]. unfold settle_fee. set (refund := saturating_sub (max_cost s) (gas * price)).
  assert (0 ≤ refund ≤ max_cost s ∧ Z.min (max_cost s) (gas * price) = max_cost s - refund) as [Hrf ->] by (unfold refund, saturating_sub; lia).
  pose proof (moved_trans _ _ _ _ _ _ _ _ _ M1 M2) as M12. pose proof (mv_supply _ _ _ _ _ M12) as S2.
  pose proof (credit_moved v2 (from s) refund (mv_plain _ _ _ _ _ M2) ltac:(lia) ltac:(unfold U128, U128_MAX in *; lia)) as M3.
  pose proof (mv_supply _ _ _ _ _ M3) as S3. set (v3 := credit (from s) refund v2) in *.
  set (v4 := if success then _ else _). assert (∃ δ', moved v3 v4 δ' (fun _ => 0) (value_u128 s)) as (δ' & M4).
  { assert (∀ a, moved v3 (credit a (value_u128 s) v3) (at_addr a (value_u128 s)) (fun _ => 0) (value_u128 s)) as Hcr.
    { intros a. apply credit_moved; [apply M3|done|]. unfold U128, U128_MAX in *. lia. }
    unfold v4. destruct success; [|eauto]. destruct (Z.ltb_spec 0 (value_u128 s)); [eauto|].
    exists (fun _ => 0). eapply moved_ext; [apply moved_refl, M3|done|done|lia]. }
  split; [|split_and!; [done|done|done|lia]]. eexists. eapply moved_ext; [eapply moved_trans; [exact M12|eapply moved_trans; [exact M3|exact M4]]|done| |lia].
  intros a. cbn beta. lia.
Qed.

(** A transaction and the payment of its tip. *)
Lemma execute_one_moved fuel (b : Block.Block SignedTransaction) s v r c0 c v' :
  plain v → view_supply v < U128_MAX → 0 ≤ Block.base_fee_per_gas (Block.header b) → regular (Block.header b) s →
  execute_one fuel b s c0 v = Some (Ok (r, (c, v'))) →
  let v'' := pay_validator (Block.header b) r v' in
  plain v'' ∧ base v'' = base v ∧ (∀ a, non v'' a = non v a + at_addr (from s) 1 a) ∧
  view_supply v'' = view_supply v - Block.base_fee_per_gas (Block.header b) * tr_gas_used r ∧
  intrinsic_gas (tx s) ≤ tr_gas_used r ≤ gas_limit (tx s) ∧ (∀ a, bal v' a ≤ bal v'' a).
Proof.
  intros Hp Hs Hbf (W & Hev & Hfee) E.
  assert ((∃ δ, moved v v' δ (at_addr (from s) 1) (- fee_paid s r)) ∧ intrinsic_gas (tx s) ≤ tr_gas_used r ≤ gas_limit (tx s) ∧
    tr_effective_price r = effective_gas_price s (Block.base_fee_per_gas (Block.header b)) ∧ fee_paid s r ≤ view_supply v)
    as ((δ & [P D B N S]) & Hg & Hpr & Hpay).
  { assert (∀ v0, execute_tx fuel s (Block.header b) v = Some (Ok (r, v0)) → v' = v0 → (∃ δ, moved v v' δ (at_addr (from s) 1) (- fee_paid s r)) ∧
      intrinsic_gas (tx s) ≤ tr_gas_used r ≤ gas_limit (tx s) ∧
      tr_effective_price r = effective_gas_price s (Block.base_fee_per_gas (Block.header b)) ∧ fee_paid s r ≤ view_supply v) as Hx.
    { intros v0 Et ->. destruct (execute_tx_moved fuel s (Block.header b) v r v0 Hp Hs W Hev Et) as (M & Hg & Hpr & _ & Hpay).
      split_and!; [eauto|apply Hg|apply Hg|done|]. pose proof (bal_bound v (from s) Hp). destruct (cost_nonneg s W). destruct (tr_success r); lia. }
    unfold execute_one in E. destruct c0 as [sc|]; [destruct (is_staking_destination (to (tx s)))|].
    - destruct (execute_staking_tx s (Block.header b) sc v) as [[r0 [c1 v0]]|e|] eqn:Et; [|done..]. cbn in E. injection E as -> _ ->.
      by eapply execute_staking_moved.
    - destruct (execute_tx fuel s (Block.header b) v) as [[[r0 v0]|e|]|] eqn:Et; [|done..]. cbn in E. injection E as -> _ ->. by eapply Hx.
    - destruct (execute_tx fuel s (Block.header b) v) as [[[r0 v0]|e|]|] eqn:Et; [|done..]. cbn in E. injection E as -> _ ->. by eapply Hx. }
  destruct (price_bounds s _ W (conj Hbf Hfee)) as [Hlo Hhi]. rewrite <- Hpr in Hlo, Hhi.
  destruct (intrinsic_u64 (tx s)) as [Hi _]. set (bf := Block.base_fee_per_gas (Block.header b)) in *.
  assert (fee_paid s r = tr_gas_used r * tr_effective_price r) as Ef by (unfold fee_paid, max_cost; nia).
  assert (0 ≤ view_supply v') by (pose proof (bal_bound v' (from s) P); lia).
  unfold pay_validator. fold bf. unfold saturating_sub. rewrite Z.max_r by lia.
  destruct (credit_moved v' (Block.coinbase (Block.header b)) ((tr_effective_price r - bf) * tr_gas_used r) P) as [P' D' B' N' S'];
    [nia|unfold U128, U128_MAX in *; nia|].
  split_and!; [done|congruence| |lia|lia|lia|].
  - intros a. rewrite N', N. lia.
  - intros a. rewrite B'. unfold at_addr. case_decide; nia.
Qed.

Lemma tx_loop_moved fuel (b : Block.Block SignedTransaction) txs idx l l' :
  plain (l_view l) → view_supply (l_view l) < U128_MAX → 0 ≤ Block.base_fee_per_gas (Block.header b) →
  Forall (regular (Block.header b)) txs → is_u64 (l_cumulative l) →
  tx_loop fuel b idx txs l = Some (Ok l') →
  ∃ rs, l_receipts l' = l_receipts l ++ rs ∧ plain (l_view l') ∧ base (l_view l') = base (l_view l) ∧
    view_supply (l_view l') = view_supply (l_view l) - Block.base_fee_per_gas (Block.header b) * gas_sum rs ∧
    (∀ a, non (l_view l') a = non (l_view l) a + sent_by a txs) ∧
    Forall2 (fun s r => intrinsic_gas (tx s) ≤ rc_gas_used r ≤ gas_limit (tx s)) txs rs ∧
    l_cumulative l' = wrap64 (l_cumulative l + gas_sum rs).
Proof.
  intros Hp Hs Hbf Hr. revert idx l Hp Hs. induction Hr as [|s txs Hs0 Hr IH]; intros idx l Hp Hs Hcu E.
  { injection E as <-. exists []. rewrite app_nil_r. split_and!; try done; [cbn; lia|intros; cbn; lia|].
    cbn. rewrite Z.add_0_r. unfold wrap64. by rewrite Z.mod_small. }
  cbn [tx_loop] in E.
  destruct (execute_one fuel b s (l_staking l) (l_view l)) as [[[r [c v']]|e|]|] eqn:E1; [|done..]. cbn [fbind fst snd] in E.
  destruct (execute_one_moved fuel b s (l_view l) r _ c v' Hp Hs Hbf Hs0 E1) as (P & D & N & S & Hg & _).
  destruct (intrinsic_u64 (tx s)) as [Hi _].
  apply IH in E as (rs & ER & P' & D' & S' & N' & F & C); [|done| |].
  - exists (make_receipt b idx (wrap64 (l_cumulative l + tr_gas_used r)) s r :: rs). cbn [l_receipts l_view l_cumulative] in *.
    split_and!; [by rewrite ER, <- app_assoc|done|congruence| | |by constructor|].
    + rewrite S', S. cbn [gas_sum foldr rc_gas_used make_receipt]. fold (gas_sum rs). lia.
    + intros a. rewrite N', N. cbn [sent_by foldr]. fold (sent_by a txs). lia.
    + rewrite C. cbn [gas_sum foldr rc_gas_used make_receipt]. fold (gas_sum rs). unfold wrap64.
      rewrite Zplus_mod_idemp_l. f_equal. lia.
  - cbn. nia.
  - cbn. unfold is_u64, wrap64. apply Z.mod_pos_bound. lia.
Qed.

Lemma reward_nonneg n : 0 ≤ block_reward_at n.
Proof. unfold block_reward_at. case_if; [done|]. apply Z.shiftr_nonneg. unfold INITIAL_BLOCK_REWARD. lia. Qed.

Lemma pay_reward_moved (b : Block.Block SignedTransaction) v :
  plain v → view_supply v + block_reward_at (Block.blk_number b) < U128 →
  ∃ δ, moved v (pay_reward b v) δ (fun _ => 0) (block_reward_at (Block.blk_number b)).
Proof.
  intros Hp Hs. pose proof (reward_nonneg (Block.blk_number b)). unfold pay_reward.
  destruct (Z.ltb_spec 0 (block_reward_at (Block.blk_number b))) as [Hpos|Hz].
  - eexists. by apply credit_moved.
  - eexists. eapply moved_ext; [by apply moved_refl|done|done|lia].
Qed.

Lemma plain_world v : plain v → view_visible v = accounts (diffs v) ∪ base v.
Proof. intros [Hd _]. unfold view_visible. rewrite Hd. apply map_filter_id. set_solver. Qed.

(** Everything a block of regular transactions does to the ledger. *)
Lemma execute_inner_effects {D} `{!Trie.TrieDB D} fuel (b : Block.Block SignedTransaction) v (d : option D) c r :
  plain v → view_supply v + block_reward_at (Block.blk_number b) < U128_MAX →
  0 ≤ Block.base_fee_per_gas (Block.header b) →
  Forall (regular (Block.header b)) (Block.transactions (Block.body b)) →
  execute_inner fuel b v d c = Some (Ok r) →
  let w' := accounts (state_diff r) ∪ base v in
  supply w' = view_supply v + block_reward_at (Block.blk_number b)
              - Block.base_fee_per_gas (Block.header b) * gas_sum (receipts r) ∧
  (∀ a, acct_nonce (w_get w' a) = non v a + sent_by a (Block.transactions (Block.body b))) ∧
  Forall2 (fun s r => intrinsic_gas (tx s) ≤ rc_gas_used r ≤ gas_limit (tx s))
    (Block.transactions (Block.body b)) (receipts r) ∧
  ex_gas_used r = wrap64 (gas_sum (receipts r)).
Proof.
  intros Hp Hs Hbf Hr E. unfold execute_inner in E. case_if; [done|].
  pose proof (reward_nonneg (Block.blk_number b)) as Hrw.
  destruct (tx_loop _ _ _ _ _) as [[l|e|]|] eqn:El; [|done..]. cbn [fbind] in E.
  destruct (final_root d _) as [rt|e|]; [|done..]. cbn [lift fbind fret] in E. injection E as <-.
  apply tx_loop_moved in El as (rs & ER & P & D0 & S & N & F & C); cbn [l_view l_receipts l_cumulative l_staking] in *;
    [|done|lia|done|done|unfold is_u64; lia].
  rewrite app_nil_l in ER. cbn [receipts state_diff ex_gas_used]. rewrite ER.
  pose proof (gas_sum_nonneg _ _ F) as Hgs.
  destruct (pay_reward_moved b (l_view l) P) as (δ & [P' D' B' N' S']); [unfold U128, U128_MAX in *; nia|].
  assert (accounts (into_diff (pay_reward b (l_view l))) ∪ base v = view_visible (pay_reward b (l_view l))) as Ew.
  { rewrite plain_world by done. by rewrite D', D0. }
  rewrite Ew. fold (view_supply (pay_reward b (l_view l))). split_and!; [lia| |done|done].
  intros a. rewrite <- view_get_visible. fold (non (pay_reward b (l_view l)) a). rewrite N', N. lia.
Qed.

End Effects.

(** ** Enough fuel *)

(** From some fuel on, the result is there and does not change. *)
Definition settles {A} (f : nat → fueled A) (x : outcome ExecutionError A) : Prop :=
  ∃ n, ∀ m, (n ≤ m)%nat → f m = Some x.

Lemma settles_ret {A} (x : outcome ExecutionError A) : settles (fun _ => Some x) x.
Proof. by exists O. Qed.

Lemma settles_bind {A B} (f : nat → fueled A) (k : nat → A → fueled B) x :
  settles f x → (∀ a, x = Ok a → ∃ y, settles (fun m => k m a) y) → ∃ y, settles (fun m => fbind (f m) (k m)) y.
Proof.
  intros [n Hn] Hk. destruct x as [a|e|].
  - destruct (Hk a eq_refl) as (y & n' & Hn'). exists y, (n `max` n')%nat. intros m Hm.
    rewrite Hn by lia. cbn. apply Hn'. lia.
  - exists (Err e), n. intros m Hm. by rewrite Hn.
  - exists Panic, n. intros m Hm. by rewrite Hn.
Qed.

Definition wf_codes (v : View) : Prop := map_Forall (fun _ c => wf_bytes c) (codes v).

Lemma set_account_codes a s (v : View) : codes (set_account a s v) = codes v.
Proof. unfold set_account. by case_bool_decide. Qed.

Lemma credit_codes a wei v : codes (credit a wei v) = codes v.
Proof. apply set_account_codes. Qed.

Section Termination.
Context `{KO : KeccakOk} `{PO : PrecompilesOk} `{ZvmInterp.ZvmPrecompiles} `{HP : ZvmBase.Heap} `{RlpCrate} `{StakingOps} `{!StakingLaws} `{StateRoot.MapIter}.

Lemma get_code_wf v a : wf_codes v → wf_bytes (get_code v a).
Proof.
  intros Hc. unfold get_code. case_if; [by apply Forall_nil|]. destruct (codes v !! _) as [c|] eqn:E; [|by apply Forall_nil].
  by apply (Hc _ _ E).
Qed.

Lemma resolve_codes s v t v' :
  wf_codes v → wf_tx (tx s) → resolve_target s v = (t, v') →
  wf_codes v' ∧ wf_bytes (t_code t) ∧ wf_addr (t_callee t).
Proof.
  intros Hc W. unfold resolve_target. pose proof (wt_to _ W) as Hto. destruct (wt_data _ W) as [Hd _].
  destruct (to (tx s)) as [a|].
  - case_if; intros [= <- <-]; split_and!; cbn; try done; [by apply get_code_wf|by apply Forall_nil].
  - assert (∀ k code, wf_bytes code → wf_codes (persist_code (new_contract_address s) code k v)) as Hp.
    { intros k code Hw. unfold persist_code. destruct code as [|x r]; [done|]. unfold wf_codes. rewrite set_account_codes.
      cbn. by apply map_Forall_insert_2. }
    assert (wf_addr (new_contract_address s)) as Ha by (apply wf_addr_of_word, keccak_wf).
    case_bool_decide; intros [= <- <-]; split_and!; cbn; try done; [apply Hp| |by apply Hp];
      by apply wf_bytes_drop.
Qed.

(** What the interpreter needs of a transaction and its block. *)
Definition runnable (h : Block.BlockHeader) (s : SignedTransaction) : Prop :=
  regular h s ∧ wf_address (from s) ∧ wf_address (Block.coinbase h).

Lemma mock_new_inv : mock_inv mock_new.
Proof. unfold mock_inv. done. Qed.

Lemma run_evm_settles s h t v :
  wf_tx (tx s) → wf_address (from s) → wf_address (Block.coinbase h) → wf_bytes (t_code t) → wf_addr (t_callee t) →
  ∃ x, settles (fun m => run_evm m s h t v) x.
Proof.
  intros W Hf Hcb Hcode Hcal. destruct (wt_data _ W) as [Hd Hdl].
  assert (wf_ctx (evm_ctx s h t)) as Hctx.
  { split; cbn; [done|done|done|apply wf_to_word| | |].
    - unfold call_data. destruct (to (tx s)); [done|by apply Forall_nil].
    - unfold call_data. destruct (to (tx s)); cbn; lia.
    - destruct (wt_gas _ W). unfold forwarded_gas, saturating_sub, is_u64. destruct (intrinsic_u64 (tx s)). lia. }
  destruct (EvmProps.run_terminates_aux (S (Z.to_nat (forwarded_gas s))) (new_interp (evm_ctx s h t) (t_code t) mock_new))
    as (n & res & Hn); [by apply EvmProps.new_wf|apply mock_new_inv|cbn; lia|].
  exists (match res with
          | Aborted => Panic
          | Finished status i => Ok (mkRun status (EvmInterp.gas_used i) (map (receipt_log h) (i_logs i)) v)
          end).
  exists n. intros m Hm. unfold run_evm. rewrite (EvmProps.run_mono n m _ _ Hn Hm). by destruct res.
Qed.

Lemma run_target_settles s h t v :
  runnable h s → t_vm t = Evm → wf_bytes (t_code t) → wf_addr (t_callee t) →
  ∃ x, settles (fun m => run_target m s h t v) x ∧ ∀ r, x = Ok r → r_view r = v.
Proof.
  intros Hr Hvm Hcode Hcal.
  assert (∃ x, settles (fun m => run_target m s h t v) x) as (x & Hx).
  { unfold run_target. rewrite Hvm. case_if; [|case_if].
    - unfold run_precompile. destruct (call_precompile _ _ _) as [[o u]|e|]; eexists; apply settles_ret.
    - eexists. apply settles_ret.
    - destruct Hr as ((W & _) & Hf & Hcb). by apply run_evm_settles. }
  exists x. split; [done|]. intros r ->. destruct Hx as [n Hn].
  by eapply run_target_view, (Hn n).
Qed.

Lemma execute_tx_settles s h v :
  plain v → view_supply v < U128_MAX → wf_codes v → runnable h s →
  ∃ x, settles (fun m => execute_tx m s h v) x ∧ ∀ y, x = Ok y → wf_codes y.2.
Proof.
  intros Hp Hs Hc Hr. pose proof Hr as ((W & Hev & _) & _). unfold execute_tx.
  destruct (preflight s v) as [v1|e|] eqn:E1; cbn [lift fbind]; [|by exists (Err e); split; [apply settles_ret|]|
    by exists Panic; split; [apply settles_ret|]].
  destruct (preflight_moved s v v1 Hp Hs W E1) as (M1 & _).
  assert (codes v1 = codes v) as Ec.
  { unfold preflight in E1. repeat case_match; simplify_eq. apply set_account_codes. }
  destruct (resolve_target s v1) as [t v2] eqn:E2.
  destruct (resolve_moved s v1 t v2 (mv_plain _ _ _ _ _ M1) Hev E2) as (_ & Hvm & _).
  destruct (resolve_codes s v1 t v2) as (Hc2 & Hcode & Hcal); [by unfold wf_codes; rewrite Ec|done|done|].
  destruct (run_target_settles s h t v2 Hr Hvm Hcode Hcal) as (x & [n Hn] & Hv).
  destruct x as [r|e|]; [|exists (Err e)|exists Panic].
  - eexists (Ok _). split; [exists n; intros m Hm; by rewrite Hn|]. intros y [= <-]. cbn [snd]. rewrite (Hv r eq_refl).
    unfold wf_codes, settle_value, settle_fee, fund_contract.
    repeat case_match; rewrite ?set_account_codes, ?credit_codes; done.
  - split; [exists n; intros m Hm; by rewrite Hn|done].
  - split; [exists n; intros m Hm; by rewrite Hn|done].
Qed.

Lemma preflight_codes s v v' : preflight s v = Ok v' → codes v' = codes v.
Proof. unfold preflight. intros E. repeat case_match; simplify_eq. apply set_account_codes. Qed.

Lemma execute_staking_codes s h c v r c' v' : plain v → view_supply v < U128_MAX → wf_tx (tx s) →
  execute_staking_tx s h c v = Ok (r, (c', v')) → codes v' = codes v.
Proof.
  intros Hp Hs W E. unfold execute_staking_tx in E. destruct (preflight s v) as [v1|e|] eqn:E1; [|done..]. cbn [outcome_bind] in E.
  destruct (preflight_moved s v v1 Hp Hs W E1) as (M1 & _ & Hcost & _). destruct (cost_nonneg s W) as [Hc Hv]. pose proof (bal_bound v (from s) Hp).
  assert (view_supply v1 < U128) as Hs1 by (rewrite (mv_supply _ _ _ _ _ M1); unfold U128, U128_MAX in *; lia).
  destruct (dispatch_call s h c v1) as [[[success g] [c1 v2]]|e|] eqn:E2; [|done..]. cbn [outcome_bind] in E. injection E as _ _ <-.
  assert (codes v2 = codes v1) as E3.
  { unfold dispatch_call in E2. destruct (decode_staking_call _) as [call|e|]; [|by simplify_eq|done]. destruct (file_appeal_id call).
    - destruct (sc_pipeline c); [|by simplify_eq]. by destruct (dispatch_file_appeal_tx _ _ _ _ _) as [[g'|e|] p']; simplify_eq.
    - destruct (dispatch_moves call (from s) (value_u128 s) (Block.number h) (sc_vs c) (sc_delta c) v1 (mv_plain _ _ _ _ _ M1) Hs1) as (_ & _ & Hd).
      destruct (dispatch_staking_tx _ _ _ _ _ _ _) as [[g'|e|] [[vs d] w]]; by simplify_eq. }
  unfold settle_fee. repeat case_match; rewrite ?credit_codes, E3; by apply preflight_codes with s.
Qed.

Lemma execute_one_settles (b : Block.Block SignedTransaction) s c v :
  plain v → view_supply v < U128_MAX → wf_codes v → runnable (Block.header b) s →
  ∃ x, settles (fun m => execute_one m b s c v) x ∧ ∀ y, x = Ok y → wf_codes y.2.2.
Proof.
  intros Hp Hs Hc Hr.
  assert (∃ x, settles (fun m => x ← execute_tx m s (Block.header b) v; fret (x.1, (c, x.2))) x ∧ ∀ y, x = Ok y → wf_codes y.2.2) as Ht.
  { destruct (execute_tx_settles s (Block.header b) v Hp Hs Hc Hr) as (x & [n Hn] & Hx). destruct x as [y|e|].
    - exists (Ok (y.1, (c, y.2))). split; [exists n; intros m Hm; by rewrite Hn|]. intros z [= <-]. by apply Hx.
    - exists (Err e). split; [exists n; intros m Hm; by rewrite Hn|done].
    - exists Panic. split; [exists n; intros m Hm; by rewrite Hn|done]. }
  unfold execute_one. destruct c as [sc|]; [|done]. destruct (is_staking_destination _); [|done].
  destruct (execute_staking_tx s (Block.header b) sc v) as [[r [c1 v1]]|e|] eqn:E; cbn [lift fbind fret fst snd].
  - eexists (Ok _). split; [apply settles_ret|]. intros y [= <-]. cbn. unfold wf_codes. destruct Hr as ((W & _) & _).
    by rewrite (execute_staking_codes _ _ _ _ _ _ _ Hp Hs W E).
  - exists (Err e). split; [apply settles_ret|done].
  - exists Panic. split; [apply settles_ret|done].
Qed.

Lemma tx_loop_settles (b : Block.Block SignedTransaction) txs idx l :
  plain (l_view l) → view_supply (l_view l) < U128_MAX → 0 ≤ Block.base_fee_per_gas (Block.header b) →
  wf_codes (l_view l) → Forall (runnable (Block.header b)) txs →
  ∃ x, settles (fun m => tx_loop m b idx txs l) x.
Proof.
  intros Hp Hs Hbf Hc Hr. revert idx l Hp Hs Hc.
  induction Hr as [|s txs Hs0 Hr IH]; intros idx l Hp Hs Hc; [eexists; apply settles_ret|].
  cbn [tx_loop]. destruct (execute_one_settles b s (l_staking l) (l_view l) Hp Hs Hc Hs0) as (x & Hx & Hcx).
  apply (settles_bind _ _ x Hx). intros [r [c v']] ->. destruct Hx as [n Hn]. pose proof Hs0 as ((W & Hev & Hfee) & _).
  destruct (execute_one_moved n b s (l_view l) r _ c v' Hp Hs Hbf (proj1 Hs0) (Hn n ltac:(lia)))
    as (P & _ & _ & S & Hg & _). destruct (intrinsic_u64 (tx s)) as [Hi _].
  cbn [fst snd]. apply IH; cbn [l_view l_staking]; [done|nia|].
  unfold wf_codes, pay_validator. rewrite credit_codes. by apply (Hcx _ eq_refl).
Qed.

(** The loop is the only part that needs fuel. *)
Lemma execute_inner_settles {D} `{!Trie.TrieDB D} (b : Block.Block SignedTransaction) v (d : option D) c x :
  settles (fun m => tx_loop m b 0 (Block.transactions (Block.body b)) (mkLoop 0 [] c v)) x →
  ∃ n y, ∀ m, (n ≤ m)%nat → execute_inner m b v d c = Some y.
Proof.
  intros Hx. unfold execute_inner. case_if; [by exists O; eexists|].
  destruct (settles_bind (fun m => tx_loop m b 0 (Block.transactions (Block.body b)) (mkLoop 0 [] c v))
    (fun _ l => let v' := pay_reward b (l_view l) in
       fbind (lift (final_root d v')) (fun r =>
       fret (mkExec (l_receipts l) (into_diff v') (l_cumulative l) r (compute_tx_root (Block.transactions (Block.body b)))
          (compute_receipts_root (l_receipts l)) (aggregate_block_bloom (l_receipts l)) (l_staking l))))
    x Hx) as (y & n & Hn).
  - intros l _. cbn [lift fbind fret]. destruct (final_root d (pay_reward b (l_view l))); eexists; apply settles_ret.
  - exists n, y. exact Hn.
Qed.

End Termination.

End Executor.
