(* ===== verification/ExecutorProps.v ===== *)
(** * Theorems about the block executor

    The properties of [Executor]: the exact effect of a transaction on every
    account, conservation of money over a block, gas and nonces, termination,
    agreement of producer and verifier, the meaning of mempool admission for
    execution, and the emission schedule against the supply cap. *)

From S2P Require Import Prelude.
From S2P Require Import U256.
From S2P Require Import EvmBase.
From S2P Require Import EvmHost.
From S2P Require Import EvmInterp.
From S2P Require Import EvmLogic.
From S2P Require Import EvmExec.
From S2P Require Import EvmProps.
From S2P Require Import Block.
From S2P Require Import Transaction.
From S2P Require Import Mempool.
From S2P Require Import State.
From S2P Require Import Supply.
From S2P Require Import Trie.
From S2P Require Import StateRoot.
From S2P Require Import Receipts.
From S2P Require Import Emission.
From S2P Require Import ZvmBase.
From S2P Require Import ZvmHost.
From S2P Require Import ZvmInterp.
From S2P Require Import Executor.

Module ExecutorProps.
Import Emission U256 EvmBase EvmHost EvmInterp EvmLogic Transaction.Transaction State.State Supply Receipts Executor.Executor.
#[local] Set Warnings "-clear-no-such-hyp,-register-all".
#[local] Abbreviation Blk := (Block.Block SignedTransaction).

(** ** The producer's header *)

(** [execute_and_commit_inner] patches the header with the execution outputs. *)
Definition patch_header `{StakingOps} (b : Blk) (r : ExecutionResult) : Blk :=
  let h := Block.header b in
  Block.mkBlock
    (Block.mkHeader (Block.parent_hash h) (Block.uncle_hash h) (Block.coinbase h) (new_state_root r)
       (ex_transactions_root r) (receipts_root r) (ex_logs_bloom r) (Block.difficulty h) (Block.number h)
       (Block.gas_limit h) (ex_gas_used r) (Block.timestamp h) (Block.extra_data h) (Block.mix_hash h)
       (Block.nonce h) (Block.base_fee_per_gas h) (Block.committee_signature h) (Block.epoch h) (Block.epoch_seed h))
    (Block.body b).

(** The header fields execution reads. *)
Record same_env (h h' : Block.BlockHeader) : Prop := {
  se_number : Block.number h = Block.number h';
  se_time : Block.timestamp h = Block.timestamp h';
  se_coinbase : Block.coinbase h = Block.coinbase h';
  se_fee : Block.base_fee_per_gas h = Block.base_fee_per_gas h';
  se_limit : Block.gas_limit h = Block.gas_limit h';
  se_mix : Block.mix_hash h = Block.mix_hash h'
}.

(** A receipt without the block hash. *)
Definition strip (r : TransactionReceipt) : TransactionReceipt :=
  mkReceipt (status r) (cumulative_gas_used r) (rc_logs_bloom r) (logs r) (rc_tx_hash r) (rc_tx_index r) []
    (rc_block_number r) (rc_from r) (rc_to r) (contract_address r) (rc_gas_used r) (rc_effective_gas_price r).

Section Env.
Context `{Keccak} `{Precompiles} `{RlpCrate} `{ZvmInterp.ZvmPrecompiles} `{HP : ZvmBase.Heap} `{StakingOps} `{StateRoot.MapIter}.

Lemma execute_tx_env fuel s h h' v : same_env h h' → execute_tx fuel s h v = execute_tx fuel s h' v.
Proof.
  intros [En Et Ec Ef El Em].
  unfold execute_tx, run_target, run_zvm, run_evm, receipt_log, zvm_ctx, evm_ctx, zvm_host, ZvmHost.from_header,
    ZvmHost.from_header_with_blob_hashes.
  by rewrite En, Et, Ec, Ef, El, Em.
Qed.

Lemma execute_staking_env s h h' c v : same_env h h' → execute_staking_tx s h c v = execute_staking_tx s h' c v.
Proof. intros [En Et Ec Ef El Em]. unfold execute_staking_tx, dispatch_call. by rewrite En, Ef. Qed.

Lemma execute_one_env fuel (b b' : Blk) s c v :
  same_env (Block.header b) (Block.header b') → execute_one fuel b s c v = execute_one fuel b' s c v.
Proof.
  intros He. unfold execute_one. destruct c as [sc|]; [|by rewrite (execute_tx_env _ _ _ _ _ He)].
  by rewrite (execute_tx_env _ _ _ _ _ He), (execute_staking_env _ _ _ _ _ He).
Qed.

(** Loop states that agree up to the block hash in the receipts. *)
Record same_loop (l l' : LoopState) : Prop := {
  sl_cumulative : l_cumulative l = l_cumulative l';
  sl_staking : l_staking l = l_staking l';
  sl_view : l_view l = l_view l';
  sl_receipts : map strip (l_receipts l) = map strip (l_receipts l')
}.

Lemma tx_loop_env fuel (b b' : Blk) txs idx l l' x :
  same_env (Block.header b) (Block.header b') → same_loop l l' → tx_loop fuel b idx txs l = Some (Ok x) →
  ∃ x', tx_loop fuel b' idx txs l' = Some (Ok x') ∧ same_loop x x'.
Proof.
  intros He. revert idx l l'. induction txs as [|s txs IH]; intros idx l l' Hl E.
  { injection E as <-. by exists l'. }
  cbn [tx_loop] in *. destruct Hl as [Ec Es Ev Er]. rewrite <- Es, <- Ev, <- Ec, <- (execute_one_env fuel b b') by done.
  destruct (execute_one fuel b s (l_staking l) (l_view l)) as [[[r [c v]]|e|]|]; [|done..]. cbn [fbind] in *.
  eapply IH, E. destruct He as [En Et Eb Ef El Em]. split; cbn [l_cumulative l_staking l_view l_receipts]; [done|done| |].
  - unfold pay_validator. cbn. by rewrite Ef, Eb.
  - rewrite !map_app, Er. f_equal. unfold make_receipt, strip, Block.blk_number. cbn. by rewrite En.
Qed.

Lemma strip_hash rs rs' : map strip rs = map strip rs' → map compute_receipt_hash rs = map compute_receipt_hash rs'.
Proof.
  intros E. assert (∀ l, map compute_receipt_hash l = map compute_receipt_hash (map strip l)) as Hs
    by (intros l; by rewrite map_map). by rewrite (Hs rs), (Hs rs'), E.
Qed.

Lemma strip_root rs rs' : map strip rs = map strip rs' → compute_receipts_root rs = compute_receipts_root rs'.
Proof.
  intros E. pose proof (strip_hash _ _ E) as Eh. unfold compute_receipts_root. destruct rs, rs'; try done. by rewrite Eh.
Qed.

Lemma strip_bloom rs rs' : map strip rs = map strip rs' → aggregate_block_bloom rs = aggregate_block_bloom rs'.
Proof.
  intros E. assert (∀ l, aggregate_block_bloom l = aggregate_block_bloom (map strip l)) as Hs.
  { intros l. unfold aggregate_block_bloom. generalize (replicate 256 0) as z.
    induction l as [|r l IH]; intros z; [done|]. cbn. apply IH. }
  by rewrite (Hs rs), (Hs rs'), E.
Qed.

(** C9: Producer and verifier agree. When a block executes, the block whose
    header the producer has patched with the outputs executes from the same
    state, its hash maps listed in the same order, to the same diff, roots, bloom, gas and staking state (receipts
    differ only in the block hash they carry), and every check of the verifier
    that compares the header with execution passes. *)
Theorem producer_verifier_agree {D} `{!Trie.TrieDB D} fuel (b : Blk) (v : View) (d : option D)
    (c : option StakingCtx) (r : ExecutionResult) :
  execute_inner fuel b v d c = Some (Ok r) →
  let b' := patch_header b r in
  ∃ r', execute_inner fuel b' v d c = Some (Ok r') ∧
    map strip (receipts r') = map strip (receipts r) ∧ state_diff r' = state_diff r ∧ staking r' = staking r ∧
    verify_transactions_root b' = Ok tt ∧ verify_gas_used b' (ex_gas_used r') = Ok tt ∧
    verify_state_root b' (new_state_root r') = Ok tt ∧ verify_receipts_root b' (receipts_root r') = Ok tt ∧
    verify_logs_bloom b' (ex_logs_bloom r') = Ok tt.
Proof.
  intros E b'. assert (same_env (Block.header b) (Block.header b')) as He by done.
  unfold execute_inner in *. change (Block.gas_limit (Block.header b')) with (Block.gas_limit (Block.header b)).
  case_if; [done|]. destruct (tx_loop fuel b 0 _ _) as [[l|e|]|] eqn:El; [|done..]. cbn [fbind] in E.
  destruct (final_root d (pay_reward b (l_view l))) as [rt|e|] eqn:Ert; [|done..]. cbn [lift fbind fret] in E.
  injection E as Er.
  destruct (tx_loop_env fuel b b' (Block.transactions (Block.body b)) 0 _ (mkLoop 0 [] c v) l He ltac:(done) El)
    as (l' & El' & [Ec Es Ev Erc]).
  change (Block.transactions (Block.body b')) with (Block.transactions (Block.body b)). rewrite El'. cbn [fbind].
  change (pay_reward b' (l_view l')) with (pay_reward b (l_view l')). rewrite <- Ev, Ert. cbn [lift fbind fret].
  eexists. split; [done|]. subst r. cbn [receipts state_diff staking ex_gas_used new_state_root receipts_root ex_logs_bloom].
  split_and!; [by rewrite Erc|done|done|..].
  - unfold verify_transactions_root. by rewrite bool_decide_eq_true_2.
  - unfold verify_gas_used. cbn. by rewrite Ec, Z.eqb_refl.
  - unfold verify_state_root. by rewrite bool_decide_eq_true_2.
  - unfold verify_receipts_root. rewrite bool_decide_eq_true_2; [done|]. cbn. by apply strip_root.
  - unfold verify_logs_bloom. rewrite bool_decide_eq_true_2; [done|]. cbn. by apply strip_bloom.
Qed.

End Env.

(** ** Money, gas and nonces *)

Section Ledger.
Context `{KO : KeccakOk} `{PO : PrecompilesOk} `{ZvmInterp.ZvmPrecompiles} `{HP : ZvmBase.Heap} `{RlpCrate} `{StakingOps} `{!StakingLaws} `{StateRoot.MapIter}.

(** C12: The exact effect of a transaction. When [execute_tx] accepts a
    transaction on the EVM path, the sender pays the fee (gas used times
    effective price, at most what was reserved) and, if execution succeeded,
    the value, which the recipient or the new contract receives; no other
    balance changes; the sender's nonce was the transaction's and grows by
    one, no other nonce changes; the supply shrinks by the fee; and the gas
    used is between the intrinsic gas and the gas limit. *)
Theorem transaction_effects fuel s h v r v' :
  plain v → view_supply v < U128_MAX → wf_tx (tx s) → evm_only s →
  execute_tx fuel s h v = Some (Ok (r, v')) →
  let moved_value := if tr_success r then value_u128 s else 0 in
  (∀ a, bal v' a = bal v a + at_addr (recipient s) moved_value a - at_addr (from s) (fee_paid s r + moved_value) a) ∧
  (∀ a, non v' a = non v a + at_addr (from s) 1 a) ∧ non v (from s) = nonce (tx s) ∧
  view_supply v' = view_supply v - fee_paid s r ∧
  intrinsic_gas (tx s) ≤ tr_gas_used r ≤ gas_limit (tx s).
Proof.
  intros Hp Hs W Hev E mv. destruct (execute_tx_moved fuel s h v r v' Hp Hs W Hev E) as ([_ _ B N S] & Hg & _ & Hn & _).
  fold mv in B. split_and!; [|done|done|lia|lia|lia]. intros a. rewrite B. lia.
Qed.

(** C4: Money is conserved over a block. When a block of EVM and staking
    transactions whose fee caps reach the base fee executes, the sum of all balances after
    the diff is applied is the sum before, plus the block reward, minus the
    base fee for every unit of gas used, which is burnt: fees and values
    neither appear nor vanish. *)
Theorem block_conserves_supply {D} `{!Trie.TrieDB D} fuel (b : Blk) (v : View) (d : option D) (c : option StakingCtx) r :
  plain v → view_supply v + block_reward_at (Block.blk_number b) < U128_MAX →
  0 ≤ Block.base_fee_per_gas (Block.header b) →
  Forall (regular (Block.header b)) (Block.transactions (Block.body b)) →
  execute_inner fuel b v d c = Some (Ok r) →
  supply (accounts (state_diff r) ∪ base v) =
    view_supply v + block_reward_at (Block.blk_number b) - Block.base_fee_per_gas (Block.header b) * gas_sum (receipts r).
Proof. intros. by eapply execute_inner_effects. Qed.

(** Nonces and gas over a block. Every account's nonce grows by the
    number of transactions it sent; there is a receipt per transaction, in
    order, its gas between the intrinsic gas and the gas limit; and the gas
    reported for the block is their sum (modulo the width of the counter). *)
Theorem block_nonces_and_gas {D} `{!Trie.TrieDB D} fuel (b : Blk) (v : View) (d : option D) (c : option StakingCtx) r :
  plain v → view_supply v + block_reward_at (Block.blk_number b) < U128_MAX →
  0 ≤ Block.base_fee_per_gas (Block.header b) →
  Forall (regular (Block.header b)) (Block.transactions (Block.body b)) →
  execute_inner fuel b v d c = Some (Ok r) →
  (∀ a, acct_nonce (w_get (accounts (state_diff r) ∪ base v) a) =
        non v a + sent_by a (Block.transactions (Block.body b))) ∧
  Forall2 (fun s r => intrinsic_gas (tx s) ≤ rc_gas_used r ≤ gas_limit (tx s))
    (Block.transactions (Block.body b)) (receipts r) ∧
  ex_gas_used r = wrap64 (gas_sum (receipts r)).
Proof. intros. by eapply execute_inner_effects. Qed.

(** Block execution terminates. For a block of regular EVM and staking
    transactions there is an amount of fuel from which on [execute_inner] returns, always
    the same outcome: a result, an error, or a panic of the interpreter. *)
Theorem block_terminates {D} `{!Trie.TrieDB D} (b : Blk) (v : View) (d : option D) (c : option StakingCtx) :
  plain v → view_supply v < U128_MAX → 0 ≤ Block.base_fee_per_gas (Block.header b) → wf_codes v →
  Forall (runnable (Block.header b)) (Block.transactions (Block.body b)) →
  ∃ n x, ∀ m, (n ≤ m)%nat → execute_inner m b v d c = Some x.
Proof.
  intros Hp Hs Hbf Hc Hr.
  destruct (tx_loop_settles b (Block.transactions (Block.body b)) 0 (mkLoop 0 [] c v)) as (x & Hx); [done..|].
  by eapply execute_inner_settles.
Qed.

(** C24: What the mempool admits, the executor does not refuse. If the pool
    accepts a transaction with the sender's balance in the state view, then,
    once the sender's nonce is the transaction's, the pre-flight checks of the
    executor pass (up to the last 64-bit nonce) and debit the sender. *)
Theorem admitted_passes_preflight `{K256} (s : SignedTransaction) (oc : Z) (p p' : Mempool.TransactionPool)
    (id : bytes) (v : View) :
  wf_tx (tx s) →
  Mempool.add_transaction s (balance_u128 (get_account v (from s))) oc p = (Ok id, p') →
  nonce (tx s) = acct_nonce (get_account v (from s)) → nonce (tx s) < U64_MAX →
  ∃ v', preflight s v = Ok v'.
Proof.
  intros W E Hn Hmax. unfold Mempool.add_transaction in E.
  destruct (Mempool.check_static _ _ _) as [[]|e|] eqn:Es; [|done..].
  apply Mempool.check_static_ok in Es as (_ & [_ _ _ Hi] & _ & Hc).
  assert (total_cost s ≤ Mempool.total_cost s) as Hle.
  { unfold total_cost, Mempool.total_cost, saturating_add128, value_u128, wrap128, saturate_u128.
    pose proof (Z.mod_pos_bound (value (tx s)) U128 ltac:(unfold U128; lia)). unfold max_cost, U128, U128_MAX in *.
    case_if; lia. }
  unfold preflight. rewrite Hn, Z.eqb_refl. cbn [negb].
  rewrite (proj2 (Z.ltb_ge _ _)) by lia. rewrite (proj2 (Z.ltb_ge _ _)) by lia.
  unfold increment_nonce, checked_add64. cbn [acct_nonce set_balance_u128]. rewrite <- Hn.
  rewrite (proj2 (Z.leb_le _ _)) by lia. by eexists.
Qed.

End Ledger.

(** ** Emission *)

(** The rewards paid by the blocks 1 to [n]. *)
Fixpoint emitted (n : nat) : Z :=
  match n with O => 0 | S k => emitted k + block_reward_at (Z.of_nat n) end.

Lemma reward_first h : 0 ≤ h < HALVING_INTERVAL → block_reward_at h = 2 * 10 ^ 18.
Proof. intros Hh. unfold block_reward_at. by rewrite Z.div_small. Qed.

Lemma reward_second h : HALVING_INTERVAL ≤ h < 2 * HALVING_INTERVAL → block_reward_at h = 10 ^ 18.
Proof.
  unfold HALVING_INTERVAL. intros Hh. unfold block_reward_at, HALVING_INTERVAL.
  by rewrite <- (Z.div_unique h 63072000 1 (h - 63072000)) by lia.
Qed.

Lemma emitted_first n : Z.of_nat n < HALVING_INTERVAL → emitted n = Z.of_nat n * (2 * 10 ^ 18).
Proof.
  induction n as [|n IH]; intros Hn; [done|]. cbn [emitted]. rewrite IH, reward_first by lia. lia.
Qed.

Lemma emitted_second n k : Z.of_nat n = HALVING_INTERVAL - 1 → Z.of_nat k ≤ HALVING_INTERVAL →
  emitted (n + k) = (HALVING_INTERVAL - 1) * (2 * 10 ^ 18) + Z.of_nat k * 10 ^ 18.
Proof.
  intros Hn. induction k as [|k IH]; intros Hk.
  - rewrite Nat.add_0_r, emitted_first by lia. lia.
  - rewrite Nat.add_succ_r. cbn [emitted]. rewrite IH, reward_second by lia. lia.
Qed.

Lemma emitted_cap n : Z.of_nat n = 86928001 → emitted n = TOTAL_SUPPLY.
Proof.
  intros Hn. assert (∃ i k, n = (i + k)%nat ∧ Z.of_nat i = HALVING_INTERVAL - 1 ∧ Z.of_nat k = 23856002) as (i & k & -> & Hi & Hk).
  { exists (n - Z.to_nat 23856002)%nat, (Z.to_nat 23856002). unfold HALVING_INTERVAL. lia. }
  rewrite emitted_second, Hk by (unfold HALVING_INTERVAL in *; lia). reflexivity.
Qed.

(** The halving schedule does not respect the documented supply cap: the
    rewards of the blocks up to 86,928,001 already add up to [TOTAL_SUPPLY],
    and the next block still mints one full token. *)
Theorem emission_reaches_cap :
  emitted (Z.to_nat 86928001) = TOTAL_SUPPLY ∧ block_reward_at 86928002 = 10 ^ 18.
Proof.
  split; [|by apply reward_second]. apply emitted_cap. by apply Z2Nat.id.
Qed.

(** ** Concrete runs *)

Module Samples.
Import Transaction.ZbxRlp.

#[local] Instance keccak_sample : Keccak := fun b =>
  to_be 32 (fold_left (fun h x => (h * 16777619 + x + 1) mod (2 ^ 61 - 1)) b 7).
#[local] Instance keccak_sample_ok : KeccakOk.
Proof. intros b. apply wf_to_word. Qed.
#[local] Instance pre_sample : Precompiles := {|
  call_precompile id i g := if g <? 15 then Err OutOfGas else Ok ([1], 15);
  do_payid i g r v := Err OutOfGas;
  do_price_oracle i g r := Err OutOfGas;
  do_zusd_vault i g r t := Err OutOfGas |}.
#[local] Instance pre_sample_ok : PrecompilesOk.
Proof.
  split; intros; cbn; try done. case_if; [done|]. cbn. split; [|unfold is_u64; lia].
  apply Forall_cons_2; [unfold is_u8; lia|by apply Forall_nil].
Qed.
#[local] Instance heap_sample : ZvmBase.Heap := 2 ^ 40.
#[local] Instance zvm_sample : ZvmInterp.ZvmPrecompiles := {|
  ZvmInterp.call_precompile _ _ g := if g <? 15 then Err ZvmBase.OutOfGas else Ok ([1], 15);
  ZvmInterp.price_oracle_with _ _ _ := Err ZvmBase.OutOfGas;
  ZvmInterp.zusd_vault_with _ _ _ _ := Err ZvmBase.OutOfGas |}.
(** A staking crate without calls. *)
#[local] Instance staking_sample : StakingOps := {|
  ValidatorSet := unit; StakingDelta := unit; SlashingPipeline := unit; StakingCall := unit; StakingError := unit;
  delta_new := tt; decode_staking_call _ := Err tt; file_appeal_id _ := None;
  dispatch_file_appeal_tx _ _ _ _ p := (Err tt, p);
  dispatch_staking_tx _ _ _ _ vs d v := (Err tt, (vs, d, v)) |}.
#[local] Instance staking_laws_sample : StakingLaws.
Proof.
  split; [|done]. intros. split_and!; [|done|done]. eexists. by apply moved_refl.
Qed.
#[local] Existing Instance Trie.memory_trie_db.
#[local] Instance iter_sample : StateRoot.MapIter := StateRoot.Samples.iter_up.
#[local] Instance k256_sample : K256 :=
  Build_K256 (fun _ => true) (fun _ => false) (fun _ => true) (fun _ rs _ => Some (4 :: rs)).

Definition sg : Signature := mkSig 0 (replicate 32 1) (replicate 32 7).
Definition alice : address := pubkey_to_address (4 :: sig_r sg ++ sig_s sg).
Definition bob : address := to_be 20 77.
Definition miner : address := to_be 20 99.

(** A transfer, and a creation whose code pushes a byte and stops. *)
Definition signed (n : Z) (dst : option address) (val : Z) (d : bytes) : SignedTransaction :=
  let t := mkTx DynamicFee n 2000000 3000000000 60000 dst val d [] 8989 in
  mkSigned t sg alice (compute_hash (mkSigned t sg alice [])).
Definition t0 := signed 5 (Some bob) 1000 [].
Definition t1 := signed 6 None 7 [0x60; 0x01; 0x00].

Definition v0 : View :=
  view_seed_account alice (mkAcct 5 (10 ^ 21) EMPTY_CODE_HASH EMPTY_STORAGE_ROOT Evm) view_new.

Definition z : bytes := replicate 32 0.
Definition blk : Blk :=
  Block.mkBlock (Block.mkHeader z z miner z z z (replicate 256 0) 0 1 30000000 0 7 [] z 0 1000000000 [] 0 None)
    (Block.mkBody [t0; t1] []).

Definition get {A} (dflt : A) (x : fueled A) : A := match x with Some (Ok a) => a | _ => dflt end.

Definition res : ExecutionResult :=
  get (mkExec [] diff_new 0 [] [] [] [] None) (execute 20 blk v0).
Definition tx_res : TxResult * View :=
  get (mkTxResult 0 0 false [] None, v0) (execute_tx 20 t0 (Block.header blk) v0).

Lemma res_ok : execute_inner (D := Trie.MemoryTrieDB) 20 blk v0 None None = Some (Ok res).
Proof. vm_compute. reflexivity. Qed.

Lemma plain_v0 : plain v0.
Proof.
  split; [done|]. assert (view_visible v0 = {[alice := mkAcct 5 (10 ^ 21) EMPTY_CODE_HASH EMPTY_STORAGE_ROOT Evm]}) as ->
    by (vm_compute; reflexivity). apply map_Forall_singleton. split_and!; [cbn; lia|unfold is_u64; cbn; lia|done].
Qed.

Lemma wf_alice : wf_address alice.
Proof. apply wf_addr_of_word. apply keccak_sample_ok. Qed.

Lemma wf_signed n dst val d : is_u64 n → from_option wf_address True dst → 0 ≤ val < 2 ^ 256 →
  wf_bytes d → Z.of_nat (length d) < 2 ^ 50 → wf_tx (tx (signed n dst val d)).
Proof. intros. split; cbn; try done; try (unfold is_u64; lia). Qed.

Lemma wf_bob : wf_address bob.
Proof. split; [apply length_to_be|apply wf_to_be]. Qed.

Lemma runnable_txs : Forall (runnable (Block.header blk)) (Block.transactions (Block.body blk)).
Proof.
  assert (wf_address miner) by (split; [apply length_to_be|apply wf_to_be]).
  assert (∀ x, 0 ≤ x < 256 → is_u8 x) as Hu by done.
  apply Forall_cons_2; [|apply Forall_cons_2; [|by apply Forall_nil]].
  - split_and!; [split_and!; [|discriminate|cbn; lia]|apply wf_alice|done].
    apply wf_signed; [unfold is_u64; lia|apply wf_bob|lia|by apply Forall_nil|cbn; lia].
  - split_and!; [split_and!; [|intros _; discriminate|cbn; lia]|apply wf_alice|done].
    apply wf_signed; [unfold is_u64; lia|done|lia| |cbn; lia].
    repeat (apply Forall_cons_2; [apply Hu; lia|]). by apply Forall_nil.
Qed.

Lemma regular_txs : Forall (regular (Block.header blk)) (Block.transactions (Block.body blk)).
Proof. eapply Forall_impl; [apply runnable_txs|]. by intros s []. Qed.

Lemma transaction_effects_witness :
  tr_success tx_res.1 = true ∧
  (∀ a, bal tx_res.2 a = bal v0 a + at_addr bob 1000 a - at_addr alice (fee_paid t0 tx_res.1 + 1000) a) ∧
  view_supply tx_res.2 = view_supply v0 - fee_paid t0 tx_res.1.
Proof.
  pose proof (runnable_txs) as [((W & He & _) & _) _]%Forall_cons.
  destruct (transaction_effects 20 t0 (Block.header blk) v0 tx_res.1 tx_res.2 plain_v0) as (B & _ & _ & S & _).
  - vm_compute. reflexivity.
  - exact W.
  - exact He.
  - vm_compute. reflexivity.
  - assert (tr_success tx_res.1 = true) as Es by (vm_compute; reflexivity). rewrite Es in B.
    split_and!; [exact Es|exact B|exact S].
Defined.

Lemma block_conserves_supply_witness :
  supply (accounts (state_diff res) ∪ base v0) =
    view_supply v0 + block_reward_at 1 - 1000000000 * gas_sum (receipts res).
Proof.
  exact (block_conserves_supply 20 blk v0 None None res plain_v0 ltac:(vm_compute; reflexivity) ltac:(cbn; lia) regular_txs res_ok).
Defined.

Lemma block_nonces_and_gas_witness :
  acct_nonce (w_get (accounts (state_diff res) ∪ base v0) alice) = 7 ∧ ex_gas_used res = wrap64 (gas_sum (receipts res)).
Proof.
  destruct (block_nonces_and_gas 20 blk v0 None None res plain_v0 ltac:(vm_compute; reflexivity) ltac:(cbn; lia) regular_txs res_ok)
    as (N & _ & G). split; [rewrite N; vm_compute; reflexivity|exact G].
Defined.

Lemma block_terminates_witness :
  ∃ n x, ∀ m, (n ≤ m)%nat → execute_inner (D := Trie.MemoryTrieDB) m blk v0 None None = Some x.
Proof.
  apply (block_terminates blk v0 None None plain_v0); [vm_compute; reflexivity|cbn; lia| |exact runnable_txs].
  apply map_Forall_empty.
Defined.

Lemma producer_verifier_agree_witness :
  ∃ r', execute_inner (D := Trie.MemoryTrieDB) 20 (patch_header blk res) v0 None None = Some (Ok r') ∧
    verify_receipts_root (patch_header blk res) (receipts_root r') = Ok tt.
Proof.
  destruct (producer_verifier_agree 20 blk v0 None None res res_ok) as (r' & E & _ & _ & _ & _ & _ & _ & R & _).
  exists r'. split; [exact E|exact R].
Defined.

Definition pool := Mempool.pool_new Mempool.config_default.

Lemma admitted_passes_preflight_witness : ∃ v', preflight t0 v0 = Ok v'.
Proof.
  pose proof (runnable_txs) as [((W & _) & _) _]%Forall_cons.
  apply (admitted_passes_preflight t0 5 pool
    (Mempool.add_transaction t0 (balance_u128 (get_account v0 (from t0))) 5 pool).2 (tx_hash t0) v0 W).
  - vm_compute. reflexivity.
  - vm_compute. reflexivity.
  - vm_compute. reflexivity.
Defined.

End Samples.

End ExecutorProps.
