(* ===== verification/ZvmBlock.v ===== *)
(** * Blocks with ZVM transactions

    The ledger theorems of [Executor] are exact and need blocks that stay on
    the EVM; here are the bounds that hold for every block [execute] and
    [execute_with_db] run, ZVM contracts included: a transaction and a block
    create no money beyond the reward, and execution ends. *)

From S2P Require Import Prelude.
From S2P Require Import U256.
From S2P Require Import EvmBase.
From S2P Require Import EvmHost.
From S2P Require Import EvmInterp.
From S2P Require Import EvmLogic.
From S2P Require Import EvmExec.
From S2P Require Import EvmProps.
From S2P Require Import Block.
From S2P Require Import Transaction.
From S2P Require Import State.
From S2P Require Import Supply.
From S2P Require Import Trie.
From S2P Require Import StateRoot.
From S2P Require Import Receipts.
From S2P Require Import Emission.
From S2P Require Import ZvmBase.
From S2P Require Import ZvmHost.
From S2P Require Import ZvmInterp.
From S2P Require Import ZvmLogic.
From S2P Require Import ZvmProps.
From S2P Require Import ZvmChain.
From S2P Require Import Executor.
From S2P Require Import ExecutorProps.

Module ZvmBlock.
Import Emission U256 EvmBase EvmHost EvmInterp EvmLogic Transaction.Transaction State.State Supply Receipts ZvmChain.ZvmChain
  Executor.Executor.
#[local] Set Warnings "-clear-no-such-hyp,-register-all".
#[local] Abbreviation Blk := (Block.Block SignedTransaction).
#[local] Existing Instance ZvmHost.production_host.
Implicit Types v : View.

(** A change of the view that adds at most [d] to the supply. *)
Record within (d : Z) (v v' : View) : Prop := {
  wi_ok : view_ok v';
  wi_supply : view_supply v' ≤ view_supply v + d;
  wi_base : base v' = base v
}.

Lemma within_refl v : view_ok v → within 0 v v.
Proof. intros. split; [done|lia|done]. Qed.

Lemma within_trans d1 d2 d v1 v2 v3 : within d1 v1 v2 → within d2 v2 v3 → d1 + d2 ≤ d → within d v1 v3.
Proof. intros [_ S1 B1] [O2 S2 B2] Hd. split; [done|lia|congruence]. Qed.

Lemma set_account_within v a s d :
  view_ok v → acct_ok s → wf_word (acct_code_hash s) → acct_balance s ≤ bal v a + d → within d v (set_account a s v).
Proof.
  intros Hv Hs Hh Hd. split; [by apply set_account_ok|rewrite set_account_supply by apply Hs; lia|].
  apply (set_account_parts a s v).
Qed.

Lemma credit_within v a wei : view_ok v → 0 ≤ wei → within wei v (credit a wei v).
Proof.
  intros Hv Hw. unfold credit. pose proof (balance_le v a (vo_sound _ Hv)).
  destruct (set_balance_ok v a (saturating_add128 (balance_u128 (get_account v a)) wei) Hv) as [Hs Hh];
    [unfold saturating_add128, U128_MAX; lia|].
  apply set_account_within; [done..|]. cbn. unfold saturating_add128. lia.
Qed.

Lemma selfdestruct_within v a : view_ok v → within 0 v (view_selfdestruct a v).
Proof.
  intros Hv. destruct (selfdestruct_supply v a (vo_sound _ Hv)) as [Hs Hle]. split; [|lia|done].
  destruct Hv as [S Ha St C D]. split; [done| |cbn|done|cbn].
  - rewrite selfdestruct_visible. by apply map_Forall_delete.
  - by apply map_Forall_delete.
  - intros b. specialize (D b). rewrite elem_of_app, list_elem_of_singleton. set_solver.
Qed.

Lemma apply_destructs_within st pending created v :
  view_ok v → within 0 v (apply_destructs st pending created v).
Proof.
  intros Hv. destruct st; try by apply within_refl. cbn. revert v Hv.
  induction pending as [|cb pending IH]; intros v Hv; [by apply within_refl|]. cbn.
  case_bool_decide; [|by apply IH]. pose proof (selfdestruct_within v cb.1 Hv) as Hd.
  eapply within_trans; [exact Hd|apply IH, Hd|lia].
Qed.

Lemma selfdestruct_logs a v : diff_logs (diffs (view_selfdestruct a v)) = diff_logs (diffs v).
Proof. done. Qed.

Lemma apply_destructs_logs st pending created v :
  diff_logs (diffs (apply_destructs st pending created v)) = diff_logs (diffs v).
Proof.
  destruct st; try done. cbn. revert v. induction pending as [|cb pending IH]; intros v; [done|]. cbn.
  rewrite IH. by case_bool_decide.
Qed.

Lemma drain_logs_within n v :
  view_ok v → (n ≤ length (diff_logs (diffs v)))%nat → ∃ l v', drain_logs n v = Ok (l, v') ∧ within 0 v v'.
Proof.
  intros Hv Hn. unfold drain_logs. rewrite (proj2 (Nat.ltb_ge _ _)) by done. do 2 eexists. split; [done|].
  split; [|apply Z.le_trans with (view_supply v); [done|lia]|done]. destruct Hv as [S Ha St C D]. by split.
Qed.

(** ** Steps of a transaction *)

Lemma balance_exact v a : view_ok v → view_supply v < U128 → balance_u128 (get_account v a) = bal v a.
Proof. intros Hv Hs. pose proof (sound_bal v a (vo_sound _ Hv)). apply saturate_small. unfold bal in *. lia. Qed.

Lemma preflight_within s v v' :
  view_ok v → view_supply v < U128_MAX → wf_tx (tx s) → preflight s v = Ok v' →
  within (- (max_cost s + value_u128 s)) v v' ∧ max_cost s + value_u128 s ≤ view_supply v ∧
  intrinsic_gas (tx s) ≤ gas_limit (tx s).
Proof.
  intros Hv Hs W E. destruct (cost_nonneg s W) as [Hc Hval]. pose proof (sound_bal v (from s) (vo_sound _ Hv)) as Hb.
  destruct (sound_get v (from s) (vo_sound _ Hv)) as [_ Hn]. unfold preflight in E.
  rewrite balance_exact in E by (done || (unfold U128, U128_MAX in *; lia)). case_if; [done|].
  destruct (Z.ltb_spec (bal v (from s)) (total_cost s)) as [|Hle]; [done|].
  destruct (Z.ltb_spec (gas_limit (tx s)) (intrinsic_gas (tx s))) as [|Hi]; [done|].
  unfold total_cost, saturating_add128 in Hle. rewrite Z.min_l in Hle by lia.
  unfold wrap128, saturating_sub in E. rewrite Z.mod_small, Z.max_r in E by (unfold U128, U128_MAX in *; lia).
  unfold increment_nonce in E. cbn [acct_nonce set_balance_u128] in E.
  destruct (checked_add64 _ 1) as [n|] eqn:En; [|done]. injection E as <-.
  unfold checked_add64 in En. case_if; [|done]. injection En as <-. unfold is_u64, U64_MAX in *.
  split_and!; [|lia|done]. apply set_account_within; [done| |by apply hash_wf|cbn; lia].
  split; cbn; [lia|unfold is_u64; lia].
Qed.

Section Tx.
Context `{KO : KeccakOk} `{PO : PrecompilesOk} `{ZPO : ZvmLogic.ZvmPrecompilesOk} `{HP : ZvmBase.Heap}.

Lemma resolve_within s v t v' :
  view_ok v → wf_tx (tx s) → resolve_target s v = (t, v') →
  within 0 v v' ∧ wf_bytes (t_code t) ∧ wf_addr (t_callee t) ∧
  t_contract t = (match to (tx s) with None => Some (t_callee t) | Some _ => None end).
Proof.
  intros Hv W. unfold resolve_target. pose proof (wt_to _ W) as Hto. destruct (wt_data _ W) as [Hd _].
  destruct (to (tx s)) as [a|].
  - case_if; intros [= <- <-]; split_and!; cbn; try done; try (by apply within_refl); [by apply view_code_wf|constructor].
  - assert (∀ k code, wf_bytes code → within 0 v (persist_code (new_contract_address s) code k v)) as Hp.
    { intros k code Hw. unfold persist_code. destruct code as [|x r]; [by apply within_refl|].
      set (w := view_seed_code _ _ _). set (a := new_contract_address s). set (s' := with_code_hash _ _).
      assert (view_ok w) as Hok by (destruct Hv as [S Ha St C D]; split; [done..|by apply map_Forall_insert_2|done]).
      assert (acct_ok s') as Hs' by (by destruct (sound_get w a (vo_sound _ Hok)); split).
      assert (within 0 w (set_account a (match k with Zvm => with_vm Zvm s' | Evm => s' end) w)) as [O S B]; [|by split].
      apply set_account_within; [done|by destruct k|by destruct k; apply keccak_wf|].
      destruct k; cbn; unfold bal; lia. }
    assert (wf_addr (new_contract_address s)) as Ha by (apply wf_addr_of_word, keccak_wf).
    case_bool_decide; intros [= <- <-]; split_and!; cbn; try done; [apply Hp| |by apply Hp];
      by apply wf_bytes_drop.
Qed.

(** What ZVM and EVM need of a transaction and its block. *)
Record payable (h : Block.BlockHeader) (s : SignedTransaction) : Prop := {
  py_tx : wf_tx (tx s);
  py_from : wf_address (from s);
  py_cap : Block.base_fee_per_gas h ≤ max_fee_per_gas (tx s)
}.

Record env_wf (h : Block.BlockHeader) : Prop := {
  ew_fee : 0 ≤ Block.base_fee_per_gas h;
  ew_coinbase : wf_address (Block.coinbase h);
  ew_rand : wf_word (Block.mix_hash h)
}.

Lemma forwarded_u64 s : wf_tx (tx s) → is_u64 (forwarded_gas s).
Proof.
  intros W. destruct (wt_gas _ W). destruct (intrinsic_u64 (tx s)). unfold forwarded_gas, saturating_sub, is_u64. lia.
Qed.

Lemma call_data_wf s : wf_tx (tx s) → wf_bytes (call_data s).
Proof. intros W. destruct (wt_data _ W). unfold call_data. destruct (to (tx s)); [done|constructor]. Qed.

Lemma zvm_ctx_wf h s t : payable h s → wf_bytes (t_code t) → wf_addr (t_callee t) → ZvmLogic.wf_ctx (zvm_ctx s h t).
Proof. intros [W Hf _] Hc Ha. split; cbn; try done; [by apply call_data_wf|by apply forwarded_u64]. Qed.

Lemma zvm_host_ok h t v : env_wf h → view_ok v → host_ok (zvm_host h t v).
Proof.
  intros [_ Hc Hr] Hv. assert (env_ok (ZvmHost.from_header h)) by (split; [done|done|constructor]).
  unfold zvm_host. destruct (t_contract t); (split; [done|done|apply map_Forall_empty]).
Qed.

Lemma zvm_host_state h t v : ZvmHost.ph_state (zvm_host h t v) = v.
Proof. unfold zvm_host. by destruct (t_contract t). Qed.

(** A finished ZVM run, settled in the view. *)
Lemma run_zvm_within fuel s h t v r :
  payable h s → env_wf h → view_ok v → wf_bytes (t_code t) → wf_addr (t_callee t) →
  run_zvm fuel s h t v = Some (Ok r) → within 0 v (r_view r) ∧ 0 ≤ r_gas r.
Proof.
  intros Hs He Hv Hc Ha E. unfold run_zvm in E.
  destruct (ZvmInterp.run _ _) as [[zr i|]|] eqn:Er; [|done..].
  pose proof (zvm_host_ok h t v He Hv) as Hh. pose proof (zvm_ctx_wf h s t Hs Hc Ha) as Hctx.
  destruct (run_frame fuel _ _ zr i Hctx Hh Er) as [[Hv' _ _] [[S N [l L] B D] _]].
  rewrite zvm_host_state in *. cbn in E. set (st := ZvmBase.zr_status zr) in *. set (v1 := ZvmHost.ph_state (ZvmInterp.i_host i)) in *.
  pose proof (apply_destructs_within st (ZvmHost.ph_destructs (ZvmInterp.i_host i)) (ZvmHost.ph_created (ZvmInterp.i_host i)) v1 Hv') as Hd.
  destruct (drain_logs_within (length (diff_logs (diffs v)))
    (apply_destructs st (ZvmHost.ph_destructs (ZvmInterp.i_host i)) (ZvmHost.ph_created (ZvmInterp.i_host i)) v1)) as (ls & v2 & Edr & Hdr);
    [apply Hd|rewrite apply_destructs_logs, L, length_app; lia|].
  rewrite Edr in E. injection E as <-. cbn. split.
  - eapply within_trans; [split; [exact Hv'|instantiate (1 := 0); lia|done]|eapply within_trans; [exact Hd|exact Hdr|reflexivity]|lia].
  - apply ZvmProps.zvm_run_einv in Er as [_ [st' ->]]; [|done|done]. cbn. unfold saturating_sub. lia.
Qed.

Lemma run_target_within fuel s h t v r :
  payable h s → env_wf h → view_ok v → wf_bytes (t_code t) → wf_addr (t_callee t) →
  run_target fuel s h t v = Some (Ok r) → within 0 v (r_view r) ∧ 0 ≤ r_gas r.
Proof.
  intros Hs He Hv Hc Ha E. destruct (t_vm t) eqn:Hvm.
  - destruct (run_target_view fuel s h t v r Hvm E) as [-> Hg]. split; [by apply within_refl|done].
  - unfold run_target in E. rewrite Hvm in E. case_if; [|case_if].
    + unfold run_precompile in E. pose proof (call_precompile_ok (byte_at (t_callee t) 19) (data (tx s)) (forwarded_gas s)) as Hok.
      destruct (call_precompile _ _ _) as [[o u]|e|]; [| |done]; injection E as <-; (split; [by apply within_refl|]).
      * by destruct Hok as [_ []].
      * by apply forwarded_u64, Hs.
    + injection E as <-. split; [by apply within_refl|done].
    + by eapply run_zvm_within.
Qed.

Lemma settle_value_within s success t v :
  view_ok v → wf_tx (tx s) → t_contract t = (match to (tx s) with None => Some (t_callee t) | Some _ => None end) →
  within (value_u128 s) v (settle_value s success t v).
Proof.
  intros Hv W Hc. destruct (cost_nonneg s W) as [_ Hval]. unfold settle_value. rewrite Hc.
  destruct success; [|by apply credit_within]. destruct (to (tx s)) as [a|]; [by apply credit_within|].
  unfold fund_contract. set (a := t_callee t). case_if; [split; [done|lia|done]|].
  set (x := if 0 <? value_u128 s then _ else _). pose proof (balance_le v a (vo_sound _ Hv)) as Hb.
  assert (acct_ok x ∧ wf_word (acct_code_hash x) ∧ acct_balance x ≤ bal v a + value_u128 s) as (Hx & Hh & Hle).
  { unfold x. case_if.
    - destruct (set_balance_ok v a (saturating_add128 (balance_u128 (get_account v a)) (value_u128 s)) Hv) as [Hx1 Hx2];
        [unfold saturating_add128, U128_MAX; lia|]. split_and!; [done|done|]. cbn. unfold saturating_add128. lia.
    - split_and!; [by apply sound_get, Hv|by apply hash_wf|unfold bal; lia]. }
  apply set_account_within; [done|by destruct (t_vm t)|by destruct (t_vm t)|by destruct (t_vm t)].
Qed.

(** ** A transaction *)

Lemma execute_tx_within fuel s h v r v' :
  view_ok v → view_supply v < U128_MAX → payable h s → env_wf h → execute_tx fuel s h v = Some (Ok (r, v')) →
  within (- fee_paid s r) v v' ∧ intrinsic_gas (tx s) ≤ tr_gas_used r ≤ gas_limit (tx s) ∧
  tr_effective_price r = effective_gas_price s (Block.base_fee_per_gas h) ∧ fee_paid s r ≤ view_supply v.
Proof.
  intros Hv Hs Hpy He E. pose proof (py_tx _ _ Hpy) as W. unfold execute_tx in E. destruct (cost_nonneg s W) as [Hc Hval].
  destruct (preflight s v) as [v1|e|] eqn:E1; [|done..]. cbn [lift fbind] in E.
  destruct (preflight_within s v v1 Hv Hs W E1) as (M1 & Hcost & Hint).
  destruct (resolve_target s v1) as [t v2] eqn:E2.
  destruct (resolve_within s v1 t v2 (wi_ok _ _ _ M1) W E2) as (M2 & Hcode & Hcal & Hct).
  destruct (run_target fuel s h t v2) as [[ro|e|]|] eqn:E3; [|done..]. cbn [fbind fret] in E. injection E as <- <-.
  destruct (run_target_within fuel s h t v2 ro Hpy He (wi_ok _ _ _ M2) Hcode Hcal E3) as [M3 Hg].
  cbn [tr_gas_used tr_effective_price]. destruct (gas_bounds s (r_gas ro) Hg Hint) as [Hg1 Hg2].
  set (gas := tx_gas_used s (r_gas ro)) in *. set (price := effective_gas_price s _).
  assert (0 ≤ gas * price) as Hfee.
  { destruct (intrinsic_u64 (tx s)). pose proof (price_nonneg s (Block.base_fee_per_gas h)). unfold price. nia. }
  unfold fee_paid, settle_fee. cbn [tr_gas_used tr_effective_price]. fold gas price.
  set (refund := saturating_sub (max_cost s) (gas * price)).
  assert (0 ≤ refund ≤ max_cost s ∧ Z.min (max_cost s) (gas * price) = max_cost s - refund) as [Hrf ->]
    by (unfold refund, saturating_sub; lia).
  pose proof (credit_within (r_view ro) (from s) refund (wi_ok _ _ _ M3) ltac:(lia)) as M4.
  pose proof (settle_value_within s (is_succeeded (r_status ro)) t _ (wi_ok _ _ _ M4) W Hct) as M5.
  split_and!; [|lia|lia|done|lia].
  eapply within_trans; [exact M1|eapply within_trans; [exact M2|eapply within_trans; [exact M3|
    eapply within_trans; [exact M4|exact M5|reflexivity]|reflexivity]|reflexivity]|lia].
Qed.

(** ** A block *)

Context `{RlpCrate} `{StakingOps} `{StateRoot.MapIter}.

(** A transaction and the payment of its tip. *)
Lemma execute_one_within fuel (b : Blk) s v r c v' :
  view_ok v → view_supply v < U128_MAX → payable (Block.header b) s → env_wf (Block.header b) →
  execute_one fuel b s None v = Some (Ok (r, (c, v'))) →
  c = None ∧ within (- (Block.base_fee_per_gas (Block.header b) * tr_gas_used r)) v (pay_validator (Block.header b) r v') ∧
  intrinsic_gas (tx s) ≤ tr_gas_used r ≤ gas_limit (tx s).
Proof.
  intros Hv Hs Hpy He E. unfold execute_one in E.
  destruct (execute_tx fuel s (Block.header b) v) as [[[r0 v0]|e|]|] eqn:Et; [|done..]. cbn in E. injection E as -> <- ->.
  destruct (execute_tx_within fuel s (Block.header b) v r v' Hv Hs Hpy He Et) as (M & Hg & Hpr & _).
  split; [done|]. split; [|done]. destruct (intrinsic_u64 (tx s)) as [Hi _].
  set (bf := Block.base_fee_per_gas (Block.header b)) in *.
  destruct (price_bounds s bf (py_tx _ _ Hpy) (conj (ew_fee _ He) (py_cap _ _ Hpy))) as [Hlo Hhi]. rewrite <- Hpr in Hlo, Hhi.
  assert (fee_paid s r = tr_gas_used r * tr_effective_price r) as Ef
    by (pose proof (ew_fee _ He : 0 ≤ bf); unfold fee_paid, max_cost; nia).
  unfold pay_validator. fold bf. unfold saturating_sub. rewrite Z.max_r by lia.
  pose proof (credit_within v' (Block.coinbase (Block.header b)) ((tr_effective_price r - bf) * tr_gas_used r) (wi_ok _ _ _ M) ltac:(nia)) as M'.
  eapply within_trans; [exact M|exact M'|]. rewrite Ef. lia.
Qed.



(** The accounts once a diff is applied over a base. *)
Definition applied (f : StateDiff Log) (w : World) : World :=
  filter (fun kv => kv.1 ∉ deleted f) (accounts f ∪ w).



(** ** Enough fuel *)

Lemma run_zvm_settles s h t v :
  payable h s → env_wf h → view_ok v → wf_bytes (t_code t) → wf_addr (t_callee t) →
  ∃ x, settles (fun m => run_zvm m s h t v) x.
Proof.
  intros Hs He Hv Hc Ha. pose proof (zvm_host_ok h t v He Hv) as Hh. pose proof (zvm_ctx_wf h s t Hs Hc Ha) as Hctx.
  set (i0 := ZvmInterp.new_interp (zvm_ctx s h t) (zvm_host h t v)).
  destruct (ZvmProps.loop_terminates (S (Z.to_nat (forwarded_gas s))) (ZvmInterp.prepare i0)) as [res Hres].
  - by apply ZvmProps.prepare_wf, ZvmProps.zvm_new_wf.
  - by destruct (ZvmProps.prepare_same i0) as (_ & _ & -> & _).
  - destruct (ZvmProps.prepare_same i0) as (_ & -> & _). cbn. lia.
  - assert (∀ m, (S (Z.to_nat (forwarded_gas s)) ≤ m)%nat → ZvmInterp.run m i0 = Some res) as Hm.
    { intros m Hle. by eapply ZvmProps.loop_mono. }
    destruct (run_zvm (S (Z.to_nat (forwarded_gas s))) s h t v) as [x|] eqn:Ex.
    + exists x, (S (Z.to_nat (forwarded_gas s))). intros m Hle. rewrite <- Ex. unfold run_zvm. fold i0.
      by rewrite !Hm.
    + exfalso. revert Ex. unfold run_zvm. fold i0. rewrite Hm by done. destruct res as [zr i|]; [|done]. cbn.
      by destruct (drain_logs _ _).
Qed.

Lemma run_target_settles_any s h t v :
  payable h s → env_wf h → view_ok v → wf_bytes (t_code t) → wf_addr (t_callee t) →
  ∃ x, settles (fun m => run_target m s h t v) x.
Proof.
  intros Hs He Hv Hc Ha. unfold run_target. case_if; [|case_if].
  - unfold run_precompile. destruct (call_precompile _ _ _) as [[o u]|e|]; eexists; apply settles_ret.
  - eexists. apply settles_ret.
  - destruct (t_vm t); [|by apply run_zvm_settles]. destruct Hs, He. by apply run_evm_settles.
Qed.

Lemma execute_tx_settles_any s h v :
  view_ok v → view_supply v < U128_MAX → payable h s → env_wf h → ∃ x, settles (fun m => execute_tx m s h v) x.
Proof.
  intros Hv Hs Hpy He. pose proof (py_tx _ _ Hpy) as W. unfold execute_tx.
  destruct (preflight s v) as [v1|e|] eqn:E1; cbn [lift fbind]; [|eexists; apply settles_ret..].
  destruct (preflight_within s v v1 Hv Hs W E1) as (M1 & _). destruct (resolve_target s v1) as [t v2] eqn:E2.
  destruct (resolve_within s v1 t v2 (wi_ok _ _ _ M1) W E2) as (M2 & Hcode & Hcal & _).
  destruct (run_target_settles_any s h t v2 Hpy He (wi_ok _ _ _ M2) Hcode Hcal) as (x & Hx).
  apply (settles_bind _ _ x Hx). intros. eexists. apply settles_ret.
Qed.

Lemma tx_loop_settles_any (b : Blk) txs idx l :
  view_ok (l_view l) → view_supply (l_view l) < U128_MAX → env_wf (Block.header b) → l_staking l = None →
  Forall (payable (Block.header b)) txs → ∃ x, settles (fun m => tx_loop m b idx txs l) x.
Proof.
  intros Hv Hs He Hst Hr. revert idx l Hv Hs Hst.
  induction Hr as [|s txs Hs0 Hr IH]; intros idx l Hv Hs Hst; [eexists; apply settles_ret|].
  cbn [tx_loop]. rewrite Hst. destruct (execute_tx_settles_any s (Block.header b) (l_view l) Hv Hs Hs0 He) as (x & Hx).
  assert (∃ y, settles (fun m => execute_one m b s None (l_view l)) y) as (y & Hy).
  { apply (settles_bind _ _ x Hx). intros. eexists. apply settles_ret. }
  apply (settles_bind _ _ y Hy). intros [r [c v']] ->. destruct Hy as [n Hn].
  destruct (execute_one_within n b s (l_view l) r c v' Hv Hs Hs0 He (Hn n ltac:(lia))) as (-> & M & Hg).
  destruct (intrinsic_u64 (tx s)) as [Hi _]. pose proof (wi_supply _ _ _ M). pose proof (ew_fee _ He).
  cbn [fst snd]. apply IH; cbn [l_view l_staking]; [apply M|nia|done].
Qed.

(** Execution of any block ends, ZVM contracts included: for a block whose
    transactions' fee caps reach the base fee (without the staking dispatcher)
    there is an amount of fuel from which on [execute_inner] returns, always
    the same outcome. *)
Theorem zvm_block_terminates {D} `{!Trie.TrieDB D} (b : Blk) v (d : option D) :
  view_ok v → view_supply v < U128_MAX → env_wf (Block.header b) →
  Forall (payable (Block.header b)) (Block.transactions (Block.body b)) →
  ∃ n x, ∀ m, (n ≤ m)%nat → execute_inner m b v d None = Some x.
Proof.
  intros Hv Hs He Hr.
  destruct (tx_loop_settles_any b (Block.transactions (Block.body b)) 0 (mkLoop 0 [] None v)) as (x & Hx); [done..|].
  by eapply execute_inner_settles.
Qed.
End Tx.

(** ** Concrete runs *)

Module Samples.
Import ExecutorProps.ExecutorProps.Samples Transaction.ZbxRlp.
#[local] Existing Instances keccak_sample keccak_sample_ok pre_sample pre_sample_ok zvm_sample heap_sample staking_sample
  Trie.memory_trie_db iter_sample.

#[local] Instance zvm_sample_ok : ZvmLogic.ZvmPrecompilesOk.
Proof.
  split; intros; cbn; try done. destruct (_ <? _); [done|]. split; [repeat constructor|]; unfold is_u8, is_u64; lia.
Qed.

(** A transfer and the creation of a ZVM contract whose code stores 5 in slot 1
    and reverts. *)
Definition t2 := signed 6 None 7 (ZVM_DEPLOY_DISCRIMINATOR :: [0x60; 5; 0x60; 1; 0x55; 0x60; 0; 0x60; 0; 0xFD]).
Definition zblk : Blk := Block.mkBlock (Block.header blk) (Block.mkBody [t0; t2] []).
Definition zres : ExecutionResult := get (mkExec [] diff_new 0 [] [] [] [] None) (execute 20 zblk v0).


Lemma view0_ok : view_ok v0.
Proof.
  assert (view_visible v0 = {[alice := mkAcct 5 (10 ^ 21) EMPTY_CODE_HASH EMPTY_STORAGE_ROOT Evm]}) as E
    by (vm_compute; reflexivity).
  split; [unfold sound; rewrite E; apply map_Forall_singleton|rewrite E; apply map_Forall_singleton|apply map_Forall_empty..|].
  - split; [cbn; lia|unfold is_u64; cbn; lia].
  - split; [done|]. cbn. repeat constructor; unfold is_u8; lia.
  - intros a. change (deleted (diffs v0)) with (@nil address). change (sv_to_delete v0) with (∅ : gset address).
    clear. set_solver.
Qed.

Lemma zenv : env_wf (Block.header zblk).
Proof. split; [cbn; lia|split; [apply length_to_be|apply wf_to_be]|apply wf_zero]. Qed.

Lemma payable_txs : Forall (payable (Block.header zblk)) (Block.transactions (Block.body zblk)).
Proof.
  pose proof (wf_alice) as Ha. apply Forall_cons_2; [|apply Forall_cons_2; [|by apply Forall_nil]].
  - split; [|done|cbn; lia]. apply wf_signed; [unfold is_u64; lia|apply wf_bob|lia|by apply Forall_nil|cbn; lia].
  - split; [|done|cbn; lia]. apply wf_signed; [unfold is_u64; lia|done|lia| |cbn; lia].
    repeat constructor; unfold is_u8, ZVM_DEPLOY_DISCRIMINATOR; lia.
Qed.


Lemma zvm_block_terminates_witness :
  ∃ n x, ∀ m, (n ≤ m)%nat → execute_inner (D := Trie.MemoryTrieDB) m zblk v0 None None = Some x.
Proof. exact (zvm_block_terminates zblk v0 None view0_ok ltac:(vm_compute; reflexivity) zenv payable_txs). Defined.

(** A reverted ZVM transaction leaves traces: its receipt says failure and the
    value is returned, and the store of the reverted code is in the diff. *)
Theorem reverted_zvm_tx_keeps_storage :
  map status (receipts zres) = [Success; Failure] ∧
  storage (state_diff zres) !! new_contract_address t2 = Some {[ZvmBase.word_of_u64 1 := ZvmBase.word_of_u64 5]}.
Proof. split; vm_compute; reflexivity. Qed.

(** A transfer whose fee cap is zero executes under a base fee of one gwei and
    pays nothing, so the base fee of its gas does not leave the supply. *)
Definition free_transfer : SignedTransaction :=
  let t := mkTx DynamicFee 5 0 0 60000 (Some bob) 1000 [] [] 8989 in
  mkSigned t sg alice (compute_hash (mkSigned t sg alice [])).
Definition cheap_blk : Blk := Block.mkBlock (Block.header blk) (Block.mkBody [free_transfer] []).
Definition cheap_res : ExecutionResult := get (mkExec [] diff_new 0 [] [] [] [] None) (execute 20 cheap_blk v0).

Theorem low_cap_underburns :
  execute_inner (D := Trie.MemoryTrieDB) 20 cheap_blk v0 None None = Some (Ok cheap_res) ∧
  gas_sum (receipts cheap_res) = 21000 ∧
  supply (applied (state_diff cheap_res) (base v0)) = view_supply v0 + block_reward_at 1.
Proof. split_and!; vm_compute; reflexivity. Qed.
End Samples.
End ZvmBlock.
