(* ===== verification/StakingExec.v ===== *)
(** * Blocks with staking transactions

    Connects the block executor ([Executor]) with the staking crate
    ([StakingTx], [StakingHandler], [Pipeline]): [BalanceAccess] for the
    executor's [StateView], the instance of [StakingOps] that
    [execute_with_staking] runs with, and the laws it satisfies. The theorem
    shows that a block cannot make the staking escrow insolvent. *)

From S2P Require Import Prelude.
From S2P Require Import EvmBase.
From S2P Require Import EvmHost.
From S2P Require Import EvmInterp.
From S2P Require Import EvmLogic.
From S2P Require Import EvmExec.
From S2P Require Import Votes.
From S2P Require Import Block.
From S2P Require Import Transaction.
From S2P Require Import State.
From S2P Require Import Supply.
From S2P Require Import StateRoot.
From S2P Require Import Trie.
From S2P Require Import Receipts.
From S2P Require Import Emission.
From S2P Require Import Validators.
From S2P Require Import StakingTx.
From S2P Require Import StakingLedger.
From S2P Require Import StakingHandler.
From S2P Require Import Slashing.
From S2P Require Import Pipeline.
From S2P Require Import ZvmBase.
From S2P Require Import ZvmInterp.
From S2P Require Import Executor.
From S2P Require Import ExecutorProps.

Module StakingExec.
Import Emission EvmBase EvmHost EvmInterp EvmLogic Votes Transaction.Transaction State.State Supply Receipts Executor.
#[local] Set Warnings "-clear-no-such-hyp".
#[local] Abbreviation ESCROW := StakingTx.StakingTx.STAKING_PRECOMPILE_ADDR.

(** [impl BalanceAccess for StateView] *)
#[export] Instance view_balances : StakingHandler.BalanceAccess View := {|
  StakingHandler.get_balance := get_balance; StakingHandler.set_balance := set_balance |}.

Section Instance_.
Context `{Keccak} `{Bls} `{Validators.BlsPoints} `{Sha3} `{Pipeline.Bincode} `{Pipeline.Disk}.
Context `{RlpCrate} `{StakingTx.StakingTx.RlpReader} (I : StakingLedger.DeltaIter).

(** The staking crate over the database [db] of the node. *)
Definition staking_ops (db : StakingLedger.ZbxDb) : StakingOps := {|
  ValidatorSet := Validators.ValidatorSet;
  StakingDelta := StakingLedger.StakingDelta;
  SlashingPipeline := Pipeline.SlashingPipeline;
  StakingCall := StakingTx.StakingTx.StakingTx;
  StakingError := Validators.StakingError;
  delta_new := StakingLedger.delta_new;
  decode_staking_call := StakingTx.StakingTx.decode_staking_call;
  file_appeal_id c := match c with StakingTx.StakingTx.FileAppeal id => Some id | _ => None end;
  dispatch_file_appeal_tx := Pipeline.dispatch_file_appeal_tx;
  dispatch_staking_tx := StakingHandler.dispatch_staking_tx db
|}.

Lemma sum128_nonneg l : 0 ≤ sum128 l.
Proof.
  unfold sum128. assert (∀ acc, 0 ≤ acc → 0 ≤ fold_left (fun acc x => wrap128 (acc + x)) l acc) as Hf; [|by apply Hf].
  induction l as [|x l IH]; intros acc Ha; [done|]. cbn. apply IH. unfold wrap128. apply Z.mod_pos_bound. unfold U128. lia.
Qed.

(** What any call does to the balances. *)
Definition pays (b : View) (who : address) (b' : View) (x : Z) : Prop :=
  b' = b ∧ x = 0 ∨ b' = StakingHandler.paid x who b ∧ 0 ≤ x ≤ get_balance b ESCROW.

Lemma pay_out_pays x who gas vs d b : 0 ≤ x → ∃ y, pays b who (StakingHandler.pay_out x who gas vs d b).2.2 y.
Proof.
  intros Hx. unfold StakingHandler.pay_out, pays. destruct (Z.ltb_spec (StakingHandler.get_balance b ESCROW) x) as [|Hge]; cbn [snd]; [eauto|].
  exists x. right. done.
Qed.

Lemma dispatch_pays db call who value h vs d (b : View) :
  ∃ y, pays b who (StakingHandler.dispatch_staking_tx db call who value h vs d b).2.2 y.
Proof.
  assert (∃ y, pays b who b y) as Hb by (exists 0; by left).
  destruct call; cbn [StakingHandler.dispatch_staking_tx].
  - unfold StakingHandler.do_register. by repeat case_match.
  - unfold StakingHandler.do_delegate. by repeat case_match.
  - unfold StakingHandler.do_undelegate. by repeat case_match.
  - unfold StakingHandler.do_withdraw. case_match; [done|]. case_bool_decide; [done|]. case_match; [done|]. apply pay_out_pays, sum128_nonneg.
  - unfold StakingHandler.do_claim. case_match; [done|]. case_bool_decide; cbn [negb]; [|done]. subst.
    destruct (Validators.vs_get vs validator) as [v|]; [|done]. destruct (Validators.vs_claim_rewards validator vs) as [[x vs']|e|]; [|done..].
    destruct (Z.ltb_spec 0 x); [apply pay_out_pays; lia|done].
  - unfold StakingHandler.do_claim_delegator. case_match; [done|]. destruct (StakingLedger.get_delegation d db validator who) as [n|e|]; [|done..].
    case_match; [done|]. destruct (Validators.claim_delegator_reward validator who n vs) as [[x|e|] vs']; [|done..].
    destruct (Z.ltb_spec 0 x); [apply pay_out_pays; lia|done].
  - done.
Qed.

(** A balance write as a move of money. *)
Lemma set_balance_moved v a x : plain v → 0 ≤ x →
  moved v (set_balance a x v) (at_addr a (x - bal v a)) (fun _ => 0) (x - bal v a).
Proof.
  intros Hp Hx. destruct (good_get v a Hp) as (Hb & Hn & Hv). unfold set_balance.
  eapply moved_ext; [apply set_account_moved; [done|by split_and!|done]|..]; cbn; unfold at_addr, bal, non; intros; try case_decide; lia.
Qed.

Lemma paid_moved x who v : plain v → view_supply v < U128 → 0 ≤ x ≤ get_balance v ESCROW →
  moved v (StakingHandler.paid x who v) (fun a => at_addr who x a - at_addr ESCROW x a) (fun _ => 0) 0.
Proof.
  intros Hp Hs Hx. unfold StakingHandler.paid. cbn [StakingHandler.get_balance StakingHandler.set_balance view_balances].
  unfold get_balance in Hx |- *. rewrite balance_small in Hx by done. rewrite (balance_small v ESCROW) by done.
  pose proof (bal_bound v ESCROW Hp) as Hb.
  pose proof (set_balance_moved v ESCROW (bal v ESCROW - x) Hp ltac:(lia)) as M1. set (v1 := set_balance ESCROW _ v) in *.
  pose proof M1 as [P1 _ B1 _ S1]. pose proof (bal_bound v1 who P1) as Hb1. rewrite balance_small by (done || lia).
  assert (saturating_add128 (bal v1 who) x = bal v1 who + x) as -> by (unfold saturating_add128, U128_MAX, U128 in *; lia).
  eapply moved_ext; [eapply moved_trans; [exact M1|apply (set_balance_moved v1 who (bal v1 who + x)); [done|lia]]|..].
  - intros a. unfold at_addr. repeat case_decide; lia.
  - done.
  - lia.
Qed.

Lemma pays_moved v who v' x : plain v → view_supply v < U128 → pays v who v' x →
  moved v v' (fun a => at_addr who x a - at_addr ESCROW x a) (fun _ => 0) 0.
Proof.
  intros Hp Hs [[-> ->]|[-> Hx]]; [|by apply paid_moved]. eapply moved_ext; [by apply moved_refl|..]; try done.
  intros a. unfold at_addr. repeat case_decide; lia.
Qed.

Lemma pay_out_gas x who gas vs d (b : View) g : 0 ≤ gas → (StakingHandler.pay_out x who gas vs d b).1 = Ok g → 0 ≤ g.
Proof. intros Hg. unfold StakingHandler.pay_out. case_match; cbn; [done|]. by intros [= <-]. Qed.

Lemma dispatch_gas db call who value h vs d (b : View) g :
  (StakingHandler.dispatch_staking_tx db call who value h vs d b).1 = Ok g → 0 ≤ g.
Proof.
  destruct call; cbn [StakingHandler.dispatch_staking_tx].
  - unfold StakingHandler.do_register. repeat case_match; cbn; by intros [= <-].
  - unfold StakingHandler.do_delegate. repeat case_match; cbn; by intros [= <-].
  - unfold StakingHandler.do_undelegate. repeat case_match; cbn; by intros [= <-].
  - unfold StakingHandler.do_withdraw. case_match; [done|]. case_bool_decide; [done|]. case_match; [done|]. by apply pay_out_gas.
  - unfold StakingHandler.do_claim. case_match; [done|]. case_bool_decide; cbn [negb]; [|done]. subst.
    destruct (Validators.vs_get vs validator) as [v|]; [|done]. destruct (Validators.vs_claim_rewards validator vs) as [[x vs']|e|]; [|done..].
    case_match; [by apply pay_out_gas|]. cbn. by intros [= <-].
  - unfold StakingHandler.do_claim_delegator. case_match; [done|]. destruct (StakingLedger.get_delegation d db validator who) as [n|e|]; [|done..].
    case_match; [done|]. destruct (Validators.claim_delegator_reward validator who n vs) as [[x|e|] vs']; [|done..].
    case_match; [by apply pay_out_gas|]. cbn. by intros [= <-].
  - done.
Qed.

Lemma pays_codes v who v' x : pays v who v' x → codes v' = codes v.
Proof.
  intros [[-> _]|[-> _]]; [done|]. unfold StakingHandler.paid. cbn [StakingHandler.get_balance StakingHandler.set_balance view_balances].
  unfold set_balance. by rewrite !set_account_codes.
Qed.

#[export] Instance staking_laws db : @StakingLaws (staking_ops db).
Proof.
  split.
  - intros call who value h vs d v Hp Hs x. destruct (dispatch_pays db call who value h vs d v) as (y & Hy). split_and!.
    + eexists. by apply (pays_moved v who _ y).
    + intros g. apply dispatch_gas.
    + by apply (pays_codes v who _ y).
  - intros id who value h p g. cbn. unfold Pipeline.dispatch_file_appeal_tx. case_match; [done|].
    unfold mbind, Pipeline.M_bind, Pipeline.bind, Pipeline.ret. repeat case_match; cbn; by intros [= <-].
Qed.

End Instance_.

(** ** Solvency over a block *)

Section Solvency.
Context `{KO : KeccakOk} `{PO : PrecompilesOk} `{Bls} `{Validators.BlsPoints} `{Sha3} `{Pipeline.Bincode} `{Pipeline.Disk}.
Context `{RlpCrate} `{StakingTx.StakingTx.RlpReader} `{!StakingTx.StakingTx.RlpReaderLaws} `{ZvmInterp.ZvmPrecompiles} `{HP : ZvmBase.Heap} `{StateRoot.MapIter}.
Context (I : StakingLedger.DeltaIter) (HI : StakingLedger.delta_iter_ok I) (db : StakingLedger.ZbxDb).

#[local] Instance ops : StakingOps := staking_ops I db.
#[local] Instance ops_laws : StakingLaws := staking_laws I db.

Definition owed_by_escrow (c : StakingCtx) : Z := StakingHandler.liabilities I db (sc_vs c) (sc_delta c).

(** The books are in order and the escrow can pay everything it owes. The
    theorems below keep this over blocks of the EVM and staking paths: no ZVM
    account in the world, no ZVM deployment, fee caps at least the base fee. *)
Definition solvent (v : View) (c : StakingCtx) : Prop :=
  StakingHandler.wf_staking I db (sc_vs c) (sc_delta c) ∧ owed_by_escrow c ≤ bal v ESCROW.

(** A sender with a proper address that is not the escrow itself. *)
Definition outsider (s : SignedTransaction) : Prop := wf_address (from s) ∧ from s ≠ ESCROW.

Lemma at_other a x : a ≠ ESCROW → at_addr a x ESCROW = 0.
Proof. intros Ha. unfold at_addr. by rewrite decide_False by congruence. Qed.

Lemma at_nonneg a x : 0 ≤ x → 0 ≤ at_addr a x ESCROW.
Proof. intros Hx. unfold at_addr. by case_decide. Qed.

Lemma credit_escrow v a x : plain v → 0 ≤ x → view_supply v + x < U128 → bal v ESCROW ≤ bal (credit a x v) ESCROW.
Proof. intros Hp Hx Hs. rewrite (mv_bal _ _ _ _ _ (credit_moved v a x Hp Hx Hs)). pose proof (at_nonneg a x Hx). lia. Qed.

(** The dispatched call: the escrow's balance, with the value when it
    succeeds, still covers what is owed. *)
Lemma dispatch_call_solvent s h c v success g c' v' :
  plain v → view_supply v < U128 → wf_tx (tx s) → outsider s → is_u64 (Block.number h) →
  bal v ESCROW + value_u128 s < U128 → solvent v c → dispatch_call s h c v = Ok ((success, g), (c', v')) →
  StakingHandler.wf_staking I db (sc_vs c') (sc_delta c') ∧ owed_by_escrow c' ≤ bal v' ESCROW + (if success then value_u128 s else 0).
Proof.
  intros Hp Hs W (Wf & Hne) Hh Hroom (Wb & Hle) E. destruct (cost_nonneg s W) as [_ Hv].
  assert (∀ b : bool, StakingHandler.wf_staking I db (sc_vs c) (sc_delta c) ∧ owed_by_escrow c ≤ bal v ESCROW + (if b then value_u128 s else 0)) as Hkeep
    by (intros []; (split; [done|lia])).
  unfold dispatch_call in E. destruct (decode_staking_call _) as [call|e|] eqn:Ed; [|by simplify_eq; apply (Hkeep false)|done].
  destruct (file_appeal_id call) as [id|] eqn:Ea.
  - destruct (sc_pipeline c) as [pl|]; [|by simplify_eq; apply (Hkeep false)].
    destruct (dispatch_file_appeal_tx _ _ _ _ _) as [[g'|e|] p']; simplify_eq; [apply (Hkeep true)|apply (Hkeep false)].
  - pose proof (StakingTx.StakingTx.decoded_wf _ _ (proj1 (wt_data _ W)) Ed) as Wc.
    destruct (StakingHandler.dispatch_booked I HI db (sc_vs c) (sc_delta c) v (from s) (value_u128 s) Wb Wf Hv ltac:(unfold owed_by_escrow in *; lia)
      call (Block.number h) Wc Hh) as [_ Wvs Wd (x & Hx & Hpay & Hbook)].
    assert (bal (dispatch_staking_tx call (from s) (value_u128 s) (Block.number h) (sc_vs c) (sc_delta c) v).2.2 ESCROW = bal v ESCROW - x) as Eb.
    { assert (pays v (from s) (dispatch_staking_tx call (from s) (value_u128 s) (Block.number h) (sc_vs c) (sc_delta c) v).2.2 x) as Hp'.
      { destruct Hpay as [[E1 E2]|[E1 E2]]; [by left|right; split; [exact E1|split; [done|exact E2]]]. }
      rewrite (mv_bal _ _ _ _ _ (pays_moved _ _ _ _ Hp Hs Hp')). rewrite at_other by done. unfold at_addr. rewrite decide_True by done. lia. }
    change (StakingHandler.dispatch_staking_tx db call (from s) (value_u128 s) (Block.number h) (sc_vs c) (sc_delta c) v)
      with (dispatch_staking_tx call (from s) (value_u128 s) (Block.number h) (sc_vs c) (sc_delta c) v) in *.
    destruct (dispatch_staking_tx _ _ _ _ _ _ _) as [[g'|e|] [[vs d] w]]; [| |done]; injection E as <- <- <- <-; cbn [fst snd sc_vs sc_delta] in *;
      unfold owed_by_escrow in *; cbn [sc_vs sc_delta]; (split; [split; [apply Wb|done|done|lia]|lia]).
Qed.

Lemma staking_tx_solvent s h c v r c' v' :
  plain v → 2 * view_supply v < U128 → wf_tx (tx s) → outsider s → is_u64 (Block.number h) → solvent v c →
  execute_staking_tx s h c v = Ok (r, (c', v')) → solvent v' c'.
Proof.
  intros Hp Hs W O Hh S E. destruct (cost_nonneg s W) as [Hc Hv]. pose proof (bal_bound v (from s) Hp) as Hb. pose proof (bal_bound v ESCROW Hp) as Hbe.
  unfold execute_staking_tx in E. destruct (preflight s v) as [v1|e|] eqn:E1; [|done..]. cbn [outcome_bind] in E.
  destruct (preflight_moved s v v1 Hp ltac:(unfold U128, U128_MAX in *; lia) W E1) as (M1 & _ & Hcost & _). pose proof M1 as [P1 _ B1 _ S1].
  assert (bal v1 ESCROW = bal v ESCROW) as Ee by (rewrite B1, at_other by apply O; lia).
  destruct (dispatch_call s h c v1) as [[[success g] [c1 v2]]|e|] eqn:E2; [|done..]. cbn [outcome_bind] in E. injection E as _ <- <-.
  assert (view_supply v1 < U128) as Hs1 by lia.
  destruct (dispatch_call_solvent s h c v1 success g c1 v2 P1 Hs1 W O Hh ltac:(lia)) as [Wb Hle]; [split; [apply S|rewrite Ee; apply S]|done|].
  split; [exact Wb|]. destruct (dispatch_call_moved s h c v1 success g c1 v2 P1 Hs1 E2) as ((δ & [P2 _ _ _ S2]) & _).
  unfold settle_fee. set (refund := saturating_sub _ _). assert (0 ≤ refund) as Hr by (unfold refund, saturating_sub; lia).
  assert (refund ≤ max_cost s) as Hr2.
  { unfold refund, saturating_sub. pose proof (price_nonneg s (Block.base_fee_per_gas h)) as Hpr.
    pose proof (dispatch_call_moved s h c v1 success g c1 v2 P1 Hs1 E2) as (_ & Hg).
    assert (0 ≤ tx_gas_used s g) by (unfold tx_gas_used, saturating_add64, U64_MAX; destruct (intrinsic_u64 (tx s)), (wt_gas _ W); lia). nia. }
  pose proof (credit_moved v2 (from s) refund P2 Hr ltac:(lia)) as [P3 _ _ _ S3]. pose proof (credit_escrow v2 (from s) refund P2 Hr ltac:(lia)) as G1.
  set (v3 := credit (from s) refund v2) in *. destruct success.
  - destruct (Z.ltb_spec 0 (value_u128 s)) as [Hpos|Hz]; [|lia].
    rewrite (mv_bal _ _ _ _ _ (credit_moved v3 ESCROW (value_u128 s) P3 ltac:(lia) ltac:(lia))). unfold at_addr. rewrite decide_True by done. lia.
  - pose proof (credit_escrow v3 (from s) (value_u128 s) P3 Hv ltac:(lia)). lia.
Qed.

#[local] Abbreviation Blk := (Block.Block SignedTransaction).

Lemma execute_one_solvent fuel (b : Blk) s c v r x v' :
  plain v → 2 * view_supply v < U128 → regular (Block.header b) s → outsider s → is_u64 (Block.number (Block.header b)) →
  solvent v c → execute_one fuel b s (Some c) v = Some (Ok (r, (x, v'))) → ∃ c', x = Some c' ∧ solvent v' c'.
Proof.
  intros Hp Hs (W & Hev & _) O Hh S E. unfold execute_one in E. destruct (is_staking_destination (to (tx s))).
  - destruct (execute_staking_tx s (Block.header b) c v) as [[r0 [c1 v0]]|e|] eqn:Et; [|done..]. cbn in E. injection E as _ <- <-.
    exists c1. split; [done|]. by eapply staking_tx_solvent.
  - destruct (execute_tx fuel s (Block.header b) v) as [[[r0 v0]|e|]|] eqn:Et; [|done..]. cbn in E. injection E as _ <- <-. exists c. split; [done|].
    pose proof (bal_bound v ESCROW Hp). destruct S as [Wb Hle]. split; [done|].
    destruct (execute_tx_moved fuel s (Block.header b) v r0 v0 Hp ltac:(unfold U128, U128_MAX in *; lia) W Hev Et) as (M & _).
    rewrite (mv_bal _ _ _ _ _ M), (at_other (from s)) by apply O. destruct (cost_nonneg s W) as [_ Hv].
    pose proof (at_nonneg (recipient s) (if tr_success r0 then value_u128 s else 0) ltac:(destruct (tr_success r0); lia)). lia.
Qed.

Lemma tx_loop_solvent fuel (b : Blk) txs idx l l' c :
  plain (l_view l) → 2 * view_supply (l_view l) < U128 → 0 ≤ Block.base_fee_per_gas (Block.header b) → is_u64 (Block.number (Block.header b)) →
  Forall (fun s => regular (Block.header b) s ∧ outsider s) txs → l_staking l = Some c → solvent (l_view l) c →
  tx_loop fuel b idx txs l = Some (Ok l') → ∃ c', l_staking l' = Some c' ∧ solvent (l_view l') c'.
Proof.
  intros Hp Hs Hbf Hh Hr. revert idx l c Hp Hs. induction Hr as [|s txs [Hs0 O] Hr IH]; intros idx l c Hp Hs Hst S E.
  { injection E as <-. eauto. }
  cbn [tx_loop] in E. rewrite Hst in E. pose proof (bal_bound (l_view l) ESCROW Hp).
  destruct (execute_one fuel b s (Some c) (l_view l)) as [[[r [x v']]|e|]|] eqn:E1; [|done..]. cbn [fbind fst snd] in E.
  destruct (execute_one_moved fuel b s (l_view l) r _ x v' Hp ltac:(unfold U128, U128_MAX in *; lia) Hbf Hs0 E1) as (P & D & N & S1 & Hg & Hmono).
  destruct (execute_one_solvent fuel b s c (l_view l) r x v' Hp Hs Hs0 O Hh S E1) as (c1 & -> & [Wb Hle]).
  destruct (intrinsic_u64 (tx s)) as [Hi _]. eapply IH in E; [exact E|done|cbn; nia|reflexivity|]. cbn [l_view]. split; [done|].
  etrans; [exact Hle|apply Hmono].
Qed.

(** C6: On the EVM and staking paths a block cannot make the staking escrow
    insolvent. Take a world without ZVM accounts and a block that deploys none
    ([plain], [regular]: the contract calls are EVM calls), whose transactions'
    fee caps reach the base fee and whose senders are not the escrow, the
    doubled supply fitting 128 bits. If before the block the escrow account
    holds at least every stake, reward and queued withdrawal the staking books
    record, it does so after the block, with the books as the block leaves
    them, and the books stay well formed: no mix of transfers, EVM calls,
    staking calls and appeals, successful or failed, takes more out of the
    escrow than it takes off the books. Calls of ZVM contracts are outside the
    theorem. *)
Theorem escrow_stays_solvent {D} `{!Trie.TrieDB D} (fuel : nat) (b : Blk) (v : View) (d : option D) (c : StakingCtx) (r : ExecutionResult) :
  plain v → 2 * (view_supply v + block_reward_at (Block.blk_number b)) < U128 →
  0 ≤ Block.base_fee_per_gas (Block.header b) → is_u64 (Block.number (Block.header b)) →
  Forall (fun s => regular (Block.header b) s ∧ outsider s) (Block.transactions (Block.body b)) →
  solvent v c → execute_inner fuel b v d (Some c) = Some (Ok r) →
  ∃ c', staking r = Some c' ∧ StakingHandler.wf_staking I db (sc_vs c') (sc_delta c') ∧
    owed_by_escrow c' ≤ acct_balance (w_get (accounts (state_diff r) ∪ base v) ESCROW).
Proof.
  intros Hp Hs Hbf Hh Hr S E. unfold execute_inner in E. case_if; [done|]. pose proof (reward_nonneg (Block.blk_number b)) as Hrw.
  pose proof (bal_bound v ESCROW Hp) as Hb.
  destruct (tx_loop _ _ _ _ _) as [[l|e|]|] eqn:El; [|done..]. cbn [fbind] in E.
  destruct (final_root d _) as [rt|e|]; [|done..]. cbn [lift fbind fret] in E. injection E as <-. cbn [staking state_diff].
  pose proof El as El'. eapply tx_loop_solvent in El' as (c' & Ec & [Wb Hle]); [|done|cbn [l_view]; lia|done|done|done|reflexivity|done].
  apply tx_loop_moved in El as (rs & ER & P & D0 & S1 & _ & F & _); cbn [l_view l_receipts l_cumulative l_staking] in *;
    [|done|unfold U128, U128_MAX in *; lia|done|by eapply Forall_impl; [exact Hr|]; intros s []|unfold is_u64; lia].
  exists c'. split_and!; [done|done|].
  pose proof (gas_sum_nonneg _ _ F) as Hgs.
  assert (plain (pay_reward b (l_view l)) ∧ base (pay_reward b (l_view l)) = base v ∧ bal (l_view l) ESCROW ≤ bal (pay_reward b (l_view l)) ESCROW)
    as (P' & D' & Hm).
  { unfold pay_reward. destruct (Z.ltb_spec 0 (block_reward_at (Block.blk_number b))); [|split_and!; [done|done|lia]].
    assert (view_supply (l_view l) + block_reward_at (Block.blk_number b) < U128) as Hrm by nia.
    pose proof (credit_moved (l_view l) (Block.coinbase (Block.header b)) _ P Hrw Hrm) as [P1 D1 _ _ _].
    split_and!; [done|congruence|by apply credit_escrow]. }
  assert (accounts (into_diff (pay_reward b (l_view l))) ∪ base v = view_visible (pay_reward b (l_view l))) as Ew.
  { rewrite plain_world by done. by rewrite D'. }
  rewrite Ew, <- view_get_visible. fold (bal (pay_reward b (l_view l)) ESCROW). lia.
Qed.

End Solvency.

(** ** A concrete block *)

Module Samples.
Import ExecutorProps.ExecutorProps.Samples.
Import StakingHandler.Samples StakingLedger.Samples.
#[local] Existing Instances ExecutorProps.ExecutorProps.Samples.keccak_sample ExecutorProps.ExecutorProps.Samples.keccak_sample_ok
  pre_sample pre_sample_ok zvm_sample heap_sample Trie.memory_trie_db iter_sample bls_sample points_sample.
#[local] Existing Instances Transaction.ZbxRlp.zbx_rlp StakingTx.ZbxReader.zbx_reader StakingTx.ZbxReader.zbx_reader_laws.
#[local] Existing Instance Slashing.Samples.sha_sample.
#[local] Existing Instances Pipeline.Samples.codec Pipeline.Samples.good.

(** A transfer, then a delegation of 1000 to validator 2. *)
Definition stake_tx : SignedTransaction :=
  signed 6 (Some ESCROW) 1000 (StakingTx.StakingTx.encode (StakingTx.StakingTx.Delegate (StakingLedger.Samples.adr 2) 1000)).

Definition v1 : View :=
  view_seed_account ESCROW (mkAcct 0 (3 * 10 ^ 23) EMPTY_CODE_HASH EMPTY_STORAGE_ROOT Evm) v0.
Definition blk1 : Block.Block SignedTransaction := Block.mkBlock (Block.header blk) (Block.mkBody [t0; stake_tx] []).
Definition c0 : @StakingCtx (staking_ops iter_up hdb) := @mkStakingCtx (staking_ops iter_up hdb) hvs None StakingLedger.delta_new.
Definition res1 : @ExecutionResult (staking_ops iter_up hdb) :=
  get (@mkExec (staking_ops iter_up hdb) [] diff_new 0 [] [] [] [] None)
    (@execute_inner _ _ _ _ _ (staking_ops iter_up hdb) _ Trie.MemoryTrieDB _ 20 blk1 v1 None (Some c0)).

Lemma get_ok {A} (dflt : A) (x : fueled A) : match x with Some (Ok _) => true | _ => false end = true → x = Some (Ok (get dflt x)).
Proof. by destruct x as [[]|]. Qed.

Lemma res1_ok : @execute_inner _ _ _ _ _ (staking_ops iter_up hdb) _ Trie.MemoryTrieDB _ 20 blk1 v1 None (Some c0) = Some (Ok res1).
Proof. apply get_ok. vm_compute. reflexivity. Qed.

Lemma v1_world : view_visible v1 = <[ESCROW := mkAcct 0 (3 * 10 ^ 23) EMPTY_CODE_HASH EMPTY_STORAGE_ROOT Evm]>
  {[alice := mkAcct 5 (10 ^ 21) EMPTY_CODE_HASH EMPTY_STORAGE_ROOT Evm]}.
Proof. vm_compute. reflexivity. Qed.

Lemma plain_v1 : plain v1.
Proof.
  split; [done|]. rewrite v1_world. apply map_Forall_insert_2; [|apply map_Forall_singleton];
    (split_and!; [cbn; lia|unfold is_u64; cbn; lia|done]).
Qed.

Lemma txs1_ok : Forall (fun s => regular (Block.header blk1) s ∧ outsider s) (Block.transactions (Block.body blk1)).
Proof.
  assert (∀ s, from s = alice → outsider s) as Ho.
  { intros s E. unfold outsider. rewrite E. split; [apply wf_alice|]. vm_compute. discriminate. }
  destruct (proj1 (Forall_cons _ _ _) regular_txs) as [R0 _].
  apply Forall_cons_2; [split; [exact R0|by apply Ho]|]. apply Forall_cons_2; [|by apply Forall_nil]. split; [|by apply Ho].
  split_and!; [|discriminate|cbn; lia]. apply wf_signed; [unfold is_u64; lia| |lia| |vm_compute; reflexivity].
  - split; [done|]. repeat (apply Forall_cons_2; [unfold is_u8; lia|]). by apply Forall_nil.
  - let e := constr:(StakingTx.StakingTx.encode (StakingTx.StakingTx.Delegate (StakingLedger.Samples.adr 2) 1000)) in
    let x := eval vm_compute in e in replace e with x by (vm_compute; reflexivity).
    repeat (apply Forall_cons_2; [unfold is_u8; lia|]). by apply Forall_nil.
Qed.

(** The delegation is on the books and in the escrow. *)
Lemma escrow_stays_solvent_witness :
  ∃ c', @staking (staking_ops iter_up hdb) res1 = Some c' ∧
    owed_by_escrow iter_up hdb c' ≤ acct_balance (w_get (accounts (state_diff res1) ∪ base v1) ESCROW) ∧
    owed_by_escrow iter_up hdb c' = owed_by_escrow iter_up hdb c0 + 1000.
Proof.
  destruct (escrow_stays_solvent iter_up iter_up_ok hdb 20 blk1 v1 None c0 res1) as (c' & E & _ & Hle).
  - exact plain_v1.
  - unfold view_supply. rewrite v1_world. vm_compute. reflexivity.
  - cbn. lia.
  - unfold is_u64. cbn. lia.
  - exact txs1_ok.
  - split; [exact hstaking_wf|]. vm_compute. discriminate.
  - exact res1_ok.
  - exists c'. split_and!; [exact E|exact Hle|]. change (owed_by_escrow iter_up hdb (default c0 (Some c')) = owed_by_escrow iter_up hdb c0 + 1000). rewrite <- E.
    vm_compute. reflexivity.
Defined.

End Samples.

End StakingExec.
